(* ===== verification/_CoqProject ===== *)
-Q . S2P
Prelude.v
Errors.v
Primitives.v
Apis.v
Framing.v
Header.v
Records.v
RecordIter.v
Build.v
Compaction.v
Cleaner.v
PendingRing.v
Producer.v
Acl.v
Group.v
Pmeta.v
Store.v
Offsets.v
Txn.v
TxnSpec.v
TxnTheorems.v
Config.v
Topics.v
Produce.v
ProduceSpec.v
ProduceResend.v
Share.v
ShareSpec.v
ShareWedge.v
Table.v
TableSpec.v
TableRead.v
TableKeep.v
TableRun.v
TableAborts.v
Fetch.v
FetchSpec.v
ShareHandlers.v
ShareServe.v
ShareBehind.v
ConsumerGroup.v
Assign.v
ConsumerGroupSpec.v
ConsumerGroupRun.v
ConsumerGroupClients.v
ConsumerGroupConverge.v
OffsetHandlers.v
OffsetSpec.v
Segment.v
SegmentFiles.v
SegmentView.v
SegmentAppend.v
SegmentSlots.v
SegmentRun.v
SegmentReclaim.v
SegmentSpec.v
SegmentHold.v
SegmentEngines.v
SegmentAccept.v
SegmentFaults.v
Sasl.v
SaslSpec.v
ServerConn.v
ServerInbound.v
Server.v
ServerInv.v
ServerStep.v
ServerRefine.v
ServerPass.v
ServerLoop.v
ServerToy.v
ServerParked.v
ServerTheorems.v
Lsn.v
Cdc.v
CdcInv.v
CdcDrain.v
CdcPeek.v
CdcLoss.v
CdcTheorems.v
