(* ===== verification/Prelude.v ===== *)
(** * kafgres: a Kafka broker inside PostgreSQL, modelled and verified

    kafgres speaks the Kafka wire protocol from a background worker of a
    PostgreSQL server.  A request is cut off the connection's byte stream
    (codec/src/framing.rs), its header is decoded (codec/src/header.rs over
    codec/src/primitives.rs), its version is negotiated against the API tables
    (codec/src/generated/apis.rs), and a handler under extension/src/handlers/
    answers it, over SQL tables and one of two storage engines behind the
    [LogStore] trait (extension/src/storage/).  One thread serves every
    connection (server/mod.rs): it admits input within a budget, authenticates
    (sasl.rs), dispatches (server/dispatch.rs), parks what has to wait, and lets
    acknowledgements out once what they acknowledge is durable.  A worker drains
    a replication slot of the database into topics (cdc.rs).  Records travel as magic-v2
    batches (codec/src/records.rs), which the engines keep as they came,
    stamped, and compact (codec/src/compaction.rs).

    This library is a shallow embedding.  A pure function is a function; code
    that consumes or fills a buffer, or works on tables, is a state-and-error
    computation ([ST] below) that keeps the state an early return leaves
    behind.  A SQL statement is a function on the tables it names, a table a
    finite map (or a list where the order of insertion matters) with the
    columns the code uses.  Integers are [Z] in the range of their Rust type,
    with [wrap_i] and [wrap_u] where the source wraps; bytes are [Byte.byte].

    ** Files, in dependency order

    - Prelude.v (this file): results, the monad, machine integers, byte
      strings, big-endian and LEB128 encodings, tactics, the [kafgres] hints.
    - Errors.v: codec/src/errors.rs.  [CodecError], [ErrorCode.t] with wire
      codes and retriability.
    - Primitives.v: codec/src/primitives.rs.  Readers, writers and size
      functions, and [WireLaw], the contract of [Encodable] in codec/src/lib.rs
      (what is written is as long as announced, reads back, and is reported as
      truncated when cut short), with an instance per primitive.
    - Apis.v: the API tables and the version range rule.
    - Framing.v: [take_frame], [write_frame], [negotiate].
    - Header.v: both headers at every header version.
    - Records.v: the batch header, [validated], [stamp], [BatchIter].
    - RecordIter.v: [RecordIter] and [KeyIter] over a buffer or a stream.
    - Build.v: [build_batch_full], [build_control_batch].
    - Compaction.v: [survivors_until], [OffsetMap], [clean_batch],
      [rebuild_batch].
    - Cleaner.v: extension/src/storage/mod.rs.  The steps of a compaction pass,
      the tombstone rule, budgets, timestamp lookup, [StoreError].
    - PendingRing.v: extension/src/storage/segment/pending.rs.  The circular
      buffer of offsets reserved by uncommitted transactions.
    - Producer.v: extension/src/producer.rs.  Producer ids, epochs, the window
      of recent batches, the sweep.
    - Acl.v: extension/src/acl.rs.  Rules, matching, the decision.
    - Group.v: extension/src/group.rs, handlers/join_sync.rs and the parked join
      of server/mod.rs.  The classic group coordinator.
    - Pmeta.v: extension/src/storage/pmeta.rs.  Leader epochs, markers, the
      abort index, the partitions of open transactions.
    - Store.v: the [LogStore] trait of storage/mod.rs as a type class, its laws,
      and an in-memory instance.
    - Offsets.v: handlers/offsets.rs.  Who may commit offsets.
    - Txn.v: handlers/txn.rs and handlers/init_producer_id.rs.  The transaction
      coordinator, over the tables of Producer.v, Pmeta.v and Group.v and any
      [LogStore].
    - TxnSpec.v: the invariant of those tables and what each handler does to
      them.
    - TxnTheorems.v: reachable states and the guarantees of the coordinator.
    - Config.v: extension/src/config.rs.  The table of topic configurations, their
      validation and storage, and their readers.
    - Topics.v: extension/src/meta.rs, handlers/topics.rs, handlers/configs.rs.  The
      topic catalog, its handlers and those of configurations.
    - Produce.v: handlers/produce.rs and dbtx.rs.  The three phases of Produce over a
      store and tables that may fail at every call; ProduceSpec.v and
      ProduceResend.v: what lands, and what a resend does.
    - Share.v: handlers/share_group.rs.  The in-flight table of share groups;
      ShareSpec.v: its theorems; ShareWedge.v: a partition that stops.
    - Table.v: extension/src/storage/table.rs.  The engine that keeps batches as rows;
      TableSpec.v: its invariant and that it is a [LogStore]; TableRead.v,
      TableKeep.v, TableAborts.v: reading, truncation, the list of aborted
      transactions; TableRun.v: retention and reachable tables.
    - Fetch.v: handlers/fetch.rs, list_offsets.rs and leader_epoch.rs, over the table
      engine, and the size of a fetch response on the wire (the [size] functions of
      codec/src/generated/fetch_response.rs, [write_response] of handlers/mod.rs);
      FetchSpec.v: their theorems.
    - ShareHandlers.v: the requests of share groups and handlers/share_offsets.rs;
      ShareServe.v, ShareBehind.v: their theorems.
    - ConsumerGroup.v: handlers/consumer_group.rs.  KIP-848 groups; Assign.v: the
      assignor; ConsumerGroupSpec.v, ConsumerGroupRun.v: the tables and what each
      request does to them; ConsumerGroupClients.v: members with their views;
      ConsumerGroupConverge.v: convergence.
    - OffsetHandlers.v: the OffsetCommit, OffsetFetch and OffsetDelete handlers of
      handlers/offsets.rs; OffsetSpec.v: their theorems.
    - Segment.v: extension/src/storage/segment.rs.  The engine that keeps batches in
      segment files: slots in shared memory, recovery, appends, reservations, reads,
      lookups by time, retention, truncation.  SegmentFiles.v: runs of batches in a
      file and torn tails; SegmentView.v: a partition under its lock; SegmentAppend.v:
      appending to it, reading it, cutting it; SegmentSlots.v: slots, recovery and the
      invariant of the store; SegmentRun.v, SegmentReclaim.v: the requests
      of the store, and restarts; SegmentSpec.v: the abstract log and the refinement;
      SegmentHold.v: reservations; SegmentEngines.v: both engines side by side;
      SegmentAccept.v: appends and recovery; SegmentFaults.v: where the contract ends.
    - Sasl.v: extension/src/sasl.rs.  SCRAM-SHA-256: messages, verifiers, nonces, the
      state of an exchange; SaslSpec.v: the messages of a connection, and the theorems.
    - ServerConn.v: the connections of server/mod.rs: buffered input and its cap,
      output, responses that wait for earlier ones, writing to a socket that takes
      what it takes.  ServerInbound.v: reading within the admission budget.
    - Server.v: server/mod.rs, server/dispatch.rs, handlers/mod.rs and
      handlers/auth.rs.  The state of the loop ([Server]), the handlers, sockets and
      storage it calls ([Host]), serving a frame, dispatch, parked requests, the
      durability barrier, the sweeps, and a whole [round].
    - ServerInv.v: the loop as a machine of small steps, which keeps the frames and
      replies of every connection and the calls made of the produce handler and of the
      sync, and its invariant, which ServerStep.v shows every step to keep;
      ServerRefine.v, ServerPass.v, ServerLoop.v: every
      operation, every pass and every round of the loop is a run of the machine, with
      the limits it keeps, in any surroundings that agree on these calls; ServerToy.v: a
      small host; ServerParked.v: parked requests; ServerTheorems.v: the guarantees.
    - Lsn.v: the text of log positions, of cdc.rs.
    - Cdc.v: cdc.rs, with the partitioner of produce_sql.rs and the quoting of
      decoding.rs.  A drain of the replication slot against a database ([CdcHost]),
      with the history of what it was asked and what took effect ([World]).  CdcInv.v:
      runs of changes, when a run is written ([written]: its topic resolved, its records
      rendered and appended, or its changes dead-lettered), and what a drain has done at
      any time; CdcDrain.v, CdcPeek.v: every operation keeps
      the books, up to a whole drain; CdcLoss.v: transactions in the log of the
      database, and drain after drain, each cut anywhere; CdcTheorems.v: a small
      database, and the guarantees.

    ** What the theorems show

    A theorem with a claim number (C1, C2, ..) states a guarantee of the
    program; the lemma named after it with [_witness] applies it to a concrete
    input.

    - The wire: requests come out of the byte stream whole and in order however
      it is cut (Framing.v); a header encodes to its size, decodes back, and a
      prefix of it is reported as truncated (Header.v).
    - Batches: walking a blob ends and cuts it at the lengths its batches declare,
      and a well-formed blob gives back its batches; stamping keeps a batch valid
      (Records.v); reading records ends with an error or exactly the declared
      number, and the key-only read agrees with the full one (RecordIter.v);
      what is built validates and reads back (Build.v).
    - Compaction: cleaning drops exactly the superseded records and the
      tombstones whose time has come; a rewritten batch validates and keeps
      everything else (Compaction.v); a pass always moves on (Cleaner.v).
    - The pending ring implements a sorted multiset with its minimum, as a
      refinement through [view] (PendingRing.v).
    - Producers: a retry is answered as a duplicate, older epochs are fenced,
      the sweep spares producers in use (Producer.v).
    - Groups: an invariant of the classic state machine over every interleaving of
      its operations, and that a rebalance cannot wait for ever (Group.v); no two
      members of a KIP-848 group hold one partition, whatever answers are lost, and
      the group converges by heartbeats unless a clock for letting go runs out
      (ConsumerGroup*.v); the assignor is exact and even
      (Assign.v).
    - Share groups: exclusive acquisition, bounded delivery, exact positions, and
      that every request acts by accounted steps (Share*.v).
    - Partition metadata: the epoch history is increasing, an epoch's end splits
      the log, the marker list is complete, advancing the log start forgets dead
      transactions only (Pmeta.v).
    - Transactions: a transaction ends all one way with its offsets, the way an
      operator forced or else the one requested; requests with a stale pair change
      nothing; a new instance takes over cleanly, abandoned transactions expire, EndTxn
      may be retried (TxnTheorems.v).
    - Produce: batches land at most once whatever fails, a resend is answered and
      not appended, a storage error keeps what landed (Produce*.v).
    - The table engine: an invariant of every reachable table, exact reads and
      truncation, justified retention, and the contract of a log store (Table*.v);
      fetches are within the size of a response, for batches and names of the sizes
      stated there, and make progress (FetchSpec.v).
    - The segment engine refines an abstract log per partition: every request of a
      run (drops of partitions and compaction are not among them) is, with its answer, a
      step of that log, over restarts too, and a read answers from exactly the batches
      the requests left, whatever the hints and index files say (SegmentSpec.v); open reservations hide
      their batches from committed readers (SegmentHold.v); recovery of a torn file
      keeps exactly its whole batches (SegmentAccept.v); a partition filled alike in
      both engines with at most 1000 batches reads alike (SegmentEngines.v).
    - Offsets: what is committed is what is fetched, by every version that names the
      topic, a refused commit stores nothing
      (OffsetSpec.v); catalogs and overrides stay well formed (Topics.v, Config.v).
    - Authentication: the messages that authenticated a connection as a role have in
      them a proof that verifies against the stored key of that role, for the challenge
      then pending, and a client that knows the password gets through
      (SaslSpec.v).
    - The event loop: a round is a run of the machine, from which, on every
      connection, requests are served once, responses go out in order, and each
      request that is not answered waits in one place; no acknowledgement leaves before
      its sync; connections, input and parked requests are bounded; parked requests
      end; before authentication no handler is reached (ServerTheorems.v,
      ServerParked.v).
    - Change capture: changes reach their topics in commit order with summaries behind
      them; a drain that stalls nowhere has written and synced everything; however the
      drains of the worker are cut, every change behind the slot or a recorded position
      was written and synced; and buffers are bounded (CdcTheorems.v, CdcLoss.v).
    - Theorems that record where the code does not do what it means to:
      [init_producer_id_exhausts], [join_response_first_metadata],
      [markers_split_outcome], [expiry_blocked_at_last_epoch],
      [share_group_behind_log], [share_partition_wedges], [aborted_list_capped],
      [list_offsets_below_start], [last_leave_keeps_state], [claim_is_believed],
      [delete_ignores_consumer_members], [drop_uncovers_reservation],
      [wide_segment_skips_batches], [emptied_log_forgets_end],
      [failed_authentication_skips_barrier], [render_failed_after_append],
      [long_name_refused].

    ** Parameters

    What is not in the repository is a variable of the section that uses it:
    [crc32c] (the checksum crate; only that it is a [u32] is assumed, and only where
    a batch is built), [open_decoder] (the decompressors: what a codec yields for a
    payload and how it ends), [fingerprint] (the seeded hashers of an [OffsetMap];
    injective on the keys at hand where a theorem needs it), [entry_size] and
    [kept_size] ([size_of] of two types), [id_le] (the database's collation),
    [locked] (the rows [SKIP LOCKED] skips), the outcome of each database call in
    Produce.v, how many bytes a write to a file takes in Segment.v, and clocks,
    settings, process numbers and fresh UUIDs as arguments.  So are
    the digests and base64 of Sasl.v; that digests have 32 bytes and decoding undoes
    encoding is assumed only where a client that knows the password gets through.  Two
    components are verified against an interface of what they call, handlers
    and storage of this repository among it: [Host] (Server.v; [HostLaws] says what the
    theorems need of it) and [CdcHost] (Cdc.v; no law is needed).  What a socket does is
    a script of events: how many bytes it takes or gives before it would block.  What
    the cursor over the slot gives is an argument of a drain, and its theorems assume
    what the database documents of a peek: the rows of whole transactions in the order
    of their commits.  An append that took effect stays in the history of [World] also
    when its step fails, as on the segment engine.

    ** Fuel

    The loops of the source are structural recursion where they can be.
    Otherwise: the batch walk runs for as many rounds as the blob has bytes, and
    each batch consumes at least one; the loops over a segment file run for as many
    rounds as it has bytes, each step past a batch of at least 61; reading records
    runs for the declared count and two more rounds, after which the iterator has
    ended; varints run the ten (or five) rounds of the source; the ring's binary
    search runs for the length of the ring, which halves; releasing responses runs
    for as many rounds as responses wait; admitting input runs until the events of the
    socket are used up or the budget is; making room in a drain runs once per lane, as
    every round leaves a run less; a hexadecimal half has sixteen digits.  That each is
    enough is proved where a theorem says the loop returns ([batches_partition],
    [iter_collect_exact], [release_removes], [scan_exact], [read_batches_pick],
    [release_ready_spec], [make_room_ok], [show_hex_ok]).

    ** Not modelled

    TLS and the readiness poll (tls.rs, transport.rs, readiness.rs), the quota meter,
    which computes in floating point, and the retention worker (the loop's calls of
    them are modelled); raising leader epochs and reconciling markers after a start; of
    change capture the decoding callbacks, the text of the render query, the SQL
    functions on mappings and the snapshots of mapped tables; [kafgres_produce()] and
    its callbacks; replication and archiving; the admin, metadata and ACL handlers; the
    listings of groups; the generated message structs and their generator; the glue of
    the extension.  These are translations of requests to queries, clients of other
    services, callbacks of the server, or generated code.  Locks are not modelled: a
    handler is one sequential database transaction, and what the segment engine
    does under the lock of a slot is one step.  Of the segment engine the file
    descriptors kept open, [fsync] and the migration of old index files are not
    modelled, nor are its compaction passes; its contract assumes that no write fails half way, that index entries
    outlive no batch of theirs, that segments stay within 32 bits of offsets and bytes,
    that logs are cut between batches, and that no partition is dropped next to one in
    use: SegmentFaults.v shows why the last ones are needed.

    The compaction passes of both engines and the exactness of the time index are
    left out: their pure parts are in Compaction.v and Cleaner.v. *)

From Stdlib Require Export ZArith Lia.
From Stdlib Require Export Strings.Byte.
From Stdlib Require Import Sorting.Sorted.
From stdpp Require Export prelude list.

#[global] Open Scope Z_scope.
Declare Scope rust_scope.
Delimit Scope rust_scope with rust.
#[global] Open Scope rust_scope.

Create HintDb kafgres.
Create Rewrite HintDb kafgres.

(** ** Results and the state-and-error monad

    [result] is Rust's [Result].  [ST S E A] is a computation that may
    change a state of type [S] (a buffer that is consumed or appended to, a
    record source, a set of tables) and may fail; the state a failing call
    leaves behind is kept, as in the source, where the buffer is behind a
    [&mut] and an early return does not roll it back. *)

Inductive result (E A : Type) : Type :=
| Ok (a : A)
| Err (e : E).
Arguments Ok {E A} a.
Arguments Err {E A} e.

Definition ST (S E A : Type) : Type := S → result E A * S.

Definition ret {S E A} (a : A) : ST S E A := λ s, (Ok a, s).
Definition throw {S E A} (e : E) : ST S E A := λ s, (Err e, s).
Definition bind {S E A B} (m : ST S E A) (k : A → ST S E B) : ST S E B :=
  λ s, match m s with
       | (Ok a, s') => k a s'
       | (Err e, s') => (Err e, s')
       end.
Definition rbind {E A B} (m : result E A) (k : A → result E B) : result E B :=
  match m with
  | Ok a => k a
  | Err e => Err e
  end.

Notation "'let*' x ':=' m 'in' k" := (bind m (λ x, k))
  (at level 10, x pattern, m at level 100, k at level 200) : rust_scope.
Notation "'let?' x ':=' m 'in' k" := (rbind m (λ x, k))
  (at level 10, x pattern, m at level 100, k at level 200) : rust_scope.
Notation "m ';;;' k" := (bind m (λ _, k))
  (at level 199, right associativity) : rust_scope.

Definition is_ok {E A} (r : result E A) : bool :=
  match r with Ok _ => true | Err _ => false end.

Lemma bind_ok {S E A B} (m : ST S E A) (k : A → ST S E B) s a s' :
  m s = (Ok a, s') → bind m k s = k a s'.
Proof. intros H. unfold bind. by rewrite H. Qed.

Lemma bind_err {S E A B} (m : ST S E A) (k : A → ST S E B) s e s' :
  m s = (Err e, s') → bind m k s = (Err e, s').
Proof. intros H. unfold bind. by rewrite H. Qed.

Lemma bind_inv_ok {S E A B} (m : ST S E A) (k : A → ST S E B) s b s'' :
  bind m k s = (Ok b, s'') → ∃ a s', m s = (Ok a, s') ∧ k a s' = (Ok b, s'').
Proof. unfold bind. destruct (m s) as [[a|e] s']; [eauto | discriminate]. Qed.

(** Run the next computation of a monadic goal with a lemma that says what it
    returns. *)
Ltac run H := erewrite bind_ok; [| solve [apply H; eauto with kafgres lia | apply H]]; cbv beta.

(** ** Bytes *)

Abbreviation byte := Byte.byte.
Abbreviation bytes := (list byte).

Definition u8 (b : byte) : Z := Z.of_N (Byte.to_N b).
(** [as u8]: the low eight bits. *)
Definition as_u8 (z : Z) : byte :=
  match Byte.of_N (Z.to_N (z mod 256)) with
  | Some b => b
  | None => x00
  end.

Definition len (bs : bytes) : Z := Z.of_nat (length bs).

#[export] Instance byte_eq_decision : EqDecision byte := Byte.byte_eq_dec.

Lemma u8_range b : 0 ≤ u8 b < 256.
Proof. unfold u8. pose proof (Byte.to_N_bounded b). lia. Qed.

Lemma u8_as_u8 z : u8 (as_u8 z) = z mod 256.
Proof.
  unfold u8, as_u8.
  pose proof (Z.mod_pos_bound z 256 ltac:(lia)) as Hm.
  destruct (Byte.of_N (Z.to_N (z mod 256))) eqn:E.
  - apply Byte.to_of_N in E. rewrite E. lia.
  - apply Byte.of_N_None_iff in E. lia.
Qed.

Lemma as_u8_u8 b : as_u8 (u8 b) = b.
Proof.
  unfold as_u8. rewrite Z.mod_small by apply u8_range.
  unfold u8. rewrite N2Z.id. by rewrite Byte.of_to_N.
Qed.

Lemma u8_inj b c : u8 b = u8 c → b = c.
Proof. intros H. by rewrite <- (as_u8_u8 b), <- (as_u8_u8 c), H. Qed.

Lemma as_u8_eq z1 z2 : z1 mod 256 = z2 mod 256 → as_u8 z1 = as_u8 z2.
Proof. unfold as_u8. by intros ->. Qed.

(** ** Machine integers

    A [w]-bit integer is a [Z]; [wrap_u w] and [wrap_i w] are the values of a
    Rust [as] cast to the unsigned and the signed type of that width. *)

Definition wrap_u (w z : Z) : Z := z mod 2 ^ w.
Definition wrap_i (w z : Z) : Z :=
  let m := z mod 2 ^ w in
  if m <? 2 ^ (w - 1) then m else m - 2 ^ w.

Definition is_i8 (z : Z) : Prop := -128 ≤ z ≤ 127.
Definition is_i16 (z : Z) : Prop := -32768 ≤ z ≤ 32767.
Definition is_i32 (z : Z) : Prop := -2147483648 ≤ z ≤ 2147483647.
Definition is_i64 (z : Z) : Prop :=
  -9223372036854775808 ≤ z ≤ 9223372036854775807.
Definition is_u8 (z : Z) : Prop := 0 ≤ z ≤ 255.
Definition is_u16 (z : Z) : Prop := 0 ≤ z ≤ 65535.
Definition is_u32 (z : Z) : Prop := 0 ≤ z ≤ 4294967295.
Definition is_u64 (z : Z) : Prop := 0 ≤ z ≤ 18446744073709551615.

Definition i16_max : Z := 32767.
Definition i32_max : Z := 2147483647.
Definition i64_min : Z := -9223372036854775808.
Definition i64_max : Z := 9223372036854775807.

Ltac unfold_ints :=
  unfold is_i8, is_i16, is_i32, is_i64, is_u8, is_u16, is_u32, is_u64,
    i16_max, i32_max, i64_min, i64_max in *.

(** Arithmetic on machine integers: unfold the range predicates and call
    [lia]. *)
Ltac int_lia := unfold_ints; lia.

Lemma wrap_u_small w z : 0 ≤ z < 2 ^ w → wrap_u w z = z.
Proof. intros. unfold wrap_u. by rewrite Z.mod_small. Qed.

Lemma wrap_i_small w z :
  0 < w → - 2 ^ (w - 1) ≤ z < 2 ^ (w - 1) → wrap_i w z = z.
Proof.
  intros Hw Hz. unfold wrap_i.
  assert (Hp : 2 ^ w = 2 * 2 ^ (w - 1)).
  { replace w with (1 + (w - 1)) at 1 by lia. rewrite Z.pow_add_r by lia. lia. }
  assert (0 < 2 ^ (w - 1)) by (apply Z.pow_pos_nonneg; lia).
  destruct (Z_lt_ge_dec z 0).
  - replace (z mod 2 ^ w) with (z + 2 ^ w).
    2:{ apply (Z.mod_unique z (2 ^ w) (-1)); lia. }
    case_match eqn:E; apply Z.ltb_lt in E || apply Z.ltb_ge in E; lia.
  - rewrite Z.mod_small by lia.
    case_match eqn:E; apply Z.ltb_lt in E || apply Z.ltb_ge in E; lia.
Qed.

Lemma wrap_i_mod w z : 0 < w → wrap_i w (z mod 2 ^ w) = wrap_i w z.
Proof.
  intros. unfold wrap_i. rewrite Z.mod_mod; [done |].
  pose proof (Z.pow_pos_nonneg 2 w). lia.
Qed.

Lemma wrap_i_range w z :
  0 < w → - 2 ^ (w - 1) ≤ wrap_i w z < 2 ^ (w - 1).
Proof.
  intros Hw. unfold wrap_i.
  assert (Hp : 2 ^ w = 2 * 2 ^ (w - 1)).
  { replace w with (1 + (w - 1)) at 1 by lia. rewrite Z.pow_add_r by lia. lia. }
  pose proof (Z.mod_pos_bound z (2 ^ w) ltac:(apply Z.pow_pos_nonneg; lia)).
  case_match eqn:E; apply Z.ltb_lt in E || apply Z.ltb_ge in E; lia.
Qed.

Lemma wrap_i_cong w z : 0 < w → wrap_i w z mod 2 ^ w = z mod 2 ^ w.
Proof.
  intros Hw. unfold wrap_i.
  pose proof (Z.pow_pos_nonneg 2 w).
  case_match; [by rewrite Z.mod_mod by lia |].
  replace (z mod 2 ^ w - 2 ^ w) with (z mod 2 ^ w + (-1) * 2 ^ w) by lia.
  rewrite Z.mod_add by lia. by rewrite Z.mod_mod by lia.
Qed.

Lemma wrap_i8_id z : is_i8 z → wrap_i 8 z = z.
Proof. intros. apply wrap_i_small; [lia |]. change (2 ^ (8 - 1)) with 128. int_lia. Qed.
Lemma wrap_i16_id z : is_i16 z → wrap_i 16 z = z.
Proof. intros. apply wrap_i_small; [lia |]. change (2 ^ (16 - 1)) with 32768. int_lia. Qed.
Lemma wrap_i32_id z : is_i32 z → wrap_i 32 z = z.
Proof. intros. apply wrap_i_small; [lia |]. change (2 ^ (32 - 1)) with 2147483648. int_lia. Qed.
Lemma wrap_i64_id z : is_i64 z → wrap_i 64 z = z.
Proof.
  intros. apply wrap_i_small; [lia |].
  change (2 ^ (64 - 1)) with 9223372036854775808. int_lia.
Qed.

Lemma wrap_i32_is z : is_i32 (wrap_i 32 z).
Proof. pose proof (wrap_i_range 32 z ltac:(lia)) as H.
  change (2 ^ (32 - 1)) with 2147483648 in H. int_lia. Qed.
Lemma wrap_i64_is z : is_i64 (wrap_i 64 z).
Proof. pose proof (wrap_i_range 64 z ltac:(lia)) as H.
  change (2 ^ (64 - 1)) with 9223372036854775808 in H. int_lia. Qed.
#[export] Hint Resolve wrap_i32_is wrap_i64_is : kafgres.

(** ** Big-endian integers: [to_be_bytes] and [from_be_bytes] *)

Fixpoint be_bytes (n : nat) (z : Z) : bytes :=
  match n with
  | O => []
  | S n' => be_bytes n' (z / 256) ++ [as_u8 z]
  end.

Definition be_val (bs : bytes) : Z :=
  foldl (λ acc b, acc * 256 + u8 b) 0 bs.

Lemma be_bytes_length n z : length (be_bytes n z) = n.
Proof. revert z. induction n; intros; simpl; rewrite ?length_app, ?IHn; simpl; lia. Qed.

Lemma be_val_snoc bs b : be_val (bs ++ [b]) = be_val bs * 256 + u8 b.
Proof. unfold be_val. by rewrite foldl_app. Qed.

Lemma be_val_be_bytes n z : be_val (be_bytes n z) = z mod 256 ^ Z.of_nat n.
Proof.
  revert z. induction n as [|n IH]; intros z.
  - simpl. by rewrite Z.mod_1_r.
  - cbn [be_bytes]. rewrite be_val_snoc, IH, u8_as_u8.
    rewrite Nat2Z.inj_succ, Z.pow_succ_r by lia.
    assert (0 < 256 ^ Z.of_nat n) by (apply Z.pow_pos_nonneg; lia).
    rewrite (Z.rem_mul_r z 256) by lia. lia.
Qed.

Lemma be_val_range bs : 0 ≤ be_val bs < 256 ^ len bs.
Proof.
  unfold len. induction bs as [|b bs IH] using rev_ind; [done |].
  rewrite be_val_snoc, length_app. simpl length.
  rewrite Nat.add_1_r, Nat2Z.inj_succ, Z.pow_succ_r by lia.
  pose proof (u8_range b). lia.
Qed.

Lemma be_bytes_be_val bs : be_bytes (length bs) (be_val bs) = bs.
Proof.
  induction bs as [|b bs IH] using rev_ind; [done |].
  rewrite length_app, Nat.add_1_r. cbn [be_bytes]. rewrite be_val_snoc.
  pose proof (u8_range b).
  rewrite Z.div_add_l, (Z.div_small (u8 b)), Z.add_0_r by lia. rewrite IH.
  f_equal. f_equal. rewrite <- (as_u8_u8 b) at 2. apply as_u8_eq.
  by rewrite Z.add_comm, Z.mod_add by lia.
Qed.

Lemma be_bytes_mod n z : be_bytes n (z mod 256 ^ Z.of_nat n) = be_bytes n z.
Proof.
  rewrite <- be_val_be_bytes.
  rewrite <- (be_bytes_length n z) at 1. apply be_bytes_be_val.
Qed.

Lemma pow256_pow2 n : 256 ^ Z.of_nat n = 2 ^ (8 * Z.of_nat n).
Proof. change 256 with (2 ^ 8). rewrite <- Z.pow_mul_r by lia. done. Qed.

(** [iN::from_be_bytes] of [iN::to_be_bytes]. *)
Lemma wrap_i_be_val_be_bytes n z :
  (0 < n)%nat →
  wrap_i (8 * Z.of_nat n) (be_val (be_bytes n z)) = wrap_i (8 * Z.of_nat n) z.
Proof.
  intros. rewrite be_val_be_bytes, pow256_pow2. apply wrap_i_mod. lia.
Qed.

(** The other direction: writing back the signed value read. *)
Lemma be_bytes_wrap_i_be_val bs :
  bs ≠ [] → be_bytes (length bs) (wrap_i (8 * len bs) (be_val bs)) = bs.
Proof.
  intros Hne. assert (0 < length bs)%nat by (destruct bs; simpl; [done | lia]).
  rewrite <- (be_bytes_mod (length bs) (wrap_i _ _)), pow256_pow2.
  unfold len. rewrite wrap_i_cong by lia.
  rewrite <- pow256_pow2, be_bytes_mod. apply be_bytes_be_val.
Qed.

(** ** Bits *)

(** Or-ing in a value above the bits already set is addition. *)
Lemma lor_shiftl_add a x k :
  0 ≤ k → 0 ≤ a < 2 ^ k → 0 ≤ x → Z.lor a (Z.shiftl x k) = a + x * 2 ^ k.
Proof.
  intros Hk Ha Hx.
  assert (Hd : Z.land a (Z.shiftl x k) = 0).
  { apply Z.bits_inj'. intros i Hi. rewrite Z.land_spec, Z.bits_0, Z.shiftl_spec by lia.
    destruct (Z_lt_ge_dec i k).
    - rewrite (Z.testbit_neg_r x) by lia. by rewrite andb_false_r.
    - assert (Hb : Z.testbit a i = false); [| by rewrite Hb].
      destruct (Z.eq_dec a 0) as [->|]; [apply Z.bits_0 |].
      apply Z.bits_above_log2; [lia |]. apply Z.log2_lt_pow2; [lia |].
      eapply Z.lt_le_trans; [apply Ha | apply Z.pow_le_mono_r; lia]. }
  rewrite <- Z.lxor_lor, <- Z.add_nocarry_lxor by done.
  by rewrite Z.shiftl_mul_pow2 by lia.
Qed.

Lemma land_ones_mod z k : 0 ≤ k → Z.land z (2 ^ k - 1) = z mod 2 ^ k.
Proof. intros. rewrite <- Z.land_ones by lia. by rewrite Z.ones_equiv, <- Z.sub_1_r. Qed.

Lemma land_7f z : Z.land z 127 = z mod 128.
Proof. apply (land_ones_mod z 7). lia. Qed.

Lemma land_1 z : Z.land z 1 = z mod 2.
Proof. apply (land_ones_mod z 1). lia. Qed.

(** The continuation bit of a byte. *)
Lemma land_80_byte z : 0 ≤ z < 256 → (Z.land z 128 =? 0) = (z <? 128).
Proof.
  intros Hz.
  assert (Hb : Z.land z 128 = 128 * ((z / 128) mod 2)).
  { replace 128 with (Z.shiftl 1 7) at 1 by done.
    apply Z.bits_inj'; intros i Hi. rewrite Z.land_spec.
    replace (128 * _) with (Z.shiftl ((z / 128) mod 2) 7) by (rewrite Z.shiftl_mul_pow2; lia).
    rewrite !Z.shiftl_spec by lia.
    destruct (Z.eq_dec i 7) as [->|].
    - change (7 - 7) with 0. rewrite andb_true_r.
      change 128 with (2 ^ 7). rewrite <- Z.shiftr_div_pow2 by lia.
      change 2 with (2 ^ 1). rewrite Z.mod_pow2_bits_low by lia.
      by rewrite Z.shiftr_spec by lia.
    - destruct (Z_lt_ge_dec i 7).
      + rewrite !(Z.testbit_neg_r _ (i - 7)) by lia. by rewrite andb_false_r.
      + change 2 with (2 ^ 1). rewrite Z.mod_pow2_bits_high by lia.
        rewrite (Z.bits_above_log2 1) by (simpl; lia). by rewrite andb_false_r. }
  rewrite Hb. destruct (z <? 128) eqn:E.
  - apply Z.ltb_lt in E. by rewrite Z.div_small by lia.
  - apply Z.ltb_ge in E.
    assert (z / 128 = 1) as -> by (symmetry; apply (Z.div_unique z 128 1 (z - 128)); lia).
    done.
Qed.

(** ** Base-128 groups, least significant first

    The bytes both varint writers emit; [fuel] bounds the number of groups. *)

Fixpoint leb128 (fuel : nat) (v : Z) : bytes :=
  match fuel with
  | O => []
  | S f =>
      if v <? 128 then [as_u8 v]
      else as_u8 (128 + v mod 128) :: leb128 f (v / 128)
  end.

Lemma as_u8_cont v : as_u8 (Z.lor (Z.land v 127) 128) = as_u8 (128 + v mod 128).
Proof.
  rewrite land_7f. f_equal.
  pose proof (Z.mod_pos_bound v 128 ltac:(lia)).
  change 128 with (Z.shiftl 1 7) at 2.
  rewrite lor_shiftl_add by lia. lia.
Qed.

Lemma mod_128_cont v : (128 + v mod 128) mod 128 = v mod 128.
Proof. rewrite <- Z.add_mod_idemp_l, Z.mod_same, Z.add_0_l, Z.mod_mod; lia. Qed.

Lemma u8_cont v : u8 (as_u8 (128 + v mod 128)) = 128 + v mod 128.
Proof.
  rewrite u8_as_u8. pose proof (Z.mod_pos_bound v 128 ltac:(lia)).
  apply Z.mod_small. lia.
Qed.

Lemma shiftr_7 v : Z.shiftr v 7 = v / 128.
Proof. by rewrite Z.shiftr_div_pow2 by lia. Qed.

(** Writing a byte with the sign-agnostic read back. *)
Lemma wrap_u8_wrap_i8 b : wrap_u 8 (wrap_i 8 (u8 b)) = u8 b.
Proof.
  unfold wrap_u. rewrite wrap_i_cong by lia.
  apply Z.mod_small. pose proof (u8_range b). lia.
Qed.

(** One step of a varint accumulator of width [w]: the next seven bits go in
    above the [sh] bits read so far. *)
Lemma varint_acc w sh a v :
  0 ≤ sh → 0 ≤ a < 2 ^ sh → 0 ≤ v → v * 2 ^ sh < 2 ^ w →
  Z.lor a (wrap_u w (Z.shiftl (v mod 128) sh)) = a + v mod 128 * 2 ^ sh.
Proof.
  intros Hi Ha Hv Hb. assert (0 < 2 ^ sh) by (apply Z.pow_pos_nonneg; lia).
  pose proof (Z.mod_pos_bound v 128 ltac:(lia)).
  assert (v mod 128 ≤ v) by (apply Z.mod_le; lia).
  rewrite wrap_u_small.
  - by rewrite lor_shiftl_add by lia.
  - rewrite Z.shiftl_mul_pow2 by lia. nia.
Qed.

(** What the accumulator holds after a group with the continuation bit. *)
Lemma varint_acc_next sh a v :
  0 ≤ sh → 0 ≤ a < 2 ^ sh → 0 ≤ v →
  0 ≤ a + v mod 128 * 2 ^ sh < 2 ^ (sh + 7) ∧
  a + v mod 128 * 2 ^ sh + v / 128 * 2 ^ (sh + 7) = a + v * 2 ^ sh.
Proof.
  intros Hs Ha Hv. rewrite Z.pow_add_r by lia. change (2 ^ 7) with 128.
  pose proof (Z.mod_pos_bound v 128 ltac:(lia)). pose proof (Z.div_mod v 128 ltac:(lia)).
  split; nia.
Qed.

(** More fuel than groups changes nothing. *)
Lemma leb128_fuel n m v :
  0 ≤ v < 128 ^ Z.of_nat n → (n ≤ m)%nat → (0 < n)%nat → leb128 m v = leb128 n v.
Proof.
  revert m v. induction n as [|n IH]; intros m v Hv Hm Hn; [lia |].
  destruct m as [|m]; [lia |]. cbn [leb128].
  destruct (v <? 128) eqn:E; [done |]. apply Z.ltb_ge in E.
  rewrite Nat2Z.inj_succ, Z.pow_succ_r in Hv by lia.
  destruct n as [|n]; [simpl in Hv; lia |].
  f_equal. apply IH; [| lia | lia].
  split; [apply Z.div_pos; lia |]. apply Z.div_lt_upper_bound; lia.
Qed.

Lemma leb128_div v n :
  0 ≤ v < 128 ^ Z.of_nat (S n) → 0 ≤ v / 128 < 128 ^ Z.of_nat n.
Proof.
  rewrite Nat2Z.inj_succ, Z.pow_succ_r by lia. intros.
  split; [apply Z.div_pos; lia |]. apply Z.div_lt_upper_bound; lia.
Qed.

(** ** Slices *)

(** [&bs[off..off + n]]. *)
Definition slice (off n : nat) (bs : bytes) : bytes := take n (drop off bs).

(** [bs[off..off + v.len()].copy_from_slice(v)]. *)
Definition splice (off : nat) (v bs : bytes) : bytes :=
  take off bs ++ v ++ drop (off + length v) bs.

Lemma len_app (a b : bytes) : len (a ++ b) = len a + len b.
Proof. unfold len. rewrite length_app. lia. Qed.
Lemma len_cons b (a : bytes) : len (b :: a) = 1 + len a.
Proof. unfold len. cbn [length]. lia. Qed.
Lemma len_nonneg (a : bytes) : 0 ≤ len a.
Proof. unfold len. lia. Qed.
Lemma len_nil : len [] = 0.
Proof. done. Qed.
Lemma len_be_bytes n z : len (be_bytes n z) = Z.of_nat n.
Proof. unfold len. by rewrite be_bytes_length. Qed.

Lemma slice_length off n bs :
  (off + n ≤ length bs)%nat → length (slice off n bs) = n.
Proof. intros. unfold slice. rewrite length_take, length_drop. lia. Qed.

Lemma splice_length off v bs :
  (off + length v ≤ length bs)%nat → length (splice off v bs) = length bs.
Proof. intros. unfold splice. rewrite !length_app, length_take, length_drop. lia. Qed.

Lemma slice_splice_eq off v bs :
  (off + length v ≤ length bs)%nat → slice off (length v) (splice off v bs) = v.
Proof.
  intros. unfold slice, splice.
  rewrite drop_app_ge; rewrite length_take; [| lia].
  replace (off - off `min` length bs)%nat with 0%nat by lia. rewrite drop_0.
  by rewrite take_app_length.
Qed.

Lemma slice_splice_before off v bs o n :
  (off + length v ≤ length bs)%nat → (o + n ≤ off)%nat →
  slice o n (splice off v bs) = slice o n bs.
Proof.
  intros. unfold slice, splice.
  rewrite drop_app_le by (rewrite length_take; lia).
  rewrite take_app_le by (rewrite length_drop, length_take; lia).
  rewrite !take_drop_commute, take_take.
  by replace ((o + n) `min` off)%nat with (o + n)%nat by lia.
Qed.

Lemma drop_splice off v bs o :
  (off + length v ≤ o)%nat → (o ≤ length bs)%nat →
  drop o (splice off v bs) = drop o bs.
Proof.
  intros. unfold splice.
  rewrite drop_app_ge; rewrite length_take; [| lia].
  rewrite drop_app_ge by lia. rewrite drop_drop. f_equal. lia.
Qed.

Lemma slice_splice_after off v bs o n :
  (off + length v ≤ o)%nat → (o ≤ length bs)%nat →
  slice o n (splice off v bs) = slice o n bs.
Proof. intros. unfold slice. by rewrite drop_splice. Qed.

Lemma slice_app_l o n (a b : bytes) :
  (o + n ≤ length a)%nat → slice o n (a ++ b) = slice o n a.
Proof.
  intros. unfold slice. rewrite drop_app_le by lia.
  rewrite take_app_le; [done |]. rewrite length_drop. lia.
Qed.

Lemma slice_app_r o n (a b : bytes) :
  (length a ≤ o)%nat → slice o n (a ++ b) = slice (o - length a) n b.
Proof. intros. unfold slice. by rewrite drop_app_ge by lia. Qed.

Lemma slice_0_app n (a b : bytes) :
  length a = n → slice 0 n (a ++ b) = a.
Proof. intros <-. unfold slice. rewrite drop_0. by rewrite take_app_length. Qed.

Lemma take_len_app (a b : bytes) : take (Z.to_nat (len a)) (a ++ b) = a.
Proof. unfold len. rewrite Nat2Z.id. apply take_app_length. Qed.
Lemma drop_len_app (a b : bytes) : drop (Z.to_nat (len a)) (a ++ b) = b.
Proof. unfold len. rewrite Nat2Z.id. apply drop_app_length. Qed.

#[export] Hint Rewrite @len_app @len_cons len_nil len_be_bytes : kafgres.
#[export] Hint Resolve len_nonneg u8_range : kafgres.

(** ** Lists *)

Lemma filter_every {A} (P : A → Prop) `{∀ x, Decision (P x)} (l : list A) : Forall P l → filter P l = l.
Proof. induction 1 as [|x l Hx _ IH]; [done |]. by rewrite filter_cons_True, IH. Qed.

Lemma filter_none {A} (P : A → Prop) `{∀ x, Decision (P x)} (l : list A) : Forall (λ x, ¬ P x) l → filter P l = [].
Proof. induction 1 as [|x l Hx _ IH]; [done |]. by rewrite filter_cons_False. Qed.

Lemma filter_agree {A} (P Q : A → Prop) `{!∀ x, Decision (P x), !∀ x, Decision (Q x)} (l : list A) :
  (∀ x, x ∈ l → P x ↔ Q x) → filter P l = filter Q l.
Proof.
  induction l as [|x l IH]; intros Hpq; [done |]. rewrite !filter_cons.
  rewrite IH by (intros y Hy; apply Hpq; by apply list_elem_of_further).
  pose proof (Hpq x (list_elem_of_here _ _)). destruct (decide (P x)), (decide (Q x)); tauto.
Qed.

(** SQL's [max]: null on no rows. *)
Definition sql_max (l : list Z) : option Z :=
  match l with [] => None | x :: l' => Some (foldr Z.max x l') end.

Lemma sql_max_spec l :
  match sql_max l with Some m => m ∈ l ∧ ∀ x, x ∈ l → x ≤ m | None => l = [] end.
Proof.
  destruct l as [|x l]; [done |]. cbn [sql_max]. induction l as [|y l [IH1 IH2]]; cbn [foldr].
  { split; [set_solver | intros z ->%list_elem_of_singleton; lia]. }
  split.
  - destruct (Z.max_spec y (foldr Z.max x l)) as [[_ ->]|[_ ->]]; set_solver.
  - intros z Hz. apply elem_of_cons in Hz as [->|[->|Hz]%elem_of_cons].
    + specialize (IH2 x (list_elem_of_here _ _)). lia.
    + lia.
    + specialize (IH2 z (list_elem_of_further _ _ _ Hz)). lia.
Qed.

(** A list in order, read from an unordered table. *)
Lemma strictly_sorted (l : list Z) : StronglySorted (≤) l → NoDup l → StronglySorted (<) l.
Proof.
  induction 1 as [|x l Hs IH Hx]; intros Hnd; [constructor |].
  apply NoDup_cons in Hnd as [Hx' Hnd]. constructor; [by apply IH |].
  rewrite Forall_forall in Hx |- *. intros y Hy. specialize (Hx y Hy).
  assert (x ≠ y) by (intros ->; done). lia.
Qed.
