(* ===== verification/Errors.v ===== *)
(** * codec/src/errors.rs: codec failures and Kafka error codes

    [CodecError] is what the wire codec raises; [ErrorCode.t] is the Kafka
    error code a client drives its retry logic from.  [ErrorCode.code] is
    [ErrorCode::code] (the enum's [repr(i16)] discriminant) and
    [ErrorCode.is_retriable] the set of codes the Java client retries.  The
    variant [ErrorCode::None] is [ErrorCode.NoError] here. *)

From stdpp Require Import strings.
From S2P Require Import Prelude.

(** [CodecError]; the [&'static str] field name of [UnexpectedNull] is a
    [string]. *)
Inductive CodecError : Type :=
| Truncated (needed available : Z)
| InvalidLength (n : Z)
| UnexpectedNull (field : string)
| InvalidUtf8
| TagOutOfOrder (previous tag : Z)
| MalformedVarint
| UnsupportedVersionE (api_key version : Z)
| UnknownApiKey (k : Z).

#[export] Instance CodecError_eq_dec : EqDecision CodecError.
Proof. solve_decision. Defined.

Module ErrorCode.

Inductive t : Type :=
| UnknownServerError
| NoError
| OffsetOutOfRange
| CorruptMessage
| UnknownTopicOrPartition
| InvalidFetchSize
| LeaderNotAvailable
| NotLeaderOrFollower
| RequestTimedOut
| MessageTooLarge
| OffsetMetadataTooLarge
| NetworkException
| CoordinatorLoadInProgress
| CoordinatorNotAvailable
| NotCoordinator
| InvalidTopicException
| RecordListTooLarge
| NotEnoughReplicas
| NotEnoughReplicasAfterAppend
| InvalidRequiredAcks
| IllegalGeneration
| InconsistentGroupProtocol
| InvalidGroupId
| UnknownMemberId
| InvalidSessionTimeout
| RebalanceInProgress
| InvalidCommitOffsetSize
| TopicAuthorizationFailed
| GroupAuthorizationFailed
| ClusterAuthorizationFailed
| InvalidTimestamp
| UnsupportedSaslMechanism
| IllegalSaslState
| UnsupportedVersion
| TopicAlreadyExists
| InvalidPartitions
| InvalidReplicationFactor
| InvalidReplicaAssignment
| InvalidConfig
| NotController
| InvalidRequest
| UnsupportedForMessageFormat
| PolicyViolation
| OutOfOrderSequenceNumber
| DuplicateSequenceNumber
| InvalidProducerEpoch
| InvalidTxnState
| InvalidProducerIdMapping
| InvalidTransactionTimeout
| ConcurrentTransactions
| TransactionCoordinatorFenced
| TransactionalIdAuthorizationFailed
| SecurityDisabled
| OperationNotAttempted
| KafkaStorageError
| LogDirNotFound
| SaslAuthenticationFailed
| UnknownProducerId
| ReassignmentInProgress
| DelegationTokenAuthDisabled
| NonEmptyGroup
| GroupIdNotFound
| FencedLeaderEpoch
| UnknownLeaderEpoch
| UnsupportedCompressionType
| OffsetNotAvailable
| MemberIdRequired
| GroupMaxSizeReached
| FencedInstanceId
| ElectionNotNeeded
| NoReassignmentInProgress
| GroupSubscribedToTopic
| InvalidRecord
| UnstableOffsetCommit
| ProducerFenced
| ResourceNotFound
| UnacceptableCredential
| FeatureUpdateFailed
| UnknownTopicId
| TransactionalIdNotFound
| FencedMemberEpoch
| UnreleasedInstanceId
| UnsupportedAssignor
| StaleMemberEpoch
| TransactionAbortable
| InvalidRecordState
| ShareSessionNotFound
| InvalidShareSessionEpoch
| InvalidRegularExpression
| ShareSessionLimitReached.

Definition code (e : t) : Z :=
  match e with
  | UnknownServerError => (-1)
  | NoError => 0
  | OffsetOutOfRange => 1
  | CorruptMessage => 2
  | UnknownTopicOrPartition => 3
  | InvalidFetchSize => 4
  | LeaderNotAvailable => 5
  | NotLeaderOrFollower => 6
  | RequestTimedOut => 7
  | MessageTooLarge => 10
  | OffsetMetadataTooLarge => 12
  | NetworkException => 13
  | CoordinatorLoadInProgress => 14
  | CoordinatorNotAvailable => 15
  | NotCoordinator => 16
  | InvalidTopicException => 17
  | RecordListTooLarge => 18
  | NotEnoughReplicas => 19
  | NotEnoughReplicasAfterAppend => 20
  | InvalidRequiredAcks => 21
  | IllegalGeneration => 22
  | InconsistentGroupProtocol => 23
  | InvalidGroupId => 24
  | UnknownMemberId => 25
  | InvalidSessionTimeout => 26
  | RebalanceInProgress => 27
  | InvalidCommitOffsetSize => 28
  | TopicAuthorizationFailed => 29
  | GroupAuthorizationFailed => 30
  | ClusterAuthorizationFailed => 31
  | InvalidTimestamp => 32
  | UnsupportedSaslMechanism => 33
  | IllegalSaslState => 34
  | UnsupportedVersion => 35
  | TopicAlreadyExists => 36
  | InvalidPartitions => 37
  | InvalidReplicationFactor => 38
  | InvalidReplicaAssignment => 39
  | InvalidConfig => 40
  | NotController => 41
  | InvalidRequest => 42
  | UnsupportedForMessageFormat => 43
  | PolicyViolation => 44
  | OutOfOrderSequenceNumber => 45
  | DuplicateSequenceNumber => 46
  | InvalidProducerEpoch => 47
  | InvalidTxnState => 48
  | InvalidProducerIdMapping => 49
  | InvalidTransactionTimeout => 50
  | ConcurrentTransactions => 51
  | TransactionCoordinatorFenced => 52
  | TransactionalIdAuthorizationFailed => 53
  | SecurityDisabled => 54
  | OperationNotAttempted => 55
  | KafkaStorageError => 56
  | LogDirNotFound => 57
  | SaslAuthenticationFailed => 58
  | UnknownProducerId => 59
  | ReassignmentInProgress => 60
  | DelegationTokenAuthDisabled => 61
  | NonEmptyGroup => 68
  | GroupIdNotFound => 69
  | FencedLeaderEpoch => 74
  | UnknownLeaderEpoch => 75
  | UnsupportedCompressionType => 76
  | OffsetNotAvailable => 78
  | MemberIdRequired => 79
  | GroupMaxSizeReached => 81
  | FencedInstanceId => 82
  | ElectionNotNeeded => 84
  | NoReassignmentInProgress => 85
  | GroupSubscribedToTopic => 86
  | InvalidRecord => 87
  | UnstableOffsetCommit => 88
  | ProducerFenced => 90
  | ResourceNotFound => 91
  | UnacceptableCredential => 93
  | FeatureUpdateFailed => 96
  | UnknownTopicId => 100
  | TransactionalIdNotFound => 105
  | FencedMemberEpoch => 110
  | UnreleasedInstanceId => 111
  | UnsupportedAssignor => 112
  | StaleMemberEpoch => 113
  | TransactionAbortable => 120
  | InvalidRecordState => 121
  | ShareSessionNotFound => 122
  | InvalidShareSessionEpoch => 123
  | InvalidRegularExpression => 128
  | ShareSessionLimitReached => 133
  end.

Definition is_retriable (e : t) : bool :=
  match e with
  | CorruptMessage | UnknownTopicOrPartition | LeaderNotAvailable | NotLeaderOrFollower
  | RequestTimedOut | NetworkException | CoordinatorLoadInProgress
  | CoordinatorNotAvailable | NotCoordinator | NotEnoughReplicas
  | NotEnoughReplicasAfterAppend | NotController | ConcurrentTransactions
  | KafkaStorageError | FencedLeaderEpoch | UnknownLeaderEpoch
  | OffsetNotAvailable | UnstableOffsetCommit | UnknownTopicId => true
  | _ => false
  end.

Definition all : list t :=
  [UnknownServerError; NoError; OffsetOutOfRange; CorruptMessage;
   UnknownTopicOrPartition; InvalidFetchSize; LeaderNotAvailable; NotLeaderOrFollower;
   RequestTimedOut; MessageTooLarge; OffsetMetadataTooLarge; NetworkException;
   CoordinatorLoadInProgress; CoordinatorNotAvailable; NotCoordinator; InvalidTopicException;
   RecordListTooLarge; NotEnoughReplicas; NotEnoughReplicasAfterAppend; InvalidRequiredAcks;
   IllegalGeneration; InconsistentGroupProtocol; InvalidGroupId; UnknownMemberId;
   InvalidSessionTimeout; RebalanceInProgress; InvalidCommitOffsetSize; TopicAuthorizationFailed;
   GroupAuthorizationFailed; ClusterAuthorizationFailed; InvalidTimestamp; UnsupportedSaslMechanism;
   IllegalSaslState; UnsupportedVersion; TopicAlreadyExists; InvalidPartitions;
   InvalidReplicationFactor; InvalidReplicaAssignment; InvalidConfig; NotController;
   InvalidRequest; UnsupportedForMessageFormat; PolicyViolation; OutOfOrderSequenceNumber;
   DuplicateSequenceNumber; InvalidProducerEpoch; InvalidTxnState; InvalidProducerIdMapping;
   InvalidTransactionTimeout; ConcurrentTransactions; TransactionCoordinatorFenced; TransactionalIdAuthorizationFailed;
   SecurityDisabled; OperationNotAttempted; KafkaStorageError; LogDirNotFound;
   SaslAuthenticationFailed; UnknownProducerId; ReassignmentInProgress; DelegationTokenAuthDisabled;
   NonEmptyGroup; GroupIdNotFound; FencedLeaderEpoch; UnknownLeaderEpoch;
   UnsupportedCompressionType; OffsetNotAvailable; MemberIdRequired; GroupMaxSizeReached;
   FencedInstanceId; ElectionNotNeeded; NoReassignmentInProgress; GroupSubscribedToTopic;
   InvalidRecord; UnstableOffsetCommit; ProducerFenced; ResourceNotFound;
   UnacceptableCredential; FeatureUpdateFailed; UnknownTopicId; TransactionalIdNotFound;
   FencedMemberEpoch; UnreleasedInstanceId; UnsupportedAssignor; StaleMemberEpoch;
   TransactionAbortable; InvalidRecordState; ShareSessionNotFound; InvalidShareSessionEpoch;
   InvalidRegularExpression; ShareSessionLimitReached].

(** The variant of a wire code. *)
Definition of_code (z : Z) : option t := List.find (λ e, code e =? z) all.

Lemma of_code_code e : of_code (code e) = Some e.
Proof. destruct e; reflexivity. Qed.

(** Distinct variants have distinct wire codes, and each fits the [i16] the
    responses carry it in. *)
Lemma code_inj a b : code a = code b → a = b.
Proof.
  intros H. pose proof (of_code_code a) as Ha.
  rewrite H, of_code_code in Ha. congruence.
Qed.

Lemma code_is_i16 e : is_i16 (code e).
Proof. destruct e; cbv [code is_i16]; lia. Qed.

#[global] Instance eq_dec : EqDecision t.
Proof.
  intros a b. destruct (Z.eq_dec (code a) (code b)) as [H|H].
  - left. by apply code_inj.
  - right. congruence.
Defined.

End ErrorCode.

(** [impl From<CodecError> for ErrorCode]. *)
Definition code_of_codec_error (e : CodecError) : ErrorCode.t :=
  match e with
  | UnsupportedVersionE _ _ | UnknownApiKey _ => ErrorCode.UnsupportedVersion
  | Truncated _ _ | InvalidLength _ | UnexpectedNull _ | InvalidUtf8
  | TagOutOfOrder _ _ | MalformedVarint => ErrorCode.InvalidRequest
  end.

(** No codec failure is reported with a code the client retries. *)
Lemma codec_error_not_retriable e :
  ErrorCode.is_retriable (code_of_codec_error e) = false.
Proof. by destruct e. Qed.
