(* ===== verification/Primitives.v ===== *)
(** * codec/src/primitives.rs: wire primitives

    Readers and writers are [ST bytes CodecError] computations.  The state of
    a reader is the rest of the [Bytes] buffer, which it consumes from the
    front; the state of a writer is the [BytesMut] it appends to.  Integers
    are [Z] in the range of their Rust type; [usize] is [Z] too.  A Rust
    [String] is its UTF-8 bytes, and [utf8_valid] is the check
    [String::from_utf8] makes.  The [f64] pair ([get_f64], [put_f64]) is not
    modelled, and neither is [alloc_vec], which only picks a capacity. *)

From stdpp Require Import strings.
From S2P Require Import Prelude Errors.

Abbreviation codec A := (ST bytes CodecError A).

(** ** Data *)

(** [Uuid]: sixteen raw bytes, all zero for "no uuid". *)
Record Uuid : Type := mk_Uuid { uuid_bytes : bytes }.
Definition Uuid_ZERO : Uuid := mk_Uuid (replicate 16 x00).

(** [RawTaggedField]. *)
Record RawTaggedField : Type := mk_RawTaggedField { tag : Z; data : bytes }.

#[export] Instance RawTaggedField_eq_dec : EqDecision RawTaggedField.
Proof. solve_decision. Defined.

Definition MAX_LENGTH : Z := 100 * 1024 * 1024.

(** ** Readers *)

Definition need (n : Z) : codec unit := λ buf,
  if len buf <? n then (Err (Truncated n (len buf)), buf) else (Ok tt, buf).

(** [buf.split_to(n)] once [need] has checked the length. *)
Definition split_to (n : Z) : codec bytes := λ buf,
  (Ok (take (Z.to_nat n) buf), drop (Z.to_nat n) buf).

Definition take_bytes (n : Z) : codec bytes :=
  need n ;;; split_to n.

(** The body of [read_prim!]: check, then [buf.get_iN()]. *)
Definition get_be_i (n : nat) : codec Z :=
  need (Z.of_nat n) ;;;
  let* b := split_to (Z.of_nat n) in
  ret (wrap_i (8 * Z.of_nat n) (be_val b)).
Definition get_be_u (n : nat) : codec Z :=
  need (Z.of_nat n) ;;;
  let* b := split_to (Z.of_nat n) in
  ret (be_val b).

Definition get_i8 : codec Z := get_be_i 1.
Definition get_i16 : codec Z := get_be_i 2.
Definition get_i32 : codec Z := get_be_i 4.
Definition get_i64 : codec Z := get_be_i 8.
Definition get_u16 : codec Z := get_be_u 2.
Definition get_u32 : codec Z := get_be_u 4.

Definition get_bool : codec bool :=
  let* v := get_i8 in ret (negb (v =? 0)).

Definition get_uuid : codec Uuid :=
  need 16 ;;;
  let* b := split_to 16 in
  ret (mk_Uuid b).

(** The loop of [get_uvarint] from iteration [i] on, [k] iterations left. *)
Fixpoint get_uvarint_loop (k : nat) (i value : Z) : codec Z :=
  match k with
  | O => throw MalformedVarint
  | S k' =>
      let* b8 := get_i8 in
      let b := wrap_u 8 b8 in
      let value := Z.lor value (wrap_u 32 (Z.shiftl (Z.land b 127) (7 * i))) in
      if Z.land b 128 =? 0 then ret value
      else get_uvarint_loop k' (i + 1) value
  end.
Definition get_uvarint : codec Z := get_uvarint_loop 5 0 0.

(** [get_len]: [None] is null. *)
Definition get_len (flexible wide : bool) : codec (option Z) :=
  let checked (raw : Z) : codec (option Z) :=
    if raw <? 0 then ret None
    else if MAX_LENGTH <? raw then throw (InvalidLength raw)
    else ret (Some raw) in
  if flexible then
    let* v := get_uvarint in
    if v =? 0 then ret None else checked (v - 1)
  else if wide then let* v := get_i32 in checked v
  else let* v := get_i16 in checked v.

(** Well-formed UTF-8, as [String::from_utf8] accepts it: no overlong forms,
    no surrogates, nothing above U+10FFFF. *)
Fixpoint utf8_valid (bs : bytes) : bool :=
  let within (lo hi : Z) (b : byte) := (lo <=? u8 b) && (u8 b <=? hi) in
  let cont := within 128 191 in
  match bs with
  | [] => true
  | a :: r1 =>
      if u8 a <? 128 then utf8_valid r1
      else match r1 with
      | [] => false
      | b :: r2 =>
          if within 194 223 a then cont b && utf8_valid r2
          else match r2 with
          | [] => false
          | c :: r3 =>
              if within 224 239 a then
                (if u8 a =? 224 then within 160 191 b
                 else if u8 a =? 237 then within 128 159 b
                 else cont b) && cont c && utf8_valid r3
              else match r3 with
              | [] => false
              | d :: r4 =>
                  within 240 244 a &&
                  (if u8 a =? 240 then within 144 191 b
                   else if u8 a =? 244 then within 128 143 b
                   else cont b) && cont c && cont d && utf8_valid r4
              end
          end
      end
  end.

Definition get_nullable_string (flexible : bool) : codec (option bytes) :=
  let* n := get_len flexible false in
  match n with
  | None => ret None
  | Some n =>
      let* raw := take_bytes n in
      if utf8_valid raw then ret (Some raw) else throw InvalidUtf8
  end.

Definition get_string (flexible : bool) : codec bytes :=
  let* s := get_nullable_string flexible in
  match s with
  | Some s => ret s
  | None => throw (UnexpectedNull "string")
  end.

Definition get_nullable_bytes (flexible : bool) : codec (option bytes) :=
  let* n := get_len flexible true in
  match n with
  | None => ret None
  | Some n => let* b := take_bytes n in ret (Some b)
  end.

Definition get_bytes (flexible : bool) : codec bytes :=
  let* b := get_nullable_bytes flexible in
  match b with
  | Some b => ret b
  | None => throw (UnexpectedNull "bytes")
  end.

Definition get_array_len (flexible : bool) : codec (option Z) :=
  get_len flexible true.

(** ** Writers *)

(** [buf.put_slice(v)]. *)
Definition put_slice (v : bytes) : codec unit := λ buf, (Ok tt, buf ++ v).

Definition put_i8 (v : Z) : codec unit := put_slice (be_bytes 1 v).
Definition put_i16 (v : Z) : codec unit := put_slice (be_bytes 2 v).
Definition put_i32 (v : Z) : codec unit := put_slice (be_bytes 4 v).
Definition put_i64 (v : Z) : codec unit := put_slice (be_bytes 8 v).
Definition put_u16 (v : Z) : codec unit := put_slice (be_bytes 2 v).
Definition put_u32 (v : Z) : codec unit := put_slice (be_bytes 4 v).
Definition put_bool (v : bool) : codec unit := put_i8 (if v then 1 else 0).
Definition put_uuid (v : Uuid) : codec unit := put_slice (uuid_bytes v).

(** [put_uvarint]'s loop.  A [u32] leaves it in at most five iterations, so
    five is enough fuel ([uvarint_fuel]). *)
Fixpoint put_uvarint_loop (fuel : nat) (v : Z) : codec unit :=
  match fuel with
  | O => ret tt
  | S f =>
      if v <? 128 then put_slice [as_u8 v]
      else
        put_slice [as_u8 (Z.lor (Z.land v 127) 128)] ;;;
        put_uvarint_loop f (Z.shiftr v 7)
  end.
Definition put_uvarint (v : Z) : codec unit := put_uvarint_loop 5 v.

Fixpoint uvarint_size_loop (fuel : nat) (v n : Z) : Z :=
  match fuel with
  | O => n
  | S f => if 128 <=? v then uvarint_size_loop f (Z.shiftr v 7) (n + 1) else n
  end.
Definition uvarint_size (v : Z) : Z := uvarint_size_loop 5 v 1.

Definition put_len (len : Z) (flexible wide : bool) : codec unit :=
  if MAX_LENGTH <? len then throw (InvalidLength len)
  else if flexible then put_uvarint (wrap_u 32 (wrap_u 32 len + 1))
  else if wide then put_i32 (wrap_i 32 len)
  else if i16_max <? len then throw (InvalidLength len)
  else put_i16 (wrap_i 16 len).

Definition len_size (len : Z) (flexible wide : bool) : Z :=
  if flexible then uvarint_size (wrap_u 32 (wrap_u 32 len + 1))
  else if wide then 4 else 2.

Definition null_len_size (flexible wide : bool) : Z :=
  if flexible then 1 else if wide then 4 else 2.

Definition put_null_len (flexible wide : bool) : codec unit :=
  if flexible then put_uvarint 0
  else if wide then put_i32 (-1) else put_i16 (-1).

Definition put_string (v : bytes) (flexible : bool) : codec unit :=
  put_len (len v) flexible false ;;; put_slice v.

Definition put_nullable_string (v : option bytes) (flexible : bool) : codec unit :=
  match v with
  | None => put_null_len flexible false
  | Some s => put_string s flexible
  end.

Definition put_bytes (v : bytes) (flexible : bool) : codec unit :=
  put_len (len v) flexible true ;;; put_slice v.

Definition put_nullable_bytes (v : option bytes) (flexible : bool) : codec unit :=
  match v with
  | None => put_null_len flexible true
  | Some b => put_bytes b flexible
  end.

Definition put_array_len (len : Z) (flexible : bool) : codec unit :=
  put_len len flexible true.

Definition put_null_array (flexible : bool) : codec unit :=
  put_null_len flexible true.

Definition string_size (v : bytes) (flexible : bool) : Z :=
  len_size (len v) flexible false + len v.

Definition nullable_string_size (v : option bytes) (flexible : bool) : Z :=
  match v with
  | None => null_len_size flexible false
  | Some s => string_size s flexible
  end.

Definition bytes_size (v : bytes) (flexible : bool) : Z :=
  len_size (len v) flexible true + len v.

Definition nullable_bytes_size (v : option bytes) (flexible : bool) : Z :=
  match v with
  | None => null_len_size flexible true
  | Some b => bytes_size b flexible
  end.

Definition array_len_size (len : Z) (flexible : bool) : Z :=
  len_size len flexible true.

Definition null_array_size (flexible : bool) : Z :=
  null_len_size flexible true.

(** ** What a writer and its reader promise each other

    [writes m enc]: [m] appends exactly [enc].  [reads m enc v]: given [enc]
    and anything after it, [m] returns [v] and leaves what follows.
    [truncates m enc]: given a proper prefix of [enc] only, [m] reports
    [Truncated]. *)

Definition writes (m : codec unit) (enc : bytes) : Prop :=
  ∀ buf, m buf = (Ok tt, buf ++ enc).
Definition reads {A} (m : codec A) (enc : bytes) (v : A) : Prop :=
  ∀ rest, m (enc ++ rest) = (Ok v, rest).
Definition is_truncated {A} (r : result CodecError A) : Prop :=
  ∃ needed available, r = Err (Truncated needed available).
Definition truncates {A} (m : codec A) (enc : bytes) : Prop :=
  ∀ p q, enc = p ++ q → q ≠ [] → is_truncated (m p).1.

(** The contract of a (put, get, size) triple on the values [ok] admits: what
    the [Encodable] trait of codec/src/lib.rs asks of [size], [encode] and
    [decode]. *)
Class WireLaw {A} (put : A → codec unit) (get : codec A) (size : A → Z)
    (ok : A → Prop) : Prop :=
  wire_law : ∀ v, ok v → ∃ enc,
    writes (put v) enc ∧ len enc = size v ∧ reads get enc v ∧ truncates get enc.

Lemma writes_slice v : writes (put_slice v) v.
Proof. by intros buf. Qed.

Lemma writes_ret : writes (ret tt) [].
Proof. intros buf. by rewrite app_nil_r. Qed.

Lemma writes_bind m k e1 e2 :
  writes m e1 → writes k e2 → writes (m ;;; k) (e1 ++ e2).
Proof. intros H1 H2 buf. unfold bind. rewrite H1, H2. by rewrite app_assoc. Qed.

Lemma reads_ret {A} (v : A) : reads (ret v) [] v.
Proof. by intros rest. Qed.

Lemma reads_bind {A B} (m : codec A) (k : A → codec B) e1 e2 a b :
  reads m e1 a → reads (k a) e2 b → reads (bind m k) (e1 ++ e2) b.
Proof. intros H1 H2 rest. unfold bind. rewrite <- app_assoc, H1. apply H2. Qed.

(** A last step that only computes. *)
Lemma reads_map {A B} (m : codec A) (k : A → codec B) e a b :
  reads m e a → (∀ s, k a s = (Ok b, s)) → reads (bind m k) e b.
Proof. intros H1 H2 rest. unfold bind. by rewrite H1, H2. Qed.

Lemma truncates_nil {A} (m : codec A) : truncates m [].
Proof. intros p q H Hq. destruct p, q; done. Qed.

Lemma truncates_bind {A B} (m : codec A) (k : A → codec B) e1 e2 a :
  reads m e1 a → truncates m e1 → truncates (k a) e2 →
  truncates (bind m k) (e1 ++ e2).
Proof.
  intros Hr Ht1 Ht2 p q Hpq Hq. unfold bind.
  destruct (decide (length e1 ≤ length p)%nat) as [Hl|Hl].
  - assert (∃ p', p = e1 ++ p') as [p' ->].
    { exists (drop (length e1) p). rewrite <- (take_drop (length e1) p) at 1. f_equal.
      rewrite <- (take_app_le p q), <- Hpq by done. by rewrite take_app_length. }
    rewrite <- app_assoc in Hpq. apply (inj (app e1)) in Hpq.
    rewrite Hr. by eapply Ht2.
  - assert (∃ q', e1 = p ++ q' ∧ q' ≠ []) as (q' & -> & Hne).
    { exists (drop (length p) e1). split.
      - rewrite <- (take_drop (length p) e1) at 1. f_equal.
        rewrite <- (take_app_le e1 e2), Hpq by lia. by rewrite take_app_length.
      - intros Hd. apply (f_equal length) in Hd. rewrite length_drop in Hd. simpl in Hd. lia. }
    destruct (Ht1 p q' eq_refl Hne) as (n & av & Hm).
    destruct (m p) as [[?|?] s]; simpl in *; simplify_eq. by exists n, av.
Qed.

Lemma truncates_map {A B} (m : codec A) (k : A → codec B) e :
  truncates m e → truncates (bind m k) e.
Proof.
  intros Ht p q Hpq Hq. destruct (Ht p q Hpq Hq) as (n & av & Hm). unfold bind.
  destruct (m p) as [[?|?] s]; simpl in *; simplify_eq. by exists n, av.
Qed.

#[export] Hint Resolve writes_slice writes_ret reads_ret truncates_nil : kafgres.

(** ** The readers *)

Lemma need_ok n buf : n ≤ len buf → need n buf = (Ok tt, buf).
Proof. intros. unfold need. case_match eqn:E; [| done]. apply Z.ltb_lt in E. lia. Qed.

Lemma need_short n buf :
  len buf < n → need n buf = (Err (Truncated n (len buf)), buf).
Proof. intros. unfold need. case_match eqn:E; [done |]. apply Z.ltb_ge in E. lia. Qed.

Lemma take_bytes_reads b : reads (take_bytes (len b)) b b.
Proof.
  intros rest. unfold take_bytes, bind.
  rewrite need_ok by (rewrite len_app; pose proof (len_nonneg rest); lia).
  unfold split_to. by rewrite take_len_app, drop_len_app.
Qed.

Lemma need_truncates {A} (k : unit → codec A) n e :
  len e = n → truncates (bind (need n) k) e.
Proof.
  intros Hn p q -> Hq. unfold bind. rewrite need_short; [by eexists _, _ |].
  rewrite len_app in Hn. assert (0 < len q); [| lia].
  destruct q; [done |]. rewrite len_cons. pose proof (len_nonneg q). lia.
Qed.

Lemma take_bytes_truncates b : truncates (take_bytes (len b)) b.
Proof. by apply need_truncates. Qed.

Lemma get_be_split {A} n (f : bytes → A) b :
  length b = n →
  reads (need (Z.of_nat n) ;;; let* b := split_to (Z.of_nat n) in ret (f b)) b (f b).
Proof.
  intros <- rest. unfold bind.
  rewrite need_ok by (rewrite len_app; unfold len; lia).
  unfold split_to, ret. change (Z.of_nat (length b)) with (len b).
  by rewrite take_len_app, drop_len_app.
Qed.

Lemma get_be_i_reads n v :
  (0 < n)%nat → wrap_i (8 * Z.of_nat n) v = v → reads (get_be_i n) (be_bytes n v) v.
Proof.
  intros Hn Hv. rewrite <- Hv at 2. rewrite <- (wrap_i_be_val_be_bytes n v) by done.
  apply (get_be_split n (λ b, wrap_i (8 * Z.of_nat n) (be_val b))), be_bytes_length.
Qed.

Lemma get_be_u_reads n v :
  0 ≤ v < 256 ^ Z.of_nat n → reads (get_be_u n) (be_bytes n v) v.
Proof.
  intros Hv. rewrite <- (Z.mod_small v (256 ^ Z.of_nat n)) at 2 by done.
  rewrite <- be_val_be_bytes.
  apply (get_be_split n be_val), be_bytes_length.
Qed.

Lemma get_be_i_truncates n v : truncates (get_be_i n) (be_bytes n v).
Proof. apply need_truncates, len_be_bytes. Qed.
Lemma get_be_u_truncates n v : truncates (get_be_u n) (be_bytes n v).
Proof. apply need_truncates, len_be_bytes. Qed.

Lemma get_i8_reads v : is_i8 v → reads get_i8 (be_bytes 1 v) v.
Proof. intros. apply get_be_i_reads; [lia | by apply wrap_i8_id]. Qed.
Lemma get_i16_reads v : is_i16 v → reads get_i16 (be_bytes 2 v) v.
Proof. intros. apply get_be_i_reads; [lia | by apply wrap_i16_id]. Qed.
Lemma get_i32_reads v : is_i32 v → reads get_i32 (be_bytes 4 v) v.
Proof. intros. apply get_be_i_reads; [lia | by apply wrap_i32_id]. Qed.
Lemma get_i64_reads v : is_i64 v → reads get_i64 (be_bytes 8 v) v.
Proof. intros. apply get_be_i_reads; [lia | by apply wrap_i64_id]. Qed.
#[export] Hint Resolve get_i8_reads get_i16_reads get_i32_reads get_i64_reads
  get_be_i_truncates get_be_u_truncates take_bytes_reads take_bytes_truncates : kafgres.

#[export] Instance wire_i16 : WireLaw put_i16 get_i16 (λ _, 2) is_i16.
Proof. intros v Hv. exists (be_bytes 2 v). repeat split; eauto with kafgres. Qed.
#[export] Instance wire_i32 : WireLaw put_i32 get_i32 (λ _, 4) is_i32.
Proof. intros v Hv. exists (be_bytes 4 v). repeat split; eauto with kafgres. Qed.
#[export] Instance wire_i64 : WireLaw put_i64 get_i64 (λ _, 8) is_i64.
Proof. intros v Hv. exists (be_bytes 8 v). repeat split; eauto with kafgres. Qed.

(** ** Unsigned varints *)

Lemma get_i8_byte b rest : get_i8 (b :: rest) = (Ok (wrap_i 8 (u8 b)), rest).
Proof.
  change (b :: rest) with ([b] ++ rest).
  apply (get_be_split 1 (λ b, wrap_i (8 * Z.of_nat 1) (be_val b)) [b] eq_refl rest).
Qed.

(** One iteration of the loop on a byte that is there. *)
Lemma get_uvarint_loop_byte k i value b rest :
  get_uvarint_loop (S k) i value (b :: rest) =
    let value := Z.lor value (wrap_u 32 (Z.shiftl (u8 b mod 128) (7 * i))) in
    if u8 b <? 128 then (Ok value, rest) else get_uvarint_loop k (i + 1) value rest.
Proof.
  cbn [get_uvarint_loop]. unfold bind. rewrite get_i8_byte, wrap_u8_wrap_i8.
  rewrite land_7f, land_80_byte by apply u8_range. by destruct (u8 b <? 128).
Qed.

Lemma get_uvarint_loop_nil k i value :
  is_truncated (get_uvarint_loop (S k) i value []).1.
Proof. by eexists _, _. Qed.

Lemma get_uvarint_loop_reads k i a v :
  0 ≤ i → 0 ≤ a < 2 ^ (7 * i) → 0 ≤ v < 128 ^ Z.of_nat k → v * 2 ^ (7 * i) < 2 ^ 32 →
  (0 < k)%nat →
  reads (get_uvarint_loop k i a) (leb128 k v) (a + v * 2 ^ (7 * i)).
Proof.
  revert i a v. induction k as [|k IH]; intros i a v Hi Ha Hv Hb Hk rest; [lia |].
  cbn [leb128]. destruct (v <? 128) eqn:E.
  - apply Z.ltb_lt in E. cbn [app]. rewrite get_uvarint_loop_byte, u8_as_u8.
    rewrite (Z.mod_small v 256), varint_acc by lia. cbv zeta.
    rewrite (proj2 (Z.ltb_lt v 128)) by lia. by rewrite Z.mod_small by lia.
  - apply Z.ltb_ge in E. cbn [app]. rewrite get_uvarint_loop_byte, u8_cont, mod_128_cont.
    rewrite varint_acc by lia. cbv zeta.
    pose proof (Z.mod_pos_bound v 128 ltac:(lia)).
    rewrite (proj2 (Z.ltb_ge _ 128)) by lia.
    destruct k as [|k]; [simpl in Hv; lia |].
    destruct (varint_acc_next (7 * i) a v) as [Hacc Heq]; [lia.. |].
    replace (7 * i + 7) with (7 * (i + 1)) in Hacc, Heq by lia.
    rewrite (IH (i + 1)); [by rewrite Heq | lia | done | by apply leb128_div | | lia].
    assert (0 < 2 ^ (7 * i)) by (apply Z.pow_pos_nonneg; lia). lia.
Qed.

Lemma get_uvarint_loop_truncates k i a v : truncates (get_uvarint_loop k i a) (leb128 k v).
Proof.
  revert i a v. induction k as [|k IH]; intros i a v; [apply truncates_nil |].
  intros [|b p] q Hpq Hq; [apply get_uvarint_loop_nil |].
  rewrite get_uvarint_loop_byte. cbv zeta. cbn [leb128] in Hpq.
  destruct (v <? 128); simplify_eq/=; [by destruct p, q |].
  rewrite u8_cont. pose proof (Z.mod_pos_bound v 128 ltac:(lia)).
  rewrite (proj2 (Z.ltb_ge _ 128)) by lia. by eapply IH.
Qed.

Lemma put_uvarint_loop_writes k v : writes (put_uvarint_loop k v) (leb128 k v).
Proof.
  revert v. induction k as [|k IH]; intros v; [apply writes_ret |].
  cbn [leb128 put_uvarint_loop]. case_match; [apply writes_slice |].
  rewrite as_u8_cont, shiftr_7. apply (writes_bind _ _ [_]); [apply writes_slice | apply IH].
Qed.

Lemma uvarint_size_loop_len k v n :
  0 ≤ v < 128 ^ Z.of_nat k → (0 < k)%nat →
  uvarint_size_loop k v n = len (leb128 k v) + n - 1.
Proof.
  revert v n. induction k as [|k IH]; intros v n Hv Hk; [lia |].
  cbn [leb128 uvarint_size_loop]. rewrite Z.leb_antisym.
  destruct (v <? 128) eqn:E; cbn [negb]; [rewrite len_cons, len_nil; lia |].
  apply Z.ltb_ge in E. rewrite shiftr_7, len_cons.
  destruct k as [|k]; [simpl in Hv; lia |].
  rewrite IH; [lia | by apply leb128_div | lia].
Qed.

#[export] Instance wire_uvarint : WireLaw put_uvarint get_uvarint uvarint_size is_u32.
Proof.
  intros v Hv. exists (leb128 5 v).
  assert (0 ≤ v < 128 ^ Z.of_nat 5) by (simpl; int_lia).
  split; [apply put_uvarint_loop_writes |]. split; [| split].
  - unfold uvarint_size. rewrite uvarint_size_loop_len by (done || lia). lia.
  - intros rest. unfold get_uvarint.
    rewrite (get_uvarint_loop_reads 5 0 0 v) by (simpl; int_lia). by rewrite Z.add_0_l, Z.mul_1_r.
  - apply get_uvarint_loop_truncates.
Qed.

(** ** Length prefixes, strings and byte fields *)

(** The longest value each length prefix can carry. *)
Definition max_len (flexible wide : bool) : Z :=
  if flexible || wide then MAX_LENGTH else i16_max.

Lemma max_len_le flexible wide : max_len flexible wide ≤ MAX_LENGTH.
Proof. by destruct flexible, wide. Qed.

(** What [put_len] writes for a length, and [put_null_len] for null. *)
Definition len_enc (o : option Z) (flexible wide : bool) : codec unit :=
  match o with
  | Some n => put_len n flexible wide
  | None => put_null_len flexible wide
  end.
Definition len_enc_size (o : option Z) (flexible wide : bool) : Z :=
  match o with
  | Some n => len_size n flexible wide
  | None => null_len_size flexible wide
  end.
Definition len_ok (flexible wide : bool) (o : option Z) : Prop :=
  match o with
  | Some n => 0 ≤ n ≤ max_len flexible wide
  | None => True
  end.

(** Reading with [get] and then a check that accepts. *)
Lemma wire_then {A B} (put : A → codec unit) get size ok `{!WireLaw put get size ok}
    (k : A → codec B) v r :
  ok v → (∀ s, k v s = (Ok r, s)) → ∃ enc,
    writes (put v) enc ∧ len enc = size v ∧ reads (bind get k) enc r ∧ truncates (bind get k) enc.
Proof.
  intros Hv Hk. destruct (wire_law v Hv) as (enc & Hw & Hs & Hr & Ht).
  exists enc. repeat split; [done | done | by eapply reads_map | by apply truncates_map].
Qed.

#[export] Instance wire_len flexible wide :
  WireLaw (λ o, len_enc o flexible wide) (get_len flexible wide)
    (λ o, len_enc_size o flexible wide) (len_ok flexible wide).
Proof.
  intros [n|] Hn; unfold len_enc, len_enc_size, get_len, put_len, len_size,
    put_null_len, null_len_size.
  - simpl in Hn. pose proof (max_len_le flexible wide).
    assert (n ≤ MAX_LENGTH) by lia.
    rewrite (proj2 (Z.ltb_ge MAX_LENGTH n)) by lia.
    assert (MAX_LENGTH = 104857600) by done.
    destruct flexible; [| destruct wide].
    + rewrite (wrap_u_small 32 n), (wrap_u_small 32 (n + 1)) by lia.
      apply (wire_then put_uvarint get_uvarint uvarint_size is_u32); [int_lia |].
      intros s. rewrite (proj2 (Z.eqb_neq (n + 1) 0)) by lia.
      replace (n + 1 - 1) with n by lia.
      rewrite (proj2 (Z.ltb_ge n 0)), (proj2 (Z.ltb_ge MAX_LENGTH n)) by lia. done.
    + rewrite wrap_i32_id by int_lia.
      apply (wire_then put_i32 get_i32 (λ _, 4) is_i32); [int_lia |]. intros s.
      rewrite (proj2 (Z.ltb_ge n 0)), (proj2 (Z.ltb_ge MAX_LENGTH n)) by lia. done.
    + change (max_len false false) with i16_max in Hn.
      rewrite (proj2 (Z.ltb_ge i16_max n)) by lia.
      rewrite wrap_i16_id by int_lia.
      apply (wire_then put_i16 get_i16 (λ _, 2) is_i16); [int_lia |]. intros s.
      rewrite (proj2 (Z.ltb_ge n 0)), (proj2 (Z.ltb_ge MAX_LENGTH n)) by lia. done.
  - destruct flexible; [| destruct wide].
    + by apply (wire_then put_uvarint get_uvarint uvarint_size is_u32).
    + by apply (wire_then put_i32 get_i32 (λ _, 4) is_i32).
    + by apply (wire_then put_i16 get_i16 (λ _, 2) is_i16).
Qed.

(** A field of bytes: its length prefix, then its bytes, then a check on
    them that accepts. *)
Lemma wire_field flexible wide (v : bytes) {A} (chk : bytes → codec A) (r : A) :
  len v ≤ max_len flexible wide → (∀ s, chk v s = (Ok r, s)) → ∃ enc,
    writes (put_len (len v) flexible wide ;;; put_slice v) enc ∧
    len enc = len_size (len v) flexible wide + len v ∧
    ∀ (get : option Z → codec A),
      get (Some (len v)) = (let* raw := take_bytes (len v) in chk raw) →
      reads (bind (get_len flexible wide) get) enc r ∧
      truncates (bind (get_len flexible wide) get) enc.
Proof.
  intros Hl Hchk. pose proof (len_nonneg v).
  destruct (wire_law (WireLaw := wire_len flexible wide) (Some (len v)))
    as (e1 & Hw & Hs & Hr & Ht); [done |].
  exists (e1 ++ v). split; [by apply writes_bind, writes_slice |].
  split; [by rewrite len_app, Hs |]. intros get Hget. split.
  - eapply reads_bind; [done |]. rewrite Hget. eapply reads_map, Hchk. apply take_bytes_reads.
  - eapply truncates_bind; [done | done |]. rewrite Hget. apply truncates_map, take_bytes_truncates.
Qed.

(** The strings and byte fields the encoder takes. *)
Definition string_ok (flexible : bool) (v : bytes) : Prop :=
  utf8_valid v = true ∧ len v ≤ max_len flexible false.
Definition bytes_ok (v : bytes) : Prop := len v ≤ MAX_LENGTH.
Definition opt_ok {A} (P : A → Prop) (o : option A) : Prop :=
  match o with Some v => P v | None => True end.

#[export] Instance wire_nullable_string flexible :
  WireLaw (λ v, put_nullable_string v flexible) (get_nullable_string flexible)
    (λ v, nullable_string_size v flexible) (opt_ok (string_ok flexible)).
Proof.
  intros [v|] Hv.
  - destruct Hv as [Hu Hl].
    destruct (wire_field flexible false v
      (λ raw, if utf8_valid raw then ret (Some raw) else throw InvalidUtf8) (Some v))
      as (enc & Hw & Hs & Hg); [done | by rewrite Hu |].
    exists enc. split; [done |]. split; [done |]. by apply Hg.
  - by apply (wire_then (λ o, len_enc o flexible false) (get_len flexible false)
      (λ o, len_enc_size o flexible false) (len_ok flexible false) _ None).
Qed.

#[export] Instance wire_string flexible :
  WireLaw (λ v, put_string v flexible) (get_string flexible)
    (λ v, string_size v flexible) (string_ok flexible).
Proof.
  intros v Hv.
  by apply (wire_then (λ v, put_nullable_string v flexible) (get_nullable_string flexible)
    (λ v, nullable_string_size v flexible) (opt_ok (string_ok flexible)) _ (Some v)).
Qed.

#[export] Instance wire_nullable_bytes flexible :
  WireLaw (λ v, put_nullable_bytes v flexible) (get_nullable_bytes flexible)
    (λ v, nullable_bytes_size v flexible) (opt_ok bytes_ok).
Proof.
  intros [v|] Hv.
  - destruct (wire_field flexible true v (λ b, ret (Some b)) (Some v))
      as (enc & Hw & Hs & Hg); [by destruct flexible | done |].
    exists enc. split; [done |]. split; [done |]. by apply Hg.
  - by apply (wire_then (λ o, len_enc o flexible true) (get_len flexible true)
      (λ o, len_enc_size o flexible true) (len_ok flexible true) _ None).
Qed.

#[export] Instance wire_bytes flexible :
  WireLaw (λ v, put_bytes v flexible) (get_bytes flexible)
    (λ v, bytes_size v flexible) bytes_ok.
Proof.
  intros v Hv.
  by apply (wire_then (λ v, put_nullable_bytes v flexible) (get_nullable_bytes flexible)
    (λ v, nullable_bytes_size v flexible) (opt_ok bytes_ok) _ (Some v)).
Qed.
