(* ===== verification/Apis.v ===== *)
(** * codec/src/lib.rs and codec/src/generated/apis.rs: API tables

    The static facts about each API ([ApiSpec]), the version range rule
    ([VersionRange]) and the two tables the dispatcher reads: every API the
    vendored schemas define ([SCHEMA_APIS]) and what the ApiVersions response
    offers ([ADVERTISED]).  The rows are those of the checked-in table. *)

From stdpp Require Import strings.
From S2P Require Import Prelude.

Record VersionRange : Type := mk_range { min : Z; max : Z }.

Definition contains (r : VersionRange) (v : Z) : bool :=
  (min r <=? v) && (v <=? max r).

Record ApiVersionRange : Type := mk_adv {
  api_key : Z;
  min_version : Z;
  max_version : Z }.

Record ApiSpec : Type := mk_spec {
  key : Z;
  name : string;
  valid : VersionRange;
  flexible : VersionRange;
  latest_version_unstable : bool }.

(** [ApiSpec::is_flexible]. *)
Definition spec_is_flexible (s : ApiSpec) (version : Z) : bool :=
  contains (flexible s) version.

Definition SCHEMA_APIS : list ApiSpec :=
  [mk_spec 0 "Produce" (mk_range 3 13) (mk_range 9 32767) false;
   mk_spec 1 "Fetch" (mk_range 4 18) (mk_range 12 32767) false;
   mk_spec 2 "ListOffsets" (mk_range 1 11) (mk_range 6 32767) false;
   mk_spec 3 "Metadata" (mk_range 0 13) (mk_range 9 32767) false;
   mk_spec 8 "OffsetCommit" (mk_range 2 10) (mk_range 8 32767) false;
   mk_spec 9 "OffsetFetch" (mk_range 1 10) (mk_range 6 32767) false;
   mk_spec 10 "FindCoordinator" (mk_range 0 6) (mk_range 3 32767) false;
   mk_spec 11 "JoinGroup" (mk_range 0 9) (mk_range 6 32767) false;
   mk_spec 12 "Heartbeat" (mk_range 0 4) (mk_range 4 32767) false;
   mk_spec 13 "LeaveGroup" (mk_range 0 5) (mk_range 4 32767) false;
   mk_spec 14 "SyncGroup" (mk_range 0 5) (mk_range 4 32767) false;
   mk_spec 15 "DescribeGroups" (mk_range 0 6) (mk_range 5 32767) false;
   mk_spec 16 "ListGroups" (mk_range 0 5) (mk_range 3 32767) false;
   mk_spec 17 "SaslHandshake" (mk_range 0 1) (mk_range 0 (-1)) false;
   mk_spec 18 "ApiVersions" (mk_range 0 4) (mk_range 3 32767) false;
   mk_spec 19 "CreateTopics" (mk_range 2 7) (mk_range 5 32767) false;
   mk_spec 20 "DeleteTopics" (mk_range 1 6) (mk_range 4 32767) false;
   mk_spec 21 "DeleteRecords" (mk_range 0 2) (mk_range 2 32767) false;
   mk_spec 22 "InitProducerId" (mk_range 0 6) (mk_range 2 32767) true;
   mk_spec 23 "OffsetForLeaderEpoch" (mk_range 2 4) (mk_range 4 32767) false;
   mk_spec 24 "AddPartitionsToTxn" (mk_range 0 5) (mk_range 3 32767) false;
   mk_spec 25 "AddOffsetsToTxn" (mk_range 0 4) (mk_range 3 32767) false;
   mk_spec 26 "EndTxn" (mk_range 0 5) (mk_range 3 32767) false;
   mk_spec 27 "WriteTxnMarkers" (mk_range 1 2) (mk_range 1 32767) false;
   mk_spec 28 "TxnOffsetCommit" (mk_range 0 5) (mk_range 3 32767) false;
   mk_spec 29 "DescribeAcls" (mk_range 1 3) (mk_range 2 32767) false;
   mk_spec 30 "CreateAcls" (mk_range 1 3) (mk_range 2 32767) false;
   mk_spec 31 "DeleteAcls" (mk_range 1 3) (mk_range 2 32767) false;
   mk_spec 32 "DescribeConfigs" (mk_range 1 4) (mk_range 4 32767) false;
   mk_spec 33 "AlterConfigs" (mk_range 0 2) (mk_range 2 32767) false;
   mk_spec 34 "AlterReplicaLogDirs" (mk_range 1 2) (mk_range 2 32767) false;
   mk_spec 35 "DescribeLogDirs" (mk_range 1 5) (mk_range 2 32767) false;
   mk_spec 36 "SaslAuthenticate" (mk_range 0 2) (mk_range 2 32767) false;
   mk_spec 37 "CreatePartitions" (mk_range 0 3) (mk_range 2 32767) false;
   mk_spec 38 "CreateDelegationToken" (mk_range 1 3) (mk_range 2 32767) false;
   mk_spec 39 "RenewDelegationToken" (mk_range 1 2) (mk_range 2 32767) false;
   mk_spec 40 "ExpireDelegationToken" (mk_range 1 2) (mk_range 2 32767) false;
   mk_spec 41 "DescribeDelegationToken" (mk_range 1 3) (mk_range 2 32767) false;
   mk_spec 42 "DeleteGroups" (mk_range 0 2) (mk_range 2 32767) false;
   mk_spec 43 "ElectLeaders" (mk_range 0 2) (mk_range 2 32767) false;
   mk_spec 44 "IncrementalAlterConfigs" (mk_range 0 1) (mk_range 1 32767) false;
   mk_spec 45 "AlterPartitionReassignments" (mk_range 0 1) (mk_range 0 32767) false;
   mk_spec 46 "ListPartitionReassignments" (mk_range 0 0) (mk_range 0 32767) false;
   mk_spec 47 "OffsetDelete" (mk_range 0 0) (mk_range 0 (-1)) false;
   mk_spec 48 "DescribeClientQuotas" (mk_range 0 1) (mk_range 1 32767) false;
   mk_spec 49 "AlterClientQuotas" (mk_range 0 1) (mk_range 1 32767) false;
   mk_spec 50 "DescribeUserScramCredentials" (mk_range 0 0) (mk_range 0 32767) false;
   mk_spec 51 "AlterUserScramCredentials" (mk_range 0 0) (mk_range 0 32767) false;
   mk_spec 52 "Vote" (mk_range 0 2) (mk_range 0 32767) false;
   mk_spec 53 "BeginQuorumEpoch" (mk_range 0 1) (mk_range 1 32767) false;
   mk_spec 54 "EndQuorumEpoch" (mk_range 0 1) (mk_range 1 32767) false;
   mk_spec 55 "DescribeQuorum" (mk_range 0 2) (mk_range 0 32767) false;
   mk_spec 56 "AlterPartition" (mk_range 2 3) (mk_range 0 32767) false;
   mk_spec 57 "UpdateFeatures" (mk_range 0 2) (mk_range 0 32767) false;
   mk_spec 58 "Envelope" (mk_range 0 0) (mk_range 0 32767) false;
   mk_spec 59 "FetchSnapshot" (mk_range 0 1) (mk_range 0 32767) false;
   mk_spec 60 "DescribeCluster" (mk_range 0 2) (mk_range 0 32767) false;
   mk_spec 61 "DescribeProducers" (mk_range 0 0) (mk_range 0 32767) false;
   mk_spec 62 "BrokerRegistration" (mk_range 0 4) (mk_range 0 32767) false;
   mk_spec 63 "BrokerHeartbeat" (mk_range 0 2) (mk_range 0 32767) false;
   mk_spec 64 "UnregisterBroker" (mk_range 0 0) (mk_range 0 32767) false;
   mk_spec 65 "DescribeTransactions" (mk_range 0 0) (mk_range 0 32767) false;
   mk_spec 66 "ListTransactions" (mk_range 0 2) (mk_range 0 32767) false;
   mk_spec 67 "AllocateProducerIds" (mk_range 0 0) (mk_range 0 32767) false;
   mk_spec 68 "ConsumerGroupHeartbeat" (mk_range 0 1) (mk_range 0 32767) false;
   mk_spec 69 "ConsumerGroupDescribe" (mk_range 0 1) (mk_range 0 32767) false;
   mk_spec 70 "ControllerRegistration" (mk_range 0 0) (mk_range 0 32767) false;
   mk_spec 71 "GetTelemetrySubscriptions" (mk_range 0 0) (mk_range 0 32767) false;
   mk_spec 72 "PushTelemetry" (mk_range 0 0) (mk_range 0 32767) false;
   mk_spec 73 "AssignReplicasToDirs" (mk_range 0 0) (mk_range 0 32767) false;
   mk_spec 74 "ListConfigResources" (mk_range 0 1) (mk_range 0 32767) false;
   mk_spec 75 "DescribeTopicPartitions" (mk_range 0 0) (mk_range 0 32767) false;
   mk_spec 76 "ShareGroupHeartbeat" (mk_range 1 1) (mk_range 0 32767) false;
   mk_spec 77 "ShareGroupDescribe" (mk_range 1 1) (mk_range 0 32767) false;
   mk_spec 78 "ShareFetch" (mk_range 1 2) (mk_range 0 32767) false;
   mk_spec 79 "ShareAcknowledge" (mk_range 1 2) (mk_range 0 32767) false;
   mk_spec 80 "AddRaftVoter" (mk_range 0 1) (mk_range 0 32767) false;
   mk_spec 81 "RemoveRaftVoter" (mk_range 0 0) (mk_range 0 32767) false;
   mk_spec 82 "UpdateRaftVoter" (mk_range 0 0) (mk_range 0 32767) false;
   mk_spec 83 "InitializeShareGroupState" (mk_range 0 0) (mk_range 0 32767) false;
   mk_spec 84 "ReadShareGroupState" (mk_range 0 0) (mk_range 0 32767) false;
   mk_spec 85 "WriteShareGroupState" (mk_range 0 1) (mk_range 0 32767) false;
   mk_spec 86 "DeleteShareGroupState" (mk_range 0 0) (mk_range 0 32767) false;
   mk_spec 87 "ReadShareGroupStateSummary" (mk_range 0 1) (mk_range 0 32767) false;
   mk_spec 88 "StreamsGroupHeartbeat" (mk_range 0 0) (mk_range 0 32767) false;
   mk_spec 89 "StreamsGroupDescribe" (mk_range 0 0) (mk_range 0 32767) false;
   mk_spec 90 "DescribeShareGroupOffsets" (mk_range 0 1) (mk_range 0 32767) false;
   mk_spec 91 "AlterShareGroupOffsets" (mk_range 0 0) (mk_range 0 32767) false;
   mk_spec 92 "DeleteShareGroupOffsets" (mk_range 0 0) (mk_range 0 32767) false].

Definition ADVERTISED : list ApiVersionRange :=
  [mk_adv 0 0 13; mk_adv 1 4 18; mk_adv 2 1 11; mk_adv 3 0 13;
   mk_adv 8 2 10; mk_adv 9 1 10; mk_adv 10 0 6; mk_adv 11 0 9;
   mk_adv 12 0 4; mk_adv 13 0 5; mk_adv 14 0 5; mk_adv 15 0 6;
   mk_adv 16 0 5; mk_adv 17 0 1; mk_adv 18 0 4; mk_adv 19 2 7;
   mk_adv 20 1 6; mk_adv 21 0 2; mk_adv 22 0 5; mk_adv 23 2 4;
   mk_adv 24 0 5; mk_adv 25 0 4; mk_adv 26 0 5; mk_adv 27 1 1;
   mk_adv 28 0 5; mk_adv 29 1 3; mk_adv 30 1 3; mk_adv 31 1 3;
   mk_adv 32 1 4; mk_adv 33 0 2; mk_adv 34 1 2; mk_adv 35 1 5;
   mk_adv 36 0 2; mk_adv 37 0 3; mk_adv 38 1 3; mk_adv 39 1 2;
   mk_adv 40 1 2; mk_adv 41 1 3; mk_adv 42 0 2; mk_adv 43 1 2;
   mk_adv 44 0 1; mk_adv 45 0 1; mk_adv 46 0 0; mk_adv 47 0 0;
   mk_adv 48 0 1; mk_adv 49 0 1; mk_adv 50 0 0; mk_adv 51 0 0;
   mk_adv 55 0 2; mk_adv 57 0 2; mk_adv 60 0 2; mk_adv 61 0 0;
   mk_adv 64 0 0; mk_adv 65 0 0; mk_adv 66 0 2; mk_adv 68 0 1;
   mk_adv 69 0 1; mk_adv 74 1 1; mk_adv 75 0 0; mk_adv 76 1 1;
   mk_adv 77 1 1; mk_adv 78 1 2; mk_adv 79 1 2; mk_adv 80 0 1;
   mk_adv 81 0 0; mk_adv 83 0 0; mk_adv 84 0 0; mk_adv 85 0 1;
   mk_adv 86 0 0; mk_adv 87 0 1; mk_adv 88 0 0; mk_adv 89 0 0;
   mk_adv 90 0 1; mk_adv 91 0 0; mk_adv 92 0 0].

(** [SCHEMA_APIS.iter().find(|a| a.key == api_key)], [ApiSpec::lookup]. *)
Definition lookup_spec (k : Z) : option ApiSpec :=
  List.find (λ a, key a =? k) SCHEMA_APIS.

Definition lookup_adv (k : Z) : option ApiVersionRange :=
  List.find (λ a, api_key a =? k) ADVERTISED.

Lemma lookup_spec_key k s : lookup_spec k = Some s → key s = k.
Proof. intros H. apply List.find_some in H as [_ H]. by apply Z.eqb_eq. Qed.

Lemma lookup_adv_key k a : lookup_adv k = Some a → api_key a = k.
Proof. intros H. apply List.find_some in H as [_ H]. by apply Z.eqb_eq. Qed.

Lemma contains_spec r v : contains r v = true ↔ min r ≤ v ≤ max r.
Proof. unfold contains. rewrite andb_true_iff, !Z.leb_le. done. Qed.

(** A property of the rows of [ADVERTISED], checked row by row. *)
Lemma advertised_forall (P : ApiVersionRange → bool) :
  forallb P ADVERTISED = true → ∀ a, a ∈ ADVERTISED → P a = true.
Proof. rewrite forallb_forall. intros H a Ha. by apply H, list_elem_of_In. Qed.
