(* ===== verification/Framing.v ===== *)
(** * codec/src/framing.rs: request framing and version negotiation

    [take_frame] pulls one length-prefixed frame off a connection's inbound
    buffer, [write_frame] writes one onto the outbound buffer, and
    [negotiate] decides what to do with an inbound (api key, version). *)

From stdpp Require Import strings.
From S2P Require Import Prelude Errors Primitives Apis.

Definition DEFAULT_MAX_REQUEST_BYTES : Z := 8 * 1024 * 1024.
Definition API_VERSIONS_KEY : Z := 18.

Inductive FrameError : Type := Oversized (declared max : Z).

Definition take_frame (max : Z) : ST bytes FrameError (option bytes) := λ buf,
  if len buf <? 4 then (Ok None, buf)
  else
    let declared := wrap_i 32 (be_val (slice 0 4 buf)) in
    if (declared <? 0) || (max <? declared) then (Err (Oversized declared max), buf)
    else
      let total := 4 + declared in
      if len buf <? total then (Ok None, buf)
      else
        let frame := take (Z.to_nat total) buf in
        (Ok (Some (drop 4 frame)), drop (Z.to_nat total) buf).

(** [encode_body] appends to [out]; on its failure, or when the body is too
    long, what was written stays in [out]. *)
Definition write_frame (encode_body : codec unit) : codec unit := λ out,
  let start := length out in
  match encode_body (out ++ replicate 4 x00) with
  | (Err e, out') => (Err e, out')
  | (Ok _, out') =>
      let n := len out' - Z.of_nat start - 4 in
      if i32_max <? n then (Err (InvalidLength n), out')
      else (Ok tt, splice start (be_bytes 4 n) out')
  end.

Inductive Negotiation : Type :=
| Supported
| ApiVersionsFallback
| UnsupportedVersion
| UnknownApi.

Definition negotiate (k version : Z) : Negotiation :=
  let spec := lookup_spec k in
  let known := match spec with Some _ => true | None => false end in
  let served :=
    match spec, lookup_adv k with
    | Some spec, Some adv =>
        (min_version adv <=? version) && (version <=? max_version adv)
        && contains (valid spec) version
    | _, _ => false
    end in
  if served then Supported
  else if k =? API_VERSIONS_KEY then ApiVersionsFallback
  else if known then UnsupportedVersion
  else UnknownApi.

(** [Negotiation::error_code]. *)
Definition negotiation_error_code (n : Negotiation) : option ErrorCode.t :=
  match n with
  | Supported => None
  | ApiVersionsFallback | UnsupportedVersion | UnknownApi =>
      Some ErrorCode.UnsupportedVersion
  end.

(** ** Frames *)

(** One frame as it is on the wire. *)
Definition framed (body : bytes) : bytes := be_bytes 4 (len body) ++ body.

Lemma framed_len body : len (framed body) = 4 + len body.
Proof. unfold framed. by rewrite len_app, len_be_bytes. Qed.

(** The size read back from a frame's first four bytes. *)
Lemma framed_declared body rest :
  len body ≤ i32_max →
  wrap_i 32 (be_val (slice 0 4 (framed body ++ rest))) = len body.
Proof.
  intros. pose proof (len_nonneg body). unfold framed.
  rewrite <- app_assoc, slice_0_app by apply be_bytes_length.
  change 32 with (8 * Z.of_nat 4). rewrite wrap_i_be_val_be_bytes by lia.
  apply wrap_i32_id. int_lia.
Qed.

Lemma take_frame_framed max body rest :
  len body ≤ max → len body ≤ i32_max →
  take_frame max (framed body ++ rest) = (Ok (Some body), rest).
Proof.
  intros Hm Hi. pose proof (len_nonneg body). pose proof (len_nonneg rest).
  pose proof (framed_len body) as Hf.
  unfold take_frame. rewrite framed_declared by done.
  rewrite len_app, Hf, (proj2 (Z.ltb_ge _ 4)) by lia.
  rewrite (proj2 (Z.ltb_ge (len body) 0)), (proj2 (Z.ltb_ge max (len body))) by lia.
  rewrite (proj2 (Z.ltb_ge _ (4 + len body))) by lia. cbn [orb]. rewrite <- Hf.
  rewrite take_len_app, drop_len_app. unfold framed.
  rewrite drop_app_ge; rewrite be_bytes_length; [| lia]. by rewrite drop_0.
Qed.

(** A buffer that holds only part of a frame: nothing is taken, nothing is
    consumed, and it is not an error. *)
Lemma take_frame_partial max body p q :
  len body ≤ max → len body ≤ i32_max → framed body = p ++ q → q ≠ [] →
  take_frame max p = (Ok None, p).
Proof.
  intros Hm Hi Hpq Hq. unfold take_frame.
  destruct (len p <? 4) eqn:E; [done |]. apply Z.ltb_ge in E.
  pose proof (framed_declared body [] Hi) as Hd. rewrite app_nil_r, Hpq in Hd.
  rewrite slice_app_l in Hd by (unfold len in E; lia). rewrite Hd.
  pose proof (len_nonneg body).
  rewrite (proj2 (Z.ltb_ge (len body) 0)), (proj2 (Z.ltb_ge max (len body))) by lia.
  cbn [orb]. rewrite (proj2 (Z.ltb_lt _ (4 + len body))); [done |].
  pose proof (framed_len body) as Hf. rewrite Hpq, len_app in Hf.
  destruct q; [done |]. rewrite len_cons in Hf. pose proof (len_nonneg q). lia.
Qed.

Lemma write_frame_writes m body :
  writes m body → len body ≤ i32_max → writes (write_frame m) (framed body).
Proof.
  intros Hm Hi out. unfold write_frame. rewrite Hm.
  rewrite !len_app. change (len (replicate 4 x00)) with 4.
  replace (len out + 4 + len body - Z.of_nat (length out) - 4) with (len body)
    by (unfold len; lia).
  rewrite (proj2 (Z.ltb_ge i32_max (len body))) by done.
  f_equal. unfold splice, framed. rewrite <- app_assoc.
  rewrite take_app_length, be_bytes_length, drop_app_add. done.
Qed.

(** Frames taken from a buffer by repeated calls, as [serve_frames] of
    extension/src/server/mod.rs makes them: until one is incomplete or
    refused.  [fuel] bounds the number of frames. *)
Fixpoint take_frames (fuel : nat) (max : Z) (buf : bytes)
    : list bytes * option FrameError * bytes :=
  match fuel with
  | O => ([], None, buf)
  | S f =>
      match take_frame max buf with
      | (Ok (Some frame), buf') =>
          let '(fs, e, rest) := take_frames f max buf' in (frame :: fs, e, rest)
      | (Ok None, buf') => ([], None, buf')
      | (Err e, buf') => ([], Some e, buf')
      end
  end.

(** Every frame takes at least four bytes, so the buffer's length is enough
    fuel ([take_frames_fuel]). *)
Definition drain (max : Z) (buf : bytes) : list bytes * option FrameError * bytes :=
  take_frames (S (length buf)) max buf.

(** Bytes arriving in chunks; an oversized frame is fatal to the connection. *)
Fixpoint drain_chunks (max : Z) (buf : bytes) (chunks : list bytes)
    : list bytes * option FrameError * bytes :=
  match chunks with
  | [] => ([], None, buf)
  | c :: cs =>
      match drain max (buf ++ c) with
      | (fs, Some e, rest) => (fs, Some e, rest ++ concat cs)
      | (fs, None, rest) =>
          let '(fs', e, rest') := drain_chunks max rest cs in (fs ++ fs', e, rest')
      end
  end.

(** The cases of [take_frame]: too short for a size, refused, incomplete, or
    a frame split off the front. *)
Inductive take_frame_spec (max : Z) (buf : bytes) :
    result FrameError (option bytes) * bytes → Prop :=
| tf_short : len buf < 4 → take_frame_spec max buf (Ok None, buf)
| tf_refused d :
    4 ≤ len buf → d = wrap_i 32 (be_val (slice 0 4 buf)) → d < 0 ∨ max < d →
    take_frame_spec max buf (Err (Oversized d max), buf)
| tf_incomplete d :
    4 ≤ len buf → d = wrap_i 32 (be_val (slice 0 4 buf)) → 0 ≤ d ≤ max →
    len buf < 4 + d → take_frame_spec max buf (Ok None, buf)
| tf_frame d prefix body rest :
    buf = prefix ++ body ++ rest → length prefix = 4%nat → len body = d →
    d = wrap_i 32 (be_val prefix) → 0 ≤ d ≤ max →
    take_frame_spec max buf (Ok (Some body), rest).

Lemma take_frame_cases max buf : take_frame_spec max buf (take_frame max buf).
Proof.
  unfold take_frame. destruct (len buf <? 4) eqn:E1.
  { apply Z.ltb_lt in E1. by constructor. }
  apply Z.ltb_ge in E1. set (d := wrap_i 32 (be_val (slice 0 4 buf))).
  destruct (d <? 0) eqn:E2, (max <? d) eqn:E3; cbn [orb].
  1-3: apply (tf_refused _ _ d); [done | done |]; rewrite ?Z.ltb_lt in *; lia.
  apply Z.ltb_ge in E2, E3. destruct (len buf <? 4 + d) eqn:E4.
  { apply Z.ltb_lt in E4. by apply (tf_incomplete _ _ d). }
  apply Z.ltb_ge in E4.
  assert (Hl : (4 + Z.to_nat d ≤ length buf)%nat) by (unfold len in E4; lia).
  replace (Z.to_nat (4 + d)) with (4 + Z.to_nat d)%nat by lia.
  rewrite <- take_drop_commute.
  apply (tf_frame _ _ d (take 4 buf)).
  - rewrite <- drop_drop. by rewrite !take_drop.
  - rewrite length_take. lia.
  - unfold len. rewrite length_take, length_drop. lia.
  - done.
  - lia.
Qed.

(** What was decided on a buffer stands when more bytes arrive. *)
Lemma take_frame_app max buf x f rest :
  take_frame max buf = (Ok (Some f), rest) →
  take_frame max (buf ++ x) = (Ok (Some f), rest ++ x).
Proof.
  intros H. pose proof (take_frame_cases max buf) as Hc. rewrite H in Hc.
  inversion Hc as [| | |d prefix body rest' Hb Hp Hd Hw Hm]; simplify_eq.
  unfold take_frame. rewrite <- !app_assoc, slice_0_app by done. rewrite <- Hw.
  rewrite !len_app. pose proof (len_nonneg rest). pose proof (len_nonneg x).
  assert (len prefix = 4) by (unfold len; lia).
  rewrite (proj2 (Z.ltb_ge _ 4)), (proj2 (Z.ltb_ge (len f) 0)),
    (proj2 (Z.ltb_ge max (len f))), (proj2 (Z.ltb_ge _ (4 + len f))) by lia.
  cbn [orb]. replace (4 + len f) with (len (prefix ++ f)) by (rewrite len_app; lia).
  rewrite app_assoc, take_len_app, drop_len_app.
  by rewrite drop_app_ge, Hp, drop_0 by lia.
Qed.

Lemma take_frame_err_app max buf x e rest :
  take_frame max buf = (Err e, rest) → take_frame max (buf ++ x) = (Err e, buf ++ x) ∧ rest = buf.
Proof.
  intros H. pose proof (take_frame_cases max buf) as Hc. rewrite H in Hc.
  inversion Hc as [|d Hl Hd Hr| |]; simplify_eq. split; [| done].
  unfold take_frame. rewrite slice_app_l by (unfold len in Hl; lia).
  rewrite len_app, (proj2 (Z.ltb_ge _ 4)) by (pose proof (len_nonneg x); lia).
  destruct Hr as [Hr|Hr].
  - by rewrite (proj2 (Z.ltb_lt _ 0) Hr).
  - by rewrite (proj2 (Z.ltb_lt max _) Hr), orb_true_r.
Qed.

Lemma take_frame_none max buf rest : take_frame max buf = (Ok None, rest) → rest = buf.
Proof.
  intros H. pose proof (take_frame_cases max buf) as Hc. rewrite H in Hc.
  by inversion Hc.
Qed.

Lemma take_frame_shrinks max buf f rest :
  take_frame max buf = (Ok (Some f), rest) → (4 + length rest ≤ length buf)%nat.
Proof.
  intros H. pose proof (take_frame_cases max buf) as Hc. rewrite H in Hc.
  inversion Hc; simplify_eq. rewrite !length_app. lia.
Qed.

Lemma take_frames_fuel n m max buf :
  (length buf < n)%nat → (length buf < m)%nat → take_frames n max buf = take_frames m max buf.
Proof.
  revert m buf. induction n as [|n IH]; intros [|m] buf Hn Hm; [lia.. |].
  cbn [take_frames]. destruct (take_frame max buf) as [[[f|]|e] rest] eqn:E; [| done | done].
  apply take_frame_shrinks in E. by rewrite (IH m) by lia.
Qed.

Lemma take_frames_step n max buf :
  take_frames (S n) max buf =
    match take_frame max buf with
    | (Ok (Some frame), buf') =>
        let '(fs, e, rest) := take_frames n max buf' in (frame :: fs, e, rest)
    | (Ok None, buf') => ([], None, buf')
    | (Err e, buf') => ([], Some e, buf')
    end.
Proof. done. Qed.

(** Draining what has arrived and then the rest is draining everything. *)
Lemma drain_app max b1 b2 :
  drain max (b1 ++ b2) =
    match drain max b1 with
    | (fs, Some e, rest) => (fs, Some e, rest ++ b2)
    | (fs, None, rest) => let '(fs', e, rest') := drain max (rest ++ b2) in (fs ++ fs', e, rest')
    end.
Proof.
  unfold drain. generalize (le_n (S (length b1))). generalize (S (length b1)) at 2 3 as n.
  intros n. revert b1. induction n as [|n IH]; intros b1 Hn; [lia |].
  rewrite (take_frames_step n max b1). destruct (take_frame max b1) as [[[f|]|e] rest] eqn:E.
  - pose proof (take_frame_shrinks _ _ _ _ E).
    apply (take_frame_app _ _ b2) in E. rewrite (take_frames_step _ max (b1 ++ b2)), E.
    rewrite (take_frames_fuel _ (S (length (rest ++ b2)))) by (rewrite !length_app; lia).
    rewrite IH by lia. destruct (take_frames n max rest) as [[fs [e|]] r]; [done |].
    by destruct (take_frames _ max (r ++ b2)) as [[fs' e'] r'].
  - apply take_frame_none in E as ->.
    by destruct (take_frames _ max (b1 ++ b2)) as [[fs' e'] r'].
  - apply (take_frame_err_app _ _ b2) in E as [E ->]. by rewrite (take_frames_step _ max (b1 ++ b2)), E.
Qed.

(** Draining leaves nothing a second call could take. *)
Lemma drain_idem max buf fs rest :
  drain max buf = (fs, None, rest) → drain max rest = ([], None, rest).
Proof.
  unfold drain. generalize (le_n (S (length buf))). generalize (S (length buf)) at 2 3 as n.
  intros n. revert buf fs. induction n as [|n IH]; intros buf fs Hn; [lia |].
  rewrite (take_frames_step n max buf). destruct (take_frame max buf) as [[[f|]|e] r] eqn:E.
  - destruct (take_frames n max r) as [[fs' e'] r'] eqn:E'. intros ?. simplify_eq.
    apply (IH r fs'); [apply take_frame_shrinks in E; lia | done].
  - intros ?. simplify_eq. cbn [take_frames]. apply take_frame_none in E as Hr. subst.
    by rewrite E.
  - done.
Qed.

(** ** Properties of the framing *)

(** However the network splits the bytes of a connection, the frames taken,
    the error and the bytes left over are those of the undivided stream. *)
Lemma drain_chunks_concat max buf chunks :
  drain max buf = ([], None, buf) →
  drain_chunks max buf chunks = drain max (buf ++ concat chunks).
Proof.
  revert buf. induction chunks as [|c cs IH]; intros buf Hb; cbn [drain_chunks concat].
  - by rewrite app_nil_r, Hb.
  - rewrite app_assoc, (drain_app max (buf ++ c)).
    destruct (drain max (buf ++ c)) as [[fs [e|]] rest] eqn:E; [done |].
    apply drain_idem in E. by rewrite IH.
Qed.

Lemma drain_framed max bodies partial :
  Forall (λ b, len b ≤ max ∧ len b ≤ i32_max) bodies →
  take_frame max partial = (Ok None, partial) →
  drain max (concat (framed <$> bodies) ++ partial) = (bodies, None, partial).
Proof.
  intros Hb Hp. unfold drain.
  generalize (Nat.lt_succ_diag_r (length (concat (framed <$> bodies) ++ partial))).
  generalize (S (length (concat (framed <$> bodies) ++ partial))) as n.
  induction Hb as [|b bodies [Hm Hi] Hb IH]; intros n Hn.
  - destruct n; [lia |]. cbn [take_frames fmap list_fmap concat app]. by rewrite Hp.
  - destruct n; [lia |]. cbn [take_frames fmap list_fmap concat].
    rewrite <- app_assoc, take_frame_framed by done.
    cbn [fmap list_fmap concat] in Hn. rewrite !length_app in Hn.
    pose proof (framed_len b). unfold len in *.
    rewrite IH; [done |]. rewrite length_app. lia.
Qed.

(** C25. TCP segmentation is invisible.  A client's requests, framed and
    concatenated, followed by an incomplete frame and cut into chunks
    anywhere, come out of the inbound loop in order and unchanged, and what is
    left is the incomplete frame. *)
Theorem frame_stream_reassembly max bodies partial chunks :
  Forall (λ b, len b ≤ max ∧ len b ≤ i32_max) bodies →
  take_frame max partial = (Ok None, partial) →
  concat chunks = concat (framed <$> bodies) ++ partial →
  drain_chunks max [] chunks = (bodies, None, partial).
Proof.
  intros Hb Hp Hc. rewrite drain_chunks_concat by done. rewrite Hc. by apply drain_framed.
Qed.

Lemma frame_stream_reassembly_witness :
  drain_chunks 1024 [] [[x00; x00; x00; x02; x61]; [x62; x00; x00]; [x00; x00; x00; x00; x00; x05]]
    = ([[x61; x62]; []], None, [x00; x00; x00; x05]).
Proof.
  apply (frame_stream_reassembly 1024 [[x61; x62]; []] [x00; x00; x00; x05]).
  - repeat constructor; vm_compute; discriminate.
  - vm_compute. reflexivity.
  - vm_compute. reflexivity.
Defined.

(** A frame written around a body that encodes is a frame the
    reader takes back whole, leaving what follows. *)
Lemma write_take_frame max m body out rest :
  writes m body → len body ≤ max → len body ≤ i32_max →
  ∃ frame, write_frame m out = (Ok tt, out ++ frame) ∧
    take_frame max (frame ++ rest) = (Ok (Some body), rest).
Proof.
  intros Hm Hmax Hi. exists (framed body).
  split; [by apply write_frame_writes | by apply take_frame_framed].
Qed.

Lemma write_take_frame_witness :
  ∃ frame, write_frame (put_i32 7) [x01] = (Ok tt, [x01] ++ frame) ∧
    take_frame DEFAULT_MAX_REQUEST_BYTES (frame ++ [x02])
      = (Ok (Some [x00; x00; x00; x07]), [x02]).
Proof.
  apply (write_take_frame DEFAULT_MAX_REQUEST_BYTES (put_i32 7) [x00; x00; x00; x07]).
  - intros buf. reflexivity.
  - vm_compute. discriminate.
  - vm_compute. discriminate.
Defined.

(** A size that is negative or over the cap is refused as soon as
    its four bytes have arrived, whatever follows, and nothing is consumed;
    and nothing else is ever refused. *)
Lemma take_frame_refuses_iff max buf :
  (∃ declared, take_frame max buf = (Err (Oversized declared max), buf)) ↔
    4 ≤ len buf ∧
    (wrap_i 32 (be_val (slice 0 4 buf)) < 0 ∨ max < wrap_i 32 (be_val (slice 0 4 buf))).
Proof.
  split.
  - intros [d H]. pose proof (take_frame_cases max buf) as Hc. rewrite H in Hc.
    inversion Hc; simplify_eq. auto.
  - intros [Hl Hd]. unfold take_frame. rewrite (proj2 (Z.ltb_ge _ 4)) by lia.
    destruct Hd as [Hd|Hd].
    + rewrite (proj2 (Z.ltb_lt _ 0) Hd). by eexists.
    + rewrite (proj2 (Z.ltb_lt max _) Hd), orb_true_r. by eexists.
Qed.

(** ** Properties of version negotiation *)

Lemma negotiate_supported k v :
  negotiate k v = Supported ↔
    ∃ s a, lookup_spec k = Some s ∧ lookup_adv k = Some a ∧
      min_version a ≤ v ≤ max_version a ∧ min (valid s) ≤ v ≤ max (valid s).
Proof.
  unfold negotiate. split.
  - destruct (lookup_spec k) as [s|], (lookup_adv k) as [a|].
    2-4: by repeat case_match.
    destruct (_ && _) eqn:E; [intros _ | by repeat case_match].
    rewrite !andb_true_iff, !Z.leb_le, contains_spec in E. eauto 10 with lia.
  - intros (s & a & -> & -> & Ha & Hs). apply contains_spec in Hs as ->.
    by rewrite (proj2 (Z.leb_le _ v)), (proj2 (Z.leb_le v _)) by lia.
Qed.

(** The check of one advertised row. *)
Definition adv_row_ok (a : ApiVersionRange) : bool :=
  match lookup_adv (api_key a), lookup_spec (api_key a) with
  | Some b, Some s =>
      (min_version b =? min_version a) && (max_version b =? max_version a)
      && ((min (valid s) <=? min_version a) || (api_key a =? 0) && (min (valid s) =? 3))
      && (max_version a <=? max (valid s))
      && (negb (latest_version_unstable s) || (max_version a <? max (valid s)))
  | _, _ => false
  end.

Lemma adv_rows_ok a : a ∈ ADVERTISED → adv_row_ok a = true.
Proof. apply (advertised_forall adv_row_ok). vm_compute. reflexivity. Qed.

(** Everything the ApiVersions response offers is accepted, Produce
    below its schema's version 3 being the one exception; and a version the
    schemas mark unstable is never offered. *)
Lemma advertised_is_accepted a v s :
  a ∈ ADVERTISED → min_version a ≤ v ≤ max_version a →
  lookup_spec (api_key a) = Some s →
  (negotiate (api_key a) v = Supported ∨
    api_key a = 0 ∧ v < 3 ∧ negotiate (api_key a) v = UnsupportedVersion) ∧
  (latest_version_unstable s = true → v < max (valid s)).
Proof.
  intros Ha Hv Hs. apply adv_rows_ok in Ha. unfold adv_row_ok in Ha. rewrite Hs in Ha.
  destruct (lookup_adv (api_key a)) as [b|] eqn:Hb; [| done].
  rewrite !andb_true_iff, !orb_true_iff, andb_true_iff, !Z.eqb_eq, !Z.leb_le in Ha.
  destruct Ha as ((((H1 & H2) & H3) & H4) & H5). split.
  - destruct (decide (min (valid s) ≤ v)) as [Hm|Hm].
    + left. apply negotiate_supported. exists s, b. repeat split; (done || lia).
    + destruct H3 as [H3|[H3 H3']]; [lia |]. right. split; [done |]. split; [lia |].
      assert (Hn : negotiate (api_key a) v ≠ Supported).
      { rewrite negotiate_supported. intros (s' & b' & Hs' & _ & _ & Hv'). simplify_eq. lia. }
      unfold negotiate in *. rewrite Hs, Hb in *. rewrite H3 in *.
      by destruct (_ && contains (valid s) v).
  - intros Hu. rewrite Hu in H5. destruct H5 as [H5|H5]; [done |]. apply Z.ltb_lt in H5. lia.
Qed.

Lemma advertised_is_accepted_witness :
  (negotiate 22 5 = Supported ∨ 22 = 0 ∧ 5 < 3 ∧ negotiate 22 5 = UnsupportedVersion) ∧
  (true = true → 5 < 6).
Proof.
  apply (advertised_is_accepted (mk_adv 22 0 5) 5
    (mk_spec 22 "InitProducerId" (mk_range 0 6) (mk_range 2 32767) true)).
  - apply list_elem_of_In. vm_compute. tauto.
  - simpl. lia.
  - vm_compute. reflexivity.
Defined.
