(* ===== verification/Header.v ===== *)
(** * codec/src/header.rs: request and response headers

    The header version rule ([request_header_version],
    [response_header_version]), and the two headers with their [size],
    [encode] and [decode].  [wire_request_header] and [wire_response_header]
    are the [WireLaw] contract of codec/src/lib.rs's [Encodable]. *)

From S2P Require Import Prelude Errors Primitives Apis Framing.

Definition is_flexible (k version : Z) : result CodecError bool :=
  match lookup_spec k with
  | None => Err (UnknownApiKey k)
  | Some spec => Ok (spec_is_flexible spec version)
  end.

Definition request_header_version (k version : Z) : result CodecError Z :=
  let? f := is_flexible k version in Ok (if f : bool then 2 else 1).

Definition response_header_version (k version : Z) : result CodecError Z :=
  if k =? API_VERSIONS_KEY then Ok 0
  else let? f := is_flexible k version in Ok (if f : bool then 1 else 0).

Record RequestHeader : Type := mk_RequestHeader {
  rq_api_key : Z;
  rq_api_version : Z;
  rq_correlation_id : Z;
  rq_client_id : option bytes;
  rq_unknown_tagged_fields : list RawTaggedField }.

Record ResponseHeader : Type := mk_ResponseHeader {
  rs_correlation_id : Z;
  rs_unknown_tagged_fields : list RawTaggedField }.

(** ** The tagged-field section *)

(** [Vec::len() as u32]. *)
Definition count_u32 {A} (l : list A) : Z := wrap_u 32 (Z.of_nat (length l)).

Definition tagged_size (fs : list RawTaggedField) : Z :=
  foldl (λ n f, n + (uvarint_size (tag f) + uvarint_size (wrap_u 32 (len (data f)))
                     + len (data f)))
    (uvarint_size (count_u32 fs)) fs.

Fixpoint put_tagged_loop (fs : list RawTaggedField) : codec unit :=
  match fs with
  | [] => ret tt
  | f :: fs' =>
      put_uvarint (tag f) ;;;
      put_uvarint (wrap_u 32 (len (data f))) ;;;
      put_slice (data f) ;;;
      put_tagged_loop fs'
  end.
Definition put_tagged (fs : list RawTaggedField) : codec unit :=
  put_uvarint (count_u32 fs) ;;; put_tagged_loop fs.

(** The loop of [decode_tagged]: [n] fields to go, [last] the tag before. *)
Fixpoint decode_tagged_loop (n : nat) (last : option Z) : codec (list RawTaggedField) :=
  match n with
  | O => ret []
  | S n' =>
      let* t := get_uvarint in
      match last with
      | Some l => if t <=? l then throw (TagOutOfOrder l t) else ret tt
      | None => ret tt
      end ;;;
      let* sz := get_uvarint in
      let* d := take_bytes sz in
      let* fs := decode_tagged_loop n' (Some t) in
      ret (mk_RawTaggedField t d :: fs)
  end.
Definition decode_tagged : codec (list RawTaggedField) :=
  let* n := get_uvarint in decode_tagged_loop (Z.to_nat n) None.

(** ** The request header *)

Definition rq_size (h : RequestHeader) (header_version : Z) : Z :=
  let n := 2 + 2 + 4 in
  let n := if 1 <=? header_version
           then n + nullable_string_size (rq_client_id h) false else n in
  if 2 <=? header_version then n + tagged_size (rq_unknown_tagged_fields h) else n.

Definition rq_encode (h : RequestHeader) (header_version : Z) : codec unit :=
  put_i16 (rq_api_key h) ;;;
  put_i16 (rq_api_version h) ;;;
  put_i32 (rq_correlation_id h) ;;;
  (if 1 <=? header_version then put_nullable_string (rq_client_id h) false else ret tt) ;;;
  (if 2 <=? header_version then put_tagged (rq_unknown_tagged_fields h) else ret tt).

Definition rq_decode (header_version : Z) : codec RequestHeader :=
  let* key := get_i16 in
  let* version := get_i16 in
  let* correlation_id := get_i32 in
  let* client_id := (if 1 <=? header_version then get_nullable_string false else ret None) in
  let* fields := (if 2 <=? header_version then decode_tagged else ret []) in
  ret (mk_RequestHeader key version correlation_id client_id fields).

(** [RequestHeader::peek_api]: the buffer is only read. *)
Definition peek_api (buf : bytes) : result CodecError (Z * Z) :=
  if len buf <? 4 then Err (Truncated 4 (len buf))
  else Ok (wrap_i 16 (be_val (slice 0 2 buf)), wrap_i 16 (be_val (slice 2 2 buf))).

(** ** The response header *)

Definition rs_size (h : ResponseHeader) (header_version : Z) : Z :=
  if 1 <=? header_version then 4 + tagged_size (rs_unknown_tagged_fields h) else 4.

Definition rs_encode (h : ResponseHeader) (header_version : Z) : codec unit :=
  put_i32 (rs_correlation_id h) ;;;
  (if 1 <=? header_version then put_tagged (rs_unknown_tagged_fields h) else ret tt).

Definition rs_decode (header_version : Z) : codec ResponseHeader :=
  let* correlation_id := get_i32 in
  let* fields := (if 1 <=? header_version then decode_tagged else ret []) in
  ret (mk_ResponseHeader correlation_id fields).

(** ** The tagged section is a wire format *)

(** Tags ascend strictly from above [last]; tags and sizes are [u32]. *)
Fixpoint tags_ok (last : option Z) (fs : list RawTaggedField) : Prop :=
  match fs with
  | [] => True
  | f :: fs' =>
      is_u32 (tag f) ∧ is_u32 (len (data f)) ∧
      (∀ l, last = Some l → l < tag f) ∧ tags_ok (Some (tag f)) fs'
  end.
Definition tagged_ok (fs : list RawTaggedField) : Prop :=
  tags_ok None fs ∧ is_u32 (Z.of_nat (length fs)).

Lemma wrap_u32_id z : is_u32 z → wrap_u 32 z = z.
Proof. intros. apply wrap_u_small. change (2 ^ 32) with 4294967296. int_lia. Qed.

Definition field_size (f : RawTaggedField) : Z :=
  uvarint_size (tag f) + uvarint_size (wrap_u 32 (len (data f))) + len (data f).

Lemma tagged_size_sum fs n :
  foldl (λ n f, n + field_size f) n fs = n + foldr Z.add 0 (field_size <$> fs).
Proof. revert n. induction fs as [|f fs IH]; intros n; cbn; [lia |]. rewrite IH. lia. Qed.

Lemma wire_tagged_loop last fs :
  tags_ok last fs → ∃ enc,
    writes (put_tagged_loop fs) enc ∧
    len enc = foldr Z.add 0 (field_size <$> fs) ∧
    reads (decode_tagged_loop (length fs) last) enc fs ∧
    truncates (decode_tagged_loop (length fs) last) enc.
Proof.
  revert last. induction fs as [|f fs IH]; intros last Hok.
  { exists []. repeat split; eauto with kafgres. }
  destruct Hok as (Ht & Hd & Hl & Hok).
  destruct (IH _ Hok) as (e4 & W4 & L4 & R4 & T4).
  destruct (wire_law (WireLaw := wire_uvarint) _ Ht) as (e1 & W1 & L1 & R1 & T1).
  destruct (wire_law (WireLaw := wire_uvarint) _ Hd) as (e2 & W2 & L2 & R2 & T2).
  exists (e1 ++ [] ++ e2 ++ data f ++ e4 ++ []). cbn [put_tagged_loop decode_tagged_loop length].
  assert (Hc : ∀ s : bytes, match last with
      | Some l => if tag f <=? l then throw (TagOutOfOrder l (tag f)) else ret tt
      | None => ret tt end s = (Ok tt : result CodecError unit, s)).
  { intros s. destruct last as [l|]; [| done].
    by rewrite (proj2 (Z.leb_gt (tag f) l)) by (by apply Hl). }
  split; [| split; [| split]].
  - rewrite wrap_u32_id by done. rewrite app_nil_r. cbn [app].
    repeat apply writes_bind; auto with kafgres.
  - cbn [fmap list_fmap foldr]. rewrite <- L4. unfold field_size.
    rewrite wrap_u32_id, !len_app, L1, L2 by done. rewrite !len_nil. lia.
  - eapply reads_bind; [done |]. eapply reads_bind; [by intros s; apply Hc |].
    eapply reads_bind; [done |]. eapply reads_bind; [apply take_bytes_reads |].
    eapply reads_bind; [done |]. by destruct f.
  - eapply truncates_bind; [done.. |]. eapply truncates_bind; [by intros s; apply Hc | apply truncates_nil |].
    eapply truncates_bind; [done.. |].
    eapply truncates_bind; [apply take_bytes_reads | apply take_bytes_truncates |].
    rewrite app_nil_r. by apply truncates_map.
Qed.

#[export] Instance wire_tagged : WireLaw put_tagged decode_tagged tagged_size tagged_ok.
Proof.
  intros fs [Hok Hn]. destruct (wire_tagged_loop _ _ Hok) as (e2 & W2 & L2 & R2 & T2).
  destruct (wire_law (WireLaw := wire_uvarint) _ Hn) as (e1 & W1 & L1 & R1 & T1).
  exists (e1 ++ e2). unfold put_tagged, decode_tagged, tagged_size, count_u32.
  rewrite wrap_u32_id by done. rewrite (tagged_size_sum fs), len_app, L1, L2.
  split; [by apply writes_bind |]. split; [done |].
  split; [eapply reads_bind | eapply truncates_bind]; try done; by rewrite Nat2Z.id.
Qed.

(** A field present only from some header version on. *)
Lemma wire_if {A} put get size ok `{!WireLaw (A := A) put get size ok} (b : bool) (d v : A) :
  (if b then ok v else v = d) → ∃ enc,
    writes (if b then put v else ret tt) enc ∧
    len enc = (if b then size v else 0) ∧
    reads (if b then get else ret d) enc v ∧
    truncates (if b then get else ret d) enc.
Proof.
  destruct b; intros Hv; [by apply wire_law |].
  subst. exists []. repeat split; eauto with kafgres.
Qed.

(** ** The headers are wire formats *)

Definition rq_ok (header_version : Z) (h : RequestHeader) : Prop :=
  is_i16 (rq_api_key h) ∧ is_i16 (rq_api_version h) ∧ is_i32 (rq_correlation_id h) ∧
  (if 1 <=? header_version then opt_ok (string_ok false) (rq_client_id h)
   else rq_client_id h = None) ∧
  (if 2 <=? header_version then tagged_ok (rq_unknown_tagged_fields h)
   else rq_unknown_tagged_fields h = []).

Definition rs_ok (header_version : Z) (h : ResponseHeader) : Prop :=
  is_i32 (rs_correlation_id h) ∧
  (if 1 <=? header_version then tagged_ok (rs_unknown_tagged_fields h)
   else rs_unknown_tagged_fields h = []).

#[export] Instance wire_request_header hv :
  WireLaw (λ h, rq_encode h hv) (rq_decode hv) (λ h, rq_size h hv) (rq_ok hv).
Proof.
  intros h (Hk & Hv & Hc & Hi & Ht).
  destruct (wire_law (WireLaw := wire_i16) _ Hk) as (e1 & W1 & L1 & R1 & T1).
  destruct (wire_law (WireLaw := wire_i16) _ Hv) as (e2 & W2 & L2 & R2 & T2).
  destruct (wire_law (WireLaw := wire_i32) _ Hc) as (e3 & W3 & L3 & R3 & T3).
  destruct (wire_if _ _ _ _ (WireLaw0 := wire_nullable_string false) (1 <=? hv) None _ Hi)
    as (e4 & W4 & L4 & R4 & T4).
  destruct (wire_if _ _ _ _ (WireLaw0 := wire_tagged) (2 <=? hv) [] _ Ht)
    as (e5 & W5 & L5 & R5 & T5).
  exists (e1 ++ e2 ++ e3 ++ e4 ++ e5).
  split; [by repeat apply writes_bind |]. split.
  { rewrite !len_app, L1, L2, L3, L4, L5. unfold rq_size.
    destruct (1 <=? hv), (2 <=? hv); lia. }
  unfold rq_decode. split.
  - do 4 (eapply reads_bind; [done |]). eapply reads_map; [done |]. by destruct h.
  - do 4 (eapply truncates_bind; [done.. |]). by apply truncates_map.
Qed.

#[export] Instance wire_response_header hv :
  WireLaw (λ h, rs_encode h hv) (rs_decode hv) (λ h, rs_size h hv) (rs_ok hv).
Proof.
  intros h (Hc & Ht).
  destruct (wire_law (WireLaw := wire_i32) _ Hc) as (e1 & W1 & L1 & R1 & T1).
  destruct (wire_if _ _ _ _ (WireLaw0 := wire_tagged) (1 <=? hv) [] _ Ht)
    as (e2 & W2 & L2 & R2 & T2).
  exists (e1 ++ e2).
  split; [by repeat apply writes_bind |]. split.
  { rewrite len_app, L1, L2. unfold rs_size. destruct (1 <=? hv); lia. }
  unfold rs_decode. split.
  - eapply reads_bind; [done |]. eapply reads_map; [done |]. by destruct h.
  - eapply truncates_bind; [done.. |]. by apply truncates_map.
Qed.

(** A request header a client may send, at every header version:
    [encode] appends [size] bytes, [decode] returns the same header and stops
    exactly at the body, and a header cut short anywhere is reported as
    [Truncated] rather than misread. *)
Theorem request_header_roundtrip hv h :
  rq_ok hv h → ∃ enc,
    (∀ buf, rq_encode h hv buf = (Ok tt, buf ++ enc)) ∧
    len enc = rq_size h hv ∧
    (∀ body, rq_decode hv (enc ++ body) = (Ok h, body)) ∧
    (∀ p q, enc = p ++ q → q ≠ [] →
      ∃ needed available, (rq_decode hv p).1 = Err (Truncated needed available)).
Proof. apply (wire_law (WireLaw := wire_request_header hv)). Qed.

(** The header of [client_id_is_not_compact_even_in_a_flexible_header], with
    a tagged field. *)
Definition sample_request_header : RequestHeader :=
  mk_RequestHeader 18 3 1 (Some [x6b; x63]) [mk_RawTaggedField 4 [xff]].

Lemma request_header_roundtrip_witness :
  ∃ enc,
    (∀ buf, rq_encode sample_request_header 2 buf = (Ok tt, buf ++ enc)) ∧
    len enc = rq_size sample_request_header 2 ∧
    (∀ body, rq_decode 2 (enc ++ body) = (Ok sample_request_header, body)) ∧
    (∀ p q, enc = p ++ q → q ≠ [] →
      ∃ needed available, (rq_decode 2 p).1 = Err (Truncated needed available)).
Proof.
  apply (request_header_roundtrip 2 sample_request_header).
  cbv -[Z.le Z.lt]. repeat split; try lia; try discriminate.
Defined.

(** A response header, at both header versions: what [rs_encode] appends
    is [rs_size] bytes long, [rs_decode] reads it back and leaves what follows,
    and any proper prefix of it is reported as truncated. *)
Lemma response_header_roundtrip hv h :
  rs_ok hv h → ∃ enc,
    (∀ buf, rs_encode h hv buf = (Ok tt, buf ++ enc)) ∧
    len enc = rs_size h hv ∧
    (∀ body, rs_decode hv (enc ++ body) = (Ok h, body)) ∧
    (∀ p q, enc = p ++ q → q ≠ [] →
      ∃ needed available, (rs_decode hv p).1 = Err (Truncated needed available)).
Proof. apply (wire_law (WireLaw := wire_response_header hv)). Qed.

Lemma response_header_roundtrip_witness :
  ∃ enc,
    (∀ buf, rs_encode (mk_ResponseHeader 99 []) 1 buf = (Ok tt, buf ++ enc)) ∧
    len enc = rs_size (mk_ResponseHeader 99 []) 1 ∧
    (∀ body, rs_decode 1 (enc ++ body) = (Ok (mk_ResponseHeader 99 []), body)) ∧
    (∀ p q, enc = p ++ q → q ≠ [] →
      ∃ needed available, (rs_decode 1 p).1 = Err (Truncated needed available)).
Proof.
  apply (response_header_roundtrip 1 (mk_ResponseHeader 99 [])).
  cbv -[Z.le Z.lt]. repeat split; lia.
Defined.

(** Every request the dispatcher accepts has both header versions
    defined; the request header is 2 or 1 and the response header 1 or 0 with
    the flexibility of the version, except that ApiVersions always answers
    with the version 0 header. *)
Lemma supported_header_versions k v :
  negotiate k v = Supported →
  ∃ f, is_flexible k v = Ok f ∧
    request_header_version k v = Ok (if f : bool then 2 else 1) ∧
    response_header_version k v =
      Ok (if k =? API_VERSIONS_KEY then 0 else if f then 1 else 0).
Proof.
  intros H. apply negotiate_supported in H as (s & a & Hs & _).
  exists (spec_is_flexible s v).
  unfold request_header_version, response_header_version, is_flexible. rewrite Hs.
  split; [done |]. split; [done |]. by destruct (k =? API_VERSIONS_KEY).
Qed.

Lemma supported_header_versions_witness :
  ∃ f, is_flexible 18 3 = Ok f ∧
    request_header_version 18 3 = Ok (if f : bool then 2 else 1) ∧
    response_header_version 18 3 = Ok (if 18 =? API_VERSIONS_KEY then 0 else if f then 1 else 0).
Proof. apply (supported_header_versions 18 3). vm_compute. reflexivity. Defined.

(** [peek_api] agrees with the decoder: what the dispatcher picks the header
    version from is what it then decodes. *)
Lemma peek_api_reads h hv buf enc body :
  rq_ok hv h → rq_encode h hv buf = (Ok tt, buf ++ enc) →
  peek_api (enc ++ body) = Ok (rq_api_key h, rq_api_version h).
Proof.
  intros (Hk & Hv & Hc & Hi & Ht) Henc.
  destruct (wire_if _ _ _ _ (WireLaw0 := wire_nullable_string false) (1 <=? hv) None _ Hi)
    as (e4 & W4 & L4 & _).
  destruct (wire_if _ _ _ _ (WireLaw0 := wire_tagged) (2 <=? hv) [] _ Ht) as (e5 & W5 & L5 & _).
  assert (W : writes (rq_encode h hv) (be_bytes 2 (rq_api_key h) ++ be_bytes 2 (rq_api_version h)
    ++ be_bytes 4 (rq_correlation_id h) ++ e4 ++ e5)).
  { unfold rq_encode. repeat apply writes_bind; done. }
  rewrite W in Henc. apply (f_equal snd) in Henc. cbn [snd] in Henc.
  apply (inj (app buf)) in Henc as <-.
  unfold peek_api. rewrite <- ?app_assoc, !len_app, !len_be_bytes.
  pose proof (len_nonneg e4). pose proof (len_nonneg e5). pose proof (len_nonneg body).
  rewrite (proj2 (Z.ltb_ge _ 4)) by lia.
  rewrite slice_0_app by apply be_bytes_length.
  rewrite slice_app_r by (rewrite be_bytes_length; lia).
  rewrite be_bytes_length. change (2 - 2)%nat with 0%nat.
  rewrite slice_0_app by apply be_bytes_length.
  change 16 with (8 * Z.of_nat 2). rewrite !wrap_i_be_val_be_bytes by lia.
  by rewrite !wrap_i16_id.
Qed.
