(* ===== verification/Records.v ===== *)
(** * codec/src/records.rs: the record batch

    [RecordBatch] is a view over the bytes of one magic-v2 batch; its fields
    are read at fixed offsets ([read_at!]).  [validated] checks the CRC,
    [stamp] writes the broker's offset and leader epoch in place, and
    [BatchIter] walks the batches of a Produce request's [records] blob.

    [crc32c] stands for the crate of that name: a function of the bytes from
    the attributes on. *)

From stdpp Require Import strings.
From S2P Require Import Prelude Errors.

Definition BASE_OFFSET_OFFSET : nat := 0.
Definition LENGTH_OFFSET : nat := 8.
Definition PARTITION_LEADER_EPOCH_OFFSET : nat := 12.
Definition MAGIC_OFFSET : nat := 16.
Definition CRC_OFFSET : nat := 17.
Definition ATTRIBUTES_OFFSET : nat := 21.
Definition LAST_OFFSET_DELTA_OFFSET : nat := 23.
Definition BASE_TIMESTAMP_OFFSET : nat := 27.
Definition MAX_TIMESTAMP_OFFSET : nat := 35.
Definition PRODUCER_ID_OFFSET : nat := 43.
Definition PRODUCER_EPOCH_OFFSET : nat := 51.
Definition BASE_SEQUENCE_OFFSET : nat := 53.
Definition RECORD_COUNT_OFFSET : nat := 57.
Definition RECORD_BATCH_OVERHEAD : nat := 61.

Definition MAGIC_V2 : Z := 2.
Definition COMPRESSION_MASK : Z := 7.
Definition TRANSACTIONAL_FLAG : Z := 16.
Definition CONTROL_FLAG : Z := 32.

Inductive BatchError : Type :=
| TooShort (n : Z)
| UnsupportedMagic (m : Z)
| CrcMismatch (stored computed : Z)
| LengthMismatch (declared actual : Z)
| NegativeExtent (field : string) (value : Z)
| TruncatedRecord (at_ : Z)
| NegativeLength (field : string) (value : Z)
| RecordSizeMismatch (declared read : Z)
| RecordCountMismatch (declared found : Z)
| Decompression (codec : Z)
| DecompressedTooLarge
| Compressed (codec : Z).

#[export] Instance BatchError_eq_dec : EqDecision BatchError.
Proof. solve_decision. Defined.

(** [BatchError::error_code]. *)
Definition batch_error_code (e : BatchError) : ErrorCode.t :=
  match e with
  | CrcMismatch _ _ | TooShort _ | LengthMismatch _ _ => ErrorCode.CorruptMessage
  | UnsupportedMagic _ | NegativeExtent _ _ => ErrorCode.InvalidRecord
  | TruncatedRecord _ | NegativeLength _ _ | RecordSizeMismatch _ _
  | RecordCountMismatch _ _ => ErrorCode.InvalidRecord
  | Decompression _ => ErrorCode.InvalidRecord
  | DecompressedTooLarge => ErrorCode.MessageTooLarge
  | Compressed _ => ErrorCode.UnknownServerError
  end.

Record RecordBatch : Type := mk_batch { rb_bytes : bytes }.

(** ** Fields: [read_at!] *)

Definition read_i (off n : nat) (b : bytes) : Z :=
  wrap_i (8 * Z.of_nat n) (be_val (slice off n b)).
Definition read_u (off n : nat) (b : bytes) : Z := be_val (slice off n b).

Definition batch_length (b : RecordBatch) : Z := read_i LENGTH_OFFSET 4 (rb_bytes b).
Definition base_offset (b : RecordBatch) : Z := read_i BASE_OFFSET_OFFSET 8 (rb_bytes b).
Definition partition_leader_epoch (b : RecordBatch) : Z :=
  read_i PARTITION_LEADER_EPOCH_OFFSET 4 (rb_bytes b).
Definition attributes (b : RecordBatch) : Z := read_i ATTRIBUTES_OFFSET 2 (rb_bytes b).
Definition last_offset_delta (b : RecordBatch) : Z :=
  read_i LAST_OFFSET_DELTA_OFFSET 4 (rb_bytes b).
Definition base_timestamp (b : RecordBatch) : Z := read_i BASE_TIMESTAMP_OFFSET 8 (rb_bytes b).
Definition max_timestamp (b : RecordBatch) : Z := read_i MAX_TIMESTAMP_OFFSET 8 (rb_bytes b).
Definition producer_id (b : RecordBatch) : Z := read_i PRODUCER_ID_OFFSET 8 (rb_bytes b).
Definition producer_epoch (b : RecordBatch) : Z := read_i PRODUCER_EPOCH_OFFSET 2 (rb_bytes b).
Definition base_sequence (b : RecordBatch) : Z := read_i BASE_SEQUENCE_OFFSET 4 (rb_bytes b).
Definition record_count (b : RecordBatch) : Z := read_i RECORD_COUNT_OFFSET 4 (rb_bytes b).
Definition stored_crc (b : RecordBatch) : Z := read_u CRC_OFFSET 4 (rb_bytes b).
Definition magic (b : RecordBatch) : Z := read_i MAGIC_OFFSET 1 (rb_bytes b).

Definition compression_type (b : RecordBatch) : Z := Z.land (attributes b) COMPRESSION_MASK.
Definition is_transactional (b : RecordBatch) : bool :=
  negb (Z.land (attributes b) TRANSACTIONAL_FLAG =? 0).
Definition is_control (b : RecordBatch) : bool :=
  negb (Z.land (attributes b) CONTROL_FLAG =? 0).
(** An [i64] sum, which wraps. *)
Definition last_offset (b : RecordBatch) : Z :=
  wrap_i 64 (base_offset b + last_offset_delta b).
Definition batch_len (b : RecordBatch) : Z := len (rb_bytes b).

(** [RecordBatch::new]. *)
Definition batch_new (bs : bytes) : result BatchError RecordBatch :=
  if len bs <? Z.of_nat RECORD_BATCH_OVERHEAD then Err (TooShort (len bs))
  else
    let batch := mk_batch bs in
    if negb (magic batch =? MAGIC_V2) then Err (UnsupportedMagic (magic batch))
    else
      let declared := batch_length batch + Z.of_nat (LENGTH_OFFSET + 4) in
      if negb (declared =? len bs) then Err (LengthMismatch declared (len bs))
      else if last_offset_delta batch <? 0
      then Err (NegativeExtent "lastOffsetDelta" (last_offset_delta batch))
      else if record_count batch <? 0
      then Err (NegativeExtent "recordCount" (record_count batch))
      else Ok batch.

(** [BatchIter::next]: the item, if any, and the rest of the blob. *)
Definition batch_iter_next (buf : bytes) : option (result BatchError RecordBatch) * bytes :=
  match buf with
  | [] => (None, buf)
  | _ =>
      if len buf <? Z.of_nat (LENGTH_OFFSET + 4) then (Some (Err (TooShort (len buf))), [])
      else
        let declared := wrap_i 32 (be_val (slice LENGTH_OFFSET 4 buf)) in
        let total := declared + Z.of_nat (LENGTH_OFFSET + 4) in
        if (total <=? 0) || (len buf <? total)
        then (Some (Err (LengthMismatch total (len buf))), [])
        else (Some (batch_new (take (Z.to_nat total) buf)), drop (Z.to_nat total) buf)
  end.

(** The items of a [BatchIter] until it returns [None]; [None] when [fuel]
    runs out, which [batch_iter_total] excludes for the fuel used. *)
Fixpoint batch_iter (fuel : nat) (buf : bytes) : option (list (result BatchError RecordBatch)) :=
  match fuel with
  | O => None
  | S f =>
      match batch_iter_next buf with
      | (None, _) => Some []
      | (Some item, rest) =>
          match batch_iter f rest with
          | Some items => Some (item :: items)
          | None => None
          end
      end
  end.
Definition batches (buf : bytes) : option (list (result BatchError RecordBatch)) :=
  batch_iter (S (length buf)) buf.

Section Crc.

(** The crc32c crate's checksum. *)
Variable crc32c : bytes → Z.

Definition computed_crc (b : RecordBatch) : Z := crc32c (drop ATTRIBUTES_OFFSET (rb_bytes b)).

Definition verify_crc (b : RecordBatch) : result BatchError unit :=
  let stored := stored_crc b in
  let computed := computed_crc b in
  if stored =? computed then Ok tt else Err (CrcMismatch stored computed).

(** [RecordBatch::validated]; a [ValidatedBatch] is the batch it wraps. *)
Definition validated (bs : bytes) : result BatchError RecordBatch :=
  let? batch := batch_new bs in
  let? _ := verify_crc batch in
  Ok batch.

End Crc.

(** [ValidatedBatch::stamp]: the stored bytes of the [StampedBatch]. *)
Definition stamp (b : RecordBatch) (base_offset leader_epoch : Z) : bytes :=
  let owned := splice BASE_OFFSET_OFFSET (be_bytes 8 base_offset) (rb_bytes b) in
  splice PARTITION_LEADER_EPOCH_OFFSET (be_bytes 4 leader_epoch) owned.

(** Arithmetic on the field offsets. *)
Ltac off_lia :=
  unfold BASE_OFFSET_OFFSET, LENGTH_OFFSET, PARTITION_LEADER_EPOCH_OFFSET, MAGIC_OFFSET,
    CRC_OFFSET, ATTRIBUTES_OFFSET, LAST_OFFSET_DELTA_OFFSET, BASE_TIMESTAMP_OFFSET,
    MAX_TIMESTAMP_OFFSET, PRODUCER_ID_OFFSET, PRODUCER_EPOCH_OFFSET, BASE_SEQUENCE_OFFSET,
    RECORD_COUNT_OFFSET, RECORD_BATCH_OVERHEAD in *;
  rewrite ?be_bytes_length; lia.

(** ** Stamping *)

Lemma read_i_splice off n v b :
  (0 < n)%nat → (off + n ≤ length b)%nat →
  read_i off n (splice off (be_bytes n v) b) = wrap_i (8 * Z.of_nat n) v.
Proof.
  intros Hn Hl. unfold read_i. pose proof (slice_splice_eq off (be_bytes n v) b) as Hs.
  rewrite be_bytes_length in Hs. rewrite Hs by lia. by apply wrap_i_be_val_be_bytes.
Qed.

Lemma read_i_eq off n a b : slice off n a = slice off n b → read_i off n a = read_i off n b.
Proof. unfold read_i. by intros ->. Qed.

(** Accessors of bytes past an offset depend on those bytes only. *)
Lemma slice_drop o off n (b : bytes) :
  (o ≤ off)%nat → slice off n b = slice (off - o) n (drop o b).
Proof. intros. unfold slice. rewrite drop_drop. do 2 f_equal. lia. Qed.

Section Stamping.

Context (b : RecordBatch) (off ep : Z).
Hypothesis Hlen : (RECORD_BATCH_OVERHEAD ≤ length (rb_bytes b))%nat.

Let s : bytes := stamp b off ep.

Lemma stamp_mid_length :
  length (splice BASE_OFFSET_OFFSET (be_bytes 8 off) (rb_bytes b)) = length (rb_bytes b).
Proof. apply splice_length. off_lia. Qed.

Lemma stamp_length : length s = length (rb_bytes b).
Proof.
  unfold s, stamp.
  rewrite splice_length; rewrite stamp_mid_length; [done |].
  off_lia.
Qed.

(** Everything from the magic byte on, the CRC and all it covers, is left. *)
Lemma stamp_drop o : (16 ≤ o ≤ length (rb_bytes b))%nat → drop o s = drop o (rb_bytes b).
Proof.
  intros Ho. unfold s, stamp.
  rewrite drop_splice; rewrite ?stamp_mid_length, ?be_bytes_length.
  - apply drop_splice; [off_lia | off_lia].
  - off_lia.
  - off_lia.
Qed.

Lemma stamp_slice o n : (16 ≤ o ≤ length (rb_bytes b))%nat → slice o n s = slice o n (rb_bytes b).
Proof. intros. unfold slice. by rewrite stamp_drop. Qed.

Lemma stamp_batch_length : slice LENGTH_OFFSET 4 s = slice LENGTH_OFFSET 4 (rb_bytes b).
Proof.
  unfold s, stamp.
  rewrite slice_splice_before; rewrite ?stamp_mid_length, ?be_bytes_length; [| off_lia..].
  apply slice_splice_after; [off_lia | off_lia].
Qed.

Lemma stamp_base_offset : base_offset (mk_batch s) = wrap_i 64 off.
Proof.
  unfold base_offset, s, stamp. cbn [rb_bytes].
  rewrite (read_i_eq _ _ _ (splice BASE_OFFSET_OFFSET (be_bytes 8 off) (rb_bytes b))).
  - rewrite read_i_splice; [done | lia | off_lia].
  - apply slice_splice_before; rewrite ?stamp_mid_length; off_lia.
Qed.

Lemma stamp_leader_epoch : partition_leader_epoch (mk_batch s) = wrap_i 32 ep.
Proof.
  unfold partition_leader_epoch, s, stamp. cbn [rb_bytes].
  rewrite read_i_splice; [done | lia |]. rewrite stamp_mid_length. off_lia.
Qed.

(** The fields the validation reads. *)
Lemma stamp_fields :
  magic (mk_batch s) = magic b ∧ batch_length (mk_batch s) = batch_length b ∧
  last_offset_delta (mk_batch s) = last_offset_delta b ∧
  record_count (mk_batch s) = record_count b ∧ stored_crc (mk_batch s) = stored_crc b.
Proof.
  unfold magic, batch_length, last_offset_delta, record_count, stored_crc, read_i, read_u.
  cbn [rb_bytes].  rewrite stamp_batch_length.
  by rewrite !stamp_slice
    by off_lia.
Qed.

End Stamping.

Lemma batch_new_ok bs b :
  batch_new bs = Ok b ↔
    b = mk_batch bs ∧ (RECORD_BATCH_OVERHEAD ≤ length bs)%nat ∧ magic b = MAGIC_V2 ∧
    batch_length b + 12 = len bs ∧ 0 ≤ last_offset_delta b ∧ 0 ≤ record_count b.
Proof.
  unfold batch_new. split.
  - repeat case_match; try done. intros ?. simplify_eq.
    rewrite ?negb_false_iff, ?Z.eqb_eq, ?Z.ltb_ge in *. unfold len in *. repeat split; try done; lia.
  - intros (-> & Hl & Hm & Hb & Hd & Hc).
    rewrite (proj2 (Z.ltb_ge (len bs) _)) by (unfold len; lia).
    rewrite (proj2 (Z.eqb_eq _ _) Hm). cbn [negb].
    change (Z.of_nat (LENGTH_OFFSET + 4)) with 12. rewrite (proj2 (Z.eqb_eq _ _) Hb). cbn [negb].
    by rewrite (proj2 (Z.ltb_ge (last_offset_delta _) 0)), (proj2 (Z.ltb_ge (record_count _) 0)) by lia.
Qed.

Lemma validated_ok crc32c bs b :
  validated crc32c bs = Ok b ↔ batch_new bs = Ok b ∧ stored_crc b = computed_crc crc32c b.
Proof.
  unfold validated, verify_crc, rbind. destruct (batch_new bs) as [b'|e]; [| by split; [| intros [? _]]].
  destruct (Z.eqb_spec (stored_crc b') (computed_crc crc32c b')) as [E|E].
  - split; [intros [= ->]; by split | by intros [[= ->] _]].
  - split; [done | by intros [[= ->] ?]].
Qed.

(** Stamping is invisible to the checksum (invariant I2): a validated
    batch stamped with an offset and a leader epoch still validates, carries
    exactly that offset and epoch, and every byte outside the two fields is
    the producer's. *)
Theorem stamp_preserves_validity crc32c bs b off ep :
  validated crc32c bs = Ok b → is_i64 off → is_i32 ep →
  let s := stamp b off ep in
  validated crc32c s = Ok (mk_batch s) ∧
  base_offset (mk_batch s) = off ∧ partition_leader_epoch (mk_batch s) = ep ∧
  length s = length bs ∧ slice 8 4 s = slice 8 4 bs ∧ drop 16 s = drop 16 bs.
Proof.
  intros Hv Ho He s. apply validated_ok in Hv as [Hn Hc].
  apply batch_new_ok in Hn as (-> & Hl & Hm & Hb & Hd & Hr).
  destruct (stamp_fields (mk_batch bs) off ep Hl) as (F1 & F2 & F3 & F4 & F5).
  pose proof (stamp_length (mk_batch bs) off ep Hl) as Hs. cbn [rb_bytes] in Hs.
  assert (H16 : ∀ o, (16 ≤ o ≤ length bs)%nat → drop o s = drop o bs)
    by (intros; by apply (stamp_drop (mk_batch bs))).
  split; [| split; [| split; [| split; [| split]]]].
  - apply validated_ok. split.
    + apply batch_new_ok. fold s in F1, F2, F3, F4, Hs. rewrite F1, F2, F3, F4, Hs.
      unfold len. rewrite Hs. done.
    + fold s in F5. rewrite F5, Hc. unfold computed_crc. cbn [rb_bytes].
      by rewrite H16 by off_lia.
  - unfold s. rewrite stamp_base_offset by done. by apply wrap_i64_id.
  - unfold s. rewrite stamp_leader_epoch by done. by apply wrap_i32_id.
  - done.
  - apply (stamp_batch_length (mk_batch bs) off ep Hl).
  - apply H16. off_lia.
Qed.

(** ** Walking a blob of batches *)

(** The cases of [BatchIter::next]. *)
Inductive batch_iter_next_spec (buf : bytes) :
    option (result BatchError RecordBatch) * bytes → Prop :=
| bn_end : buf = [] → batch_iter_next_spec buf (None, [])
| bn_short : 0 < len buf < 12 → batch_iter_next_spec buf (Some (Err (TooShort (len buf))), [])
| bn_lying d :
    12 ≤ len buf → d = batch_length (mk_batch buf) + 12 → d ≤ 0 ∨ len buf < d →
    batch_iter_next_spec buf (Some (Err (LengthMismatch d (len buf))), [])
| bn_batch one rest :
    buf = one ++ rest → 12 ≤ len buf → one ≠ [] → len one = batch_length (mk_batch buf) + 12 →
    batch_iter_next_spec buf (Some (batch_new one), rest).

Lemma batch_iter_next_cases buf : batch_iter_next_spec buf (batch_iter_next buf).
Proof.
  unfold batch_iter_next. destruct buf as [|b0 buf0] eqn:Eb; [by constructor |].
  rewrite <- Eb. change (Z.of_nat (LENGTH_OFFSET + 4)) with 12.
  assert (0 < len buf) by (rewrite Eb, len_cons; pose proof (len_nonneg buf0); lia).
  destruct (len buf <? 12) eqn:E1; rewrite ?Z.ltb_lt, ?Z.ltb_ge in E1; [by apply bn_short |].
  change (wrap_i 32 (be_val (slice LENGTH_OFFSET 4 buf))) with (batch_length (mk_batch buf)).
  set (d := batch_length (mk_batch buf) + 12).
  destruct (d <=? 0) eqn:E2, (len buf <? d) eqn:E3; cbn [orb];
    rewrite ?Z.leb_le, ?Z.leb_gt, ?Z.ltb_lt, ?Z.ltb_ge in *.
  1-3: apply (bn_lying _ d); [done | done | lia].
  apply bn_batch.
  - by rewrite take_drop.
  - done.
  - intros Ht. apply (f_equal length) in Ht. rewrite length_take in Ht. unfold len in *. simpl in Ht. lia.
  - unfold len in *. rewrite length_take. lia.
Qed.

(** The whole length, frame fields included, that the batch at the head of a
    blob declares. *)
Definition declared_total (buf : bytes) : Z := batch_length (mk_batch buf) + 12.

(** [chunks] are what is cut off the front of [concat chunks ++ tail] when each
    cut is made at the length declared by what is left at that point. *)
Fixpoint cut_as_declared (chunks : list bytes) (tail : bytes) : Prop :=
  match chunks with
  | [] => True
  | c :: cs =>
      let left := c ++ concat cs ++ tail in
      12 ≤ len left ∧ 0 < len c ∧ len c = declared_total left ∧ cut_as_declared cs tail
  end.

(** What the walk says of the tail it cannot cut: too short to carry a length,
    or with a length that is not positive or past the end of the blob. *)
Inductive tail_items (tail : bytes) : list (result BatchError RecordBatch) → Prop :=
| tail_none : tail = [] → tail_items tail []
| tail_short : 0 < len tail < 12 → tail_items tail [Err (TooShort (len tail))]
| tail_lying :
    12 ≤ len tail → declared_total tail ≤ 0 ∨ len tail < declared_total tail →
    tail_items tail [Err (LengthMismatch (declared_total tail) (len tail))].

(** A blob cut into batches by their declared lengths, every cut validated on
    its own, and a tail that cannot be one reported with its reason. *)
Definition batch_partition (buf : bytes) (items : list (result BatchError RecordBatch)) : Prop :=
  ∃ chunks tail err, buf = concat chunks ++ tail ∧ cut_as_declared chunks tail ∧
    tail_items tail err ∧ items = (batch_new <$> chunks) ++ err.

Lemma batch_iter_total fuel buf :
  (length buf < fuel)%nat → ∃ items, batch_iter fuel buf = Some items ∧ batch_partition buf items.
Proof.
  revert buf. induction fuel as [|fuel IH]; intros buf Hf; [lia |]. cbn [batch_iter].
  destruct (batch_iter_next_cases buf) as [->|Hs|d Hl Hd Hr|one rest Hb Hn Hne Hone].
  - exists []. split; [done |]. exists [], [], []. by repeat split; constructor.
  - assert (buf ≠ []) by (intros ->; rewrite len_nil in Hs; lia).
    destruct fuel; [destruct buf; simpl in Hf; [done | lia] |]. cbn [batch_iter batch_iter_next].
    eexists. split; [done |]. exists [], buf. eexists. split; [done |]. split; [done |].
    split; [by apply tail_short | done].
  - assert (buf ≠ []) by (intros ->; rewrite len_nil in Hl; lia).
    destruct fuel; [destruct buf; simpl in Hf; [done | lia] |]. cbn [batch_iter batch_iter_next].
    eexists. split; [done |]. exists [], buf. eexists. split; [done |]. split; [done |].
    subst d. split; [by apply tail_lying | done].
  - destruct (IH rest) as (items & -> & chunks & tail & err & -> & Hcs & Herr & ->).
    { apply (f_equal length) in Hb. rewrite length_app in Hb. destruct one; [done |]. simpl in Hb. lia. }
    eexists. split; [done |]. exists (one :: chunks), tail, err. cbn [concat cut_as_declared].
    rewrite <- app_assoc. rewrite Hb in Hn, Hone. split; [done |].
    split; [| done]. split; [done |]. split; [| done].
    destruct one; [done |]. rewrite len_cons. pose proof (len_nonneg one). lia.
Qed.

(** One cut, computed. *)
Lemma batch_iter_next_cut c rest :
  12 ≤ len (c ++ rest) → 0 < len c → len c = declared_total (c ++ rest) →
  batch_iter_next (c ++ rest) = (Some (batch_new c), rest).
Proof.
  intros Hl Hc Hd. unfold batch_iter_next.
  destruct (c ++ rest) as [|x y] eqn:E; [rewrite len_nil in Hl; lia |].
  rewrite <- E in *. change (Z.of_nat (LENGTH_OFFSET + 4)) with 12.
  rewrite (proj2 (Z.ltb_ge _ 12)) by lia.
  change (wrap_i 32 (be_val (slice LENGTH_OFFSET 4 (c ++ rest))) + 12)
    with (declared_total (c ++ rest)).
  rewrite <- Hd, (proj2 (Z.leb_gt _ 0)), (proj2 (Z.ltb_ge _ (len c)))
    by (rewrite ?len_app; pose proof (len_nonneg rest); lia).
  cbn [orb]. by rewrite take_len_app, drop_len_app.
Qed.

(** The tail, computed. *)
Lemma batch_iter_tail fuel tail err :
  tail_items tail err → (length tail < fuel)%nat → batch_iter fuel tail = Some err.
Proof.
  intros Ht Hf. destruct fuel as [|fuel]; [lia |]. cbn [batch_iter].
  assert (Hnil : tail ≠ [] → batch_iter fuel [] = Some [])
    by (intros ?; destruct fuel; [destruct tail; simpl in Hf; [done | lia] | done]).
  destruct (batch_iter_next_cases tail) as [->|Hs|d Hl Hd Hr|one rest Hb Hn Hne Hone];
    inversion Ht as [E|E|E1 E2]; subst; rewrite ?len_nil in *; try lia; try done.
  - rewrite Hnil; [done |]. intros ->. rewrite len_nil in *. lia.
  - rewrite Hnil; [done |]. intros ->. rewrite len_nil in *. lia.
  - destruct one; [done |]. done.
  - unfold declared_total in E2. rewrite <- Hone, len_app in E2. pose proof (len_nonneg rest).
    assert (0 < len one); [| lia].
    destruct one; [done |]. rewrite len_cons. pose proof (len_nonneg one). lia.
Qed.

Lemma batch_partition_iter fuel buf items :
  batch_partition buf items → (length buf < fuel)%nat → batch_iter fuel buf = Some items.
Proof.
  intros (chunks & tail & err & -> & Hc & Ht & ->). revert fuel.
  induction chunks as [|c cs IH]; intros fuel Hf; [by apply batch_iter_tail |].
  cbn [cut_as_declared concat] in *. destruct Hc as (Hl & Hpos & Hd & Hc).
  rewrite <- app_assoc in *. destruct fuel as [|fuel]; [lia |]. cbn [batch_iter].
  rewrite batch_iter_next_cut, IH; [done | done | | done..].
  rewrite length_app in Hf. unfold len in Hpos. lia.
Qed.

(** C40. Walking a records blob always ends, and its items are the one list that
    accounts for every byte: the blob cut, from the front, at the lengths its
    batches declare, each cut validated on its own, and a tail that is too short
    for a length field or whose length is not positive or past the end reported
    once, last, with that reason. *)
Theorem batches_partition buf :
  ∃ items, batches buf = Some items ∧ ∀ items', batch_partition buf items' ↔ items' = items.
Proof.
  destruct (batch_iter_total (S (length buf)) buf) as (items & Hb & Hp); [lia |].
  exists items. split; [done |]. intros items'. split; [| by intros ->].
  intros Hp'. apply (batch_partition_iter (S (length buf))) in Hp'; [| lia]. congruence.
Qed.

(** The smallest batch of the format, one byte that is no batch after it. *)
Definition example_blob : bytes :=
  replicate 8 Byte.x00 ++ be_bytes 4 49 ++ replicate 4 Byte.x00 ++ [Byte.x02] ++
  replicate 44 Byte.x00 ++ [Byte.x07].

Lemma batches_partition_witness :
  batches example_blob = Some [Ok (mk_batch (take 61 example_blob)); Err (TooShort 1)] ∧
  batch_partition example_blob [Ok (mk_batch (take 61 example_blob)); Err (TooShort 1)].
Proof.
  split; [vm_compute; reflexivity |].
  destruct (batches_partition example_blob) as (items & Hb & Hp). apply Hp.
  vm_compute in Hb |- *. by simplify_eq.
Defined.

Lemma batch_iter_next_app bs b rest :
  batch_new bs = Ok b → batch_iter_next (bs ++ rest) = (Some (Ok b), rest).
Proof.
  intros Hn. pose proof Hn as H0. apply batch_new_ok in H0 as (-> & Hl & Hm & Hb & Hd & Hr).
  assert (Hlen : (61 ≤ length bs)%nat) by off_lia.
  unfold batch_iter_next. destruct (bs ++ rest) as [|x y] eqn:E.
  { apply (f_equal length) in E. rewrite length_app in E. simpl in E. lia. }
  rewrite <- E. change (Z.of_nat (LENGTH_OFFSET + 4)) with 12.
  rewrite len_app. pose proof (len_nonneg rest). unfold len in Hb.
  rewrite (proj2 (Z.ltb_ge _ 12)) by (unfold len; lia).
  rewrite slice_app_l by off_lia.
  change (wrap_i 32 (be_val (slice LENGTH_OFFSET 4 bs))) with (batch_length (mk_batch bs)).
  rewrite Hb. fold (len bs).
  rewrite (proj2 (Z.leb_gt _ 0)), (proj2 (Z.ltb_ge _ (len bs))) by (unfold len in *; lia).
  cbn [orb]. by rewrite take_len_app, drop_len_app, Hn.
Qed.

(** The batches of a well-formed blob come out one by one, in order and
    whole. *)
Theorem batches_concat bss :
  Forall (λ bs, batch_new bs = Ok (mk_batch bs)) bss →
  batches (concat bss) = Some (Ok ∘ mk_batch <$> bss).
Proof.
  intros H. unfold batches.
  generalize (Nat.lt_succ_diag_r (length (concat bss))). generalize (S (length (concat bss))) as n.
  induction H as [|bs bss Hbs H IH]; intros n Hn; (destruct n; [lia |]); [done |].
  cbn [batch_iter concat]. rewrite (batch_iter_next_app _ _ _ Hbs). rewrite IH; [done |].
  apply batch_new_ok in Hbs as (_ & Hl & _). cbn [concat] in Hn. rewrite length_app in Hn. off_lia.
Qed.

(** A producer is told to retry ([CORRUPT_MESSAGE]) exactly when the batch
    may have been damaged on the way: every other rejection is inside what
    the CRC covers, and is final. *)
Lemma batch_error_retriable e :
  ErrorCode.is_retriable (batch_error_code e) = true ↔
    (∃ n, e = TooShort n) ∨ (∃ s c, e = CrcMismatch s c) ∨ (∃ d a, e = LengthMismatch d a).
Proof.
  split.
  - destruct e; cbn; intros H; (discriminate || eauto 6).
  - by intros [(? & ->)|[(? & ? & ->)|(? & ? & ->)]].
Qed.

(** ** A concrete batch *)

(** A checksum to instantiate [crc32c] with: the sum of the bytes. *)
Definition sum_crc (bs : bytes) : Z := wrap_u 32 (foldr (λ b n, u8 b + n) 0 bs).

(** One batch of one record, with the payload given and the checksum of
    [sum_crc]. *)
Definition sample_batch (payload : bytes) : bytes :=
  let covered := be_bytes 2 0 ++ be_bytes 4 0 ++ be_bytes 8 1700000000000 ++
    be_bytes 8 1700000000001 ++ be_bytes 8 (-1) ++ be_bytes 2 (-1) ++ be_bytes 4 (-1) ++
    be_bytes 4 1 ++ payload in
  be_bytes 8 0 ++ be_bytes 4 (9 + len covered) ++ be_bytes 4 (-1) ++ be_bytes 1 2 ++
  be_bytes 4 (sum_crc covered) ++ covered.

Lemma stamp_preserves_validity_witness :
  let s := stamp (mk_batch (sample_batch [x01; x02])) 1234 7 in
  validated sum_crc s = Ok (mk_batch s) ∧
  base_offset (mk_batch s) = 1234 ∧ partition_leader_epoch (mk_batch s) = 7 ∧
  length s = length (sample_batch [x01; x02]) ∧
  slice 8 4 s = slice 8 4 (sample_batch [x01; x02]) ∧
  drop 16 s = drop 16 (sample_batch [x01; x02]).
Proof.
  apply (stamp_preserves_validity sum_crc (sample_batch [x01; x02])).
  - vm_compute. reflexivity.
  - int_lia.
  - int_lia.
Defined.

Lemma batches_concat_witness :
  batches (concat [sample_batch [x01]; sample_batch []])
    = Some (Ok ∘ mk_batch <$> [sample_batch [x01]; sample_batch []]).
Proof. apply (batches_concat [sample_batch [x01]; sample_batch []]). repeat constructor. Defined.
