(* ===== verification/RecordIter.v ===== *)
(** * codec/src/records.rs: reading the records of a batch

    [Source] is where the record bytes come from: a buffer with a position,
    or a decompressing stream.  A stream is modelled by what its reader
    delivers: the bytes it still yields ([rest]) and how it ends ([fin]: end
    of stream, or the [BatchError] its next read fails with).  [RecordIter]
    reads one record at a time, [KeyIter] only their keys.

    [entry_size] stands for [size_of::<(Bytes, Option<Bytes>)>()], and
    [open_decoder] for the third-party decompressors behind [decoder]: what a
    codec's reader yields for a payload, and how it ends. *)

From stdpp Require Import strings.
From S2P Require Import Prelude Errors Records.

Definition MAX_DECOMPRESSED_BYTES : Z := 64 * 1024 * 1024.
Definition MAX_STREAMED_BYTES : Z := 1024 * 1024 * 1024.
Definition usize_max : Z := 18446744073709551615.

Record RecordRef : Type := mk_record {
  offset_delta : Z;
  timestamp_delta : Z;
  rr_key : option bytes;
  rr_value : option bytes;
  rr_headers : list (bytes * option bytes);
  rr_attributes : Z }.

Record RecordKey : Type := mk_key { rk_offset_delta : Z; rk_key : option bytes }.

Inductive Source : Type :=
| Mem (buf : bytes) (pos : Z)
| Stream (rest : bytes) (fin : option BatchError) (pos : Z) (codec : Z).

Abbreviation source A := (ST Source BatchError A).

Definition src_pos (s : Source) : Z :=
  match s with Mem _ pos => pos | Stream _ _ pos _ => pos end.
Definition get_pos : source Z := λ s, (Ok (src_pos s), s).

Definition is_stream (s : Source) : bool :=
  match s with Mem _ _ => false | Stream _ _ _ _ => true end.

Definition fits (s : Source) (end_ : Z) : bool :=
  match s with
  | Mem buf _ => end_ <=? len buf
  | Stream _ _ _ _ => true
  end.

Definition at_end : source bool := λ s,
  match s with
  | Mem buf pos => (Ok (len buf <=? pos), s)
  | Stream [] (Some e) _ _ => (Err e, s)
  | Stream [] None _ _ => (Ok true, s)
  | Stream (_ :: _) _ _ _ => (Ok false, s)
  end.

Definition src_byte : source (option byte) := λ s,
  match s with
  | Mem buf pos =>
      match buf !! Z.to_nat pos with
      | Some b => (Ok (Some b), Mem buf (pos + 1))
      | None => (Ok None, s)
      end
  | Stream [] (Some e) _ _ => (Err e, s)
  | Stream [] None _ _ => (Ok None, s)
  | Stream (b :: rest) fin pos codec => (Ok (Some b), Stream rest fin (pos + 1) codec)
  end.

(** [usize::checked_add]. *)
Definition checked_add (a b : Z) : option Z :=
  if a + b <=? usize_max then Some (a + b) else None.

Definition src_bytes (n : Z) (keep : bool) : source (option bytes) := λ s,
  match s with
  | Mem buf pos =>
      match checked_add pos n with
      | Some stop =>
          if stop <=? len buf
          then (Ok (Some (slice (Z.to_nat pos) (Z.to_nat n) buf)), Mem buf stop)
          else (Ok None, s)
      | None => (Ok None, s)
      end
  | Stream rest fin pos codec =>
      if keep && (MAX_DECOMPRESSED_BYTES <? n) then (Err DecompressedTooLarge, s)
      else if n <=? len rest then
        (Ok (Some (if keep then take (Z.to_nat n) rest else [])),
         Stream (drop (Z.to_nat n) rest) fin (pos + n) codec)
      else match fin with
           | Some e => (Err e, Stream [] fin pos codec)
           | None => (Ok None, Stream [] fin (pos + len rest) codec)
           end
  end.

(** [((result >> 1) as iN) ^ -((result & 1) as iN)]. *)
Definition unzigzag (result : Z) : Z :=
  Z.lxor (Z.shiftr result 1) (- Z.land result 1).

(** The loop of [varint_i32] and [varint_i64]: [w] is the width of [result],
    [k] the iterations left. *)
Fixpoint varint_loop (w : Z) (k : nat) (shift result end_ : Z) : source (option Z) :=
  match k with
  | O => ret None
  | S k' =>
      let* pos := get_pos in
      if end_ <=? pos then ret None
      else
        let* byte := src_byte in
        match byte with
        | None => ret None
        | Some byte =>
            let result := Z.lor result (wrap_u w (Z.shiftl (Z.land (u8 byte) 127) shift)) in
            if Z.land (u8 byte) 128 =? 0 then ret (Some (unzigzag result))
            else varint_loop w k' (shift + 7) result end_
        end
  end.
Definition varint_i32 (end_ : Z) : source (option Z) := varint_loop 32 5 0 0 end_.
Definition varint_i64 (end_ : Z) : source (option Z) := varint_loop 64 10 0 0 end_.

(** [.ok_or(e)?]. *)
Definition ok_or {S E A} (o : option A) (e : E) : ST S E A :=
  match o with Some a => ret a | None => throw e end.

Definition read_len (end_ : Z) : source Z :=
  let* at_ := get_pos in
  let* n := varint_i32 end_ in
  ok_or n (TruncatedRecord at_).

Definition read_bytes (end_ n : Z) (keep : bool) : source bytes :=
  let* at_ := get_pos in
  match checked_add at_ n with
  | Some stop =>
      if stop <=? end_ then
        let* b := src_bytes n keep in ok_or b (TruncatedRecord at_)
      else throw (TruncatedRecord at_)
  | None => throw (TruncatedRecord at_)
  end.

Definition read_field (end_ : Z) (keep : bool) : source (option bytes) :=
  let* n := read_len end_ in
  if n <? 0 then ret None
  else let* b := read_bytes end_ n keep in ret (Some b).

(** The header loop of [next_record]: [n] headers to go; [at_] is where the
    record started. *)
Fixpoint read_headers (n : nat) (at_ end_ : Z) (full : bool)
    : source (list (bytes * option bytes)) :=
  match n with
  | O => ret []
  | S n' =>
      let* pos := get_pos in
      if end_ <=? pos then throw (TruncatedRecord at_)
      else
        let* name_len := read_len end_ in
        if name_len <? 0 then throw (NegativeLength "header key length" name_len)
        else
          let* name := read_bytes end_ name_len full in
          let* value := read_field end_ full in
          let* hs := read_headers n' at_ end_ full in
          ret (if full then (name, value) :: hs else hs)
  end.

Definition get_source : source Source := λ s, (Ok s, s).

Section Layout.

Variable entry_size : Z.

(** The fields of a record that starts at [start] and must end at [end_]. *)
Definition record_fields (full : bool) (at_ length start end_ : Z) : source RecordRef :=
  let* a := src_byte in
  let* attributes := ok_or a (TruncatedRecord at_) in
  let* td := varint_i64 end_ in
  let* timestamp_delta := ok_or td (TruncatedRecord at_) in
  let* od := varint_i32 end_ in
  let* offset_delta := ok_or od (TruncatedRecord at_) in
  let* key := read_field end_ true in
  let* value := read_field end_ full in
  let* header_count := read_len end_ in
  if header_count <? 0 then throw (NegativeLength "header count" header_count)
  else
    let* s := get_source in
    if full && is_stream s && (MAX_DECOMPRESSED_BYTES <? header_count * entry_size)
    then throw DecompressedTooLarge
    else
      let* headers := read_headers (Z.to_nat header_count) at_ end_ full in
      let* pos := get_pos in
      if negb (pos =? end_) then throw (RecordSizeMismatch length (pos - start))
      else ret (mk_record offset_delta timestamp_delta key value headers
                  (wrap_i 8 (u8 attributes))).

Definition next_record (full : bool) : source RecordRef :=
  let* at_ := get_pos in
  let* n := varint_i32 usize_max in
  let* length := ok_or n (TruncatedRecord at_) in
  if length <? 0 then throw (NegativeLength "record length" length)
  else
    let* s := get_source in
    if full && is_stream s && (MAX_DECOMPRESSED_BYTES <? length)
    then throw DecompressedTooLarge
    else
      let start := src_pos s in
      match checked_add start length with
      | None => throw (TruncatedRecord at_)
      | Some end_ =>
          if negb (fits s end_) then throw (TruncatedRecord at_)
          else if end_ <=? start then throw (TruncatedRecord at_)
          else record_fields full at_ length start end_
      end.

Record RecordIter : Type := mk_iter {
  src : Source;
  remaining : Z;
  declared : Z;
  done : bool;
  full : bool }.

(** [RecordIter::next]. *)
Definition iter_next (it : RecordIter) : option (result BatchError RecordRef) * RecordIter :=
  if done it then (None, it)
  else
    let stop s := mk_iter s (remaining it) (declared it) true (full it) in
    match at_end (src it) with
    | (Err e, s) => (Some (Err e), stop s)
    | (Ok true, s) =>
        if negb (remaining it =? 0)
        then (Some (Err (RecordCountMismatch (declared it) (declared it - remaining it))), stop s)
        else (None, stop s)
    | (Ok false, s) =>
        if remaining it =? 0
        then (Some (Err (RecordCountMismatch (declared it) (declared it + 1))), stop s)
        else
          match next_record (full it) s with
          | (Ok r, s') =>
              (Some (Ok r), mk_iter s' (remaining it - 1) (declared it) false (full it))
          | (Err e, s') =>
              (Some (Err e), mk_iter s' (remaining it - 1) (declared it) true (full it))
          end
    end.

(** The items of the iterator until it returns [None]; [None] when [fuel]
    runs out. *)
Fixpoint iter_items (fuel : nat) (it : RecordIter) : option (list (result BatchError RecordRef)) :=
  match fuel with
  | O => None
  | S f =>
      match iter_next it with
      | (None, _) => Some []
      | (Some item, it') =>
          match iter_items f it' with
          | Some items => Some (item :: items)
          | None => None
          end
      end
  end.

(** [for record in it { let record = record?; ... }]: the records, or the
    first error.  A record takes at least one byte and the iterator stops at
    the declared count, so count plus two is enough fuel ([iter_collect_total]). *)
Definition iter_collect (it : RecordIter) : option (result BatchError (list RecordRef)) :=
  let fix seq (l : list (result BatchError RecordRef)) :=
    match l with
    | [] => Ok []
    | Ok r :: l' => let? rs := seq l' in Ok (r :: rs)
    | Err e :: _ => Err e
    end in
  seq <$> iter_items (Z.to_nat (remaining it) + 2) it.

(** [KeyIter::next]'s item. *)
Definition key_of (r : RecordRef) : RecordKey := mk_key (offset_delta r) (rr_key r).

End Layout.

(** ** Opening a batch's records *)

(** [RecordBatch::record_iter]. *)
Definition record_iter (b : RecordBatch) (s : Source) (full : bool)
    : result BatchError RecordIter :=
  let count := record_count b in
  if count <? 0 then Err (NegativeExtent "recordCount" count)
  else Ok (mk_iter s count count false full).

(** [RecordBatch::records]. *)
Definition records (b : RecordBatch) : result BatchError RecordIter :=
  let codec := compression_type b in
  if negb (codec =? 0) then Err (Compressed codec)
  else record_iter b (Mem (rb_bytes b) (Z.of_nat RECORD_BATCH_OVERHEAD)) true.

Section Decoders.

(** What the reader [decoder] builds yields, and how it ends. *)
Variable open_decoder : Z → bytes → result BatchError (bytes * option BatchError).

(** [decoder]: codecs 1 to 4 are decompressors, any other is refused. *)
Definition decoder (codec : Z) (payload : bytes) : result BatchError (bytes * option BatchError) :=
  if (1 <=? codec) && (codec <=? 4) then open_decoder codec payload
  else Err (Compressed codec).

(** [bounded_read]: at most one byte more than the cap is asked for. *)
Definition bounded_read (r : bytes * option BatchError) : result BatchError bytes :=
  let '(out, fin) := r in
  if MAX_DECOMPRESSED_BYTES <? len out then Err DecompressedTooLarge
  else match fin with
       | Some e => Err e
       | None => Ok out
       end.

Definition decompress (codec : Z) (payload : bytes) : result BatchError bytes :=
  let? r := decoder codec payload in bounded_read r.

Definition payload_of (b : RecordBatch) : bytes := drop RECORD_BATCH_OVERHEAD (rb_bytes b).

Definition records_decompressed (b : RecordBatch) : result BatchError RecordIter :=
  let codec := compression_type b in
  if codec =? 0 then records b
  else
    let? plain := decompress codec (payload_of b) in
    record_iter b (Mem plain 0) true.

(** [TotalCap] over the decoder: how much of the output gets through before
    the reader fails with [DecompressedTooLarge] depends on the sizes of the
    reads, so it is an argument; it never exceeds the cap. *)
Definition total_cap (seen : nat) (r : bytes * option BatchError) : bytes * option BatchError :=
  let '(out, fin) := r in
  if MAX_STREAMED_BYTES <? len out
  then (take (Nat.min seen (Z.to_nat MAX_STREAMED_BYTES)) out, Some DecompressedTooLarge)
  else (out, fin).

Definition streamed (seen : nat) (b : RecordBatch) (full : bool) : result BatchError RecordIter :=
  let codec := compression_type b in
  if codec =? 0
  then record_iter b (Mem (rb_bytes b) (Z.of_nat RECORD_BATCH_OVERHEAD)) full
  else
    let? r := decoder codec (payload_of b) in
    let '(rest, fin) := total_cap seen r in
    record_iter b (Stream rest fin 0 codec) full.

Definition stream_records (seen : nat) (b : RecordBatch) : result BatchError RecordIter :=
  streamed seen b true.
Definition stream_keys (seen : nat) (b : RecordBatch) : result BatchError RecordIter :=
  streamed seen b false.

End Decoders.

(** ** What a reader promises on bytes that are there

    [avail s] is what [s] still holds, [advance n s] the source [n] bytes
    on.  [sreads lim m enc v]: in a buffer where [enc] comes next and ends by
    [lim], [m] returns [v] and stops right after it. *)

Definition avail (s : Source) : bytes :=
  match s with
  | Mem buf pos => drop (Z.to_nat pos) buf
  | Stream rest _ _ _ => rest
  end.
Definition advance (n : Z) (s : Source) : Source :=
  match s with
  | Mem buf pos => Mem buf (pos + n)
  | Stream rest fin pos codec => Stream (drop (Z.to_nat n) rest) fin (pos + n) codec
  end.
Definition src_wf (s : Source) : Prop :=
  match s with
  | Mem buf pos => 0 ≤ pos ≤ len buf
  | Stream _ _ pos _ => 0 ≤ pos
  end.

Definition sreads {A} (lim : Z) (m : source A) (enc : bytes) (v : A) : Prop :=
  ∀ s rest, src_wf s → is_stream s = false → avail s = enc ++ rest →
    src_pos s + len enc ≤ lim → m s = (Ok v, advance (len enc) s).

Lemma advance_0 s : advance 0 s = s.
Proof. destruct s; cbn; by rewrite Z.add_0_r. Qed.

Lemma advance_add n m s : 0 ≤ n → 0 ≤ m → advance m (advance n s) = advance (n + m) s.
Proof.
  intros. destruct s; cbn; rewrite Z.add_assoc; [done |].
  rewrite drop_drop. do 2 f_equal. lia.
Qed.

Lemma src_pos_advance n s : src_pos (advance n s) = src_pos s + n.
Proof. by destruct s. Qed.

Lemma is_stream_advance n s : is_stream (advance n s) = is_stream s.
Proof. by destruct s. Qed.

Lemma avail_advance s enc rest :
  src_wf s → avail s = enc ++ rest → avail (advance (len enc) s) = rest.
Proof.
  destruct s as [buf pos|r fin pos c]; cbn; intros Hw Ha.
  - pose proof (len_nonneg enc).
    replace (Z.to_nat (pos + len enc)) with (Z.to_nat pos + Z.to_nat (len enc))%nat by lia.
    by rewrite <- drop_drop, Ha, drop_len_app.
  - by rewrite Ha, drop_len_app.
Qed.

Lemma src_wf_advance s enc rest :
  src_wf s → avail s = enc ++ rest → src_wf (advance (len enc) s).
Proof.
  destruct s as [buf pos|r fin pos c]; cbn; intros Hw Ha; pose proof (len_nonneg enc); [| lia].
  split; [lia |]. apply (f_equal len) in Ha. rewrite len_app in Ha. pose proof (len_nonneg rest).
  assert (len (drop (Z.to_nat pos) buf) = len buf - pos).
  { unfold len in *. rewrite length_drop. lia. } lia.
Qed.

Lemma sreads_ret {A} lim (v : A) : sreads lim (ret v) [] v.
Proof. intros s rest _ _ _ _. by rewrite len_nil, advance_0. Qed.

Lemma sreads_bind {A B} lim (m : source A) (k : A → source B) e1 e2 a b :
  sreads lim m e1 a → sreads lim (k a) e2 b → sreads lim (bind m k) (e1 ++ e2) b.
Proof.
  intros H1 H2 s rest Hw Hm Ha Hl. rewrite <- app_assoc in Ha. rewrite len_app in Hl.
  pose proof (len_nonneg e1). pose proof (len_nonneg e2).
  unfold bind. rewrite (H1 s _ Hw Hm Ha) by lia.
  rewrite (H2 _ rest); [by rewrite advance_add, len_app by lia | | | |].
  - by eapply src_wf_advance.
  - by rewrite is_stream_advance.
  - by eapply avail_advance.
  - rewrite src_pos_advance. lia.
Qed.

(** A last step that reads nothing. *)
Lemma sreads_map {A B} lim (m : source A) (k : A → source B) e a b :
  sreads lim m e a → (∀ s, k a s = (Ok b, s)) → sreads lim (bind m k) e b.
Proof. intros H1 H2 s rest Hw Hm Ha Hl. unfold bind. by rewrite (H1 s rest), H2. Qed.

Lemma sreads_pos {B} lim (k : Z → source B) e b :
  (∀ p, 0 ≤ p → p + len e ≤ lim → sreads lim (k p) e b) → sreads lim (bind get_pos k) e b.
Proof.
  intros H s rest Hw Hm Ha Hl. unfold bind, get_pos. eapply H; [| done..].
  destruct s; cbn in *; lia.
Qed.

Lemma sreads_ext {A} lim (m m' : source A) e v :
  (∀ s, m s = m' s) → sreads lim m' e v → sreads lim m e v.
Proof. intros He H s rest Hw Hm Ha Hl. rewrite He. by eapply H. Qed.

Lemma sreads_byte lim b : sreads lim src_byte [b] (Some b).
Proof.
  intros s rest Hw Hm Ha _. destruct s as [buf pos|]; [| done]. cbn in *.
  assert (Hb : buf !! Z.to_nat pos = Some b).
  { rewrite <- (Nat.add_0_r (Z.to_nat pos)), <- lookup_drop, Ha. done. }
  by rewrite Hb.
Qed.

Lemma avail_len buf pos enc rest :
  0 ≤ pos ≤ len buf → drop (Z.to_nat pos) buf = enc ++ rest → pos + len enc + len rest = len buf.
Proof.
  intros Hw Ha. apply (f_equal len) in Ha. rewrite len_app in Ha.
  unfold len in *. rewrite length_drop in Ha. lia.
Qed.

Lemma sreads_bytes lim e keep :
  lim ≤ usize_max → sreads lim (src_bytes (len e) keep) e (Some e).
Proof.
  intros Hu s rest Hw Hm Ha Hl. destruct s as [buf pos|]; [| done]. cbn in *.
  pose proof (avail_len _ _ _ _ Hw Ha). pose proof (len_nonneg rest). unfold checked_add.
  rewrite (proj2 (Z.leb_le (pos + len e) usize_max)) by lia.
  rewrite (proj2 (Z.leb_le (pos + len e) (len buf))) by lia.
  unfold slice. by rewrite Ha, take_len_app.
Qed.

(** ** Varints *)

(** The unsigned value a signed one is written as. *)
Definition zigzag (v : Z) : Z := if 0 <=? v then 2 * v else -2 * v - 1.

Lemma unzigzag_zigzag v : unzigzag (zigzag v) = v.
Proof.
  unfold unzigzag, zigzag. rewrite land_1.
  rewrite Z.shiftr_div_pow2 by lia. change (2 ^ 1) with 2.
  destruct (0 <=? v) eqn:E; [apply Z.leb_le in E | apply Z.leb_gt in E].
  - rewrite (Z.mul_comm 2 v), Z.mod_mul, Z.div_mul by lia. by rewrite Z.lxor_0_r.
  - replace (-2 * v - 1) with (1 + (- v - 1) * 2) by lia.
    rewrite Z.mod_add, Z.div_add by lia. change (1 mod 2) with 1. change (1 / 2) with 0.
    rewrite Z.add_0_l. change (- (1)) with (-1). rewrite Z.lxor_m1_r.
    unfold Z.lnot. lia.
Qed.

Lemma zigzag_range32 v : is_i32 v → 0 ≤ zigzag v < 2 ^ 32.
Proof.
  unfold zigzag. change (2 ^ 32) with 4294967296. intros.
  destruct (0 <=? v) eqn:E; rewrite ?Z.leb_le, ?Z.leb_gt in E; int_lia.
Qed.
Lemma zigzag_range64 v : is_i64 v → 0 ≤ zigzag v < 2 ^ 64.
Proof.
  unfold zigzag. change (2 ^ 64) with 18446744073709551616. intros.
  destruct (0 <=? v) eqn:E; rewrite ?Z.leb_le, ?Z.leb_gt in E; int_lia.
Qed.

Lemma varint_loop_sreads w k sh a v lim end_ :
  0 ≤ sh → 0 ≤ a < 2 ^ sh → 0 ≤ v < 128 ^ Z.of_nat k → v * 2 ^ sh < 2 ^ w → (0 < k)%nat →
  lim ≤ end_ →
  sreads lim (varint_loop w k sh a end_) (leb128 k v) (Some (unzigzag (a + v * 2 ^ sh))).
Proof.
  revert sh a v. induction k as [|k IH]; intros sh a v Hs Ha Hv Hb Hk Hl; [lia |].
  cbn [leb128 varint_loop]. apply sreads_pos. intros p Hp Hpl.
  assert ((end_ <=? p) = false) as ->.
  { apply Z.leb_gt. destruct (v <? 128); rewrite len_cons in Hpl;
      [| pose proof (len_nonneg (leb128 k (v / 128)))]; rewrite ?len_nil in Hpl; lia. }
  destruct (v <? 128) eqn:E.
  - apply Z.ltb_lt in E. eapply sreads_map; [apply sreads_byte |]. intros s. cbv beta iota zeta.
    rewrite u8_as_u8, (Z.mod_small v 256), land_7f, land_80_byte, varint_acc by lia.
    by rewrite (proj2 (Z.ltb_lt v 128)), Z.mod_small by lia.
  - apply Z.ltb_ge in E. pose proof (Z.mod_pos_bound v 128 ltac:(lia)).
    eapply (sreads_bind _ _ _ [_]); [apply sreads_byte |]. cbv beta iota zeta.
    rewrite u8_cont, land_7f, mod_128_cont, land_80_byte, varint_acc by lia.
    rewrite (proj2 (Z.ltb_ge _ 128)) by lia.
    destruct k as [|k]; [simpl in Hv; lia |].
    destruct (varint_acc_next sh a v) as [Hacc Heq]; [lia.. |]. rewrite <- Heq.
    apply IH; [lia | done | by apply leb128_div | | lia | done].
    assert (0 < 2 ^ sh) by (apply Z.pow_pos_nonneg; lia). lia.
Qed.

(** The bytes of a varint. *)
Definition venc (v : Z) : bytes := leb128 10 (zigzag v).

Lemma venc_32 v : is_i32 v → venc v = leb128 5 (zigzag v).
Proof.
  intros Hv. apply zigzag_range32 in Hv. apply leb128_fuel; [| lia..].
  change (128 ^ Z.of_nat 5) with (2 ^ 35). change (2 ^ 32) with 4294967296 in Hv.
  change (2 ^ 35) with 34359738368. lia.
Qed.

Lemma sreads_varint_i32 lim end_ v :
  is_i32 v → lim ≤ end_ → sreads lim (varint_i32 end_) (venc v) (Some v).
Proof.
  intros Hv Hl. rewrite venc_32 by done. pose proof (zigzag_range32 v Hv) as Hz.
  rewrite <- (unzigzag_zigzag v) at 2. unfold varint_i32.
  replace (unzigzag (zigzag v)) with (unzigzag (0 + zigzag v * 2 ^ 0)) by (f_equal; lia).
  change (2 ^ 32) with 4294967296 in Hz.
  apply varint_loop_sreads; [lia | done | | | lia | done].
  - change (128 ^ Z.of_nat 5) with 34359738368. lia.
  - change (2 ^ 32) with 4294967296. lia.
Qed.

Lemma sreads_varint_i64 lim end_ v :
  is_i64 v → lim ≤ end_ → sreads lim (varint_i64 end_) (venc v) (Some v).
Proof.
  intros Hv Hl. pose proof (zigzag_range64 v Hv) as Hz.
  rewrite <- (unzigzag_zigzag v) at 2. unfold varint_i64.
  replace (unzigzag (zigzag v)) with (unzigzag (0 + zigzag v * 2 ^ 0)) by (f_equal; lia).
  change (2 ^ 64) with 18446744073709551616 in Hz.
  apply varint_loop_sreads; [lia | done | | | lia | done].
  - change (128 ^ Z.of_nat 10) with 1180591620717411303424. lia.
  - change (2 ^ 64) with 18446744073709551616. lia.
Qed.

(** ** Fields and records *)

(** The bytes of a nullable field, of a header and of a whole record, as the
    writers of codec/src/records.rs and compaction.rs lay them out. *)
Definition field_enc (o : option bytes) : bytes :=
  match o with Some b => venc (len b) ++ b | None => venc (-1) end.
Definition header_enc (h : bytes * option bytes) : bytes :=
  venc (len h.1) ++ h.1 ++ field_enc h.2.
Definition record_body (r : RecordRef) : bytes :=
  as_u8 (rr_attributes r) :: venc (timestamp_delta r) ++ venc (offset_delta r) ++
  field_enc (rr_key r) ++ field_enc (rr_value r) ++
  venc (Z.of_nat (length (rr_headers r))) ++ concat (header_enc <$> rr_headers r).
Definition record_enc (r : RecordRef) : bytes :=
  venc (len (record_body r)) ++ record_body r.

(** A record the format can hold: every field in its type, and the whole no
    longer than its own [i32] length prefix can say. *)
Definition record_ok (r : RecordRef) : Prop :=
  is_i8 (rr_attributes r) ∧ is_i64 (timestamp_delta r) ∧ is_i32 (offset_delta r) ∧
  len (record_body r) ≤ i32_max.

Lemma sreads_ok_or {A} lim (m : source (option A)) e v err :
  sreads lim m e (Some v) → sreads lim (let* o := m in ok_or o err) e v.
Proof. intros H. by eapply sreads_map. Qed.

Lemma sreads_len lim end_ v :
  is_i32 v → lim ≤ end_ → sreads lim (read_len end_) (venc v) v.
Proof. intros. apply sreads_pos. intros p _ _. by apply sreads_ok_or, sreads_varint_i32. Qed.

Lemma sreads_read_bytes lim end_ e keep :
  lim ≤ end_ → end_ ≤ usize_max → sreads lim (read_bytes end_ (len e) keep) e e.
Proof.
  intros Hl Hu. apply sreads_pos. intros p Hp Hpl. unfold checked_add.
  rewrite (proj2 (Z.leb_le (p + len e) usize_max)), (proj2 (Z.leb_le (p + len e) end_)) by lia.
  apply sreads_ok_or, sreads_bytes. lia.
Qed.

(** The length of a nullable field's bytes. *)
Definition opt_len (o : option bytes) : Z := match o with Some b => len b | None => 0 end.

Lemma sreads_field lim end_ o keep :
  opt_len o ≤ i32_max → lim ≤ end_ → end_ ≤ usize_max →
  sreads lim (read_field end_ keep) (field_enc o) o.
Proof.
  intros Ho Hl Hu. destruct o as [b|]; unfold read_field, field_enc; cbn in Ho.
  - pose proof (len_nonneg b).
    eapply sreads_bind; [apply sreads_len; [int_lia | done] |].
    rewrite (proj2 (Z.ltb_ge (len b) 0)) by lia.
    eapply sreads_map; [by apply sreads_read_bytes | done].
  - eapply sreads_map; [apply sreads_len; [int_lia | done] | done].
Qed.

Lemma venc_pos v : 0 < len (venc v).
Proof.
  unfold venc. destruct (leb128 10 (zigzag v)) as [|b l] eqn:E.
  - cbn [leb128] in E. by case_match.
  - rewrite len_cons. pose proof (len_nonneg l). lia.
Qed.

Lemma header_enc_pos h : 0 < len (header_enc h).
Proof.
  unfold header_enc. rewrite !len_app. pose proof (venc_pos (len h.1)).
  pose proof (len_nonneg h.1). pose proof (len_nonneg (field_enc h.2)). lia.
Qed.

Definition header_ok (h : bytes * option bytes) : Prop :=
  len h.1 ≤ i32_max ∧ opt_len h.2 ≤ i32_max.

Lemma sreads_headers lim end_ at_ hs :
  Forall header_ok hs → lim ≤ end_ → end_ ≤ usize_max →
  sreads lim (read_headers (length hs) at_ end_ true) (concat (header_enc <$> hs)) hs.
Proof.
  intros Hok Hl Hu. induction Hok as [|[n v] hs [Hn Hv] Hok IH]; [apply sreads_ret |].
  cbn [length read_headers fmap list_fmap concat]. apply sreads_pos. intros p Hp Hpl.
  cbn [fst snd] in Hn, Hv. pose proof (len_nonneg n). unfold header_enc at 1. cbn [fst snd].
  assert ((end_ <=? p) = false) as ->.
  { apply Z.leb_gt. rewrite len_app in Hpl. pose proof (header_enc_pos (n, v)).
    pose proof (len_nonneg (concat (header_enc <$> hs))). lia. }
  rewrite <- !app_assoc.
  eapply sreads_bind; [apply sreads_len; [int_lia | done] |].
  rewrite (proj2 (Z.ltb_ge (len n) 0)) by lia.
  eapply sreads_bind; [by apply sreads_read_bytes |].
  eapply sreads_bind; [by apply sreads_field |].
  by eapply sreads_map.
Qed.

(** The parts of a record that fits are themselves in range. *)
Lemma field_enc_len o : opt_len o ≤ len (field_enc o).
Proof.
  destruct o as [b|]; cbn [opt_len field_enc]; [| apply len_nonneg]. rewrite len_app. pose proof (len_nonneg (venc (len b))). lia.
Qed.

Lemma headers_enc_len hs :
  Z.of_nat (length hs) ≤ len (concat (header_enc <$> hs)) ∧
  (∀ n, len (concat (header_enc <$> hs)) ≤ n → n ≤ i32_max → Forall header_ok hs).
Proof.
  induction hs as [|[n v] hs [IH1 IH2]]; [split; [done | constructor] |].
  cbn [fmap list_fmap concat]. rewrite len_app. unfold header_enc at 1 3. cbn [fst snd].
  rewrite !len_app. pose proof (venc_pos (len n)). pose proof (len_nonneg n).
  pose proof (len_nonneg (field_enc v)). pose proof (field_enc_len v).
  pose proof (len_nonneg (concat (header_enc <$> hs))).
  split; [cbn [length]; lia |]. intros m Hm Hi. constructor.
  - split; cbn [fst snd]; lia.
  - apply (IH2 m); lia.
Qed.

Lemma record_body_len r :
  len (record_body r) = 1 + (len (venc (timestamp_delta r)) + (len (venc (offset_delta r)) +
    (len (field_enc (rr_key r)) + (len (field_enc (rr_value r)) +
    (len (venc (Z.of_nat (length (rr_headers r)))) +
     len (concat (header_enc <$> rr_headers r))))))).
Proof. unfold record_body. by rewrite len_cons, !len_app. Qed.

Lemma record_ok_parts r :
  record_ok r → opt_len (rr_key r) ≤ i32_max ∧ opt_len (rr_value r) ≤ i32_max ∧
    is_i32 (Z.of_nat (length (rr_headers r))) ∧ Forall header_ok (rr_headers r) ∧
    0 < len (record_body r) ∧ is_i32 (len (record_body r)).
Proof.
  intros (Ha & Ht & Ho & Hl). pose proof (record_body_len r) as E.
  pose proof (field_enc_len (rr_key r)). pose proof (field_enc_len (rr_value r)).
  destruct (headers_enc_len (rr_headers r)) as [H1 H2].
  pose proof (len_nonneg (venc (timestamp_delta r))). pose proof (len_nonneg (venc (offset_delta r))).
  pose proof (len_nonneg (venc (Z.of_nat (length (rr_headers r))))).
  pose proof (len_nonneg (field_enc (rr_key r))). pose proof (len_nonneg (field_enc (rr_value r))).
  pose proof (len_nonneg (concat (header_enc <$> rr_headers r))).
  repeat split; try int_lia. apply (H2 i32_max); int_lia.
Qed.

(** [sreads] from a known position. *)
Definition sreads_at {A} (p : Z) (m : source A) (enc : bytes) (v : A) : Prop :=
  ∀ s rest, src_wf s → is_stream s = false → avail s = enc ++ rest →
    src_pos s = p → m s = (Ok v, advance (len enc) s).

Lemma sreads_sreads_at {A} lim p (m : source A) e v :
  sreads lim m e v → p + len e ≤ lim → sreads_at p m e v.
Proof. intros H Hl s rest Hw Hm Ha Hp. eapply H; [done.. |]. by rewrite Hp. Qed.

Lemma sreads_at_ret {A} p (v : A) : sreads_at p (ret v) [] v.
Proof. intros s rest _ _ _ _. by rewrite len_nil, advance_0. Qed.

Lemma sreads_at_bind {A B} p (m : source A) (k : A → source B) e1 e2 a b :
  sreads_at p m e1 a → sreads_at (p + len e1) (k a) e2 b → sreads_at p (bind m k) (e1 ++ e2) b.
Proof.
  intros H1 H2 s rest Hw Hm Ha Hp. rewrite <- app_assoc in Ha.
  pose proof (len_nonneg e1). pose proof (len_nonneg e2).
  unfold bind. rewrite (H1 s _ Hw Hm Ha) by done.
  rewrite (H2 _ rest); [by rewrite advance_add, len_app by lia | | | |].
  - by eapply src_wf_advance.
  - by rewrite is_stream_advance.
  - by eapply avail_advance.
  - by rewrite src_pos_advance, Hp.
Qed.

Lemma sreads_at_ok_or {A B} p (o : A) err (k : A → source B) e b :
  sreads_at p (k o) e b → sreads_at p (let* x := ok_or (Some o) err in k x) e b.
Proof. done. Qed.

Lemma sreads_at_pos {B} p (k : Z → source B) e b :
  sreads_at p (k p) e b → sreads_at p (bind get_pos k) e b.
Proof. intros H s rest Hw Hm Ha Hp. unfold bind, get_pos. rewrite Hp. by eapply H. Qed.

Lemma sreads_at_source {B} p (k : Source → source B) e b :
  (∀ s, is_stream s = false → src_pos s = p → (∀ q, q ≤ p + len e → fits s q = true) →
    sreads_at p (k s) e b) →
  sreads_at p (bind get_source k) e b.
Proof.
  intros H s rest Hw Hm Ha Hp. unfold bind, get_source. eapply H; [done | done | | done..].
  intros q Hq. destruct s as [buf pos|]; [| done]. cbn in *.
  pose proof (avail_len _ _ _ _ Hw Ha). pose proof (len_nonneg rest). apply Z.leb_le. lia.
Qed.

Lemma wrap_i8_as_u8 v : is_i8 v → wrap_i 8 (u8 (as_u8 v)) = v.
Proof.
  intros. rewrite u8_as_u8. change 256 with (2 ^ 8). rewrite wrap_i_mod by lia.
  by apply wrap_i8_id.
Qed.

(** The fields of an encoded record, read back. *)
Lemma record_fields_reads es at_ start r :
  record_ok r → start + len (record_body r) ≤ usize_max →
  sreads_at start (record_fields es true at_ (len (record_body r)) start
                     (start + len (record_body r))) (record_body r) r.
Proof.
  intros Hok Hu. destruct (record_ok_parts r Hok) as (Hk & Hv & Hc & Hh & _ & _).
  destruct Hok as (Ha & Ht & Ho & _). pose proof (record_body_len r) as E.
  set (end_ := start + len (record_body r)) in *.
  pose proof (len_nonneg (venc (timestamp_delta r))). pose proof (len_nonneg (venc (offset_delta r))).
  pose proof (len_nonneg (venc (Z.of_nat (length (rr_headers r))))).
  pose proof (len_nonneg (field_enc (rr_key r))). pose proof (len_nonneg (field_enc (rr_value r))).
  pose proof (len_nonneg (concat (header_enc <$> rr_headers r))).
  unfold record_fields, record_body.
  apply (sreads_at_bind start _ _ [_] _ _ _ (sreads_sreads_at (start + 1) _ _ _ _ (sreads_byte _ _) ltac:(done))).
  change (len [_]) with 1. apply sreads_at_ok_or.
  eapply sreads_at_bind; [apply (sreads_sreads_at end_); [by apply sreads_varint_i64 | lia] |].
  apply sreads_at_ok_or.
  eapply sreads_at_bind; [apply (sreads_sreads_at end_); [by apply sreads_varint_i32 | lia] |].
  apply sreads_at_ok_or.
  eapply sreads_at_bind; [apply (sreads_sreads_at end_); [by apply sreads_field | lia] |].
  eapply sreads_at_bind; [apply (sreads_sreads_at end_); [by apply sreads_field | lia] |].
  eapply sreads_at_bind; [apply (sreads_sreads_at end_); [by apply sreads_len | lia] |].
  rewrite (proj2 (Z.ltb_ge (Z.of_nat (length (rr_headers r))) 0)) by lia.
  apply sreads_at_source. intros s' Hm _ _. rewrite Hm. cbn [andb]. rewrite Nat2Z.id.
  rewrite <- (app_nil_r (concat _)).
  eapply sreads_at_bind; [apply (sreads_sreads_at end_); [by apply sreads_headers | lia] |].
  apply sreads_at_pos. rewrite (proj2 (Z.eqb_eq _ end_)) by lia. cbn [negb].
  rewrite wrap_i8_as_u8 by done. destruct r. apply sreads_at_ret.
Qed.

(** An encoded record, read back. *)
Lemma next_record_reads es p r :
  record_ok r → p + len (record_enc r) ≤ usize_max →
  sreads_at p (next_record es true) (record_enc r) r.
Proof.
  intros Hok Hu. destruct (record_ok_parts r Hok) as (_ & _ & _ & _ & Hpos & Hl).
  unfold record_enc in *. rewrite len_app in Hu.
  pose proof (len_nonneg (venc (len (record_body r)))).
  unfold next_record. apply sreads_at_pos.
  eapply sreads_at_bind; [apply (sreads_sreads_at usize_max); [by apply sreads_varint_i32 | lia] |].
  apply sreads_at_ok_or. rewrite (proj2 (Z.ltb_ge (len (record_body r)) 0)) by lia.
  apply sreads_at_source. intros s Hm Hp Hf. rewrite Hm, Hp. cbn [andb]. unfold checked_add.
  rewrite (proj2 (Z.leb_le _ usize_max)) by lia. rewrite Hf by done. cbn [negb].
  rewrite (proj2 (Z.leb_gt _ _)) by lia. apply record_fields_reads; [done | lia].
Qed.

(** ** The iterator *)

Lemma at_end_mem buf pos : at_end (Mem buf pos) = (Ok (len buf <=? pos), Mem buf pos).
Proof. done. Qed.

Lemma record_enc_pos r : 0 < len (record_enc r).
Proof.
  unfold record_enc. rewrite len_app. pose proof (venc_pos (len (record_body r))).
  pose proof (len_nonneg (record_body r)). lia.
Qed.

(** One encoded record at the front of the buffer is the iterator's next
    item. *)
Lemma iter_next_record es buf pos r rest n d :
  record_ok r → 0 ≤ pos ≤ len buf → drop (Z.to_nat pos) buf = record_enc r ++ rest →
  len buf ≤ usize_max → 0 < n →
  iter_next es (mk_iter (Mem buf pos) n d false true) =
    (Some (Ok r), mk_iter (Mem buf (pos + len (record_enc r))) (n - 1) d false true).
Proof.
  intros Hok Hw Ha Hu Hn. unfold iter_next. cbn [done src remaining declared full].
  pose proof (avail_len _ _ _ _ Hw Ha). pose proof (record_enc_pos r). pose proof (len_nonneg rest).
  rewrite at_end_mem, (proj2 (Z.leb_gt (len buf) pos)) by lia.
  rewrite (proj2 (Z.eqb_neq n 0)) by lia.
  by rewrite (next_record_reads es pos r Hok ltac:(lia) (Mem buf pos) rest).
Qed.

Lemma iter_items_records es rs fuel buf pos d :
  Forall record_ok rs → 0 ≤ pos ≤ len buf →
  drop (Z.to_nat pos) buf = concat (record_enc <$> rs) → len buf ≤ usize_max →
  (length rs < fuel)%nat →
  iter_items es fuel (mk_iter (Mem buf pos) (Z.of_nat (length rs)) d false true)
    = Some (Ok <$> rs).
Proof.
  intros Hok. revert fuel pos. induction Hok as [|r rs Hr Hok IH]; intros fuel pos Hw Ha Hu Hf.
  - destruct fuel; [lia |]. cbn [iter_items iter_next done src remaining declared full].
    rewrite at_end_mem, (proj2 (Z.leb_le (len buf) pos)); [done |].
    apply (f_equal len) in Ha. cbn in Ha. unfold len in *. rewrite length_drop in Ha. simpl in Ha. lia.
  - destruct fuel; [lia |]. cbn [fmap list_fmap concat] in Ha. cbn [iter_items].
    rewrite (iter_next_record _ _ _ r _ _ _ Hr Hw Ha Hu) by (cbn [length]; lia).
    pose proof (avail_len _ _ _ _ Hw Ha). pose proof (record_enc_pos r).
    pose proof (len_nonneg (concat (record_enc <$> rs))).
    replace (Z.of_nat (length (r :: rs)) - 1) with (Z.of_nat (length rs)) by (cbn [length]; lia).
    rewrite (IH fuel); [done | lia | | done | cbn [length] in Hf; lia].
    pose proof (avail_advance (Mem buf pos) (record_enc r) _ Hw Ha) as Hadv. done.
Qed.

Lemma iter_items_done es fuel s n d f :
  (0 < fuel)%nat → iter_items es fuel (mk_iter s n d true f) = Some [].
Proof. by destruct fuel; [lia |]. Qed.

(** The iterator stops: at its declared count at the latest. *)
Lemma iter_items_total es fuel s n d f :
  0 ≤ n → (Z.to_nat n + 1 < fuel)%nat → is_Some (iter_items es fuel (mk_iter s n d false f)).
Proof.
  revert s n. induction fuel as [|fuel IH]; intros s n Hn Hf; [lia |].
  cbn [iter_items iter_next done src remaining declared full].
  destruct (at_end s) as [[[|]|e] s']; cbn [negb].
  - destruct (n =? 0); cbn [negb]; [done |]. by rewrite iter_items_done by lia.
  - destruct (n =? 0) eqn:E; [by rewrite iter_items_done by lia |]. apply Z.eqb_neq in E.
    destruct (next_record es f s') as [[r|e] s'']; [| by rewrite iter_items_done by lia].
    destruct (IH s'' (n - 1)) as [items ->]; [lia | lia | done].
  - by rewrite iter_items_done by lia.
Qed.

(** The records of a sequence of items, or its first error. *)
Fixpoint seq_items (l : list (result BatchError RecordRef)) : result BatchError (list RecordRef) :=
  match l with
  | [] => Ok []
  | Ok r :: l' => let? rs := seq_items l' in Ok (r :: rs)
  | Err e :: _ => Err e
  end.

Lemma iter_collect_seq es it :
  iter_collect es it = seq_items <$> iter_items es (Z.to_nat (remaining it) + 2) it.
Proof. unfold iter_collect. destruct (iter_items _ _ _) as [l|]; done. Qed.

Lemma seq_items_ok rs : seq_items (Ok <$> rs) = Ok rs.
Proof. induction rs as [|r rs IH]; [done |]. cbn [fmap list_fmap seq_items rbind]. by rewrite IH. Qed.

Lemma seq_items_inv items rs : seq_items items = Ok rs → items = Ok <$> rs.
Proof.
  revert rs. induction items as [|[r|e] items IH]; intros rs H; cbn in H; [by simplify_eq | | done].
  destruct (seq_items items) as [rs'|e]; [| done]. cbn in H. simplify_eq. cbn. by rewrite (IH rs').
Qed.

Lemma iter_items_count es fuel s n d f rs :
  0 ≤ n → iter_items es fuel (mk_iter s n d false f) = Some (Ok <$> rs) → Z.of_nat (length rs) = n.
Proof.
  revert s n rs. induction fuel as [|fuel IH]; intros s n rs Hn H; [done |].
  cbn [iter_items iter_next done src remaining declared full] in H.
  destruct (at_end s) as [[[|]|e] s'].
  - destruct (Z.eqb_spec n 0) as [->|]; cbn [negb] in H; [by destruct rs; simplify_eq |].
    destruct (iter_items _ _ _); destruct rs; simplify_eq.
  - destruct (Z.eqb_spec n 0) as [->|].
    { destruct (iter_items _ _ _); destruct rs; simplify_eq. }
    destruct (next_record es f s') as [[r|e] s''].
    + destruct (iter_items es fuel _) as [items|] eqn:E; [| done].
      destruct rs as [|r' rs]; [done |]. cbn in H. simplify_eq.
      apply IH in E; [cbn [length]; lia | lia].
    + destruct (iter_items _ _ _); destruct rs; simplify_eq.
  - destruct (iter_items _ _ _); destruct rs; simplify_eq.
Qed.

(** Reading a batch's records always ends, with the records or with an
    error; and when no error is reported, the records are as many as the
    batch declares: neither a batch that runs out early nor one that smuggles
    in more is read as complete. *)
Theorem iter_collect_exact es s n f :
  0 ≤ n →
  (∃ rs, iter_collect es (mk_iter s n n false f) = Some (Ok rs) ∧ Z.of_nat (length rs) = n) ∨
  (∃ e, iter_collect es (mk_iter s n n false f) = Some (Err e)).
Proof.
  intros Hn. rewrite iter_collect_seq. cbn [remaining].
  destruct (iter_items_total es (Z.to_nat n + 2) s n n f Hn ltac:(lia)) as [items E].
  rewrite E. cbn. destruct (seq_items items) as [rs|e] eqn:Es; [left | right; eauto].
  exists rs. split; [done |]. apply seq_items_inv in Es as ->. by eapply iter_items_count.
Qed.

Lemma iter_collect_exact_witness :
  (∃ rs, iter_collect 64 (mk_iter (Mem [x0c; x00; x00; x00; x01; x01; x00] 0) 1 1 false true)
      = Some (Ok rs) ∧ Z.of_nat (length rs) = 1) ∨
  (∃ e, iter_collect 64 (mk_iter (Mem [x0c; x00; x00; x00; x01; x01; x00] 0) 1 1 false true)
      = Some (Err e)).
Proof. apply (iter_collect_exact 64 (Mem [x0c; x00; x00; x00; x01; x01; x00] 0) 1 true). lia. Defined.

(** A buffer of encoded records is read back whole. *)
Lemma iter_collect_records es rs buf pos d :
  Forall record_ok rs → 0 ≤ pos ≤ len buf →
  drop (Z.to_nat pos) buf = concat (record_enc <$> rs) → len buf ≤ usize_max →
  iter_collect es (mk_iter (Mem buf pos) (Z.of_nat (length rs)) d false true) = Some (Ok rs).
Proof.
  intros Hok Hw Ha Hu. rewrite iter_collect_seq. cbn [remaining].
  rewrite iter_items_records by (done || lia). cbn. by rewrite seq_items_ok.
Qed.

(** ** Keys only

    Over a buffer, [KeyIter] checks what [RecordIter] checks and drops only
    what it does not need. *)

Definition rmap {E A B} (f : A → B) (r : result E A) : result E B :=
  match r with Ok a => Ok (f a) | Err e => Err e end.

(** [m'] does what [m] does on buffers, with [f] of its result. *)
Definition mem_sim {A B} (f : A → B) (m : source A) (m' : source B) : Prop :=
  ∀ s, is_stream s = false →
    m' s = (rmap f (m s).1, (m s).2) ∧ is_stream (m s).2 = false.

Lemma mem_sim_bind {A A' B B'} (f : A → A') (g : B → B')
    (m : source A) (m' : source A') (k : A → source B) (k' : A' → source B') :
  mem_sim f m m' → (∀ a, mem_sim g (k a) (k' (f a))) → mem_sim g (bind m k) (bind m' k').
Proof.
  intros H1 H2 s Hs. destruct (H1 s Hs) as [E Hs']. unfold bind. rewrite E.
  destruct (m s) as [[a|e] s']; cbn in *; [by apply H2 | done].
Qed.

Lemma mem_sim_ret {A B} (f : A → B) a : mem_sim f (ret a) (ret (f a)).
Proof. by intros s Hs. Qed.
Lemma mem_sim_id_ret {A} (a : A) : mem_sim id (ret a) (ret a).
Proof. by intros s Hs. Qed.
Lemma mem_sim_throw {A B} (f : A → B) e : mem_sim f (throw e) (throw e).
Proof. by intros s Hs. Qed.
Lemma mem_sim_ok_or {A} (o : option A) e : mem_sim id (ok_or o e) (ok_or o e).
Proof. by destruct o. Qed.
Lemma mem_sim_pos : mem_sim id get_pos get_pos.
Proof. by intros s Hs. Qed.
Lemma mem_sim_byte : mem_sim id src_byte src_byte.
Proof. intros [buf pos|] Hs; [| done]. cbn. by destruct (buf !! Z.to_nat pos). Qed.

Lemma mem_sim_source {B B'} (g : B → B') (k : Source → source B) (k' : Source → source B') :
  (∀ s, is_stream s = false → mem_sim g (k s) (k' s)) →
  mem_sim g (bind get_source k) (bind get_source k').
Proof. intros H s Hs. unfold bind, get_source. by apply H. Qed.

Lemma mem_sim_bytes n keep : mem_sim id (src_bytes n true) (src_bytes n keep).
Proof.
  intros [buf pos|] Hs; [| done]. cbn. destruct (checked_add pos n) as [z|]; [| done].
  by destruct (z <=? len buf).
Qed.

Create HintDb memsim.
#[local] Hint Resolve mem_sim_ret mem_sim_id_ret mem_sim_throw mem_sim_ok_or mem_sim_pos mem_sim_byte
  mem_sim_bytes : memsim.

(** Follow the program: bind by bind, branch by branch. *)
Ltac sim_step :=
  repeat match goal with
  | |- mem_sim _ (if ?b then _ else _) _ => destruct b
  | |- mem_sim _ (match ?x with _ => _ end) _ => destruct x
  | |- mem_sim _ (bind get_source _) _ => apply mem_sim_source; intros ? ->; cbn [andb]
  | |- mem_sim ?g (bind _ _) _ => eapply (mem_sim_bind id g); [solve [eauto with memsim] | intros ?; cbn [id]]
  | |- _ => solve [eauto with memsim]
  end.

Lemma mem_sim_varint w k sh a end_ : mem_sim id (varint_loop w k sh a end_) (varint_loop w k sh a end_).
Proof. revert sh a. induction k as [|k IH]; intros sh a; cbn [varint_loop]; sim_step. Qed.
#[local] Hint Resolve mem_sim_varint : memsim.

Lemma mem_sim_read_len end_ : mem_sim id (read_len end_) (read_len end_).
Proof. unfold read_len, varint_i32. sim_step. Qed.
Lemma mem_sim_read_bytes end_ n keep : mem_sim id (read_bytes end_ n true) (read_bytes end_ n keep).
Proof. unfold read_bytes. sim_step. Qed.
#[local] Hint Resolve mem_sim_read_len mem_sim_read_bytes : memsim.
Lemma mem_sim_read_field end_ keep : mem_sim id (read_field end_ true) (read_field end_ keep).
Proof. unfold read_field. sim_step. Qed.
#[local] Hint Resolve mem_sim_read_field : memsim.

Lemma mem_sim_headers n at_ end_ :
  mem_sim (λ _, []) (read_headers n at_ end_ true) (read_headers n at_ end_ false).
Proof.
  induction n as [|n IH]; cbn [read_headers]; sim_step.
  eapply (mem_sim_bind (λ _, []) (λ _, [])); [apply IH | intros hs].
  apply (mem_sim_ret (λ _, [])).
Qed.

(** A record without what a key-only read drops. *)
Definition strip (r : RecordRef) : RecordRef :=
  mk_record (offset_delta r) (timestamp_delta r) (rr_key r) (rr_value r) [] (rr_attributes r).

Lemma mem_sim_next_record es : mem_sim strip (next_record es true) (next_record es false).
Proof.
  unfold next_record, record_fields, varint_i32, varint_i64. sim_step.
  eapply (mem_sim_bind (λ _, []) strip); [apply mem_sim_headers | intros hs].
  sim_step. apply (mem_sim_ret strip).
Qed.

Lemma iter_items_keys es fuel s n d b :
  is_stream s = false →
  iter_items es fuel (mk_iter s n d b false) =
    (map (rmap strip)) <$> iter_items es fuel (mk_iter s n d b true).
Proof.
  revert s n b. induction fuel as [|fuel IH]; intros s n b Hs; [done |].
  destruct b; [done |]. cbn [iter_items iter_next done src remaining declared full].
  destruct s as [buf pos|]; [| done]. rewrite at_end_mem.
  destruct (len buf <=? pos); [destruct (n =? 0); cbn [negb]; [done |] | destruct (n =? 0)].
  1-2: destruct fuel; done.
  destruct (mem_sim_next_record es (Mem buf pos) Hs) as [-> Hs'].
  destruct (next_record es true (Mem buf pos)) as [[r|e] s']; cbn [fst snd rmap] in *.
  - rewrite (IH s' (n - 1) false Hs'). by destruct (iter_items es fuel _).
  - rewrite (IH s' (n - 1) true Hs'). by destruct (iter_items es fuel _).
Qed.

Lemma seq_items_strip items :
  seq_items (map (rmap strip) items) = rmap (map strip) (seq_items items).
Proof.
  induction items as [|[r|e] items IH]; [done | | done].
  cbn [map rmap seq_items rbind]. rewrite IH. by destruct (seq_items items).
Qed.

(** The items of a [KeyIter], collected. *)
Definition collect_keys (es : Z) (it : RecordIter) : option (result BatchError (list RecordKey)) :=
  rmap (map key_of) <$> iter_collect es it.

(** Over an uncompressed batch, reading keys only gives the keys and
    offsets a full read gives, and fails exactly when and how it fails. *)
Theorem stream_keys_agree es dec seen b :
  compression_type b = 0 →
  match stream_records dec seen b, stream_keys dec seen b with
  | Ok full, Ok keys =>
      collect_keys es keys = collect_keys es full
  | Err e, Err e' => e = e'
  | _, _ => False
  end.
Proof.
  intros Hc. unfold stream_records, stream_keys, streamed. rewrite Hc, Z.eqb_refl.
  unfold record_iter. destruct (record_count b <? 0); [done |].
  unfold collect_keys. rewrite !iter_collect_seq. cbn [remaining]. rewrite iter_items_keys by done.
  destruct (iter_items es _ _) as [items|]; [| done]. cbn. f_equal. rewrite seq_items_strip.
  destruct (seq_items items) as [rs|e]; [| done]. cbn. f_equal.
  by rewrite map_map.
Qed.

Lemma stream_keys_agree_witness :
  match stream_records (λ _ _, Err DecompressedTooLarge) 0 (mk_batch (sample_batch [x02; x00])),
        stream_keys (λ _ _, Err DecompressedTooLarge) 0 (mk_batch (sample_batch [x02; x00])) with
  | Ok full, Ok keys =>
      collect_keys 64 keys = collect_keys 64 full
  | Err e, Err e' => e = e'
  | _, _ => False
  end.
Proof. apply (stream_keys_agree 64). vm_compute. reflexivity. Defined.
