(* ===== verification/Build.v ===== *)
(** * codec/src/records.rs: building batches

    [build_batch_full] builds a data batch from records and
    [build_control_batch] a transaction marker; both lay out the same header
    and then patch the length and the checksum in ([seal]).  [crc32c] is the
    crate's checksum.  The functions return the bytes; [build_batch_full]
    returns [None] where the source panics. *)

From S2P Require Import Prelude Errors Records RecordIter.

Definition CONTROL_BATCH_FLAG : Z := 32.
Definition END_TXN_MARKER_VALUE : bytes := replicate 6 x00.

Record NewRecord : Type := mk_new {
  nr_key : option bytes;
  nr_value : option bytes;
  nr_timestamp : Z }.

(** The loop of [put_varint_i64]; a [u64] leaves it in at most ten rounds. *)
Fixpoint put_varint_loop (fuel : nat) (v : Z) : bytes :=
  match fuel with
  | O => []
  | S f =>
      if 128 <=? v
      then as_u8 (Z.lor (u8 (as_u8 v)) 128) :: put_varint_loop f (Z.shiftr v 7)
      else [as_u8 v]
  end.
(** The bytes [put_varint_i64] appends. *)
Definition put_varint_i64 (value : Z) : bytes :=
  let v := wrap_u 64 (Z.lxor (wrap_i 64 (Z.shiftl value 1)) (Z.shiftr value 63)) in
  put_varint_loop 10 v.
Definition put_varint_i32 (value : Z) : bytes := put_varint_i64 value.

(** A nullable key or value: [-1], or the length [as i32] and the bytes. *)
Definition put_field (o : option bytes) : bytes :=
  match o with
  | Some k => put_varint_i32 (wrap_i 32 (len k)) ++ k
  | None => put_varint_i32 (-1)
  end.

(** The header of a batch with zeroes for its length and checksum, then the
    body. *)
Definition unsealed (base_offset leader_epoch attributes last_delta base_ts max_ts
    producer_id producer_epoch base_sequence count : Z) (body : bytes) : bytes :=
  be_bytes 8 base_offset ++ be_bytes 4 0 ++ be_bytes 4 leader_epoch ++ be_bytes 1 MAGIC_V2 ++
  be_bytes 4 0 ++ be_bytes 2 attributes ++ be_bytes 4 last_delta ++ be_bytes 8 base_ts ++
  be_bytes 8 max_ts ++ be_bytes 8 producer_id ++ be_bytes 2 producer_epoch ++
  be_bytes 4 base_sequence ++ be_bytes 4 count ++ body.

Section Crc.

Variable crc32c : bytes → Z.

(** Patch the length, then the checksum of everything from the attributes. *)
Definition seal (b : bytes) : bytes :=
  let batch_length := wrap_i 32 (len b - Z.of_nat LENGTH_OFFSET - 4) in
  let b := splice LENGTH_OFFSET (be_bytes 4 batch_length) b in
  let crc := crc32c (drop ATTRIBUTES_OFFSET b) in
  splice CRC_OFFSET (be_bytes 4 crc) b.

Definition max_ts (base : Z) (l : list Z) : Z := foldr Z.max base l.

(** One record of [build_batch_full], and its length prefix before it. *)
Definition new_record_body (base_timestamp i : Z) (rec : NewRecord) : bytes :=
  as_u8 0 :: put_varint_i64 (wrap_i 64 (nr_timestamp rec - base_timestamp)) ++
    put_varint_i32 (wrap_i 32 i) ++ put_field (nr_key rec) ++ put_field (nr_value rec) ++
    put_varint_i32 0.
Definition put_new_record (base_timestamp i : Z) (rec : NewRecord) : bytes :=
  let one := new_record_body base_timestamp i rec in
  put_varint_i32 (wrap_i 32 (len one)) ++ one.

Fixpoint put_new_records (base_timestamp i : Z) (recs : list NewRecord) : bytes :=
  match recs with
  | [] => []
  | rec :: recs' => put_new_record base_timestamp i rec ++ put_new_records base_timestamp (i + 1) recs'
  end.

Definition build_batch_full (records : list NewRecord) (producer_id : Z) (transactional : bool)
    : option bytes :=
  match records with
  | [] => None
  | first :: _ =>
      let base_timestamp := nr_timestamp first in
      let max_timestamp := max_ts base_timestamp (nr_timestamp <$> records) in
      let body := put_new_records base_timestamp 0 records in
      let n := wrap_i 32 (Z.of_nat (length records)) in
      Some (seal (unsealed 0 (-1) (if transactional then TRANSACTIONAL_FLAG else 0)
        (wrap_i 32 (n - 1)) base_timestamp max_timestamp producer_id (-1) (-1) n body))
  end.

Definition build_batch_as (records : list NewRecord) (producer_id : Z) : option bytes :=
  build_batch_full records producer_id false.
Definition build_batch (records : list NewRecord) : option bytes := build_batch_as records (-1).

Definition build_control_batch (producer_id producer_epoch : Z) (commit : bool) : bytes :=
  let key := be_bytes 2 0 ++ be_bytes 2 (if commit then 1 else 0) in
  let one := as_u8 0 :: put_varint_i64 0 ++ put_varint_i32 0 ++
    put_varint_i32 (wrap_i 32 (len key)) ++ key ++
    put_varint_i32 (len END_TXN_MARKER_VALUE) ++ END_TXN_MARKER_VALUE ++ put_varint_i32 0 in
  let body := put_varint_i32 (wrap_i 32 (len one)) ++ one in
  seal (unsealed 0 (-1) (Z.lor TRANSACTIONAL_FLAG CONTROL_BATCH_FLAG) 0 0 0
    producer_id producer_epoch (-1) 1 body).

End Crc.

(** ** Varints *)

Lemma zigzag_bits v :
  is_i64 v → wrap_u 64 (Z.lxor (wrap_i 64 (Z.shiftl v 1)) (Z.shiftr v 63)) = zigzag v.
Proof.
  intros Hv. unfold zigzag. rewrite Z.shiftl_mul_pow2, Z.shiftr_div_pow2 by lia.
  change (2 ^ 1) with 2. change (2 ^ 63) with 9223372036854775808.
  assert (Hw : ∀ z, wrap_u 64 z = z mod 18446744073709551616) by done.
  assert (Hc : wrap_i 64 (v * 2) mod 18446744073709551616 = (v * 2) mod 18446744073709551616)
    by (apply (wrap_i_cong 64); lia).
  destruct (0 <=? v) eqn:E; [apply Z.leb_le in E | apply Z.leb_gt in E].
  - rewrite (Z.div_small v) by int_lia. rewrite Z.lxor_0_r, Hw, Hc, Z.mod_small by int_lia. lia.
  - assert (v / 9223372036854775808 = -1) as ->.
    { symmetry. apply (Z.div_unique v _ (-1) (v + 9223372036854775808)); int_lia. }
    rewrite Z.lxor_m1_r, Hw. unfold Z.lnot.
    set (w := wrap_i 64 (v * 2)) in *.
    rewrite <- Z.sub_1_r, Zminus_mod, <- Z.sub_0_l, (Zminus_mod 0), Hc.
    rewrite <- (Zminus_mod 0 (v * 2)), <- Zminus_mod.
    rewrite Z.mod_small by int_lia. lia.
Qed.

Lemma lor_128_byte m : 0 ≤ m < 256 → Z.lor m 128 = 128 + m mod 128.
Proof.
  intros Hm.
  assert (Hall : forallb (λ n, Z.lor (Z.of_nat n) 128 =? 128 + Z.of_nat n mod 128) (seq 0 256) = true)
    by (vm_compute; reflexivity).
  rewrite forallb_forall in Hall. specialize (Hall (Z.to_nat m)).
  rewrite Z2Nat.id in Hall by lia. apply Z.eqb_eq, Hall, in_seq. lia.
Qed.

Lemma lor_80_u8 v : as_u8 (Z.lor (u8 (as_u8 v)) 128) = as_u8 (128 + v mod 128).
Proof.
  rewrite u8_as_u8, lor_128_byte by (apply Z.mod_pos_bound; lia).
  by rewrite Z.mod_mod_divide by (exists 2; done).
Qed.

Lemma put_varint_loop_leb n v : put_varint_loop n v = leb128 n v.
Proof.
  revert v. induction n as [|n IH]; intros v; [done |]. cbn [put_varint_loop leb128].
  rewrite Z.leb_antisym. destruct (v <? 128); cbn [negb]; [done |].
  by rewrite lor_80_u8, shiftr_7, IH.
Qed.

Lemma put_varint_i64_venc v : is_i64 v → put_varint_i64 v = venc v.
Proof. intros. unfold put_varint_i64, venc. by rewrite zigzag_bits, put_varint_loop_leb. Qed.
Lemma put_varint_i32_venc v : is_i32 v → put_varint_i32 v = venc v.
Proof. intros. apply put_varint_i64_venc. int_lia. Qed.

Lemma put_field_enc o : opt_len o ≤ i32_max → put_field o = field_enc o.
Proof.
  destruct o as [b|]; cbn [opt_len put_field field_enc]; intros.
  - pose proof (len_nonneg b). rewrite wrap_i32_id by int_lia. by rewrite put_varint_i32_venc by int_lia.
  - by rewrite put_varint_i32_venc by int_lia.
Qed.

(** ** The layout of a sealed batch *)

Lemma splice_app off (a old v c : bytes) :
  off = length a → length v = length old → splice off v (a ++ old ++ c) = a ++ v ++ c.
Proof.
  intros -> Hv. unfold splice. rewrite take_app_length.
  replace (length a + length v)%nat with (length (a ++ old)) by (rewrite length_app; lia).
  by rewrite (app_assoc a old c), drop_app_length.
Qed.

Section Layout.

Context (crc32c : bytes → Z) (crc32c_u32 : ∀ b, is_u32 (crc32c b)).
Context (bo ep attr ld bt mt pid pe bseq cnt : Z) (body : bytes).
Context (Hattr : is_i16 attr) (Hbo : is_i64 bo) (Hep : is_i32 ep) (Hld : is_i32 ld)
  (Hbt : is_i64 bt) (Hmt : is_i64 mt) (Hpid : is_i64 pid) (Hpe : is_i16 pe)
  (Hbseq : is_i32 bseq) (Hcnt : is_i32 cnt) (Hbody : len body ≤ i32_max - 49).

Definition covered : bytes :=
  be_bytes 2 attr ++ be_bytes 4 ld ++ be_bytes 8 bt ++ be_bytes 8 mt ++ be_bytes 8 pid ++
  be_bytes 2 pe ++ be_bytes 4 bseq ++ be_bytes 4 cnt ++ body.

Let b : bytes := seal crc32c (unsealed bo ep attr ld bt mt pid pe bseq cnt body).

Lemma covered_len : len covered = 40 + len body.
Proof. unfold covered. rewrite !len_app, !len_be_bytes. lia. Qed.

Lemma seal_layout :
  b = be_bytes 8 bo ++ be_bytes 4 (9 + len covered) ++ be_bytes 4 ep ++ be_bytes 1 MAGIC_V2 ++
      be_bytes 4 (crc32c covered) ++ covered.
Proof.
  unfold b, seal, unsealed. fold covered.
  assert (Hl : len (be_bytes 8 bo ++ be_bytes 4 0 ++ be_bytes 4 ep ++ be_bytes 1 MAGIC_V2 ++
    be_bytes 4 0 ++ covered) = 21 + len covered) by (rewrite !len_app, !len_be_bytes; lia).
  rewrite Hl. pose proof covered_len. pose proof (len_nonneg body).
  change (Z.of_nat LENGTH_OFFSET) with 8.
  rewrite wrap_i32_id by int_lia. replace (21 + len covered - 8 - 4) with (9 + len covered) by lia.
  set (L := be_bytes 4 (9 + len covered)). assert (HL : length L = 4%nat) by apply be_bytes_length.
  rewrite (splice_app LENGTH_OFFSET) by (by rewrite !be_bytes_length).
  set (pre := be_bytes 8 bo ++ L ++ be_bytes 4 ep ++ be_bytes 1 MAGIC_V2).
  assert (Hpre : length pre = 17%nat)
    by (unfold pre; rewrite !length_app, !be_bytes_length, HL; done).
  replace (be_bytes 8 bo ++ L ++ be_bytes 4 ep ++ be_bytes 1 MAGIC_V2 ++ be_bytes 4 0 ++ covered)
    with (pre ++ be_bytes 4 0 ++ covered) by (unfold pre; by rewrite <- !app_assoc).
  assert (drop ATTRIBUTES_OFFSET (pre ++ be_bytes 4 0 ++ covered) = covered) as ->.
  { rewrite app_assoc. replace ATTRIBUTES_OFFSET with (length (pre ++ be_bytes 4 0)).
    - apply drop_app_length.
    - by rewrite length_app, be_bytes_length, Hpre. }
  rewrite (splice_app CRC_OFFSET) by (done || by rewrite !be_bytes_length).
  unfold pre. by rewrite <- !app_assoc.
Qed.

Lemma sealed_len : len b = 61 + len body.
Proof. rewrite seal_layout, !len_app, !len_be_bytes, covered_len. lia. Qed.

Lemma slice_be_skip k z o n (r : bytes) :
  (k ≤ o)%nat → slice o n (be_bytes k z ++ r) = slice (o - k) n r.
Proof. intros. rewrite slice_app_r; by rewrite be_bytes_length. Qed.
Lemma slice_be_here k z (r : bytes) : slice 0 k (be_bytes k z ++ r) = be_bytes k z.
Proof. apply slice_0_app, be_bytes_length. Qed.

(** Read a field of the layout: skip what comes before it, take it. *)
Ltac read_field_of_layout :=
  unfold read_i, read_u; cbn [rb_bytes]; rewrite seal_layout; unfold covered;
  repeat (rewrite slice_be_skip by off_lia);
  match goal with |- context [slice ?o ?n (be_bytes ?n ?z ++ ?r)] =>
    change o with 0%nat; rewrite (slice_be_here n z r) end.

Lemma read_back n z :
  (0 < n)%nat → wrap_i (8 * Z.of_nat n) z = z →
  wrap_i (8 * Z.of_nat n) (be_val (be_bytes n z)) = z.
Proof. intros ? Hz. by rewrite wrap_i_be_val_be_bytes. Qed.

Lemma read_back_1 z : is_i8 z → wrap_i (8 * Z.of_nat 1) (be_val (be_bytes 1 z)) = z.
Proof. intros. apply read_back; [lia | by apply wrap_i8_id]. Qed.
Lemma read_back_2 z : is_i16 z → wrap_i (8 * Z.of_nat 2) (be_val (be_bytes 2 z)) = z.
Proof. intros. apply read_back; [lia | by apply wrap_i16_id]. Qed.
Lemma read_back_4 z : is_i32 z → wrap_i (8 * Z.of_nat 4) (be_val (be_bytes 4 z)) = z.
Proof. intros. apply read_back; [lia | by apply wrap_i32_id]. Qed.
Lemma read_back_8 z : is_i64 z → wrap_i (8 * Z.of_nat 8) (be_val (be_bytes 8 z)) = z.
Proof. intros. apply read_back; [lia | by apply wrap_i64_id]. Qed.

Lemma sealed_fields :
  base_offset (mk_batch b) = bo ∧ batch_length (mk_batch b) = 9 + len covered ∧
  partition_leader_epoch (mk_batch b) = ep ∧ magic (mk_batch b) = MAGIC_V2 ∧
  stored_crc (mk_batch b) = crc32c covered.
Proof.
  pose proof covered_len. pose proof (len_nonneg body).
  unfold base_offset, batch_length, partition_leader_epoch, magic, stored_crc.
  repeat split; read_field_of_layout.
  - by apply read_back_8.
  - fold covered. apply read_back_4. int_lia.
  - by apply read_back_4.
  - fold covered. rewrite be_val_be_bytes. apply Z.mod_small. pose proof (crc32c_u32 covered).
    change (256 ^ Z.of_nat 4) with 4294967296. int_lia.
Qed.

Lemma sealed_covered_fields :
  attributes (mk_batch b) = attr ∧ last_offset_delta (mk_batch b) = ld ∧
  base_timestamp (mk_batch b) = bt ∧ max_timestamp (mk_batch b) = mt ∧
  producer_id (mk_batch b) = pid ∧ producer_epoch (mk_batch b) = pe ∧
  base_sequence (mk_batch b) = bseq ∧ record_count (mk_batch b) = cnt.
Proof.
  unfold attributes, last_offset_delta, base_timestamp, max_timestamp, producer_id, producer_epoch,
    base_sequence, record_count.
  split; [read_field_of_layout; by apply read_back_2 |].
  split; [read_field_of_layout; by apply read_back_4 |].
  split; [read_field_of_layout; by apply read_back_8 |].
  split; [read_field_of_layout; by apply read_back_8 |].
  split; [read_field_of_layout; by apply read_back_8 |].
  split; [read_field_of_layout; by apply read_back_2 |].
  split; read_field_of_layout; by apply read_back_4.
Qed.

Lemma sealed_drop o : o = RECORD_BATCH_OVERHEAD → drop o b = body.
Proof.
  intros ->. rewrite seal_layout. unfold covered. rewrite !app_assoc.
  set (pre := _ ++ be_bytes 4 cnt).
  replace RECORD_BATCH_OVERHEAD with (length pre); [apply drop_app_length |].
  unfold pre. by rewrite !length_app, !be_bytes_length.
Qed.

Lemma sealed_computed : computed_crc crc32c (mk_batch b) = crc32c covered.
Proof.
  unfold computed_crc. cbn [rb_bytes]. rewrite seal_layout, !app_assoc.
  set (pre := _ ++ be_bytes 4 (crc32c covered)).
  replace ATTRIBUTES_OFFSET with (length pre); [by rewrite drop_app_length |].
  unfold pre. by rewrite !length_app, !be_bytes_length.
Qed.

(** A sealed batch is one the broker accepts. *)
Lemma sealed_validated : 0 ≤ ld → 0 ≤ cnt → validated crc32c b = Ok (mk_batch b).
Proof.
  intros. destruct sealed_fields as (_ & F1 & _ & F2 & F3).
  destruct sealed_covered_fields as (_ & F4 & _ & _ & _ & _ & _ & F5).
  pose proof sealed_len as Hl. pose proof (len_nonneg body).
  apply validated_ok. split; [| by rewrite F3, sealed_computed].
  apply batch_new_ok. rewrite F1, F2, F4, F5, Hl, covered_len.
  repeat split; [| lia..]. unfold len in Hl. off_lia.
Qed.

(** An uncompressed sealed batch whose body is encoded records is read back as
    those records. *)
Lemma sealed_records es rs :
  Z.land attr COMPRESSION_MASK = 0 → cnt = Z.of_nat (length rs) → Forall record_ok rs →
  body = concat (record_enc <$> rs) →
  ∃ it, records (mk_batch b) = Ok it ∧ iter_collect es it = Some (Ok rs).
Proof.
  intros Ha Hc Hok Henc. destruct sealed_covered_fields as (Fa & _ & _ & _ & _ & _ & _ & Fc).
  unfold records, record_iter, compression_type. rewrite Fa, Ha, Fc, Hc.
  rewrite (proj2 (Z.ltb_ge (Z.of_nat (length rs)) 0)) by lia.
  eexists. split; [reflexivity |]. cbn [rb_bytes].
  pose proof sealed_len as Hlb. pose proof (len_nonneg body).
  apply iter_collect_records; [done | change (Z.of_nat RECORD_BATCH_OVERHEAD) with 61; lia | |].
  - rewrite <- Henc. by apply sealed_drop.
  - unfold usize_max. int_lia.
Qed.

End Layout.

(** ** The records of a built batch *)

Lemma unsealed_len bo ep attr ld bt mt pid pe bseq cnt body :
  len (unsealed bo ep attr ld bt mt pid pe bseq cnt body) = 61 + len body.
Proof. unfold unsealed. rewrite !len_app, !len_be_bytes. lia. Qed.

Lemma seal_len crc32c b : 21 ≤ len b → len (seal crc32c b) = len b.
Proof.
  intros H. unfold len in H. unfold seal, len. cbv zeta. f_equal.
  rewrite !splice_length; try done; rewrite ?splice_length; off_lia.
Qed.

(** What a consumer reads for the [i]-th record. *)
Definition stored_record (base i : Z) (rec : NewRecord) : RecordRef :=
  mk_record i (wrap_i 64 (nr_timestamp rec - base)) (nr_key rec) (nr_value rec) [] 0.

Fixpoint stored_records (base i : Z) (recs : list NewRecord) : list RecordRef :=
  match recs with
  | [] => []
  | rec :: recs' => stored_record base i rec :: stored_records base (i + 1) recs'
  end.

Lemma stored_records_length base i recs : length (stored_records base i recs) = length recs.
Proof. revert i. induction recs as [|r recs IH]; intros i; cbn; [done | by rewrite IH]. Qed.

Lemma put_field_len o : opt_len o ≤ len (put_field o).
Proof.
  destruct o as [b|]; cbn [opt_len put_field]; [| apply len_nonneg]. rewrite len_app.
  pose proof (len_nonneg (put_varint_i32 (wrap_i 32 (len b)))). lia.
Qed.

Lemma new_record_body_enc base i rec :
  is_i32 i → len (new_record_body base i rec) ≤ i32_max →
  new_record_body base i rec = record_body (stored_record base i rec).
Proof.
  intros Hi Hl. unfold new_record_body in *. rewrite len_cons, !len_app in Hl.
  pose proof (put_field_len (nr_key rec)). pose proof (put_field_len (nr_value rec)).
  pose proof (len_nonneg (put_varint_i64 (wrap_i 64 (nr_timestamp rec - base)))).
  pose proof (len_nonneg (put_varint_i32 (wrap_i 32 i))). pose proof (len_nonneg (put_varint_i32 0)).
  pose proof (len_nonneg (put_field (nr_key rec))). pose proof (len_nonneg (put_field (nr_value rec))).
  assert (E : put_varint_i32 0 = venc (Z.of_nat 0)) by (vm_compute; reflexivity).
  rewrite E. unfold record_body.
  cbn [stored_record rr_attributes timestamp_delta offset_delta rr_key rr_value rr_headers
    length fmap list_fmap concat].
  rewrite put_varint_i64_venc by apply wrap_i64_is.
  rewrite wrap_i32_id, put_varint_i32_venc by done. rewrite !put_field_enc by int_lia.
  by rewrite app_nil_r.
Qed.

Lemma put_new_record_enc base i rec :
  is_i32 i → len (put_new_record base i rec) ≤ i32_max →
  put_new_record base i rec = record_enc (stored_record base i rec) ∧
  record_ok (stored_record base i rec).
Proof.
  intros Hi. unfold put_new_record. cbv zeta. rewrite len_app. intros Hl.
  pose proof (len_nonneg (put_varint_i32 (wrap_i 32 (len (new_record_body base i rec))))).
  pose proof (len_nonneg (new_record_body base i rec)).
  assert (Hb : len (new_record_body base i rec) ≤ i32_max) by lia. clear Hl.
  rewrite wrap_i32_id, put_varint_i32_venc by int_lia.
  rewrite new_record_body_enc in * by done. split; [done |].
  split; [done |]. split; [apply wrap_i64_is |]. by split.
Qed.

Lemma put_new_record_pos base i rec : 0 < len (put_new_record base i rec).
Proof.
  unfold put_new_record, new_record_body. cbv zeta. rewrite len_app, len_cons.
  match goal with |- context [len ?a + (1 + len ?b)] =>
    pose proof (len_nonneg a); pose proof (len_nonneg b) end. lia.
Qed.

Lemma put_new_records_len base i recs : Z.of_nat (length recs) ≤ len (put_new_records base i recs).
Proof.
  revert i. induction recs as [|r recs IH]; intros i; cbn [put_new_records length]; [done |].
  rewrite len_app. pose proof (put_new_record_pos base i r). specialize (IH (i + 1)). lia.
Qed.

Lemma put_new_records_cons base i r recs :
  put_new_records base i (r :: recs) = put_new_record base i r ++ put_new_records base (i + 1) recs.
Proof. done. Qed.
Lemma stored_records_cons base i r recs :
  stored_records base i (r :: recs) = stored_record base i r :: stored_records base (i + 1) recs.
Proof. done. Qed.

Lemma put_new_records_enc base i recs :
  0 ≤ i → i + Z.of_nat (length recs) ≤ i32_max → len (put_new_records base i recs) ≤ i32_max →
  put_new_records base i recs = concat (record_enc <$> stored_records base i recs) ∧
  Forall record_ok (stored_records base i recs).
Proof.
  revert i. induction recs as [|r recs IH]; intros i Hi Hn Hl; [by split; [| constructor] |].
  rewrite put_new_records_cons, len_app in Hl. rewrite put_new_records_cons, stored_records_cons.
  rewrite fmap_cons, concat_cons. cbn [length] in Hn.
  pose proof (len_nonneg (put_new_record base i r)).
  pose proof (len_nonneg (put_new_records base (i + 1) recs)).
  destruct (IH (i + 1)) as [-> Hok]; [lia.. |].
  destruct (put_new_record_enc base i r) as [-> Hr]; [int_lia | lia |].
  split; [done | by constructor].
Qed.

Lemma max_ts_spec base l x : x ∈ l → x ≤ max_ts base l.
Proof. unfold max_ts. induction 1; cbn; lia. Qed.
Lemma max_ts_in base l : max_ts base l = base ∨ max_ts base l ∈ l.
Proof.
  unfold max_ts. induction l as [|x l IH]; cbn; [by left |].
  destruct (Z.max_spec x (foldr Z.max base l)) as [[_ ->]|[_ ->]]; set_solver.
Qed.

(** The newest timestamp is one of the batch's. *)
Lemma max_ts_new first recs :
  ∃ r, r ∈ first :: recs ∧
    max_ts (nr_timestamp first) (nr_timestamp <$> first :: recs) = nr_timestamp r.
Proof.
  destruct (max_ts_in (nr_timestamp first) (nr_timestamp <$> first :: recs)) as [E|E].
  - exists first. split; [constructor | done].
  - apply list_elem_of_fmap in E as (r & E & Hr). by exists r.
Qed.

(** The size of the batch bounds its body and its record count. *)
Lemma build_batch_full_inv crc32c first recs pid txn b :
  build_batch_full crc32c (first :: recs) pid txn = Some b → len b ≤ i32_max →
  let base := nr_timestamp first in
  let n := Z.of_nat (length (first :: recs)) in
  let body := put_new_records base 0 (first :: recs) in
  len body ≤ i32_max - 61 ∧ 1 ≤ n ≤ i32_max - 61 ∧
  b = seal crc32c (unsealed 0 (-1) (if txn then TRANSACTIONAL_FLAG else 0) (n - 1) base
    (max_ts base (nr_timestamp <$> first :: recs)) pid (-1) (-1) n body).
Proof.
  intros Hb Hl base n body. unfold build_batch_full in Hb. cbv zeta in Hb. apply (inj Some) in Hb.
  fold base n body in Hb. pose proof (len_nonneg body).
  assert (Hn : n ≤ len body) by apply put_new_records_len.
  assert (1 ≤ n) by (unfold n; cbn [length]; lia).
  assert (Hbody : len body ≤ i32_max - 61).
  { assert (len b = 61 + len body); [| lia]. rewrite <- Hb.
    rewrite seal_len; rewrite unsealed_len; lia. }
  split; [done |]. split; [lia |].
  by rewrite !wrap_i32_id in Hb by (rewrite ?wrap_i32_id; int_lia).
Qed.

(** Arithmetic from the range hypotheses, or one of them. *)
Ltac in_range := first [int_lia | assumption].

(** C26. A built batch is what a broker accepts and a consumer reads back: it
    validates, its header carries the extent, the timestamps, the producer
    and the transactional bit, and its records are exactly those it was built
    from, in order, at consecutive offsets. *)
Theorem build_batch_reads_back crc32c es first recs pid txn b :
  (∀ x, is_u32 (crc32c x)) → is_i64 pid →
  Forall (λ r, is_i64 (nr_timestamp r)) (first :: recs) →
  build_batch_full crc32c (first :: recs) pid txn = Some b → len b ≤ i32_max →
  validated crc32c b = Ok (mk_batch b) ∧
  record_count (mk_batch b) = 1 + Z.of_nat (length recs) ∧
  last_offset_delta (mk_batch b) = Z.of_nat (length recs) ∧
  base_timestamp (mk_batch b) = nr_timestamp first ∧
  (∀ r, r ∈ first :: recs → nr_timestamp r ≤ max_timestamp (mk_batch b)) ∧
  (∃ r, r ∈ first :: recs ∧ max_timestamp (mk_batch b) = nr_timestamp r) ∧
  producer_id (mk_batch b) = pid ∧ is_transactional (mk_batch b) = txn ∧
  is_control (mk_batch b) = false ∧
  ∃ it, records (mk_batch b) = Ok it ∧
    iter_collect es it = Some (Ok (stored_records (nr_timestamp first) 0 (first :: recs))).
Proof.
  intros Hcrc Hpid Hts Hb Hl.
  destruct (build_batch_full_inv _ _ _ _ _ _ Hb Hl) as (Hbody & Hn & ->). clear Hb Hl.
  assert (Hbase : is_i64 (nr_timestamp first)) by (by inversion Hts).
  destruct (max_ts_new first recs) as (r & Hr & Hmt).
  assert (Hmt64 : is_i64 (nr_timestamp r)) by (by eapply Forall_forall in Hts).
  set (base := nr_timestamp first) in *. set (n := Z.of_nat (length (first :: recs))) in *.
  set (body := put_new_records base 0 (first :: recs)) in *.
  destruct (put_new_records_enc base 0 (first :: recs)) as [Henc Hok];
    [done | fold n; int_lia | fold body; int_lia |]. fold body in Henc.
  set (attr := if txn then TRANSACTIONAL_FLAG else 0).
  assert (Hattr : is_i16 attr) by (by destruct txn).
  rewrite Hmt.
  destruct (sealed_covered_fields crc32c 0 (-1) attr (n - 1) base (nr_timestamp r) pid (-1) (-1) n body)
    as (Fa & Fl & Fbt & Fmt & Fp & _ & _ & Fc); [in_range.. |].
  rewrite Fc, Fl, Fbt, Fmt, Fp. unfold is_transactional, is_control. rewrite Fa.
  split; [apply sealed_validated; in_range |].
  split; [unfold n; cbn [length]; lia |]. split; [unfold n; cbn [length]; lia |].
  split; [done |]. split.
  { intros r' Hr'. rewrite <- Hmt. apply max_ts_spec. by apply list_elem_of_fmap_2. }
  split; [by exists r |]. split; [done |]. split; [by destruct txn |]. split; [by destruct txn |].
  apply sealed_records; try in_range; [by destruct txn |].
  by rewrite stored_records_length.
Qed.

(** ** Transaction markers *)

(** The key of an end-of-transaction marker: version 0, then the type. *)
Definition control_key (commit : bool) : bytes :=
  be_bytes 2 0 ++ be_bytes 2 (if commit then 1 else 0).
Definition control_record (commit : bool) : RecordRef :=
  mk_record 0 0 (Some (control_key commit)) (Some END_TXN_MARKER_VALUE) [] 0.

Lemma control_record_ok commit : record_ok (control_record commit).
Proof.
  split; [done |]. split; [done |]. split; [done |].
  apply Z.leb_le. destruct commit; vm_compute; reflexivity.
Qed.

(** A transaction marker is a batch the broker accepts, marked both
    transactional and control, from the producer it ends, and its one record
    says whether the transaction committed or aborted. *)
Theorem build_control_batch_marks crc32c es pid pe commit :
  (∀ x, is_u32 (crc32c x)) → is_i64 pid → is_i16 pe →
  let b := build_control_batch crc32c pid pe commit in
  validated crc32c b = Ok (mk_batch b) ∧
  is_control (mk_batch b) = true ∧ is_transactional (mk_batch b) = true ∧
  producer_id (mk_batch b) = pid ∧ producer_epoch (mk_batch b) = pe ∧
  record_count (mk_batch b) = 1 ∧ last_offset_delta (mk_batch b) = 0 ∧
  ∃ it, records (mk_batch b) = Ok it ∧
    iter_collect es it = Some (Ok [control_record commit]).
Proof.
  intros Hcrc Hpid Hpe b.
  set (body := record_enc (control_record commit)).
  assert (Hb : b = seal crc32c (unsealed 0 (-1) 48 0 0 0 pid pe (-1) 1 body)).
  { unfold b, build_control_batch, body. destruct commit; reflexivity. }
  assert (Hbody : len body ≤ i32_max - 49).
  { apply Z.leb_le. unfold body. destruct commit; vm_compute; reflexivity. }
  clearbody b. subst b.
  destruct (sealed_covered_fields crc32c 0 (-1) 48 0 0 0 pid pe (-1) 1 body)
    as (Fa & Fl & Fbt & Fmt & Fp & Fe & _ & Fc); [in_range.. |].
  rewrite Fp, Fe, Fc, Fl. unfold is_control, is_transactional. rewrite Fa.
  split; [apply sealed_validated; in_range |].
  do 6 (split; [done |]).
  apply sealed_records; try in_range; try done.
  constructor; [apply control_record_ok | constructor].
Qed.

Lemma sum_crc_u32 x : is_u32 (sum_crc x).
Proof.
  unfold sum_crc, wrap_u, is_u32. change (2 ^ 32) with 4294967296.
  pose proof (Z.mod_pos_bound (foldr (λ b n, u8 b + n) 0 x) 4294967296). lia.
Qed.

Lemma build_batch_reads_back_witness :
  let first := mk_new (Some [x6b]) (Some [x76; x31]) 1700000000005 in
  let recs := [mk_new None None 1700000000001] in
  let b := default [] (build_batch_full sum_crc (first :: recs) 9 true) in
  validated sum_crc b = Ok (mk_batch b) ∧
  record_count (mk_batch b) = 1 + Z.of_nat (length recs) ∧
  last_offset_delta (mk_batch b) = Z.of_nat (length recs) ∧
  base_timestamp (mk_batch b) = nr_timestamp first ∧
  (∀ r, r ∈ first :: recs → nr_timestamp r ≤ max_timestamp (mk_batch b)) ∧
  (∃ r, r ∈ first :: recs ∧ max_timestamp (mk_batch b) = nr_timestamp r) ∧
  producer_id (mk_batch b) = 9 ∧ is_transactional (mk_batch b) = true ∧
  is_control (mk_batch b) = false ∧
  ∃ it, records (mk_batch b) = Ok it ∧
    iter_collect 64 it = Some (Ok (stored_records (nr_timestamp first) 0 (first :: recs))).
Proof.
  cbv zeta. apply (build_batch_reads_back sum_crc 64).
  - apply sum_crc_u32.
  - int_lia.
  - repeat constructor; cbn; lia.
  - vm_compute. reflexivity.
  - apply Z.leb_le. vm_compute. reflexivity.
Defined.

Lemma build_control_batch_marks_witness :
  let b := build_control_batch sum_crc 9 3 true in
  validated sum_crc b = Ok (mk_batch b) ∧
  is_control (mk_batch b) = true ∧ is_transactional (mk_batch b) = true ∧
  producer_id (mk_batch b) = 9 ∧ producer_epoch (mk_batch b) = 3 ∧
  record_count (mk_batch b) = 1 ∧ last_offset_delta (mk_batch b) = 0 ∧
  ∃ it, records (mk_batch b) = Ok it ∧
    iter_collect 64 it = Some (Ok [control_record true]).
Proof.
  apply (build_control_batch_marks sum_crc 64); [apply sum_crc_u32 | int_lia | int_lia].
Defined.

(** Every transaction marker has the shape of a batch. *)
Lemma control_batch_new crc32c pid pe c :
  batch_new (build_control_batch crc32c pid pe c) = Ok (mk_batch (build_control_batch crc32c pid pe c)).
Proof.
  set (b := build_control_batch crc32c pid pe c).
  assert (H : len b = 78 ∧ magic (mk_batch b) = 2 ∧ batch_length (mk_batch b) = 66 ∧
    last_offset_delta (mk_batch b) = 0 ∧ record_count (mk_batch b) = 1)
    by (unfold b; destruct c; vm_compute; repeat split).
  destruct H as (Hl & Hm & Hb & Hd & Hc). unfold batch_new. by rewrite Hl, Hm, Hb, Hd, Hc.
Qed.
