(* ===== verification/Compaction.v ===== *)
(** * codec/src/compaction.rs: which records survive, and the rewritten batch

    [survivors_until] decides over a whole log in memory; [OffsetMap] and
    [clean_batch] do it batch by batch with fingerprints instead of keys;
    [rebuild_batch] writes what is left of a batch.  A [HashMap] or [HashSet]
    is a [gmap] or [gset].

    [fingerprint] stands for the two randomly seeded hashers of an
    [OffsetMap]; [entry_size] and [kept_size] for [size_of] of a header and of
    a [KeptRecord]; [open_decoder] for the decompressors. *)

From stdpp Require Import gmap strings.
From S2P Require Import Prelude Errors Records RecordIter Build.

#[export] Program Instance byte_countable : Countable byte :=
  inj_countable Byte.to_N Byte.of_N _.
Next Obligation. intros b. apply Byte.of_to_N. Qed.

Record KeptRecord : Type := mk_kept {
  kr_offset : Z;
  kr_timestamp : Z;
  kr_key : option bytes;
  kr_value : option bytes;
  kr_headers : list (bytes * option bytes);
  kr_attributes : Z }.

Record Survivors : Type := mk_survivors {
  sv_offsets : gset Z;
  sv_control_batches : list Z;
  sv_keys : Z }.

Definition keeps (s : Survivors) (offset : Z) : bool := bool_decide (offset ∈ sv_offsets s).
Definition keeps_control_batch (s : Survivors) (base_offset : Z) : bool :=
  bool_decide (base_offset ∈ sv_control_batches s).

Record OffsetMap : Type := mk_map { latest : gmap Z Z; end_ : Z }.
Definition map_default : OffsetMap := mk_map ∅ (-1).

(** [offset] and [timestamp] of a record: [i64] sums, which wrap. *)
Definition record_offset (b : RecordBatch) (r : RecordRef) : Z :=
  wrap_i 64 (base_offset b + offset_delta r).
Definition record_timestamp (b : RecordBatch) (r : RecordRef) : Z :=
  wrap_i 64 (base_timestamp b + timestamp_delta r).

Section Decoders.

Variable entry_size kept_size : Z.
Variable open_decoder : Z → bytes → result BatchError (bytes * option BatchError).

(** The items of a record iterator, in order: what a [for] loop sees.  Its
    fuel is enough ([iter_items_total]), so the default is never taken. *)
Definition items (it : RecordIter) : list (result BatchError RecordRef) :=
  default [] (iter_items entry_size (Z.to_nat (remaining it) + 2) it).

(** *** [survivors_until] *)

Abbreviation latest_t := (gmap bytes (Z * bool * Z)) (only parsing).

(** [latest.entry(key).and_modify(..).or_insert(..)]. *)
Definition note_latest (key : bytes) (e : Z * bool * Z) (m : latest_t) : latest_t :=
  match m !! key with
  | Some old => if old.1.1 <? e.1.1 then <[key := e]> m else m
  | None => <[key := e]> m
  end.

Definition scan_record (b : RecordBatch) (r : RecordRef) (st : latest_t * gset Z)
    : latest_t * gset Z :=
  let '(latest, unkeyed) := st in
  let offset := record_offset b r in
  match rr_key r with
  | None => (latest, {[offset]} ∪ unkeyed)
  | Some key =>
      (note_latest key (offset, bool_decide (rr_value r = None), record_timestamp b r) latest,
       unkeyed)
  end.

Fixpoint scan_items (b : RecordBatch) (l : list (result BatchError RecordRef))
    (st : latest_t * gset Z) : result BatchError (latest_t * gset Z) :=
  match l with
  | [] => Ok st
  | Err e :: _ => Err e
  | Ok r :: l' => scan_items b l' (scan_record b r st)
  end.

Fixpoint scan_batches (batches : list RecordBatch) (st : latest_t * gset Z) (control : list Z)
    : result BatchError ((latest_t * gset Z) * list Z) :=
  match batches with
  | [] => Ok (st, control)
  | b :: batches' =>
      if is_control b then scan_batches batches' st (control ++ [base_offset b])
      else
        let? it := records_decompressed open_decoder b in
        let? st' := scan_items b (items it) st in
        scan_batches batches' st' control
  end.

(** The filter on [latest.values()]. *)
Definition outlives (cutoff : Z) (e : Z * bool * Z) : bool :=
  negb (e.1.2 && (e.2 <? cutoff)).
Definition survivor_offsets (cutoff : Z) (latest : latest_t) (unkeyed : gset Z) : gset Z :=
  list_to_set (map (λ p, p.2.1.1) (filter (λ p, outlives cutoff p.2 = true) (map_to_list latest)))
    ∪ unkeyed.

Definition survivors_until (batches : list RecordBatch) (tombstone_cutoff : Z)
    : result BatchError Survivors :=
  let? r := scan_batches batches (∅, ∅) [] in
  let '((latest, unkeyed), control) := r in
  Ok (mk_survivors (survivor_offsets tombstone_cutoff latest unkeyed) control
        (Z.of_nat (size latest))).

Definition survivors (batches : list RecordBatch) : result BatchError Survivors :=
  survivors_until batches i64_min.

(** *** [OffsetMap] *)

Section Fingerprint.

Variable fingerprint : bytes → Z.

(** The larger of the offset there and this one, or insert. *)
Definition note_max (fp offset : Z) (m : gmap Z Z) : gmap Z Z :=
  match m !! fp with
  | Some old => <[fp := Z.max old offset]> m
  | None => <[fp := offset]> m
  end.

(** The loop of [add_batch] over the keys: [None] is [return Ok(false)]. *)
Fixpoint find_keys (b : RecordBatch) (m : OffsetMap) (max_keys : Z)
    (l : list (result BatchError RecordRef)) (found : gmap Z Z) (new : Z)
    : result BatchError (option (gmap Z Z)) :=
  match l with
  | [] => Ok (Some found)
  | Err e :: _ => Err e
  | Ok r :: l' =>
      match rr_key r with
      | None => find_keys b m max_keys l' found new
      | Some key =>
          let fp := fingerprint key in
          let offset := record_offset b r in
          let new := match found !! fp with
                     | Some _ => new
                     | None => new + (if decide (is_Some (latest m !! fp)) then 0 else 1)
                     end in
          let found := note_max fp offset found in
          if bool_decide (latest m ≠ ∅) && (max_keys <? Z.of_nat (size (latest m)) + new)
          then Ok None
          else find_keys b m max_keys l' found new
      end
  end.

Definition merge_found (found m : gmap Z Z) : gmap Z Z :=
  map_fold note_max m found.

(** [OffsetMap::add_batch]: what it returns, and the map after it.  [KeyIter]
    yields the key and offset of what a key-only [RecordIter] reads. *)
Definition add_batch (seen : nat) (b : RecordBatch) (max_keys : Z) (m : OffsetMap)
    : result BatchError bool * OffsetMap :=
  if is_control b then (Ok true, mk_map (latest m) (Z.max (end_ m) (last_offset b)))
  else
    match stream_keys open_decoder seen b with
    | Err e => (Err e, m)
    | Ok it =>
        match find_keys b m max_keys (items it) ∅ 0 with
        | Err e => (Err e, m)
        | Ok None => (Ok false, m)
        | Ok (Some found) =>
            (Ok true, mk_map (merge_found found (latest m)) (Z.max (end_ m) (last_offset b)))
        end
    end.

Definition superseded (m : OffsetMap) (key : bytes) (offset : Z) : bool :=
  match latest m !! fingerprint key with
  | Some l => offset <? l
  | None => false
  end.

(** *** [clean_batch] *)

(** What a survivor of a compressed batch holds in memory. *)
Definition kept_cost (r : RecordRef) : Z :=
  kept_size + (opt_len (rr_key r) + opt_len (rr_value r)) +
  foldr (λ h n, entry_size + len h.1 + opt_len h.2 + n) 0 (rr_headers r).

Definition goes (b : RecordBatch) (m : OffsetMap) (tombstone_goes : Z → bool) (r : RecordRef)
    : bool :=
  let offset := record_offset b r in
  (offset <=? end_ m) &&
  match rr_key r with
  | None => false
  | Some key =>
      superseded m key offset || (bool_decide (rr_value r = None) && tombstone_goes offset)
  end.

Definition kept_of (b : RecordBatch) (r : RecordRef) : KeptRecord :=
  mk_kept (record_offset b r) (record_timestamp b r) (rr_key r) (rr_value r) (rr_headers r)
    (rr_attributes r).

(** The loop: [kept] is in reverse. *)
Fixpoint clean_items (b : RecordBatch) (m : OffsetMap) (tombstone_goes : Z → bool)
    (compressed : bool) (l : list (result BatchError RecordRef)) (kept : list KeptRecord)
    (kept_bytes : Z) (dropped : bool) : result BatchError (option (list KeptRecord)) :=
  match l with
  | [] => Ok (if dropped then Some (rev kept) else None)
  | Err DecompressedTooLarge :: _ => Ok None
  | Err e :: _ => Err e
  | Ok r :: l' =>
      if goes b m tombstone_goes r
      then clean_items b m tombstone_goes compressed l' kept kept_bytes true
      else
        let kept_bytes := if compressed then kept_bytes + kept_cost r else kept_bytes in
        if compressed && (MAX_DECOMPRESSED_BYTES <? kept_bytes) then Ok None
        else clean_items b m tombstone_goes compressed l' (kept_of b r :: kept) kept_bytes dropped
  end.

Definition clean_batch (seen : nat) (b : RecordBatch) (m : OffsetMap) (tombstone_goes : Z → bool)
    : result BatchError (option (list KeptRecord)) :=
  if is_control b || (end_ m <? base_offset b) then Ok None
  else
    let compressed := negb (compression_type b =? 0) in
    match stream_records open_decoder seen b with
    | Err DecompressedTooLarge => Ok None
    | Err e => Err e
    | Ok it => clean_items b m tombstone_goes compressed (items it) [] 0 false
    end.

End Fingerprint.
End Decoders.

(** *** [rebuild_batch] *)

Definition put_header (h : bytes * option bytes) : bytes :=
  put_varint_i32 (wrap_i 32 (len h.1)) ++ h.1 ++ put_field h.2.

(** One record of [rebuild_batch], and its length prefix before it. *)
Definition kept_body (base_offset base_timestamp : Z) (rec : KeptRecord) : bytes :=
  as_u8 (kr_attributes rec) :: put_varint_i64 (wrap_i 64 (kr_timestamp rec - base_timestamp)) ++
    put_varint_i32 (wrap_i 32 (kr_offset rec - base_offset)) ++
    put_field (kr_key rec) ++ put_field (kr_value rec) ++
    put_varint_i32 (wrap_i 32 (Z.of_nat (length (kr_headers rec)))) ++
    concat (put_header <$> kr_headers rec).
Definition put_kept (base_offset base_timestamp : Z) (rec : KeptRecord) : bytes :=
  let one := kept_body base_offset base_timestamp rec in
  put_varint_i32 (wrap_i 32 (len one)) ++ one.

Definition rebuild_batch (crc32c : bytes → Z) (source : RecordBatch) (kept : list KeptRecord)
    : option bytes :=
  match kept with
  | [] => None
  | first :: _ =>
      let bo := kr_offset first in
      let last_delta := wrap_i 32 (kr_offset (default first (last kept)) - bo) in
      let bt := kr_timestamp first in
      let mt := max_ts bt (kr_timestamp <$> kept) in
      let body := concat (put_kept bo bt <$> kept) in
      let attrs := Z.land (attributes source) (Z.lnot 7) in
      Some (seal crc32c (unsealed bo (partition_leader_epoch source) attrs last_delta bt mt
        (producer_id source) (producer_epoch source) (base_sequence source)
        (wrap_i 32 (Z.of_nat (length kept))) body))
  end.

(** ** The offset map refines "the latest offset of each key" *)

(** [o] is the largest offset that satisfies [P], if there is one. *)
Definition is_max (P : Z → Prop) (o : option Z) : Prop :=
  match o with
  | Some x => P x ∧ ∀ y, P y → y ≤ x
  | None => ∀ y, ¬ P y
  end.

Lemma is_max_ext P Q o : (∀ y, P y ↔ Q y) → is_max P o → is_max Q o.
Proof. intros H. destruct o; cbn; naive_solver. Qed.

Lemma note_max_lookup fp off m fp' :
  note_max fp off m !! fp' =
    if decide (fp' = fp) then Some (match m !! fp with Some o => Z.max o off | None => off end)
    else m !! fp'.
Proof.
  unfold note_max. case_decide as E; destruct (m !! fp) as [o|] eqn:Em; subst;
    by rewrite ?lookup_insert_eq, ?lookup_insert_ne.
Qed.

Lemma is_max_note P m fp off :
  (∀ f, is_max (P f) (m !! f)) →
  ∀ f, is_max (λ y, P f y ∨ f = fp ∧ y = off) (note_max fp off m !! f).
Proof.
  intros H f. rewrite note_max_lookup. specialize (H f). case_decide as E.
  - subst f. cbn. destruct (m !! fp) as [o|]; cbn in H.
    + destruct H as [Ho Hm]. split.
      * destruct (Z.max_spec o off) as [[_ ->]|[_ ->]]; [by right | by left].
      * intros y [Hy|[_ ->]]; [specialize (Hm y Hy); lia | lia].
    + split; [by right |]. intros y [Hy|[_ ->]]; [by destruct (H y) | lia].
  - eapply is_max_ext; [| apply H]. intros y. split; [by left | by intros [?|[? _]]].
Qed.

(** Merging takes the pointwise larger offset. *)
Lemma merge_found_max P Q found m :
  (∀ f, is_max (P f) (found !! f)) → (∀ f, is_max (Q f) (m !! f)) →
  ∀ f, is_max (λ y, Q f y ∨ P f y) (merge_found found m !! f).
Proof.
  intros HP HQ.
  assert (Hm : ∀ f, merge_found found m !! f =
    match found !! f, m !! f with
    | Some a, Some b => Some (Z.max b a) | Some a, None => Some a | None, o => o end).
  { clear HP HQ. unfold merge_found.
    apply (map_fold_weak_ind (λ r fd, ∀ f, r !! f = match fd !! f, m !! f with
      | Some a, Some b => Some (Z.max b a) | Some a, None => Some a | None, o => o end)); [done |].
    intros k x fd r Hk IH f. rewrite note_max_lookup. case_decide as E.
    - subst f. rewrite lookup_insert_eq, IH, Hk. by destruct (m !! k).
    - by rewrite lookup_insert_ne, IH by done. }
  intros f. rewrite Hm. specialize (HP f). specialize (HQ f).
  destruct (found !! f) as [a|], (m !! f) as [b|]; cbn in *.
  - destruct HP as [HPa HP], HQ as [HQb HQ]. split.
    + destruct (Z.max_spec b a) as [[_ ->]|[_ ->]]; [by right | by left].
    + intros y [Hy|Hy]; [specialize (HQ y Hy) | specialize (HP y Hy)]; lia.
  - destruct HP as [HPa HP]. split; [by right |]. intros y [Hy|Hy]; [by destruct (HQ y) | by apply HP].
  - destruct HQ as [HQb HQ]. split; [by left |]. intros y [Hy|Hy]; [by apply HQ | by destruct (HP y)].
  - intros y [Hy|Hy]; [by destruct (HQ y) | by destruct (HP y)].
Qed.

Section Tracking.

Context (entry_size kept_size : Z)
  (open_decoder : Z → bytes → result BatchError (bytes * option BatchError))
  (fingerprint : bytes → Z) (seen : nat).

(** A keyed record among the items. *)
Definition keyed (b : RecordBatch) (l : list (result BatchError RecordRef)) (key : bytes) (off : Z)
    : Prop :=
  ∃ r, Ok r ∈ l ∧ rr_key r = Some key ∧ record_offset b r = off.

(** A data batch of the log holds a record of [key] at [off]. *)
Definition key_at (b : RecordBatch) (key : bytes) (off : Z) : Prop :=
  is_control b = false ∧ ∃ it, stream_keys open_decoder seen b = Ok it ∧
    keyed b (items entry_size it) key off.

(** The map is exactly what the batches [log] say. *)
Definition tracks (log : list RecordBatch) (m : OffsetMap) : Prop :=
  ∀ fp, is_max (λ off, ∃ b key, b ∈ log ∧ fingerprint key = fp ∧ key_at b key off)
      (latest m !! fp).

Lemma find_keys_max b m max_keys l found new found' P :
  find_keys fingerprint b m max_keys l found new = Ok (Some found') →
  (∀ f, is_max (P f) (found !! f)) →
  ∀ f, is_max (λ y, P f y ∨ ∃ key, fingerprint key = f ∧ keyed b l key y) (found' !! f).
Proof.
  revert found new P. induction l as [|[r|e] l IH]; intros found new P Hf HP f; cbn in Hf; [| | done].
  - simplify_eq. eapply is_max_ext; [| apply HP]. intros y. split; [by left |].
    intros [?|(k & _ & r & Hr & _)]; [done |]. by apply elem_of_nil in Hr.
  - destruct (rr_key r) as [key|] eqn:Ek.
    + case_match; [done |]. eapply IH in Hf; [| apply is_max_note, HP]. eapply is_max_ext; [| apply Hf].
      intros y. unfold keyed. setoid_rewrite elem_of_cons. naive_solver.
    + eapply IH in Hf; [| apply HP]. eapply is_max_ext; [| apply Hf].
      intros y. unfold keyed. setoid_rewrite elem_of_cons. naive_solver.
Qed.

Lemma tracks_default : tracks [] map_default.
Proof.
  intros fp. cbn [latest map_default]. rewrite lookup_empty.
  intros y (b & _ & Hb & _). by apply elem_of_nil in Hb.
Qed.

Lemma is_max_empty f : is_max (λ _, False) ((∅ : gmap Z Z) !! f).
Proof. rewrite lookup_empty. intros y H. exact H. Qed.

Lemma log_snoc b log fp off :
  (∃ b' key, b' ∈ log ++ [b] ∧ fingerprint key = fp ∧ key_at b' key off) ↔
  (∃ b' key, b' ∈ log ∧ fingerprint key = fp ∧ key_at b' key off) ∨
  (∃ key, fingerprint key = fp ∧ key_at b key off).
Proof.
  split.
  - intros (b' & key & Hb & Hf & Hk). apply elem_of_app in Hb as [Hb|Hb]; [left; eauto |].
    apply list_elem_of_singleton in Hb as ->. right; eauto.
  - intros [(b' & key & Hb & Hf & Hk)|(key & Hf & Hk)].
    + exists b', key. split; [apply elem_of_app; by left | done].
    + exists b, key. split; [apply elem_of_app; right; constructor | done].
Qed.

(** A batch that is added is added whole: the map stays "fingerprint to latest
    offset" of exactly the batches accepted, and its end moves past the batch.
    A batch refused for room, and one that fails to decode, leaves it. *)
Lemma add_batch_tracks b max_keys log m :
  tracks log m →
  match add_batch entry_size open_decoder fingerprint seen b max_keys m with
  | (Ok true, m') => tracks (log ++ [b]) m' ∧ end_ m' = Z.max (end_ m) (last_offset b)
  | (Ok false, m') | (Err _, m') => m' = m
  end.
Proof.
  intros Hm. unfold add_batch. destruct (is_control b) eqn:Ec.
  - split; [| done]. intros fp. eapply is_max_ext; [| apply Hm].
    intros y. rewrite log_snoc. split; [by left |].
    intros [?|(key & _ & Hk & _)]; [done |]. by rewrite Ec in Hk.
  - destruct (stream_keys open_decoder seen b) as [it|e] eqn:Es; [| done].
    destruct (find_keys _ _ _ _ _ _ _) as [[found|]|e] eqn:Ef; [| done..].
    split; [| done]. intros fp. cbn [latest].
    pose proof (find_keys_max _ _ _ _ _ _ _ (λ _ _, False) Ef is_max_empty) as Hfound.
    eapply is_max_ext; [| apply (merge_found_max _ _ _ _ Hfound Hm)].
    intros y. rewrite log_snoc. unfold key_at at 3.
    split; (intros [Hold|Hnew]; [by left | right]).
    + destruct Hnew as [[]|(key & Hfp & Hk)]. exists key. eauto.
    + right. destruct Hnew as (key & Hfp & _ & it' & Hit & Hk). rewrite Es in Hit.
      injection Hit as <-. by exists key.
Qed.

(** ** What cleaning one batch drops *)

Lemma clean_items_some b m tg comp l kept kb dropped res :
  clean_items entry_size kept_size fingerprint b m tg comp l kept kb dropped = Ok (Some res) →
  ∃ rs, l = Ok <$> rs ∧
    res = rev kept ++ (kept_of b <$> filter (λ r, goes fingerprint b m tg r = false) rs) ∧
    (dropped = true ∨ ∃ r, r ∈ rs ∧ goes fingerprint b m tg r = true).
Proof.
  revert kept kb dropped. induction l as [|[r|e] l IH]; intros kept kb dropped H; cbn in H.
  - destruct dropped; simplify_eq. exists []. cbn. rewrite app_nil_r. repeat split. by left.
  - destruct (goes fingerprint b m tg r) eqn:Eg.
    + apply IH in H as (rs & -> & -> & _). exists (r :: rs). rewrite filter_cons_False by (by rewrite Eg).
      repeat split. right. exists r. split; [constructor | done].
    + case_match; [done |]. apply IH in H as (rs & -> & -> & Hd). exists (r :: rs).
      rewrite filter_cons_True by done. cbn [rev fmap list_fmap]. rewrite <- app_assoc.
      repeat split. destruct Hd as [?|(r' & ? & ?)]; [by left | right; exists r'; split; [by constructor | done]].
  - by destruct e.
Qed.

(** Without a memory limit to respect, nothing but the records decides. *)
Lemma clean_items_plain b m tg rs kept kb dropped :
  clean_items entry_size kept_size fingerprint b m tg false (Ok <$> rs) kept kb dropped =
    Ok (if dropped || existsb (goes fingerprint b m tg) rs
        then Some (rev kept ++ (kept_of b <$> filter (λ r, goes fingerprint b m tg r = false) rs))
        else None).
Proof.
  revert kept dropped. induction rs as [|r rs IH]; intros kept dropped.
  - cbn. rewrite app_nil_r, orb_false_r. by destruct dropped.
  - cbn [fmap list_fmap clean_items existsb andb]. destruct (goes fingerprint b m tg r) eqn:Eg.
    + rewrite IH, filter_cons_False by (by rewrite Eg). cbn. by rewrite orb_true_r.
    + rewrite IH, filter_cons_True by done. cbn [rev fmap list_fmap orb]. by rewrite <- app_assoc.
Qed.

(** [key] is the key of a record of the log, of a record of the batch. *)
Definition log_key (log : list RecordBatch) (key : bytes) : Prop :=
  ∃ b off, b ∈ log ∧ key_at b key off.
Definition batch_key (b : RecordBatch) (key : bytes) : Prop :=
  ∃ it r, stream_records open_decoder seen b = Ok it ∧ Ok r ∈ items entry_size it ∧
    rr_key r = Some key.

(** No two keys at hand share a fingerprint. *)
Definition no_collision (log : list RecordBatch) (b : RecordBatch) : Prop :=
  ∀ key key', batch_key b key → log_key log key' → fingerprint key = fingerprint key' → key = key'.

Lemma superseded_iff log m b key off :
  tracks log m → no_collision log b → batch_key b key →
  superseded fingerprint m key off = true ↔ ∃ b' off', b' ∈ log ∧ key_at b' key off' ∧ off < off'.
Proof.
  intros Hm Hinj Hk. unfold superseded. specialize (Hm (fingerprint key)).
  destruct (latest m !! fingerprint key) as [x|]; cbn in Hm.
  - rewrite Z.ltb_lt. destruct Hm as [(b' & key' & Hb & Hf & Ha) Hmax]. split.
    + intros. assert (key = key') as -> by (apply Hinj; [done | by exists b', x | done]). eauto.
    + intros (b'' & off' & Hb'' & Hk' & Hlt). assert (off' ≤ x) by (apply Hmax; eauto 6). lia.
  - split; [done |]. intros (b' & off' & Hb & Hk' & _). destruct (Hm off'). eauto 6.
Qed.

(** C27. Compaction drops nothing it must keep.  What [clean_batch] returns for
    a batch is its records in order less those that go, and a record goes
    exactly when the map covers it and either the log holds a later record of
    the same key, or it is a tombstone whose time has come: records without a
    key, records past the map, and the latest record of a key all stay. *)
Theorem clean_batch_exact log m b tg kept :
  tracks log m → no_collision log b →
  clean_batch entry_size kept_size open_decoder fingerprint seen b m tg = Ok (Some kept) →
  ∃ it rs, stream_records open_decoder seen b = Ok it ∧ items entry_size it = Ok <$> rs ∧
    kept = kept_of b <$> filter (λ r, goes fingerprint b m tg r = false) rs ∧
    (∃ r, r ∈ rs ∧ goes fingerprint b m tg r = true) ∧
    ∀ r, r ∈ rs → goes fingerprint b m tg r = true ↔
      record_offset b r ≤ end_ m ∧ ∃ key, rr_key r = Some key ∧
        ((∃ b' off, b' ∈ log ∧ key_at b' key off ∧ record_offset b r < off) ∨
         rr_value r = None ∧ tg (record_offset b r) = true).
Proof.
  intros Ht Hinj Hc. unfold clean_batch in Hc. case_match; [done |].
  destruct (stream_records open_decoder seen b) as [it|e] eqn:Es; [| by destruct e].
  apply clean_items_some in Hc as (rs & Hit & -> & [?|Hd]); [done |].
  exists it, rs. split; [done |]. split; [done |]. split; [done |]. split; [done |].
  intros r Hr.
  assert (Hk : ∀ key, rr_key r = Some key → batch_key b key).
  { intros key Hk. exists it, r. split; [done |]. rewrite Hit. split; [by apply list_elem_of_fmap_2 | done]. }
  unfold goes. destruct (rr_key r) as [key|].
  - rewrite andb_true_iff, orb_true_iff, andb_true_iff, Z.leb_le, bool_decide_eq_true.
    rewrite (superseded_iff log m b) by (done || by apply Hk).
    split; [intros [? ?]; eauto | intros [? (key' & [= <-] & ?)]; eauto].
  - rewrite andb_false_r. split; [done |]. by intros (_ & key & ? & _).
Qed.

(** An uncompressed batch within the map is always cleaned: the result is
    the batch without the records that go, or "leave it" when none does. *)
Lemma clean_batch_uncompressed b m tg it rs :
  is_control b = false → base_offset b ≤ end_ m → compression_type b = 0 →
  stream_records open_decoder seen b = Ok it → items entry_size it = Ok <$> rs →
  clean_batch entry_size kept_size open_decoder fingerprint seen b m tg =
    Ok (if existsb (goes fingerprint b m tg) rs
        then Some (kept_of b <$> filter (λ r, goes fingerprint b m tg r = false) rs)
        else None).
Proof.
  intros Hc Hb Hz Hs Hi. unfold clean_batch.
  rewrite Hc, (proj2 (Z.ltb_ge _ _) Hb), Hz, Hs. cbn [orb negb].
  change (negb (0 =? 0)) with false. by rewrite Hi, clean_items_plain.
Qed.

End Tracking.

(** ** The rewritten batch *)

(** What a consumer of the rewritten batch reads for a survivor. *)
Definition kept_ref (bo bt : Z) (rec : KeptRecord) : RecordRef :=
  mk_record (kr_offset rec - bo) (wrap_i 64 (kr_timestamp rec - bt)) (kr_key rec) (kr_value rec)
    (kr_headers rec) (kr_attributes rec).

Lemma put_headers_len hs :
  Z.of_nat (length hs) ≤ len (concat (put_header <$> hs)) ∧
  (len (concat (put_header <$> hs)) ≤ i32_max → put_header <$> hs = header_enc <$> hs).
Proof.
  induction hs as [|[n v] hs [IH1 IH2]]; [done |]. rewrite !fmap_cons, concat_cons, len_app.
  assert (Hh : len (put_header (n, v)) =
    len (put_varint_i32 (wrap_i 32 (len n))) + (len n + len (put_field v)))
    by (unfold put_header; by rewrite !len_app).
  pose proof (len_nonneg n). pose proof (put_field_len v). pose proof (len_nonneg (put_field v)).
  pose proof (len_nonneg (concat (put_header <$> hs))).
  assert (1 ≤ len (put_varint_i32 (wrap_i 32 (len n)))).
  { rewrite put_varint_i32_venc by apply wrap_i32_is. pose proof (venc_pos (wrap_i 32 (len n))). lia. }
  split; [cbn [length]; lia |]. intros Hl. rewrite IH2 by lia. f_equal.
  unfold put_header, header_enc. cbn [fst snd].
  rewrite wrap_i32_id by int_lia. rewrite put_varint_i32_venc by int_lia.
  by rewrite put_field_enc by lia.
Qed.

Lemma kept_body_enc bo bt rec :
  is_i32 (kr_offset rec - bo) → len (kept_body bo bt rec) ≤ i32_max →
  kept_body bo bt rec = record_body (kept_ref bo bt rec).
Proof.
  intros Ho Hl. unfold kept_body in *. rewrite len_cons, !len_app in Hl.
  pose proof (put_field_len (kr_key rec)). pose proof (put_field_len (kr_value rec)).
  pose proof (len_nonneg (put_varint_i64 (wrap_i 64 (kr_timestamp rec - bt)))).
  pose proof (len_nonneg (put_varint_i32 (wrap_i 32 (kr_offset rec - bo)))).
  pose proof (len_nonneg (put_varint_i32 (wrap_i 32 (Z.of_nat (length (kr_headers rec)))))).
  pose proof (len_nonneg (put_field (kr_key rec))). pose proof (len_nonneg (put_field (kr_value rec))).
  pose proof (len_nonneg (concat (put_header <$> kr_headers rec))).
  destruct (put_headers_len (kr_headers rec)) as [Hn Hh].
  unfold record_body.
  cbn [kept_ref rr_attributes timestamp_delta offset_delta rr_key rr_value rr_headers].
  rewrite Hh by lia. rewrite put_varint_i64_venc by apply wrap_i64_is.
  rewrite !(wrap_i32_id) by int_lia. rewrite !put_varint_i32_venc by int_lia.
  by rewrite !put_field_enc by int_lia.
Qed.

(** A survivor a batch based at [bo] can hold. *)
Definition kept_ok (bo : Z) (rec : KeptRecord) : Prop :=
  is_i8 (kr_attributes rec) ∧ is_i64 (kr_timestamp rec) ∧ is_i64 (kr_offset rec) ∧
  bo ≤ kr_offset rec ≤ bo + i32_max.

Lemma put_kept_enc bo bt rec :
  kept_ok bo rec → len (put_kept bo bt rec) ≤ i32_max →
  put_kept bo bt rec = record_enc (kept_ref bo bt rec) ∧ record_ok (kept_ref bo bt rec).
Proof.
  intros (Ha & Ht & Ho & Hr). unfold put_kept. cbv zeta. rewrite len_app. intros Hl.
  pose proof (len_nonneg (put_varint_i32 (wrap_i 32 (len (kept_body bo bt rec))))).
  pose proof (len_nonneg (kept_body bo bt rec)).
  assert (Hb : len (kept_body bo bt rec) ≤ i32_max) by lia. clear Hl.
  assert (Hd : is_i32 (kr_offset rec - bo)) by int_lia.
  rewrite wrap_i32_id, put_varint_i32_venc by int_lia.
  rewrite kept_body_enc in * by done. split; [done |].
  split; [done |]. split; [apply wrap_i64_is |]. by split.
Qed.

Lemma put_kept_pos bo bt rec : 0 < len (put_kept bo bt rec).
Proof.
  unfold put_kept, kept_body. cbv zeta. rewrite len_app, len_cons.
  match goal with |- context [len ?a + (1 + len ?b)] =>
    pose proof (len_nonneg a); pose proof (len_nonneg b) end. lia.
Qed.

Lemma put_kept_all_enc bo bt kept :
  Forall (kept_ok bo) kept → len (concat (put_kept bo bt <$> kept)) ≤ i32_max →
  Z.of_nat (length kept) ≤ len (concat (put_kept bo bt <$> kept)) ∧
  put_kept bo bt <$> kept = record_enc <$> (kept_ref bo bt <$> kept) ∧
  Forall record_ok (kept_ref bo bt <$> kept).
Proof.
  induction 1 as [|r kept Hr Hk IH]; [intros _; split; [done |]; split; [done | constructor] |].
  rewrite !fmap_cons, concat_cons, len_app. intros Hl.
  pose proof (put_kept_pos bo bt r). pose proof (len_nonneg (concat (put_kept bo bt <$> kept))).
  destruct IH as (Hn & IH & Hok); [lia |]. split; [cbn [length]; lia |].
  destruct (put_kept_enc bo bt r Hr ltac:(lia)) as [-> Hr']. rewrite IH.
  split; [done | by constructor].
Qed.

(** The header fields of any batch are in their types. *)
Lemma wrap_i16_is z : is_i16 (wrap_i 16 z).
Proof.
  pose proof (wrap_i_range 16 z ltac:(lia)) as H. change (2 ^ (16 - 1)) with 32768 in H. int_lia.
Qed.
Lemma batch_fields_typed b :
  is_i16 (attributes b) ∧ is_i32 (partition_leader_epoch b) ∧ is_i64 (producer_id b) ∧
  is_i16 (producer_epoch b) ∧ is_i32 (base_sequence b).
Proof.
  unfold attributes, partition_leader_epoch, producer_id, producer_epoch, base_sequence, read_i.
  change (8 * Z.of_nat 2) with 16. change (8 * Z.of_nat 4) with 32. change (8 * Z.of_nat 8) with 64.
  split; [apply wrap_i16_is |]. split; [apply wrap_i32_is |]. split; [apply wrap_i64_is |].
  split; [apply wrap_i16_is | apply wrap_i32_is].
Qed.

Lemma land_not7_i16 a : is_i16 a → is_i16 (Z.land a (Z.lnot 7)).
Proof.
  intros Ha. assert (E : Z.land a (Z.lnot 7) = a - a mod 8).
  { change (Z.land a (Z.lnot 7)) with (Z.land a (Z.lnot (Z.ones 3))).
    rewrite <- Z.ldiff_land, Z.ldiff_ones_r, Z.shiftl_mul_pow2, Z.shiftr_div_pow2 by lia.
    change (2 ^ 3) with 8. pose proof (Z.div_mod a 8 ltac:(lia)). lia. }
  rewrite E. pose proof (Z.mod_pos_bound a 8 ltac:(lia)).
  pose proof (Z.div_mod a 8 ltac:(lia)). int_lia.
Qed.

Lemma wrap_i64_cancel base x : is_i64 x → wrap_i 64 (base + wrap_i 64 (x - base)) = x.
Proof.
  intros Hx. rewrite <- (wrap_i64_id x Hx) at 2.
  rewrite <- (wrap_i_mod 64 (base + _)), <- (wrap_i_mod 64 x) by lia. f_equal.
  rewrite <- Z.add_mod_idemp_r, wrap_i_cong, Z.add_mod_idemp_r by lia. f_equal. lia.
Qed.

Lemma kept_of_ref b bo bt rec :
  base_offset b = bo → base_timestamp b = bt → kept_ok bo rec → kept_of b (kept_ref bo bt rec) = rec.
Proof.
  intros Hb Ht (_ & Hts & Ho & _). unfold kept_of, record_offset, record_timestamp.
  rewrite Hb, Ht. cbn [kept_ref rr_attributes timestamp_delta offset_delta rr_key rr_value rr_headers].
  rewrite wrap_i64_cancel by done. replace (bo + (kr_offset rec - bo)) with (kr_offset rec) by lia.
  rewrite wrap_i64_id by done. by destruct rec.
Qed.

Lemma kept_max_ts bo first kept :
  Forall (kept_ok bo) (first :: kept) →
  is_i64 (max_ts (kr_timestamp first) (kr_timestamp <$> first :: kept)).
Proof.
  intros Hk. destruct (max_ts_in (kr_timestamp first) (kr_timestamp <$> first :: kept)) as [->|E].
  - inversion Hk as [|? ? (_ & ? & _)]. done.
  - apply list_elem_of_fmap in E as (r & -> & Hr). rewrite Forall_forall in Hk.
    by destruct (Hk r Hr) as (_ & ? & _).
Qed.

Lemma last_in {A} (x : A) l : default x (last (x :: l)) ∈ x :: l.
Proof.
  destruct (last (x :: l)) as [y|] eqn:E; [by apply last_Some_elem_of | constructor].
Qed.

Lemma rebuild_batch_inv crc32c source first kept b :
  Forall (kept_ok (kr_offset first)) (first :: kept) →
  rebuild_batch crc32c source (first :: kept) = Some b → len b ≤ i32_max →
  let bo := kr_offset first in
  let bt := kr_timestamp first in
  let rs := kept_ref bo bt <$> first :: kept in
  let ld := kr_offset (default first (last (first :: kept))) - bo in
  let n := Z.of_nat (length (first :: kept)) in
  let body := concat (record_enc <$> rs) in
  len body ≤ i32_max - 61 ∧ 1 ≤ n ≤ i32_max - 61 ∧ 0 ≤ ld ≤ i32_max ∧ Forall record_ok rs ∧
  b = seal crc32c (unsealed bo (partition_leader_epoch source)
    (Z.land (attributes source) (Z.lnot 7)) ld bt
    (max_ts bt (kr_timestamp <$> first :: kept)) (producer_id source) (producer_epoch source)
    (base_sequence source) n body).
Proof.
  intros Hk Hb Hl bo bt rs ld n body. unfold rebuild_batch in Hb. cbv zeta in Hb.
  apply (inj Some) in Hb. fold bo bt in Hb.
  set (raw := concat (put_kept bo bt <$> first :: kept)) in Hb. pose proof (len_nonneg raw).
  assert (Hraw : len raw ≤ i32_max - 61).
  { assert (len b = 61 + len raw); [| lia]. rewrite <- Hb.
    rewrite seal_len; rewrite unsealed_len; lia. }
  destruct (put_kept_all_enc bo bt (first :: kept) Hk) as (Hn & Henc & Hok); [fold raw; int_lia |].
  assert (Hrb : raw = body) by (unfold raw, body; by rewrite Henc).
  rewrite Hrb in Hb, Hraw. fold raw n in Hn. rewrite Hrb in Hn. fold n in Hb.
  assert (1 ≤ n) by (unfold n; cbn [length]; lia).
  assert (Hld : 0 ≤ ld ≤ i32_max).
  { pose proof (last_in first kept) as Hin. rewrite Forall_forall in Hk.
    destruct (Hk _ Hin) as (_ & _ & _ & Hr). unfold ld, bo. lia. }
  fold ld in Hb. rewrite !wrap_i32_id in Hb by int_lia. split; [done |]. split; [lia |]. by split.
Qed.

(** Rewriting a batch loses nothing it is given and changes nothing else:
    the new batch validates, starts at the first survivor's offset and ends at
    the last one's, keeps the leader epoch, the producer's identity and the
    transactional and control bits, is uncompressed, and reads back as exactly
    the survivors, each at the absolute offset and timestamp it had. *)
Theorem rebuild_batch_preserves crc32c es source first kept b :
  (∀ x, is_u32 (crc32c x)) → Forall (kept_ok (kr_offset first)) (first :: kept) →
  rebuild_batch crc32c source (first :: kept) = Some b → len b ≤ i32_max →
  validated crc32c b = Ok (mk_batch b) ∧
  base_offset (mk_batch b) = kr_offset first ∧
  last_offset (mk_batch b) = kr_offset (default first (last (first :: kept))) ∧
  partition_leader_epoch (mk_batch b) = partition_leader_epoch source ∧
  producer_id (mk_batch b) = producer_id source ∧
  producer_epoch (mk_batch b) = producer_epoch source ∧
  base_sequence (mk_batch b) = base_sequence source ∧
  is_transactional (mk_batch b) = is_transactional source ∧
  is_control (mk_batch b) = is_control source ∧
  ∃ it rs, records (mk_batch b) = Ok it ∧ iter_collect es it = Some (Ok rs) ∧
    kept_of (mk_batch b) <$> rs = first :: kept.
Proof.
  intros Hcrc Hk Hb Hl. destruct (rebuild_batch_inv _ _ _ _ _ Hk Hb Hl) as (Hbody & Hn & Hld & Hok & ->).
  clear Hb Hl. destruct (batch_fields_typed source) as (Ta & Te & Tp & Tpe & Ts).
  pose proof (kept_max_ts _ _ _ Hk) as Hmt. pose proof (last_in first kept) as Hlast.
  pose proof (land_not7_i16 _ Ta) as Hattr.
  assert (Hf : kept_ok (kr_offset first) first) by (by inversion Hk).
  destruct Hf as (_ & Hft & Hfo & _).
  assert (Hlo : is_i64 (kr_offset (default first (last (first :: kept))))).
  { rewrite Forall_forall in Hk. by destruct (Hk _ Hlast) as (_ & _ & ? & _). }
  set (rs := kept_ref (kr_offset first) (kr_timestamp first) <$> first :: kept) in *.
  set (body := concat (record_enc <$> rs)) in *. set (n := Z.of_nat (length (first :: kept))) in *.
  set (lo := kr_offset (default first (last (first :: kept)))) in *.
  set (bo := kr_offset first) in *. set (bt := kr_timestamp first) in *.
  set (mt := max_ts bt _) in *. set (attr := Z.land _ (Z.lnot 7)) in *.
  set (ep := partition_leader_epoch source) in *. set (pid := producer_id source) in *.
  set (pe := producer_epoch source) in *. set (sq := base_sequence source) in *.
  destruct (sealed_fields crc32c Hcrc bo ep attr (lo - bo) bt mt pid pe sq n body)
    as (Fb & _ & Fe & _ & _); [in_range.. |].
  destruct (sealed_covered_fields crc32c bo ep attr (lo - bo) bt mt pid pe sq n body)
    as (Fa & Fl & Fbt & _ & Fp & Fpe & Fs & _); [in_range.. |].
  set (b := seal crc32c (unsealed bo ep attr (lo - bo) bt mt pid pe sq n body)) in *.
  split; [apply sealed_validated; in_range |]. split; [done |].
  split. { unfold last_offset. rewrite Fb, Fl. replace (bo + (lo - bo)) with lo by lia. by apply wrap_i64_id. }
  do 4 (split; [done |]). unfold is_transactional, is_control. rewrite Fa. unfold attr.
  rewrite <- !Z.land_assoc. split; [done |]. split; [done |].
  assert (∃ it, records (mk_batch b) = Ok it ∧ iter_collect es it = Some (Ok rs))
    as (it & Hit & Hrs).
  { apply sealed_records; try in_range; try done.
    - unfold attr. rewrite <- Z.land_assoc. apply Z.land_0_r.
    - unfold n, rs. by rewrite length_fmap. }
  exists it, rs. split; [done |]. split; [done |]. unfold rs. rewrite <- list_fmap_compose.
  rewrite <- (list_fmap_id (first :: kept)) at 2. apply list_fmap_ext. intros i r Hr.
  apply kept_of_ref; [done | done |]. by eapply Forall_lookup_1 in Hk.
Qed.

(** ** The in-memory pass *)

Section Survivors.

Context (entry_size : Z)
  (open_decoder : Z → bytes → result BatchError (bytes * option BatchError)).

(** What the pass notes of a record: its offset, whether it is a tombstone,
    its timestamp. *)
Definition entry_of (b : RecordBatch) (r : RecordRef) : Z * bool * Z :=
  (record_offset b r, bool_decide (rr_value r = None), record_timestamp b r).

(** The data batches of the log hold a record with that key and entry. *)
Definition log_entry (log : list RecordBatch) (key : option bytes) (e : Z * bool * Z) : Prop :=
  ∃ b it r, b ∈ log ∧ is_control b = false ∧ records_decompressed open_decoder b = Ok it ∧
    Ok r ∈ items entry_size it ∧ rr_key r = key ∧ entry_of b r = e.

(** The state of the scan after the entries [E]. *)
Definition scanned (E : option bytes → Z * bool * Z → Prop)
    (st : gmap bytes (Z * bool * Z) * gset Z) : Prop :=
  (∀ k, match st.1 !! k with
        | Some e => E (Some k) e ∧ ∀ e', E (Some k) e' → e'.1.1 ≤ e.1.1
        | None => ∀ e, ¬ E (Some k) e
        end) ∧
  (∀ off, off ∈ st.2 ↔ ∃ e, E None e ∧ e.1.1 = off).

Lemma scanned_ext E E' st : (∀ k e, E k e ↔ E' k e) → scanned E st → scanned E' st.
Proof.
  intros H [H1 H2]. split.
  - intros k. specialize (H1 k). destruct (st.1 !! k) as [e|].
    + destruct H1 as [H1 H1']. split; [by apply H |]. intros e' He'. apply H1', H, He'.
    + intros e He. by apply (H1 e), H.
  - intros off. rewrite H2. by setoid_rewrite H.
Qed.

Lemma note_latest_lookup key e m k :
  note_latest key e m !! k =
    if decide (k = key) then Some (match m !! key with
      | Some old => if old.1.1 <? e.1.1 then e else old | None => e end)
    else m !! k.
Proof.
  unfold note_latest. case_decide as Ek; destruct (m !! key) as [old|] eqn:Em; subst;
    repeat case_match; by rewrite ?lookup_insert_eq, ?lookup_insert_ne.
Qed.

Lemma scan_record_scanned E b r st :
  scanned E st →
  scanned (λ k e, E k e ∨ k = rr_key r ∧ e = entry_of b r) (scan_record b r st).
Proof.
  intros [H1 H2]. destruct st as [m u]. cbn [fst snd] in H1, H2. unfold scan_record.
  destruct (rr_key r) as [key|] eqn:Ek; split; cbn [fst snd].
  - intros k. specialize (H1 k). rewrite note_latest_lookup. fold (entry_of b r). case_decide as E1.
    + subst k. destruct (m !! key) as [old|]; [destruct H1 as [Ho Hm]; destruct (Z.ltb_spec old.1.1 (entry_of b r).1.1)
        |].
      * split; [by right |]. intros e' [He|[_ ->]]; [specialize (Hm e' He); lia | lia].
      * split; [by left |]. intros e' [He|[_ ->]]; [by apply Hm | lia].
      * split; [by right |]. intros e' [He|[_ ->]]; [by destruct (H1 e') | lia].
    + destruct (m !! k) as [old|].
      * destruct H1 as [Ho Hm]. split; [by left |]. intros e' [He|[[= ->] _]]; [by apply Hm | done].
      * intros e [He|[[= ->] _]]; [by apply (H1 e) | done].
  - intros off. rewrite H2. split; [intros (e & He & ?); eauto | intros (e & [He|[? _]] & ?); [eauto | done]].
  - intros k. specialize (H1 k). destruct (m !! k) as [old|].
    + destruct H1 as [Ho Hm]. split; [by left |]. intros e' [He|[? _]]; [by apply Hm | done].
    + intros e [He|[? _]]; [by apply (H1 e) | done].
  - intros off. rewrite elem_of_union, elem_of_singleton, H2. split.
    + intros [->|(e & He & ?)]; [exists (entry_of b r); by eauto | eauto].
    + intros (e & [He|[_ ->]] & Ho); [eauto | left; by rewrite <- Ho].
Qed.

Lemma scan_items_scanned b l E st st' :
  scan_items b l st = Ok st' → scanned E st →
  scanned (λ k e, E k e ∨ ∃ r, Ok r ∈ l ∧ rr_key r = k ∧ entry_of b r = e) st'.
Proof.
  revert E st. induction l as [|[r|e] l IH]; intros E st Hs HE; cbn in Hs; [| | done].
  - simplify_eq. eapply scanned_ext; [| done]. intros k e. split; [by left |].
    intros [?|(r & Hr & _)]; [done | by apply elem_of_nil in Hr].
  - eapply IH in Hs; [| by apply scan_record_scanned]. eapply scanned_ext; [| done]. intros k e.
    cbv beta. setoid_rewrite elem_of_cons. split.
    + intros [[?|[-> ->]]|(r' & ? & ?)]; [by left | right; eauto | right; eauto].
    + intros [?|(r' & [[= ->]|?] & <- & <-)]; [by left; left | by left; right | right; eauto].
Qed.

Lemma log_entry_cons b log k e :
  log_entry (b :: log) k e ↔ log_entry [b] k e ∨ log_entry log k e.
Proof.
  unfold log_entry. split.
  - intros (b' & it & r & Hb & H). apply elem_of_cons in Hb as [->|Hb]; [left | right].
    + exists b, it, r. split; [constructor | done].
    + by exists b', it, r.
  - intros [(b' & it & r & Hb & H)|(b' & it & r & Hb & H)]; exists b', it, r; split; try done.
    + apply list_elem_of_singleton in Hb as ->. constructor.
    + by constructor.
Qed.

Lemma scan_batches_scanned log E st control st' control' :
  scan_batches entry_size open_decoder log st control = Ok (st', control') → scanned E st →
  scanned (λ k e, E k e ∨ log_entry log k e) st' ∧
  ∀ bo, bo ∈ control' ↔ bo ∈ control ∨ ∃ b, b ∈ log ∧ is_control b = true ∧ base_offset b = bo.
Proof.
  revert E st control. induction log as [|b log IH]; intros E st control Hs HE; cbn in Hs.
  - simplify_eq. split.
    + eapply scanned_ext; [| done]. intros k e. split; [by left |].
      intros [?|(b & it & r & Hb & _)]; [done | by apply elem_of_nil in Hb].
    + intros bo. split; [by left |]. intros [?|(b & Hb & _)]; [done | by apply elem_of_nil in Hb].
  - destruct (is_control b) eqn:Ec.
    + destruct (IH _ _ _ Hs HE) as [H1 H2]. split.
      * eapply scanned_ext; [| done]. intros k e. cbv beta. rewrite log_entry_cons.
        split; [intros [?|?]; eauto | intros [?|[(b' & it & r & Hb & Hc & _)|?]]; eauto].
        apply list_elem_of_singleton in Hb as ->. by rewrite Ec in Hc.
      * intros bo. rewrite H2, elem_of_app, list_elem_of_singleton. setoid_rewrite elem_of_cons.
        split; [intros [[?| ->]|(b' & ? & ?)]; eauto 6 | intros [?|(b' & [->|?] & ? & ?)]; eauto 6].
    + destruct (records_decompressed open_decoder b) as [it|e] eqn:Er; cbn in Hs; [| done].
      destruct (scan_items b (items entry_size it) st) as [st1|e] eqn:Ei; cbn in Hs; [| done].
      destruct (IH _ _ _ Hs (scan_items_scanned _ _ _ _ _ Ei HE)) as [H1 H2]. split.
      * eapply scanned_ext; [| done]. intros k e. cbv beta. rewrite log_entry_cons.
        assert (Hb : log_entry [b] k e ↔ ∃ r, Ok r ∈ items entry_size it ∧ rr_key r = k ∧ entry_of b r = e).
        { split.
          - intros (b' & it' & r & Hb & _ & Hr & ?). apply list_elem_of_singleton in Hb as ->.
            rewrite Er in Hr. injection Hr as <-. eauto.
          - intros (r & ?). exists b, it, r. split; [constructor | done]. }
        rewrite Hb. tauto.
      * intros bo. rewrite H2. setoid_rewrite elem_of_cons.
        split; [intros [?|(b' & ? & ?)]; eauto 6 | intros [?|(b' & [->|?] & Hc & ?)]; eauto 6].
        by rewrite Ec in Hc.
Qed.

Lemma survivor_offsets_spec cutoff m u off :
  off ∈ survivor_offsets cutoff m u ↔
    off ∈ u ∨ ∃ k e, m !! k = Some e ∧ outlives cutoff e = true ∧ e.1.1 = off.
Proof.
  unfold survivor_offsets. rewrite elem_of_union, elem_of_list_to_set. split.
  - intros [H|H]; [right | by left]. apply list_elem_of_fmap in H as ([k e] & -> & H).
    apply list_elem_of_filter in H as [Ho H]. apply elem_of_map_to_list in H. eauto.
  - intros [H|(k & e & Hk & Ho & <-)]; [by right | left].
    apply list_elem_of_fmap. exists (k, e). split; [done |]. apply list_elem_of_filter.
    split; [done |]. by apply elem_of_map_to_list.
Qed.

(** The in-memory pass keeps exactly what a compacted log must hold: every
    record without a key, and for each key the record at its largest offset,
    unless that is a tombstone older than the cutoff.  Every control batch is
    kept. *)
Theorem survivors_until_keeps log cutoff s :
  survivors_until entry_size open_decoder log cutoff = Ok s →
  (∀ k e e', log_entry log (Some k) e → log_entry log (Some k) e' → e.1.1 = e'.1.1 → e = e') →
  (∀ off, keeps s off = true ↔
     (∃ e, log_entry log None e ∧ e.1.1 = off) ∨
     (∃ k e, log_entry log (Some k) e ∧ e.1.1 = off ∧
        (∀ e', log_entry log (Some k) e' → e'.1.1 ≤ off) ∧ ¬ (e.1.2 = true ∧ e.2 < cutoff))) ∧
  (∀ bo, keeps_control_batch s bo = true ↔
     ∃ b, b ∈ log ∧ is_control b = true ∧ base_offset b = bo).
Proof.
  intros Hs Huniq. unfold survivors_until in Hs.
  destruct (scan_batches _ _ _ _ _) as [[[m u] control]|e] eqn:Esc; cbn in Hs; [| done]. simplify_eq.
  assert (H0 : scanned (λ _ _, False) ((∅, ∅) : gmap bytes (Z * bool * Z) * gset Z)).
  { split; cbn [fst snd]; [intros k; rewrite lookup_empty; intros e H; exact H | set_solver]. }
  destruct (scan_batches_scanned _ _ _ _ _ _ Esc H0) as [H1 H2]. clear H0 Esc.
  apply (scanned_ext _ (log_entry log)) in H1; [| intros k e; tauto]. destruct H1 as [Hm Hu].
  cbn [fst snd] in Hm, Hu. split.
  - intros off. unfold keeps. cbn [sv_offsets]. rewrite bool_decide_eq_true, survivor_offsets_spec, Hu.
    apply or_iff_compat_l.
    assert (Hout : ∀ e, outlives cutoff e = true ↔ ¬ (e.1.2 = true ∧ e.2 < cutoff)).
    { intros e. unfold outlives. rewrite negb_true_iff, andb_false_iff, Z.ltb_ge.
      destruct (e.1.2); [intuition lia | intuition done]. }
    split.
    + intros (k & e & Hk & Ho & <-). specialize (Hm k). rewrite Hk in Hm. destruct Hm as [He Hmax].
      exists k, e. by rewrite <- Hout.
    + intros (k & e & He & <- & Hmax & Ho). rewrite <- Hout in Ho. specialize (Hm k).
      destruct (m !! k) as [e'|] eqn:Ek; [| by destruct (Hm e)]. destruct Hm as [He' Hmax'].
      assert (e = e') as -> by (apply (Huniq k); [done | done | apply Z.le_antisymm; [by apply Hmax' | by apply Hmax]]).
      eauto.
  - intros bo. unfold keeps_control_batch. cbn [sv_control_batches]. rewrite bool_decide_eq_true, H2.
    split; [intros [Hb|?]; [by apply elem_of_nil in Hb | done] | by right].
Qed.

End Survivors.

(** ** Concrete logs *)

Definition no_decoder (codec : Z) (payload : bytes) : result BatchError (bytes * option BatchError) :=
  Err DecompressedTooLarge.

(** Two batches: [k1 -> a], [k2 -> b] and an unkeyed record at 0 to 2, then a
    tombstone of [k1] at 3. *)
Definition batch_at (off : Z) (recs : list NewRecord) : RecordBatch :=
  mk_batch (stamp (mk_batch (default [] (build_batch sum_crc recs))) off 5).
Definition batch_a : RecordBatch :=
  batch_at 0 [mk_new (Some [x01]) (Some [x61]) 10; mk_new (Some [x02]) (Some [x62]) 11;
              mk_new None (Some [x63]) 12].
Definition batch_b : RecordBatch := batch_at 3 [mk_new (Some [x01]) None 13].

Definition fp_be (key : bytes) : Z := be_val (x01 :: key).
Definition map_ab : OffsetMap :=
  (add_batch 64 no_decoder fp_be 0 batch_b 100
    (add_batch 64 no_decoder fp_be 0 batch_a 100 map_default).2).2.

Lemma map_ab_tracks : tracks 64 no_decoder fp_be 0 [batch_a; batch_b] map_ab.
Proof.
  unfold map_ab. pose proof (tracks_default 64 no_decoder fp_be 0) as H0.
  pose proof (add_batch_tracks 64 no_decoder fp_be 0 batch_a 100 [] map_default H0) as H1.
  destruct (add_batch 64 no_decoder fp_be 0 batch_a 100 map_default) as [r1 m1] eqn:E1.
  assert (r1 = Ok true) as -> by (by apply (f_equal fst) in E1; vm_compute in E1).
  destruct H1 as [H1 _]. cbn [snd].
  pose proof (add_batch_tracks 64 no_decoder fp_be 0 batch_b 100 _ m1 H1) as H2.
  assert (Hm : m1 = (add_batch 64 no_decoder fp_be 0 batch_a 100 map_default).2) by (by rewrite E1).
  destruct (add_batch 64 no_decoder fp_be 0 batch_b 100 m1) as [r2 m2] eqn:E2.
  assert (r2 = Ok true) as ->.
  { apply (f_equal fst) in E2. rewrite Hm in E2. by vm_compute in E2. }
  by destruct H2 as [H2 _].
Qed.

Lemma be_val_cons b k : be_val (b :: k) = u8 b * 256 ^ len k + be_val k.
Proof.
  induction k as [|c k IH] using rev_ind; [unfold be_val; cbn [foldl]; rewrite len_nil; lia |].
  rewrite app_comm_cons, !be_val_snoc, IH, len_app. change (len [c]) with 1.
  rewrite Z.pow_add_r by (pose proof (len_nonneg k); lia). lia.
Qed.

Lemma fp_be_inj key key' : fp_be key = fp_be key' → key = key'.
Proof.
  unfold fp_be. rewrite !be_val_cons. change (u8 x01) with 1. rewrite !Z.mul_1_l. intros H.
  pose proof (be_val_range key). pose proof (be_val_range key').
  assert (Hlt : ∀ a b, 0 ≤ a → a < b → 2 * 256 ^ a < 256 ^ b).
  { intros a b Ha Hab. apply Z.lt_le_trans with (256 ^ (a + 1)).
    - rewrite Z.pow_add_r by lia. assert (0 < 256 ^ a) by (apply Z.pow_pos_nonneg; lia). lia.
    - apply Z.pow_le_mono_r; lia. }
  assert (Hl : len key = len key').
  { destruct (Z.lt_total (len key) (len key')) as [Hc|[Hc|Hc]]; [|done|];
      specialize (Hlt _ _ (len_nonneg _) Hc); lia. }
  assert (be_val key = be_val key') as E by (rewrite Hl in H; lia).
  rewrite <- (be_bytes_be_val key), <- (be_bytes_be_val key'), E. f_equal. unfold len in Hl. lia.
Qed.

Lemma clean_batch_exact_witness :
  let kept := [mk_kept 1 11 (Some [x02]) (Some [x62]) [] 0; mk_kept 2 12 None (Some [x63]) [] 0] in
  ∃ it rs, stream_records no_decoder 0 batch_a = Ok it ∧ items 64 it = Ok <$> rs ∧
    kept = kept_of batch_a <$> filter (λ r, goes fp_be batch_a map_ab (λ _, false) r = false) rs ∧
    (∃ r, r ∈ rs ∧ goes fp_be batch_a map_ab (λ _, false) r = true) ∧
    ∀ r, r ∈ rs → goes fp_be batch_a map_ab (λ _, false) r = true ↔
      record_offset batch_a r ≤ end_ map_ab ∧ ∃ key, rr_key r = Some key ∧
        ((∃ b' off, b' ∈ [batch_a; batch_b] ∧ key_at 64 no_decoder 0 b' key off ∧
            record_offset batch_a r < off) ∨
         rr_value r = None ∧ false = true).
Proof.
  apply (clean_batch_exact 64 200 no_decoder fp_be 0 [batch_a; batch_b] map_ab batch_a (λ _, false)).
  - apply map_ab_tracks.
  - intros key key' _ _. apply fp_be_inj.
  - vm_compute. reflexivity.
Defined.

Lemma rebuild_batch_preserves_witness :
  let first := mk_kept 1 11 (Some [x02]) (Some [x62]) [([x68], None)] 0 in
  let kept := [mk_kept 5 12 None (Some [x63]) [] 0] in
  let b := default [] (rebuild_batch sum_crc batch_a (first :: kept)) in
  validated sum_crc b = Ok (mk_batch b) ∧
  base_offset (mk_batch b) = kr_offset first ∧
  last_offset (mk_batch b) = kr_offset (default first (last (first :: kept))) ∧
  partition_leader_epoch (mk_batch b) = partition_leader_epoch batch_a ∧
  producer_id (mk_batch b) = producer_id batch_a ∧
  producer_epoch (mk_batch b) = producer_epoch batch_a ∧
  base_sequence (mk_batch b) = base_sequence batch_a ∧
  is_transactional (mk_batch b) = is_transactional batch_a ∧
  is_control (mk_batch b) = is_control batch_a ∧
  ∃ it rs, records (mk_batch b) = Ok it ∧ iter_collect 64 it = Some (Ok rs) ∧
    kept_of (mk_batch b) <$> rs = first :: kept.
Proof.
  cbv zeta. apply (rebuild_batch_preserves sum_crc 64).
  - apply sum_crc_u32.
  - repeat (apply Forall_cons; split; [unfold kept_ok; cbn; int_lia |]). constructor.
  - vm_compute. reflexivity.
  - apply Z.leb_le. vm_compute. reflexivity.
Defined.

Lemma log_ab_entries k e :
  log_entry 64 no_decoder [batch_a; batch_b] k e →
  (k, e) ∈ [(Some [x01], (0, false, 10)); (Some [x02], (1, false, 11)); (None, (2, false, 12));
            (Some [x01], (3, true, 13))].
Proof.
  intros (b & it & r & Hb & _ & Hit & Hr & <- & <-).
  apply elem_of_cons in Hb as [->|Hb]; [| apply list_elem_of_singleton in Hb as ->];
    vm_compute in Hit; injection Hit as <-; vm_compute in Hr;
    repeat (apply elem_of_cons in Hr as [[= ->]|Hr];
      [apply (bool_decide_eq_true_1 _); vm_compute; reflexivity |]);
    by apply elem_of_nil in Hr.
Qed.

Lemma survivors_until_keeps_witness :
  let log := [batch_a; batch_b] in
  let s := mk_survivors {[1; 2; 3]} [] 2 in
  (∀ off, keeps s off = true ↔
     (∃ e, log_entry 64 no_decoder log None e ∧ e.1.1 = off) ∨
     (∃ k e, log_entry 64 no_decoder log (Some k) e ∧ e.1.1 = off ∧
        (∀ e', log_entry 64 no_decoder log (Some k) e' → e'.1.1 ≤ off) ∧
        ¬ (e.1.2 = true ∧ e.2 < 13))) ∧
  (∀ bo, keeps_control_batch s bo = true ↔
     ∃ b, b ∈ log ∧ is_control b = true ∧ base_offset b = bo).
Proof.
  apply (survivors_until_keeps 64 no_decoder [batch_a; batch_b] 13 (mk_survivors {[1; 2; 3]} [] 2)).
  - vm_compute. reflexivity.
  - intros k e e' He He' Ho. apply log_ab_entries in He, He'.
    repeat (apply elem_of_cons in He as [[= -> ->]|He]); [.. | by apply elem_of_nil in He];
      repeat (apply elem_of_cons in He' as [[= ->]|He']); try by apply elem_of_nil in He'.
    all: try done; simplify_eq.
Defined.
