(* ===== verification/Cleaner.v ===== *)
(** * extension/src/storage/mod.rs: what every engine's compaction shares

    The errors of a [LogStore], the process-wide compaction budget, the record
    of what has been clean since when ([CLEANED]) and of the batches that do
    not decode ([UNDECODABLE]), the two steps of a pass ([map_batch],
    [clean_or_keep]) and the rule for tombstones, and the two timestamp
    lookups inside a batch.  A [static] behind a mutex is a state argument. *)

From Stdlib Require Import Sorting.Sorted.
From stdpp Require Import gmap strings.
From S2P Require Import Prelude Errors Records RecordIter Build Compaction.

Inductive StoreError : Type :=
| UnknownTopicOrPartition
| OffsetOutOfRange
| CorruptBatch
| InvalidFetchSize
| LeaderEpochUnsettled
| Io (m : string)
| NotImplemented (what : string).

Definition store_error_code (e : StoreError) : ErrorCode.t :=
  match e with
  | UnknownTopicOrPartition => ErrorCode.UnknownTopicOrPartition
  | OffsetOutOfRange => ErrorCode.OffsetOutOfRange
  | CorruptBatch => ErrorCode.CorruptMessage
  | InvalidFetchSize => ErrorCode.InvalidFetchSize
  | LeaderEpochUnsettled => ErrorCode.LeaderNotAvailable
  | Io _ => ErrorCode.KafkaStorageError
  | NotImplemented _ => ErrorCode.UnknownServerError
  end.

(** ** The budget of a sweep *)

(** [BOUNDED_PASSES] and [SWEEP_BUDGET]. *)
Record Budget : Type := mk_budget { bounded : bool; sweep_budget : Z }.

Definition reset_compaction_budget (pass_bytes : Z) (b : Budget) : Budget :=
  mk_budget (bounded b) pass_bytes.
Definition compaction_budget (b : Budget) : Z * Budget :=
  if bounded b then (sweep_budget b, mk_budget true 0) else (i64_max, b).
Definition compaction_budget_left (b : Budget) : bool :=
  negb (bounded b) || (0 <? sweep_budget b).
Definition spend_compaction_budget (left : Z) (b : Budget) : Budget :=
  if bounded b then mk_budget true (Z.max left 0) else b.

(** [rotation] and [touched] are [u64]s; the subtraction saturates at 0. *)
Definition plan_is_idle (rotation touched : Z) : bool := 2 <=? Z.max 0 (rotation - touched).

(** ** What has been clean since when *)

Definition CLEANED_HISTORY : nat := 64.
Abbreviation tp := (Z * Z)%type.
Abbreviation cleaned_t := (gmap tp (list (Z * Z))) (only parsing).
Abbreviation undecodable_t := (gmap tp (gset (Z * Z))) (only parsing).

(** Push, and drop the oldest past the limit. *)
Definition push_cleaned (history : list (Z * Z)) (entry : Z * Z) : list (Z * Z) :=
  let history := history ++ [entry] in
  if (CLEANED_HISTORY <? length history)%nat then drop 1 history else history.

Definition record_cleaned (p : tp) (end_ at_ms : Z) (all : cleaned_t) : cleaned_t :=
  <[p := push_cleaned (default [] (all !! p)) (end_, at_ms)]> all.

Definition forget_cleaned (p : tp) (st : cleaned_t * undecodable_t) : cleaned_t * undecodable_t :=
  (delete p st.1, delete p st.2).

Record Judge : Type := mk_judge {
  j_tp : tp;
  dirty_from : Z;
  tombstone_horizon : Z;
  keep_tombstones : bool }.

(** [i64::saturating_sub]. *)
Definition saturate_i64 (z : Z) : Z := Z.max i64_min (Z.min i64_max z).
Definition judge_new (p : tp) (dirty_from now delete_retention_ms : Z) : Judge :=
  mk_judge p dirty_from (saturate_i64 (now - delete_retention_ms)) false.

Definition judge_tombstone_goes (j : Judge) (all : cleaned_t) (offset : Z) : bool :=
  if keep_tombstones j || (dirty_from j <=? offset) then false
  else
    let since := h ← all !! j_tp j; e ← list_find (λ e, offset ≤ e.1) h; Some e.2.2 in
    match since with Some at_ => at_ <=? tombstone_horizon j | None => false end.

(** ** Batches that do not decode *)

Definition UNDECODABLE_HISTORY : nat := 4096.

Definition batch_id (b : RecordBatch) : Z * Z := (base_offset b, stored_crc b).

Definition is_known_undecodable (p : tp) (b : RecordBatch) (all : undecodable_t) : bool :=
  match all !! p with
  | Some seen => bool_decide (batch_id b ∈ seen)
  | None => false
  end.

Definition note_undecodable (p : tp) (b : RecordBatch) (all : undecodable_t) : undecodable_t :=
  let seen := default ∅ (all !! p) in
  if (UNDECODABLE_HISTORY <=? size seen)%nat then <[p := seen]> all
  else <[p := {[batch_id b]} ∪ seen]> all.

Section Passes.

Variable crc32c : bytes → Z.
Variable entry_size kept_size : Z.
Variable open_decoder : Z → bytes → result BatchError (bytes * option BatchError).
Variable fingerprint : bytes → Z.

(** [map_batch]: the state is the plan's map and [UNDECODABLE]. *)
Definition map_batch (seen : nat) (p : tp) (b : RecordBatch) (max_keys : Z)
    : ST (OffsetMap * undecodable_t) BatchError bool := λ st,
  let '(m, und) := st in
  let past m := mk_map (latest m) (Z.max (end_ m) (last_offset b)) in
  match verify_crc crc32c b with
  | Err e => (Err e, (m, und))
  | Ok _ =>
      if is_known_undecodable p b und then (Ok true, (past m, und))
      else
        match add_batch entry_size open_decoder fingerprint seen b max_keys m with
        | (Ok fits, m') => (Ok fits, (m', und))
        | (Err _, m') => (Ok true, (past m', note_undecodable p b und))
        end
  end.

Definition clean_or_keep (seen : nat) (p : tp) (b : RecordBatch) (m : OffsetMap)
    (tombstone_goes : Z → bool) : ST undecodable_t BatchError (option (list KeptRecord)) := λ und,
  match verify_crc crc32c b with
  | Err e => (Err e, und)
  | Ok _ =>
      if is_known_undecodable p b und then (Ok None, und)
      else
        match clean_batch entry_size kept_size open_decoder fingerprint seen b m tombstone_goes with
        | Ok kept => (Ok kept, und)
        | Err _ => (Ok None, note_undecodable p b und)
        end
  end.

(** ** Timestamps inside a batch *)

(** The first readable record that satisfies [f], up to the first that does
    not decode. *)
Fixpoint find_record (f : RecordRef → bool) (l : list (result BatchError RecordRef))
    : option RecordRef :=
  match l with
  | Ok r :: l' => if f r then Some r else find_record f l'
  | _ => None
  end.

Definition batch_ts (b : RecordBatch) (r : RecordRef) : Z :=
  saturate_i64 (base_timestamp b + timestamp_delta r).

Definition first_at_or_after (bs : bytes) (timestamp : Z) : option (Z * Z) :=
  match batch_new bs with
  | Err _ => None
  | Ok b =>
      match records_decompressed open_decoder b with
      | Ok it =>
          match find_record (λ r, timestamp <=? batch_ts b r) (items entry_size it) with
          | Some r => Some (record_offset b r, batch_ts b r)
          | None => Some (base_offset b, max_timestamp b)
          end
      | Err _ => Some (base_offset b, max_timestamp b)
      end
  end.

Definition offset_of_max_timestamp (bs : bytes) : option (Z * Z) :=
  match batch_new bs with
  | Err _ => None
  | Ok b =>
      match records_decompressed open_decoder b with
      | Ok it =>
          match find_record (λ r, batch_ts b r =? max_timestamp b) (items entry_size it) with
          | Some r => Some (record_offset b r, max_timestamp b)
          | None => Some (base_offset b, max_timestamp b)
          end
      | Err _ => Some (base_offset b, max_timestamp b)
      end
  end.

(** ** Mapping never gets stuck *)

(** Mapping a batch fails for a bad checksum only, and then changes
    nothing.  When it answers "taken", the end of the map has moved past the
    batch, and the map holds the latest offset per key of the batches before
    it with this one, or, when its records do not decode, without it: a batch
    that cannot be read supersedes nothing and does not stop the pass. *)
Theorem map_batch_progress seen p b max_keys log m und :
  tracks entry_size open_decoder fingerprint seen log m →
  match map_batch seen p b max_keys (m, und) with
  | (Err e, st) => verify_crc crc32c b = Err e ∧ st = (m, und)
  | (Ok false, st) => st = (m, und)
  | (Ok true, (m', und')) =>
      end_ m' = Z.max (end_ m) (last_offset b) ∧
      (tracks entry_size open_decoder fingerprint seen (log ++ [b]) m' ∨ latest m' = latest m)
  end.
Proof.
  intros Ht. unfold map_batch. destruct (verify_crc crc32c b) as [u|e]; [| done].
  destruct (is_known_undecodable p b und); [split; [done | by right] |].
  pose proof (add_batch_tracks entry_size open_decoder fingerprint seen b max_keys log m Ht) as H.
  destruct (add_batch _ _ _ _ _ _ _) as [[[|]|e] m']; cbn in *.
  - destruct H as [H1 H2]. split; [done | by left].
  - by subst m'.
  - subst m'. split; [done | by right].
Qed.

End Passes.

(** ** Tombstones wait *)

Definition history_of (calls : list (Z * Z)) : list (Z * Z) := foldl push_cleaned [] calls.

Lemma history_of_last calls : history_of calls = drop (length calls - CLEANED_HISTORY) calls.
Proof.
  unfold history_of. induction calls as [|c calls IH] using rev_ind; [done |].
  rewrite foldl_app, IH. cbn [foldl]. unfold push_cleaned. cbv zeta.
  rewrite !length_app, length_drop. cbn [length]. unfold CLEANED_HISTORY.
  case_match eqn:E; [apply Nat.ltb_lt in E | apply Nat.ltb_ge in E].
  - rewrite <- drop_app_le, drop_drop by lia. f_equal. lia.
  - rewrite <- drop_app_le by lia. f_equal. lia.
Qed.

(** The record of a partition after these passes finished. *)
Definition cleaned_after (p : tp) (calls : list (Z * Z)) : gmap tp (list (Z * Z)) :=
  foldl (λ all c, record_cleaned p c.1 c.2 all) ∅ calls.

Lemma cleaned_after_lookup p calls : default [] (cleaned_after p calls !! p) = history_of calls.
Proof.
  unfold cleaned_after, history_of. induction calls as [|c calls IH] using rev_ind.
  - cbn [foldl]. by rewrite lookup_empty.
  - rewrite !foldl_app. cbn [foldl]. unfold record_cleaned at 1. rewrite lookup_insert_eq. cbn.
    rewrite IH. by destruct c.
Qed.

Lemma list_find_first (offset : Z) (h : list (Z * Z)) e :
  StronglySorted (λ a b, a.2 ≤ b.2) h → e ∈ h → offset ≤ e.1 →
  ∃ i x, list_find (λ e, offset ≤ e.1) h = Some (i, x) ∧ x.2 ≤ e.2.
Proof.
  induction 1 as [|y h Hs IH Hy]; intros He Ho; [by apply elem_of_nil in He |].
  cbn. case_decide as Hd.
  - exists 0%nat, y. split; [done |]. apply elem_of_cons in He as [->|He]; [done |].
    rewrite Forall_forall in Hy. by apply Hy.
  - apply elem_of_cons in He as [->|He]; [done |]. destruct (IH He Ho) as (i & x & -> & Hx).
    by exists (S i), x.
Qed.

Lemma strongly_sorted_drop {A} (R : A → A → Prop) n l :
  StronglySorted R l → StronglySorted R (drop n l).
Proof.
  revert l. induction n as [|n IH]; intros [|x l] H; cbn; [done..|]. inversion H; subst. by apply IH.
Qed.

(** A tombstone goes exactly when it has been below a finished pass for the
    whole retention time: tombstones are not being held, it is in the part a
    finished plan cleaned, and one of the last 64 passes of the partition that
    reached its offset is at least [delete.retention.ms] old.  Forgetting
    older passes can only make it wait. *)
Theorem tombstone_waits j calls offset :
  StronglySorted (λ a b, a.2 ≤ b.2) calls →
  judge_tombstone_goes j (cleaned_after (j_tp j) calls) offset = true ↔
    keep_tombstones j = false ∧ offset < dirty_from j ∧
    ∃ e, e ∈ drop (length calls - CLEANED_HISTORY) calls ∧ offset ≤ e.1 ∧
      e.2 ≤ tombstone_horizon j.
Proof.
  intros Hs. pose proof (cleaned_after_lookup (j_tp j) calls) as Hh. rewrite history_of_last in Hh.
  apply (strongly_sorted_drop _ (length calls - CLEANED_HISTORY)) in Hs.
  set (h := drop _ calls) in *. unfold judge_tombstone_goes.
  destruct (keep_tombstones j); cbn [orb]; [split; [done | by intros [? _]] |].
  destruct (Z.leb_spec (dirty_from j) offset) as [Hd|Hd]; [split; [done | lia] |].
  destruct (cleaned_after (j_tp j) calls !! j_tp j) as [h'|]; cbn in Hh |- *.
  - subst h'. split.
    + destruct (list_find _ h) as [[i x]|] eqn:Ef; cbn; [| done]. intros Hx. apply Z.leb_le in Hx.
      apply list_find_Some in Ef as (Hi & Ho & _). repeat split; [done |].
      exists x. by apply list_elem_of_lookup_2 in Hi.
    + intros (_ & _ & e & He & Ho & Ht). destruct (list_find_first offset h e Hs He Ho) as (i & x & -> & Hx).
      cbn. apply Z.leb_le. lia.
  - rewrite <- Hh. split; [done |]. intros (_ & _ & e & He & _). by apply elem_of_nil in He.
Qed.

Lemma tombstone_waits_witness :
  judge_tombstone_goes (judge_new (7, 0) 50 100000 86400) (cleaned_after (7, 0) [(10, 900); (60, 14000)]) 4
    = true ↔
    keep_tombstones (judge_new (7, 0) 50 100000 86400) = false ∧
    4 < dirty_from (judge_new (7, 0) 50 100000 86400) ∧
    ∃ e, e ∈ drop (length [(10, 900); (60, 14000)] - CLEANED_HISTORY) [(10, 900); (60, 14000)] ∧
      4 ≤ e.1 ∧ e.2 ≤ tombstone_horizon (judge_new (7, 0) 50 100000 86400).
Proof.
  apply (tombstone_waits (judge_new (7, 0) 50 100000 86400) [(10, 900); (60, 14000)]).
  repeat constructor; cbn; lia.
Defined.

Lemma map_batch_progress_witness :
  match map_batch sum_crc 64 no_decoder fp_be 0 (7, 0) batch_b 100 (map_ab, ∅) with
  | (Err e, st) => verify_crc sum_crc batch_b = Err e ∧ st = (map_ab, ∅)
  | (Ok false, st) => st = (map_ab, ∅)
  | (Ok true, (m', und')) =>
      end_ m' = Z.max (end_ map_ab) (last_offset batch_b) ∧
      (tracks 64 no_decoder fp_be 0 ([batch_a; batch_b] ++ [batch_b]) m' ∨ latest m' = latest map_ab)
  end.
Proof.
  apply (map_batch_progress sum_crc 64 no_decoder fp_be 0 (7, 0) batch_b 100 [batch_a; batch_b] map_ab ∅).
  apply map_ab_tracks.
Defined.

(** ** Timestamp lookup *)

Section Lookup.

Context (entry_size : Z)
  (open_decoder : Z → bytes → result BatchError (bytes * option BatchError)).

(** Looking up a timestamp in a batch that reads: the answer is the first
    record at or after it, with nothing at or after it before; and when no
    record is, the batch's base offset with its largest timestamp. *)
Lemma first_at_or_after_first bs b it rs timestamp :
  batch_new bs = Ok b → records_decompressed open_decoder b = Ok it →
  items entry_size it = Ok <$> rs →
  first_at_or_after entry_size open_decoder bs timestamp =
    match list_find (λ r, timestamp ≤ batch_ts b r) rs with
    | Some (_, r) => Some (record_offset b r, batch_ts b r)
    | None => Some (base_offset b, max_timestamp b)
    end.
Proof.
  intros Hb Hr Hi. unfold first_at_or_after. rewrite Hb, Hr, Hi. clear Hi.
  induction rs as [|r rs IH]; [done |]. cbn [fmap list_fmap find_record list_find].
  destruct (Z.leb_spec timestamp (batch_ts b r)); case_decide; try lia; [done |].
  rewrite IH. by destruct (list_find _ rs) as [[i x]|].
Qed.

End Lookup.

Lemma first_at_or_after_first_witness :
  first_at_or_after 64 no_decoder (rb_bytes batch_a) 11 = Some (1, 11).
Proof.
  refine (eq_trans (first_at_or_after_first 64 no_decoder (rb_bytes batch_a) batch_a
    (mk_iter (Mem (rb_bytes batch_a) 61) 3 3 false true)
    [mk_record 0 0 (Some [x01]) (Some [x61]) [] 0; mk_record 1 1 (Some [x02]) (Some [x62]) [] 0;
     mk_record 2 2 None (Some [x63]) [] 0] 11 _ _ _) _); vm_compute; reflexivity.
Defined.
