(* ===== verification/PendingRing.v ===== *)
(** * extension/src/storage/segment/pending.rs: the ring of reserved offsets

    One partition's ring: the bases of in-flight transactions, ascending, in a
    circular buffer of [cap] entries ([ring], the slice of shared memory), with
    the lowest cached in [min_].  Indices are machine words far below their
    range ([cap] is the number of backends), kept as [nat].  Slice accesses
    are total lookups; under the guards of both operations every index is
    below [cap] ([phys_lt]), where the source does not panic either.

    [view] is the abstract state, the list of reserved bases; the theorems say
    that the ring implements a sorted multiset with its minimum. *)

From Stdlib Require Import Sorting.Sorted.
From S2P Require Import Prelude.

Record PendingRing : Type := mk_ring { min_ : Z; head_ : nat; len_ : nat }.
Definition ring_default : PendingRing := mk_ring (-1) 0 0.

Definition phys (head j cap : nat) : nat :=
  let p := (head + j)%nat in if (cap <=? p)%nat then (p - cap)%nat else p.

Definition floor (r : PendingRing) : option Z :=
  if (0 <? len_ r)%nat then Some (min_ r) else None.

(** [ring[phys(head, j, cap)]], read and written. *)
Definition rget (ring : list Z) (head j : nat) : Z := ring !!! phys head j (length ring).
Definition rset (ring : list Z) (head j : nat) (v : Z) : list Z :=
  <[phys head j (length ring) := v]> ring.

(** The loop of [reserve]: shift entries above [base] up, then write it. *)
Fixpoint reserve_loop (ring : list Z) (head : nat) (base : Z) (j : nat) : list Z :=
  match j with
  | O => rset ring head 0 base
  | S i =>
      if base <? rget ring head i
      then reserve_loop (rset ring head j (rget ring head i)) head base i
      else rset ring head j base
  end.

Definition reserve (r : PendingRing) (ring : list Z) (base : Z) : bool * PendingRing * list Z :=
  let cap := length ring in
  let '(head, len) := (head_ r, len_ r) in
  if (cap <=? len)%nat || (cap <=? head)%nat then (false, r, ring)
  else
    let ring := reserve_loop ring head base len in
    (true, mk_ring (ring !!! head) head (len + 1), ring).

(** The binary search of [release]; [hi - lo] shrinks, so [len] rounds are
    enough ([search_fuel]). *)
Fixpoint search (fuel : nat) (ring : list Z) (head : nat) (base : Z) (lo hi : nat) : nat :=
  match fuel with
  | O => lo
  | S f =>
      if (lo <? hi)%nat then
        let mid := ((lo + hi) / 2)%nat in
        if rget ring head mid <? base then search f ring head base (mid + 1) hi
        else search f ring head base lo mid
      else lo
  end.

(** [for j in (0..lo).rev()]. *)
Fixpoint shift_up (ring : list Z) (head lo : nat) : list Z :=
  match lo with
  | O => ring
  | S j => shift_up (rset ring head (j + 1) (rget ring head j)) head j
  end.
(** [for j in lo..lo + n]. *)
Fixpoint shift_down (ring : list Z) (head lo n : nat) : list Z :=
  match n with
  | O => ring
  | S n' => shift_down (rset ring head lo (rget ring head (lo + 1))) head (lo + 1) n'
  end.

Definition release (r : PendingRing) (ring : list Z) (base : Z) : bool * PendingRing * list Z :=
  let cap := length ring in
  let '(head, len) := (head_ r, len_ r) in
  if (len =? 0)%nat || (cap <? len)%nat || (cap <=? head)%nat then (false, r, ring)
  else
    let lo := search len ring head base 0 len in
    if (lo =? len)%nat || negb (rget ring head lo =? base) then (false, r, ring)
    else
      let '(head', ring) :=
        if (lo <? len / 2)%nat then (phys head 1 cap, shift_up ring head lo)
        else (head, shift_down ring head lo (len - 1 - lo)) in
      if (len - 1 =? 0)%nat then (true, ring_default, ring)
      else (true, mk_ring (ring !!! head') head' (len - 1), ring).

(** ** The ring as a list *)

Definition view (ring : list Z) (head n : nat) : list Z := map (rget ring head) (seq 0 n).

Lemma phys_lt head j cap : (head < cap)%nat → (j < cap)%nat → (phys head j cap < cap)%nat.
Proof. unfold phys. intros. case_match eqn:E; rewrite ?Nat.leb_le, ?Nat.leb_gt in E; lia. Qed.

Lemma phys_inj head i j cap :
  (head < cap)%nat → (i < cap)%nat → (j < cap)%nat → phys head i cap = phys head j cap → i = j.
Proof.
  unfold phys. intros. destruct (Nat.leb_spec cap (head + i)), (Nat.leb_spec cap (head + j)); lia.
Qed.

Lemma phys_1 head j cap :
  (head < cap)%nat → (j + 1 < cap)%nat → phys (phys head 1 cap) j cap = phys head (j + 1) cap.
Proof.
  unfold phys. intros.
  destruct (Nat.leb_spec cap (head + 1)), (Nat.leb_spec cap (head + (j + 1)));
    case_match eqn:E; rewrite ?Nat.leb_le, ?Nat.leb_gt in E; lia.
Qed.

Lemma rset_length ring head j v : length (rset ring head j v) = length ring.
Proof. apply length_insert. Qed.

Lemma rget_rset ring head i j v :
  (head < length ring)%nat → (i < length ring)%nat → (j < length ring)%nat →
  rget (rset ring head j v) head i = if decide (i = j) then v else rget ring head i.
Proof.
  intros Hh Hi Hj. unfold rget. rewrite rset_length. unfold rset. case_decide as E.
  - subst. apply list_lookup_total_insert_eq. by apply phys_lt.
  - apply list_lookup_total_insert_ne. intros Hp. by apply phys_inj in Hp.
Qed.

Lemma view_length ring head n : length (view ring head n) = n.
Proof. unfold view. by rewrite length_map, length_seq. Qed.

Lemma view_lookup ring head n j : (j < n)%nat → view ring head n !! j = Some (rget ring head j).
Proof. intros. unfold view. rewrite list_lookup_fmap, lookup_seq_lt by done. done. Qed.

Lemma view_total ring head n j : (j < n)%nat → view ring head n !!! j = rget ring head j.
Proof. intros. apply list_lookup_total_correct. by apply view_lookup. Qed.

(** Writing an entry of the ring is writing it in the list. *)
Lemma view_rset ring head n j v :
  (head < length ring)%nat → (n ≤ length ring)%nat → (j < n)%nat →
  view (rset ring head j v) head n = <[j := v]> (view ring head n).
Proof.
  intros Hh Hn Hj. apply list_eq. intros i. destruct (decide (i < n)%nat).
  - rewrite view_lookup, rget_rset by lia. case_decide as E.
    + subst. by rewrite list_lookup_insert_eq by (by rewrite view_length).
    + by rewrite list_lookup_insert_ne, view_lookup by lia.
  - rewrite !lookup_ge_None_2; rewrite ?length_insert, ?view_length; lia || done.
Qed.

Lemma view_head ring head n : (0 < n)%nat → (head < length ring)%nat →
  ∃ l, view ring head n = ring !!! head :: l.
Proof.
  intros Hn Hh. destruct n as [|n]; [lia |]. eexists. unfold view. cbn [seq map]. f_equal.
  unfold rget, phys. rewrite Nat.add_0_r. by rewrite (proj2 (Nat.leb_gt _ _)) by lia.
Qed.

(** ** Reserving *)

Lemma insert_at_app {A} (a b : list A) x y : <[length a := y]> (a ++ x :: b) = a ++ y :: b.
Proof. rewrite insert_app_r_alt by lia. by rewrite Nat.sub_diag. Qed.

(** The loop, on a list split at the gap: the entries above [base] end up
    after it. *)
Lemma reserve_loop_view ring head base n v1 x v2 :
  (head < length ring)%nat → (n ≤ length ring)%nat →
  view ring head n = v1 ++ x :: v2 →
  ∃ a b, v1 = a ++ b ∧ Forall (λ y, base < y) b ∧ (∀ y, last a = Some y → y ≤ base) ∧
    view (reserve_loop ring head base (length v1)) head n = a ++ base :: b ++ v2 ∧
    length (reserve_loop ring head base (length v1)) = length ring.
Proof.
  revert ring x v2. induction v1 as [|y v1 IH] using rev_ind; intros ring x v2 Hh Hn Hv.
  - exists [], []. cbn [reserve_loop length app].
    assert (n = S (length v2)) by (by rewrite <- (view_length ring head n), Hv).
    rewrite view_rset, Hv by lia.
    repeat split; [constructor | done | by rewrite rset_length].
  - rewrite <- app_assoc in Hv. cbn [app] in Hv.
    assert (Hlen : n = (length v1 + S (S (length v2)))%nat).
    { rewrite <- (view_length ring head n), Hv, length_app. done. }
    assert (Hy : rget ring head (length v1) = y).
    { rewrite <- (view_total ring head n), Hv by lia.
      apply list_lookup_total_correct. by rewrite list_lookup_middle. }
    rewrite length_app, Nat.add_comm. cbn [length Nat.add reserve_loop]. rewrite Hy.
    replace (S (length v1)) with (length (v1 ++ [y])) by (rewrite length_app; cbn; lia).
    assert (Hset : ∀ z, view (rset ring head (length (v1 ++ [y])) z) head n = v1 ++ y :: z :: v2).
    { intros z. rewrite view_rset, Hv by (rewrite ?length_app; cbn; lia).
      change (y :: x :: v2) with ([y] ++ x :: v2). rewrite app_assoc, insert_at_app.
      by rewrite <- app_assoc. }
    destruct (Z.ltb_spec base y) as [Hlt|Hge].
    + destruct (IH (rset ring head (length (v1 ++ [y])) y) y (y :: v2)) as (a & b & -> & Hb & Ha & Hvw & Hl);
        [by rewrite rset_length.. | by apply Hset |].
      exists a, (b ++ [y]). split; [by rewrite app_assoc |].
      split; [apply Forall_app; by repeat constructor |]. split; [done |].
      rewrite Hl, Hvw, rset_length. by rewrite <- app_assoc.
    + exists (v1 ++ [y]), []. rewrite Hset, rset_length. rewrite app_nil_r, <- app_assoc.
      split; [done |]. split; [done |]. split; [rewrite last_snoc; by intros ? [= <-] |]. done.
Qed.

(** ** The invariant *)

Definition ring_wf (r : PendingRing) (ring : list Z) : Prop :=
  (head_ r < length ring)%nat ∧ (len_ r ≤ length ring)%nat ∧
  StronglySorted Z.le (view ring (head_ r) (len_ r)) ∧
  ((0 < len_ r)%nat → min_ r = ring !!! head_ r) ∧ (len_ r = 0%nat → min_ r = -1).

(** The reserved bases. *)
Definition bases (r : PendingRing) (ring : list Z) : list Z := view ring (head_ r) (len_ r).

Lemma sorted_insert a base b :
  StronglySorted Z.le (a ++ b) → Forall (λ y, base < y) b → (∀ y, last a = Some y → y ≤ base) →
  StronglySorted Z.le (a ++ base :: b).
Proof.
  induction a as [|x a IH]; cbn [app]; intros Hs Hb Ha.
  - constructor; [done |]. eapply Forall_impl; [done |]. cbn. lia.
  - inversion Hs as [|? ? Hs' Hx]; subst. apply Forall_app in Hx as [Hxa Hxb].
    assert (x ≤ base).
    { destruct a as [|y a]; [by apply Ha |].
      destruct (last (y :: a)) as [z|] eqn:E; [| by apply last_None in E].
      assert (z ≤ base) by (apply Ha; by rewrite last_cons_cons).
      apply last_Some_elem_of in E. rewrite Forall_forall in Hxa. specialize (Hxa z E). cbn in Hxa. lia. }
    constructor.
    + apply IH; [done | done |]. intros y Hy. apply Ha. destruct a; [done |]. by rewrite last_cons_cons.
    + apply Forall_app. split; [done |]. constructor; done.
Qed.

(** Reserving implements insertion into a sorted multiset: with room, it
    answers true and the bases are the old ones and the new one, still sorted;
    the full ring answers false and nothing changes. *)
Theorem reserve_inserts r ring base :
  ring_wf r ring →
  let '(ok, r', ring') := reserve r ring base in
  ring_wf r' ring' ∧ length ring' = length ring ∧
  if (len_ r <? length ring)%nat then ok = true ∧ bases r' ring' ≡ₚ base :: bases r ring
  else ok = false ∧ r' = r ∧ ring' = ring.
Proof.
  intros Hwf. pose proof Hwf as (Hh & Hl & Hs & Hm & H0). unfold reserve. destruct r as [mn head n]. cbn [min_ head_ len_] in *.
  destruct (Nat.ltb_spec n (length ring)) as [Hlt|Hge].
  2:{ rewrite (proj2 (Nat.leb_le (length ring) n)) by lia. cbn [orb min_ head_ len_]. split; [exact Hwf |]. by split. }
  rewrite (proj2 (Nat.leb_gt (length ring) n)), (proj2 (Nat.leb_gt (length ring) head)) by lia. cbn [orb].
  assert (Hv : view ring head (n + 1) = view ring head n ++ [rget ring head n]).
  { unfold view. by rewrite seq_app, map_app. }
  destruct (reserve_loop_view ring head base (n + 1) _ _ _ Hh ltac:(lia) Hv) as (a & b & Hab & Hb & Ha & Hvw & Hlen).
  rewrite view_length in *. set (ring' := reserve_loop ring head base n) in *. rewrite app_nil_r in Hvw.
  split; [| split; [done |]].
  - unfold ring_wf. cbn [orb min_ head_ len_]. rewrite Hlen, Hvw. split; [done |]. split; [lia |].
    split; [apply sorted_insert; by rewrite <- ?Hab |]. split; [done | lia].
  - split; [done |]. unfold bases. cbn [orb min_ head_ len_]. rewrite Hvw, Hab. symmetry. apply Permutation_middle.
Qed.

(** ** Releasing *)

Lemma sorted_lookup_le l i j x y :
  StronglySorted Z.le l → l !! i = Some x → l !! j = Some y → (i < j)%nat → x ≤ y.
Proof.
  intros Hs. revert i j. induction Hs as [|z l Hs IH Hz]; intros i j Hi Hj Hij; [done |].
  destruct j as [|j]; [lia |]. cbn in Hj. destruct i as [|i]; cbn in Hi.
  - simplify_eq. by eapply Forall_lookup_1 in Hz.
  - apply (IH i j); [done | done | lia].
Qed.

Lemma search_spec ring head base n fuel lo hi :
  (head < length ring)%nat → StronglySorted Z.le (view ring head n) →
  (lo ≤ hi ≤ n)%nat → (hi - lo ≤ fuel)%nat →
  (∀ j, (j < lo)%nat → rget ring head j < base) →
  (∀ j, (hi ≤ j < n)%nat → base ≤ rget ring head j) →
  let r := search fuel ring head base lo hi in
  (lo ≤ r ≤ hi)%nat ∧ (∀ j, (j < r)%nat → rget ring head j < base) ∧
  (∀ j, (r ≤ j < n)%nat → base ≤ rget ring head j).
Proof.
  intros Hh Hs.
  assert (Hmono : ∀ i j, (i ≤ j < n)%nat → rget ring head i ≤ rget ring head j).
  { intros i j Hij. destruct (decide (i = j)) as [->|]; [done |].
    apply (sorted_lookup_le (view ring head n) i j);
      [done | apply view_lookup; lia | apply view_lookup; lia | lia]. }
  revert lo hi. induction fuel as [|fuel IH]; intros lo hi Hr Hf Hlo Hhi; cbn [search].
  - assert (lo = hi) as -> by lia. by split; [lia |].
  - destruct (Nat.ltb_spec lo hi); [| by assert (lo = hi) as -> by lia; split; [lia |]].
    assert (Hmid : (lo ≤ (lo + hi) / 2 < hi)%nat).
    { split; [apply Nat.div_le_lower_bound; lia | apply Nat.Div0.div_lt_upper_bound; lia]. }
    set (mid := ((lo + hi) / 2)%nat) in *. clearbody mid.
    destruct (Z.ltb_spec (rget ring head mid) base).
    + destruct (IH (mid + 1)%nat hi) as (? & ? & ?); [lia | lia | | done |].
      * intros j Hj. pose proof (Hmono j mid ltac:(lia)). lia.
      * by split; [lia |].
    + destruct (IH lo mid) as (? & ? & ?); [lia | lia | done | |].
      * intros j Hj. pose proof (Hmono mid j ltac:(lia)). lia.
      * by split; [lia |].
Qed.

(** Moving the front part up by one: the entry at [lo] is overwritten. *)
Lemma shift_up_view ring head n a x b :
  (head < length ring)%nat → (n ≤ length ring)%nat → view ring head n = a ++ x :: b →
  length (shift_up ring head (length a)) = length ring ∧
  ∃ y, view (shift_up ring head (length a)) head n = y :: a ++ b.
Proof.
  intros Hh Hn. revert ring x b Hh Hn. induction a as [|z a IH] using rev_ind; intros ring x b Hh Hn Hv.
  - split; [done |]. by exists x.
  - rewrite <- app_assoc in Hv. cbn [app] in Hv.
    assert (Hlen : n = (length a + S (S (length b)))%nat).
    { rewrite <- (view_length ring head n), Hv, length_app. done. }
    assert (Hz : rget ring head (length a) = z).
    { rewrite <- (view_total ring head n), Hv by lia.
      apply list_lookup_total_correct. by rewrite list_lookup_middle. }
    rewrite length_app, Nat.add_comm. cbn [length Nat.add shift_up]. rewrite Hz.
    destruct (IH (rset ring head (length a + 1) z) z (z :: b)) as [Hl [y Hy]].
    + by rewrite rset_length.
    + by rewrite rset_length.
    + rewrite view_rset, Hv by lia. change (z :: x :: b) with ([z] ++ x :: b).
      replace (length a + 1)%nat with (length (a ++ [z])) by (by rewrite length_app).
      rewrite app_assoc, insert_at_app. by rewrite <- app_assoc.
    + rewrite Hl, rset_length. split; [done |]. exists y. rewrite Hy. by rewrite <- app_assoc.
Qed.

(** Moving the back part down by one: the entry at [lo] is overwritten. *)
Lemma shift_down_view ring head n a x b :
  (head < length ring)%nat → (n ≤ length ring)%nat → view ring head n = a ++ x :: b →
  length (shift_down ring head (length a) (length b)) = length ring ∧
  ∃ y, view (shift_down ring head (length a) (length b)) head n = a ++ b ++ [y].
Proof.
  revert ring a x. induction b as [|z b IH]; intros ring a x Hh Hn Hv; cbn [length shift_down].
  - split; [done |]. by exists x.
  - assert (Hlen : n = (length a + S (S (length b)))%nat).
    { rewrite <- (view_length ring head n), Hv, length_app. done. }
    assert (Hz : rget ring head (length a + 1) = z).
    { rewrite <- (view_total ring head n), Hv by lia. apply list_lookup_total_correct.
      rewrite lookup_app_r by lia. by replace (length a + 1 - length a)%nat with 1%nat by lia. }
    rewrite Hz. destruct (IH (rset ring head (length a) z) (a ++ [z]) z) as [Hl [y Hy]].
    + by rewrite rset_length.
    + by rewrite rset_length.
    + by rewrite view_rset, Hv, insert_at_app, <- app_assoc by lia.
    + rewrite length_app in Hl, Hy. cbn [length] in Hl, Hy. rewrite rset_length in Hl.
      split; [done |]. exists y. rewrite Hy. by rewrite <- app_assoc.
Qed.

(** The view from the next slot is the view without its first entry. *)
Lemma view_next ring head n y l :
  (head < length ring)%nat → (n ≤ length ring)%nat → view ring head n = y :: l →
  view ring (phys head 1 (length ring)) (n - 1) = l.
Proof.
  intros Hh Hn Hv. apply list_eq. intros j. destruct (decide (j < n - 1)%nat).
  - rewrite view_lookup by done. unfold rget. rewrite phys_1 by lia. fold (rget ring head (j + 1)).
    rewrite <- (view_lookup ring head n) by lia. rewrite Hv, Nat.add_1_r. done.
  - assert (length l = (n - 1)%nat) by (rewrite <- (view_length ring head n), Hv; cbn; lia).
    rewrite !lookup_ge_None_2; rewrite ?view_length; done || lia.
Qed.

Lemma view_last ring head n y l :
  (0 < n)%nat → view ring head n = l ++ [y] → view ring head (n - 1) = l.
Proof.
  intros Hn Hv. assert (E : view ring head n = view ring head (n - 1) ++ [rget ring head (n - 1)]).
  { unfold view. replace n with (n - 1 + 1)%nat at 1 by lia. by rewrite seq_app, map_app. }
  rewrite E in Hv. by apply app_inj_tail in Hv as [-> _].
Qed.

Lemma sorted_remove a x (b : list Z) : StronglySorted Z.le (a ++ x :: b) → StronglySorted Z.le (a ++ b).
Proof.
  induction a as [|y a IH]; cbn [app]; intros H; inversion H as [|? ? Hs Hy]; subst; [done |].
  constructor; [by apply IH |]. apply Forall_app in Hy as [Ha Hb]. apply Forall_app.
  split; [done |]. by inversion Hb.
Qed.

(** Where the search ends, the list splits at the first base not below. *)
Lemma search_split r ring base :
  ring_wf r ring →
  let lo := search (len_ r) ring (head_ r) base 0 (len_ r) in
  (lo ≤ len_ r)%nat ∧
  (if decide ((lo < len_ r)%nat ∧ rget ring (head_ r) lo = base) then
     ∃ a b, bases r ring = a ++ base :: b ∧ length a = lo
   else base ∉ bases r ring).
Proof.
  intros (Hh & Hl & Hs & _ & _). destruct r as [mn head n]. cbn [head_ len_ bases] in *.
  destruct (search_spec ring head base n n 0 n Hh Hs) as (Hr & Hlo & Hhi); [lia | lia | lia | lia |].
  set (lo := search n ring head base 0 n) in *. clearbody lo. split; [lia |]. unfold bases. cbn [head_ len_].
  case_decide as Hd.
  - destruct Hd as [Hlt He]. exists (take lo (view ring head n)), (drop (S lo) (view ring head n)).
    split; [| rewrite length_take, view_length; lia].
    symmetry. apply take_drop_middle. by rewrite view_lookup, He.
  - intros Hin. apply list_elem_of_lookup in Hin as [j Hj].
    assert (Hjn : (j < n)%nat) by (apply lookup_lt_Some in Hj; by rewrite view_length in Hj).
    rewrite view_lookup in Hj by done. injection Hj as Hj.
    destruct (decide (j < lo)%nat) as [Hc|Hc]; [specialize (Hlo j Hc); lia |].
    apply Hd. split; [lia |]. pose proof (Hhi lo ltac:(lia)).
    destruct (decide (lo = j)) as [->|]; [done |].
    assert (rget ring head lo ≤ rget ring head j); [| lia].
    apply (sorted_lookup_le (view ring head n) lo j); [done | apply view_lookup; lia.. | lia].
Qed.

(** What both branches of the removal leave. *)
Lemma release_shift ring head n a x b :
  (head < length ring)%nat → (n ≤ length ring)%nat → view ring head n = a ++ x :: b →
  let '(head', ring') :=
    if (length a <? n / 2)%nat then (phys head 1 (length ring), shift_up ring head (length a))
    else (head, shift_down ring head (length a) (n - 1 - length a)) in
  length ring' = length ring ∧ (head' < length ring)%nat ∧ view ring' head' (n - 1) = a ++ b.
Proof.
  intros Hh Hn Hv.
  assert (Hlen : n = (length a + S (length b))%nat).
  { rewrite <- (view_length ring head n), Hv, length_app. done. }
  destruct (Nat.ltb_spec (length a) (n / 2)).
  - destruct (shift_up_view ring head n a x b Hh Hn Hv) as [Hl [y Hy]]. split; [done |].
    assert (1 < length ring)%nat.
    { assert (n / 2 ≤ n - 1)%nat; [| lia].
      pose proof (Nat.div_mod n 2 ltac:(lia)). lia. }
    split; [by apply phys_lt |]. rewrite <- Hl. by eapply view_next; rewrite ?Hl.
  - replace (n - 1 - length a)%nat with (length b) by lia.
    destruct (shift_down_view ring head n a x b Hh Hn Hv) as [Hl [y Hy]]. split; [done |]. split; [done |].
    rewrite app_assoc in Hy. by eapply view_last; [lia |].
Qed.

(** Releasing implements removal: a reserved base is removed, once, and the
    rest stays sorted; a base that is not reserved answers false and nothing
    changes. *)
Theorem release_removes r ring base :
  ring_wf r ring →
  let '(ok, r', ring') := release r ring base in
  ring_wf r' ring' ∧ length ring' = length ring ∧
  if decide (base ∈ bases r ring) then ok = true ∧ bases r ring ≡ₚ base :: bases r' ring'
  else ok = false ∧ r' = r ∧ ring' = ring.
Proof.
  intros Hwf. destruct (search_split r ring base Hwf) as [Hle Hsp].
  pose proof Hwf as (Hh & Hl & Hs & _ & _). unfold release. destruct r as [mn head n]. cbn [head_ len_] in *.
  rewrite (proj2 (Nat.ltb_ge (length ring) n)), (proj2 (Nat.leb_gt (length ring) head)) by lia.
  destruct (Nat.eqb_spec n 0) as [->|Hn0]; cbn [orb].
  { split; [done |]. split; [done |]. rewrite decide_False; [done |]. by apply not_elem_of_nil. }
  set (lo := search n ring head base 0 n) in *. clearbody lo.
  case_decide as Hd.
  - destruct Hd as [Hlt He]. destruct Hsp as (a & b & Hv & <-). unfold bases in *. cbn [head_ len_] in *.
    rewrite (proj2 (Nat.eqb_neq _ _)), He, Z.eqb_refl by lia. cbn [negb orb].
    pose proof (release_shift ring head n a base b Hh Hl Hv) as Hsh.
    destruct (if (length a <? n / 2)%nat then _ else _) as [head' ring'].
    destruct Hsh as (Hl' & Hh' & Hv'). rewrite Hv in Hs |- *. apply sorted_remove in Hs.
    assert (Hin : base ∈ a ++ base :: b) by (apply elem_of_app; right; constructor).
    destruct (Nat.eqb_spec (n - 1) 0) as [E1|E1]; rewrite decide_True by done.
    + rewrite E1 in Hv'. cbn [bases head_ len_ ring_default]. change (view ring' 0 0) with (@nil Z).
      assert (a ++ b = []) as Hab by (by rewrite <- Hv'). apply app_eq_nil in Hab as [-> ->].
      split; [| by split]. unfold ring_wf. cbn [head_ len_ min_ ring_default]. split; [lia |].
      split; [lia |]. split; [constructor |]. split; [lia | done].
    + split; [unfold ring_wf; cbn [head_ len_ min_]; rewrite Hv'; repeat split; done || lia |].
      split; [done |]. split; [done |]. cbn [head_ len_]. rewrite Hv'. symmetry. apply Permutation_middle.
  - assert ((lo =? n)%nat || negb (rget ring head lo =? base) = true) as ->.
    { apply orb_true_iff. destruct (Nat.eqb_spec lo n); [by left | right].
      apply negb_true_iff, Z.eqb_neq. intros He. apply Hd. split; [lia | done]. }
    split; [done |]. split; [done |]. by rewrite decide_False.
Qed.

(** The cached floor is the minimum: there is one exactly when something is
    reserved, and it is a reserved base no other is below. *)
Theorem floor_is_minimum r ring :
  ring_wf r ring →
  match floor r with
  | Some m => m ∈ bases r ring ∧ ∀ x, x ∈ bases r ring → m ≤ x
  | None => bases r ring = []
  end.
Proof.
  intros (Hh & Hl & Hs & Hm & _). unfold floor, bases. destruct r as [mn head n]. cbn [head_ len_ min_] in *.
  destruct (Nat.ltb_spec 0 n) as [Hn|Hn].
  - rewrite (Hm Hn). destruct (view_head ring head n Hn Hh) as [l Hv]. rewrite Hv in *.
    split; [constructor |]. intros x Hx. inversion Hs as [|? ? _ Hf]; subst.
    apply elem_of_cons in Hx as [->|Hx]; [done |]. rewrite Forall_forall in Hf. by apply Hf.
  - by replace n with 0%nat by lia.
Qed.

(** ** A ring that wraps around *)

Definition sample_ring : PendingRing := mk_ring 10 2 3.
Definition sample_slots : list Z := [20; 0; 10; 20].

Lemma sample_ring_wf : ring_wf sample_ring sample_slots.
Proof.
  unfold ring_wf, sample_ring, sample_slots. cbn [head_ len_ min_ length].
  split; [lia |]. split; [lia |]. split; [repeat constructor; cbn; lia |].
  split; [by intros _ | lia].
Qed.

Lemma reserve_inserts_witness :
  let '(ok, r', ring') := reserve sample_ring sample_slots 15 in
  ring_wf r' ring' ∧ length ring' = length sample_slots ∧
  if (len_ sample_ring <? length sample_slots)%nat
  then ok = true ∧ bases r' ring' ≡ₚ 15 :: bases sample_ring sample_slots
  else ok = false ∧ r' = sample_ring ∧ ring' = sample_slots.
Proof. apply (reserve_inserts sample_ring sample_slots 15). apply sample_ring_wf. Defined.

Lemma release_removes_witness :
  let '(ok, r', ring') := release sample_ring sample_slots 20 in
  ring_wf r' ring' ∧ length ring' = length sample_slots ∧
  if decide (20 ∈ bases sample_ring sample_slots)
  then ok = true ∧ bases sample_ring sample_slots ≡ₚ 20 :: bases r' ring'
  else ok = false ∧ r' = sample_ring ∧ ring' = sample_slots.
Proof. apply (release_removes sample_ring sample_slots 20). apply sample_ring_wf. Defined.

Lemma floor_is_minimum_witness :
  match floor sample_ring with
  | Some m => m ∈ bases sample_ring sample_slots ∧ ∀ x, x ∈ bases sample_ring sample_slots → m ≤ x
  | None => bases sample_ring sample_slots = []
  end.
Proof. apply (floor_is_minimum sample_ring sample_slots). apply sample_ring_wf. Defined.
