(* ===== verification/Producer.v ===== *)
(** * extension/src/producer.rs: idempotent producer state

    Producer ids and epochs, and the five-deep window of appended batches per
    producer and partition that makes a retry a duplicate and a gap an error.

    The state is the tables the SQL of the source works on.
    [kafgres_producers] is keyed by producer id.  [kafgres_producer_batches] is
    the list of its rows in [added_seq] order: a statement that draws a new
    [added_seq] puts its row last, and [ORDER BY added_seq] is the order of the
    list.  [kafgres_txns] is keyed by producer id.  Times are seconds, but for
    the transaction rows, whose clock is in milliseconds; [now] is the transaction's [now()].  The statements run inside one
    database transaction; [SqlError] is a statement that fails and takes it
    down. *)

From stdpp Require Import gmap strings sorting.
From S2P Require Import Prelude.

Definition RETAINED_BATCHES : nat := 5.
Definition NO_PRODUCER_ID : Z := -1.
Definition NO_SEQUENCE : Z := -1.
Definition LAST_TS_GRANULARITY_SECS : Z := 60.
Definition SWEEP_BATCH : nat := 500.
Definition EVICTION_FLOOR_SECS : Z := 300.

Inductive SequenceCheck : Type :=
| Append
| Duplicate (base_offset : Z)
| OutOfOrder (expected got : Z)
| Stale
| Fenced (current_epoch : Z).

Definition increment_sequence (sequence increment : Z) : Z :=
  let max := i32_max in
  if max - increment <? sequence then wrap_i 32 (increment - (max - sequence) - 1)
  else wrap_i 32 (sequence + increment).

Definition in_sequence (last_seq next_seq : Z) : bool :=
  (next_seq =? last_seq + 1) || ((next_seq =? 0) && (last_seq =? i32_max)).

(** ** Tables *)

Record ProducerRow : Type := mk_producer {
  pr_epoch : Z;
  pr_transactional_id : option string;
  pr_retired : option (Z * Z * bool);
  pr_last_ts : Z }.

Record BatchRow : Type := mk_row {
  br_producer : Z;
  br_topic : Z;
  br_partition : Z;
  br_epoch : Z;
  br_first : Z;
  br_last : Z;
  br_base : Z }.

(** The values the [state] column is written with. *)
Inductive TxnState : Type := TxnEmpty | TxnOngoing | TxnCommitted | TxnAborted.
#[export] Instance TxnState_eq_dec : EqDecision TxnState.
Proof. solve_decision. Defined.

(** A row of [kafgres_txns]: times in milliseconds. *)
Record TxnRow : Type := mk_txn {
  tx_epoch : Z;
  tx_transactional_id : string;
  tx_state : TxnState;
  tx_started_at : Z;
  tx_timeout_ms : Z;
  tx_forced : option bool;
  tx_offsets_partitions : list Z }.

Definition tx_ongoing (t : TxnRow) : bool := bool_decide (tx_state t = TxnOngoing).
Definition set_tx_epoch (e : Z) (t : TxnRow) : TxnRow :=
  mk_txn e (tx_transactional_id t) (tx_state t) (tx_started_at t) (tx_timeout_ms t) (tx_forced t)
    (tx_offsets_partitions t).

Record Db : Type := mk_db {
  producers : gmap Z ProducerRow;
  batches : list BatchRow;
  txns : gmap Z TxnRow;
  epoch_starts : gmap (Z * Z) Z;
  next_producer_id : Z }.

Inductive SqlError : Type := SmallintOutOfRange.

Abbreviation sql A := (ST Db SqlError A).

Definition set_producers (f : gmap Z ProducerRow → gmap Z ProducerRow) (d : Db) : Db :=
  mk_db (f (producers d)) (batches d) (txns d) (epoch_starts d) (next_producer_id d).
Definition set_batches (f : list BatchRow → list BatchRow) (d : Db) : Db :=
  mk_db (producers d) (f (batches d)) (txns d) (epoch_starts d) (next_producer_id d).

(** [smallint + 1]. *)
Definition smallint_succ (z : Z) : option Z := if z <? i16_max then Some (z + 1) else None.

(** The row holding a transactional id, which is [UNIQUE]. *)
Definition find_transactional (id : string) (d : Db) : option (Z * ProducerRow) :=
  snd <$> list_find (λ p, pr_transactional_id p.2 = Some id) (map_to_list (producers d)).

(** ** Ids and epochs *)

(** The [INSERT .. ON CONFLICT] of [init_producer_id]; [nextval] is drawn
    whether or not the row is there. *)
Definition init_producer_id (now : Z) (transactional_id : option string) : sql (Z * Z) := λ d,
  let id := next_producer_id d in
  let insert row ps := mk_db (<[id := row]> ps) (batches d) (txns d) (epoch_starts d) (id + 1) in
  match transactional_id with
  | Some txn_id =>
      match find_transactional txn_id d with
      | Some (pid, row) =>
          match smallint_succ (pr_epoch row) with
          | Some e =>
              (Ok (pid, e),
               mk_db (<[pid := mk_producer e (Some txn_id) None now]> (producers d)) (batches d)
                 (txns d) (epoch_starts d) (id + 1))
          | None => (Err SmallintOutOfRange, d)
          end
      | None => (Ok (id, 0), insert (mk_producer 0 (Some txn_id) None now) (producers d))
      end
  | None => (Ok (id, 0), insert (mk_producer 0 None None now) (producers d))
  end.

Definition EPOCH_CEILING : Z := i16_max - 1.

Definition of_producer (pid : Z) (b : BatchRow) : bool := br_producer b =? pid.

(** The [DELETE .. INSERT .. UPDATE .. DELETE] statement of
    [bump_epoch_for_next_txn], for a producer row that is there. *)
Definition move_to_fresh_id (now pid : Z) (row : ProducerRow) (committed : bool) (d : Db) : Db :=
  let id := next_producer_id d in
  let ps := <[id := mk_producer 0 (pr_transactional_id row) (Some (pid, pr_epoch row, committed)) now]>
              (delete pid (producers d)) in
  let ts := match txns d !! pid with
            | Some t => <[id := set_tx_epoch 0 t]> (delete pid (txns d))
            | None => txns d
            end in
  mk_db ps (filter (λ b, of_producer pid b = false) (batches d)) ts (epoch_starts d) (id + 1).

Definition bump_epoch_for_next_txn (now pid : Z) (committed : bool) : sql (Z * Z) := λ d,
  match producers d !! pid with
  | Some row =>
      if pr_epoch row <? EPOCH_CEILING then
        let e := pr_epoch row + 1 in
        (Ok (pid, wrap_i 16 e),
         set_producers <[pid := mk_producer e (pr_transactional_id row)
                                  (Some (pid, pr_epoch row, committed)) now]> d)
      else (Ok (next_producer_id d, 0), move_to_fresh_id now pid row committed d)
  | None => (Ok (pid, -1), d)
  end.

(** ** The window *)

(** [WHERE producer_id = .. AND topic_id = .. AND partition = ..]. *)
Definition at_key (pid topic part : Z) (b : BatchRow) : bool :=
  (br_producer b =? pid) && (br_topic b =? topic) && (br_partition b =? part).

Definition window_rows (pid topic part : Z) (d : Db) : list BatchRow :=
  filter (λ b, at_key pid topic part b = true) (batches d).

(** [window]: the rows, and the epoch's start as the last row of the loop
    carries it. *)
Definition window (pid topic part : Z) (d : Db) : list BatchRow * Z :=
  let rows := window_rows pid topic part d in
  (rows, match rows with [] => 0 | _ => default 0 (epoch_starts d !! (topic, part)) end).

(** The decision of [check] on a window. *)
Definition check_window (retained : list BatchRow) (epoch_start : Z)
    (producer_epoch first_seq last_seq : Z) : SequenceCheck :=
  match last retained with
  | None => Append
  | Some newest =>
      let current_epoch := br_epoch newest in
      if producer_epoch <? current_epoch then Fenced current_epoch
      else if current_epoch <? producer_epoch then
        if negb (first_seq =? 0) then OutOfOrder 0 first_seq else Append
      else
        match list_find (λ r, br_epoch r = current_epoch ∧ br_first r = first_seq ∧ br_last r = last_seq)
                retained with
        | Some (_, dup) => Duplicate (br_base dup)
        | None =>
            if in_sequence (br_last newest) first_seq then Append
            else if (0 <=? br_base newest) && (br_base newest <? epoch_start) then Stale
            else OutOfOrder (increment_sequence (br_last newest) 1) first_seq
        end
  end.

Definition check (pid producer_epoch first_seq last_seq topic part : Z) (d : Db) : SequenceCheck :=
  let '(retained, epoch_start) := window pid topic part d in
  check_window retained epoch_start producer_epoch first_seq last_seq.

(** Drop the [n] oldest rows of the key. *)
Fixpoint drop_oldest (pid topic part : Z) (n : nat) (l : list BatchRow) : list BatchRow :=
  match l with
  | [] => []
  | b :: l' =>
      if at_key pid topic part b then
        match n with
        | O => b :: drop_oldest pid topic part 0 l'
        | S n' => drop_oldest pid topic part n' l'
        end
      else b :: drop_oldest pid topic part n l'
  end.

(** The prune: rows of the key older than its fifth newest go. *)
Definition prune (pid topic part : Z) (l : list BatchRow) : list BatchRow :=
  let held := length (filter (λ b, at_key pid topic part b = true) l) in
  drop_oldest pid topic part (held - RETAINED_BATCHES) l.

Definition conflicts (b b' : BatchRow) : bool :=
  at_key (br_producer b) (br_topic b) (br_partition b) b' && (br_first b' =? br_first b).

(** [record]: upsert as the newest row, prune, refresh [last_ts]. *)
Definition record (now pid producer_epoch topic part first_seq last_seq base_offset : Z) (d : Db) : Db :=
  let b := mk_row pid topic part producer_epoch first_seq last_seq base_offset in
  let upserted := filter (λ b', conflicts b b' = false) (batches d) ++ [b] in
  let d := set_batches (λ _, prune pid topic part upserted) d in
  match producers d !! pid with
  | Some row =>
      if pr_last_ts row <? now - LAST_TS_GRANULARITY_SECS then
        set_producers <[pid := mk_producer (pr_epoch row) (pr_transactional_id row) (pr_retired row) now]> d
      else d
  | None => d
  end.

Definition forget_past (topic part end_ : Z) (d : Db) : Db :=
  set_batches (filter (λ b, ((br_topic b =? topic) && (br_partition b =? part) &&
    (end_ <=? br_base b)) = false)) d.

Definition set_base (base : Z) (b : BatchRow) : BatchRow :=
  mk_row (br_producer b) (br_topic b) (br_partition b) (br_epoch b) (br_first b) (br_last b) base.

Definition stamp (pid topic part first_seq base_offset : Z) (d : Db) : Db :=
  set_batches (map (λ b, if at_key pid topic part b && (br_first b =? first_seq)
                         then set_base base_offset b else b)) d.

Definition release (pid topic part first_seq : Z) (d : Db) : Db :=
  set_batches (filter (λ b, (at_key pid topic part b && (br_first b =? first_seq) &&
    (br_base b <? 0)) = false)) d.

(** ** The sweep *)

Record Retention : Type := mk_retention { expiration_ms : Z; max_ids : Z }.

Definition ongoing (d : Db) (pid : Z) : bool :=
  match txns d !! pid with Some t => tx_ongoing t | None => false end.

Definition by_last_ts (a b : Z * ProducerRow) : Prop := pr_last_ts a.2 ≤ pr_last_ts b.2.
#[export] Instance by_last_ts_dec a b : Decision (by_last_ts a b).
Proof. unfold by_last_ts. apply _. Defined.

(** [ORDER BY last_ts LIMIT n], skipping rows another transaction locks. *)
Definition victims (locked : Z → bool) (doomed : Z * ProducerRow → bool) (d : Db) : list Z :=
  let rows := filter (λ p, doomed p && negb (ongoing d p.1) && negb (locked p.1) = true)
                (map_to_list (producers d)) in
  fst <$> take SWEEP_BATCH (merge_sort by_last_ts rows).

(** [DELETE .. USING victims], and the batches of what went. *)
Definition drop_producers (vs : list Z) (d : Db) : Db :=
  mk_db (filter (λ p, p.1 ∉ vs) (producers d)) (filter (λ b, br_producer b ∉ vs) (batches d))
    (txns d) (epoch_starts d) (next_producer_id d).

(** [ORDER BY last_ts DESC, producer_id DESC OFFSET n LIMIT 1]. *)
Definition newest_first (a b : Z * ProducerRow) : Prop :=
  pr_last_ts b.2 < pr_last_ts a.2 ∨ pr_last_ts b.2 = pr_last_ts a.2 ∧ b.1 ≤ a.1.
#[export] Instance newest_first_dec a b : Decision (newest_first a b).
Proof. unfold newest_first. apply _. Defined.
Definition cut_ts (n : Z) (d : Db) : option Z :=
  (λ p, pr_last_ts p.2) <$> merge_sort newest_first (map_to_list (producers d)) !! Z.to_nat n.

(** [last_ts < now() - expiration_ms / 1000] is compared in milliseconds. *)
Definition sweep (now : Z) (locked : Z → bool) (policy : Retention) (d : Db) : Z * Db :=
  let '(n1, d1) :=
    if 0 <? expiration_ms policy then
      let vs := victims locked (λ p, 1000 * pr_last_ts p.2 <? 1000 * now - expiration_ms policy) d in
      (Z.of_nat (length vs), drop_producers vs d)
    else (0, d) in
  let '(n2, d2) :=
    if 0 <? max_ids policy then
      match cut_ts (max_ids policy) d1 with
      | Some t =>
          let vs := victims locked (λ p, (pr_last_ts p.2 <=? t) &&
                      (pr_last_ts p.2 <? now - EVICTION_FLOOR_SECS)) d1 in
          (Z.of_nat (length vs), drop_producers vs d1)
      | None => (0, d1)
      end
    else (0, d1) in
  (n1 + n2, d2).

(** ** Sequence numbers *)

(** A sequence number: a non-negative [i32]. *)
Definition is_seq (s : Z) : Prop := 0 ≤ s ≤ i32_max.

(** Sequence arithmetic is addition modulo 2^31: [increment_sequence] stays
    a sequence number and wraps through zero, and [in_sequence] accepts
    exactly the number [increment_sequence] gives for the next record. *)
Theorem sequence_arithmetic s i next :
  is_seq s → is_seq i → is_seq next →
  increment_sequence s i = (s + i) mod 2 ^ 31 ∧ is_seq (increment_sequence s i) ∧
  (in_sequence s next = true ↔ next = increment_sequence s 1).
Proof.
  unfold is_seq. intros Hs Hi Hn.
  assert (E : ∀ j, 0 ≤ j ≤ i32_max → increment_sequence s j = (s + j) mod 2 ^ 31).
  { intros j Hj. unfold increment_sequence. change (2 ^ 31) with 2147483648.
    destruct (Z.ltb_spec (i32_max - j) s) as [H|H].
    - rewrite wrap_i32_id by int_lia. apply (Z.mod_unique _ _ 1); int_lia.
    - rewrite wrap_i32_id by int_lia. symmetry. apply Z.mod_small. int_lia. }
  rewrite !E by int_lia. change (2 ^ 31) with 2147483648. split; [done |].
  pose proof (Z.mod_pos_bound (s + i) 2147483648 ltac:(lia)). split; [int_lia |].
  unfold in_sequence. rewrite orb_true_iff, andb_true_iff, !Z.eqb_eq.
  destruct (Z.eq_dec s i32_max) as [->|Hne].
  - change ((i32_max + 1) mod 2147483648) with 0. int_lia.
  - rewrite Z.mod_small by int_lia. lia.
Qed.

Lemma sequence_arithmetic_witness :
  increment_sequence 2147483645 5 = (2147483645 + 5) mod 2 ^ 31 ∧
  is_seq (increment_sequence 2147483645 5) ∧
  (in_sequence 2147483645 2 = true ↔ 2 = increment_sequence 2147483645 1).
Proof. apply (sequence_arithmetic 2147483645 5 2); unfold is_seq; int_lia. Defined.

(** ** The window after an append *)

Definition record_row (now : Z) (b : BatchRow) (d : Db) : Db :=
  record now (br_producer b) (br_epoch b) (br_topic b) (br_partition b) (br_first b) (br_last b)
    (br_base b) d.

(** The rows beside [b]'s key. *)
Definition window_of (b : BatchRow) (d : Db) : list BatchRow :=
  window_rows (br_producer b) (br_topic b) (br_partition b) d.

(** The last five. *)
Definition newest_five (l : list BatchRow) : list BatchRow := drop (length l - RETAINED_BATCHES) l.

Lemma drop_oldest_same pid topic part n l :
  filter (λ b, at_key pid topic part b = true) (drop_oldest pid topic part n l) =
    drop n (filter (λ b, at_key pid topic part b = true) l).
Proof.
  revert n. induction l as [|b l IH]; intros n; [by rewrite filter_nil, drop_nil |]. cbn [drop_oldest].
  destruct (at_key pid topic part b) eqn:E.
  - rewrite (filter_cons_True _ b l) by done. destruct n; [| by rewrite IH].
    by rewrite filter_cons_True, IH.
  - rewrite !filter_cons_False by (by rewrite E). apply IH.
Qed.

Lemma drop_oldest_other pid topic part n l pid' topic' part' :
  (pid', topic', part') ≠ (pid, topic, part) →
  filter (λ b, at_key pid' topic' part' b = true) (drop_oldest pid topic part n l) =
    filter (λ b, at_key pid' topic' part' b = true) l.
Proof.
  intros Hne. revert n. induction l as [|b l IH]; intros n; [done |]. cbn [drop_oldest].
  destruct (at_key pid topic part b) eqn:E.
  - assert (E' : at_key pid' topic' part' b = false).
    { apply not_true_iff_false. intros E'. apply Hne. unfold at_key in *.
      rewrite !andb_true_iff, !Z.eqb_eq in *. naive_solver. }
    rewrite (filter_cons_False _ b l) by (by rewrite E'). destruct n; [| apply IH].
    by rewrite filter_cons_False, IH by (by rewrite E').
  - destruct (at_key pid' topic' part' b) eqn:E'.
    + by rewrite !filter_cons_True, IH.
    + by rewrite !filter_cons_False, IH by (by rewrite E').
Qed.

Lemma record_row_batches now b d :
  batches (record_row now b d) =
    prune (br_producer b) (br_topic b) (br_partition b)
      (filter (λ b', conflicts b b' = false) (batches d) ++ [b]).
Proof. unfold record_row, record. destruct b. cbv zeta. by repeat case_match. Qed.

Lemma at_key_self b : at_key (br_producer b) (br_topic b) (br_partition b) b = true.
Proof. unfold at_key. by rewrite !Z.eqb_refl. Qed.

(** Recording makes the row the newest of its window, in place of one with the
    same first sequence, and keeps the newest five. *)
Lemma record_window now b d :
  window_of b (record_row now b d) =
    newest_five (filter (λ b', br_first b' ≠ br_first b) (window_of b d) ++ [b]).
Proof.
  unfold window_of, window_rows. rewrite record_row_batches. unfold prune, newest_five. cbv zeta.
  rewrite drop_oldest_same, filter_app, (filter_cons_True _ b []), filter_nil by apply at_key_self.
  assert (E : filter (λ b0, at_key (br_producer b) (br_topic b) (br_partition b) b0 = true)
      (filter (λ b', conflicts b b' = false) (batches d)) =
    filter (λ b', br_first b' ≠ br_first b)
      (filter (λ b0, at_key (br_producer b) (br_topic b) (br_partition b) b0 = true) (batches d))).
  { rewrite !list_filter_filter. apply list_filter_iff. intros x. unfold conflicts.
    destruct (at_key _ _ _ x); cbn [andb]; [| naive_solver].
    destruct (Z.eqb_spec (br_first x) (br_first b)); naive_solver. }
  by rewrite E.
Qed.

Lemma record_window_other now b d pid topic part :
  (pid, topic, part) ≠ (br_producer b, br_topic b, br_partition b) →
  window_rows pid topic part (record_row now b d) = window_rows pid topic part d.
Proof.
  intros Hne. unfold window_rows. rewrite record_row_batches. unfold prune. cbv zeta.
  rewrite drop_oldest_other by done.
  assert (Hnk : ∀ x, at_key pid topic part x = true → at_key (br_producer b) (br_topic b) (br_partition b) x = false).
  { intros x E. apply not_true_iff_false. intros E'. apply Hne. unfold at_key in *.
    rewrite !andb_true_iff, !Z.eqb_eq in *. intuition congruence. }
  rewrite filter_app, (filter_cons_False _ b []), filter_nil, app_nil_r.
  - rewrite list_filter_filter. apply list_filter_iff. intros x. split; [by intros [? _] |].
    intros E. split; [done |]. unfold conflicts. by rewrite Hnk.
  - intros E. apply Hnk in E. by rewrite at_key_self in E.
Qed.

(** ** Retries *)

Definition same_key (b b' : BatchRow) : Prop :=
  br_producer b' = br_producer b ∧ br_topic b' = br_topic b ∧ br_partition b' = br_partition b.

Definition record_all (now : Z) (rs : list BatchRow) (d : Db) : Db :=
  foldl (λ d r, record_row now r d) d rs.

(** [b] is in its window, alone at its first sequence, with at most [n] rows
    after it. *)
Definition held (b : BatchRow) (n : nat) (w : list BatchRow) : Prop :=
  ∃ pre post, w = pre ++ b :: post ∧ (length post ≤ n)%nat ∧
    Forall (λ r, br_first r ≠ br_first b) (pre ++ post).

Lemma forall_filter {A} (P Q : A → Prop) `{∀ x, Decision (Q x)} (l : list A) :
  Forall P l → Forall P (filter Q l).
Proof.
  rewrite !Forall_forall. intros HP x Hx. apply HP. by apply list_elem_of_filter in Hx as [_ ?].
Qed.

Lemma held_five b n w : (n < RETAINED_BATCHES)%nat → held b n w → held b n (newest_five w).
Proof.
  unfold RETAINED_BATCHES. intros Hn (pre & post & -> & Hl & Hf). unfold newest_five, RETAINED_BATCHES.
  set (k := (length (pre ++ b :: post) - 5)%nat).
  assert (Hk : (k ≤ length pre)%nat) by (unfold k; rewrite length_app; cbn [length]; lia).
  exists (drop k pre), post. split; [by rewrite drop_app_le |]. split; [done |].
  apply Forall_app in Hf as [H1 H2]. apply Forall_app. split; [by apply Forall_drop | done].
Qed.

Lemma held_new now b d : held b 0 (window_of b (record_row now b d)).
Proof.
  rewrite record_window. apply held_five; [unfold RETAINED_BATCHES; lia |].
  eexists _, []. split; [done |]. split; [done |]. rewrite app_nil_r.
  apply Forall_forall. intros r Hr. by apply list_elem_of_filter in Hr as [? _].
Qed.

Lemma held_step now b r d n :
  (S n < RETAINED_BATCHES)%nat → same_key b r → br_first r ≠ br_first b →
  held b n (window_of b d) → held b (S n) (window_of b (record_row now r d)).
Proof.
  intros Hn (E1 & E2 & E3) Hne (pre & post & Hw & Hl & Hf).
  replace (window_of b (record_row now r d)) with (window_of r (record_row now r d))
    by (unfold window_of; by rewrite E1, E2, E3).
  rewrite record_window. replace (window_of r d) with (window_of b d)
    by (unfold window_of; by rewrite E1, E2, E3).
  apply held_five; [done |]. rewrite Hw, filter_app, filter_cons_True by done. rewrite <- app_assoc.
  eexists _, _. split; [done |].
  apply Forall_app in Hf as [H1 H2]. split.
  - rewrite length_app. cbn [length]. pose proof (length_filter (λ b', br_first b' ≠ br_first r) post). lia.
  - apply Forall_app. split; [by apply forall_filter |]. apply Forall_app.
    split; [by apply forall_filter | by repeat constructor].
Qed.

Lemma last_five l x : last (newest_five (l ++ [x])) = Some x.
Proof.
  unfold newest_five. rewrite length_app. cbn [length].
  rewrite drop_app_le by (unfold RETAINED_BATCHES; lia). apply last_snoc.
Qed.

Lemma record_last now b d : last (window_of b (record_row now b d)) = Some b.
Proof. rewrite record_window. apply last_five. Qed.

Lemma record_all_snoc now rs r d : record_all now (rs ++ [r]) d = record_row now r (record_all now rs d).
Proof. unfold record_all. by rewrite foldl_app. Qed.

Lemma held_all now b rs d :
  (length rs < RETAINED_BATCHES)%nat →
  Forall (λ r, same_key b r ∧ br_epoch r = br_epoch b ∧ br_first r ≠ br_first b) rs →
  held b (length rs) (window_of b (record_all now rs (record_row now b d))) ∧
  ∃ x, last (window_of b (record_all now rs (record_row now b d))) = Some x ∧ br_epoch x = br_epoch b.
Proof.
  induction rs as [|r rs IH] using rev_ind; intros Hn Hrs.
  - split; [apply held_new |]. exists b. split; [apply record_last | done].
  - rewrite length_app in Hn |- *. cbn [length] in *. apply Forall_app in Hrs as [Hrs Hr].
    inversion Hr as [|? ? ((E1 & E2 & E3) & He & Hne) _]; subst.
    destruct IH as [Hh _]; [lia | done |]. rewrite record_all_snoc, Nat.add_1_r. split.
    + by apply held_step; [lia | split | |].
    + exists r. split; [| done].
      replace (window_of b) with (window_of r) by (unfold window_of; by rewrite E1, E2, E3).
      apply record_last.
Qed.

Lemma held_find b n w :
  held b n w →
  ∃ i, list_find (λ r, br_epoch r = br_epoch b ∧ br_first r = br_first b ∧ br_last r = br_last b) w
    = Some (i, b).
Proof.
  intros (pre & post & -> & _ & Hf). apply Forall_app in Hf as [H1 _]. exists (length pre).
  apply list_find_Some. split; [by rewrite list_lookup_middle |]. split; [done |].
  intros j y Hj Hlt. rewrite lookup_app_l in Hj by done. intros (_ & Hfy & _).
  exact (Forall_lookup_1 _ _ _ _ H1 Hj Hfy).
Qed.

(** C1. A retry is never appended twice: once a batch is recorded, and while
    fewer than five batches of the same epoch have been recorded after it for
    that producer and partition, sending it again is answered as a duplicate
    with the offset it got. *)
Theorem retry_is_duplicate now b rs d :
  (length rs < RETAINED_BATCHES)%nat →
  Forall (λ r, same_key b r ∧ br_epoch r = br_epoch b ∧ br_first r ≠ br_first b) rs →
  check (br_producer b) (br_epoch b) (br_first b) (br_last b) (br_topic b) (br_partition b)
    (record_all now rs (record_row now b d)) = Duplicate (br_base b).
Proof.
  intros Hn Hrs. destruct (held_all now b rs d Hn Hrs) as [Hh (x & Hx & He)].
  unfold check, window. fold (window_of b (record_all now rs (record_row now b d))).
  set (w := window_of b _) in *. unfold check_window. rewrite Hx, He, Z.ltb_irrefl.
  by destruct (held_find b _ w Hh) as [i ->].
Qed.

Definition empty_db : Db := mk_db ∅ [] ∅ ∅ 1000.

Lemma retry_is_duplicate_witness :
  check 1000 0 0 4 7 0
    (record_all 50 [mk_row 1000 7 0 0 5 9 105; mk_row 1000 7 0 0 10 10 110]
      (record_row 50 (mk_row 1000 7 0 0 0 4 100) empty_db)) = Duplicate 100.
Proof.
  apply (retry_is_duplicate 50 (mk_row 1000 7 0 0 0 4 100)
    [mk_row 1000 7 0 0 5 9 105; mk_row 1000 7 0 0 10 10 110] empty_db).
  - unfold RETAINED_BATCHES. cbn. lia.
  - repeat (apply Forall_cons; split; [cbn; unfold same_key; cbn; lia |]). constructor.
Defined.

(** ** The state machine *)

(** Everything that changes the producer tables.  A batch is recorded only
    when [check] answers [Append]. *)
Inductive step : Db → Db → Prop :=
| step_append now b d :
    check (br_producer b) (br_epoch b) (br_first b) (br_last b) (br_topic b) (br_partition b) d = Append →
    step d (record_row now b d)
| step_forget topic part end_ d : step d (forget_past topic part end_ d)
| step_stamp pid topic part first base d : step d (stamp pid topic part first base d)
| step_release pid topic part first d : step d (release pid topic part first d)
| step_init now id d : step d (init_producer_id now id d).2
| step_bump now pid committed d : step d (bump_epoch_for_next_txn now pid committed d).2
| step_sweep now locked policy d : step d (sweep now locked policy d).2.

Definition epochs_ascend (w : list BatchRow) : Prop :=
  StronglySorted (λ a b, br_epoch a ≤ br_epoch b) w.

(** At most five rows, epochs never going back, one row per first sequence. *)
Definition window_ok (w : list BatchRow) : Prop :=
  (length w ≤ RETAINED_BATCHES)%nat ∧ epochs_ascend w ∧ NoDup (br_first <$> w).

Lemma sorted_filter {A} (R : A → A → Prop) (P : A → Prop) `{∀ x, Decision (P x)} l :
  StronglySorted R l → StronglySorted R (filter P l).
Proof.
  induction 1 as [|x l Hs IH Hx]; [by rewrite filter_nil; constructor |].
  rewrite filter_cons. case_decide; [| done]. constructor; [done | by apply forall_filter].
Qed.

Lemma nodup_fmap_filter {A B} (f : A → B) (P : A → Prop) `{∀ x, Decision (P x)} l :
  NoDup (f <$> l) → NoDup (f <$> filter P l).
Proof. intros Hn. eapply sublist_NoDup; [exact Hn |]. apply fmap_sublist, sublist_filter. Qed.

Lemma window_ok_filter (P : BatchRow → Prop) `{∀ x, Decision (P x)} w :
  window_ok w → window_ok (filter P w).
Proof.
  intros (H1 & H2 & H3). split; [pose proof (length_filter P w); lia |].
  split; [by apply sorted_filter | by apply nodup_fmap_filter].
Qed.

Lemma sorted_drop {A} (R : A → A → Prop) n l : StronglySorted R l → StronglySorted R (drop n l).
Proof.
  revert l. induction n as [|n IH]; intros [|x l] H; cbn; [done..|]. inversion H; subst. by apply IH.
Qed.

Lemma sorted_snoc {A} (R : A → A → Prop) l x :
  StronglySorted R l → Forall (λ y, R y x) l → StronglySorted R (l ++ [x]).
Proof.
  induction 1 as [|y l Hs IH Hy]; intros Hx; [by repeat constructor |].
  inversion Hx; subst. cbn [app]. constructor; [by apply IH |].
  apply Forall_app. split; [done | by repeat constructor].
Qed.

(** No row of an accepted batch's window is of a later epoch. *)
Lemma append_epoch d b :
  epochs_ascend (window_of b d) →
  check (br_producer b) (br_epoch b) (br_first b) (br_last b) (br_topic b) (br_partition b) d = Append →
  Forall (λ r, br_epoch r ≤ br_epoch b) (window_of b d).
Proof.
  intros Hs Hc. unfold check, window in Hc. fold (window_of b d) in Hc.
  set (w := window_of b d) in *. clearbody w. unfold check_window in Hc.
  destruct w as [|x w _] using rev_ind; [constructor |]. rewrite last_snoc in Hc. cbv zeta in Hc.
  destruct (Z.ltb_spec (br_epoch b) (br_epoch x)) as [|Hle]; [done |].
  apply Forall_app. split; [| by repeat constructor].
  apply Forall_forall. intros r Hr. transitivity (br_epoch x); [| done].
  clear Hc. induction w as [|y w IH]; [by apply elem_of_nil in Hr |].
  cbn [app] in Hs. inversion Hs as [|? ? Hs' Hy]; subst.
  apply elem_of_cons in Hr as [->|Hr]; [| by apply IH].
  rewrite Forall_forall in Hy. apply Hy, elem_of_app. right. constructor.
Qed.

Lemma window_ok_append now b d :
  window_ok (window_of b d) →
  check (br_producer b) (br_epoch b) (br_first b) (br_last b) (br_topic b) (br_partition b) d = Append →
  window_ok (window_of b (record_row now b d)).
Proof.
  intros (_ & H2 & H3) Hc. pose proof (append_epoch d b H2 Hc) as He. rewrite record_window.
  unfold newest_five. split; [rewrite length_drop; lia |]. split.
  - apply sorted_drop, sorted_snoc; [by apply sorted_filter | by apply forall_filter].
  - apply (sublist_NoDup _ (br_first <$> filter (λ b', br_first b' ≠ br_first b) (window_of b d) ++ [b])).
    2:{ apply fmap_sublist, sublist_drop. }
    + rewrite fmap_app. apply NoDup_app. split; [by apply nodup_fmap_filter |]. split; [| apply NoDup_singleton].
      intros f Hf Hb. apply list_elem_of_singleton in Hb as ->.
      apply list_elem_of_fmap in Hf as (r & Hr & Hin). by apply list_elem_of_filter in Hin as [? _].
Qed.

(** The statements that only delete rows, on a window. *)
Lemma window_rows_filter (P : BatchRow → Prop) `{∀ x, Decision (P x)} pid topic part d d' :
  batches d' = filter P (batches d) →
  window_rows pid topic part d' = filter P (window_rows pid topic part d).
Proof.
  intros E. unfold window_rows. rewrite E, !list_filter_filter.
  apply list_filter_iff. intros x. tauto.
Qed.

Lemma stamp_window pid topic part first base d pid' topic' part' :
  ∃ f, (∀ b, br_epoch (f b) = br_epoch b ∧ br_first (f b) = br_first b) ∧
    window_rows pid' topic' part' (stamp pid topic part first base d) =
      f <$> window_rows pid' topic' part' d.
Proof.
  exists (λ b, if at_key pid topic part b && (br_first b =? first) then set_base base b else b).
  split; [intros b; by case_match |]. unfold window_rows, stamp, set_batches. cbn [batches].
  induction (batches d) as [|b l IH]; [done |]. cbn [map].
  assert (E : ∀ c : bool, at_key pid' topic' part' (if c then set_base base b else b) =
    at_key pid' topic' part' b) by (by intros []).
  destruct (at_key pid' topic' part' b) eqn:Ek.
  - rewrite (filter_cons_True _ b) by done. rewrite filter_cons_True by (by rewrite E). cbn [fmap list_fmap].
    f_equal. apply IH.
  - rewrite (filter_cons_False _ b) by (by rewrite Ek). rewrite filter_cons_False by (by rewrite E). apply IH.
Qed.

Lemma window_ok_map f w :
  (∀ b, br_epoch (f b) = br_epoch b ∧ br_first (f b) = br_first b) →
  window_ok w → window_ok (f <$> w).
Proof.
  intros Hf (H1 & H2 & H3). split; [by rewrite length_fmap |]. split.
  - clear H1 H3. unfold epochs_ascend in *. induction H2 as [|x l Hs IH Hx]; [constructor |]. constructor; [done |].
    apply Forall_fmap. eapply Forall_impl; [done |]. intros y Hy. cbn. by rewrite !(proj1 (Hf _)).
  - rewrite <- list_fmap_compose. erewrite list_fmap_ext; [exact H3 |]. intros i x _. apply Hf.
Qed.

Definition db_ok (d : Db) : Prop := ∀ pid topic part, window_ok (window_rows pid topic part d).

Lemma db_ok_same d d' : batches d' = batches d → db_ok d → db_ok d'.
Proof. intros E H pid topic part. unfold window_rows. rewrite E. apply H. Qed.

Lemma db_ok_filter (P : BatchRow → Prop) `{∀ x, Decision (P x)} d d' :
  batches d' = filter P (batches d) → db_ok d → db_ok d'.
Proof.
  intros E H0 pid topic part. rewrite (window_rows_filter P _ _ _ d d' E). by apply window_ok_filter.
Qed.

Lemma db_ok_drop vs d : db_ok d → db_ok (drop_producers vs d).
Proof. by apply (db_ok_filter (λ b, br_producer b ∉ vs)). Qed.

Lemma db_ok_sweep now locked policy d : db_ok d → db_ok (sweep now locked policy d).2.
Proof.
  intros H. unfold sweep. cbv zeta.
  repeat case_match; simplify_eq; cbn [snd]; by repeat apply db_ok_drop.
Qed.

Lemma db_ok_bump now pid committed d : db_ok d → db_ok (bump_epoch_for_next_txn now pid committed d).2.
Proof.
  intros H. unfold bump_epoch_for_next_txn. destruct (producers d !! pid) as [row|]; [| done].
  case_match; [by apply (db_ok_same d) |].
  by apply (db_ok_filter (λ b, of_producer pid b = false) d).
Qed.

Lemma db_ok_step d d' : step d d' → db_ok d → db_ok d'.
Proof.
  intros Hst Hok. destruct Hst as [now b d Hc|topic part end_ d|pid topic part first base d|pid topic part first d
    |now id d|now pid committed d|now locked policy d].
  - intros pid topic part.
    destruct (decide ((pid, topic, part) = (br_producer b, br_topic b, br_partition b))) as [E|E].
    + injection E as -> -> ->. apply (window_ok_append now b d); [apply Hok | done].
    + by rewrite record_window_other.
  - by eapply db_ok_filter; [| exact Hok].
  - intros pid' topic' part'. destruct (stamp_window pid topic part first base d pid' topic' part') as (f & Hf & ->).
    by apply window_ok_map.
  - by eapply db_ok_filter; [| exact Hok].
  - apply (db_ok_same d); [| done]. unfold init_producer_id. by repeat case_match.
  - by apply db_ok_bump.
  - by apply db_ok_sweep.
Qed.

(** However producer state is used (appends, reservations, recovery, new
    epochs, sweeps), in every state reached from empty tables each window
    holds at most five batches, one per first sequence, whose epochs never go
    back; and so a producer instance with an older epoch than any batch still
    in the window is fenced, whatever sequence it sends. *)
Theorem windows_fence_old_epochs d pid topic part :
  rtc step empty_db d →
  window_ok (window_rows pid topic part d) ∧
  ∀ r epoch first last, r ∈ window_rows pid topic part d → epoch < br_epoch r →
    ∃ current, check pid epoch first last topic part d = Fenced current ∧ epoch < current.
Proof.
  intros Hr. assert (Hok : db_ok d).
  { assert (H0 : db_ok empty_db).
    { intros ? ? ?. unfold window_rows. cbn [batches empty_db]. rewrite filter_nil.
      split; [cbn; lia |]. split; constructor. }
    induction Hr as [|? ? ? Hst _ IH]; [done |]. apply IH. by eapply db_ok_step. }
  split; [apply Hok |]. intros r epoch first last_ Hin Hlt.
  destruct (Hok pid topic part) as (_ & Hs & _). unfold check, window.
  set (w := window_rows pid topic part d) in *. clearbody w. unfold check_window.
  destruct w as [|x w _] using rev_ind; [by apply elem_of_nil in Hin |]. rewrite last_snoc.
  assert (Hle : br_epoch r ≤ br_epoch x).
  { clear -Hs Hin. induction w as [|y w IH]; cbn [app] in *.
    - by apply list_elem_of_singleton in Hin as ->.
    - inversion Hs as [|? ? Hs' Hy]; subst. apply elem_of_cons in Hin as [->|Hin]; [| by apply IH].
      rewrite Forall_forall in Hy. apply Hy, elem_of_app. right. constructor. }
  exists (br_epoch x). cbv zeta. rewrite (proj2 (Z.ltb_lt _ _)) by lia. split; [done | lia].
Qed.

Lemma windows_fence_old_epochs_witness :
  let d := record_row 50 (mk_row 1000 7 0 3 0 4 100) empty_db in
  window_ok (window_rows 1000 7 0 d) ∧
  ∀ r epoch first last, r ∈ window_rows 1000 7 0 d → epoch < br_epoch r →
    ∃ current, check 1000 epoch first last 7 0 d = Fenced current ∧ epoch < current.
Proof.
  apply (windows_fence_old_epochs (record_row 50 (mk_row 1000 7 0 3 0 4 100) empty_db) 1000 7 0).
  apply rtc_once. apply (step_append 50 (mk_row 1000 7 0 3 0 4 100) empty_db). reflexivity.
Defined.

(** ** Ending a transaction moves the epoch on *)

Lemma window_rows_moved now pid row committed d topic part :
  window_rows pid topic part (move_to_fresh_id now pid row committed d) = [].
Proof.
  unfold window_rows, move_to_fresh_id. cbn [batches]. rewrite list_filter_filter.
  apply list_nil_subseteq. intros b Hb. apply list_elem_of_filter in Hb as [[Hk Ho] _].
  unfold at_key, of_producer in *. by rewrite Ho in Hk.
Qed.

(** Ending a transaction leaves the transactional id with a pair no older
    instance holds: the next epoch of the same producer id or, at the ceiling,
    epoch 0 of a new id, with the old id's row, window and transaction gone;
    either way the new epoch is within the ceiling and the row remembers the
    retired pair and its outcome, so a retried EndTxn is known as one. *)
Theorem bump_epoch_moves_on now pid committed d row :
  producers d !! pid = Some row → 0 ≤ pr_epoch row ≤ i16_max →
  (∀ p, is_Some (producers d !! p) → p < next_producer_id d) →
  ∃ id e d' row', bump_epoch_for_next_txn now pid committed d = (Ok (id, e), d') ∧
    producers d' !! id = Some row' ∧ pr_epoch row' = e ∧ 0 ≤ e ≤ EPOCH_CEILING ∧
    pr_transactional_id row' = pr_transactional_id row ∧
    pr_retired row' = Some (pid, pr_epoch row, committed) ∧
    (id = pid ∧ e = pr_epoch row + 1 ∨
     id ≠ pid ∧ e = 0 ∧ EPOCH_CEILING ≤ pr_epoch row ∧ producers d' !! pid = None ∧
     txns d' !! pid = (None : option TxnRow) ∧ ∀ topic part, window_rows pid topic part d' = []).
Proof.
  intros Hrow He Hfresh. assert (Hlt : pid < next_producer_id d) by (apply Hfresh; eauto).
  unfold bump_epoch_for_next_txn. rewrite Hrow.
  destruct (Z.ltb_spec (pr_epoch row) EPOCH_CEILING) as [Hc|Hc]; cbv zeta.
  - unfold EPOCH_CEILING in *. rewrite wrap_i16_id by int_lia.
    eexists _, _, _, _. split; [done |]. cbn [producers set_producers]. rewrite lookup_insert_eq.
    split; [done |]. cbn [pr_epoch pr_transactional_id pr_retired]. split; [done |]. split; [lia |].
    split; [done |]. split; [done |]. by left.
  - eexists _, _, _, _. split; [done |]. unfold move_to_fresh_id at 1. cbn [producers].
    rewrite lookup_insert_eq. split; [done |]. cbn [pr_epoch pr_transactional_id pr_retired].
    split; [done |]. split; [done |]. split; [done |]. split; [done |]. right.
    split; [lia |]. split; [done |]. split; [done |].
    unfold move_to_fresh_id at 1 2. cbn [producers txns].
    rewrite lookup_insert_ne, lookup_delete_eq by lia. split; [done |]. split.
    + destruct (txns d !! pid) eqn:Et; [| done]. by rewrite lookup_insert_ne, lookup_delete_eq by lia.
    + intros. apply window_rows_moved.
Qed.

Definition one_producer (epoch : Z) : Db :=
  mk_db {[1000 := mk_producer epoch (Some "t"%string) None 0]} [mk_row 1000 7 0 epoch 0 4 100]
    {[1000 := mk_txn epoch "t" TxnOngoing 0 60000 None []]} ∅ 1001.

Lemma bump_epoch_moves_on_witness :
  ∃ id e d' row', bump_epoch_for_next_txn 5 1000 true (one_producer 32766) = (Ok (id, e), d') ∧
    producers d' !! id = Some row' ∧ pr_epoch row' = e ∧ 0 ≤ e ≤ EPOCH_CEILING ∧
    pr_transactional_id row' = Some "t"%string ∧ pr_retired row' = Some (1000, 32766, true) ∧
    (id = 1000 ∧ e = 32766 + 1 ∨
     id ≠ 1000 ∧ e = 0 ∧ EPOCH_CEILING ≤ 32766 ∧ producers d' !! 1000 = None ∧
     txns d' !! 1000 = (None : option TxnRow) ∧ ∀ topic part, window_rows 1000 topic part d' = []).
Proof.
  apply (bump_epoch_moves_on 5 1000 true (one_producer 32766) (mk_producer 32766 (Some "t"%string) None 0)).
  - reflexivity.
  - cbn. int_lia.
  - intros p Hp. unfold one_producer in Hp. cbn [producers] in Hp.
    destruct (decide (p = 1000)) as [->|]; [cbn; lia |]. rewrite lookup_singleton_ne in Hp by done.
    by destruct Hp.
Defined.

(** ** Taking an id, until the epochs run out *)

Definition init_again (now : Z) (id : string) (d : Db) : Db := (init_producer_id now (Some id) d).2.

Lemma find_transactional_spec id d :
  match find_transactional id d with
  | Some (pid, row) => producers d !! pid = Some row ∧ pr_transactional_id row = Some id
  | None => ∀ pid row, producers d !! pid = Some row → pr_transactional_id row ≠ Some id
  end.
Proof.
  unfold find_transactional. destruct (list_find _ _) as [[i [pid row]]|] eqn:E; cbn.
  - apply list_find_Some in E as (Hl & Hid & _). apply list_elem_of_lookup_2, elem_of_map_to_list in Hl. done.
  - apply list_find_None in E. rewrite Forall_forall in E. intros pid row Hr.
    apply (E (pid, row)). by apply elem_of_map_to_list.
Qed.

Lemma find_transactional_one id pid row d :
  producers d = {[pid := row]} → pr_transactional_id row = Some id →
  find_transactional id d = Some (pid, row).
Proof.
  intros E Hid. unfold find_transactional. rewrite E, map_to_list_singleton. cbn.
  by rewrite decide_True.
Qed.

Lemma init_again_state now id n :
  Z.of_nat n ≤ i16_max →
  producers (Nat.iter (S n) (init_again now id) empty_db) =
    {[1000 := mk_producer (Z.of_nat n) (Some id) None now]}.
Proof.
  induction n as [|n IH]; intros Hn.
  - cbn. unfold init_again, init_producer_id, find_transactional. cbn [producers empty_db].
    rewrite map_to_list_empty. done.
  - change (Nat.iter (S (S n)) (init_again now id) empty_db) with
      (init_again now id (Nat.iter (S n) (init_again now id) empty_db)).
    set (d := Nat.iter (S n) (init_again now id) empty_db) in *. specialize (IH ltac:(lia)).
    unfold init_again, init_producer_id.
    rewrite (find_transactional_one id 1000 (mk_producer (Z.of_nat n) (Some id) None now)) by done.
    unfold smallint_succ. cbn [pr_epoch]. rewrite (proj2 (Z.ltb_lt _ _)) by lia. cbn [snd producers].
    rewrite IH, insert_singleton_eq. do 2 f_equal. lia.
Qed.

(** Each InitProducerId of a transactional id gets the next epoch of one
    producer id, which fences the instance before; but the epoch is a
    [smallint] and is never moved to a fresh id here, so the call after epoch
    32767 fails, and so does every later one. *)
Theorem init_producer_id_exhausts now id n :
  (init_producer_id now (Some id) (Nat.iter n (init_again now id) empty_db)).1 =
    if Z.of_nat n <=? i16_max then Ok (1000, Z.of_nat n) else Err SmallintOutOfRange.
Proof.
  assert (Hs : ∀ m, i16_max ≤ Z.of_nat m →
    producers (Nat.iter (S m) (init_again now id) empty_db) =
      {[1000 := mk_producer i16_max (Some id) None now]}).
  { induction m as [|m IH]; intros Hm; [int_lia |].
    destruct (Z.eq_dec (Z.of_nat (S m)) i16_max) as [E|Hne]; [rewrite <- E; apply init_again_state; lia |].
    change (Nat.iter (S (S m)) (init_again now id) empty_db) with
      (init_again now id (Nat.iter (S m) (init_again now id) empty_db)).
    specialize (IH ltac:(lia)). unfold init_again at 1, init_producer_id.
    by rewrite (find_transactional_one id _ _ _ IH eq_refl). }
  destruct n as [|n]; [by cbn; unfold init_producer_id, find_transactional; cbn [producers empty_db];
    rewrite map_to_list_empty |].
  unfold init_producer_id. destruct (Z.leb_spec (Z.of_nat (S n)) i16_max) as [Hn|Hn].
  - rewrite (find_transactional_one id _ _ _ (init_again_state now id n ltac:(lia)) eq_refl).
    unfold smallint_succ. cbn [pr_epoch]. rewrite (proj2 (Z.ltb_lt _ _)) by lia. cbn [fst].
    do 2 f_equal. lia.
  - by rewrite (find_transactional_one id _ _ _ (Hs n ltac:(lia)) eq_refl).
Qed.

(** ** The sweep spares what is in use *)

Section Sweep.

Context (locked : Z → bool).

Definition no_orphans (d : Db) : Prop := ∀ b, b ∈ batches d → is_Some (producers d !! br_producer b).

(** From [d] to [d'], producers with an open transaction or a lock on them are
    untouched, rows are only removed, and a row that went was [idle]. *)
Definition spares (idle : ProducerRow → Prop) (d d' : Db) : Prop :=
  txns d' = txns d ∧ producers d' ⊆ producers d ∧
  (∀ pid, ongoing d pid = true ∨ locked pid = true →
     producers d' !! pid = producers d !! pid ∧
     ∀ topic part, window_rows pid topic part d' = window_rows pid topic part d) ∧
  (∀ pid row, producers d !! pid = Some row → producers d' !! pid = None → idle row) ∧
  (no_orphans d → no_orphans d').

Lemma spares_refl idle d : spares idle d d.
Proof.
  split; [done |]. split; [done |]. split; [done |]. split; [| done].
  intros pid row E1 E2. by rewrite E1 in E2.
Qed.

Lemma spares_trans idle d1 d2 d3 : spares idle d1 d2 → spares idle d2 d3 → spares idle d1 d3.
Proof.
  intros (T1 & S1 & A1 & B1 & C1) (T2 & S2 & A2 & B2 & C2). split; [by rewrite T2 |].
  split; [by etransitivity |]. split.
  - intros pid Hp. destruct (A1 pid Hp) as [E1 W1].
    assert (Hp' : ongoing d2 pid = true ∨ locked pid = true) by (unfold ongoing in *; by rewrite T1).
    destruct (A2 pid Hp') as [E2 W2]. split; [by rewrite E2 |]. intros. by rewrite W2, W1.
  - split; [| auto]. intros pid row Hr H3.
    destruct (producers d2 !! pid) as [r|] eqn:E2; [| by apply (B1 pid)].
    assert (r = row) as ->.
    { eapply lookup_weaken in E2; [| exact S1]. rewrite Hr in E2. by injection E2. }
    by apply (B2 pid).
Qed.

Lemma victims_spec doomed d pid :
  pid ∈ victims locked doomed d →
  ∃ row, producers d !! pid = Some row ∧ doomed (pid, row) = true ∧ ongoing d pid = false ∧
    locked pid = false.
Proof.
  unfold victims. cbv zeta. intros H. apply list_elem_of_fmap in H as ([p row] & -> & H).
  eapply elem_of_subseteq in H; [| apply subseteq_take].
  rewrite merge_sort_Permutation in H. apply list_elem_of_filter in H as [H Hin].
  apply elem_of_map_to_list in Hin. exists row.
  rewrite !andb_true_iff, !negb_true_iff in H. cbn [fst] in *. tauto.
Qed.

Lemma victims_length doomed d : (length (victims locked doomed d) ≤ SWEEP_BATCH)%nat.
Proof. unfold victims. cbv zeta. rewrite length_fmap, length_take. lia. Qed.

Lemma drop_producers_lookup vs d pid :
  producers (drop_producers vs d) !! pid = if decide (pid ∈ vs) then None else producers d !! pid.
Proof.
  unfold drop_producers. cbn [producers]. rewrite map_lookup_filter.
  destruct (producers d !! pid) as [row|]; cbn; case_decide; try done.
  - rewrite option_guard_False; [done |]. by intros [].
  - by rewrite option_guard_True.
Qed.

Lemma drop_victims_spares doomed idle d :
  (∀ p, doomed p = true → idle p.2) → spares idle d (drop_producers (victims locked doomed d) d).
Proof.
  intros Hd. set (vs := victims locked doomed d). split; [done |]. split; [| split; [| split]].
  - apply map_subseteq_spec. intros pid row. rewrite drop_producers_lookup. by case_decide.
  - intros pid Hp. assert (Hn : pid ∉ vs).
    { intros Hv. apply victims_spec in Hv as (row & _ & _ & H1 & H2). destruct Hp; congruence. }
    split; [by rewrite drop_producers_lookup, decide_False |]. intros topic part.
    unfold window_rows, drop_producers. cbn [batches]. rewrite list_filter_filter.
    apply list_filter_iff. intros b. split; [by intros [? _] |]. intros Hk. split; [done |].
    unfold at_key in Hk. rewrite !andb_true_iff, !Z.eqb_eq in Hk. by destruct Hk as [[-> _] _].
  - intros pid row Hr. rewrite drop_producers_lookup. case_decide as Hv; [| by rewrite Hr].
    intros _. apply victims_spec in Hv as (row' & Hr' & Hdo & _). rewrite Hr in Hr'.
    injection Hr' as <-. by apply (Hd (pid, row)).
  - intros Ho b Hb. unfold drop_producers in Hb. cbn [batches] in Hb.
    apply list_elem_of_filter in Hb as [Hn Hb]. rewrite drop_producers_lookup, decide_False by done. by apply Ho.
Qed.

Lemma sweep_spares now policy d :
  let '(n, d') := sweep now locked policy d in
  spares (λ row, 0 < expiration_ms policy ∧ 1000 * pr_last_ts row < 1000 * now - expiration_ms policy ∨
                 0 < max_ids policy ∧ pr_last_ts row < now - EVICTION_FLOOR_SECS) d d' ∧
  0 ≤ n ≤ 2 * Z.of_nat SWEEP_BATCH.
Proof.
  unfold sweep. set (doomed1 := λ p, _ <? _). set (idle := λ row, _ ∨ _).
  set (step1 := if 0 <? expiration_ms policy then _ else _).
  assert (H1 : spares idle d step1.2 ∧ 0 ≤ step1.1 ≤ Z.of_nat SWEEP_BATCH).
  { unfold step1. destruct (Z.ltb_spec 0 (expiration_ms policy)) as [He|He]; cbn [fst snd].
    - split; [| pose proof (victims_length doomed1 d); lia].
      apply drop_victims_spares. intros p Hp. unfold doomed1 in Hp. apply Z.ltb_lt in Hp. by left.
    - split; [apply spares_refl | lia]. }
  destruct step1 as [n1 d1]. cbn [fst snd] in H1. destruct H1 as [H1 Hn1].
  destruct (Z.ltb_spec 0 (max_ids policy)) as [Hm|Hm]; [| split; [done | lia]].
  destruct (cut_ts (max_ids policy) d1) as [t|]; [| split; [done | lia]].
  set (doomed2 := λ p, _ && _). split; [| pose proof (victims_length doomed2 d1); lia].
  eapply spares_trans; [exact H1 |]. apply drop_victims_spares. intros p Hp. unfold doomed2 in Hp.
  apply andb_true_iff in Hp as [_ Hp]. apply Z.ltb_lt in Hp. by right.
Qed.

Lemma sweep_next now policy d : next_producer_id (sweep now locked policy d).2 = next_producer_id d.
Proof. unfold sweep. by destruct (0 <? expiration_ms policy), (0 <? max_ids policy); cbn; try destruct (cut_ts _ _). Qed.

(** The sweep drops idle producers only: each that goes was past the
    expiration or past the five-minute floor of the ceiling, and one with an
    open transaction, or locked by another, keeps its row and its windows.  No
    window is left without its producer, and one call drops at most twice the
    batch limit. *)
Theorem sweep_spares_in_use now policy d :
  let '(n, d') := sweep now locked policy d in
  spares (λ row, 0 < expiration_ms policy ∧ 1000 * pr_last_ts row < 1000 * now - expiration_ms policy ∨
                 0 < max_ids policy ∧ pr_last_ts row < now - EVICTION_FLOOR_SECS) d d' ∧
  0 ≤ n ≤ 2 * Z.of_nat SWEEP_BATCH.
Proof. exact (sweep_spares now policy d). Qed.

End Sweep.
