(* ===== verification/Acl.v ===== *)
(** * extension/src/acl.rs: authorization

    An ACL snapshot ([AclCache]) and the decision over it.  Rules are loaded
    from [kafgres_acls] rows whose columns may be null; a row with an unknown
    resource type is skipped.  Times are milliseconds.  The parsing of the
    [superusers] setting is not modelled: the list is an argument. *)

From stdpp Require Import strings.
From S2P Require Import Prelude Errors.

#[local] Open Scope string_scope.
#[local] Open Scope Z_scope.

Inductive ResourceType : Type := Topic | Group | Cluster | TransactionalId.
Inductive Operation : Type :=
| Read | Write | Create | Delete | Alter | Describe | DescribeConfigs | AlterConfigs
| IdempotentWrite | ClusterAction.
Inductive PatternType : Type := Literal | Prefixed.

#[export] Instance ResourceType_eq_dec : EqDecision ResourceType.
Proof. solve_decision. Defined.
#[export] Instance Operation_eq_dec : EqDecision Operation.
Proof. solve_decision. Defined.

Definition resource_as_str (rt : ResourceType) : string :=
  match rt with
  | Topic => "TOPIC" | Group => "GROUP" | Cluster => "CLUSTER"
  | TransactionalId => "TRANSACTIONAL_ID"
  end.

Definition resource_parse (s : string) : option ResourceType :=
  if decide (s = "TOPIC") then Some Topic
  else if decide (s = "GROUP") then Some Group
  else if decide (s = "CLUSTER") then Some Cluster
  else if decide (s = "TRANSACTIONAL_ID") then Some TransactionalId
  else None.

Definition denied_code (rt : ResourceType) : ErrorCode.t :=
  match rt with
  | Topic => ErrorCode.TopicAuthorizationFailed
  | Group => ErrorCode.GroupAuthorizationFailed
  | Cluster => ErrorCode.ClusterAuthorizationFailed
  | TransactionalId => ErrorCode.TransactionalIdAuthorizationFailed
  end.

Definition acl_code (op : Operation) : Z :=
  match op with
  | Read => 3 | Write => 4 | Create => 5 | Delete => 6 | Alter => 7 | Describe => 8
  | ClusterAction => 9 | DescribeConfigs => 10 | AlterConfigs => 11 | IdempotentWrite => 12
  end.

Definition operations_for (rt : ResourceType) : list Operation :=
  match rt with
  | Topic => [Read; Write; Create; Delete; Alter; Describe; DescribeConfigs; AlterConfigs]
  | Group => [Read; Delete; Describe]
  | Cluster => [Create; ClusterAction; Alter; Describe; DescribeConfigs; AlterConfigs;
                IdempotentWrite]
  | TransactionalId => [Write; Describe]
  end.

Definition op_as_str (op : Operation) : string :=
  match op with
  | Read => "READ" | Write => "WRITE" | Create => "CREATE" | Delete => "DELETE"
  | Alter => "ALTER" | Describe => "DESCRIBE" | DescribeConfigs => "DESCRIBE_CONFIGS"
  | AlterConfigs => "ALTER_CONFIGS" | IdempotentWrite => "IDEMPOTENT_WRITE"
  | ClusterAction => "CLUSTER_ACTION"
  end.

Definition implied_by (op : Operation) (granted : string) : bool :=
  if bool_decide (granted = "ALL") || bool_decide (granted = op_as_str op) then true
  else match op with
       | Describe => bool_decide (granted ∈ ["READ"; "WRITE"; "DELETE"; "ALTER"])
       | DescribeConfigs => bool_decide (granted = "ALTER_CONFIGS")
       | _ => false
       end.

Record Acl : Type := mk_acl {
  a_principal : string;
  a_host : string;
  a_operation : string;
  a_allow : bool;
  a_resource_type : ResourceType;
  a_resource_name : string;
  a_pattern : PatternType }.

Definition matches (a : Acl) (principal host : string) (op : Operation) (rt : ResourceType)
    (name : string) : bool :=
  if bool_decide (a_resource_type a ≠ rt) then false
  else if bool_decide (a_principal a ≠ "User:*") && bool_decide (a_principal a ≠ principal) then false
  else if bool_decide (a_host a ≠ "*") && bool_decide (a_host a ≠ host) then false
  else if negb (implied_by op (a_operation a)) then false
  else match a_pattern a with
       | Literal => bool_decide (a_resource_name a = "*") || bool_decide (a_resource_name a = name)
       | Prefixed => String.prefix (a_resource_name a) name
       end.

Record Principal : Type := mk_principal { p_name : string; p_host : string }.
Definition user (role host : string) : Principal := mk_principal ("User:" +:+ role) host.
Definition anonymous (host : string) : Principal := mk_principal "User:ANONYMOUS" host.

Record AclCache : Type := mk_cache {
  acls : list Acl;
  loaded : option Z;
  enabled : bool;
  superusers : list string }.

Definition MAX_STALENESS : Z := 1000.

Definition is_stale (now : Z) (c : AclCache) : bool :=
  match loaded c with None => true | Some at_ => MAX_STALENESS <? now - at_ end.

Definition mark_attempted (now : Z) (c : AclCache) : AclCache :=
  mk_cache (acls c) (Some now) (enabled c) (superusers c).

(** A row of [kafgres_acls]: principal, host, operation, permission, resource
    type, resource name, pattern type. *)
Record AclRow : Type := mk_acl_row {
  row_principal : option string; row_host : option string; row_operation : option string;
  row_permission : option string; row_resource_type : option string;
  row_resource_name : option string; row_pattern : option string }.

Definition acl_of_row (r : AclRow) : option Acl :=
  rt ← row_resource_type r ≫= resource_parse;
  Some (mk_acl (default "" (row_principal r)) (default "*" (row_host r))
    (default "" (row_operation r))
    (match row_permission r with Some p => bool_decide (p = "ALLOW") | None => false end)
    rt (default "" (row_resource_name r))
    (if decide (row_pattern r = Some "PREFIXED") then Prefixed else Literal)).

Definition load (now : Z) (enabled : bool) (superusers : list string) (rows : list AclRow) : AclCache :=
  mk_cache (if enabled then omap acl_of_row rows else []) (Some now) enabled superusers.

Definition allows (c : AclCache) (who : Principal) (op : Operation) (rt : ResourceType)
    (name : string) : bool :=
  if negb (enabled c) then true
  else if existsb (λ s, bool_decide (s = p_name who)) (superusers c) then true
  else
    let matching (allow : bool) :=
      existsb (λ a, matches a (p_name who) (p_host who) op rt name)
        (filter (λ a, a_allow a = allow) (acls c)) in
    if matching false then false else matching true.

(** [Authz::check]. *)
Definition check (c : AclCache) (who : Principal) (op : Operation) (rt : ResourceType)
    (name : string) : result ErrorCode.t unit :=
  if allows c who op rt name then Ok tt else Err (denied_code rt).

Definition authorized_operations (c : AclCache) (who : Principal) (rt : ResourceType)
    (name : string) : Z :=
  let bits := foldl (λ bits op, if is_ok (check c who op rt name)
                                then Z.lor bits (Z.shiftl 1 (acl_code op)) else bits)
                0 (operations_for rt) in
  wrap_i 32 bits.

(** A SQL caller's right to write a topic: its snapshot is reloaded when it is
    stale, and a database superuser passes. *)
Definition sql_caller_may_write (now : Z) (enabled superuser : bool) (supers : list string)
    (rows : list AclRow) (role host topic : string) (snapshot : AclCache) : bool * AclCache :=
  if negb enabled || superuser then (true, snapshot)
  else
    let snapshot := if is_stale now snapshot then load now enabled supers rows else snapshot in
    (allows snapshot (user role host) Write Topic topic, snapshot).

(** ** The decision *)

(** A rule of that permission applies to the request. *)
Definition applies (c : AclCache) (allow : bool) (who : Principal) (op : Operation)
    (rt : ResourceType) (name : string) : Prop :=
  ∃ a, a ∈ acls c ∧ a_allow a = allow ∧ matches a (p_name who) (p_host who) op rt name = true.

Lemma allows_iff c who op rt name :
  allows c who op rt name = true ↔
    enabled c = false ∨ p_name who ∈ superusers c ∨
    (¬ applies c false who op rt name ∧ applies c true who op rt name).
Proof.
  assert (Hm : ∀ b, existsb (λ a, matches a (p_name who) (p_host who) op rt name)
      (filter (λ a, a_allow a = b) (acls c)) = true ↔ applies c b who op rt name).
  { intros b. rewrite existsb_exists. unfold applies. setoid_rewrite <- list_elem_of_In.
    setoid_rewrite list_elem_of_filter. split; intros (a & ? & ?); exists a; tauto. }
  assert (Hs : existsb (λ s, bool_decide (s = p_name who)) (superusers c) = true ↔
    p_name who ∈ superusers c).
  { rewrite existsb_exists. setoid_rewrite <- list_elem_of_In. setoid_rewrite bool_decide_eq_true.
    split; [by intros (? & ? & <-) | eauto]. }
  unfold allows. destruct (enabled c); cbn [negb]; [| tauto].
  destruct (existsb _ (superusers c)); [tauto |].
  destruct (existsb _ (filter (λ a, a_allow a = false) (acls c))) eqn:E1.
  - apply Hm in E1. split; [done |]. intros [?|[?%Hs|[? _]]]; done.
  - rewrite Hm. assert (¬ applies c false who op rt name) by (rewrite <- Hm, E1; done).
    split; [by right; right |]. intros [?|[?%Hs|[_ ?]]]; done.
Qed.

(** The cache with one more rule. *)
Definition with_acl (a : Acl) (c : AclCache) : AclCache :=
  mk_cache (a :: acls c) (loaded c) (enabled c) (superusers c).

Lemma applies_with a c b who op rt name :
  applies (with_acl a c) b who op rt name ↔
    applies c b who op rt name ∨
    a_allow a = b ∧ matches a (p_name who) (p_host who) op rt name = true.
Proof.
  unfold applies, with_acl. cbn [acls]. setoid_rewrite elem_of_cons. split.
  - intros (x & [->|?] & ?); [by right | left; eauto].
  - intros [(x & ? & ?)|?]; eauto.
Qed.

(** With ACLs on, a request passes exactly when its principal is a superuser
    or some rule allows it and none denies it: the order and repetition of
    the rules never matter, one more DENY can only refuse, one more ALLOW can
    only admit, and without any rule everyone else is refused. *)
Theorem acl_decision c who op rt name :
  (allows c who op rt name = true ↔
     enabled c = false ∨ p_name who ∈ superusers c ∨
     (¬ applies c false who op rt name ∧ applies c true who op rt name)) ∧
  (∀ c', enabled c' = enabled c → superusers c' = superusers c →
     (∀ a, a ∈ acls c' ↔ a ∈ acls c) → allows c' who op rt name = allows c who op rt name) ∧
  (∀ a, a_allow a = false → allows (with_acl a c) who op rt name = true → allows c who op rt name = true) ∧
  (∀ a, a_allow a = true → allows c who op rt name = true → allows (with_acl a c) who op rt name = true).
Proof.
  split; [apply allows_iff |]. split; [| split].
  - intros c' He Hs Ha. apply eq_iff_eq_true. rewrite !allows_iff, He, Hs. unfold applies. by setoid_rewrite Ha.
  - intros a Ha. rewrite !allows_iff, !applies_with. cbn [with_acl enabled superusers].
    intros [?|[?|[Hd [Hal|[? _]]]]]; [by left | by right; left | right; right; tauto | congruence].
  - intros a Ha. rewrite !allows_iff, !applies_with. cbn [with_acl enabled superusers].
    intros [?|[?|[Hd Hal]]]; [by left | by right; left | right; right].
    split; [| by left]. intros [?|[? _]]; [done | congruence].
Qed.

(** ** The bitfield *)

Lemma acl_code_inj op op' : acl_code op = acl_code op' → op = op'.
Proof. by destruct op, op'. Qed.

Lemma acl_code_range op : 3 ≤ acl_code op ≤ 12.
Proof. destruct op; cbn; lia. Qed.

Definition grant_bits (f : Operation → bool) (ops : list Operation) (acc : Z) : Z :=
  foldl (λ bits op, if f op then Z.lor bits (Z.shiftl 1 (acl_code op)) else bits) acc ops.

Lemma grant_bits_spec f ops acc i :
  0 ≤ i → Z.testbit (grant_bits f ops acc) i =
    Z.testbit acc i || existsb (λ op, f op && (i =? acl_code op)) ops.
Proof.
  intros Hi. revert acc. induction ops as [|op ops IH]; intros acc; cbn [existsb].
  - by rewrite orb_false_r.
  - change (grant_bits f (op :: ops) acc) with
      (grant_bits f ops (if f op then Z.lor acc (Z.shiftl 1 (acl_code op)) else acc)).
    rewrite IH. destruct (f op); cbn [andb orb]; [| done].
    rewrite Z.lor_spec, Z.shiftl_spec by lia. rewrite <- orb_assoc. f_equal. f_equal.
    destruct (Z.eqb_spec i (acl_code op)) as [->|Hne]; [by rewrite Z.sub_diag |].
    destruct (Z_lt_ge_dec i (acl_code op)); [apply Z.testbit_neg_r; lia |].
    apply Z.bits_above_log2; [lia | cbn; lia].
Qed.

Lemma lor_shift_range a op : 0 ≤ a < 2 ^ 13 → 0 ≤ Z.lor a (Z.shiftl 1 (acl_code op)) < 2 ^ 13.
Proof.
  intros Ha.
  assert (Hb : 0 ≤ Z.shiftl 1 (acl_code op) < 2 ^ 13) by (destruct op; split; vm_compute; done).
  assert (Hn : 0 ≤ Z.lor a (Z.shiftl 1 (acl_code op))) by (apply Z.lor_nonneg; lia).
  split; [done |]. destruct (Z.eq_dec (Z.lor a (Z.shiftl 1 (acl_code op))) 0) as [->|]; [lia |].
  apply Z.log2_lt_pow2; [lia |]. rewrite Z.log2_lor by lia.
  apply Z.max_lub_lt.
  - destruct (Z.eq_dec a 0) as [->|]; [cbn; lia | apply Z.log2_lt_pow2; lia].
  - apply Z.log2_lt_pow2; [destruct op; vm_compute; done | lia].
Qed.

Lemma grant_bits_range f ops acc : 0 ≤ acc < 2 ^ 13 → 0 ≤ grant_bits f ops acc < 2 ^ 13.
Proof.
  revert acc. induction ops as [|op ops IH]; intros acc Ha; [done |]. cbn [grant_bits foldl].
  apply IH. destruct (f op); [by apply lor_shift_range | done].
Qed.

(** The [AuthorizedOperations] field is exactly the set of allowed
    operations the resource type has: bit [acl_code op] is set if and only if
    the operation belongs to the type and the check passes, no other bit is,
    and the value is a small non-negative [i32]. *)
Theorem authorized_operations_bits c who rt name i :
  0 ≤ i →
  (Z.testbit (authorized_operations c who rt name) i = true ↔
     ∃ op, op ∈ operations_for rt ∧ i = acl_code op ∧ check c who op rt name = Ok tt) ∧
  0 ≤ authorized_operations c who rt name < 2 ^ 13.
Proof.
  intros Hi. unfold authorized_operations. cbv zeta.
  fold (grant_bits (λ op, is_ok (check c who op rt name)) (operations_for rt) 0).
  pose proof (grant_bits_range (λ op, is_ok (check c who op rt name)) (operations_for rt) 0 ltac:(lia)) as Hr.
  rewrite wrap_i32_id by (change (2 ^ 13) with 8192 in Hr; int_lia). split; [| done].
  rewrite grant_bits_spec by done. rewrite Z.bits_0, orb_false_l, existsb_exists.
  setoid_rewrite <- list_elem_of_In. setoid_rewrite andb_true_iff. setoid_rewrite Z.eqb_eq.
  split; intros (op & Hin & H); exists op.
  - destruct H as [Hok ->]. destruct (check c who op rt name) as [[]|]; done.
  - destruct H as [-> ->]. done.
Qed.

Definition sample_acls : AclCache :=
  mk_cache [mk_acl "User:alice" "*" "READ" true Topic "orders" Prefixed;
            mk_acl "User:*" "*" "ALL" false Topic "orders-private" Literal] (Some 0) true [].

Lemma authorized_operations_bits_witness :
  (Z.testbit (authorized_operations sample_acls (user "alice" "h") Topic "orders-eu") 8 = true ↔
     ∃ op, op ∈ operations_for Topic ∧ 8 = acl_code op ∧
       check sample_acls (user "alice" "h") op Topic "orders-eu" = Ok tt) ∧
  0 ≤ authorized_operations sample_acls (user "alice" "h") Topic "orders-eu" < 2 ^ 13.
Proof. apply (authorized_operations_bits sample_acls (user "alice" "h") Topic "orders-eu" 8). lia. Defined.

Example describe_is_implied :
  authorized_operations sample_acls (user "alice" "h") Topic "orders-eu" = 264.
Proof. reflexivity. Qed.
