(* ===== verification/Group.v ===== *)
(** * extension/src/group.rs and handlers/join_sync.rs: consumer groups

    The coordinator of classic groups: a state machine over two tables and a
    timer, and the JoinGroup and SyncGroup handlers that drive it.

    [kafgres_groups] is keyed by group id, [kafgres_group_members] by group and
    member id, [kafgres_offsets] by group, topic and partition.  Times are
    milliseconds and [now] is the transaction's [now()].  [ORDER BY member_id]
    uses the database's collation, the parameter [id_le].  A fresh member id
    (a random UUID) is an argument. *)

From stdpp Require Import gmap strings sorting.
From S2P Require Import Prelude Errors Acl.

#[local] Open Scope Z_scope.

Inductive GroupState : Type := Empty | PreparingRebalance | CompletingRebalance | Stable.
#[export] Instance GroupState_eq_dec : EqDecision GroupState.
Proof. solve_decision. Defined.

Definition state_as_str (s : GroupState) : string :=
  match s with
  | Empty => "Empty" | PreparingRebalance => "PreparingRebalance"
  | CompletingRebalance => "CompletingRebalance" | Stable => "Stable"
  end%string.
Definition state_parse (s : string) : GroupState :=
  if decide (s = "PreparingRebalance")%string then PreparingRebalance
  else if decide (s = "CompletingRebalance")%string then CompletingRebalance
  else if decide (s = "Stable")%string then Stable
  else Empty.

Record GroupRow : Type := mk_group {
  g_generation : Z;
  g_state : GroupState;
  g_protocol_type : option string;
  g_protocol_name : option string;
  g_leader : option string;
  g_deadline : option Z;
  g_window : option Z }.

Record MemberRow : Type := mk_member {
  m_instance : option string;
  m_client_id : string;
  m_client_host : string;
  m_session_timeout : Z;
  m_rebalance_timeout : Z;
  m_metadata : bytes;
  m_protocols : list string;
  m_joined : Z;
  m_assignment : option bytes;
  m_heartbeat : Z }.

(** A committed offset. *)
Record OffsetRow : Type := mk_offset {
  of_offset : Z;
  of_leader_epoch : Z;
  of_metadata : option string;
  of_commit_ts : Z }.

Record Groups : Type := mk_groups {
  groups : gmap string GroupRow;
  gmembers : gmap (string * string) MemberRow;
  goffsets : gmap (string * Z * Z) OffsetRow }.

Definition set_group (g : string) (row : GroupRow) (d : Groups) : Groups :=
  mk_groups (<[g := row]> (groups d)) (gmembers d) (goffsets d).
Definition set_members (f : gmap (string * string) MemberRow → gmap (string * string) MemberRow)
    (d : Groups) : Groups :=
  mk_groups (groups d) (f (gmembers d)) (goffsets d).
(** [UPDATE kafgres_groups .. WHERE group_id = g]. *)
Definition update_group (g : string) (f : GroupRow → GroupRow) (d : Groups) : Groups :=
  mk_groups (alter f g (groups d)) (gmembers d) (goffsets d).
(** [UPDATE kafgres_group_members .. WHERE group_id = g]. *)
Definition update_members (g : string) (f : MemberRow → MemberRow) (d : Groups) : Groups :=
  set_members (map_imap (λ k m, Some (if decide (k.1 = g) then f m else m))) d.

Definition MAX_SESSION_TIMEOUT_MS : Z := 300000.
Definition MIN_SESSION_TIMEOUT_MS : Z := 1000.
Definition MAX_REBALANCE_TIMEOUT_MS : Z := 300000.

Definition clamp_session_timeout (ms : Z) : Z :=
  Z.min MAX_SESSION_TIMEOUT_MS (Z.max MIN_SESSION_TIMEOUT_MS ms).
Definition clamp_rebalance_timeout (ms : Z) : Z :=
  if ms <=? 0 then 60000 else Z.min ms MAX_REBALANCE_TIMEOUT_MS.

Definition new_member_id (client_id uuid : string) : string :=
  ((if decide (client_id = "") then "consumer" else client_id) +:+ "-" +:+ uuid)%string.

(** [INSERT INTO kafgres_groups .. ON CONFLICT DO NOTHING], then [load]. *)
Definition new_group : GroupRow := mk_group 0 Empty None None None None None.
Definition ensure (g : string) (d : Groups) : GroupRow * Groups :=
  match groups d !! g with
  | Some row => (row, d)
  | None => (new_group, set_group g new_group d)
  end.

Section Collation.

Variable id_le : string → string → Prop.
Context {id_dec : ∀ a b, Decision (id_le a b)}.

Definition member_le (a b : string * MemberRow) : Prop := id_le a.1 b.1.
#[local] Instance member_le_dec a b : Decision (member_le a b).
Proof. unfold member_le. apply _. Defined.

Definition members (g : string) (d : Groups) : list (string * MemberRow) :=
  merge_sort member_le
    (omap (λ p, if decide (p.1.1 = g) then Some (p.1.2, p.2) else None) (map_to_list (gmembers d))).

(** [members(..).find(..)]: member ids are unique in a group. *)
Definition member (g member_id : string) (d : Groups) : option MemberRow := gmembers d !! (g, member_id).

Definition protocol_type_conflicts (g protocol_type : string) (d : Groups) : bool :=
  match groups d !! g with
  | Some row =>
      match g_protocol_type row with
      | Some t => bool_decide (t ≠ "")%string && bool_decide (t ≠ protocol_type)
      | None => false
      end
  | None => false
  end.

Definition unassign (m : MemberRow) : MemberRow :=
  mk_member (m_instance m) (m_client_id m) (m_client_host m) (m_session_timeout m)
    (m_rebalance_timeout m) (m_metadata m) (m_protocols m) (m_joined m) None (m_heartbeat m).

(** The upsert of [join]; a row that is there keeps its assignment. *)
Definition upsert_member (now generation : Z) (g member_id : string) (instance : option string)
    (client_id client_host : string) (session_timeout rebalance_timeout : Z)
    (protocols : list string) (metadata : bytes) (d : Groups) : Groups :=
  let kept := gmembers d !! (g, member_id) ≫= m_assignment in
  set_members <[(g, member_id) :=
    mk_member instance client_id client_host (clamp_session_timeout session_timeout)
      (clamp_rebalance_timeout rebalance_timeout) metadata protocols (generation + 1) kept now]> d.

(** [delay] is the setting group_initial_rebalance_delay_ms. *)
Definition join (now delay : Z) (g member_id : string) (instance : option string)
    (client_id client_host : string) (session_timeout rebalance_timeout : Z)
    (protocol_type : string) (protocols : list string) (metadata : bytes) (d : Groups) : Groups :=
  let '(row, d) := ensure g d in
  let d := upsert_member now (g_generation row) g member_id instance client_id client_host
             session_timeout rebalance_timeout protocols metadata d in
  let timeout := clamp_rebalance_timeout rebalance_timeout in
  if decide (g_state row ≠ PreparingRebalance) then
    let opens_window := (0 <? delay) && bool_decide (g_state row = Empty) in
    let d := update_group g (λ r, mk_group (g_generation r) PreparingRebalance
      (if decide (protocol_type = "")%string then g_protocol_type r else Some protocol_type)
      (g_protocol_name r) (g_leader r) (Some (now + timeout))
      (if opens_window then Some (now + Z.min delay timeout) else None)) d in
    update_members g unassign d
  else if 0 <? delay then
    update_group g (λ r, match g_window r with
      | Some _ => mk_group (g_generation r) (g_state r) (g_protocol_type r) (g_protocol_name r)
          (g_leader r) (g_deadline r)
          (Some (match g_deadline r with Some dl => Z.min (now + delay) dl | None => now + delay end))
      | None => r
      end) d
  else d.

Definition join_window_closed (now : Z) (g : string) (d : Groups) : bool :=
  match groups d !! g with
  | Some row =>
      forallb (λ p, g_generation row <? m_joined p.2) (members g d) &&
      (match g_window row with None => true | Some w => w <=? now end) ||
      (match g_deadline row with Some dl => dl <? now | None => false end)
  | None => true
  end.

(** [reduce] over the members' protocol lists, then the first left. *)
Definition common_protocol (ms : list (string * MemberRow)) : option string :=
  match ms with
  | [] => None
  | m :: ms' => head (foldl (λ acc m, filter (λ x, x ∈ m_protocols m.2) acc) (m_protocols m.2) ms')
  end.

Inductive NoCommonProtocol : Type := no_common_protocol.

(** [complete_join]: the group row is there once a join has parked for it; the
    source panics without one. *)
Definition complete_join (g : string) (d : Groups) : result NoCommonProtocol unit * Groups :=
  match groups d !! g with
  | None => (Ok tt, d)
  | Some row =>
      let d := set_members (filter (λ p, ¬ (p.1.1 = g ∧ m_joined p.2 ≤ g_generation row))) d in
      match members g d with
      | [] => (Ok tt, update_group g (λ r, mk_group (g_generation r + 1) Empty (g_protocol_type r)
                 None None None None) d)
      | (leader, _) :: _ =>
          match common_protocol (members g d) with
          | None => (Err no_common_protocol, d)
          | Some protocol =>
              (Ok tt, update_group g (λ r, mk_group (g_generation r + 1) CompletingRebalance
                 (g_protocol_type r) (Some protocol) (Some leader) None None) d)
          end
      end
  end.

Definition assign (a : bytes) (m : MemberRow) : MemberRow :=
  mk_member (m_instance m) (m_client_id m) (m_client_host m) (m_session_timeout m)
    (m_rebalance_timeout m) (m_metadata m) (m_protocols m) (m_joined m) (Some a) (m_heartbeat m).

Definition set_state (s : GroupState) (r : GroupRow) : GroupRow :=
  mk_group (g_generation r) s (g_protocol_type r) (g_protocol_name r) (g_leader r) (g_deadline r)
    (g_window r).

Definition apply_assignments (g : string) (assignments : list (string * bytes)) (d : Groups) : Groups :=
  let d := foldl (λ d a, set_members (alter (assign a.2) (g, a.1)) d) d assignments in
  let d := update_members g (λ m, match m_assignment m with None => assign [] m | Some _ => m end) d in
  update_group g (set_state Stable) d.

Definition touch_heartbeat (now : Z) (g member_id : string) (d : Groups) : Groups :=
  set_members (alter (λ m, mk_member (m_instance m) (m_client_id m) (m_client_host m)
    (m_session_timeout m) (m_rebalance_timeout m) (m_metadata m) (m_protocols m) (m_joined m)
    (m_assignment m) now) (g, member_id)) d.

Definition touch_parked (now : Z) (entries : list (string * string)) (d : Groups) : Groups :=
  foldl (λ d e, touch_heartbeat now e.1 e.2 d) d entries.

(** [SELECT max(rebalance_timeout_ms)], 60000 when there is no member. *)
Definition max_timeout (ms : list (string * MemberRow)) : Z :=
  match ms with
  | [] => 60000
  | m :: ms' => foldl (λ acc m, Z.max acc (m_rebalance_timeout m.2)) (m_rebalance_timeout m.2) ms'
  end.

Definition open_rebalance (now : Z) (g : string) (d : Groups) : Groups :=
  let ms := members g d in
  let d := update_group g (λ r, mk_group (g_generation r)
    (match ms with [] => Empty | _ => PreparingRebalance end)
    (g_protocol_type r) (g_protocol_name r) (g_leader r) (Some (now + max_timeout ms)) None) d in
  update_members g unassign d.

Definition leave (now : Z) (g member_id : string) (d : Groups) : bool * Groups :=
  match gmembers d !! (g, member_id) with
  | Some _ => (true, open_rebalance now g (set_members (delete (g, member_id)) d))
  | None => (false, d)
  end.

Inductive DeleteOutcome : Type := Deleted | NotFound | NotEmpty.
Definition delete_error_code (o : DeleteOutcome) : ErrorCode.t :=
  match o with
  | Deleted => ErrorCode.NoError
  | NotFound => ErrorCode.GroupIdNotFound
  | NotEmpty => ErrorCode.NonEmptyGroup
  end.

Definition existence (g : string) (d : Groups) : bool * bool :=
  (bool_decide (is_Some (groups d !! g)) || bool_decide (filter (λ p, p.1.1.1 = g) (goffsets d) ≠ ∅),
   bool_decide (members g d ≠ [])).

Definition delete_group (g : string) (d : Groups) : DeleteOutcome * Groups :=
  if negb (existence g d).1 then (NotFound, d)
  else match members g d with
       | _ :: _ => (NotEmpty, d)
       | [] => (Deleted, mk_groups (delete g (groups d)) (gmembers d)
                  (filter (λ p, p.1.1.1 ≠ g) (goffsets d)))
       end.

Definition delete_offset (g : string) (topic part : Z) (d : Groups) : bool * Groups :=
  (bool_decide (is_Some (goffsets d !! (g, topic, part))),
   mk_groups (groups d) (gmembers d) (delete (g, topic, part) (goffsets d))).

(** The session has run out. *)
Definition dead (now : Z) (m : MemberRow) : Prop := m_heartbeat m < now - m_session_timeout m.

#[local] Instance dead_dec now m : Decision (dead now m).
Proof. unfold dead. apply _. Defined.

Definition sweep (now : Z) (d : Groups) : list string * Groups :=
  let changed := remove_dups ((λ p, p.1.1) <$> map_to_list (filter (λ p, dead now p.2) (gmembers d))) in
  let d := set_members (filter (λ p, ¬ dead now p.2)) d in
  (changed, foldl (λ d g, open_rebalance now g d) d changed).

Definition groups_past_deadline (now : Z) (d : Groups) : list string :=
  omap (λ p, if decide (g_state p.2 = PreparingRebalance) then
               if (match g_deadline p.2 with Some dl => dl <? now | None => false end) ||
                  (match g_window p.2 with Some w => w <? now | None => false end)
               then Some p.1 else None
             else None) (map_to_list (groups d)).

(** ** JoinGroup and SyncGroup *)

Definition MEMBER_ID_REQUIRED_FROM : Z := 4.

Record JoinGroupRequest : Type := mk_join_request {
  jq_group_id : string;
  jq_member_id : string;
  jq_instance : option string;
  jq_session_timeout : Z;
  jq_rebalance_timeout : Z;
  jq_protocol_type : string;
  jq_protocols : list (string * bytes) }.

Record JoinGroupResponse : Type := mk_join_response {
  jr_error : ErrorCode.t;
  jr_generation : Z;
  jr_protocol_type : option string;
  jr_protocol_name : option string;
  jr_leader : string;
  jr_member_id : string;
  jr_members : list (string * option string * bytes) }.

Inductive JoinOutcome : Type := JoinReply (r : JoinGroupResponse) | JoinPark (member_id : string).

Definition error_join (code : ErrorCode.t) (member_id : string) : JoinGroupResponse :=
  mk_join_response code (-1) (Some ""%string) (Some ""%string) "" member_id [].

Definition register_and_park (now delay : Z) (req : JoinGroupRequest)
    (member_id client_id client_host : string) (d : Groups) : JoinOutcome * Groups :=
  match jq_protocols req with
  | [] => (JoinReply (error_join ErrorCode.InconsistentGroupProtocol member_id), d)
  | (_, metadata) :: _ =>
      if protocol_type_conflicts (jq_group_id req) (jq_protocol_type req) d
      then (JoinReply (error_join ErrorCode.InconsistentGroupProtocol member_id), d)
      else (JoinPark member_id,
            join now delay (jq_group_id req) member_id (jq_instance req) client_id client_host
              (jq_session_timeout req) (jq_rebalance_timeout req) (jq_protocol_type req)
              (fst <$> jq_protocols req) metadata d)
  end.

Definition join_group (authz : AclCache) (who : Principal) (uuid : string) (now delay version : Z)
    (req : JoinGroupRequest) (client_id client_host : string) (d : Groups) : JoinOutcome * Groups :=
  match Acl.check authz who Read Group (jq_group_id req) with
  | Err code => (JoinReply (error_join code (jq_member_id req)), d)
  | Ok _ =>
      if decide (jq_group_id req = "")%string
      then (JoinReply (error_join ErrorCode.InvalidGroupId ""), d)
      else if decide (jq_member_id req = "")%string then
        let member_id := new_member_id client_id uuid in
        if MEMBER_ID_REQUIRED_FROM <=? version then
          (JoinReply (mk_join_response ErrorCode.MemberIdRequired (-1) (Some (jq_protocol_type req))
             (Some ""%string) "" member_id []), d)
        else register_and_park now delay req member_id client_id client_host d
      else register_and_park now delay req (jq_member_id req) client_id client_host d
  end.

Definition join_response (g member_id : string) (d : Groups) : JoinGroupResponse :=
  match groups d !! g with
  | None => error_join ErrorCode.UnknownMemberId member_id
  | Some row =>
      let ms := members g d in
      if negb (existsb (λ m, bool_decide (m.1 = member_id)) ms)
      then error_join ErrorCode.UnknownMemberId member_id
      else
        let is_leader := bool_decide (g_leader row = Some member_id) in
        mk_join_response ErrorCode.NoError (g_generation row)
          (Some (default ""%string (g_protocol_type row))) (Some (default ""%string (g_protocol_name row)))
          (default ""%string (g_leader row)) member_id
          (if is_leader then (λ m, (m.1, m_instance m.2, m_metadata m.2)) <$> ms else [])
  end.

Record SyncGroupResponse : Type := mk_sync_response {
  sr_error : ErrorCode.t;
  sr_protocol_type : option string;
  sr_protocol_name : option string;
  sr_assignment : bytes }.

Inductive SyncOutcome : Type := SyncReply (r : SyncGroupResponse) | SyncPark.

Definition error_sync (code : ErrorCode.t) : SyncGroupResponse :=
  mk_sync_response code (Some ""%string) (Some ""%string) [].

Definition sync_response (g member_id : string) (d : Groups) : option SyncGroupResponse :=
  match groups d !! g with
  | None => Some (error_sync ErrorCode.UnknownMemberId)
  | Some row =>
      match member g member_id d with
      | None => Some (error_sync ErrorCode.UnknownMemberId)
      | Some m =>
          if decide (g_state row = PreparingRebalance)
          then Some (error_sync ErrorCode.RebalanceInProgress)
          else match m_assignment m with
               | None => None
               | Some a => Some (mk_sync_response ErrorCode.NoError
                   (Some (default ""%string (g_protocol_type row)))
                   (Some (default ""%string (g_protocol_name row))) a)
               end
      end
  end.

Definition sync_group (authz : AclCache) (who : Principal) (g member_id : string) (generation : Z)
    (assignments : list (string * bytes)) (d : Groups) : SyncOutcome * Groups :=
  match Acl.check authz who Read Group g with
  | Err code => (SyncReply (error_sync code), d)
  | Ok _ =>
      match groups d !! g with
      | None => (SyncReply (error_sync ErrorCode.UnknownMemberId), d)
      | Some row =>
          if decide (member g member_id d = None) then (SyncReply (error_sync ErrorCode.UnknownMemberId), d)
          else if negb (generation =? g_generation row)
          then (SyncReply (error_sync ErrorCode.IllegalGeneration), d)
          else if decide (g_state row = PreparingRebalance)
          then (SyncReply (error_sync ErrorCode.RebalanceInProgress), d)
          else
            let is_leader := bool_decide (g_leader row = Some member_id) in
            let d := if is_leader && bool_decide (assignments ≠ [])
                     then apply_assignments g assignments d else d in
            (match sync_response g member_id d with Some r => SyncReply r | None => SyncPark end, d)
      end
  end.

(** A parked JoinGroup that is looked at again (server/mod.rs): close the join
    window if it is time, and answer unless the rebalance goes on. *)
Definition parked_join (now : Z) (expired : bool) (g member_id : string) (d : Groups)
    : option JoinGroupResponse * Groups :=
  let preparing d := bool_decide (g_state <$> groups d !! g = Some PreparingRebalance) in
  let '(failed, d) :=
    if preparing d && (expired || join_window_closed now g d) then
      match complete_join g d with
      | (Err _, d) => (true, d)
      | (Ok _, d) => (false, d)
      end
    else (false, d) in
  if failed then (Some (error_join ErrorCode.InconsistentGroupProtocol member_id), d)
  else if preparing d || bool_decide (groups d !! g = None) then (None, d)
  else (Some (join_response g member_id d), d).

(** ** The state machine *)

(** What the worker and the handlers do to the tables. *)
Inductive step : Groups → Groups → Prop :=
| step_join authz who uuid now delay version req client_id client_host d :
    step d (join_group authz who uuid now delay version req client_id client_host d).2
| step_parked_join now expired g member_id d : step d (parked_join now expired g member_id d).2
| step_sync authz who g member_id generation assignments d :
    step d (sync_group authz who g member_id generation assignments d).2
| step_heartbeat now g member_id d : step d (touch_heartbeat now g member_id d)
| step_leave now g member_id d : step d (leave now g member_id d).2
| step_sweep now d : step d (sweep now d).2
| step_delete g d : step d (delete_group g d).2
| step_delete_offset g topic part d : step d (delete_offset g topic part d).2.

(** ** The invariant

    Of one group: its row, and its members as a function of the member id. *)

Abbreviation roster := (string → option MemberRow).

(** What holds of every member row. *)
Definition members_ok (row : GroupRow) (f : roster) : Prop :=
  ∀ m x, f m = Some x → m_joined x ≤ g_generation row + 1 ∧
    0 < m_rebalance_timeout x ≤ MAX_REBALANCE_TIMEOUT_MS.

(** Every member is in the current generation, under a protocol all of them
    support and a leader that is one of them. *)
Definition settled (row : GroupRow) (f : roster) : Prop :=
  (∀ m x, f m = Some x → m_joined x = g_generation row) ∧
  ∃ p l, g_protocol_name row = Some p ∧ g_leader row = Some l ∧ is_Some (f l) ∧
    ∀ m x, f m = Some x → p ∈ m_protocols x.

Definition state_ok (row : GroupRow) (f : roster) : Prop :=
  match g_state row with
  | Empty => ∀ m, f m = None
  | PreparingRebalance =>
      (∀ m x, f m = Some x → m_assignment x = None) ∧
      ∃ dl, g_deadline row = Some dl ∧ ∀ w, g_window row = Some w → w ≤ dl
  | CompletingRebalance => settled row f ∧ ∀ m x, f m = Some x → m_assignment x = None
  | Stable => settled row f ∧ ∀ m x, f m = Some x → is_Some (m_assignment x)
  end.

Definition weak_ok (o : option GroupRow) (f : roster) : Prop :=
  match o with
  | None => ∀ m, f m = None
  | Some row => members_ok row f
  end.
Definition group_ok (o : option GroupRow) (f : roster) : Prop :=
  weak_ok o f ∧ match o with None => True | Some row => state_ok row f end.

Definition roster_of (d : Groups) (g : string) : roster := λ m, gmembers d !! (g, m).
Definition ok_at (d : Groups) (g : string) : Prop := group_ok (groups d !! g) (roster_of d g).
Definition weak_at (d : Groups) (g : string) : Prop := weak_ok (groups d !! g) (roster_of d g).
Definition all_ok (d : Groups) : Prop := ∀ g, ok_at d g.

(** [d'] and [d] agree on the group. *)
Definition same_at (d d' : Groups) (g : string) : Prop :=
  groups d' !! g = groups d !! g ∧ ∀ m, gmembers d' !! (g, m) = gmembers d !! (g, m).

Lemma settled_ext row f f' : (∀ m, f m = f' m) → settled row f → settled row f'.
Proof.
  intros E [H1 (p & l & H2 & H3 & H4 & H5)]. split; [intros m x; rewrite <- E; apply H1 |].
  exists p, l. rewrite <- E. repeat (split; [done |]). intros m x. rewrite <- E. apply H5.
Qed.

Lemma group_ok_ext o f f' : (∀ m, f m = f' m) → group_ok o f → group_ok o f'.
Proof.
  intros E [Hw Hs]. split.
  - destruct o as [row|]; cbn in *; [intros m x | intros m]; rewrite <- E; apply Hw.
  - destruct o as [row|]; [| done]. unfold state_ok in *. destruct (g_state row).
    + intros m. rewrite <- E. apply Hs.
    + destruct Hs as [H1 H2]. split; [intros m x; rewrite <- E; apply H1 | done].
    + destruct Hs as [H1 H2]. split; [by eapply settled_ext | intros m x; rewrite <- E; apply H2].
    + destruct Hs as [H1 H2]. split; [by eapply settled_ext | intros m x; rewrite <- E; apply H2].
Qed.

Lemma ok_at_same d d' g : same_at d d' g → ok_at d g → ok_at d' g.
Proof. intros [H1 H2]. unfold ok_at. rewrite H1. apply group_ok_ext. intros m. symmetry. apply H2. Qed.

(** A step on one group preserves the invariant if it does so there. *)
Lemma all_ok_one g d d' :
  all_ok d → (∀ g', g' ≠ g → same_at d d' g') → ok_at d' g → all_ok d'.
Proof.
  intros Ha Hs Hg g'. destruct (decide (g' = g)) as [->|]; [done |].
  eapply ok_at_same; [by apply Hs | apply Ha].
Qed.

Lemma update_members_lookup g f d g' m :
  gmembers (update_members g f d) !! (g', m) =
    if decide (g' = g) then f <$> gmembers d !! (g', m) else gmembers d !! (g', m).
Proof.
  unfold update_members, set_members. cbn [gmembers]. rewrite map_lookup_imap. cbn [fst].
  case_decide; by destruct (gmembers d !! (g', m)).
Qed.

Lemma update_group_lookup g f d g' :
  groups (update_group g f d) !! g' = if decide (g' = g) then f <$> groups d !! g' else groups d !! g'.
Proof.
  unfold update_group. cbn [groups]. case_decide as E; [subst; by rewrite lookup_alter_eq |].
  by rewrite lookup_alter_ne.
Qed.

Lemma members_spec g d m x : (m, x) ∈ members g d ↔ gmembers d !! (g, m) = Some x.
Proof.
  unfold members. rewrite merge_sort_Permutation, list_elem_of_omap. split.
  - intros ([[g' m'] x'] & Hin & He). cbn [fst snd] in He. case_decide; [| done]. simplify_eq.
    by apply elem_of_map_to_list in Hin.
  - intros Hl. exists ((g, m), x). split; [by apply elem_of_map_to_list |]. cbn. by rewrite decide_True.
Qed.

Lemma members_nil g d : members g d = [] ↔ ∀ m, gmembers d !! (g, m) = None.
Proof.
  split.
  - intros E m. destruct (gmembers d !! (g, m)) as [x|] eqn:Em; [| done].
    apply members_spec in Em. rewrite E in Em. by apply elem_of_nil in Em.
  - intros H. destruct (members g d) as [|[m x] l] eqn:E; [done |].
    assert (Hin : (m, x) ∈ members g d) by (rewrite E; constructor).
    apply members_spec in Hin. by rewrite H in Hin.
Qed.

Lemma clamp_rebalance_range ms : 0 < clamp_rebalance_timeout ms ≤ MAX_REBALANCE_TIMEOUT_MS.
Proof.
  unfold clamp_rebalance_timeout, MAX_REBALANCE_TIMEOUT_MS. destruct (Z.leb_spec ms 0); lia.
Qed.

(** ** Joining *)

Lemma ensure_spec g d row d0 :
  ensure g d = (row, d0) →
  groups d0 !! g = Some row ∧ gmembers d0 = gmembers d ∧ (∀ g', g' ≠ g → groups d0 !! g' = groups d !! g') ∧
  (groups d !! g = Some row ∨ groups d !! g = None ∧ row = new_group).
Proof.
  unfold ensure. destruct (groups d !! g) as [r|] eqn:E; intros ?; simplify_eq.
  - repeat split; [done | by left].
  - unfold set_group. cbn [groups gmembers]. rewrite lookup_insert_eq. repeat split; [| by right].
    intros g' Hne. by rewrite lookup_insert_ne.
Qed.

Lemma upsert_lookup now gen g m i ci ch st rt ps md d g' m' :
  gmembers (upsert_member now gen g m i ci ch st rt ps md d) !! (g', m') =
    if decide ((g', m') = (g, m))
    then Some (mk_member i ci ch (clamp_session_timeout st) (clamp_rebalance_timeout rt) md ps (gen + 1)
                 (gmembers d !! (g, m) ≫= m_assignment) now)
    else gmembers d !! (g', m').
Proof.
  unfold upsert_member, set_members. cbn [gmembers]. case_decide as E; [by simplify_eq; rewrite lookup_insert_eq |].
  by rewrite lookup_insert_ne by congruence.
Qed.

Lemma upsert_groups now gen g m i ci ch st rt ps md d :
  groups (upsert_member now gen g m i ci ch st rt ps md d) = groups d.
Proof. done. Qed.

(** After the upsert the members are as every member must be. *)
Lemma upsert_members_ok now g m i ci ch st rt ps md d row :
  members_ok row (roster_of d g) →
  members_ok row (roster_of (upsert_member now (g_generation row) g m i ci ch st rt ps md d) g).
Proof.
  intros H m' x. unfold roster_of. rewrite upsert_lookup. case_decide; [| apply H].
  intros [= <-]. cbn [m_joined m_rebalance_timeout]. split; [lia | apply clamp_rebalance_range].
Qed.

Lemma roster_ok_after_ensure g d row d0 :
  ensure g d = (row, d0) → ok_at d g →
  members_ok row (roster_of d0 g) ∧ (g_state row = PreparingRebalance → state_ok row (roster_of d0 g)).
Proof.
  intros E [Hw Hs]. destruct (ensure_spec g d row d0 E) as (_ & Hm & _ & Hr).
  unfold ok_at, roster_of in *. rewrite Hm. destruct Hr as [Hr|[Hr ->]]; rewrite Hr in *; cbn in Hw, Hs.
  - done.
  - split; [intros m x; by rewrite Hw | done].
Qed.

Lemma join_ok now delay g m i ci ch st rt pt ps md d :
  all_ok d → all_ok (join now delay g m i ci ch st rt pt ps md d).
Proof.
  intros Ha. unfold join. destruct (ensure g d) as [row d0] eqn:E.
  destruct (ensure_spec g d row d0 E) as (H1 & H2 & H3 & _).
  destruct (roster_ok_after_ensure g d row d0 E (Ha g)) as [Hm Hs].
  pose proof (upsert_members_ok now g m i ci ch st rt ps md d0 row Hm) as Hu.
  assert (Hsame : ∀ g' m', g' ≠ g →
    gmembers (upsert_member now (g_generation row) g m i ci ch st rt ps md d0) !! (g', m') = gmembers d !! (g', m')).
  { intros g' m' Hne. rewrite upsert_lookup, decide_False by congruence. by rewrite H2. }
  apply (all_ok_one g d); [done | |]; case_decide as Hst.
  - intros g' Hne. split; [cbn [groups update_members set_members]; by rewrite update_group_lookup, decide_False, upsert_groups, H3 |].
    intros m'. rewrite update_members_lookup, decide_False by done. by apply Hsame.
  - intros g' Hne. case_match; (split; [| intros; by apply Hsame]);
      rewrite ?update_group_lookup, ?decide_False, ?upsert_groups by done; by apply H3.
  - unfold ok_at. cbn [groups update_members set_members]. rewrite update_group_lookup, decide_True, upsert_groups, H1 by done.
    set (d1 := upsert_member _ _ _ _ _ _ _ _ _ _ _ _) in *. split; cbn [fmap option_fmap option_map weak_ok].
    + intros m' x. unfold roster_of. rewrite update_members_lookup, decide_True by done. intros Hx.
      apply fmap_Some in Hx as (y & Hy & ->). apply (Hu m' y Hy).
    + cbn [state_ok g_state g_deadline g_window]. split.
      * intros m' x. unfold roster_of. rewrite update_members_lookup, decide_True by done. intros Hx.
        by apply fmap_Some in Hx as (y & _ & ->).
      * eexists. split; [done |]. intros w. case_match; [| done]. intros [= <-]. lia.
  - specialize (Hs Hst). unfold state_ok in Hs. rewrite Hst in Hs.
    destruct Hs as [Hna (dl & Hdl & Hw)].
    set (d1 := upsert_member _ _ _ _ _ _ _ _ _ _ _ _) in *.
    assert (Hna' : ∀ m' x, roster_of d1 g m' = Some x → m_assignment x = None).
    { intros m' x. unfold roster_of, d1. rewrite upsert_lookup. case_decide; [| apply Hna].
      intros [= <-]. cbn [m_assignment]. destruct (gmembers d0 !! (g, m)) as [y|] eqn:Ey; [| done].
      cbn. by apply (Hna m). }
    case_match; unfold ok_at; rewrite ?update_group_lookup, ?decide_True by done;
      unfold d1 at 1; rewrite upsert_groups, H1; cbn [fmap option_fmap option_map].
    + destruct (g_window row) as [w|] eqn:Ew; (split; [exact Hu |]); unfold state_ok; cbn [g_state]; rewrite Hst;
        (split; [exact Hna' |]); exists dl; cbn [g_deadline g_window].
      * rewrite Hdl. split; [done |]. intros w' [= <-]. lia.
      * by rewrite Ew.
    + split; [exact Hu |]. unfold state_ok. rewrite Hst. split; [exact Hna' |]. by exists dl.
Qed.

Lemma join_group_ok authz who uuid now delay version req ci ch d :
  all_ok d → all_ok (join_group authz who uuid now delay version req ci ch d).2.
Proof.
  intros Ha. unfold join_group, register_and_park.
  repeat case_match; cbn [snd]; try done; by apply join_ok.
Qed.

(** ** Closing the join window *)

Lemma common_fold_spec p ms (acc : list string) :
  p ∈ foldl (λ acc (m : string * MemberRow), filter (λ x, x ∈ m_protocols m.2) acc) acc ms →
  p ∈ acc ∧ ∀ m x, (m, x) ∈ ms → p ∈ m_protocols x.
Proof.
  revert acc. induction ms as [|[m x] ms IH]; intros acc H; cbn [foldl] in H.
  - split; [done |]. intros m x Hx. by apply elem_of_nil in Hx.
  - apply IH in H as [Ha Hm]. apply list_elem_of_filter in Ha as [Hp Ha]. split; [done |].
    intros m' x' Hx. apply elem_of_cons in Hx as [[= -> ->]|Hx]; [done | by apply (Hm m')].
Qed.

(** The protocol picked is one every member offered. *)
Lemma common_protocol_spec ms p :
  common_protocol ms = Some p → ∀ m x, (m, x) ∈ ms → p ∈ m_protocols x.
Proof.
  destruct ms as [|[m0 x0] ms]; cbn; [done |]. intros Hh.
  assert (Hin : p ∈ foldl (λ acc (m : string * MemberRow), filter (λ x, x ∈ m_protocols m.2) acc)
    (m_protocols x0) ms) by (by apply head_Some_elem_of).
  apply common_fold_spec in Hin as [H0 Hms]. intros m x Hx.
  apply elem_of_cons in Hx as [[= -> ->]|Hx]; [done | by apply (Hms m)].
Qed.

(** The members that have rejoined. *)
Lemma rejoined_lookup g gen d g' m x :
  gmembers (set_members (filter (λ p, ¬ (p.1.1 = g ∧ m_joined p.2 ≤ gen))) d) !! (g', m) = Some x ↔
    gmembers d !! (g', m) = Some x ∧ (g' = g → gen < m_joined x).
Proof.
  unfold set_members. cbn [gmembers]. rewrite map_lookup_filter_Some. cbn [fst snd].
  split; intros [H1 H2]; (split; [done |]).
  - intros ->. apply Z.nle_gt. intros Hle. by apply H2.
  - intros [-> Hle]. specialize (H2 eq_refl). lia.
Qed.

Lemma rejoined_other g gen d g' m :
  g' ≠ g →
  gmembers (set_members (filter (λ p, ¬ (p.1.1 = g ∧ m_joined p.2 ≤ gen))) d) !! (g', m) =
    gmembers d !! (g', m).
Proof.
  intros Hne. apply option_eq. intros x. rewrite rejoined_lookup. tauto.
Qed.

Lemma complete_join_ok g d row :
  all_ok d → groups d !! g = Some row → g_state row = PreparingRebalance →
  all_ok (complete_join g d).2.
Proof.
  intros Ha Hg Hst. pose proof (Ha g) as [Hw Hs]. unfold ok_at in *. rewrite Hg in Hw, Hs.
  cbn in Hw. unfold state_ok in Hs. rewrite Hst in Hs. destruct Hs as [Hna Hdl].
  unfold complete_join. rewrite Hg. set (d1 := set_members _ d).
  assert (Hoth : ∀ g', g' ≠ g → ∀ m, gmembers d1 !! (g', m) = gmembers d !! (g', m))
    by (intros; by apply rejoined_other).
  assert (Hin : ∀ m x, gmembers d1 !! (g, m) = Some x →
    gmembers d !! (g, m) = Some x ∧ m_joined x = g_generation row + 1).
  { intros m x Hx. apply rejoined_lookup in Hx as [Hx Hj]. specialize (Hj eq_refl).
    split; [done |]. destruct (Hw m x Hx) as [Hle _]. lia. }
  destruct (members g d1) as [|[leader lx] ms] eqn:Ems.
  - apply (all_ok_one g d); [done | |]; cbn [snd].
    + intros g' Hne. split; [by rewrite update_group_lookup, decide_False | intros m; by apply Hoth].
    + pose proof (proj1 (members_nil g d1) Ems) as Hnil. unfold ok_at.
      rewrite update_group_lookup, decide_True by done. cbn [groups set_members d1]. rewrite Hg. cbn.
      split; [| exact Hnil]. intros m x Hx. change (gmembers d1 !! (g, m) = Some x) in Hx.
      by rewrite (Hnil m) in Hx.
  - destruct (common_protocol _) as [p|] eqn:Ep; cbn [snd].
    + apply (all_ok_one g d); [done | |].
      * intros g' Hne. split; [by rewrite update_group_lookup, decide_False | intros m; by apply Hoth].
      * unfold ok_at. rewrite update_group_lookup, decide_True by done. cbn [groups set_members d1].
        rewrite Hg. cbn [fmap option_fmap option_map]. split; cbn [weak_ok].
        -- intros m x Hx. apply Hin in Hx as [Hx ->]. destruct (Hw m x Hx) as [_ Hrt].
           split; [cbn [g_generation]; lia | done].
        -- cbn [state_ok g_state]. split; [| intros m x Hx; apply Hin in Hx as [Hx _]; by apply (Hna m)].
           split; [intros m x Hx; by apply Hin in Hx as [_ ->] |]. exists p, leader.
           split; [done |]. split; [done |]. split.
           ++ exists lx. change (gmembers d1 !! (g, leader) = Some lx). apply members_spec.
              rewrite Ems. constructor.
           ++ intros m x Hx. change (gmembers d1 !! (g, m) = Some x) in Hx.
              apply (common_protocol_spec _ p Ep m). rewrite <- Ems. by apply members_spec.
    + apply (all_ok_one g d); [done | |].
      * intros g' Hne. split; [done | intros m; by apply Hoth].
      * unfold ok_at. cbn [groups set_members d1]. rewrite Hg. split.
        -- intros m x Hx. apply Hin in Hx as [Hx _]. by apply (Hw m).
        -- unfold state_ok. rewrite Hst. split; [| done]. intros m x Hx. apply Hin in Hx as [Hx _]. by apply (Hna m).
Qed.

Lemma parked_join_ok now expired g m d : all_ok d → all_ok (parked_join now expired g m d).2.
Proof.
  intros Ha. unfold parked_join.
  destruct (bool_decide (g_state <$> groups d !! g = Some PreparingRebalance)) eqn:Ep; cbn [andb].
  - apply bool_decide_eq_true in Ep. destruct (groups d !! g) as [row|] eqn:Eg; [| done].
    cbn in Ep. injection Ep as Ep. pose proof (complete_join_ok g d row Ha Eg Ep) as Hc.
    repeat case_match; simplify_eq; cbn [snd] in *; done.
  - repeat case_match; simplify_eq; cbn [snd]; done.
Qed.

(** ** Assignments *)

Lemma assign_fold_lookup g as_ d g' m :
  gmembers (foldl (λ d a, set_members (alter (assign a.2) (g, a.1)) d) d as_) !! (g', m) =
    gmembers d !! (g', m) ∨
  g' = g ∧ ∃ x a, gmembers d !! (g', m) = Some x ∧
    gmembers (foldl (λ d a, set_members (alter (assign a.2) (g, a.1)) d) d as_) !! (g', m) = Some (assign a x).
Proof.
  revert d. induction as_ as [|a as_ IH]; intros d; [by left |]. cbn [foldl].
  set (d1 := set_members _ d).
  assert (H1 : gmembers d1 !! (g', m) = if decide ((g', m) = (g, a.1))
    then assign a.2 <$> gmembers d !! (g', m) else gmembers d !! (g', m)).
  { unfold d1, set_members. cbn [gmembers]. case_decide as E; [simplify_eq; by rewrite lookup_alter_eq |].
    by rewrite lookup_alter_ne by congruence. }
  destruct (IH d1) as [->|(-> & x & b & Hx & ->)]; rewrite H1 in *; case_decide as E; simplify_eq.
  - destruct (gmembers d !! (g, a.1)) as [y|]; [| by left]. right. split; [done |]. exists y, a.2. done.
  - by left.
  - apply fmap_Some in Hx as (y & Hy & ->). right. split; [done |]. by exists y, b.
  - right. split; [done |]. by exists x, b.
Qed.

Lemma assign_fold_groups g as_ d :
  groups (foldl (λ d a, set_members (alter (assign a.2) (g, a.1)) d) d as_) = groups d.
Proof. revert d. induction as_ as [|a as_ IH]; intros d; [done |]. cbn [foldl]. by rewrite IH. Qed.

(** Every member gets an assignment and changes in nothing else. *)
Lemma apply_assignments_lookup g as_ d m x' :
  gmembers (apply_assignments g as_ d) !! (g, m) = Some x' →
  ∃ x a, gmembers d !! (g, m) = Some x ∧ x' = assign a x.
Proof.
  unfold apply_assignments. cbn [gmembers update_group]. rewrite update_members_lookup, decide_True by done.
  intros H. apply fmap_Some in H as (y & Hy & ->).
  destruct (assign_fold_lookup g as_ d g m) as [E|(_ & x & a & Hx & E)]; rewrite E in Hy.
  - destruct (m_assignment y) as [b|] eqn:Eb; [| by exists y, []].
    exists y, b. split; [done |]. unfold assign. rewrite <- Eb. by destruct y.
  - simplify_eq. exists x, a. done.
Qed.

Lemma apply_assignments_mono g as_ d m :
  is_Some (gmembers d !! (g, m)) → is_Some (gmembers (apply_assignments g as_ d) !! (g, m)).
Proof.
  intros Hs. unfold apply_assignments. cbn [gmembers update_group].
  rewrite update_members_lookup, decide_True by done. apply fmap_is_Some.
  destruct (assign_fold_lookup g as_ d g m) as [->|(_ & x & a & _ & ->)]; done.
Qed.

Lemma apply_assignments_ok g as_ d row :
  all_ok d → groups d !! g = Some row → settled row (roster_of d g) → all_ok (apply_assignments g as_ d).
Proof.
  intros Ha Hg [Hj (p & l & Hp & Hl & Hsl & Hps)]. apply (all_ok_one g d); [done | |].
  - intros g' Hne. unfold apply_assignments. split.
    + rewrite update_group_lookup, decide_False by done. cbn [groups update_members set_members].
      by rewrite assign_fold_groups.
    + intros m. cbn [gmembers update_group]. rewrite update_members_lookup, decide_False by done.
      by destruct (assign_fold_lookup g as_ d g' m) as [->|(? & _)].
  - pose proof (Ha g) as [Hw _]. unfold ok_at in *. rewrite Hg in Hw. cbn [weak_ok] in Hw.
    assert (Hgr : groups (apply_assignments g as_ d) !! g = Some (set_state Stable row)).
    { unfold apply_assignments. rewrite update_group_lookup, decide_True by done.
      cbn [groups update_members set_members]. by rewrite assign_fold_groups, Hg. }
    unfold ok_at. rewrite Hgr. split; cbn [weak_ok].
    + intros m x' Hx. apply apply_assignments_lookup in Hx as (x & a & Hx & ->). apply (Hw m x Hx).
    + cbn [state_ok g_state set_state]. split.
      * split; [intros m x' Hx; apply apply_assignments_lookup in Hx as (x & a & Hx & ->); apply (Hj m x Hx) |].
        exists p, l. split; [done |]. split; [done |]. split; [by apply apply_assignments_mono |].
        intros m x' Hx. apply apply_assignments_lookup in Hx as (x & a & Hx & ->). apply (Hps m x Hx).
      * intros m x' Hx. apply apply_assignments_lookup in Hx as (x & a & _ & ->). by exists a.
Qed.

Lemma sync_group_ok authz who g m gen as_ d : all_ok d → all_ok (sync_group authz who g m gen as_ d).2.
Proof.
  intros Ha. unfold sync_group. destruct (Acl.check _ _ _ _ _); [| done].
  destruct (groups d !! g) as [row|] eqn:Eg; [| done].
  destruct (decide (member g m d = None)) as [|Hm]; [done |].
  destruct (negb (gen =? g_generation row)); [done |].
  destruct (decide (g_state row = PreparingRebalance)) as [|Hst]; [done |]. cbn [snd].
  destruct (bool_decide _ && bool_decide _); [| done].
  apply apply_assignments_ok with row; [done | done |].
  pose proof (Ha g) as [_ Hs]. unfold ok_at in *. rewrite Eg in Hs. unfold state_ok in Hs.
  destruct (g_state row); [| done | by destruct Hs | by destruct Hs].
  exfalso. apply Hm, (Hs m).
Qed.

(** ** Members that go *)

(** Opening a rebalance makes a group right whatever its state was. *)
Lemma open_rebalance_spec now g d :
  weak_at d g →
  ok_at (open_rebalance now g d) g ∧ ∀ g', g' ≠ g → same_at d (open_rebalance now g d) g'.
Proof.
  intros Hw. unfold open_rebalance. cbv zeta. split.
  - unfold ok_at, weak_at in *. cbn [groups update_members set_members].
    rewrite update_group_lookup, decide_True by done.
    assert (Hr : ∀ m x', roster_of (update_members g unassign (update_group g (λ r, mk_group (g_generation r)
        (match members g d with [] => Empty | _ => PreparingRebalance end) (g_protocol_type r) (g_protocol_name r)
        (g_leader r) (Some (now + max_timeout (members g d))) None) d)) g m = Some x' →
      ∃ x, roster_of d g m = Some x ∧ x' = unassign x).
    { intros m x'. unfold roster_of. rewrite update_members_lookup, decide_True by done.
      intros H. apply fmap_Some in H as (x & Hx & ->). by exists x. }
    destruct (groups d !! g) as [row|]; cbn [fmap option_fmap option_map].
    + split; [intros m x' Hx; apply Hr in Hx as (x & Hx & ->); apply (Hw m x Hx) |].
      destruct (members g d) as [|m0 ms] eqn:Em.
      * cbn [state_ok g_state]. intros m. unfold roster_of. rewrite update_members_lookup, decide_True by done.
        apply fmap_None. apply (proj1 (members_nil g d) Em m).
      * cbn [state_ok g_state g_deadline g_window]. split; [| by eexists].
        intros m x' Hx. by apply Hr in Hx as (x & _ & ->).
    + split; [| done]. intros m. unfold roster_of. rewrite update_members_lookup, decide_True by done.
      apply fmap_None. apply (Hw m).
  - intros g' Hne. split; [cbn [groups update_members set_members]; by rewrite update_group_lookup, decide_False |].
    intros m. by rewrite update_members_lookup, decide_False.
Qed.

(** Losing members leaves what holds of each member. *)
Lemma weak_at_shrink d d' g :
  groups d' !! g = groups d !! g →
  (∀ m x, gmembers d' !! (g, m) = Some x → gmembers d !! (g, m) = Some x) →
  weak_at d g → weak_at d' g.
Proof.
  intros Hg Hm. unfold weak_at. rewrite Hg. unfold roster_of. destruct (groups d !! g) as [row|]; cbn.
  - intros Hw m x Hx. apply (Hw m x), Hm, Hx.
  - intros Hw m. destruct (gmembers d' !! (g, m)) as [x|] eqn:E; [| done]. apply Hm in E. by rewrite Hw in E.
Qed.

Lemma leave_ok now g m d : all_ok d → all_ok (leave now g m d).2.
Proof.
  intros Ha. unfold leave. destruct (gmembers d !! (g, m)) as [x|]; [| done]. cbn [snd].
  set (d1 := set_members (delete (g, m)) d).
  assert (Hw : weak_at d1 g).
  { apply (weak_at_shrink d); [done | | apply Ha]. intros m' x'. cbn [gmembers set_members d1].
    intros Hx. by apply lookup_delete_Some in Hx as [_ ?]. }
  destruct (open_rebalance_spec now g d1 Hw) as [Hok Hs]. apply (all_ok_one g d); [done | | done].
  intros g' Hne. destruct (Hs g' Hne) as [H1 H2]. split; [by rewrite H1 |]. intros m'. rewrite H2.
  cbn [gmembers set_members d1]. by rewrite lookup_delete_ne by congruence.
Qed.

Lemma reopen_all_ok now gs d :
  (∀ g, weak_at d g) → (∀ g, g ∉ gs → ok_at d g) →
  all_ok (foldl (λ d g, open_rebalance now g d) d gs).
Proof.
  revert d. induction gs as [|g gs IH]; intros d Hw Hok; cbn [foldl].
  - intros g. apply Hok. by apply not_elem_of_nil.
  - destruct (open_rebalance_spec now g d (Hw g)) as [H1 H2]. apply IH.
    + intros g'. destruct (decide (g' = g)) as [->|Hne]; [by destruct H1 |].
      destruct (H2 g' Hne) as [Hg Hm]. apply (weak_at_shrink d); [done | | apply Hw].
      intros m x. by rewrite Hm.
    + intros g' Hn. destruct (decide (g' = g)) as [->|Hne]; [done |].
      eapply ok_at_same; [by apply H2 |]. apply Hok. by apply not_elem_of_cons.
Qed.

Lemma sweep_ok now d : all_ok d → all_ok (sweep now d).2.
Proof.
  intros Ha. unfold sweep. cbv zeta. cbn [snd]. apply reopen_all_ok.
  - intros g. apply (weak_at_shrink d); [done | | apply Ha]. intros m x Hx.
    by apply map_lookup_filter_Some in Hx as [? _].
  - intros g Hn. apply (ok_at_same d); [| apply Ha]. split; [done |]. intros m.
    cbn [gmembers set_members]. apply option_eq. intros x. rewrite map_lookup_filter_Some.
    split; [by intros [? _] |]. intros Hx. split; [done |]. intros Hd. apply Hn.
    apply elem_of_remove_dups, list_elem_of_fmap. exists ((g, m), x). split; [done |].
    apply elem_of_map_to_list, map_lookup_filter_Some. done.
Qed.

Lemma heartbeat_ok now g m d : all_ok d → all_ok (touch_heartbeat now g m d).
Proof.
  intros Ha. apply (all_ok_one g d); [done | |].
  - intros g' Hne. split; [done |]. intros m'. cbn [gmembers touch_heartbeat set_members].
    by rewrite lookup_alter_ne by congruence.
  - unfold ok_at. cbn [groups touch_heartbeat set_members].
    set (beat := λ x, mk_member (m_instance x) (m_client_id x) (m_client_host x) (m_session_timeout x)
      (m_rebalance_timeout x) (m_metadata x) (m_protocols x) (m_joined x) (m_assignment x) now).
    assert (Hr : ∀ m' x', roster_of (touch_heartbeat now g m d) g m' = Some x' →
      ∃ x, roster_of d g m' = Some x ∧ (x' = x ∨ x' = beat x)).
    { intros m' x'. unfold roster_of. cbn [gmembers touch_heartbeat set_members].
      destruct (decide (m' = m)) as [->|Hne].
      - rewrite lookup_alter_eq. intros H. apply fmap_Some in H as (x & Hx & ->). exists x. by split; [| right].
      - rewrite lookup_alter_ne by congruence. intros H. exists x'. by split; [| left]. }
    assert (Hs : ∀ l, is_Some (roster_of d g l) → is_Some (roster_of (touch_heartbeat now g m d) g l)).
    { intros l. unfold roster_of. cbn [gmembers touch_heartbeat set_members].
      destruct (decide (l = m)) as [->|Hne]; [rewrite lookup_alter_eq; by rewrite fmap_is_Some |].
      by rewrite lookup_alter_ne by congruence. }
    pose proof (Ha g) as [Hw Hst]. unfold ok_at in *. destruct (groups d !! g) as [row|].
    + assert (Hset : settled row (roster_of d g) → settled row (roster_of (touch_heartbeat now g m d) g)).
      { intros [Hj (p & l & Hp & Hl & Hsl & Hps)]. split.
        - intros m' x' Hx. apply Hr in Hx as (x & Hx & [->| ->]); apply (Hj m' x Hx).
        - exists p, l. repeat (split; [by auto |]).
          intros m' x' Hx. apply Hr in Hx as (x & Hx & [->| ->]); apply (Hps m' x Hx). }
      split.
      * intros m' x' Hx. apply Hr in Hx as (x & Hx & [->| ->]); apply (Hw m' x Hx).
      * unfold state_ok in *. destruct (g_state row).
        -- intros m'. destruct (roster_of (touch_heartbeat now g m d) g m') as [x'|] eqn:Hx; [| done].
           apply Hr in Hx as (x & Hx & _). by rewrite Hst in Hx.
        -- destruct Hst as [H1 H2]. split; [| done].
           intros m' x' Hx. apply Hr in Hx as (x & Hx & [->| ->]); apply (H1 m' x Hx).
        -- destruct Hst as [H1 H2]. split; [by apply Hset |].
           intros m' x' Hx. apply Hr in Hx as (x & Hx & [->| ->]); apply (H2 m' x Hx).
        -- destruct Hst as [H1 H2]. split; [by apply Hset |].
           intros m' x' Hx. apply Hr in Hx as (x & Hx & [->| ->]); apply (H2 m' x Hx).
    + split; [| done]. intros m'. destruct (roster_of (touch_heartbeat now g m d) g m') as [x'|] eqn:Hx; [| done].
      apply Hr in Hx as (x & Hx & _). cbn in Hw. by rewrite Hw in Hx.
Qed.

Lemma delete_group_ok g d : all_ok d → all_ok (delete_group g d).2.
Proof.
  intros Ha. unfold delete_group. destruct (negb _); [done |].
  destruct (members g d) as [|? ?] eqn:Em; [| done]. cbn [snd]. apply (all_ok_one g d); [done | |].
  - intros g' Hne. split; [| done]. cbn [groups]. by rewrite lookup_delete_ne.
  - unfold ok_at. cbn [groups]. rewrite lookup_delete_eq. split; [| done].
    intros m. apply (proj1 (members_nil g d) Em m).
Qed.

Lemma step_ok d d' : step d d' → all_ok d → all_ok d'.
Proof.
  intros [| | | | | | |] Ha.
  - by apply join_group_ok.
  - by apply parked_join_ok.
  - by apply sync_group_ok.
  - by apply heartbeat_ok.
  - by apply leave_ok.
  - by apply sweep_ok.
  - by apply delete_group_ok.
  - intros g'. eapply ok_at_same; [| apply Ha]. by split.
Qed.

Definition no_groups : Groups := mk_groups ∅ ∅ ∅.

Lemma reachable_ok d : rtc step no_groups d → all_ok d.
Proof.
  assert (H0 : all_ok no_groups).
  { intros g. unfold ok_at. cbn. rewrite lookup_empty. split; [| done]. intros m. apply lookup_empty. }
  intros Hr. induction Hr as [|? ? ? Hst _ IH]; [done |]. apply IH. by eapply step_ok.
Qed.

(** C28. Whatever order joins, syncs, heartbeats, leaves, timeouts and deletions
    come in, every group is consistent: a group without members is [Empty];
    while it rebalances no member holds an assignment, and a deadline is set
    that the join window does not outlive; once the join completes every
    member is in the current generation, under a protocol all of them support
    and a leader that is one of them; and when it is [Stable] every member
    has an assignment. *)
Theorem group_invariant d : rtc step no_groups d → all_ok d.
Proof. apply reachable_ok. Qed.

(** No rebalance waits for ever: a group that is rebalancing has a deadline
    after which its join window is closed and the worker wakes its parked
    members, whoever is missing. *)
Theorem rebalance_ends d g row :
  rtc step no_groups d → groups d !! g = Some row → g_state row = PreparingRebalance →
  ∃ dl, ∀ now, dl < now →
    join_window_closed now g d = true ∧ g ∈ groups_past_deadline now d.
Proof.
  intros Hr Hg Hst. destruct (reachable_ok d Hr g) as [_ Hs]. unfold ok_at in Hs. rewrite Hg in Hs.
  unfold state_ok in Hs. rewrite Hst in Hs. destruct Hs as [_ (dl & Hdl & _)]. exists dl. intros now Hnow.
  split.
  - unfold join_window_closed. rewrite Hg, Hdl, (proj2 (Z.ltb_lt _ _) Hnow). apply orb_true_r.
  - unfold groups_past_deadline. apply list_elem_of_omap. exists (g, row).
    split; [by apply elem_of_map_to_list |]. cbn [fst snd].
    by rewrite decide_True, Hdl, (proj2 (Z.ltb_lt _ _) Hnow).
Qed.

End Collation.

(** ** Concrete groups *)

Definition str_le (a b : string) : Prop := String.leb a b = true.
#[export] Instance str_le_dec a b : Decision (str_le a b).
Proof. unfold str_le. apply _. Defined.

Definition no_acls : AclCache := mk_cache [] None false [].
Definition anybody : Principal := anonymous "h".
Definition join_request (m : string) (protocols : list (string * bytes)) : JoinGroupRequest :=
  mk_join_request "g" m None 45000 60000 "consumer" protocols.
Definition joined (m : string) (protocols : list (string * bytes)) (d : Groups) : Groups :=
  (join_group no_acls anybody "" 1000 0 5 (join_request m protocols) "" "h" d).2.

Definition one_member : Groups := joined "a" [("range", [x01]); ("coop", [x02])]%string no_groups.

Lemma one_member_reachable : rtc (step str_le) no_groups one_member.
Proof. apply rtc_once. apply step_join. Qed.

Lemma group_invariant_witness : all_ok one_member.
Proof. apply (group_invariant str_le). apply one_member_reachable. Defined.

Lemma rebalance_ends_witness :
  ∃ dl, ∀ now, dl < now →
    join_window_closed str_le now "g" one_member = true ∧ "g"%string ∈ groups_past_deadline now one_member.
Proof.
  apply (rebalance_ends str_le one_member "g"
    (mk_group 0 PreparingRebalance (Some "consumer"%string) None None (Some 61000) None)).
  - apply one_member_reachable.
  - reflexivity.
  - reflexivity.
Defined.

(** Two members, of which the first prefers a protocol the second lacks. *)
Definition two_members : Groups := joined "b" [("coop", [x03])]%string one_member.

(** The leader is sent each member's metadata for the protocol the member
    listed first, not for the protocol the group settled on: here the group
    settles on [coop], for which member [a] offered [02], and the leader
    receives its [01], which belongs to [range]. *)
Theorem join_response_first_metadata :
  ∃ r, (parked_join str_le 2000 false "g" "a" two_members).1 = Some r ∧
    jr_error r = ErrorCode.NoError ∧ jr_leader r = "a"%string ∧
    jr_protocol_name r = Some "coop"%string ∧
    jr_members r = [("a"%string, None, [x01]); ("b"%string, None, [x03])].
Proof. eexists. split; [vm_compute; reflexivity | done]. Qed.
