(* ===== verification/Pmeta.v ===== *)
(** * extension/src/storage/pmeta.rs: partition metadata

    The tables both engines share: the partition rows, the history of leader
    epochs, the commit markers of transactional produces, and the index of
    aborted transactions.  The history of a partition is a map from epoch to
    start offset, its abort index a map from first offset to producer and last
    offset, its markers a set of base offsets. *)

From stdpp Require Import gmap sorting.
From S2P Require Import Prelude Errors Cleaner.

Record PartitionRow : Type := mk_partition {
  pt_log_start : Z;
  pt_leader_epoch : Z;
  pt_epoch_start : Z }.

(** [txn_parts] is [kafgres_txn_partitions]: the first offset of each producer
    in the transaction, by partition. *)
Record Meta : Type := mk_meta {
  partitions : gmap (Z * Z) PartitionRow;
  epochs : gmap (Z * Z) (gmap Z Z);
  markers : gmap (Z * Z) (gset Z);
  aborted : gmap (Z * Z) (gmap Z (Z * Z));
  txn_parts : gmap (Z * Z) (gmap Z Z) }.

Definition history (p : Z * Z) (d : Meta) : gmap Z Z := default ∅ (epochs d !! p).
Definition abort_index (p : Z * Z) (d : Meta) : gmap Z (Z * Z) := default ∅ (aborted d !! p).
Definition marker_set (p : Z * Z) (d : Meta) : gset Z := default ∅ (markers d !! p).
Definition open_txns (p : Z * Z) (d : Meta) : gmap Z Z := default ∅ (txn_parts d !! p).

Definition set_epochs (p : Z * Z) (h : gmap Z Z) (d : Meta) : Meta :=
  mk_meta (partitions d) (<[p := h]> (epochs d)) (markers d) (aborted d) (txn_parts d).
Definition set_aborted (p : Z * Z) (a : gmap Z (Z * Z)) (d : Meta) : Meta :=
  mk_meta (partitions d) (epochs d) (markers d) (<[p := a]> (aborted d)) (txn_parts d).
Definition set_partition (p : Z * Z) (r : PartitionRow) (d : Meta) : Meta :=
  mk_meta (<[p := r]> (partitions d)) (epochs d) (markers d) (aborted d) (txn_parts d).
Definition set_txn_parts (p : Z * Z) (t : gmap Z Z) (d : Meta) : Meta :=
  mk_meta (partitions d) (epochs d) (markers d) (aborted d) (<[p := t]> (txn_parts d)).

Definition log_start_offset (p : Z * Z) (d : Meta) : result StoreError Z :=
  match partitions d !! p with Some r => Ok (pt_log_start r) | None => Err UnknownTopicOrPartition end.
Definition leader_epoch (p : Z * Z) (d : Meta) : result StoreError Z :=
  match partitions d !! p with Some r => Ok (pt_leader_epoch r) | None => Err UnknownTopicOrPartition end.

(** Both inserts do nothing where a row is there. *)
Definition create_partition (p : Z * Z) (epoch : Z) (d : Meta) : Meta :=
  let d := match partitions d !! p with
           | Some _ => d
           | None => set_partition p (mk_partition 0 epoch 0) d
           end in
  match history p d !! epoch with
  | Some _ => d
  | None => set_epochs p (<[epoch := 0]> (history p d)) d
  end.

Definition drop_partition (p : Z * Z) (d : Meta) : Meta :=
  mk_meta (delete p (partitions d)) (delete p (epochs d)) (delete p (markers d))
    (delete p (aborted d)) (delete p (txn_parts d)).

(** A promotion: the row, and the history without the earlier epochs that
    start at or past the new one. *)
Definition record_epoch (p : Z * Z) (epoch start : Z) (d : Meta) : Meta :=
  let d := match partitions d !! p with
           | Some r => set_partition p (mk_partition (pt_log_start r) epoch start) d
           | None => d
           end in
  let collapsed := filter (λ e, ¬ (start ≤ e.2 ∧ e.1 < epoch)) (history p d) in
  set_epochs p (<[epoch := start]> collapsed) d.

Definition epoch_start_offset (p : Z * Z) (epoch : Z) (d : Meta) : option Z := history p d !! epoch.

Record EpochEnd : Type := mk_epoch_end { ee_leader_epoch : Z; ee_end_offset : Z }.

(** [max(leader_epoch) .. WHERE leader_epoch <= epoch], as an optional
    largest element; [min(start_offset) .. WHERE leader_epoch > matched]. *)
Definition opt_max (a : Z) (o : option Z) : option Z :=
  Some (match o with Some b => Z.max a b | None => a end).
Definition opt_min (a : Z) (o : option Z) : option Z :=
  Some (match o with Some b => Z.min a b | None => a end).
Definition max_epoch_at_most (epoch : Z) (h : gmap Z Z) : option Z :=
  foldr (λ e acc, if e.1 <=? epoch then opt_max e.1 acc else acc) None (map_to_list h).
Definition min_start_above (epoch : Z) (h : gmap Z Z) : option Z :=
  foldr (λ e acc, if epoch <? e.1 then opt_min e.2 acc else acc) None (map_to_list h).

Definition epoch_end_offset (p : Z * Z) (epoch : Z) (log_end : result StoreError Z) (d : Meta)
    : result StoreError EpochEnd :=
  let? current := leader_epoch p d in
  if epoch =? current then let? e := log_end in Ok (mk_epoch_end current e)
  else if current <? epoch then Ok (mk_epoch_end (-1) (-1))
  else
    match max_epoch_at_most epoch (history p d) with
    | None => let? s := log_start_offset p d in Ok (mk_epoch_end (-1) s)
    | Some matched =>
        match min_start_above matched (history p d) with
        | Some e => Ok (mk_epoch_end matched e)
        | None => let? e := log_end in Ok (mk_epoch_end matched e)
        end
    end.

(** ** The abort index and the markers *)

Definition forget_aborted_below (p : Z * Z) (offset : Z) (d : Meta) : Meta :=
  set_aborted p (filter (λ e, offset ≤ e.2.2) (abort_index p d)) d.

Definition advance_log_start (p : Z * Z) (offset : Z) (d : Meta) : Meta :=
  let d := match partitions d !! p with
           | Some r => set_partition p (mk_partition (Z.max (pt_log_start r) offset)
                         (pt_leader_epoch r) (pt_epoch_start r)) d
           | None => d
           end in
  forget_aborted_below p offset d.

Definition MARKERS_PER_FETCH : nat := Z.to_nat 65536.

(** The markers in [[from, to)] in order, at most [MARKERS_PER_FETCH], and the
    offset up to which they are all there are. *)
Definition committed_markers (p : Z * Z) (from to : Z) (d : Meta) : list Z * Z :=
  let all := merge_sort Z.le (filter (λ b, from ≤ b ∧ b < to) (elements (marker_set p d))) in
  let out := take MARKERS_PER_FETCH all in
  let highest := foldl Z.max from out in
  (out, if (length out <? MARKERS_PER_FETCH)%nat then to else Z.min (highest + 1) to).

Definition aborted_at (p : Z * Z) (producer_id offset : Z) (d : Meta) : bool :=
  existsb (λ e, (e.2.1 =? producer_id) && (e.1 <=? offset) && (offset <=? e.2.2))
    (map_to_list (abort_index p d)).

Definition record_aborted_txn (p : Z * Z) (producer_id first_offset last_offset : Z) (d : Meta) : Meta :=
  set_aborted p (<[first_offset := (producer_id, last_offset)]> (abort_index p d)) d.

Definition MAX_ABORTED_PER_FETCH : nat := 1000.

Definition by_first (a b : Z * (Z * Z)) : Prop := a.1 ≤ b.1.
#[export] Instance by_first_dec a b : Decision (by_first a b).
Proof. unfold by_first. apply _. Defined.

(** Pairs of producer id and first offset. *)
Definition aborted_txns (p : Z * Z) (from to : Z) (d : Meta) : list (Z * Z) :=
  let rows := filter (λ e, from ≤ e.2.2 ∧ e.1 < to) (map_to_list (abort_index p d)) in
  (λ e, (e.2.1, e.1)) <$> take MAX_ABORTED_PER_FETCH (merge_sort by_first rows).

(** ** The stable offset of open transactions *)

(** [MIN(first_offset)] over the partitions of open transactions that have
    written there; [ongoing] is the join with [kafgres_txns]. *)
Definition kafka_txn_lso (ongoing : Z → bool) (p : Z * Z) (d : Meta) : option Z :=
  foldr (λ e acc, if (0 <=? e.2) && ongoing e.1 then opt_min e.2 acc else acc)
    None (map_to_list (open_txns p d)).

(** Inserting keeps a first offset that is already set. *)
Definition register_txn_partition (producer_id : Z) (p : Z * Z) (base_offset : Z) (d : Meta) : Meta :=
  let t := open_txns p d in
  match t !! producer_id with
  | Some r =>
      if r <? 0
      then set_txn_parts p (<[producer_id := base_offset]> t) d
      else d
  | None => set_txn_parts p (<[producer_id := base_offset]> t) d
  end.

Definition stamp_txn_partition (producer_id : Z) (p : Z * Z) (base_offset : Z) (d : Meta) : Meta :=
  let t := open_txns p d in
  match t !! producer_id with
  | Some r =>
      if r <? 0
      then set_txn_parts p (<[producer_id := base_offset]> t) d
      else d
  | None => d
  end.

(** ** Epoch history *)

(** Later epochs start later. *)
Definition increasing (h : gmap Z Z) : Prop :=
  ∀ e1 s1 e2 s2, h !! e1 = Some s1 → h !! e2 = Some s2 → e1 < e2 → s1 < s2.

(** The largest element that satisfies the test, over a list. *)
Lemma fold_max_spec (P : Z * Z → bool) l :
  match foldr (λ e acc, if P e then opt_max e.1 acc else acc) None l with
  | Some m => (∃ s, (m, s) ∈ l ∧ P (m, s) = true) ∧ ∀ e, e ∈ l → P e = true → e.1 ≤ m
  | None => ∀ e, e ∈ l → P e = false
  end.
Proof.
  induction l as [|[e s] l IH]; cbn [foldr]; [intros e He; by apply elem_of_nil in He |].
  destruct (P (e, s)) eqn:Ep; destruct (foldr _ None l) as [m|]; cbn [opt_max fst].
  - destruct IH as [(s' & Hin & Hp) Hmax]. split.
    + destruct (Z.max_spec e m) as [[_ ->]|[_ ->]]; [exists s'; split; [by right | done] | exists s; split; [by left | done]].
    + intros e' He Hp'. apply elem_of_cons in He as [->|He]; [cbn; lia | specialize (Hmax e' He Hp'); lia].
  - split; [exists s; split; [by left | done] |].
    intros e' He Hp'. apply elem_of_cons in He as [->|He]; [cbn; lia | by rewrite (IH e' He) in Hp'].
  - destruct IH as [(s' & Hin & Hp) Hmax]. split; [exists s'; split; [by right | done] |].
    intros e' He Hp'. apply elem_of_cons in He as [->|He]; [by rewrite Ep in Hp' | by apply Hmax].
  - intros e' He. apply elem_of_cons in He as [->|He]; [done | by apply IH].
Qed.

Lemma fold_min_spec {A} (P : A → bool) (f : A → Z) l :
  match foldr (λ e acc, if P e then opt_min (f e) acc else acc) None l with
  | Some m => (∃ e, e ∈ l ∧ P e = true ∧ f e = m) ∧ ∀ e, e ∈ l → P e = true → m ≤ f e
  | None => ∀ e, e ∈ l → P e = false
  end.
Proof.
  induction l as [|e l IH]; cbn [foldr]; [intros e He; by apply elem_of_nil in He |].
  destruct (P e) eqn:Ep; destruct (foldr _ None l) as [m|]; cbn [opt_min].
  - destruct IH as [(e' & Hin & Hp & Hf) Hmin]. split.
    + destruct (Z.min_spec (f e) m) as [[_ ->]|[_ ->]]; [exists e; split; [by left | done] | exists e'; split; [by right | done]].
    + intros x He Hp'. apply elem_of_cons in He as [->|He]; [lia | specialize (Hmin x He Hp'); lia].
  - split; [exists e; split; [by left | done] |].
    intros x He Hp'. apply elem_of_cons in He as [->|He]; [lia | by rewrite (IH x He) in Hp'].
  - destruct IH as [(e' & Hin & Hp & Hf) Hmin]. split; [exists e'; split; [by right | done] |].
    intros x He Hp'. apply elem_of_cons in He as [->|He]; [by rewrite Ep in Hp' | by apply Hmin].
  - intros x He. apply elem_of_cons in He as [->|He]; [done | by apply IH].
Qed.

Lemma max_epoch_at_most_spec epoch h :
  match max_epoch_at_most epoch h with
  | Some m => is_Some (h !! m) ∧ m ≤ epoch ∧ ∀ e s, h !! e = Some s → e ≤ epoch → e ≤ m
  | None => ∀ e s, h !! e = Some s → epoch < e
  end.
Proof.
  pose proof (fold_max_spec (λ e, e.1 <=? epoch) (map_to_list h)) as H. unfold max_epoch_at_most.
  destruct (foldr _ None (map_to_list h)) as [m|].
  - destruct H as [(s & Hin & Hp) Hmax]. apply elem_of_map_to_list in Hin. split; [by exists s |].
    split; [by apply Z.leb_le in Hp |]. intros e s' He Hle.
    apply (Hmax (e, s')); [by apply elem_of_map_to_list | by apply Z.leb_le].
  - intros e s He. specialize (H (e, s) (proj2 (elem_of_map_to_list _ _ _) He)). by apply Z.leb_gt in H.
Qed.

Lemma min_start_above_spec epoch h :
  match min_start_above epoch h with
  | Some s => (∃ e, h !! e = Some s ∧ epoch < e) ∧ ∀ e s', h !! e = Some s' → epoch < e → s ≤ s'
  | None => ∀ e s, h !! e = Some s → e ≤ epoch
  end.
Proof.
  pose proof (fold_min_spec (λ e, epoch <? e.1) (λ e : Z * Z, e.2) (map_to_list h)) as H. unfold min_start_above.
  destruct (foldr _ None (map_to_list h)) as [m|].
  - destruct H as [([e s] & Hin & Hp & <-) Hmin]. apply elem_of_map_to_list in Hin. split.
    + exists e. split; [done | by apply Z.ltb_lt in Hp].
    + intros e' s' He Hlt. apply (Hmin (e', s')); [by apply elem_of_map_to_list | by apply Z.ltb_lt].
  - intros e s He. specialize (H (e, s) (proj2 (elem_of_map_to_list _ _ _) He)). by apply Z.ltb_ge in H.
Qed.

(** ** Promotions *)

(** How the history of a partition comes about: it is created where it is not,
    raised to a later epoch at the end its log has then, and dropped; the
    other statements do not touch it. *)
Inductive step : Meta → Meta → Prop :=
| step_create p epoch d : partitions d !! p = None → step d (create_partition p epoch d)
| step_promote p epoch start d row :
    partitions d !! p = Some row → pt_leader_epoch row < epoch → 0 ≤ start →
    step d (record_epoch p epoch start d)
| step_drop p d : step d (drop_partition p d)
| step_log_start p offset d : step d (advance_log_start p offset d)
| step_abort p producer first last d : step d (record_aborted_txn p producer first last d)
| step_register producer p base d : step d (register_txn_partition producer p base d)
| step_stamp producer p base d : step d (stamp_txn_partition producer p base d).

Definition no_partitions : Meta := mk_meta ∅ ∅ ∅ ∅ ∅.

(** A partition that is there has its leader epoch as the last of an
    increasing history; one that is not has none. *)
Definition history_ok (d : Meta) (p : Z * Z) : Prop :=
  match partitions d !! p with
  | Some row =>
      increasing (history p d) ∧ is_Some (history p d !! pt_leader_epoch row) ∧
      ∀ e s, history p d !! e = Some s → e ≤ pt_leader_epoch row
  | None => history p d = ∅
  end.

Lemma history_ok_same d d' p :
  pt_leader_epoch <$> partitions d' !! p = pt_leader_epoch <$> partitions d !! p →
  history p d' = history p d → history_ok d p → history_ok d' p.
Proof.
  unfold history_ok. intros Hp Hh. rewrite Hh.
  destruct (partitions d !! p) as [r|], (partitions d' !! p) as [r'|]; cbn in Hp; simplify_eq; [| done].
  by rewrite Hp.
Qed.

Lemma set_partition_lookup p r d p' :
  partitions (set_partition p r d) !! p' = if decide (p' = p) then Some r else partitions d !! p'.
Proof.
  unfold set_partition. cbn [partitions]. case_decide; [subst; by rewrite lookup_insert_eq |].
  by rewrite lookup_insert_ne.
Qed.

Lemma set_epochs_history p h d p' :
  history p' (set_epochs p h d) = if decide (p' = p) then h else history p' d.
Proof.
  unfold history, set_epochs. cbn [epochs]. case_decide; [subst; by rewrite lookup_insert_eq |].
  by rewrite lookup_insert_ne.
Qed.

Lemma history_set_partition p r d p' : history p' (set_partition p r d) = history p' d.
Proof. done. Qed.

Lemma create_ok p epoch d p' : partitions d !! p = None → history_ok d p → history_ok d p' →
  history_ok (create_partition p epoch d) p'.
Proof.
  intros Hn Hok Hok'. unfold create_partition. rewrite Hn. rewrite history_set_partition.
  assert (Hh : history p d = ∅) by (unfold history_ok in Hok; by rewrite Hn in Hok).
  rewrite Hh, lookup_empty. unfold history_ok. rewrite set_epochs_history. cbn [partitions set_epochs].
  rewrite set_partition_lookup, history_set_partition. case_decide; [| done].
  cbn [pt_leader_epoch]. rewrite insert_empty. split; [| split].
  - intros e1 s1 e2 s2 H1 H2 Hlt. apply lookup_singleton_Some in H1 as [<- <-], H2 as [<- <-]. lia.
  - rewrite lookup_singleton_eq. by eexists.
  - intros e s He. by apply lookup_singleton_Some in He as [<- _].
Qed.

(** A promotion keeps the history increasing. *)
Lemma promote_ok p epoch start d row p' :
  partitions d !! p = Some row → pt_leader_epoch row < epoch → history_ok d p → history_ok d p' →
  history_ok (record_epoch p epoch start d) p'.
Proof.
  intros Hp Hlt Hok Hok'. unfold record_epoch. rewrite Hp. unfold history_ok.
  rewrite set_epochs_history. cbn [partitions set_epochs]. rewrite set_partition_lookup, !history_set_partition.
  case_decide; [| done]. subst p'. unfold history_ok in Hok. rewrite Hp in Hok.
  destruct Hok as (Hinc & _ & Hmax). cbn [pt_leader_epoch]. split; [| split].
  - intros e1 s1 e2 s2 H1 H2 Hlt'. apply lookup_insert_Some in H1, H2.
    destruct H1 as [[<- <-]|[Hne1 H1]], H2 as [[<- <-]|[Hne2 H2]]; [lia | ..].
    + apply map_lookup_filter_Some in H2 as [H2 _]. specialize (Hmax e2 s2 H2). lia.
    + apply map_lookup_filter_Some in H1 as [_ H1]. cbn in H1. lia.
    + apply map_lookup_filter_Some in H1 as [H1 _]. apply map_lookup_filter_Some in H2 as [H2 _].
      by apply (Hinc e1 s1 e2 s2).
  - rewrite lookup_insert_eq. by eexists.
  - intros e s He. apply lookup_insert_Some in He as [[<- _]|[_ He]]; [lia |].
    apply map_lookup_filter_Some in He as [He _]. specialize (Hmax e s He). lia.
Qed.

Lemma drop_ok p d p' : history_ok d p' → history_ok (drop_partition p d) p'.
Proof.
  intros Hok. unfold history_ok, history, drop_partition in *. cbn [partitions epochs].
  destruct (decide (p' = p)) as [->|Hne]; [by rewrite !lookup_delete_eq |].
  by rewrite !lookup_delete_ne.
Qed.

Lemma step_history d d' : step d d' → (∀ p, history_ok d p) → ∀ p, history_ok d' p.
Proof.
  intros Hst Ha p'. destruct Hst.
  - by apply create_ok.
  - by eapply promote_ok.
  - by apply drop_ok.
  - eapply history_ok_same; [| | apply Ha].
    + unfold advance_log_start, forget_aborted_below. cbn [partitions set_aborted].
      destruct (partitions d !! p) as [r|] eqn:Ep; [| done]. rewrite set_partition_lookup.
      case_decide; [subst; by rewrite Ep | done].
    + unfold advance_log_start. by destruct (partitions d !! p).
  - by apply (history_ok_same d).
  - eapply history_ok_same; [| | apply Ha]; unfold register_txn_partition; by repeat case_match.
  - eapply history_ok_same; [| | apply Ha]; unfold stamp_txn_partition; by repeat case_match.
Qed.

Lemma reachable_history d p : rtc step no_partitions d → history_ok d p.
Proof.
  intros Hr. assert (H0 : ∀ p, history_ok no_partitions p).
  { intros q. unfold history_ok, history. cbn. by rewrite !lookup_empty. }
  revert p. induction Hr as [|? ? ? Hst _ IH]; [done |]. apply IH. by eapply step_history.
Qed.

(** [off] was written under [e]: the last epoch that starts at or below it. *)
Definition written_under (h : gmap Z Z) (off e : Z) : Prop :=
  ∃ s, h !! e = Some s ∧ s ≤ off ∧ ∀ e' s', h !! e' = Some s' → s' ≤ off → e' ≤ e.

(** Where an epoch ended is where divergence starts: for an epoch the
    partition has had or could have had, the answer names the latest epoch in
    its history that is not later, and of the offsets in the log those below
    the answered one are exactly those written under epochs up to the one
    asked about; a client that truncates there keeps all that is common and
    nothing else.  An epoch from the future is answered as unknown. *)
Theorem epoch_end_offset_splits d p row epoch log_end :
  rtc step no_partitions d → partitions d !! p = Some row →
  ∃ a, epoch_end_offset p epoch (Ok log_end) d = Ok a ∧
    (pt_leader_epoch row < epoch → a = mk_epoch_end (-1) (-1)) ∧
    (epoch ≤ pt_leader_epoch row →
       ee_leader_epoch a = -1 ∧ (∀ e s, history p d !! e = Some s → epoch < e) ∨
       is_Some (history p d !! ee_leader_epoch a) ∧ ee_leader_epoch a ≤ epoch ∧
       (∀ e s, history p d !! e = Some s → e ≤ epoch → e ≤ ee_leader_epoch a) ∧
       ∀ off e, off < log_end → written_under (history p d) off e →
         (off < ee_end_offset a ↔ e ≤ epoch)).
Proof.
  intros Hr Hp. pose proof (reachable_history d p Hr) as Hok. unfold history_ok in Hok. rewrite Hp in Hok.
  destruct Hok as (_ & Hcur & Hmax). unfold epoch_end_offset, leader_epoch, log_start_offset. rewrite Hp.
  cbn [rbind]. set (h := history p d) in *.
  destruct (Z.eqb_spec epoch (pt_leader_epoch row)) as [->|Hne].
  { eexists. split; [done |]. split; [lia |]. intros _. right. cbn [ee_leader_epoch ee_end_offset].
    split; [done |]. split; [done |]. split; [done |]. intros off e Hlt (s & He & _).
    split; [intros _; by apply (Hmax e s) | done]. }
  destruct (Z.ltb_spec (pt_leader_epoch row) epoch) as [Hf|Hf].
  { eexists. split; [done |]. split; [done | lia]. }
  pose proof (max_epoch_at_most_spec epoch h) as Hm.
  destruct (max_epoch_at_most epoch h) as [matched|].
  2:{ eexists. split; [done |]. split; [lia |]. intros _. by left. }
  destruct Hm as (Hms & Hle & Hml). pose proof (min_start_above_spec matched h) as Hmin.
  destruct Hcur as [sc Hsc].
  destruct (min_start_above matched h) as [end_|]; [| specialize (Hmin _ _ Hsc); lia].
  eexists. split; [done |]. split; [lia |]. intros _. right. cbn [ee_leader_epoch ee_end_offset].
  repeat (split; [done |]). intros off e _ (s & He & Hs & Hlast).
  destruct Hmin as [(e2 & He2 & Hgt) Hmin]. split.
  - intros Hoff. apply Z.nlt_ge. intros Hlt. specialize (Hmin e s He ltac:(lia)). lia.
  - intros Hle'. apply Z.nle_gt. intros Hge. specialize (Hlast e2 end_ He2 Hge).
    specialize (Hml e s He Hle'). lia.
Qed.

(** Epochs start in order: in every reachable state the history of a
    partition is strictly increasing and ends with its leader epoch, so an
    offset belongs to one epoch; a promotion at an offset already claimed by
    earlier epochs takes it over from them. *)
Theorem epoch_history_increasing d p row :
  rtc step no_partitions d → partitions d !! p = Some row →
  increasing (history p d) ∧ is_Some (history p d !! pt_leader_epoch row) ∧
  (∀ e s, history p d !! e = Some s → e ≤ pt_leader_epoch row) ∧
  ∀ off e1 e2, written_under (history p d) off e1 → written_under (history p d) off e2 → e1 = e2.
Proof.
  intros Hr Hp. pose proof (reachable_history d p Hr) as Hok. unfold history_ok in Hok. rewrite Hp in Hok.
  destruct Hok as (H1 & H2 & H3). repeat (split; [done |]).
  intros off e1 e2 (s1 & He1 & Hs1 & Hl1) (s2 & He2 & Hs2 & Hl2).
  specialize (Hl1 _ _ He2 Hs2). specialize (Hl2 _ _ He1 Hs1). lia.
Qed.

(** ** Markers *)

Lemma foldl_max_spec l acc : acc ≤ foldl Z.max acc l ∧ (∀ x, x ∈ l → x ≤ foldl Z.max acc l) ∧
  (foldl Z.max acc l = acc ∨ foldl Z.max acc l ∈ l).
Proof.
  revert acc. induction l as [|y l IH]; intros acc; cbn [foldl].
  - split; [lia |]. split; [intros x Hx; by apply elem_of_nil in Hx | by left].
  - destruct (IH (Z.max acc y)) as (H1 & H2 & H3). split; [lia |]. split.
    + intros x Hx. apply elem_of_cons in Hx as [->|Hx]; [lia | by apply H2].
    + destruct H3 as [->|H3]; [| right; by right].
      destruct (Z.max_spec acc y) as [[_ ->]|[_ ->]]; [right; by left | by left].
Qed.

(** Below the largest of the first [n], a sorted list without repetition holds
    no element past the first [n]. *)
Lemma sorted_take_complete (l : list Z) n x y :
  Sorted Z.le l → NoDup l → x ∈ l → y ∈ take n l → x ≤ y → x ∈ take n l.
Proof.
  intros Hs Hn Hx Hy Hle. apply Sorted_StronglySorted in Hs; [| intros a b c; lia].
  rewrite <- (take_drop n l) in Hs, Hn, Hx. apply elem_of_app in Hx as [Hx|Hx]; [done |].
  exfalso. apply NoDup_app in Hn as (_ & Hd & _).
  assert (Hyx : y ≤ x) by (by eapply StronglySorted_app_1_elem_of in Hs).
  assert (x = y) as -> by lia. by apply (Hd y).
Qed.

(** The markers a read is given are complete up to the ceiling it is given:
    below it an offset has a committed marker exactly when it is in the list,
    also when there are more markers than the cap; and the ceiling never
    exceeds the range asked for. *)
Theorem committed_markers_complete p from to d :
  from ≤ to →
  let '(out, ceiling) := committed_markers p from to d in
  ceiling ≤ to ∧ (length out ≤ MARKERS_PER_FETCH)%nat ∧
  ∀ b, from ≤ b < ceiling → b ∈ out ↔ b ∈ marker_set p d.
Proof.
  intros Hft. unfold committed_markers. cbv zeta.
  set (all := merge_sort Z.le _). set (out := take MARKERS_PER_FETCH all).
  assert (Hall : ∀ b, b ∈ all ↔ b ∈ marker_set p d ∧ from ≤ b < to).
  { intros b. unfold all. rewrite merge_sort_Permutation, list_elem_of_filter, elem_of_elements. lia || tauto. }
  assert (Hnd : NoDup all).
  { unfold all. rewrite merge_sort_Permutation. apply NoDup_filter, NoDup_elements. }
  assert (Hsort : Sorted Z.le all) by (apply Sorted_merge_sort; intros a b; lia).
  split; [case_match; lia |]. split; [unfold out; rewrite length_take; lia |].
  intros b Hb. destruct (Nat.ltb_spec (length out) MARKERS_PER_FETCH) as [Hlt|Hge].
  - assert (out = all) as ->.
    { unfold out in *. apply take_ge. rewrite length_take in Hlt. lia. }
    rewrite Hall. lia || (split; [tauto | intros; split; [done | lia]]).
  - destruct (foldl_max_spec out from) as (H1 & H2 & H3). set (hi := foldl Z.max from out) in *.
    split.
    + intros Hin. apply Hall. unfold out in Hin. by eapply elem_of_subseteq in Hin; [| apply subseteq_take].
    + intros Hm. assert (Hba : b ∈ all) by (apply Hall; split; [done | lia]).
      assert (Hhi : hi ∈ out).
      { destruct H3 as [E|]; [| done]. destruct out as [|x out'] eqn:Eo; [cbn in Hge; unfold MARKERS_PER_FETCH in Hge; lia |].
        assert (Hx : x ∈ all) by (eapply (elem_of_subseteq (take MARKERS_PER_FETCH all)); [apply subseteq_take | fold out; rewrite Eo; constructor]).
        apply Hall in Hx as [_ Hx]. specialize (H2 x ltac:(constructor)). assert (x = hi) as <- by lia. constructor. }
      eapply sorted_take_complete; [done | done | done | exact Hhi | lia].
Qed.

(** ** The abort index *)

Lemma aborted_at_iff p producer off d :
  aborted_at p producer off d = true ↔
    ∃ first last, abort_index p d !! first = Some (producer, last) ∧ first ≤ off ≤ last.
Proof.
  unfold aborted_at. rewrite existsb_exists. setoid_rewrite <- list_elem_of_In. split.
  - intros ([f [pr l]] & Hin & H). apply elem_of_map_to_list in Hin. cbn [fst snd] in H.
    rewrite !andb_true_iff, Z.eqb_eq, !Z.leb_le in H. destruct H as [[-> ?] ?]. eauto.
  - intros (f & l & Hl & ?). exists (f, (producer, l)). split; [by apply elem_of_map_to_list |].
    cbn [fst snd]. rewrite !andb_true_iff, Z.eqb_eq, !Z.leb_le. lia.
Qed.

(** Moving the log start forward never moves it back and forgets only
    aborted transactions that end below it: whether an offset still in the
    log was aborted is answered as before, and no dead entry is left. *)
Theorem advance_log_start_forgets_dead p offset d row :
  partitions d !! p = Some row →
  let d' := advance_log_start p offset d in
  log_start_offset p d' = Ok (Z.max (pt_log_start row) offset) ∧
  (∀ producer off, offset ≤ off → aborted_at p producer off d' = aborted_at p producer off d) ∧
  (∀ first producer last, abort_index p d' !! first = Some (producer, last) → offset ≤ last) ∧
  ∀ p', p' ≠ p → abort_index p' d' = abort_index p' d.
Proof.
  intros Hp d'. unfold d', advance_log_start. rewrite Hp. unfold forget_aborted_below.
  assert (Hi : abort_index p (set_aborted p (filter (λ e, offset ≤ e.2.2)
      (abort_index p (set_partition p (mk_partition (Z.max (pt_log_start row) offset)
        (pt_leader_epoch row) (pt_epoch_start row)) d)))
      (set_partition p (mk_partition (Z.max (pt_log_start row) offset) (pt_leader_epoch row) (pt_epoch_start row)) d)) =
    filter (λ e, offset ≤ e.2.2) (abort_index p d)).
  { unfold abort_index at 1, set_aborted. cbn [aborted]. by rewrite lookup_insert_eq. }
  split; [| split; [| split]].
  - unfold log_start_offset. cbn [partitions set_aborted]. by rewrite set_partition_lookup, decide_True.
  - intros producer off Hoff. apply eq_iff_eq_true. rewrite !aborted_at_iff, Hi.
    split; intros (f & l & Hl & ?); exists f, l; (split; [| done]).
    + by apply map_lookup_filter_Some in Hl as [? _].
    + apply map_lookup_filter_Some. split; [done | cbn; lia].
  - intros f producer l. rewrite Hi. intros Hl. by apply map_lookup_filter_Some in Hl as [_ ?].
  - intros p' Hne. unfold abort_index, set_aborted. cbn [aborted set_partition]. by rewrite lookup_insert_ne.
Qed.

(** ** A partition promoted twice *)

Definition promoted : Meta :=
  record_epoch (7, 0) 3 40 (record_epoch (7, 0) 2 40 (create_partition (7, 0) 0 no_partitions)).

Lemma promoted_reachable : rtc step no_partitions promoted.
Proof.
  unfold promoted. eapply rtc_l; [apply (step_create (7, 0) 0); reflexivity |].
  eapply rtc_l; [eapply (step_promote (7, 0) 2 40); [reflexivity | cbn; lia | lia] |].
  apply rtc_once. eapply (step_promote (7, 0) 3 40); [reflexivity | cbn; lia | lia].
Qed.

Lemma epoch_end_offset_splits_witness :
  ∃ a, epoch_end_offset (7, 0) 1 (Ok 90) promoted = Ok a ∧
    (3 < 1 → a = mk_epoch_end (-1) (-1)) ∧
    (1 ≤ 3 →
       ee_leader_epoch a = -1 ∧ (∀ e s, history (7, 0) promoted !! e = Some s → 1 < e) ∨
       is_Some (history (7, 0) promoted !! ee_leader_epoch a) ∧ ee_leader_epoch a ≤ 1 ∧
       (∀ e s, history (7, 0) promoted !! e = Some s → e ≤ 1 → e ≤ ee_leader_epoch a) ∧
       ∀ off e, off < 90 → written_under (history (7, 0) promoted) off e →
         (off < ee_end_offset a ↔ e ≤ 1)).
Proof.
  apply (epoch_end_offset_splits promoted (7, 0) (mk_partition 0 3 40) 1 90).
  - apply promoted_reachable.
  - reflexivity.
Defined.

Lemma epoch_history_increasing_witness :
  increasing (history (7, 0) promoted) ∧ is_Some (history (7, 0) promoted !! 3) ∧
  (∀ e s, history (7, 0) promoted !! e = Some s → e ≤ 3) ∧
  ∀ off e1 e2, written_under (history (7, 0) promoted) off e1 →
    written_under (history (7, 0) promoted) off e2 → e1 = e2.
Proof.
  apply (epoch_history_increasing promoted (7, 0) (mk_partition 0 3 40)).
  - apply promoted_reachable.
  - reflexivity.
Defined.

Lemma committed_markers_complete_witness :
  let d := mk_meta ∅ ∅ {[(7, 0) := {[5; 9; 30]}]} ∅ ∅ in
  let '(out, ceiling) := committed_markers (7, 0) 5 20 d in
  ceiling ≤ 20 ∧ (length out ≤ MARKERS_PER_FETCH)%nat ∧
  ∀ b, 5 ≤ b < ceiling → b ∈ out ↔ b ∈ marker_set (7, 0) d.
Proof.
  apply (committed_markers_complete (7, 0) 5 20 (mk_meta ∅ ∅ {[(7, 0) := {[5; 9; 30]}]} ∅ ∅)). lia.
Defined.

Lemma advance_log_start_forgets_dead_witness :
  let d := record_aborted_txn (7, 0) 1000 10 20 promoted in
  let d' := advance_log_start (7, 0) 15 d in
  log_start_offset (7, 0) d' = Ok (Z.max 0 15) ∧
  (∀ producer off, 15 ≤ off → aborted_at (7, 0) producer off d' = aborted_at (7, 0) producer off d) ∧
  (∀ first producer last, abort_index (7, 0) d' !! first = Some (producer, last) → 15 ≤ last) ∧
  ∀ p', p' ≠ (7, 0) → abort_index p' d' = abort_index p' d.
Proof.
  apply (advance_log_start_forgets_dead (7, 0) 15 (record_aborted_txn (7, 0) 1000 10 20 promoted)
    (mk_partition 0 3 40)). reflexivity.
Defined.
