(* ===== verification/Store.v ===== *)
(** * extension/src/storage/mod.rs: the contract of a storage engine

    [LogStore] is the part of the trait of that name the transaction
    coordinator and the produce handler call, with what they rely on: a
    successful [append] puts the batch at the end of its own partition at the
    offset it returns, and touches no other partition; a failed one adds
    nothing.  Both are verified against this interface; [MemLog] is an
    instance, a map of lists. *)

From stdpp Require Import gmap.
From S2P Require Import Prelude Errors Cleaner.

Record RawBatch : Type := mk_raw {
  rw_bytes : bytes;
  rw_record_count : Z;
  rw_last_offset_delta : Z;
  rw_max_timestamp : Z;
  rw_producer_id : Z;
  rw_producer_epoch : Z;
  rw_base_sequence : Z;
  rw_is_transactional : bool;
  rw_is_control : bool }.

(** [log_of l p] is partition [p] of the store: base offsets and batches, in
    offset order. *)
Class LogStore (L : Type) := {
  append : Z * Z → RawBatch → ST L StoreError Z;
  high_watermark : Z * Z → L → result StoreError Z;
  log_of : L → Z * Z → list (Z * RawBatch) }.

Class LogStoreLaws (L : Type) {store : LogStore L} : Prop := {
  append_same p b l off l' :
    append p b l = (Ok off, l') → log_of l' p = log_of l p ++ [(off, b)];
  append_other p b l off l' q :
    append p b l = (Ok off, l') → q ≠ p → log_of l' q = log_of l q;
  append_failed p b l e l' q :
    append p b l = (Err e, l') → log_of l' q = log_of l q }.

(** ** A store in memory *)

Abbreviation MemLog := (gmap (Z * Z) (list (Z * RawBatch))).

Definition mem_log (l : MemLog) (p : Z * Z) : list (Z * RawBatch) := default [] (l !! p).

(** The offset after the last record. *)
Definition mem_end (l : MemLog) (p : Z * Z) : Z :=
  match last (mem_log l p) with
  | Some (off, b) => off + rw_last_offset_delta b + 1
  | None => 0
  end.

Definition mem_append (p : Z * Z) (b : RawBatch) : ST MemLog StoreError Z := λ l,
  match l !! p with
  | None => (Err UnknownTopicOrPartition, l)
  | Some log => (Ok (mem_end l p), <[p := log ++ [(mem_end l p, b)]]> l)
  end.

Definition mem_high_watermark (p : Z * Z) (l : MemLog) : result StoreError Z :=
  match l !! p with None => Err UnknownTopicOrPartition | Some _ => Ok (mem_end l p) end.

#[export] Instance mem_store : LogStore MemLog :=
  {| append := mem_append; high_watermark := mem_high_watermark; log_of := mem_log |}.

#[export] Instance mem_store_laws : LogStoreLaws MemLog.
Proof.
  split; intros p b l off l'; cbn [append log_of mem_store]; unfold mem_append;
    destruct (l !! p) as [log|] eqn:E; try done; try (by intros q [= <- <-]).
  - intros [= <- <-]. unfold mem_log at 1. by rewrite lookup_insert_eq; unfold mem_log; rewrite E.
  - intros q [= <- <-] Hq. unfold mem_log. by rewrite lookup_insert_ne.
Qed.
