(* ===== verification/Offsets.v ===== *)
(** * extension/src/handlers/offsets.rs: who may commit offsets

    [validate_commit] and the three group kinds it tells apart.  Classic groups
    are the tables of Group.v; of the newer protocols the rows this check reads
    are kept in [ConsumerTables].  [id_le] is the collation of Group.v. *)

From Stdlib Require Import Ascii.
From stdpp Require Import gmap strings.
From S2P Require Import Prelude Errors Acl Group.

#[local] Open Scope Z_scope.

Record Committer : Type := mk_committer {
  c_group : string;
  c_generation : Z;
  c_member : string;
  c_instance : option string }.

Inductive GroupVerdict : Type :=
| Accept
| Refuse (code : ErrorCode.t)
| HeldOnly (held : gset (Z * Z)).

Definition code_for (v : GroupVerdict) (topic_id partition : Z) : ErrorCode.t :=
  match v with
  | Accept => ErrorCode.NoError
  | Refuse code => code
  | HeldOnly held => if decide ((topic_id, partition) ∈ held) then ErrorCode.NoError
                     else ErrorCode.StaleMemberEpoch
  end.

(** ** [parse_tp] *)

Definition digit (a : ascii) : option Z :=
  let n := Z.of_N (N_of_ascii a) in if (48 <=? n) && (n <=? 57) then Some (n - 48) else None.

(** [str::parse] of an unsigned run of digits; [acc] is the value so far. *)
Fixpoint digits (s : string) (acc : Z) : option Z :=
  match s with
  | EmptyString => Some acc
  | String a s' => d ← digit a; digits s' (acc * 10 + d)
  end.
Definition unsigned (s : string) : option Z :=
  match s with EmptyString => None | _ => digits s 0 end.

Definition in_bounds (lo hi : Z) (o : option Z) : option Z :=
  z ← o; if (lo <=? z) && (z <=? hi) then Some z else None.

Definition parse_u32 (s : string) : option Z :=
  in_bounds 0 (2 ^ 32 - 1) (match s with String "+" s' => unsigned s' | _ => unsigned s end).
Definition parse_i32 (s : string) : option Z :=
  in_bounds (- 2 ^ 31) i32_max
    (match s with
     | String "-" s' => Z.opp <$> unsigned s'
     | String "+" s' => unsigned s'
     | _ => unsigned s
     end).

(** [split_once(':')]. *)
Fixpoint split_colon (s : string) : option (string * string) :=
  match s with
  | EmptyString => None
  | String ":" s' => Some (EmptyString, s')
  | String a s' => '(l, r) ← split_colon s'; Some (String a l, r)
  end.

Definition parse_tp (s : string) : option (Z * Z) :=
  '(t, p) ← split_colon s; t ← parse_u32 t; p ← parse_i32 p; Some (t, p).

(** ** The check *)

Record ConsumerMember : Type := mk_consumer {
  cm_epoch : Z;
  cm_owned : list string;
  cm_granted : list string }.

Record ConsumerTables : Type := mk_consumers {
  share_groups : gset string;
  consumer_groups : gset string;
  consumer_members : gmap (string * string) ConsumerMember }.

Definition OFFSET_COMMIT_GROUP_AWARE_FROM : Z := 9.

Definition validate_classic (c : Committer) (transactional : bool) (state : GroupState)
    (generation : Z) (members : list (string * MemberRow)) : GroupVerdict :=
  let named := negb (bool_decide (c_member c = ""%string)) in
  let completing :=
    if negb transactional && bool_decide (state = CompletingRebalance)
    then Refuse ErrorCode.RebalanceInProgress else Accept in
  if (c_generation c <? 0) && bool_decide (state = Empty) then Accept
  else if (0 <=? c_generation c) || named || bool_decide (is_Some (c_instance c)) then
    let known :=
      if negb (existsb (λ m, bool_decide (m.1 = c_member c)) members)
      then Refuse ErrorCode.UnknownMemberId
      else if negb (c_generation c =? generation) then Refuse ErrorCode.IllegalGeneration
      else completing in
    match c_instance c with
    | None => known
    | Some instance =>
        match list_find (λ m : string * MemberRow, m_instance m.2 = Some instance) members with
        | None => Refuse ErrorCode.UnknownMemberId
        | Some (_, m) => if decide (m.1 ≠ c_member c) then Refuse ErrorCode.FencedInstanceId else known
        end
    end
  else if negb transactional && negb (bool_decide (state = Empty))
  then Refuse ErrorCode.UnknownMemberId
  else completing.

Definition validate_consumer_group (c : Committer) (transactional : bool) (version : Z)
    (t : ConsumerTables) : GroupVerdict :=
  let members := filter (λ p, p.1.1 = c_group c) (consumer_members t) in
  if (c_generation c <? 0) && bool_decide (members = ∅) then Accept
  else if transactional && (c_generation c =? -1) && bool_decide (c_member c = ""%string) &&
          bool_decide (c_instance c = None) then Accept
  else
    match consumer_members t !! (c_group c, c_member c) with
    | None => Refuse ErrorCode.UnknownMemberId
    | Some m =>
        if negb transactional && (version <? OFFSET_COMMIT_GROUP_AWARE_FROM)
        then Refuse ErrorCode.UnsupportedVersion
        else
          match c_generation c ?= cm_epoch m with
          | Eq => Accept
          | Gt => Refuse ErrorCode.StaleMemberEpoch
          | Lt => HeldOnly (list_to_set (omap parse_tp (cm_owned m ++ cm_granted m)))
          end
    end.

Section Collation.

Variable id_le : string → string → Prop.
Context {id_dec : ∀ a b, Decision (id_le a b)}.

(** The verdict, and the groups with the member's heartbeat touched where the
    commit is one. *)
Definition validate_commit (now : Z) (c : Committer) (transactional : bool) (version : Z)
    (t : ConsumerTables) (d : Groups) : GroupVerdict * Groups :=
  let g := c_group c in
  if decide (g ∈ share_groups t) then (Refuse ErrorCode.GroupIdNotFound, d)
  else if decide (g ∈ consumer_groups t) then (validate_consumer_group c transactional version t, d)
  else
    match groups d !! g with
    | Some row =>
        let verdict := validate_classic c transactional (g_state row) (g_generation row)
                         (members id_le g d) in
        let live := bool_decide (g_state row = Stable ∨ g_state row = PreparingRebalance) in
        match verdict with
        | Accept => (verdict, if negb transactional && live
                              then touch_heartbeat now g (c_member c) d else d)
        | _ => (verdict, d)
        end
    | None =>
        if bool_decide (filter (λ p, p.1.1.1 = g) (goffsets d) ≠ ∅)
        then (validate_classic c transactional Empty 0 [], d)
        else if c_generation c <? 0 then (Accept, d)
        else if negb transactional && (OFFSET_COMMIT_GROUP_AWARE_FROM <=? version)
        then (Refuse ErrorCode.GroupIdNotFound, d)
        else (Refuse ErrorCode.IllegalGeneration, d)
    end.

(** A transactional commit is checked only. *)
Lemma validate_commit_transactional now c version t d :
  (validate_commit now c true version t d).2 = d.
Proof. unfold validate_commit. by repeat (case_match; cbn). Qed.

End Collation.
