(* ===== verification/Txn.v ===== *)
(** * extension/src/handlers/txn.rs and init_producer_id.rs: transactions

    The transaction coordinator: AddPartitionsToTxn, AddOffsetsToTxn,
    TxnOffsetCommit, EndTxn, InitProducerId, WriteTxnMarkers and the expiry of
    abandoned transactions, over the tables of Producer.v ([kafgres_producers],
    [kafgres_txns]), Pmeta.v ([kafgres_txn_partitions], the abort index) and
    Group.v ([kafgres_offsets]), and over a [LogStore].

    A handler runs inside one database transaction under the locks it takes
    first, so it is a sequential program here and locking has no definition.
    [Returned] is an [Err] of the source, [Raised] an error the database raises,
    which unwinds to the caller that rolls back.  [crc32c] is the checksum
    crate, [id_le] the database's collation. *)

From Stdlib Require Import Ascii.
From stdpp Require Import gmap strings sorting.
From S2P Require Import Prelude Errors Primitives Records RecordIter Build Cleaner Producer Acl Group Pmeta Store Offsets.

#[local] Open Scope Z_scope.

(** ** handlers/mod.rs *)

Inductive HandlerError : Type :=
| Codec (e : CodecError)
| TooLarge (what : string) (n : Z)
| Internal
| Busy.

Definition MAX_ADMIN_ITEMS : Z := 1000.
Definition check_admin_len (what : string) (n : Z) : result HandlerError unit :=
  if MAX_ADMIN_ITEMS <? n then Err (TooLarge what n) else Ok tt.
Definition check_nested_len {A} (outer_what inner_what : string) (outer : list A) (inner : A → Z)
    : result HandlerError unit :=
  let? _ := check_admin_len outer_what (Z.of_nat (length outer)) in
  check_admin_len inner_what (foldr Z.add 0 (inner <$> outer)).

Inductive Failure : Type := Returned (e : HandlerError) | Raised.

(** ** State *)

(** A row of [kafgres_txn_offsets]. *)
Record Staged : Type := mk_staged {
  so_offset : Z;
  so_leader_epoch : Z;
  so_metadata : option string }.

(** The transaction timestamp in seconds and [now_millis()]. *)
Record Clock : Type := mk_clock { db_now : Z; now_millis : Z }.

(** [kafgres_topics] holds a topic's name and partition count by id. *)
Record TxDb (L : Type) : Type := mk_tx {
  t_prod : Db;
  t_meta : Meta;
  t_staged : gmap Z (gmap (string * Z * Z) Staged);
  t_groups : Groups;
  t_consumers : ConsumerTables;
  t_topics : gmap Z (string * Z);
  t_log : L }.
Arguments mk_tx {L}. Arguments t_prod {L}. Arguments t_meta {L}. Arguments t_staged {L}.
Arguments t_groups {L}. Arguments t_consumers {L}. Arguments t_topics {L}. Arguments t_log {L}.

Section Setters.

Context {L : Type}.
Implicit Types d : TxDb L.

Definition on_prod (f : Db → Db) d : TxDb L :=
  mk_tx (f (t_prod d)) (t_meta d) (t_staged d) (t_groups d) (t_consumers d) (t_topics d) (t_log d).
Definition on_meta (f : Meta → Meta) d : TxDb L :=
  mk_tx (t_prod d) (f (t_meta d)) (t_staged d) (t_groups d) (t_consumers d) (t_topics d) (t_log d).
Definition on_staged (f : gmap Z (gmap (string * Z * Z) Staged) → gmap Z (gmap (string * Z * Z) Staged)) d : TxDb L :=
  mk_tx (t_prod d) (t_meta d) (f (t_staged d)) (t_groups d) (t_consumers d) (t_topics d) (t_log d).
Definition on_groups (f : Groups → Groups) d : TxDb L :=
  mk_tx (t_prod d) (t_meta d) (t_staged d) (f (t_groups d)) (t_consumers d) (t_topics d) (t_log d).
Definition set_log (l : L) d : TxDb L :=
  mk_tx (t_prod d) (t_meta d) (t_staged d) (t_groups d) (t_consumers d) (t_topics d) l.

Definition update_txns (f : gmap Z TxnRow → gmap Z TxnRow) : TxDb L → TxDb L :=
  on_prod (λ p, mk_db (producers p) (batches p) (f (txns p)) (epoch_starts p) (next_producer_id p)).

Definition txn_row (pid : Z) d : option TxnRow := txns (t_prod d) !! pid.
Definition producer_row (pid : Z) d : option ProducerRow := producers (t_prod d) !! pid.
Definition staged_of (pid : Z) d : gmap (string * Z * Z) Staged := default ∅ (t_staged d !! pid).
(** The first offset of the producer's transaction in a partition. *)
Definition part_row (pid : Z) (p : Z * Z) d : option Z := open_txns p (t_meta d) !! pid.
Definition is_ongoing (pid : Z) d : bool := ongoing (t_prod d) pid.

(** [DELETE FROM kafgres_txn_partitions WHERE producer_id = ..], and from
    [kafgres_txn_offsets]. *)
Definition delete_parts (pid : Z) : TxDb L → TxDb L :=
  on_meta (λ m, mk_meta (partitions m) (epochs m) (markers m) (aborted m) (delete pid <$> txn_parts m)).
Definition delete_staged (pid : Z) : TxDb L → TxDb L := on_staged (delete pid).

(** meta.rs: a topic's id by its name, and its partition count. *)
Definition topic_id_by_name (name : string) d : option Z :=
  fst ∘ snd <$> list_find (λ t : Z * (string * Z), t.2.1 = name) (map_to_list (t_topics d)).
Definition partition_count (topic_id : Z) d : Z :=
  match t_topics d !! topic_id with Some t => t.2 | None => 0 end.

(** meta.rs, dropping a topic: what the transaction tables and the committed
    offsets lose, and the topic's row. *)
Definition forget_topic (topic_id : Z) d : TxDb L :=
  mk_tx
    (set_batches (filter (λ b, br_topic b ≠ topic_id)) (t_prod d))
    (mk_meta (partitions (t_meta d)) (epochs (t_meta d)) (markers (t_meta d)) (aborted (t_meta d))
       (filter (λ e, e.1.1 ≠ topic_id) (txn_parts (t_meta d))))
    (filter (λ e, e.1.1.2 ≠ topic_id) <$> t_staged d)
    (mk_groups (groups (t_groups d)) (gmembers (t_groups d))
       (filter (λ e, e.1.1.2 ≠ topic_id) (goffsets (t_groups d))))
    (t_consumers d) (delete topic_id (t_topics d)) (t_log d).

End Setters.

(** ** Verdicts *)

Inductive Verdict : Type := NoTransactionalId | UnknownProducer | StaleEpoch.

Definition verdict_code (v : Verdict) (version : Z) : ErrorCode.t :=
  match v with
  | NoTransactionalId => ErrorCode.InvalidRequest
  | UnknownProducer => ErrorCode.InvalidProducerIdMapping
  | StaleEpoch => if 2 <=? version then ErrorCode.ProducerFenced else ErrorCode.InvalidProducerEpoch
  end.

(** The source's [Admitted]: proof that a pair was accepted. *)
Record Admission : Type := mk_admission { ad_producer : Z; ad_epoch : Z }.

Definition admission (producer_id epoch current : Z) (mapped listed : bool)
    (txn : option (TxnState * Z)) : result Verdict Admission * bool :=
  if negb mapped then (Err UnknownProducer, false)
  else if negb (epoch =? current) then (Err StaleEpoch, false)
  else (Ok (mk_admission producer_id epoch), listed && bool_decide (txn = Some (TxnOngoing, epoch))).

Section Coordinator.

Context {L : Type} {store : LogStore L}.
Variable crc32c : bytes → Z.
Variable id_le : string → string → Prop.
Context {id_dec : ∀ a b, Decision (id_le a b)}.

Abbreviation tx A := (ST (TxDb L) Failure A).
Implicit Types d : TxDb L.

Definition gets {A} (f : TxDb L → A) : tx A := λ d, (Ok (f d), d).
Definition modify (f : TxDb L → TxDb L) : tx unit := λ d, (Ok tt, f d).

Fixpoint for_each {A} (f : A → tx unit) (l : list A) : tx unit :=
  match l with
  | [] => ret tt
  | a :: l' => f a;;; for_each f l'
  end.

(** A statement of producer.rs; its error is the database's. *)
Definition run_sql {A} (m : ST Db SqlError A) : tx A := λ d,
  match m (t_prod d) with
  | (Ok a, p) => (Ok a, on_prod (λ _, p) d)
  | (Err _, _) => (Err Raised, d)
  end.

Definition judge (transactional_id : string) (producer_id epoch : Z) (partition : option (Z * Z)) d
    : result Verdict Admission * bool :=
  if decide (transactional_id = ""%string) then (Err NoTransactionalId, false)
  else
    let txn := (λ t, (tx_state t, tx_epoch t)) <$> txn_row producer_id d in
    let listed := match partition with
                  | Some p => bool_decide (is_Some (part_row producer_id p d))
                  | None => false
                  end in
    match producer_row producer_id d with
    | Some (mk_producer current (Some id) _ _) =>
        admission producer_id epoch current (bool_decide (id = transactional_id)) listed txn
    | _ => (Err UnknownProducer, false)
    end.

Definition verdict (transactional_id : string) (producer_id epoch : Z) d : result Verdict Admission :=
  (judge transactional_id producer_id epoch None d).1.

(** The same rows, read in one statement. *)
Definition judge_held (transactional_id : string) (producer_id epoch : Z) (topic_id partition : Z) d
    : result Verdict Admission * bool :=
  if decide (transactional_id = ""%string) then (Err NoTransactionalId, false)
  else
    match producer_row producer_id d with
    | Some (mk_producer current (Some id) _ _) =>
        let listed := bool_decide (is_Some (part_row producer_id (topic_id, partition) d)) in
        let txn := (λ t, (tx_state t, tx_epoch t)) <$> txn_row producer_id d in
        admission producer_id epoch current (bool_decide (id = transactional_id)) listed txn
    | _ => (Err UnknownProducer, false)
    end.

(** ** Beginning a transaction *)

(** The default of the [timeout_ms] column. *)
Definition DEFAULT_TIMEOUT_MS : Z := 60000.

Definition begun (clock : Clock) (epoch : Z) (txn_id : string) (o : option TxnRow) : TxnRow :=
  match o with
  | None => mk_txn epoch txn_id TxnOngoing (now_millis clock) DEFAULT_TIMEOUT_MS None []
  | Some t =>
      mk_txn epoch (tx_transactional_id t) TxnOngoing
        (if tx_ongoing t then tx_started_at t else now_millis clock) (tx_timeout_ms t)
        (if tx_ongoing t then tx_forced t else None)
        (if tx_ongoing t then tx_offsets_partitions t else [])
  end.

Definition touch_producer (now pid : Z) : Db → Db :=
  set_producers (alter (λ r, mk_producer (pr_epoch r) (pr_transactional_id r) (pr_retired r) now) pid).

Definition begin_or_continue (clock : Clock) (a : Admission) (txn_id : string) d : TxDb L :=
  let pid := ad_producer a in
  let d := on_prod (touch_producer (db_now clock) pid) d in
  let beginning := match txn_row pid d with Some t => negb (tx_ongoing t) | None => true end in
  let d := if beginning then delete_staged pid (delete_parts pid d) else d in
  update_txns (λ ts, <[pid := begun clock (ad_epoch a) txn_id (ts !! pid)]> ts) d.

Definition set_first (pid : Z) (p : Z * Z) (first : Z) (m : Meta) : Meta :=
  set_txn_parts p (<[pid := first]> (open_txns p m)) m.

Definition add_partition (pid topic_id partition : Z) d : TxDb L :=
  match part_row pid (topic_id, partition) d with
  | Some _ => d
  | None => on_meta (set_first pid (topic_id, partition) (-1)) d
  end.

Definition OFFSETS_TOPIC_PARTITIONS : Z := 50.

(** The characters of a UTF-8 string, and [encode_utf16]. *)
Fixpoint chars (l : list Z) : list Z :=
  match l with
  | [] => []
  | a :: l1 =>
      if a <? 128 then a :: chars l1
      else match l1 with
      | [] => []
      | b :: l2 =>
          if a <? 224 then ((a - 192) * 64 + (b - 128)) :: chars l2
          else match l2 with
          | [] => []
          | c :: l3 =>
              if a <? 240 then ((a - 224) * 4096 + (b - 128) * 64 + (c - 128)) :: chars l3
              else match l3 with
              | [] => []
              | e :: l4 =>
                  ((a - 240) * 262144 + (b - 128) * 4096 + (c - 128) * 64 + (e - 128)) :: chars l4
              end
          end
      end
  end.
Definition encode_utf16 (s : string) : list Z :=
  concat ((λ c, if c <? 65536 then [c]
                else [55296 + (c - 65536) / 1024; 56320 + (c - 65536) mod 1024]) <$>
    chars ((λ a, Z.of_N (N_of_ascii a)) <$> String.list_ascii_of_string s)).

Definition offsets_partition (group : string) : Z :=
  let h := foldl (λ h u, wrap_i 32 (wrap_i 32 (h * 31) + u)) 0 (encode_utf16 group) in
  if h =? - 2 ^ 31 then 0 else Z.rem (Z.abs h) OFFSETS_TOPIC_PARTITIONS.

Definition set_offsets_partitions (l : list Z) (t : TxnRow) : TxnRow :=
  mk_txn (tx_epoch t) (tx_transactional_id t) (tx_state t) (tx_started_at t) (tx_timeout_ms t)
    (tx_forced t) l.

(** [array_append(..) .. WHERE NOT .. = ANY(offsets_partitions)]. *)
Definition append_partition (n : Z) (t : TxnRow) : TxnRow :=
  if decide (n ∈ tx_offsets_partitions t) then t
  else set_offsets_partitions (tx_offsets_partitions t ++ [n]) t.

Definition add_offsets_partition (a : Admission) (group : string) : TxDb L → TxDb L :=
  update_txns (alter (append_partition (offsets_partition group)) (ad_producer a)).

Definition offsets_partition_added (a : Admission) (group : string) d : bool :=
  match txn_row (ad_producer a) d with
  | Some t => tx_ongoing t && (tx_epoch t =? ad_epoch a) &&
              bool_decide (offsets_partition group ∈ tx_offsets_partitions t)
  | None => false
  end.

(** ** Produce's check *)

Inductive ProduceTxn : Type :=
| Added
| AddsPartition (a : Admission)
| Refused (code : ErrorCode.t).

Definition PRODUCE_ADDS_PARTITION_FROM : Z := 12.
Definition PRODUCE_ABORTABLE_FROM : Z := 11.

Definition produce_verdict (judged : result Verdict Admission * bool) (version : Z) : ProduceTxn :=
  match judged with
  | (Err StaleEpoch, _) => Refused ErrorCode.InvalidProducerEpoch
  | (Err _, _) => Refused ErrorCode.InvalidProducerIdMapping
  | (Ok _, true) => Added
  | (Ok a, false) =>
      if PRODUCE_ADDS_PARTITION_FROM <=? version then AddsPartition a
      else if PRODUCE_ABORTABLE_FROM <=? version then Refused ErrorCode.TransactionAbortable
      else Refused ErrorCode.InvalidTxnState
  end.

Definition verify_held_produce (transactional_id : option string) (producer_id epoch topic_id partition
    version : Z) d : ProduceTxn :=
  match transactional_id with
  | None => Refused ErrorCode.TransactionalIdAuthorizationFailed
  | Some id => produce_verdict (judge_held id producer_id epoch topic_id partition d) version
  end.

(** ** Ending a transaction *)

Definition marker_batch (pid epoch : Z) (committed : bool) : RawBatch :=
  let bytes := build_control_batch crc32c pid epoch committed in
  let view := mk_batch bytes in
  mk_raw bytes (record_count view) (last_offset_delta view) (max_timestamp view) pid epoch (-1) true true.

Definition append_marker (pid epoch : Z) (p : Z * Z) (first_offset : Z) (committed : bool) : tx unit := λ d,
  match batch_new (build_control_batch crc32c pid epoch committed) with
  | Err _ => (Err (Returned Internal), d)
  | Ok _ =>
      match append p (marker_batch pid epoch committed) (t_log d) with
      | (Err _, l) => (Err (Returned Internal), set_log l d)
      | (Ok marker_offset, l) =>
          (Ok tt,
           if negb committed && (0 <=? first_offset)
           then on_meta (record_aborted_txn p pid first_offset marker_offset) (set_log l d)
           else set_log l d)
      end
  end.

Definition fence (pid : Z) : tx Z := λ d,
  match producer_row pid d with
  | None => (Ok (-1), d)
  | Some r =>
      match smallint_succ (pr_epoch r) with
      | None => (Err Raised, d)
      | Some e =>
          (Ok e, on_prod (set_producers <[pid := mk_producer e (pr_transactional_id r) None (pr_last_ts r)]>) d)
      end
  end.

Inductive Finish : Type :=
| NotOurs
| Ended
| NotOpen (last : option bool)
| Overridden.
#[export] Instance Finish_eq_dec : EqDecision Finish.
Proof. solve_decision. Defined.

Definition by_part (a b : Z * Z * Z) : Prop :=
  a.1.1 < b.1.1 ∨ a.1.1 = b.1.1 ∧ a.1.2 ≤ b.1.2.
#[export] Instance by_part_dec a b : Decision (by_part a b).
Proof. unfold by_part. apply _. Defined.

(** The partitions of the transaction whose topic exists, with first offsets. *)
Definition txn_partitions (pid : Z) d : list (Z * Z * Z) :=
  merge_sort by_part
    (omap (λ e : Z * Z * gmap Z Z,
       if decide (is_Some (t_topics d !! e.1.1)) then (λ first, (e.1, first)) <$> e.2 !! pid else None)
      (map_to_list (txn_parts (t_meta d)))).

Definition offset_row (now : Z) (s : Staged) : OffsetRow :=
  mk_offset (so_offset s) (so_leader_epoch s) (so_metadata s) now.

(** [INSERT INTO kafgres_offsets SELECT .. FROM kafgres_txn_offsets]. *)
Definition commit_staged (now pid : Z) d : TxDb L :=
  on_groups (λ g, mk_groups (groups g) (gmembers g) ((offset_row now <$> staged_of pid d) ∪ goffsets g)) d.

Definition ended_state (committed : bool) : TxnState := if committed then TxnCommitted else TxnAborted.

(** [UPDATE kafgres_txns SET state = .., offsets_partitions = '{}']. *)
Definition end_row (s : TxnState) (t : TxnRow) : TxnRow :=
  mk_txn (tx_epoch t) (tx_transactional_id t) s (tx_started_at t) (tx_timeout_ms t) (tx_forced t) [].

Definition end_txn (pid : Z) (s : TxnState) : TxDb L → TxDb L := update_txns (alter (end_row s) pid).

Definition finish_transaction (now pid epoch : Z) (committed : bool) : tx Finish := λ d,
  match txn_row pid d with
  | None => (Ok NotOurs, d)
  | Some t =>
      if match producer_row pid d with Some r => epoch <? pr_epoch r | None => false end
      then (Ok NotOurs, d)
      else match tx_state t with
      | TxnEmpty => (Ok (NotOpen None), d)
      | TxnCommitted => (Ok (NotOpen (Some true)), d)
      | TxnAborted => (Ok (NotOpen (Some false)), d)
      | TxnOngoing =>
          let requested := committed in
          let committed := default requested (tx_forced t) in
          let overridden := match tx_forced t with Some f => negb (Bool.eqb f requested) | None => false end in
          (let* partitions := gets (txn_partitions pid) in
           for_each (λ e, append_marker pid epoch e.1 e.2 committed) partitions;;;
           modify (λ d, if committed then commit_staged now pid d else d);;;
           modify (delete_staged pid);;;
           modify (delete_parts pid);;;
           modify (end_txn pid (ended_state committed));;;
           if overridden then fence pid;;; ret Overridden else ret Ended) d
      end
  end.

Definition by_fst {A} (a b : Z * A) : Prop := a.1 ≤ b.1.
#[export] Instance by_fst_dec {A} (a b : Z * A) : Decision (by_fst a b).
Proof. unfold by_fst. apply _. Defined.

(** The open transactions of a transactional id, each with the epoch its
    producer has now. *)
Definition abandoned (transactional_id : string) d : list (Z * Z) :=
  merge_sort by_fst
    (omap (λ e : Z * TxnRow,
       let '(pid, t) := e in
       if decide (tx_transactional_id t = transactional_id ∧ tx_state t = TxnOngoing) then
         match producer_row pid d with
         | None => Some (pid, wrap_i 16 (tx_epoch t))
         | Some r => if decide (pr_transactional_id r = Some transactional_id)
                     then Some (pid, wrap_i 16 (pr_epoch r)) else None
         end
       else None) (map_to_list (txns (t_prod d)))).

Definition abort_abandoned (now : Z) (transactional_id : string) : tx unit :=
  let* open := gets (abandoned transactional_id) in
  for_each (λ e, finish_transaction now e.1 e.2 false;;; ret tt) open.

(** ** EndTxn *)

Inductive Retry : Type := RetryOf (producer_id epoch : Z) | OutcomeMismatch | RetryNo.

Definition is_retired (transactional_id : string) (pid epoch : Z) d (e : Z * ProducerRow) : Prop :=
  pr_transactional_id e.2 = Some transactional_id ∧ is_ongoing e.1 d = false ∧
  match pr_retired e.2 with Some (rp, re, _) => rp = pid ∧ re = epoch | None => False end.
#[export] Instance is_retired_dec id pid epoch d e : Decision (is_retired id pid epoch d e).
Proof. unfold is_retired. destruct (pr_retired e.2) as [[[??]?]|]; apply _. Defined.

Definition completed_retry (transactional_id : string) (pid epoch : Z) (committed : bool) d : Retry :=
  match list_find (is_retired transactional_id pid epoch d) (map_to_list (producers (t_prod d))) with
  | None => RetryNo
  | Some (_, (id, r)) =>
      match pr_retired r with
      | Some (_, _, c) => if Bool.eqb c committed then RetryOf id (pr_epoch r) else OutcomeMismatch
      | None => OutcomeMismatch
      end
  end.

Record EndTxnRequest : Type := mk_end_txn {
  er_transactional_id : string;
  er_producer_id : Z;
  er_producer_epoch : Z;
  er_committed : bool }.
Record EndTxnResponse : Type := mk_end_txn_response {
  ep_error : ErrorCode.t;
  ep_producer_id : Z;
  ep_producer_epoch : Z }.

Section EndTxn.
(** [transaction_version] is the finalized feature level of the broker. *)
Variables (clock : Clock) (transaction_version : Z) (version : Z) (req : EndTxnRequest).

Definition unchanged (code : ErrorCode.t) : EndTxnResponse :=
  mk_end_txn_response code (er_producer_id req) (er_producer_epoch req).

Definition rotating : bool := (5 <=? version) && (2 <=? transaction_version).

(** The epoch moves on for the next transaction. *)
Definition rotate : tx EndTxnResponse :=
  if rotating then
    let* p := run_sql (bump_epoch_for_next_txn (db_now clock) (er_producer_id req) (er_committed req)) in
    ret (mk_end_txn_response ErrorCode.NoError p.1 p.2)
  else ret (unchanged ErrorCode.NoError).

Definition end_verified : tx EndTxnResponse :=
  let* v := gets (verdict (er_transactional_id req) (er_producer_id req) (er_producer_epoch req)) in
  match v with
  | Err v => ret (unchanged (verdict_code v version))
  | Ok _ =>
      let* f := finish_transaction (db_now clock) (er_producer_id req) (er_producer_epoch req) (er_committed req) in
      match f with
      | NotOurs | Overridden => ret (unchanged ErrorCode.InvalidProducerEpoch)
      | NotOpen last =>
          if negb rotating then
            ret (unchanged (if decide (last = Some (er_committed req)) then ErrorCode.NoError
                            else ErrorCode.InvalidTxnState))
          else if er_committed req then ret (unchanged ErrorCode.InvalidTxnState)
          else modify (end_txn (er_producer_id req) TxnAborted);;; rotate
      | Ended => rotate
      end
  end.

Definition handle_end_txn : tx EndTxnResponse :=
  if decide (er_transactional_id req = ""%string)
  then ret (unchanged (verdict_code NoTransactionalId version))
  else if rotating then
    let* r := gets (completed_retry (er_transactional_id req) (er_producer_id req)
                      (er_producer_epoch req) (er_committed req)) in
    match r with
    | RetryOf id epoch => ret (mk_end_txn_response ErrorCode.NoError id epoch)
    | OutcomeMismatch => ret (unchanged ErrorCode.InvalidTxnState)
    | RetryNo => end_verified
    end
  else end_verified.

End EndTxn.

(** ** AddPartitionsToTxn and AddOffsetsToTxn *)

Record AddPartitionsRequest : Type := mk_add_partitions {
  ap_transactional_id : string;
  ap_producer_id : Z;
  ap_producer_epoch : Z;
  ap_topics : list (string * list Z) }.
Record AddPartitionsResponse : Type := mk_add_partitions_response {
  ar_error : ErrorCode.t;
  ar_results : list (string * list (Z * ErrorCode.t)) }.

(** One topic of the request: unknown topics and partitions are skipped. *)
Definition add_topic (pid : Z) (d : TxDb L) (topic : string * list Z) : TxDb L :=
  match topic_id_by_name topic.1 d with
  | None => d
  | Some topic_id =>
      let count := partition_count topic_id d in
      foldl (λ d p, if (p <? 0) || (count <=? p) then d else add_partition pid topic_id p d) d topic.2
  end.

Definition handle_add_partitions (clock : Clock) (version : Z) (req : AddPartitionsRequest)
    : tx AddPartitionsResponse := λ d,
  if 4 <=? version then (Ok (mk_add_partitions_response ErrorCode.InvalidRequest []), d)
  else
    let answer code := mk_add_partitions_response ErrorCode.NoError
      ((λ t : string * list Z, (t.1, (λ p, (p, code)) <$> t.2)) <$> ap_topics req) in
    match verdict (ap_transactional_id req) (ap_producer_id req) (ap_producer_epoch req) d with
    | Err v => (Ok (answer (verdict_code v version)), d)
    | Ok a =>
        (Ok (answer ErrorCode.NoError),
         foldl (add_topic (ap_producer_id req)) (begin_or_continue clock a (ap_transactional_id req) d)
           (ap_topics req))
    end.

Definition handle_add_offsets (clock : Clock) (version : Z) (transactional_id : string)
    (producer_id producer_epoch : Z) (group : string) : tx ErrorCode.t := λ d,
  match verdict transactional_id producer_id producer_epoch d with
  | Err v => (Ok (verdict_code v version), d)
  | Ok a =>
      (Ok ErrorCode.NoError, add_offsets_partition a group (begin_or_continue clock a transactional_id d))
  end.

(** ** TxnOffsetCommit *)

Record CommitPartition : Type := mk_commit_partition { cp_index : Z; cp_staged : Staged }.
Record TxnOffsetCommitRequest : Type := mk_txn_offset_commit {
  oc_transactional_id : string;
  oc_producer_id : Z;
  oc_producer_epoch : Z;
  oc_committer : Committer;
  oc_topics : list (string * list CommitPartition) }.

Section TxnOffsetCommit.
Variables (clock : Clock) (version : Z) (req : TxnOffsetCommitRequest).

(** The answer of the pair's check, of the transaction's and of the group's. *)
Definition commit_code (v : result Verdict Admission) : ErrorCode.t :=
  match v with
  | Err StaleEpoch => ErrorCode.InvalidProducerEpoch
  | Err other => verdict_code other version
  | Ok _ => ErrorCode.NoError
  end.
Definition no_group : bool := bool_decide (c_group (oc_committer req) = ""%string).
Definition commit_unverified (v : result Verdict Admission) d : ErrorCode.t :=
  match v with
  | Ok a =>
      if (version <? 5) && negb no_group then
        if offsets_partition_added a (c_group (oc_committer req)) d then ErrorCode.NoError
        else if 4 <=? version then ErrorCode.TransactionAbortable else ErrorCode.InvalidTxnState
      else ErrorCode.NoError
  | Err _ => ErrorCode.NoError
  end.
Definition commit_group (v : result Verdict Admission) d : option GroupVerdict :=
  if bool_decide (commit_code v = ErrorCode.NoError) &&
     bool_decide (commit_unverified v d = ErrorCode.NoError) && negb no_group
  then Some (validate_commit id_le (now_millis clock) (oc_committer req) true version (t_consumers d)
               (t_groups d)).1
  else None.

Definition part_code (v : result Verdict Admission) (topic_id : option Z) (count index : Z) d : ErrorCode.t :=
  if bool_decide (commit_code v = ErrorCode.InvalidRequest) && negb no_group then commit_code v
  else match topic_id with
  | None => ErrorCode.UnknownTopicOrPartition
  | Some id =>
      if (index <? 0) || (count <=? index) then ErrorCode.UnknownTopicOrPartition
      else if no_group then ErrorCode.InvalidGroupId
      else if decide (commit_unverified v d ≠ ErrorCode.NoError) then commit_unverified v d
      else match commit_group v d with
      | Some g => code_for g id index
      | None => commit_code v
      end
  end.

(** A topic of the request with its id and partition count. *)
Definition resolve (d : TxDb L) (t : string * list CommitPartition) : option Z * Z :=
  let topic_id := topic_id_by_name t.1 d in
  (topic_id, match topic_id with Some id => partition_count id d | None => 0 end).

Definition any_partition d : bool :=
  existsb (λ t, let '(topic_id, count) := resolve d t in
    bool_decide (is_Some topic_id) && existsb (λ p, (0 <=? cp_index p) && (cp_index p <? count)) t.2)
    (oc_topics req).

(** The rows staged: those answered NONE. *)
Definition accepted (v : result Verdict Admission) d : list (Z * CommitPartition) :=
  concat ((λ t, let '(topic_id, count) := resolve d t in
    match topic_id with
    | Some id => (λ p, (id, p)) <$>
        filter (λ p, part_code v topic_id count (cp_index p) d = ErrorCode.NoError) t.2
    | None => []
    end) <$> oc_topics req).

Definition stage (d : TxDb L) (e : Z * CommitPartition) : TxDb L :=
  let pid := oc_producer_id req in
  on_staged <[pid := <[(c_group (oc_committer req), e.1, cp_index e.2) := cp_staged e.2]> (staged_of pid d)]> d.

Definition handle_txn_offset_commit : tx (list (string * list (Z * ErrorCode.t))) := λ d,
  let v := verdict (oc_transactional_id req) (oc_producer_id req) (oc_producer_epoch req) d in
  let topics := (λ t, let '(topic_id, count) := resolve d t in
    (t.1, (λ p, (cp_index p, part_code v topic_id count (cp_index p) d)) <$> t.2)) <$> oc_topics req in
  let begins := (5 <=? version) && any_partition d && negb no_group in
  let d' := match v with
            | Ok a => if begins then
                add_offsets_partition a (c_group (oc_committer req))
                  (begin_or_continue clock a (oc_transactional_id req) d)
              else d
            | Err _ => d
            end in
  (Ok topics, foldl stage d' (accepted v d)).

End TxnOffsetCommit.

(** ** Expiry *)

Definition MAX_PER_SWEEP : nat := 64.

Definition is_expired (clock : Clock) (t : TxnRow) : bool :=
  tx_ongoing t && (tx_timeout_ms t <? now_millis clock - tx_started_at t).

Definition by_started (a b : Z * TxnRow) : Prop := tx_started_at a.2 ≤ tx_started_at b.2.
#[export] Instance by_started_dec a b : Decision (by_started a b).
Proof. unfold by_started. apply _. Defined.

(** The producers of the longest-running expired transactions, by id. *)
Definition stale_producers (clock : Clock) d : list (Z * Z) :=
  merge_sort by_fst ((λ e : Z * TxnRow, (e.1, wrap_i 16 (tx_epoch e.2))) <$>
    take MAX_PER_SWEEP (merge_sort by_started
      (filter (λ e : Z * TxnRow, is_expired clock e.2 = true) (map_to_list (txns (t_prod d)))))).

(** One of them: 1 when its transaction was ended here. *)
Definition expire_one (clock : Clock) (pid : Z) : tx Z :=
  let* row := gets (txn_row pid) in
  match row with
  | Some t =>
      if is_expired clock t then
        let* f := finish_transaction (db_now clock) pid (wrap_i 16 (tx_epoch t)) false in
        match f with
        | NotOurs | NotOpen _ => ret 0
        | Overridden => ret 1
        | Ended => fence pid;;; ret 1
        end
      else ret 0
  | None => ret 0
  end.

Fixpoint expire_each (clock : Clock) (l : list (Z * Z)) (done : Z) : tx Z :=
  match l with
  | [] => ret done
  | e :: l' => let* n := expire_one clock e.1 in expire_each clock l' (done + n)
  end.

Definition expire_stale_transactions (clock : Clock) : tx Z :=
  let* stale := gets (stale_producers clock) in
  expire_each clock stale 0.

(** ** WriteTxnMarkers *)

Definition force (committed : bool) (t : TxnRow) : TxnRow :=
  mk_txn (tx_epoch t) (tx_transactional_id t) (tx_state t) (tx_started_at t) (tx_timeout_ms t)
    (Some (default committed (tx_forced t))) (tx_offsets_partitions t).

Definition has_partitions (pid : Z) d : bool :=
  existsb (λ e : Z * Z * gmap Z Z, bool_decide (is_Some (e.2 !! pid))) (map_to_list (txn_parts (t_meta d))).

Definition finish_partition (now pid epoch : Z) (p : Z * Z) (committed : bool) : tx ErrorCode.t := λ d,
  match txn_row pid d, part_row pid p d with
  | Some t, Some first_offset =>
      if negb (tx_ongoing t) then (Ok ErrorCode.NoError, d)
      else if negb (tx_epoch t <=? epoch) then (Ok ErrorCode.InvalidProducerEpoch, d)
      else
        (append_marker pid epoch p first_offset committed;;;
         modify (on_meta (λ m, set_txn_parts p (delete pid (open_txns p m)) m));;;
         modify (update_txns (alter (force committed) pid));;;
         let* remaining := gets (has_partitions pid) in
         if remaining then ret ErrorCode.NoError
         else
           modify (λ d, if committed then commit_staged now pid d else d);;;
           modify (delete_staged pid);;;
           modify (end_txn pid (ended_state committed));;;
           fence pid;;;
           ret ErrorCode.NoError) d
  | _, _ => (Ok ErrorCode.NoError, d)
  end.

Definition mark_one (now pid epoch : Z) (topic : string) (partition : Z) (committed : bool)
    : tx ErrorCode.t := λ d,
  match topic_id_by_name topic d with
  | None => (Ok ErrorCode.UnknownTopicOrPartition, d)
  | Some topic_id =>
      if (partition <? 0) || (partition_count topic_id d <=? partition)
      then (Ok ErrorCode.UnknownTopicOrPartition, d)
      else match producer_row pid d with
      | None => (Ok ErrorCode.InvalidProducerEpoch, d)
      | Some r =>
          if epoch <? pr_epoch r then (Ok ErrorCode.InvalidProducerEpoch, d)
          else match part_row pid (topic_id, partition) d with
          | None => (Ok ErrorCode.InvalidTxnState, d)
          | Some _ => finish_partition now pid epoch (topic_id, partition) committed d
          end
      end
  end.

(** [unwrap_or_else]: an [Err] is reported for the partition; what the database
    raises is not caught. *)
Definition or_server_error (m : tx ErrorCode.t) : tx ErrorCode.t := λ d,
  match m d with
  | (Err (Returned _), d') => (Ok ErrorCode.UnknownServerError, d')
  | r => r
  end.

Record Marker : Type := mk_marker {
  mk_producer_id : Z;
  mk_producer_epoch : Z;
  mk_result : bool;
  mk_topics : list (string * list Z) }.

Fixpoint collect {A B} (f : A → tx B) (l : list A) : tx (list B) :=
  match l with
  | [] => ret []
  | a :: l' => let* b := f a in let* bs := collect f l' in ret (b :: bs)
  end.

Definition write_txn_markers (now : Z) (acls : AclCache) (who : Principal) (markers : list Marker)
    : tx (list (Z * list (string * list (Z * ErrorCode.t)))) := λ d,
  match check_nested_len "transaction markers" "marker partitions" markers
          (λ m, foldr Z.add 0 ((λ t : string * list Z, Z.of_nat (length t.2)) <$> mk_topics m)) with
  | Err e => (Err (Returned e), d)
  | Ok _ =>
      let mark m (t : string) p : tx ErrorCode.t :=
        match Acl.check acls who ClusterAction Cluster "kafka-cluster" with
        | Err code => ret code
        | Ok _ => or_server_error (mark_one now (mk_producer_id m) (mk_producer_epoch m) t p (mk_result m))
        end in
      collect (λ m,
        let* topics := collect (λ t : string * list Z,
          let* ps := collect (λ p, let* code := mark m t.1 p in ret (p, code)) t.2 in
          ret (t.1, ps)) (mk_topics m) in
        ret (mk_producer_id m, topics)) markers d
  end.

(** ** InitProducerId *)

Definition MAX_TRANSACTION_TIMEOUT_MS : Z := 900000.

Record InitProducerIdResponse : Type := mk_init_response {
  ir_error : ErrorCode.t;
  ir_producer_id : Z;
  ir_producer_epoch : Z }.

(** The finished rows of the transactional id under another producer go, with
    what they left. *)
Definition superseded_row (id : string) (pid : Z) (e : Z * TxnRow) : Prop :=
  tx_transactional_id e.2 = id ∧ e.1 ≠ pid ∧ tx_state e.2 ≠ TxnOngoing.
#[export] Instance superseded_row_dec id pid e : Decision (superseded_row id pid e).
Proof. unfold superseded_row. apply _. Defined.

Definition drop_superseded (id : string) (pid : Z) d : TxDb L :=
  let gone := fst <$> map_to_list (filter (superseded_row id pid) (txns (t_prod d))) in
  let d := foldl (λ d q, delete_staged q (delete_parts q d)) d gone in
  update_txns (filter (λ e, ¬ superseded_row id pid e)) d.

Definition initialised (clock : Clock) (epoch timeout : Z) (id : string) (o : option TxnRow) : TxnRow :=
  match o with
  | None => mk_txn epoch id TxnEmpty (now_millis clock) timeout None []
  | Some t =>
      mk_txn epoch (tx_transactional_id t) (if tx_ongoing t then TxnOngoing else TxnEmpty)
        (tx_started_at t) timeout (if tx_ongoing t then tx_forced t else None) (tx_offsets_partitions t)
  end.

Definition handle_init_producer_id (clock : Clock) (acls : AclCache) (who : Principal)
    (transactional_id : option string) (timeout_ms : Z) : tx InitProducerIdResponse :=
  match Acl.check acls who IdempotentWrite Cluster "kafka-cluster" with
  | Err code => ret (mk_init_response code (-1) (-1))
  | Ok _ =>
      match transactional_id ≫= (λ s, if decide (s = ""%string) then None else Some s) with
      | None =>
          let* p := run_sql (init_producer_id (db_now clock) None) in
          ret (mk_init_response ErrorCode.NoError p.1 p.2)
      | Some id =>
          abort_abandoned (db_now clock) id;;;
          let* p := run_sql (init_producer_id (db_now clock) (Some id)) in
          let timeout := Z.min MAX_TRANSACTION_TIMEOUT_MS (Z.max 1000 timeout_ms) in
          modify (drop_superseded id p.1);;;
          modify (update_txns (λ ts, <[p.1 := initialised clock p.2 timeout id (ts !! p.1)]> ts));;;
          ret (mk_init_response ErrorCode.NoError p.1 p.2)
      end
  end.

End Coordinator.
