(* ===== verification/TxnSpec.v ===== *)
(** * What a transaction guarantees

    The theorems about the coordinator of Txn.v, against the [LogStore]
    interface: a transaction ends all one way on every partition with its
    offsets; a stale pair changes nothing; the invariant of the tables under
    every handler; the takeover by InitProducerId; the expiry of abandoned
    transactions; the retry of EndTxn. *)

From stdpp Require Import gmap strings sorting.
From S2P Require Import Prelude Errors Primitives Records RecordIter Build Cleaner Producer Acl Group Pmeta Store Offsets Txn.

#[local] Open Scope Z_scope.

(** ** The tables under the setters *)

Section Tables.

Context {L : Type}.
Implicit Types d : TxDb L.

Lemma open_txns_fmap_delete pid p (m : Meta) :
  open_txns p (mk_meta (partitions m) (epochs m) (markers m) (aborted m) (delete pid <$> txn_parts m)) =
    delete pid (open_txns p m).
Proof.
  unfold open_txns. cbn [txn_parts]. rewrite lookup_fmap.
  destruct (txn_parts m !! p); cbn; [done |]. by rewrite delete_empty.
Qed.

Lemma part_row_delete_parts q pid p d :
  part_row q p (delete_parts pid d) = if decide (q = pid) then None else part_row q p d.
Proof.
  unfold part_row, delete_parts, on_meta. cbn [t_meta]. rewrite open_txns_fmap_delete.
  case_decide as E; [subst; by rewrite lookup_delete_eq | by rewrite lookup_delete_ne].
Qed.

Lemma staged_of_delete q pid d :
  staged_of q (delete_staged pid d) = if decide (q = pid) then ∅ else staged_of q d.
Proof.
  unfold staged_of, delete_staged, on_staged. cbn [t_staged].
  case_decide as E; [subst; by rewrite lookup_delete_eq | by rewrite lookup_delete_ne].
Qed.

Lemma txn_row_update q f d : txn_row q (update_txns f d) = f (txns (t_prod d)) !! q.
Proof. done. Qed.

Lemma txn_row_end q pid s d :
  txn_row q (end_txn pid s d) = if decide (q = pid) then end_row s <$> txn_row q d else txn_row q d.
Proof.
  unfold end_txn. rewrite txn_row_update. unfold txn_row.
  case_decide as E; [subst; by rewrite lookup_alter_eq | by rewrite lookup_alter_ne].
Qed.

Lemma staged_of_end q pid s d : staged_of q (end_txn pid s d) = staged_of q d.
Proof. done. Qed.

Lemma ongoing_row pid d :
  is_ongoing pid d = match txn_row pid d with Some t => tx_ongoing t | None => false end.
Proof. done. Qed.

(** A committed transaction's offsets over the ones there. *)
Lemma commit_staged_offsets now pid d k :
  goffsets (t_groups (commit_staged now pid d)) !! k =
    match staged_of pid d !! k with
    | Some s => Some (offset_row now s)
    | None => goffsets (t_groups d) !! k
    end.
Proof.
  unfold commit_staged, on_groups. cbn [t_groups goffsets]. rewrite lookup_union, lookup_fmap.
  destruct (staged_of pid d !! k); cbn; by destruct (goffsets (t_groups d) !! k).
Qed.

Lemma abort_index_record p q pid first off m :
  abort_index q (record_aborted_txn p pid first off m) =
    if decide (q = p) then <[first := (pid, off)]> (abort_index p m) else abort_index q m.
Proof.
  unfold record_aborted_txn, abort_index, set_aborted. cbn [aborted].
  case_decide as E; [subst; by rewrite lookup_insert_eq | by rewrite lookup_insert_ne].
Qed.

End Tables.

(** ** Membership of the query for a transaction's partitions *)

Section Partitions.

Context {L : Type}.
Implicit Types d : TxDb L.

Lemma txn_partitions_elem pid d p first :
  (p, first) ∈ txn_partitions pid d ↔ is_Some (t_topics d !! p.1) ∧ part_row pid p d = Some first.
Proof.
  unfold txn_partitions. rewrite merge_sort_Permutation, list_elem_of_omap.
  unfold part_row, open_txns. split.
  - intros ([q m] & Hin%elem_of_map_to_list & Hf). cbn in Hf. case_decide; [| done].
    apply fmap_Some in Hf as (x & Hx & [= -> ->]). by rewrite Hin.
  - intros [Ht Hp]. destruct (txn_parts (t_meta d) !! p) as [m|] eqn:E; cbn in Hp; [| done].
    exists (p, m). split; [by apply elem_of_map_to_list |]. cbn. by rewrite decide_True, Hp.
Qed.

Lemma omap_keys_sublist {K A B} (f : K * A → option (K * B)) (l : list (K * A)) :
  (∀ e r, f e = Some r → r.1 = e.1) → (omap f l).*1 `sublist_of` l.*1.
Proof.
  intros Hf. induction l as [|e l IH]; cbn; [constructor |].
  destruct (f e) as [r|] eqn:E; cbn; [rewrite (Hf _ _ E); by constructor | by constructor].
Qed.

Lemma txn_partitions_nodup pid d : NoDup (txn_partitions pid d).*1.
Proof.
  unfold txn_partitions. rewrite merge_sort_Permutation.
  eapply sublist_NoDup; [| apply omap_keys_sublist].
  - apply NoDup_fst_map_to_list.
  - intros [q m] r. cbn. case_decide; [| done]. intros (x & _ & ->)%fmap_Some. done.
Qed.

End Partitions.

(** ** Markers *)

(** What appending markers leaves alone. *)
Definition same_tables {L} (d d' : TxDb L) : Prop :=
  t_prod d' = t_prod d ∧ t_staged d' = t_staged d ∧ t_groups d' = t_groups d ∧
  t_consumers d' = t_consumers d ∧ t_topics d' = t_topics d ∧
  txn_parts (t_meta d') = txn_parts (t_meta d).

Lemma same_tables_trans {L} (d1 d2 d3 : TxDb L) : same_tables d1 d2 → same_tables d2 d3 → same_tables d1 d3.
Proof. unfold same_tables. intuition congruence. Qed.

Section Markers.

Context {L : Type} {store : LogStore L} {laws : LogStoreLaws L}.
Variable crc32c : bytes → Z.
Implicit Types d : TxDb L.

(** Partition [p] got the marker, and its abort range where there is one. *)
Definition marked (pid epoch : Z) (committed : bool) (p : Z * Z) (first : Z) d d' : Prop :=
  ∃ off, log_of (t_log d') p = log_of (t_log d) p ++ [(off, marker_batch crc32c pid epoch committed)] ∧
    abort_index p (t_meta d') =
      if negb committed && (0 <=? first) then <[first := (pid, off)]> (abort_index p (t_meta d))
      else abort_index p (t_meta d).
Definition untouched (p : Z * Z) d d' : Prop :=
  log_of (t_log d') p = log_of (t_log d) p ∧ abort_index p (t_meta d') = abort_index p (t_meta d).

Lemma append_marker_ok pid epoch p first c d d' :
  append_marker crc32c pid epoch p first c d = (Ok tt, d') →
  same_tables d d' ∧ marked pid epoch c p first d d' ∧ ∀ q, q ≠ p → untouched q d d'.
Proof.
  unfold append_marker. destruct (batch_new _); [| done].
  destruct (append _ _ _) as [[off|e] l] eqn:E; [| done]. intros [= <-].
  pose proof (append_same _ _ _ _ _ E) as Hs. pose proof (λ q, append_other _ _ _ _ _ q E) as Ho.
  unfold marked, untouched. destruct (negb c && (0 <=? first)); (split; [done |]); cbn; (split; [exists off; split |]); auto.
  - by rewrite abort_index_record, decide_True.
  - intros q Hq. split; [by apply Ho |]. by rewrite abort_index_record, decide_False.
Qed.

Lemma append_markers_ok pid epoch c l d d' :
  NoDup l.*1 →
  for_each (λ e, append_marker crc32c pid epoch e.1 e.2 c) l d = (Ok tt, d') →
  same_tables d d' ∧ (∀ p first, (p, first) ∈ l → marked pid epoch c p first d d') ∧
  ∀ q, q ∉ l.*1 → untouched q d d'.
Proof.
  revert d. induction l as [|[p first] l IH]; intros d Hnd.
  { intros [= <-]. split; [done |]. split; [intros p first He; by apply elem_of_nil in He | done]. }
  cbn [for_each fst snd]. unfold bind at 1.
  destruct (append_marker _ _ _ _ _ _ d) as [[[]|e] d1] eqn:E1; [| done]. intros E2.
  apply append_marker_ok in E1 as (Hs1 & Hm1 & Ho1). apply NoDup_cons in Hnd as [Hnp Hnd].
  apply IH in E2 as (Hs2 & Hm2 & Ho2); [| done]. clear IH.
  split; [by eapply same_tables_trans |]. unfold marked, untouched in *. split.
  - intros q f [[= -> ->]|Hq]%elem_of_cons.
    + destruct (Ho2 p Hnp) as [-> ->]. done.
    + destruct (Ho1 q) as [<- <-]; [| by apply Hm2]. intros ->. apply Hnp. by apply list_elem_of_fmap_2 with (f := fst) in Hq.
  - intros q [Hqp Hql]%not_elem_of_cons. destruct (Ho1 q Hqp) as [<- <-]. by apply Ho2.
Qed.

(** ** Ending *)

(** The tables after a transaction of [pid] ended with outcome [c]. *)
Definition ended_tables (now pid : Z) (c : bool) d d' : Prop :=
  (∀ q, txn_row q d' = if decide (q = pid) then end_row (ended_state c) <$> txn_row q d else txn_row q d) ∧
  (∀ q, staged_of q d' = if decide (q = pid) then ∅ else staged_of q d) ∧
  (∀ q p, part_row q p d' = if decide (q = pid) then None else part_row q p d) ∧
  (∀ k, goffsets (t_groups d') !! k =
     match (if c then staged_of pid d !! k else None) with
     | Some s => Some (offset_row now s)
     | None => goffsets (t_groups d) !! k
     end) ∧
  t_topics d' = t_topics d ∧ next_producer_id (t_prod d') = next_producer_id (t_prod d).

Definition ended_logs (pid epoch : Z) (c : bool) d d' : Prop :=
  ∀ p, match (if decide (is_Some (t_topics d !! p.1)) then part_row pid p d else None) with
       | Some first => marked pid epoch c p first d d'
       | None => untouched p d d'
       end.

(** Its outcome where an operator forced one, and the requested one otherwise. *)
Definition outcome (t : TxnRow) (requested : bool) : bool := default requested (tx_forced t).

Lemma ended_tables_tail now pid (c : bool) d d1 :
  same_tables d d1 →
  let d2 := if c then commit_staged now pid d1 else d1 in
  ended_tables now pid c d (end_txn pid (ended_state c) (delete_parts pid (delete_staged pid d2))).
Proof.
  intros (Hp & Hs & Hg & Hc & Ht & Hm) d2. set (d3 := end_txn _ _ _).
  assert (Hrows : ∀ q, txn_row q d2 = txn_row q d) by (intros q; unfold d2, txn_row; destruct c; cbn; by rewrite Hp).
  assert (Hst : ∀ q, staged_of q d2 = staged_of q d) by (intros q; unfold d2, staged_of; destruct c; cbn; by rewrite Hs).
  assert (Hpt : ∀ q p, part_row q p d2 = part_row q p d)
    by (intros q p; unfold d2, part_row, open_txns; destruct c; cbn; by rewrite Hm).
  unfold ended_tables. split; [| split; [| split; [| split]]].
  - intros q. unfold d3. rewrite txn_row_end.
    change (txn_row q (delete_parts pid (delete_staged pid d2))) with (txn_row q d2). by rewrite Hrows.
  - intros q. unfold d3.
    change (staged_of q (end_txn pid (ended_state c) (delete_parts pid (delete_staged pid d2))))
      with (staged_of q (delete_staged pid d2)).
    by rewrite staged_of_delete, Hst.
  - intros q p. unfold d3.
    change (part_row q p (end_txn pid (ended_state c) (delete_parts pid (delete_staged pid d2))))
      with (part_row q p (delete_parts pid (delete_staged pid d2))).
    rewrite part_row_delete_parts. change (part_row q p (delete_staged pid d2)) with (part_row q p d2).
    by rewrite Hpt.
  - intros k. change (t_groups d3) with (t_groups d2). unfold d2. destruct c; [| by rewrite Hg].
    rewrite commit_staged_offsets, Hg. unfold staged_of. by rewrite Hs.
  - change (t_topics d3) with (t_topics d2). change (next_producer_id (t_prod d3)) with (next_producer_id (t_prod d2)).
    unfold d2. destruct c; cbn; by rewrite Ht, Hp.
Qed.

(** What each answer of [finish_transaction] means: only an open transaction is
    ended, with the forced outcome where there is one. *)
Lemma finish_transaction_ok now pid epoch requested d f d' :
  finish_transaction crc32c now pid epoch requested d = (Ok f, d') →
  match f with
  | NotOurs | NotOpen _ => d' = d
  | Ended | Overridden =>
      ∃ t d1, txn_row pid d = Some t ∧ tx_ongoing t = true ∧
        (∀ r, producer_row pid d = Some r → pr_epoch r ≤ epoch) ∧
        (f = Ended ↔ outcome t requested = requested) ∧
        ended_tables now pid (outcome t requested) d d1 ∧
        ended_logs pid epoch (outcome t requested) d d1 ∧
        producers (t_prod d1) = producers (t_prod d) ∧
        if decide (f = Ended) then d' = d1 else ∃ e, fence pid d1 = (Ok e, d')
  end.
Proof.
  unfold finish_transaction. destruct (txn_row pid d) as [t|] eqn:Et; [| by intros [= <- <-]].
  destruct (match producer_row pid d with Some r => epoch <? pr_epoch r | None => false end) eqn:Ef;
    [by intros [= <- <-] |].
  destruct (tx_state t) eqn:Es; [by intros [= <- <-] | | by intros [= <- <-] | by intros [= <- <-]].
  fold (outcome t requested). set (c := outcome t requested). unfold bind at 1, gets.
  unfold bind at 1. destruct (for_each _ _ d) as [[[]|e] d1] eqn:E1; [| done].
  pose proof (txn_partitions_nodup pid d) as Hnd.
  apply append_markers_ok in E1 as (Hst & Hm & Ho); [| done].
  pose proof (ended_tables_tail now pid c d d1 Hst) as Htab. cbv zeta in Htab.
  unfold modify. do 4 (unfold bind at 1). cbv beta iota.
  set (d2 := end_txn pid _ _) in *.
  assert (Hlogs : ended_logs pid epoch c d d2).
  { intros p. case_decide as Ht.
    - destruct (part_row pid p d) as [first|] eqn:Ep.
      + assert (Hin : (p, first) ∈ txn_partitions pid d) by (by apply txn_partitions_elem).
        apply Hm in Hin. unfold d2. by destruct c.
      + assert (untouched p d d1); [| unfold d2; by destruct c].
        apply Ho. intros ([q f'] & -> & Hin)%list_elem_of_fmap. apply txn_partitions_elem in Hin as [_ Hin].
        cbn in *. congruence.
    - assert (untouched p d d1); [| unfold d2; by destruct c].
      apply Ho. intros ([q f'] & -> & Hin)%list_elem_of_fmap. by apply txn_partitions_elem in Hin as [Hin _]. }
  assert (Hprod : producers (t_prod d2) = producers (t_prod d)).
  { unfold d2. destruct Hst as [Hp _]. destruct c; cbn; by rewrite Hp. }
  assert (Hep : ∀ r, producer_row pid d = Some r → pr_epoch r ≤ epoch).
  { intros r Hr. rewrite Hr in Ef. by apply Z.ltb_ge. }
  assert (Hon : tx_ongoing t = true) by (unfold tx_ongoing; by rewrite Es).
  clearbody d2. clear Ef Hst Hm Ho Es d1.
  destruct (match tx_forced t with Some f => negb (Bool.eqb f requested) | None => false end) eqn:Eo.
  - unfold bind. destruct (fence pid d2) as [[e|e] d3] eqn:E3; [| done]. intros [= <- <-].
    exists t, d2. do 3 (split; [done |]). split; [| split; [done |]; split; [done |]; split; [done | by exists e]].
    split; [done |]. unfold outcome. destruct (tx_forced t) as [[]|]; cbn in *; destruct requested; done.
  - intros [= <- <-]. exists t, d2. do 3 (split; [done |]). split; [| done].
    split; [| done]. intros _. unfold outcome. destruct (tx_forced t) as [[]|]; cbn in *; destruct requested; done.
Qed.

End Markers.

(** ** The invariant of the tables *)

Section Invariant.

Context {L : Type}.
Implicit Types d : TxDb L.

(** Partitions and offsets are staged for open transactions only; an open
    transaction belongs to a producer, at that producer's current epoch; a
    transaction row and its producer agree on the transactional id, which one
    producer has; ids come from the sequence; epochs fit a smallint. *)
Record txn_inv (d : TxDb L) : Prop := mk_txn_inv {
  inv_parts : ∀ pid p first, part_row pid p d = Some first → is_ongoing pid d = true;
  inv_staged : ∀ pid k s, staged_of pid d !! k = Some s → is_ongoing pid d = true;
  inv_owner : ∀ pid t, txn_row pid d = Some t → tx_ongoing t = true →
    ∃ r, producer_row pid d = Some r ∧ pr_epoch r = tx_epoch t;
  inv_id : ∀ pid t r, txn_row pid d = Some t → producer_row pid d = Some r →
    pr_transactional_id r = Some (tx_transactional_id t);
  inv_unique : ∀ pid r pid' r' id, producer_row pid d = Some r → producer_row pid' d = Some r' →
    pr_transactional_id r = Some id → pr_transactional_id r' = Some id → pid = pid';
  inv_fresh : ∀ pid, next_producer_id (t_prod d) ≤ pid →
    txn_row pid d = None ∧ producer_row pid d = None;
  inv_epoch : ∀ pid r, producer_row pid d = Some r → 0 ≤ pr_epoch r ≤ i16_max }.

Lemma inv_known d pid r : txn_inv d → producer_row pid d = Some r → pid < next_producer_id (t_prod d).
Proof.
  intros H Hr. destruct (Z.lt_ge_cases pid (next_producer_id (t_prod d))) as [|Hge]; [done |].
  destruct (inv_fresh d H pid Hge). congruence.
Qed.

(** A producer row changes, its transactional id apart and its epoch only when
    it has no open transaction. *)
Lemma inv_producer pid r r' d d' :
  txn_inv d → producer_row pid d = Some r →
  pr_transactional_id r' = pr_transactional_id r → 0 ≤ pr_epoch r' ≤ i16_max →
  (is_ongoing pid d = true → pr_epoch r' = pr_epoch r) →
  (∀ q, producer_row q d' = if decide (q = pid) then Some r' else producer_row q d) →
  (∀ q, txn_row q d' = txn_row q d) → (∀ q p, part_row q p d' = part_row q p d) →
  (∀ q, staged_of q d' = staged_of q d) → next_producer_id (t_prod d) ≤ next_producer_id (t_prod d') →
  txn_inv d'.
Proof.
  intros Hi Hr Hid He Ho Hp Ht Hpt Hst Hn. pose proof (inv_known _ _ _ Hi Hr) as Hk.
  assert (Hon : ∀ q, is_ongoing q d' = is_ongoing q d) by (intros q; by rewrite !ongoing_row, Ht).
  assert (Hrow : ∀ q x, producer_row q d' = Some x → ∃ y, producer_row q d = Some y ∧
    pr_transactional_id x = pr_transactional_id y ∧ 0 ≤ pr_epoch x ≤ i16_max).
  { intros q x. rewrite Hp. case_decide; [intros [= <-]; subst; by exists r |].
    intros Hx. exists x. split; [done |]. split; [done |]. by apply (inv_epoch d Hi q). }
  split.
  - intros q p f Hf. rewrite Hpt in Hf. rewrite Hon. by apply (inv_parts d Hi q p f).
  - intros q k s Hs. rewrite Hst in Hs. rewrite Hon. by apply (inv_staged d Hi q k s).
  - intros q t Hq Hot. rewrite Ht in Hq. destruct (inv_owner d Hi q t Hq Hot) as (y & Hy & Hye).
    rewrite Hp. case_decide as E; [subst | by exists y]. exists r'. split; [done |].
    rewrite Ho; [congruence |]. rewrite ongoing_row. by rewrite Hq.
  - intros q t x Hq Hx. rewrite Ht in Hq. destruct (Hrow q x Hx) as (y & Hy & -> & _).
    by apply (inv_id d Hi q).
  - intros q x q' x' id Hx Hx' Hix Hix'. destruct (Hrow q x Hx) as (y & Hy & Ey & _).
    destruct (Hrow q' x' Hx') as (y' & Hy' & Ey' & _).
    apply (inv_unique d Hi q y q' y' id); congruence.
  - intros q Hq. rewrite Ht, Hp, decide_False by lia. apply (inv_fresh d Hi). lia.
  - intros q x Hx. by destruct (Hrow q x Hx) as (y & _ & _ & ?).
Qed.

(** A transaction row changes, and the rows staged for it. *)
Lemma inv_txn pid t' d d' :
  txn_inv d →
  (∀ q, txn_row q d' = if decide (q = pid) then Some t' else txn_row q d) →
  (∀ q, producer_row q d' = producer_row q d) →
  (∀ q p, q ≠ pid → part_row q p d' = part_row q p d) →
  (∀ q, q ≠ pid → staged_of q d' = staged_of q d) →
  next_producer_id (t_prod d') = next_producer_id (t_prod d) → pid < next_producer_id (t_prod d) →
  (∀ r, producer_row pid d = Some r → pr_transactional_id r = Some (tx_transactional_id t')) →
  (tx_ongoing t' = true → ∃ r, producer_row pid d = Some r ∧ pr_epoch r = tx_epoch t') →
  (tx_ongoing t' = false → (∀ p, part_row pid p d' = None) ∧ staged_of pid d' = ∅) →
  txn_inv d'.
Proof.
  intros Hi Ht Hp Hpt Hst Hn Hlt Hid Hon Hoff.
  assert (Hong : ∀ q, q ≠ pid → is_ongoing q d' = is_ongoing q d)
    by (intros q Hq; by rewrite !ongoing_row, Ht, decide_False).
  assert (Hpid : is_ongoing pid d' = tx_ongoing t') by (by rewrite ongoing_row, Ht, decide_True).
  split.
  - intros q p f Hf. destruct (decide (q = pid)) as [->|Hq].
    + rewrite Hpid. destruct (tx_ongoing t'); [done |]. destruct Hoff as [Hno _]; [done |]. by rewrite Hno in Hf.
    + rewrite Hong by done. rewrite Hpt in Hf by done. by apply (inv_parts d Hi q p f).
  - intros q k s Hs. destruct (decide (q = pid)) as [->|Hq].
    + rewrite Hpid. destruct (tx_ongoing t'); [done |]. destruct Hoff as [_ Hno]; [done |]. by rewrite Hno, lookup_empty in Hs.
    + rewrite Hong by done. rewrite Hst in Hs by done. by apply (inv_staged d Hi q k s).
  - intros q t Hq Hot. rewrite Ht in Hq. rewrite Hp. case_decide as E; [| by apply (inv_owner d Hi)].
    injection Hq as <-. subst. by apply Hon.
  - intros q t r Hq Hr. rewrite Ht in Hq. rewrite Hp in Hr. case_decide as E; [| by apply (inv_id d Hi q)].
    injection Hq as <-. subst. by apply Hid.
  - intros q r q' r' id. rewrite !Hp. apply (inv_unique d Hi).
  - intros q Hq. rewrite Hn in Hq. rewrite Ht, Hp, decide_False by lia. by apply (inv_fresh d Hi).
  - intros q r. rewrite Hp. apply (inv_epoch d Hi).
Qed.

(** Nothing the invariant reads changes. *)
Lemma inv_same d d' :
  txn_inv d → (∀ q, txn_row q d' = txn_row q d) → (∀ q, producer_row q d' = producer_row q d) →
  (∀ q p, part_row q p d' = part_row q p d) → (∀ q, staged_of q d' = staged_of q d) →
  next_producer_id (t_prod d') = next_producer_id (t_prod d) → txn_inv d'.
Proof.
  intros Hi Ht Hp Hpt Hst Hn.
  assert (Hon : ∀ q, is_ongoing q d' = is_ongoing q d) by (intros q; by rewrite !ongoing_row, Ht).
  destruct Hi as [H1 H2 H3 H4 H5 H6 H7].
  split; repeat setoid_rewrite Hon; repeat setoid_rewrite Ht; repeat setoid_rewrite Hp;
    repeat setoid_rewrite Hpt; repeat setoid_rewrite Hst; rewrite ?Hn; done.
Qed.

Lemma inv_ended now pid c d d1 t :
  txn_inv d → txn_row pid d = Some t → ended_tables now pid c d d1 →
  producers (t_prod d1) = producers (t_prod d) → txn_inv d1 ∧ is_ongoing pid d1 = false.
Proof.
  intros Hi Ht (Hrow & Hst & Hpt & _ & _ & Hn) Hp.
  assert (Hr : ∀ q, producer_row q d1 = producer_row q d) by (intros q; unfold producer_row; by rewrite Hp).
  assert (Hend : tx_ongoing (end_row (ended_state c) t) = false) by (by destruct c).
  split; [| by rewrite ongoing_row, Hrow, decide_True, Ht].
  apply (inv_txn pid (end_row (ended_state c) t) d); try done.
  - intros q. rewrite Hrow. case_decide; [subst; by rewrite Ht | done].
  - intros q p Hq. by rewrite Hpt, decide_False.
  - intros q Hq. by rewrite Hst, decide_False.
  - destruct (Z.lt_ge_cases pid (next_producer_id (t_prod d))) as [|Hge]; [done |].
    destruct (inv_fresh d Hi pid Hge). congruence.
  - intros r Hr'. by apply (inv_id d Hi pid t).
  - congruence.
  - intros _. split; [intros p; by rewrite Hpt, decide_True | by rewrite Hst, decide_True].
Qed.

Lemma fence_ok pid d e d' :
  fence pid d = (Ok e, d') → txn_inv d → is_ongoing pid d = false →
  txn_inv d' ∧ (∀ q, txn_row q d' = txn_row q d) ∧ (∀ q p, part_row q p d' = part_row q p d) ∧
  (∀ q, staged_of q d' = staged_of q d) ∧
  ∀ q, producer_row q d' = match producer_row q d with
    | Some r => Some (if decide (q = pid) then mk_producer (pr_epoch r + 1) (pr_transactional_id r) None (pr_last_ts r) else r)
    | None => None
    end.
Proof.
  unfold fence. destruct (producer_row pid d) as [r|] eqn:Er.
  - unfold smallint_succ. destruct (pr_epoch r <? i16_max) eqn:Ee; [| done]. intros [= <- <-] Hi Hoff.
    apply Z.ltb_lt in Ee. set (r' := mk_producer _ _ _ _). set (d' := on_prod _ d).
    assert (Hp : ∀ q, producer_row q d' = if decide (q = pid) then Some r' else producer_row q d).
    { intros q. unfold producer_row, d', on_prod. cbn. case_decide; [subst; by rewrite lookup_insert_eq | by rewrite lookup_insert_ne]. }
    split; [| split; [done |]; split; [done |]; split; [done |]].
    + eapply (inv_producer pid r r' d); try done; [| by rewrite Hoff].
      pose proof (inv_epoch d Hi pid r Er). unfold r'. cbn. lia.
    + intros q. rewrite Hp. case_decide; [subst; by rewrite Er | by destruct (producer_row q d)].
  - intros [= <- <-] Hi _. do 4 (split; [done |]). intros q. case_decide; [subst; by rewrite Er | by destruct (producer_row q d)].
Qed.

End Invariant.

(** ** Ending keeps the invariant *)

Section Ending.

Context {L : Type} {store : LogStore L} {laws : LogStoreLaws L}.
Variable crc32c : bytes → Z.
Implicit Types d : TxDb L.

(** From [d] to [d'] transactions were only ended, and producers only fenced. *)
Definition only_ends d d' : Prop :=
  (∀ q, txn_row q d' = txn_row q d ∨
     ∃ t s, txn_row q d = Some t ∧ s ≠ TxnOngoing ∧ txn_row q d' = Some (end_row s t)) ∧
  (∀ q, pr_transactional_id <$> producer_row q d' = pr_transactional_id <$> producer_row q d) ∧
  t_topics d' = t_topics d ∧ next_producer_id (t_prod d') = next_producer_id (t_prod d).

#[export] Instance only_ends_preorder : PreOrder only_ends.
Proof.
  split.
  - intros d. split; [by left | done].
  - intros d1 d2 d3 (Ht & Hp & Hto & Hn) (Ht' & Hp' & Hto' & Hn'). split; [| split; [congruence |]; split; congruence].
    intros q. destruct (Ht' q) as [->|(t2 & s2 & Hq2 & Hs2 & ->)]; [done |]. right.
    destruct (Ht q) as [Hq|(t1 & s1 & Hq1 & Hs1 & Hq)]; rewrite Hq in Hq2.
    + by exists t2, s2.
    + injection Hq2 as <-. by exists t1, s2.
Qed.

Lemma only_ends_closed q d d' : only_ends d d' → is_ongoing q d = false → is_ongoing q d' = false.
Proof.
  intros (Ht & _) Hq. rewrite ongoing_row. destruct (Ht q) as [->|(t & s & _ & Hs & ->)]; [by rewrite <- ongoing_row |].
  unfold tx_ongoing. by apply bool_decide_eq_false.
Qed.

Lemma ended_only_ends now pid c d d1 t :
  txn_row pid d = Some t → ended_tables now pid c d d1 → producers (t_prod d1) = producers (t_prod d) →
  only_ends d d1.
Proof.
  intros Ht (Hrow & _ & _ & _ & Hto & Hn) Hp. split; [| split; [| done]].
  - intros q. rewrite Hrow. case_decide; [subst | by left]. right. exists t, (ended_state c).
    split; [done |]. split; [by destruct c | by rewrite Ht].
  - intros q. unfold producer_row. by rewrite Hp.
Qed.

Lemma fence_only_ends pid d e d' :
  fence pid d = (Ok e, d') → only_ends d d' ∧ ∀ q, q ≠ pid → producer_row q d' = producer_row q d.
Proof.
  unfold fence. destruct (producer_row pid d) as [r|] eqn:Er; [| by intros [= <- <-]].
  destruct (smallint_succ _) as [e'|]; [| done]. intros [= <- <-].
  split; [split; [by left |]; split; [| done] |].
  - intros q. unfold producer_row, on_prod, set_producers in *. cbn. destruct (decide (q = pid)) as [->|Hq].
    + by rewrite lookup_insert_eq, Er.
    + by rewrite lookup_insert_ne.
  - intros q Hq. unfold producer_row, on_prod, set_producers. cbn. by rewrite lookup_insert_ne.
Qed.

(** Ending closes the transaction unless the epoch is behind the producer's. *)
Lemma finish_inv now pid epoch c d f d' :
  txn_inv d → finish_transaction crc32c now pid epoch c d = (Ok f, d') →
  txn_inv d' ∧ only_ends d d' ∧
  (∀ q, q ≠ pid → txn_row q d' = txn_row q d ∧ producer_row q d' = producer_row q d) ∧
  ((∀ r, producer_row pid d = Some r → pr_epoch r ≤ epoch) → is_ongoing pid d' = false).
Proof.
  intros Hi Hf.
  assert (Hno : f = NotOurs ∨ (∃ b, f = NotOpen b) →
    (∀ r, producer_row pid d = Some r → pr_epoch r ≤ epoch) → is_ongoing pid d = false).
  { clear Hi. intros Hor Hep. rewrite ongoing_row. revert Hf. unfold finish_transaction.
    destruct (txn_row pid d) as [t|]; [| done]. unfold tx_ongoing.
    destruct (match producer_row pid d with Some r => epoch <? pr_epoch r | None => false end) eqn:Ee.
    { destruct (producer_row pid d) as [r|]; [| done]. specialize (Hep r eq_refl). apply Z.ltb_lt in Ee. lia. }
    destruct (tx_state t); try (by intros; apply bool_decide_eq_false).
    unfold bind at 1, gets. unfold bind at 1. destruct (for_each _ _ d) as [[[]|?] d1]; [| done].
    unfold modify. do 4 (unfold bind at 1). cbv beta iota.
    destruct (match tx_forced t with Some f => negb (Bool.eqb f c) | None => false end).
    - unfold bind. destruct (fence pid _) as [[?|?] ?]; [| done]. intros [= <- _]. by destruct Hor as [|[? ?]].
    - intros [= <- _]. by destruct Hor as [|[? ?]]. }
  apply finish_transaction_ok in Hf. destruct f as [| |b|].
  1, 3: subst d'; split; [done |]; split; [done |]; split; [done |]; apply Hno; eauto.
  all: destruct Hf as (t & d1 & Ht & Hon & _ & _ & Htab & _ & Hp & Hd).
  all: destruct (inv_ended now pid _ d d1 t Hi Ht Htab Hp) as [Hi1 Hc1].
  all: pose proof (ended_only_ends now pid _ d d1 t Ht Htab Hp) as Hoe.
  all: assert (Hoth : ∀ q, q ≠ pid → txn_row q d1 = txn_row q d ∧ producer_row q d1 = producer_row q d)
    by (destruct Htab as (Hrow & _); intros q Hq; rewrite Hrow, decide_False by done; unfold producer_row; by rewrite Hp).
  - rewrite decide_True in Hd by done. by subst d'.
  - rewrite decide_False in Hd by done. destruct Hd as [e He].
    destruct (fence_ok _ _ _ _ He Hi1 Hc1) as (Hi2 & Ht2 & _). destruct (fence_only_ends _ _ _ _ He) as [Hoe2 Hp2].
    split; [done |]. split; [by etransitivity |]. split.
    + intros q Hq. rewrite Ht2, Hp2 by done. by apply Hoth.
    + intros _. by rewrite ongoing_row, Ht2, <- ongoing_row.
Qed.

(** The transactions an InitProducerId supersedes are all ended. *)
Lemma finish_each_inv now c l d d' :
  txn_inv d → NoDup l.*1 →
  for_each (λ e : Z * Z, finish_transaction crc32c now e.1 e.2 c;;; ret tt) l d = (Ok tt, d') →
  txn_inv d' ∧ only_ends d d' ∧
  ∀ pid e, (pid, e) ∈ l → (∀ r, producer_row pid d = Some r → pr_epoch r ≤ e) → is_ongoing pid d' = false.
Proof.
  revert d. induction l as [|[pid e] l IH]; intros d Hi Hnd.
  { intros [= <-]. split; [done |]. split; [done |]. intros pid e He. by apply elem_of_nil in He. }
  cbn [for_each fst snd]. unfold bind at 1, bind at 1, ret at 1.
  destruct (finish_transaction _ _ _ _ _ d) as [[f|?] d1] eqn:E1; [| done]. intros E2.
  apply finish_inv in E1 as (Hi1 & Ho1 & Hoth & Hcl); [| done].
  apply NoDup_cons in Hnd as [Hnp Hnd]. apply IH in E2 as (Hi2 & Ho2 & Hall); [| done..].
  split; [done |]. split; [by etransitivity |].
  intros q e' [[= -> ->]|Hq]%elem_of_cons Hr.
  - apply (only_ends_closed pid d1); [done |]. by apply Hcl.
  - apply (Hall q e'); [done |]. destruct (Hoth q) as [_ ->]; [| done].
    intros ->. apply Hnp. by apply list_elem_of_fmap_2 with (f := fst) in Hq.
Qed.

End Ending.

(** ** Verdicts and beginnings *)

Section Beginning.

Context {L : Type}.
Implicit Types d : TxDb L.

(** The pair is the one its transactional id has now. *)
Definition current_pair (id : string) (pid epoch : Z) d : Prop :=
  id ≠ ""%string ∧
  ∃ r, producer_row pid d = Some r ∧ pr_transactional_id r = Some id ∧ pr_epoch r = epoch.

Lemma verdict_ok id pid epoch d a :
  verdict id pid epoch d = Ok a ↔ a = mk_admission pid epoch ∧ current_pair id pid epoch d.
Proof.
  unfold verdict, judge, current_pair. case_decide as E; [split; [done | by intros [_ [? _]]] |].
  destruct (producer_row pid d) as [[cur [id'|] ret ts]|]; cbn.
  - unfold admission. case_bool_decide as Ei; cbn [negb fst].
    + destruct (Z.eqb_spec epoch cur) as [<-|Hne]; cbn [negb fst].
      * split; [intros [= <-]; subst; split; [done |]; split; [done |]; by eexists | by intros [-> _]].
      * split; [done |]. intros (_ & _ & r & [= <-] & _ & Hr). cbn in Hr. congruence.
    + split; [done |]. intros (_ & _ & r & [= <-] & Hr & _). cbn in Hr. congruence.
  - split; [done |]. by intros (_ & _ & r & [= <-] & Hr & _).
  - split; [done |]. by intros (_ & _ & r & Hr & _).
Qed.

(** Produce reads the same rows as the coordinator. *)
Lemma judge_held_judge id pid epoch topic part d :
  judge_held id pid epoch topic part d = judge id pid epoch (Some (topic, part)) d.
Proof. done. Qed.

Lemma judge_verdict id pid epoch p d : (judge id pid epoch p d).1 = verdict id pid epoch d.
Proof.
  unfold verdict, judge. case_decide; [done |].
  destruct (producer_row pid d) as [[cur [id'|] ret ts]|]; [| done..]. unfold admission. by repeat case_match.
Qed.

(** What beginning leaves and clears. *)
Lemma begin_views clock a id d :
  let d' := begin_or_continue clock a id d in
  let pid := ad_producer a in
  (∀ q, txn_row q d' = if decide (q = pid) then Some (begun clock (ad_epoch a) id (txn_row pid d)) else txn_row q d) ∧
  (∀ q, producer_row q d' = (λ r, if decide (q = pid) then mk_producer (pr_epoch r) (pr_transactional_id r) (pr_retired r) (db_now clock) else r) <$> producer_row q d) ∧
  (∀ q p, part_row q p d' = if decide (q = pid ∧ is_ongoing pid d = false) then None else part_row q p d) ∧
  (∀ q, staged_of q d' = if decide (q = pid ∧ is_ongoing pid d = false) then ∅ else staged_of q d) ∧
  t_topics d' = t_topics d ∧ t_groups d' = t_groups d ∧ t_log d' = t_log d ∧ t_consumers d' = t_consumers d ∧
  next_producer_id (t_prod d') = next_producer_id (t_prod d).
Proof.
  intros d' pid. unfold d', begin_or_continue. fold pid.
  set (d1 := on_prod (touch_producer (db_now clock) pid) d).
  assert (Ht1 : txn_row pid d1 = txn_row pid d) by done.
  assert (Hb : match txn_row pid d1 with Some t => negb (tx_ongoing t) | None => true end =
    negb (is_ongoing pid d)) by (rewrite Ht1, ongoing_row; by destruct (txn_row pid d)).
  rewrite Hb. set (d2 := if negb _ then _ else d1).
  assert (Htx : txns (t_prod d2) = txns (t_prod d)) by (unfold d2; by destruct (negb _)).
  split; [| split; [| split; [| split]]].
  - intros q. rewrite txn_row_update, Htx. unfold txn_row.
    case_decide; [subst; by rewrite lookup_insert_eq | by rewrite lookup_insert_ne].
  - intros q. change (producer_row q (update_txns _ d2)) with (producer_row q d2).
    assert (producer_row q d2 = producer_row q d1) as -> by (unfold d2; by destruct (negb _)).
    unfold d1, producer_row, on_prod, touch_producer, set_producers. cbn.
    case_decide; [subst; by rewrite lookup_alter_eq | rewrite lookup_alter_ne by done].
    by destruct (producers (t_prod d) !! q).
  - intros q p. change (part_row q p (update_txns _ d2)) with (part_row q p d2). unfold d2.
    destruct (is_ongoing pid d); cbn [negb].
    + rewrite decide_False by naive_solver. done.
    + change (part_row q p (delete_staged pid (delete_parts pid d1))) with (part_row q p (delete_parts pid d1)).
      rewrite part_row_delete_parts. repeat case_decide; naive_solver.
  - intros q. change (staged_of q (update_txns _ d2)) with (staged_of q d2). unfold d2.
    destruct (is_ongoing pid d); cbn [negb].
    + rewrite decide_False by naive_solver. done.
    + rewrite staged_of_delete. repeat case_decide; naive_solver.
  - unfold d2. by destruct (negb _).
Qed.

Lemma begin_inv clock id pid epoch d :
  txn_inv d → current_pair id pid epoch d →
  txn_inv (begin_or_continue clock (mk_admission pid epoch) id d) ∧
  is_ongoing pid (begin_or_continue clock (mk_admission pid epoch) id d) = true.
Proof.
  intros Hi (_ & r & Hr & Hid & He).
  destruct (begin_views clock (mk_admission pid epoch) id d) as (Ht & Hp & Hpt & Hst & _ & _ & _ & _ & Hn).
  cbn [ad_producer ad_epoch] in *. set (d' := begin_or_continue _ _ _ d) in *.
  assert (Hon' : is_ongoing pid d' = true).
  { rewrite ongoing_row, Ht, decide_True by done. by destruct (txn_row pid d). }
  split; [| done]. set (r' := mk_producer (pr_epoch r) (pr_transactional_id r) (pr_retired r) (db_now clock)).
  set (d1 := on_prod (touch_producer (db_now clock) pid) d).
  assert (Hp1 : ∀ q, producer_row q d1 = if decide (q = pid) then Some r' else producer_row q d).
  { intros q. change (producer_row q d1) with (alter (λ r, mk_producer (pr_epoch r) (pr_transactional_id r) (pr_retired r) (db_now clock)) pid (producers (t_prod d)) !! q).
    unfold producer_row in *. destruct (decide (q = pid)) as [->|Hq]; [by rewrite lookup_alter_eq, Hr | by rewrite lookup_alter_ne]. }
  assert (Hi1 : txn_inv d1) by (eapply (inv_producer pid r r' d d1); try done; by apply (inv_epoch d Hi pid r)).
  eapply (inv_txn pid (begun clock epoch id (txn_row pid d)) d1 d'); try done.
  - intros q. rewrite Hp, Hp1. destruct (decide (q = pid)) as [->|Hq]; [by rewrite Hr | by destruct (producer_row q d)].
  - intros q p Hq. by rewrite Hpt, decide_False by naive_solver.
  - intros q Hq. by rewrite Hst, decide_False by naive_solver.
  - by apply (inv_known d pid r).
  - intros x. rewrite Hp1, decide_True by done. intros [= <-]. cbn. destruct (txn_row pid d) as [t|] eqn:Et; [| done].
    by apply (inv_id d Hi pid t r).
  - intros _. exists r'. rewrite Hp1, decide_True by done. split; [done |]. cbn. rewrite He. by destruct (txn_row pid d).
  - by destruct (txn_row pid d).
Qed.

End Beginning.

(** ** Handlers keep the invariant *)

Section Staging.

Context {L : Type}.
Implicit Types d : TxDb L.

(** Rows may be staged for an open transaction. *)
Lemma inv_stage pid d d' :
  txn_inv d → is_ongoing pid d = true →
  (∀ q, txn_row q d' = txn_row q d) → (∀ q, producer_row q d' = producer_row q d) →
  (∀ q p, q ≠ pid → part_row q p d' = part_row q p d) → (∀ q, q ≠ pid → staged_of q d' = staged_of q d) →
  next_producer_id (t_prod d') = next_producer_id (t_prod d) → txn_inv d' ∧ is_ongoing pid d' = true.
Proof.
  intros Hi Hon Ht Hp Hpt Hst Hn. split; [| by rewrite ongoing_row, Ht, <- ongoing_row].
  rewrite ongoing_row in Hon. destruct (txn_row pid d) as [t|] eqn:Et; [| done].
  destruct (inv_owner d Hi pid t Et Hon) as (r & Hr & He).
  apply (inv_txn pid t d d'); try done.
  - intros q. rewrite Ht. case_decide; [by subst | done].
  - by apply (inv_known d pid r).
  - intros x. by apply (inv_id d Hi).
  - by exists r.
  - by rewrite Hon.
Qed.

Lemma open_txns_set p q m x : open_txns q (set_txn_parts p m x) = if decide (q = p) then m else open_txns q x.
Proof.
  unfold open_txns, set_txn_parts. cbn [txn_parts].
  case_decide; [subst; by rewrite lookup_insert_eq | by rewrite lookup_insert_ne].
Qed.

(** Writing one producer's row of a partition leaves the others'. *)
Lemma part_row_other pid p (g : gmap Z Z → gmap Z Z) d q p' :
  (∀ m, q ≠ pid → g m !! q = m !! q) → q ≠ pid →
  part_row q p' (on_meta (λ m, set_txn_parts p (g (open_txns p m)) m) d) = part_row q p' d.
Proof.
  intros Hg Hq. unfold part_row, on_meta. cbn [t_meta]. rewrite open_txns_set.
  case_decide; [subst; by rewrite Hg | done].
Qed.

Lemma add_partition_inv pid topic part d :
  txn_inv d → is_ongoing pid d = true →
  txn_inv (add_partition pid topic part d) ∧ is_ongoing pid (add_partition pid topic part d) = true.
Proof.
  intros Hi Hon. unfold add_partition. destruct (part_row _ _ d); [done |].
  apply (inv_stage pid d); try done. intros q p Hq.
  apply (part_row_other pid (topic, part) (insert pid (-1))); [| done]. intros m Hm. by rewrite lookup_insert_ne.
Qed.

Lemma add_topics_inv pid ts d :
  txn_inv d → is_ongoing pid d = true →
  txn_inv (foldl (add_topic pid) d ts) ∧ is_ongoing pid (foldl (add_topic pid) d ts) = true.
Proof.
  revert d. induction ts as [|t ts IH]; intros d Hi Hon; [done |]. cbn [foldl].
  assert (H : txn_inv (add_topic pid d t) ∧ is_ongoing pid (add_topic pid d t) = true); [| apply IH; apply H].
  unfold add_topic. destruct (topic_id_by_name t.1 d) as [tid|]; [| done].
  generalize (partition_count tid d). intros count. revert d Hi Hon.
  induction t.2 as [|p ps IHp]; intros d Hi Hon; [done |]. cbn [foldl]. apply IHp; case_match; try done;
    by apply add_partition_inv.
Qed.

(** A transaction row may change in what the invariant does not read. *)
Lemma inv_row pid f d :
  txn_inv d →
  (∀ t, tx_ongoing (f t) = tx_ongoing t ∧ tx_epoch (f t) = tx_epoch t ∧
    tx_transactional_id (f t) = tx_transactional_id t) →
  txn_inv (update_txns (alter f pid) d) ∧ ∀ q, is_ongoing q (update_txns (alter f pid) d) = is_ongoing q d.
Proof.
  intros Hi Hf. set (d' := update_txns _ d).
  assert (Hrow : ∀ q, txn_row q d' = if decide (q = pid) then f <$> txn_row q d else txn_row q d).
  { intros q. unfold d'. rewrite txn_row_update. unfold txn_row.
    destruct (decide (q = pid)) as [->|Hq]; [by rewrite lookup_alter_eq | by rewrite lookup_alter_ne]. }
  assert (Hon : ∀ q, is_ongoing q d' = is_ongoing q d).
  { intros q. rewrite !ongoing_row, Hrow. case_decide; [| done]. destruct (txn_row q d) as [t|]; [apply Hf | done]. }
  split; [| done]. destruct Hi as [H1 H2 H3 H4 H5 H6 H7]. split; try done.
  - intros q p x. rewrite Hon. apply H1.
  - intros q k x. rewrite Hon. apply H2.
  - intros q t. rewrite Hrow. case_decide; [| apply H3]. intros (t0 & Ht0 & ->)%fmap_Some Ho.
    destruct (Hf t0) as (Eo & Ee & _). rewrite Ee. apply H3; [done | by rewrite <- Eo].
  - intros q t r. rewrite Hrow. case_decide; [| apply H4]. intros (t0 & Ht0 & ->)%fmap_Some Hr.
    destruct (Hf t0) as (_ & _ & ->). by apply (H4 q).
  - intros q Hq. rewrite Hrow. destruct (H6 q Hq) as [Ht Hp]. rewrite Ht. split; [by case_decide | done].
Qed.

Lemma add_offsets_partition_inv a group d :
  txn_inv d → txn_inv (add_offsets_partition a group d) ∧
    ∀ q, is_ongoing q (add_offsets_partition a group d) = is_ongoing q d.
Proof. intros Hi. apply inv_row; [done |]. intros t. unfold append_partition. by case_decide. Qed.

Lemma stage_inv req d e :
  txn_inv d → is_ongoing (oc_producer_id req) d = true →
  txn_inv (stage req d e) ∧ is_ongoing (oc_producer_id req) (stage req d e) = true.
Proof.
  intros Hi Hon. apply (inv_stage (oc_producer_id req) d); try done.
  intros q Hq. unfold stage, staged_of, on_staged. cbn [t_staged]. by rewrite lookup_insert_ne.
Qed.

End Staging.

Section Requests.

Context {L : Type}.
Variable id_le : string → string → Prop.
Context {id_dec : ∀ a b, Decision (id_le a b)}.
Implicit Types d : TxDb L.

Lemma handle_add_partitions_inv clock version req d r d' :
  handle_add_partitions clock version req d = (Ok r, d') → txn_inv d → txn_inv d'.
Proof.
  unfold handle_add_partitions. case_match; [by intros [= _ <-] |].
  destruct (verdict _ _ _ d) as [a|v] eqn:Ev; intros [= _ <-]; [| done]. intros Hi.
  apply verdict_ok in Ev as [-> Hc]. apply add_topics_inv; by apply begin_inv.
Qed.

Lemma handle_add_offsets_inv clock version id pid epoch group d r d' :
  handle_add_offsets clock version id pid epoch group d = (Ok r, d') → txn_inv d → txn_inv d'.
Proof.
  unfold handle_add_offsets. destruct (verdict _ _ _ d) as [a|v] eqn:Ev; intros [= _ <-]; [| done]. intros Hi.
  apply verdict_ok in Ev as [-> Hc]. apply add_offsets_partition_inv. by apply begin_inv.
Qed.

(** A code answered for a partition of a refused pair is an error. *)
Lemma commit_code_err version v : commit_code version (Err v) ≠ ErrorCode.NoError.
Proof. by destruct v; cbn; try case_match. Qed.

Lemma part_code_err clock version req v tid count index d :
  part_code id_le clock version req (Err v) tid count index d ≠ ErrorCode.NoError.
Proof.
  unfold part_code. pose proof (commit_code_err version v) as Hc. case_match; [done |]. destruct tid; [| done].
  case_match; [done |]. case_match; [done |]. cbn [commit_unverified]. rewrite decide_False by auto.
  unfold commit_group. by rewrite bool_decide_eq_false_2.
Qed.

(** A row is accepted only for an existing partition of an accepted request. *)
Lemma accepted_elem clock version req v d e :
  e ∈ accepted id_le clock version req v d →
  any_partition req d = true ∧ no_group req = false ∧ is_ok v = true ∧
  commit_unverified version req v d = ErrorCode.NoError.
Proof.
  unfold accepted. rewrite list_elem_of_In, in_concat. setoid_rewrite <- list_elem_of_In.
  intros (l & (t & -> & Ht)%list_elem_of_fmap & He).
  destruct (resolve d t) as [[tid|] count] eqn:Er; [| by apply elem_of_nil in He].
  apply list_elem_of_fmap in He as (p & -> & [Hcode Hp]%list_elem_of_filter).
  revert Hcode. unfold part_code.
  destruct (bool_decide (commit_code version v = ErrorCode.InvalidRequest) && negb (no_group req)) eqn:E1.
  { apply andb_true_iff in E1 as [E1%bool_decide_eq_true _]. by rewrite E1. }
  clear E1.
  destruct ((cp_index p <? 0) || (count <=? cp_index p)) eqn:E2; [done |].
  apply orb_false_iff in E2 as [E2%Z.ltb_ge E3%Z.leb_gt].
  destruct (no_group req) eqn:Eg; [done |].
  destruct (decide (commit_unverified version req v d ≠ ErrorCode.NoError)) as [Eu|Eu]; [done |].
  intros Hc. split; [| split; [done |]; split].
  - unfold any_partition. apply existsb_exists. exists t. split; [by apply list_elem_of_In |]. rewrite Er.
    cbn. apply existsb_exists. exists p. split; [by apply list_elem_of_In |].
    apply andb_true_iff. split; [by apply Z.leb_le | by apply Z.ltb_lt].
  - destruct v as [a|v]; [done |]. exfalso. revert Hc. unfold commit_group.
    rewrite bool_decide_eq_false_2 by apply commit_code_err. cbn [andb]. apply commit_code_err.
  - by apply dec_stable.
Qed.

Lemma handle_txn_offset_commit_inv clock version req d r d' :
  handle_txn_offset_commit id_le clock version req d = (Ok r, d') → txn_inv d → txn_inv d'.
Proof.
  intros [= _ <-] Hi. set (v := verdict _ _ _ d). set (pid := oc_producer_id req).
  set (d1 := match v with Ok a => _ | Err _ => d end).
  assert (Hd1 : txn_inv d1 ∧ (accepted id_le clock version req v d ≠ [] → is_ongoing pid d1 = true)).
  { destruct v as [a|ve] eqn:Ev; unfold d1.
    - apply verdict_ok in Ev as [-> Hc]. destruct (begin_inv clock _ _ _ d Hi Hc) as [Hb Hon].
      destruct ((5 <=? version) && any_partition req d && negb (no_group req)) eqn:Eb.
      + destruct (add_offsets_partition_inv (mk_admission pid (oc_producer_epoch req)) (c_group (oc_committer req)) _ Hb)
          as [Hi2 Ho2]. split; [done |]. intros _. unfold pid at 1. by rewrite Ho2.
      + split; [done |]. destruct (accepted _ _ _ _ _ d) as [|e l] eqn:Ea; [done |]. intros _.
        destruct (accepted_elem clock version req (Ok (mk_admission pid (oc_producer_epoch req))) d e) as (Ha & Hg & _ & Hu).
        { unfold pid. rewrite Ea. by left. }
        rewrite Ha, Hg in Eb. cbn in Eb. rewrite andb_true_r in Eb. rewrite andb_true_r in Eb. apply Z.leb_gt in Eb.
        revert Hu. unfold commit_unverified. rewrite Hg. replace (version <? 5) with true by (symmetry; by apply Z.ltb_lt).
        cbn. destruct (offsets_partition_added _ _ d) eqn:Eo; [| by case_match]. intros _.
        unfold offsets_partition_added in Eo. cbn [ad_producer ad_epoch] in Eo. fold pid in Eo. rewrite ongoing_row. destruct (txn_row pid d); [| done].
        apply andb_true_iff in Eo as [[Eo _]%andb_true_iff _]. done.
    - split; [done |]. destruct (accepted _ _ _ _ _ d) as [|e l] eqn:Ea; [done |]. intros _.
      destruct (accepted_elem clock version req (Err ve) d e) as (_ & _ & Hv & _); [rewrite Ea; by left | done]. }
  clearbody d1. revert Hd1. generalize (accepted id_le clock version req v d). intros l. revert d1.
  induction l as [|e l IH]; intros d1 [H1 H2]; [done |]. cbn [foldl]. apply IH.
  destruct (stage_inv req d1 e H1) as [H3 H4]; [by apply H2 | done].
Qed.

End Requests.

(** ** Producer rows come and go *)

Section Producers.

Context {L : Type}.
Implicit Types d : TxDb L.

Lemma closed_rows pid d :
  txn_inv d → is_ongoing pid d = false → (∀ p, part_row pid p d = None) ∧ staged_of pid d = ∅.
Proof.
  intros Hi Hoff. split.
  - intros p. destruct (part_row pid p d) eqn:E; [| done]. apply (inv_parts d Hi) in E. congruence.
  - apply map_eq. intros k. rewrite lookup_empty. destruct (staged_of pid d !! k) eqn:E; [| done].
    apply (inv_staged d Hi) in E. congruence.
Qed.

Lemma fresh_closed d : txn_inv d → is_ongoing (next_producer_id (t_prod d)) d = false.
Proof. intros Hi. rewrite ongoing_row. by destruct (inv_fresh d Hi (next_producer_id (t_prod d))) as [-> _]. Qed.

(** A new producer under the next id of the sequence. *)
Lemma inv_insert r d d' :
  txn_inv d → 0 ≤ pr_epoch r ≤ i16_max →
  (∀ id pid x, pr_transactional_id r = Some id → producer_row pid d = Some x → pr_transactional_id x ≠ Some id) →
  (∀ q, producer_row q d' = if decide (q = next_producer_id (t_prod d)) then Some r else producer_row q d) →
  (∀ q, txn_row q d' = txn_row q d) → (∀ q p, part_row q p d' = part_row q p d) →
  (∀ q, staged_of q d' = staged_of q d) → next_producer_id (t_prod d') = next_producer_id (t_prod d) + 1 →
  txn_inv d'.
Proof.
  intros Hi He Hu Hp Ht Hpt Hst Hn. destruct (inv_fresh d Hi _ (Z.le_refl _)) as [Hft Hfp].
  assert (Hon : ∀ q, is_ongoing q d' = is_ongoing q d) by (intros q; by rewrite !ongoing_row, Ht).
  split.
  - intros q p f. rewrite Hpt, Hon. apply (inv_parts d Hi).
  - intros q k s. rewrite Hst, Hon. apply (inv_staged d Hi).
  - intros q t Hq Ho. rewrite Ht in Hq. rewrite Hp. case_decide; [subst; congruence | by apply (inv_owner d Hi)].
  - intros q t x Hq. rewrite Ht in Hq. rewrite Hp. case_decide; [subst; congruence | by apply (inv_id d Hi)].
  - intros q x q' x' id. rewrite !Hp.
    destruct (decide (q = _)) as [->|], (decide (q' = _)) as [->|]; try done.
    + intros [= <-] Hx' Hid Hid'. by destruct (Hu id q' x').
    + intros Hx [= <-] Hid Hid'. by destruct (Hu id q x).
    + apply (inv_unique d Hi).
  - intros q Hq. rewrite Hn in Hq. rewrite Ht, Hp, decide_False by lia. apply (inv_fresh d Hi). lia.
  - intros q x. rewrite Hp. case_decide; [by intros [= <-] | apply (inv_epoch d Hi)].
Qed.

(** Producers without an open transaction go. *)
Lemma inv_remove d d' :
  txn_inv d →
  (∀ q, producer_row q d' = producer_row q d ∨ producer_row q d' = None ∧ is_ongoing q d = false) →
  (∀ q, txn_row q d' = txn_row q d) → (∀ q p, part_row q p d' = part_row q p d) →
  (∀ q, staged_of q d' = staged_of q d) → next_producer_id (t_prod d') = next_producer_id (t_prod d) → txn_inv d'.
Proof.
  intros Hi Hp Ht Hpt Hst Hn.
  assert (Hon : ∀ q, is_ongoing q d' = is_ongoing q d) by (intros q; by rewrite !ongoing_row, Ht).
  assert (Hsub : ∀ q r, producer_row q d' = Some r → producer_row q d = Some r)
    by (intros q r; destruct (Hp q) as [->|[-> _]]; done).
  split.
  - intros q p f. rewrite Hpt, Hon. apply (inv_parts d Hi).
  - intros q k s. rewrite Hst, Hon. apply (inv_staged d Hi).
  - intros q t Hq Ho. rewrite Ht in Hq. destruct (Hp q) as [->|[_ Hc]]; [by apply (inv_owner d Hi) |].
    rewrite ongoing_row, Hq in Hc. congruence.
  - intros q t r Hq Hr. rewrite Ht in Hq. apply (inv_id d Hi q); [done | by apply Hsub].
  - intros q r q' r' id Hr Hr'. by apply (inv_unique d Hi); apply Hsub.
  - intros q Hq. rewrite Hn in Hq. rewrite Ht. destruct (inv_fresh d Hi q Hq) as [Hf1 Hf2].
    split; [done |]. destruct (Hp q) as [->|[-> _]]; done.
  - intros q r Hr. by apply (inv_epoch d Hi q), Hsub.
Qed.

(** The rows of a closed transaction may be dropped. *)
Lemma inv_forget d d' :
  txn_inv d →
  (∀ q, txn_row q d' = txn_row q d ∨ txn_row q d' = None ∧ is_ongoing q d = false) →
  (∀ q, producer_row q d' = producer_row q d) →
  (∀ q p, part_row q p d' = part_row q p d) →
  (∀ q, staged_of q d' = staged_of q d) → next_producer_id (t_prod d') = next_producer_id (t_prod d) → txn_inv d'.
Proof.
  intros Hi Ht Hp Hpt Hst Hn.
  assert (Hon : ∀ q, is_ongoing q d' = is_ongoing q d).
  { intros q. rewrite !ongoing_row. destruct (Ht q) as [->|[-> Hc]]; [done |]. by rewrite <- ongoing_row, Hc. }
  assert (Hsub : ∀ q t, txn_row q d' = Some t → txn_row q d = Some t)
    by (intros q t; destruct (Ht q) as [->|[-> _]]; done).
  split.
  - intros q p f. rewrite Hpt, Hon. apply (inv_parts d Hi).
  - intros q k s. rewrite Hst, Hon. apply (inv_staged d Hi).
  - intros q t Hq Ho. rewrite Hp. apply (inv_owner d Hi); [by apply Hsub | done].
  - intros q t r Hq. rewrite Hp. apply (inv_id d Hi). by apply Hsub.
  - intros q r q' r' id. rewrite !Hp. apply (inv_unique d Hi).
  - intros q Hq. rewrite Hn in Hq. rewrite Hp. destruct (inv_fresh d Hi q Hq) as [Hf1 Hf2].
    split; [| done]. destruct (Ht q) as [->|[-> _]]; done.
  - intros q r. rewrite Hp. apply (inv_epoch d Hi).
Qed.

(** A producer and its closed transaction move to the next id. *)
Lemma inv_move pid r r' d d' :
  let n := next_producer_id (t_prod d) in
  txn_inv d → producer_row pid d = Some r → is_ongoing pid d = false →
  pr_transactional_id r' = pr_transactional_id r → 0 ≤ pr_epoch r' ≤ i16_max →
  (∀ q, producer_row q d' = if decide (q = n) then Some r' else if decide (q = pid) then None else producer_row q d) →
  (∀ q, txn_row q d' = if decide (q = n) then set_tx_epoch 0 <$> txn_row pid d
                       else if decide (q = pid) then None else txn_row q d) →
  (∀ q p, part_row q p d' = part_row q p d) → (∀ q, staged_of q d' = staged_of q d) →
  next_producer_id (t_prod d') = n + 1 → txn_inv d'.
Proof.
  intros n Hi Hr Hoff Hid He Hp Ht Hpt Hst Hn. pose proof (inv_known d pid r Hi Hr) as Hlt. fold n in Hlt.
  pose proof (fresh_closed d Hi) as Hc. fold n in Hc.
  assert (Hon : ∀ q, is_ongoing q d' = is_ongoing q d).
  { intros q. rewrite !ongoing_row, Ht. destruct (decide (q = n)) as [->|].
    - rewrite <- (ongoing_row n), Hc. rewrite ongoing_row in Hoff. by destruct (txn_row pid d).
    - destruct (decide (q = pid)) as [->|]; [| done]. by rewrite <- (ongoing_row pid), Hoff. }
  split.
  - intros q p f. rewrite Hpt, Hon. apply (inv_parts d Hi).
  - intros q k s. rewrite Hst, Hon. apply (inv_staged d Hi).
  - intros q t Hq Ho. assert (Hong : is_ongoing q d = true) by (rewrite <- Hon, ongoing_row; by rewrite Hq).
    rewrite Ht in Hq. rewrite Hp. repeat case_decide; subst; try congruence.
    by apply (inv_owner d Hi).
  - intros q t x. rewrite Ht, Hp. repeat case_decide; subst; try done.
    + intros (t0 & Ht0 & ->)%fmap_Some [= <-]. rewrite Hid. by apply (inv_id d Hi pid t0 r).
    + apply (inv_id d Hi).
  - intros q x q' x' id. rewrite !Hp. repeat case_decide; subst; try done.
    + intros [= <-] Hx Hi1 Hi2. rewrite Hid in Hi1. by destruct (inv_unique d Hi pid r q' x' id).
    + intros Hx [= <-] Hi1 Hi2. rewrite Hid in Hi2. by destruct (inv_unique d Hi pid r q x id).
    + apply (inv_unique d Hi).
  - intros q Hq. rewrite Hn in Hq. rewrite Ht, Hp, !decide_False by lia. apply (inv_fresh d Hi). fold n. lia.
  - intros q x. rewrite Hp. repeat case_decide; [by intros [= <-] | done | apply (inv_epoch d Hi)].
Qed.

(** The epoch of the next transaction: the pair the producer continues with,
    whose row remembers the pair that was retired. *)
Lemma bump_ok now pid committed d p d' r :
  run_sql (bump_epoch_for_next_txn now pid committed) d = (Ok p, d') →
  txn_inv d → is_ongoing pid d = false → producer_row pid d = Some r →
  txn_inv d' ∧ is_ongoing p.1 d' = false ∧
  producer_row p.1 d' = Some (mk_producer p.2 (pr_transactional_id r) (Some (pid, pr_epoch r, committed)) now) ∧
  tx_state <$> txn_row p.1 d' = tx_state <$> txn_row pid d ∧
  t_staged d' = t_staged d ∧ t_meta d' = t_meta d ∧ t_groups d' = t_groups d ∧ t_log d' = t_log d ∧
  t_topics d' = t_topics d.
Proof.
  unfold run_sql, bump_epoch_for_next_txn. intros Hb Hi Hoff Hr. change (producers (t_prod d) !! pid = Some r) in Hr.
  rewrite Hr in Hb. pose proof (inv_epoch d Hi pid r Hr) as He. pose proof (inv_known d pid r Hi Hr) as Hlt.
  destruct (Z.ltb_spec (pr_epoch r) EPOCH_CEILING) as [Hc|Hc]; injection Hb as <- <-; cbn [fst snd].
  - assert (wrap_i 16 (pr_epoch r + 1) = pr_epoch r + 1) as ->
      by (apply wrap_i16_id; unfold EPOCH_CEILING in *; int_lia).
    set (r' := mk_producer (pr_epoch r + 1) _ _ _). set (d' := on_prod _ d).
    assert (Hp : ∀ q, producer_row q d' = if decide (q = pid) then Some r' else producer_row q d).
    { intros q. unfold producer_row, d', on_prod, set_producers. cbn [t_prod producers].
      destruct (decide (q = pid)) as [->|]; [by rewrite lookup_insert_eq | by rewrite lookup_insert_ne]. }
    split; [| split; [done |]; split; [by rewrite Hp, decide_True | done]].
    apply (inv_producer pid r r' d); try done; [| by rewrite Hoff].
    unfold r'. cbn. unfold EPOCH_CEILING in *. lia.
  - unfold move_to_fresh_id. set (n := next_producer_id (t_prod d)) in *. set (r' := mk_producer 0 _ _ _). set (d' := on_prod _ d).
    assert (Hp : ∀ q, producer_row q d' = if decide (q = n) then Some r' else if decide (q = pid) then None else producer_row q d).
    { intros q. unfold producer_row, d', on_prod. cbn [t_prod producers].
      destruct (decide (q = n)) as [->|]; [by rewrite lookup_insert_eq | rewrite lookup_insert_ne by done].
      destruct (decide (q = pid)) as [->|]; [by rewrite lookup_delete_eq | by rewrite lookup_delete_ne]. }
    destruct (inv_fresh d Hi n (Z.le_refl _)) as [Hft Hfp].
    assert (Ht : ∀ q, txn_row q d' = if decide (q = n) then set_tx_epoch 0 <$> txn_row pid d
                       else if decide (q = pid) then None else txn_row q d).
    { intros q. unfold txn_row, d', on_prod in *. cbn [t_prod txns]. destruct (txns (t_prod d) !! pid) as [t|] eqn:Et.
      - destruct (decide (q = n)) as [->|]; [by rewrite lookup_insert_eq | rewrite lookup_insert_ne by done].
        destruct (decide (q = pid)) as [->|]; [by rewrite lookup_delete_eq | by rewrite lookup_delete_ne].
      - destruct (decide (q = n)) as [->|]; [done |]. destruct (decide (q = pid)) as [->|]; done. }
    assert (Hi' : txn_inv d') by (apply (inv_move pid r r' d); try done; unfold r'; cbn; int_lia).
    split; [done |]. split; [| split; [by rewrite Hp, decide_True |]; split; [| done]].
    + rewrite ongoing_row, Ht, decide_True by done. rewrite ongoing_row in Hoff. by destruct (txn_row pid d).
    + rewrite Ht, decide_True by done. by destruct (txn_row pid d).
Qed.

End Producers.

(** ** EndTxn *)

Section EndTxnSpec.

Context {L : Type} {store : LogStore L} {laws : LogStoreLaws L}.
Variable crc32c : bytes → Z.
Variables (clock : Clock) (tv version : Z) (req : EndTxnRequest).
Implicit Types d : TxDb L.

Abbreviation pid := (er_producer_id req).
Abbreviation finish := (finish_transaction crc32c (db_now clock) pid (er_producer_epoch req) (er_committed req)).

(** What EndTxn did: answered only, ended with another's outcome, or closed
    the transaction and moved on. *)
Lemma end_verified_cases d r d' :
  end_verified crc32c clock tv version req d = (Ok r, d') →
  (d' = d ∧ (rotating tv version = true → ep_error r ≠ ErrorCode.NoError)) ∨
  current_pair (er_transactional_id req) pid (er_producer_epoch req) d ∧
  ∃ f d1, finish d = (Ok f, d1) ∧
    (f = Overridden ∧ d' = d1 ∧ r = unchanged req ErrorCode.InvalidProducerEpoch ∨
     f = Ended ∧ rotate clock tv version req d1 = (Ok r, d') ∨
     (∃ last, f = NotOpen last) ∧ rotating tv version = true ∧ er_committed req = false ∧
       rotate clock tv version req (end_txn pid TxnAborted d1) = (Ok r, d')).
Proof.
  unfold end_verified. unfold bind at 1, gets.
  destruct (verdict _ _ _ d) as [a|v] eqn:Ev; [| intros [= <- <-]; left; split; [done |]; intros _; by destruct v; cbn; try case_match].
  apply verdict_ok in Ev as [_ Hc]. unfold bind at 1. destruct (finish d) as [[f|e] d1] eqn:Ef; [| done].
  pose proof (finish_transaction_ok _ _ _ _ _ _ _ _ Ef) as Hok. destruct f as [| |last|].
  - subst d1. intros [= <- <-]. by left.
  - intros Hr. right. split; [done |]. exists Ended, d1. eauto.
  - subst d1. destruct (rotating tv version) eqn:Er; cbn [negb]; [| intros [= <- <-]; by left].
    destruct (er_committed req) eqn:Ecm; [intros [= <- <-]; by left |]. unfold bind, modify. intros Hr.
    right. split; [done |]. exists (NotOpen last), d. split; [done |]. right. right. eauto.
  - intros [= <- <-]. right. split; [done |]. exists Overridden, d1. eauto.
Qed.

Lemma end_closed_inv q s d :
  txn_inv d → is_ongoing q d = false → s ≠ TxnOngoing →
  txn_inv (end_txn q s d) ∧ is_ongoing q (end_txn q s d) = false.
Proof.
  intros Hi Hoff Hs. destruct (txn_row q d) as [t|] eqn:Et.
  - assert (Hc : tx_ongoing (end_row s t) = false) by (unfold tx_ongoing; by apply bool_decide_eq_false).
    split; [| by rewrite ongoing_row, txn_row_end, decide_True, Et].
    apply (inv_txn q (end_row s t) d); try done.
    + intros q'. rewrite txn_row_end. case_decide; [subst; by rewrite Et | done].
    + destruct (Z.lt_ge_cases q (next_producer_id (t_prod d))) as [|Hge]; [done |].
      destruct (inv_fresh d Hi q Hge). congruence.
    + intros r Hr. by apply (inv_id d Hi q t).
    + congruence.
    + intros _. exact (closed_rows q d Hi Hoff).
  - assert (Hrow : ∀ q', txn_row q' (end_txn q s d) = txn_row q' d).
    { intros q'. rewrite txn_row_end. case_decide; [subst; by rewrite Et | done]. }
    split; [by apply (inv_same d) | by rewrite ongoing_row, Hrow, <- ongoing_row].
Qed.

(** After a closed transaction the epoch rotates, or the pair stays. *)
Lemma rotate_ok d r d' :
  rotate clock tv version req d = (Ok r, d') → txn_inv d → is_ongoing pid d = false →
  current_pair (er_transactional_id req) pid (er_producer_epoch req) d →
  txn_inv d' ∧ ep_error r = ErrorCode.NoError ∧ is_ongoing (ep_producer_id r) d' = false ∧
  tx_state <$> txn_row (ep_producer_id r) d' = tx_state <$> txn_row pid d ∧
  t_staged d' = t_staged d ∧ t_meta d' = t_meta d ∧ t_groups d' = t_groups d ∧ t_log d' = t_log d ∧
  if rotating tv version then
    ∃ ts, producer_row (ep_producer_id r) d' = Some (mk_producer (ep_producer_epoch r)
      (Some (er_transactional_id req)) (Some (pid, er_producer_epoch req, er_committed req)) ts)
  else d' = d ∧ r = unchanged req ErrorCode.NoError.
Proof.
  unfold rotate. destruct (rotating tv version); [| by intros [= <- <-]]. intros Hr Hi Hoff (_ & x & Hx & Hid & He).
  unfold bind in Hr. destruct (run_sql _ d) as [[p|e] d1] eqn:Eb; [| done]. injection Hr as <- <-.
  destruct (bump_ok _ _ _ _ _ _ x Eb Hi Hoff Hx) as (Hi' & Hoff' & Hrow & Hst & H1 & H2 & H3 & H4 & H5).
  rewrite Hid, He in Hrow. cbn [ep_error ep_producer_id ep_producer_epoch]. repeat (split; [done |]). by exists (db_now clock).
Qed.

(** A closed transaction leaves the producer's row, so the pair is current. *)
Lemma finish_pair d f d1 id epoch :
  finish d = (Ok f, d1) → f ≠ Overridden → current_pair id pid epoch d → current_pair id pid epoch d1.
Proof.
  intros Hf Hne (Hid & x & Hx & Hrest). apply finish_transaction_ok in Hf. split; [done |]. exists x. split; [| done].
  destruct f as [| |last|]; [by subst | | by subst | done].
  destruct Hf as (t & d2 & _ & _ & _ & _ & _ & _ & Hp & Hd). rewrite decide_True in Hd by done. subst d1.
  unfold producer_row. by rewrite Hp.
Qed.

Lemma handle_end_txn_cases d r d' :
  handle_end_txn crc32c clock tv version req d = (Ok r, d') →
  d' = d ∨ end_verified crc32c clock tv version req d = (Ok r, d').
Proof.
  unfold handle_end_txn. case_decide; [intros [= <- <-]; by left |].
  destruct (rotating tv version); [| by right]. unfold bind at 1, gets.
  destruct (completed_retry _ _ _ _ d); [intros [= <- <-]; by left.. | by right].
Qed.

(** What closing and rotating establish. *)
Lemma end_verified_inv d r d' :
  end_verified crc32c clock tv version req d = (Ok r, d') → txn_inv d → txn_inv d' ∧
  (ep_error r = ErrorCode.NoError → rotating tv version = true →
     is_ongoing (ep_producer_id r) d' = false ∧
     ∃ ts, producer_row (ep_producer_id r) d' = Some (mk_producer (ep_producer_epoch r)
       (Some (er_transactional_id req)) (Some (pid, er_producer_epoch req, er_committed req)) ts)).
Proof.
  intros He Hi. apply end_verified_cases in He as [[-> Hc]|[Hc (f & d1 & Hf & Hcases)]].
  { split; [done |]. intros Herr Hrot. by destruct (Hc Hrot). }
  destruct (finish_inv _ _ _ _ _ _ _ _ Hi Hf) as (Hi1 & _ & _ & Hcl).
  assert (Hoff : is_ongoing pid d1 = false) by (apply Hcl; destruct Hc as (_ & x & -> & _ & <-); intros ? [= <-]; lia).
  destruct Hcases as [(-> & -> & ->)|[[-> Hr]|((last & ->) & Hrot & _ & Hr)]]; [done | |].
  - apply (finish_pair d Ended d1) in Hc; [| done..].
    destruct (rotate_ok _ _ _ Hr Hi1 Hoff Hc) as (Hi' & _ & Ho & _ & _ & _ & _ & _ & Hrow).
    split; [done |]. intros _ Hrot. by rewrite Hrot in Hrow.
  - apply (finish_pair d (NotOpen last) d1) in Hc; [| done..]. destruct (end_closed_inv pid TxnAborted d1 Hi1 Hoff) as [Hi2 Hoff2]; [done |].
    destruct (rotate_ok _ _ _ Hr Hi2 Hoff2 Hc) as (Hi' & _ & Ho & _ & _ & _ & _ & _ & Hrow).
    split; [done |]. intros _ _. by rewrite Hrot in Hrow.
Qed.

Lemma handle_end_txn_inv d r d' :
  handle_end_txn crc32c clock tv version req d = (Ok r, d') → txn_inv d → txn_inv d'.
Proof.
  intros He Hi. apply handle_end_txn_cases in He as [->|He]; [done |]. by apply (end_verified_inv d r).
Qed.

(** The row that remembers the retired pair is the only one a retry finds. *)
Lemma completed_retry_found d id row c :
  txn_inv d → producer_row id d = Some row → pr_transactional_id row = Some (er_transactional_id req) →
  pr_retired row = Some (pid, er_producer_epoch req, c) → is_ongoing id d = false →
  completed_retry (er_transactional_id req) pid (er_producer_epoch req) (er_committed req) d =
    if Bool.eqb c (er_committed req) then RetryOf id (pr_epoch row) else OutcomeMismatch.
Proof.
  intros Hi Hr Hid Hret Hoff. unfold completed_retry.
  destruct (list_find _ _) as [[i [q x]]|] eqn:E.
  - apply list_find_Some in E as (Hl & (Hq & _ & _) & _). apply list_elem_of_lookup_2, elem_of_map_to_list in Hl.
    assert (q = id) as -> by (by apply (inv_unique d Hi q x id row (er_transactional_id req))).
    assert (x = row) as -> by (unfold producer_row in Hr; congruence). by rewrite Hret.
  - apply list_find_None in E. rewrite Forall_forall in E. destruct (E (id, row)).
    + by apply elem_of_map_to_list.
    + split; [done |]. split; [done |]. cbn. by rewrite Hret.
Qed.

Lemma completed_retry_open d :
  txn_inv d → current_pair (er_transactional_id req) pid (er_producer_epoch req) d → is_ongoing pid d = true →
  completed_retry (er_transactional_id req) pid (er_producer_epoch req) (er_committed req) d = RetryNo.
Proof.
  intros Hi (_ & r & Hr & Hid & _) Hon. unfold completed_retry. destruct (list_find _ _) as [[i [q x]]|] eqn:E; [| done].
  apply list_find_Some in E as (Hl & (Hq & Hoff & _) & _). apply list_elem_of_lookup_2, elem_of_map_to_list in Hl.
  assert (q = pid) as -> by (by apply (inv_unique d Hi q x pid r (er_transactional_id req))).
  cbn in Hoff. congruence.
Qed.

End EndTxnSpec.

(** ** WriteTxnMarkers, expiry and InitProducerId *)

Section Sweeps.

Context {L : Type} {store : LogStore L} {laws : LogStoreLaws L}.
Variable crc32c : bytes → Z.
Implicit Types d : TxDb L.

Lemma inv_same_tables d d' : txn_inv d → same_tables d d' → txn_inv d'.
Proof.
  intros Hi (Hp & Hs & _ & _ & _ & Hm).
  apply (inv_same d); try done; intros; unfold txn_row, producer_row, staged_of, part_row, open_txns;
    by rewrite ?Hp, ?Hs, ?Hm.
Qed.

Lemma has_partitions_none q d : has_partitions q d = false → ∀ p, part_row q p d = None.
Proof.
  unfold has_partitions, part_row, open_txns. intros Hf p.
  destruct (txn_parts (t_meta d) !! p) as [m|] eqn:E; cbn; [| done].
  destruct (m !! q) as [first|] eqn:Eq; [| done]. exfalso.
  assert (Ht : existsb (λ e : Z * Z * gmap Z Z, bool_decide (is_Some (e.2 !! q)))
    (map_to_list (txn_parts (t_meta d))) = true); [| congruence].
  apply existsb_exists. exists (p, m). split; [by apply list_elem_of_In, elem_of_map_to_list |].
  cbn. apply bool_decide_eq_true. by rewrite Eq.
Qed.

(** The last partition of a transaction closes it. *)
Lemma close_last_inv now q c d e d' :
  txn_inv d → is_ongoing q d = true → (∀ p, part_row q p d = None) →
  fence q (end_txn q (ended_state c) (delete_staged q (if c then commit_staged now q d else d))) = (Ok e, d') →
  txn_inv d' ∧ is_ongoing q d' = false.
Proof.
  intros Hi Hon Hnone Hf. set (d1 := end_txn _ _ _) in Hf.
  rewrite ongoing_row in Hon. destruct (txn_row q d) as [t|] eqn:Et; [| done].
  assert (Hrow : ∀ q', txn_row q' d1 = if decide (q' = q) then Some (end_row (ended_state c) t) else txn_row q' d).
  { intros q'. unfold d1. rewrite txn_row_end.
    change (txn_row q' (delete_staged q ?x)) with (txn_row q' x).
    destruct c; (case_decide; [subst | done]); [change (txn_row q (commit_staged now q d)) with (txn_row q d) |]; by rewrite Et. }
  assert (Hi1 : txn_inv d1).
  { apply (inv_txn q (end_row (ended_state c) t) d); try done; try (by unfold d1; destruct c).
    - intros q' Hq'. unfold d1. rewrite staged_of_end, staged_of_delete, decide_False by done. by destruct c.
    - destruct (Z.lt_ge_cases q (next_producer_id (t_prod d))) as [|Hge]; [done |].
      destruct (inv_fresh d Hi q Hge). congruence.
    - intros r Hr. by apply (inv_id d Hi q t).
    - intros _. split.
      + intros p. unfold d1. destruct c; exact (Hnone p).
      + unfold d1. by rewrite staged_of_end, staged_of_delete, decide_True. }
  assert (Hc1 : is_ongoing q d1 = false) by (rewrite ongoing_row, Hrow, decide_True by done; by destruct c).
  destruct (fence_ok q d1 e d' Hf Hi1 Hc1) as (Hi' & Ht & _). split; [done |]. by rewrite ongoing_row, Ht, <- ongoing_row.
Qed.

Lemma finish_partition_inv now q epoch p c d code d' :
  finish_partition crc32c now q epoch p c d = (Ok code, d') → txn_inv d → txn_inv d'.
Proof.
  unfold finish_partition. destruct (txn_row q d) as [t|] eqn:Et; [| by intros [= _ <-]].
  destruct (part_row q p d) as [first|] eqn:Ep; [| by intros [= _ <-]].
  destruct (tx_ongoing t) eqn:Eo; cbn [negb]; [| by intros [= _ <-]].
  case_match eqn:Eep; [by intros [= _ <-] |]. unfold bind at 1.
  destruct (append_marker _ _ _ _ _ _ d) as [[[]|e] d1] eqn:E1; [| done]. apply append_marker_ok in E1 as (Hst & _ & _).
  intros H Hi. pose proof (inv_same_tables d d1 Hi Hst) as Hi1.
  assert (Hon1 : is_ongoing q d1 = true).
  { rewrite ongoing_row. unfold txn_row in *. destruct Hst as [-> _]. by rewrite Et. }
  unfold modify at 1 in H. unfold bind at 1 in H. set (d2 := on_meta _ d1) in H.
  destruct (inv_stage q d1 d2) as [Hi2 Hon2]; try done.
  { intros q' p' Hq. apply (part_row_other q p (delete q)); [| done]. intros m Hm. by rewrite lookup_delete_ne. }
  unfold modify at 1 in H. unfold bind at 1 in H. set (d3 := update_txns _ d2) in H.
  destruct (inv_row q (force c) d2) as [Hi3 Hon3]; [done | by intros [] |]. fold d3 in Hi3, Hon3.
  unfold gets, bind at 1 in H. destruct (has_partitions q d3) eqn:Eh; [by injection H as _ <- |].
  unfold modify in H. do 3 (unfold bind at 1 in H). unfold bind in H.
  destruct (fence q _) as [[e|e] d4] eqn:Ef; [| done]. injection H as _ <-.
  apply (close_last_inv now q c d3 e) in Ef; [by apply Ef | done | by rewrite Hon3 | by apply has_partitions_none].
Qed.

Lemma mark_one_inv now q epoch topic part c d code d' :
  mark_one crc32c now q epoch topic part c d = (Ok code, d') → txn_inv d → txn_inv d'.
Proof. unfold mark_one. repeat case_match; try (by intros [= _ <-]). apply finish_partition_inv. Qed.

Lemma expire_one_inv clock q d n d' :
  expire_one crc32c clock q d = (Ok n, d') → txn_inv d → txn_inv d'.
Proof.
  unfold expire_one. unfold bind at 1, gets. destruct (txn_row q d) as [t|] eqn:Et; [| by intros [= _ <-]].
  case_match eqn:Ex; [| by intros [= _ <-]]. unfold bind at 1.
  destruct (finish_transaction _ _ _ _ _ d) as [[f|e] d1] eqn:Ef; [| done]. intros H Hi.
  pose proof (finish_transaction_ok _ _ _ _ _ _ _ _ Ef) as Hok.
  destruct (finish_inv _ _ _ _ _ _ _ _ Hi Ef) as (Hi1 & _ & _ & Hcl).
  destruct f as [| |last|]; try (by injection H as _ <-). unfold bind in H.
  destruct (fence q d1) as [[e|e] d2] eqn:E2; [| done]. injection H as _ <-.
  apply (fence_ok q d1 e d2) in E2; [by apply E2 | done |]. apply Hcl.
  by destruct Hok as (t' & d3 & _ & _ & He & _).
Qed.

Lemma expire_each_inv clock l n0 d n d' :
  expire_each crc32c clock l n0 d = (Ok n, d') → txn_inv d → txn_inv d'.
Proof.
  revert d n0. induction l as [|e l IH]; intros d n0; [by intros [= _ <-] |]. cbn [expire_each]. unfold bind.
  destruct (expire_one _ _ _ d) as [[k|?] d1] eqn:E; [| done]. intros H Hi. apply (IH d1 (n0 + k)); [done |].
  by apply (expire_one_inv clock e.1 d k).
Qed.

Lemma fence_raises q d e d' : fence q d = (Err (Returned e), d') → False.
Proof. unfold fence. destruct (producer_row q d); [| done]. by destruct (smallint_succ _). Qed.

(** A marker that is refused by the store leaves the tables. *)
Lemma mark_one_err now q epoch topic part c d e d' :
  mark_one crc32c now q epoch topic part c d = (Err (Returned e), d') → txn_inv d → txn_inv d'.
Proof.
  unfold mark_one. repeat case_match; try done. unfold finish_partition.
  destruct (txn_row q d); [| done]. destruct (part_row q _ d); [| done].
  destruct (tx_ongoing _); cbn [negb]; [| done]. case_match eqn:Eep; [done |]. unfold bind at 1.
  destruct (append_marker _ _ _ _ _ _ d) as [[[]|x] d1] eqn:E1.
  - unfold modify at 1. do 2 (unfold bind at 1). unfold modify at 1, gets. do 1 (unfold bind at 1).
    destruct (has_partitions _ _); [done |]. unfold modify. do 3 (unfold bind at 1). unfold bind.
    destruct (fence q _) as [[?|x] d2] eqn:Ef; [done |]. intros [= -> ->]. destruct (fence_raises _ _ _ _ Ef).
  - intros [= _ <-] Hi. revert E1. unfold append_marker. destruct (batch_new _); [| by intros [= _ <-]].
    destruct (append _ _ _) as [[?|?] l]; [done |]. intros [= _ <-]. by apply (inv_same d).
Qed.

Lemma collect_inv {A B} (f : A → ST (TxDb L) Failure B) l d bs d' :
  (∀ a d b d', f a d = (Ok b, d') → txn_inv d → txn_inv d') →
  collect f l d = (Ok bs, d') → txn_inv d → txn_inv d'.
Proof.
  intros Hf. revert d bs. induction l as [|a l IH]; intros d bs; cbn [collect]; [by intros [= _ <-] |].
  unfold bind. destruct (f a d) as [[b|?] d1] eqn:E1; [| done].
  destruct (collect f l d1) as [[bs'|?] d2] eqn:E2; [| done]. intros [= _ <-] Hi.
  apply (IH d1 bs'); [done |]. by apply (Hf a d b).
Qed.

Lemma write_txn_markers_inv now acls who ms d r d' :
  write_txn_markers crc32c now acls who ms d = (Ok r, d') → txn_inv d → txn_inv d'.
Proof.
  unfold write_txn_markers. destruct (check_nested_len _ _ _ _); [| done]. apply collect_inv.
  intros m d1 b d2. unfold bind at 1. destruct (collect _ (mk_topics m) d1) as [[ts|?] d3] eqn:E; [| done].
  intros [= _ <-]. revert E. apply collect_inv. clear -laws.
  intros t d1 b d2. unfold bind at 1.
  destruct (collect _ t.2 d1) as [[ts|?] d3] eqn:E; [| done]. intros [= _ <-]. revert E. apply collect_inv. clear -laws.
  intros p d1 b d2. unfold bind. destruct (Acl.check _ _ _ _ _); [| by intros [= _ <-]].
  unfold or_server_error. destruct (mark_one _ _ _ _ _ _ _ d1) as [[code|[e|]] d3] eqn:E; [| | done];
    intros [= _ <-]; [by apply (mark_one_inv _ _ _ _ _ _ _ _ _ E) | by apply (mark_one_err _ _ _ _ _ _ _ _ _ E)].
Qed.

(** ** InitProducerId *)

Lemma abandoned_elem id d q e :
  (q, e) ∈ abandoned id d ↔
    ∃ t, txn_row q d = Some t ∧ tx_transactional_id t = id ∧ tx_state t = TxnOngoing ∧
      match producer_row q d with
      | None => e = wrap_i 16 (tx_epoch t)
      | Some r => pr_transactional_id r = Some id ∧ e = wrap_i 16 (pr_epoch r)
      end.
Proof.
  unfold abandoned. rewrite merge_sort_Permutation, list_elem_of_omap. unfold txn_row. split.
  - intros ([q' t] & Hin%elem_of_map_to_list & Hf). cbv beta iota in Hf.
    destruct (decide (tx_transactional_id t = id ∧ tx_state t = TxnOngoing)) as [[Hid Hs]|]; [| done].
    destruct (producer_row q' d) as [r|] eqn:Er; [destruct (decide (pr_transactional_id r = Some id)); [| done] |];
      injection Hf as <- <-; exists t; rewrite Er; done.
  - intros (t & Ht & Hid & Hs & Hr). exists (q, t). split; [by apply elem_of_map_to_list |]. cbv beta iota.
    rewrite decide_True by done. destruct (producer_row q d) as [r|]; [destruct Hr as [Hr ->]; by rewrite decide_True | by subst].
Qed.

Lemma abandoned_nodup id d : NoDup (abandoned id d).*1.
Proof.
  unfold abandoned. rewrite merge_sort_Permutation.
  eapply sublist_NoDup; [| apply omap_keys_sublist]; [apply NoDup_fst_map_to_list |].
  intros [q t] r. cbn. repeat case_match; try done; by intros [= <-].
Qed.

Lemma abort_abandoned_inv now id d d' :
  abort_abandoned crc32c now id d = (Ok tt, d') → txn_inv d →
  txn_inv d' ∧ only_ends d d' ∧
  ∀ q t, txn_row q d' = Some t → tx_transactional_id t = id → tx_ongoing t = false.
Proof.
  unfold abort_abandoned, bind, gets. intros H Hi.
  apply finish_each_inv in H as (Hi' & Ho & Hall); [| done | apply abandoned_nodup].
  split; [done |]. split; [done |]. intros q t Ht Hid.
  destruct (tx_ongoing t) eqn:Eon; [| done]. exfalso.
  assert (Hq : txn_row q d = Some t).
  { destruct Ho as [Hrow _]. destruct (Hrow q) as [Hrow'|(t0 & s & _ & Hs & Ht')]; [congruence |].
    rewrite Ht in Ht'. injection Ht' as ->. unfold tx_ongoing in Eon. by apply bool_decide_eq_true in Eon. }
  destruct (inv_owner d Hi q t Hq Eon) as (r & Hr & He). pose proof (inv_epoch d Hi q r Hr).
  assert (Hin : (q, pr_epoch r) ∈ abandoned id d).
  { apply abandoned_elem. exists t. rewrite Hr. split; [done |]. split; [done |].
    split; [by apply bool_decide_eq_true in Eon |]. split; [rewrite <- Hid; by apply (inv_id d Hi q) |].
    symmetry. apply wrap_i16_id. int_lia. }
  apply Hall in Hin; [rewrite ongoing_row, Ht in Hin; congruence |].
  intros r' Hr'. assert (r' = r) as -> by congruence. lia.
Qed.

(** Drawing a pair: the row the transactional id has then, at a new epoch. *)
Lemma run_init_ok now o d p d' :
  run_sql (init_producer_id now o) d = (Ok p, d') → txn_inv d →
  (∀ id q t, o = Some id → txn_row q d = Some t → tx_transactional_id t = id → tx_ongoing t = false) →
  txn_inv d' ∧ (∀ q, txn_row q d' = txn_row q d) ∧
  (∃ r, producer_row p.1 d' = Some r ∧ pr_epoch r = p.2 ∧ pr_transactional_id r = o) ∧
  (∀ q r, producer_row q d = Some r → pr_transactional_id r = o → o ≠ None → p = (q, pr_epoch r + 1)).
Proof.
  unfold run_sql, init_producer_id. intros H Hi Hcl. destruct (inv_fresh d Hi _ (Z.le_refl _)) as [Hft Hfp].
  assert (Hins : ∀ d', (∀ q, producer_row q d' = if decide (q = next_producer_id (t_prod d))
      then Some (mk_producer 0 o None now) else producer_row q d) → t_prod d' =
      mk_db (producers (t_prod d')) (batches (t_prod d)) (txns (t_prod d)) (epoch_starts (t_prod d)) (next_producer_id (t_prod d) + 1) →
      t_meta d' = t_meta d → t_staged d' = t_staged d →
      (∀ q r, producer_row q d = Some r → pr_transactional_id r = o → o = None) → txn_inv d').
  { intros d2 Hp Ht Hm Hs Hno. apply (inv_insert (mk_producer 0 o None now) d d2); try done.
    - cbn. intros id q x -> Hx Hxid. by specialize (Hno q x Hx Hxid).
    - intros q. unfold txn_row. by rewrite Ht.
    - intros q pp. unfold part_row. by rewrite Hm.
    - intros q. unfold staged_of. by rewrite Hs.
    - by rewrite Ht. }
  assert (Hlook : ∀ (m : gmap Z ProducerRow) x q, <[next_producer_id (t_prod d) := x]> m !! q =
    if decide (q = next_producer_id (t_prod d)) then Some x else m !! q).
  { intros m x q. case_decide; [subst; by rewrite lookup_insert_eq | by rewrite lookup_insert_ne]. }
  destruct o as [id|].
  - pose proof (find_transactional_spec id (t_prod d)) as Hfind.
    destruct (find_transactional id (t_prod d)) as [[q r]|].
    + destruct Hfind as [Hr Hid]. unfold smallint_succ in H.
      destruct (Z.ltb_spec (pr_epoch r) i16_max) as [He|]; [| done]. injection H as <- <-. cbn [fst snd].
      set (r' := mk_producer (pr_epoch r + 1) _ _ _). set (d2 := on_prod _ d).
      assert (Hp : ∀ q', producer_row q' d2 = if decide (q' = q) then Some r' else producer_row q' d).
      { intros q'. unfold producer_row, d2, on_prod. cbn [t_prod producers].
        case_decide; [subst; by rewrite lookup_insert_eq | by rewrite lookup_insert_ne]. }
      pose proof (inv_epoch d Hi q r Hr). split; [| split; [done |]; split].
      * apply (inv_producer q r r' d d2); try done; [unfold r'; cbn; lia | | unfold d2; cbn; lia].
        rewrite ongoing_row. destruct (txn_row q d) as [t|] eqn:Et; [| done].
        rewrite (Hcl id q t eq_refl Et); [done |].
        pose proof (inv_id d Hi q t r Et Hr) as Hx. congruence.
      * exists r'. by rewrite Hp, decide_True.
      * intros q' x Hx Hxid _. assert (q' = q) as -> by (by apply (inv_unique d Hi q' x q r id)).
        assert (x = r) as -> by (unfold producer_row in Hx; congruence). done.
    + injection H as <- <-. cbn [fst snd]. split; [| split; [done |]; split].
      * apply Hins; try done; [intros q; apply Hlook |]. intros q r Hr Hid. by destruct (Hfind q r).
      * eexists. split; [unfold producer_row, on_prod; cbn [t_prod producers]; by rewrite lookup_insert_eq | done].
      * intros q r Hr Hid. by destruct (Hfind q r).
  - injection H as <- <-. cbn [fst snd]. split; [| split; [done |]; split; [| done]].
    * apply Hins; try done. intros q. apply Hlook.
    * eexists. split; [unfold producer_row, on_prod; cbn [t_prod producers]; by rewrite lookup_insert_eq | done].
Qed.

(** Deleting what closed transactions staged deletes nothing. *)
Lemma delete_closed gone d :
  txn_inv d → (∀ q, q ∈ gone → is_ongoing q d = false) →
  let d' := foldl (λ d q, delete_staged q (delete_parts q d)) d gone in
  t_prod d' = t_prod d ∧ (∀ q p, part_row q p d' = part_row q p d) ∧ (∀ q, staged_of q d' = staged_of q d).
Proof.
  revert d. induction gone as [|g gone IH]; intros d Hi Hc; [done |]. cbn [foldl].
  set (d1 := delete_staged g (delete_parts g d)).
  destruct (closed_rows g d Hi) as [Hg1 Hg2]; [apply Hc; by left |].
  assert (Hpt : ∀ q p, part_row q p d1 = part_row q p d).
  { intros q p. change (part_row q p d1) with (part_row q p (delete_parts g d)). rewrite part_row_delete_parts.
    case_decide; [subst; by rewrite Hg1 | done]. }
  assert (Hst : ∀ q, staged_of q d1 = staged_of q d).
  { intros q. unfold d1. rewrite staged_of_delete. change (staged_of q (delete_parts g d)) with (staged_of q d).
    case_decide; [subst; by rewrite Hg2 | done]. }
  assert (Hi1 : txn_inv d1) by (by apply (inv_same d)).
  destruct (IH d1 Hi1) as (H1 & H2 & H3); [intros q Hq; apply Hc; by right |].
  split; [done |]. split; [intros q p; by rewrite H2 | intros q; by rewrite H3].
Qed.

Lemma drop_superseded_inv id pid d :
  txn_inv d → let d' := drop_superseded id pid d in
  txn_inv d' ∧ (∀ q, producer_row q d' = producer_row q d) ∧
  ∀ q t, txn_row q d' = Some t ↔ txn_row q d = Some t ∧ ¬ superseded_row id pid (q, t).
Proof.
  intros Hi d'. unfold d', drop_superseded. set (gone := fst <$> _).
  destruct (delete_closed gone d Hi) as (Hp & Hpt & Hst).
  { intros q ([q' t] & -> & Hin)%list_elem_of_fmap. apply elem_of_map_to_list, map_lookup_filter_Some in Hin as [Ht (_ & _ & Hs)].
    cbn. rewrite ongoing_row. unfold txn_row. rewrite Ht. by apply bool_decide_eq_false. }
  set (d1 := foldl _ d gone) in *.
  assert (Hrow : ∀ q t, txn_row q (update_txns (filter (λ e, ¬ superseded_row id pid e)) d1) = Some t ↔
    txn_row q d = Some t ∧ ¬ superseded_row id pid (q, t)).
  { intros q t. rewrite txn_row_update, Hp, map_lookup_filter_Some. done. }
  split; [| split; [intros q; unfold producer_row; cbn; by rewrite Hp | done]].
  apply (inv_forget d); try done; try (intros q; unfold producer_row; cbn; by rewrite Hp).
  - intros q. destruct (txn_row q d) as [t|] eqn:Et.
    + destruct (decide (superseded_row id pid (q, t))) as [Hs|Hs].
      * right. split; [| rewrite ongoing_row, Et; apply bool_decide_eq_false; apply Hs].
        destruct (txn_row q (update_txns _ d1)) as [t'|] eqn:E'; [| done]. apply Hrow in E' as [E' Hn].
        rewrite Et in E'. injection E' as <-. done.
      * left. by apply Hrow.
    + left. destruct (txn_row q (update_txns _ d1)) as [t'|] eqn:E'; [| done]. apply Hrow in E' as [E' _]. congruence.
  - cbn. by rewrite Hp.
Qed.

(** After InitProducerId of a transactional id, its pair is the only one with a
    transaction row, and nothing is open under it. *)
Lemma handle_init_ok clock acls who id timeout d r d' :
  handle_init_producer_id crc32c clock acls who (Some id) timeout d = (Ok r, d') →
  txn_inv d → id ≠ ""%string → is_ok (Acl.check acls who IdempotentWrite Cluster "kafka-cluster") = true →
  txn_inv d' ∧
  (∃ x, producer_row (ir_producer_id r) d' = Some x ∧ pr_transactional_id x = Some id ∧ pr_epoch x = ir_producer_epoch r) ∧
  (∀ q t, txn_row q d' = Some t → tx_transactional_id t = id →
     q = ir_producer_id r ∧ tx_state t = TxnEmpty ∧ tx_epoch t = ir_producer_epoch r) ∧
  (∃ d1, abort_abandoned crc32c (db_now clock) id d = (Ok tt, d1) ∧
    ∀ q x, producer_row q d1 = Some x → pr_transactional_id x = Some id →
      ir_producer_id r = q ∧ ir_producer_epoch r = pr_epoch x + 1).
Proof.
  unfold handle_init_producer_id. destruct (Acl.check _ _ _ _ _) as [[]|code]; [| done].
  cbn [mbind option_bind]. intros H Hi Hid _. rewrite decide_False in H by done.
  unfold bind at 1 in H. destruct (abort_abandoned _ _ _ d) as [[[]|e] d1] eqn:E1; [| done].
  destruct (abort_abandoned_inv _ _ _ _ E1 Hi) as (Hi1 & _ & Hcl).
  unfold bind at 1 in H. destruct (run_sql _ d1) as [[p|e] d2] eqn:E2; [| done].
  destruct (run_init_ok _ _ _ _ _ E2 Hi1) as (Hi2 & Ht2 & (x & Hx & Hxe & Hxid) & Hnext).
  { intros id' q t [= <-]. apply Hcl. }
  unfold modify, bind in H. injection H as <- <-. cbn [ir_error ir_producer_id ir_producer_epoch].
  destruct (drop_superseded_inv id p.1 d2 Hi2) as (Hi3 & Hp3 & Ht3). set (d3 := drop_superseded id p.1 d2) in *.
  assert (Hoff : ∀ t, txn_row p.1 d3 = Some t → tx_ongoing t = false ∧ tx_transactional_id t = id).
  { intros t [Ht _]%Ht3. rewrite Ht2 in Ht.
    assert (Some id = Some (tx_transactional_id t)) as [= Hti].
    { rewrite <- Hxid. apply (inv_id d2 Hi2 p.1 t x); [by rewrite Ht2 | done]. }
    split; [| done]. by apply (Hcl p.1). }
  set (row := initialised clock p.2 (Z.min MAX_TRANSACTION_TIMEOUT_MS (Z.max 1000 timeout)) id (txns (t_prod d3) !! p.1)).
  assert (Hrow : tx_ongoing row = false ∧ tx_state row = TxnEmpty ∧ tx_epoch row = p.2 ∧ tx_transactional_id row = id).
  { unfold row. fold (txn_row p.1 d3). destruct (txn_row p.1 d3) as [t|]; [| done]. destruct (Hoff t eq_refl) as [Ho Hti].
    unfold initialised, tx_ongoing at 1. cbn. by rewrite Ho. }
  destruct Hrow as (Hro & Hrs & Hre & Hri). set (d4 := update_txns _ d3).
  assert (Ht4 : ∀ q, txn_row q d4 = if decide (q = p.1) then Some row else txn_row q d3).
  { intros q. unfold d4. rewrite txn_row_update. destruct (decide (q = p.1)) as [->|]; [by rewrite lookup_insert_eq | by rewrite lookup_insert_ne]. }
  split; [| split; [exists x; split; [change (producer_row p.1 d4) with (producer_row p.1 d3); by rewrite Hp3 | done] |]; split].
  - apply (inv_txn p.1 row d3 d4); try done.
    + apply (inv_known d3 p.1 x Hi3). by rewrite Hp3.
    + intros y. rewrite Hp3, Hri. congruence.
    + congruence.
    + intros _. apply (closed_rows p.1 d3 Hi3). rewrite ongoing_row. destruct (txn_row p.1 d3) as [t|] eqn:Et; [| done].
      by apply Hoff.
  - intros q t. rewrite Ht4. destruct (decide (q = p.1)) as [->|Eq]; [by intros [= <-] _ |].
    intros [Ht Hns]%Ht3 Hti. exfalso. apply Hns. split; [done |]. split; [done |].
    rewrite Ht2 in Ht. pose proof (Hcl q t Ht Hti) as Hc. by apply bool_decide_eq_false in Hc.
  - exists d1. split; [done |]. intros q y Hy Hyid. rewrite (Hnext q y Hy Hyid); done.
Qed.

Lemma handle_init_inv clock acls who o timeout d r d' :
  handle_init_producer_id crc32c clock acls who o timeout d = (Ok r, d') → txn_inv d → txn_inv d'.
Proof.
  intros H Hi. destruct (Acl.check acls who IdempotentWrite Cluster "kafka-cluster") as [u|code] eqn:Ea.
  2: { revert H. unfold handle_init_producer_id. rewrite Ea. by intros [= _ <-]. }
  assert (Hplain : ∀ r d', (let* p := run_sql (init_producer_id (db_now clock) None) in
      ret (mk_init_response ErrorCode.NoError p.1 p.2)) d = (Ok r, d') → txn_inv d').
  { intros r1 d1. unfold bind. destruct (run_sql _ d) as [[p|e] d2] eqn:E; [| done]. intros [= _ <-].
    by apply (run_init_ok _ _ _ _ _ E Hi). }
  destruct o as [id|]; [destruct (decide (id = ""%string)) as [->|Hne] |].
  - revert H. unfold handle_init_producer_id. rewrite Ea. cbn [mbind option_bind]. rewrite decide_True by done. apply Hplain.
  - apply handle_init_ok in H; [by apply H | done | done | by rewrite Ea].
  - revert H. unfold handle_init_producer_id. rewrite Ea. apply Hplain.
Qed.

End Sweeps.
