(* ===== verification/TxnTheorems.v ===== *)
(** * Transactions: reachable states and the theorems

    The steps of the coordinator and of the components that share its tables,
    the invariant of every reachable state, and what a client, a consumer and
    an operator can rely on. *)

From stdpp Require Import gmap strings sorting.
From S2P Require Import Prelude Errors Primitives Records RecordIter Build Cleaner Producer Acl Group Pmeta Store Offsets Txn TxnSpec.

#[local] Open Scope Z_scope.

(** ** Expiry, one transaction at a time *)

Section Expiry.

Context {L : Type} {store : LogStore L} {laws : LogStoreLaws L}.
Variable crc32c : bytes → Z.
Variable clock : Clock.
Implicit Types d : TxDb L.

(** The store refused an append. *)
Definition store_fails : Prop := ∃ p b l e l', append (L := L) p b l = (Err e, l').

Lemma append_marker_err q epoch p first c d x d' :
  append_marker crc32c q epoch p first c d = (Err x, d') → x = Returned Internal ∧ store_fails.
Proof.
  unfold append_marker. rewrite control_batch_new.
  destruct (append _ _ _) as [[?|e] l] eqn:E; [done |]. intros [= <- _]. split; [done |]. by repeat eexists.
Qed.

Lemma append_markers_err q epoch c l d x d' :
  for_each (λ e : Z * Z * Z, append_marker crc32c q epoch e.1 e.2 c) l d = (Err x, d') →
  x = Returned Internal ∧ store_fails.
Proof.
  revert d. induction l as [|e l IH]; intros d; [done |]. cbn [for_each]. unfold bind.
  destruct (append_marker _ _ _ _ _ _ d) as [[[]|y] d1] eqn:E; [apply IH |].
  intros [= <- _]. by apply append_marker_err in E.
Qed.

(** A producer whose epoch cannot be raised. *)
Definition at_last_epoch (q : Z) d : Prop := ∃ r, producer_row q d = Some r ∧ i16_max ≤ pr_epoch r.

Lemma fence_err q d x d' : fence q d = (Err x, d') → x = Raised ∧ at_last_epoch q d.
Proof.
  unfold fence, at_last_epoch. destruct (producer_row q d) as [r|]; [| done]. unfold smallint_succ.
  destruct (Z.ltb_spec (pr_epoch r) i16_max); [done |]. intros [= <- _]. eauto.
Qed.

(** Why ending a transaction can fail. *)
Lemma finish_err now q epoch c d x d' :
  finish_transaction crc32c now q epoch c d = (Err x, d') →
  x = Returned Internal ∧ store_fails ∨ x = Raised ∧ at_last_epoch q d.
Proof.
  unfold finish_transaction. destruct (txn_row q d) as [t|]; [| done].
  destruct (match producer_row q d with Some r => epoch <? pr_epoch r | None => false end); [done |].
  destruct (tx_state t); try done. unfold bind at 1, gets. unfold bind at 1.
  destruct (for_each _ _ d) as [[[]|y] d1] eqn:E1.
  - apply append_markers_ok in E1 as [(Hp & _) _]; [| apply txn_partitions_nodup].
    unfold modify. do 4 (unfold bind at 1). cbv beta iota.
    destruct (match tx_forced t with Some f => negb (Bool.eqb f c) | None => false end); [| done].
    unfold bind. destruct (fence q _) as [[?|y] d2] eqn:Ef; [done |]. intros [= <- _].
    apply fence_err in Ef as [-> (r & Hr & He)]. right. split; [done |]. exists r. split; [| done].
    revert Hr. unfold producer_row. destruct (default c (tx_forced t)); cbn; by rewrite Hp.
  - intros [= <- _]. left. by apply append_markers_err in E1.
Qed.

(** Fencing the producer of a transaction that was just ended. *)
Lemma fence_expired q d d0 e0 d2 r :
  producer_row q d = Some r → txn_inv d0 → is_ongoing q d0 = false → producers (t_prod d0) = producers (t_prod d) →
  (∀ q', q' ≠ q → txn_row q' d0 = txn_row q' d) → fence q d0 = (Ok e0, d2) →
  (∀ q', q' ≠ q → txn_row q' d2 = txn_row q' d ∧ producer_row q' d2 = producer_row q' d) ∧
  is_ongoing q d2 = false ∧
  ∃ r r', producer_row q d = Some r ∧ producer_row q d2 = Some r' ∧ pr_epoch r' = pr_epoch r + 1.
Proof.
  intros Hr Hi0 Hc0 Hp0 Hq0 Hf0. destruct (fence_ok q d0 e0 d2 Hf0 Hi0 Hc0) as (_ & Ht2 & _ & _ & Hp2).
  assert (Hpr : ∀ x, producer_row x d0 = producer_row x d) by (intros x; unfold producer_row; by rewrite Hp0).
  split; [| split; [by rewrite ongoing_row, Ht2, <- ongoing_row |]].
  - intros q' Hq'. rewrite Ht2, Hp2, Hpr. split; [by apply Hq0 |].
    destruct (producer_row q' d); [by rewrite decide_False | done].
  - exists r. rewrite Hp2, Hpr, Hr, decide_True by done. by eexists.
Qed.

(** One expired transaction: ended, and its producer fenced. *)
Lemma expire_one_spec q d n d' :
  txn_inv d → expire_one crc32c clock q d = (Ok n, d') →
  (∀ q', q' ≠ q → txn_row q' d' = txn_row q' d ∧ producer_row q' d' = producer_row q' d) ∧
  ∀ t, txn_row q d = Some t → is_expired clock t = true →
    n = 1 ∧ is_ongoing q d' = false ∧
    ∃ r r', producer_row q d = Some r ∧ producer_row q d' = Some r' ∧ pr_epoch r' = pr_epoch r + 1.
Proof.
  unfold expire_one. unfold bind at 1, gets. intros Hi.
  destruct (txn_row q d) as [t|] eqn:Et; [| by intros [= _ <-]].
  destruct (is_expired clock t) eqn:Ex; [| by intros [= _ <-]; split; [| congruence]]. unfold bind at 1.
  destruct (finish_transaction _ _ _ _ _ d) as [[f|e] d1] eqn:Ef; [| done]. intros H.
  assert (Hon : tx_ongoing t = true) by (unfold is_expired in Ex; by apply andb_true_iff in Ex as [? _]).
  destruct (inv_owner d Hi q t Et Hon) as (r & Hr & He). pose proof (inv_epoch d Hi q r Hr) as Hrange.
  rewrite wrap_i16_id in Ef by int_lia.
  pose proof (finish_transaction_ok _ _ _ _ _ _ _ _ Ef) as Hok.
  destruct (finish_inv _ _ _ _ _ _ _ _ Hi Ef) as (Hi1 & _ & Hoth & Hcl).
  assert (Hc1 : is_ongoing q d1 = false) by (apply Hcl; intros r' Hr'; assert (r' = r) as -> by congruence; lia).
  assert (Hong : is_ongoing q d = true) by (by rewrite ongoing_row, Et).
  destruct f as [| |last|]; [subst d1; congruence | | subst d1; congruence |];
    destruct Hok as (t' & d2 & Ht' & _ & _ & _ & Htab & _ & Hp & Hd).
  - rewrite decide_True in Hd by done. subst d2. unfold bind in H.
    destruct (fence q d1) as [[e|e] d2] eqn:E2; [| done]. injection H as <- <-.
    destruct (fence_expired q d d1 e d2 r Hr Hi1 Hc1 Hp) as (H1 & H2); [intros q' Hq'; by apply Hoth | done |]. split; [done |].
    intros t0 _ _. done.
  - rewrite decide_False in Hd by done. destruct Hd as [e He2]. injection H as <- <-.
    destruct (inv_ended _ q _ d d2 t Hi Et Htab Hp) as [Hi2 Hc2].
    destruct (fence_expired q d d2 e d1 r Hr Hi2 Hc2 Hp) as (H1 & H2); [| done |].
    + destruct Htab as [Hrow _]. intros q' Hq'. by rewrite Hrow, decide_False.
    + split; [done |]. intros t0 _ _. done.
Qed.

Lemma expire_one_err q d x d' :
  expire_one crc32c clock q d = (Err x, d') → txn_inv d →
  x = Returned Internal ∧ store_fails ∨ x = Raised ∧ at_last_epoch q d.
Proof.
  unfold expire_one. unfold bind at 1, gets. intros H Hi. destruct (txn_row q d) as [t|] eqn:Et; [| done].
  destruct (is_expired clock t); [| done]. unfold bind at 1 in H.
  destruct (finish_transaction _ _ _ _ _ d) as [[f|e] d1] eqn:Ef.
  - pose proof (finish_transaction_ok _ _ _ _ _ _ _ _ Ef) as Hok. destruct f as [| |last|]; try done.
    destruct Hok as (t' & d2 & _ & _ & _ & _ & _ & _ & Hp & Hd). rewrite decide_True in Hd by done. subst d2.
    unfold bind in H. destruct (fence q d1) as [[?|y] d2] eqn:E2; [done |]. injection H as <- _.
    apply fence_err in E2 as [-> (r & Hr & He)]. right. split; [done |]. exists r. split; [| done].
    unfold producer_row in *. by rewrite <- Hp.
  - injection H as <- _. by apply finish_err in Ef.
Qed.

(** The whole list: each is ended and fenced, nothing else is touched. *)
Lemma expire_each_spec l n0 d res d' :
  txn_inv d → NoDup l.*1 →
  (∀ q, q ∈ l.*1 → ∃ t, txn_row q d = Some t ∧ is_expired clock t = true) →
  expire_each crc32c clock l n0 d = (res, d') →
  match res with
  | Ok n =>
      n = n0 + Z.of_nat (length l) ∧
      (∀ q, q ∉ l.*1 → txn_row q d' = txn_row q d ∧ producer_row q d' = producer_row q d) ∧
      ∀ q, q ∈ l.*1 → is_ongoing q d' = false ∧
        ∃ r r', producer_row q d = Some r ∧ producer_row q d' = Some r' ∧ pr_epoch r' = pr_epoch r + 1
  | Err x => x = Returned Internal ∧ store_fails ∨ x = Raised ∧ ∃ q, q ∈ l.*1 ∧ at_last_epoch q d
  end.
Proof.
  revert n0 d. induction l as [|[q e] l IH]; intros n0 d Hi Hnd Hex.
  { intros [= <- <-]. split; [cbn; lia |]. split; [done |]. intros q Hq. by apply elem_of_nil in Hq. }
  cbn [expire_each fst fmap list_fmap] in *. apply NoDup_cons in Hnd as [Hnq Hnd]. unfold bind.
  destruct (expire_one _ _ _ d) as [[n|x] d1] eqn:E1.
  - destruct (expire_one_spec q d n d1 Hi E1) as [Hoth Hq]. destruct (Hex q) as (t & Ht & Hx); [by left |].
    destruct (Hq t Ht Hx) as (-> & Hoff & Hep). pose proof (expire_one_inv _ _ _ _ _ _ E1 Hi) as Hi1.
    intros E2. apply IH in E2; [| done | done |].
    2: { intros q' Hq'. destruct (Hoth q') as [-> _]; [by intros -> |]. apply Hex. by right. }
    destruct res as [n|x].
    + destruct E2 as (-> & Hout & Hin). split; [cbn [length]; lia |]. split.
      * intros q' [Hne Hq']%not_elem_of_cons. destruct (Hout q' Hq') as [-> ->]. by apply Hoth.
      * intros q' [->|Hq']%elem_of_cons.
        -- destruct (Hout q Hnq) as [Ht' Hp']. rewrite ongoing_row, Ht', <- ongoing_row, Hp'. done.
        -- destruct (Hin q' Hq') as [Ho Hr]. split; [done |]. destruct (Hoth q') as [_ <-]; [by intros -> | done].
    + destruct E2 as [?|(-> & q' & Hq' & Hlast)]; [by left | right]. split; [done |]. exists q'. split; [by right |].
      destruct Hlast as (r & Hr & He). exists r. split; [| done]. destruct (Hoth q') as [_ <-]; [by intros -> | done].
  - intros [= <- <-]. apply expire_one_err in E1 as [?|[-> ?]]; [by left | | done]. right. split; [done |]. exists q.
    split; [by left | done].
Qed.

Lemma by_started_trans : Transitive by_started.
Proof. intros a b c. unfold by_started. lia. Qed.
Lemma by_started_total : Total by_started.
Proof. intros a b. unfold by_started. lia. Qed.

(** Who is chosen: expired transactions, the longest-running first. *)
Lemma stale_producers_spec d :
  let stale := (stale_producers clock d).*1 in
  NoDup stale ∧ (length stale ≤ MAX_PER_SWEEP)%nat ∧
  (∀ q, q ∈ stale → ∃ t, txn_row q d = Some t ∧ is_expired clock t = true) ∧
  ∀ q t, txn_row q d = Some t → is_expired clock t = true → q ∉ stale →
    length stale = MAX_PER_SWEEP ∧
    ∀ q' t', q' ∈ stale → txn_row q' d = Some t' → tx_started_at t' ≤ tx_started_at t.
Proof.
  set (rows := filter (λ e : Z * TxnRow, is_expired clock e.2 = true) (map_to_list (txns (t_prod d)))).
  set (sorted := merge_sort by_started rows). intros stale.
  assert (Hst : stale ≡ₚ (take MAX_PER_SWEEP sorted).*1).
  { unfold stale, stale_producers. rewrite merge_sort_Permutation. by rewrite <- list_fmap_compose. }
  assert (Hrows : ∀ q t, (q, t) ∈ sorted ↔ txn_row q d = Some t ∧ is_expired clock t = true).
  { intros q t. unfold sorted. rewrite merge_sort_Permutation. unfold rows.
    rewrite list_elem_of_filter, elem_of_map_to_list. unfold txn_row. cbn. tauto. }
  assert (Hnd : NoDup sorted.*1).
  { unfold sorted. rewrite merge_sort_Permutation. eapply sublist_NoDup; [apply (NoDup_fst_map_to_list (txns (t_prod d))) |].
    apply fmap_sublist, sublist_filter. }
  split; [| split; [| split]].
  - rewrite Hst. eapply sublist_NoDup; [exact Hnd |]. apply fmap_sublist, sublist_take.
  - rewrite Hst, length_fmap, length_take. lia.
  - intros q Hq. rewrite Hst in Hq. apply list_elem_of_fmap in Hq as ([q' t] & -> & Hq).
    exists t. apply Hrows. eapply elem_of_subseteq in Hq; [exact Hq | apply subseteq_take].
  - intros q t Ht Hx Hn. assert (Hin : (q, t) ∈ sorted) by (by apply Hrows).
    assert (Hdrop : (q, t) ∈ drop MAX_PER_SWEEP sorted).
    { rewrite <- (take_drop MAX_PER_SWEEP sorted) in Hin. apply elem_of_app in Hin as [Hin|]; [| done].
      exfalso. apply Hn. rewrite Hst. apply list_elem_of_fmap. by exists (q, t). }
    assert (Hlen : (MAX_PER_SWEEP < length sorted)%nat).
    { destruct (decide (length sorted ≤ MAX_PER_SWEEP)%nat) as [Hle|]; [| lia].
      rewrite drop_ge in Hdrop by done. by apply elem_of_nil in Hdrop. }
    split; [rewrite Hst, length_fmap, length_take; lia |]. intros q' t' Hq' Ht'.
    rewrite Hst in Hq'. apply list_elem_of_fmap in Hq' as ([q0 t0] & -> & Hq0).
    assert (Ht0 : txn_row q0 d = Some t0) by (apply (Hrows q0 t0); eapply elem_of_subseteq in Hq0; [exact Hq0 | apply subseteq_take]).
    assert (t0 = t') as -> by (change (txn_row q0 d = Some t') in Ht'; congruence).
    assert (Hs : StronglySorted by_started (take MAX_PER_SWEEP sorted ++ drop MAX_PER_SWEEP sorted)).
    { rewrite take_drop. apply Sorted_StronglySorted; [apply by_started_trans | apply Sorted_merge_sort, by_started_total]. }
    exact (StronglySorted_app_1_elem_of _ _ _ _ _ Hs Hq0 Hdrop).
Qed.

End Expiry.

(** ** Reachable states *)

Section Reachable.

Context {L : Type} {store : LogStore L} {laws : LogStoreLaws L}.
Variable crc32c : bytes → Z.
Variable id_le : string → string → Prop.
Context {id_dec : ∀ a b, Decision (id_le a b)}.
Implicit Types d : TxDb L.

(** A request that fails rolls back, so a step is a request that answers.  A
    transactional produce begins the transaction where the version lets it,
    registers its partition, and stamps its first offset there; the window of
    the producer, the log and the groups change beside it. *)
Inductive step : TxDb L → TxDb L → Prop :=
| step_add_partitions clock version req d r d' :
    handle_add_partitions clock version req d = (Ok r, d') → step d d'
| step_add_offsets clock version id pid epoch group d r d' :
    handle_add_offsets clock version id pid epoch group d = (Ok r, d') → step d d'
| step_offset_commit clock version req d r d' :
    handle_txn_offset_commit id_le clock version req d = (Ok r, d') → step d d'
| step_end_txn clock tv version req d r d' :
    handle_end_txn crc32c clock tv version req d = (Ok r, d') → step d d'
| step_init clock acls who id timeout d r d' :
    handle_init_producer_id crc32c clock acls who id timeout d = (Ok r, d') → step d d'
| step_markers now acls who ms d r d' :
    write_txn_markers crc32c now acls who ms d = (Ok r, d') → step d d'
| step_expire clock d n d' :
    expire_stale_transactions crc32c clock d = (Ok n, d') → step d d'
| step_produce_begin clock id pid epoch topic part version a d :
    verify_held_produce id pid epoch topic part version d = AddsPartition a →
    step d (begin_or_continue clock a (default ""%string id) d)
| step_produce_register pid p d :
    is_ongoing pid d = true → step d (on_meta (register_txn_partition pid p (-1)) d)
| step_produce_stamp pid p base d : step d (on_meta (stamp_txn_partition pid p base) d)
| step_record now pid epoch topic part first last base d :
    step d (on_prod (record now pid epoch topic part first last base) d)
| step_batches f d : step d (on_prod (set_batches f) d)
| step_sweep now locked policy d : step d (on_prod (λ p, (Producer.sweep now locked policy p).2) d)
| step_topic topic d : step d (forget_topic topic d)
| step_log l d : step d (set_log l d)
| step_groups f d : step d (on_groups f d).

(** A broker whose transaction tables are empty. *)
Definition initial (groups : Groups) (consumers : ConsumerTables) (topics : gmap Z (string * Z)) (l : L) : TxDb L :=
  mk_tx empty_db (mk_meta ∅ ∅ ∅ ∅ ∅) ∅ groups consumers topics l.

Definition reachable d : Prop := ∃ g c topics l, rtc step (initial g c topics l) d.

Lemma initial_inv g c topics l : txn_inv (initial g c topics l).
Proof.
  split; unfold part_row, open_txns, staged_of, txn_row, producer_row, initial; cbn; intros;
    rewrite ?lookup_empty in *; cbn in *; rewrite ?lookup_empty in *; done.
Qed.

Lemma stamp_inv pid p base d : txn_inv d → txn_inv (on_meta (stamp_txn_partition pid p base) d).
Proof.
  intros Hi. unfold stamp_txn_partition. destruct (open_txns p (t_meta d) !! pid) as [first|] eqn:E.
  - assert (Hon : is_ongoing pid d = true) by (by apply (inv_parts d Hi pid p first)).
    destruct (first <? 0) eqn:Ef; [| apply (inv_same d); try done; intros; unfold part_row, on_meta; cbn [t_meta]; by rewrite E, Ef].
    apply (inv_stage pid d); try done. intros q p' Hq.
    unfold part_row, on_meta. cbn [t_meta]. rewrite E, Ef, open_txns_set. case_decide; [subst; by rewrite lookup_insert_ne | done].
  - apply (inv_same d); try done; intros; unfold part_row, on_meta; cbn [t_meta]; by rewrite E.
Qed.

Lemma register_inv pid p d :
  txn_inv d → is_ongoing pid d = true → txn_inv (on_meta (register_txn_partition pid p (-1)) d).
Proof.
  intros Hi Hon. apply (inv_stage pid d); try done. intros q p' Hq. unfold part_row, on_meta. cbn [t_meta].
  unfold register_txn_partition. repeat case_match; try done; rewrite open_txns_set;
    (case_decide; [subst; by rewrite lookup_insert_ne | done]).
Qed.

Lemma record_inv now pid epoch topic part first last base d :
  txn_inv d → txn_inv (on_prod (record now pid epoch topic part first last base) d).
Proof.
  intros Hi. unfold record. cbv zeta. unfold on_prod. cbn [t_prod set_batches producers].
  destruct (producers (t_prod d) !! pid) as [r|] eqn:Er; [| by apply (inv_same d)].
  case_match eqn:Et; [| by apply (inv_same d)].
  apply (inv_producer pid r (mk_producer (pr_epoch r) (pr_transactional_id r) (pr_retired r) now) d); try done.
  - cbn. by apply (inv_epoch d Hi pid).
  - intros q. unfold producer_row. cbn. case_decide; [subst; by rewrite lookup_insert_eq | by rewrite lookup_insert_ne].
Qed.

Lemma sweep_inv now locked policy d :
  txn_inv d → txn_inv (on_prod (λ p, (Producer.sweep now locked policy p).2) d).
Proof.
  intros Hi. pose proof (sweep_spares locked now policy (t_prod d)) as Hs.
  pose proof (sweep_next locked now policy (t_prod d)) as Hn.
  destruct (Producer.sweep now locked policy (t_prod d)) as [n p] eqn:E. cbn [snd] in Hn. destruct Hs as [(Ht & Hsub & Hkeep & _) _].
  assert (Hp : t_prod (on_prod (λ p, (Producer.sweep now locked policy p).2) d) = p) by (cbn; by rewrite E).
  apply (inv_remove d); try done; unfold producer_row, txn_row; rewrite Hp.
  - intros q. destruct (is_ongoing q d) eqn:Eo; [left; apply Hkeep; by left |].
    destruct (p.(producers) !! q) as [r|] eqn:Eq; [left | by right]. symmetry. by eapply lookup_weaken in Eq.
  - intros q. by rewrite Ht.
  - done.
Qed.

Lemma forget_topic_inv topic d : txn_inv d → txn_inv (forget_topic topic d).
Proof.
  intros Hi. assert (Hpt : ∀ q p f, part_row q p (forget_topic topic d) = Some f → part_row q p d = Some f).
  { intros q p f. unfold part_row, open_txns, forget_topic. cbn [t_meta txn_parts].
    rewrite map_lookup_filter. destruct (txn_parts (t_meta d) !! p); cbn; [| done].
    by case_guard; cbn; rewrite ?lookup_empty. }
  assert (Hst : ∀ q k s, staged_of q (forget_topic topic d) !! k = Some s → staged_of q d !! k = Some s).
  { intros q k s. unfold staged_of, forget_topic. cbn [t_staged]. rewrite lookup_fmap.
    destruct (t_staged d !! q); cbn; [| done]. intros [? _]%map_lookup_filter_Some. done. }
  destruct Hi as [H1 H2 H3 H4 H5 H6 H7]. split; try done.
  - intros q p f Hf. by apply (H1 q p f), Hpt.
  - intros q k s Hs. by apply (H2 q k s), Hst.
Qed.

Lemma step_inv d d' : step d d' → txn_inv d → txn_inv d'.
Proof.
  destruct 1; intros Hi; try (by apply (inv_same d)).
  - by eapply handle_add_partitions_inv.
  - by eapply handle_add_offsets_inv.
  - by eapply handle_txn_offset_commit_inv.
  - by eapply handle_end_txn_inv.
  - by eapply handle_init_inv.
  - by eapply write_txn_markers_inv.
  - unfold expire_stale_transactions, bind, gets in H. by eapply expire_each_inv.
  - unfold verify_held_produce in H. destruct id as [id|]; [| done]. rewrite judge_held_judge in H.
    pose proof (judge_verdict id pid epoch (Some (topic, part)) d) as Hv.
    destruct (judge id pid epoch (Some (topic, part)) d) as [[x|v] b]; [| by destruct v].
    cbn [fst] in Hv. symmetry in Hv. apply verdict_ok in Hv as [-> Hc].
    assert (a = mk_admission pid epoch) as ->
      by (destruct b; [done |]; cbn in H; by repeat case_match; simplify_eq).
    by apply begin_inv.
  - by apply register_inv.
  - by apply stamp_inv.
  - by apply record_inv.
  - by apply sweep_inv.
  - by apply forget_topic_inv.
Qed.

Lemma reachable_inv d : reachable d → txn_inv d.
Proof.
  intros (g & c & topics & l & H). assert (Hi := initial_inv g c topics l). revert Hi.
  induction H as [|d1 d2 d3 Hs _ IH]; [done |]. intros Hi. apply IH. by apply (step_inv d1).
Qed.

End Reachable.

(** ** What clients rely on *)

Section Guarantees.

Context {L : Type} {store : LogStore L} {laws : LogStoreLaws L}.
Variable crc32c : bytes → Z.
Variable id_le : string → string → Prop.
Context {id_dec : ∀ a b, Decision (id_le a b)}.
Implicit Types d : TxDb L.

(** An answer other than NONE. *)
Definition is_error (code : ErrorCode.t) : Prop := code ≠ ErrorCode.NoError.

(** C29. In every reachable state of the coordinator's tables: partitions and
    offsets are staged for open transactions only, so a transaction starts with
    nothing of an earlier one; an open transaction has a producer, whose current
    epoch it carries, under the same transactional id; and a transactional id
    has one producer. *)
Theorem txn_tables_invariant d :
  reachable crc32c id_le d →
  (∀ pid p first, part_row pid p d = Some first → is_ongoing pid d = true) ∧
  (∀ pid k s, staged_of pid d !! k = Some s → is_ongoing pid d = true) ∧
  (∀ pid t, txn_row pid d = Some t → tx_ongoing t = true →
     ∃ r, producer_row pid d = Some r ∧ pr_epoch r = tx_epoch t ∧
       pr_transactional_id r = Some (tx_transactional_id t)) ∧
  (∀ pid r pid' r' id, producer_row pid d = Some r → producer_row pid' d = Some r' →
     pr_transactional_id r = Some id → pr_transactional_id r' = Some id → pid = pid').
Proof.
  intros Hi%reachable_inv. split; [apply (inv_parts d Hi) |]. split; [apply (inv_staged d Hi) |].
  split; [| apply (inv_unique d Hi)]. intros pid t Ht Ho.
  destruct (inv_owner d Hi pid t Ht Ho) as (r & Hr & He). exists r. split; [done |]. split; [done |].
  by apply (inv_id d Hi pid t).
Qed.

(** Fencing changes the producers only. *)
Lemma fence_rest q d e d' :
  fence q d = (Ok e, d') →
  t_log d' = t_log d ∧ t_meta d' = t_meta d ∧ t_groups d' = t_groups d ∧ t_staged d' = t_staged d ∧
  txns (t_prod d') = txns (t_prod d).
Proof. unfold fence, smallint_succ. intros H. repeat case_match; simplify_eq; done. Qed.

(** What the end of a transaction of [pid] with outcome [c] did to everything
    but the producers: one marker of [c] for each partition registered in it and
    none elsewhere, its staged offsets committed or not, its rows gone, and the
    rows of other transactions as they were. *)
Definition ended_one_way (now pid epoch : Z) (c : bool) d d' : Prop :=
  (∀ p, match (if decide (is_Some (t_topics d !! p.1)) then part_row pid p d else None) with
        | Some first => marked crc32c pid epoch c p first d d'
        | None => untouched p d d'
        end) ∧
  (∀ k, goffsets (t_groups d') !! k =
     match (if c then staged_of pid d !! k else None) with
     | Some s => Some (offset_row now s)
     | None => goffsets (t_groups d) !! k
     end) ∧
  (∀ q p, part_row q p d' = if decide (q = pid) then None else part_row q p d) ∧
  (∀ q, staged_of q d' = if decide (q = pid) then ∅ else staged_of q d).

Lemma ended_one_way_intro now pid epoch c d d1 d' :
  ended_tables now pid c d d1 → ended_logs crc32c pid epoch c d d1 →
  t_log d' = t_log d1 → t_meta d' = t_meta d1 → t_groups d' = t_groups d1 → t_staged d' = t_staged d1 →
  ended_one_way now pid epoch c d d'.
Proof.
  intros (Hrow & Hstg & Hpt & Hoffs & _ & _) Hlogs Hl Hm Hg Hs. split; [| split; [| split]].
  - intros p. specialize (Hlogs p). unfold marked, untouched in *. by rewrite Hl, Hm.
  - intros k. by rewrite Hg.
  - intros q p. unfold part_row at 1. rewrite Hm. apply Hpt.
  - intros q. unfold staged_of at 1. rewrite Hs. apply Hstg.
Qed.

(** C2. A transaction ends all one way.  The outcome of an open transaction
    is the one its operator forced, if one did, and the requested one otherwise;
    when its producer ends it, every partition registered in it, and no other,
    gets one marker of that outcome (on an abort also the range a reader must
    skip); on a commit exactly the offsets it staged become the committed ones,
    on an abort none do; nothing of it is left, other transactions' rows are as
    they were, and its state is the outcome.  The answer is NONE when the outcome
    is the requested one; when the operator forced the other, it is
    INVALID_PRODUCER_EPOCH and the pair is no longer current. *)
Theorem end_txn_atomic clock tv version req d r d' t :
  reachable crc32c id_le d → handle_end_txn crc32c clock tv version req d = (Ok r, d') →
  let pid := er_producer_id req in let c := outcome t (er_committed req) in
  current_pair (er_transactional_id req) pid (er_producer_epoch req) d →
  txn_row pid d = Some t → tx_ongoing t = true →
  ended_one_way (db_now clock) pid (er_producer_epoch req) c d d' ∧
  tx_state <$> txn_row (ep_producer_id r) d' = Some (ended_state c) ∧
  (c = er_committed req → ep_error r = ErrorCode.NoError) ∧
  (c ≠ er_committed req → ep_error r = ErrorCode.InvalidProducerEpoch ∧
     ¬ current_pair (er_transactional_id req) pid (er_producer_epoch req) d').
Proof.
  intros Hi%reachable_inv He pid c Hc Ht Ho.
  assert (Hon : is_ongoing pid d = true) by (by rewrite ongoing_row, Ht).
  assert (Hev : end_verified crc32c clock tv version req d = (Ok r, d')).
  { revert He. unfold handle_end_txn. rewrite decide_False by apply Hc. case_match; [| done].
    unfold bind at 1, gets. by rewrite completed_retry_open. }
  clear He. unfold end_verified, gets in Hev. unfold bind at 1 in Hev.
  assert (verdict (er_transactional_id req) pid (er_producer_epoch req) d = Ok (mk_admission pid (er_producer_epoch req)))
    as Hv by (by apply verdict_ok).
  unfold pid in Hv. rewrite Hv in Hev. unfold bind at 1 in Hev. fold pid in Hev.
  destruct (finish_transaction _ _ _ _ _ d) as [[f|x] d1] eqn:Ef; [| done].
  destruct (finish_inv _ _ _ _ _ _ _ _ Hi Ef) as (Hi1 & _ & _ & Hcl).
  assert (Hoff : is_ongoing pid d1 = false) by (apply Hcl; destruct Hc as (_ & x & -> & _ & <-); intros ? [= <-]; lia).
  pose proof (finish_transaction_ok _ _ _ _ _ _ _ _ Ef) as Hok.
  destruct f as [| |last|]; [subst d1; congruence | | subst d1; congruence |];
    destruct Hok as (t' & d2 & Ht' & _ & _ & Hend & Htab & Hlogs & Hp & Hd);
    (assert (t' = t) as -> by congruence); fold c in Hend, Htab, Hlogs;
    pose proof (proj1 Htab pid) as Hrow; rewrite decide_True, Ht in Hrow by done.
  - rewrite decide_True in Hd by done. subst d2.
    apply (finish_pair crc32c clock req d Ended d1) in Hc; [| done..].
    destruct (rotate_ok clock tv version req d1 r d' Hev Hi1 Hoff Hc) as (_ & Herr & _ & Hst & H1 & H2 & H3 & H4 & _).
    split; [by apply (ended_one_way_intro _ _ _ _ _ d1) |].
    split; [rewrite Hst; fold pid; by rewrite Hrow |]. split; [done |]. intros Hne. by destruct Hne, Hend; auto.
  - rewrite decide_False in Hd by done. destruct Hd as [e Hf]. injection Hev as <- <-.
    destruct (fence_rest _ _ _ _ Hf) as (H1 & H2 & H3 & H4 & H5).
    split; [by apply (ended_one_way_intro _ _ _ _ _ d2) |].
    split; [change (ep_producer_id _) with pid; unfold txn_row in *; by rewrite H5, Hrow |].
    split; [intros Hce; by apply Hend in Hce |]. intros _. split; [done |].
    destruct (inv_ended _ pid _ d d2 t Hi Ht Htab Hp) as [Hi2 Hc2].
    destruct (fence_ok pid d2 e d1 Hf Hi2 Hc2) as (_ & _ & _ & _ & Hpr). specialize (Hpr pid).
    destruct Hc as (_ & x & Hx & _ & Hxe). intros (_ & y & Hy & _ & Hye).
    unfold producer_row in Hpr, Hx, Hy. rewrite Hp, Hx, Hy, decide_True in Hpr by done.
    injection Hpr as ->. cbn in Hye. lia.
Qed.

(** Ending is idempotent for a client that implements transaction version 2:
    an EndTxn that was answered NONE, sent again before the next transaction,
    gets the same pair again and changes nothing, whether it was itself a
    retry, the end of a transaction, or an abort with nothing open. *)
Theorem end_txn_retry clock clock' tv version req d r d' :
  reachable crc32c id_le d → handle_end_txn crc32c clock tv version req d = (Ok r, d') →
  rotating tv version = true → ep_error r = ErrorCode.NoError →
  handle_end_txn crc32c clock' tv version req d' = (Ok r, d').
Proof.
  intros Hi%reachable_inv He Hrot Herr.
  assert (Hid : er_transactional_id req ≠ ""%string).
  { intros Hid. revert He. unfold handle_end_txn. rewrite decide_True by done. intros [= <- _]. by revert Herr. }
  assert (Hgoal : ∀ id ep, ep_producer_id r = id → ep_producer_epoch r = ep →
    completed_retry (er_transactional_id req) (er_producer_id req) (er_producer_epoch req) (er_committed req) d' =
      RetryOf id ep → handle_end_txn crc32c clock' tv version req d' = (Ok r, d')).
  { intros id ep Hi1 Hi2 Hret. unfold handle_end_txn. rewrite decide_False, Hrot by done. unfold bind, gets.
    rewrite Hret. unfold ret. destruct r; cbn in *; congruence. }
  pose proof (handle_end_txn_inv _ _ _ _ _ _ _ _ He Hi) as Hi'.
  revert He. unfold handle_end_txn at 1. rewrite decide_False, Hrot by done. unfold bind at 1, gets.
  destruct (completed_retry _ _ _ _ d) as [id ep| |] eqn:Ec.
  - intros [= <- <-]. by apply (Hgoal id ep).
  - intros [= <- <-]. done.
  - intros Hev. destruct (end_verified_inv _ _ _ _ _ _ _ _ Hev Hi) as [_ H].
    destruct (H Herr Hrot) as [Hoff (ts & Hrow)].
    apply (Hgoal (ep_producer_id r) (ep_producer_epoch r)); [done.. |].
    erewrite completed_retry_found; try done. by rewrite Bool.eqb_reflx.
Qed.

(** The end that retired the pair ([pid], [epoch]) of [id] had outcome [c], the
    id has gone on as the pair ([q], [e]), and no transaction is open there. *)
Definition retired_by (id : string) (pid epoch : Z) (c : bool) (q e : Z) d : Prop :=
  ∃ row, producer_row q d = Some row ∧ pr_transactional_id row = Some id ∧ pr_epoch row = e ∧
    pr_retired row = Some (pid, epoch, c) ∧ is_ongoing q d = false.

Lemma completed_retry_retired id pid epoch c q e d :
  completed_retry id pid epoch c d = RetryOf q e → retired_by id pid epoch c q e d.
Proof.
  unfold completed_retry. destruct (list_find _ _) as [[i [q' row]]|] eqn:E; [| done].
  apply list_find_Some in E as (Hin & (Hid & Hon & Hr) & _). cbn [fst snd] in *.
  apply list_elem_of_lookup_2, elem_of_map_to_list in Hin.
  destruct (pr_retired row) as [[[rp re] rc]|] eqn:Er; [| done]. destruct Hr as [-> ->].
  destruct (Bool.eqb rc c) eqn:Ec; [| done]. apply Bool.eqb_prop in Ec as ->. intros [= -> <-].
  exists row. by repeat split.
Qed.

(** C30. A fenced instance can do nothing.  For a pair that is not the current one
    of its transactional id: AddPartitionsToTxn, AddOffsetsToTxn and
    TxnOffsetCommit change no table and answer an error for everything they were
    asked; a transactional produce is refused; and EndTxn changes no table and
    answers an error, but for one case: a client of transaction version 2 that
    repeats, with the same outcome, the very end that retired the pair is
    answered NONE with the pair its id has now. *)
Theorem stale_pair_refused clock tv version id pid epoch d :
  ¬ current_pair id pid epoch d →
  (∀ topics, ∃ r, handle_add_partitions clock version (mk_add_partitions id pid epoch topics) d = (Ok r, d) ∧
     (is_error (ar_error r) ∨ ∃ code, is_error code ∧
        ar_results r = (λ t : string * list Z, (t.1, (λ p, (p, code)) <$> t.2)) <$> topics)) ∧
  (∀ group, ∃ code, is_error code ∧
     handle_add_offsets clock version id pid epoch group d = (Ok code, d)) ∧
  (∀ committer topics, ∃ answer,
     handle_txn_offset_commit id_le clock version (mk_txn_offset_commit id pid epoch committer topics) d =
       (Ok answer, d) ∧
     ∀ name ps p code, (name, ps) ∈ answer → (p, code) ∈ ps → is_error code) ∧
  (∀ o topic part, o = Some id ∨ o = None → ∃ code,
     verify_held_produce o pid epoch topic part version d = Refused code) ∧
  (∀ c, ∃ r, handle_end_txn crc32c clock tv version (mk_end_txn id pid epoch c) d = (Ok r, d) ∧
     (is_error (ep_error r) ∨
      rotating tv version = true ∧ ep_error r = ErrorCode.NoError ∧
      retired_by id pid epoch c (ep_producer_id r) (ep_producer_epoch r) d)).
Proof.
  intros Hn. destruct (verdict id pid epoch d) as [a|v] eqn:Ev; [by apply verdict_ok in Ev as [_ ?] |].
  assert (Hcode : verdict_code v version ≠ ErrorCode.NoError) by (by destruct v; cbn; try case_match).
  split; [| split; [| split; [| split]]].
  - intros topics. unfold handle_add_partitions. cbn [ap_transactional_id ap_producer_id ap_producer_epoch ap_topics].
    destruct (4 <=? version); [eexists; split; [done | by left] |]. rewrite Ev. eexists. split; [done |]. right. eauto.
  - intros group. exists (verdict_code v version). split; [done |]. unfold handle_add_offsets. by rewrite Ev.
  - intros committer topics. unfold handle_txn_offset_commit.
    cbn [oc_transactional_id oc_producer_id oc_producer_epoch oc_committer oc_topics]. rewrite Ev.
    set (req := mk_txn_offset_commit _ _ _ _ _).
    assert (accepted id_le clock version req (Err v) d = []) as Hacc.
    { destruct (accepted id_le clock version req (Err v) d) as [|e l] eqn:E; [done |].
      destruct (accepted_elem id_le clock version req (Err v) d e) as (_ & _ & Hv & _); [rewrite E; by left | done]. }
    rewrite Hacc. cbn [foldl]. eexists. split; [done |].
    intros name ps p code ([nm cps] & Hnm & _)%list_elem_of_fmap Hp. destruct (resolve d (nm, cps)) as [tid count].
    injection Hnm as -> ->. apply list_elem_of_fmap in Hp as (cp & [= -> ->] & _). apply part_code_err.
  - intros o topic part [->| ->]; [| by eexists]. unfold verify_held_produce. rewrite judge_held_judge.
    pose proof (judge_verdict id pid epoch (Some (topic, part)) d) as Hj. rewrite Ev in Hj.
    destruct (judge id pid epoch (Some (topic, part)) d) as [x b]. cbn in Hj. subst x. destruct v; by eexists.
  - intros c. unfold handle_end_txn. cbn [er_transactional_id er_producer_id er_producer_epoch er_committed].
    case_decide; [eexists; split; [done | by left] |].
    assert (Hev : end_verified crc32c clock tv version (mk_end_txn id pid epoch c) d =
      (Ok (mk_end_txn_response (verdict_code v version) pid epoch), d)).
    { unfold end_verified, bind, gets. cbn [er_transactional_id er_producer_id er_producer_epoch er_committed]. by rewrite Ev. }
    destruct (rotating tv version) eqn:Hrot; [| rewrite Hev; eexists; split; [done | by left]].
    unfold bind, gets. destruct (completed_retry id pid epoch c d) as [q e| |] eqn:Ec.
    + eexists. split; [done |]. right. split; [done |]. split; [done |]. by apply completed_retry_retired.
    + eexists. split; [done | by left].
    + rewrite Hev. eexists. split; [done | by left].
Qed.

(** A new instance takes over cleanly: an accepted InitProducerId of a
    transactional id first ends what was open under it, so afterwards the pair
    it returns is the id's only current one, the id has one transaction row, at
    that epoch and empty, nothing is staged for it, and a pair of an earlier
    epoch is no longer current. *)
Theorem init_producer_id_takes_over clock acls who id timeout d r d' :
  reachable crc32c id_le d → id ≠ ""%string →
  handle_init_producer_id crc32c clock acls who (Some id) timeout d = (Ok r, d') →
  Acl.check acls who IdempotentWrite Cluster "kafka-cluster" = Ok tt →
  (∀ pid epoch, current_pair id pid epoch d' ↔ pid = ir_producer_id r ∧ epoch = ir_producer_epoch r) ∧
  (∀ pid t, txn_row pid d' = Some t → tx_transactional_id t = id →
     pid = ir_producer_id r ∧ tx_state t = TxnEmpty ∧ tx_epoch t = ir_producer_epoch r) ∧
  (∀ p, part_row (ir_producer_id r) p d' = None) ∧ staged_of (ir_producer_id r) d' = ∅.
Proof.
  intros Hi%reachable_inv Hid H Ha.
  destruct (handle_init_ok _ _ _ _ _ _ _ _ _ H Hi Hid) as (Hi' & (x & Hx & Hxid & Hxe) & Hrows & _); [by rewrite Ha |].
  split; [| split; [done |]].
  - intros pid epoch. split.
    + intros (_ & y & Hy & Hyid & Hye). assert (pid = ir_producer_id r) as -> by (by apply (inv_unique d' Hi' pid y _ x id)).
      split; [done |]. congruence.
    + intros [-> ->]. split; [done |]. by exists x.
  - apply (closed_rows _ d' Hi'). rewrite ongoing_row. destruct (txn_row (ir_producer_id r) d') as [t|] eqn:Et; [| done].
    assert (tx_transactional_id t = id) as Ht.
    { pose proof (inv_id d' Hi' _ t x Et Hx) as Hq. congruence. }
    destruct (Hrows _ t Et Ht) as (_ & Hs & _). unfold tx_ongoing. by rewrite Hs.
Qed.

(** C34. Abandoned transactions do not hold consumers back for ever: a sweep that
    succeeds ends every expired transaction, or the 64 longest-running of them,
    fences its producer at the next epoch, and touches no other transaction or
    producer; and it fails only when the store refuses an append, or because a
    producer it must fence is at the last epoch. *)
Theorem expiry_ends_stale clock d res d' :
  reachable crc32c id_le d → expire_stale_transactions crc32c clock d = (res, d') →
  let stale := (stale_producers clock d).*1 in
  (length stale ≤ 64)%nat ∧
  (∀ q t, txn_row q d = Some t → is_expired clock t = true → q ∉ stale →
     length stale = 64%nat ∧ ∀ q' t', q' ∈ stale → txn_row q' d = Some t' → tx_started_at t' ≤ tx_started_at t) ∧
  match res with
  | Ok n =>
      n = Z.of_nat (length stale) ∧
      (∀ q, q ∉ stale → txn_row q d' = txn_row q d ∧ producer_row q d' = producer_row q d) ∧
      ∀ q, q ∈ stale → is_ongoing q d' = false ∧
        ∃ r r', producer_row q d = Some r ∧ producer_row q d' = Some r' ∧ pr_epoch r' = pr_epoch r + 1
  | Err x => x = Returned Internal ∧ store_fails (L := L) ∨
             x = Raised ∧ ∃ q r, q ∈ stale ∧ producer_row q d = Some r ∧ pr_epoch r = i16_max
  end.
Proof.
  intros Hi%reachable_inv H stale. destruct (stale_producers_spec clock d) as (Hnd & Hlen & Hexp & Hcov).
  fold stale in Hnd, Hlen, Hexp, Hcov. split; [done |]. split; [done |].
  unfold expire_stale_transactions, bind, gets in H.
  apply expire_each_spec in H; [| done..]. destruct res as [n|x].
  - destruct H as (-> & H). split; [| done]. unfold stale. by rewrite length_fmap.
  - destruct H as [?|(-> & q & Hq & r & Hr & He)]; [by left | right]. split; [done |]. exists q, r.
    split; [done |]. split; [done |]. pose proof (inv_epoch d Hi q r Hr). lia.
Qed.

End Guarantees.

(** ** A scenario *)

Definition run {A} (m : ST (TxDb MemLog) Failure A) (d : TxDb MemLog) : TxDb MemLog := (m d).2.

Lemma run_eq {A} (m : ST (TxDb MemLog) Failure A) d a : (m d).1 = Ok a → m d = (Ok a, run m d).
Proof. unfold run. destruct (m d). cbn. by intros ->. Qed.

Definition clock_at (ms : Z) : Clock := mk_clock (ms / 1000) ms.

(** One topic of two partitions. *)
Definition s_start : TxDb MemLog :=
  initial (mk_groups ∅ ∅ ∅) (mk_consumers ∅ ∅ ∅) {[1 := ("orders"%string, 2)]} {[(1, 0) := []; (1, 1) := []]}.

(** A producer is initialised, adds both partitions and an offset of group
    "g" to its transaction, and has written three records to partition 0. *)
Definition s_init : TxDb MemLog :=
  run (handle_init_producer_id sum_crc (clock_at 5000) no_acls anybody (Some "t"%string) 60000) s_start.
Definition s_added : TxDb MemLog :=
  run (handle_add_partitions (clock_at 6000) 3 (mk_add_partitions "t" 1000 0 [("orders"%string, [0; 1])])) s_init.
Definition s_group : TxDb MemLog := run (handle_add_offsets (clock_at 6000) 3 "t" 1000 0 "g") s_added.
Definition staged_request : TxnOffsetCommitRequest :=
  mk_txn_offset_commit "t" 1000 0 (mk_committer "g" (-1) "" None)
    [("orders"%string, [mk_commit_partition 0 (mk_staged 41 0 None)])].
Definition s_staged : TxDb MemLog := run (handle_txn_offset_commit str_le (clock_at 6000) 4 staged_request) s_group.
Definition s_written : TxDb MemLog :=
  set_log {[(1, 0) := [(0, mk_raw [] 3 2 0 1000 0 0 true false)]; (1, 1) := []]} s_staged.
Definition s_open : TxDb MemLog := on_meta (stamp_txn_partition 1000 (1, 0) 0) s_written.

Lemma s_open_reachable : reachable sum_crc str_le s_open.
Proof.
  exists (mk_groups ∅ ∅ ∅), (mk_consumers ∅ ∅ ∅), {[1 := ("orders"%string, 2)]}, {[(1, 0) := []; (1, 1) := []]}.
  eapply rtc_l. { eapply (step_init _ _ (clock_at 5000) no_acls anybody (Some "t"%string) 60000 _ _ s_init). vm_compute. reflexivity. }
  eapply rtc_l. { eapply (step_add_partitions _ _ (clock_at 6000) 3 (mk_add_partitions "t" 1000 0 [("orders"%string, [0; 1])]) _ _ s_added).
    vm_compute. reflexivity. }
  eapply rtc_l. { eapply (step_add_offsets _ _ (clock_at 6000) 3 "t" 1000 0 "g" _ _ s_group). vm_compute. reflexivity. }
  eapply rtc_l. { eapply (step_offset_commit _ _ (clock_at 6000) 4 staged_request _ _ s_staged). vm_compute. reflexivity. }
  eapply rtc_l. { apply step_log. }
  eapply rtc_l. { apply step_produce_stamp. }
  apply rtc_refl.
Qed.

Lemma txn_tables_invariant_witness :
  part_row 1000 (1, 0) s_open = Some 0 ∧ is_ongoing 1000 s_open = true ∧
  ∃ r, producer_row 1000 s_open = Some r ∧ pr_epoch r = 0 ∧ pr_transactional_id r = Some "t"%string.
Proof.
  destruct (txn_tables_invariant sum_crc str_le s_open s_open_reachable) as (H1 & H2 & H3 & H4).
  split; [vm_compute; reflexivity |]. split; [apply (H1 1000 (1, 0) 0); vm_compute; reflexivity |].
  destruct (txn_row 1000 s_open) as [t|] eqn:E; [| vm_compute in E; discriminate].
  destruct (H3 1000 t E) as (r & Hr & He & Hid); [vm_compute in E; injection E as <-; reflexivity |].
  exists r. vm_compute in E. injection E as <-. split; [exact Hr |]. split; [exact He | exact Hid].
Defined.

Definition commit_request : EndTxnRequest := mk_end_txn "t" 1000 0 true.
Definition s_committed : TxDb MemLog := run (handle_end_txn sum_crc (clock_at 7000) 2 5 commit_request) s_open.

Lemma s_open_pair : current_pair "t" 1000 0 s_open.
Proof. split; [done |]. eexists. split; [vm_compute; reflexivity |]. split; reflexivity. Qed.

Definition ended_pair : EndTxnResponse := mk_end_txn_response ErrorCode.NoError 1000 1.

Lemma s_committed_eq :
  handle_end_txn sum_crc (clock_at 7000) 2 5 commit_request s_open = (Ok ended_pair, s_committed).
Proof. apply (run_eq (handle_end_txn sum_crc (clock_at 7000) 2 5 commit_request) s_open). vm_compute. reflexivity. Qed.

Definition open_row : TxnRow := mk_txn 0 "t" TxnOngoing 6000 60000 None [offsets_partition "g"].

Lemma end_txn_atomic_witness :
  ep_error ended_pair = ErrorCode.NoError ∧ marked sum_crc 1000 0 true (1, 0) 0 s_open s_committed ∧
  goffsets (t_groups s_committed) !! ("g"%string, 1, 0) = Some (mk_offset 41 0 None 7).
Proof.
  destruct (end_txn_atomic sum_crc str_le (clock_at 7000) 2 5 commit_request s_open ended_pair s_committed open_row
    s_open_reachable s_committed_eq s_open_pair) as ((H2 & H3 & _) & _ & H1 & _);
    [vm_compute; reflexivity | reflexivity |].
  split; [by apply H1 |]. split.
  - specialize (H2 (1, 0)). rewrite decide_True in H2 by (vm_compute; eexists; reflexivity).
    assert (Hp : part_row 1000 (1, 0) s_open = Some 0) by (vm_compute; reflexivity).
    cbn [er_producer_id commit_request] in H2. rewrite Hp in H2. exact H2.
  - rewrite H3. assert (Hs : staged_of 1000 s_open !! ("g"%string, 1, 0) = Some (mk_staged 41 0 None)) by (vm_compute; reflexivity).
    cbn [outcome open_row tx_forced default er_producer_id er_committed commit_request]. rewrite Hs. reflexivity.
Defined.

Lemma end_txn_retry_witness :
  handle_end_txn sum_crc (clock_at 9000) 2 5 commit_request s_committed = (Ok ended_pair, s_committed).
Proof.
  apply (end_txn_retry sum_crc str_le (clock_at 7000) (clock_at 9000) 2 5 commit_request s_open ended_pair s_committed
    s_open_reachable s_committed_eq); reflexivity.
Defined.

(** The instance that committed, acting at the epoch it no longer has. *)
Lemma stale_pair_refused_witness :
  ∃ r, handle_add_partitions (clock_at 9000) 3 (mk_add_partitions "t" 1000 0 [("orders"%string, [0])]) s_committed =
    (Ok r, s_committed) ∧
    (is_error (ar_error r) ∨ ∃ code, is_error code ∧
       ar_results r = (λ t : string * list Z, (t.1, (λ p, (p, code)) <$> t.2)) <$> [("orders"%string, [0])]).
Proof.
  assert (Hn : ¬ current_pair "t" 1000 0 s_committed).
  { intros (_ & r & Hr & _ & He). vm_compute in Hr. injection Hr as <-. discriminate. }
  destruct (stale_pair_refused sum_crc str_le (clock_at 9000) 2 3 "t" 1000 0 s_committed Hn) as (H & _).
  exact (H [("orders"%string, [0])]).
Defined.

(** A second instance starts while the transaction is open. *)
Definition s_taken : TxDb MemLog :=
  run (handle_init_producer_id sum_crc (clock_at 8000) no_acls anybody (Some "t"%string) 60000) s_open.

Lemma s_taken_eq :
  handle_init_producer_id sum_crc (clock_at 8000) no_acls anybody (Some "t"%string) 60000 s_open =
    (Ok (mk_init_response ErrorCode.NoError 1000 1), s_taken).
Proof. apply (run_eq (handle_init_producer_id sum_crc (clock_at 8000) no_acls anybody (Some "t"%string) 60000) s_open). vm_compute. reflexivity. Qed.

Lemma init_producer_id_takes_over_witness :
  current_pair "t" 1000 1 s_taken ∧ ¬ current_pair "t" 1000 0 s_taken ∧ staged_of 1000 s_taken = ∅.
Proof.
  destruct (init_producer_id_takes_over sum_crc str_le (clock_at 8000) no_acls anybody "t" 60000 s_open _ s_taken
    s_open_reachable ltac:(discriminate) s_taken_eq ltac:(reflexivity)) as (H1 & _ & _ & H4).
  cbn [ir_producer_id ir_producer_epoch] in H1, H4.
  split; [apply H1; split; reflexivity |]. split; [intros H; apply H1 in H as [_ H]; discriminate | exact H4].
Defined.

(** Its producer is silent past its timeout. *)
Definition s_expired : TxDb MemLog := run (expire_stale_transactions sum_crc (clock_at 70000)) s_open.

Lemma s_expired_eq : expire_stale_transactions sum_crc (clock_at 70000) s_open = (Ok 1, s_expired).
Proof. apply (run_eq (expire_stale_transactions sum_crc (clock_at 70000)) s_open). vm_compute. reflexivity. Qed.

Lemma expiry_ends_stale_witness :
  is_ongoing 1000 s_open = true ∧ is_ongoing 1000 s_expired = false ∧
  ∃ r r', producer_row 1000 s_open = Some r ∧ producer_row 1000 s_expired = Some r' ∧ pr_epoch r' = pr_epoch r + 1.
Proof.
  destruct (expiry_ends_stale sum_crc str_le (clock_at 70000) s_open (Ok 1) s_expired s_open_reachable s_expired_eq)
    as (_ & _ & _ & _ & H).
  assert (Hs : (stale_producers (clock_at 70000) s_open).*1 = [1000]) by (vm_compute; reflexivity).
  rewrite Hs in H. destruct (H 1000 ltac:(left)) as [H1 H2].
  split; [vm_compute; reflexivity |]. split; [exact H1 | exact H2].
Defined.

(** ** Two outcomes of one transaction *)

(** A marker of an operator, on one partition. *)
Definition marker (committed : bool) (partition : Z) : Marker :=
  mk_marker 1000 0 committed [("orders"%string, [partition])].
Definition marked_by (committed : bool) (partition : Z) (d : TxDb MemLog) : TxDb MemLog :=
  run (write_txn_markers sum_crc 8 no_acls anybody [marker committed partition]) d.

(** The kind of the last batch of a partition: a commit marker or an abort
    marker. *)
Definition last_marker (p : Z * Z) (d : TxDb MemLog) : option RawBatch := snd <$> last (mem_log (t_log d) p).

(** [finish_partition] writes each operator's own outcome, not the one that
    was forced first: WriteTxnMarkers that commits partition 0 and then aborts
    partition 1 of the same open transaction is accepted both times, leaves a
    COMMIT marker in one and an ABORT marker in the other, and ends the
    transaction as aborted with [forced_result] still saying committed and its
    staged offset dropped. *)
Theorem markers_split_outcome :
  let d := marked_by false 1 (marked_by true 0 s_open) in
  last_marker (1, 0) d = Some (marker_batch sum_crc 1000 0 true) ∧
  last_marker (1, 1) d = Some (marker_batch sum_crc 1000 0 false) ∧
  marker_batch sum_crc 1000 0 true ≠ marker_batch sum_crc 1000 0 false ∧
  (λ t, (tx_state t, tx_forced t)) <$> txn_row 1000 d = Some (TxnAborted, Some true) ∧
  goffsets (t_groups d) !! ("g"%string, 1, 0) = None.
Proof. vm_compute. repeat split. discriminate. Qed.

(** ** A producer at the last epoch *)

(** One producer at the last epoch stops expiry for all: a sweep that picks
    the expired transaction of a producer at epoch 32767 cannot fence it and
    fails, so the rollback undoes every abort of that sweep, and the next one
    meets the same row.  [txn_inv] is the invariant of the tables. *)
Theorem expiry_blocked_at_last_epoch {L} {store : LogStore L} {laws : LogStoreLaws L} crc32c clock (d : TxDb L) q :
  txn_inv d → q ∈ (stale_producers clock d).*1 → at_last_epoch q d →
  ∃ x, (expire_stale_transactions crc32c clock d).1 = Err x.
Proof.
  intros Hi Hq (r & Hr & He). destruct (stale_producers_spec clock d) as (Hnd & _ & Hexp & _).
  destruct (expire_stale_transactions crc32c clock d) as [[n|x] d'] eqn:E; [| by exists x]. exfalso.
  unfold expire_stale_transactions, bind, gets in E.
  pose proof (expire_each_inv _ _ _ _ _ _ _ E Hi) as Hi'.
  apply expire_each_spec in E as (_ & _ & E); [| done..].
  destruct (E q Hq) as (_ & r0 & r' & Hr0 & Hr' & Hep). pose proof (inv_epoch d' Hi' q r' Hr').
  assert (r0 = r) as -> by congruence. lia.
Qed.

(** The producer of the scenario after 32,767 more InitProducerIds, in a
    transaction. *)
Definition s_last_epoch : TxDb MemLog :=
  on_prod (set_producers <[1000 := mk_producer i16_max (Some "t"%string) None 5]>) s_init.
Definition s_blocked : TxDb MemLog :=
  run (handle_add_partitions (clock_at 6000) 3 (mk_add_partitions "t" 1000 i16_max [("orders"%string, [0])])) s_last_epoch.

Lemma s_blocked_inv : txn_inv s_blocked.
Proof.
  assert (Hi : txn_inv s_init).
  { apply (handle_init_inv sum_crc (clock_at 5000) no_acls anybody (Some "t"%string) 60000 s_start
      (mk_init_response ErrorCode.NoError 1000 0)); [vm_compute; reflexivity | apply initial_inv]. }
  assert (Hl : txn_inv s_last_epoch).
  { apply (inv_producer 1000 (mk_producer 0 (Some "t"%string) None 5) (mk_producer i16_max (Some "t"%string) None 5) s_init);
      try done.
    intros q. change (producer_row q s_last_epoch) with
      (<[1000 := mk_producer i16_max (Some "t"%string) None 5]> (producers (t_prod s_init)) !! q).
    destruct (decide (q = 1000)) as [->|]; [by rewrite lookup_insert_eq | by rewrite lookup_insert_ne]. }
  eapply (handle_add_partitions_inv (clock_at 6000) 3 (mk_add_partitions "t" 1000 i16_max [("orders"%string, [0])]) s_last_epoch);
    [| exact Hl]. vm_compute. reflexivity.
Qed.

Lemma expiry_blocked_at_last_epoch_witness :
  ∃ x, (expire_stale_transactions sum_crc (clock_at 70000) s_blocked).1 = Err x.
Proof.
  apply (expiry_blocked_at_last_epoch sum_crc (clock_at 70000) s_blocked 1000 s_blocked_inv); [vm_compute; left |].
  exists (mk_producer i16_max (Some "t"%string) None 6). split; [vm_compute; reflexivity | apply Z.le_refl].
Defined.
