(* ===== verification/Config.v ===== *)
(** * extension/src/config.rs: topic configuration

    The table of known configs, what a client may write, and how the stored
    overrides are read back.  A topic's overrides are the [config] object of its
    row, a map from names to texts.  Strings are UTF-8 bytes; [trim] is Rust's,
    over the characters Unicode calls white space, and [java_trim] the one the
    cleanup policy uses. *)

From Stdlib Require Import Ascii.
From stdpp Require Import gmap strings.
From S2P Require Import Prelude Errors Offsets.

#[local] Open Scope Z_scope.

Inductive ConfigType : Type := Long | Int | Text.

Definition wire (k : ConfigType) : Z := match k with Long => 5 | Int => 3 | Text => 2 end.

Record ConfigDef : Type := mk_def {
  cd_name : string;
  cd_default : string;
  cd_kind : ConfigType;
  cd_min : Z;
  cd_max : Z;
  cd_writable : bool }.

Definition TOPIC_CONFIGS : list ConfigDef := [
  mk_def "retention.ms" "604800000" Long (-1) i64_max true;
  mk_def "retention.bytes" "-1" Long (-1) i64_max true;
  mk_def "max.message.bytes" "1048588" Int 0 (8 * 1024 * 1024) true;
  mk_def "compression.type" "producer" Text 0 i64_max false;
  mk_def "min.insync.replicas" "1" Int 1 i64_max false;
  mk_def "message.timestamp.type" "CreateTime" Text 0 i64_max false;
  mk_def "segment.bytes" "1073741824" Long 1024 i64_max true;
  mk_def "segment.ms" "604800000" Long 1 i64_max true;
  mk_def "min.compaction.lag.ms" "0" Long 0 i64_max true;
  mk_def "delete.retention.ms" "86400000" Long 0 i64_max true;
  mk_def "cleanup.policy" "delete" Text 0 i64_max true ].

Definition BROKER_CONFIGS : list ConfigDef := [
  mk_def "log.retention.ms" "604800000" Long (-1) i64_max false;
  mk_def "num.partitions" "1" Int 1 i64_max false ].

Definition topic_def (name : string) : option ConfigDef :=
  snd <$> list_find (λ d, cd_name d = name) TOPIC_CONFIGS.

(** ** Text *)

Definition code (a : ascii) : Z := Z.of_N (N_of_ascii a).

(** [parse::<i64>]. *)
Definition parse_i64 (s : string) : option Z :=
  in_bounds i64_min i64_max
    (match s with
     | String "-" s' => Z.opp <$> unsigned s'
     | String "+" s' => unsigned s'
     | _ => unsigned s
     end).

Fixpoint drop_while (f : ascii → bool) (l : list ascii) : list ascii :=
  match l with
  | a :: l' => if f a then drop_while f l' else l
  | [] => []
  end.

(** [trim_matches] with a predicate on single-byte characters. *)
Definition trim_matches (f : ascii → bool) (s : string) : string :=
  String.string_of_list_ascii
    (reverse (drop_while f (reverse (drop_while f (String.list_ascii_of_string s))))).

(** The UTF-8 encodings of the characters [char::is_whitespace] accepts. *)
Definition white_space : list (list Z) :=
  [[9]; [10]; [11]; [12]; [13]; [32]; [194; 133]; [194; 160]; [225; 154; 128]] ++
  ((λ n, [226; 128; n]) <$> [128; 129; 130; 131; 132; 133; 134; 135; 136; 137; 138; 168; 169; 175]) ++
  [[226; 129; 159]; [227; 128; 128]].

Fixpoint strip_prefix (p l : list Z) : option (list Z) :=
  match p, l with
  | [], _ => Some l
  | x :: p', y :: l' => if x =? y then strip_prefix p' l' else None
  | _, [] => None
  end.

(** Drop leading characters of [ws]; every round drops at least a byte. *)
Fixpoint strip (ws : list (list Z)) (fuel : nat) (l : list Z) : list Z :=
  match fuel with
  | O => l
  | S f =>
      match head (omap (λ w, strip_prefix w l) ws) with
      | Some l' => strip ws f l'
      | None => l
      end
  end.

(** [str::trim]. *)
Definition trim (s : string) : string :=
  let l := code <$> String.list_ascii_of_string s in
  let l := strip white_space (length l) l in
  let l := reverse (strip (reverse <$> white_space) (length l) (reverse l)) in
  String.string_of_list_ascii ((λ z, ascii_of_N (Z.to_N z)) <$> l).

Definition java_trim : string → string := trim_matches (λ c, code c <=? 32).

Definition java_ws (c : ascii) : bool :=
  let n := code c in (n =? 32) || ((9 <=? n) && (n <=? 13)).

(** [split(',')]: at least one item. *)
Fixpoint split_comma (l : list ascii) : list (list ascii) :=
  match l with
  | [] => [[]]
  | a :: l' =>
      if code a =? 44 then [] :: split_comma l'
      else match split_comma l' with
           | item :: items => (a :: item) :: items
           | [] => [[a]]
           end
  end.

(** ** The cleanup policy *)

Record CleanupPolicy : Type := mk_policy { compacts : bool; deletes : bool }.

(** One round of the loop of [policy_list]; [None] has returned. *)
Definition policy_item (acc : option CleanupPolicy) (item : list ascii) : option CleanupPolicy :=
  p ← acc;
  let word := trim_matches java_ws (String.string_of_list_ascii item) in
  if decide (word = "compact"%string) then if compacts p then None else Some (mk_policy true (deletes p))
  else if decide (word = "delete"%string) then if deletes p then None else Some (mk_policy (compacts p) true)
  else None.

Definition policy_list (value : string) : option CleanupPolicy :=
  foldl policy_item (Some (mk_policy false false))
    (split_comma (String.list_ascii_of_string (java_trim value))).

Definition parse_cleanup_policy (value : option string) : CleanupPolicy :=
  default (mk_policy false true) (v ← value; policy_list v).

Definition DEFAULT_RETENTION_MS : Z := 604800000.
Definition DEFAULT_MAX_MESSAGE_BYTES : Z := 1048588.

(** ** What may be written *)

(** [Internal] is an error of the database; messages are left out. *)
Inductive ConfigError : Type :=
| Unknown (name : string)
| UnknownTopic (name : string)
| ReadOnly (name implemented : string)
| BadValue (name value : string)
| UnsupportedResource (t : Z)
| Denied (code : ErrorCode.t)
| ConfigInternal.

Definition config_error_code (e : ConfigError) : ErrorCode.t :=
  match e with
  | Unknown _ | ReadOnly _ _ | BadValue _ _ => ErrorCode.InvalidConfig
  | UnknownTopic _ => ErrorCode.UnknownTopicOrPartition
  | UnsupportedResource _ => ErrorCode.InvalidRequest
  | Denied c => c
  | ConfigInternal => ErrorCode.UnknownServerError
  end.

Definition OP_SET : Z := 0.
Definition OP_DELETE : Z := 1.
Definition OP_APPEND : Z := 2.
Definition OP_SUBTRACT : Z := 3.

Definition validate_cleanup_policy (value : string) : result ConfigError unit :=
  match policy_list value with
  | Some _ => Ok tt
  | None => Err (BadValue "cleanup.policy" (java_trim value))
  end.

Definition validate (def : ConfigDef) (value : string) : result ConfigError unit :=
  match cd_kind def with
  | Long | Int =>
      match parse_i64 value with
      | None => Err (BadValue (cd_name def) value)
      | Some n => if (n <? cd_min def) || (cd_max def <? n) then Err (BadValue (cd_name def) value)
                  else Ok tt
      end
  | Text => if decide (cd_name def = "cleanup.policy"%string) then validate_cleanup_policy value else Ok tt
  end.

Definition check_alterable (def : ConfigDef) (op : Z) (value : option string) : result ConfigError unit :=
  let? _ := if (op =? OP_SET) || (op =? OP_DELETE) then Ok tt
            else if (op =? OP_APPEND) || (op =? OP_SUBTRACT)
            then Err (BadValue (cd_name def) "append/subtract on a scalar config")
            else Err (BadValue (cd_name def) "unknown operation") in
  if cd_writable def then
    if op =? OP_SET then
      match value with
      | None => Err (BadValue (cd_name def) "null")
      | Some v => validate def v
      end
    else Ok tt
  else if op =? OP_DELETE then Ok tt
  else if decide (trim <$> value = Some (cd_default def)) then Ok tt
  else Err (ReadOnly (cd_name def) (cd_default def)).

(** ** The stored overrides *)

Abbreviation Overrides := (gmap string string).

(** The statement of [replace_topic_config]. *)
Definition keep_only (keep : list string) (c : Overrides) : Overrides := filter (λ e, e.1 ∈ keep) c.

(** [alter_topic_config], on the row's [config]. *)
Definition alter_config (name : string) (op : Z) (value : option string) (c : Overrides)
    : result ConfigError Overrides :=
  match topic_def name with
  | None => Err (Unknown name)
  | Some def =>
      let? _ := check_alterable def op value in
      if negb (cd_writable def) then Ok c
      else if op =? OP_DELETE then Ok (delete name c)
      else if negb (op =? OP_SET) then Err (BadValue name "unknown operation")
      else match value with
           | None => Err (BadValue name "null")
           | Some v => let? _ := validate def v in Ok (<[name := v]> c)
           end
  end.

Record ConfigEntry : Type := mk_entry {
  ce_name : string;
  ce_value : option string;
  ce_is_default : bool;
  ce_read_only : bool;
  ce_kind : ConfigType }.

Definition describe_topic (c : Overrides) : list ConfigEntry :=
  (λ def, match c !! cd_name def with
          | Some v => mk_entry (cd_name def) (Some v) false (negb (cd_writable def)) (cd_kind def)
          | None => mk_entry (cd_name def) (Some (cd_default def)) true (negb (cd_writable def)) (cd_kind def)
          end) <$> TOPIC_CONFIGS.

Definition describe_broker : list ConfigEntry :=
  (λ def, mk_entry (cd_name def) (Some (cd_default def)) true true (cd_kind def)) <$> BROKER_CONFIGS.

(** The closure [get] of the readers. *)
Definition get_i64 (name : string) (fallback : Z) (c : Overrides) : Z :=
  default fallback (v ← c !! name; parse_i64 v).

Record RetentionPolicy : Type := mk_retention_policy {
  retention_ms : option Z;
  retention_bytes : option Z }.

Definition retention_policy (c : Overrides) : RetentionPolicy :=
  let ms := get_i64 "retention.ms" DEFAULT_RETENTION_MS c in
  let bytes := get_i64 "retention.bytes" (-1) c in
  mk_retention_policy (if ms <? 0 then None else Some ms) (if bytes <? 0 then None else Some bytes).

(** [guc] is the setting [kafgres.segment_bytes]. *)
Definition segment_bytes (guc : Z) (c : Overrides) : Z := get_i64 "segment.bytes" guc c.
Definition segment_ms (c : Overrides) : Z := get_i64 "segment.ms" 604800000 c.

Record CompactionLimits : Type := mk_limits { min_compaction_lag_ms : Z; delete_retention_ms : Z }.

Definition compaction_limits (c : Overrides) : CompactionLimits :=
  mk_limits (get_i64 "min.compaction.lag.ms" 0 c) (get_i64 "delete.retention.ms" 86400000 c).

Definition cleanup_policy (c : Overrides) : CleanupPolicy := parse_cleanup_policy (c !! "cleanup.policy"%string).
Definition is_compacted (c : Overrides) : bool := compacts (cleanup_policy c).
(** The column [resolve_topic] casts to [bigint]. *)
Definition max_message_bytes (c : Overrides) : Z := get_i64 "max.message.bytes" DEFAULT_MAX_MESSAGE_BYTES c.

(** ** What is stored can be read *)

(** Every override is of a config this broker lets a client write, with a value
    it accepts. *)
Definition well_typed (c : Overrides) : Prop :=
  ∀ name v, c !! name = Some v →
    ∃ def, topic_def name = Some def ∧ cd_writable def = true ∧ validate def v = Ok tt.

Lemma well_typed_empty : well_typed ∅.
Proof. intros name v. by rewrite lookup_empty. Qed.

Lemma well_typed_filter (P : string * string → Prop) `{∀ e, Decision (P e)} c :
  well_typed c → well_typed (filter P c).
Proof. intros Hc name v Hv. apply map_lookup_filter_Some in Hv as [Hv _]. by apply Hc. Qed.

Lemma well_typed_delete name c : well_typed c → well_typed (delete name c).
Proof. intros Hc n v Hv. apply lookup_delete_Some in Hv as [_ Hv]. by apply Hc. Qed.

Lemma well_typed_insert name def v c :
  topic_def name = Some def → cd_writable def = true → validate def v = Ok tt →
  well_typed c → well_typed (<[name := v]> c).
Proof.
  intros Hd Hw Hv Hc n u Hu. apply lookup_insert_Some in Hu as [[<- <-] | [_ Hu]]; [by exists def | by apply Hc].
Qed.

Lemma alter_config_typed name op value c c' :
  well_typed c → alter_config name op value c = Ok c' → well_typed c'.
Proof.
  intros Hc. unfold alter_config, rbind. destruct (topic_def name) as [def|] eqn:Hd; [| done].
  destruct (check_alterable def op value); [| done]. destruct (cd_writable def) eqn:Hw; cbn [negb].
  2:{ by intros [= <-]. }
  destruct (op =? OP_DELETE); [intros [= <-]; by apply well_typed_delete |].
  destruct (negb _); [done |]. destruct value as [v|]; [| done].
  destruct (validate def v) as [[]|] eqn:Hv; [| done]. intros [= <-]. by apply (well_typed_insert _ def).
Qed.

(** What an accepted change leaves: nothing fails once [check_alterable] has
    passed. *)
Lemma check_alterable_alters name def op value c :
  topic_def name = Some def → check_alterable def op value = Ok tt →
  alter_config name op value c =
    Ok (if negb (cd_writable def) then c
        else if op =? OP_DELETE then delete name c
        else match value with Some v => <[name := v]> c | None => c end).
Proof.
  intros Hd Hc. unfold alter_config. rewrite Hd, Hc. cbn [rbind].
  destruct (cd_writable def) eqn:Hw; [| done]. cbn [negb].
  destruct (op =? OP_DELETE) eqn:Ho; [done |].
  unfold check_alterable, rbind in Hc. rewrite Hw, Ho in Hc.
  destruct (op =? OP_SET) eqn:Hs; cbn [orb negb] in *.
  - destruct value as [v|]; [| done]. by rewrite Hc.
  - by destruct ((op =? OP_APPEND) || (op =? OP_SUBTRACT)).
Qed.

(** A stored number is in its config's range. *)
Lemma stored_number name def c v :
  well_typed c → topic_def name = Some def → cd_kind def ≠ Text → c !! name = Some v →
  ∃ n, parse_i64 v = Some n ∧ cd_min def ≤ n ≤ cd_max def.
Proof.
  intros Hc Hd Hk Hv. destruct (Hc _ _ Hv) as (def' & Hd' & _ & Hval).
  rewrite Hd in Hd'. injection Hd' as <-. unfold validate in Hval.
  destruct (cd_kind def) eqn:E; [| | done].
  all: destruct (parse_i64 v) as [n|]; [| done]; exists n; split; [done |];
    destruct (orb_false_elim (n <? cd_min def) (cd_max def <? n)); [by destruct (_ || _) | lia].
Qed.

Lemma get_i64_range name def fallback c :
  well_typed c → topic_def name = Some def → cd_kind def ≠ Text →
  get_i64 name fallback c = fallback ∧ c !! name = None ∨
  ∃ v n, c !! name = Some v ∧ parse_i64 v = Some n ∧ get_i64 name fallback c = n ∧
    cd_min def ≤ n ≤ cd_max def.
Proof.
  intros Hc Hd Hk. unfold get_i64. destruct (c !! name) as [v|] eqn:Hv; [right | by left].
  destruct (stored_number name def c v) as (n & Hn & Hr); [done.. |].
  exists v, n. cbn. by rewrite Hn.
Qed.

(** The words of a policy list. *)
Definition policy_words (value : string) : list string :=
  (λ item, trim_matches java_ws (String.string_of_list_ascii item)) <$>
    split_comma (String.list_ascii_of_string (java_trim value)).

Lemma policy_fold items p r :
  let words := (λ item, trim_matches java_ws (String.string_of_list_ascii item)) <$> items in
  foldl policy_item (Some p) items = Some r ↔
    (∀ w, w ∈ words → w = "compact"%string ∨ w = "delete"%string) ∧ NoDup words ∧
    ("compact"%string ∈ words → compacts p = false) ∧ ("delete"%string ∈ words → deletes p = false) ∧
    r = mk_policy (compacts p || bool_decide ("compact"%string ∈ words))
          (deletes p || bool_decide ("delete"%string ∈ words)).
Proof.
  cbv zeta. revert p. induction items as [|i items IH]; intros p.
  { cbn. rewrite !bool_decide_false by apply not_elem_of_nil. rewrite !orb_false_r.
    split; [intros [= <-] | intros (_ & _ & _ & _ & ->)].
    - split; [by intros w ?%not_elem_of_nil |]. split; [constructor |].
      split; [by intros ?%not_elem_of_nil |]. split; [by intros ?%not_elem_of_nil | by destruct p].
    - by destruct p. }
  rewrite fmap_cons. cbn [foldl]. set (w := trim_matches java_ws _).
  set (ws := (λ item, trim_matches java_ws (String.string_of_list_ascii item)) <$> items) in *.
  assert (Hnone : foldl policy_item None items = None) by (clear; by induction items).
  unfold policy_item at 2. cbn [mbind option_bind]. fold w.
  rewrite NoDup_cons.
  destruct (decide (w = "compact"%string)) as [Hw|Hw].
  - destruct (compacts p) eqn:Hp.
    + rewrite Hnone. split; [done | intros (_ & _ & H & _); rewrite Hw in H; discriminate H; constructor].
    + rewrite IH. cbn [compacts deletes]. rewrite Hw, (bool_decide_true ("compact"%string ∈ "compact"%string :: ws)) by constructor.
      rewrite (bool_decide_ext ("delete"%string ∈ "compact"%string :: ws) ("delete"%string ∈ ws)) by set_solver.
      set_solver.
  - destruct (decide (w = "delete"%string)) as [Hd|Hd].
    2:{ rewrite Hnone. split; [done |]. intros (H & _). destruct (H w); [constructor | done..]. }
    destruct (deletes p) eqn:Hp.
    + rewrite Hnone. split; [done | intros (_ & _ & _ & H & _); rewrite Hd in H; discriminate H; constructor].
    + rewrite IH. cbn [compacts deletes]. rewrite Hd, (bool_decide_true ("delete"%string ∈ "delete"%string :: ws)) by constructor.
      rewrite (bool_decide_ext ("compact"%string ∈ "delete"%string :: ws) ("compact"%string ∈ ws)) by set_solver.
      set_solver.
Qed.

(** C39. Overrides that went through the checks are typed: every reader gives the
    value that is stored, never its fallback in place of one, and that value is
    in the config's range; a stored cleanup policy is read as the list it
    spells, [compact] and [delete] each at most once and nothing else. *)
Theorem overrides_are_typed guc c :
  well_typed c →
  0 ≤ max_message_bytes c ≤ 8 * 1024 * 1024 ∧ 1 ≤ segment_ms c ∧
  (1024 ≤ segment_bytes guc c ∨ c !! "segment.bytes"%string = None) ∧
  0 ≤ min_compaction_lag_ms (compaction_limits c) ∧ 0 ≤ delete_retention_ms (compaction_limits c) ∧
  (∀ name def v, topic_def name = Some def → cd_kind def ≠ Text → c !! name = Some v →
     ∃ n, parse_i64 v = Some n ∧ cd_min def ≤ n ≤ cd_max def ∧ ∀ fallback, get_i64 name fallback c = n) ∧
  (∀ v, c !! "cleanup.policy"%string = Some v →
     NoDup (policy_words v) ∧
     (∀ w, w ∈ policy_words v ↔
        w = "compact"%string ∧ compacts (cleanup_policy c) = true ∨
        w = "delete"%string ∧ deletes (cleanup_policy c) = true)).
Proof.
  intros Hc.
  assert (Hget : ∀ name def fb lo, topic_def name = Some def → cd_kind def ≠ Text → lo = cd_min def → lo ≤ fb →
    lo ≤ get_i64 name fb c).
  { intros name def fb lo Hd Hk -> Hfb.
    destruct (get_i64_range name def fb c Hc Hd Hk) as [[-> _]|(v & n & _ & _ & -> & ?)]; lia. }
  split_and!.
  - by eapply (Hget "max.message.bytes"%string).
  - destruct (get_i64_range "max.message.bytes" (mk_def "max.message.bytes" "1048588" Int 0 (8 * 1024 * 1024) true)
      DEFAULT_MAX_MESSAGE_BYTES c Hc) as [[E _]|(v & n & _ & _ & E & [_ ?])]; [done.. | |];
      unfold max_message_bytes; rewrite E; [unfold DEFAULT_MAX_MESSAGE_BYTES; lia | done].
  - by eapply (Hget "segment.ms"%string).
  - destruct (get_i64_range "segment.bytes" (mk_def "segment.bytes" "1073741824" Long 1024 i64_max true)
      guc c Hc) as [[_ E]|(v & n & _ & _ & E & [? _])]; [done.. | by right |].
    left. unfold segment_bytes. by rewrite E.
  - by eapply (Hget "min.compaction.lag.ms"%string).
  - by eapply (Hget "delete.retention.ms"%string).
  - intros name def v Hd Hk Hv. destruct (stored_number name def c v) as (n & Hn & Hr); [done.. |].
    exists n. split_and!; try done; try lia. intros fb. unfold get_i64. rewrite Hv. cbn. by rewrite Hn.
  - intros v Hv. destruct (Hc _ _ Hv) as (def & Hd & _ & Hval). injection Hd as <-. unfold validate in Hval. cbn in Hval.
    unfold validate_cleanup_policy in Hval. unfold cleanup_policy, parse_cleanup_policy. rewrite Hv. cbn.
    destruct (policy_list v) as [p|] eqn:Hp; [| done]. apply policy_fold in Hp as (Hw & Hnd & _ & _ & ->).
    fold (policy_words v) in *. split; [done |]. intros w. cbn. rewrite !bool_decide_eq_true.
    split; [intros Hin; destruct (Hw w Hin) as [->| ->]; auto | by intros [[-> ?]|[-> ?]]].
Qed.

Definition sample_overrides : Overrides :=
  <["cleanup.policy" := " delete , compact"]> (<["max.message.bytes" := "2048"]> ∅)%string.

Lemma overrides_are_typed_witness :
  well_typed sample_overrides ∧ max_message_bytes sample_overrides = 2048 ∧
  (0 ≤ max_message_bytes sample_overrides ≤ 8 * 1024 * 1024) ∧ is_compacted sample_overrides = true.
Proof.
  assert (H : well_typed sample_overrides).
  { eapply well_typed_insert; [reflexivity | reflexivity | vm_compute; reflexivity |].
    eapply well_typed_insert; [reflexivity | reflexivity | vm_compute; reflexivity | apply well_typed_empty]. }
  split; [exact H |]. split; [vm_compute; reflexivity |]. split; [exact (proj1 (overrides_are_typed 0 _ H)) |].
  vm_compute. reflexivity.
Defined.
