(* ===== verification/Topics.v ===== *)
(** * extension/src/meta.rs, handlers/topics.rs and handlers/configs.rs: topics

    Creating, growing and dropping topics, and changing their configuration.
    The name and partition count of a topic are in [t_topics] of Txn.v; its uuid
    and overrides are the other columns of its [kafgres_topics] row, [w_cols];
    [w_next] is the sequence [kafgres_topic_id_seq], which a rollback does not
    turn back.  [create_log] and [drop_log] are what the storage engine does for
    a partition besides its row in [kafgres_partitions]; they may fail.
    [segment] is whether the engine keeps its log outside the database, where a
    rollback does not reach it.  [gen_uuid] is the uuid drawn for a new row.
    Statements of the database do not fail here. *)

From Stdlib Require Import Ascii.
From stdpp Require Import gmap strings sorting.
From S2P Require Import Prelude Errors Cleaner Producer Acl Group Pmeta Store Offsets Txn Config.

#[local] Open Scope Z_scope.

Record World (L : Type) : Type := mk_world {
  w_tx : TxDb L;
  w_cols : gmap Z (bytes * Overrides);
  w_next : Z }.
Arguments mk_world {L}. Arguments w_tx {L}. Arguments w_cols {L}. Arguments w_next {L}.

Inductive TopicError : Type :=
| InvalidName
| InvalidPartitions (n : Z)
| InvalidReplicationFactor (n : Z)
| AlreadyExists
| UnknownTopicName
| InvalidConfig
| PartitionCountReduced (have want : Z)
| TopicInternal.

Definition topic_error_code (e : TopicError) : ErrorCode.t :=
  match e with
  | InvalidName => ErrorCode.InvalidTopicException
  | InvalidPartitions _ | PartitionCountReduced _ _ => ErrorCode.InvalidPartitions
  | InvalidReplicationFactor _ => ErrorCode.InvalidReplicationFactor
  | AlreadyExists => ErrorCode.TopicAlreadyExists
  | UnknownTopicName => ErrorCode.UnknownTopicOrPartition
  | InvalidConfig => ErrorCode.InvalidConfig
  | TopicInternal => ErrorCode.UnknownServerError
  end.

Definition MAX_PARTITIONS : Z := 10000.

Definition name_char (a : ascii) : bool :=
  let n := code a in
  ((48 <=? n) && (n <=? 57)) || ((65 <=? n) && (n <=? 90)) || ((97 <=? n) && (n <=? 122)) ||
  (n =? 46) || (n =? 95) || (n =? 45).

Definition validate_topic_name (name : string) : result TopicError unit :=
  if decide (name = ""%string) then Err InvalidName
  else if 249 <? Z.of_nat (String.length name) then Err InvalidName
  else if decide (name = "."%string ∨ name = ".."%string) then Err InvalidName
  else if negb (forallb name_char (String.list_ascii_of_string name)) then Err InvalidName
  else Ok tt.

Definition validate_replication_factor (rf : Z) : result TopicError unit :=
  if (rf =? -1) || (rf =? 1) then Ok tt else Err (InvalidReplicationFactor rf).

Record CreatedTopic : Type := mk_created {
  ct_topic_id : Z;
  ct_uuid : bytes;
  ct_partitions : Z }.

Definition no_uuid : bytes := replicate 16 Byte.x00.

(** [to_uuid]. *)
Definition to_uuid (raw : bytes) : bytes := if (length raw =? 16)%nat then raw else no_uuid.

Record ResolvedTopic : Type := mk_resolved {
  rt_topic_id : Z;
  rt_name : string;
  rt_uuid : bytes;
  rt_max_message_bytes : Z;
  rt_compacted : bool }.

(** [f] on each element until one fails. *)
Fixpoint each {S E A} (f : A → ST S E unit) (l : list A) : ST S E unit :=
  match l with
  | [] => ret tt
  | a :: l' => f a;;; each f l'
  end.

Section Catalog.

Context {L : Type}.
Variables create_log drop_log : Z * Z → ST L StoreError unit.
Variable segment : bool.
Variable gen_uuid : Z → bytes.

Implicit Types w : World L.
Abbreviation world A := (ST (World L) TopicError A).

Definition on_tx (f : TxDb L → TxDb L) w : World L := mk_world (f (w_tx w)) (w_cols w) (w_next w).
Definition on_cols (f : gmap Z (bytes * Overrides) → gmap Z (bytes * Overrides)) w : World L :=
  mk_world (w_tx w) (f (w_cols w)) (w_next w).
Definition set_topics (f : gmap Z (string * Z) → gmap Z (string * Z)) (d : TxDb L) : TxDb L :=
  mk_tx (t_prod d) (t_meta d) (t_staged d) (t_groups d) (t_consumers d) (f (t_topics d)) (t_log d).

Definition topic_name_by_id (id : Z) w : option string := fst <$> t_topics (w_tx w) !! id.

Definition topic_by_uuid (uuid : bytes) w : option (Z * string) :=
  e ← list_find (λ e : Z * (bytes * Overrides), e.2.1 = uuid) (map_to_list (w_cols w));
  name ← topic_name_by_id e.2.1 w; Some (e.2.1, name).

(** By name, or by uuid when the request carries no name. *)
Definition resolve_topic (name : string) (uuid : bytes) w : option ResolvedTopic :=
  '(id, n) ← (if decide (name = ""%string) then topic_by_uuid uuid w
              else id ← topic_id_by_name name (w_tx w); Some (id, name));
  '(raw, c) ← w_cols w !! id;
  Some (mk_resolved id n (to_uuid raw) (max_message_bytes c) (is_compacted c)).

(** What the engines do for a partition, after its row. *)
Definition store_create (p : Z * Z) : world unit := λ w,
  let d := on_meta (create_partition p 0) (w_tx w) in
  match create_log p (t_log d) with
  | (Ok _, l) => (Ok tt, on_tx (λ _, set_log l d) w)
  | (Err _, l) => (Err TopicInternal, on_tx (λ _, set_log l d) w)
  end.
Definition store_drop (p : Z * Z) : world unit := λ w,
  let d := on_meta (drop_partition p) (w_tx w) in
  match drop_log p (t_log d) with
  | (Ok _, l) => (Ok tt, on_tx (λ _, set_log l d) w)
  | (Err _, l) => (Err TopicInternal, on_tx (λ _, set_log l d) w)
  end.

(** [dbtx::atomically]: on an error the tables go back, the sequence and the
    files do not. *)
Definition atomically {A} (m : world A) : world A := λ w,
  match m w with
  | (Ok a, w') => (Ok a, w')
  | (Err e, w') => (Err e, mk_world (if segment then set_log (t_log (w_tx w')) (w_tx w) else w_tx w)
                             (w_cols w) (w_next w'))
  end.

(** [jsonb_object(keys, values)]: the last of equal keys stays. *)
Definition jsonb_object (config : list (string * string)) : Overrides :=
  foldl (λ c e, <[e.1 := e.2]> c) ∅ config.

(** The [INSERT], with the id it draws. *)
Definition insert_topic (name : string) (partitions : Z) (config : list (string * string)) w : Z * World L :=
  let id := w_next w in
  (id, mk_world (set_topics <[id := (name, partitions)]> (w_tx w))
         (<[id := (gen_uuid id, jsonb_object config)]> (w_cols w)) (id + 1)).

Definition create_topic (name : string) (partitions : Z) (config : list (string * string))
    : world CreatedTopic := λ w,
  match validate_topic_name name with
  | Err e => (Err e, w)
  | Ok _ =>
      if (partitions <? 1) || (MAX_PARTITIONS <? partitions) then (Err (InvalidPartitions partitions), w)
      else if decide (is_Some (topic_id_by_name name (w_tx w))) then (Err AlreadyExists, w)
      else
        let '(id, w) := insert_topic name partitions config w in
        (each (λ p, store_create (id, p)) (seqZ 0 partitions);;;
         ret (mk_created id (to_uuid (gen_uuid id)) partitions)) w
  end.

Definition create_partitions (name : string) (total : Z) : world unit := λ w,
  match topic_id_by_name name (w_tx w) with
  | None => (Err UnknownTopicName, w)
  | Some id =>
      match t_topics (w_tx w) !! id with
      | None => (Err UnknownTopicName, w)
      | Some (_, have) =>
          if total <? have then (Err (PartitionCountReduced have total), w)
          else if (total =? have) || (MAX_PARTITIONS <? total) then (Err (InvalidPartitions total), w)
          else
            (each (λ p, store_create (id, p)) (seqZ have (total - have));;;
             λ w, (Ok tt, on_tx (set_topics (alter (λ t, (t.1, total)) id)) w)) w
      end
  end.

(** The rows of [kafgres_partitions] of a topic. *)
Definition partitions_of (id : Z) w : list (Z * Z) :=
  filter (λ p, p.1 = id) (map_to_list (partitions (t_meta (w_tx w)))).*1.

Definition delete_topic (name : string) : world bool := λ w,
  match topic_id_by_name name (w_tx w) with
  | None => (Ok false, w)
  | Some id =>
      (each store_drop (partitions_of id w);;;
       λ w, (Ok true, on_cols (delete id) (on_tx (forget_topic id) w))) w
  end.

(** ** The handlers of topics *)

Variables (acls : AclCache) (who : Principal).

Record CreatableTopic : Type := mk_creatable {
  cr_name : string;
  cr_num_partitions : Z;
  cr_replication_factor : Z;
  cr_configs : list (string * option string) }.

Definition creation_config (configs : list (string * option string)) : result TopicError (list (string * string)) :=
  foldr (λ e acc,
    match topic_def e.1 with
    | None => Err InvalidConfig
    | Some def =>
        match check_alterable def OP_SET e.2 with
        | Err _ => Err InvalidConfig
        | Ok _ =>
            let? rest := acc in
            Ok (if negb (cd_writable def) then rest
                else match e.2 with Some v => (e.1, v) :: rest | None => rest end)
        end
    end) (Ok []) configs.

Definition creation_outcome (t : CreatableTopic) (validate_only : bool) : world CreatedTopic := λ w,
  let checked :=
    let? _ := validate_topic_name (cr_name t) in
    let? _ := validate_replication_factor (cr_replication_factor t) in
    let? _ := if (cr_num_partitions t <? 1) && negb (cr_num_partitions t =? -1)
              then Err (InvalidPartitions (cr_num_partitions t)) else Ok tt in
    creation_config (cr_configs t) in
  let parts := if cr_num_partitions t =? -1 then 1 else cr_num_partitions t in
  match checked with
  | Err e => (Err e, w)
  | Ok config =>
      if validate_only then
        if decide (is_Some (topic_id_by_name (cr_name t) (w_tx w))) then (Err AlreadyExists, w)
        else (Ok (mk_created 0 no_uuid parts), w)
      else atomically (create_topic (cr_name t) parts config) w
  end.

Record CreatableTopicResult : Type := mk_creatable_result {
  cs_name : string;
  cs_topic_id : bytes;
  cs_error : ErrorCode.t;
  cs_num_partitions : Z;
  cs_replication_factor : Z }.

(** Allowed to create the topic, or anything in the cluster. *)
Definition may_create (name : string) : result ErrorCode.t unit :=
  match check acls who Create Topic name with
  | Ok _ => Ok tt
  | Err e => match check acls who Create Cluster "kafka-cluster" with Ok _ => Ok tt | Err _ => Err e end
  end.

Definition create_one (validate_only : bool) (t : CreatableTopic) w : CreatableTopicResult * World L :=
  match may_create (cr_name t) with
  | Err c => (mk_creatable_result (cr_name t) no_uuid c (-1) (-1), w)
  | Ok _ =>
      match creation_outcome t validate_only w with
      | (Ok made, w) => (mk_creatable_result (cr_name t) (ct_uuid made) ErrorCode.NoError (ct_partitions made) 1, w)
      | (Err e, w) => (mk_creatable_result (cr_name t) no_uuid (topic_error_code e) (-1) (-1), w)
      end
  end.

(** A handler's loop: one answer per element, the state threaded through. *)
Fixpoint for_all {A B} (f : A → World L → B * World L) (l : list A) w : list B * World L :=
  match l with
  | [] => ([], w)
  | a :: l' => let '(b, w) := f a w in let '(bs, w) := for_all f l' w in (b :: bs, w)
  end.

Definition admin {A B} (what : string) (f : A → World L → B * World L) (l : list A) w
    : result HandlerError (list B) * World L :=
  match check_admin_len what (Z.of_nat (length l)) with
  | Err e => (Err e, w)
  | Ok _ => let '(bs, w) := for_all f l w in (Ok bs, w)
  end.

Definition create_topics (validate_only : bool) (ts : list CreatableTopic) w :=
  admin "create topics list" (create_one validate_only) ts w.

Record DeletableTopicResult : Type := mk_deletable_result {
  ds_name : option string;
  ds_topic_id : bytes;
  ds_error : ErrorCode.t }.

Definition resolve_delete (name : option string) (uuid : bytes) w : option (Z * string) :=
  if decide (uuid ≠ no_uuid) then topic_by_uuid uuid w
  else match name with
       | Some n => id ← topic_id_by_name n (w_tx w); Some (id, n)
       | None => None
       end.

Definition delete_one (wanted : option string * bytes) w : DeletableTopicResult * World L :=
  let '(name, uuid) := wanted in
  let resolved := resolve_delete name uuid w in
  let acl_name := match resolved with Some (_, n) => n | None => default ""%string name end in
  match check acls who Delete Topic acl_name with
  | Err c => (mk_deletable_result name uuid c, w)
  | Ok _ =>
      match resolved with
      | None => (mk_deletable_result name uuid ErrorCode.UnknownTopicOrPartition, w)
      | Some (_, real_name) =>
          match delete_topic real_name w with
          | (Ok true, w) => (mk_deletable_result (Some real_name) uuid ErrorCode.NoError, w)
          | (Ok false, w) => (mk_deletable_result (Some real_name) uuid ErrorCode.UnknownTopicOrPartition, w)
          | (Err e, w) => (mk_deletable_result (Some real_name) uuid (topic_error_code e), w)
          end
      end
  end.

(** [topics] carries names and ids, [topic_names] the names of older versions. *)
Definition delete_topics (topics : list (option string * bytes)) (topic_names : list string) w :=
  admin "delete topics list" delete_one (topics ++ ((λ n, (Some n, no_uuid)) <$> topic_names)) w.

Definition create_partitions_one (validate_only : bool) (t : string * Z) w : (string * ErrorCode.t) * World L :=
  match check acls who Alter Topic t.1 with
  | Err c => ((t.1, c), w)
  | Ok _ =>
      let '(outcome, w) :=
        if validate_only then
          (match topic_id_by_name t.1 (w_tx w) with None => Err UnknownTopicName | Some _ => Ok tt end, w)
        else atomically (create_partitions t.1 t.2) w in
      ((t.1, match outcome with Ok _ => ErrorCode.NoError | Err e => topic_error_code e end), w)
  end.

Definition create_partitions_handler (validate_only : bool) (ts : list (string * Z)) w :=
  admin "create partitions list" (create_partitions_one validate_only) ts w.

(** ** The handlers of configs *)

Definition RESOURCE_TOPIC : Z := 2.
Definition RESOURCE_BROKER : Z := 4.
Definition SOURCE_TOPIC_CONFIG : Z := 1.
Definition SOURCE_DEFAULT_CONFIG : Z := 5.

Record DescribedConfig : Type := mk_described {
  dc_name : string;
  dc_value : option string;
  dc_read_only : bool;
  dc_source : Z;
  dc_type : Z }.

(** Broker resources are the cluster's to authorize, all others the topic's. *)
Definition config_access (op : Operation) (resource_type : Z) (name : string) : result ErrorCode.t unit :=
  if resource_type =? RESOURCE_BROKER then check acls who op Cluster "kafka-cluster"
  else check acls who op Topic name.

Definition overrides_of (id : Z) w : Overrides := match w_cols w !! id with Some (_, c) => c | None => ∅ end.

Definition describe_one w (resource : Z * string * option (list string)) : ErrorCode.t * list DescribedConfig :=
  let '(resource_type, name, keys) := resource in
  match config_access DescribeConfigs resource_type name with
  | Err c => (c, [])
  | Ok _ =>
      let '(c, entries) :=
        if resource_type =? RESOURCE_BROKER then (ErrorCode.NoError, describe_broker)
        else if resource_type =? RESOURCE_TOPIC then
          match topic_id_by_name name (w_tx w) with
          | None => (ErrorCode.UnknownTopicOrPartition, [])
          | Some id => (ErrorCode.NoError, describe_topic (overrides_of id w))
          end
        else (ErrorCode.InvalidRequest, []) in
      let wanted := default [] keys in
      (c, (λ e, mk_described (ce_name e) (ce_value e) (ce_read_only e)
                  (if ce_is_default e then SOURCE_DEFAULT_CONFIG else SOURCE_TOPIC_CONFIG)
                  (wire (ce_kind e))) <$>
          filter (λ e, wanted = [] ∨ ce_name e ∈ wanted) entries)
  end.

Definition describe_configs (resources : list (Z * string * option (list string))) w
    : result HandlerError (list (ErrorCode.t * list DescribedConfig)) :=
  let? _ := check_admin_len "describe configs resource list" (Z.of_nat (length resources)) in
  Ok (describe_one w <$> resources).

(** An entry of a request: the name, the operation and the value. *)
Abbreviation ConfigChange := (string * Z * option string)%type.

(** The statements of config.rs on the row of a topic. *)
Definition alter_topic_config (id : Z) (change : ConfigChange) : ST (World L) ConfigError unit := λ w,
  let '(name, op, value) := change in
  match alter_config name op value (overrides_of id w) with
  | Ok c => (Ok tt, on_cols (alter (λ row, (row.1, c)) id) w)
  | Err e => (Err e, w)
  end.
Definition replace_topic_config (id : Z) (keep : list string) : ST (World L) ConfigError unit := λ w,
  (Ok tt, on_cols (alter (λ row, (row.1, keep_only keep row.2)) id) w).

(** The first pass: every entry, before any is stored. *)
Fixpoint check_entries (entries : list ConfigChange) : result ConfigError unit :=
  match entries with
  | [] => Ok tt
  | (name, op, value) :: rest =>
      match topic_def name with
      | None => Err (Unknown name)
      | Some def => let? _ := check_alterable def op value in check_entries rest
      end
  end.

Definition apply_resource (resource_type : Z) (name : string) (entries : list ConfigChange)
    (validate_only : bool) : ST (World L) ConfigError unit := λ w,
  if negb (resource_type =? RESOURCE_TOPIC) then (Err (UnsupportedResource resource_type), w)
  else match topic_id_by_name name (w_tx w) with
  | None => (Err (UnknownTopic name), w)
  | Some id =>
      match check_entries entries with
      | Err e => (Err e, w)
      | Ok _ => if validate_only then (Ok tt, w) else each (alter_topic_config id) entries w
      end
  end.

Definition is_writable (name : string) : bool :=
  match topic_def name with Some d => cd_writable d | None => false end.

(** [entries] are names and values; every operation is a set. *)
Definition replace_resource (resource_type : Z) (name : string) (entries : list (string * option string))
    (validate_only : bool) : ST (World L) ConfigError unit := λ w,
  if negb (resource_type =? RESOURCE_TOPIC) then (Err (UnsupportedResource resource_type), w)
  else match topic_id_by_name name (w_tx w) with
  | None => (Err (UnknownTopic name), w)
  | Some id =>
      let sets := (λ e, (e.1, OP_SET, e.2)) <$> entries in
      match check_entries sets with
      | Err e => (Err e, w)
      | Ok _ =>
          if validate_only then (Ok tt, w)
          else
            let keep := filter (λ n, is_writable n = true) (entries.*1) in
            (replace_topic_config id keep;;;
             each (alter_topic_config id) (filter (λ e, e.1.1 ∈ keep) sets)) w
      end
  end.

Definition alter_one {A} (validate_only : bool)
    (apply : Z → string → A → bool → ST (World L) ConfigError unit) (resource : Z * string * A) w
    : ErrorCode.t * World L :=
  let '(resource_type, name, entries) := resource in
  let '(outcome, w) :=
    match config_access AlterConfigs resource_type name with
    | Err c => (Err (Denied c), w)
    | Ok _ => apply resource_type name entries validate_only w
    end in
  (match outcome with Ok _ => ErrorCode.NoError | Err e => config_error_code e end, w).

Definition incremental_alter_configs (validate_only : bool) (resources : list (Z * string * list ConfigChange)) w :=
  admin "alter configs resource list" (alter_one validate_only apply_resource) resources w.

Definition alter_configs (validate_only : bool) (resources : list (Z * string * list (string * option string))) w :=
  admin "alter configs resource list" (alter_one validate_only replace_resource) resources w.

End Catalog.

(** ** What a topic id leaves in the tables *)

Lemma lookup_filter_keep {K A} `{Countable K} (P : K * A → Prop) `{∀ e, Decision (P e)} (m : gmap K A) k :
  (∀ v, P (k, v)) → filter P m !! k = m !! k.
Proof.
  intros HP. rewrite map_lookup_filter. destruct (m !! k) as [v|]; [| done]. cbn.
  by rewrite option_guard_True by apply HP.
Qed.

#[local] Set Default Proof Using "Type".

Section Invariant.

Context {L : Type}.

Implicit Types w : World L.

(** No row of partition metadata names the topic. *)
Definition meta_unused (i : Z) (m : Meta) : Prop :=
  ∀ p, partitions m !! (i, p) = None ∧ epochs m !! (i, p) = None ∧ markers m !! (i, p) = None ∧
    aborted m !! (i, p) = None ∧ txn_parts m !! (i, p) = None.

(** What the tables of partition metadata hold for a partition. *)
Definition meta_lookup (q : Z * Z) (m : Meta) :=
  (partitions m !! q, epochs m !! q, markers m !! q, aborted m !! q, txn_parts m !! q).

(** No row of any table names the topic. *)
Definition unused (i : Z) w : Prop :=
  t_topics (w_tx w) !! i = None ∧ w_cols w !! i = None ∧ meta_unused i (t_meta (w_tx w)) ∧
  Forall (λ b, br_topic b ≠ i) (batches (t_prod (w_tx w))) ∧
  (∀ pid g p, staged_of pid (w_tx w) !! (g, i, p) = None) ∧
  (∀ g p, goffsets (t_groups (w_tx w)) !! (g, i, p) = None).

(** Only a partition with a row has history, markers or aborted transactions. *)
Definition rows_first (m : Meta) : Prop :=
  ∀ q, partitions m !! q = None → epochs m !! q = None ∧ markers m !! q = None ∧ aborted m !! q = None.

(** Partitions are those the counts [T] allow. *)
Definition parts_in (T : gmap Z (string * Z)) (m : Meta) : Prop :=
  ∀ i p, is_Some (partitions m !! (i, p)) → ∃ n k, T !! i = Some (n, k) ∧ 0 ≤ p < k.

Record catalog_core w : Prop := mk_core {
  ok_names : ∀ i j n a b, t_topics (w_tx w) !! i = Some (n, a) → t_topics (w_tx w) !! j = Some (n, b) → i = j;
  ok_ids : ∀ i, w_next w ≤ i → unused i w;
  ok_cols : dom (w_cols w) = dom (t_topics (w_tx w));
  ok_topic : ∀ i n k, t_topics (w_tx w) !! i = Some (n, k) →
    validate_topic_name n = Ok tt ∧ 1 ≤ k ≤ MAX_PARTITIONS;
  ok_rows : rows_first (t_meta (w_tx w));
  ok_configs : ∀ i u c, w_cols w !! i = Some (u, c) → well_typed c }.

Definition catalog_ok w : Prop := catalog_core w ∧ parts_in (t_topics (w_tx w)) (t_meta (w_tx w)).

(** Everything but partition metadata and the log is the same. *)
Definition same_rows w w' : Prop :=
  t_topics (w_tx w') = t_topics (w_tx w) ∧ w_cols w' = w_cols w ∧ w_next w' = w_next w ∧
  t_prod (w_tx w') = t_prod (w_tx w) ∧ t_staged (w_tx w') = t_staged (w_tx w) ∧
  t_groups (w_tx w') = t_groups (w_tx w).

Lemma same_rows_refl w : same_rows w w.
Proof. done. Qed.
Lemma same_rows_trans w1 w2 w3 : same_rows w1 w2 → same_rows w2 w3 → same_rows w1 w3.
Proof. unfold same_rows. intuition congruence. Qed.

Lemma create_meta q e m :
  partitions (create_partition q e m) =
    (if decide (is_Some (partitions m !! q)) then partitions m else <[q := mk_partition 0 e 0]> (partitions m)) ∧
  epochs (create_partition q e m) =
    (if decide (is_Some (history q m !! e)) then epochs m else <[q := <[e := 0]> (history q m)]> (epochs m)) ∧
  markers (create_partition q e m) = markers m ∧ aborted (create_partition q e m) = aborted m ∧
  txn_parts (create_partition q e m) = txn_parts m.
Proof.
  unfold create_partition. cbv zeta.
  assert (Hh : history q (set_partition q (mk_partition 0 e 0) m) = history q m) by done.
  destruct (partitions m !! q) as [r|] eqn:Er; [| rewrite Hh];
    destruct (history q m !! e) as [s|] eqn:Es; split_and!; try done;
    try (rewrite decide_True by (by eexists); done);
    try (rewrite decide_False by (by intros [? [=]]); done).
Qed.

Lemma create_meta_other q e m r : r ≠ q →
  partitions (create_partition q e m) !! r = partitions m !! r ∧
  epochs (create_partition q e m) !! r = epochs m !! r.
Proof.
  intros Hr. destruct (create_meta q e m) as (-> & -> & _).
  split; case_decide; [done | by apply lookup_insert_ne | done | by apply lookup_insert_ne].
Qed.

Lemma create_meta_unused q e m i : q.1 ≠ i → meta_unused i m → meta_unused i (create_partition q e m).
Proof.
  intros Hq Hm p. destruct (Hm p) as (H1 & H2 & H3 & H4 & H5).
  destruct (create_meta q e m) as (_ & _ & -> & -> & ->).
  destruct (create_meta_other q e m (i, p)) as [-> ->]; [by intros <- |]. done.
Qed.

Lemma drop_meta_unused q m i : meta_unused i m → meta_unused i (drop_partition q m).
Proof.
  intros Hm p. destruct (Hm p) as (H1 & H2 & H3 & H4 & H5). cbn.
  split_and!; apply lookup_delete_None; auto.
Qed.

Lemma create_rows_first q e m : rows_first m → rows_first (create_partition q e m).
Proof.
  intros Hm r Hr. destruct (create_meta q e m) as (E1 & _ & E3 & E4 & _). rewrite E3, E4.
  destruct (decide (r = q)) as [->|Hne].
  - rewrite E1 in Hr. case_decide as Hs; [by rewrite Hr in Hs; destruct Hs | by rewrite lookup_insert_eq in Hr].
  - destruct (create_meta_other q e m r Hne) as [E1' ->]. rewrite E1' in Hr. by apply Hm.
Qed.

Lemma drop_rows_first q m : rows_first m → rows_first (drop_partition q m).
Proof.
  intros Hm r. cbn. destruct (decide (r = q)) as [->|Hne]; [by rewrite !lookup_delete_eq |].
  rewrite !lookup_delete_ne by done. apply Hm.
Qed.

Lemma create_parts_in T i p n k e m :
  T !! i = Some (n, k) → 0 ≤ p < k → parts_in T m → parts_in T (create_partition (i, p) e m).
Proof.
  intros HT Hp Hm j q Hs. destruct (decide ((j, q) = (i, p))) as [[= -> ->]|Hne]; [by exists n, k |].
  destruct (create_meta_other (i, p) e m (j, q) Hne) as [E _]. rewrite E in Hs. by apply Hm.
Qed.

Lemma drop_parts_in T q m : parts_in T m → parts_in T (drop_partition q m).
Proof. intros Hm i p [r Hr]. cbn in Hr. apply lookup_delete_Some in Hr as [_ Hr]. apply Hm. by exists r. Qed.

(** Metadata may change where it keeps the unused ids unused. *)
Lemma core_meta w w' :
  same_rows w w' → rows_first (t_meta (w_tx w')) →
  (∀ i, w_next w ≤ i → meta_unused i (t_meta (w_tx w')) ) → catalog_core w → catalog_core w'.
Proof.
  intros (E1 & E2 & E3 & E4 & E5 & E6) Hr Hu [H1 H2 H3 H4 H5 H6].
  split; rewrite ?E1, ?E2, ?E3; try done. intros i Hi. destruct (H2 i Hi) as (U1 & U2 & U3 & U4 & U5 & U6).
  unfold unused, staged_of in *. rewrite E1, E2, E4, E5, E6. split_and!; auto.
Qed.

(** ** Single partitions *)

Variables create_log drop_log : Z * Z → ST L StoreError unit.
Variable segment : bool.
Variable gen_uuid : Z → bytes.
Variables (acls : AclCache) (who : Principal).

Lemma store_create_rows q w : same_rows w (store_create create_log q w).2 ∧
  t_meta (w_tx (store_create create_log q w).2) = create_partition q 0 (t_meta (w_tx w)).
Proof. unfold store_create. cbv zeta. by destruct (create_log q _) as [[[]|] l]. Qed.

Lemma store_drop_rows q w : same_rows w (store_drop drop_log q w).2 ∧
  t_meta (w_tx (store_drop drop_log q w).2) = drop_partition q (t_meta (w_tx w)).
Proof. unfold store_drop. cbv zeta. by destruct (drop_log q _) as [[[]|] l]. Qed.

(** What holds of every state a loop passes through holds at its end. *)
Lemma each_invariant {S E A} (P : S → Prop) (f : A → ST S E unit) l s :
  (∀ a s, a ∈ l → P s → P (f a s).2) → P s → P (each f l s).2.
Proof.
  revert s. induction l as [|a l IH]; intros s Hf Hs; [done |]. cbn [each]. unfold bind.
  pose proof (Hf a s ltac:(constructor) Hs) as Ha. destruct (f a s) as [[[]|] s'] eqn:Ef; [| done].
  apply IH; [| done]. intros b t Hb. apply Hf. by constructor.
Qed.

Definition creating (i : Z) (T : gmap Z (string * Z)) w0 w : Prop :=
  same_rows w0 w ∧ catalog_core w ∧ parts_in T (t_meta (w_tx w)).

Lemma creating_each i n k T ps w :
  T !! i = Some (n, k) → (∀ p, p ∈ ps → 0 ≤ p < k) → i < w_next w →
  catalog_core w → parts_in T (t_meta (w_tx w)) →
  creating i T w (each (λ p, store_create create_log (i, p)) ps w).2.
Proof.
  intros HT Hps Hi Hc Hp. apply each_invariant; [| by split].
  intros p w' Hin (Hs & Hc' & Hp'). destruct (store_create_rows (i, p) w') as [Hs' Hm'].
  split; [by eapply same_rows_trans |]. split.
  - apply (core_meta w'); [done | rewrite Hm'; apply create_rows_first, Hc' | | done].
    intros j Hj. rewrite Hm'. apply create_meta_unused; [| apply (ok_ids w' Hc' j Hj)].
    destruct Hs as (_ & _ & En & _). rewrite En in Hj. cbn. lia.
  - rewrite Hm'. apply (create_parts_in T i p n k); auto.
Qed.

(** Dropping rows of partitions, whether or not the engine manages. *)
Lemma dropping_each ps w : catalog_ok w →
  same_rows w (each (store_drop drop_log) ps w).2 ∧ catalog_ok (each (store_drop drop_log) ps w).2.
Proof.
  intros Hw. apply (each_invariant (λ w', same_rows w w' ∧ catalog_ok w')); [| by split].
  intros q w' _ (Hs & Hc & Hp). destruct (store_drop_rows q w') as [Hs' Hm'].
  split; [by eapply same_rows_trans |]. split.
  - apply (core_meta w'); [done | rewrite Hm'; apply drop_rows_first, Hc | | done].
    intros j Hj. rewrite Hm'. apply drop_meta_unused, (ok_ids w' Hc j Hj).
  - rewrite Hm'. destruct Hs' as (-> & _). by apply drop_parts_in.
Qed.

(** ** Names *)

Lemma topic_id_by_name_spec name (d : TxDb L) id :
  topic_id_by_name name d = Some id → ∃ k, t_topics d !! id = Some (name, k).
Proof.
  unfold topic_id_by_name. destruct (list_find _ _) as [[i [j [n k]]]|] eqn:E; [| done].
  intros [= <-]. apply list_find_Some in E as (Hi & Hn & _). cbn in Hn. subst n.
  exists k. apply elem_of_map_to_list. by eapply list_elem_of_lookup_2.
Qed.

Lemma topic_id_by_name_none name (d : TxDb L) :
  topic_id_by_name name d = None → ∀ i k, t_topics d !! i ≠ Some (name, k).
Proof.
  unfold topic_id_by_name. destruct (list_find _ _) as [[i e]|] eqn:E; [done |].
  intros _ i k Hi. apply list_find_None in E. rewrite Forall_forall in E.
  apply (E (i, (name, k))); [by apply elem_of_map_to_list | done].
Qed.

(** ** Creating *)

Lemma jsonb_object_typed config :
  Forall (λ e, ∃ def, topic_def e.1 = Some def ∧ cd_writable def = true ∧ validate def e.2 = Ok tt) config →
  well_typed (jsonb_object config).
Proof.
  unfold jsonb_object. intros H. assert (Hc : well_typed ∅) by apply well_typed_empty. revert Hc.
  generalize (∅ : Overrides). induction H as [|[n v] l (def & H1 & H2 & H3) Hl IH]; intros c Hc; [done |].
  cbn [foldl]. apply IH. by apply (well_typed_insert _ def).
Qed.

Lemma creation_config_typed configs config :
  creation_config configs = Ok config →
  Forall (λ e, ∃ def, topic_def e.1 = Some def ∧ cd_writable def = true ∧ validate def e.2 = Ok tt) config.
Proof.
  revert config. induction configs as [|[n v] l IH]; intros config; [intros [= <-]; constructor |].
  unfold creation_config. cbn [foldr fst snd]. fold (creation_config l).
  destruct (topic_def n) as [def|] eqn:Hd; [| done].
  destruct (check_alterable def OP_SET v) as [[]|] eqn:Hc; [| done].
  destruct (creation_config l) as [rest|]; [| done].
  cbn [rbind]. intros [= <-]. pose proof (IH rest eq_refl) as Hrest.
  destruct (cd_writable def) eqn:Hw; [| done]. destruct v as [v|]; [| done]. cbn [negb].
  constructor; [| done]. exists def. split_and!; [done | done |]. unfold check_alterable in Hc.
  rewrite Hw in Hc. by cbn in Hc.
Qed.

Lemma insert_topic_core name parts config w :
  catalog_ok w → validate_topic_name name = Ok tt → 1 ≤ parts ≤ MAX_PARTITIONS →
  topic_id_by_name name (w_tx w) = None → well_typed (jsonb_object config) →
  catalog_ok (insert_topic gen_uuid name parts config w).2.
Proof.
  intros [[H1 H2 H3 H4 H5 H6] Hp] Hn Hk Hf Ht. pose proof (topic_id_by_name_none _ _ Hf) as Hnone.
  split.
  - split; cbn.
    + intros i j n a b Hi Hj. apply lookup_insert_Some in Hi as [[<- Ei]|[? Hi]];
        apply lookup_insert_Some in Hj as [[<- Ej]|[? Hj]]; simplify_eq; try done;
        [by destruct (Hnone _ _ Hj) | by destruct (Hnone _ _ Hi) | by eapply H1].
    + intros i Hi. destruct (H2 i ltac:(lia)) as (U1 & U2 & U). unfold unused. cbn.
      rewrite !lookup_insert_ne by lia. done.
    + by rewrite !dom_insert_L, H3.
    + intros i n k Hi. apply lookup_insert_Some in Hi as [[<- [= <- <-]]|[_ Hi]]; [done | by apply (H4 i)].
    + done.
    + intros i u c Hi. apply lookup_insert_Some in Hi as [[<- [= <- <-]]|[_ Hi]]; [done | by apply (H6 i u)].
  - intros i p Hs. cbn in *. destruct (Hp i p Hs) as (n & k & Hi & Hr).
    exists n, k. split; [| done]. rewrite lookup_insert_ne; [done |]. intros <-.
    destruct (H2 (w_next w)) as (U1 & _); [lia |]. by rewrite U1 in Hi.
Qed.

(** An id that is gone stays gone. *)
Definition kept w w' : Prop :=
  w_next w ≤ w_next w' ∧ ∀ i, i < w_next w → t_topics (w_tx w) !! i = None → t_topics (w_tx w') !! i = None.

Lemma kept_refl w : kept w w.
Proof. split; [lia | done]. Qed.
Lemma kept_trans w1 w2 w3 : kept w1 w2 → kept w2 w3 → kept w1 w3.
Proof. intros [H1 H2] [H3 H4]. split; [lia |]. intros i Hi Hn. apply H4; [lia | auto]. Qed.

Definition fine w w' : Prop := catalog_ok w' ∧ kept w w'.

Lemma fine_refl w : catalog_ok w → fine w w.
Proof. split; [done | apply kept_refl]. Qed.
Lemma fine_trans w1 w2 w3 : fine w1 w2 → fine w2 w3 → fine w1 w3.
Proof. intros [_ H1] [H2 H3]. split; [done | by eapply kept_trans]. Qed.

Lemma bind_each_state {S E A B} (f : A → ST S E unit) l (g : unit → S → result E B * S) s :
  (bind (each f l) g s).2 = (each f l s).2 ∨ (bind (each f l) g s) = g tt (each f l s).2.
Proof. unfold bind. destruct (each f l s) as [[[]|] s']; [by right | by left]. Qed.

Lemma create_topic_fine name parts config w :
  catalog_ok w → well_typed (jsonb_object config) →
  fine w (create_topic create_log gen_uuid name parts config w).2.
Proof.
  intros Hw Ht. unfold create_topic. destruct (validate_topic_name name) as [[]|] eqn:Hn; [| by apply fine_refl].
  destruct ((parts <? 1) || _) eqn:Hk; [by apply fine_refl |]. apply orb_false_elim in Hk as [Hk1 Hk2].
  case_decide as Hs; [by apply fine_refl |]. apply eq_None_not_Some in Hs.
  pose proof (insert_topic_core name parts config w Hw Hn ltac:(lia) Hs Ht) as [Hc Hp].
  destruct (insert_topic gen_uuid name parts config w) as [id w1] eqn:Ei. cbn [snd] in Hc, Hp.
  unfold insert_topic in Ei. injection Ei as <- <-.
  edestruct (creating_each (w_next w) name parts (<[w_next w := (name, parts)]> (t_topics (w_tx w)))
    (seqZ 0 parts)) as ((E1 & E2 & E3 & _) & Hc' & Hp'); try done.
  { by rewrite lookup_insert_eq. }
  { intros p Hp'. apply elem_of_seqZ in Hp'. lia. }
  { cbn. lia. }
  match goal with |- fine w (bind (each ?f ?l) ?g ?s).2 =>
    assert (E : (bind (each f l) g s).2 = (each f l s).2) end.
  { by match goal with |- (bind (each ?f ?l) ?g ?s).2 = _ => destruct (bind_each_state f l g s) as [->| ->] end. }
  rewrite E. split; [split; [done | by rewrite E1] |].
  split; [rewrite E3; cbn; lia |]. intros i Hi Hnone. rewrite E1. cbn. by rewrite lookup_insert_ne by lia.
Qed.

(** Raising the count of a topic to where its partitions already are. *)
Lemma set_count_ok id n have total w :
  t_topics (w_tx w) !! id = Some (n, have) → have ≤ total ≤ MAX_PARTITIONS → catalog_core w →
  parts_in (alter (λ t, (t.1, total)) id (t_topics (w_tx w))) (t_meta (w_tx w)) →
  fine w (on_tx (set_topics (alter (λ t, (t.1, total)) id)) w).
Proof.
  intros Ht Hle [H1 H2 H3 H4 H5 H6] Hp. destruct (H4 id n have Ht) as [Hname Hrange].
  assert (Hfst : ∀ i n' a, alter (λ t : string * Z, (t.1, total)) id (t_topics (w_tx w)) !! i = Some (n', a) →
    ∃ a', t_topics (w_tx w) !! i = Some (n', a')).
  { intros i n' a Hi. destruct (decide (i = id)) as [->|Hne].
    - rewrite lookup_alter_eq, Ht in Hi. injection Hi as <- _. by exists have.
    - rewrite lookup_alter_ne in Hi by done. by exists a. }
  split; [split; [split; cbn | done] |]; try done.
  - intros i j m a b Hi Hj. apply Hfst in Hi as [a' Hi], Hj as [b' Hj]. by eapply H1.
  - intros i Hi. destruct (H2 i Hi) as (U1 & U). unfold unused. cbn. rewrite lookup_alter_None. by split.
  - by rewrite H3, dom_alter_L.
  - intros i m k Hi. destruct (decide (i = id)) as [->|Hne].
    + rewrite lookup_alter_eq, Ht in Hi. injection Hi as <- <-. split; [done | lia].
    + rewrite lookup_alter_ne in Hi by done. by apply (H4 i).
  - split; [cbn; lia |]. intros i Hi Hnone. cbn. by rewrite lookup_alter_None.
Qed.

(** A body to run in a savepoint: fine where it succeeds. *)
Definition safe {E A} (m : ST (World L) E A) w : Prop :=
  match m w with (Ok _, w') => fine w w' | (Err _, w') => w_next w ≤ w_next w' end.

Lemma fine_safe {E A} (m : ST (World L) E A) w : fine w (m w).2 → safe m w.
Proof. unfold safe. destruct (m w) as [[a|e] w']; cbn [snd]; [done | by intros [_ [? _]]]. Qed.

Lemma later_ok w n l : w_next w ≤ n → catalog_ok w →
  catalog_ok (mk_world (if segment then set_log l (w_tx w) else w_tx w) (w_cols w) n).
Proof.
  intros Hn [[H1 H2 H3 H4 H5 H6] Hp]. destruct segment; (split; [split; cbn |]; try done);
    intros i Hi; apply (H2 i); lia.
Qed.

Lemma atomically_fine {A} (m : ST (World L) TopicError A) w :
  catalog_ok w → safe m w → fine w (atomically segment m w).2.
Proof.
  unfold safe, atomically. intros Hw. destruct (m w) as [[a|e] w']; [done |]. cbn [snd]. intros Hn.
  split; [by apply later_ok |]. split; [done |]. intros i _. by destruct segment.
Qed.

Lemma topic_id_below w id t : catalog_core w → t_topics (w_tx w) !! id = Some t → id < w_next w.
Proof.
  intros Hc Ht. destruct (Z.lt_ge_cases id (w_next w)) as [|Hge]; [done |].
  destruct (ok_ids w Hc id Hge) as (U & _). by rewrite U in Ht.
Qed.

Lemma create_partitions_safe name total w :
  catalog_ok w → safe (create_partitions create_log name total) w.
Proof.
  intros Hw. unfold safe, create_partitions. destruct (topic_id_by_name name (w_tx w)) as [id|]; [| exact (Z.le_refl _)].
  destruct (t_topics (w_tx w) !! id) as [[n have]|] eqn:Ht; [| exact (Z.le_refl _)].
  destruct (Z.ltb_spec total have) as [|Hle]; [exact (Z.le_refl _) |].
  destruct ((total =? have) || _) eqn:Hk; [exact (Z.le_refl _) |]. apply orb_false_elim in Hk as [Hk1 Hk2].
  destruct Hw as [Hc Hp]. set (T := alter (λ t : string * Z, (t.1, total)) id (t_topics (w_tx w))).
  assert (Hpart : parts_in T (t_meta (w_tx w))).
  { intros i p Hs. destruct (Hp i p Hs) as (m & k & Hi & Hr). destruct (decide (i = id)) as [->|Hne].
    - rewrite Ht in Hi. injection Hi as <- <-. exists n, total.
      unfold T. rewrite lookup_alter_eq, Ht. split; [done | lia].
    - exists m, k. split; [| done]. unfold T. by rewrite lookup_alter_ne. }
  destruct (ok_topic w Hc id n have Ht) as [_ Hrange].
  destruct (creating_each id n total T (seqZ have (total - have)) w) as (Hs & Hc' & Hp'); try done.
  { unfold T. by rewrite lookup_alter_eq, Ht. }
  { intros p Hin. apply elem_of_seqZ in Hin. lia. }
  { by eapply topic_id_below. }
  unfold bind. set (r := each _ _ w) in *. clearbody r. destruct Hs as (E1 & E2 & E3 & _).
  destruct r as [[[]|e] w']; cbn [snd] in *; [| lia].
  destruct (set_count_ok id n have total w') as [H1 H2]; [by rewrite E1 | lia | done | by rewrite E1 |].
  split; [done |]. destruct H2 as [H2 H3]. split; [cbn in *; lia |]. intros i Hi Hnone.
  apply H3; [lia | by rewrite E1].
Qed.

(** ** Dropping *)

Lemma drop_each_meta ps w w' : each (store_drop drop_log) ps w = (Ok tt, w') →
  ∀ q, (q ∈ ps → meta_lookup q (t_meta (w_tx w')) = (None, None, None, None, None)) ∧
       (q ∉ ps → meta_lookup q (t_meta (w_tx w')) = meta_lookup q (t_meta (w_tx w))).
Proof.
  clear create_log. revert w. induction ps as [|r ps IH]; intros w; cbn [each].
  { intros [= <-] q. split; [by intros ?%elem_of_nil | done]. }
  unfold bind. destruct (store_drop drop_log r w) as [[[]|] w1] eqn:E; [| done].
  intros H q. destruct (store_drop_rows r w) as [_ Hm]. rewrite E in Hm. cbn [snd] in Hm.
  destruct (IH w1 H q) as [IH1 IH2]. rewrite Hm in IH2.
  assert (Hd : meta_lookup q (drop_partition r (t_meta (w_tx w))) =
    if decide (q = r) then (None, None, None, None, None) else meta_lookup q (t_meta (w_tx w))).
  { unfold meta_lookup, drop_partition. cbn. case_decide as Hq; [subst; by rewrite !lookup_delete_eq |].
    by rewrite !lookup_delete_ne. }
  rewrite Hd in IH2. rewrite elem_of_cons.
  destruct (decide (q ∈ ps)) as [Hin|Hin]; [split; [auto | tauto] |].
  rewrite IH2 by done. case_decide; split; try done; tauto.
Qed.

Lemma forget_topic_unused id w :
  (∀ p, partitions (t_meta (w_tx w)) !! (id, p) = None) → rows_first (t_meta (w_tx w)) →
  unused id (on_cols (delete id) (on_tx (forget_topic id) w)).
Proof.
  intros Hp Hr. unfold unused, on_cols, on_tx, forget_topic, staged_of. cbn.
  rewrite !lookup_delete_eq. split_and!; try done.
  - intros p. cbn. destruct (Hr (id, p) (Hp p)) as (-> & -> & ->). rewrite Hp. split_and!; try done.
    apply map_lookup_filter_None. by right; intros x _ [].
  - apply Forall_forall. intros b Hb. by apply list_elem_of_filter in Hb as [? _].
  - intros pid g p. rewrite lookup_fmap. destruct (t_staged (w_tx w) !! pid); [| by apply lookup_empty].
    cbn. apply map_lookup_filter_None. by right; intros x _ [].
  - intros g p. apply map_lookup_filter_None. by right; intros x _ [].
Qed.

Lemma forget_topic_unused_other id i w :
  unused i w → unused i (on_cols (delete id) (on_tx (forget_topic id) w)).
Proof.
  unfold unused, on_cols, on_tx, forget_topic, staged_of, meta_unused. cbn.
  intros (U1 & U2 & U3 & U4 & U5 & U6). split_and!.
  - by apply lookup_delete_None; right.
  - by apply lookup_delete_None; right.
  - intros p. destruct (U3 p) as (-> & -> & -> & -> & U). split_and!; try done.
    apply map_lookup_filter_None. by left.
  - by apply forall_filter.
  - intros pid g p. rewrite lookup_fmap. specialize (U5 pid g p).
    destruct (t_staged (w_tx w) !! pid); [| done]. cbn in *. apply map_lookup_filter_None. by left.
  - intros g p. apply map_lookup_filter_None. by left.
Qed.

Lemma forget_topic_fine id w :
  catalog_ok w → (∀ p, partitions (t_meta (w_tx w)) !! (id, p) = None) →
  fine w (on_cols (delete id) (on_tx (forget_topic id) w)).
Proof.
  intros [[H1 H2 H3 H4 H5 H6] Hp] Hnone. split; [split; [split |] |].
  - intros i j n a b. cbn. intros Hi Hj. apply lookup_delete_Some in Hi as [_ Hi], Hj as [_ Hj]. by eapply H1.
  - intros i Hi. by apply forget_topic_unused_other, H2.
  - cbn. by rewrite !dom_delete_L, H3.
  - intros i n k. cbn. intros Hi. apply lookup_delete_Some in Hi as [_ Hi]. by apply (H4 i).
  - exact H5.
  - intros i u c. cbn. intros Hi. apply lookup_delete_Some in Hi as [_ Hi]. by apply (H6 i u).
  - intros i p Hs. cbn in *. destruct (Hp i p Hs) as (n & k & Hi & Hr). exists n, k. split; [| done].
    rewrite lookup_delete_ne; [done |]. intros <-. rewrite Hnone in Hs. by destruct Hs.
  - split; [cbn; lia |]. intros i _ Hi. cbn. by apply lookup_delete_None; right.
Qed.

Lemma partitions_of_complete id w w' :
  each (store_drop drop_log) (partitions_of id w) w = (Ok tt, w') →
  ∀ p, partitions (t_meta (w_tx w')) !! (id, p) = None.
Proof.
  intros H p. destruct (drop_each_meta _ _ _ H (id, p)) as [H1 H2]. unfold meta_lookup in *.
  destruct (decide ((id, p) ∈ partitions_of id w)) as [Hin|Hin]; [by injection (H1 Hin) |].
  injection (H2 Hin) as E _ _ _ _. rewrite E. apply eq_None_not_Some. intros [r Hr]. apply Hin.
  unfold partitions_of. apply list_elem_of_filter. split; [done |].
  apply list_elem_of_fmap. exists ((id, p), r). split; [done | by apply elem_of_map_to_list].
Qed.

Lemma delete_topic_fine name w : catalog_ok w → fine w (delete_topic drop_log name w).2.
Proof.
  intros Hw. unfold delete_topic. destruct (topic_id_by_name name (w_tx w)) as [id|]; [| by apply fine_refl].
  destruct (dropping_each (partitions_of id w) w Hw) as [(E1 & E2 & E3 & E4) Hc].
  assert (Hk : fine w (each (store_drop drop_log) (partitions_of id w) w).2).
  { split; [done |]. split; [lia |]. intros i _. by rewrite E1. }
  unfold bind. destruct (each _ _ w) as [[[]|e] w'] eqn:E; [| done]. cbn [snd] in *.
  eapply fine_trans; [done |]. apply forget_topic_fine; [done | by eapply partitions_of_complete].
Qed.

(** ** Configuring *)

Lemma set_config_fine id (f : bytes * Overrides → Overrides) w :
  (∀ row, w_cols w !! id = Some row → well_typed (f row)) → catalog_ok w →
  fine w (on_cols (alter (λ row, (row.1, f row)) id) w).
Proof.
  intros Hf [[H1 H2 H3 H4 H5 H6] Hp]. split; [split; [split; cbn | done] | by split; [cbn; lia |]]; try done.
  - intros i Hi. destruct (H2 i Hi) as (U1 & U2 & U). unfold unused. cbn. by rewrite lookup_alter_None.
  - by rewrite dom_alter_L, H3.
  - intros i u c Hi. destruct (decide (i = id)) as [->|Hne].
    + rewrite lookup_alter_eq in Hi. destruct (w_cols w !! id) as [row|] eqn:E; [| done].
      injection Hi as _ <-. by apply Hf.
    + rewrite lookup_alter_ne in Hi by done. by apply (H6 i u).
Qed.

Lemma overrides_typed id w : catalog_ok w → well_typed (overrides_of id w).
Proof.
  intros [Hc _]. unfold overrides_of. destruct (w_cols w !! id) as [[u c]|] eqn:E; [| apply well_typed_empty].
  by apply (ok_configs w Hc id u).
Qed.

Lemma alter_topic_config_fine id change w : catalog_ok w → fine w (alter_topic_config id change w).2.
Proof.
  intros Hw. unfold alter_topic_config. destruct change as [[name op] value].
  destruct (alter_config _ _ _ _) as [c|] eqn:E; [| by apply fine_refl].
  apply (set_config_fine id (λ _, c)); [| done]. intros _ _. eapply alter_config_typed; [| done]. by apply overrides_typed.
Qed.

Lemma each_fine {E A} (f : A → ST (World L) E unit) l w :
  (∀ a w, catalog_ok w → fine w (f a w).2) → catalog_ok w → fine w (each f l w).2.
Proof.
  intros Hf Hw. apply (each_invariant (λ w', fine w w')); [| by apply fine_refl].
  intros a w' _ Hw'. eapply fine_trans; [done |]. by apply Hf, Hw'.
Qed.

Lemma apply_resource_fine t name entries v w :
  catalog_ok w → fine w (apply_resource t name entries v w).2.
Proof.
  intros Hw. unfold apply_resource. case_match; [by apply fine_refl |]. case_match; [| by apply fine_refl].
  case_match; [| by apply fine_refl]. destruct v; [by apply fine_refl |].
  apply each_fine; [| done]. intros. by apply alter_topic_config_fine.
Qed.

Lemma replace_resource_fine t name entries v w :
  catalog_ok w → fine w (replace_resource t name entries v w).2.
Proof.
  intros Hw. unfold replace_resource. case_match; [by apply fine_refl |]. case_match; [| by apply fine_refl].
  case_match; [| by apply fine_refl]. destruct v; [by apply fine_refl |]. unfold replace_topic_config, bind.
  assert (H2 : ∀ keep, fine w (on_cols (alter (λ row, (row.1, keep_only keep row.2)) z) w)).
  { intros keep. apply (set_config_fine z (λ row, keep_only keep row.2)); [| done].
    intros [u c] Hrow. apply well_typed_filter. destruct Hw as [Hc _]. by apply (ok_configs w Hc z u). }
  eapply fine_trans; [apply H2 |]. apply each_fine; [| by apply H2]. intros. by apply alter_topic_config_fine.
Qed.

(** ** Requests *)

Lemma for_all_fine {A B} (f : A → World L → B * World L) l w :
  (∀ a w, catalog_ok w → fine w (f a w).2) → catalog_ok w → fine w (for_all f l w).2.
Proof.
  intros Hf. revert w. induction l as [|a l IH]; intros w Hw; [by apply fine_refl |]. cbn [for_all].
  pose proof (Hf a w Hw) as Ha. destruct (f a w) as [b w1]. cbn [snd] in Ha.
  pose proof (IH w1 (proj1 Ha)) as Hl. destruct (for_all f l w1) as [bs w2]. by eapply fine_trans.
Qed.

Lemma admin_fine {A B} what (f : A → World L → B * World L) l w :
  (∀ a w, catalog_ok w → fine w (f a w).2) → catalog_ok w → fine w (admin what f l w).2.
Proof.
  intros Hf Hw. unfold admin. case_match; [| by apply fine_refl].
  pose proof (for_all_fine f l w Hf Hw) as H'. by destruct (for_all f l w).
Qed.

Lemma create_one_fine v t w : catalog_ok w → fine w (create_one create_log segment gen_uuid acls who v t w).2.
Proof.
  intros Hw. unfold create_one. destruct (may_create _ _ _); [| by apply fine_refl].
  assert (H' : fine w (creation_outcome create_log segment gen_uuid t v w).2).
  { unfold creation_outcome. destruct (rbind _ _) as [config|] eqn:E; [| by apply fine_refl].
    destruct v; [case_decide; by apply fine_refl |].
    apply atomically_fine, fine_safe, create_topic_fine; [done.. |]. apply jsonb_object_typed.
    apply (creation_config_typed (cr_configs t)). unfold rbind in E. by repeat case_match. }
  by destruct (creation_outcome _ _ _ _ _ _) as [[made|e] w'].
Qed.

Lemma delete_one_fine wanted w : catalog_ok w → fine w (delete_one drop_log acls who wanted w).2.
Proof.
  intros Hw. unfold delete_one. destruct wanted as [name uuid].
  destruct (resolve_delete name uuid w) as [[id real]|]; case_match; try by apply fine_refl.
  pose proof (delete_topic_fine real w Hw) as H'. by destruct (delete_topic _ _ _) as [[[]|e] w'].
Qed.

Lemma create_partitions_one_fine v t w :
  catalog_ok w → fine w (create_partitions_one create_log segment acls who v t w).2.
Proof.
  intros Hw. unfold create_partitions_one. case_match; [| by apply fine_refl].
  destruct v; [by apply fine_refl |].
  pose proof (atomically_fine _ w Hw (create_partitions_safe t.1 t.2 w Hw)) as H'.
  by destruct (atomically _ _ _).
Qed.

Lemma alter_one_fine {A} v (apply : Z → string → A → bool → ST (World L) ConfigError unit) r w :
  (∀ t n a v w, catalog_ok w → fine w (apply t n a v w).2) →
  catalog_ok w → fine w (alter_one acls who v apply r w).2.
Proof.
  intros Hf Hw. unfold alter_one. destruct r as [[t n] a].
  destruct (config_access _ _ _ _ _) as [[]|]; [| by apply fine_refl].
  pose proof (Hf t n a v w Hw) as H'. by destruct (apply t n a v w).
Qed.

(** A request of an administrator. *)
Inductive step : World L → World L → Prop :=
| step_create v ts w : step w (create_topics create_log segment gen_uuid acls who v ts w).2
| step_delete ts names w : step w (delete_topics drop_log acls who ts names w).2
| step_grow v ts w : step w (create_partitions_handler create_log segment acls who v ts w).2
| step_incremental v rs w : step w (incremental_alter_configs acls who v rs w).2
| step_alter v rs w : step w (alter_configs acls who v rs w).2.

Lemma step_fine w w' : catalog_ok w → step w w' → fine w w'.
Proof.
  intros Hw Hs. destruct Hs; apply admin_fine; try done; intros; auto using create_one_fine, delete_one_fine,
    create_partitions_one_fine, alter_one_fine, apply_resource_fine, replace_resource_fine.
Qed.

Lemma steps_fine w w' : catalog_ok w → rtc step w w' → fine w w'.
Proof.
  intros Hw Hs. induction Hs as [|w1 w2 w3 H12 _ IH]; [by apply fine_refl |].
  pose proof (step_fine w1 w2 Hw H12) as H. eapply fine_trans; [done | apply IH, H].
Qed.

(** C38. Whatever requests create, grow, configure and drop topics, failing ones
    and failures of the storage engine included: names stay unique and valid,
    partition counts stay in range and cover every partition there is, stored
    configurations stay readable, and no table mentions an id the sequence has
    not given out; and a dropped topic's id is never given to another. *)
Theorem topic_catalog_invariant w w' :
  catalog_ok w → rtc step w w' →
  catalog_ok w' ∧ ∀ i, i < w_next w → t_topics (w_tx w) !! i = None → t_topics (w_tx w') !! i = None.
Proof. intros Hw Hs. destruct (steps_fine w w' Hw Hs) as [H1 [_ H2]]. by split. Qed.

(** A partition as it starts: an empty log in epoch 0. *)
Definition new_partition : Z * Z → Meta → Prop := λ q m,
  meta_lookup q m = (Some (mk_partition 0 0 0), Some {[0 := 0]}, None, None, None).

Lemma create_partition_new q m :
  meta_lookup q m = (None, None, None, None, None) → new_partition q (create_partition q 0 m).
Proof.
  unfold new_partition, meta_lookup. intros [= H1 H2 H3 H4 H5].
  destruct (create_meta q 0 m) as (-> & -> & -> & -> & ->). unfold history. rewrite H1, H2, H3, H4, H5. cbn.
  rewrite lookup_empty. rewrite !decide_False by (by intros [? [=]]). by rewrite !lookup_insert_eq.
Qed.

Lemma create_each_meta id ps w w' :
  NoDup ps → each (λ p, store_create create_log (id, p)) ps w = (Ok tt, w') →
  (∀ p, p ∈ ps → meta_lookup (id, p) (t_meta (w_tx w)) = (None, None, None, None, None) →
     new_partition (id, p) (t_meta (w_tx w'))) ∧
  (∀ q, (∀ p, p ∈ ps → q ≠ (id, p)) → meta_lookup q (t_meta (w_tx w')) = meta_lookup q (t_meta (w_tx w))).
Proof.
  intros Hnd. revert w. induction Hnd as [|r ps Hr Hnd IH]; intros w; cbn [each].
  { intros [= <-]. split; [by intros p ?%elem_of_nil | done]. }
  unfold bind. destruct (store_create create_log (id, r) w) as [[[]|] w1] eqn:E; [| done].
  intros H. destruct (store_create_rows (id, r) w) as [_ Hm]. rewrite E in Hm. cbn [snd] in Hm.
  destruct (IH w1 H) as [IH1 IH2]. rewrite Hm in IH1, IH2.
  assert (Ho : ∀ q, q ≠ (id, r) → meta_lookup q (create_partition (id, r) 0 (t_meta (w_tx w))) =
    meta_lookup q (t_meta (w_tx w))).
  { intros q Hq. unfold meta_lookup. destruct (create_meta (id, r) 0 (t_meta (w_tx w))) as (_ & _ & -> & -> & ->).
    by destruct (create_meta_other (id, r) 0 (t_meta (w_tx w)) q Hq) as [-> ->]. }
  split.
  - intros p Hp Hnone. apply elem_of_cons in Hp as [->|Hp].
    + unfold new_partition. rewrite IH2; [by apply create_partition_new |]. intros p Hp [= ->]. done.
    + apply IH1; [done |]. rewrite Ho; [done |]. intros [= ->]. done.
  - intros q Hq. rewrite IH2; [apply Ho, Hq; constructor |]. intros p Hp. apply Hq. by constructor.
Qed.

(** A created topic starts from nothing: its id is the next of the
    sequence and no table held anything for it before, whatever was produced
    to, committed for or aborted in topics dropped earlier; afterwards its
    partitions are exactly 0 to [parts - 1], each an empty log in epoch 0, its
    configuration is what was asked for, and no other topic has changed. *)
Theorem create_topic_fresh name parts config w made w' :
  catalog_ok w → create_topic create_log gen_uuid name parts config w = (Ok made, w') →
  ct_topic_id made = w_next w ∧ unused (ct_topic_id made) w ∧
  t_topics (w_tx w') = <[ct_topic_id made := (name, parts)]> (t_topics (w_tx w)) ∧
  w_cols w' = <[ct_topic_id made := (gen_uuid (ct_topic_id made), jsonb_object config)]> (w_cols w) ∧
  (∀ p, if decide (0 ≤ p < parts) then new_partition (ct_topic_id made, p) (t_meta (w_tx w'))
        else partitions (t_meta (w_tx w')) !! (ct_topic_id made, p) = None) ∧
  ∀ q, q.1 ≠ ct_topic_id made → meta_lookup q (t_meta (w_tx w')) = meta_lookup q (t_meta (w_tx w)).
Proof.
  intros [Hc Hp]. unfold create_topic. destruct (validate_topic_name name) as [[]|]; [| done].
  destruct ((parts <? 1) || _); [done |]. case_decide; [done |]. unfold insert_topic, bind.
  set (w1 := mk_world _ _ _). destruct (each _ _ w1) as [[[]|] w2] eqn:E; [| done]. intros [= <- <-].
  cbn [ct_topic_id]. pose proof (ok_ids w Hc (w_next w) ltac:(lia)) as Hu.
  assert (Hs : same_rows w1 (each (λ p, store_create create_log (w_next w, p)) (seqZ 0 parts) w1).2).
  { apply (each_invariant (λ x, same_rows w1 x)); [| done]. intros p x _ Hx.
    eapply same_rows_trans; [done | apply store_create_rows]. }
  rewrite E in Hs. destruct Hs as (E1 & E2 & _). cbn [snd] in E1, E2. rewrite E1, E2.
  destruct (create_each_meta (w_next w) (seqZ 0 parts) w1 w2) as [H1 H2]; [apply NoDup_seqZ | done |].
  destruct Hu as (U1 & U2 & U3 & U4). split_and!; try done.
  - intros p. destruct (U3 p) as (V1 & V2 & V3 & V4 & V5). case_decide as Hr.
    + apply H1; [apply elem_of_seqZ; lia |]. unfold meta_lookup. cbn. by rewrite V1, V2, V3, V4, V5.
    + assert (Hl : meta_lookup (w_next w, p) (t_meta (w_tx w2)) = meta_lookup (w_next w, p) (t_meta (w_tx w))).
      { apply H2. intros p' Hp'%elem_of_seqZ [= ->]. lia. }
      injection Hl as -> _ _ _ _. done.
  - intros [i p] Hne. apply H2. intros p' _ [= -> _]. done.
Qed.

(** Dropping a topic leaves no row that names its id, in any table, and no
    row of another topic's metadata, configuration or offsets is touched. *)
Theorem delete_topic_forgets name w w' :
  catalog_ok w → delete_topic drop_log name w = (Ok true, w') →
  ∃ id, topic_id_by_name name (w_tx w) = Some id ∧ unused id w' ∧
    ∀ j, j ≠ id →
      t_topics (w_tx w') !! j = t_topics (w_tx w) !! j ∧ w_cols w' !! j = w_cols w !! j ∧
      (∀ p, meta_lookup (j, p) (t_meta (w_tx w')) = meta_lookup (j, p) (t_meta (w_tx w))) ∧
      ∀ g p, goffsets (t_groups (w_tx w')) !! (g, j, p) = goffsets (t_groups (w_tx w)) !! (g, j, p).
Proof.
  intros Hw. unfold delete_topic. destruct (topic_id_by_name name (w_tx w)) as [id|]; [| done].
  destruct (dropping_each (partitions_of id w) w Hw) as [(E1 & E2 & E3 & E4 & E5 & E6) Hc].
  unfold bind. destruct (each _ _ w) as [[[]|e] w1] eqn:E; [| done]. cbn [snd] in *. intros [= <-].
  exists id. split; [done |]. split.
  - apply forget_topic_unused; [by eapply partitions_of_complete | apply Hc].
  - intros j Hj. cbn. rewrite E1, E2, E6. rewrite !lookup_delete_ne by done. split_and!; try done.
    + intros p. destruct (drop_each_meta _ _ _ E (j, p)) as [_ Hl]. rewrite <- Hl.
      2:{ unfold partitions_of. intros Hin. by apply list_elem_of_filter in Hin as [? _]. }
      unfold meta_lookup. cbn. by rewrite lookup_filter_keep.
    + intros g p. by rewrite lookup_filter_keep.
Qed.

(** ** Configuration requests *)

(** What an accepted entry does to the overrides. *)
Definition apply_change (c : Overrides) (change : string * Z * option string) : Overrides :=
  let '(name, op, value) := change in
  if negb (is_writable name) then c
  else if op =? OP_DELETE then delete name c
  else match value with Some v => <[name := v]> c | None => c end.

Lemma check_entries_cons name op value rest :
  check_entries ((name, op, value) :: rest) = Ok tt →
  (∃ def, topic_def name = Some def ∧ check_alterable def op value = Ok tt) ∧ check_entries rest = Ok tt.
Proof.
  cbn [check_entries]. destruct (topic_def name) as [def|]; [| done]. unfold rbind.
  destruct (check_alterable def op value) as [[]|] eqn:E; [| done].
  intros H. split; [by exists def | done].
Qed.

(** Once every entry has passed the check, all are stored. *)
Lemma alter_each id u c entries w :
  w_cols w !! id = Some (u, c) → check_entries entries = Ok tt →
  each (alter_topic_config id) entries w =
    (Ok tt, on_cols <[id := (u, foldl apply_change c entries)]> w).
Proof.
  revert c w. induction entries as [|[[name op] value] rest IH]; intros c w Hrow Hc.
  { cbn. f_equal. unfold on_cols. rewrite insert_id by done. by destruct w. }
  apply check_entries_cons in Hc as [(def & Hd & Ha) Hrest]. cbn [each foldl]. unfold bind, alter_topic_config at 1.
  assert (Ho : overrides_of id w = c) by (unfold overrides_of; by rewrite Hrow).
  rewrite Ho, (check_alterable_alters name def) by done.
  assert (Hc' : apply_change c (name, op, value) = if negb (cd_writable def) then c
    else if op =? OP_DELETE then delete name c else match value with Some v => <[name := v]> c | None => c end).
  { unfold apply_change, is_writable. by rewrite Hd. }
  rewrite <- Hc'. rewrite (IH (apply_change c (name, op, value))); [| | done].
  - f_equal. unfold on_cols. cbn. f_equal. apply map_eq. intros j.
    destruct (decide (j = id)) as [->|Hne]; [by rewrite !lookup_insert_eq |].
    rewrite !lookup_insert_ne by done. by rewrite lookup_alter_ne.
  - cbn. by rewrite lookup_alter_eq, Hrow.
Qed.

(** Changing a topic's configuration is all or nothing: a request that is
    refused, or that only asks whether it would be accepted, changes nothing,
    and an accepted one stores the effect of all of its entries, in order, on
    the topic named and no other. *)
Theorem apply_resource_all_or_nothing t name entries validate_only w r w' :
  catalog_ok w → apply_resource t name entries validate_only w = (r, w') →
  match r with
  | Err _ => w' = w
  | Ok _ =>
      ∃ id, topic_id_by_name name (w_tx w) = Some id ∧ t = RESOURCE_TOPIC ∧
        check_entries entries = Ok tt ∧ w_tx w' = w_tx w ∧
        overrides_of id w' = (if validate_only then overrides_of id w
                              else foldl apply_change (overrides_of id w) entries) ∧
        ∀ j, j ≠ id → w_cols w' !! j = w_cols w !! j
  end.
Proof.
  intros [Hc _]. unfold apply_resource. destruct (Z.eqb_spec t RESOURCE_TOPIC) as [Ht|]; [| by intros [= <- <-]].
  cbn [negb]. destruct (topic_id_by_name name (w_tx w)) as [id|] eqn:Hid; [| by intros [= <- <-]].
  destruct (check_entries entries) as [[]|] eqn:He; [| by intros [= <- <-]].
  destruct validate_only; [intros [= <- <-]; by exists id |].
  destruct (topic_id_by_name_spec _ _ _ Hid) as [k Hk].
  assert (is_Some (w_cols w !! id)) as [[u c] Hrow].
  { apply elem_of_dom. rewrite (ok_cols w Hc). by apply elem_of_dom; eexists. }
  rewrite (alter_each id u c) by done. intros [= <- <-]. exists id.
  unfold overrides_of. cbn. rewrite lookup_insert_eq, Hrow. split_and!; try done.
  intros j Hj. by rewrite lookup_insert_ne.
Qed.

(** The writable entries of a replacement. *)
Definition writable_value (e : string * option string) : option (string * string) :=
  if is_writable e.1 then pair e.1 <$> e.2 else None.

Lemma check_entries_forall entries :
  check_entries entries = Ok tt ↔
  Forall (λ e : string * Z * option string, ∃ def, topic_def e.1.1 = Some def ∧
    check_alterable def e.1.2 e.2 = Ok tt) entries.
Proof.
  induction entries as [|[[name op] value] rest IH]; [by split |]. split.
  - intros H. apply check_entries_cons in H as [H1 H2]. constructor; [done | by apply IH].
  - intros H. apply Forall_cons in H as [(def & Hd & Hc) Hr]. cbn [check_entries fst snd] in *. rewrite Hd, Hc. by apply IH.
Qed.

Lemma check_entries_filter (P : string * Z * option string → Prop) `{∀ e, Decision (P e)} entries :
  check_entries entries = Ok tt → check_entries (filter P entries) = Ok tt.
Proof. rewrite !check_entries_forall. apply forall_filter. Qed.

(** A set of a writable config has a value. *)
Lemma set_has_value n v entries :
  check_entries ((λ e, (e.1, OP_SET, e.2)) <$> entries) = Ok tt → (n, v) ∈ entries → is_writable n = true →
  ∃ x, v = Some x.
Proof.
  rewrite check_entries_forall, Forall_fmap, Forall_forall. intros Hc Hin Hw.
  destruct (Hc (n, v) Hin) as (def & Hd & Ha). cbn [fst snd compose] in Hd, Ha.
  unfold is_writable in Hw. rewrite Hd in Hw. unfold check_alterable in Ha. rewrite Hw in Ha.
  destruct v as [x|]; [by exists x | done].
Qed.

Lemma foldl_insert_lookup (kv : list (string * string)) (m : Overrides) k :
  (k ∉ kv.*1 → m !! k = None) →
  foldl (λ c e, <[e.1 := e.2]> c) m kv !! k = jsonb_object kv !! k.
Proof.
  unfold jsonb_object. revert m. induction kv as [|[j v] kv IH] using rev_ind; intros m Hm.
  { cbn. rewrite lookup_empty. apply Hm. by apply not_elem_of_nil. }
  rewrite !foldl_app. cbn. destruct (decide (k = j)) as [->|Hne]; [by rewrite !lookup_insert_eq |].
  rewrite !lookup_insert_ne by done. apply IH. intros Hk. apply Hm.
  rewrite fmap_app, elem_of_app. intros [?|H]; [done |]. by apply list_elem_of_singleton in H.
Qed.

Lemma apply_sets entries (keep : list string) m :
  (∀ n, n ∈ keep ↔ n ∈ entries.*1 ∧ is_writable n = true) →
  check_entries ((λ e, (e.1, OP_SET, e.2)) <$> entries) = Ok tt →
  ∀ l, l ⊆ entries →
  foldl apply_change m (filter (λ e, e.1.1 ∈ keep) ((λ e, (e.1, OP_SET, e.2)) <$> l)) =
    foldl (λ c e, <[e.1 := e.2]> c) m (omap writable_value l).
Proof.
  intros Hk Hc l. revert m. induction l as [|[n v] l IH]; intros m Hl; [done |].
  rewrite fmap_cons. cbn [omap list_omap fst snd].
  assert (Hn : n ∈ entries.*1).
  { apply list_elem_of_fmap. exists (n, v). split; [done |]. apply Hl. constructor. }
  assert (Hl' : l ⊆ entries) by (intros x Hx; apply Hl; by constructor).
  unfold writable_value at 1. cbn [fst snd]. destruct (is_writable n) eqn:Hw.
  - rewrite filter_cons_True by (cbn; by apply Hk). cbn [foldl apply_change].
    rewrite Hw. cbn [negb]. destruct (set_has_value n v entries) as [x ->]; [done | apply Hl; constructor | done |].
    cbn. by apply IH.
  - rewrite filter_cons_False; [by apply IH |]. cbn. intros Hin%Hk. destruct Hin as [_ Hin].
    by rewrite Hw in Hin.
Qed.

(** A replacement stores exactly what it names: once accepted, the topic's
    overrides are the writable entries of the request and nothing else, so a
    config the request leaves out is back at its default; refused, it changes
    nothing. *)
Theorem replace_resource_exact t name entries w r w' :
  catalog_ok w → replace_resource t name entries false w = (r, w') →
  match r with
  | Err _ => w' = w
  | Ok _ => ∃ id, topic_id_by_name name (w_tx w) = Some id ∧
      overrides_of id w' = jsonb_object (omap writable_value entries) ∧
      ∀ j, j ≠ id → w_cols w' !! j = w_cols w !! j
  end.
Proof.
  clear create_log drop_log gen_uuid. intros [Hc _]. unfold replace_resource. destruct (Z.eqb_spec t RESOURCE_TOPIC) as [Ht|]; [| by intros [= <- <-]].
  cbn [negb]. destruct (topic_id_by_name name (w_tx w)) as [id|] eqn:Hid; [| by intros [= <- <-]].
  destruct (check_entries _) as [[]|] eqn:He; [| by intros [= <- <-]].
  destruct (topic_id_by_name_spec _ _ _ Hid) as [k Hk].
  assert (is_Some (w_cols w !! id)) as [[u c] Hrow].
  { apply elem_of_dom. rewrite (ok_cols w Hc). by apply elem_of_dom; eexists. }
  unfold replace_topic_config, bind. set (keep := filter (λ n, is_writable n = true) entries.*1).
  rewrite (alter_each id u (keep_only keep c)).
  2:{ cbn. by rewrite lookup_alter_eq, Hrow. }
  2:{ by apply check_entries_filter. }
  intros [= <- <-]. exists id. unfold overrides_of. cbn. rewrite lookup_insert_eq.
  assert (Hkeep : ∀ n, n ∈ keep ↔ n ∈ entries.*1 ∧ is_writable n = true).
  { intros n. unfold keep. rewrite list_elem_of_filter. tauto. }
  split_and!; [done | | intros j Hj; by rewrite lookup_insert_ne, lookup_alter_ne].
  rewrite (apply_sets entries keep) by done. apply map_eq. intros n. apply foldl_insert_lookup. intros Hn.
  apply map_lookup_filter_None. right. cbn. intros v _ Hin. apply Hn. apply Hkeep in Hin as [Hin Hw].
  apply list_elem_of_fmap in Hin as ([n' o] & -> & Hin). apply list_elem_of_fmap.
  destruct (set_has_value n' o entries) as [x ->]; [done.. |].
  exists (n', x). split; [done |]. apply list_elem_of_omap. exists (n', Some x). split; [done |].
  unfold writable_value. by rewrite Hw.
Qed.

End Invariant.

(** ** A broker with one engine call per partition *)

Definition plain_log : Z * Z → ST unit StoreError unit := λ _ l, (Ok tt, l).
Definition open_acls : AclCache := mk_cache [] None false [].
Definition nobody : Principal := anonymous "h".
Definition first_world : World unit :=
  mk_world (mk_tx empty_db no_partitions ∅ no_groups (mk_consumers ∅ ∅ ∅) ∅ tt) ∅ 1.
Definition uuid_for (id : Z) : bytes := be_bytes 16 id.

Lemma first_world_ok : catalog_ok first_world.
Proof.
  split; [split | by intros i p [r Hr]]; done.
Qed.

Definition orders (parts : Z) : CreatableTopic :=
  mk_creatable "orders" parts (-1) [("retention.ms", Some "60000")]%string.
Definition made_world : World unit :=
  (create_topics plain_log true uuid_for open_acls nobody false [orders 2] first_world).2.
Definition dropped_world : World unit :=
  (delete_topics plain_log open_acls nobody [] ["orders"%string] made_world).2.
Definition again_world : World unit :=
  (create_topics plain_log true uuid_for open_acls nobody false [orders 1] dropped_world).2.

Lemma topic_catalog_invariant_witness :
  t_topics (w_tx dropped_world) !! 1 = None ∧ topic_id_by_name "orders" (w_tx again_world) = Some 2 ∧
  catalog_ok again_world ∧ t_topics (w_tx again_world) !! 1 = None.
Proof.
  split; [vm_compute; reflexivity |]. split; [vm_compute; reflexivity |].
  destruct (topic_catalog_invariant plain_log plain_log true uuid_for open_acls nobody first_world again_world)
    as [H1 _]; [apply first_world_ok | |].
  { eapply rtc_l; [apply (step_create _ _ _ _ _ _ false [orders 2]) |].
    eapply rtc_l; [apply (step_delete _ _ _ _ _ _ [] ["orders"%string]) |].
    apply rtc_once, (step_create _ _ _ _ _ _ false [orders 1]). }
  split; [exact H1 | vm_compute; reflexivity].
Defined.

Lemma made_world_ok : catalog_ok made_world.
Proof.
  apply (step_fine plain_log plain_log true uuid_for open_acls nobody first_world); [apply first_world_ok |].
  apply (step_create _ _ _ _ _ _ false [orders 2]).
Qed.

Lemma pair_state {A B} (p : A * B) a : p.1 = a → p = (a, p.2).
Proof. by destruct p; intros <-. Qed.

Lemma create_topic_fresh_witness :
  let r := create_topic plain_log uuid_for "orders" 1 [] first_world in
  r.1 = Ok (mk_created 1 (uuid_for 1) 1) ∧ unused 1 first_world ∧ new_partition (1, 0) (t_meta (w_tx r.2)).
Proof.
  split; [vm_compute; reflexivity |].
  destruct (create_topic_fresh plain_log uuid_for "orders" 1 [] first_world (mk_created 1 (uuid_for 1) 1)
    (create_topic plain_log uuid_for "orders" 1 [] first_world).2) as (_ & H1 & _ & _ & H2 & _);
    [apply first_world_ok | apply pair_state; vm_compute; reflexivity |].
  split; [exact H1 | exact (H2 0)].
Defined.

Lemma delete_topic_forgets_witness :
  let r := delete_topic plain_log "orders" made_world in
  r.1 = Ok true ∧ topic_id_by_name "orders" (w_tx made_world) = Some 1 ∧ unused 1 r.2.
Proof.
  split; [vm_compute; reflexivity |]. split; [vm_compute; reflexivity |].
  destruct (delete_topic_forgets plain_log "orders" made_world (delete_topic plain_log "orders" made_world).2)
    as (id & H1 & H2 & _); [apply made_world_ok | apply pair_state; vm_compute; reflexivity |].
  assert (id = 1) as -> by (vm_compute in H1; congruence). exact H2.
Defined.

Definition two_changes : list (string * Z * option string) :=
  [("cleanup.policy", OP_SET, Some "compact"); ("retention.ms", OP_DELETE, None)]%string.

Lemma apply_resource_all_or_nothing_witness :
  let r := apply_resource RESOURCE_TOPIC "orders" two_changes false made_world in
  r.1 = Ok tt ∧ overrides_of 1 r.2 = foldl apply_change (overrides_of 1 made_world) two_changes.
Proof.
  split; [vm_compute; reflexivity |].
  destruct (apply_resource_all_or_nothing RESOURCE_TOPIC "orders" two_changes false made_world (Ok tt)
    (apply_resource RESOURCE_TOPIC "orders" two_changes false made_world).2)
    as (id & H1 & _ & _ & _ & H2 & _); [apply made_world_ok | apply pair_state; vm_compute; reflexivity |].
  assert (id = 1) as -> by (vm_compute in H1; congruence). exact H2.
Defined.

Definition new_configs : list (string * option string) :=
  [("retention.bytes", Some "5"); ("compression.type", Some "producer")]%string.

Lemma replace_resource_exact_witness :
  let r := replace_resource RESOURCE_TOPIC "orders" new_configs false made_world in
  r.1 = Ok tt ∧ overrides_of 1 r.2 = jsonb_object [("retention.bytes", "5")]%string.
Proof.
  split; [vm_compute; reflexivity |].
  destruct (replace_resource_exact RESOURCE_TOPIC "orders" new_configs made_world (Ok tt)
    (replace_resource RESOURCE_TOPIC "orders" new_configs false made_world).2)
    as (id & H1 & H2 & _); [apply made_world_ok | apply pair_state; vm_compute; reflexivity |].
  assert (id = 1) as -> by (vm_compute in H1; congruence). exact H2.
Defined.
