(* ===== verification/Produce.v ===== *)
(** * extension/src/handlers/produce.rs: the produce handler

    A produce request runs in phases over the whole request: plan (decode and
    sequence-check, reads only), reserve (window rows without an offset, the
    transaction's registration), append and stamp.  It runs once with all
    partitions in one savepoint, and again with a savepoint per partition when
    that fails.

    The state is the broker's tables and log ([World] of Topics.v), the thread's
    [LANDED] map, whether the commit was relaxed, and [p_fates]: what becomes of
    the next calls of the database, oldest first.  A call may be refused
    ([SpiError], an [Err] of the call, which then did nothing) or raise an error
    of the database ([PgRaise]: a timeout, a cancel), which unwinds to the
    savepoint around it; a list that has run out stands for calls that work.
    [PgError] is that unwinding, [Fails] an [Err] of the source.  The engine's
    [append] writes after its own statements, so an error raised there has
    appended nothing.

    [segment] is whether the engine's log survives a rollback.  Messages in
    errors are left out. *)

From Stdlib Require Import Ascii.
From stdpp Require Import gmap strings sorting.
From S2P Require Import Prelude Errors Records RecordIter Compaction Cleaner Producer Acl Group Pmeta Store Offsets Txn Config Topics.

#[local] Open Scope Z_scope.

Definition ACKS_NONE : Z := 0.

(** ** Errors *)

Module AppendError.

Inductive t : Type :=
| Store (e : StoreError)
| Batch (e : BatchError)
| ProducerState
| OutOfOrderSequence (expected got : Z)
| StaleProducerState
| FencedEpoch (current : Z)
| TooLarge (bytes limit : Z)
| NullKeyOnCompacted
| Aborted
| DuplicateUnknownOffset
| Txn (code : ErrorCode.t).

Definition error_code (e : t) : ErrorCode.t :=
  match e with
  | Store e => store_error_code e
  | Batch e => batch_error_code e
  | ProducerState | Aborted => ErrorCode.RequestTimedOut
  | OutOfOrderSequence _ _ => ErrorCode.OutOfOrderSequenceNumber
  | StaleProducerState => ErrorCode.UnknownProducerId
  | FencedEpoch _ => ErrorCode.InvalidProducerEpoch
  | TooLarge _ _ => ErrorCode.MessageTooLarge
  | NullKeyOnCompacted => ErrorCode.InvalidRecord
  | DuplicateUnknownOffset => ErrorCode.DuplicateSequenceNumber
  | Txn code => code
  end.

End AppendError.

Inductive Abandon : Type := PartitionFailed | Fatal (e : HandlerError).

(** ** Requests and responses *)

Record PartitionData : Type := mk_pdata { pd_index : Z; pd_records : option bytes }.
Record TopicData : Type := mk_tdata { td_name : string; td_topic_id : bytes; td_partitions : list PartitionData }.
Record ProduceRequest : Type := mk_produce {
  pq_transactional_id : option string;
  pq_acks : Z;
  pq_topics : list TopicData }.

Record PartitionResponse : Type := mk_presponse {
  pp_index : Z;
  pp_error : ErrorCode.t;
  pp_base_offset : Z;
  pp_log_append_time : Z;
  pp_log_start_offset : Z }.
Definition default_presponse : PartitionResponse := mk_presponse 0 ErrorCode.NoError 0 (-1) (-1).

Record TopicResponse : Type := mk_tresponse {
  tr_name : string;
  tr_topic_id : bytes;
  tr_partitions : list PartitionResponse }.

Record ProduceOutcome : Type := mk_outcome {
  po_response : option (list TopicResponse);
  po_appended : list (Z * Z);
  po_bytes : Z }.

Record Appended : Type := mk_appended { ap_base_offset : Z; ap_wrote : bool }.

(** ** Decisions *)

Record Idem : Type := mk_idem {
  id_producer : Z;
  id_epoch : Z;
  id_first : Z;
  id_last : Z;
  id_transactional : bool;
  id_adds : option Admission }.

Module Decision.

Inductive t : Type :=
| Plain
| Append (i : Idem)
| Duplicate (base_offset : Z)
| DuplicateOf (i : nat).

End Decision.

Record PartitionPlan : Type := mk_plan {
  pl_tid : Z;
  pl_index : Z;
  pl_batches : list (RecordBatch * Decision.t) }.

Record Pending : Type := mk_pending {
  pe_topic : nat;
  pe_slot : nat;
  pe_plan : PartitionPlan }.

Inductive Isolation : Type := Shared | PerPartition.

(** The items of a [BatchIter]; it ends ([batch_iter_total]). *)
Definition batch_items (records : bytes) : list (result BatchError RecordBatch) :=
  default [] (Records.batches records).

Definition any_transactional_batch (req : ProduceRequest) : bool :=
  existsb (λ t, existsb (λ p, match pd_records p with
    | Some r => existsb (λ b, match b with Ok v => is_transactional v | Err _ => true end) (batch_items r)
    | None => false
    end) (td_partitions t)) (pq_topics req).

Fixpoint dedup (l : list Z) : list Z :=
  match l with
  | [] => []
  | a :: l' =>
      match l' with
      | b :: _ => if a =? b then dedup l' else a :: dedup l'
      | [] => [a]
      end
  end.

Definition ok_items (l : list (result BatchError RecordBatch)) : list RecordBatch :=
  omap (λ b, match b with Ok v => Some v | Err _ => None end) l.

Definition transactional_producers (req : ProduceRequest) : list Z :=
  let parts := concat (td_partitions <$> pq_topics req) in
  let views := concat ((λ p, match pd_records p with Some r => ok_items (batch_items r) | None => [] end) <$> parts) in
  let wanted := filter (λ b, is_transactional b && negb (is_control b) &&
                             negb (producer_id b =? NO_PRODUCER_ID) = true) views in
  dedup (merge_sort Z.le (producer_id <$> wanted)).

Definition raw_batch (v : RecordBatch) : RawBatch :=
  mk_raw (rb_bytes v) (record_count v) (last_offset_delta v) (max_timestamp v) (producer_id v)
    (producer_epoch v) (base_sequence v) (is_transactional v) (is_control v).

(** [oversized]: the first batch over the limit, up to one that does not
    decode. *)
Fixpoint first_oversized (limit : Z) (l : list (result BatchError RecordBatch)) : option AppendError.t :=
  match l with
  | Ok v :: l' => if limit <? batch_len v then Some (AppendError.TooLarge (batch_len v) limit)
                  else first_oversized limit l'
  | _ => None
  end.
Definition oversized (records : option bytes) (limit : Z) : option AppendError.t :=
  r ← records; first_oversized limit (batch_items r).

(** [decide_after]. *)
Definition same_batch (i p : Idem) : Prop :=
  id_producer p = id_producer i ∧ id_epoch p = id_epoch i ∧ id_first p = id_first i ∧ id_last p = id_last i.
#[export] Instance same_batch_dec i p : Decision (same_batch i p).
Proof. unfold same_batch. apply _. Defined.
Definition appends_same (i : Idem) (e : RecordBatch * Decision.t) : Prop :=
  match e.2 with Decision.Append p => same_batch i p | _ => False end.
#[export] Instance appends_same_dec i e : Decision (appends_same i e).
Proof. unfold appends_same. destruct e.2; apply _. Defined.

Definition decide_after (batches : list (RecordBatch * Decision.t)) (prev idem : Idem)
    : result AppendError.t Decision.t :=
  if id_epoch idem <? id_epoch prev then Err (AppendError.FencedEpoch (id_epoch prev))
  else if id_epoch prev <? id_epoch idem then
    if negb (id_first idem =? 0) then Err (AppendError.OutOfOrderSequence 0 (id_first idem))
    else Ok (Decision.Append idem)
  else match list_find (appends_same idem) batches with
  | Some (i, _) => Ok (Decision.DuplicateOf i)
  | None =>
      if in_sequence (id_last prev) (id_first idem) then Ok (Decision.Append idem)
      else Err (AppendError.OutOfOrderSequence (increment_sequence (id_last prev) 1) (id_first idem))
  end.

(** The newest batch of the producer this request has accepted. *)
Definition accepted_idem (pid : Z) (e : RecordBatch * Decision.t) : option Idem :=
  match e.2 with Decision.Append p => if id_producer p =? pid then Some p else None | _ => None end.
Definition find_prior (pid : Z) (batches : list (RecordBatch * Decision.t)) : option Idem :=
  last (omap (accepted_idem pid) batches).

(** ** State *)

Inductive Fate : Type := Fine | SpiError | PgRaise.
Inductive Exn (E : Type) : Type := Fails (e : E) | PgError.
Arguments Fails {E}. Arguments PgError {E}.

Record Prod (L : Type) : Type := mk_prod {
  p_world : World L;
  p_landed : option (gmap (nat * nat * nat) Z);
  p_relaxed : bool;
  p_fates : list Fate }.
Arguments mk_prod {L}. Arguments p_world {L}. Arguments p_landed {L}. Arguments p_relaxed {L}.
Arguments p_fates {L}.

(** The broker's settings, and who asks. *)
Record Env : Type := mk_env {
  e_clock : Clock;
  e_acls : AclCache;
  e_who : Principal;
  e_relaxed_produce_commit : bool;
  e_segment : bool }.

Section Produce.

Context {L : Type} {store : LogStore L}.
Variable crc32c : bytes → Z.
Variable entry_size : Z.
Variable open_decoder : Z → bytes → result BatchError (bytes * option BatchError).
Variable seen : nat.
Variable env : Env.

Abbreviation pr E A := (ST (Prod L) (Exn E) A).
Implicit Types s : Prod L.

Definition p_db s : TxDb L := w_tx (p_world s).
Definition set_world (w : World L) s : Prod L := mk_prod w (p_landed s) (p_relaxed s) (p_fates s).
Definition set_landed l s : Prod L := mk_prod (p_world s) l (p_relaxed s) (p_fates s).
Definition set_fates f s : Prod L := mk_prod (p_world s) (p_landed s) (p_relaxed s) f.
Definition relax s : Prod L := mk_prod (p_world s) (p_landed s) true (p_fates s).

(** A call of the database: its fate, then its work. *)
Definition call {E A} (err : E) (f : Prod L → A * Prod L) : pr E A := λ s,
  let rest := set_fates (tail (p_fates s)) s in
  match p_fates s with
  | SpiError :: _ => (Err (Fails err), rest)
  | PgRaise :: _ => (Err PgError, rest)
  | _ => let '(a, s') := f rest in (Ok a, s')
  end.
Definition query {E A} (err : E) (f : World L → A) : pr E A := call err (λ s, (f (p_world s), s)).
Definition exec {E} (err : E) (f : TxDb L → TxDb L) : pr E unit :=
  call err (λ s, (tt, set_world (on_tx f (p_world s)) s)).

(** An [Err] as a value; an error of the database goes on unwinding. *)
Definition catch {E E' A} (m : pr E A) : pr E' (result E A) := λ s,
  match m s with
  | (Ok a, s') => (Ok (Ok a), s')
  | (Err (Fails e), s') => (Ok (Err e), s')
  | (Err PgError, s') => (Err PgError, s')
  end.
Definition lift {E A} (r : result E A) : pr E A := λ s,
  (match r with Ok a => Ok a | Err e => Err (Fails e) end, s).
Definition map_err {E E' A} (f : E → E') (m : pr E A) : pr E' A :=
  let* r := catch m in lift (match r with Ok a => Ok a | Err e => Err (f e) end).

(** [dbtx::atomically]: on an error the tables go back to the savepoint, and the
    log with them unless it is in files. *)
Definition rollback s s' : Prod L :=
  set_world (if e_segment env then on_tx (λ d, set_log (t_log (p_db s')) d) (p_world s) else p_world s) s'.
Definition atomically {E A} (m : pr E A) (aborted : E) : pr E A := λ s,
  match m s with
  | (Ok a, s') => (Ok a, s')
  | (Err (Fails e), s') => (Err (Fails e), rollback s s')
  | (Err PgError, s') => (Err (Fails aborted), rollback s s')
  end.

(** ** What has landed *)

Abbreviation place := (nat * nat)%type.

Definition landed (at_ : place) (batch : nat) s : option Z :=
  m ← p_landed s; m !! (at_.1, at_.2, batch).
Definition remember_landed (at_ : place) (batch : nat) (offset : Z) s : Prod L :=
  set_landed (<[(at_.1, at_.2, batch) := offset]> <$> p_landed s) s.
Definition any_landed (at_ : place) s : bool :=
  match p_landed s with
  | Some m => existsb (λ e, bool_decide (e.1.1 = at_)) (map_to_list m)
  | None => false
  end.

(** ** Phase 1 *)

(** [null_keyed], after the empty blob: no batch has a bad checksum, then the
    first record without a key, or that does not decode. *)
Definition undecodable (e : BatchError) : option AppendError.t :=
  match e with Compressed _ => None | _ => Some (AppendError.Batch e) end.

Fixpoint null_key (l : list (result BatchError RecordRef)) : option (option AppendError.t) :=
  match l with
  | [] => None
  | Ok r :: l' => match rr_key r with None => Some (Some AppendError.NullKeyOnCompacted) | Some _ => null_key l' end
  | Err e :: _ => Some (undecodable e)
  end.
Fixpoint null_keyed_batches (l : list RecordBatch) : option AppendError.t :=
  match l with
  | [] => None
  | v :: l' =>
      if is_control v then null_keyed_batches l'
      else match stream_keys open_decoder seen v with
      | Err e => undecodable e
      | Ok keys => match null_key (items entry_size keys) with
                   | Some answer => answer
                   | None => null_keyed_batches l'
                   end
      end
  end.
Definition null_keyed (records : option bytes) : option AppendError.t :=
  r ← records;
  let l := batch_items r in
  if forallb (λ b, match b with Ok v => is_ok (verify_crc crc32c v) | Err _ => false end) l
  then null_keyed_batches (ok_items l) else None.

(** The verdict on a transactional batch, remembered for the partition. *)
Definition verify_once (transactional_id : option string) (version tid index pid epoch : Z)
    (verified : list (Z * Z * ProduceTxn)) : pr AppendError.t (ProduceTxn * list (Z * Z * ProduceTxn)) :=
  match list_find (λ e, e.1 = (pid, epoch)) verified with
  | Some (_, (_, v)) => ret (v, verified)
  | None =>
      let* v := query AppendError.ProducerState
        (λ w, verify_held_produce transactional_id pid epoch tid index version (w_tx w)) in
      ret (v, verified ++ [((pid, epoch), v)])
  end.

Definition decide_check (idem : Idem) (c : SequenceCheck) : result AppendError.t Decision.t :=
  match c with
  | Append => Ok (Decision.Append idem)
  | Duplicate base_offset =>
      if base_offset <? 0 then Err AppendError.DuplicateUnknownOffset else Ok (Decision.Duplicate base_offset)
  | OutOfOrder expected got => Err (AppendError.OutOfOrderSequence expected got)
  | Stale => Err AppendError.StaleProducerState
  | Fenced current_epoch => Err (AppendError.FencedEpoch current_epoch)
  end.

Definition decide_one (tid index : Z) (batches : list (RecordBatch * Decision.t)) (idem : Idem)
    : pr AppendError.t Decision.t :=
  match find_prior (id_producer idem) batches with
  | Some prev => lift (decide_after batches prev idem)
  | None =>
      let* c := query AppendError.ProducerState
        (λ w, Producer.check (id_producer idem) (id_epoch idem) (id_first idem) (id_last idem) tid index
                (t_prod (w_tx w))) in
      lift (decide_check idem c)
  end.

Definition adds_partition (v : ProduceTxn) : result AppendError.t (option Admission) :=
  match v with
  | Added => Ok None
  | AddsPartition a => Ok (Some a)
  | Refused code => Err (AppendError.Txn code)
  end.

(** The loop of [plan_partition]: [batches] and [verified] so far. *)
Fixpoint plan_batches (transactional_id : option string) (version tid index : Z)
    (l : list (result BatchError RecordBatch)) (batches : list (RecordBatch * Decision.t))
    (verified : list (Z * Z * ProduceTxn)) : pr AppendError.t (list (RecordBatch * Decision.t)) :=
  match l with
  | [] => ret batches
  | Err e :: _ => throw (Fails (AppendError.Batch e))
  | Ok view :: l' =>
      let pid := producer_id view in
      let first_seq := base_sequence view in
      let transactional := is_transactional view && negb (is_control view) in
      if (pid =? NO_PRODUCER_ID) || (first_seq =? NO_SEQUENCE) then
        if transactional then throw (Fails (AppendError.Txn ErrorCode.InvalidRecord))
        else plan_batches transactional_id version tid index l' (batches ++ [(view, Decision.Plain)]) verified
      else
        let* av :=
          if transactional then
            let* vv := verify_once transactional_id version tid index pid (producer_epoch view) verified in
            let* adds := lift (adds_partition vv.1) in
            ret (adds, vv.2)
          else ret (None, verified) in
        let idem := mk_idem pid (producer_epoch view) first_seq
                      (increment_sequence first_seq (last_offset_delta view)) transactional av.1 in
        let* decision := decide_one tid index batches idem in
        plan_batches transactional_id version tid index l' (batches ++ [(view, decision)]) av.2
  end.

Definition plan_partition (transactional_id : option string) (version tid index : Z)
    (records : option bytes) : pr AppendError.t PartitionPlan :=
  let* batches := plan_batches transactional_id version tid index
                    (match records with Some r => batch_items r | None => [] end) [] [] in
  ret (mk_plan tid index batches).

(** ** Phase 2 *)

Definition db_now_ : Z := db_now (e_clock env).

(** The loop of [reserve_partition]; [registered] and [begun] are its vectors. *)
Fixpoint reserve_batches (tid index : Z) (transactional_id : option string)
    (l : list (RecordBatch * Decision.t)) (registered begun : list Z) : pr AppendError.t (list Z) :=
  match l with
  | [] => ret begun
  | (_, Decision.Append idem) :: l' =>
      let pid := id_producer idem in
      exec AppendError.ProducerState
        (on_prod (record db_now_ pid (id_epoch idem) tid index (id_first idem) (id_last idem) (-1)));;;
      if id_transactional idem && negb (bool_decide (pid ∈ registered)) then
        let* begun :=
          match id_adds idem with
          | Some a =>
              if bool_decide (pid ∈ begun) then ret begun
              else
                exec AppendError.ProducerState
                  (begin_or_continue (e_clock env) a (default ""%string transactional_id));;;
                ret (begun ++ [pid])
          | None => ret begun
          end in
        exec AppendError.ProducerState (on_meta (register_txn_partition pid (tid, index) (-1)));;;
        reserve_batches tid index transactional_id l' (registered ++ [pid]) begun
      else reserve_batches tid index transactional_id l' registered begun
  | _ :: l' => reserve_batches tid index transactional_id l' registered begun
  end.

Definition reserve_partition (plan : PartitionPlan) (transactional_id : option string) (begun : list Z)
    : pr AppendError.t (list Z) :=
  reserve_batches (pl_tid plan) (pl_index plan) transactional_id (pl_batches plan) [] begun.

(** ** Phase 3 *)

(** Drop the unstamped window rows of the batches given. *)
Fixpoint release_reservations (tid index : Z) (l : list (RecordBatch * Decision.t)) : pr AppendError.t unit :=
  match l with
  | [] => ret tt
  | (_, Decision.Append idem) :: l' =>
      exec AppendError.ProducerState (on_prod (release (id_producer idem) tid index (id_first idem)));;;
      release_reservations tid index l'
  | _ :: l' => release_reservations tid index l'
  end.

(** The engine's append: its statements, then the write. *)
Definition store_append (p : Z * Z) (b : RawBatch) : pr AppendError.t Z :=
  let* r := call (AppendError.Store (Io ""))
    (λ s, let '(r, l) := append p b (t_log (p_db s)) in (r, set_world (on_tx (set_log l) (p_world s)) s)) in
  match r with Ok offset => ret offset | Err e => throw (Fails (AppendError.Store e)) end.

Definition stamp_batch (tid index : Z) (idem : Idem) (offset : Z) : pr AppendError.t unit :=
  exec AppendError.ProducerState (on_prod (Producer.stamp (id_producer idem) tid index (id_first idem) offset));;;
  if id_transactional idem
  then exec (AppendError.Store (Io "")) (on_meta (stamp_txn_partition (id_producer idem) (tid, index) offset))
  else ret tt.

(** Where a batch is: where it landed before, or where it lands now. *)
Definition land (tid index : Z) (at_ : place) (i : nat) (view : RecordBatch)
    (rest : list (RecordBatch * Decision.t)) : pr AppendError.t Z := λ s,
  match landed at_ i s with
  | Some offset => (Ok offset, s)
  | None =>
      (let* r := catch (store_append (tid, index) (raw_batch view)) in
       match r with
       | Ok offset => λ s, (Ok offset, remember_landed at_ i offset s)
       | Err e => release_reservations tid index rest;;; throw (Fails e)
       end) s
  end.

(** [get_or_insert]. *)
Definition or_else (base : option Z) (z : Z) : option Z := match base with Some b => Some b | None => Some z end.

(** The loop of [write_partition] from batch [i] on. *)
Fixpoint write_batches (tid index : Z) (at_ : place) (l : list (RecordBatch * Decision.t)) (i : nat)
    (base : option Z) (wrote : bool) (assigned : list (option Z)) : pr AppendError.t (option Z * bool) :=
  match l with
  | [] => ret (base, wrote)
  | (view, d) :: l' =>
      match d with
      | Decision.Duplicate b => write_batches tid index at_ l' (S i) (or_else base b) wrote (assigned ++ [None])
      | Decision.DuplicateOf j =>
          write_batches tid index at_ l' (S i) (or_else base (default (-1) (mjoin (assigned !! j)))) wrote
            (assigned ++ [None])
      | Decision.Plain =>
          let* offset := land tid index at_ i view l in
          write_batches tid index at_ l' (S i) (or_else base offset) true (assigned ++ [Some offset])
      | Decision.Append idem =>
          let* offset := land tid index at_ i view l in
          let* stamped := catch (stamp_batch tid index idem offset) in
          match stamped with
          | Ok _ => write_batches tid index at_ l' (S i) (or_else base offset) true (assigned ++ [Some offset])
          | Err e => release_reservations tid index l';;; throw (Fails e)
          end
      end
  end.

Definition write_partition (plan : PartitionPlan) (at_ : place) : pr AppendError.t Appended :=
  let* bw := write_batches (pl_tid plan) (pl_index plan) at_ (pl_batches plan) 0 None false [] in
  match bw.1 with
  | Some b => ret (mk_appended b bw.2)
  | None =>
      let* r := query (AppendError.Store (Io ""))
        (λ w, high_watermark (pl_tid plan, pl_index plan) (t_log (w_tx w))) in
      match r with
      | Ok h => ret (mk_appended h false)
      | Err e => throw (Fails (AppendError.Store e))
      end
  end.

(** ** The whole request *)

Definition failed (index : Z) (e : AppendError.t) : PartitionResponse :=
  mk_presponse index (AppendError.error_code e) (-1) (-1) (-1).

(** [log_start_offset(..).unwrap_or(0)]. *)
Definition log_start_or_zero {E} (p : Z * Z) : pr E Z :=
  let* r := catch (query tt (λ w, log_start_offset p (t_meta (w_tx w)))) in
  ret (match r with Ok (Ok o) => o | _ => 0 end).

Definition failed_in {E} (tid index : Z) (e : AppendError.t) : pr E PartitionResponse :=
  let r := failed index e in
  match e with
  | AppendError.StaleProducerState =>
      let* start := log_start_or_zero (tid, index) in
      ret (mk_presponse (pp_index r) (pp_error r) (pp_base_offset r) (pp_log_append_time r) start)
  | _ => ret r
  end.

(** What the first loop keeps per entry: the response so far, and the plan when
    it is still to be written. *)
Definition plan_entry (req : ProduceRequest) (version : Z) (resolved : option ResolvedTopic) (name : string)
    (ti : nat) (limit : option Z) (pi : nat) (pd : PartitionData)
    : pr Abandon (PartitionResponse * option Pending * option Z) :=
  let give r limit := ret (r, None, limit) in
  match Acl.check (e_acls env) (e_who env) Write Topic name, resolved with
  | Err code, _ => give (mk_presponse (pd_index pd) code (-1) (-1) (-1)) limit
  | Ok _, None => give (failed (pd_index pd) (AppendError.Store UnknownTopicOrPartition)) limit
  | Ok _, Some rt =>
      let tid := rt_topic_id rt in
      let* in_range :=
        match pq_transactional_id req with
        | None => ret (true, limit)
        | Some _ =>
            let* count := match limit with
                          | Some n => ret n
                          | None => query (Fatal Internal) (λ w, partition_count tid (w_tx w))
                          end in
            ret (negb ((pd_index pd <? 0) || (count <=? pd_index pd)), Some count)
        end in
      let limit := in_range.2 in
      if negb in_range.1 then give (failed (pd_index pd) (AppendError.Store UnknownTopicOrPartition)) limit
      else match oversized (pd_records pd) (rt_max_message_bytes rt) with
      | Some e => give (failed (pd_index pd) e) limit
      | None =>
          match (if rt_compacted rt then null_keyed (pd_records pd) else None) with
          | Some e => give (failed (pd_index pd) e) limit
          | None =>
              let* planned := catch (plan_partition (pq_transactional_id req) version tid (pd_index pd) (pd_records pd)) in
              match planned with
              | Ok plan => ret (default_presponse, Some (mk_pending ti pi plan), limit)
              | Err e => let* r := failed_in tid (pd_index pd) e in give r limit
              end
          end
      end
  end.

Fixpoint plan_entries (req : ProduceRequest) (version : Z) (resolved : option ResolvedTopic) (name : string)
    (ti : nat) (limit : option Z) (pi : nat) (l : list PartitionData)
    : pr Abandon (list PartitionResponse * list Pending) :=
  match l with
  | [] => ret ([], [])
  | pd :: l' =>
      let* e := plan_entry req version resolved name ti limit pi pd in
      let* rest := plan_entries req version resolved name ti e.2 (S pi) l' in
      ret (e.1.1 :: rest.1, match e.1.2 with Some p => p :: rest.2 | None => rest.2 end)
  end.

(** The entries of the request: topic name and partition, and the place. *)
Abbreviation entry := (string * Z * place)%type.

Definition plan_topic (req : ProduceRequest) (version : Z) (ti : nat) (td : TopicData)
    : pr Abandon (TopicResponse * list Pending * list entry) :=
  let* resolved := query (Fatal Internal) (resolve_topic (td_name td) (td_topic_id td)) in
  let name := match resolved with Some r => rt_name r | None => td_name td end in
  let uuid := match resolved with Some r => rt_uuid r | None => td_topic_id td end in
  let* rp := plan_entries req version resolved name ti None 0 (td_partitions td) in
  ret (mk_tresponse name uuid rp.1, rp.2,
       imap (λ pi pd, (name, pd_index pd, (ti, pi))) (td_partitions td)).

Fixpoint plan_topics (req : ProduceRequest) (version : Z) (ti : nat) (l : list TopicData)
    : pr Abandon (list TopicResponse * list Pending * list entry) :=
  match l with
  | [] => ret ([], [], [])
  | td :: l' =>
      let* t := plan_topic req version ti td in
      let* rest := plan_topics req version (S ti) l' in
      ret (t.1.1 :: rest.1.1, t.1.2 ++ rest.1.2, t.2 ++ rest.2)
  end.

(** The last entry of each topic-partition, and the entries it answers for. *)
Definition last_entry (entries : list entry) : gmap (string * Z) place :=
  foldl (λ m e, <[e.1 := e.2]> m) ∅ entries.
Definition echoes (entries : list entry) : list (place * place) :=
  omap (λ e, match last_entry entries !! e.1 with
             | Some at_ => if decide (at_ = e.2) then None else Some (e.2, at_)
             | None => None
             end) entries.
Definition retain (es : list (place * place)) (pending : list Pending) : list Pending :=
  filter (λ p, (pe_topic p, pe_slot p) ∉ es.*1) pending.

Definition set_response (at_ : place) (r : PartitionResponse) (topics : list TopicResponse) : list TopicResponse :=
  alter (λ t, mk_tresponse (tr_name t) (tr_topic_id t) (<[at_.2 := r]> (tr_partitions t))) at_.1 topics.
Definition get_response (at_ : place) (topics : list TopicResponse) : option PartitionResponse :=
  t ← topics !! at_.1; tr_partitions t !! at_.2.

(** [topics], [appended] and [wrote_bytes]. *)
Record Answer : Type := mk_answer {
  an_topics : list TopicResponse;
  an_appended : list (Z * Z);
  an_bytes : Z }.

Definition records_len (req : ProduceRequest) (at_ : place) : Z :=
  match (t ← pq_topics req !! at_.1; p ← td_partitions t !! at_.2; pd_records p) with
  | Some r => len r
  | None => 0
  end.

Definition finish {E} (req : ProduceRequest) (p : Pending) (outcome : result AppendError.t Appended) (a : Answer)
    : pr E Answer :=
  let tid := pl_tid (pe_plan p) in
  let index := pl_index (pe_plan p) in
  let at_ := (pe_topic p, pe_slot p) in
  match outcome with
  | Ok done =>
      let* start := log_start_or_zero (tid, index) in
      let r := mk_presponse index ErrorCode.NoError (ap_base_offset done) (-1) start in
      ret (mk_answer (set_response at_ r (an_topics a))
             (if ap_wrote done then an_appended a ++ [(tid, index)] else an_appended a)
             (if ap_wrote done then an_bytes a + records_len req at_ else an_bytes a))
  | Err e =>
      let* r := failed_in tid index e in
      ret (mk_answer (set_response at_ r (an_topics a)) (an_appended a) (an_bytes a))
  end.

(** Phase 2 of the shared savepoint. *)
Fixpoint reserve_all (transactional_id : option string) (l : list Pending) (begun : list Z) : pr Abandon unit :=
  match l with
  | [] => ret tt
  | p :: l' =>
      let* begun := map_err (λ _, PartitionFailed) (reserve_partition (pe_plan p) transactional_id begun) in
      reserve_all transactional_id l' begun
  end.

Fixpoint write_all (req : ProduceRequest) (l : list Pending) (a : Answer) : pr Abandon Answer :=
  match l with
  | [] => ret a
  | p :: l' =>
      let* outcome := catch (write_partition (pe_plan p) (pe_topic p, pe_slot p)) in
      let* a := finish req p outcome a in
      write_all req l' a
  end.

(** A partition in its own savepoint; a storage error does not roll it back. *)
Definition attempt (transactional_id : option string) (p : Pending) : pr Abandon (result AppendError.t Appended) :=
  let* r := catch (atomically
      (let* _ := reserve_partition (pe_plan p) transactional_id [] in
       catch (write_partition (pe_plan p) (pe_topic p, pe_slot p)))
      AppendError.Aborted) in
  ret (match r with Ok inner => inner | Err e => Err e end).

Definition attempt_twice (transactional_id : option string) (p : Pending) : pr Abandon (result AppendError.t Appended) :=
  let* outcome := attempt transactional_id p in
  λ s, match outcome with
       | Err AppendError.Aborted =>
           if any_landed (pe_topic p, pe_slot p) s then attempt transactional_id p s else (Ok outcome, s)
       | _ => (Ok outcome, s)
       end.

Fixpoint write_each (req : ProduceRequest) (l : list Pending) (a : Answer) : pr Abandon Answer :=
  match l with
  | [] => ret a
  | p :: l' =>
      let* outcome := attempt_twice (pq_transactional_id req) p in
      let* a := finish req p outcome a in
      write_each req l' a
  end.

(** A repeated topic-partition is answered as its last entry was. *)
Definition echo (es : list (place * place)) (topics : list TopicResponse) : list TopicResponse :=
  foldl (λ ts e, match get_response e.2 ts with Some r => set_response e.1 r ts | None => ts end) topics es.

Definition build (req : ProduceRequest) (version : Z) (isolation : Isolation) : pr Abandon ProduceOutcome :=
  let* planned := plan_topics req version 0 (pq_topics req) in
  let es := echoes planned.2 in
  let pending := retain es planned.1.2 in
  let a := mk_answer planned.1.1 [] 0 in
  let* a :=
    match isolation with
    | Shared => reserve_all (pq_transactional_id req) pending [];;; write_all req pending a
    | PerPartition => write_each req pending a
    end in
  ret (mk_outcome (if pq_acks req =? ACKS_NONE then None else Some (echo es (an_topics a)))
         (an_appended a) (an_bytes a)).

(** [hold_for_produce] for each producer; the locks have no state here. *)
Fixpoint hold_all (l : list Z) : pr HandlerError unit :=
  match l with
  | [] => ret tt
  | _ :: l' => query Internal (λ _, tt);;; hold_all l'
  end.

Definition relaxes (req : ProduceRequest) : bool :=
  e_relaxed_produce_commit env && bool_decide (pq_transactional_id req = None) &&
  negb (any_transactional_batch req) && e_segment env.

Definition handle (req : ProduceRequest) (version : Z) : pr HandlerError ProduceOutcome :=
  (if relaxes req then call Internal (λ s, (tt, relax s)) else ret tt);;;
  (λ s, (Ok tt, set_landed (if e_segment env then Some ∅ else None) s));;;
  (match pq_transactional_id req with
   | Some _ => hold_all (transactional_producers req)
   | None => ret tt
   end);;;
  let* first := catch (atomically (build req version Shared) PartitionFailed) in
  match first with
  | Ok outcome => ret outcome
  | Err (Fatal e) => throw (Fails e)
  | Err PartitionFailed =>
      map_err (λ e, match e with Fatal e => e | PartitionFailed => Internal end)
        (build req version PerPartition)
  end.

End Produce.

(** ** A sample broker: one topic, its log in memory *)

(** A batch of an idempotent producer without records, sequences [seq] to
    [seq + delta]. *)
Definition idem_batch (pid epoch seq delta : Z) : bytes :=
  be_bytes 8 0 ++ be_bytes 4 49 ++ be_bytes 4 0 ++ be_bytes 1 2 ++ be_bytes 4 0 ++ be_bytes 2 0 ++
  be_bytes 4 delta ++ be_bytes 8 0 ++ be_bytes 8 0 ++ be_bytes 8 pid ++ be_bytes 2 epoch ++ be_bytes 4 seq ++
  be_bytes 4 0.

Definition mem_create (p : Z * Z) : ST MemLog StoreError unit := λ l, (Ok tt, <[p := []]> l).
Definition sample_world : World MemLog :=
  (create_topics mem_create true uuid_for open_acls nobody false [orders 2]
     (mk_world (mk_tx empty_db no_partitions ∅ no_groups (mk_consumers ∅ ∅ ∅) ∅ ∅) ∅ 1)).2.
Definition sample_env : Env := mk_env (mk_clock 100 100000) open_acls nobody false true.
Definition sample_prod : Prod MemLog := mk_prod sample_world (Some ∅) false [].
