(* ===== verification/ProduceSpec.v ===== *)
(** * Produce: every batch lands at most once

    The produce handler of Produce.v, run with any sequence of database
    failures and against any [LogStore]: what it adds to the log, on both
    engines, across the shared attempt, the redo per partition and the second
    attempt of a partition. *)

From stdpp Require Import gmap strings sorting.
From S2P Require Import Prelude Errors Records RecordIter Compaction Cleaner Producer Acl Pmeta Store Txn Config Topics Produce.

#[local] Open Scope Z_scope.
#[local] Set Default Proof Using "Type*".

(** A batch of the request: topic entry, partition entry, batch. *)
Abbreviation key := (nat * nat * nat)%type.

(** ** Calls that leave the log and the topics alone *)

Section Quiet.

Context {L : Type} {store : LogStore L}.
Implicit Types s : Prod L.
Abbreviation pr E A := (ST (Prod L) (Exn E) A).

Definition alike s s' : Prop :=
  (∀ q, log_of (t_log (p_db s')) q = log_of (t_log (p_db s)) q) ∧ p_landed s' = p_landed s ∧
  t_topics (p_db s') = t_topics (p_db s) ∧ w_cols (p_world s') = w_cols (p_world s).

Lemma alike_refl s : alike s s.
Proof. done. Qed.
Lemma alike_trans s1 s2 s3 : alike s1 s2 → alike s2 s3 → alike s1 s3.
Proof.
  intros (E1 & E2 & E3 & E4) (F1 & F2 & F3 & F4). split_and!; [| congruence..]. intros q. by rewrite F1, E1.
Qed.

Definition quiet {E A} (m : pr E A) : Prop := ∀ s, alike s (m s).2.

Lemma quiet_ret {E A} (a : A) : quiet (ret a : pr E A).
Proof. by intros s. Qed.
Lemma quiet_throw {E A} (e : Exn E) : quiet (throw e : pr E A).
Proof. by intros s. Qed.
Lemma quiet_lift {E A} (r : result E A) : quiet (lift r).
Proof. by intros s. Qed.

Lemma quiet_bind {E A B} (m : pr E A) (f : A → pr E B) :
  quiet m → (∀ a, quiet (f a)) → quiet (bind m f).
Proof.
  intros Hm Hf s. unfold bind. pose proof (Hm s) as H. destruct (m s) as [[a|e] s']; [| done].
  eapply alike_trans; [exact H | apply Hf].
Qed.

Lemma quiet_catch {E E' A} (m : pr E A) : quiet m → quiet (catch m : pr E' _).
Proof. intros Hm s. unfold catch. pose proof (Hm s) as H. by destruct (m s) as [[a|[e|]] s']. Qed.

Lemma quiet_map_err {E E' A} (f : E → E') (m : pr E A) : quiet m → quiet (map_err f m).
Proof. intros Hm. apply quiet_bind; [by apply quiet_catch | intros; apply quiet_lift]. Qed.

Lemma quiet_query {E A} (err : E) (f : World L → A) : quiet (query err f).
Proof. intros s. unfold query, call. by destruct (p_fates s) as [|[] fs]. Qed.

Lemma quiet_exec {E} (err : E) (f : TxDb L → TxDb L) :
  (∀ d, t_log (f d) = t_log d ∧ t_topics (f d) = t_topics d) → quiet (exec err f).
Proof.
  intros Hf s. unfold exec, call. destruct (Hf (w_tx (p_world s))) as [E1 E2].
  destruct (p_fates s) as [|[] fs]; split_and!; try done; intros q; cbn; by rewrite E1.
Qed.

End Quiet.

Create HintDb quiet.
#[export] Hint Resolve quiet_ret quiet_throw quiet_lift quiet_bind quiet_catch quiet_map_err quiet_query : quiet.

(** Split a body into its calls. *)
Ltac quiet :=
  repeat first
    [ progress intros
    | apply quiet_ret | apply quiet_throw | apply quiet_lift | apply quiet_query
    | apply quiet_bind | apply quiet_catch | apply quiet_map_err
    | apply quiet_exec; solve [intros; repeat first [done | unfold begin_or_continue; case_match]]
    | case_match ]; eauto with quiet.

Section Calls.

Context {L : Type} {store : LogStore L}.
Implicit Types s : Prod L.
Abbreviation pr E A := (ST (Prod L) (Exn E) A).
Variable env : Env.
Variable req : ProduceRequest.

Lemma quiet_release tid index l : quiet (release_reservations tid index l : pr _ _).
Proof. induction l as [|[v []] l IH]; cbn [release_reservations]; quiet. Qed.

Lemma quiet_stamp tid index idem off : quiet (stamp_batch tid index idem off : pr _ _).
Proof. unfold stamp_batch. quiet. Qed.

Lemma quiet_reserve tid index id l registered begun :
  quiet (reserve_batches env tid index id l registered begun : pr _ _).
Proof. revert registered begun. induction l as [|[v []] l IH]; intros; cbn [reserve_batches]; quiet. Qed.

Lemma quiet_log_start {E} p : quiet (log_start_or_zero p : pr E Z).
Proof. unfold log_start_or_zero. quiet. Qed.

#[local] Hint Resolve quiet_release quiet_stamp quiet_reserve quiet_log_start : quiet.

Lemma quiet_failed_in {E} tid index e : quiet (failed_in tid index e : pr E _).
Proof. unfold failed_in. quiet. Qed.

Lemma quiet_finish {E} p outcome a : quiet (finish req p outcome a : pr E _).
Proof. unfold finish. quiet; apply quiet_failed_in. Qed.

Lemma quiet_reserve_partition plan id begun : quiet (reserve_partition env plan id begun : pr _ _).
Proof. unfold reserve_partition. quiet. Qed.

Lemma quiet_reserve_all id l begun : quiet (reserve_all env id l begun : pr _ _).
Proof.
  revert begun. induction l as [|p l IH]; intros; cbn [reserve_all]; quiet.
Qed.

Section Plans.

Variable crc32c : bytes → Z.
Variable entry_size : Z.
Variable open_decoder : Z → bytes → result BatchError (bytes * option BatchError).
Variable seen : nat.
Variable version : Z.

Abbreviation plan_entry := (plan_entry crc32c entry_size open_decoder seen env req version).
Abbreviation plan_entries := (plan_entries crc32c entry_size open_decoder seen env req version).
Abbreviation plan_topic := (plan_topic crc32c entry_size open_decoder seen env req version).
Abbreviation plan_topics := (plan_topics crc32c entry_size open_decoder seen env req version).

Lemma quiet_decide tid index bs idem : quiet (decide_one tid index bs idem : pr _ _).
Proof. unfold decide_one. quiet. Qed.

Lemma quiet_verify id tid index pid epoch v : quiet (verify_once id version tid index pid epoch v : pr _ _).
Proof. unfold verify_once. quiet. Qed.

#[local] Hint Resolve quiet_decide quiet_verify quiet_failed_in : quiet.

Lemma quiet_plan_batches id tid index l bs v : quiet (plan_batches id version tid index l bs v : pr _ _).
Proof.
  revert bs v. induction l as [|[view|e] l IH]; intros; cbn [plan_batches]; cbv zeta;
    [apply quiet_ret | | apply quiet_throw].
  case_match; [case_match; [apply quiet_throw | apply IH] |].
  apply quiet_bind; [quiet |]. intros av. apply quiet_bind; [apply quiet_decide | intros; apply IH].
Qed.

Lemma quiet_plan_partition id tid index rs : quiet (plan_partition id version tid index rs : pr _ _).
Proof. unfold plan_partition. apply quiet_bind; [apply quiet_plan_batches | intros; apply quiet_ret]. Qed.

#[local] Hint Resolve quiet_plan_partition : quiet.

Lemma quiet_plan_entry resolved name ti limit pi pd : quiet (plan_entry resolved name ti limit pi pd).
Proof.
  unfold Produce.plan_entry. cbv zeta. case_match; [| apply quiet_ret]. destruct resolved; [| apply quiet_ret].
  apply quiet_bind; [quiet |]. intros [ok lim]. cbn. case_match; [apply quiet_ret |].
  case_match; [apply quiet_ret |]. case_match; [apply quiet_ret |].
  apply quiet_bind; [auto with quiet |]. intros [plan|e]; [apply quiet_ret |].
  apply quiet_bind; [apply quiet_failed_in | intros; apply quiet_ret].
Qed.

Lemma quiet_plan_entries resolved name ti limit pi l : quiet (plan_entries resolved name ti limit pi l).
Proof.
  revert limit pi. induction l as [|pd l IH]; intros; cbn [Produce.plan_entries]; [apply quiet_ret |].
  apply quiet_bind; [apply quiet_plan_entry |]. intros. apply quiet_bind; [apply IH | intros; apply quiet_ret].
Qed.

Lemma quiet_plan_topic ti td : quiet (plan_topic ti td).
Proof.
  apply quiet_bind; [apply quiet_query |]. intros. apply quiet_bind; [apply quiet_plan_entries |].
  intros. apply quiet_ret.
Qed.

Lemma quiet_plan_topics ti l : quiet (plan_topics ti l).
Proof.
  revert ti. induction l as [|td l IH]; intros; cbn [Produce.plan_topics]; [apply quiet_ret |].
  apply quiet_bind; [apply quiet_plan_topic |]. intros. apply quiet_bind; [apply IH | intros; apply quiet_ret].
Qed.

Lemma quiet_hold_all l : quiet (hold_all l : pr _ _).
Proof. induction l; cbn [hold_all]; quiet. Qed.

End Plans.

End Calls.

Section Landing.

Context {L : Type} {store : LogStore L} {laws : LogStoreLaws L}.
Variable env : Env.
Variable req : ProduceRequest.
Variable w0 : World L.

Implicit Types s : Prod L.
Implicit Types k : key.
Implicit Types U V : key → Prop.
Abbreviation pr E A := (ST (Prod L) (Exn E) A).

(** The partition a batch of the request is addressed to, and the batch. *)
Definition batch_of k : option (Z * Z * RawBatch) :=
  td ← pq_topics req !! k.1.1;
  rt ← resolve_topic (td_name td) (td_topic_id td) w0;
  pd ← td_partitions td !! k.1.2;
  r ← pd_records pd;
  match batch_items r !! k.2 with
  | Some (Ok view) => Some ((rt_topic_id rt, pd_index pd), raw_batch view)
  | _ => None
  end.

(** What a history of landings adds to a partition. *)
Definition added (p : Z * Z) (hist : list (key * Z)) : list (Z * RawBatch) :=
  omap (λ e, '(q, b) ← batch_of e.1; if decide (q = p) then Some (e.2, b) else None) hist.

(** The log has grown by [hist], no batch of it twice; in files, [LANDED] is
    that history; in tables, [U] bounds it. *)
Definition grown_by (U : key → Prop) (hist : list (key * Z)) s : Prop :=
  NoDup hist.*1 ∧ Forall (λ k, is_Some (batch_of k)) hist.*1 ∧
  (∀ p, log_of (t_log (p_db s)) p = log_of (t_log (w_tx w0)) p ++ added p hist) ∧
  match p_landed s with
  | Some m => e_segment env = true ∧ ∀ k off, m !! k = Some off ↔ (k, off) ∈ hist
  | None => e_segment env = false ∧ ∀ k, k ∈ hist.*1 → U k
  end.

Definition same_topics s : Prop := t_topics (p_db s) = t_topics (w_tx w0) ∧ w_cols (p_world s) = w_cols w0.

Definition inv U s : Prop := same_topics s ∧ ∃ hist, grown_by U hist s.

Lemma inv_weaken U V s : (∀ k, U k → V k) → inv U s → inv V s.
Proof.
  intros H [Ht (hist & H1 & H2 & H3 & H4)]. split; [done |]. exists hist. split_and!; try done.
  destruct (p_landed s); [done |]. destruct H4 as [H4 H5]. split; [done |]. intros k Hk. by apply H, H5.
Qed.

Lemma alike_inv U s s' : alike s s' → inv U s → inv U s'.
Proof.
  intros (E1 & E2 & E3 & E4) [[H1 H2] (hist & H3 & H4 & H5 & H6)].
  split; [split; congruence |]. exists hist. unfold grown_by. rewrite E2. split_and!; try done.
  intros p. by rewrite E1.
Qed.

(** ** Landing a batch *)

Lemma grown_append U hist s s' k p b off :
  grown_by U hist s → k ∉ hist.*1 → batch_of k = Some (p, b) →
  append p b (t_log (p_db s)) = (Ok off, t_log (p_db s')) →
  p_landed s' = <[k := off]> <$> p_landed s →
  grown_by (λ k', U k' ∨ k' = k) (hist ++ [(k, off)]) s'.
Proof.
  intros (H1 & H2 & H3 & H4) Hk Hb Ha Hl. unfold grown_by. rewrite fmap_app. split_and!.
  - apply NoDup_app. split; [done |]. split; [| apply NoDup_singleton].
    intros x Hx Hx'. apply list_elem_of_singleton in Hx' as ->. done.
  - apply Forall_app. split; [done |]. repeat constructor. cbn. rewrite Hb. by eexists.
  - intros q. unfold added. rewrite omap_app. cbn. rewrite Hb. cbn. case_decide as E.
    + subst q. rewrite (append_same _ _ _ _ _ Ha), H3. by rewrite <- app_assoc.
    + rewrite (append_other _ _ _ _ _ _ Ha) by done. by rewrite H3, app_nil_r.
  - rewrite Hl. destruct (p_landed s) as [m|]; cbn; destruct H4 as [H4 H5]; (split; [done |]).
    + intros k' off'. rewrite elem_of_app, list_elem_of_singleton, lookup_insert_Some, H5.
      split; [intros [[-> ->]|[_ ?]]; auto |]. intros [Hin|[= -> ->]]; [right | by left].
      split; [| done]. intros <-. apply Hk. apply list_elem_of_fmap. by exists (k, off').
    + intros k'. rewrite elem_of_app. intros [?|?%list_elem_of_singleton]; auto.
Qed.

Lemma store_append_cases p b s :
  match store_append p b s with
  | (Ok off, s') => append p b (t_log (p_db s)) = (Ok off, t_log (p_db s')) ∧ p_landed s' = p_landed s ∧
      t_topics (p_db s') = t_topics (p_db s) ∧ w_cols (p_world s') = w_cols (p_world s)
  | (Err _, s') => alike s s'
  end.
Proof.
  unfold store_append, bind, call.
  assert (H : match (let '(r, l) := append p b (t_log (p_db s)) in
      ((Ok r : result (Exn AppendError.t) (result StoreError Z)),
       set_world (on_tx (set_log l) (p_world s)) (set_fates (tail (p_fates s)) s))) with
    | (Ok (Ok off), s') => append p b (t_log (p_db s)) = (Ok off, t_log (p_db s')) ∧ p_landed s' = p_landed s ∧
        t_topics (p_db s') = t_topics (p_db s) ∧ w_cols (p_world s') = w_cols (p_world s)
    | (Ok (Err _), s') => alike s s'
    | (Err _, s') => True
    end).
  { destruct (append p b (t_log (p_db s))) as [[off|e] l] eqn:Ha; [done |]. split_and!; try done.
    intros q. cbn. by apply (append_failed p b _ e). }
  unfold p_db in *. cbn in *.
  destruct (p_fates s) as [|[] fs]; cbn in *; try done;
    destruct (append p b (t_log (w_tx (p_world s)))) as [[off|e] l]; done.
Qed.

Lemma land_inv U tid index at_ i view rest s :
  batch_of (at_.1, at_.2, i) = Some ((tid, index), raw_batch view) →
  (e_segment env = false → ¬ U (at_.1, at_.2, i)) → inv U s →
  inv (λ k, U k ∨ k = (at_.1, at_.2, i)) (land tid index at_ i view rest s).2.
Proof.
  intros Hb Hu Hinv. unfold land. destruct (landed at_ i s) as [off|] eqn:Hl.
  { cbn. eapply inv_weaken; [| done]. auto. }
  unfold bind, catch. pose proof (store_append_cases (tid, index) (raw_batch view) s) as Hc.
  destruct (store_append _ _ s) as [[off|[e|]] s'].
  - destruct Hc as (Ha & H2 & H3 & H4). destruct Hinv as [[T1 T2] (hist & Hg)]. cbn [snd].
    split; [unfold same_topics, p_db in *; split; cbn; congruence |]. exists (hist ++ [((at_.1, at_.2, i), off)]).
    eapply grown_append; [done | | done | exact Ha | cbn; by rewrite H2].
    destruct Hg as (_ & _ & _ & Hland). unfold landed in Hl. destruct (p_landed s) as [m|].
    + intros Hin. apply list_elem_of_fmap in Hin as ([k' off'] & Ek & Hin). cbn in Ek. subst k'.
      apply Hland in Hin. cbn in Hl. by rewrite Hin in Hl.
    + intros Hin. destruct Hland as [Hseg Hland]. by apply (Hu Hseg), Hland.
  - assert (H : inv U s') by by apply (alike_inv U s).
    assert (H' : inv U ((bind (release_reservations tid index rest)
      (λ _ : (), throw (Fails e : Exn AppendError.t)) s' : result (Exn AppendError.t) Z * Prod L)).2).
    { eapply alike_inv; [| exact H]. apply quiet_bind; [apply quiet_release | intros; apply quiet_throw]. }
    eapply inv_weaken; [| exact H']. auto.
  - eapply inv_weaken; [| by eapply alike_inv]. auto.
Qed.

(** ** Writing a partition *)

Definition place_of k : nat * nat := k.1.

Lemma write_batches_inv tid index at_ l i base wrote assigned U s :
  (∀ j view d, l !! j = Some (view, d) →
     batch_of (at_.1, at_.2, (i + j)%nat) = Some ((tid, index), raw_batch view)) →
  (e_segment env = false → ∀ k, U k → place_of k = at_ → (k.2 < i)%nat) → inv U s →
  inv (λ k, U k ∨ place_of k = at_) (write_batches tid index at_ l i base wrote assigned s).2.
Proof.
  revert i base wrote assigned U s. induction l as [|[view d] l IH]; intros i base wrote assigned U s Hl Hu Hinv.
  { cbn. eapply inv_weaken; [| done]. auto. }
  assert (Hl' : ∀ j v d, l !! j = Some (v, d) → batch_of (at_.1, at_.2, (S i + j)%nat) = Some ((tid, index), raw_batch v)).
  { intros j v d' Hj. specialize (Hl (S j) v d' Hj). by rewrite Nat.add_succ_r in Hl. }
  assert (Hskip : ∀ base wrote assigned,
    inv (λ k, U k ∨ place_of k = at_) (write_batches tid index at_ l (S i) base wrote assigned s).2).
  { intros. apply IH; [done | | done]. intros Hs k Hk Hp. specialize (Hu Hs k Hk Hp). lia. }
  assert (Hland : inv (λ k, U k ∨ k = (at_.1, at_.2, i)) (land tid index at_ i view ((view, d) :: l) s).2).
  { apply land_inv; [| | done].
    - specialize (Hl O view d eq_refl). by rewrite Nat.add_0_r in Hl.
    - intros Hs Hk. specialize (Hu Hs _ Hk (eq_sym (surjective_pairing at_))). cbn in Hu. lia. }
  assert (Hnext : ∀ base wrote assigned s', inv (λ k, U k ∨ k = (at_.1, at_.2, i)) s' →
    inv (λ k, U k ∨ place_of k = at_) (write_batches tid index at_ l (S i) base wrote assigned s').2).
  { intros b wr asg s' Hs'. eapply inv_weaken; [| apply IH; [done | | exact Hs']].
    - intros k [[?| ->]|?]; auto. right. by destruct at_.
    - intros Hs k [Hk| ->] Hp; [specialize (Hu Hs k Hk Hp); lia | cbn; lia]. }
  assert (Hend : ∀ s', inv (λ k, U k ∨ k = (at_.1, at_.2, i)) s' → inv (λ k, U k ∨ place_of k = at_) s').
  { intros s'. apply inv_weaken. intros k [?| ->]; auto. right. by destruct at_. }
  cbn [write_batches]. destruct d as [|idem|b|j]; [| | apply Hskip | apply Hskip].
  - unfold bind. destruct (land tid index at_ i view _ s) as [[off|e] s']; [by apply Hnext | by apply Hend].
  - unfold bind at 1. destruct (land tid index at_ i view _ s) as [[off|e] s']; [| by apply Hend].
    unfold bind at 1. pose proof (quiet_catch (E' := AppendError.t) _ (quiet_stamp tid index idem off) s') as Hq.
    destruct (catch (stamp_batch tid index idem off) s') as [[[[]|e]|e] s2]; cbn [snd] in Hq.
    + apply Hnext. by apply (alike_inv _ s').
    + apply Hend. apply (alike_inv _ s2); [| by apply (alike_inv _ s')].
      apply (quiet_bind _ _ (quiet_release tid index l)). intros. apply quiet_throw.
    + apply Hend. by apply (alike_inv _ s').
Qed.

(** A plan that is for the batches of its place. *)
Definition good_plan (p : Pending) : Prop :=
  ∀ j view d, pl_batches (pe_plan p) !! j = Some (view, d) →
    batch_of (pe_topic p, pe_slot p, j) = Some ((pl_tid (pe_plan p), pl_index (pe_plan p)), raw_batch view).

Definition pe_place (p : Pending) : nat * nat := (pe_topic p, pe_slot p).

Lemma write_partition_inv p U s :
  good_plan p → (e_segment env = false → ∀ k, U k → place_of k ≠ pe_place p) → inv U s →
  inv (λ k, U k ∨ place_of k = pe_place p) (write_partition (pe_plan p) (pe_place p) s).2.
Proof.
  intros Hg Hu Hinv. unfold write_partition, bind at 1.
  assert (Hw : inv (λ k, U k ∨ place_of k = pe_place p)
    (write_batches (pl_tid (pe_plan p)) (pl_index (pe_plan p)) (pe_place p) (pl_batches (pe_plan p)) 0 None false [] s).2).
  { apply write_batches_inv; [| | done].
    - intros j view d Hj. exact (Hg j view d Hj).
    - intros Hs k Hk Hp. by destruct (Hu Hs k Hk). }
  destruct (write_batches _ _ _ _ _ _ _ _ s) as [[[[b|] wr]|e] s']; try exact Hw.
  eapply alike_inv; [| exact Hw]. apply quiet_bind; [apply quiet_query |]. intros []; quiet.
Qed.

Lemma catch_state {E E' A} (m : pr E A) s : (catch m s : result (Exn E') _ * _).2 = (m s).2.
Proof. unfold catch. by destruct (m s) as [[a|[e|]] s']. Qed.

(** A savepoint: kept where it succeeds, back to the start of the history in
    tables where it fails. *)
Lemma atomically_inv {E A} (m : pr E A) aborted U V s :
  inv U s → inv V (m s).2 →
  match atomically env m aborted s with (Ok _, s') => inv V s' | (Err _, s') => inv U s' end.
Proof.
  intros Hu Hv. unfold atomically. destruct (m s) as [[a|e] s'] eqn:Em; [exact Hv |]. cbn [snd] in Hv.
  assert (Hr : inv U (rollback env s s')).
  { destruct Hu as [[T1 T2] (h & Hh)], Hv as [_ (h' & G1 & G2 & G3 & G4)]. unfold rollback.
    destruct (e_segment env) eqn:Hseg.
    - split; [by split; cbn |]. exists h'. unfold grown_by. cbn. split_and!; try done.
      rewrite Hseg in *. destruct (p_landed s') as [m'|]; [done | by destruct G4].
    - split; [by split; cbn |]. exists h. destruct Hh as (H1 & H2 & H3 & H4). unfold grown_by. cbn.
      split_and!; try done. rewrite Hseg in *. destruct (p_landed s') as [m'|]; [by destruct G4 |].
      destruct (p_landed s) as [m0|]; [by destruct H4 | done]. }
  by destruct e.
Qed.

Lemma attempt_inv id p U s :
  good_plan p → (e_segment env = false → ∀ k, U k → place_of k ≠ pe_place p) → inv U s →
  inv (λ k, U k ∨ place_of k = pe_place p) (attempt env id p s).2.
Proof.
  intros Hg Hu Hinv. unfold attempt. set (body := bind (reserve_partition env (pe_plan p) id []) _).
  assert (Hb : inv (λ k, U k ∨ place_of k = pe_place p) (body s).2).
  { unfold body, bind. pose proof (quiet_reserve_partition env (pe_plan p) id [] s) as Hq.
    destruct (reserve_partition env (pe_plan p) id [] s) as [[begun|e] s1]; cbn [snd] in Hq.
    - rewrite catch_state. apply write_partition_inv; [done | done | by apply (alike_inv _ s)].
    - eapply inv_weaken; [| by apply (alike_inv _ s)]. auto. }
  pose proof (atomically_inv body AppendError.Aborted U _ s Hinv Hb) as Ha.
  unfold bind, catch. destruct (atomically env body AppendError.Aborted s) as [[r|[e|]] s']; cbn; try exact Ha;
    eapply inv_weaken; [| exact Ha | | exact Ha]; auto.
Qed.

Lemma attempt_twice_inv id p U s :
  good_plan p → (e_segment env = false → ∀ k, U k → place_of k ≠ pe_place p) → inv U s →
  inv (λ k, U k ∨ place_of k = pe_place p) (attempt_twice env id p s).2.
Proof.
  intros Hg Hu Hinv. unfold attempt_twice, bind. pose proof (attempt_inv id p U s Hg Hu Hinv) as H1.
  destruct (attempt env id p s) as [[r|e] s1]; [| exact H1]. cbn [snd] in H1.
  destruct r as [a|e]; [exact H1 |]. destruct e; try exact H1.
  destruct (any_landed _ s1) eqn:Hany; [| exact H1].
  destruct (e_segment env) eqn:Hseg.
  - apply (inv_weaken (λ k, (U k ∨ place_of k = pe_place p) ∨ place_of k = pe_place p)); [by intros k [?|?]; auto |].
    apply attempt_inv; [done | by rewrite Hseg | exact H1].
  - exfalso. destruct H1 as [_ (h & _ & _ & _ & Hl)]. unfold any_landed in Hany.
    destruct (p_landed s1); [by destruct Hl as [? _]; congruence | done].
Qed.

(** ** Plans *)

Variable crc32c : bytes → Z.
Variable entry_size : Z.
Variable open_decoder : Z → bytes → result BatchError (bytes * option BatchError).
Variable seen : nat.
Variable version : Z.


(** The loop plans the batches in order, one decision each. *)
Lemma plan_batches_views id tid index l bs v s bs' s' :
  plan_batches id version tid index l bs v s = (Ok bs', s') →
  ∃ ds, bs' = bs ++ ds ∧ ∀ j view d, ds !! j = Some (view, d) → l !! j = Some (Ok view).
Proof.
  revert bs v s. induction l as [|[view|e] l IH]; intros bs v s; cbn [plan_batches]; cbv zeta.
  { intros [= <- _]. exists []. rewrite app_nil_r. split; [done |]. intros j view d Hj. by rewrite lookup_nil in Hj. }
  2:{ done. }
  assert (Hcons : ∀ d v s, plan_batches id version tid index l (bs ++ [(view, d)]) v s = (Ok bs', s') →
    ∃ ds, bs' = bs ++ ds ∧ ∀ j view' d, ds !! j = Some (view', d) → (Ok view :: l) !! j = Some (Ok view')).
  { intros d v' s1 H. apply IH in H as (ds & -> & H). exists ((view, d) :: ds). rewrite <- app_assoc.
    split; [done |]. intros [|j] view' d' Hj; [by injection Hj as -> _ | by apply (H j view' d')]. }
  case_match; [case_match; [done | apply Hcons] |].
  intros H'. apply bind_inv_ok in H' as (av & s1 & _ & H').
  apply bind_inv_ok in H' as (d & s2 & _ & H'). by apply Hcons in H'.
Qed.

Lemma resolve_same name uuid s : same_topics s → resolve_topic name uuid (p_world s) = resolve_topic name uuid w0.
Proof.
  intros [E1 E2]. unfold p_db in E1.
  unfold resolve_topic, topic_by_uuid, topic_name_by_id, topic_id_by_name. by rewrite E1, E2.
Qed.

Lemma query_ok {E A} (err : E) (f : World L → A) s a s' :
  query err f s = (Ok a, s') → a = f (p_world s).
Proof. unfold query, call. destruct (p_fates s) as [|[] fs]; try done; by intros [= <- _]. Qed.

Abbreviation plan_entry := (plan_entry crc32c entry_size open_decoder seen env req version).
Abbreviation plan_entries := (plan_entries crc32c entry_size open_decoder seen env req version).
Abbreviation plan_topic := (plan_topic crc32c entry_size open_decoder seen env req version).
Abbreviation plan_topics := (plan_topics crc32c entry_size open_decoder seen env req version).


Lemma plan_entry_good ti pi td pd name limit s r p lim s' :
  pq_topics req !! ti = Some td → td_partitions td !! pi = Some pd →
  plan_entry (resolve_topic (td_name td) (td_topic_id td) w0) name ti limit pi pd s = (Ok (r, Some p, lim), s') →
  pe_place p = (ti, pi) ∧ good_plan p.
Proof.
  intros Ht Hp. unfold Produce.plan_entry. cbv zeta. case_match; [| done].
  destruct (resolve_topic _ _ w0) as [rt|] eqn:Hr; [| done].
  intros H'. apply bind_inv_ok in H' as ([ok lim1] & s1 & _ & H'). cbn in H'. case_match; [done |].
  case_match; [done |]. case_match; [done |].
  apply bind_inv_ok in H' as (planned & s2 & Hplan & H'). destruct planned as [plan|e].
  2:{ apply bind_inv_ok in H' as (r' & s3 & _ & [=]). }
  injection H' as _ <- _ _. split; [done |]. intros j view d Hj. cbn in *.
  unfold catch in Hplan. destruct (plan_partition _ _ _ _ _ s1) as [[plan'|[e|]] s3] eqn:E; try done.
  injection Hplan as -> _. unfold plan_partition in E. apply bind_inv_ok in E as (bs & s4 & E & E').
  injection E' as <- _. apply plan_batches_views in E as (ds & -> & Hds). cbn in *.
  unfold batch_of. cbn. rewrite Ht. cbn. rewrite Hr. cbn. rewrite Hp. cbn.
  specialize (Hds j view d Hj). destruct (pd_records pd) as [rs|]; [cbn; by rewrite Hds | by rewrite lookup_nil in Hds].
Qed.

Lemma plan_entries_good ti pi td name limit l s rs ps s' :
  pq_topics req !! ti = Some td → l = drop pi (td_partitions td) →
  plan_entries (resolve_topic (td_name td) (td_topic_id td) w0) name ti limit pi l s = (Ok (rs, ps), s') →
  NoDup (pe_place <$> ps) ∧ Forall good_plan ps ∧ Forall (λ p, pe_topic p = ti ∧ (pi ≤ pe_slot p)%nat) ps.
Proof.
  intros Ht. revert pi limit s rs ps s'. induction l as [|pd l IH]; intros pi limit s rs ps s' Hl; cbn [Produce.plan_entries].
  { intros [= _ <- _]. by split_and!; constructor. }
  intros H'. apply bind_inv_ok in H' as ([[r op] lim] & s1 & H1 & H').
  apply bind_inv_ok in H' as ([rs' ps'] & s2 & H2 & [= _ <- _]). cbn [fst snd] in *.
  symmetry in Hl. pose proof (drop_S (td_partitions td) pd pi) as Hd.
  assert (Hpd : td_partitions td !! pi = Some pd).
  { rewrite <- (Nat.add_0_r pi), <- lookup_drop, Hl. done. }
  rewrite Hd in Hl by done. injection Hl as Hl. symmetry in Hl.
  destruct (IH (S pi) lim s1 rs' ps' s2 Hl H2) as (N1 & N2 & N3).
  destruct op as [p|].
  2:{ split_and!; try done. eapply Forall_impl; [done |]. cbn. intros p [? ?]. split; [done | lia]. }
  destruct (plan_entry_good ti pi td pd name limit s r p lim s1) as [Hp Hg]; [done.. |].
  pose proof Hp as [= Hp1 Hp2]. split_and!.
  - rewrite fmap_cons. constructor; [| done]. rewrite Hp. intros Hin.
    apply list_elem_of_fmap in Hin as (q & Hq & Hin). rewrite Forall_forall in N3.
    destruct (N3 q Hin) as [_ Hge]. injection Hq as _ Hq. lia.
  - by constructor.
  - constructor; [split; [done | lia] |]. eapply Forall_impl; [done |]. cbn. intros q [? ?]. split; [done | lia].
Qed.

Lemma alike_topics s s' : alike s s' → same_topics s → same_topics s'.
Proof. intros (_ & _ & E3 & E4) [H1 H2]. split; congruence. Qed.

Lemma plan_topics_good ti l s ts ps es s' :
  same_topics s → l = drop ti (pq_topics req) → plan_topics ti l s = (Ok (ts, ps, es), s') →
  NoDup (pe_place <$> ps) ∧ Forall good_plan ps ∧ Forall (λ p, (ti ≤ pe_topic p)%nat) ps.
Proof.
  revert ti s ts ps es s'. induction l as [|td l IH]; intros ti s ts ps es s' Hs Hl; cbn [Produce.plan_topics].
  { intros [= _ <- _ _]. by split_and!; constructor. }
  intros H'. apply bind_inv_ok in H' as ([[t ps1] es1] & s1 & H1 & H').
  apply bind_inv_ok in H' as ([[ts2 ps2] es2] & s2 & H2 & [= _ <- _ _]). cbn [fst snd] in *.
  symmetry in Hl. pose proof (drop_S (pq_topics req) td ti) as Hd.
  assert (Htd : pq_topics req !! ti = Some td).
  { rewrite <- (Nat.add_0_r ti), <- lookup_drop, Hl. done. }
  rewrite Hd in Hl by done. injection Hl as Hl. symmetry in Hl.
  assert (Hs1 : same_topics s1).
  { pose proof (quiet_plan_topic env req crc32c entry_size open_decoder seen version ti td s) as Hq. rewrite H1 in Hq. by apply (alike_topics s). }
  destruct (IH (S ti) s1 ts2 ps2 es2 s2 Hs1 Hl H2) as (N1 & N2 & N3).
  unfold Produce.plan_topic in H1. apply bind_inv_ok in H1 as (resolved & s3 & Hq & H1).
  apply query_ok in Hq. rewrite resolve_same in Hq by done. subst resolved. cbv zeta in H1.
  apply bind_inv_ok in H1 as ([rs ps'] & s4 & H1 & [= _ <- _ _]). cbn [fst snd] in *.
  destruct (plan_entries_good ti 0 td _ None (td_partitions td) _ _ _ _ Htd eq_refl H1) as (M1 & M2 & M3).
  rewrite Forall_forall in M3, N3. split_and!.
  - rewrite fmap_app. apply NoDup_app. split_and!; [done | | done]. intros q Hq1 Hq2.
    apply list_elem_of_fmap in Hq1 as (p1 & -> & Hp1), Hq2 as (p2 & [= Hq2 _] & Hp2).
    destruct (M3 p1 Hp1) as [Ht1 _]. specialize (N3 p2 Hp2). cbn in N3. lia.
  - by apply Forall_app.
  - apply Forall_forall. intros p Hp. apply elem_of_app in Hp as [Hp|Hp];
      [destruct (M3 p Hp); lia | specialize (N3 p Hp); cbn in N3; lia].
Qed.

(** ** The request *)

(** Both loops of phase 3: a way to write a partition, and its answer. *)
Fixpoint write_with (put : Pending → pr Abandon (result AppendError.t Appended)) (l : list Pending) (a : Answer)
    : pr Abandon Answer :=
  match l with
  | [] => ret a
  | p :: l' => let* outcome := put p in let* a := finish req p outcome a in write_with put l' a
  end.

Lemma write_all_with l a s :
  write_all req l a s = write_with (λ p, catch (write_partition (pe_plan p) (pe_place p))) l a s.
Proof.
  revert a s. induction l as [|p l IH]; intros; [done |]. cbn [write_all write_with]. unfold bind, pe_place.
  destruct (catch _ s) as [[o|] s1]; [| done]. destruct (finish req p o a s1) as [[]]; [apply IH | done].
Qed.
Lemma write_each_with l a s : write_each env req l a s = write_with (attempt_twice env (pq_transactional_id req)) l a s.
Proof.
  revert a s. induction l as [|p l IH]; intros; [done |]. cbn [write_each write_with]. unfold bind.
  destruct (attempt_twice _ _ _ s) as [[o|] s1]; [| done]. destruct (finish req p o a s1) as [[]]; [apply IH | done].
Qed.

Lemma write_with_inv put l a U s :
  (∀ p U s, good_plan p → (e_segment env = false → ∀ k, U k → place_of k ≠ pe_place p) → inv U s →
     inv (λ k, U k ∨ place_of k = pe_place p) (put p s).2) →
  Forall good_plan l → NoDup (pe_place <$> l) →
  (e_segment env = false → ∀ k, U k → place_of k ∉ pe_place <$> l) → inv U s →
  inv (λ k, U k ∨ place_of k ∈ pe_place <$> l) (write_with put l a s).2.
Proof.
  intros Hput Hg. revert a U s. induction Hg as [|p l Hp Hg IH]; intros a U s Hnd Hu Hinv; cbn [write_with].
  { eapply inv_weaken; [| exact Hinv]. auto. }
  rewrite fmap_cons in *. apply NoDup_cons in Hnd as [Hnin Hnd].
  assert (Hw : inv (λ k, U k ∨ place_of k = pe_place p) (put p s).2).
  { apply Hput; [done | | done]. intros Hs k Hk Hpl. apply (Hu Hs k Hk). rewrite Hpl. constructor. }
  unfold bind at 1. destruct (put p s) as [[outcome|e] s1]; cbn [snd] in Hw.
  2:{ eapply inv_weaken; [| exact Hw]. intros k [?|?]; rewrite elem_of_cons; auto. }
  unfold bind at 1. pose proof (quiet_finish req (E := Abandon) p outcome a s1) as Hq.
  destruct (finish req p outcome a s1) as [[a'|e] s2]; cbn [snd] in Hq.
  - eapply inv_weaken; [| apply (IH a' (λ k, U k ∨ place_of k = pe_place p) s2)]; [| done | |].
    + intros k [[?|?]|?]; rewrite elem_of_cons; auto.
    + intros Hs k [Hk|Hk]; [| by rewrite Hk]. intros Hin. apply (Hu Hs k Hk). by constructor.
    + by apply (alike_inv _ s1).
  - eapply inv_weaken; [| by apply (alike_inv _ s1)]. intros k [?|?]; rewrite elem_of_cons; auto.
Qed.

Abbreviation build := (build crc32c entry_size open_decoder seen env req version).
Abbreviation handle := (handle crc32c entry_size open_decoder seen env req version).

Lemma build_inv isolation s :
  inv (λ _, False) s → inv (λ _, True) (build isolation s).2.
Proof.
  intros Hinv. assert (Hend : ∀ U s', inv U s' → inv (λ _, True) s') by (intros U s'; by apply inv_weaken).
  unfold Produce.build, bind at 1. pose proof (quiet_plan_topics env req crc32c entry_size open_decoder seen version 0 (pq_topics req) s) as Hq.
  destruct (plan_topics 0 (pq_topics req) s) as [[[[ts ps] es]|e] s1] eqn:Hp; cbn [snd] in Hq.
  2:{ eapply Hend. by apply (alike_inv _ s). }
  pose proof (alike_inv _ s s1 Hq Hinv) as Hinv1.
  destruct (plan_topics_good 0 (pq_topics req) s ts ps es s1) as (H1 & H2 & _); [apply Hinv | done | done |].
  cbn [fst snd]. set (pending := retain (echoes es) ps).
  assert (Hg : Forall good_plan pending) by by apply forall_filter.
  assert (Hnd : NoDup (pe_place <$> pending)).
  { eapply sublist_NoDup; [exact H1 |]. apply fmap_sublist, sublist_filter. }
  assert (Hwrite : ∀ a s', inv (λ _, False) s' → inv (λ _, True)
    (match isolation with Shared => write_all req pending a | PerPartition => write_each env req pending a end s').2).
  { intros a s' Hs'. destruct isolation; [rewrite write_all_with | rewrite write_each_with];
      (eapply Hend, write_with_inv; [| done | done | | exact Hs']; [| by intros _ k []]).
    - intros p U s2 Hgp Hu Hs2. rewrite catch_state. by apply write_partition_inv.
    - intros p U s2 Hgp Hu Hs2. by apply attempt_twice_inv. }
  unfold bind at 1. set (m := match isolation with Shared => _ | PerPartition => _ end).
  assert (Hm : inv (λ _, True) (m s1).2).
  { unfold m. destruct isolation; [| by apply Hwrite]. unfold bind.
    pose proof (quiet_reserve_all env (pq_transactional_id req) pending [] s1) as Hr.
    destruct (reserve_all env _ pending [] s1) as [[[]|e] s2]; cbn [snd] in Hr.
    - apply Hwrite. by apply (alike_inv _ s1).
    - eapply Hend. by apply (alike_inv _ s1). }
  by destruct (m s1) as [[a|e] s2].
Qed.

Lemma build_savepoint_inv s :
  inv (λ _, False) s →
  match atomically env (build Shared) PartitionFailed s with
  | (Ok _, s') => inv (λ _, True) s'
  | (Err _, s') => inv (λ _, False) s'
  end.
Proof. intros H. apply atomically_inv; [done | by apply build_inv]. Qed.

Lemma start_inv s : p_world s = w0 → p_landed s = (if e_segment env then Some ∅ else None) → inv (λ _, False) s.
Proof.
  intros Hw Hl. unfold inv, same_topics, p_db. rewrite Hw. split; [done |]. exists [].
  unfold grown_by, p_db. rewrite Hw, Hl. split_and!; [constructor | constructor | intros p; by rewrite app_nil_r |].
  destruct (e_segment env); (split; [done |]).
  - intros k off. rewrite lookup_empty. split; [done | by intros ?%elem_of_nil].
  - by intros k ?%elem_of_nil.
Qed.

(** From where the request has its [LANDED] map. *)
Lemma phases_inv s :
  inv (λ _, False) s →
  inv (λ _, True) ((let* first := catch (atomically env (build Shared) PartitionFailed) in
    match first with
    | Ok outcome => ret outcome
    | Err (Fatal e) => throw (Fails e)
    | Err PartitionFailed =>
        map_err (λ e, match e with Fatal e => e | PartitionFailed => Internal end) (build PerPartition)
    end : pr HandlerError ProduceOutcome) s).2.
Proof.
  intros Hinv. pose proof (build_savepoint_inv s Hinv) as Hb.
  assert (Hend : ∀ s', inv (λ _, False) s' → inv (λ _, True) s') by (intros s'; by apply inv_weaken).
  unfold bind, catch. destruct (atomically env (build Shared) PartitionFailed s) as [[o|[[|e]|]] s1]; cbn [snd].
  - exact Hb.
  - unfold map_err, bind. pose proof (build_inv PerPartition s1 Hb) as H2.
    rewrite <- (catch_state (E' := HandlerError)) in H2.
    by destruct (catch (build PerPartition) s1) as [[[]|] s2].
  - by apply Hend.
  - by apply Hend.
Qed.

(** ** Repeated partitions *)

(** Every plan has its entry, under the name its topic has. *)
Definition has_entry (es : list (string * Z * (nat * nat))) (p : Pending) : Prop :=
  ∃ name (c : Z), t_topics (w_tx w0) !! pl_tid (pe_plan p) = Some (name, c) ∧
    (name, pl_index (pe_plan p), pe_place p) ∈ es.

Lemma resolve_name name uuid rt :
  resolve_topic name uuid w0 = Some rt → ∃ c : Z, t_topics (w_tx w0) !! rt_topic_id rt = Some (rt_name rt, c).
Proof.
  unfold resolve_topic. intros H.
  destruct (if decide (name = ""%string) then _ else _) as [[id n]|] eqn:E; [| done]. cbn in H.
  destruct (w_cols w0 !! id) as [[raw c]|]; [| done]. injection H as <-. cbn. case_decide.
  - unfold topic_by_uuid, topic_name_by_id in E. destruct (list_find _ _) as [[i [j row]]|]; [| done]. cbn in E.
    destruct (t_topics (w_tx w0) !! j) as [[n' k]|] eqn:Et; [| done]. injection E as <- <-. by exists k.
  - destruct (topic_id_by_name name (w_tx w0)) as [id'|] eqn:Et; [| done]. injection E as <- <-.
    by apply topic_id_by_name_spec.
Qed.

Lemma plan_entry_index resolved name ti pi pd limit s r p lim s' :
  plan_entry resolved name ti limit pi pd s = (Ok (r, Some p, lim), s') →
  pe_place p = (ti, pi) ∧ pl_index (pe_plan p) = pd_index pd ∧
  ∃ rt, resolved = Some rt ∧ pl_tid (pe_plan p) = rt_topic_id rt.
Proof.
  unfold Produce.plan_entry. cbv zeta. case_match; [| done]. destruct resolved as [rt|]; [| done].
  intros H'. apply bind_inv_ok in H' as ([ok lim1] & s1 & _ & H'). cbn in H'. case_match; [done |].
  case_match; [done |]. case_match; [done |].
  apply bind_inv_ok in H' as (planned & s2 & Hplan & H'). destruct planned as [plan|e].
  2:{ apply bind_inv_ok in H' as (r' & s3 & _ & [=]). }
  injection H' as _ <- _ _. unfold catch in Hplan.
  destruct (plan_partition _ _ _ _ _ s1) as [[plan'|[e|]] s3] eqn:E; try done.
  injection Hplan as -> _. unfold plan_partition in E. apply bind_inv_ok in E as (bs & s4 & _ & [= <- _]).
  split_and!; try done. by exists rt.
Qed.

Lemma plan_entries_entry resolved name ti pi limit l s rs ps s' p :
  plan_entries resolved name ti limit pi l s = (Ok (rs, ps), s') → p ∈ ps →
  (name, pl_index (pe_plan p), pe_place p) ∈ imap (λ j pd, (name, pd_index pd, (ti, (pi + j)%nat))) l ∧
  ∃ rt, resolved = Some rt ∧ pl_tid (pe_plan p) = rt_topic_id rt.
Proof.
  revert pi limit s rs ps s'. induction l as [|pd l IH]; intros pi limit s rs ps s'; cbn [Produce.plan_entries].
  { intros [= _ <- _] Hp. by apply elem_of_nil in Hp. }
  intros H'. apply bind_inv_ok in H' as ([[r op] lim] & s1 & H1 & H').
  apply bind_inv_ok in H' as ([rs' ps'] & s2 & H2 & [= _ <- _]). cbn [fst snd] in *. intros Hp.
  rewrite imap_cons, elem_of_cons.
  assert (Hrest : p ∈ ps' → (name, pl_index (pe_plan p), pe_place p) ∈
    imap ((λ j pd, (name, pd_index pd, (ti, (pi + j)%nat))) ∘ S) l ∧
    ∃ rt, resolved = Some rt ∧ pl_tid (pe_plan p) = rt_topic_id rt).
  { intros Hin. destruct (IH (S pi) lim s1 rs' ps' s2 H2 Hin) as [Hi Hrt]. split; [| done].
    erewrite imap_ext; [exact Hi |]. intros j x _. cbn. by rewrite Nat.add_succ_r. }
  destruct op as [q|]; [| destruct (Hrest Hp); auto].
  apply elem_of_cons in Hp as [->|Hp]; [| destruct (Hrest Hp); auto].
  apply plan_entry_index in H1 as (Hq & Hi & Hrt). split; [| done]. left.
  by rewrite Hi, Hq, Nat.add_0_r.
Qed.

Lemma plan_topics_entries ti l s ts ps es s' :
  same_topics s → plan_topics ti l s = (Ok (ts, ps, es), s') → Forall (has_entry es) ps.
Proof.
  revert ti s ts ps es s'. induction l as [|td l IH]; intros ti s ts ps es s' Hs; cbn [Produce.plan_topics].
  { intros [= _ <- _ _]. constructor. }
  intros H'. apply bind_inv_ok in H' as ([[t ps1] es1] & s1 & H1 & H').
  apply bind_inv_ok in H' as ([[ts2 ps2] es2] & s2 & H2 & [= _ <- <- _]). cbn [fst snd] in *.
  assert (Hs1 : same_topics s1).
  { pose proof (quiet_plan_topic env req crc32c entry_size open_decoder seen version ti td s) as Hq. rewrite H1 in Hq. by apply (alike_topics s). }
  apply Forall_app. split.
  - unfold Produce.plan_topic in H1. apply bind_inv_ok in H1 as (resolved & s3 & Hq & H1).
    apply query_ok in Hq. rewrite resolve_same in Hq by done. cbv zeta in H1.
    apply bind_inv_ok in H1 as ([rs ps'] & s4 & H1 & [= _ <- <- _]). cbn [fst snd] in *.
    apply Forall_forall. intros p Hp. destruct (plan_entries_entry _ _ _ _ _ _ _ _ _ _ p H1 Hp) as [Hi (rt & -> & Ht)].
    symmetry in Hq. destruct (resolve_name _ _ _ Hq) as [k Hk]. exists (rt_name rt), k.
    rewrite Ht. split; [done |]. apply elem_of_app. by left.
  - eapply Forall_impl; [by eapply IH |]. intros p (name & k & Hk & Hin). exists name, k.
    split; [done |]. apply elem_of_app. by right.
Qed.

Lemma last_entry_some es (e : string * Z * (nat * nat)) : e ∈ es → is_Some (last_entry es !! e.1).
Proof.
  unfold last_entry. induction es as [|x es IH] using rev_ind; [by intros ?%elem_of_nil |].
  rewrite foldl_app, elem_of_app. cbn. intros [H|H%list_elem_of_singleton].
  - destruct (decide (x.1 = e.1)) as [->|Hne]; [rewrite lookup_insert_eq; by eexists |].
    rewrite lookup_insert_ne by done. by apply IH.
  - subst. rewrite lookup_insert_eq. by eexists.
Qed.

(** An entry that is not echoed is the last of its partition. *)
Lemma not_echoed_last es (e : string * Z * (nat * nat)) :
  e ∈ es → e.2 ∉ (echoes es).*1 → last_entry es !! e.1 = Some e.2.
Proof.
  intros He Hn. destruct (last_entry_some es e He) as [at_ Hat]. rewrite Hat. f_equal.
  destruct (decide (at_ = e.2)) as [|Hne]; [done |]. exfalso. apply Hn. apply list_elem_of_fmap.
  exists (e.2, at_). split; [done |]. unfold echoes. apply list_elem_of_omap. exists e.
  split; [done |]. rewrite Hat. by rewrite decide_False.
Qed.

Lemma retained_once es ps :
  NoDup (pe_place <$> ps) → Forall (has_entry es) ps →
  NoDup ((λ p, (pl_tid (pe_plan p), pl_index (pe_plan p))) <$> retain (echoes es) ps).
Proof.
  intros Hnd He. unfold retain.
  assert (Hkey : ∀ p, p ∈ ps → (pe_topic p, pe_slot p) ∉ (echoes es).*1 →
    ∃ name (c : Z), t_topics (w_tx w0) !! pl_tid (pe_plan p) = Some (name, c) ∧
      last_entry es !! (name, pl_index (pe_plan p)) = Some (pe_place p)).
  { intros p Hp Hn. rewrite Forall_forall in He. destruct (He p Hp) as (name & k & Hk & Hin).
    exists name, k. split; [done |]. by apply (not_echoed_last es (name, pl_index (pe_plan p), pe_place p)). }
  assert (Hp : ∀ p, p ∈ ps → p ∈ ps) by done. revert Hp Hkey. generalize ps at 2 3. intros all Hall Hkey. clear He.
  induction ps as [|p ps IH]; [constructor |].
  rewrite fmap_cons in Hnd. apply NoDup_cons in Hnd as [Hnin Hnd].
  assert (IH' := IH Hnd (λ q Hq, Hall q (list_elem_of_further _ _ _ Hq))). rewrite filter_cons.
  case_decide as Hk; [| done]. rewrite fmap_cons. constructor; [| done].
  intros Hin. apply list_elem_of_fmap in Hin as (q & [= E1 E2] & Hq).
  apply list_elem_of_filter in Hq as [Hqk Hq]. apply Hnin. apply list_elem_of_fmap. exists q. split; [| done].
  destruct (Hkey p (Hall p ltac:(constructor)) Hk) as (n1 & k1 & H1 & H2).
  destruct (Hkey q (Hall q (list_elem_of_further _ _ _ Hq)) Hqk) as (n2 & k2 & H3 & H4).
  rewrite E1, H3 in H1. injection H1 as -> ->. rewrite E2, H4 in H2. congruence.
Qed.

End Landing.

(** The partitions a list of plans writes to. *)
Definition targets (ps : list Pending) : list (Z * Z) :=
  (λ p, (pl_tid (pe_plan p), pl_index (pe_plan p))) <$> ps.

Section Theorems.

Context {L : Type} {store : LogStore L} {laws : LogStoreLaws L}.
Variable crc32c : bytes → Z.
Variable entry_size : Z.
Variable open_decoder : Z → bytes → result BatchError (bytes * option BatchError).
Variable seen : nat.
Variable env : Env.

(** C8. Whatever calls of the database fail or raise, and however often the
    request is retried inside (the shared attempt, the redo per partition, the
    second attempt of a partition): the log of every partition grows by batches
    of the request addressed to that partition, unchanged, and no batch of the
    request is there twice. *)
Theorem produce_lands_at_most_once req version (s : Prod L) :
  let s' := (handle crc32c entry_size open_decoder seen env req version s).2 in
  ∃ hist : list (key * Z), NoDup hist.*1 ∧
    Forall (λ k, is_Some (batch_of req (p_world s) k)) hist.*1 ∧
    ∀ p, log_of (t_log (p_db s')) p = log_of (t_log (p_db s)) p ++ added req (p_world s) p hist.
Proof.
  cbv zeta.
  assert (Hstop : ∀ s', p_world s' = p_world s → ∃ hist : list (key * Z), NoDup hist.*1 ∧
    Forall (λ k, is_Some (batch_of req (p_world s) k)) hist.*1 ∧
    ∀ p, log_of (t_log (p_db s')) p = log_of (t_log (p_db s)) p ++ added req (p_world s) p hist).
  { intros s' E. exists []. unfold p_db. rewrite E. split_and!; [constructor.. |]. intros p. by rewrite app_nil_r. }
  assert (Hinv : ∀ s', inv env req (p_world s) (λ _, True) s' → ∃ hist : list (key * Z), NoDup hist.*1 ∧
    Forall (λ k, is_Some (batch_of req (p_world s) k)) hist.*1 ∧
    ∀ p, log_of (t_log (p_db s')) p = log_of (t_log (p_db s)) p ++ added req (p_world s) p hist).
  { intros s' [_ (hist & H1 & H2 & H3 & _)]. by exists hist. }
  unfold handle, bind at 1.
  set (first := if relaxes env req then _ else _).
  assert (Hfirst : p_world (first s).2 = p_world s).
  { subst first. destruct (relaxes env req); [| reflexivity]. unfold call.
    destruct (p_fates s) as [|[] fs]; reflexivity. }
  destruct (first s) as [[[]|e] s1]; cbn [snd] in Hfirst; [| by apply Hstop].
  unfold bind at 1. set (s2 := set_landed _ s1).
  assert (H2 : inv env req (p_world s) (λ _, False) s2) by (by apply start_inv).
  unfold bind at 1. set (hold := match pq_transactional_id req with Some _ => _ | None => _ end).
  assert (Hh : quiet (E := HandlerError) hold).
  { unfold hold. destruct (pq_transactional_id req); [apply quiet_hold_all | apply quiet_ret]. }
  specialize (Hh s2). destruct (hold s2) as [[[]|e] s3]; cbn [snd] in Hh.
  - apply Hinv, phases_inv. by apply (alike_inv _ _ _ _ s2).
  - apply Hinv. eapply inv_weaken; [| by apply (alike_inv _ _ _ _ s2)]. auto.
Qed.

(** A request that names a topic-partition more than once writes it once: of
    the plans that are written, no two are for the same partition, whether the
    topic is named or given by id, so the copies of a batch cannot both pass the
    sequence check. *)
Theorem produce_writes_partition_once req version (s : Prod L) ts ps es s' :
  plan_topics crc32c entry_size open_decoder seen env req version 0 (pq_topics req) s = (Ok (ts, ps, es), s') →
  NoDup (targets (retain (echoes es) ps)).
Proof.
  intros H. eapply (retained_once (p_world s)).
  - eapply (plan_topics_good env req (p_world s)); [| reflexivity | exact H]. done.
  - eapply (plan_topics_entries env req (p_world s)); [| exact H]. done.
Qed.

End Theorems.

(** ** A request that names a partition twice *)

Definition twice_req : ProduceRequest :=
  let p := mk_pdata 0 (Some (idem_batch 7 0 0 4)) in mk_produce None 1 [mk_tdata "orders" no_uuid [p; p]].
Definition no_decoder (_ : Z) (_ : bytes) : result BatchError (bytes * option BatchError) := Err DecompressedTooLarge.
Definition twice_planned :=
  plan_topics sum_crc 64 no_decoder 0 sample_env twice_req 9 0 (pq_topics twice_req) sample_prod.
Definition twice_plans : list TopicResponse * list Pending * list (string * Z * (nat * nat)) :=
  match twice_planned.1 with Ok t => t | Err _ => ([], [], []) end.

Lemma produce_writes_partition_once_witness :
  length twice_plans.1.2 = 2%nat ∧ length (retain (echoes twice_plans.2) twice_plans.1.2) = 1%nat ∧
  NoDup (targets (retain (echoes twice_plans.2) twice_plans.1.2)).
Proof.
  split; [vm_compute; reflexivity |]. split; [vm_compute; reflexivity |].
  refine (produce_writes_partition_once sum_crc 64 no_decoder 0 sample_env twice_req 9 sample_prod
    twice_plans.1.1 twice_plans.1.2 twice_plans.2 twice_planned.2 _).
  refine (pair_state twice_planned _ _). vm_compute. reflexivity.
Defined.

(** The stamp of the batch raises after the batch has landed: the tables go back,
    the partition is redone, and the log has the batch once. *)
Definition raising_prod : Prod MemLog := mk_prod sample_world (Some ∅) false (replicate 5 Fine ++ [PgRaise]).
Definition raised := handle sum_crc 64 no_decoder 0 sample_env twice_req 9 raising_prod.

Lemma produce_lands_at_most_once_witness :
  p_fates raised.2 = [] ∧ length (log_of (t_log (p_db raised.2)) (1, 0)) = 1%nat ∧
  ∃ hist : list (key * Z), NoDup hist.*1 ∧
    Forall (λ k, is_Some (batch_of twice_req sample_world k)) hist.*1 ∧
    ∀ p, log_of (t_log (p_db raised.2)) p = log_of (t_log (p_db raising_prod)) p ++ added twice_req sample_world p hist.
Proof.
  split; [vm_compute; reflexivity |]. split; [vm_compute; reflexivity |].
  exact (produce_lands_at_most_once sum_crc 64 no_decoder 0 sample_env twice_req 9 raising_prod).
Defined.
