(* ===== verification/ProduceResend.v ===== *)
(** * Produce: a resend is answered, not appended

    A client that did not get its answer sends the same batches again.  For a
    partition's batches of one idempotent producer, at most as many as the
    window keeps: after a first write that was acknowledged, whatever other
    producers did since, the resend is planned as duplicates, answered with the
    first answer's offset, and changes neither log nor tables.  No call of the
    database fails here; ProduceSpec.v is about the calls that do. *)

From stdpp Require Import gmap strings sorting.
From S2P Require Import Prelude Errors Records RecordIter Compaction Cleaner Producer Acl Pmeta Store Txn Config Topics Produce.

#[local] Open Scope Z_scope.
#[local] Set Default Proof Using "Type*".

(** ** Windows after reserving and stamping *)

Definition key_row (pid tid index : Z) (r : BatchRow) : Prop :=
  br_producer r = pid ∧ br_topic r = tid ∧ br_partition r = index.

Lemma record_all_window now pid tid index rs d :
  Forall (key_row pid tid index) rs → NoDup (br_first <$> rs) → (length rs ≤ RETAINED_BATCHES)%nat →
  ∃ pre, window_rows pid tid index (record_all now rs d) = pre ++ rs ∧
    Forall (λ r, br_first r ∉ br_first <$> rs) pre.
Proof.
  induction rs as [|r rs IH] using rev_ind; intros Hk Hnd Hlen.
  { exists (window_rows pid tid index d). rewrite app_nil_r. split; [done |].
    apply Forall_forall. intros x _. by apply not_elem_of_nil. }
  rewrite length_app in Hlen. cbn [length] in Hlen. apply Forall_app in Hk as [Hk Hr].
  apply Forall_singleton in Hr as (E1 & E2 & E3). rewrite fmap_app in Hnd. apply NoDup_app in Hnd as (Hnd & Hd & _).
  destruct IH as (pre & Hw & Hpre); [done | done | lia |]. rewrite record_all_snoc.
  assert (Ew : window_rows pid tid index (record_row now r (record_all now rs d)) =
    newest_five (filter (λ b', br_first b' ≠ br_first r) (pre ++ rs) ++ [r])).
  { rewrite <- Hw. pose proof (record_window now r (record_all now rs d)) as H. unfold window_of in H.
    by rewrite E1, E2, E3 in H. }
  assert (Ers : filter (λ b', br_first b' ≠ br_first r) rs = rs).
  { apply filter_every, Forall_forall. intros x Hx Hf. apply (Hd (br_first x)); [by apply list_elem_of_fmap_2 |].
    rewrite Hf. constructor. }
  rewrite filter_app, Ers in Ew. set (pre' := filter _ pre) in Ew.
  exists (drop (length ((pre' ++ rs) ++ [r]) - RETAINED_BATCHES) pre'). split.
  - rewrite Ew. unfold newest_five. rewrite <- app_assoc, drop_app_le; [done |].
    rewrite !length_app. cbn [length]. lia.
  - apply Forall_drop. apply Forall_forall. intros x Hx. apply list_elem_of_filter in Hx as [Hx1 Hx2].
    rewrite Forall_forall in Hpre. rewrite fmap_app, elem_of_app. intros [Hin|Hin]; [by apply (Hpre x) |].
    by apply list_elem_of_singleton in Hin.
Qed.

(** The window after a stamp. *)
Definition stamped (first base : Z) (b : BatchRow) : BatchRow :=
  if br_first b =? first then set_base base b else b.

Lemma stamp_rows pid tid index first base d :
  window_rows pid tid index (Producer.stamp pid tid index first base d) =
    stamped first base <$> window_rows pid tid index d.
Proof.
  unfold window_rows, Producer.stamp, set_batches. cbn [batches].
  induction (batches d) as [|b l IH]; [done |]. cbn [map].
  destruct (at_key pid tid index b) eqn:Ek; cbn [andb].
  - rewrite (filter_cons_True _ b) by done. rewrite fmap_cons, <- IH. unfold stamped.
    by destruct (br_first b =? first); rewrite filter_cons_True.
  - rewrite !filter_cons_False by (by rewrite Ek). apply IH.
Qed.

Definition stamp_all (pid tid index : Z) (fo : list (Z * Z)) (d : Db) : Db :=
  foldl (λ d e, Producer.stamp pid tid index e.1 e.2 d) d fo.

Lemma stamp_all_rows pid tid index fo d :
  window_rows pid tid index (stamp_all pid tid index fo d) =
    (λ b, foldl (λ b e, stamped e.1 e.2 b) b fo) <$> window_rows pid tid index d.
Proof.
  revert d. induction fo as [|[f o] fo IH]; intros d; [by rewrite list_fmap_id |].
  change (stamp_all pid tid index ((f, o) :: fo) d)
    with (stamp_all pid tid index fo (Producer.stamp pid tid index f o d)).
  rewrite IH, stamp_rows, <- list_fmap_compose. done.
Qed.

Lemma stamped_first f o b : br_first (stamped f o b) = br_first b.
Proof. unfold stamped. by destruct (br_first b =? f). Qed.

Lemma stamped_none fo b : br_first b ∉ fo.*1 → foldl (λ b e, stamped e.1 e.2 b) b fo = b.
Proof.
  revert b. induction fo as [|[f o] fo IH]; intros b Hb; [done |]. cbn [foldl fst snd].
  rewrite fmap_cons, not_elem_of_cons in Hb. destruct Hb as [Hf Hb]. cbn in Hf.
  assert (E : stamped f o b = b) by (unfold stamped; by destruct (Z.eqb_spec (br_first b) f)).
  rewrite E. by apply IH.
Qed.

(** Each row gets the offset stamped for it. *)
Lemma stamped_rows rs os :
  NoDup (br_first <$> rs) → length os = length rs →
  (λ b, foldl (λ b e, stamped e.1 e.2 b) b (zip (br_first <$> rs) os)) <$> rs = zip_with set_base os rs.
Proof.
  revert os. induction rs as [|r rs IH]; intros [|o os] Hnd Hl; try done.
  rewrite fmap_cons in Hnd. apply NoDup_cons in Hnd as [Hn Hnd]. injection Hl as Hl.
  rewrite !fmap_cons. cbn [zip_with foldl fst snd]. f_equal.
  - unfold stamped at 2. rewrite Z.eqb_refl. apply stamped_none. cbn. by rewrite fst_zip by (by rewrite length_fmap, Hl).
  - rewrite <- (IH os) by done. apply list_fmap_ext. intros i x Hx. f_equal. unfold stamped.
    destruct (Z.eqb_spec (br_first x) (br_first r)) as [E|]; [| done].
    exfalso. apply Hn. rewrite <- E. by apply list_elem_of_fmap_2, (list_elem_of_lookup_2 _ i).
Qed.

(** A row of a window whose newest rows are [rs], all of one epoch. *)
Lemma check_stamped pid tid index e rs pre b d :
  window_rows pid tid index d = pre ++ rs → NoDup (br_first <$> rs) →
  Forall (λ r, br_first r ∉ br_first <$> rs) pre → Forall (λ r, br_epoch r = e) rs → b ∈ rs →
  Producer.check pid e (br_first b) (br_last b) tid index d = Duplicate (br_base b).
Proof.
  intros Hw Hnd Hpre He Hb. unfold Producer.check, window. rewrite Hw.
  destruct rs as [|x rs _] using rev_ind; [by apply elem_of_nil in Hb |].
  assert (Ex : br_epoch x = e) by (apply Forall_app in He as [_ He]; by inversion He).
  unfold check_window. rewrite app_assoc, last_snoc, Ex, Z.ltb_irrefl, <- app_assoc.
  apply list_elem_of_lookup in Hb as [i Hi].
  assert (Hf : list_find (λ r, br_epoch r = e ∧ br_first r = br_first b ∧ br_last r = br_last b)
    (pre ++ rs ++ [x]) = Some ((length pre + i)%nat, b)).
  { apply list_find_Some. split; [rewrite lookup_app_r by lia; by replace (length pre + i - length pre)%nat with i by lia |].
    split; [split; [| done]; rewrite Forall_forall in He; apply He; by eapply list_elem_of_lookup_2 |].
    intros j y Hj Hlt (_ & Hy & _). rewrite lookup_app in Hj. destruct (pre !! j) as [z|] eqn:Ez.
    - injection Hj as ->. rewrite Forall_forall in Hpre. apply (Hpre y); [by eapply list_elem_of_lookup_2 |].
      rewrite Hy. by eapply list_elem_of_fmap_2, list_elem_of_lookup_2.
    - assert (j - length pre = i)%nat; [| apply lookup_ge_None in Ez; lia].
      eapply (NoDup_lookup _ _ _ (br_first b) Hnd); rewrite list_lookup_fmap; [rewrite Hj; cbn; by rewrite Hy | by rewrite Hi]. }
  by rewrite Hf.
Qed.

(** ** The phases, when no call fails *)

Section Resend.

Context {L : Type} {store : LogStore L} {laws : LogStoreLaws L}.
Variable env : Env.
Variables (tid index pid epoch : Z).

Implicit Types s : Prod L.
Implicit Types vs : list RecordBatch.

(** A batch of the producer, not transactional. *)
Definition of_client (v : RecordBatch) : Prop :=
  producer_id v = pid ∧ producer_epoch v = epoch ∧ base_sequence v ≠ NO_SEQUENCE ∧ is_transactional v = false.

Definition idem_of (v : RecordBatch) : Idem :=
  mk_idem (producer_id v) (producer_epoch v) (base_sequence v)
    (increment_sequence (base_sequence v) (last_offset_delta v)) false None.
Definition row_of (v : RecordBatch) : BatchRow :=
  mk_row (producer_id v) tid index (producer_epoch v) (base_sequence v)
    (increment_sequence (base_sequence v) (last_offset_delta v)) (-1).
(** Every batch new, and every batch a duplicate. *)
Definition new_plan vs : PartitionPlan :=
  mk_plan tid index ((λ v, (v, Decision.Append (idem_of v))) <$> vs).
Definition duplicate_plan vs (os : list Z) : PartitionPlan :=
  mk_plan tid index (zip vs (Decision.Duplicate <$> os)).

Definition window_at s : list BatchRow := window_rows pid tid index (t_prod (p_db s)).

Lemma set_fates_nil s : p_fates s = [] → set_fates (tail (p_fates s)) s = s.
Proof. by destruct s as [? ? ? []]. Qed.

Lemma exec_fine {E} (err : E) f s : p_fates s = [] → exec err f s = (Ok tt, set_world (on_tx f (p_world s)) s).
Proof. intros H. unfold exec, call. rewrite set_fates_nil by done. by rewrite H. Qed.

Lemma query_fine {E A} (err : E) (f : World L → A) s : p_fates s = [] → query err f s = (Ok (f (p_world s)), s).
Proof. intros H. unfold query, call. rewrite set_fates_nil by done. by rewrite H. Qed.

Lemma reserve_fine id vs begun s :
  p_fates s = [] →
  reserve_partition env (new_plan vs) id begun s =
    (Ok begun, set_world (on_tx (on_prod (record_all (db_now_ env) (row_of <$> vs))) (p_world s)) s).
Proof.
  unfold reserve_partition, new_plan. cbn [pl_tid pl_index pl_batches]. generalize (@nil Z). intros reg Hf.
  revert reg s Hf. induction vs as [|v vs IH]; intros reg s Hf.
  { cbn. destruct s as [[[]]]; done. }
  rewrite fmap_cons. cbn [reserve_batches]. unfold bind. rewrite exec_fine by done.
  cbn [idem_of id_transactional andb]. rewrite IH by done. done.
Qed.

(** What one append and its stamp do. *)
Lemma write_batches_fine at_ vs i base wrote assigned s b w s' :
  Forall of_client vs → p_fates s = [] → (∀ j, (i ≤ j)%nat → landed at_ j s = None) →
  write_batches tid index at_ ((λ v, (v, Decision.Append (idem_of v))) <$> vs) i base wrote assigned s = (Ok (b, w), s') →
  ∃ os, length os = length vs ∧ b = match base with Some _ => base | None => head os end ∧
    w = (wrote || negb (bool_decide (vs = []))) ∧ p_fates s' = [] ∧
    log_of (t_log (p_db s')) (tid, index) = log_of (t_log (p_db s)) (tid, index) ++ zip os (raw_batch <$> vs) ∧
    t_prod (p_db s') = stamp_all pid tid index (zip (base_sequence <$> vs) os) (t_prod (p_db s)).
Proof.
  intros Hv. revert i base wrote assigned s. induction Hv as [|v vs (Hp & _ & _ & Hnt) Hv IH];
    intros i base wrote assigned s Hf Hl.
  { cbn. intros [= <- <- <-]. exists []. rewrite app_nil_r. split_and!; try done; [by destruct base | by destruct wrote]. }
  rewrite fmap_cons. cbn [write_batches]. unfold bind at 1, land. rewrite Hl by lia.
  unfold bind at 1, catch, store_append, bind at 1, call. rewrite set_fates_nil, Hf by done.
  destruct (append (tid, index) (raw_batch v) (t_log (p_db s))) as [[off|e] l] eqn:Ha.
  2:{ cbn [throw]. unfold bind, throw.
      match goal with |- context [release_reservations ?a ?b ?c ?d] =>
        by destruct (release_reservations a b c d) as [[]] end. }
  cbn [ret]. set (s1 := remember_landed at_ i off _).
  unfold bind at 1, catch, stamp_batch, bind at 1. rewrite exec_fine by done. cbn [idem_of id_transactional ret].
  set (s2 := set_world _ s1). intros H.
  apply IH in H as (os & Ho & Hb & Hw & Hf' & Hlog & Hprod); [| done |].
  - exists (off :: os). cbn [length]. split_and!; [by rewrite Ho | | | done | |].
    + rewrite Hb. by destruct base.
    + rewrite Hw. cbn. by rewrite orb_true_r.
    + rewrite Hlog. cbn. rewrite (append_same _ _ _ _ _ Ha). by rewrite <- app_assoc.
    + rewrite Hprod. cbn. by rewrite Hp.
  - intros j Hj. unfold landed. cbn. unfold landed in Hl. destruct (p_landed s) as [m|] eqn:Hm; [| done]. cbn.
    rewrite lookup_insert_ne by (intros [=]; lia). exact (Hl j ltac:(lia)).
Qed.

Lemma row_firsts vs : br_first <$> (row_of <$> vs) = base_sequence <$> vs.
Proof. by rewrite <- list_fmap_compose. Qed.

Lemma stamped_firsts os vs : length os = length vs →
  br_first <$> zip_with set_base os (row_of <$> vs) = base_sequence <$> vs.
Proof.
  revert os. induction vs as [|v vs IH]; intros [|o os] Ho; try done. cbn. f_equal. apply IH. by injection Ho.
Qed.

Lemma stamped_lookup os vs i r : zip_with set_base os (row_of <$> vs) !! i = Some r →
  ∃ o v, os !! i = Some o ∧ vs !! i = Some v ∧ r = set_base o (row_of v).
Proof.
  rewrite lookup_zip_with, list_lookup_fmap. destruct (os !! i) as [o|]; [| done].
  destruct (vs !! i) as [v|]; [| done]. cbn. intros [= <-]. by exists o, v.
Qed.

(** The window once a write of new batches has been acknowledged. *)
Lemma acknowledged_window id at_ vs begun begun' s s1 done s2 :
  Forall of_client vs → NoDup (base_sequence <$> vs) → (length vs ≤ RETAINED_BATCHES)%nat → vs ≠ [] →
  p_fates s = [] → (∀ j, landed at_ j s = None) →
  reserve_partition env (new_plan vs) id begun s = (Ok begun', s1) →
  write_partition (new_plan vs) at_ s1 = (Ok done, s2) →
  ∃ os pre, length os = length vs ∧ head os = Some (ap_base_offset done) ∧ ap_wrote done = true ∧
    log_of (t_log (p_db s2)) (tid, index) = log_of (t_log (p_db s)) (tid, index) ++ zip os (raw_batch <$> vs) ∧
    window_at s2 = pre ++ zip_with set_base os (row_of <$> vs) ∧
    Forall (λ r, br_first r ∉ base_sequence <$> vs) pre.
Proof.
  intros Hv Hnd Hlen Hne Hf Hl. rewrite reserve_fine by done. intros [= _ <-]. unfold write_partition, bind.
  destruct (write_batches _ _ _ _ _ _ _ _ _) as [[[b w]|e] s3] eqn:Hw; [| done]. cbn [fst snd].
  apply write_batches_fine in Hw as (os & Ho & Hb & Hwr & Hf' & Hlog & Hprod); [| done | done | by intros; apply Hl].
  destruct vs as [|v vs]; [done |]. destruct os as [|o os]; [done |]. cbn in Hb. subst b.
  intros [= <- <-]. cbn [ap_base_offset ap_wrote]. set (all := v :: vs) in *. exists (o :: os).
  destruct (record_all_window (db_now_ env) pid tid index (row_of <$> all) (t_prod (p_db s))) as (pre & Hpre & Hfresh).
  { apply Forall_fmap. eapply Forall_impl; [done |]. intros x (Hx & _). done. }
  { by rewrite row_firsts. }
  { by rewrite length_fmap. }
  rewrite row_firsts in Hfresh. exists pre.
  assert (E : window_at s3 = pre ++ zip_with set_base (o :: os) (row_of <$> all)).
  { unfold window_at. rewrite Hprod, stamp_all_rows.
    change (t_prod (p_db (set_world _ s))) with (record_all (db_now_ env) (row_of <$> all) (t_prod (p_db s))).
    rewrite Hpre, fmap_app. f_equal.
    - rewrite <- (list_fmap_id pre) at 2. apply list_fmap_ext. intros i x Hx. apply stamped_none.
      rewrite fst_zip by (rewrite length_fmap; lia). exact (Forall_lookup_1 _ _ _ _ Hfresh Hx).
    - rewrite <- (stamped_rows (row_of <$> all)); [by rewrite row_firsts | by rewrite row_firsts | by rewrite length_fmap]. }
  by split_and!.
Qed.

Lemma plan_duplicates id version vs os bs vf s :
  Forall of_client vs → pid ≠ NO_PRODUCER_ID → length os = length vs → p_fates s = [] →
  omap (accepted_idem pid) bs = [] → Forall (λ o, 0 ≤ o) os →
  (∀ i v o, vs !! i = Some v → os !! i = Some o →
     Producer.check pid epoch (base_sequence v) (increment_sequence (base_sequence v) (last_offset_delta v)) tid index
       (t_prod (p_db s)) = Duplicate o) →
  plan_batches id version tid index (Ok <$> vs) bs vf s = (Ok (bs ++ zip vs (Decision.Duplicate <$> os)), s).
Proof.
  intros Hv Hpid. revert os bs. induction Hv as [|v vs (Hp & He & Hs & Ht) Hv IH]; intros [|o os] bs Ho Hf Hbs Hpos Hc; try done.
  { cbn. by rewrite app_nil_r. }
  rewrite fmap_cons. cbn [plan_batches]. cbv zeta. rewrite Ht, Hp. cbn [andb].
  rewrite (proj2 (Z.eqb_neq _ _) Hpid), (proj2 (Z.eqb_neq _ _) Hs). cbn [orb]. unfold bind, ret.
  cbn [fst snd]. unfold decide_one at 1, find_prior. cbn [id_producer id_epoch id_first id_last].
  rewrite Hbs. cbn [last]. unfold bind. rewrite query_fine by done. apply Forall_cons in Hpos as [Ho0 Hpos']. rewrite He.
  change (w_tx (p_world s)) with (p_db s).
  rewrite (Hc O v o) by done. unfold lift, decide_check. rewrite (proj2 (Z.ltb_ge _ _) Ho0). cbn [fst snd].
  rewrite IH with (os := os); [by rewrite <- app_assoc | by injection Ho | done | by rewrite omap_app, Hbs | done |].
  intros i v' o' Hi Ho'. by apply (Hc (S i)).
Qed.

Lemma write_duplicates at_ vs os s :
  length os = length vs → os ≠ [] →
  ∃ o, head os = Some o ∧ write_partition (duplicate_plan vs os) at_ s = (Ok (mk_appended o false), s).
Proof.
  intros Ho Hne. destruct os as [|o os]; [done |]. exists o. split; [done |].
  destruct vs as [|v vs]; [done |]. unfold write_partition, duplicate_plan, bind. cbn [pl_tid pl_index pl_batches].
  rewrite fmap_cons. cbn [zip_with write_batches or_else].
  assert (H : ∀ vs os i asg, write_batches tid index at_ (zip vs (Decision.Duplicate <$> os)) i (Some o) false asg s =
    (Ok (Some o, false), s)).
  { clear. intros vs. induction vs as [|v vs IH]; intros [|o' os] i asg; try done. cbn. apply IH. }
  by rewrite H.
Qed.

(** ** A storage error *)

Definition unreserved (first : Z) (b : BatchRow) : Prop := ¬ (br_first b = first ∧ br_base b < 0).
#[local] Instance unreserved_dec first b : Decision (unreserved first b).
Proof. unfold unreserved. apply _. Defined.

Lemma release_rows first d :
  window_rows pid tid index (release pid tid index first d) = filter (unreserved first) (window_rows pid tid index d).
Proof.
  rewrite (window_rows_filter (λ b, (at_key pid tid index b && (br_first b =? first) && (br_base b <? 0)) = false)
    pid tid index d) by done.
  unfold window_rows. rewrite !list_filter_filter. apply list_filter_iff. intros b. unfold unreserved.
  destruct (at_key pid tid index b); cbn [andb]; [| naive_solver].
  destruct (Z.eqb_spec (br_first b) first); destruct (Z.ltb_spec (br_base b) 0); cbn; split; intros; split_and?; try done; lia.
Qed.

Definition release_all (fs : list Z) (d : Db) : Db := foldl (λ d f, release pid tid index f d) d fs.

Lemma release_all_rows fs d :
  window_rows pid tid index (release_all fs d) =
    filter (λ b, ¬ (br_first b ∈ fs ∧ br_base b < 0)) (window_rows pid tid index d).
Proof.
  revert d. induction fs as [|f fs IH]; intros d.
  { cbn. symmetry. apply filter_every, Forall_forall. intros b _ [H _]. by apply elem_of_nil in H. }
  change (release_all (f :: fs) d) with (release_all fs (release pid tid index f d)).
  rewrite IH, release_rows, list_filter_filter. apply list_filter_iff. intros b. unfold unreserved.
  rewrite elem_of_cons. destruct (decide (br_first b ∈ fs)), (decide (br_first b = f)), (decide (br_base b < 0)); tauto.
Qed.

Lemma release_fine vs s : Forall of_client vs → p_fates s = [] →
  release_reservations tid index ((λ v, (v, Decision.Append (idem_of v))) <$> vs) s =
    (Ok tt, set_world (on_tx (on_prod (release_all (base_sequence <$> vs))) (p_world s)) s).
Proof.
  intros Hv. revert s. induction Hv as [|v vs (Hp & _) Hv IH]; intros s Hf.
  { cbn. destruct s as [[[]]]; done. }
  rewrite fmap_cons. cbn [release_reservations]. unfold bind. rewrite exec_fine by done. rewrite IH by done.
  cbn [idem_of id_producer id_first]. by rewrite Hp.
Qed.

Lemma write_batches_stops at_ vs i base wrote assigned s e s' :
  Forall of_client vs → p_fates s = [] → (∀ j, (i ≤ j)%nat → landed at_ j s = None) →
  write_batches tid index at_ ((λ v, (v, Decision.Append (idem_of v))) <$> vs) i base wrote assigned s = (Err e, s') →
  ∃ os x, (length os < length vs)%nat ∧ e = Fails (AppendError.Store x) ∧
    log_of (t_log (p_db s')) (tid, index) =
      log_of (t_log (p_db s)) (tid, index) ++ zip os (raw_batch <$> take (length os) vs) ∧
    t_prod (p_db s') = release_all (base_sequence <$> drop (length os) vs)
      (stamp_all pid tid index (zip (base_sequence <$> take (length os) vs) os) (t_prod (p_db s))).
Proof.
  intros Hall. revert i base wrote assigned s. induction Hall as [|v vs (Hp & Hpe & Hps & Hnt) Hv IH];
    intros i base wrote assigned s Hf Hl; [done |].
  rewrite fmap_cons. cbn [write_batches]. unfold bind at 1, land. rewrite Hl by lia.
  unfold bind at 1, catch, store_append, bind at 1, call. rewrite set_fates_nil, Hf by done.
  destruct (append (tid, index) (raw_batch v) (t_log (p_db s))) as [[off|x] l] eqn:Ha.
  2:{ cbn [throw]. unfold bind, throw.
      change ((v, Decision.Append (idem_of v)) :: (_ <$> vs)) with ((λ v, (v, Decision.Append (idem_of v))) <$> (v :: vs)).
      rewrite (release_fine (v :: vs)); [| by repeat constructor | done]. intros [= <- <-].
      exists [], x. cbn [length take drop]. split_and!; [lia | done | | done]. rewrite app_nil_r. cbn.
      by apply (append_failed _ _ _ _ _ _ Ha). }
  cbn [ret]. set (s1 := remember_landed at_ i off _).
  unfold bind at 1, catch, stamp_batch, bind at 1. rewrite exec_fine by done. cbn [idem_of id_transactional ret].
  set (s2 := set_world _ s1). intros H.
  apply IH in H as (os & x & Ho & He & Hlog & Hprod); [| done |].
  - exists (off :: os), x. cbn [length take drop]. split_and!; [lia | done | |].
    + rewrite Hlog. cbn. rewrite (append_same _ _ _ _ _ Ha). by rewrite <- app_assoc.
    + rewrite Hprod. cbn. by rewrite Hp.
  - intros j Hj. unfold landed. cbn. unfold landed in Hl. destruct (p_landed s) as [m|] eqn:Hm; [| done]. cbn.
    rewrite lookup_insert_ne by (intros [=]; lia). exact (Hl j ltac:(lia)).
Qed.

Lemma stamped_fresh fo l : Forall (λ b, br_first b ∉ fo.*1) l → (λ b, foldl (λ b e, stamped e.1 e.2 b) b fo) <$> l = l.
Proof. induction 1 as [|b l Hb _ IH]; [done |]. rewrite fmap_cons, IH. f_equal. by apply stamped_none. Qed.

Lemma refused_rows vs1 vs2 os pre :
  length os = length vs1 → NoDup (base_sequence <$> vs1) →
  (∀ f, f ∈ base_sequence <$> vs1 → f ∉ base_sequence <$> vs2) →
  Forall (λ r, br_first r ∉ base_sequence <$> (vs1 ++ vs2)) pre →
  filter (λ b, ¬ (br_first b ∈ base_sequence <$> vs2 ∧ br_base b < 0))
    ((λ b, foldl (λ b e, stamped e.1 e.2 b) b (zip (base_sequence <$> vs1) os)) <$> (pre ++ (row_of <$> (vs1 ++ vs2)))) =
  pre ++ zip_with set_base os (row_of <$> vs1).
Proof.
  intros Ho Hnd Hdis Hpre. rewrite !fmap_app, !filter_app.
  assert (Hz : (zip (base_sequence <$> vs1) os).*1 = base_sequence <$> vs1).
  { apply fst_zip. rewrite length_fmap. lia. }
  setoid_rewrite fmap_app in Hpre. setoid_rewrite not_elem_of_app in Hpre.
  rewrite (stamped_fresh _ pre).
  2:{ eapply Forall_impl; [exact Hpre |]. cbn. rewrite Hz. by intros r [? _]. }
  rewrite (stamped_fresh _ (row_of <$> vs2)).
  2:{ apply Forall_fmap, Forall_forall. intros v Hv. rewrite Hz. cbn. intros Hin.
      apply (Hdis _ Hin). by apply list_elem_of_fmap_2. }
  rewrite <- (row_firsts vs1),  stamped_rows; [| by rewrite row_firsts | by rewrite length_fmap].
  rewrite (filter_every _ pre).
  2:{ eapply Forall_impl; [exact Hpre |]. cbn. intros r [_ ?] [? _]. done. }
  rewrite (filter_every _ (zip_with _ _ _)).
  2:{ apply Forall_lookup. intros i r Hi. apply stamped_lookup in Hi as (o & v & _ & Hv & ->). intros [Hin _].
      apply (Hdis (base_sequence v)); [by eapply list_elem_of_fmap_2, list_elem_of_lookup_2 | done]. }
  rewrite (filter_none _ (row_of <$> vs2)), app_nil_r; [done |].
  apply Forall_fmap, Forall_forall. intros v Hv. cbn. intros H. apply H. split; [by apply list_elem_of_fmap_2 | lia].
Qed.

End Resend.

(** A storage error in the middle of a partition keeps what landed and
    nothing else: the answer is that error, the log has the batches before it,
    the producer's window has their rows with the offsets they got, and none of
    the rows reserved for the others, so that a resend finds the first ones as
    duplicates and none of the others answered. *)
Theorem storage_error_keeps_landed {L} {store : LogStore L} {laws : LogStoreLaws L} env tid index pid epoch
    id at_ vs begun begun' (s s1 s2 : Prod L) e :
  vs ≠ [] → Forall (of_client pid epoch) vs → NoDup (base_sequence <$> vs) →
  (length vs ≤ RETAINED_BATCHES)%nat → p_fates s = [] → (∀ j, landed at_ j s = None) →
  reserve_partition env (new_plan tid index vs) id begun s = (Ok begun', s1) →
  write_partition (new_plan tid index vs) at_ s1 = (Err e, s2) →
  ∃ os pre x, (length os < length vs)%nat ∧ e = Fails (AppendError.Store x) ∧
    log_of (t_log (p_db s2)) (tid, index) =
      log_of (t_log (p_db s)) (tid, index) ++ zip os (raw_batch <$> take (length os) vs) ∧
    window_at tid index pid s2 = pre ++ zip_with set_base os (row_of tid index <$> take (length os) vs) ∧
    Forall (λ r, br_first r ∉ base_sequence <$> vs) pre.
Proof.
  intros Hne Hv Hnd Hlen Hf Hl. rewrite reserve_fine by done. intros [= _ <-] Hw.
  unfold write_partition, bind in Hw. cbn [pl_tid pl_index pl_batches new_plan] in Hw.
  destruct (write_batches _ _ _ _ _ _ _ _ _) as [[[b w]|e'] s3] eqn:E.
  { apply (write_batches_fine tid index pid epoch) in E as (os & Ho & Hb & _); [| done | done | by intros; apply Hl].
    destruct vs; [done |]. destruct os; [done |]. cbn in Hb. by subst b. }
  injection Hw as <- <-. apply (write_batches_stops tid index pid epoch) in E as (os & x & Ho & He & Hlog & Hprod);
    [| done | done | by intros; apply Hl].
  destruct (record_all_window (db_now_ env) pid tid index (row_of tid index <$> vs) (t_prod (p_db s))) as (pre & Hpre & Hfresh).
  { apply Forall_fmap. eapply Forall_impl; [done |]. intros y (Hy & _). done. }
  { by rewrite row_firsts. }
  { by rewrite length_fmap. }
  rewrite row_firsts in Hfresh. exists os, pre, x. split_and!; try done.
  unfold window_at. rewrite Hprod, release_all_rows, stamp_all_rows.
  change (t_prod (p_db (set_world _ s))) with (record_all (db_now_ env) (row_of tid index <$> vs) (t_prod (p_db s))).
  rewrite Hpre. pose proof (refused_rows tid index (take (length os) vs) (drop (length os) vs) os pre) as R.
  rewrite <- (take_drop (length os) vs), fmap_app in Hnd. apply NoDup_app in Hnd as (Hnd1 & Hdis & _).
  rewrite (take_drop (length os) vs) in R. apply R; try done. rewrite length_take. lia.
Qed.


(** C17. A resend is answered, not appended.  When a partition's batches of an
    idempotent producer, no more than the window keeps, have been written and
    acknowledged, then in every later state whose window for that producer and
    partition is the same, the same records plan as duplicates, are answered
    with the same base offset and report nothing written, and the whole state,
    log and tables, is left as it was. *)
Theorem resend_not_appended {L} {store : LogStore L} {laws : LogStoreLaws L} env tid index pid epoch
    id version at_ at_' records vs begun begun' (s s1 s2 s3 : Prod L) done :
  batch_items records = Ok <$> vs → vs ≠ [] →
  Forall (of_client pid epoch) vs → pid ≠ NO_PRODUCER_ID → NoDup (base_sequence <$> vs) →
  (length vs ≤ RETAINED_BATCHES)%nat → p_fates s = [] → (∀ j, landed at_ j s = None) →
  reserve_partition env (new_plan tid index vs) id begun s = (Ok begun', s1) →
  write_partition (new_plan tid index vs) at_ s1 = (Ok done, s2) →
  (∀ off b, (off, b) ∈ log_of (t_log (p_db s2)) (tid, index) → 0 ≤ off) →
  p_fates s3 = [] → window_at tid index pid s3 = window_at tid index pid s2 →
  ap_wrote done = true ∧
  (∃ os, log_of (t_log (p_db s2)) (tid, index) =
     log_of (t_log (p_db s)) (tid, index) ++ zip os (raw_batch <$> vs) ∧ length os = length vs ∧
     plan_partition id version tid index (Some records) s3 = (Ok (duplicate_plan tid index vs os), s3) ∧
     write_partition (duplicate_plan tid index vs os) at_' s3 = (Ok (mk_appended (ap_base_offset done) false), s3)).
Proof.
  intros Hr Hne Hv Hpid Hnd Hlen Hf Hl H1 H2 Hpos Hf3 Hw3.
  destruct (acknowledged_window env tid index pid epoch id at_ vs begun begun' s s1 done s2)
    as (os & pre & Ho & Hh & Hwr & Hlog & Hw & Hpre); [exact Hv | done.. |].
  split; [done |]. exists os. split_and!; try done.
  - unfold plan_partition, bind. rewrite Hr, (plan_duplicates tid index pid epoch id version vs os); try done.
    + apply Forall_lookup. intros i o Hi. apply (Hpos o (default (mk_raw [] 0 0 0 0 0 0 false false) ((raw_batch <$> vs) !! i))).
      rewrite Hlog. apply elem_of_app. right. apply (list_elem_of_lookup_2 _ i).
      rewrite lookup_zip_with, Hi. cbn. rewrite list_lookup_fmap.
      destruct (lookup_lt_is_Some_2 vs i) as [v ->]; [rewrite <- Ho; by eapply lookup_lt_Some |]. done.
    + intros i v o Hvi Hoi. rewrite <- Hw3 in Hw. unfold window_at in Hw.
      set (b := set_base o (row_of tid index v)).
      apply (check_stamped pid tid index epoch (zip_with set_base os (row_of tid index <$> vs)) pre b); try done.
      * by rewrite stamped_firsts.
      * by rewrite stamped_firsts.
      * apply Forall_lookup. intros j r Hj. apply stamped_lookup in Hj as (o' & v' & _ & Hv' & ->).
        by destruct (Forall_lookup_1 _ _ _ _ Hv Hv') as (_ & He & _).
      * apply (list_elem_of_lookup_2 _ i). by rewrite lookup_zip_with, list_lookup_fmap, Hoi, Hvi.
  - destruct (write_duplicates tid index at_' vs os s3) as (o & Ho' & ->); [done | by destruct os |].
    rewrite Hh in Ho'. by injection Ho' as ->.
Qed.

(** ** Two batches of a sample producer *)

Definition two_batches : list RecordBatch := mk_batch <$> [idem_batch 7 0 0 4; idem_batch 7 0 5 2].
Definition two_records : bytes := concat (rb_bytes <$> two_batches).
Definition reserved : Prod MemLog := (reserve_partition sample_env (new_plan 1 0 two_batches) None [] sample_prod).2.
Definition written : Prod MemLog := (write_partition (new_plan 1 0 two_batches) (0, 0)%nat reserved).2.

Lemma two_batches_client : Forall (of_client 7 0) two_batches ∧ NoDup (base_sequence <$> two_batches).
Proof.
  split; [repeat constructor; vm_compute; congruence |].
  apply (bool_decide_unpack _). vm_compute. exact I.
Qed.

Lemma resend_not_appended_witness :
  write_partition (new_plan 1 0 two_batches) (0, 0)%nat reserved = (Ok (mk_appended 0 true), written) ∧
  ∃ os, plan_partition None 9 1 0 (Some two_records) written = (Ok (duplicate_plan 1 0 two_batches os), written) ∧
    write_partition (duplicate_plan 1 0 two_batches os) (3, 1)%nat written = (Ok (mk_appended 0 false), written).
Proof.
  assert (E : write_partition (new_plan 1 0 two_batches) (0, 0)%nat reserved = (Ok (mk_appended 0 true), written))
    by (refine (pair_state (write_partition (new_plan 1 0 two_batches) (0, 0)%nat reserved) _ _); vm_compute; reflexivity).
  split; [exact E |].
  destruct (resend_not_appended sample_env 1 0 7 0 None 9 (0, 0)%nat (3, 1)%nat two_records two_batches [] []
    sample_prod reserved written written (mk_appended 0 true)) as [_ (os & _ & _ & H1 & H2)].
  - vm_compute. reflexivity.
  - discriminate.
  - apply two_batches_client.
  - discriminate.
  - apply two_batches_client.
  - vm_compute. lia.
  - reflexivity.
  - intros j. reflexivity.
  - refine (pair_state (reserve_partition sample_env (new_plan 1 0 two_batches) None [] sample_prod) _ _). vm_compute. reflexivity.
  - exact E.
  - intros off b. vm_compute. intros H. repeat (apply elem_of_cons in H as [[= -> _]|H]; [discriminate |]). by apply elem_of_nil in H.
  - vm_compute. reflexivity.
  - reflexivity.
  - exists os. split; [exact H1 | exact H2].
Defined.

(** An engine that takes one batch per partition. *)
Definition capped_append (p : Z * Z) (b : RawBatch) : ST MemLog StoreError Z := λ l,
  match mem_log l p with [] => mem_append p b l | _ => (Err (Io "full"), l) end.
#[local] Instance capped_store : LogStore MemLog :=
  {| append := capped_append; high_watermark := mem_high_watermark; log_of := mem_log |}.
#[local] Instance capped_laws : LogStoreLaws MemLog.
Proof.
  split; intros p b l; cbn [append log_of capped_store]; unfold capped_append;
    destruct (mem_log l p) eqn:E; intros *; try done; try (by intros [= <- <-]).
  - intros H. pose proof (append_same (store := mem_store) p b l _ _ H) as H1. cbn in H1. by rewrite E in H1.
  - by apply (append_other (store := mem_store) p b).
  - by apply (append_failed (store := mem_store) p b).
Qed.

Lemma storage_error_keeps_landed_witness :
  ∃ os pre x, (length os < 2)%nat ∧
    log_of (t_log (p_db (write_partition (new_plan 1 0 two_batches) (0, 0)%nat reserved).2)) (1, 0) =
      zip os (raw_batch <$> take (length os) two_batches) ∧
    (write_partition (new_plan 1 0 two_batches) (0, 0)%nat reserved).1 = Err (Fails (AppendError.Store x)) ∧
    window_at 1 0 7 (write_partition (new_plan 1 0 two_batches) (0, 0)%nat reserved).2 =
      pre ++ zip_with set_base os (row_of 1 0 <$> take (length os) two_batches).
Proof.
  destruct (storage_error_keeps_landed sample_env 1 0 7 0 None (0, 0)%nat two_batches [] [] sample_prod reserved
    (write_partition (new_plan 1 0 two_batches) (0, 0)%nat reserved).2 (Fails (AppendError.Store (Io "full"))))
    as (os & pre & x & H1 & H2 & H3 & H4 & _).
  - discriminate.
  - apply two_batches_client.
  - apply two_batches_client.
  - vm_compute. lia.
  - reflexivity.
  - intros j. reflexivity.
  - refine (pair_state (reserve_partition sample_env (new_plan 1 0 two_batches) None [] sample_prod) _ _). vm_compute. reflexivity.
  - refine (pair_state (write_partition (new_plan 1 0 two_batches) (0, 0)%nat reserved) _ _). vm_compute. reflexivity.
  - exists os, pre, (Io "full"). split; [exact H1 |]. split; [exact H3 |].
    split; [vm_compute; reflexivity | exact H4].
Defined.
