(* ===== verification/Share.v ===== *)
(** * extension/src/handlers/share_group.rs: the delivery model of share groups

    A share group (KIP-932) is a queue over a log.  Everything at or above a share
    partition's start offset is available, except what
    [kafgres_share_inflight] says: one row per record that was handed out, with
    its state, its delivery count and, while a member holds it, the member and
    the time its lock lapses.  This file has the tables and the statements that
    change them: [acquire], [acknowledge], [advance_start_offset], [expire] and
    the resets of handlers/share_offsets.rs.  Their theorems are in
    ShareSpec.v; the request handlers are in ShareHandlers.v.

    [now] is the database clock in milliseconds, fixed within a transaction;
    [lock] is the setting [kafgres.share_lock_duration_ms].  A table is a map per
    share partition: a row's key is its offset there. *)

From stdpp Require Import gmap sorting strings.
From S2P Require Import Prelude Errors.

(** ** Constants *)

Definition MAX_DELIVERY_ATTEMPTS : Z := 5.
Definition HEARTBEAT_INTERVAL_MS : Z := 5000.
Definition SESSION_TIMEOUT_MS : Z := 45000.
Definition MAX_SUBSCRIBED_TOPICS : Z := 5000.
Definition MAX_GROUP_SIZE : Z := 1000.
Definition MAX_ACQUIRE_PER_FETCH : Z := 5000.
Definition MAX_RECORD_LOCKS : Z := 200.
Definition MAX_INFLIGHT_ROWS : Z := 50000.
(** [PER_SWEEP] of [expire]. *)
Definition PER_SWEEP : nat := 1000.

(** ** Acknowledgement types *)

Inductive Ack : Type := Gap | Accept | Release | Reject | Renew.

Definition ack_from_wire (v : Z) : option Ack :=
  if v =? 0 then Some Gap else if v =? 1 then Some Accept else if v =? 2 then Some Release
  else if v =? 3 then Some Reject else if v =? 4 then Some Renew else None.

(** [decode_acks]: a renewal needs version 2. *)
Definition decode_ack (version v : Z) : option Ack :=
  match ack_from_wire v with
  | Some Renew => if version <? 2 then None else Some Renew
  | other => other
  end.
Definition decode_acks (raw : list Z) (version : Z) : option (list Ack) := mapM (decode_ack version) raw.

(** ** Tables *)

Inductive RecordState : Type := Acquired | Acked | Archived.

#[export] Instance record_state_eq : EqDecision RecordState.
Proof. solve_decision. Defined.

Record Inflight : Type := mk_inflight {
  if_state : RecordState;
  if_count : Z;
  if_member : option string;
  if_until : option Z }.

Record ShareMember : Type := mk_smember {
  sm_epoch : Z;
  sm_rack : option string;
  sm_subscribed : list string;
  sm_seen : Z }.

(** A group and a partition. *)
Abbreviation SharePartition := (string * (Z * Z))%type.
Abbreviation Rows := (gmap Z Inflight).

Record Shares : Type := mk_shares {
  sh_groups : gmap string (Z * string);
  sh_members : gmap (string * string) ShareMember;
  sh_starts : gmap SharePartition Z;
  sh_inflight : gmap SharePartition Rows }.

Definition no_shares : Shares := mk_shares ∅ ∅ ∅ ∅.

Definition set_groups f d := mk_shares (f (sh_groups d)) (sh_members d) (sh_starts d) (sh_inflight d).
Definition set_smembers f d := mk_shares (sh_groups d) (f (sh_members d)) (sh_starts d) (sh_inflight d).
Definition set_starts f d := mk_shares (sh_groups d) (sh_members d) (f (sh_starts d)) (sh_inflight d).
Definition set_rows (k : SharePartition) (rows : Rows) d :=
  mk_shares (sh_groups d) (sh_members d) (sh_starts d) (<[k := rows]> (sh_inflight d)).

Definition rows_of (k : SharePartition) d : Rows := default ∅ (sh_inflight d !! k).
Definition start_offset (k : SharePartition) d : Z := default 0 (sh_starts d !! k).

(** ** The start offset *)

Definition finished (r : Inflight) : Prop := if_state r = Acked ∨ if_state r = Archived.
#[export] Instance finished_dec r : Decision (finished r) := _.

(** The statement of [advance_start_offset]: the finished offsets from the start
    on, numbered in order; those at the head are the ones whose offset less their
    number is one below the start. *)
Definition finished_from (start : Z) (rows : Rows) : list Z :=
  merge_sort (≤) (filter (λ e : Z * Inflight, finished e.2 ∧ start ≤ e.1) (map_to_list rows)).*1.
Definition numbered (l : list Z) : list (Z * Z) := imap (λ i o, (o, o - (Z.of_nat i + 1))) l.
Definition head_run (start : Z) (rows : Rows) : list Z :=
  (filter (λ e : Z * Z, e.2 = start - 1) (numbered (finished_from start rows))).*1.
Definition next_start (start : Z) (rows : Rows) : Z :=
  match sql_max (head_run start rows) with Some o => o + 1 | None => start end.

(** Both statements: the new start, and the rows below it are dropped. *)
Definition advance_start_offset (k : SharePartition) d : Shares :=
  let s := next_start (start_offset k d) (rows_of k d) in
  set_rows k (filter (λ e : Z * Inflight, s ≤ e.1) (rows_of k d)) (set_starts <[k := s]> d).

(** ** Acquiring *)

(** [acquired_until > now()]; a null is not. *)
Definition locked (now : Z) (r : Inflight) : bool :=
  match if_until r with Some t => now <? t | None => false end.

(** The rows [held] counts. *)
Definition live (now : Z) (r : Inflight) : Prop := if_state r = Acquired ∧ locked now r = true.
#[export] Instance live_dec now r : Decision (live now r) := _.
Definition held (now : Z) (rows : Rows) : Z := Z.of_nat (size (filter (λ e : Z * Inflight, live now e.2) rows)).
Definition count (rows : Rows) : Z := Z.of_nat (size rows).

(** The anti-join: no row, or a row whose lock lapsed or was given up. *)
Definition lapsed (now : Z) (r : Inflight) : Prop := if_state r = Acquired ∧ locked now r = false.
#[export] Instance lapsed_dec now r : Decision (lapsed now r) := _.
Definition available (now : Z) (rows : Rows) (o : Z) : Prop :=
  match rows !! o with Some r => lapsed now r | None => True end.
#[export] Instance available_dec now rows o : Decision (available now rows o).
Proof. unfold available. destruct (rows !! o); apply _. Defined.
Definition candidates (now from upto limit : Z) (rows : Rows) : list Z :=
  take (Z.to_nat limit) (filter (available now rows) (seqZ from (upto - from + 1))).

(** The row a candidate gets, or none when the conflict's [WHERE] does not hold. *)
Definition next_row (now lock : Z) (member : string) (o : option Inflight) : option Inflight :=
  match o with
  | None => Some (mk_inflight Acquired 1 (Some member) (Some (now + lock)))
  | Some r =>
      if decide (lapsed now r) then
        let n := if_count r + 1 in
        Some (if MAX_DELIVERY_ATTEMPTS <? n then mk_inflight Archived n None None
              else mk_inflight Acquired n (Some member) (Some (now + lock)))
      else None
  end.

(** The [INSERT] over the candidates, and of [RETURNING] what is acquired. *)
Fixpoint hand_out (now lock : Z) (member : string) (l : list Z) (rows : Rows) : list Z * Rows :=
  match l with
  | [] => ([], rows)
  | o :: l' =>
      match next_row now lock member (rows !! o) with
      | None => hand_out now lock member l' rows
      | Some r =>
          let '(out, rows') := hand_out now lock member l' (<[o := r]> rows) in
          (if decide (if_state r = Acquired) then o :: out else out, rows')
      end
  end.

Definition clamp (lo hi z : Z) : Z := Z.max lo (Z.min hi z).

Definition acquire (now lock : Z) (k : SharePartition) (member : string) (from upto limit : Z) d : list Z * Shares :=
  let limit := clamp 1 MAX_ACQUIRE_PER_FETCH limit in
  let rows := rows_of k d in
  if MAX_INFLIGHT_ROWS <=? count rows then ([], d)
  else
    let room := Z.max 0 (MAX_RECORD_LOCKS - held now rows) in
    if room =? 0 then ([], d)
    else
      let limit := Z.max 1 (Z.min limit room) in
      let '(out, rows') := hand_out now lock member (candidates now from upto limit rows) rows in
      (out, advance_start_offset k (set_rows k rows' d)).

(** ** Acknowledging *)

(** The errors of [acknowledge], which the source tells apart by their message:
    [NOT_HELD] and [BAD_RANGE]. *)
Inductive AckError : Type := NotHeld | BadRange.
Definition ack_error (e : AckError) : ErrorCode.t :=
  match e with NotHeld => ErrorCode.InvalidRecordState | BadRange => ErrorCode.InvalidRequest end.

Definition finish_row (s : RecordState) (r : Inflight) : Inflight := mk_inflight s (if_count r) None None.
Definition release_row (r : Inflight) : Inflight := mk_inflight Acquired (if_count r) None None.
Definition renew_row (t : Z) (r : Inflight) : Inflight := mk_inflight (if_state r) (if_count r) (if_member r) (Some t).

(** An [UPDATE] of the rows of offsets [first] to [last] the member holds, and how
    many they are. *)
Definition hit (member : string) (first last : Z) (sel : Inflight → bool) (o : Z) (r : Inflight) : Prop :=
  first ≤ o ≤ last ∧ if_member r = Some member ∧ sel r = true.
#[export] Instance hit_dec m a b sel o r : Decision (hit m a b sel o r) := _.
Definition update_held (k : SharePartition) (member : string) (first last : Z) (sel : Inflight → bool)
    (f : Inflight → Inflight) d : Z * Shares :=
  let rows := rows_of k d in
  (Z.of_nat (size (filter (λ e : Z * Inflight, hit member first last sel e.1 e.2) rows)),
   set_rows k (map_imap (λ o r, Some (if decide (hit member first last sel o r) then f r else r)) rows) d).
Definition any_row (_ : Inflight) : bool := true.
Definition is_acquired (r : Inflight) : bool := bool_decide (if_state r = Acquired).

Definition set_state (k : SharePartition) (member : string) (offset : Z) (s : RecordState)
    : ST Shares AckError unit := λ d,
  let '(changed, d') := update_held k member offset offset any_row (finish_row s) d in
  (if changed =? 0 then Err NotHeld else Ok tt, d').

Definition ack_one (now lock : Z) (k : SharePartition) (member : string) (offset : Z) (kind : Ack)
    : ST Shares AckError unit :=
  match kind with
  | Gap => λ d, (Ok tt, (set_state k member offset Archived d).2)
  | Accept => set_state k member offset Acked
  | Reject => set_state k member offset Archived
  | Release => λ d, (Ok tt, (update_held k member offset offset any_row release_row d).2)
  | Renew => λ d, (Ok tt, (update_held k member offset offset is_acquired (renew_row (now + lock)) d).2)
  end.

(** The loop over the types; the offset is [first + i as i64]. *)
Fixpoint ack_each (now lock : Z) (k : SharePartition) (member : string) (first last i : Z) (types : list Ack)
    : ST Shares AckError unit :=
  match types with
  | [] => ret tt
  | kind :: ts =>
      let offset := wrap_i 64 (first + i) in
      if last <? offset then ret tt
      else ack_one now lock k member offset kind;;; ack_each now lock k member first last (i + 1) ts
  end.

Definition saturate (z : Z) : Z := clamp i64_min i64_max z.

Definition ack_range (now lock : Z) (k : SharePartition) (member : string) (first last : Z) (kind : Ack)
    : ST Shares AckError unit := λ d,
  let '(changed, d') :=
    match kind with
    | Accept => update_held k member first last any_row (finish_row Acked) d
    | Reject | Gap => update_held k member first last any_row (finish_row Archived) d
    | Release => update_held k member first last any_row release_row d
    | Renew => update_held k member first last is_acquired (renew_row (now + lock)) d
    end in
  let short := changed <? saturate (saturate (last - first) + 1) in
  (match kind with
   | Accept | Reject => if short then Err NotHeld else Ok tt
   | _ => Ok tt
   end, d').

Definition acknowledge (now lock : Z) (k : SharePartition) (member : string) (first last : Z) (types : list Ack)
    : ST Shares AckError unit :=
  let advance : ST Shares AckError unit := λ d, (Ok tt, advance_start_offset k d) in
  if last <? first then throw BadRange
  else match types with
       | [kind] => if first <? last then ack_range now lock k member first last kind;;; advance
                   else ack_each now lock k member first last 0 types;;; advance
       | _ => ack_each now lock k member first last 0 types;;; advance
       end.

(** ** Giving records back *)

(** [release_all]: in every partition of the group. *)
Definition hand_back (member : string) (r : Inflight) : Inflight :=
  if decide (if_member r = Some member ∧ if_state r = Acquired) then mk_inflight (if_state r) (if_count r) None None
  else r.
Definition hand_back_rows (member : string) (rows : Rows) : Rows := hand_back member <$> rows.
Definition release_all (group member : string) d : Shares :=
  mk_shares (sh_groups d) (sh_members d) (sh_starts d)
    (map_imap (λ k rows, Some (if decide (k.1 = group) then hand_back_rows member rows else rows)) (sh_inflight d)).

(** The rows whose lock has lapsed, the earliest first, at most [PER_SWEEP]. *)
Definition overdue (now : Z) d : list (SharePartition * Z * Z) :=
  e ← map_to_list (sh_inflight d);
  omap (λ r : Z * Inflight,
    match if_until r.2 with
    | Some t => if decide (if_state r.2 = Acquired ∧ t < now) then Some (e.1, r.1, t) else None
    | None => None
    end) (map_to_list e.2).
Definition by_until (a b : SharePartition * Z * Z) : Prop := a.2 ≤ b.2.
#[export] Instance by_until_dec : RelDecision by_until.
Proof. intros a b. unfold by_until. apply _. Defined.
Definition swept (now : Z) d : list (SharePartition * Z) := (take PER_SWEEP (merge_sort by_until (overdue now d))).*1.

Definition drop_lock (r : Inflight) : Inflight := mk_inflight (if_state r) (if_count r) None None.
Definition lapse (d : Shares) (at_ : SharePartition * Z) : Shares :=
  set_rows at_.1 (alter drop_lock at_.2 (rows_of at_.1 d)) d.

Definition see (now : Z) (m : ShareMember) : ShareMember := mk_smember (sm_epoch m) (sm_rack m) (sm_subscribed m) now.
Definition expire (now : Z) (alive : list (string * string)) d : Z * Shares :=
  let d := set_smembers (λ ms, foldl (λ ms g, alter (see now) g ms) ms alive) d in
  let gone := swept now d in
  (Z.of_nat (length gone),
   set_smembers (filter (λ e, now - SESSION_TIMEOUT_MS ≤ sm_seen e.2)) (foldl lapse d gone)).

(** ** Resets: handlers/share_offsets.rs *)

Definition clear_inflight (k : SharePartition) d : Shares := set_rows k ∅ d.
Definition clear_inflight_topic (group : string) (topic : Z) d : Shares :=
  mk_shares (sh_groups d) (sh_members d) (sh_starts d)
    (filter (λ e : SharePartition * Rows, ¬ (e.1.1 = group ∧ e.1.2.1 = topic)) (sh_inflight d)).
Definition delete_positions (group : string) (topic : Z) d : Z * Shares :=
  let gone := filter (λ e : SharePartition * Z, e.1.1 = group ∧ e.1.2.1 = topic) (sh_starts d) in
  (Z.of_nat (size gone),
   set_starts (filter (λ e : SharePartition * Z, ¬ (e.1.1 = group ∧ e.1.2.1 = topic))) d).
