(* ===== verification/ShareSpec.v ===== *)
(** * Share groups: what the delivery model guarantees

    The start offset moves over finished records only and stops at the first
    that is not; a lock is exclusive while it lives; the rows keep their shape
    under every statement; a record is handed out at most
    [MAX_DELIVERY_ATTEMPTS] times. *)

From stdpp Require Import gmap sorting strings.
From S2P Require Import Prelude Errors Share.

(** ** Rows of a partition *)

Lemma rows_set k rows d k' : rows_of k' (set_rows k rows d) = if decide (k' = k) then rows else rows_of k' d.
Proof.
  unfold rows_of, set_rows. cbn [sh_inflight]. destruct (decide (k' = k)) as [->|Hk].
  - by rewrite lookup_insert_eq.
  - by rewrite lookup_insert_ne.
Qed.
Lemma rows_set_eq k rows d : rows_of k (set_rows k rows d) = rows.
Proof. rewrite rows_set. by rewrite decide_True. Qed.
Lemma rows_set_ne k rows d k' : k' ≠ k → rows_of k' (set_rows k rows d) = rows_of k' d.
Proof. intros H. rewrite rows_set. by rewrite decide_False. Qed.
Lemma rows_starts f d k : rows_of k (set_starts f d) = rows_of k d.
Proof. done. Qed.
Lemma start_set_rows k rows d k' : start_offset k' (set_rows k rows d) = start_offset k' d.
Proof. done. Qed.
Lemma start_insert k s d k' :
  start_offset k' (set_starts <[k := s]> d) = if decide (k' = k) then s else start_offset k' d.
Proof.
  unfold start_offset, set_starts. cbn [sh_starts]. destruct (decide (k' = k)) as [->|Hk].
  - by rewrite lookup_insert_eq.
  - by rewrite lookup_insert_ne.
Qed.
#[export] Hint Rewrite rows_set_eq rows_starts start_set_rows : kafgres.

(** ** The start offset *)

(** [n] is the first offset from [s] on without a finished row. *)
Definition first_unfinished (s : Z) (rows : Rows) (n : Z) : Prop :=
  s ≤ n ∧ (∀ o, s ≤ o < n → ∃ r, rows !! o = Some r ∧ finished r) ∧ (∀ r, rows !! n = Some r → ¬ finished r).

Lemma finished_from_sorted s rows : StronglySorted (<) (finished_from s rows).
Proof.
  apply strictly_sorted.
  - apply Sorted_StronglySorted; [intros ???; lia |]. apply Sorted_merge_sort. intros ??; lia.
  - unfold finished_from. rewrite merge_sort_Permutation.
    apply (sublist_NoDup _ ((map_to_list rows).*1)); [apply NoDup_fst_map_to_list |].
    apply fmap_sublist, sublist_filter.
Qed.

Lemma elem_of_finished_from s rows o :
  o ∈ finished_from s rows ↔ s ≤ o ∧ ∃ r, rows !! o = Some r ∧ finished r.
Proof.
  unfold finished_from. rewrite merge_sort_Permutation, list_elem_of_fmap. split.
  - intros ([o' r] & -> & [[Hf Hs] Hin]%list_elem_of_filter). apply elem_of_map_to_list in Hin. eauto.
  - intros (Hs & r & Hr & Hf). exists (o, r). split; [done |].
    apply list_elem_of_filter. split; [done |]. by apply elem_of_map_to_list.
Qed.

Lemma sorted_index (l : list Z) : ∀ t (i : nat) o,
  StronglySorted (<) l → Forall (λ x, t ≤ x) l → l !! i = Some o → t + Z.of_nat i ≤ o.
Proof.
  induction l as [|x l IH]; intros t i o Hs Ht Ho; [done |].
  apply StronglySorted_inv in Hs as [Hs Hx]. apply Forall_cons in Ht as [Htx _].
  destruct i as [|i]; cbn in Ho; [injection Ho as ->; lia |].
  assert (t + 1 + Z.of_nat i ≤ o); [| lia]. apply IH; [done | | done].
  eapply Forall_impl; [exact Hx |]. cbn. lia.
Qed.

(** The offsets whose number run_at are a run from the start. *)
Definition run_at (t : Z) (c : nat) (l : list Z) : list Z :=
  (filter (λ e : Z * Z, e.2 = t - Z.of_nat c - 1) (imap (λ i o, (o, o - (Z.of_nat (c + i) + 1))) l)).*1.

Lemma run_at_none t c l : StronglySorted (<) l → Forall (λ x, t + 1 ≤ x) l → run_at t c l = [].
Proof.
  intros Hs Ht. unfold run_at. rewrite filter_none; [done |]. apply Forall_lookup. intros i e.
  rewrite list_lookup_imap. destruct (l !! i) as [o|] eqn:E; [| done]. intros [= <-]. cbn [snd].
  pose proof (sorted_index l (t + 1) i o Hs Ht E). lia.
Qed.

Lemma run_at_head t c l : run_at t c (t :: l) = t :: run_at (t + 1) (S c) l.
Proof.
  unfold run_at. rewrite imap_cons, filter_cons, decide_True by (cbn; lia). cbn [fmap list_fmap fst]. f_equal.
  f_equal. rewrite (imap_ext _ (λ i o, (o, o - (Z.of_nat (S c + i) + 1)))).
  - apply list_filter_iff. intros e. rewrite Nat2Z.inj_succ. split; lia.
  - intros i o _. cbn. do 2 f_equal. lia.
Qed.

Lemma run_from (l : list Z) : ∀ (t : Z) (c : nat),
  StronglySorted (<) l → Forall (λ x, t ≤ x) l →
  ∃ m, 0 ≤ m ∧ run_at t c l = seqZ t m ∧ Forall (λ o, o ∈ l) (seqZ t m) ∧ t + m ∉ l.
Proof.
  induction l as [|x l IH]; intros t c Hs Ht.
  { exists 0. split_and!; [done | done | constructor | apply not_elem_of_nil]. }
  pose proof Hs as Hs'. apply StronglySorted_inv in Hs' as [Hs' Hx]. apply Forall_cons in Ht as [Htx _].
  destruct (decide (x = t)) as [->|Hne].
  - destruct (IH (t + 1) (S c) Hs') as (m & Hm & Hf & Hin & Hn).
    { eapply Forall_impl; [exact Hx |]. cbn. lia. }
    exists (m + 1). rewrite seqZ_cons, Z.add_1_r, Z.pred_succ by lia. split_and!; [lia | | |].
    + rewrite run_at_head, Hf. by rewrite Z.add_1_r.
    + constructor; [apply list_elem_of_here |]. rewrite <- Z.add_1_r.
      eapply Forall_impl; [exact Hin |]. intros. by apply list_elem_of_further.
    + replace (t + Z.succ m) with (t + 1 + m) by lia. apply not_elem_of_cons. split; [lia | done].
  - assert (Hall : Forall (λ y, t + 1 ≤ y) (x :: l)).
    { constructor; [lia |]. eapply Forall_impl; [exact Hx |]. cbn. lia. }
    exists 0. split_and!; [done | by apply run_at_none | constructor |].
    rewrite Z.add_0_r. intros Hin. rewrite Forall_forall in Hall. specialize (Hall t Hin). cbn in Hall. lia.
Qed.

Lemma next_start_exact s rows : first_unfinished s rows (next_start s rows).
Proof.
  destruct (run_from (finished_from s rows) s 0) as (m & Hm & Hf & Hin & Hn).
  { apply finished_from_sorted. }
  { apply Forall_forall. intros o [Ho _]%elem_of_finished_from. exact Ho. }
  assert (Hn' : next_start s rows = s + m).
  { unfold next_start. replace (head_run s rows) with (seqZ s m).
    2: { rewrite <- Hf. unfold head_run, run_at, numbered. f_equal. apply list_filter_iff. cbn. intros. lia. }
    pose proof (sql_max_spec (seqZ s m)) as Hmax. destruct (sql_max (seqZ s m)) as [x|].
    - destruct Hmax as [H1 H2]. apply elem_of_seqZ in H1.
      specialize (H2 (s + m - 1) ltac:(apply elem_of_seqZ; lia)). lia.
    - destruct (decide (m = 0)); [lia |]. rewrite seqZ_cons in Hmax by lia. done. }
  rewrite Hn'. split; [lia |]. split.
  - intros o Ho. rewrite Forall_forall in Hin. specialize (Hin o ltac:(apply elem_of_seqZ; lia)).
    apply elem_of_finished_from in Hin. tauto.
  - intros r Hr Hfin. apply Hn, elem_of_finished_from. split; [lia | eauto].
Qed.

Lemma first_unfinished_unique s rows n n' : first_unfinished s rows n → first_unfinished s rows n' → n = n'.
Proof.
  intros (H1 & H2 & H3) (H1' & H2' & H3').
  destruct (Z.lt_trichotomy n n') as [Hlt | [-> | Hlt]]; [| done |].
  - destruct (H2' n) as (r & Hr & Hf); [lia |]. by destruct (H3 r Hr).
  - destruct (H2 n') as (r & Hr & Hf); [lia |]. by destruct (H3' r Hr).
Qed.

Lemma advance_start k d :
  first_unfinished (start_offset k d) (rows_of k d) (start_offset k (advance_start_offset k d)).
Proof.
  unfold advance_start_offset. rewrite start_set_rows, start_insert, decide_True by done. apply next_start_exact.
Qed.

Lemma advance_rows k d o :
  rows_of k (advance_start_offset k d) !! o =
  if decide (start_offset k (advance_start_offset k d) ≤ o) then rows_of k d !! o else None.
Proof.
  unfold advance_start_offset. rewrite rows_set_eq, start_set_rows, start_insert, (decide_True (P := k = k)) by done.
  case_decide as Ho.
  - destruct (rows_of k d !! o) as [r|] eqn:E.
    + apply map_lookup_filter_Some. by split.
    + apply map_lookup_filter_None. by left.
  - apply map_lookup_filter_None. right. intros r _. cbn. lia.
Qed.

Lemma advance_other k d k' : k' ≠ k →
  start_offset k' (advance_start_offset k d) = start_offset k' d ∧ rows_of k' (advance_start_offset k d) = rows_of k' d.
Proof.
  intros Hk. unfold advance_start_offset. rewrite rows_set_ne by done.
  by rewrite start_set_rows, start_insert, decide_False.
Qed.

(** The start offset is exact: the statement that moves it, with its numbering
    of finished rows, goes to the first offset from the old start on whose record
    is not finished.  So no record is passed over before it was acknowledged,
    rejected or given up on, none that is finished holds the queue back, the rows
    below the new start go and no others, and no other partition moves. *)
Theorem advance_start_exact k d :
  let d' := advance_start_offset k d in
  (∀ n, start_offset k d' = n ↔ first_unfinished (start_offset k d) (rows_of k d) n) ∧
  (∀ o, rows_of k d' !! o = if decide (start_offset k d' ≤ o) then rows_of k d !! o else None) ∧
  (∀ k', k' ≠ k → start_offset k' d' = start_offset k' d ∧ rows_of k' d' = rows_of k' d).
Proof.
  cbv zeta. split_and!; [| apply advance_rows | apply advance_other].
  intros n. split; [intros <-; apply advance_start |].
  intros Hn. exact (first_unfinished_unique _ _ _ _ (advance_start k d) Hn).
Qed.

(** ** Handing out *)

(** The record's next delivery is within the limit. *)
Definition deliverable (rows : Rows) (o : Z) : Prop :=
  match rows !! o with Some r => if_count r < MAX_DELIVERY_ATTEMPTS | None => True end.
#[export] Instance deliverable_dec rows o : Decision (deliverable rows o).
Proof. unfold deliverable. destruct (rows !! o); apply _. Defined.

Lemma next_row_deliverable now lock m rows o r :
  next_row now lock m (rows !! o) = Some r → if_state r = Acquired ↔ deliverable rows o.
Proof.
  unfold next_row, deliverable. destruct (rows !! o) as [r0|]; [| intros [= <-]; done].
  destruct (decide (lapsed now r0)); [| done]. intros [= <-].
  destruct (Z.ltb_spec MAX_DELIVERY_ATTEMPTS (if_count r0 + 1)); cbn [if_state]; split; try done; lia.
Qed.

Lemma next_row_available now lock m rows o :
  available now rows o → is_Some (next_row now lock m (rows !! o)).
Proof.
  unfold available, next_row. destruct (rows !! o) as [r|]; [| eauto]. intros H. rewrite decide_True by done. eauto.
Qed.

Lemma hand_out_spec now lock m l : ∀ rows,
  NoDup l → Forall (available now rows) l →
  (hand_out now lock m l rows).1 = filter (deliverable rows) l ∧
  ∀ o, (hand_out now lock m l rows).2 !! o = if decide (o ∈ l) then next_row now lock m (rows !! o) else rows !! o.
Proof.
  induction l as [|x l IH]; intros rows Hnd Hav; cbn [hand_out].
  { split; [done |]. intros o. by rewrite decide_False by apply not_elem_of_nil. }
  apply NoDup_cons in Hnd as [Hx Hnd]. apply Forall_cons in Hav as [Hax Hav].
  destruct (next_row_available now lock m rows x Hax) as [r Hr]. rewrite Hr.
  assert (Hsame : ∀ o, o ∈ l → (<[x := r]> rows) !! o = rows !! o).
  { intros o Ho. apply lookup_insert_ne. intros ->. done. }
  destruct (IH (<[x := r]> rows) Hnd) as [IH1 IH2].
  { rewrite Forall_forall in Hav |- *. intros o Ho. unfold available. rewrite Hsame by done. by apply Hav. }
  destruct (hand_out now lock m l (<[x := r]> rows)) as [out rows']. cbn [fst snd] in *. split.
  - rewrite filter_cons. pose proof (next_row_deliverable now lock m rows x r Hr) as Hd.
    assert (Hf : filter (deliverable (<[x := r]> rows)) l = filter (deliverable rows) l).
    { apply filter_agree. intros o Ho. unfold deliverable. by rewrite Hsame. }
    rewrite IH1, Hf. destruct (decide (if_state r = Acquired)), (decide (deliverable rows x)); tauto.
  - intros o. rewrite IH2. destruct (decide (o = x)) as [->|Hne].
    + rewrite (decide_False (P := x ∈ l)) by done. rewrite lookup_insert_eq.
      rewrite decide_True by apply list_elem_of_here. done.
    + rewrite lookup_insert_ne by done. apply decide_ext. rewrite elem_of_cons. tauto.
Qed.

Lemma candidates_spec now from upto limit rows :
  NoDup (candidates now from upto limit rows) ∧
  Z.of_nat (length (candidates now from upto limit rows)) ≤ Z.max 0 limit ∧
  ∀ o, o ∈ candidates now from upto limit rows → from ≤ o ≤ upto ∧ available now rows o.
Proof.
  unfold candidates. split_and!.
  - apply (sublist_NoDup _ (seqZ from (upto - from + 1))); [apply NoDup_seqZ |].
    etrans; [apply sublist_take |]. apply sublist_filter.
  - rewrite length_take. lia.
  - intros o Ho. eapply elem_of_sublist in Ho; [| apply sublist_take].
    apply list_elem_of_filter in Ho as [Ha Ho]. apply elem_of_seqZ in Ho. split; [lia | done].
Qed.

Section Acquire.

Variables (now lock : Z) (k : SharePartition) (member : string) (from upto limit : Z) (d : Shares).

(** The bound of one call: what was asked for and the locks there is room for. *)
Definition room : Z := MAX_RECORD_LOCKS - held now (rows_of k d).
Definition allowance : Z := Z.min (clamp 1 MAX_ACQUIRE_PER_FETCH limit) room.
Definition taken : list Z := candidates now from upto allowance (rows_of k d).
Definition open_ : Prop := count (rows_of k d) < MAX_INFLIGHT_ROWS ∧ 0 < room.

Lemma acquire_closed : ¬ open_ → acquire now lock k member from upto limit d = ([], d).
Proof.
  unfold open_, room, acquire. intros H. destruct (Z.leb_spec MAX_INFLIGHT_ROWS (count (rows_of k d))); [done |].
  rewrite (proj2 (Z.eqb_eq _ _)); [done | lia].
Qed.

Lemma acquire_open : open_ →
  (acquire now lock k member from upto limit d).1 = filter (deliverable (rows_of k d)) taken ∧
  ∃ rows', (acquire now lock k member from upto limit d).2 = advance_start_offset k (set_rows k rows' d) ∧
    ∀ o, rows' !! o = if decide (o ∈ taken) then next_row now lock member (rows_of k d !! o) else rows_of k d !! o.
Proof.
  unfold open_. intros [H1 H2]. unfold acquire. rewrite (proj2 (Z.leb_gt _ _)) by done.
  fold room. rewrite (proj2 (Z.eqb_neq _ _)) by lia.
  replace (Z.max 1 (Z.min (clamp 1 MAX_ACQUIRE_PER_FETCH limit) (Z.max 0 room))) with allowance
    by (unfold allowance, clamp, MAX_ACQUIRE_PER_FETCH; lia).
  fold taken. destruct (candidates_spec now from upto allowance (rows_of k d)) as (Hnd & _ & Hav).
  destruct (hand_out_spec now lock member taken (rows_of k d) Hnd) as [E1 E2].
  { apply Forall_forall. intros o Ho. by apply Hav. }
  destruct (hand_out now lock member taken (rows_of k d)) as [out rows']. cbn [fst snd] in *.
  split; [done |]. exists rows'. done.
Qed.

End Acquire.

(** ** The shape of the tables *)

Definition row_ok (r : Inflight) : Prop :=
  1 ≤ if_count r ∧
  match if_state r with
  | Acquired => if_count r ≤ MAX_DELIVERY_ATTEMPTS ∧ (is_Some (if_member r) ↔ is_Some (if_until r))
  | Acked => if_count r ≤ MAX_DELIVERY_ATTEMPTS ∧ if_member r = None ∧ if_until r = None
  | Archived => if_count r ≤ MAX_DELIVERY_ATTEMPTS + 1 ∧ if_member r = None ∧ if_until r = None
  end.

Definition part_ok (s : Z) (rows : Rows) : Prop := ∀ o r, rows !! o = Some r → s ≤ o ∧ row_ok r.

(** Rows lie at or above the start of their partition, which has a position, and
    are well formed: a lock has a holder and a deadline, a finished record has
    neither, and the delivery count is within its limit. *)
Record shares_ok d : Prop := mk_shares_ok {
  ok_part : ∀ k, part_ok (start_offset k d) (rows_of k d);
  ok_position : ∀ k, rows_of k d ≠ ∅ → is_Some (sh_starts d !! k) }.

Lemma live_unfinished now r : live now r → ¬ finished r.
Proof. intros [H _] [H'|H']; congruence. Qed.

(** After [advance_start_offset] a row that is not finished is still there. *)
Lemma advance_keeps k d o r :
  start_offset k d ≤ o → rows_of k d !! o = Some r → ¬ finished r →
  rows_of k (advance_start_offset k d) !! o = Some r.
Proof.
  intros Hs Hr Hf. rewrite advance_rows, decide_True; [done |].
  destruct (advance_start k d) as (_ & Hall & _).
  destruct (Z.le_gt_cases (start_offset k (advance_start_offset k d)) o) as [|Hlt]; [done |].
  destruct (Hall o) as (r' & Hr' & Hf'); [lia |]. congruence.
Qed.

(** What is there afterwards was there before. *)
Lemma advance_only k d o r : rows_of k (advance_start_offset k d) !! o = Some r → rows_of k d !! o = Some r.
Proof. rewrite advance_rows. by case_decide. Qed.

Section Exclusive.

Variables (now lock : Z) (k : SharePartition) (member : string) (upto limit : Z) (d : Shares).
Hypothesis (Hd : shares_ok d).
Abbreviation call := (acquire now lock k member (start_offset k d) upto limit d).
Abbreviation wanted := (taken now k (start_offset k d) upto limit d).

Lemma wanted_spec o : o ∈ wanted → start_offset k d ≤ o ≤ upto ∧ available now (rows_of k d) o.
Proof using Type. apply candidates_spec. Qed.

(** A row the statement leaves alone stays, unless it was finished. *)
Lemma acquire_keeps k' o r :
  rows_of k' d !! o = Some r → ¬ finished r → (k' = k → o ∉ wanted) → rows_of k' call.2 !! o = Some r.
Proof using All.
  intros Hr Hf Ho. destruct (decide (open_ now k d)) as [Hopen|Hclosed]; [| by rewrite acquire_closed].
  destruct (acquire_open now lock k member (start_offset k d) upto limit d Hopen) as [_ (rows' & -> & Hrows)].
  destruct (decide (k' = k)) as [->|Hk].
  - apply advance_keeps; [| | done].
    + rewrite start_set_rows. exact (proj1 (ok_part _ Hd k o r Hr)).
    + rewrite rows_set_eq, Hrows, decide_False by auto. done.
  - destruct (advance_other k (set_rows k rows' d) k' Hk) as [_ ->]. by rewrite rows_set_ne.
Qed.

Lemma acquire_out o : o ∈ call.1 → open_ now k d ∧ o ∈ wanted ∧ deliverable (rows_of k d) o.
Proof using Type.
  intros Ho. destruct (decide (open_ now k d)) as [Hopen|Hclosed].
  - destruct (acquire_open now lock k member (start_offset k d) upto limit d Hopen) as [E _].
    rewrite E in Ho. apply list_elem_of_filter in Ho. tauto.
  - rewrite acquire_closed in Ho by done. by apply not_elem_of_nil in Ho.
Qed.

(** What was handed out is held by the member. *)
Lemma acquire_gives o :
  o ∈ call.1 → ∃ n, n ≤ MAX_DELIVERY_ATTEMPTS ∧
    rows_of k call.2 !! o = Some (mk_inflight Acquired n (Some member) (Some (now + lock))).
Proof using Type.
  intros (Hopen & Ho & Hdel)%acquire_out. pose proof (wanted_spec o Ho) as [Hr Hav].
  destruct (acquire_open now lock k member (start_offset k d) upto limit d Hopen) as [_ (rows' & -> & Hrows)].
  assert (Hn : ∃ n, n ≤ MAX_DELIVERY_ATTEMPTS ∧
    next_row now lock member (rows_of k d !! o) = Some (mk_inflight Acquired n (Some member) (Some (now + lock)))).
  { unfold deliverable in Hdel. unfold available in Hav. unfold next_row. destruct (rows_of k d !! o) as [r|].
    - rewrite decide_True by done. exists (if_count r + 1). split; [lia |].
      by rewrite (proj2 (Z.ltb_ge _ _)) by lia.
    - by exists 1. }
  destruct Hn as (n & Hle & Hn). exists n. split; [done |]. apply advance_keeps.
  - rewrite start_set_rows. lia.
  - by rewrite rows_set_eq, Hrows, decide_True.
  - intros [H|H]; discriminate.
Qed.

Lemma acquire_out_length : open_ now k d → Z.of_nat (length call.1) ≤ room now k d ∧ NoDup call.1.
Proof using Type.
  intros Hopen. destruct (acquire_open now lock k member (start_offset k d) upto limit d Hopen) as [-> _].
  destruct (candidates_spec now (start_offset k d) upto (allowance now k limit d) (rows_of k d)) as (Hnd & Hlen & _).
  fold wanted in Hnd, Hlen. pose proof (length_filter (deliverable (rows_of k d)) wanted) as Hle. split.
  - destruct Hopen. assert (allowance now k limit d ≤ room now k d) by (unfold allowance; lia). lia.
  - apply (sublist_NoDup _ wanted); [done | apply sublist_filter].
Qed.

(** A lock that lives afterwards lived before or was handed out. *)
Lemma acquire_live o r :
  rows_of k call.2 !! o = Some r → live now r → o ∈ call.1 ∨ rows_of k d !! o = Some r.
Proof using Type.
  intros Hr Hl. destruct (decide (open_ now k d)) as [Hopen|Hclosed]; [| rewrite acquire_closed in Hr by done; by right].
  destruct (acquire_open now lock k member (start_offset k d) upto limit d Hopen) as [-> (rows' & Hd' & Hrows)].
  rewrite Hd' in Hr. apply advance_only in Hr. rewrite rows_set_eq, Hrows in Hr. case_decide as Ho; [left | by right].
  apply list_elem_of_filter. split; [| done]. apply (next_row_deliverable now lock member _ _ r Hr). apply Hl.
Qed.

Lemma acquire_held : held now (rows_of k call.2) ≤ Z.max (held now (rows_of k d)) MAX_RECORD_LOCKS.
Proof using Type.
  clear Hd. destruct (decide (open_ now k d)) as [Hopen|Hclosed]; [| rewrite acquire_closed by done; cbn [snd]; lia].
  destruct (acquire_out_length Hopen) as [Hlen Hnd]. unfold room in Hlen.
  assert (Hsub : dom (filter (λ e : Z * Inflight, live now e.2) (rows_of k call.2)) ⊆
    dom (filter (λ e : Z * Inflight, live now e.2) (rows_of k d)) ∪ (list_to_set call.1 : gset Z)).
  { intros o [r Hr]%elem_of_dom. apply map_lookup_filter_Some in Hr as [Hr Hl].
    destruct (acquire_live o r Hr Hl) as [Ho|Ho]; apply elem_of_union.
    - right. by apply elem_of_list_to_set.
    - left. apply elem_of_dom. exists r. by apply map_lookup_filter_Some. }
  apply subseteq_size in Hsub. rewrite size_union_alt in Hsub.
  pose proof (subseteq_size ((list_to_set call.1 : gset Z) ∖ dom (filter (λ e : Z * Inflight, live now e.2) (rows_of k d)))
    (list_to_set call.1) ltac:(set_solver)) as Hdiff.
  rewrite size_list_to_set in Hdiff by done. rewrite !size_dom in Hsub. unfold held in *. lia.
Qed.

End Exclusive.

(** C20. A lock is exclusive.  What [acquire] hands out to a member was free: it had
    no row, or its lock had lapsed or been given up; afterwards the member holds
    it until the lock duration has passed.  Every lock that lives at that moment,
    in any partition, is left exactly as it was, so nobody else is given the
    record while it lives.  The call takes the first offsets that are free, from
    the start on and within what was asked and what the limit on locks leaves,
    gives up on those already delivered the maximum number of times, and never
    takes the partition over its limit of live locks. *)
Theorem acquire_exclusive now lock k member upto limit d :
  shares_ok d →
  let '(out, d') := acquire now lock k member (start_offset k d) upto limit d in
  (∀ o, o ∈ out → start_offset k d ≤ o ≤ upto ∧ available now (rows_of k d) o ∧
     ∃ n, n ≤ MAX_DELIVERY_ATTEMPTS ∧
       rows_of k d' !! o = Some (mk_inflight Acquired n (Some member) (Some (now + lock)))) ∧
  (∀ k' o r, rows_of k' d !! o = Some r → live now r → rows_of k' d' !! o = Some r) ∧
  (open_ now k d → out = filter (deliverable (rows_of k d)) (taken now k (start_offset k d) upto limit d)) ∧
  held now (rows_of k d') ≤ Z.max (held now (rows_of k d)) MAX_RECORD_LOCKS.
Proof.
  intros Hd. rewrite (surjective_pairing (acquire _ _ _ _ _ _ _ _)). split_and!.
  - intros o Ho. pose proof (acquire_out now lock k member upto limit d o Ho) as (_ & Hw & _).
    destruct (wanted_spec now k upto limit d o Hw) as [Hr Ha]. split_and!; [lia | lia | done |].
    by apply acquire_gives.
  - intros k' o r Hr Hl. apply acquire_keeps; [done | done | by eapply live_unfinished |].
    intros -> Ho. destruct (wanted_spec now k upto limit d o Ho) as [_ Ha]. unfold available in Ha. rewrite Hr in Ha.
    destruct Hl, Ha. congruence.
  - intros Hopen. by apply acquire_open.
  - apply acquire_held.
Qed.

(** ** The invariant, statement by statement *)

Lemma part_ok_map s rows rows' :
  part_ok s rows → (∀ o r', rows' !! o = Some r' → ∃ r, rows !! o = Some r ∧ (row_ok r → row_ok r')) → part_ok s rows'.
Proof. intros H Hm o r' Hr'. destruct (Hm o r' Hr') as (r & Hr & Hok). destruct (H o r Hr) as [??]. auto. Qed.

(** Rows rewritten one by one keep the invariant. *)
Lemma ok_rewrite d d' :
  shares_ok d → sh_starts d' = sh_starts d →
  (∀ k o r', rows_of k d' !! o = Some r' → ∃ r, rows_of k d !! o = Some r ∧ (row_ok r → row_ok r')) →
  shares_ok d'.
Proof.
  intros [Hp Hs] Es Hm. split; intros k.
  - unfold start_offset. rewrite Es. apply (part_ok_map _ (rows_of k d)); [apply Hp | apply Hm].
  - rewrite Es. intros Hne. apply Hs. intros Hnil. apply map_choose in Hne as (o & r' & Hr').
    destruct (Hm k o r' Hr') as (r & Hr & _). by rewrite Hnil, lookup_empty in Hr.
Qed.

Lemma update_held_rows k m a b sel f d k' o r' :
  rows_of k' (update_held k m a b sel f d).2 !! o = Some r' →
  ∃ r, rows_of k' d !! o = Some r ∧ (r' = r ∨ (k' = k ∧ hit m a b sel o r ∧ r' = f r)).
Proof.
  cbn [update_held snd]. rewrite rows_set. case_decide as Hk; [subst k' | eauto].
  rewrite map_lookup_imap. destruct (rows_of k d !! o) as [r|]; [| done]. cbn. intros [= <-].
  exists r. split; [done |]. case_decide; eauto.
Qed.

(** A row a member holds is acquired, and has a deadline. *)
Lemma row_ok_held r m : row_ok r → if_member r = Some m → if_state r = Acquired ∧ is_Some (if_until r) ∧ if_count r ≤ MAX_DELIVERY_ATTEMPTS.
Proof.
  unfold row_ok. intros [_ H] E. destruct (if_state r); rewrite E in H; [| by destruct H as (_ & ? & _)..].
  destruct H as [H1 H2]. split_and!; [done | apply H2; eauto | done].
Qed.

Lemma update_held_ok k m a b sel f d :
  (∀ r, row_ok r → if_member r = Some m → sel r = true → row_ok (f r)) →
  shares_ok d → shares_ok (update_held k m a b sel f d).2.
Proof.
  intros Hf Hd. apply (ok_rewrite d); [done | done |]. intros k' o r' Hr'.
  destruct (update_held_rows _ _ _ _ _ _ _ _ _ _ Hr') as (r & Hr & Hcase). exists r. split; [done |]. intros Hok.
  destruct Hcase as [->|(_ & (_ & Hm & Hs) & ->)]; auto.
Qed.

Lemma finish_row_ok s m r : s ≠ Acquired → row_ok r → if_member r = Some m → row_ok (finish_row s r).
Proof.
  intros Hs Hr Hm. destruct (row_ok_held r m Hr Hm) as (_ & _ & Hc). destruct Hr as [H1 _].
  split; [done |]. destruct s; [done | |]; cbn; split_and!; try done; lia.
Qed.
Lemma release_row_ok m r : row_ok r → if_member r = Some m → row_ok (release_row r).
Proof.
  intros Hr Hm. destruct (row_ok_held r m Hr Hm) as (_ & _ & Hc). destruct Hr as [H1 _].
  split; [done |]. cbn. split; [done |]. split; by intros [].
Qed.
Lemma renew_row_ok t m r : row_ok r → if_member r = Some m → row_ok (renew_row t r).
Proof.
  intros Hr Hm. destruct (row_ok_held r m Hr Hm) as (Hs & _ & Hc). destruct Hr as [H1 _].
  split; [done |]. cbn [renew_row if_state if_count if_member if_until]. rewrite Hs, Hm. split; [done |].
  split; eauto.
Qed.
#[export] Hint Resolve finish_row_ok release_row_ok renew_row_ok : kafgres.

Lemma advance_ok k d :
  (∀ k', part_ok (start_offset k' d) (rows_of k' d)) →
  (∀ k', k' ≠ k → rows_of k' d ≠ ∅ → is_Some (sh_starts d !! k')) →
  shares_ok (advance_start_offset k d).
Proof.
  intros Hp Hs. split; intros k'; destruct (decide (k' = k)) as [->|Hk].
  - intros o r Hr. rewrite advance_rows in Hr. case_decide as Ho; [| done]. split; [done |]. by destruct (Hp k o r Hr).
  - destruct (advance_other k d k' Hk) as [-> ->]. apply Hp.
  - intros _. unfold advance_start_offset. cbn [sh_starts set_rows set_starts]. rewrite lookup_insert_eq. eauto.
  - destruct (advance_other k d k' Hk) as [_ ->]. intros Hne. unfold advance_start_offset.
    cbn [sh_starts set_rows set_starts]. rewrite lookup_insert_ne by done. by apply Hs.
Qed.
Lemma advance_ok' k d : shares_ok d → shares_ok (advance_start_offset k d).
Proof. intros [Hp Hs]. apply advance_ok; auto. Qed.
#[export] Hint Resolve advance_ok' : kafgres.

Lemma set_state_ok k m o s d : s ≠ Acquired → shares_ok d → shares_ok (set_state k m o s d).2.
Proof. intros Hs Hd. apply update_held_ok; [| done]. intros r Hr Hm _. eauto with kafgres. Qed.

Lemma ack_one_ok now lock k m o kind d : shares_ok d → shares_ok (ack_one now lock k m o kind d).2.
Proof.
  intros Hd. destruct kind; cbn [ack_one snd].
  - by apply set_state_ok.
  - by apply set_state_ok.
  - apply update_held_ok; [intros r Hr Hm _; eauto with kafgres | done].
  - by apply set_state_ok.
  - apply update_held_ok; [intros r Hr Hm _; eauto with kafgres | done].
Qed.

Lemma bind_state_ok {E A B} (P : Shares → Prop) (m : ST Shares E A) (f : A → ST Shares E B) d :
  P (m d).2 → (∀ a d', P d' → P (f a d').2) → P (bind m f d).2.
Proof. unfold bind. intros Hm Hf. destruct (m d) as [[a|e] d']; cbn [snd] in *; auto. Qed.

Lemma ack_each_ok now lock k m first last types : ∀ i d,
  shares_ok d → shares_ok (ack_each now lock k m first last i types d).2.
Proof.
  induction types as [|kind ts IH]; intros i d Hd; cbn [ack_each]; [done |].
  destruct (last <? _); [done |]. apply bind_state_ok; [by apply ack_one_ok | auto].
Qed.

(** The statement of [ack_range]. *)
Definition range_update (now lock : Z) (k : SharePartition) (m : string) (first last : Z) (kind : Ack) d : Z * Shares :=
  match kind with
  | Accept => update_held k m first last any_row (finish_row Acked) d
  | Reject | Gap => update_held k m first last any_row (finish_row Archived) d
  | Release => update_held k m first last any_row release_row d
  | Renew => update_held k m first last is_acquired (renew_row (now + lock)) d
  end.
Lemma ack_range_state now lock k m first last kind d :
  (ack_range now lock k m first last kind d).2 = (range_update now lock k m first last kind d).2.
Proof. destruct kind; reflexivity. Qed.

Lemma ack_range_ok now lock k m first last kind d : shares_ok d → shares_ok (ack_range now lock k m first last kind d).2.
Proof.
  intros Hd. rewrite ack_range_state. destruct kind; cbn [range_update];
    (apply update_held_ok; [intros r Hr Hm _ | done]); eauto with kafgres.
Qed.

Lemma acknowledge_ok now lock k m first last types d :
  shares_ok d → shares_ok (acknowledge now lock k m first last types d).2.
Proof.
  intros Hd. unfold acknowledge. destruct (last <? first); [done |].
  assert (Heach : shares_ok (bind (ack_each now lock k m first last 0 types)
    (λ _ d, (Ok tt, advance_start_offset k d)) d).2).
  { apply bind_state_ok; [by apply ack_each_ok | cbn; auto with kafgres]. }
  destruct types as [|kind [|]]; try exact Heach. destruct (first <? last); [| exact Heach].
  apply bind_state_ok; [by apply ack_range_ok | cbn; auto with kafgres].
Qed.

Lemma next_row_ok now lock m (rows : Rows) o r :
  next_row now lock m (rows !! o) = Some r → (∀ r0, rows !! o = Some r0 → row_ok r0) → row_ok r.
Proof.
  unfold next_row. destruct (rows !! o) as [r0|].
  - destruct (decide (lapsed now r0)) as [[Hs _]|]; [| done]. intros [= <-] H. destruct (H r0 eq_refl) as [H1 H2].
    rewrite Hs in H2. unfold row_ok. destruct (Z.ltb_spec MAX_DELIVERY_ATTEMPTS (if_count r0 + 1));
      cbn [if_count if_state if_member if_until]; split_and!; try done; lia.
  - intros [= <-] _. split; [done |]. cbn. split; [done |]. split; eauto.
Qed.

Lemma acquire_ok now lock k m upto limit d :
  shares_ok d → shares_ok (acquire now lock k m (start_offset k d) upto limit d).2.
Proof.
  intros Hd. destruct (decide (open_ now k d)) as [Hopen|Hclosed]; [| by rewrite acquire_closed].
  destruct (acquire_open now lock k m (start_offset k d) upto limit d Hopen) as [_ (rows' & -> & Hrows)].
  apply advance_ok; intros k'.
  - rewrite start_set_rows, rows_set. case_decide as Hk; [subst k' | apply ok_part, Hd].
    intros o r Hr. rewrite Hrows in Hr. case_decide as Ho; [| by apply ok_part].
    destruct (wanted_spec now k upto limit d o Ho) as [Hrange _]. split; [lia |].
    apply (next_row_ok now lock m (rows_of k d) o); [done |]. intros r0 Hr0. by destruct (ok_part _ Hd k o r0 Hr0).
  - intros Hk. rewrite rows_set_ne by done. apply (ok_position _ Hd).
Qed.

Lemma rows_release_all g m d k :
  rows_of k (release_all g m d) = if decide (k.1 = g) then hand_back_rows m (rows_of k d) else rows_of k d.
Proof.
  unfold rows_of, release_all. cbn [sh_inflight]. rewrite map_lookup_imap.
  destruct (sh_inflight d !! k) as [rows|]; cbn; [done |].
  case_decide; [| done]. unfold hand_back_rows. by rewrite fmap_empty.
Qed.

Lemma hand_back_ok m r : row_ok r → row_ok (hand_back m r).
Proof.
  unfold hand_back. case_decide as H; [| done]. destruct H as [_ Hs]. intros [H1 H2]. rewrite Hs in H2.
  split; [done |]. cbn. rewrite Hs. split; [apply H2 |]. split; by intros [].
Qed.

Lemma release_all_ok g m d : shares_ok d → shares_ok (release_all g m d).
Proof.
  intros Hd. apply (ok_rewrite d); [done | done |]. intros k o r'. rewrite rows_release_all.
  case_decide; [| eauto]. unfold hand_back_rows. rewrite lookup_fmap.
  destruct (rows_of k d !! o) as [r|]; [| done]. intros [= <-]. exists r. split; [done |]. apply hand_back_ok.
Qed.

(** The rows a sweep picks are acquired ones. *)
Lemma swept_spec now d k o : (k, o) ∈ swept now d →
  ∃ r t, rows_of k d !! o = Some r ∧ if_state r = Acquired ∧ if_until r = Some t ∧ t < now.
Proof.
  unfold swept. intros ([[k' o'] t] & [= -> ->] & Hin)%list_elem_of_fmap.
  eapply elem_of_sublist in Hin; [| apply sublist_take]. rewrite merge_sort_Permutation in Hin. unfold overdue in Hin.
  apply list_elem_of_bind in Hin as ([k2 rows] & Hin & Hk). apply list_elem_of_omap in Hin as ([o2 r] & Hr & Hsome).
  apply elem_of_map_to_list in Hk, Hr. cbn [fst snd] in *. destruct (if_until r) as [t'|] eqn:Et; [| done].
  case_decide as Hcond; [| done]. injection Hsome as -> -> ->. exists r, t.
  split_and!; [| apply Hcond | done | apply Hcond]. unfold rows_of. by rewrite Hk.
Qed.

Lemma lapse_rows d at_ k o : rows_of k (lapse d at_) !! o =
  (if decide ((k, o) = at_) then drop_lock else id) <$> rows_of k d !! o.
Proof.
  destruct at_ as [k' o']. unfold lapse. cbn [fst snd]. rewrite rows_set. destruct (decide (k = k')) as [->|Hk].
  - destruct (decide (o = o')) as [->|Ho].
    + rewrite decide_True by done. apply lookup_alter_eq.
    + rewrite decide_False by congruence. rewrite lookup_alter_ne by done. by rewrite option_fmap_id.
  - rewrite decide_False by congruence. by rewrite option_fmap_id.
Qed.

Lemma lapse_all_starts l : ∀ d, sh_starts (foldl lapse d l) = sh_starts d.
Proof. induction l as [|a l IH]; intros d; cbn [foldl]; [done |]. by rewrite IH. Qed.

Lemma lapse_all_rows l : ∀ d k o, rows_of k (foldl lapse d l) !! o =
  (if decide ((k, o) ∈ l) then drop_lock else id) <$> rows_of k d !! o.
Proof.
  induction l as [|a l IH]; intros d k o; cbn [foldl].
  { rewrite decide_False by apply not_elem_of_nil. by rewrite option_fmap_id. }
  rewrite IH, lapse_rows. destruct (rows_of k d !! o) as [r|]; cbn; [| done]. f_equal.
  destruct (decide ((k, o) ∈ l)) as [H1|H1], (decide ((k, o) = a)) as [H2|H2]; cbn;
    rewrite ?(decide_True (P := (k, o) ∈ a :: l)) by (rewrite elem_of_cons; tauto); try done.
  rewrite decide_False by (rewrite elem_of_cons; tauto). done.
Qed.

Lemma expire_tables now alive d :
  sh_starts (expire now alive d).2 = sh_starts d ∧
  ∀ k o, rows_of k (expire now alive d).2 !! o =
    (if decide ((k, o) ∈ swept now d) then drop_lock else id) <$> rows_of k d !! o.
Proof.
  unfold expire. cbn [snd set_smembers sh_starts].
  set (d0 := set_smembers _ d). replace (swept now d0) with (swept now d) by reflexivity.
  split; [by rewrite lapse_all_starts |]. intros k o.
  change (rows_of k (set_smembers _ ?x)) with (rows_of k x).
  rewrite lapse_all_rows. reflexivity.
Qed.

Lemma expire_ok now alive d : shares_ok d → shares_ok (expire now alive d).2.
Proof.
  intros Hd. destruct (expire_tables now alive d) as [Es Er]. apply (ok_rewrite d); [done | done |].
  intros k o r'. rewrite Er. destruct (rows_of k d !! o) as [r|] eqn:Hr; [| done]. intros [= <-].
  exists r. split; [done |]. intros [H1 H2]. case_decide as Hin; [| done].
  destruct (swept_spec now d k o Hin) as (r0 & t & Hr0 & Hs & _). assert (r0 = r) as -> by congruence.
  split; [done |]. rewrite Hs in H2. cbn. rewrite Hs. split; [apply H2 |]. split; by intros [].
Qed.

Definition move_start (k : SharePartition) (o : Z) d : Shares := clear_inflight k (set_starts <[k := o]> d).
Definition forget_positions (g : string) (topic : Z) d : Shares :=
  let '(removed, d') := delete_positions g topic d in
  if removed =? 0 then d' else clear_inflight_topic g topic d'.

Lemma move_start_ok k o d : shares_ok d → shares_ok (move_start k o d).
Proof.
  intros Hd. unfold move_start, clear_inflight. split; intros k'.
  - rewrite start_set_rows, start_insert, rows_set, rows_starts. case_decide; [| apply ok_part, Hd].
    intros o' r Hr. by rewrite lookup_empty in Hr.
  - rewrite rows_set, rows_starts. case_decide as Hk; [done |]. intros Hne. cbn [sh_starts set_rows set_starts].
    rewrite lookup_insert_ne by done. by apply (ok_position _ Hd).
Qed.

Lemma rows_clear_topic g t d k :
  rows_of k (clear_inflight_topic g t d) = if decide (k.1 = g ∧ k.2.1 = t) then ∅ else rows_of k d.
Proof.
  unfold rows_of, clear_inflight_topic. cbn [sh_inflight]. case_decide as H.
  - rewrite (proj2 (map_lookup_filter_None _ _ _)); [done |]. right. intros rows _. cbn. tauto.
  - destruct (sh_inflight d !! k) as [rows|] eqn:E.
    + by rewrite (proj2 (map_lookup_filter_Some _ _ k rows)).
    + rewrite (proj2 (map_lookup_filter_None _ _ _)); [done | by left].
Qed.

(** A position goes exactly when its topic is forgotten. *)
Lemma positions_kept g t d k :
  sh_starts (delete_positions g t d).2 !! k = if decide (k.1 = g ∧ k.2.1 = t) then None else sh_starts d !! k.
Proof.
  cbn [delete_positions snd set_starts sh_starts]. case_decide as H.
  - apply map_lookup_filter_None. right. intros s _. cbn. tauto.
  - destruct (sh_starts d !! k) as [s|] eqn:E.
    + apply map_lookup_filter_Some. by split.
    + apply map_lookup_filter_None. by left.
Qed.

Lemma forget_positions_ok g t d : shares_ok d → shares_ok (forget_positions g t d).
Proof.
  intros Hd. unfold forget_positions. destruct (delete_positions g t d) as [removed d'] eqn:E.
  assert (Ed : d' = (delete_positions g t d).2) by (by rewrite E).
  assert (Hrows : ∀ k, rows_of k d' = rows_of k d) by (subst d'; done).
  assert (Hpos : ∀ k, sh_starts d' !! k = if decide (k.1 = g ∧ k.2.1 = t) then None else sh_starts d !! k).
  { intros k. rewrite Ed. apply positions_kept. }
  destruct (Z.eqb_spec removed 0) as [H0|H0].
  - assert (Hnone : ∀ k, k.1 = g ∧ k.2.1 = t → sh_starts d !! k = None).
    { intros k Hk. injection E as <- _. assert (Hz : size (filter (λ e : SharePartition * Z, e.1.1 = g ∧ e.1.2.1 = t)
        (sh_starts d)) = 0%nat) by lia. apply map_size_empty_inv in Hz.
      destruct (sh_starts d !! k) as [s|] eqn:Es; [| done]. exfalso.
      assert (Hin : filter (λ e : SharePartition * Z, e.1.1 = g ∧ e.1.2.1 = t) (sh_starts d) !! k = Some s)
        by (by apply map_lookup_filter_Some). by rewrite Hz, lookup_empty in Hin. }
    assert (Hsame : ∀ k, sh_starts d' !! k = sh_starts d !! k).
    { intros k. rewrite Hpos. case_decide; [| done]. symmetry. by apply Hnone. }
    split; intros k; rewrite Hrows; [unfold start_offset |]; rewrite Hsame; apply Hd.
  - split; intros k; rewrite rows_clear_topic, Hrows; case_decide as Hk; try done.
    + unfold start_offset. cbn [sh_starts clear_inflight_topic]. rewrite Hpos, decide_False by done. apply Hd.
    + cbn [sh_starts clear_inflight_topic]. rewrite Hpos, decide_False by done. apply Hd.
Qed.

(** ** Runs of statements *)

(** What the requests of members and the sweep do, at any time: hand records
    out, and the rest. *)
Inductive quiet_step : Shares → Shares → Prop :=
| by_acknowledge now lock k m first last types d :
    quiet_step d (acknowledge now lock k m first last types d).2
| by_release_all g m d : quiet_step d (release_all g m d)
| by_expire now alive d : quiet_step d (expire now alive d).2
| by_members f d : quiet_step d (set_smembers f d)
| by_groups f d : quiet_step d (set_groups f d).

Inductive delivery : Shares → Shares → Prop :=
| by_acquire now lock k m upto limit d :
    delivery d (acquire now lock k m (start_offset k d) upto limit d).2
| by_quiet d d' : quiet_step d d' → delivery d d'.

(** What an operator may do besides. *)
Inductive share_step : Shares → Shares → Prop :=
| step_delivery d d' : delivery d d' → share_step d d'
| step_alter k o d : share_step d (move_start k o d)
| step_forget g topic d : share_step d (forget_positions g topic d).

Lemma delivery_ok d d' : delivery d d' → shares_ok d → shares_ok d'.
Proof.
  destruct 1 as [|d d' Hq]; intros Hd; [by apply acquire_ok |]. destruct Hq.
  - by apply acknowledge_ok.
  - by apply release_all_ok.
  - by apply expire_ok.
  - apply (ok_rewrite d); [done | done |]; eauto.
  - apply (ok_rewrite d); [done | done |]; eauto.
Qed.

Lemma share_steps_ok d d' : rtc share_step d d' → shares_ok d → shares_ok d'.
Proof.
  induction 1 as [|d d1 d' Hstep _ IH]; [done |]. intros Hd. apply IH. destruct Hstep.
  - by eapply delivery_ok.
  - by apply move_start_ok.
  - by apply forget_positions_ok.
Qed.

Lemma no_shares_ok : shares_ok no_shares.
Proof.
  assert (H : ∀ k, rows_of k no_shares = ∅) by (intros k; unfold rows_of, no_shares; cbn; by rewrite lookup_empty).
  split; intros k; rewrite H; [intros o r Hr; by rewrite lookup_empty in Hr | done].
Qed.

(** Whatever members, the sweep and operators do, from any well-formed state
    and so from the empty tables: every record that was handed out lies at or
    above the start of its partition, which has a position; a record is held
    exactly while its lock has a deadline, a finished one has neither holder nor
    deadline, and no delivery count passes its limit. *)
Theorem share_tables_invariant d d' : shares_ok d → rtc share_step d d' → shares_ok d'.
Proof. intros Hd Hs. exact (share_steps_ok d d' Hs Hd). Qed.

(** ** How often a record is handed out *)

Ltac same_row := first [done | lia | intros; split; [done | cbn; lia]].

(** No record becomes available that was not, and no count goes down. *)
Definition shrinks d d' : Prop := ∀ k, start_offset k d ≤ start_offset k d' ∧
  ∀ o, match rows_of k d !! o, rows_of k d' !! o with
       | Some r, Some r' => if_state r' = Acquired → if_state r = Acquired ∧ if_count r ≤ if_count r'
       | Some _, None => o < start_offset k d'
       | None, Some _ => False
       | None, None => True
       end.

Lemma shrinks_refl d : shrinks d d.
Proof. intros k. split; [lia |]. intros o. destruct (rows_of k d !! o); same_row. Qed.

Lemma shrinks_trans d1 d2 d3 : shrinks d1 d2 → shrinks d2 d3 → shrinks d1 d3.
Proof.
  intros H1 H2 k. destruct (H1 k) as [S1 R1], (H2 k) as [S2 R2]. split; [lia |]. intros o.
  specialize (R1 o). specialize (R2 o). destruct (rows_of k d1 !! o), (rows_of k d2 !! o), (rows_of k d3 !! o); try done.
  - intros Ha. destruct (R2 Ha) as [Ha' Hle]. destruct (R1 Ha'). split; [done | lia].
  - lia.
Qed.

(** Rewriting rows in place. *)
Lemma shrinks_rewrite d d' :
  sh_starts d' = sh_starts d →
  (∀ k o, match rows_of k d !! o, rows_of k d' !! o with
          | Some r, Some r' => if_state r' = Acquired → if_state r = Acquired ∧ if_count r ≤ if_count r'
          | None, None => True | _, _ => False end) →
  shrinks d d'.
Proof.
  intros Es Hr k. split; [unfold start_offset; rewrite Es; lia |]. intros o. specialize (Hr k o).
  by destruct (rows_of k d !! o), (rows_of k d' !! o).
Qed.

Lemma shrinks_advance k d : shrinks d (advance_start_offset k d).
Proof.
  intros k'. destruct (decide (k' = k)) as [->|Hk].
  - split; [apply advance_start |]. intros o. rewrite advance_rows. case_decide; destruct (rows_of k d !! o); same_row.
  - destruct (advance_other k d k' Hk) as [-> ->]. apply shrinks_refl.
Qed.

Lemma shrinks_update k m a b sel f d :
  shares_ok d → (∀ r, if_count (f r) = if_count r) → shrinks d (update_held k m a b sel f d).2.
Proof.
  intros Hd Hf. apply shrinks_rewrite; [done |]. intros k' o. cbn [update_held snd]. rewrite rows_set.
  case_decide as Hk; [subst k' | destruct (rows_of k' d !! o); same_row]. rewrite map_lookup_imap.
  destruct (rows_of k d !! o) as [r|] eqn:E; cbn [mbind option_bind]; [| done].
  case_decide as Hhit; [| same_row]. intros _. rewrite Hf. destruct Hhit as (_ & Hm & _).
  destruct (ok_part _ Hd k o r E) as [_ Hok]. destruct (row_ok_held r m Hok Hm). split; [done | lia].
Qed.

Lemma shrinks_ack_one now lock k m o kind d : shares_ok d → shrinks d (ack_one now lock k m o kind d).2.
Proof. intros Hd. destruct kind; cbn [ack_one snd]; apply shrinks_update; done. Qed.

Lemma shrinks_ack_each now lock k m first last types : ∀ i d,
  shares_ok d → shrinks d (ack_each now lock k m first last i types d).2.
Proof.
  induction types as [|kind ts IH]; intros i d Hd; cbn [ack_each]; [apply shrinks_refl |].
  destruct (last <? _); [apply shrinks_refl |]. unfold bind.
  pose proof (shrinks_ack_one now lock k m (wrap_i 64 (first + i)) kind d Hd) as H1.
  pose proof (ack_one_ok now lock k m (wrap_i 64 (first + i)) kind d Hd) as H2.
  destruct (ack_one _ _ _ _ _ _ d) as [[u|e] d']; cbn [snd] in *; [| done]. eapply shrinks_trans; [done |]. by apply IH.
Qed.

Lemma shrinks_acknowledge now lock k m first last types d :
  shares_ok d → shrinks d (acknowledge now lock k m first last types d).2.
Proof.
  intros Hd. unfold acknowledge. destruct (last <? first); [apply shrinks_refl |].
  assert (Hadv : ∀ (st : ST Shares AckError unit), shrinks d (st d).2 →
    shrinks d (bind st (λ _ d, (Ok tt, advance_start_offset k d)) d).2).
  { intros st Hst. unfold bind. destruct (st d) as [[u|e] d']; cbn [snd] in *; [| done].
    eapply shrinks_trans; [done |]. apply shrinks_advance. }
  destruct types as [|kind [|]]; try (apply Hadv; by apply shrinks_ack_each).
  destruct (first <? last); apply Hadv; [| by apply shrinks_ack_each].
  rewrite ack_range_state. destruct kind; cbn [range_update]; by apply shrinks_update.
Qed.

Lemma shrinks_quiet d d' : quiet_step d d' → shares_ok d → shrinks d d'.
Proof.
  destruct 1; intros Hd.
  - by apply shrinks_acknowledge.
  - apply shrinks_rewrite; [done |]. intros k o. rewrite rows_release_all.
    case_decide; [unfold hand_back_rows; rewrite lookup_fmap |]; destruct (rows_of k d !! o) as [r|]; cbn; try same_row.
    unfold hand_back. case_decide; [cbn; intros; split; [tauto | lia] | same_row].
  - destruct (expire_tables now alive d) as [Es Er]. apply shrinks_rewrite; [done |]. intros k o. rewrite Er.
    destruct (rows_of k d !! o) as [r|]; cbn; [| done]. case_decide; same_row.
  - exact (shrinks_refl d).
  - exact (shrinks_refl d).
Qed.

(** A run of deliveries, with what was handed out along it, in order. *)
Inductive run : Shares → list (SharePartition * Z) → Shares → Prop :=
| run_start d : run d [] d
| run_acquire now lock k m upto limit d log d' :
    run d log d' →
    run d (log ++ ((λ o, (k, o)) <$> (acquire now lock k m (start_offset k d') upto limit d').1))
      (acquire now lock k m (start_offset k d') upto limit d').2
| run_quiet d log d' d'' : run d log d' → quiet_step d' d'' → run d log d''.

Definition times (at_ : SharePartition * Z) (log : list (SharePartition * Z)) : Z :=
  Z.of_nat (length (filter (λ e, e = at_) log)).

(** The counts of the table cover what was handed out. *)
Definition covers (log : list (SharePartition * Z)) d : Prop := ∀ k o,
  times (k, o) log ≤ MAX_DELIVERY_ATTEMPTS ∧
  match rows_of k d !! o with
  | Some r => if_state r = Acquired → times (k, o) log ≤ if_count r
  | None => times (k, o) log = 0 ∨ o < start_offset k d
  end.

Lemma covers_shrinks log d d' : shrinks d d' → covers log d → covers log d'.
Proof.
  intros Hs Hc k o. destruct (Hs k) as [Hst Hr]. specialize (Hr o). destruct (Hc k o) as [Hmax Hrow]. split; [done |].
  destruct (rows_of k d !! o) as [r|], (rows_of k d' !! o) as [r'|]; try done.
  - intros Ha. destruct (Hr Ha) as [Ha' Hle]. specialize (Hrow Ha'). lia.
  - by right.
  - destruct Hrow; [by left | right; lia].
Qed.

Lemma times_app at_ l l' : times at_ (l ++ l') = times at_ l + times at_ l'.
Proof. unfold times. rewrite filter_app, length_app. lia. Qed.

Lemma times_out (k k' : SharePartition) o out : NoDup out →
  times (k', o) ((λ o, (k, o)) <$> out) = if decide (k' = k ∧ o ∈ out) then 1 else 0.
Proof.
  unfold times. induction 1 as [|x l Hx _ IH]; cbn [fmap list_fmap].
  { rewrite decide_False; [done |]. intros [_ H]. by apply not_elem_of_nil in H. }
  rewrite filter_cons. destruct (decide ((k, x) = (k', o))) as [[= <- <-]|Hne]; cbn [length].
  - rewrite Nat2Z.inj_succ, IH. rewrite decide_False by tauto.
    by rewrite decide_True by (split; [done | apply list_elem_of_here]).
  - rewrite IH. apply decide_ext. rewrite elem_of_cons. split; [tauto |]. intros [-> [->|]]; [congruence | tauto].
Qed.

Lemma covers_acquire now lock k m upto limit log d :
  covers log d →
  covers (log ++ ((λ o, (k, o)) <$> (acquire now lock k m (start_offset k d) upto limit d).1))
    (acquire now lock k m (start_offset k d) upto limit d).2.
Proof.
  intros Hc. destruct (decide (open_ now k d)) as [Hopen|Hclosed].
  2: { rewrite acquire_closed by done. cbn [fst snd fmap list_fmap]. by rewrite app_nil_r. }
  destruct (acquire_out_length now lock k m upto limit d Hopen) as [_ Hnd].
  destruct (acquire_open now lock k m (start_offset k d) upto limit d Hopen) as [Hout (rows' & -> & Hrows)].
  apply (covers_shrinks _ (set_rows k rows' d)); [apply shrinks_advance |].
  intros k' o. rewrite times_app, times_out, rows_set, start_set_rows by done.
  destruct (Hc k' o) as [Hmax Hrow]. destruct (decide (k' = k)) as [->|Hk].
  2: { rewrite decide_False by tauto. rewrite Z.add_0_r. done. }
  rewrite Hout. rewrite Hrows. case_decide as Ho.
  - destruct Ho as [_ [Hdel Ho]%list_elem_of_filter]. rewrite (decide_True (P := o ∈ _)) by done.
    destruct (wanted_spec now k upto limit d o Ho) as [Hrange Hav]. unfold deliverable in Hdel. unfold available in Hav.
    unfold next_row. destruct (rows_of k d !! o) as [r|]; cbn [if_count].
    + rewrite decide_True by done. specialize (Hrow (proj1 Hav)). rewrite (proj2 (Z.ltb_ge _ _)) by lia. cbn [if_count]. lia.
    + assert (times (k, o) log = 0) as -> by lia. split; [done | intros _; lia].
  - rewrite Z.add_0_r. split; [done |]. case_decide as Hw; [| done].
    destruct (next_row now lock m (rows_of k d !! o)) as [r|] eqn:En.
    + intros Ha. destruct Ho. split; [done |]. apply list_elem_of_filter. split; [| done].
      by apply (next_row_deliverable now lock m _ _ r En).
    + destruct (wanted_spec now k upto limit d o Hw) as [_ Hav].
      destruct (next_row_available now lock m _ _ Hav) as [r Hr]. congruence.
Qed.

Lemma run_covers d log d' : run d log d' → shares_ok d → covers [] d → shares_ok d' ∧ covers log d'.
Proof.
  intros Hrun Hd H0. induction Hrun as [|now lock k m upto limit d log d' _ IH|d log d' d'' _ IH Hq].
  - done.
  - destruct (IH Hd H0) as [Hd' Hc]. split; [by apply acquire_ok | by apply covers_acquire].
  - destruct (IH Hd H0) as [Hd' Hc]. split; [by apply (delivery_ok d'); [by constructor |] |].
    apply (covers_shrinks _ d'); [by apply shrinks_quiet | done].
Qed.

Lemma fresh_covers d : shares_ok d → covers [] d.
Proof.
  intros Hd k o. split; [done |]. destruct (rows_of k d !! o) as [r|] eqn:E; [| by left].
  intros _. destruct (ok_part _ Hd k o r E) as [_ [H1 _]]. unfold times. cbn. lia.
Qed.

(** A record is handed out at most [MAX_DELIVERY_ATTEMPTS] times, to all members
    together, however deliveries, acknowledgements, releases, lapses and sweeps
    are interleaved, unless an operator moves the group back: a record no member
    can process does not cycle for ever. *)
Theorem share_delivery_bounded d log d' :
  shares_ok d → run d log d' → ∀ k o, times (k, o) log ≤ MAX_DELIVERY_ATTEMPTS.
Proof.
  intros Hd Hrun k o. destruct (run_covers d log d' Hrun Hd (fresh_covers d Hd)) as [_ Hc]. apply Hc.
Qed.

(** ** Two members on one partition *)

Definition queue : SharePartition := ("workers"%string, (1, 0)).
(** [a] takes records 0 to 2 and accepts the first. *)
Definition a_holds : Shares := (acquire 0 30000 queue "a" (start_offset queue no_shares) 2 10 no_shares).2.
Definition a_works : Shares := (acknowledge 5 30000 queue "a" 0 0 [Accept] a_holds).2.

Lemma a_works_steps : rtc share_step no_shares a_works.
Proof.
  eapply rtc_l; [apply step_delivery, (by_acquire 0 30000 queue "a" 2 10) |].
  apply rtc_once, step_delivery, by_quiet, (by_acknowledge 5 30000 queue "a" 0 0 [Accept]).
Qed.

Lemma share_tables_invariant_witness :
  start_offset queue a_works = 1 ∧ rows_of queue a_works !! 0 = None ∧ shares_ok a_works.
Proof.
  split; [vm_compute; reflexivity |]. split; [vm_compute; reflexivity |].
  exact (share_tables_invariant no_shares a_works no_shares_ok a_works_steps).
Defined.

(** [b] gets what [a] does not hold, and after [a]'s lock has lapsed, that too. *)
Lemma acquire_exclusive_witness :
  (acquire 10 30000 queue "b" (start_offset queue a_works) 4 10 a_works).1 = [3; 4] ∧
  (acquire 30000 30000 queue "b" (start_offset queue a_works) 4 10 a_works).1 = [1; 2; 3; 4] ∧
  ∀ k o r, rows_of k a_works !! o = Some r → live 10 r →
    rows_of k (acquire 10 30000 queue "b" (start_offset queue a_works) 4 10 a_works).2 !! o = Some r.
Proof.
  split; [vm_compute; reflexivity |]. split; [vm_compute; reflexivity |].
  pose proof (acquire_exclusive 10 30000 queue "b" 4 10 a_works
    (share_steps_ok no_shares a_works a_works_steps no_shares_ok)) as H.
  rewrite (surjective_pairing (acquire _ _ _ _ _ _ _ _)) in H. exact (proj1 (proj2 H)).
Defined.

(** Record 0 is taken and given back at once. *)
Fixpoint retries (n : nat) (d : Shares) : Shares :=
  match n with
  | O => d
  | S n' => retries n' (release_all "workers" "a" (acquire 0 30000 queue "a" (start_offset queue d) 0 1 d).2)
  end.

Lemma retries_run n : ∀ log d, run no_shares log d → ∃ log', run no_shares log' (retries n d).
Proof.
  induction n as [|n IH]; intros log d Hrun; [by exists log |]. cbn [retries]. eapply IH.
  eapply run_quiet; [| apply (by_release_all "workers" "a")]. by apply (run_acquire 0 30000 queue "a" 0 1).
Qed.

Lemma share_delivery_bounded_witness :
  (acquire 0 30000 queue "a" (start_offset queue (retries 4 no_shares)) 0 1 (retries 4 no_shares)).1 = [0] ∧
  (acquire 0 30000 queue "a" (start_offset queue (retries 5 no_shares)) 0 1 (retries 5 no_shares)).1 = [] ∧
  start_offset queue (retries 6 no_shares) = 1 ∧
  ∃ log, run no_shares log (retries 6 no_shares) ∧ ∀ k o, times (k, o) log ≤ MAX_DELIVERY_ATTEMPTS.
Proof.
  split; [vm_compute; reflexivity |]. split; [vm_compute; reflexivity |]. split; [vm_compute; reflexivity |].
  destruct (retries_run 6 [] no_shares (run_start _)) as [log Hlog]. exists log. split; [done |].
  exact (share_delivery_bounded no_shares log (retries 6 no_shares) no_shares_ok Hlog).
Defined.
