(* ===== verification/ShareWedge.v ===== *)
(** * Share groups: a partition that cannot move again

    [acquire] hands nothing out once a share partition has [MAX_INFLIGHT_ROWS]
    rows, also not the head record when its holder gave it up, and only that
    record could move the start.  This file shows that such a state is reached by
    ordinary deliveries, and that nothing members or the sweep do leads out of
    it. *)

From stdpp Require Import gmap sorting strings.
From S2P Require Import Prelude Errors Share ShareSpec.

(** ** A partition at its row limit *)

Definition same_part (k : SharePartition) d d' : Prop :=
  rows_of k d' = rows_of k d ∧ start_offset k d' = start_offset k d.

Lemma same_part_trans k d1 d2 d3 : same_part k d1 d2 → same_part k d2 d3 → same_part k d1 d3.
Proof. intros [A B] [C D]. split; congruence. Qed.

(** The limit is reached, nobody holds a record, and the head is not finished. *)
Record stuck (k : SharePartition) d : Prop := mk_stuck {
  st_full : MAX_INFLIGHT_ROWS ≤ count (rows_of k d);
  st_free : ∀ o r, rows_of k d !! o = Some r → if_member r = None;
  st_head : ∀ r, rows_of k d !! start_offset k d = Some r → ¬ finished r }.

Lemma stuck_same k d d' : same_part k d d' → stuck k d → stuck k d'.
Proof. intros [E1 E2] [H1 H2 H3]. split; rewrite ?E1, ?E2; auto. Qed.

Lemma update_held_idle k m a b sel f d k' : stuck k' d → same_part k' d (update_held k m a b sel f d).2.
Proof.
  intros Hst. split; [| done]. cbn [update_held snd]. rewrite rows_set. case_decide as Hk; [subst k' | done].
  apply map_eq. intros o. rewrite map_lookup_imap. destruct (rows_of k d !! o) as [r|] eqn:E; [| done]. cbn.
  rewrite decide_False; [done |]. intros (_ & Hm & _). rewrite (st_free _ _ Hst o r E) in Hm. done.
Qed.

(** Nothing moves while the head is not finished. *)
Lemma advance_still k d :
  (∀ r, rows_of k d !! start_offset k d = Some r → ¬ finished r) →
  (∀ o r, rows_of k d !! o = Some r → start_offset k d ≤ o) → same_part k d (advance_start_offset k d).
Proof.
  intros Hh Hr. assert (E : start_offset k (advance_start_offset k d) = start_offset k d).
  { apply (first_unfinished_unique (start_offset k d) (rows_of k d)); [apply advance_start |].
    split; [lia |]. split; [intros; lia | apply Hh]. }
  split; [| done]. apply map_eq. intros o. rewrite advance_rows, E. case_decide as Ho; [done |].
  destruct (rows_of k d !! o) as [r|] eqn:Er; [| done]. destruct Ho. by apply (Hr o r).
Qed.

Lemma advance_idle k d k' : stuck k' d → shares_ok d → same_part k' d (advance_start_offset k d).
Proof.
  intros Hst Hd. destruct (decide (k' = k)) as [->|Hk]; [| by destruct (advance_other k d k' Hk)].
  apply advance_still; [apply (st_head _ _ Hst) |]. intros o r Hr. by destruct (ok_part _ Hd k o r Hr).
Qed.

Lemma ack_one_idle now lock k m o kind d k' : stuck k' d → same_part k' d (ack_one now lock k m o kind d).2.
Proof. intros Hst. destruct kind; cbn [ack_one snd]; by apply update_held_idle. Qed.

Lemma ack_each_idle now lock k m first last types k' : ∀ i d,
  stuck k' d → same_part k' d (ack_each now lock k m first last i types d).2.
Proof.
  induction types as [|kind ts IH]; intros i d Hst; cbn [ack_each]; [done |].
  destruct (last <? _); [done |]. unfold bind.
  pose proof (ack_one_idle now lock k m (wrap_i 64 (first + i)) kind d k' Hst) as H1.
  destruct (ack_one _ _ _ _ _ _ d) as [[u|e] d']; cbn [snd] in *; [| done].
  eapply same_part_trans; [done |]. apply IH. by eapply stuck_same.
Qed.

Lemma acknowledge_idle now lock k m first last types d k' :
  stuck k' d → shares_ok d → same_part k' d (acknowledge now lock k m first last types d).2.
Proof.
  intros Hst Hd. unfold acknowledge. destruct (last <? first); [done |].
  assert (Hadv : ∀ (st : ST Shares AckError unit), same_part k' d (st d).2 → shares_ok (st d).2 →
    same_part k' d (bind st (λ _ d, (Ok tt, advance_start_offset k d)) d).2).
  { intros st Hs Hok. unfold bind. destruct (st d) as [[u|e] d']; cbn [snd] in *; [| done].
    eapply same_part_trans; [done |]. apply advance_idle; [by eapply stuck_same | done]. }
  destruct types as [|kind [|]]; try (apply Hadv; [by apply ack_each_idle | by apply ack_each_ok]).
  destruct (first <? last); apply Hadv; [| by apply ack_range_ok | by apply ack_each_idle | by apply ack_each_ok].
  rewrite ack_range_state. destruct kind; cbn [range_update]; by apply update_held_idle.
Qed.

Lemma acquire_idle now lock k m upto limit d k' :
  stuck k' d → same_part k' d (acquire now lock k m (start_offset k d) upto limit d).2.
Proof.
  intros Hst. destruct (decide (open_ now k d)) as [Hopen|Hclosed]; [| by rewrite acquire_closed].
  destruct (acquire_open now lock k m (start_offset k d) upto limit d Hopen) as [_ (rows' & -> & _)].
  destruct (decide (k' = k)) as [->|Hk].
  - destruct Hopen as [Hc _], Hst as [Hf _ _]. lia.
  - destruct (advance_other k (set_rows k rows' d) k' Hk) as [E1 E2]. split; [rewrite E2 | done]. by apply rows_set_ne.
Qed.

Lemma delivery_idle d d' k : delivery d d' → stuck k d → shares_ok d → same_part k d d'.
Proof.
  destruct 1 as [|d d' Hq]; intros Hst Hd; [by apply acquire_idle |]. destruct Hq.
  - by apply acknowledge_idle.
  - split; [| done]. rewrite rows_release_all. case_decide; [| done]. apply map_eq. intros o.
    unfold hand_back_rows. rewrite lookup_fmap. destruct (rows_of k d !! o) as [r|] eqn:E; [| done]. cbn.
    unfold hand_back. rewrite decide_False; [done |]. rewrite (st_free _ _ Hst o r E). by intros [? _].
  - destruct (expire_tables now alive d) as [Es Er]. split; [| unfold start_offset; by rewrite Es].
    apply map_eq. intros o. rewrite Er. case_decide as Hin; [| by rewrite option_fmap_id].
    destruct (swept_spec now d k o Hin) as (r & t & Hr & Hs & Ht & _). destruct (ok_part _ Hd k o r Hr) as [_ [_ Hok]].
    rewrite Hs in Hok. destruct Hok as [_ Hiff]. destruct (proj2 Hiff) as [m Hm]; [by rewrite Ht |].
    rewrite (st_free _ _ Hst o r Hr) in Hm. done.
  - done.
  - done.
Qed.

Lemma stuck_for_ever d d' k : rtc delivery d d' → stuck k d → shares_ok d → same_part k d d' ∧ stuck k d'.
Proof.
  induction 1 as [|d d1 d' Hstep _ IH]; intros Hst Hd; [done |].
  pose proof (delivery_idle _ _ k Hstep Hst Hd) as Hsame. pose proof (delivery_ok _ _ Hstep Hd) as Hd1.
  destruct (IH (stuck_same _ _ _ Hsame Hst) Hd1) as [H1 H2]. split; [by eapply same_part_trans | done].
Qed.

(** ** How it is reached

    Member [a] holds record 0; member [b] takes and accepts the records after it,
    one by one. *)

Definition held_row : Inflight := mk_inflight Acquired 1 (Some "a"%string) (Some 30000).
Definition done_row : Inflight := mk_inflight Acked 1 None None.

(** Record 0 is held, [n] records after it are done. *)
Definition backlog (n : Z) d : Prop := start_offset queue d = 0 ∧
  ∀ o, rows_of queue d !! o =
    if decide (o = 0) then Some held_row else if decide (1 ≤ o ≤ n) then Some done_row else None.

Lemma backlog_count n d : 0 ≤ n → backlog n d → count (rows_of queue d) = n + 1.
Proof.
  intros Hn [_ Hr]. unfold count. rewrite <- (size_dom (D := gset Z)).
  replace (dom (rows_of queue d)) with (list_to_set (seqZ 0 (n + 1)) : gset Z).
  - rewrite size_list_to_set by apply NoDup_seqZ. rewrite length_seqZ. lia.
  - apply set_eq. intros o. rewrite elem_of_list_to_set, elem_of_seqZ, elem_of_dom, Hr.
    repeat case_decide; split; intros Hx; try (by eauto); try lia; by destruct Hx.
Qed.

Lemma backlog_held n d : backlog n d → held 0 (rows_of queue d) = 1.
Proof.
  intros [_ Hr]. unfold held.
  replace (filter (λ e : Z * Inflight, live 0 e.2) (rows_of queue d)) with ({[0 := held_row]} : Rows).
  { by rewrite map_size_singleton. }
  apply map_eq. intros o. destruct (decide (o = 0)) as [->|Ho].
  - rewrite lookup_singleton_eq. symmetry. apply map_lookup_filter_Some. rewrite Hr. by rewrite decide_True.
  - rewrite lookup_singleton_ne by done. symmetry. apply map_lookup_filter_None. rewrite Hr, decide_False by done.
    case_decide; [right | by left]. intros r [= <-] [Hs _]. discriminate.
Qed.

(** The next record is the one free record. *)
Lemma backlog_taken n d : 0 ≤ n → backlog n d → taken 0 queue 0 (n + 1) 1 d = [n + 1].
Proof.
  intros Hn Hb. unfold taken, allowance, room. rewrite (backlog_held n d Hb).
  replace (Z.min (clamp 1 MAX_ACQUIRE_PER_FETCH 1) (MAX_RECORD_LOCKS - 1)) with 1 by done. destruct Hb as [_ Hr].
  unfold candidates. replace (n + 1 - 0 + 1) with ((n + 1) + 1) by lia. rewrite seqZ_app by lia. rewrite filter_app, filter_none.
  - rewrite Z.add_0_l. cbn [app]. rewrite (seqZ_cons (n + 1) 1) by lia. rewrite seqZ_nil by lia.
    rewrite filter_cons, decide_True; [done |]. unfold available. rewrite Hr, !decide_False by lia. done.
  - apply Forall_forall. intros o Ho%elem_of_seqZ. unfold available. rewrite Hr.
    repeat case_decide; try lia; intros [Hs Hl]; discriminate.
Qed.

(** One acknowledgement of one record the member holds. *)
Definition acked_row (kind : Ack) (r : Inflight) : Inflight :=
  match kind with Accept => finish_row Acked r | _ => release_row r end.

Lemma acknowledge_one now lock k m o kind d r :
  kind = Accept ∨ kind = Release → 0 ≤ o < MAX_INFLIGHT_ROWS → rows_of k d !! o = Some r → if_member r = Some m →
  ∃ d', (acknowledge now lock k m o o [kind] d).2 = advance_start_offset k d' ∧ start_offset k d' = start_offset k d ∧
    ∀ o', rows_of k d' !! o' = if decide (o' = o) then Some (acked_row kind r) else rows_of k d !! o'.
Proof.
  intros Hkind Ho Hr Hm. unfold acknowledge. rewrite Z.ltb_irrefl. cbn [ack_each].
  rewrite (wrap_i_small 64) by (unfold MAX_INFLIGHT_ROWS in *; lia). rewrite Z.add_0_r, Z.ltb_irrefl.
  assert (Hrows : ∀ f o', rows_of k (update_held k m o o any_row f d).2 !! o' =
    if decide (o' = o) then Some (f r) else rows_of k d !! o').
  { intros f o'. cbn [update_held snd]. rewrite rows_set_eq, map_lookup_imap. case_decide as E.
    - subst o'. rewrite Hr. cbn. rewrite decide_True; [done |]. split; [lia | done].
    - destruct (rows_of k d !! o') as [r'|]; [| done]. cbn. rewrite decide_False; [done |]. intros [? _]. lia. }
  assert (Hchanged : ((update_held k m o o any_row (finish_row Acked) d).1 =? 0) = false).
  { apply Z.eqb_neq. cbn [update_held fst]. intros E. assert (Hz : size (filter (λ e : Z * Inflight,
      hit m o o any_row e.1 e.2) (rows_of k d)) = 0%nat) by lia. apply map_size_empty_inv in Hz.
    assert (Hin : filter (λ e : Z * Inflight, hit m o o any_row e.1 e.2) (rows_of k d) !! o = Some r).
    { apply map_lookup_filter_Some. split; [done |]. split; [cbn; lia | done]. }
    by rewrite Hz, lookup_empty in Hin. }
  destruct Hkind as [-> | ->]; cbn [ack_one]; unfold bind, set_state.
  - rewrite (surjective_pairing (update_held _ _ _ _ _ _ _)), Hchanged. cbn [ret snd].
    exists (update_held k m o o any_row (finish_row Acked) d).2. split_and!; [done | done | apply Hrows].
  - cbn [ret snd]. exists (update_held k m o o any_row release_row d).2. split_and!; [done | done | apply Hrows].
Qed.

Lemma backlog_next n d : 0 ≤ n → n + 1 < MAX_INFLIGHT_ROWS → backlog n d → ∃ d', rtc delivery d d' ∧ backlog (n + 1) d'.
Proof.
  intros Hn Hlim Hb. pose proof (backlog_count n d Hn Hb) as Hcount. pose proof (backlog_held n d Hb) as Hheld.
  pose proof (backlog_taken n d Hn Hb) as Htaken. destruct Hb as [Hs Hr].
  assert (Hopen : open_ 0 queue d) by (unfold open_, room; rewrite Hcount, Hheld; done).
  destruct (acquire_open 0 30000 queue "b" 0 (n + 1) 1 d Hopen) as [_ (rows' & E & Hrows)].
  rewrite Htaken in Hrows.
  assert (Hr' : ∀ o, rows' !! o = if decide (o = n + 1) then Some (mk_inflight Acquired 1 (Some "b"%string) (Some 30000))
    else rows_of queue d !! o).
  { intros o. rewrite Hrows. destruct (decide (o = n + 1)) as [->|Ho].
    - rewrite decide_True by apply list_elem_of_here. rewrite Hr, !decide_False by lia. done.
    - by rewrite decide_False by (rewrite list_elem_of_singleton; done). }
  set (d1 := (acquire 0 30000 queue "b" (start_offset queue d) (n + 1) 1 d).2).
  assert (Hd1 : same_part queue (set_rows queue rows' d) d1).
  { subst d1. rewrite Hs, E. apply advance_still; rewrite rows_set_eq, start_set_rows, Hs.
    - intros r. rewrite Hr', Hr. rewrite decide_False, decide_True by lia. intros [= <-] [H|H]; discriminate.
    - intros o r. rewrite Hr', Hr. repeat case_decide; try lia. done. }
  destruct Hd1 as [Hrows1 Hstart1]. rewrite rows_set_eq in Hrows1. rewrite start_set_rows, Hs in Hstart1.
  destruct (acknowledge_one 0 30000 queue "b" (n + 1) Accept d1 (mk_inflight Acquired 1 (Some "b"%string) (Some 30000)))
    as (d2 & E2 & Hs2 & Hr2); [by left | lia | | done |].
  { rewrite Hrows1, Hr'. by rewrite decide_True. }
  assert (Hb2 : backlog (n + 1) d2).
  { split; [congruence |]. intros o. rewrite Hr2, Hrows1, Hr', Hr. repeat case_decide; try lia; done. }
  exists (advance_start_offset queue d2). split.
  - eapply rtc_l; [apply (by_acquire 0 30000 queue "b" (n + 1) 1) |]. fold d1. rewrite <- E2.
    apply rtc_once, by_quiet, by_acknowledge.
  - destruct Hb2 as [H1 H2]. destruct (advance_still queue d2) as [H3 H4]; rewrite ?H1.
    + intros r. rewrite H2, decide_True by done. intros [= <-] [H|H]; discriminate.
    + intros o r. rewrite H2. repeat case_decide; try lia. done.
    + split; [congruence |]. intros o. rewrite H3. apply H2.
Qed.

Lemma backlog_reached (n : nat) : Z.of_nat n < MAX_INFLIGHT_ROWS → ∃ d, rtc delivery no_shares d ∧ backlog (Z.of_nat n) d.
Proof.
  induction n as [|n IH]; intros Hn.
  - exists (acquire 0 30000 queue "a" (start_offset queue no_shares) 0 1 no_shares).2. split; [apply rtc_once, by_acquire |].
    replace (acquire 0 30000 queue "a" (start_offset queue no_shares) 0 1 no_shares).2
      with (mk_shares ∅ ∅ {[queue := 0]} {[queue := {[0 := held_row]}]}) by (vm_compute; reflexivity).
    split; [vm_compute; reflexivity |]. change (rows_of queue _) with ({[0 := held_row]} : Rows). intros o. case_decide as Ho; [subst o; by rewrite lookup_singleton_eq |].
    rewrite lookup_singleton_ne by done. by rewrite decide_False by lia.
  - destruct IH as (d & Hd & Hb); [lia |]. destruct (backlog_next (Z.of_nat n) d) as (d' & Hd' & Hb'); [lia | lia | done |].
    exists d'. split; [by etrans |]. by replace (Z.of_nat (S n)) with (Z.of_nat n + 1) by lia.
Qed.

Lemma stuck_reached : ∃ d, rtc delivery no_shares d ∧ stuck queue d ∧
  rows_of queue d !! start_offset queue d = Some (release_row held_row).
Proof.
  destruct (backlog_reached (Z.to_nat 49999)) as (d & Hd & Hb); [done |]. rewrite Z2Nat.id in Hb by done.
  pose proof (backlog_count 49999 d ltac:(done) Hb) as Hcount. destruct Hb as [Hs Hr].
  destruct (acknowledge_one 0 30000 queue "a" 0 Release d held_row) as (d1 & E & Hs1 & Hr1); [by right | done | | done |].
  { by rewrite Hr, decide_True. }
  rewrite Hs in Hs1. destruct (advance_still queue d1) as [H1 H2]; rewrite ?Hs1.
  { intros r. rewrite Hr1, decide_True by done. intros [= <-] [H|H]; discriminate. }
  { intros o r. rewrite Hr1, Hr. repeat case_decide; try lia. done. }
  assert (Hhead : rows_of queue d1 !! 0 = Some (release_row held_row)) by (by rewrite Hr1, decide_True).
  exists (acknowledge 0 30000 queue "a" 0 0 [Release] d).2. rewrite E, H2, H1, Hs1. split_and!.
  - rewrite <- E. eapply rtc_r; [exact Hd |]. apply by_quiet, by_acknowledge.
  - split; rewrite ?H1, ?H2, ?Hs1.
    + assert (Ec : count (rows_of queue d1) = count (rows_of queue d)).
      { unfold count. f_equal. rewrite <- !(size_dom (D := gset Z)). f_equal. apply set_eq. intros o.
        rewrite !elem_of_dom, Hr1. case_decide as Ho; [subst o | done]. rewrite Hr, decide_True by done. split; eauto. }
      rewrite Ec, Hcount. done.
    + intros o r. rewrite Hr1, Hr. repeat case_decide; intros [= <-]; done.
    + intros r. rewrite Hhead. intros [= <-] [H|H]; discriminate.
  - done.
Qed.

(** A share partition can get stuck for good.  While one member holds the head
    record, others take and finish the records after it; with [MAX_INFLIGHT_ROWS]
    rows there, the holder gives its record back (or its lock lapses).  The record
    is available, but [acquire] refuses at the row limit before it looks: from
    then on, whatever members and the sweep do and however much time passes,
    every request gets nothing and the start does not move. *)
Theorem share_partition_wedges :
  ∃ d, rtc delivery no_shares d ∧ available 0 (rows_of queue d) (start_offset queue d) ∧
    ∀ d', rtc delivery d d' → same_part queue d d' ∧
      ∀ now lock m upto limit, (acquire now lock queue m (start_offset queue d') upto limit d').1 = [].
Proof.
  destruct stuck_reached as (d & Hd & Hst & Hhead). exists d. split_and!; [done | |].
  - unfold available. rewrite Hhead. done.
  - intros d' Hd'. assert (Hok : shares_ok d).
    { apply (share_steps_ok no_shares); [| apply no_shares_ok]. eapply rtc_subrel; [| exact Hd]. intros x y Hxy. by constructor. }
    destruct (stuck_for_ever d d' queue Hd' Hst Hok) as [Hsame Hst']. split; [done |]. intros.
    rewrite acquire_closed; [done |]. intros [Hc _]. destruct Hst' as [Hf _ _]. lia.
Qed.
