(* ===== verification/Table.v ===== *)
(** * extension/src/storage/table.rs: the table engine

    The log of a partition is rows of [kafgres_log], one per batch, keyed by the
    base offset and split into segments, range partitions of the table over
    [segment_offsets] offsets each; [kafgres_log_segments] has a row per segment.
    A segment is dropped as a whole, rows and all.

    [TPart] is what the engine keeps of a partition besides the tables of Pmeta.v:
    [next_offset], the log rows and the segment rows.  Of a log row the columns
    the engine reads are kept; [lr_raw] is the batch as it was given to [append],
    whose other columns it carries.  [size] is [kafgres.segment_offsets], [now] is
    [now_millis()], [ongoing] tells the producers whose transaction is open. *)

From stdpp Require Import gmap sorting.
From S2P Require Import Prelude Errors Records RecordIter Build Cleaner Pmeta Store Config.

Definition MAX_SEGMENT_DROPS : nat := 32.
(** [LIMIT] of the statement of [read]. *)
Definition ROWS_PER_READ : nat := 1000.

Record LogRow : Type := mk_logrow {
  lr_last : Z;
  lr_batch : bytes;
  lr_append_ts : Z;
  lr_max_timestamp : Z;
  lr_raw : RawBatch }.

Record SegmentRow : Type := mk_segment {
  sg_end : Z;
  sg_max_last : Z;
  sg_max_ts : Z;
  sg_bytes : Z }.

Record TPart : Type := mk_tpart {
  tp_next : Z;
  tp_rows : gmap Z LogRow;
  tp_segments : gmap Z SegmentRow }.

Record Table : Type := mk_table {
  tb_meta : Meta;
  tb_parts : gmap (Z * Z) TPart }.

Definition set_part (p : Z * Z) (part : TPart) (t : Table) : Table :=
  mk_table (tb_meta t) (<[p := part]> (tb_parts t)).
Definition set_meta (f : Meta → Meta) (t : Table) : Table := mk_table (f (tb_meta t)) (tb_parts t).

(** [ORDER BY base_offset]. *)
Definition by_base {A} (a b : Z * A) : Prop := a.1 ≤ b.1.
#[export] Instance by_base_dec {A} : RelDecision (by_base (A := A)).
Proof. intros a b. unfold by_base. apply _. Defined.
Definition in_order {A} (m : gmap Z A) : list (Z * A) := merge_sort by_base (map_to_list m).

(** ** Reading: the types of storage/mod.rs *)

Inductive IsolationLevel : Type := ReadUncommitted | ReadCommitted.

Record FetchSlice : Type := mk_slice {
  fs_bytes : bytes;
  fs_next : Z;
  fs_high_watermark : Z;
  fs_log_start : Z;
  fs_last_stable : Z;
  fs_aborted : list (Z * Z) }.

Section Engine.

Variable crc32c : bytes → Z.
Variable entry_size : Z.
Variable open_decoder : Z → bytes → result BatchError (bytes * option BatchError).
Variable size : Z.
Variable now : Z.
Variable ongoing : Z → bool.

Definition segment_index (offset : Z) : Z := offset `div` size.
Definition segment_base (offset : Z) : Z := segment_index offset * size.

(** The segment of an offset, made when it is not there. *)
Definition ensure_segment (offset : Z) (part : TPart) : TPart :=
  let lo := segment_base offset in
  match tp_segments part !! lo with
  | Some _ => part
  | None => mk_tpart (tp_next part) (tp_rows part) (<[lo := mk_segment (lo + size) (-1) 0 0]> (tp_segments part))
  end.

Definition grow_segment (last ts bytes_ : Z) (s : SegmentRow) : SegmentRow :=
  mk_segment (sg_end s) (Z.max (sg_max_last s) last) (Z.max (sg_max_ts s) ts) (sg_bytes s + bytes_).

(** The [INSERT] of a batch and the [UPDATE] of its segment. *)
Definition insert_row (base : Z) (r : LogRow) (part : TPart) : TPart :=
  mk_tpart (tp_next part) (<[base := r]> (tp_rows part))
    (alter (grow_segment (lr_last r) (lr_append_ts r) (len (lr_batch r))) (segment_base base) (tp_segments part)).

Definition table_append (p : Z * Z) (b : RawBatch) : ST Table StoreError Z := λ t,
  match tb_parts t !! p with
  | None => (Err UnknownTopicOrPartition, t)
  | Some part =>
      let epoch := match leader_epoch p (tb_meta t) with Ok e => e | Err _ => 0 end in
      let base := tp_next part in
      let last := base + rw_last_offset_delta b in
      match validated crc32c (rw_bytes b) with
      | Err _ => (Err CorruptBatch, t)
      | Ok view =>
          let row := mk_logrow last (Records.stamp view base epoch) now (rw_max_timestamp b) b in
          let part := ensure_segment base part in
          let part := if segment_index last =? segment_index base then part else ensure_segment last part in
          let part := insert_row base row part in
          (Ok base, set_part p (mk_tpart (last + 1) (tp_rows part) (tp_segments part)) t)
      end
  end.

Definition table_high_watermark (p : Z * Z) (t : Table) : result StoreError Z :=
  match tb_parts t !! p with Some part => Ok (tp_next part) | None => Err UnknownTopicOrPartition end.

(** [stable_bound]. *)
Definition stable_bound (p : Z * Z) (high_watermark : Z) (t : Table) : Z :=
  match kafka_txn_lso ongoing p (tb_meta t) with
  | Some o => if 0 <=? o then Z.min o high_watermark else high_watermark
  | None => high_watermark
  end.
Definition table_last_stable_offset (p : Z * Z) (t : Table) : result StoreError Z :=
  let? hw := table_high_watermark p t in Ok (stable_bound p hw t).

(** The statement of [read]: from the batch that contains the offset, or from the
    offset, up to the ceiling. *)
Definition contains_offset (offset : Z) (e : Z * LogRow) : Prop := e.1 ≤ offset ≤ lr_last e.2.
#[export] Instance contains_offset_dec o e : Decision (contains_offset o e) := _.
Definition first_base (offset : Z) (rows : gmap Z LogRow) : Z :=
  default offset (sql_max (filter (contains_offset offset) (map_to_list rows)).*1).
Definition select_rows (offset ceiling : Z) (rows : gmap Z LogRow) : list (Z * LogRow) :=
  take ROWS_PER_READ (filter (λ e, first_base offset rows ≤ e.1 < ceiling) (in_order rows)).

(** The loop over the rows: whole batches, at least one. *)
Fixpoint fill (max_bytes : Z) (l : list (Z * LogRow)) (acc : bytes) (next : Z) : bytes * Z :=
  match l with
  | [] => (acc, next)
  | (_, r) :: l' =>
      if (0 <? len acc) && (max_bytes <? len acc + len (lr_batch r)) then (acc, next)
      else
        let acc := acc ++ lr_batch r in
        let next := lr_last r + 1 in
        if max_bytes <=? len acc then (acc, next) else fill max_bytes l' acc next
  end.

Definition table_read (p : Z * Z) (offset max_bytes : Z) (iso : IsolationLevel) (t : Table)
    : result StoreError FetchSlice :=
  let? hw := table_high_watermark p t in
  let? start := log_start_offset p (tb_meta t) in
  let lso := stable_bound p hw t in
  let ceiling := match iso with ReadCommitted => lso | ReadUncommitted => hw end in
  if (offset <? start) || (hw <? offset) then Err OffsetOutOfRange
  else if offset <? ceiling then
    let rows := match tb_parts t !! p with Some part => tp_rows part | None => ∅ end in
    let '(bs, next) := fill max_bytes (select_rows offset ceiling rows) [] offset in
    let ab := match iso with
              | ReadCommitted => aborted_txns p offset (Z.max next (offset + 1)) (tb_meta t)
              | ReadUncommitted => []
              end in
    Ok (mk_slice bs next hw start lso ab)
  else Ok (mk_slice [] offset hw start lso []).

(** ** Lookups by time *)

Definition rows_of_part (p : Z * Z) (t : Table) : list (Z * LogRow) :=
  match tb_parts t !! p with Some part => in_order (tp_rows part) | None => [] end.

Definition table_offset_for_timestamp (p : Z * Z) (timestamp : Z) (t : Table) : result StoreError (option (Z * Z)) :=
  Ok (match list_find (λ e : Z * LogRow, timestamp ≤ lr_max_timestamp e.2) (rows_of_part p t) with
      | Some (_, (_, r)) => first_at_or_after entry_size open_decoder (lr_batch r) timestamp
      | None => None
      end).

(** [ORDER BY max_timestamp DESC, base_offset ASC LIMIT 1]. *)
Definition newest_row (l : list (Z * LogRow)) : option (Z * LogRow) :=
  foldl (λ best e,
    match best with
    | Some b => if lr_max_timestamp b.2 <? lr_max_timestamp e.2 then Some e else best
    | None => Some e
    end) None l.
Definition table_max_timestamp_offset (p : Z * Z) (t : Table) : result StoreError (option (Z * Z)) :=
  Ok (match newest_row (rows_of_part p t) with
      | Some (_, r) => offset_of_max_timestamp entry_size open_decoder (lr_batch r)
      | None => None
      end).

(** ** Reclaiming *)

Definition doomed (p : Z * Z) (target : Z) (t : Table) : list Z :=
  match tb_parts t !! p with
  | Some part =>
      (take MAX_SEGMENT_DROPS
         (in_order (filter (λ e : Z * SegmentRow, sg_max_last e.2 < target ∧ sg_end e.2 ≤ tp_next part)
                      (tp_segments part)))).*1
  | None => []
  end.

(** [DROP TABLE] of a segment, and its row. *)
Definition drop_segment (part : TPart) (base : Z) : TPart :=
  match tp_segments part !! base with
  | Some s =>
      mk_tpart (tp_next part) (filter (λ e : Z * LogRow, ¬ (base ≤ e.1 < sg_end s)) (tp_rows part))
        (delete base (tp_segments part))
  | None => part
  end.

Definition set_log_start (p : Z * Z) (offset : Z) (d : Meta) : Meta :=
  match partitions d !! p with
  | Some r => set_partition p (mk_partition offset (pt_leader_epoch r) (pt_epoch_start r)) d
  | None => d
  end.

Definition reclaim (p : Z * Z) (offset : Z) : ST Table StoreError Z := λ t,
  match log_start_offset p (tb_meta t) with
  | Err e => (Err e, t)
  | Ok start =>
      if (offset <=? start) && (length (doomed p start t) =? 0)%nat then (Ok 0, t)
      else
        let target := Z.max offset start in
        let gone := doomed p target t in
        let t := match tb_parts t !! p with
                 | Some part => set_part p (foldl drop_segment part gone) t
                 | None => t
                 end in
        (Ok (Z.of_nat (length gone)),
         set_meta (λ d, forget_aborted_below p target (set_log_start p target d)) t)
  end.

(** The two arms of [retention_cutoff] over the closed segments, in order. *)
Fixpoint time_cutoff (horizon : Z) (l : list (Z * SegmentRow)) (cutoff : Z) : Z :=
  match l with
  | [] => cutoff
  | (_, s) :: l' => if sg_max_ts s <=? horizon then time_cutoff horizon l' (Z.max cutoff (sg_max_last s + 1)) else cutoff
  end.
Fixpoint size_cutoff (over : Z) (l : list (Z * SegmentRow)) (cutoff : Z) : Z :=
  match l with
  | [] => cutoff
  | (_, s) :: l' =>
      if over <=? 0 then cutoff
      else size_cutoff (over - sg_bytes s) l' (Z.max cutoff (sg_max_last s + 1))
  end.

Definition live_bytes (part : TPart) : Z := foldr Z.add 0 ((λ e, sg_bytes e.2) <$> map_to_list (tp_segments part)).
Definition retention_cutoff (p : Z * Z) (policy : RetentionPolicy) (t : Table) : Z :=
  match tb_parts t !! p with
  | None => 0
  | Some part =>
      let segments := in_order (filter (λ e : Z * SegmentRow, sg_end e.2 ≤ tp_next part) (tp_segments part)) in
      let cutoff := match retention_ms policy with
                    | Some ms => time_cutoff (saturate_i64 (now - ms)) segments 0
                    | None => 0
                    end in
      match retention_bytes policy with
      | Some budget => size_cutoff (live_bytes part - budget) segments cutoff
      | None => cutoff
      end
  end.

Fixpoint reclaim_each (policy : RetentionPolicy) (l : list (Z * Z)) (dropped : Z) : ST Table StoreError Z :=
  match l with
  | [] => ret dropped
  | p :: l' =>
      λ t, (let* n := reclaim p (retention_cutoff p policy t) in reclaim_each policy l' (dropped + n)) t
  end.
Definition enforce_retention (topic : Z) (policy : RetentionPolicy) : ST Table StoreError Z := λ t,
  match retention_ms policy, retention_bytes policy with
  | None, None => (Ok 0, t)
  | _, _ => reclaim_each policy (filter (λ p, p.1 = topic) (map_to_list (partitions (tb_meta t))).*1) 0 t
  end.

(** ** Partitions *)

Definition table_create_partition (p : Z * Z) (epoch : Z) (t : Table) : Table :=
  let part := default (mk_tpart 0 ∅ ∅) (tb_parts t !! p) in
  set_part p (ensure_segment 0 part) (set_meta (create_partition p epoch) t).

Definition table_drop_partition (p : Z * Z) (t : Table) : Table :=
  mk_table (drop_partition p (tb_meta t)) (delete p (tb_parts t)).

Definition table_set_leader_epoch (p : Z * Z) (epoch : Z) : ST Table StoreError bool := λ t,
  match leader_epoch p (tb_meta t), tb_parts t !! p with
  | Err e, _ => (Err e, t)
  | Ok current, Some part =>
      if epoch <=? current then (Ok false, t) else (Ok true, set_meta (record_epoch p epoch (tp_next part)) t)
  | Ok _, None => (Err UnknownTopicOrPartition, t)
  end.

(** [epoch_end_offset]: as on the other engine, but for the statement that finds
    where the next epoch begins, [ORDER BY leader_epoch LIMIT 1]. *)
Definition next_epoch_start (matched : Z) (h : gmap Z Z) : option Z :=
  snd <$> head (filter (λ e : Z * Z, matched < e.1) (in_order h)).
Definition table_epoch_end_offset (p : Z * Z) (epoch : Z) (t : Table) : result StoreError EpochEnd :=
  let? current := leader_epoch p (tb_meta t) in
  if epoch =? current then let? e := table_high_watermark p t in Ok (mk_epoch_end current e)
  else if current <? epoch then Ok (mk_epoch_end (-1) (-1))
  else
    match max_epoch_at_most epoch (history p (tb_meta t)) with
    | None => let? s := log_start_offset p (tb_meta t) in Ok (mk_epoch_end (-1) s)
    | Some matched =>
        match next_epoch_start matched (history p (tb_meta t)) with
        | Some o => Ok (mk_epoch_end matched o)
        | None => let? e := table_high_watermark p t in Ok (mk_epoch_end matched e)
        end
    end.

(** ** DeleteRecords, handlers/admin.rs *)

Definition DELETE_TO_HIGH_WATERMARK : Z := -1.

Definition truncate_one (p : Z * Z) (requested : Z) : ST Table ErrorCode.t Z := λ t,
  match table_high_watermark p t with
  | Err e => (Err (store_error_code e), t)
  | Ok high =>
      let target := if requested =? DELETE_TO_HIGH_WATERMARK then high else requested in
      if high <? target then (Err ErrorCode.OffsetOutOfRange, t)
      else if target <? 0 then (Err ErrorCode.OffsetOutOfRange, t)
      else
        match reclaim p target t with
        | (Err e, t') => (Err (store_error_code e), t')
        | (Ok _, t') =>
            (match log_start_offset p (tb_meta t') with Ok o => Ok o | Err e => Err (store_error_code e) end, t')
        end
  end.

End Engine.
