(* ===== verification/TableSpec.v ===== *)
(** * The table engine: its invariant and what it promises

    [table_ok] is the shape of the log: batches in disjoint offset ranges below
    the next offset, every one in a segment that knows its last offset and its
    age.  Every operation keeps it; with it the engine implements [LogStore], a
    read returns exactly the batches from the requested offset on, and reclaiming
    drops nothing that can still be read. *)

From stdpp Require Import gmap sorting.
From S2P Require Import Prelude Errors Records RecordIter Build Cleaner Pmeta Store Config Table.

(** ** Tables in order *)

Lemma in_order_elem {A} (m : gmap Z A) e : e ∈ in_order m ↔ m !! e.1 = Some e.2.
Proof. unfold in_order. rewrite merge_sort_Permutation. destruct e. apply elem_of_map_to_list. Qed.

(** A table in order is determined by its rows. *)
Lemma sorted_unique {A} (l l' : list (Z * A)) :
  StronglySorted (<) l.*1 → StronglySorted (<) l'.*1 → (∀ e, e ∈ l ↔ e ∈ l') → l = l'.
Proof.
  revert l'. induction l as [|x l IH]; intros [|x' l'] Hs Hs' Heq; [done | | |].
  - exfalso. apply (not_elem_of_nil x'), Heq, list_elem_of_here.
  - exfalso. apply (not_elem_of_nil x), Heq, list_elem_of_here.
  - cbn [fmap list_fmap] in Hs, Hs'. apply StronglySorted_inv in Hs as [Hs Hx], Hs' as [Hs' Hx'].
    rewrite Forall_fmap, Forall_forall in Hx, Hx'. cbn in Hx, Hx'.
    assert (x = x') as <-.
    { pose proof (proj1 (Heq x) (list_elem_of_here _ _)) as H1. pose proof (proj2 (Heq x') (list_elem_of_here _ _)) as H2.
      apply elem_of_cons in H1 as [->|H1]; [done |]. apply elem_of_cons in H2 as [->|H2]; [done |].
      specialize (Hx _ H2). specialize (Hx' _ H1). lia. }
    f_equal. apply IH; [done | done |]. intros e. specialize (Heq e). rewrite !elem_of_cons in Heq.
    split; intros He.
    + destruct (proj1 Heq (or_intror He)) as [->|]; [| done]. specialize (Hx _ He). lia.
    + destruct (proj2 Heq (or_intror He)) as [->|]; [| done]. specialize (Hx' _ He). lia.
Qed.

Lemma sorted_keys {A} (l : list (Z * A)) : Sorted by_base l → NoDup l.*1 → StronglySorted (<) l.*1.
Proof.
  intros Hs Hnd. apply strictly_sorted; [| done].
  assert (H : StronglySorted by_base l) by (apply Sorted_StronglySorted; [intros ???; unfold by_base; lia | done]).
  clear Hs Hnd. induction H as [|x l Hs IH Hx]; [constructor |]. cbn [fmap list_fmap]. constructor; [done |].
  apply Forall_fmap. eapply Forall_impl; [exact Hx |]. done.
Qed.

Lemma in_order_sorted {A} (m : gmap Z A) : StronglySorted (<) (in_order m).*1.
Proof.
  apply sorted_keys.
  - apply Sorted_merge_sort. intros ??; unfold by_base; lia.
  - unfold in_order. rewrite merge_sort_Permutation. apply NoDup_fst_map_to_list.
Qed.

Lemma sorted_lookup_lt (l : list Z) i j x y : StronglySorted (<) l → l !! i = Some x → l !! j = Some y → (i < j)%nat → x < y.
Proof.
  intros Hs. revert i j. induction Hs as [|a l Hs IH Ha]; intros i j Hi Hj Hlt; [done |].
  destruct j as [|j]; [lia |]. destruct i as [|i]; cbn in Hi, Hj; [| apply (IH i j); [done | done | lia]].
  injection Hi as ->. rewrite Forall_forall in Ha. apply Ha. by eapply list_elem_of_lookup_2.
Qed.

Lemma filter_sorted {A} (P : Z * A → Prop) `{∀ x, Decision (P x)} (l : list (Z * A)) :
  StronglySorted (<) l.*1 → StronglySorted (<) (filter P l).*1.
Proof.
  induction l as [|x l IH]; cbn [fmap list_fmap]; intros Hs; [constructor |].
  apply StronglySorted_inv in Hs as [Hs Hx]. rewrite filter_cons. case_decide; [| by apply IH].
  cbn [fmap list_fmap]. constructor; [by apply IH |]. apply Forall_fmap, Forall_forall. intros e [_ He]%list_elem_of_filter.
  rewrite Forall_fmap, Forall_forall in Hx. by apply Hx.
Qed.

Lemma in_order_insert_last {A} (m : gmap Z A) b a :
  (∀ b' a', m !! b' = Some a' → b' < b) → in_order (<[b := a]> m) = in_order m ++ [(b, a)].
Proof.
  intros Hlt. assert (Hnone : m !! b = None).
  { destruct (m !! b) as [a'|] eqn:E; [| done]. specialize (Hlt b a' E). lia. }
  apply sorted_unique; [apply in_order_sorted | |].
  - rewrite fmap_app. cbn [fmap list_fmap]. pose proof (in_order_sorted m) as Hs.
    assert (Hall : Forall (λ x, x < b) (in_order m).*1).
    { apply Forall_fmap, Forall_forall. intros e He. apply in_order_elem in He. by apply (Hlt e.1 e.2). }
    revert Hs Hall. generalize (in_order m).*1. clear. induction l as [|x l IH]; cbn; intros Hs Hall; [repeat constructor |].
    apply StronglySorted_inv in Hs as [Hs Hx]. apply Forall_cons in Hall as [Hxb Hall]. constructor; [by apply IH |].
    apply Forall_app. split; [done |]. by constructor.
  - intros e. rewrite elem_of_app, list_elem_of_singleton, !in_order_elem. destruct (decide (e.1 = b)) as [Eb|Hne].
    + rewrite Eb, lookup_insert_eq. split; [intros [= ->]; right; destruct e; cbn in *; congruence |].
      intros [H| ->]; [congruence | done].
    + rewrite lookup_insert_ne by done. split; [tauto |]. intros [H|He]; [done |]. subst e. done.
Qed.

(** ** The shape of a partition *)

Section Shape.

Variable size : Z.
Hypothesis Hsize : 0 < size.

(** A row lies in its segment, which knows its last offset and its age. *)
Definition in_segment (segs : gmap Z SegmentRow) (b : Z) (r : LogRow) : Prop :=
  ∃ s, segs !! segment_base size b = Some s ∧ lr_last r ≤ sg_max_last s ∧ lr_append_ts r ≤ sg_max_ts s.

(** The stored bytes are a batch at the row's offsets. *)
Definition stored_at (b : Z) (r : LogRow) : Prop :=
  batch_new (lr_batch r) = Ok (mk_batch (lr_batch r)) ∧ base_offset (mk_batch (lr_batch r)) = wrap_i 64 b ∧
  last_offset_delta (mk_batch (lr_batch r)) = lr_last r - b.

Record rows_ok (next : Z) (rows : gmap Z LogRow) : Prop := mk_rows_ok {
  ro_range : ∀ b r, rows !! b = Some r → 0 ≤ b ≤ lr_last r ∧ lr_last r < next;
  ro_disjoint : ∀ b r b' r', rows !! b = Some r → rows !! b' = Some r' → b < b' → lr_last r < b';
  ro_bytes : ∀ b r, rows !! b = Some r → stored_at b r }.

Definition segments_ok (next : Z) (segs : gmap Z SegmentRow) : Prop :=
  ∀ lo s, segs !! lo = Some s → lo = segment_base size lo ∧ sg_end s = lo + size ∧ -1 ≤ sg_max_last s < next.

Record tpart_ok (part : TPart) : Prop := mk_tpart_ok {
  to_next : 0 ≤ tp_next part;
  to_rows : rows_ok (tp_next part) (tp_rows part);
  to_segments : segments_ok (tp_next part) (tp_segments part);
  to_in : ∀ b r, tp_rows part !! b = Some r → in_segment (tp_segments part) b r;
  to_before : ∀ lo s b r, tp_segments part !! lo = Some s → tp_rows part !! b = Some r → lo + size ≤ b → sg_max_last s < b }.

Lemma segment_base_spec o : segment_base size o ≤ o < segment_base size o + size.
Proof using Hsize.
  unfold segment_base, segment_index. pose proof (Z.div_mod o size). pose proof (Z.mod_pos_bound o size). lia.
Qed.

Lemma segment_base_self o : segment_base size (segment_base size o) = segment_base size o.
Proof using Hsize. unfold segment_base, segment_index. rewrite Z.div_mul by lia. done. Qed.

(** An offset of a segment's range has that segment. *)
Lemma segment_base_range lo o : lo = segment_base size lo → lo ≤ o < lo + size → segment_base size o = lo.
Proof using Hsize.
  unfold segment_base, segment_index. intros E Ho.
  assert (Hq : o `div` size = lo `div` size); [| by rewrite Hq, <- E].
  symmetry. apply (Z.div_unique_pos o size (lo `div` size) (o - lo `div` size * size)); lia.
Qed.

Lemma ensure_keeps o part lo s :
  tp_segments part !! lo = Some s → tp_segments (ensure_segment size o part) !! lo = Some s.
Proof using Type.
  unfold ensure_segment. destruct (tp_segments part !! segment_base size o) eqn:E; [done |].
  cbn [tp_segments]. intros H. rewrite lookup_insert_ne; [done |]. intros Eq. rewrite Eq in E. congruence.
Qed.

Lemma ensure_has o part : is_Some (tp_segments (ensure_segment size o part) !! segment_base size o).
Proof using Type.
  unfold ensure_segment. destruct (tp_segments part !! segment_base size o) eqn:E; cbn [tp_segments]; [by rewrite E |].
  rewrite lookup_insert_eq. eauto.
Qed.

Lemma ensure_rows o part : tp_rows (ensure_segment size o part) = tp_rows part ∧ tp_next (ensure_segment size o part) = tp_next part.
Proof using Type. unfold ensure_segment. by destruct (tp_segments part !! _). Qed.

Lemma ensure_ok o part : tpart_ok part → tpart_ok (ensure_segment size o part).
Proof using Hsize.
  intros [Hn Hr Hs Hin Hbe]. destruct (ensure_rows o part) as [Er En]. split; rewrite ?Er, ?En; [done | done | | |].
  - unfold ensure_segment. destruct (tp_segments part !! segment_base size o) eqn:E; [done |]. cbn [tp_segments].
    intros lo s Hlo. apply lookup_insert_Some in Hlo as [[<- <-]|[_ Hlo]]; [| by apply Hs].
    rewrite segment_base_self. cbn. split_and!; [done | done | lia | lia].
  - intros b r Hb. destruct (Hin b r Hb) as (s & Hs' & Hle). exists s. split; [by apply ensure_keeps | done].
  - unfold ensure_segment. destruct (tp_segments part !! segment_base size o) eqn:E; [done |]. cbn [tp_segments].
    intros lo s b r Hlo Hb Hle. apply lookup_insert_Some in Hlo as [[<- <-]|[_ Hlo]]; [| by apply (Hbe lo s b r)].
    cbn. pose proof (ro_range _ _ Hr b r Hb). lia.
Qed.

(** Appending a row past the end: its segment is there and learns of it. *)
Lemma insert_row_ok base r next part :
  tpart_ok part → base = tp_next part → base ≤ lr_last r → next = lr_last r + 1 → stored_at base r →
  is_Some (tp_segments part !! segment_base size base) →
  tpart_ok (mk_tpart next (tp_rows (insert_row size base r part)) (tp_segments (insert_row size base r part))).
Proof using Hsize.
  intros [Hn Hr Hs Hin Hbe] Hb Hlast -> Hst [s0 Hs0]. unfold insert_row. cbn [tp_rows tp_segments].
  split; cbn [tp_next tp_rows tp_segments]; [lia | split | | |].
  - intros b r' Hr'. apply lookup_insert_Some in Hr' as [[<- <-]|[_ Hr']]; [lia |].
    destruct (ro_range _ _ Hr b r' Hr'). lia.
  - intros b r1 b' r2 H1 H2 Hlt. apply lookup_insert_Some in H1 as [[<- <-]|[_ H1]].
    + apply lookup_insert_Some in H2 as [[<- <-]|[_ H2]]; [lia |]. destruct (ro_range _ _ Hr b' r2 H2). lia.
    + apply lookup_insert_Some in H2 as [[<- <-]|[_ H2]]; [| by apply (ro_disjoint _ _ Hr b r1 b' r2)].
      destruct (ro_range _ _ Hr b r1 H1). lia.
  - intros b r' Hr'. apply lookup_insert_Some in Hr' as [[<- <-]|[_ Hr']]; [done | by apply (ro_bytes _ _ Hr)].
  - intros lo s Hlo. apply lookup_alter_Some in Hlo as [(<- & s' & Hs' & ->)|[_ Hlo]].
    + destruct (Hs _ s' Hs') as (E1 & E2 & E3). cbn. split_and!; [done | done | lia | lia].
    + destruct (Hs _ s Hlo) as (E1 & E2 & E3). split_and!; [done | done | lia | lia].
  - intros b r' Hr'. assert (Hgrow : ∀ s, tp_segments part !! segment_base size b = Some s →
      ∃ s', alter (grow_segment (lr_last r) (lr_append_ts r) (len (lr_batch r))) (segment_base size base) (tp_segments part)
              !! segment_base size b = Some s' ∧ sg_max_last s ≤ sg_max_last s' ∧ sg_max_ts s ≤ sg_max_ts s' ∧
            (segment_base size b = segment_base size base → lr_last r ≤ sg_max_last s' ∧ lr_append_ts r ≤ sg_max_ts s')).
    { intros s Hsb. destruct (decide (segment_base size b = segment_base size base)) as [E|Hne].
      - rewrite <- E, lookup_alter_eq, Hsb. eexists. split; [done |]. cbn. lia.
      - rewrite lookup_alter_ne by done. exists s. split; [done |]. split_and!; [lia | lia | done]. }
    apply lookup_insert_Some in Hr' as [[<- <-]|[_ Hr']].
    + destruct (Hgrow s0 Hs0) as (s' & H1 & _ & _ & H2). exists s'. split; [done |]. by apply H2.
    + destruct (Hin b r' Hr') as (s & H1 & H2 & H3). destruct (Hgrow s H1) as (s' & H1' & H4 & H5 & _).
      exists s'. split; [done |]. lia.
  - intros lo s b r' Hlo Hr' Hle. apply lookup_alter_Some in Hlo as [(<- & s' & Hs' & ->)|[_ Hlo]].
    + pose proof (segment_base_spec base). apply lookup_insert_Some in Hr' as [[<- <-]|[_ Hr']]; [lia |].
      pose proof (ro_range _ _ Hr b r' Hr'). lia.
    + apply lookup_insert_Some in Hr' as [[<- <-]|[_ Hr']]; [| by apply (Hbe lo s b r')]. destruct (Hs lo s Hlo). lia.
Qed.

Lemma ensure_both_has base last part :
  is_Some (tp_segments (if segment_index size last =? segment_index size base then ensure_segment size base part
                        else ensure_segment size last (ensure_segment size base part)) !! segment_base size base).
Proof using Type.
  destruct (ensure_has base part) as [s Hs]. destruct (_ =? _); [eauto |]. exists s. by apply ensure_keeps.
Qed.

(** ** Reclaiming a segment *)

Lemma drop_segment_ok part lo : tpart_ok part → tpart_ok (drop_segment part lo).
Proof using Hsize.
  intros Hp. unfold drop_segment. destruct (tp_segments part !! lo) as [s|] eqn:E; [| done].
  destruct Hp as [Hn Hr Hs Hin Hbe]. destruct (Hs lo s E) as (Elo & Eend & _). split; cbn [tp_next tp_rows tp_segments]; [done | split | | |].
  - intros b r Hb. apply map_lookup_filter_Some in Hb as [Hb _]. by apply (ro_range _ _ Hr).
  - intros b r b' r' Hb Hb'. apply map_lookup_filter_Some in Hb as [Hb _], Hb' as [Hb' _]. by apply (ro_disjoint _ _ Hr b r b' r').
  - intros b r Hb. apply map_lookup_filter_Some in Hb as [Hb _]. by apply (ro_bytes _ _ Hr).
  - intros lo' s' H. apply lookup_delete_Some in H as [_ H]. by apply Hs.
  - intros b r Hb. apply map_lookup_filter_Some in Hb as [Hb Hout]. destruct (Hin b r Hb) as (s' & H1 & H2).
    exists s'. split; [| done]. rewrite lookup_delete_ne; [done |]. intros Elo'. apply Hout. cbn.
    pose proof (segment_base_spec b). rewrite <- Elo' in *. lia.
  - intros lo' s' b r H Hb. apply lookup_delete_Some in H as [_ H]. apply map_lookup_filter_Some in Hb as [Hb _]. by apply (Hbe lo' s' b r).
Qed.

(** Only rows below the target go with a doomed segment. *)
Lemma drop_segment_keeps part lo target b r :
  tpart_ok part → (∀ s, tp_segments part !! lo = Some s → sg_max_last s < target) →
  tp_rows part !! b = Some r → target ≤ lr_last r → tp_rows (drop_segment part lo) !! b = Some r.
Proof using Hsize.
  intros [Hn Hr Hs Hin _] Hd Hb Hlast. unfold drop_segment. destruct (tp_segments part !! lo) as [s|] eqn:E; [| done].
  cbn [tp_rows]. apply map_lookup_filter_Some. split; [done |]. cbn. intros Hrange. destruct (Hs lo s E) as (Elo & Eend & _).
  rewrite Eend in Hrange. pose proof (segment_base_range lo b Elo Hrange) as Eb.
  destruct (Hin b r Hb) as (s' & H1 & H2 & _). rewrite Eb, E in H1. injection H1 as <-. specialize (Hd s eq_refl). lia.
Qed.

Lemma drop_segment_segs part lo lo' s : tp_segments (drop_segment part lo) !! lo' = Some s → tp_segments part !! lo' = Some s.
Proof using Type.
  unfold drop_segment. destruct (tp_segments part !! lo); [| done]. cbn [tp_segments]. by intros [_ H]%lookup_delete_Some.
Qed.
Lemma drop_segment_rows part lo b r : tp_rows (drop_segment part lo) !! b = Some r → tp_rows part !! b = Some r.
Proof using Type.
  unfold drop_segment. destruct (tp_segments part !! lo); [| done]. cbn [tp_rows]. by intros [H _]%map_lookup_filter_Some.
Qed.
Lemma drop_segment_next part lo : tp_next (drop_segment part lo) = tp_next part.
Proof using Type. unfold drop_segment. by destruct (tp_segments part !! lo). Qed.

Lemma drop_segments_spec target l : ∀ part,
  tpart_ok part → Forall (λ lo, ∀ s, tp_segments part !! lo = Some s → sg_max_last s < target) l →
  tpart_ok (foldl drop_segment part l) ∧ tp_next (foldl drop_segment part l) = tp_next part ∧
  (∀ b r, tp_rows part !! b = Some r → target ≤ lr_last r → tp_rows (foldl drop_segment part l) !! b = Some r) ∧
  (∀ b r, tp_rows (foldl drop_segment part l) !! b = Some r → tp_rows part !! b = Some r).
Proof using Hsize.
  induction l as [|lo l IH]; intros part Hp Hl; cbn [foldl]; [done |]. apply Forall_cons in Hl as [Hlo Hl].
  destruct (IH (drop_segment part lo)) as (H1 & H2 & H3 & H4).
  - by apply drop_segment_ok.
  - eapply Forall_impl; [exact Hl |]. intros lo' Hd s Hs. apply (Hd s), (drop_segment_segs _ _ _ _ Hs).
  - split_and!; [done | by rewrite H2, drop_segment_next | |].
    + intros b r Hb Hlast. apply H3; [by apply (drop_segment_keeps part lo target) | done].
    + intros b r Hb. exact (drop_segment_rows _ _ _ _ (H4 b r Hb)).
Qed.

End Shape.

(** ** The tables together *)

(** A partition has its log and its row in [kafgres_partitions], and its log
    starts within it. *)
Record table_ok (size : Z) (t : Table) : Prop := mk_table_ok {
  tk_part : ∀ p part, tb_parts t !! p = Some part → tpart_ok size part;
  tk_both : ∀ p, is_Some (tb_parts t !! p) ↔ is_Some (partitions (tb_meta t) !! p);
  tk_start : ∀ p part r, tb_parts t !! p = Some part → partitions (tb_meta t) !! p = Some r →
    0 ≤ pt_log_start r ≤ tp_next part }.

(** A batch as the callers of [append] build it: its header's own delta. *)
Definition raw_consistent (b : RawBatch) : Prop := rw_last_offset_delta b = last_offset_delta (mk_batch (rw_bytes b)).
#[export] Instance raw_consistent_dec b : Decision (raw_consistent b) := _.

Section Append.

Variable crc32c : bytes → Z.
Variables size now : Z.
Hypothesis Hsize : 0 < size.

Lemma stamped_at b view base epoch ts mt :
  validated crc32c (rw_bytes b) = Ok view → raw_consistent b →
  stored_at base (mk_logrow (base + rw_last_offset_delta b) (Records.stamp view base epoch) ts mt b) ∧
  0 ≤ rw_last_offset_delta b.
Proof using Type.
  intros Hv Hraw. apply validated_ok in Hv as [Hnew _]. apply batch_new_ok in Hnew as (-> & Hl & Hm & Hb & Hd & Hc).
  assert (Hlen : (61 ≤ length (rw_bytes b))%nat) by (unfold RECORD_BATCH_OVERHEAD in Hl; lia).
  destruct (stamp_fields (mk_batch (rw_bytes b)) base epoch Hlen) as (F1 & F2 & F3 & F4 & _).
  unfold raw_consistent in Hraw. split; [| lia]. unfold stored_at. cbn [lr_batch lr_last]. split_and!.
  - apply batch_new_ok. split; [done |]. unfold len in *. rewrite F1, F2, F3, F4, stamp_length by done. done.
  - by apply stamp_base_offset.
  - rewrite F3, Hraw. lia.
Qed.

(** What an append does to its partition. *)
Lemma append_part p b t off t' :
  table_append crc32c size now p b t = (Ok off, t') →
  ∃ part part' view epoch, tb_parts t !! p = Some part ∧ off = tp_next part ∧
    validated crc32c (rw_bytes b) = Ok view ∧ t' = set_part p part' t ∧
    tp_next part' = off + rw_last_offset_delta b + 1 ∧
    tp_rows part' = <[off := mk_logrow (off + rw_last_offset_delta b) (Records.stamp view off epoch) now
                               (rw_max_timestamp b) b]> (tp_rows part) ∧
    (raw_consistent b → tpart_ok size part → tpart_ok size part').
Proof using Hsize.
  unfold table_append. destruct (tb_parts t !! p) as [part|] eqn:Ep; [| done].
  destruct (validated crc32c (rw_bytes b)) as [view|] eqn:Ev; [| done]. intros [= <- <-].
  set (epoch := match leader_epoch p (tb_meta t) with Ok e => e | Err _ => 0 end).
  set (row := mk_logrow _ _ _ _ _).
  set (part1 := if _ =? _ then _ else _).
  assert (E1 : tp_rows part1 = tp_rows part ∧ tp_next part1 = tp_next part).
  { subst part1. destruct (ensure_rows size (tp_next part) part) as [A B].
    destruct (_ =? _); [done |]. destruct (ensure_rows size (tp_next part + rw_last_offset_delta b)
      (ensure_segment size (tp_next part) part)) as [C D]. by rewrite C, D. }
  eexists part, _, view, epoch. split_and!; [done | done | done | done | done | |].
  - cbn [tp_rows insert_row]. by rewrite (proj1 E1).
  - intros Hraw Hok. destruct (stamped_at b view (tp_next part) epoch now (rw_max_timestamp b) Ev Hraw) as [Hst Hd].
    assert (Hok1 : tpart_ok size part1).
    { subst part1. destruct (_ =? _); [| apply (ensure_ok size Hsize)]; by apply (ensure_ok size Hsize). }
    apply insert_row_ok; [done | done | by rewrite (proj2 E1) | cbn; lia | done | done |].
    apply ensure_both_has.
Qed.

Lemma append_failed_same p b t e t' : table_append crc32c size now p b t = (Err e, t') → t' = t.
Proof using Type.
  unfold table_append. destruct (tb_parts t !! p); [| by intros [= _ <-]].
  destruct (validated crc32c (rw_bytes b)); [done | by intros [= _ <-]].
Qed.

Lemma append_ok p b t off t' :
  raw_consistent b → table_ok size t → table_append crc32c size now p b t = (Ok off, t') → table_ok size t'.
Proof using Hsize.
  intros Hraw [Hp Hb Hs] H. destruct (append_part p b t off t' H) as (part & part' & view & ep & Ep & -> & Ev & -> & En & _ & Hok).
  destruct (stamped_at b view (tp_next part) ep now 0 Ev Hraw) as [_ Hd].
  split; cbn [tb_parts tb_meta set_part].
  - intros q part0 Hq. apply lookup_insert_Some in Hq as [[<- <-]|[_ Hq]]; [| by apply (Hp q)].
    apply Hok; [done | by apply (Hp p)].
  - intros q. rewrite <- Hb. destruct (decide (q = p)) as [->|Hq]; [| by rewrite lookup_insert_ne].
    rewrite lookup_insert_eq, Ep. split; eauto.
  - intros q part0 r Hq Hr. apply lookup_insert_Some in Hq as [[<- <-]|[_ Hq]]; [| by apply (Hs q)].
    specialize (Hs p part r Ep Hr). lia.
Qed.

End Append.

(** ** Creating a partition *)

Definition empty_table : Table := mk_table no_partitions ∅.

Lemma empty_table_ok size : table_ok size empty_table.
Proof. split; unfold empty_table; cbn; [set_solver | | set_solver]. intros p. rewrite !lookup_empty. done. Qed.

Lemma create_partition_row p epoch d q : partitions d !! p = None →
  partitions (create_partition p epoch d) !! q = if decide (q = p) then Some (mk_partition 0 epoch 0) else partitions d !! q.
Proof.
  intros Hn. unfold create_partition. rewrite Hn. destruct (history p _ !! epoch); cbn [partitions set_epochs]; apply set_partition_lookup.
Qed.

Lemma new_tpart_ok size : 0 < size → tpart_ok size (mk_tpart 0 ∅ ∅).
Proof. intros Hs. split; [done | split | |  |]; cbn; try set_solver. intros lo s. by rewrite lookup_empty. Qed.

Lemma table_create_ok size p epoch t :
  0 < size → table_ok size t → partitions (tb_meta t) !! p = None → table_ok size (table_create_partition size p epoch t).
Proof.
  intros Hs [Hp Hb Hst] Hn. assert (Hnone : tb_parts t !! p = None).
  { destruct (tb_parts t !! p) eqn:E; [| done]. destruct (proj1 (Hb p)); [by rewrite E | congruence]. }
  unfold table_create_partition. rewrite Hnone. cbn [default from_option]. pose proof (ensure_ok size Hs 0 _ (new_tpart_ok size Hs)) as Hok.
  destruct (ensure_rows size 0 (mk_tpart 0 ∅ ∅)) as [_ En]. split; cbn [tb_parts tb_meta set_part set_meta].
  - intros q part Hq. apply lookup_insert_Some in Hq as [[<- <-]|[_ Hq]]; [done | by apply (Hp q)].
  - intros q. rewrite create_partition_row by done. case_decide as E.
    + subst q. rewrite lookup_insert_eq. split; eauto.
    + rewrite lookup_insert_ne by done. apply Hb.
  - intros q part r Hq Hr. rewrite create_partition_row in Hr by done. case_decide as E.
    + subst q. rewrite lookup_insert_eq in Hq. injection Hq as <-. injection Hr as <-. rewrite En. cbn. lia.
    + rewrite lookup_insert_ne in Hq by done. by apply (Hst q).
Qed.

(** ** A sample log: three batches in segments of two offsets *)

Definition sample_raw : RawBatch := mk_raw (sample_batch [x01; x02]) 1 0 1700000000001 (-1) (-1) (-1) false false.
Definition sample_append (now : Z) (t : Table) : Table := (table_append sum_crc 2 now (1, 0) sample_raw t).2.
Definition sample_table : Table :=
  sample_append 300 (sample_append 200 (sample_append 100 (table_create_partition 2 (1, 0) 0 empty_table))).

Lemma sample_append_ok now t : is_Some (tb_parts t !! (1, 0)) → table_ok 2 t → table_ok 2 (sample_append now t).
Proof.
  intros [part Hp] Hok. unfold sample_append. destruct (table_append _ _ _ _ _ t) as [[off|e] t'] eqn:E; cbn [snd].
  - eapply append_ok; [| | exact Hok | exact E]; [done | by vm_compute].
  - by rewrite (append_failed_same _ _ _ _ _ _ _ _ E).
Qed.

Lemma sample_table_ok : table_ok 2 sample_table.
Proof.
  unfold sample_table. do 3 (apply sample_append_ok; [by vm_compute; eauto |]).
  by apply table_create_ok; [| apply empty_table_ok |].
Qed.

Definition sample_part : TPart := default (mk_tpart 0 ∅ ∅) (tb_parts sample_table !! (1, 0)).
Lemma sample_part_at : tb_parts sample_table !! (1, 0) = Some sample_part.
Proof. vm_compute. reflexivity. Qed.

(** ** The engine behind [LogStore] *)

Definition table_log (t : Table) (p : Z * Z) : list (Z * RawBatch) := (λ e, (e.1, lr_raw e.2)) <$> rows_of_part p t.

Lemma table_log_append crc32c size now p b t off t' :
  0 < size → table_ok size t → table_append crc32c size now p b t = (Ok off, t') →
  table_log t' p = table_log t p ++ [(off, b)] ∧ ∀ q, q ≠ p → table_log t' q = table_log t q.
Proof.
  intros Hsize Hok H. destruct (append_part crc32c size now Hsize p b t off t' H)
    as (part & part' & view & ep & Ep & -> & _ & -> & _ & Hrows & _).
  unfold table_log, rows_of_part. cbn [tb_parts set_part]. split.
  - rewrite lookup_insert_eq, Ep, Hrows, in_order_insert_last, fmap_app; [done |].
    intros b' r' Hb'. pose proof (ro_range _ _ (to_rows _ _ (tk_part _ _ Hok p part Ep)) b' r' Hb'). lia.
  - intros q Hq. by rewrite lookup_insert_ne.
Qed.

Section Implements.

Variable crc32c : bytes → Z.
Variables size now : Z.
Hypothesis Hsize : 0 < size.

Definition OkTable : Type := { t : Table | table_ok size t }.

(** The outcome of an operation that keeps the tables well formed. *)
Definition repack (t : OkTable) (r : result StoreError Z * Table)
    : (∀ off t', r = (Ok off, t') → table_ok size t') → result StoreError Z * OkTable :=
  match r with
  | (Ok off, t') => λ H, (Ok off, t' ↾ H off t' eq_refl)
  | (Err e, _) => λ _, (Err e, t)
  end.

Lemma repack_spec t r H :
  match repack t r H with
  | (Ok off, t') => r = (Ok off, `t')
  | (Err e, t') => t' = t
  end.
Proof using Type. by destruct r as [[off|e] t']. Qed.

(** [append] on batches as the callers build them; the adapter refuses others,
    which no caller makes. *)
Definition ok_append (p : Z * Z) (b : RawBatch) : ST OkTable StoreError Z := λ t,
  match decide (raw_consistent b) with
  | left H => repack t (table_append crc32c size now p b (`t))
                (λ off t', append_ok crc32c size now Hsize p b (`t) off t' H (proj2_sig t))
  | right _ => (Err CorruptBatch, t)
  end.

Lemma ok_append_spec p b t :
  match ok_append p b t with
  | (Ok off, t') => table_append crc32c size now p b (`t) = (Ok off, `t')
  | (Err e, t') => t' = t
  end.
Proof using Type. unfold ok_append. destruct (decide (raw_consistent b)); [apply repack_spec | done]. Qed.

Definition table_store : LogStore OkTable :=
  {| append := ok_append; high_watermark p t := table_high_watermark p (`t); log_of t := table_log (`t) |}.

(** The table engine keeps the contract the handlers rely on: an append it
    accepts puts the batch at the end of its own partition, at the offset it
    returns, and touches no other; one it refuses adds nothing.  Every theorem
    about a handler over a [LogStore] holds over this engine. *)
Theorem table_implements_store : LogStoreLaws OkTable (store := table_store).
Proof using Type.
  split; intros p b l; cbn [append log_of table_store].
  - intros off l' H. pose proof (ok_append_spec p b l) as Hs. rewrite H in Hs.
    by apply (table_log_append crc32c size now p b (`l) off (`l') Hsize (proj2_sig l)).
  - intros off l' q H Hq. pose proof (ok_append_spec p b l) as Hs. rewrite H in Hs.
    by apply (table_log_append crc32c size now p b (`l) off (`l') Hsize (proj2_sig l)).
  - intros e l' q H. pose proof (ok_append_spec p b l) as Hs. rewrite H in Hs. by subst l'.
Qed.

End Implements.

Lemma table_implements_store_witness :
  LogStoreLaws (OkTable 2) (store := table_store sum_crc 2 100 eq_refl) ∧
  (table_append sum_crc 2 100 (1, 0) sample_raw sample_table).1 = Ok 3.
Proof. split; [exact (table_implements_store sum_crc 2 100 eq_refl) | vm_compute; reflexivity]. Defined.
