(* ===== verification/TableRead.v ===== *)
(** * The table engine: what a read returns

    A read gives whole batches: those that reach the requested offset, from the
    first on, in order, up to the ceiling of the isolation level; at least one
    when there is one, and otherwise within the byte cap.  Reading on from the
    offset it reports gives the rest. *)

From stdpp Require Import gmap sorting.
From S2P Require Import Prelude Errors Records RecordIter Build Cleaner Pmeta Store Config Table TableSpec.

(** The batches that reach the offset, below the ceiling. *)
Definition visible (offset ceiling : Z) (rows : gmap Z LogRow) : list (Z * LogRow) :=
  filter (λ e : Z * LogRow, offset ≤ lr_last e.2 ∧ e.1 < ceiling) (in_order rows).

Section Rows.

Variables (next : Z) (rows : gmap Z LogRow).
Hypothesis Hok : rows_ok next rows.

Lemma first_base_reaches offset b r :
  rows !! b = Some r → first_base offset rows ≤ b ↔ offset ≤ lr_last r.
Proof using Hok.
  intros Hb. unfold first_base.
  pose proof (sql_max_spec (filter (contains_offset offset) (map_to_list rows)).*1) as Hm.
  destruct (sql_max _) as [c|]; cbn [default from_option id].
  - destruct Hm as [Hc _]. apply list_elem_of_fmap in Hc as ([c' rc] & -> & [Hco Hrc]%list_elem_of_filter).
    apply elem_of_map_to_list in Hrc. unfold contains_offset in Hco. cbn [fst snd] in *.
    destruct (Z.lt_trichotomy b c') as [Hlt | [-> | Hlt]].
    + pose proof (ro_disjoint _ _ Hok b r c' rc Hb Hrc Hlt). lia.
    + assert (r = rc) as -> by congruence. lia.
    + pose proof (ro_disjoint _ _ Hok c' rc b r Hrc Hb Hlt). pose proof (ro_range _ _ Hok b r Hb). lia.
  - pose proof (ro_range _ _ Hok b r Hb) as Hr. split; [lia |]. intros Ho.
    destruct (Z.le_gt_cases offset b) as [|Hlt]; [done |]. exfalso.
    apply (not_elem_of_nil b). rewrite <- Hm. apply list_elem_of_fmap. exists (b, r). split; [done |].
    apply list_elem_of_filter. split; [unfold contains_offset; cbn; lia | by apply elem_of_map_to_list].
Qed.

Lemma select_rows_visible offset ceiling :
  select_rows offset ceiling rows = take ROWS_PER_READ (visible offset ceiling rows).
Proof using Hok.
  unfold select_rows, visible. f_equal. apply filter_agree. intros [b r] He. apply in_order_elem in He. cbn [fst snd] in *.
  rewrite (first_base_reaches offset b r He). tauto.
Qed.

Lemma visible_elem offset ceiling e : e ∈ visible offset ceiling rows → rows !! e.1 = Some e.2 ∧ offset ≤ lr_last e.2 ∧ e.1 < ceiling.
Proof using Type. intros [H He]%list_elem_of_filter. by apply in_order_elem in He. Qed.

Lemma visible_sorted offset ceiling : StronglySorted (<) (visible offset ceiling rows).*1.
Proof using Type. apply filter_sorted, in_order_sorted. Qed.

(** The offset after a run of batches. *)
Definition after (offset : Z) (l : list (Z * LogRow)) : Z :=
  match last l with Some (_, r) => lr_last r + 1 | None => offset end.

(** Reading on from there gives what is left. *)
Lemma visible_resumes offset ceiling l1 l2 :
  visible offset ceiling rows = l1 ++ l2 → visible (after offset l1) ceiling rows = l2.
Proof using Hok.
  intros Hv. unfold after. destruct (last l1) as [[b r]|] eqn:El.
  2: { apply last_None in El as ->. done. }
  apply last_Some in El as [l1' ->]. pose proof (visible_sorted offset ceiling) as Hs. rewrite Hv in Hs.
  assert (Hin : ∀ e, e ∈ (l1' ++ [(b, r)]) ++ l2 → rows !! e.1 = Some e.2 ∧ offset ≤ lr_last e.2 ∧ e.1 < ceiling).
  { intros e He. apply visible_elem. by rewrite Hv. }
  assert (Hbr : rows !! b = Some r ∧ offset ≤ lr_last r) by (destruct (Hin (b, r)); [set_solver | cbn in *; tauto]).
  transitivity (filter (λ e : Z * LogRow, lr_last r + 1 ≤ lr_last e.2) (visible offset ceiling rows)).
  { unfold visible. rewrite list_filter_filter. apply list_filter_iff. intros e. lia. }
  rewrite Hv, filter_app. rewrite filter_none, filter_every; [done | |].
  - apply Forall_forall. intros e He. destruct (Hin e) as (Her & _); [set_solver |].
    assert (Hlt : b < e.1).
    { rewrite fmap_app, fmap_app in Hs. eapply (StronglySorted_app_1_elem_of _ _ _ _ _ Hs).
      - cbn. set_solver.
      - by apply list_elem_of_fmap_2. }
    pose proof (ro_disjoint _ _ Hok b r e.1 e.2 (proj1 Hbr) Her Hlt).
    pose proof (ro_range _ _ Hok e.1 e.2 Her). lia.
  - apply Forall_forall. intros e He. destruct (Hin e) as (Her & _); [set_solver |]. intros Hle.
    apply elem_of_app in He as [He| ->%list_elem_of_singleton]; [| cbn in Hle; lia].
    assert (Hlt : e.1 < b).
    { rewrite fmap_app in Hs. apply StronglySorted_app in Hs as (_ & Hs & _). rewrite fmap_app in Hs.
      eapply (StronglySorted_app_1_elem_of _ _ _ _ _ Hs); [by apply list_elem_of_fmap_2 | cbn; set_solver]. }
    pose proof (ro_disjoint _ _ Hok e.1 e.2 b r Her (proj1 Hbr) Hlt). pose proof (ro_range _ _ Hok b r (proj1 Hbr)). lia.
Qed.

End Rows.

(** ** The loop over the rows *)

Definition bytes_of (l : list (Z * LogRow)) : bytes := concat ((λ e : Z * LogRow, lr_batch e.2) <$> l).

Lemma bytes_of_app l l' : bytes_of (l ++ l') = bytes_of l ++ bytes_of l'.
Proof. unfold bytes_of. by rewrite fmap_app, concat_app. Qed.

Lemma after_snoc offset l b r : after offset (l ++ [(b, r)]) = lr_last r + 1.
Proof. unfold after. by rewrite last_snoc. Qed.

Lemma fill_spec max_bytes offset l : ∀ done_,
  Forall (λ e : Z * LogRow, 0 < len (lr_batch e.2)) (done_ ++ l) →
  (length done_ ≤ 1)%nat ∨ len (bytes_of done_) ≤ max_bytes →
  ∃ l1 l2, l = l1 ++ l2 ∧
    fill max_bytes l (bytes_of done_) (after offset done_) = (bytes_of (done_ ++ l1), after offset (done_ ++ l1)) ∧
    (l ≠ [] → done_ ++ l1 ≠ []) ∧ ((length (done_ ++ l1) ≤ 1)%nat ∨ len (bytes_of (done_ ++ l1)) ≤ max_bytes).
Proof.
  induction l as [|[b r] l IH]; intros done_ Hpos Hcap; cbn [fill].
  { exists [], []. rewrite !app_nil_r. split_and!; [done | done | by intros [] | exact Hcap]. }
  assert (Hne : (0 <? len (bytes_of done_)) = false → done_ = []).
  { intros E. apply Z.ltb_ge in E. destruct done_ as [|[b0 r0] d]; [done |]. exfalso.
    apply Forall_cons in Hpos as [H0 _]. cbn in H0. unfold bytes_of in E. cbn in E. rewrite len_app in E.
    pose proof (len_nonneg (concat ((λ e : Z * LogRow, lr_batch e.2) <$> d))). lia. }
  destruct (0 <? len (bytes_of done_)) eqn:E0; cbn [andb].
  - destruct (Z.ltb_spec max_bytes (len (bytes_of done_) + len (lr_batch r))) as [Hbig|Hfits].
    { exists [], ((b, r) :: l). rewrite app_nil_r. split_and!; [done | done | | done].
      intros _ ->. apply Z.ltb_lt in E0. done. }
    assert (Hstep : bytes_of done_ ++ lr_batch r = bytes_of (done_ ++ [(b, r)])).
    { rewrite bytes_of_app. unfold bytes_of at 3. cbn. by rewrite app_nil_r. }
    rewrite Hstep, <- (after_snoc offset done_ b r). destruct (Z.leb_spec max_bytes (len (bytes_of (done_ ++ [(b, r)])))) as [Hfull|_].
    + exists [(b, r)], l. split_and!; [done | done | by destruct done_ |]. right. rewrite <- Hstep, len_app. lia.
    + destruct (IH (done_ ++ [(b, r)])) as (l1 & l2 & -> & E & _ & Hc).
      * by rewrite <- app_assoc.
      * right. rewrite <- Hstep, len_app. lia.
      * exists ((b, r) :: l1), l2. rewrite <- app_assoc in E, Hc. split_and!; [done | done | by destruct done_ | done].
  - rewrite (Hne eq_refl) in *. cbn [app] in *.
    replace (bytes_of [] ++ lr_batch r) with (bytes_of [(b, r)]) by (unfold bytes_of; cbn; by rewrite app_nil_r).
    change (lr_last r + 1) with (after offset [(b, r)]).
    destruct (Z.leb_spec max_bytes (len (bytes_of [(b, r)]))) as [Hfull|Hless].
    + exists [(b, r)], l. split_and!; [done | done | done |]. by left.
    + destruct (IH [(b, r)]) as (l1 & l2 & -> & E & _ & Hc); [done | by left |].
      exists ((b, r) :: l1), l2. by split_and!.
Qed.

(** ** The read *)

(** What there is to read at an offset under a ceiling. *)
Definition readable (offset ceiling : Z) (rows : gmap Z LogRow) : list (Z * LogRow) :=
  if decide (offset < ceiling) then visible offset ceiling rows else [].

Lemma readable_resumes next rows offset ceiling l1 l2 :
  rows_ok next rows → offset < ceiling → visible offset ceiling rows = l1 ++ l2 →
  readable (after offset l1) ceiling rows = l2.
Proof.
  intros Hok Hlt Hv. pose proof (visible_resumes next rows Hok offset ceiling l1 l2 Hv) as Hres.
  unfold readable. case_decide as Hc; [done |]. destruct l2 as [|e l2]; [done |]. exfalso.
  assert (He : e ∈ visible (after offset l1) ceiling rows) by (rewrite Hres; apply list_elem_of_here).
  apply visible_elem in He as (Her & _ & Hec). unfold after in Hc. destruct (last l1) as [[b r]|] eqn:El; [| lia].
  apply last_Some in El as [l1' ->]. pose proof (visible_sorted rows offset ceiling) as Hs. rewrite Hv, fmap_app in Hs.
  assert (Hbe : b < e.1).
  { eapply (StronglySorted_app_1_elem_of _ _ _ _ _ Hs); [| apply list_elem_of_here].
    rewrite fmap_app. apply elem_of_app. right. apply list_elem_of_here. }
  assert (Hb : rows !! b = Some r).
  { apply (visible_elem rows offset ceiling (b, r)). rewrite Hv. apply elem_of_app. left. apply elem_of_app. right. apply list_elem_of_here. }
  pose proof (ro_disjoint _ _ Hok b r e.1 e.2 Hb Her Hbe). lia.
Qed.

Lemma rows_positive next rows offset ceiling :
  rows_ok next rows → Forall (λ e : Z * LogRow, 0 < len (lr_batch e.2)) (visible offset ceiling rows).
Proof.
  intros Hok. apply Forall_forall. intros e (He & _)%visible_elem. destruct (ro_bytes _ _ Hok e.1 e.2 He) as (Hn & _).
  apply batch_new_ok in Hn as (_ & Hl & _). unfold len, RECORD_BATCH_OVERHEAD in *. lia.
Qed.

Lemma stored_batches next rows offset ceiling l1 l2 :
  rows_ok next rows → visible offset ceiling rows = l1 ++ l2 →
  batches (bytes_of l1) = Some ((λ e : Z * LogRow, Ok (mk_batch (lr_batch e.2))) <$> l1).
Proof.
  intros Hok Hv. unfold bytes_of. rewrite batches_concat; [by rewrite <- list_fmap_compose |].
  apply Forall_fmap, Forall_forall. intros e He. destruct (visible_elem rows offset ceiling e) as (Her & _).
  { rewrite Hv. apply elem_of_app. by left. }
  by destruct (ro_bytes _ _ Hok e.1 e.2 Her).
Qed.

(** The ceiling of an isolation level. *)
Definition ceiling_of (iso : IsolationLevel) (s : FetchSlice) : Z :=
  match iso with ReadCommitted => fs_last_stable s | ReadUncommitted => fs_high_watermark s end.

(** The outcome of a read: some of the first batches there are to read. *)
Record reads (offset max_bytes ceiling : Z) (rows : gmap Z LogRow) (s : FetchSlice) (l : list (Z * LogRow)) : Prop := mk_reads {
  rd_prefix : l `prefix_of` take ROWS_PER_READ (readable offset ceiling rows);
  rd_bytes : fs_bytes s = bytes_of l;
  rd_batches : batches (fs_bytes s) = Some ((λ e : Z * LogRow, Ok (mk_batch (lr_batch e.2))) <$> l);
  rd_progress : readable offset ceiling rows ≠ [] → l ≠ [];
  rd_cap : (length l ≤ 1)%nat ∨ len (fs_bytes s) ≤ max_bytes;
  rd_next : fs_next s = after offset l;
  rd_resume : readable (fs_next s) ceiling rows = drop (length l) (readable offset ceiling rows) }.

Lemma reads_nothing offset max_bytes ceiling rows hw start lso :
  ¬ offset < ceiling → reads offset max_bytes ceiling rows (mk_slice [] offset hw start lso []) [].
Proof.
  intros Hc. assert (E : readable offset ceiling rows = []) by (unfold readable; by rewrite decide_False).
  split; cbn [fs_bytes fs_next length]; rewrite ?E; [apply prefix_nil | done | done | by intros [] | by left; cbn; lia | done | done].
Qed.

Lemma reads_fill next rows offset max_bytes ceiling hw start lso ab :
  rows_ok next rows → offset < ceiling →
  let '(bs, n) := fill max_bytes (select_rows offset ceiling rows) [] offset in
  ∃ l, reads offset max_bytes ceiling rows (mk_slice bs n hw start lso ab) l.
Proof.
  intros Hok Hc. rewrite (select_rows_visible next rows Hok). pose proof (rows_positive next rows offset ceiling Hok) as Hpos.
  set (V := visible offset ceiling rows) in *.
  destruct (fill_spec max_bytes offset (take ROWS_PER_READ V) []) as (l1 & l2 & Ev & Ef & Hprog & Hcap).
  { eapply Forall_take in Hpos. exact Hpos. }
  { left. cbn. lia. }
  cbn [app] in *. change (bytes_of []) with (@nil Byte.byte) in Ef. change (after offset []) with offset in Ef. rewrite Ef.
  assert (EV : V = l1 ++ (l2 ++ drop ROWS_PER_READ V)) by (rewrite app_assoc, <- Ev; by rewrite take_drop).
  assert (Er : readable offset ceiling rows = V) by (unfold readable; by rewrite decide_True).
  exists l1. split; cbn [fs_bytes fs_next]; rewrite ?Er.
  - rewrite Ev. by exists l2.
  - done.
  - exact (stored_batches next rows offset ceiling l1 _ Hok EV).
  - intros Hne. apply Hprog. destruct V; done.
  - done.
  - done.
  - rewrite (readable_resumes next rows offset ceiling l1 _ Hok Hc EV).
    transitivity (drop (length l1) (l1 ++ (l2 ++ drop ROWS_PER_READ V))); [by rewrite drop_app_length | by rewrite <- EV].
Qed.

Lemma table_read_spec size ongoing t p part offset max_bytes iso :
  table_ok size t → tb_parts t !! p = Some part →
  ∃ start, log_start_offset p (tb_meta t) = Ok start ∧
  match table_read ongoing p offset max_bytes iso t with
  | Ok s => start ≤ offset ≤ tp_next part ∧ fs_high_watermark s = tp_next part ∧ fs_log_start s = start ∧
      fs_last_stable s = stable_bound ongoing p (tp_next part) t ∧ fs_last_stable s ≤ tp_next part ∧
      ∃ l, reads offset max_bytes (ceiling_of iso s) (tp_rows part) s l
  | Err e => e = OffsetOutOfRange ∧ ¬ (start ≤ offset ≤ tp_next part)
  end.
Proof.
  intros Hok Hp. destruct (proj1 (tk_both _ _ Hok p)) as [row Hrow]; [by rewrite Hp |].
  exists (pt_log_start row). unfold log_start_offset. rewrite Hrow. split; [done |].
  unfold table_read, table_high_watermark, log_start_offset. rewrite Hp, Hrow. cbn [rbind].
  destruct ((offset <? pt_log_start row) || (tp_next part <? offset)) eqn:Erange.
  { apply orb_true_iff in Erange. rewrite !Z.ltb_lt in Erange. split; [done | lia]. }
  apply orb_false_iff in Erange. rewrite !Z.ltb_ge in Erange.
  assert (Hlso : stable_bound ongoing p (tp_next part) t ≤ tp_next part).
  { unfold stable_bound. destruct (kafka_txn_lso _ _ _) as [o|]; [| lia]. destruct (0 <=? o); lia. }
  set (ceiling := match iso with ReadCommitted => _ | ReadUncommitted => _ end).
  destruct (Z.ltb_spec offset ceiling) as [Hc|Hc].
  - pose proof (to_rows _ _ (tk_part _ _ Hok p part Hp)) as Hrows.
    pose proof (λ ab, reads_fill (tp_next part) (tp_rows part) offset max_bytes ceiling (tp_next part) (pt_log_start row)
      (stable_bound ongoing p (tp_next part) t) ab Hrows Hc) as Hf.
    destruct (fill max_bytes (select_rows offset ceiling (tp_rows part)) [] offset) as [bs n].
    split_and!; [lia | lia | done | done | done | done |]. unfold ceiling_of. subst ceiling. destruct iso; apply Hf.
  - split_and!; [lia | lia | done | done | done | done |]. exists []. unfold ceiling_of. subst ceiling.
    destruct iso; apply reads_nothing; cbn; lia.
Qed.

(** C18. A read is exact.  Within the log's range (and only there) it succeeds; the
    records it returns are, whole and in order, the first of the batches that
    reach the requested offset below the ceiling of the isolation level: at least
    one when there is one, more only within the byte cap; they walk back as exactly
    those batches.  Reading on from the offset it reports gives exactly what is
    left, so a consumer that follows it sees every batch once.  The ceiling is the
    end of the log, or for a committed read the start of the oldest open
    transaction. *)
Theorem table_read_exact size ongoing t p part offset max_bytes iso :
  table_ok size t → tb_parts t !! p = Some part →
  ∃ start, log_start_offset p (tb_meta t) = Ok start ∧
  match table_read ongoing p offset max_bytes iso t with
  | Ok s => start ≤ offset ≤ tp_next part ∧ fs_high_watermark s = tp_next part ∧ fs_log_start s = start ∧
      fs_last_stable s = stable_bound ongoing p (tp_next part) t ∧ fs_last_stable s ≤ tp_next part ∧
      ∃ l, reads offset max_bytes (ceiling_of iso s) (tp_rows part) s l
  | Err e => e = OffsetOutOfRange ∧ ¬ (start ≤ offset ≤ tp_next part)
  end.
Proof. apply table_read_spec. Qed.

Lemma table_read_exact_witness :
  match table_read (λ _, false) (1, 0) 1 100000 ReadCommitted sample_table with
  | Ok s => fs_high_watermark s = 3 ∧ fs_next s = 3 ∧
      ∃ l, reads 1 100000 (ceiling_of ReadCommitted s) (tp_rows sample_part) s l
  | Err _ => False
  end.
Proof.
  destruct (table_read_exact 2 (λ _, false) sample_table (1, 0) sample_part 1 100000 ReadCommitted) as (start & _ & H);
    [exact sample_table_ok | exact sample_part_at |].
  assert (Eread : ∃ s, table_read (λ _, false) (1, 0) 1 100000 ReadCommitted sample_table = Ok s ∧ fs_next s = 3 ∧ fs_high_watermark s = 3).
  { eexists. split; [vm_compute; reflexivity | split; reflexivity]. }
  destruct Eread as (s & Es & En & Eh). rewrite Es in H |- *. split; [exact Eh |]. split; [exact En |]. apply H.
Defined.
