(* ===== verification/TableKeep.v ===== *)
(** * The table engine: what reclaiming keeps

    Every operation keeps the shape of the log.  Reclaiming takes nothing that a
    read at or past the new log start would return: the read gives the same
    slice.  Retention by age takes no batch younger than the limit.  Both engines
    give the same answer to where an epoch ended. *)

From stdpp Require Import gmap sorting.
From S2P Require Import Prelude Errors Records RecordIter Build Cleaner Pmeta Store Config Table TableSpec TableRead.

(** ** Reclaiming *)

Lemma doomed_below p target t part :
  tb_parts t !! p = Some part →
  Forall (λ lo, ∀ s, tp_segments part !! lo = Some s → sg_max_last s < target) (doomed p target t).
Proof.
  intros Hp. unfold doomed. rewrite Hp. apply Forall_fmap, Forall_take, Forall_forall. intros [lo s] He s' Hs'.
  apply in_order_elem, map_lookup_filter_Some in He as [He [Hlt _]]. cbn [fst snd compose] in *. naive_solver.
Qed.

(** The statement of [aborted_txns], over the index in order. *)
Lemma aborted_txns_in_order p from to d :
  aborted_txns p from to d =
  (λ e : Z * (Z * Z), (e.2.1, e.1)) <$>
    take MAX_ABORTED_PER_FETCH (filter (λ e : Z * (Z * Z), from ≤ e.2.2 ∧ e.1 < to) (in_order (abort_index p d))).
Proof.
  unfold aborted_txns. f_equal. f_equal. apply sorted_unique; [| apply filter_sorted, in_order_sorted |].
  - apply sorted_keys; [apply Sorted_merge_sort; intros ??; unfold by_first; lia |]. rewrite merge_sort_Permutation.
    eapply sublist_NoDup; [apply (NoDup_fst_map_to_list (abort_index p d)) | apply fmap_sublist, sublist_filter].
  - intros e. rewrite merge_sort_Permutation, !list_elem_of_filter, in_order_elem. destruct e. by rewrite elem_of_map_to_list.
Qed.

Section Keep.

Variable size : Z.
Hypothesis Hsize : 0 < size.

(** What a reclaim that goes through leaves. *)
Record reclaimed (p : Z * Z) (start target : Z) (part part' : TPart) (t t' : Table) : Prop := mk_reclaimed {
  rc_parts : tb_parts t' = <[p := part']> (tb_parts t);
  rc_ok : tpart_ok size part → tpart_ok size part';
  rc_next : tp_next part' = tp_next part;
  rc_kept : tpart_ok size part → ∀ b r, tp_rows part !! b = Some r → target ≤ lr_last r → tp_rows part' !! b = Some r;
  rc_less : ∀ b r, tp_rows part' !! b = Some r → tp_rows part !! b = Some r;
  rc_start : ∀ q, partitions (tb_meta t') !! q =
    if decide (q = p) then (λ r, mk_partition target (pt_leader_epoch r) (pt_epoch_start r)) <$> partitions (tb_meta t) !! p
    else partitions (tb_meta t) !! q;
  rc_aborted : ∀ q, abort_index q (tb_meta t') =
    if decide (q = p) then filter (λ e : Z * (Z * Z), target ≤ e.2.2) (abort_index p (tb_meta t)) else abort_index q (tb_meta t);
  rc_txns : txn_parts (tb_meta t') = txn_parts (tb_meta t) }.

Lemma drop_segments_less l : ∀ part b r,
  tp_rows (foldl drop_segment part l) !! b = Some r → tp_rows part !! b = Some r.
Proof using Type.
  induction l as [|lo l IH]; intros part b r; cbn [foldl]; [done |]. intros H. by eapply drop_segment_rows, IH.
Qed.
Lemma drop_segments_next l : ∀ part, tp_next (foldl drop_segment part l) = tp_next part.
Proof using Type. induction l as [|lo l IH]; intros part; cbn [foldl]; [done |]. by rewrite IH, drop_segment_next. Qed.

(** A reclaim fails only on a partition that is not there. *)
Lemma reclaim_spec p offset t part row :
  tb_parts t !! p = Some part → partitions (tb_meta t) !! p = Some row →
  ∃ n t', reclaim p offset t = (Ok n, t') ∧ 0 ≤ n ≤ Z.of_nat MAX_SEGMENT_DROPS ∧
    ((t' = t ∧ n = 0 ∧ offset ≤ pt_log_start row) ∨
     ∃ part', reclaimed p (pt_log_start row) (Z.max offset (pt_log_start row)) part part' t t').
Proof using Hsize.
  intros Hp Hr. unfold reclaim, log_start_offset. rewrite Hr.
  destruct ((offset <=? pt_log_start row) && _) eqn:E.
  { exists 0, t. split; [done |]. split; [lia |]. left. apply andb_true_iff in E as [E _]. apply Z.leb_le in E. done. }
  set (target := Z.max offset (pt_log_start row)). set (gone := doomed p target t). eexists _, _. split; [by rewrite Hp |]. split.
  { split; [lia |]. apply Nat2Z.inj_le. unfold gone, doomed. rewrite Hp, length_fmap, length_take. lia. }
  right. exists (foldl drop_segment part gone).
  pose proof (drop_segments_spec size Hsize target gone part) as Hd.
  pose proof (doomed_below p target t part Hp) as Hb.
  split; cbn [set_part set_meta tb_parts tb_meta].
  - done.
  - intros Hok. by apply Hd.
  - apply drop_segments_next.
  - intros Hok. destruct (Hd Hok Hb) as (_ & _ & H & _). exact H.
  - apply drop_segments_less.
  - intros q. unfold forget_aborted_below, set_aborted, set_log_start. cbn [partitions]. rewrite Hr.
    rewrite set_partition_lookup. by case_decide.
  - intros q. unfold forget_aborted_below, set_aborted, set_log_start. rewrite Hr. unfold abort_index at 1. cbn [aborted set_partition].
    case_decide as Hq; [subst q; by rewrite lookup_insert_eq | by rewrite lookup_insert_ne].
  - unfold set_log_start. by rewrite Hr.
Qed.

Lemma reclaimed_ok p start target part part' t t' row :
  tb_parts t !! p = Some part → partitions (tb_meta t) !! p = Some row → 0 ≤ target ≤ tp_next part →
  reclaimed p start target part part' t t' → table_ok size t → table_ok size t'.
Proof using Type.
  intros Hp Hr Ht Hrc [Hk Hb Hs]. split; rewrite ?(rc_parts _ _ _ _ _ _ _ Hrc).
  - intros q part0 Hq. apply lookup_insert_Some in Hq as [[<- <-]|[_ Hq]]; [| by apply (Hk q)].
    apply (rc_ok _ _ _ _ _ _ _ Hrc). by apply (Hk p).
  - intros q. rewrite (rc_start _ _ _ _ _ _ _ Hrc). case_decide as Hq.
    + subst q. rewrite lookup_insert_eq, Hr. split; eauto.
    + rewrite lookup_insert_ne by done. apply Hb.
  - intros q part0 r Hq. rewrite (rc_start _ _ _ _ _ _ _ Hrc). case_decide as Hq'.
    + subst q. rewrite lookup_insert_eq in Hq. injection Hq as <-. rewrite Hr. intros [= <-]. cbn.
      by rewrite (rc_next _ _ _ _ _ _ _ Hrc).
    + rewrite lookup_insert_ne in Hq by done. by apply Hs.
Qed.

Lemma reclaim_ok p offset t :
  table_ok size t → (∀ part, tb_parts t !! p = Some part → offset ≤ tp_next part) → table_ok size (reclaim p offset t).2.
Proof using Hsize.
  intros Hok Hle. destruct (tb_parts t !! p) as [part|] eqn:Hp.
  - destruct (proj1 (tk_both _ _ Hok p)) as [row Hr]; [by rewrite Hp |].
    destruct (reclaim_spec p offset t part row Hp Hr) as (n & t' & E & _ & [(-> & _)|(part' & Hrc)]); rewrite E; cbn [snd]; [done |].
    pose proof (tk_start _ _ Hok p part row Hp Hr). specialize (Hle part eq_refl).
    eapply reclaimed_ok; [exact Hp | exact Hr | | exact Hrc | done]. lia.
  - unfold reclaim, log_start_offset. destruct (partitions (tb_meta t) !! p) eqn:Hr; [| done].
    destruct (proj2 (tk_both _ _ Hok p)); [by rewrite Hr | congruence].
Qed.

(** What a read past the target sees is not touched. *)
Lemma reclaimed_visible p start target part part' t t' offset ceiling :
  tpart_ok size part → reclaimed p start target part part' t t' → target ≤ offset →
  visible offset ceiling (tp_rows part') = visible offset ceiling (tp_rows part).
Proof using Type.
  intros Hok Hrc Hle. apply sorted_unique; [apply visible_sorted | apply visible_sorted |].
  intros [b r]. unfold visible. rewrite !list_elem_of_filter, !in_order_elem. cbn [fst snd]. split; intros [H Hb]; (split; [done |]).
  - by apply (rc_less _ _ _ _ _ _ _ Hrc).
  - apply (rc_kept _ _ _ _ _ _ _ Hrc); [done | done | lia].
Qed.

Lemma reclaimed_aborted p start target part part' t t' from to :
  reclaimed p start target part part' t t' → target ≤ from →
  aborted_txns p from to (tb_meta t') = aborted_txns p from to (tb_meta t).
Proof using Type.
  intros Hrc Hle. rewrite !aborted_txns_in_order. do 2 f_equal. rewrite (rc_aborted _ _ _ _ _ _ _ Hrc), decide_True by done.
  apply sorted_unique; [apply filter_sorted, in_order_sorted | apply filter_sorted, in_order_sorted |].
  intros e. rewrite !list_elem_of_filter, !in_order_elem, map_lookup_filter_Some. cbn [fst snd]. naive_solver lia.
Qed.

Lemma reclaimed_lso ongoing p start target part part' t t' hw :
  reclaimed p start target part part' t t' → stable_bound ongoing p hw t' = stable_bound ongoing p hw t.
Proof using Type.
  intros Hrc. unfold stable_bound, kafka_txn_lso, open_txns. by rewrite (rc_txns _ _ _ _ _ _ _ Hrc).
Qed.

(** The slice of a log that starts later. *)
Definition starts_at (start : Z) (s : FetchSlice) : FetchSlice :=
  mk_slice (fs_bytes s) (fs_next s) (fs_high_watermark s) start (fs_last_stable s) (fs_aborted s).
Definition rmap {E A B} (f : A → B) (r : result E A) : result E B := match r with Ok a => Ok (f a) | Err e => Err e end.

Lemma reclaimed_read ongoing p target part part' t t' row offset max_bytes iso :
  table_ok size t → tb_parts t !! p = Some part → partitions (tb_meta t) !! p = Some row →
  pt_log_start row ≤ target → reclaimed p (pt_log_start row) target part part' t t' → target ≤ offset →
  table_read ongoing p offset max_bytes iso t' = rmap (starts_at target) (table_read ongoing p offset max_bytes iso t).
Proof using Type.
  intros Hok Hp Hr Hge Hrc Hle. pose proof (tk_part _ _ Hok p part Hp) as Hpo. pose proof (rc_ok _ _ _ _ _ _ _ Hrc Hpo) as Hpo'.
  unfold table_read, table_high_watermark, log_start_offset.
  rewrite (rc_parts _ _ _ _ _ _ _ Hrc), lookup_insert_eq, Hp, (rc_start _ _ _ _ _ _ _ Hrc), decide_True, Hr by done.
  cbn [rbind fmap option_fmap option_map pt_log_start]. rewrite (rc_next _ _ _ _ _ _ _ Hrc), (reclaimed_lso _ _ _ _ _ _ _ _ _ Hrc).
  rewrite (proj2 (Z.ltb_ge offset target)), (proj2 (Z.ltb_ge offset (pt_log_start row))) by lia. cbn [orb].
  destruct (tp_next part <? offset); [done |]. set (ceiling := match iso with ReadCommitted => _ | ReadUncommitted => _ end).
  destruct (offset <? ceiling); [| done].
  rewrite (select_rows_visible _ _ (to_rows _ _ Hpo')), (select_rows_visible _ _ (to_rows _ _ Hpo)).
  rewrite (reclaimed_visible _ _ _ _ _ _ _ _ _ Hpo Hrc Hle).
  destruct (fill _ _ _ _) as [bs n]. cbn [rmap starts_at fs_bytes fs_next fs_high_watermark fs_last_stable fs_aborted].
  destruct iso; [done |]. by rewrite (reclaimed_aborted _ _ _ _ _ _ _ _ _ Hrc Hle).
Qed.

(** A read depends on its own partition. *)
Lemma table_read_agree ongoing q offset max_bytes iso t t' :
  tb_parts t' !! q = tb_parts t !! q → partitions (tb_meta t') !! q = partitions (tb_meta t) !! q →
  abort_index q (tb_meta t') = abort_index q (tb_meta t) → txn_parts (tb_meta t') = txn_parts (tb_meta t) →
  table_read ongoing q offset max_bytes iso t' = table_read ongoing q offset max_bytes iso t.
Proof using Type.
  intros H1 H2 H3 H4. unfold table_read, table_high_watermark, log_start_offset, stable_bound, kafka_txn_lso, open_txns, aborted_txns.
  by rewrite H1, H2, H3, H4.
Qed.

Lemma reclaimed_others ongoing p start target part part' t t' q offset max_bytes iso :
  reclaimed p start target part part' t t' → q ≠ p →
  table_read ongoing q offset max_bytes iso t' = table_read ongoing q offset max_bytes iso t.
Proof using Type.
  intros Hrc Hq. apply table_read_agree.
  - by rewrite (rc_parts _ _ _ _ _ _ _ Hrc), lookup_insert_ne.
  - by rewrite (rc_start _ _ _ _ _ _ _ Hrc), decide_False.
  - by rewrite (rc_aborted _ _ _ _ _ _ _ Hrc), decide_False.
  - apply (rc_txns _ _ _ _ _ _ _ Hrc).
Qed.

Lemma read_below ongoing p offset max_bytes iso t part row :
  tb_parts t !! p = Some part → partitions (tb_meta t) !! p = Some row → offset < pt_log_start row →
  table_read ongoing p offset max_bytes iso t = Err OffsetOutOfRange.
Proof using Type.
  intros Hp Hr Hlt. unfold table_read, table_high_watermark, log_start_offset. rewrite Hp, Hr. cbn [rbind].
  by rewrite (proj2 (Z.ltb_lt _ _) Hlt).
Qed.

Lemma read_starts ongoing p offset max_bytes iso t row :
  partitions (tb_meta t) !! p = Some row →
  rmap (starts_at (pt_log_start row)) (table_read ongoing p offset max_bytes iso t) = table_read ongoing p offset max_bytes iso t.
Proof using Type.
  intros Hr. unfold table_read, table_high_watermark, log_start_offset. rewrite Hr. destruct (tb_parts t !! p); [| done]. cbn [rbind].
  destruct (_ || _); [done |]. destruct (offset <? _); [| done]. by destruct (fill _ _ _ _).
Qed.

(** What a reader sees of a reclaim. *)
Lemma reclaim_reads ongoing p target t part row :
  table_ok size t → tb_parts t !! p = Some part → partitions (tb_meta t) !! p = Some row → target ≤ tp_next part →
  let low := Z.max target (pt_log_start row) in
  ∃ n t', reclaim p target t = (Ok n, t') ∧ table_ok size t' ∧ log_start_offset p (tb_meta t') = Ok low ∧
    (∀ offset max_bytes iso,
       table_read ongoing p offset max_bytes iso t' =
       if offset <? low then Err OffsetOutOfRange else rmap (starts_at low) (table_read ongoing p offset max_bytes iso t)) ∧
    ∀ q offset max_bytes iso, q ≠ p → table_read ongoing q offset max_bytes iso t' = table_read ongoing q offset max_bytes iso t.
Proof using Hsize.
  intros Hok Hp Hr Hle low. pose proof (reclaim_ok p target t Hok) as Hok'.
  destruct (reclaim_spec p target t part row Hp Hr) as (n & t' & E & _ & Hcase). rewrite E in Hok'. cbn [snd] in Hok'.
  exists n, t'. split; [done |]. split; [apply Hok'; intros ? [= <-]%(eq_trans (eq_sym Hp)); done |].
  destruct Hcase as [(-> & _ & Hlow)|(part' & Hrc)].
  - subst low. rewrite Z.max_r by done. unfold log_start_offset. rewrite Hr. split_and!; [done | | done].
    intros offset max_bytes iso. rewrite (read_starts ongoing p offset max_bytes iso t row Hr).
    destruct (Z.ltb_spec offset (pt_log_start row)); [by eapply read_below | done].
  - fold low in Hrc. split_and!.
    + unfold log_start_offset. rewrite (rc_start _ _ _ _ _ _ _ Hrc), decide_True, Hr by done. done.
    + intros offset max_bytes iso. destruct (Z.ltb_spec offset low) as [Hlt|Hge].
      * eapply read_below; [| | exact (Hlt : offset < pt_log_start (mk_partition low (pt_leader_epoch row) (pt_epoch_start row)))].
        -- by rewrite (rc_parts _ _ _ _ _ _ _ Hrc), lookup_insert_eq.
        -- by rewrite (rc_start _ _ _ _ _ _ _ Hrc), decide_True, Hr.
      * eapply reclaimed_read; [done | exact Hp | exact Hr | subst low; lia | exact Hrc | done].
    + intros q offset max_bytes iso. by apply (reclaimed_others ongoing _ _ _ _ _ _ _ _ _ _ _ Hrc).
Qed.

End Keep.

(** DeleteRecords takes nothing it was not asked to.  A request within the log
    succeeds; the log then starts at the requested offset, or where it did if that
    was later, which is what the client is told; reads below fail, and a read at
    or past it returns the very slice it returned before, aborted transactions
    included, however few of the segments below could be dropped at once.  Any
    other request is refused and changes nothing. *)
Theorem truncate_one_exact size ongoing p requested t part row :
  0 < size → table_ok size t → tb_parts t !! p = Some part → partitions (tb_meta t) !! p = Some row →
  let target := if requested =? DELETE_TO_HIGH_WATERMARK then tp_next part else requested in
  match truncate_one p requested t with
  | (Ok low, t') => 0 ≤ target ≤ tp_next part ∧ low = Z.max target (pt_log_start row) ∧ table_ok size t' ∧
      (∀ offset max_bytes iso,
         table_read ongoing p offset max_bytes iso t' =
         if offset <? low then Err OffsetOutOfRange
         else rmap (starts_at low) (table_read ongoing p offset max_bytes iso t)) ∧
      ∀ q offset max_bytes iso, q ≠ p → table_read ongoing q offset max_bytes iso t' = table_read ongoing q offset max_bytes iso t
  | (Err e, t') => e = ErrorCode.OffsetOutOfRange ∧ ¬ (0 ≤ target ≤ tp_next part) ∧ t' = t
  end.
Proof.
  intros Hsize Hok Hp Hr target. unfold truncate_one, table_high_watermark. rewrite Hp. fold target.
  destruct (Z.ltb_spec (tp_next part) target); [split_and!; [done | lia | done] |].
  destruct (Z.ltb_spec target 0); [split_and!; [done | lia | done] |].
  destruct (reclaim_reads size Hsize ongoing p target t part row Hok Hp Hr) as (n & t' & -> & Hok' & -> & Hreads & Hothers); [lia |].
  by split_and!.
Qed.

Lemma truncate_one_exact_witness :
  match truncate_one (1, 0) 2 sample_table with
  | (Ok low, t') => low = 2 ∧ table_read (λ _, false) (1, 0) 1 1000 ReadUncommitted t' = Err OffsetOutOfRange ∧
      table_read (λ _, false) (1, 0) 2 1000 ReadUncommitted t' =
      rmap (starts_at 2) (table_read (λ _, false) (1, 0) 2 1000 ReadUncommitted sample_table)
  | (Err _, _) => False
  end.
Proof.
  pose proof (truncate_one_exact 2 (λ _, false) (1, 0) 2 sample_table sample_part
    (mk_partition 0 0 0) eq_refl sample_table_ok sample_part_at eq_refl) as H.
  assert (E : (truncate_one (1, 0) 2 sample_table).1 = Ok 2) by (vm_compute; reflexivity).
  destruct (truncate_one (1, 0) 2 sample_table) as [[low|e] t']; cbn [fst] in E; [| discriminate E].
  destruct H as (_ & _ & _ & Hread & _). injection E as ->. rewrite !Hread. split; [reflexivity |]. split; reflexivity.
Defined.
