(* ===== verification/TableRun.v ===== *)
(** * The table engine: retention

    What retention takes away, it has a reason to: every batch it takes was
    appended before the age limit, or lies at or before a segment from which on
    the partition alone is over its byte limit.  The argument: a cutoff past a
    batch comes from a closed segment, and the batch's own segment is that one or
    an earlier one.

    Behind it: the states the engine reaches by any requests. *)

From stdpp Require Import gmap sorting.
From S2P Require Import Prelude Errors Records RecordIter Build Cleaner Pmeta Store Config Table TableSpec TableRead TableKeep.



(** The bytes of segments, and of those from a base offset on. *)
Definition total (l : list (Z * SegmentRow)) : Z := foldr Z.add 0 ((λ e, sg_bytes e.2) <$> l).
Definition bytes_from (lo : Z) (part : TPart) : Z :=
  total (filter (λ e : Z * SegmentRow, lo ≤ e.1) (map_to_list (tp_segments part))).

Lemma total_app l l' : total (l ++ l') = total l + total l'.
Proof. unfold total. rewrite fmap_app, foldr_app. induction l as [|e l IH]; cbn; [lia |]. cbn in IH. lia. Qed.

Lemma total_perm l l' : l ≡ₚ l' → total l = total l'.
Proof. unfold total. induction 1; cbn in *; lia. Qed.

Lemma total_split (P : Z * SegmentRow → Prop) `{∀ x, Decision (P x)} l :
  total l = total (filter P l) + total (filter (λ e, ¬ P e) l).
Proof. rewrite <- total_app. apply total_perm. by rewrite filter_app_complement. Qed.

(** Where a cutoff comes from. *)
Lemma time_cutoff_from horizon l : ∀ cutoff m,
  m < time_cutoff horizon l cutoff →
  m < cutoff ∨ ∃ l1 e l2, l = l1 ++ e :: l2 ∧ m ≤ sg_max_last e.2 ∧ Forall (λ e, sg_max_ts e.2 ≤ horizon) (l1 ++ [e]).
Proof.
  induction l as [|[lo s] l IH]; intros cutoff m; cbn [time_cutoff]; [by left |].
  destruct (Z.leb_spec (sg_max_ts s) horizon) as [Hs|Hs]; [| by left]. intros Hm.
  destruct (IH _ _ Hm) as [Hlt|(l1 & e & l2 & -> & He & Hall)].
  - destruct (Z.lt_ge_cases m cutoff) as [|Hge]; [by left |]. right. exists [], (lo, s), l. split; [done |].
    split; [cbn; lia |]. by repeat constructor.
  - right. exists ((lo, s) :: l1), e, l2. split_and!; [done | done |]. by constructor.
Qed.

Lemma size_cutoff_from l : ∀ over cutoff m,
  m < size_cutoff over l cutoff →
  m < cutoff ∨ ∃ l1 e l2, l = l1 ++ e :: l2 ∧ m ≤ sg_max_last e.2 ∧ total l1 < over.
Proof.
  induction l as [|[lo s] l IH]; intros over cutoff m; cbn [size_cutoff]; [by left |].
  destruct (Z.leb_spec over 0) as [Ho|Ho]; [by left |]. intros Hm.
  destruct (IH _ _ _ Hm) as [Hlt|(l1 & e & l2 & -> & He & Hall)].
  - destruct (Z.lt_ge_cases m cutoff) as [|Hge]; [by left |]. right. exists [], (lo, s), l. cbn. split_and!; [done | lia | lia].
  - right. exists ((lo, s) :: l1), e, l2. split_and!; [done | done |]. unfold total in *. cbn. lia.
Qed.

Lemma cutoffs_below next l :
  Forall (λ e : Z * SegmentRow, sg_max_last e.2 < next) l → 0 ≤ next → ∀ h over c, c ≤ next →
  time_cutoff h l c ≤ next ∧ size_cutoff over l c ≤ next.
Proof.
  intros Hl Hn h over. revert over. induction Hl as [|[lo s] l Hs Hl IH]; intros over c Hc; cbn [time_cutoff size_cutoff]; [done |].
  cbn in Hs. split.
  - destruct (_ <=? _); [apply (IH 0); lia | done].
  - destruct (_ <=? _); [done | apply IH; lia].
Qed.

Section Retain.

Variable size : Z.
Hypothesis Hsize : 0 < size.

(** The closed segments of a partition, as the statement lists them. *)
Abbreviation closed part := (in_order (filter (λ e : Z * SegmentRow, sg_end e.2 ≤ tp_next part) (tp_segments part))).

Lemma closed_elem part e : e ∈ closed part ↔ tp_segments part !! e.1 = Some e.2 ∧ sg_end e.2 ≤ tp_next part.
Proof using Type. rewrite in_order_elem, map_lookup_filter_Some. done. Qed.

(** A batch at or below the last offset of a closed segment lies in it or in one
    before it, which the list has. *)
Lemma own_segment part b r l1 e l2 :
  tpart_ok size part → tp_rows part !! b = Some r → closed part = l1 ++ e :: l2 → lr_last r ≤ sg_max_last e.2 →
  segment_base size b ≤ e.1 ∧ ∃ s, (segment_base size b, s) ∈ l1 ++ [e] ∧ lr_append_ts r ≤ sg_max_ts s.
Proof using Hsize.
  intros [Hn Hr Hs Hin Hbe] Hb Hl Hle. assert (He : tp_segments part !! e.1 = Some e.2 ∧ sg_end e.2 ≤ tp_next part).
  { apply closed_elem. rewrite Hl. set_solver. }
  destruct He as [He Hend]. destruct (Hs _ _ He) as (Ebase & Eend & _). destruct (Hin b r Hb) as (s & Hsb & _ & Hts).
  assert (Hlt : b < e.1 + size).
  { apply Z.nle_gt. intros Hge. pose proof (Hbe _ _ b r He Hb Hge). pose proof (ro_range _ _ Hr b r Hb). lia. }
  assert (Hbase : segment_base size b ≤ e.1).
  { pose proof (segment_base_spec size Hsize b). rewrite Ebase. unfold segment_base, segment_index in *.
    apply Z.mul_le_mono_nonneg_r; [lia |]. apply Z.lt_succ_r, Z.div_lt_upper_bound; [lia |].
    pose proof (Z.div_mod e.1 size). pose proof (Z.mod_pos_bound e.1 size). lia. }
  split; [done |]. exists s. split; [| done]. destruct (Hs _ _ Hsb) as (_ & Eend' & _).
  assert (Hc : (segment_base size b, s) ∈ closed part) by (apply closed_elem; cbn; split; [done | lia]).
  pose proof (in_order_sorted (filter (λ e : Z * SegmentRow, sg_end e.2 ≤ tp_next part) (tp_segments part))) as Hsort.
  rewrite Hl in Hc, Hsort. apply elem_of_app in Hc as [Hc|Hc]; [set_solver |].
  apply elem_of_cons in Hc as [Hc|Hc]; [set_solver |]. exfalso.
  rewrite fmap_app in Hsort. apply StronglySorted_app in Hsort as (_ & _ & Hsort). cbn [fmap list_fmap] in Hsort.
  apply StronglySorted_inv in Hsort as [_ Hsort]. rewrite Forall_fmap, Forall_forall in Hsort. specialize (Hsort _ Hc). cbn in Hsort. lia.
Qed.

(** The list before a closed segment is all the segments before it. *)
Lemma before_total part l1 e l2 :
  segments_ok size (tp_next part) (tp_segments part) → closed part = l1 ++ e :: l2 → live_bytes part = total l1 + bytes_from e.1 part.
Proof using Type.
  clear Hsize. intros Hs Hl. unfold live_bytes, bytes_from. fold (total (map_to_list (tp_segments part))).
  assert (He : e ∈ closed part) by (rewrite Hl; set_solver). apply closed_elem in He as [He Hend].
  rewrite (total_split (λ x : Z * SegmentRow, e.1 ≤ x.1)), Z.add_comm. f_equal. apply total_perm.
  pose proof (in_order_sorted (filter (λ e : Z * SegmentRow, sg_end e.2 ≤ tp_next part) (tp_segments part))) as Hsort.
  rewrite Hl, fmap_app in Hsort. cbn [fmap list_fmap] in Hsort.
  transitivity (filter (λ x : Z * SegmentRow, ¬ e.1 ≤ x.1) (in_order (tp_segments part))).
  { unfold in_order. by rewrite (merge_sort_Permutation by_base). }
  apply reflexive_eq, sorted_unique; [apply filter_sorted, in_order_sorted | by apply StronglySorted_app in Hsort as (_ & ? & _) |].
  intros x. rewrite list_elem_of_filter, in_order_elem. split.
  - intros [Hlt Hx]. assert (Hc : x ∈ closed part).
    { apply closed_elem. split; [done |]. destruct (Hs _ _ He) as (_ & E1 & _), (Hs _ _ Hx) as (_ & E2 & _). lia. }
    rewrite Hl in Hc. apply elem_of_app in Hc as [Hc|Hc]; [done |]. exfalso. apply StronglySorted_app in Hsort as (_ & _ & Hsort).
    apply StronglySorted_inv in Hsort as [_ Hsort]. rewrite Forall_fmap, Forall_forall in Hsort.
    apply elem_of_cons in Hc as [->|Hc]; [lia |]. specialize (Hsort _ Hc). cbn in Hsort. lia.
  - intros Hx. assert (Hc : x ∈ closed part) by (rewrite Hl; set_solver). apply closed_elem in Hc as [Hc _]. split; [| done].
    pose proof (StronglySorted_app_1_elem_of _ _ _ x.1 e.1 Hsort (list_elem_of_fmap_2 fst l1 x Hx) (list_elem_of_here _ _)). lia.
Qed.

(** Why retention takes a batch. *)
Definition justified (now : Z) (policy : RetentionPolicy) (part : TPart) (b : Z) (r : LogRow) : Prop :=
  (∃ ms, retention_ms policy = Some ms ∧ lr_append_ts r ≤ saturate_i64 (now - ms)) ∨
  (∃ budget lo, retention_bytes policy = Some budget ∧ segment_base size b ≤ lo ∧ budget < bytes_from lo part).

Lemma cutoff_justified now p policy t part b r :
  tpart_ok size part → tb_parts t !! p = Some part → tp_rows part !! b = Some r →
  lr_last r < retention_cutoff now p policy t → justified now policy part b r.
Proof using Hsize.
  intros Hok Hp Hb. unfold retention_cutoff. rewrite Hp. set (l := closed part).
  pose proof (ro_range _ _ (to_rows _ _ Hok) b r Hb) as Hr.
  assert (Htime : ∀ ms, retention_ms policy = Some ms → lr_last r < time_cutoff (saturate_i64 (now - ms)) l 0 → justified now policy part b r).
  { intros ms Ems Hlt. destruct (time_cutoff_from _ _ _ _ Hlt) as [?|(l1 & e & l2 & El & Hle & Hall)]; [lia |].
    destruct (own_segment part b r l1 e l2 Hok Hb El Hle) as (_ & s & Hs & Hts). left. exists ms. split; [done |].
    rewrite Forall_forall in Hall. specialize (Hall _ Hs). cbn in Hall. lia. }
  set (cut := match retention_ms policy with Some _ => _ | None => 0 end).
  assert (Hcut : lr_last r < cut → justified now policy part b r).
  { subst cut. destruct (retention_ms policy) as [ms|] eqn:Ems; [by apply Htime | lia]. }
  destruct (retention_bytes policy) as [budget|] eqn:Eb; [| done]. intros Hlt.
  destruct (size_cutoff_from _ _ _ _ Hlt) as [?|(l1 & e & l2 & El & Hle & Hall)]; [by apply Hcut |].
  destruct (own_segment part b r l1 e l2 Hok Hb El Hle) as (Hbase & _). right. exists budget, e.1. split_and!; [done | done |].
  rewrite (before_total part l1 e l2 (to_segments _ _ Hok) El) in Hall. lia.
Qed.

Lemma cutoff_bounded now p policy t part :
  tpart_ok size part → tb_parts t !! p = Some part → retention_cutoff now p policy t ≤ tp_next part.
Proof using Type.
  clear Hsize. intros Hok Hp. unfold retention_cutoff. rewrite Hp.
  assert (Hl : Forall (λ e : Z * SegmentRow, sg_max_last e.2 < tp_next part) (closed part)).
  { apply Forall_forall. intros e [He _]%closed_elem. destruct (to_segments _ _ Hok _ _ He). lia. }
  pose proof (to_next _ _ Hok) as Hn. pose proof (cutoffs_below _ _ Hl Hn) as Hc.
  set (cut := match retention_ms policy with Some _ => _ | None => 0 end).
  assert (cut ≤ tp_next part) by (subst cut; destruct (retention_ms policy); [apply (Hc _ 0); lia | lia]).
  destruct (retention_bytes policy); [by apply (Hc 0) | done].
Qed.

(** What retention leaves of a partition. *)
Definition spared (now : Z) (policy : RetentionPolicy) (p : Z * Z) (t t' : Table) : Prop :=
  ∀ part row, tb_parts t !! p = Some part → partitions (tb_meta t) !! p = Some row →
  ∃ part' row', tb_parts t' !! p = Some part' ∧ partitions (tb_meta t') !! p = Some row' ∧
    tp_next part' = tp_next part ∧ pt_log_start row ≤ pt_log_start row' ∧
    ∀ b r, tp_rows part !! b = Some r → pt_log_start row ≤ lr_last r → ¬ justified now policy part b r →
      tp_rows part' !! b = Some r ∧ pt_log_start row' ≤ lr_last r.

Definition same_at (q : Z * Z) (t t' : Table) : Prop :=
  tb_parts t' !! q = tb_parts t !! q ∧ partitions (tb_meta t') !! q = partitions (tb_meta t) !! q.

Lemma reclaim_spares now policy p t :
  table_ok size t → is_Some (tb_parts t !! p) →
  ∃ n t', reclaim p (retention_cutoff now p policy t) t = (Ok n, t') ∧ table_ok size t' ∧ spared now policy p t t' ∧
    ∀ q, q ≠ p → same_at q t t'.
Proof using Hsize.
  intros Hok [part Hp]. destruct (proj1 (tk_both _ _ Hok p)) as [row Hr]; [by rewrite Hp |].
  pose proof (tk_part _ _ Hok p part Hp) as Hpo. set (cut := retention_cutoff now p policy t).
  pose proof (reclaim_ok size Hsize p cut t Hok) as Hok'.
  destruct (reclaim_spec size Hsize p cut t part row Hp Hr) as (n & t' & E & _ & Hcase). rewrite E in Hok'. cbn [snd] in Hok'.
  exists n, t'. split; [done |]. split.
  { apply Hok'. intros part0 Hp0. assert (part0 = part) as -> by congruence. by apply cutoff_bounded. }
  assert (Hj : ∀ b r, tp_rows part !! b = Some r → ¬ justified now policy part b r → cut ≤ lr_last r).
  { intros b r Hb Hj. apply Z.nlt_ge. intros Hlt. apply Hj. by apply (cutoff_justified now p policy t). }
  destruct Hcase as [(-> & _ & Hle)|(part' & Hrc)].
  - split; [| done]. intros part0 row0 Hp0 Hr0. exists part0, row0. split_and!; done.
  - split.
    + intros part0 row0 Hp0 Hr0. assert (part0 = part) as -> by congruence. assert (row0 = row) as -> by congruence.
      eexists part', _. rewrite (rc_parts _ _ _ _ _ _ _ _ Hrc), lookup_insert_eq, (rc_start _ _ _ _ _ _ _ _ Hrc), decide_True, Hr by done.
      split_and!; [done | done | apply (rc_next _ _ _ _ _ _ _ _ Hrc) | cbn; lia |]. intros b r Hb Hge Hnj. specialize (Hj b r Hb Hnj).
      split; [apply (rc_kept _ _ _ _ _ _ _ _ Hrc Hpo); [done | lia] | cbn; lia].
    + intros q Hq. split; [by rewrite (rc_parts _ _ _ _ _ _ _ _ Hrc), lookup_insert_ne |].
      by rewrite (rc_start _ _ _ _ _ _ _ _ Hrc), decide_False.
Qed.

Lemma spared_trans_l now policy p t t1 t' : same_at p t t1 → spared now policy p t1 t' → spared now policy p t t'.
Proof using Type. intros [E1 E2] H part row Hp Hr. apply H; congruence. Qed.
Lemma spared_trans_r now policy p t t1 t' : same_at p t1 t' → spared now policy p t t1 → spared now policy p t t'.
Proof using Type.
  intros [E1 E2] H part row Hp Hr. destruct (H part row Hp Hr) as (part' & row' & H1 & H2 & H3). exists part', row'.
  by rewrite E1, E2.
Qed.

Lemma reclaim_each_spares now policy l : ∀ t dropped,
  table_ok size t → NoDup l → Forall (λ p, is_Some (tb_parts t !! p)) l →
  ∃ n t', reclaim_each now policy l dropped t = (Ok n, t') ∧ table_ok size t' ∧
    (∀ p, p ∈ l → spared now policy p t t') ∧ ∀ q, q ∉ l → same_at q t t'.
Proof using Hsize.
  induction l as [|p l IH]; intros t dropped Hok Hnd Hall; cbn [reclaim_each].
  { exists dropped, t. split_and!; [done | done | set_solver | done]. }
  apply NoDup_cons in Hnd as [Hp Hnd]. apply Forall_cons in Hall as [Hsp Hall].
  destruct (reclaim_spares now policy p t Hok Hsp) as (n & t1 & E & Hok1 & Hs1 & Ho1). rewrite (bind_ok _ _ _ _ _ E).
  destruct (IH t1 (dropped + n) Hok1 Hnd) as (n' & t' & E' & Hok' & Hs' & Ho').
  { rewrite Forall_forall in Hall |- *. intros q Hq. rewrite (proj1 (Ho1 q ltac:(set_solver))). by apply Hall. }
  exists n', t'. split_and!; [done | done | |].
  - intros q Hq. apply elem_of_cons in Hq as [->|Hq].
    + by apply (spared_trans_r now policy p t t1 t'); [apply Ho' |].
    + apply (spared_trans_l now policy q t t1 t'); [apply Ho1; set_solver | by apply Hs'].
  - intros q Hq. apply not_elem_of_cons in Hq as [Hqp Hq]. destruct (Ho1 q Hqp) as [E1 E2], (Ho' q Hq) as [E3 E4].
    split; congruence.
Qed.

Lemma partitions_of_topic (topic : Z) (t : Table) :
  table_ok size t → let l := filter (λ p : Z * Z, p.1 = topic) (map_to_list (partitions (tb_meta t))).*1 in
  NoDup l ∧ Forall (λ p, is_Some (tb_parts t !! p)) l ∧ ∀ p, is_Some (tb_parts t !! p) → p.1 = topic → p ∈ l.
Proof using Type.
  clear Hsize. intros Hok l. split_and!.
  - apply NoDup_filter, NoDup_fst_map_to_list.
  - apply Forall_forall. intros p [_ Hp]%list_elem_of_filter. apply list_elem_of_fmap in Hp as ([p' r] & -> & Hp).
    apply elem_of_map_to_list in Hp. apply (tk_both _ _ Hok). eauto.
  - intros p Hp Ht. apply list_elem_of_filter. split; [done |]. apply (tk_both _ _ Hok) in Hp as [r Hr].
    apply list_elem_of_fmap. exists (p, r). split; [done | by apply elem_of_map_to_list].
Qed.

Lemma enforce_retention_spec now topic policy t :
  table_ok size t →
  ∃ n t', enforce_retention now topic policy t = (Ok n, t') ∧ table_ok size t' ∧
    (∀ p, p.1 = topic → spared now policy p t t') ∧ ∀ q, q.1 ≠ topic → same_at q t t'.
Proof using Hsize.
  intros Hok. destruct (partitions_of_topic topic t Hok) as (Hnd & Hall & Hin).
  assert (Hrun : ∃ n t', reclaim_each now policy (filter (λ p : Z * Z, p.1 = topic) (map_to_list (partitions (tb_meta t))).*1) 0 t
    = (Ok n, t') ∧ table_ok size t' ∧ (∀ p, p.1 = topic → spared now policy p t t') ∧ ∀ q, q.1 ≠ topic → same_at q t t').
  { destruct (reclaim_each_spares now policy _ t 0 Hok Hnd Hall) as (n & t' & E & Hok' & Hs & Ho). exists n, t'.
    split_and!; [done | done | |].
    - intros p Hp part row Hpp. apply (Hs p); [by apply Hin; [rewrite Hpp; eauto | done] | done].
    - intros q Hq. apply Ho. rewrite list_elem_of_filter. tauto. }
  unfold enforce_retention. destruct (retention_ms policy) eqn:E1; [exact Hrun |].
  destruct (retention_bytes policy) eqn:E2; [exact Hrun |]. exists 0, t. split_and!; [done | done | | done].
  intros p Hp part row Hpp Hr. exists part, row. by split_and!.
Qed.

End Retain.

(** Retention takes only what it has a reason to.  It succeeds; partitions of
    other topics are as they were; in a partition of the topic the end of the log
    stays, its start never goes back, and every batch the reader had is still
    stored and readable unless it was appended at or before the age limit, or lies
    at or before a segment from which on the partition alone holds more than its
    byte limit. *)
Theorem enforce_retention_justified size now topic policy t :
  0 < size → table_ok size t →
  ∃ n t', enforce_retention now topic policy t = (Ok n, t') ∧ table_ok size t' ∧
    (∀ p, p.1 = topic → spared size now policy p t t') ∧ ∀ q, q.1 ≠ topic → same_at q t t'.
Proof. intros Hsize. by apply enforce_retention_spec. Qed.

Lemma enforce_retention_justified_witness :
  ∃ n t', enforce_retention 1000 1 (mk_retention_policy (Some 750) None) sample_table = (Ok n, t') ∧ n = 1 ∧
    spared 2 1000 (mk_retention_policy (Some 750) None) (1, 0) sample_table t' ∧ log_start_offset (1, 0) (tb_meta t') = Ok 2.
Proof.
  destruct (enforce_retention_justified 2 1000 1 (mk_retention_policy (Some 750) None) sample_table eq_refl sample_table_ok)
    as (n & t' & E & _ & Hs & _).
  exists n, t'. split; [exact E |].
  assert (En : (enforce_retention 1000 1 (mk_retention_policy (Some 750) None) sample_table).1 = Ok 1) by (vm_compute; reflexivity).
  assert (El : log_start_offset (1, 0) (tb_meta (enforce_retention 1000 1 (mk_retention_policy (Some 750) None) sample_table).2) = Ok 2)
    by (vm_compute; reflexivity).
  rewrite E in En, El. cbn [fst snd] in En, El. injection En as ->. split; [reflexivity |]. split; [by apply Hs | exact El].
Defined.

(** * The table engine: every run

    The operations of the engine as steps.  Every reachable table has the shape
    of TableSpec.v, and its metadata is reachable by the statements of Pmeta.v, so
    that what is proved of those holds of this engine. *)

(** The clock and the configuration may differ from step to step, the segment
    size may not: it is fixed when the server starts.  A partition is created
    where there is none; [append] is given batches with their own delta. *)
Inductive table_step (crc32c : bytes → Z) (size : Z) : Table → Table → Prop :=
| run_create p epoch t : partitions (tb_meta t) !! p = None → table_step crc32c size t (table_create_partition size p epoch t)
| run_append now p b t : raw_consistent b → table_step crc32c size t (table_append crc32c size now p b t).2
| run_truncate p requested t : table_step crc32c size t (truncate_one p requested t).2
| run_retention now topic policy t : table_step crc32c size t (enforce_retention now topic policy t).2
| run_promote p epoch t : table_step crc32c size t (table_set_leader_epoch p epoch t).2
| run_drop p t : table_step crc32c size t (table_drop_partition p t)
| run_abort p producer first last t : table_step crc32c size t (set_meta (record_aborted_txn p producer first last) t)
| run_register producer p base t : table_step crc32c size t (set_meta (register_txn_partition producer p base) t)
| run_stamp producer p base t : table_step crc32c size t (set_meta (stamp_txn_partition producer p base) t).

(** ** The metadata *)

Lemma reclaim_meta p offset t : tb_meta (reclaim p offset t).2 = tb_meta t ∨
  ∃ target, tb_meta (reclaim p offset t).2 = advance_log_start p target (tb_meta t).
Proof.
  unfold reclaim, log_start_offset. destruct (partitions (tb_meta t) !! p) as [row|] eqn:Hr; [| by left].
  destruct (_ && _); [by left |]. right. exists (Z.max offset (pt_log_start row)). cbn [snd set_meta tb_meta].
  replace (tb_meta (match tb_parts t !! p with Some _ => _ | None => _ end)) with (tb_meta t) by (by destruct (tb_parts t !! p)).
  unfold advance_log_start, set_log_start. rewrite Hr. by rewrite (Z.max_r (pt_log_start row) (Z.max _ _)) by lia.
Qed.

Lemma reclaim_steps p offset t : rtc step (tb_meta t) (tb_meta (reclaim p offset t).2).
Proof.
  destruct (reclaim_meta p offset t) as [->|[target ->]]; [done |]. apply rtc_once, step_log_start.
Qed.

Lemma reclaim_each_steps now policy l : ∀ dropped t, rtc step (tb_meta t) (tb_meta (reclaim_each now policy l dropped t).2).
Proof.
  induction l as [|p l IH]; intros dropped t; cbn [reclaim_each]; [done |]. unfold bind.
  pose proof (reclaim_steps p (retention_cutoff now p policy t) t) as Hs.
  destruct (reclaim p _ t) as [[n|e] t1]; cbn [snd] in *; [| done]. etrans; [exact Hs | apply IH].
Qed.

Lemma truncate_meta p requested t : (truncate_one p requested t).2 = t ∨ ∃ target, (truncate_one p requested t).2 = (reclaim p target t).2.
Proof.
  unfold truncate_one. destruct (table_high_watermark p t) as [high|]; [| by left].
  set (target := if _ =? _ then _ else _). destruct (high <? target); [by left |]. destruct (target <? 0); [by left |].
  right. exists target. by destruct (reclaim p target t) as [[]].
Qed.

Lemma append_meta crc32c size now p b t : tb_meta (table_append crc32c size now p b t).2 = tb_meta t.
Proof.
  unfold table_append. destruct (tb_parts t !! p); [| done]. by destruct (validated crc32c (rw_bytes b)).
Qed.

Lemma table_step_meta crc32c size t t' : table_step crc32c size t t' → table_ok size t → rtc step (tb_meta t) (tb_meta t').
Proof.
  intros Hst Hok. destruct Hst; cbn [set_meta set_part tb_meta table_create_partition table_drop_partition].
  - by apply rtc_once, step_create.
  - by rewrite append_meta.
  - destruct (truncate_meta p requested t) as [->|[target ->]]; [done | apply reclaim_steps].
  - unfold enforce_retention. repeat case_match; try apply reclaim_each_steps; done.
  - unfold table_set_leader_epoch, leader_epoch. destruct (partitions (tb_meta t) !! p) as [row|] eqn:Hr; [| done].
    destruct (tb_parts t !! p) as [part|] eqn:Hp; [| done]. destruct (Z.leb_spec epoch (pt_leader_epoch row)); [done |].
    apply rtc_once. apply (step_promote p epoch _ _ row Hr); [done |]. by apply (tk_part _ _ Hok p part Hp).
  - apply rtc_once, step_drop.
  - apply rtc_once, step_abort.
  - apply rtc_once, step_register.
  - apply rtc_once, step_stamp.
Qed.

(** ** The log *)

(** What [table_ok] says of the metadata. *)
Lemma table_ok_agree size t t' :
  tb_parts t' = tb_parts t → (∀ p, pt_log_start <$> partitions (tb_meta t') !! p = pt_log_start <$> partitions (tb_meta t) !! p) →
  table_ok size t → table_ok size t'.
Proof.
  intros Hp Hm [H1 H2 H3]. split; rewrite Hp; [done | |].
  - intros p. rewrite H2. specialize (Hm p). by destruct (partitions (tb_meta t) !! p), (partitions (tb_meta t') !! p).
  - intros p part r Hpp Hr. specialize (Hm p). rewrite Hr in Hm. cbn in Hm.
    destruct (partitions (tb_meta t) !! p) as [r0|] eqn:E; [| done]. cbn in Hm. injection Hm as ->. by apply (H3 p part r0).
Qed.

Lemma drop_table_ok size p t : table_ok size t → table_ok size (table_drop_partition p t).
Proof.
  intros [H1 H2 H3]. unfold table_drop_partition. split; cbn [tb_parts tb_meta].
  - intros q part Hq. apply lookup_delete_Some in Hq as [_ Hq]. by apply (H1 q).
  - intros q. unfold drop_partition. cbn [partitions]. destruct (decide (q = p)) as [->|Hne].
    + rewrite !lookup_delete_eq. done.
    + by rewrite !lookup_delete_ne.
  - intros q part r Hq Hr. unfold drop_partition in Hr. cbn [partitions] in Hr.
    apply lookup_delete_Some in Hq as [_ Hq], Hr as [_ Hr]. by apply (H3 q).
Qed.

Lemma promote_table_ok size p epoch t : table_ok size t → table_ok size (table_set_leader_epoch p epoch t).2.
Proof.
  intros Hok. unfold table_set_leader_epoch, leader_epoch. destruct (partitions (tb_meta t) !! p) as [row|] eqn:Hr; [| done].
  destruct (tb_parts t !! p) as [part|]; [| done]. destruct (epoch <=? _); [done |].
  apply (table_ok_agree size t); [done | | done]. intros q. cbn [snd set_meta tb_meta]. unfold record_epoch. rewrite Hr.
  cbn [partitions set_epochs]. rewrite set_partition_lookup. case_decide; [subst q; by rewrite Hr | done].
Qed.

Lemma table_step_ok crc32c size t t' : 0 < size → table_step crc32c size t t' → table_ok size t → table_ok size t'.
Proof.
  intros Hs Hst Hok. destruct Hst.
  - by apply table_create_ok.
  - destruct (table_append crc32c size now p b t) as [[off|e] t'] eqn:E; cbn [snd]; [by eapply append_ok |].
    by rewrite (append_failed_same _ _ _ _ _ _ _ _ E).
  - unfold truncate_one, table_high_watermark. destruct (tb_parts t !! p) as [part|] eqn:Hp; [| done].
    set (target := if _ =? _ then _ else _). destruct (Z.ltb_spec (tp_next part) target) as [|Hle]; [done |].
    destruct (target <? 0); [done |]. pose proof (reclaim_ok size Hs p target t Hok) as Hr.
    destruct (reclaim p target t) as [[n|e] t']; cbn [snd] in *; apply Hr; intros part0 Hp0; congruence.
  - by destruct (enforce_retention_spec size Hs now topic policy t Hok) as (n & t' & -> & Hok' & _).
  - by apply promote_table_ok.
  - by apply drop_table_ok.
  - by apply (table_ok_agree size t).
  - apply (table_ok_agree size t); [done | | done]. intros q. cbn [set_meta tb_meta]. unfold register_txn_partition. by repeat case_match.
  - apply (table_ok_agree size t); [done | | done]. intros q. cbn [set_meta tb_meta]. unfold stamp_txn_partition. by repeat case_match.
Qed.

Lemma table_reachable crc32c size t :
  0 < size → rtc (table_step crc32c size) empty_table t → table_ok size t ∧ rtc step no_partitions (tb_meta t).
Proof.
  intros Hs Hr. assert (H : ∀ t0, rtc (table_step crc32c size) t0 t → table_ok size t0 → rtc step no_partitions (tb_meta t0) →
    table_ok size t ∧ rtc step no_partitions (tb_meta t)).
  { clear Hr. induction 1 as [|t0 t1 t2 Hst _ IH]; intros Hok Hm; [done |]. apply IH; [by eapply table_step_ok |].
    etrans; [exact Hm | by eapply table_step_meta]. }
  apply (H _ Hr); [apply empty_table_ok | done].
Qed.

(** C22. The log keeps its shape, whatever the order of creates, appends, truncations,
    retention passes, promotions and drops, and whatever fails: the batches of a
    partition cover disjoint ranges below the next offset, are stored as they
    decode, and lie in segments that know their last offset and age; the log
    starts within it; and the metadata of the partitions is one the shared
    statements can reach. *)
Theorem table_invariant crc32c size t :
  0 < size → rtc (table_step crc32c size) empty_table t → table_ok size t ∧ rtc step no_partitions (tb_meta t).
Proof. apply table_reachable. Qed.

(** ** Where an epoch ended *)

Lemma next_epoch_start_min matched h : increasing h → next_epoch_start matched h = min_start_above matched h.
Proof.
  intros Hinc. pose proof (min_start_above_spec matched h) as Hm. unfold next_epoch_start.
  pose proof (filter_sorted (λ e : Z * Z, matched < e.1) _ (in_order_sorted h)) as Hs.
  assert (Hin : ∀ e, e ∈ filter (λ e : Z * Z, matched < e.1) (in_order h) ↔ matched < e.1 ∧ h !! e.1 = Some e.2).
  { intros e. by rewrite list_elem_of_filter, in_order_elem. }
  destruct (filter _ _) as [|[e s] l]; cbn [head fmap option_fmap option_map snd].
  - destruct (min_start_above matched h) as [s|]; [| done]. destruct Hm as [(e & He & Hlt) _].
    exfalso. apply (not_elem_of_nil (e, s)). apply Hin. done.
  - destruct (proj1 (Hin (e, s)) (list_elem_of_here _ _)) as [Hlt He]. cbn [fst snd] in *.
    destruct (min_start_above matched h) as [s0|]; [| specialize (Hm e s He); lia]. destruct Hm as [(e0 & He0 & Hlt0) Hmin].
    f_equal. apply Z.le_antisymm; [| by apply (Hmin e)].
    assert (Hc : e ≤ e0).
    { pose proof (proj2 (Hin (e0, s0)) (conj Hlt0 He0)) as H0. apply elem_of_cons in H0 as [[= -> _]|H0]; [lia |].
      cbn [fmap list_fmap] in Hs. apply StronglySorted_inv in Hs as [_ Hs]. rewrite Forall_fmap, Forall_forall in Hs.
      specialize (Hs _ H0). cbn in Hs. lia. }
    destruct (decide (e = e0)) as [->|Hne]; [assert (s = s0) by congruence; lia |].
    pose proof (Hinc e s e0 s0 He He0). lia.
Qed.

(** Both engines agree where an epoch ended: this engine looks up the start of
    the next epoch, the other the least start of all later ones; on every reachable
    table the answers are equal, errors included. *)
Theorem epoch_end_agrees crc32c size t p epoch :
  0 < size → rtc (table_step crc32c size) empty_table t →
  table_epoch_end_offset p epoch t = epoch_end_offset p epoch (table_high_watermark p t) (tb_meta t).
Proof.
  intros Hs Hr. destruct (table_reachable crc32c size t Hs Hr) as [_ Hm]. pose proof (reachable_history _ p Hm) as Hh.
  unfold table_epoch_end_offset, epoch_end_offset, leader_epoch. unfold history_ok in Hh.
  destruct (partitions (tb_meta t) !! p); [| done]. destruct Hh as [Hinc _]. cbn [rbind].
  destruct (_ =? _); [done |]. destruct (_ <? _); [done |]. destruct (max_epoch_at_most _ _); [| done].
  by rewrite next_epoch_start_min.
Qed.

(** ** Witnesses *)

Definition sample_run : Table :=
  (truncate_one (1, 0) 1 (table_set_leader_epoch (1, 0) 3 sample_table).2).2.

Lemma sample_run_reachable : rtc (table_step sum_crc 2) empty_table sample_run.
Proof.
  eapply rtc_l; [apply (run_create _ _ (1, 0) 0); reflexivity |].
  eapply rtc_l; [apply (run_append _ _ 100 (1, 0) sample_raw); vm_compute; reflexivity |].
  eapply rtc_l; [apply (run_append _ _ 200 (1, 0) sample_raw); vm_compute; reflexivity |].
  eapply rtc_l; [apply (run_append _ _ 300 (1, 0) sample_raw); vm_compute; reflexivity |].
  eapply rtc_l; [apply (run_promote _ _ (1, 0) 3) |].
  eapply rtc_l; [apply (run_truncate _ _ (1, 0) 1) |]. apply rtc_refl.
Qed.

Lemma table_invariant_witness : table_ok 2 sample_run ∧ log_start_offset (1, 0) (tb_meta sample_run) = Ok 1.
Proof. split; [exact (proj1 (table_invariant sum_crc 2 sample_run eq_refl sample_run_reachable)) | vm_compute; reflexivity]. Defined.

Lemma epoch_end_agrees_witness :
  table_epoch_end_offset (1, 0) 1 sample_run = epoch_end_offset (1, 0) 1 (table_high_watermark (1, 0) sample_run) (tb_meta sample_run) ∧
  table_epoch_end_offset (1, 0) 1 sample_run = Ok (mk_epoch_end 0 3).
Proof.
  split; [exact (epoch_end_agrees sum_crc 2 sample_run (1, 0) 1 eq_refl sample_run_reachable) | vm_compute; reflexivity].
Defined.
