(* ===== verification/TableAborts.v ===== *)
(** * The table engine: the aborted transactions of a slice

    A committed read lists the aborted transactions that overlap what it returns,
    so that the consumer can skip their records.  The list is complete as long as
    there are at most [MAX_ABORTED_PER_FETCH] of them.  It is cut there without
    shortening the slice: past that number a consumer takes aborted records for
    committed ones. *)

From stdpp Require Import gmap sorting.
From S2P Require Import Prelude Errors Records RecordIter Build Cleaner Pmeta Store Config Table TableSpec TableRead TableKeep.

(** The aborted transactions that overlap a range of offsets. *)
Definition overlapping (p : Z * Z) (from to : Z) (d : Meta) : list (Z * (Z * Z)) :=
  filter (λ e : Z * (Z * Z), from ≤ e.2.2 ∧ e.1 < to) (in_order (abort_index p d)).

Lemma overlapping_elem p from to d first producer last :
  (first, (producer, last)) ∈ overlapping p from to d ↔ abort_index p d !! first = Some (producer, last) ∧ from ≤ last ∧ first < to.
Proof. unfold overlapping. rewrite list_elem_of_filter, in_order_elem. cbn. tauto. Qed.

Lemma aborted_txns_elem p from to d producer first :
  (producer, first) ∈ aborted_txns p from to d ↔ ∃ last, (first, (producer, last)) ∈ take MAX_ABORTED_PER_FETCH (overlapping p from to d).
Proof.
  rewrite aborted_txns_in_order. fold (overlapping p from to d). rewrite list_elem_of_fmap. split.
  - intros ([f [pr l]] & [= -> ->] & Hin). by exists l.
  - intros (l & Hin). by exists (first, (producer, l)).
Qed.

(** In a strictly sorted list a prefix that leaves something out leaves out the
    greatest key. *)
Lemma greatest_not_in_prefix {A} (l : list (Z * A)) n (e x : Z * A) :
  StronglySorted (<) l.*1 → (n < length l)%nat → (∀ e', e' ∈ l → e'.1 ≤ e.1) → x.1 = e.1 → x ∉ take n l.
Proof.
  intros Hs Hn Hmax Ex Hin. apply list_elem_of_lookup in Hin as [i Hi]. apply lookup_take_Some in Hi as [Hi Hlt].
  destruct (lookup_lt_is_Some_2 l n Hn) as [y Hy].
  assert (Hxy : x.1 < y.1).
  { apply (sorted_lookup_lt l.*1 i n); [done | by rewrite list_lookup_fmap, Hi | by rewrite list_lookup_fmap, Hy | done]. }
  pose proof (Hmax y ltac:(by eapply list_elem_of_lookup_2)). lia.
Qed.

Lemma read_committed_aborted ongoing p offset max_bytes t s :
  table_read ongoing p offset max_bytes ReadCommitted t = Ok s → offset < fs_last_stable s →
  fs_aborted s = aborted_txns p offset (Z.max (fs_next s) (offset + 1)) (tb_meta t).
Proof.
  unfold table_read. destruct (table_high_watermark p t) as [hw|]; [| done]. destruct (log_start_offset p (tb_meta t)) as [start|]; [| done].
  cbn [rbind]. destruct (_ || _); [done |]. set (lso := stable_bound ongoing p hw t).
  destruct (Z.ltb_spec offset lso) as [Hlt|Hge]; [| intros [= <-]; cbn; lia]. destruct (fill _ _ _ _) as [bs n]. by intros [= <-] _.
Qed.

(** The aborted transactions a committed read lists are those that overlap what it
    returns, up to a limit and only up to it: when at most 1000 overlap, exactly those
    are listed; when more do, the one that began last is not listed, though the slice
    is no shorter for it, and a consumer that reads its records takes them for
    committed. *)
Theorem aborted_list_capped ongoing p offset max_bytes t s :
  table_read ongoing p offset max_bytes ReadCommitted t = Ok s → offset < fs_last_stable s →
  let all := overlapping p offset (Z.max (fs_next s) (offset + 1)) (tb_meta t) in
  ((length all ≤ MAX_ABORTED_PER_FETCH)%nat → ∀ producer first,
     (producer, first) ∈ fs_aborted s ↔ ∃ last, abort_index p (tb_meta t) !! first = Some (producer, last) ∧
       offset ≤ last ∧ first < Z.max (fs_next s) (offset + 1)) ∧
  ((MAX_ABORTED_PER_FETCH < length all)%nat → ∀ e, e ∈ all → (∀ e', e' ∈ all → e'.1 ≤ e.1) →
     ∀ producer, (producer, e.1) ∉ fs_aborted s).
Proof.
  intros Hr Hlt all. rewrite (read_committed_aborted _ _ _ _ _ _ Hr Hlt). split.
  - intros Hlen producer first. rewrite aborted_txns_elem, take_ge by done. f_equiv. intros l. apply overlapping_elem.
  - intros Hlen e He Hmax producer Hin. apply aborted_txns_elem in Hin as [l Hin]. revert Hin.
    apply (greatest_not_in_prefix _ _ e); [apply filter_sorted, in_order_sorted | done | done | done].
Qed.

(** ** A crowd of aborted transactions *)

(** The log from offset 1000 on, of 1001 transactions that wrote one record each at
    the offsets 0 to 1000 and were then all aborted. *)
Definition crowd_index : gmap Z (Z * Z) := list_to_map ((λ i, (i, (i, 3000))) <$> seqZ 0 1001).
Definition crowd_row : LogRow := mk_logrow 1000 (Records.stamp (mk_batch (sample_batch [x01; x02])) 1000 0) 0 0 sample_raw.
Definition crowd : Table :=
  mk_table (mk_meta {[(1, 0) := mk_partition 1000 0 0]} ∅ ∅ {[(1, 0) := crowd_index]} ∅)
    {[(1, 0) := mk_tpart 5000 {[1000 := crowd_row]} {[0 := mk_segment 100000 1000 0 63]}]}.

Lemma crowd_nodup : NoDup ((λ i, (i, (i, 3000))) <$> seqZ 0 1001).*1.
Proof. rewrite <- list_fmap_compose. cbn. rewrite list_fmap_id. apply NoDup_seqZ. Qed.

Lemma crowd_only f v : crowd_index !! f = Some v → f ≤ 1000 ∧ v = (f, 3000).
Proof.
  intros Hf. apply elem_of_list_to_map_2 in Hf. apply list_elem_of_fmap in Hf as (i & [= -> ->] & Hi). apply elem_of_seqZ in Hi.
  split; [lia | done].
Qed.

Lemma crowd_elem f v : (f, v) ∈ overlapping (1, 0) 1000 1001 (tb_meta crowd) ↔ crowd_index !! f = Some v.
Proof.
  destruct v as [pr l]. rewrite overlapping_elem. change (abort_index (1, 0) (tb_meta crowd)) with crowd_index. split; [tauto |].
  intros Hf. split; [done |]. destruct (crowd_only f _ Hf) as [Hle [= -> ->]]. lia.
Qed.

Lemma crowd_overlapping : length (overlapping (1, 0) 1000 1001 (tb_meta crowd)) = 1001%nat.
Proof.
  unfold overlapping. change (abort_index (1, 0) (tb_meta crowd)) with crowd_index. rewrite filter_every.
  - unfold in_order. rewrite merge_sort_Permutation, length_map_to_list. unfold crowd_index. rewrite map_size_list_to_map; [| apply crowd_nodup].
    by rewrite length_fmap, length_seqZ.
  - apply Forall_forall. intros [f v] Hin. apply in_order_elem in Hin. cbn [fst snd] in *. destruct (crowd_only f v Hin) as [Hle ->]. cbn. lia.
Qed.

Lemma crowd_last : (1000, (1000, 3000)) ∈ overlapping (1, 0) 1000 1001 (tb_meta crowd).
Proof.
  apply crowd_elem, elem_of_list_to_map; [apply crowd_nodup |]. apply (list_elem_of_fmap_2 (λ i, (i, (i, 3000)))), elem_of_seqZ. lia.
Qed.

Lemma aborted_list_capped_witness :
  match table_read (λ _, false) (1, 0) 1000 1 ReadCommitted crowd with
  | Ok s => fs_next s = 1001 ∧ fs_bytes s = lr_batch crowd_row ∧ ∀ producer, (producer, 1000) ∉ fs_aborted s
  | Err _ => False
  end.
Proof.
  set (read := table_read (λ _, false) (1, 0) 1000 1 ReadCommitted crowd).
  assert (E : ∃ s, read = Ok s ∧ fs_next s = 1001 ∧ fs_last_stable s = 5000 ∧ fs_bytes s = lr_batch crowd_row).
  { eexists. split; [reflexivity | split; [reflexivity | split; reflexivity]]. }
  destruct E as (s & Es & En & El & Eb). rewrite Es. split; [exact En |]. split; [exact Eb |].
  destruct (aborted_list_capped (λ _, false) (1, 0) 1000 1 crowd s Es) as [_ Hcap]; [rewrite El; lia |]. rewrite En in Hcap.
  change (Z.max 1001 (1000 + 1)) with 1001 in Hcap.
  apply (Hcap ltac:(rewrite crowd_overlapping; unfold MAX_ABORTED_PER_FETCH; lia) (1000, (1000, 3000)) crowd_last).
  intros [f v] Hin. apply crowd_elem in Hin. by destruct (crowd_only f v Hin).
Defined.
