(* ===== verification/Fetch.v ===== *)
(** * extension/src/handlers/fetch.rs, list_offsets.rs and leader_epoch.rs: reading

    [LogReader] is the part of the [LogStore] trait (storage/mod.rs) these
    handlers call; Table.v's engine is an instance.  A fetch spends one byte
    budget over the partitions of the request in order; the response it builds
    has to fit what [write_response] lets out, by the size its encoding has
    ([FetchWire], codec/src/generated/fetch_response.rs).  [w] is the catalog of Topics.v,
    [acls] and [who] are the authorizer and the caller. *)

From stdpp Require Import gmap strings.
From S2P Require Import Prelude Errors Primitives Header Records RecordIter Cleaner Acl Pmeta Store Offsets Txn Config Topics Table.

#[local] Open Scope Z_scope.

(** ** handlers/mod.rs *)

Definition MAX_RESPONSE_BYTES : Z := 8 * 1024 * 1024.
Definition RESPONSE_HEADROOM : Z := 2 * 1024 * 1024.

(** ** storage/mod.rs *)

Class LogReader (S : Type) := {
  read : Z * Z → Z → Z → IsolationLevel → S → result StoreError FetchSlice;
  reader_high_watermark : Z * Z → S → result StoreError Z;
  reader_last_stable : Z * Z → S → result StoreError Z;
  reader_log_start : Z * Z → S → result StoreError Z;
  reader_leader_epoch : Z * Z → S → result StoreError Z;
  reader_offset_for_timestamp : Z * Z → Z → S → result StoreError (option (Z * Z));
  reader_max_timestamp_offset : Z * Z → S → result StoreError (option (Z * Z));
  reader_epoch_end : Z * Z → Z → S → result StoreError EpochEnd }.

(** The table engine. *)
Definition table_reader (entry_size : Z) (open_decoder : Z → bytes → result BatchError (bytes * option BatchError))
    (ongoing : Z → bool) : LogReader Table :=
  {| read := table_read ongoing;
     reader_high_watermark := table_high_watermark;
     reader_last_stable := table_last_stable_offset ongoing;
     reader_log_start p t := log_start_offset p (tb_meta t);
     reader_leader_epoch p t := leader_epoch p (tb_meta t);
     reader_offset_for_timestamp := table_offset_for_timestamp entry_size open_decoder;
     reader_max_timestamp_offset := table_max_timestamp_offset entry_size open_decoder;
     reader_epoch_end := table_epoch_end_offset |}.

(** ** fetch.rs *)

Module Fetching.

Definition RESPONSE_CEILING : Z := 8 * 1024 * 1024.
Definition PARTITION_CEILING : Z := 1024 * 1024.
Definition MAX_FETCH_PARTITIONS : Z := 4096.
Definition ABORTED_ENTRY_WIRE_BYTES : Z := 24.
Definition PARTITION_ENVELOPE_BYTES : Z := 128.
Definition TOPIC_ENVELOPE_BYTES : Z := 320.
Definition RESPONSE_ENVELOPE_BYTES : Z := 1024.

Record FetchPartition : Type := mk_fp { fp_partition : Z; fp_fetch_offset : Z; fp_max_bytes : Z }.
Record FetchTopic : Type := mk_ft { ft_topic : string; ft_topic_id : bytes; ft_partitions : list FetchPartition }.
Record FetchRequest : Type := mk_fetch { fq_max_bytes : Z; fq_isolation_level : Z; fq_topics : list FetchTopic }.

Record PartitionData : Type := mk_data {
  dt_index : Z;
  dt_error : ErrorCode.t;
  dt_high_watermark : Z;
  dt_last_stable : Z;
  dt_log_start : Z;
  dt_aborted : list (Z * Z);
  dt_records : bytes }.
Record FetchableTopicResponse : Type := mk_ftr {
  tr_topic : string;
  tr_topic_id : bytes;
  tr_partitions : list PartitionData }.

Definition clamp_bytes (requested ceiling : Z) : Z := if requested <=? 0 then ceiling else Z.min requested ceiling.

Definition partition_error (index : Z) (code : ErrorCode.t) : PartitionData := mk_data index code (-1) (-1) (-1) [] [].
Definition empty_partition (index : Z) : PartitionData := mk_data index ErrorCode.NoError (-1) (-1) (-1) [] [].

Definition total_partitions (req : FetchRequest) : Z :=
  foldr Z.add 0 ((λ t, Z.of_nat (length (ft_partitions t))) <$> fq_topics req).
Definition envelope (req : FetchRequest) : Z :=
  RESPONSE_ENVELOPE_BYTES + Z.of_nat (length (fq_topics req)) * TOPIC_ENVELOPE_BYTES +
  total_partitions req * PARTITION_ENVELOPE_BYTES.
Definition initial_budget (req : FetchRequest) : Z :=
  clamp_bytes (fq_max_bytes req) (Z.max 0 (RESPONSE_CEILING - envelope req)).

Section Handler.

Context {L S : Type} `{LogReader S}.
Variables (w : World L) (store : S) (acls : AclCache) (who : Principal).

(** What a slice costs of the budget. *)
Definition slice_cost (s : FetchSlice) : Z :=
  len (fs_bytes s) + Z.of_nat (length (fs_aborted s)) * ABORTED_ENTRY_WIRE_BYTES.

(** What is left to spend, and whether a partition has been served. *)
Record Spending : Type := mk_spending { sp_budget : Z; sp_served : bool }.

Definition fetch_partition (iso : IsolationLevel) (topic_id : option Z) (denied : option ErrorCode.t)
    (st : Spending) (p : FetchPartition) : PartitionData * Spending :=
  match denied with
  | Some code => (partition_error (fp_partition p) code, st)
  | None =>
      let per_partition := Z.min (clamp_bytes (fp_max_bytes p) PARTITION_CEILING) (sp_budget st) in
      if sp_budget st =? 0 then (empty_partition (fp_partition p), st)
      else
        match topic_id with
        | None => (partition_error (fp_partition p) ErrorCode.UnknownTopicOrPartition, st)
        | Some tid =>
            match read (tid, fp_partition p) (fp_fetch_offset p) per_partition iso store with
            | Err e => (partition_error (fp_partition p) (store_error_code e), st)
            | Ok slice =>
                let over := sp_served st && (per_partition <? len (fs_bytes slice)) in
                let slice := if over then mk_slice [] (fs_next slice) (fs_high_watermark slice) (fs_log_start slice)
                                            (fs_last_stable slice) []
                             else slice in
                let budget := if over then 0 else sp_budget st in
                let served := sp_served st || (0 <? len (fs_bytes slice)) in
                (mk_data (fp_partition p) ErrorCode.NoError (fs_high_watermark slice) (fs_last_stable slice)
                   (fs_log_start slice) (fs_aborted slice) (fs_bytes slice),
                 mk_spending (Z.max 0 (budget - slice_cost slice)) served)
            end
        end
  end.

Fixpoint fetch_partitions (iso : IsolationLevel) (topic_id : option Z) (denied : option ErrorCode.t)
    (st : Spending) (l : list FetchPartition) : list PartitionData * Spending :=
  match l with
  | [] => ([], st)
  | p :: l' =>
      let '(d, st) := fetch_partition iso topic_id denied st p in
      let '(ds, st) := fetch_partitions iso topic_id denied st l' in
      (d :: ds, st)
  end.

Definition fetch_topic (iso : IsolationLevel) (st : Spending) (t : FetchTopic) : FetchableTopicResponse * Spending :=
  let resolved := resolve_topic (ft_topic t) (ft_topic_id t) w in
  let name := match resolved with Some r => rt_name r | None => ft_topic t end in
  let denied := match check acls who Acl.Read Acl.Topic name with Err code => Some code | Ok _ => None end in
  let '(ds, st) := fetch_partitions iso (rt_topic_id <$> resolved) denied st (ft_partitions t) in
  (mk_ftr name (ft_topic_id t) ds, st).

Fixpoint fetch_topics (iso : IsolationLevel) (st : Spending) (l : list FetchTopic)
    : list FetchableTopicResponse * Spending :=
  match l with
  | [] => ([], st)
  | t :: l' =>
      let '(r, st) := fetch_topic iso st t in
      let '(rs, st) := fetch_topics iso st l' in
      (r :: rs, st)
  end.

Definition handle (req : FetchRequest) : result HandlerError (list FetchableTopicResponse) :=
  let iso := if fq_isolation_level req =? 1 then ReadCommitted else ReadUncommitted in
  if MAX_FETCH_PARTITIONS <? Z.of_nat (length (fq_topics req))
  then Err (TooLarge "fetch topic list" (Z.of_nat (length (fq_topics req))))
  else if MAX_FETCH_PARTITIONS <? total_partitions req
  then Err (TooLarge "fetch partition list" (total_partitions req))
  else Ok (fetch_topics iso (mk_spending (initial_budget req) false) (fq_topics req)).1.

Definition watched_partitions (req : FetchRequest) : list (Z * Z) :=
  concat ((λ t, match resolve_topic (ft_topic t) (ft_topic_id t) w with
                | Some r => (λ p, (rt_topic_id r, fp_partition p)) <$> ft_partitions t
                | None => []
                end) <$> fq_topics req).

End Handler.

Definition all_data (resp : list FetchableTopicResponse) : list PartitionData := concat (tr_partitions <$> resp).
Definition records_bytes (resp : list FetchableTopicResponse) : Z :=
  foldr Z.add 0 ((λ d, len (dt_records d)) <$> all_data resp).
Definition has_error (resp : list FetchableTopicResponse) : bool :=
  existsb (λ d, negb (bool_decide (dt_error d = ErrorCode.NoError))) (all_data resp).

End Fetching.

(** ** generated/fetch_response.rs: the size on the wire

    The handler sets no tagged field, unknown or known, of the response or its parts. *)

Module FetchWire.

Definition FETCH_KEY : Z := 1.
Definition flexible (version : Z) : bool := 12 <=? version.
Definition no_tags (version : Z) : Z := if flexible version then uvarint_size 0 else 0.

Definition aborted_size (version : Z) : Z := 8 + 8 + no_tags version.
Definition partition_size (version : Z) (d : Fetching.PartitionData) : Z :=
  4 + 2 + 8 + 8 + (if 5 <=? version then 8 else 0)
  + array_len_size (Z.of_nat (length (Fetching.dt_aborted d))) (flexible version)
  + foldr Z.add 0 ((λ _, aborted_size version) <$> Fetching.dt_aborted d)
  + (if 11 <=? version then 4 else 0)
  + nullable_bytes_size (Some (Fetching.dt_records d)) (flexible version) + no_tags version.
Definition topic_size (version : Z) (t : Fetching.FetchableTopicResponse) : Z :=
  let name := Z.of_nat (String.length (Fetching.tr_topic t)) in
  (if version <=? 12 then len_size name (flexible version) false + name else 0)
  + (if 13 <=? version then 16 else 0)
  + array_len_size (Z.of_nat (length (Fetching.tr_partitions t))) (flexible version)
  + foldr Z.add 0 (partition_size version <$> Fetching.tr_partitions t) + no_tags version.
Definition response_size (version : Z) (resp : list Fetching.FetchableTopicResponse) : Z :=
  4 + (if 7 <=? version then 2 else 0) + (if 7 <=? version then 4 else 0)
  + array_len_size (Z.of_nat (length resp)) (flexible version)
  + foldr Z.add 0 (topic_size version <$> resp) + no_tags version.

(** [write_response]: the bytes it makes room for and encodes into, or that they are too
    many.  The encoders themselves, which write what [size] counts, are not run here. *)
Definition write_response (version correlation_id : Z) (resp : list Fetching.FetchableTopicResponse) : result HandlerError Z :=
  match response_header_version FETCH_KEY version with
  | Err e => Err (Codec e)
  | Ok header_version =>
      let total := rs_size (mk_ResponseHeader correlation_id []) header_version + response_size version resp in
      if MAX_RESPONSE_BYTES + RESPONSE_HEADROOM <? total then Err (TooLarge "response" total) else Ok total
  end.

End FetchWire.

(** ** list_offsets.rs *)

Module ListOffsets.

Definition MAX_LIST_OFFSETS_PARTITIONS : Z := 4096.
Definition TIMESTAMP_EARLIEST : Z := -2.
Definition TIMESTAMP_LATEST : Z := -1.
Definition TIMESTAMP_MAX : Z := -3.
Definition TIMESTAMP_EARLIEST_LOCAL : Z := -4.
Definition TIMESTAMP_LATEST_TIERED : Z := -5.
Definition TIMESTAMP_EARLIEST_PENDING_UPLOAD : Z := -6.
Definition OFFSET_NOT_FOUND : Z := -1.

Definition sentinel_since (timestamp : Z) : option Z :=
  if timestamp =? TIMESTAMP_MAX then Some 7
  else if timestamp =? TIMESTAMP_EARLIEST_LOCAL then Some 8
  else if timestamp =? TIMESTAMP_LATEST_TIERED then Some 9
  else if timestamp =? TIMESTAMP_EARLIEST_PENDING_UPLOAD then Some 11
  else None.

Record PartitionResponse : Type := mk_lo {
  lo_index : Z;
  lo_error : ErrorCode.t;
  lo_timestamp : Z;
  lo_offset : Z;
  lo_leader_epoch : Z }.

(** A topic of the request: its name, and partitions with the time asked for. *)
Definition LoTopic : Type := string * list (Z * Z).

Definition err_partition (index : Z) (code : ErrorCode.t) : PartitionResponse := mk_lo index code (-1) (-1) (-1).

Section Handler.

Context {L S : Type} `{LogReader S}.
Variables (w : World L) (store : S) (acls : AclCache) (who : Principal).

Definition committed_only (p : Z * Z) (read_committed : bool) (found : result StoreError (option (Z * Z)))
    : result StoreError (option (Z * Z)) :=
  let? f := found in
  match f with
  | None => Ok None
  | Some (offset, ts) =>
      if read_committed then
        let? lso := reader_last_stable p store in
        if lso <=? offset then Ok None else Ok (Some (offset, ts))
      else Ok (Some (offset, ts))
  end.

(** [Some (o, -1)]: an offset without a record's own time. *)
Definition plain (r : result StoreError Z) : result StoreError (option (Z * Z)) := let? o := r in Ok (Some (o, -1)).

(** [None] for a sentinel there is not. *)
Definition lookup_time (p : Z * Z) (timestamp : Z) (read_committed : bool) : option (result StoreError (option (Z * Z))) :=
  if timestamp =? TIMESTAMP_MAX then Some (committed_only p read_committed (reader_max_timestamp_offset p store))
  else if timestamp =? TIMESTAMP_EARLIEST then Some (plain (reader_log_start p store))
  else if (timestamp =? TIMESTAMP_LATEST) && read_committed then Some (plain (reader_last_stable p store))
  else if timestamp =? TIMESTAMP_LATEST then Some (plain (reader_high_watermark p store))
  else if timestamp =? TIMESTAMP_EARLIEST_LOCAL then Some (plain (reader_log_start p store))
  else if (timestamp =? TIMESTAMP_LATEST_TIERED) || (timestamp =? TIMESTAMP_EARLIEST_PENDING_UPLOAD) then Some (Ok None)
  else if timestamp <? 0 then None
  else Some (committed_only p read_committed (reader_offset_for_timestamp p timestamp store)).

Definition resolve (p : Z * Z) (timestamp : Z) (read_committed : bool) : PartitionResponse :=
  let epoch := match reader_leader_epoch p store with Ok e => e | Err _ => -1 end in
  match lookup_time p timestamp read_committed with
  | None => err_partition p.2 ErrorCode.UnsupportedVersion
  | Some (Ok found) =>
      mk_lo p.2 ErrorCode.NoError (match found with Some (_, ts) => ts | None => -1 end)
        (match found with Some (o, _) => o | None => OFFSET_NOT_FOUND end) epoch
  | Some (Err e) => err_partition p.2 (store_error_code e)
  end.

Definition answer_topic (version isolation_level : Z) (t : LoTopic) : string * list PartitionResponse :=
  let topic_id := topic_id_by_name t.1 (w_tx w) in
  let denied := match check acls who Acl.Describe Acl.Topic t.1 with Err code => Some code | Ok _ => None end in
  (t.1, (λ p : Z * Z,
    match denied with
    | Some code => err_partition p.1 code
    | None =>
        if match sentinel_since p.2 with Some since => version <? since | None => false end
        then err_partition p.1 ErrorCode.UnsupportedVersion
        else match topic_id with
             | None => err_partition p.1 ErrorCode.UnknownTopicOrPartition
             | Some tid => resolve (tid, p.1) p.2 (isolation_level =? 1)
             end
    end) <$> t.2).

Definition handle (version isolation_level : Z) (topics : list LoTopic)
    : result HandlerError (list (string * list PartitionResponse)) :=
  let total := foldr Z.add 0 ((λ t : LoTopic, Z.of_nat (length t.2)) <$> topics) in
  if MAX_LIST_OFFSETS_PARTITIONS <? Z.of_nat (length topics)
  then Err (TooLarge "list offsets topic list" (Z.of_nat (length topics)))
  else if MAX_LIST_OFFSETS_PARTITIONS <? total then Err (TooLarge "list offsets partition list" total)
  else Ok (answer_topic version isolation_level <$> topics).

End Handler.

End ListOffsets.

(** ** leader_epoch.rs *)

Module LeaderEpoch.

Definition NO_CURRENT_EPOCH : Z := -1.

Record EpochQuestion : Type := mk_question { eq_partition : Z; eq_current : Z; eq_leader_epoch : Z }.
Record EpochEndOffset : Type := mk_answer {
  ea_error : ErrorCode.t;
  ea_partition : Z;
  ea_leader_epoch : Z;
  ea_end_offset : Z }.

Section Handler.

Context {L S : Type} `{LogReader S}.
Variables (w : World L) (store : S) (acls : AclCache) (who : Principal).

Definition fail (q : EpochQuestion) (code : ErrorCode.t) : EpochEndOffset := mk_answer code (eq_partition q) (-1) (-1).

Definition answer (topic_id : option Z) (denied : option ErrorCode.t) (q : EpochQuestion) : EpochEndOffset :=
  match denied, topic_id with
  | Some code, _ => fail q code
  | None, None => fail q ErrorCode.UnknownTopicOrPartition
  | None, Some tid =>
      match reader_leader_epoch (tid, eq_partition q) store with
      | Err e => fail q (store_error_code e)
      | Ok current =>
          if negb (eq_current q =? NO_CURRENT_EPOCH) && (eq_current q <? current) then fail q ErrorCode.FencedLeaderEpoch
          else if negb (eq_current q =? NO_CURRENT_EPOCH) && (current <? eq_current q) then fail q ErrorCode.UnknownLeaderEpoch
          else match reader_epoch_end (tid, eq_partition q) (eq_leader_epoch q) store with
               | Ok e => mk_answer ErrorCode.NoError (eq_partition q) (ee_leader_epoch e) (ee_end_offset e)
               | Err e => fail q (store_error_code e)
               end
      end
  end.

Definition handle (topics : list (string * list EpochQuestion))
    : result HandlerError (list (string * list EpochEndOffset)) :=
  let? _ := check_admin_len "leader epoch partition list"
              (foldr Z.add 0 ((λ t : string * list EpochQuestion, Z.of_nat (length t.2)) <$> topics)) in
  Ok ((λ t : string * list EpochQuestion,
    let denied := match check acls who Acl.Describe Acl.Topic t.1 with Err code => Some code | Ok _ => None end in
    (t.1, answer (topic_id_by_name t.1 (w_tx w)) denied <$> t.2)) <$> topics).

End Handler.

End LeaderEpoch.
