(* ===== verification/FetchSpec.v ===== *)
(** * The read handlers: what a client gets

    The encoded response of a fetch is within what the connection lets out, over a
    store whose batches are not too large, and is empty only when there was nothing
    to read.  ListOffsets
    over the table engine answers with offsets a fetch accepts, but for two cases
    below the log start, which are shown. *)

From stdpp Require Import gmap strings sorting.
From S2P Require Import Prelude Errors Primitives Header Records RecordIter Compaction Cleaner Acl Pmeta Store Offsets Txn Config Topics Table TableSpec TableRead Fetch.

#[local] Open Scope Z_scope.

(** ** The size of a response *)

(** A reader stays within the limit or returns one batch no larger than
    [largest]; it reports a bounded number of aborted transactions. *)
Record reader_capped {S} `{LogReader S} (largest : Z) (store : S) : Prop := mk_capped {
  cp_bytes p offset max_bytes iso s : read p offset max_bytes iso store = Ok s → len (fs_bytes s) ≤ Z.max max_bytes largest;
  cp_aborted p offset max_bytes iso s : read p offset max_bytes iso store = Ok s → (length (fs_aborted s) ≤ MAX_ABORTED_PER_FETCH)%nat }.

(** What the partitions of a response hold. *)
Definition data_cost (d : Fetching.PartitionData) : Z :=
  len (Fetching.dt_records d) + Z.of_nat (length (Fetching.dt_aborted d)) * Fetching.ABORTED_ENTRY_WIRE_BYTES.
Definition payload (l : list Fetching.PartitionData) : Z := foldr Z.add 0 (data_cost <$> l).

Lemma payload_app l l' : payload (l ++ l') = payload l + payload l'.
Proof. unfold payload. rewrite fmap_app, foldr_app. induction l as [|d l IH]; cbn in *; lia. Qed.

Lemma data_cost_nonneg d : 0 ≤ data_cost d.
Proof. unfold data_cost, Fetching.ABORTED_ENTRY_WIRE_BYTES. pose proof (len_nonneg (Fetching.dt_records d)). lia. Qed.

(** The entries a list of aborted transactions costs at most. *)
Definition aborted_room : Z := Z.of_nat MAX_ABORTED_PER_FETCH * Fetching.ABORTED_ENTRY_WIRE_BYTES.

(** A store that reports no aborted transaction without records beside. *)
Definition lists_beside {S} `{LogReader S} (store : S) : Prop :=
  ∀ p offset max_bytes iso s, read p offset max_bytes iso store = Ok s → fs_bytes s = [] → fs_aborted s = [].

Lemma len_nil_inv (bs : bytes) : len bs ≤ 0 → bs = [].
Proof. destruct bs; [done |]. unfold len. cbn. lia. Qed.

Section Sizes.

Context {L S : Type} `{LogReader S}.
Variables (w : World L) (store : S) (acls : AclCache) (who : Principal) (largest budget0 top : Z).
Hypothesis Hcap : reader_capped largest store.
Hypothesis Hpos : 0 ≤ largest.
(** What records and lists may come to: the first batch may overshoot what is left of the
    budget, of which lists without records may have taken some. *)
Hypothesis Htop : budget0 ≤ top ∧ (largest ≤ top ∧ lists_beside store ∨ budget0 + largest ≤ top).

(** The list of the slice that used the budget up. *)
Definition last_list (st : Fetching.Spending) : Z := if Fetching.sp_budget st =? 0 then aborted_room else 0.

(** What has been spent and what is left. *)
Definition within (spent : Z) (st : Fetching.Spending) : Prop :=
  0 ≤ Fetching.sp_budget st ≤ budget0 ∧
  (Fetching.sp_served st = false → spent + Fetching.sp_budget st ≤ budget0 + last_list st ∧
     (lists_beside store → spent = 0 ∧ Fetching.sp_budget st = budget0)) ∧
  spent + Fetching.sp_budget st ≤ top + last_list st.

Lemma within_slice spent st per s : within spent st → Fetching.sp_budget st ≠ 0 → per ≤ Fetching.sp_budget st →
  len (fs_bytes s) ≤ Z.max per largest → (length (fs_aborted s) ≤ MAX_ABORTED_PER_FETCH)%nat →
  (lists_beside store → fs_bytes s = [] → fs_aborted s = []) → (Fetching.sp_served st = true → len (fs_bytes s) ≤ per) →
  within (spent + Fetching.slice_cost s)
    (Fetching.mk_spending (Z.max 0 (Fetching.sp_budget st - Fetching.slice_cost s)) (Fetching.sp_served st || (0 <? len (fs_bytes s)))).
Proof using Hpos Htop.
  intros (H1 & H2 & H3) Hne Hper Hb Ha Hl Hs. unfold within, last_list in *. cbn [Fetching.sp_budget Fetching.sp_served].
  rewrite (proj2 (Z.eqb_neq _ _) Hne) in *. pose proof (len_nonneg (fs_bytes s)) as Hlen.
  unfold Fetching.slice_cost, aborted_room, Fetching.ABORTED_ENTRY_WIRE_BYTES, MAX_ABORTED_PER_FETCH in *.
  set (c := len (fs_bytes s) + Z.of_nat (length (fs_aborted s)) * 24). assert (Hc : 0 ≤ c ≤ len (fs_bytes s) + 24000) by (subst c; lia).
  set (left := Z.max 0 (Fetching.sp_budget st - c)). assert (Hleft : left = Z.max 0 (Fetching.sp_budget st - c)) by done. clearbody left.
  destruct Htop as [Hbt Ht]. destruct (Fetching.sp_served st) eqn:Es; cbn [orb].
  - specialize (Hs eq_refl). split_and!; [lia | lia | done | destruct (Z.eqb_spec left 0); lia].
  - destruct (H2 eq_refl) as [H4 H5]. split_and!; [lia | lia | |].
    + intros E. apply Z.ltb_ge in E. split; [destruct (Z.eqb_spec left 0); lia |]. intros Hbe.
      assert (c = 0) as Hc0 by (subst c; rewrite (Hl Hbe (len_nil_inv _ E)); cbn [length]; lia). destruct (H5 Hbe). lia.
    + destruct Ht as [[Hlt Hbe]|Ht]; [destruct (H5 Hbe) |]; destruct (Z.eqb_spec left 0); lia.
Qed.

Lemma within_partition iso tid denied spent st p d st' :
  within spent st → Fetching.fetch_partition store iso tid denied st p = (d, st') → within (spent + data_cost d) st'.
Proof using Hcap Hpos Htop.
  intros Hw. unfold Fetching.fetch_partition.
  assert (Hz : ∀ i c, data_cost (Fetching.partition_error i c) = 0 ∧ data_cost (Fetching.empty_partition i) = 0) by done.
  destruct denied as [code|]; [intros [= <- <-]; rewrite (proj1 (Hz _ _)), Z.add_0_r; done |].
  destruct (Z.eqb_spec (Fetching.sp_budget st) 0) as [E0|E0].
  { intros [= <- <-]. rewrite (proj2 (Hz _ ErrorCode.NoError)), Z.add_0_r. done. }
  destruct tid as [tid|]; [| intros [= <- <-]; rewrite (proj1 (Hz _ _)), Z.add_0_r; done].
  set (per := Z.min _ _). destruct (read _ _ per iso store) as [s|e] eqn:Er; [| intros [= <- <-]; rewrite (proj1 (Hz _ _)), Z.add_0_r; done].
  pose proof (cp_bytes _ _ Hcap _ _ _ _ _ Er) as Hb. pose proof (cp_aborted _ _ Hcap _ _ _ _ _ Er) as Ha.
  assert (Hper : per ≤ Fetching.sp_budget st) by (subst per; lia).
  destruct (Fetching.sp_served st && (per <? len (fs_bytes s))) eqn:Eo; intros [= <- <-].
  - apply andb_true_iff in Eo as [Es _]. cbn [fs_bytes fs_aborted]. unfold data_cost, Fetching.slice_cost, within, last_list in *.
    cbn [Fetching.dt_records Fetching.dt_aborted fs_bytes fs_aborted length Fetching.sp_budget Fetching.sp_served]. rewrite Es in *. change (len []) with 0.
    change (Z.max 0 (0 - (0 + Z.of_nat 0 * Fetching.ABORTED_ENTRY_WIRE_BYTES))) with 0.
    rewrite (proj2 (Z.eqb_neq _ _) E0) in Hw. cbn [Z.eqb orb]. unfold aborted_room, MAX_ABORTED_PER_FETCH, Fetching.ABORTED_ENTRY_WIRE_BYTES.
    destruct Hw as (? & _ & ?). split_and!; [lia | lia | done | lia].
  - change (data_cost _) with (Fetching.slice_cost s). apply (within_slice spent st per s); try done.
    + intros Hbe. by eapply Hbe.
    + intros Es. rewrite Es in Eo. cbn in Eo. by apply Z.ltb_ge.
Qed.

Lemma within_partitions iso tid denied l : ∀ spent st ds st',
  Fetching.fetch_partitions store iso tid denied st l = (ds, st') → within spent st → within (spent + payload ds) st'.
Proof using Hcap Hpos Htop.
  induction l as [|p l IH]; intros spent st ds st'; cbn [Fetching.fetch_partitions].
  { intros [= <- <-]. change (payload []) with 0. by rewrite Z.add_0_r. }
  destruct (Fetching.fetch_partition store iso tid denied st p) as [d st1] eqn:E1.
  destruct (Fetching.fetch_partitions store iso tid denied st1 l) as [ds1 st2] eqn:E2. intros [= <- <-] Hw.
  change (payload (d :: ds1)) with (data_cost d + payload ds1). rewrite Z.add_assoc. eapply IH; [exact E2 |]. by eapply within_partition.
Qed.

Lemma within_topics iso l : ∀ spent st rs st',
  Fetching.fetch_topics w store acls who iso st l = (rs, st') → within spent st → within (spent + payload (Fetching.all_data rs)) st'.
Proof using Hcap Hpos Htop.
  induction l as [|t l IH]; intros spent st rs st'; cbn [Fetching.fetch_topics].
  { intros [= <- <-]. change (payload (Fetching.all_data [])) with 0. by rewrite Z.add_0_r. }
  unfold Fetching.fetch_topic. set (resolved := resolve_topic _ _ _).
  destruct (Fetching.fetch_partitions store iso _ _ st (Fetching.ft_partitions t)) as [ds st1] eqn:E1.
  destruct (Fetching.fetch_topics w store acls who iso st1 l) as [rs1 st2] eqn:E2. intros [= <- <-].
  unfold Fetching.all_data. cbn [fmap list_fmap concat Fetching.tr_partitions]. intros Hw. rewrite payload_app, Z.add_assoc.
  eapply IH; [exact E2 |]. by eapply within_partitions.
Qed.

End Sizes.

(** ** The size of its encoding *)

Lemma uvarint_size_bound v : 1 ≤ uvarint_size v ≤ 6.
Proof.
  unfold uvarint_size. assert (∀ fuel v n, n ≤ uvarint_size_loop fuel v n ≤ n + Z.of_nat fuel) as Hl; [| specialize (Hl 5%nat v 1); lia].
  induction fuel as [|fuel IH]; intros x n; cbn [uvarint_size_loop]; [lia |]. destruct (128 <=? x); [| lia]. specialize (IH (Z.shiftr x 7) (n + 1)). lia.
Qed.

Lemma len_size_bound n f wide : 0 ≤ len_size n f wide ≤ 6.
Proof. unfold len_size. destruct f; [pose proof (uvarint_size_bound (wrap_u 32 (wrap_u 32 n + 1))); lia |]. destruct wide; lia. Qed.

Lemma no_tags_bound version : 0 ≤ FetchWire.no_tags version ≤ 1.
Proof. unfold FetchWire.no_tags. change (uvarint_size 0) with 1. destruct (FetchWire.flexible version); lia. Qed.

Lemma partition_size_bound version d : FetchWire.partition_size version d ≤ Fetching.PARTITION_ENVELOPE_BYTES + data_cost d.
Proof.
  unfold FetchWire.partition_size, data_cost, nullable_bytes_size, bytes_size, array_len_size. pose proof (no_tags_bound version).
  assert (Ha : foldr Z.add 0 ((λ _, FetchWire.aborted_size version) <$> Fetching.dt_aborted d) ≤
    Z.of_nat (length (Fetching.dt_aborted d)) * Fetching.ABORTED_ENTRY_WIRE_BYTES).
  { unfold FetchWire.aborted_size, Fetching.ABORTED_ENTRY_WIRE_BYTES. induction (Fetching.dt_aborted d); cbn [fmap list_fmap foldr length]; lia. }
  pose proof (len_size_bound (Z.of_nat (length (Fetching.dt_aborted d))) (FetchWire.flexible version) true).
  pose proof (len_size_bound (len (Fetching.dt_records d)) (FetchWire.flexible version) true).
  unfold Fetching.PARTITION_ENVELOPE_BYTES. destruct (5 <=? version), (11 <=? version); lia.
Qed.

(** A topic name no longer than those that can be created. *)
Definition short_name (n : string) : Prop := Z.of_nat (String.length n) ≤ 249.

Lemma topic_size_bound version t : (version ≤ 12 → short_name (Fetching.tr_topic t)) →
  FetchWire.topic_size version t ≤ Fetching.TOPIC_ENVELOPE_BYTES
    + Z.of_nat (length (Fetching.tr_partitions t)) * Fetching.PARTITION_ENVELOPE_BYTES + payload (Fetching.tr_partitions t).
Proof.
  intros Hn. unfold FetchWire.topic_size, array_len_size. cbv zeta. pose proof (no_tags_bound version).
  assert (Hp : foldr Z.add 0 (FetchWire.partition_size version <$> Fetching.tr_partitions t) ≤
    Z.of_nat (length (Fetching.tr_partitions t)) * Fetching.PARTITION_ENVELOPE_BYTES + payload (Fetching.tr_partitions t)).
  { unfold payload. induction (Fetching.tr_partitions t) as [|d l IH]; cbn [fmap list_fmap foldr length]; [lia |].
    pose proof (partition_size_bound version d). unfold Fetching.PARTITION_ENVELOPE_BYTES in *. lia. }
  pose proof (len_size_bound (Z.of_nat (String.length (Fetching.tr_topic t))) (FetchWire.flexible version) false).
  pose proof (len_size_bound (Z.of_nat (length (Fetching.tr_partitions t))) (FetchWire.flexible version) true).
  unfold Fetching.TOPIC_ENVELOPE_BYTES, short_name in *. destruct (Z.leb_spec version 12), (Z.leb_spec 13 version); lia.
Qed.

Lemma response_size_bound version resp : (version ≤ 12 → Forall (λ t, short_name (Fetching.tr_topic t)) resp) →
  FetchWire.response_size version resp ≤ 17 + Z.of_nat (length resp) * Fetching.TOPIC_ENVELOPE_BYTES
    + foldr Z.add 0 ((λ t, Z.of_nat (length (Fetching.tr_partitions t))) <$> resp) * Fetching.PARTITION_ENVELOPE_BYTES
    + payload (Fetching.all_data resp).
Proof.
  intros Hn. unfold FetchWire.response_size, array_len_size. pose proof (no_tags_bound version).
  assert (Hp : foldr Z.add 0 (FetchWire.topic_size version <$> resp) ≤ Z.of_nat (length resp) * Fetching.TOPIC_ENVELOPE_BYTES
    + foldr Z.add 0 ((λ t, Z.of_nat (length (Fetching.tr_partitions t))) <$> resp) * Fetching.PARTITION_ENVELOPE_BYTES
    + payload (Fetching.all_data resp)).
  { unfold Fetching.all_data. induction resp as [|t l IH]; cbn [fmap list_fmap foldr length concat]; [by vm_compute |]. rewrite payload_app.
    pose proof (topic_size_bound version t) as Ht. specialize (IH (λ Hv, Forall_inv_tail (Hn Hv))). specialize (Ht (λ Hv, Forall_inv (Hn Hv))).
    unfold Fetching.PARTITION_ENVELOPE_BYTES, Fetching.TOPIC_ENVELOPE_BYTES in *. lia. }
  pose proof (len_size_bound (Z.of_nat (length resp)) (FetchWire.flexible version) true). destruct (7 <=? version); lia.
Qed.

Lemma clamp_bounds requested ceiling : 0 < ceiling → 0 < Fetching.clamp_bytes requested ceiling ≤ ceiling.
Proof. unfold Fetching.clamp_bytes. destruct (Z.leb_spec requested 0); lia. Qed.

Lemma total_partitions_nonneg req : 0 ≤ Fetching.total_partitions req.
Proof. unfold Fetching.total_partitions. induction (Fetching.fq_topics req); cbn in *; lia. Qed.

(** A request that is let in leaves room for records. *)
Lemma envelope_bounds req :
  Z.of_nat (length (Fetching.fq_topics req)) ≤ Fetching.MAX_FETCH_PARTITIONS → Fetching.total_partitions req ≤ Fetching.MAX_FETCH_PARTITIONS →
  0 < Fetching.initial_budget req ≤ Fetching.RESPONSE_CEILING - Fetching.envelope req ∧ 0 ≤ Fetching.envelope req ≤ 1836032.
Proof.
  intros H1 H2. pose proof (total_partitions_nonneg req).
  assert (He : 0 ≤ Fetching.envelope req ≤ 1836032).
  { unfold Fetching.envelope, Fetching.RESPONSE_ENVELOPE_BYTES, Fetching.TOPIC_ENVELOPE_BYTES, Fetching.PARTITION_ENVELOPE_BYTES, Fetching.MAX_FETCH_PARTITIONS in *. lia. }
  unfold Fetching.initial_budget, Fetching.RESPONSE_CEILING in *. rewrite Z.max_r by lia. split; [| lia]. apply clamp_bounds. lia.
Qed.

(** The name a topic of the request is answered under. *)
Definition answered_name {L} (w : World L) (t : Fetching.FetchTopic) : string :=
  match resolve_topic (Fetching.ft_topic t) (Fetching.ft_topic_id t) w with Some r => rt_name r | None => Fetching.ft_topic t end.

(** The response has the topics and partitions of the request. *)
Lemma fetch_shape {L S} `{LogReader S} (w : World L) (store : S) acls who iso l : ∀ st rs st',
  Fetching.fetch_topics w store acls who iso st l = (rs, st') →
  Fetching.tr_topic <$> rs = answered_name w <$> l ∧
  (λ t, length (Fetching.tr_partitions t)) <$> rs = (λ t, length (Fetching.ft_partitions t)) <$> l.
Proof.
  induction l as [|t l IH]; intros st rs st'; cbn [Fetching.fetch_topics]; [by intros [= <- _] |].
  unfold Fetching.fetch_topic. destruct (Fetching.fetch_partitions store iso _ _ st (Fetching.ft_partitions t)) as [ds st1] eqn:E1.
  destruct (Fetching.fetch_topics w store acls who iso st1 l) as [rs1 st2] eqn:E2. intros [= <- _]. destruct (IH _ _ _ E2) as [H1 H2].
  rewrite !fmap_cons. cbn [Fetching.tr_topic Fetching.tr_partitions]. rewrite H1, H2. split; [done |]. f_equal. clear -E1.
  revert st ds st1 E1. induction (Fetching.ft_partitions t) as [|p ps IH]; intros st ds st1; cbn [Fetching.fetch_partitions]; [by intros [= <- _] |].
  destruct (Fetching.fetch_partition _ _ _ _ st p) as [d st2]. destruct (Fetching.fetch_partitions _ _ _ _ st2 ps) as [ds2 st3] eqn:E.
  intros [= <- _]. cbn. f_equal. by eapply IH.
Qed.

(** The records and the lists of a response, with the room the handler sets aside. *)
Lemma fetch_payload {L S} `{LogReader S} (w : World L) (store : S) acls who largest req resp :
  reader_capped largest store → 0 ≤ largest →
  largest ≤ RESPONSE_HEADROOM - aborted_room ∨ (largest ≤ Fetching.RESPONSE_CEILING ∧ lists_beside store) →
  Fetching.handle w store acls who req = Ok resp →
  Fetching.envelope req + payload (Fetching.all_data resp) ≤ MAX_RESPONSE_BYTES + RESPONSE_HEADROOM ∧
  (∃ iso st st', Fetching.fetch_topics w store acls who iso st (Fetching.fq_topics req) = (resp, st')).
Proof.
  intros Hcap Hpos Hlarge. unfold Fetching.handle. destruct (Z.ltb_spec Fetching.MAX_FETCH_PARTITIONS (Z.of_nat (length (Fetching.fq_topics req)))); [done |].
  destruct (Z.ltb_spec Fetching.MAX_FETCH_PARTITIONS (Fetching.total_partitions req)); [done |].
  destruct (envelope_bounds req) as [Hb He]; [done | done |]. set (iso := if _ =? 1 then _ else _). set (st0 := Fetching.mk_spending _ false).
  destruct (Fetching.fetch_topics w store acls who iso st0 (Fetching.fq_topics req)) as [rs st] eqn:E. cbn [fst]. intros [= <-].
  split; [| by exists iso, st0, st].
  assert (∃ top, (Fetching.initial_budget req ≤ top ∧ (largest ≤ top ∧ lists_beside store ∨ Fetching.initial_budget req + largest ≤ top)) ∧
    Fetching.envelope req + top + aborted_room ≤ MAX_RESPONSE_BYTES + RESPONSE_HEADROOM) as (top & Htop & Hsum).
  { unfold aborted_room, MAX_ABORTED_PER_FETCH, Fetching.ABORTED_ENTRY_WIRE_BYTES, MAX_RESPONSE_BYTES, RESPONSE_HEADROOM, Fetching.RESPONSE_CEILING in *.
    destruct Hlarge as [Hl|[Hl Hbe]]; [exists (Fetching.initial_budget req + largest); split; [split; [lia | by right; lia] | lia] |].
    exists (8 * 1024 * 1024). split; [split; [lia | left; by split] | lia]. }
  edestruct (within_topics w store acls who largest (Fetching.initial_budget req) top Hcap Hpos Htop iso _ 0 _ _ _ E) as (Hs1 & _ & Hs2).
  { unfold within, last_list, st0. cbn [Fetching.sp_budget Fetching.sp_served]. rewrite (proj2 (Z.eqb_neq _ _)) by lia. split_and!; lia. }
  unfold last_list, aborted_room, MAX_ABORTED_PER_FETCH, Fetching.ABORTED_ENTRY_WIRE_BYTES in *. destruct (_ =? 0); lia.
Qed.

Lemma fetch_header version : ∃ header_version, response_header_version FetchWire.FETCH_KEY version = Ok header_version.
Proof. unfold response_header_version, is_flexible, FetchWire.FETCH_KEY. by eexists. Qed.

(** C36. A fetch fits.  Over a store that keeps to the limit or to one batch of at most
    2 MiB less the largest list of aborted transactions (or of at most 8 MiB, if it lists
    aborted transactions only beside records), a fetch that is let in and whose topics
    are answered under names of at most 249 bytes (which those of existing topics are;
    from version 13 the response has no names) has a response whose encoding, with its
    header, is within what [write_response] lets out: the response is written, not
    refused after the work. *)
Theorem fetch_fits {L S} `{LogReader S} (w : World L) (store : S) acls who largest req resp version correlation_id :
  reader_capped largest store → 0 ≤ largest →
  largest ≤ RESPONSE_HEADROOM - aborted_room ∨ (largest ≤ Fetching.RESPONSE_CEILING ∧ lists_beside store) →
  (version ≤ 12 → Forall (λ t, short_name (answered_name w t)) (Fetching.fq_topics req)) →
  Fetching.handle w store acls who req = Ok resp →
  ∃ total, FetchWire.write_response version correlation_id resp = Ok total.
Proof.
  intros Hcap Hpos Hlarge Hnames Hh. destruct (fetch_payload w store acls who largest req resp Hcap Hpos Hlarge Hh) as (Hpay & iso & st & st' & Ef).
  destruct (fetch_shape w store acls who iso _ _ _ _ Ef) as [Hn Hp]. unfold FetchWire.write_response.
  destruct (response_header_version FetchWire.FETCH_KEY version) as [header_version|e] eqn:Hv; [| by destruct (fetch_header version) as [? ?]; congruence].
  pose proof (response_size_bound version resp) as Hsize.
  assert (Hrs : rs_size (mk_ResponseHeader correlation_id []) header_version ≤ 5) by (unfold rs_size, tagged_size; cbn; by destruct (_ <=? _)).
  assert (Hlen : length resp = length (Fetching.fq_topics req)) by (by rewrite <- (length_fmap Fetching.tr_topic resp), Hn, length_fmap).
  assert (Hparts : foldr Z.add 0 ((λ t, Z.of_nat (length (Fetching.tr_partitions t))) <$> resp) = Fetching.total_partitions req).
  { unfold Fetching.total_partitions. apply (f_equal (λ l, foldr Z.add 0 (Z.of_nat <$> l))) in Hp. rewrite <- !list_fmap_compose in Hp. exact Hp. }
  rewrite Hlen, Hparts in Hsize. unfold Fetching.envelope, Fetching.RESPONSE_ENVELOPE_BYTES in Hpay.
  assert (Hs : FetchWire.response_size version resp ≤ 17 + Z.of_nat (length (Fetching.fq_topics req)) * Fetching.TOPIC_ENVELOPE_BYTES
    + Fetching.total_partitions req * Fetching.PARTITION_ENVELOPE_BYTES + payload (Fetching.all_data resp)).
  { apply Hsize. intros Hle. specialize (Hnames Hle). apply (Forall_fmap Fetching.tr_topic short_name). rewrite Hn. by apply Forall_fmap. }
  rewrite (proj2 (Z.ltb_ge _ _)) by lia. by eexists.
Qed.

(** The name of a topic there is not is answered as it was asked for: one longer than
    what the connection lets out, which a request may carry, has the response refused. *)
Lemma long_name_refused {L S} `{LogReader S} (w : World L) (store : S) acls who max_bytes iso name version correlation_id :
  version ≤ 12 → MAX_RESPONSE_BYTES + RESPONSE_HEADROOM < Z.of_nat (String.length name) → resolve_topic name [] w = None →
  ∃ resp total, Fetching.handle w store acls who (Fetching.mk_fetch max_bytes iso [Fetching.mk_ft name [] []]) = Ok resp ∧
    FetchWire.write_response version correlation_id resp = Err (TooLarge "response" total).
Proof.
  intros Hv Hlong Hnone. destruct (fetch_header version) as [hv Eh]. exists [Fetching.mk_ftr name [] []].
  unfold Fetching.handle. cbn [Fetching.fq_topics length]. unfold Fetching.total_partitions. cbn [fmap list_fmap foldr Fetching.fq_topics Fetching.ft_partitions length].
  cbn [Fetching.fetch_topics]. unfold Fetching.fetch_topic. cbn [Fetching.ft_topic Fetching.ft_topic_id Fetching.ft_partitions Fetching.fetch_partitions].
  rewrite Hnone. cbn [fst]. eexists. split; [reflexivity |]. unfold FetchWire.write_response.
  rewrite Eh. cbv zeta. rewrite (proj2 (Z.ltb_lt _ _)); [reflexivity |].
  assert (0 ≤ rs_size (mk_ResponseHeader correlation_id []) hv) by (unfold rs_size, tagged_size; cbn; by destruct (_ <=? _)).
  unfold FetchWire.response_size, FetchWire.topic_size, array_len_size. cbn [fmap list_fmap foldr Fetching.tr_topic Fetching.tr_partitions length].
  pose proof (no_tags_bound version). pose proof (len_size_bound 1 (FetchWire.flexible version) true). pose proof (len_size_bound 0 (FetchWire.flexible version) true).
  pose proof (len_size_bound (Z.of_nat (String.length name)) (FetchWire.flexible version) false).
  change (Z.of_nat 1) with 1. change (Z.of_nat 0) with 0. destruct (Z.leb_spec version 12), (7 <=? version), (13 <=? version); lia.
Qed.

(** ** Progress *)

(** A partition of the response that carries nothing. *)
Definition carries_nothing (d : Fetching.PartitionData) : Prop := Fetching.dt_records d = [] ∧ Fetching.dt_aborted d = [].
#[export] Instance carries_nothing_dec d : Decision (carries_nothing d).
Proof. unfold carries_nothing. apply _. Defined.

Section Progress.

Context {L S : Type} `{LogReader S}.
Variables (w : World L) (store : S) (acls : AclCache) (who : Principal).

(** What a partition is read with when nothing has been spent. *)
Definition own_limit (budget : Z) (p : Fetching.FetchPartition) : Z :=
  Z.min (Fetching.clamp_bytes (Fetching.fp_max_bytes p) Fetching.PARTITION_CEILING) budget.

Lemma partition_progress iso tid budget p d st' denied :
  0 < budget → Fetching.fetch_partition store iso tid denied (Fetching.mk_spending budget false) p = (d, st') → carries_nothing d →
  st' = Fetching.mk_spending budget false ∧
  ∀ i s, denied = None → tid = Some i → read (i, Fetching.fp_partition p) (Fetching.fp_fetch_offset p) (own_limit budget p) iso store = Ok s →
    fs_bytes s = [].
Proof using Type.
  intros Hb. unfold Fetching.fetch_partition. destruct denied as [code|]; [by intros [= <- <-] _ |].
  cbn [Fetching.sp_budget Fetching.sp_served]. destruct (Z.eqb_spec budget 0) as [|_]; [lia |].
  destruct tid as [i|]; [| by intros [= <- <-] _]. fold (own_limit budget p). destruct (read _ _ _ _ _) as [s|e] eqn:Er.
  2: { intros [= <- <-] _. split; [done |]. intros i' s _ [= <-]. by rewrite Er. }
  cbn [andb orb]. intros [= <- <-] [Hr Ha]. cbn [Fetching.dt_records Fetching.dt_aborted] in Hr, Ha.
  unfold Fetching.slice_cost. rewrite Hr, Ha. change (len []) with 0. cbn [length Z.of_nat Z.mul Z.add Z.ltb Z.compare]. split.
  - f_equal. lia.
  - intros i' s' _ [= <-]. rewrite Er. by intros [= <-].
Qed.

Lemma partitions_progress iso tid denied budget l : ∀ ds st',
  0 < budget → Fetching.fetch_partitions store iso tid denied (Fetching.mk_spending budget false) l = (ds, st') → Forall carries_nothing ds →
  st' = Fetching.mk_spending budget false ∧
  ∀ p i s, p ∈ l → denied = None → tid = Some i →
    read (i, Fetching.fp_partition p) (Fetching.fp_fetch_offset p) (own_limit budget p) iso store = Ok s → fs_bytes s = [].
Proof using Type.
  intros ds st' Hb. revert ds st'. induction l as [|p l IH]; intros ds st'; cbn [Fetching.fetch_partitions].
  { intros [= <- <-] _. split; [done |]. intros p i s Hp. by apply elem_of_nil in Hp. }
  destruct (Fetching.fetch_partition _ _ _ _ _ p) as [d st1] eqn:E1.
  destruct (Fetching.fetch_partitions _ _ _ _ st1 l) as [ds1 st2] eqn:E2. intros [= <- <-] [Hd Hds]%Forall_cons.
  destruct (partition_progress iso tid budget p d st1 denied Hb E1 Hd) as [-> Hp]. destruct (IH _ _ E2 Hds) as [-> Hl].
  split; [done |]. intros q i s Hq. apply elem_of_cons in Hq as [->|Hq]; [by apply Hp | by apply Hl].
Qed.

Lemma topics_progress iso budget l : ∀ rs st',
  0 < budget → Fetching.fetch_topics w store acls who iso (Fetching.mk_spending budget false) l = (rs, st') →
  Forall carries_nothing (Fetching.all_data rs) →
  ∀ t p r s, t ∈ l → p ∈ Fetching.ft_partitions t → resolve_topic (Fetching.ft_topic t) (Fetching.ft_topic_id t) w = Some r →
    check acls who Acl.Read Acl.Topic (rt_name r) = Ok tt →
    read (rt_topic_id r, Fetching.fp_partition p) (Fetching.fp_fetch_offset p) (own_limit budget p) iso store = Ok s → fs_bytes s = [].
Proof using Type.
  intros rs st' Hb. revert rs st'. induction l as [|t l IH]; intros rs st'; cbn [Fetching.fetch_topics].
  { intros _ _ t p r s Ht. by apply elem_of_nil in Ht. }
  unfold Fetching.fetch_topic. set (resolved := resolve_topic _ _ _). set (denied := match check _ _ _ _ _ with Ok _ => _ | Err _ => _ end).
  destruct (Fetching.fetch_partitions store iso _ denied _ (Fetching.ft_partitions t)) as [ds st1] eqn:E1.
  destruct (Fetching.fetch_topics w store acls who iso st1 l) as [rs1 st2] eqn:E2. intros [= <- <-].
  unfold Fetching.all_data. cbn [fmap list_fmap concat Fetching.tr_partitions]. intros [Hds Hrs]%Forall_app.
  destruct (partitions_progress iso _ _ budget _ _ _ Hb E1 Hds) as [-> Hp]. specialize (IH _ _ E2 Hrs).
  intros t' p r s Ht Hpp Hr Hc Hread. apply elem_of_cons in Ht as [->|Ht]; [| by eapply IH].
  assert (Er : resolved = Some r) by done. apply (Hp p (rt_topic_id r) s Hpp); [| by rewrite Er | done].
  subst denied. rewrite Er. by rewrite Hc.
Qed.

End Progress.

(** C37. A fetch makes progress.  A response that carries no record and no aborted
    transaction is given only when there is nothing to read: every partition of the
    request that exists, whose topic the caller may read and whose offset is in
    range, is empty at that offset under the limits of the request alone, whatever
    stands before it. *)
Theorem fetch_progress {L S} `{LogReader S} (w : World L) (store : S) acls who req resp t p r s :
  Fetching.handle w store acls who req = Ok resp → Forall carries_nothing (Fetching.all_data resp) →
  t ∈ Fetching.fq_topics req → p ∈ Fetching.ft_partitions t →
  resolve_topic (Fetching.ft_topic t) (Fetching.ft_topic_id t) w = Some r → check acls who Acl.Read Acl.Topic (rt_name r) = Ok tt →
  read (rt_topic_id r, Fetching.fp_partition p) (Fetching.fp_fetch_offset p) (own_limit (Fetching.initial_budget req) p)
    (if Fetching.fq_isolation_level req =? 1 then ReadCommitted else ReadUncommitted) store = Ok s →
  fs_bytes s = [].
Proof.
  unfold Fetching.handle. destruct (Z.ltb_spec Fetching.MAX_FETCH_PARTITIONS (Z.of_nat (length (Fetching.fq_topics req)))); [done |].
  destruct (Z.ltb_spec Fetching.MAX_FETCH_PARTITIONS (Fetching.total_partitions req)); [done |].
  destruct (envelope_bounds req) as [[Hb _] _]; [done | done |].
  destruct (Fetching.fetch_topics w store acls who _ _ (Fetching.fq_topics req)) as [rs st] eqn:E. cbn [fst]. intros [= <-] Hl Ht Hp Hr Hc Hread.
  by apply (topics_progress w store acls who _ _ _ _ _ Hb E Hl t p r s).
Qed.

(** ** Over the table engine *)

(** The comparisons of a time that is no sentinel. *)
Ltac no_sentinel ts :=
  unfold ListOffsets.TIMESTAMP_MAX, ListOffsets.TIMESTAMP_EARLIEST, ListOffsets.TIMESTAMP_LATEST, ListOffsets.TIMESTAMP_EARLIEST_LOCAL,
    ListOffsets.TIMESTAMP_LATEST_TIERED, ListOffsets.TIMESTAMP_EARLIEST_PENDING_UPLOAD;
  repeat rewrite (proj2 (Z.eqb_neq ts _)) by lia.

Section Engine.

Variable entry_size : Z.
Variable open_decoder : Z → bytes → result BatchError (bytes * option BatchError).
Variable ongoing : Z → bool.
#[local] Instance engine : LogReader Table := table_reader entry_size open_decoder ongoing.

Lemma table_read_aborted p offset max_bytes iso t s :
  table_read ongoing p offset max_bytes iso t = Ok s → (length (fs_aborted s) ≤ MAX_ABORTED_PER_FETCH)%nat.
Proof using Type.
  unfold table_read. destruct (table_high_watermark p t) as [hw|]; [| done]. destruct (log_start_offset p (tb_meta t)) as [start|]; [| done].
  cbn [rbind]. destruct (_ || _); [done |]. set (ceiling := match iso with ReadCommitted => _ | ReadUncommitted => _ end).
  destruct (offset <? ceiling); [| intros [= <-]; apply Nat.le_0_l]. destruct (fill _ _ _ _) as [bs n]. intros [= <-]. cbn [fs_aborted].
  destruct iso; [apply Nat.le_0_l |]. unfold aborted_txns. rewrite length_fmap, length_take. lia.
Qed.

(** The engine keeps the contract of [fetch_fits]. *)
Lemma table_capped size largest t :
  table_ok size t → (∀ p part b r, tb_parts t !! p = Some part → tp_rows part !! b = Some r → len (lr_batch r) ≤ largest) → 0 ≤ largest →
  reader_capped largest t.
Proof using Type.
  intros Hok Hl Hpos. split; cbn [read engine table_reader].
  - intros p offset max_bytes iso s Er. destruct (tb_parts t !! p) as [part|] eqn:Hp.
    2: { unfold table_read, table_high_watermark in Er. by rewrite Hp in Er. }
    destruct (table_read_spec size ongoing t p part offset max_bytes iso Hok Hp) as (start & _ & Hspec). rewrite Er in Hspec.
    destruct Hspec as (_ & _ & _ & _ & _ & l & [Hpre Hb _ _ Hcap _ _]). destruct Hcap as [Hone|]; [| lia]. rewrite Hb.
    destruct l as [|e [|]]; cbn [length] in Hone; [change (len (bytes_of [])) with 0; lia | | lia].
    assert (Hin : e ∈ readable offset (ceiling_of iso s) (tp_rows part)).
    { destruct Hpre as [l' El]. apply (elem_of_sublist _ _ _ (list_elem_of_here e [])).
      etrans; [| apply sublist_take]. rewrite El. apply sublist_inserts_r. done. }
    unfold readable in Hin. case_decide; [| by apply elem_of_nil in Hin]. apply visible_elem in Hin as [Hin _].
    unfold bytes_of. cbn. rewrite app_nil_r. specialize (Hl p part e.1 e.2 Hp Hin). lia.
  - intros p offset max_bytes iso s. apply table_read_aborted.
Qed.

(** ** Offsets by time *)

(** The first batch, in offset order, whose latest time is not before the one
    asked for. *)
Lemma first_batch_at rows ts :
  match list_find (λ e : Z * LogRow, ts ≤ lr_max_timestamp e.2) (in_order rows) with
  | Some (_, (b, r)) => rows !! b = Some r ∧ ts ≤ lr_max_timestamp r ∧
      ∀ b' r', rows !! b' = Some r' → b' < b → lr_max_timestamp r' < ts
  | None => ∀ b r, rows !! b = Some r → lr_max_timestamp r < ts
  end.
Proof using Type.
  destruct (list_find _ _) as [[i [b r]]|] eqn:E.
  - apply list_find_Some in E as (Hi & Hts & Hbefore). cbn in Hts. split_and!; [| done |].
    + apply (in_order_elem rows (b, r)). by eapply list_elem_of_lookup_2.
    + intros b' r' Hb' Hlt. apply (in_order_elem rows (b', r')) in Hb'. apply list_elem_of_lookup in Hb' as [j Hj].
      pose proof (in_order_sorted rows) as Hs.
      assert (Hji : (j < i)%nat).
      { destruct (Nat.lt_trichotomy j i) as [|[->|Hgt]]; [done | rewrite Hi in Hj; injection Hj as -> ->; lia |]. exfalso.
        assert (H1 : (in_order rows).*1 !! i = Some b) by (rewrite list_lookup_fmap, Hi; done).
        assert (H2 : (in_order rows).*1 !! j = Some b') by (rewrite list_lookup_fmap, Hj; done).
        pose proof (sorted_lookup_lt _ i j b b' Hs H1 H2 Hgt). lia. }
      specialize (Hbefore j (b', r') Hj Hji). cbn in Hbefore. lia.
  - apply list_find_None in E. rewrite Forall_forall in E. intros b r Hb. apply (in_order_elem rows (b, r)) in Hb.
    specialize (E _ Hb). cbn in E. lia.
Qed.

Lemma stored_has_time size part b r ts :
  tpart_ok size part → tp_rows part !! b = Some r → ∃ o ts', first_at_or_after entry_size open_decoder (lr_batch r) ts = Some (o, ts').
Proof using Type.
  intros Hok Hb. destruct (ro_bytes _ _ (to_rows _ _ Hok) b r Hb) as (Hn & _). unfold first_at_or_after. rewrite Hn.
  destruct (records_decompressed _ _) as [it|]; [destruct (find_record _ _) |]; eauto.
Qed.

(** What a lookup by time answers. *)
Definition time_answer (rc : bool) (lso ts : Z) (rows : gmap Z LogRow) (a : ListOffsets.PartitionResponse) : Prop :=
  ListOffsets.lo_error a = ErrorCode.NoError ∧
  ((∀ b r, rows !! b = Some r → lr_max_timestamp r < ts) ∧ ListOffsets.lo_offset a = -1 ∨
   ∃ b r o ts', rows !! b = Some r ∧ ts ≤ lr_max_timestamp r ∧ (∀ b' r', rows !! b' = Some r' → b' < b → lr_max_timestamp r' < ts) ∧
     first_at_or_after entry_size open_decoder (lr_batch r) ts = Some (o, ts') ∧
     (ListOffsets.lo_offset a, ListOffsets.lo_timestamp a) = if rc && (lso <=? o) then (-1, -1) else (o, ts')).

Lemma resolve_time size t p part ts rc :
  table_ok size t → tb_parts t !! p = Some part → 0 ≤ ts →
  time_answer rc (stable_bound ongoing p (tp_next part) t) ts (tp_rows part) (ListOffsets.resolve t p ts rc).
Proof using Type.
  intros Hok Hp Hts. unfold time_answer, ListOffsets.resolve, ListOffsets.lookup_time.
  no_sentinel ts.
  rewrite (proj2 (Z.ltb_ge ts 0) Hts). cbn [andb orb reader_offset_for_timestamp engine table_reader]. unfold table_offset_for_timestamp, rows_of_part. rewrite Hp.
  pose proof (first_batch_at (tp_rows part) ts) as Hf. destruct (list_find _ _) as [[i [b r]]|]; cbn [ListOffsets.committed_only rbind].
  2: { split; [done |]. left. done. }
  destruct Hf as (Hb & Hmax & Hfirst). destruct (stored_has_time size part b r ts (tk_part _ _ Hok p part Hp) Hb) as (o & ts' & Eo). rewrite Eo.
  unfold ListOffsets.committed_only. cbn [rbind reader_last_stable engine table_reader]. unfold table_last_stable_offset, table_high_watermark. rewrite Hp.
  cbn [rbind]. destruct rc; cbn [andb].
  - destruct (Z.leb_spec (stable_bound ongoing p (tp_next part) t) o) as [Hle|Hgt]; cbn [ListOffsets.lo_error ListOffsets.lo_offset ListOffsets.lo_timestamp].
    + split; [done |]. right. exists b, r, o, ts'. by rewrite (proj2 (Z.leb_le _ _) Hle).
    + split; [done |]. right. exists b, r, o, ts'. by rewrite (proj2 (Z.leb_gt _ _) Hgt).
  - split; [done |]. right. by exists b, r, o, ts'.
Qed.

End Engine.

(** ListOffsets answers from the log: the earliest offset is the log start and the
    latest the end, or under read_committed the start of the oldest open
    transaction; a fetch at the log start or the end is accepted.  A lookup by time
    is answered from the first batch, in offset order, that has a record as late,
    and under read_committed with no offset when that lies at or past the stable
    offset; with no such batch the answer is no offset, not an error. *)
Theorem list_offsets_exact entry_size open_decoder ongoing size t p part row (rc : bool) :
  table_ok size t → tb_parts t !! p = Some part → partitions (tb_meta t) !! p = Some row →
  let engine := table_reader entry_size open_decoder ongoing in
  let ans ts := ListOffsets.resolve t p ts rc in
  let lso := stable_bound ongoing p (tp_next part) t in
  ans ListOffsets.TIMESTAMP_EARLIEST = ListOffsets.mk_lo p.2 ErrorCode.NoError (-1) (pt_log_start row) (pt_leader_epoch row) ∧
  ans ListOffsets.TIMESTAMP_LATEST =
    ListOffsets.mk_lo p.2 ErrorCode.NoError (-1) (if rc then lso else tp_next part) (pt_leader_epoch row) ∧
  (∀ offset max_bytes iso, offset = pt_log_start row ∨ offset = tp_next part → is_ok (table_read ongoing p offset max_bytes iso t) = true) ∧
  (∀ ts, 0 ≤ ts → time_answer entry_size open_decoder rc lso ts (tp_rows part) (ans ts)) ∧
  ∀ ts, ts < -6 → ans ts = ListOffsets.err_partition p.2 ErrorCode.UnsupportedVersion.
Proof.
  intros Hok Hp Hr engine ans lso. split_and!.
  - subst ans. unfold ListOffsets.resolve, ListOffsets.lookup_time, log_start_offset, leader_epoch. cbn. unfold log_start_offset, leader_epoch. by rewrite Hr.
  - subst ans. unfold ListOffsets.resolve, ListOffsets.lookup_time. cbn. unfold leader_epoch, table_last_stable_offset, table_high_watermark. rewrite Hr, Hp.
    by destruct rc.
  - intros offset max_bytes iso Ho. destruct (table_read_spec size ongoing t p part offset max_bytes iso Hok Hp) as (start & Es & Hspec).
    unfold log_start_offset in Es. rewrite Hr in Es. injection Es as <-. pose proof (tk_start _ _ Hok p part row Hp Hr) as Hst.
    destruct (table_read _ _ _ _ _ _); [done |]. destruct Hspec as [_ []]. lia.
  - intros ts Hts. by apply (resolve_time entry_size open_decoder ongoing size t p part ts rc).
  - intros ts Hts. subst ans. unfold ListOffsets.resolve, ListOffsets.lookup_time.
    no_sentinel ts. by rewrite (proj2 (Z.ltb_lt ts 0)) by lia.
Qed.

(** ** Below the log start *)

(** The log after DeleteRecords up to offset 1; and up to offset 2, with a
    transaction open since offset 0. *)
Definition trimmed : Table := (truncate_one (1, 0) 1 sample_table).2.
Definition open_txn : Table :=
  (truncate_one (1, 0) 2 (set_meta (register_txn_partition 7 (1, 0) 0) sample_table)).2.

(** ListOffsets can answer with an offset no fetch accepts.  Neither the lookup by
    time nor the stable offset looks at the log start: after DeleteRecords a lookup
    by time finds a deleted record, and the end of the log under read_committed is
    where a still open transaction began although that has been deleted.  A client
    that fetches there is told that the offset is out of range. *)
Theorem list_offsets_below_start :
  (let engine := table_reader 64 no_decoder (λ _, true) in
   ListOffsets.lo_offset (ListOffsets.resolve trimmed (1, 0) 5 false) = 0 ∧
   log_start_offset (1, 0) (tb_meta trimmed) = Ok 1 ∧
   table_read (λ _, true) (1, 0) 0 1000 ReadUncommitted trimmed = Err OffsetOutOfRange) ∧
  (let engine := table_reader 64 no_decoder (λ _, true) in
   ListOffsets.lo_offset (ListOffsets.resolve open_txn (1, 0) ListOffsets.TIMESTAMP_LATEST true) = 0 ∧
   log_start_offset (1, 0) (tb_meta open_txn) = Ok 2 ∧
   table_read (λ _, true) (1, 0) 0 1000 ReadCommitted open_txn = Err OffsetOutOfRange).
Proof. vm_compute. repeat split. Qed.

(** ** Witnesses *)

Definition fetch_orders (offset : Z) : Fetching.FetchRequest :=
  Fetching.mk_fetch 100000 0 [Fetching.mk_ft "orders" [] [Fetching.mk_fp 1 0 1000; Fetching.mk_fp 0 offset 1000]].
Definition sample_reader : LogReader Table := table_reader 64 no_decoder (λ _, false).
Definition fetched (offset : Z) : list Fetching.FetchableTopicResponse :=
  match Fetching.handle (H := sample_reader) made_world sample_table open_acls nobody (fetch_orders offset) with Ok r => r | Err _ => [] end.

Lemma sample_small p part b r :
  tb_parts sample_table !! p = Some part → tp_rows part !! b = Some r → len (lr_batch r) ≤ 1024 * 1024.
Proof.
  assert (H : map_Forall (λ _ part, map_Forall (λ _ r, len (lr_batch r) ≤ 1024 * 1024) (tp_rows part)) (tb_parts sample_table)).
  { apply (bool_decide_unpack _). vm_compute. exact I. }
  intros Hp. exact (H p part Hp b r).
Qed.

Lemma fetch_fits_witness : ∃ total, FetchWire.write_response 12 7 (fetched 1) = Ok total ∧ total = 226.
Proof.
  destruct (fetch_fits (H := sample_reader) made_world sample_table open_acls nobody (1024 * 1024) (fetch_orders 1) (fetched 1) 12 7) as [total Ht].
  - apply (table_capped 64 no_decoder (λ _, false) 2); [exact sample_table_ok | exact sample_small | lia].
  - lia.
  - left. unfold RESPONSE_HEADROOM, aborted_room, MAX_ABORTED_PER_FETCH, Fetching.ABORTED_ENTRY_WIRE_BYTES. lia.
  - intros _. apply Forall_forall. apply Forall_forall. unfold short_name. apply (bool_decide_unpack _). vm_compute. exact I.
  - vm_compute. reflexivity.
  - exists total. split; [exact Ht |]. vm_compute in Ht. by injection Ht.
Defined.

Lemma fetch_progress_witness :
  match table_read (λ _, false) (1, 0) 3 1000 ReadUncommitted sample_table with Ok s => fs_bytes s = [] | Err _ => False end.
Proof.
  destruct (table_read (λ _, false) (1, 0) 3 1000 ReadUncommitted sample_table) as [s|e] eqn:E; [| vm_compute in E; discriminate E].
  apply (fetch_progress (H := sample_reader) made_world sample_table open_acls nobody (fetch_orders 3) (fetched 3)
    (Fetching.mk_ft "orders" [] [Fetching.mk_fp 1 0 1000; Fetching.mk_fp 0 3 1000]) (Fetching.mk_fp 0 3 1000)
    (mk_resolved 1 "orders" (uuid_for 1) 1048588 false)).
  - vm_compute. reflexivity.
  - apply (bool_decide_unpack _). vm_compute. exact I.
  - apply list_elem_of_here.
  - apply list_elem_of_further, list_elem_of_here.
  - vm_compute. reflexivity.
  - vm_compute. reflexivity.
  - exact E.
Defined.

Lemma list_offsets_exact_witness :
  let engine := table_reader 64 no_decoder (λ _, false) in
  ListOffsets.resolve sample_table (1, 0) ListOffsets.TIMESTAMP_LATEST false = ListOffsets.mk_lo 0 ErrorCode.NoError (-1) 3 0 ∧
  time_answer 64 no_decoder false (stable_bound (λ _, false) (1, 0) 3 sample_table) 5 (tp_rows sample_part) (ListOffsets.resolve sample_table (1, 0) 5 false).
Proof.
  pose proof (list_offsets_exact 64 no_decoder (λ _, false) 2 sample_table (1, 0) sample_part (mk_partition 0 0 0) false sample_table_ok
    sample_part_at eq_refl) as H.
  intros engine. destruct H as (_ & H1 & _ & H2 & _). split; [exact H1 |]. apply H2. lia.
Defined.
