(* ===== verification/ShareHandlers.v ===== *)
(** * handlers/share_group.rs and share_offsets.rs: the requests of share groups

    The handlers over the tables of Share.v: ShareGroupHeartbeat, ShareFetch,
    ShareAcknowledge, ShareGroupDescribe and the three requests about share
    offsets.  [w] is the catalog of Topics.v, with the tables of the other group
    kinds; [store] is read through [LogReader]; [fresh_id] is what [uuid_like]
    returns.  [assignment] lists partitions in the order of the catalog: its
    callers group them by topic id. *)

From stdpp Require Import gmap sorting strings.
From S2P Require Import Prelude Errors Cleaner Acl Group Pmeta Store Offsets Txn Config Topics Table Fetch Share.

#[local] Open Scope Z_scope.

Definition ACQUIRE_BATCH_OPTIMIZED : Z := 0.
Definition ACQUIRE_RECORD_LIMIT : Z := 1.

Record HbRequest : Type := mk_hb {
  hb_group : string;
  hb_member : string;
  hb_epoch : Z;
  hb_rack : option string;
  hb_subscribed : option (list string) }.
Record HbResponse : Type := mk_hbr {
  hr_error : ErrorCode.t;
  hr_member : option string;
  hr_epoch : Z;
  hr_interval : Z;
  hr_assignment : option (list (bytes * list Z)) }.

Record AckBatch : Type := mk_ackb { ab_first : Z; ab_last : Z; ab_types : list Z }.
Record SharePart : Type := mk_spart { spt_index : Z; spt_max_bytes : Z; spt_acks : list AckBatch }.
Record ShareTopic : Type := mk_stopic { stp_uuid : bytes; stp_parts : list SharePart }.
Record ShareFetchRequest : Type := mk_sfetch {
  sf_group : option string;
  sf_member : option string;
  sf_session_epoch : Z;
  sf_max_records : Z;
  sf_max_bytes : Z;
  sf_mode : Z;
  sf_topics : list ShareTopic }.

Record AcquiredRecords : Type := mk_acq { aq_first : Z; aq_last : Z; aq_count : Z }.
Record SharePartData : Type := mk_sdata {
  sd_index : Z;
  sd_error : ErrorCode.t;
  sd_ack_error : ErrorCode.t;
  sd_records : bytes;
  sd_acquired : list AcquiredRecords }.
Record ShareFetchResponse : Type := mk_sfr {
  sr_error : ErrorCode.t;
  sr_responses : list (bytes * list SharePartData) }.

Definition err_hb (code : ErrorCode.t) : HbResponse := mk_hbr code None 0 0 None.
Definition fetch_error (index : Z) (code : ErrorCode.t) : SharePartData := mk_sdata index code ErrorCode.NoError [] [].
Definition refused (code : ErrorCode.t) : ShareFetchResponse := mk_sfr code [].

Definition check_bounds (subscribed : option (list string)) : result HandlerError unit :=
  match subscribed with
  | Some names => if MAX_SUBSCRIBED_TOPICS <? Z.of_nat (length names)
                  then Err (TooLarge "subscribed topics" (Z.of_nat (length names))) else Ok tt
  | None => Ok tt
  end.

(** ** Members *)

Definition members_of (group : string) (d : Shares) : list (string * ShareMember) :=
  omap (λ e : string * string * ShareMember, if decide (e.1.1 = group) then Some (e.1.2, e.2) else None)
    (map_to_list (sh_members d)).
Definition group_is_full (group : string) (d : Shares) : bool :=
  MAX_GROUP_SIZE <=? Z.of_nat (length (members_of group d)).
Definition member_is_known (group member : string) (d : Shares) : bool :=
  bool_decide (is_Some (sh_members d !! (group, member))).
Definition group_exists (group : string) (d : Shares) : bool := bool_decide (is_Some (sh_groups d !! group)).
Definition has_members (group : string) (d : Shares) : bool := negb (bool_decide (members_of group d = [])).

Section Handlers.

Context {L S : Type} `{LogReader S}.
Variables (now lock : Z) (fresh_id : string).
Variables (w : World L) (store : S) (acls : AclCache) (who : Principal).

Abbreviation allowed op rt name := (is_ok (check acls who op rt name)).

(** The error of [ensure_member]: the name of another kind of group. *)
Inductive Clash : Type := AlreadyConsumerGroup.

Definition clashes (group : string) : bool :=
  bool_decide (is_Some (groups (t_groups (w_tx w)) !! group)) ||
  bool_decide (group ∈ consumer_groups (t_consumers (w_tx w))).

Definition upsert_share_member (rack : option string) (subscribed : option (list string)) (o : option ShareMember) : ShareMember :=
  match o with
  | None => mk_smember 0 rack (default [] subscribed) now
  | Some m =>
      mk_smember (sm_epoch m) (match rack with Some r => Some r | None => sm_rack m end)
        (default (sm_subscribed m) subscribed) now
  end.

Definition ensure_member (group member : string) (rack : option string) (subscribed : option (list string))
    : ST Shares Clash bool := λ d,
  if clashes group then (Err AlreadyConsumerGroup, d)
  else
    let d := set_groups (λ gs, match gs !! group with Some _ => gs | None => <[group := (0, "Empty"%string)]> gs end) d in
    let existed := member_is_known group member d in
    let d := set_smembers (λ ms, <[(group, member) := upsert_share_member rack subscribed (ms !! (group, member))]> ms) d in
    let d := if existed then d
             else set_groups (alter (λ g : Z * string, (g.1 + 1, "Stable"%string)) group) d in
    (Ok existed, d).

Definition assignment (group member : string) (d : Shares) : list (Z * Z) :=
  let names := match sh_members d !! (group, member) with Some m => sm_subscribed m | None => [] end in
  match names with
  | [] => []
  | _ => t ← map_to_list (t_topics (w_tx w));
         if decide (t.2.1 ∈ names) then filter (λ p, p.1 = t.1) (map_to_list (partitions (t_meta (w_tx w)))).*1 else []
  end.

(** [BTreeMap]: by topic id, with the partitions in order; a topic without a uuid
    row is left out. *)
Definition push_part (m : gmap Z (list Z)) (tp : Z * Z) : gmap Z (list Z) :=
  <[tp.1 := default [] (m !! tp.1) ++ [tp.2]]> m.
Definition per_topic (asg : list (Z * Z)) : list (bytes * list Z) :=
  omap (λ e : Z * list Z, c ← w_cols w !! e.1; Some (to_uuid c.1, merge_sort (≤) e.2)) (in_order (foldl push_part ∅ asg)).

Definition heartbeat (req : HbRequest) : ST Shares HandlerError HbResponse := λ d,
  match check_bounds (hb_subscribed req) with
  | Err e => (Err e, d)
  | Ok _ =>
  match check acls who Acl.Read Acl.Group (hb_group req) with
  | Err code => (Ok (err_hb code), d)
  | Ok _ =>
  if negb (forallb (λ n, allowed Acl.Read Acl.Topic n) (default [] (hb_subscribed req)))
  then (Ok (err_hb ErrorCode.TopicAuthorizationFailed), d)
  else
    let g := hb_group req in
    let member := if decide (hb_member req = ""%string) then fresh_id else hb_member req in
    if hb_epoch req <? 0 then
      (Ok (mk_hbr ErrorCode.NoError (Some member) (hb_epoch req) 0 None),
       set_smembers (delete (g, member)) (release_all g member d))
    else if group_is_full g d && negb (member_is_known g member d)
    then (Ok (err_hb ErrorCode.GroupMaxSizeReached), d)
    else
      match ensure_member g member (hb_rack req) (hb_subscribed req) d with
      | (Err AlreadyConsumerGroup, d) => (Ok (err_hb ErrorCode.GroupIdNotFound), d)
      | (Ok _, d) =>
          let epoch := match sh_groups d !! g with Some r => r.1 | None => 0 end in
          let d := set_smembers (alter (λ m, mk_smember epoch (sm_rack m) (sm_subscribed m) (sm_seen m)) (g, member)) d in
          (Ok (mk_hbr ErrorCode.NoError (Some member) epoch HEARTBEAT_INTERVAL_MS (Some (per_topic (assignment g member d)))), d)
      end
  end
  end.

(** ** Fetching *)

Definition i32_max : Z := 2 ^ 31 - 1.
Definition implied_session (group member : string) (d : Shares) : list ShareTopic :=
  (λ e : bytes * list Z, mk_stopic e.1 ((λ p, mk_spart p i32_max []) <$> e.2)) <$> per_topic (assignment group member d).

(** The acknowledgements of a partition, each batch on its own; the code of the
    last one that did not apply. *)
Definition ack_batch (version : Z) (k : SharePartition) (member : string) (acc : ErrorCode.t * Shares) (b : AckBatch)
    : ErrorCode.t * Shares :=
  let '(code, d) := acc in
  match decode_acks (ab_types b) version with
  | None => (ErrorCode.InvalidRequest, d)
  | Some acks =>
      match acknowledge now lock k member (ab_first b) (ab_last b) acks d with
      | (Ok _, d') => (code, d')
      | (Err e, d') => (ack_error e, d')
      end
  end.
Definition ack_batches (version : Z) (k : SharePartition) (member : string) (bs : list AckBatch) (d : Shares)
    : ErrorCode.t * Shares :=
  foldl (ack_batch version k member) (ErrorCode.NoError, d) bs.

(** Runs of consecutive offsets with the same delivery count. *)
Definition push_offset (count_of : Z → Z) (ranges : list AcquiredRecords) (o : Z) : list AcquiredRecords :=
  let dc := count_of o in
  match last ranges with
  | Some r => if (aq_last r + 1 =? o) && (aq_count r =? dc)
              then removelast ranges ++ [mk_acq (aq_first r) o dc]
              else ranges ++ [mk_acq o o dc]
  | None => [mk_acq o o dc]
  end.
Definition ranges_of (count_of : Z → Z) (offsets : list Z) : list AcquiredRecords := foldl (push_offset count_of) [] offsets.

(** [delivery_counts], with the default of its use. *)
Definition delivery_count (k : SharePartition) (d : Shares) (o : Z) : Z :=
  wrap_i 16 (match rows_of k d !! o with Some r => if_count r | None => 1 end).

Definition acquire_and_read (k : SharePartition) (member : string) (limit byte_cap : Z)
    : ST Shares StoreError (bytes * list AcquiredRecords) := λ d,
  match reader_high_watermark k.2 store with
  | Err e => (Err e, d)
  | Ok hwm =>
      let from := start_offset k d in
      if hwm <=? from then (Ok ([], []), d)
      else
        match read k.2 from byte_cap ReadUncommitted store with
        | Err e => (Err e, d)
        | Ok slice =>
            if fs_next slice <=? from then (Ok ([], []), d)
            else
              match acquire now lock k member from (fs_next slice - 1) limit d with
              | ([], d') => (Ok ([], []), d')
              | (offsets, d') => (Ok (fs_bytes slice, ranges_of (delivery_count k d') offsets), d')
              end
        end
  end.

Definition span (a : AcquiredRecords) : Z := Z.max 0 (aq_last a - aq_first a + 1).
Definition spans (l : list AcquiredRecords) : Z := foldr Z.add 0 (span <$> l).

(** Records and bytes left to give out. *)
Record Left : Type := mk_left { lf_budget : Z; lf_bytes : Z }.

Definition share_partition (version : Z) (group member : string) (resolved : option (Z * string))
    (st : Left * Shares) (p : SharePart) : SharePartData * (Left * Shares) :=
  let '(rest, d) := st in
  match resolved with
  | None => (fetch_error (spt_index p) ErrorCode.UnknownTopicId, st)
  | Some (tid, name) =>
      if negb (allowed Acl.Read Acl.Topic name) then (fetch_error (spt_index p) ErrorCode.TopicAuthorizationFailed, st)
      else
        let k : SharePartition := (group, (tid, spt_index p)) in
        let '(ack_code, d) := ack_batches version k member (spt_acks p) d in
        let per_partition := Z.min (lf_bytes rest) (if 0 <? spt_max_bytes p then spt_max_bytes p else lf_bytes rest) in
        let '(r, d) := if (lf_budget rest =? 0) || (lf_bytes rest =? 0) then (Ok ([], []), d)
                       else acquire_and_read k member (lf_budget rest) per_partition d in
        match r with
        | Err _ => (fetch_error (spt_index p) ErrorCode.UnknownServerError, (rest, d))
        | Ok (records, acquired) =>
            (mk_sdata (spt_index p) ErrorCode.NoError ack_code records acquired,
             (mk_left (lf_budget rest - Z.min (spans acquired) (lf_budget rest)) (Z.max 0 (lf_bytes rest - len records)), d))
        end
  end.

Fixpoint map_state {A B X} (f : X → A → B * X) (x : X) (l : list A) : list B * X :=
  match l with
  | [] => ([], x)
  | a :: l' => let '(b, x) := f x a in let '(bs, x) := map_state f x l' in (b :: bs, x)
  end.

Definition share_topic (version : Z) (group member : string) (st : Left * Shares) (t : ShareTopic)
    : (bytes * list SharePartData) * (Left * Shares) :=
  let '(ds, st) := map_state (share_partition version group member (topic_by_uuid (stp_uuid t) w)) st (stp_parts t) in
  ((stp_uuid t, ds), st).

Definition share_fetch (req : ShareFetchRequest) (version : Z) : ST Shares HandlerError ShareFetchResponse := λ d,
  let group := default ""%string (sf_group req) in
  let member := default ""%string (sf_member req) in
  if bool_decide (group = ""%string) || bool_decide (member = ""%string) then (Ok (refused ErrorCode.InvalidRequest), d)
  else match check acls who Acl.Read Acl.Group group with
  | Err code => (Ok (refused code), d)
  | Ok _ =>
  match check_admin_len "share fetch topics" (Z.of_nat (length (sf_topics req))) with
  | Err e => (Err e, d)
  | Ok _ =>
  if sf_session_epoch req <? 0 then (Ok (mk_sfr ErrorCode.NoError []), release_all group member d)
  else if negb (member_is_known group member d) then (Ok (refused ErrorCode.UnknownMemberId), d)
  else
    let d := set_smembers (alter (see now) (group, member)) d in
    let topics := if bool_decide (sf_topics req = []) && (0 <? sf_session_epoch req)
                  then implied_session group member d else sf_topics req in
    if (2 <=? version) && negb ((sf_mode req =? ACQUIRE_BATCH_OPTIMIZED) || (sf_mode req =? ACQUIRE_RECORD_LIMIT))
    then (Ok (refused ErrorCode.InvalidRequest), d)
    else
      let budget := clamp 1 MAX_ACQUIRE_PER_FETCH (sf_max_records req) in
      let bytes_left := Z.max 0 (Z.min MAX_RESPONSE_BYTES (Z.max 1 (sf_max_bytes req)) - 1024) in
      let '(responses, (_, d)) := map_state (share_topic version group member) (mk_left budget bytes_left, d) topics in
      (Ok (mk_sfr ErrorCode.NoError responses), d)
  end
  end.

(** ** Acknowledging *)

Definition share_acknowledge (group member : option string) (session_epoch : Z) (topics : list ShareTopic) (version : Z)
    : ST Shares HandlerError (ErrorCode.t * list (bytes * list (Z * ErrorCode.t))) := λ d,
  let group := default ""%string group in
  let member := default ""%string member in
  match check acls who Acl.Read Acl.Group group with
  | Err code => (Ok (code, []), d)
  | Ok _ =>
  match check_admin_len "share acknowledge topics" (Z.of_nat (length topics)) with
  | Err e => (Err e, d)
  | Ok _ =>
      let d := if session_epoch <? 0 then release_all group member d else d in
      let '(rs, d) := map_state (λ d t,
        let resolved := topic_by_uuid (stp_uuid t) w in
        let '(ps, d) := map_state (λ d p,
          match resolved with
          | None => ((spt_index p, ErrorCode.UnknownTopicId), d)
          | Some (tid, _) =>
              let '(code, d) := ack_batches version (group, (tid, spt_index p)) member (spt_acks p) d in
              ((spt_index p, code), d)
          end) d (stp_parts t) in
        ((stp_uuid t, ps), d)) d topics in
      (Ok (ErrorCode.NoError, rs), d)
  end
  end.

(** ** Describing *)

(** [ORDER BY member_id] is the database's. *)
Record DescribedGroup : Type := mk_dgroup {
  dg_error : ErrorCode.t;
  dg_id : string;
  dg_state : string;
  dg_epoch : Z;
  dg_members : list (string * Z * list string) }.
Definition describe_one (d : Shares) (gid : string) : DescribedGroup :=
  if negb (allowed Acl.Describe Acl.Group gid) then mk_dgroup ErrorCode.GroupAuthorizationFailed gid "" 0 []
  else match sh_groups d !! gid with
       | None => mk_dgroup ErrorCode.GroupIdNotFound gid "" 0 []
       | Some (epoch, state) =>
           mk_dgroup ErrorCode.NoError gid state epoch
             ((λ m : string * ShareMember, (m.1, sm_epoch m.2, sm_subscribed m.2)) <$> members_of gid d)
       end.
Definition describe_groups (ids : list string) (d : Shares) : result HandlerError (list DescribedGroup) :=
  let? _ := check_admin_len "described share groups" (Z.of_nat (length ids)) in Ok (describe_one d <$> ids).

(** ** Offsets: share_offsets.rs *)

Definition NO_POSITION : Z := -1.

Record SharePosition : Type := mk_position {
  po_index : Z;
  po_start : Z;
  po_epoch : Z;
  po_lag : Z;
  po_error : ErrorCode.t }.
Definition absent_partition (index : Z) (code : ErrorCode.t) : SharePosition := mk_position index NO_POSITION (-1) NO_POSITION code.

Definition describe_position (group name : string) (d : Shares) (index : Z) : SharePosition :=
  match check acls who Acl.Describe Acl.Topic name with
  | Err code => absent_partition index code
  | Ok _ =>
      match topic_id_by_name name (w_tx w) with
      | None => absent_partition index ErrorCode.NoError
      | Some tid =>
          let start := sh_starts d !! (group, (tid, index)) in
          let '(lag, code) :=
            match start with
            | None => (NO_POSITION, ErrorCode.NoError)
            | Some s => match reader_high_watermark (tid, index) store with
                        | Ok hw => (Z.max 0 (hw - s), ErrorCode.NoError)
                        | Err e => (NO_POSITION, store_error_code e)
                        end
            end in
          mk_position index (default NO_POSITION start)
            (match reader_leader_epoch (tid, index) store with Ok e => e | Err _ => -1 end) lag code
      end
  end.

Definition topic_uuid (topic_id : option Z) : bytes :=
  match topic_id ≫= λ t, w_cols w !! t with Some c => to_uuid c.1 | None => no_uuid end.

(** A topic of AlterShareGroupOffsets: its name, and partitions with a start. *)
Definition alter_one (group name : string) (d : Shares) (p : Z * Z) : (Z * ErrorCode.t) * Shares :=
  let topic_id := topic_id_by_name name (w_tx w) in
  let count := match topic_id ≫= λ t, t_topics (w_tx w) !! t with Some t => t.2 | None => 0 end in
  match check acls who Acl.Read Acl.Topic name, topic_id with
  | Err code, _ => ((p.1, code), d)
  | Ok _, None => ((p.1, ErrorCode.UnknownTopicOrPartition), d)
  | Ok _, Some tid =>
      if (p.1 <? 0) || (count <=? p.1) then ((p.1, ErrorCode.UnknownTopicOrPartition), d)
      else
        let k : SharePartition := (group, (tid, p.1)) in
        ((p.1, ErrorCode.NoError), clear_inflight k (set_starts <[k := p.2]> d))
  end.
Definition alter_offsets (group : string) (topics : list (string * list (Z * Z)))
    : ST Shares HandlerError (ErrorCode.t * list (string * list (Z * ErrorCode.t))) := λ d,
  match check acls who Acl.Read Acl.Group group with
  | Err code => (Ok (code, []), d)
  | Ok _ =>
  match check_nested_len "share group offset topics" "share group offset partitions" topics
          (λ t, Z.of_nat (length t.2)) with
  | Err e => (Err e, d)
  | Ok _ =>
      if negb (group_exists group d) then (Ok (ErrorCode.GroupIdNotFound, []), d)
      else if has_members group d then (Ok (ErrorCode.NonEmptyGroup, []), d)
      else
        let '(rs, d) := map_state (λ d t, let '(ps, d) := map_state (alter_one group t.1) d t.2 in ((t.1, ps), d)) d topics in
        (Ok (ErrorCode.NoError, rs), d)
  end
  end.

Definition delete_one (group : string) (d : Shares) (name : string) : (string * ErrorCode.t) * Shares :=
  match check acls who Acl.Read Acl.Topic name, topic_id_by_name name (w_tx w) with
  | Err code, _ => ((name, code), d)
  | Ok _, None => ((name, ErrorCode.UnknownTopicOrPartition), d)
  | Ok _, Some tid =>
      let '(removed, d) := delete_positions group tid d in
      if removed =? 0 then ((name, ErrorCode.UnknownTopicOrPartition), d)
      else ((name, ErrorCode.NoError), clear_inflight_topic group tid d)
  end.
Definition delete_offsets (group : string) (topics : list string)
    : ST Shares HandlerError (ErrorCode.t * list (string * ErrorCode.t)) := λ d,
  match check acls who Acl.Delete Acl.Group group with
  | Err code => (Ok (code, []), d)
  | Ok _ =>
  match check_admin_len "share group offset topics" (Z.of_nat (length topics)) with
  | Err e => (Err e, d)
  | Ok _ =>
      if negb (group_exists group d) then (Ok (ErrorCode.GroupIdNotFound, []), d)
      else if has_members group d then (Ok (ErrorCode.NonEmptyGroup, []), d)
      else let '(rs, d) := map_state (delete_one group) d topics in (Ok (ErrorCode.NoError, rs), d)
  end
  end.

End Handlers.
