(* ===== verification/ShareServe.v ===== *)
(** * Share groups: what the requests do

    Every request acts on the tables of a share group by the steps of ShareSpec.v,
    so that its invariant and its bound on deliveries hold of the server as a
    whole.  A ShareFetch tells a member exactly what was acquired for it, within
    the limits it asked for.  A group whose position is below the log start gets
    nothing ever again. *)

From stdpp Require Import gmap sorting strings.
From S2P Require Import Prelude Errors Cleaner Acl Group Pmeta Store Offsets Txn Config Topics Table TableSpec TableRead Fetch FetchSpec Share ShareSpec ShareHandlers.

#[local] Open Scope Z_scope.

(** ** Ranges *)

(** The offsets of a list of ranges, each with its delivery count. *)
Definition expand (r : AcquiredRecords) : list (Z * Z) := (λ o, (o, aq_count r)) <$> seqZ (aq_first r) (aq_last r - aq_first r + 1).
Definition expand_all (l : list AcquiredRecords) : list (Z * Z) := concat (expand <$> l).

Lemma expand_all_app l l' : expand_all (l ++ l') = expand_all l ++ expand_all l'.
Proof. unfold expand_all. by rewrite fmap_app, concat_app. Qed.
Lemma expand_all_one r : expand_all [r] = expand r.
Proof. unfold expand_all. cbn. by rewrite app_nil_r. Qed.
Lemma expand_single o c : expand (mk_acq o o c) = [(o, c)].
Proof. unfold expand. cbn. by replace (o - o + 1) with 1 by lia. Qed.

Lemma push_offset_expand count_of l o :
  Forall (λ r, aq_first r ≤ aq_last r) l →
  expand_all (push_offset count_of l o) = expand_all l ++ [(o, count_of o)] ∧ Forall (λ r, aq_first r ≤ aq_last r) (push_offset count_of l o).
Proof.
  intros Hl. unfold push_offset. destruct (last l) as [r|] eqn:El.
  - apply last_Some in El as [l' ->]. apply Forall_app in Hl as [Hl' Hr]. rewrite Forall_singleton in Hr.
    destruct (Z.eqb_spec (aq_last r + 1) o) as [Eo|_]; cbn [andb].
    + destruct (Z.eqb_spec (aq_count r) (count_of o)) as [Ec|_]; cbn [andb].
      * rewrite removelast_last, !expand_all_app, !expand_all_one, <- app_assoc. split.
        -- f_equal. unfold expand. cbn [aq_first aq_last aq_count]. rewrite <- Ec.
           replace (o - aq_first r + 1) with ((aq_last r - aq_first r + 1) + 1) by lia.
           rewrite (seqZ_app (aq_first r) (aq_last r - aq_first r + 1) 1) by lia. rewrite fmap_app. f_equal. replace (aq_first r + (aq_last r - aq_first r + 1)) with o by lia. done.
        -- apply Forall_app. split; [done |]. apply Forall_singleton. cbn. lia.
      * rewrite (expand_all_app _ [_]), expand_all_one, expand_single. split; [done |].
        repeat (apply Forall_app; split); [done | by apply Forall_singleton | apply Forall_singleton; cbn; lia].
    + rewrite (expand_all_app _ [_]), expand_all_one, expand_single. split; [done |].
      repeat (apply Forall_app; split); [done | by apply Forall_singleton | apply Forall_singleton; cbn; lia].
  - apply last_None in El as ->. rewrite expand_all_one, expand_single. split; [done |]. apply Forall_singleton. cbn. lia.
Qed.

Lemma ranges_of_expand count_of offsets :
  expand_all (ranges_of count_of offsets) = (λ o, (o, count_of o)) <$> offsets ∧ Forall (λ r, aq_first r ≤ aq_last r) (ranges_of count_of offsets).
Proof.
  unfold ranges_of. assert (H : ∀ l, Forall (λ r, aq_first r ≤ aq_last r) l →
    expand_all (foldl (push_offset count_of) l offsets) = expand_all l ++ ((λ o, (o, count_of o)) <$> offsets) ∧
    Forall (λ r, aq_first r ≤ aq_last r) (foldl (push_offset count_of) l offsets)).
  { induction offsets as [|o offsets IH]; intros l Hl; cbn [foldl fmap list_fmap]; [by rewrite app_nil_r |].
    destruct (push_offset_expand count_of l o Hl) as [E Hl']. destruct (IH _ Hl') as [E' H']. split; [| done].
    rewrite E', E, <- app_assoc. done. }
  destruct (H [] ltac:(constructor)) as [E Hf]. done.
Qed.

Lemma spans_expand l : Forall (λ r, aq_first r ≤ aq_last r) l → spans l = Z.of_nat (length (expand_all l)).
Proof.
  induction 1 as [|r l Hr _ IH]; [done |]. change (spans (r :: l)) with (span r + spans l).
  change (expand_all (r :: l)) with (expand r ++ expand_all l). rewrite length_app, Nat2Z.inj_add, <- IH.
  unfold expand, span. rewrite length_fmap, length_seqZ. lia.
Qed.

(** ** The handlers as steps *)

Lemma map_state_rel {A B X} (R : X → X → Prop) (f : X → A → B * X) l : ∀ x,
  (∀ x, R x x) → (∀ x y z, R x y → R y z → R x z) → (∀ x a, R x (f x a).2) → R x (map_state f x l).2.
Proof.
  induction l as [|a l IH]; intros x Hr Ht Hf; cbn [map_state]; [apply Hr |].
  pose proof (Hf x a) as H1. destruct (f x a) as [b x1]. pose proof (IH x1 Hr Ht Hf) as H2.
  destruct (map_state f x1 l) as [bs x2]. cbn [snd] in *. by eapply Ht.
Qed.

Lemma map_state_rtc {A B} (R : relation Shares) (f : Shares → A → B * Shares) l d :
  (∀ d a, rtc R d (f d a).2) → rtc R d (map_state f d l).2.
Proof. intros Hf. apply (map_state_rel (rtc R)); [intros; apply rtc_refl | intros; by etrans | done]. Qed.

Section Steps.

Context {L S : Type} `{LogReader S}.
Variables (now lock : Z) (fresh_id : string).
Variables (w : World L) (store : S) (acls : AclCache) (who : Principal).

Lemma quiet_delivery d d' : quiet_step d d' → rtc delivery d d'.
Proof using Type. intros Hq. by apply rtc_once, by_quiet. Qed.

Lemma ack_batches_steps version k m bs d : rtc delivery d (ack_batches now lock version k m bs d).2.
Proof using Type.
  unfold ack_batches. assert (Hstep : ∀ acc, rtc delivery acc.2 (foldl (ack_batch now lock version k m) acc bs).2); [| apply (Hstep (_, d))].
  induction bs as [|b bs IH]; intros [code d0]; cbn [foldl]; [done |]. etrans; [| apply IH]. unfold ack_batch.
  destruct (decode_acks (ab_types b) version) as [acks|]; [| done]. apply quiet_delivery.
  pose proof (by_acknowledge now lock k m (ab_first b) (ab_last b) acks d0) as Hq.
  by destruct (acknowledge now lock k m (ab_first b) (ab_last b) acks d0) as [[]].
Qed.

Lemma acquire_and_read_steps k m limit cap d : rtc delivery d (acquire_and_read now lock store k m limit cap d).2.
Proof using Type.
  unfold acquire_and_read. destruct (reader_high_watermark k.2 store) as [hwm|]; [| done].
  destruct (hwm <=? _); [done |]. destruct (read _ _ _ _ _) as [s|]; [| done]. destruct (fs_next s <=? _); [done |].
  pose proof (by_acquire now lock k m (fs_next s - 1) limit d) as Hq. apply rtc_once in Hq.
  by destruct (acquire now lock k m _ _ limit d) as [[|]].
Qed.

Lemma share_partition_steps version g m resolved st p :
  rtc delivery st.2 (share_partition now lock store acls who version g m resolved st p).2.2.
Proof using Type.
  destruct st as [rest d]. unfold share_partition. destruct resolved as [[tid name]|]; [| done]. destruct (negb _); [done |].
  set (k := (g, (tid, spt_index p))). pose proof (ack_batches_steps version k m (spt_acks p) d) as H1.
  destruct (ack_batches now lock version k m (spt_acks p) d) as [code d1]. cbn [snd] in *.
  destruct (_ || _); [done |]. set (cap := Z.min _ _). pose proof (acquire_and_read_steps k m (lf_budget rest) cap d1) as H2.
  destruct (acquire_and_read now lock store k m (lf_budget rest) cap d1) as [[[records acquired]|e] d2]; cbn [snd] in *; by etrans.
Qed.

Lemma share_topic_steps version g m st t : rtc delivery st.2 (share_topic now lock w store acls who version g m st t).2.2.
Proof using Type.
  unfold share_topic. set (f := share_partition _ _ _ _ _ _ _ _ _).
  pose proof (map_state_rel (λ x y, rtc delivery x.2 y.2) f (stp_parts t) st) as Hm.
  destruct (map_state f st (stp_parts t)) as [ds st']. cbn [snd] in *. apply Hm; [done | | apply share_partition_steps].
  intros x y z Hxy Hyz. by etrans.
Qed.

Lemma share_fetch_steps req version d : rtc delivery d (share_fetch now lock w store acls who req version d).2.
Proof using Type.
  unfold share_fetch. destruct (_ || _); [done |]. destruct (check _ _ _ _ _); [| done]. destruct (check_admin_len _ _); [| done].
  set (g := default _ (sf_group req)). set (m := default _ (sf_member req)).
  destruct (_ <? 0); [apply quiet_delivery, by_release_all |]. destruct (negb _); [done |].
  set (d1 := set_smembers _ d). assert (H1 : rtc delivery d d1) by apply quiet_delivery, by_members.
  destruct (_ && negb _); [done |]. set (topics := if _ && _ then _ else _). set (st := mk_left _ _).
  pose proof (map_state_rel (λ x y, rtc delivery x.2 y.2) (share_topic now lock w store acls who version g m) topics (st, d1)) as Hm.
  destruct (map_state _ _ topics) as [rs [st' d2]]. cbn [snd] in *. etrans; [exact H1 |].
  apply Hm; [done | | apply share_topic_steps]. intros x y z Hxy Hyz. by etrans.
Qed.

Lemma share_acknowledge_steps g m epoch topics version d :
  rtc delivery d (share_acknowledge now lock w acls who g m epoch topics version d).2.
Proof using Type.
  unfold share_acknowledge. destruct (check _ _ _ _ _); [| done]. destruct (check_admin_len _ _); [| done].
  set (d1 := if _ <? 0 then _ else _). assert (H1 : rtc delivery d d1) by (subst d1; destruct (_ <? 0); [apply quiet_delivery, by_release_all | done]).
  set (f := λ d t, _). assert (Hf : ∀ d t, rtc delivery d (f d t).2).
  { intros d0 t. subst f. cbn beta. set (g0 := λ d p, _). assert (Hg : ∀ d p, rtc delivery d (g0 d p).2).
    { intros d2 p. subst g0. cbn beta. destruct (topic_by_uuid _ _) as [[tid name]|]; [| done].
      pose proof (ack_batches_steps version (default ""%string g, (tid, spt_index p)) (default ""%string m) (spt_acks p) d2) as Ha.
      by destruct (ack_batches now lock version _ _ _ d2). }
    pose proof (map_state_rtc delivery g0 (stp_parts t) d0 Hg) as Hm. by destruct (map_state g0 d0 (stp_parts t)). }
  pose proof (map_state_rtc delivery f topics d1 Hf) as Hm. destruct (map_state f d1 topics). cbn [snd] in *. by etrans.
Qed.

Lemma heartbeat_steps req d : rtc delivery d (heartbeat now fresh_id w acls who req d).2.
Proof using Type.
  unfold heartbeat. destruct (check_bounds _); [| done]. destruct (check _ _ _ _ _); [| done]. destruct (negb (forallb _ _)); [done |].
  set (g := hb_group req). set (m := if decide _ then _ else _). destruct (_ <? 0).
  { cbn [snd]. etrans; [apply quiet_delivery, (by_release_all g m) | apply quiet_delivery, by_members]. }
  destruct (_ && negb _); [done |]. unfold ensure_member. destruct (clashes w g); [done |]. cbn [snd].
  set (d1 := set_groups _ d). assert (H1 : rtc delivery d d1) by apply quiet_delivery, by_groups.
  set (d2 := set_smembers _ d1). assert (H2 : rtc delivery d1 d2) by apply quiet_delivery, by_members.
  set (d3 := if member_is_known g m d1 then _ else _).
  assert (H3 : rtc delivery d2 d3) by (subst d3; destruct (member_is_known g m d1); [done | apply quiet_delivery, by_groups]).
  etrans; [exact H1 |]. etrans; [exact H2 |]. etrans; [exact H3 |]. apply quiet_delivery, by_members.
Qed.

Lemma delivery_share_steps d d' : rtc delivery d d' → rtc share_step d d'.
Proof using Type. induction 1 as [|d d1 d' Hs _ IH]; [done |]. eapply rtc_l; [by apply step_delivery | done]. Qed.

Lemma alter_one_steps g name d p : rtc share_step d (alter_one w acls who g name d p).2.
Proof using Type.
  unfold alter_one. destruct (check _ _ _ _ _); [| done]. destruct (topic_id_by_name _ _) as [tid|]; [| done].
  destruct (_ || _); [done |]. cbn [snd]. apply rtc_once, (step_alter (g, (tid, p.1)) p.2).
Qed.

Lemma delete_one_steps g d name : rtc share_step d (delete_one w acls who g d name).2.
Proof using Type.
  unfold delete_one. destruct (check _ _ _ _ _); [| done]. destruct (topic_id_by_name _ _) as [tid|]; [| done].
  apply rtc_once. pose proof (step_forget g tid d) as Hs. unfold forget_positions in Hs.
  destruct (delete_positions g tid d) as [removed d1]. by destruct (removed =? 0).
Qed.

Lemma alter_offsets_steps g topics d : rtc share_step d (alter_offsets w acls who g topics d).2.
Proof using Type.
  unfold alter_offsets. destruct (check _ _ _ _ _); [| done]. destruct (check_nested_len _ _ _ _); [| done].
  destruct (negb _); [done |]. destruct (has_members g d); [done |]. set (f := λ d t, _).
  assert (Hf : ∀ d t, rtc share_step d (f d t).2).
  { intros d0 t. subst f. cbn beta. pose proof (map_state_rtc share_step (alter_one w acls who g t.1) t.2 d0) as Hm.
    destruct (map_state _ d0 t.2). cbn [snd] in *. apply Hm. intros. apply alter_one_steps. }
  pose proof (map_state_rtc share_step f topics d Hf) as Hm. by destruct (map_state f d topics).
Qed.

Lemma delete_offsets_steps g topics d : rtc share_step d (delete_offsets w acls who g topics d).2.
Proof using Type.
  unfold delete_offsets. destruct (check _ _ _ _ _); [| done]. destruct (check_admin_len _ _); [| done].
  destruct (negb _); [done |]. destruct (has_members g d); [done |].
  pose proof (map_state_rtc share_step (delete_one w acls who g) topics d (delete_one_steps g)) as Hm. by destruct (map_state _ d topics).
Qed.

End Steps.

(** What the requests of members amount to, and what those of an operator do. *)
Definition member_steps (d d' : Shares) : Prop := rtc delivery d d' ∧ (shares_ok d → shares_ok d').
Definition operator_steps (d d' : Shares) : Prop := rtc share_step d d' ∧ (shares_ok d → shares_ok d').

Lemma member_steps_intro d d' : rtc delivery d d' → member_steps d d'.
Proof.
  intros Hd. split; [done |]. apply share_steps_ok. eapply rtc_subrel; [| exact Hd]. intros x y Hxy. by constructor.
Qed.

Lemma operator_steps_intro d d' : rtc share_step d d' → operator_steps d d'.
Proof. intros Hd. split; [done |]. by apply share_steps_ok. Qed.

(** Every request of a share group acts by the steps that are accounted for:
    heartbeats, fetches and acknowledgements, whatever they carry and however they
    end, are sequences of acquisitions, acknowledgements, releases and changes of
    the member tables; the requests that move or forget a position add exactly that.
    So the tables stay well formed under any sequence of requests, refused ones
    included. *)
Theorem share_requests_refine {L S} `{LogReader S} now lock fresh_id (w : World L) (store : S) acls who d :
  (∀ req, member_steps d (heartbeat now fresh_id w acls who req d).2) ∧
  (∀ req version, member_steps d (share_fetch now lock w store acls who req version d).2) ∧
  (∀ g m epoch topics version, member_steps d (share_acknowledge now lock w acls who g m epoch topics version d).2) ∧
  (∀ g topics, operator_steps d (alter_offsets w acls who g topics d).2) ∧
  (∀ g topics, operator_steps d (delete_offsets w acls who g topics d).2).
Proof.
  split_and!; intros; first [apply member_steps_intro | apply operator_steps_intro].
  - apply heartbeat_steps.
  - apply share_fetch_steps.
  - apply share_acknowledge_steps.
  - apply alter_offsets_steps.
  - apply delete_offsets_steps.
Qed.

(** ** What a member is told *)

(** A member is told exactly what it got.  The ranges of a fetched partition, laid
    out, are the offsets that were acquired for it, in order, each with the delivery
    count of its row (which fits its 16 bits); after the call the member holds every
    one of them until the lock duration has passed, and the records it is sent reach
    from the start of the partition past the last of them. *)
Theorem acquired_records_exact {S} `{LogReader S} now lock (store : S) k member limit cap d records acquired d' :
  shares_ok d → acquire_and_read now lock store k member limit cap d = (Ok (records, acquired), d') → acquired ≠ [] →
  ∃ s, read k.2 (start_offset k d) cap ReadUncommitted store = Ok s ∧ records = fs_bytes s ∧
    acquire now lock k member (start_offset k d) (fs_next s - 1) limit d = ((expand_all acquired).*1, d') ∧
    ∀ o n, (o, n) ∈ expand_all acquired → start_offset k d ≤ o < fs_next s ∧
      rows_of k d' !! o = Some (mk_inflight Acquired n (Some member) (Some (now + lock))).
Proof.
  intros Hok. unfold acquire_and_read. destruct (reader_high_watermark k.2 store) as [hwm|]; [| done].
  destruct (hwm <=? _); [by intros [= _ <-] |]. destruct (read _ _ _ _ _) as [s|] eqn:Er; [| done].
  destruct (fs_next s <=? _); [by intros [= _ <-] |].
  destruct (acquire now lock k member _ _ limit d) as [out d1] eqn:Ea. destruct out as [|o0 out']; [by intros [= _ <-] |].
  set (out := o0 :: out') in *. intros [= <- <- <-] Hne. exists s.
  destruct (ranges_of_expand (delivery_count k d1) out) as [Ex _]. rewrite Ex. split_and!; [done | done | |].
  - f_equal. rewrite <- list_fmap_compose. cbn. by rewrite list_fmap_id.
  - intros o n Hin. apply list_elem_of_fmap in Hin as (o' & [= -> ->] & Hin).
    pose proof (acquire_out now lock k member (fs_next s - 1) limit d o') as Ho. pose proof (acquire_gives now lock k member (fs_next s - 1) limit d o') as Hg.
    rewrite Ea in Ho, Hg. cbn [fst snd] in Ho, Hg. destruct (Ho Hin) as (_ & Hw & _).
    destruct (wanted_spec now k (fs_next s - 1) limit d o' Hw) as [Hr _]. split; [lia |].
    destruct (Hg Hin) as (n & Hn & Hrow). rewrite Hrow. unfold delivery_count. rewrite Hrow. cbn [if_count].
    pose proof (acquire_ok now lock k member (fs_next s - 1) limit d Hok) as Hok1. rewrite Ea in Hok1.
    destruct (ok_part _ Hok1 k o' _ Hrow) as [_ [Hlo _]]. cbn in Hlo. rewrite wrap_i16_id; [done |].
    unfold MAX_DELIVERY_ATTEMPTS in *. red. lia.
Qed.

(** ** The limits of a fetch *)

Definition all_parts (rs : list (bytes * list SharePartData)) : list SharePartData := concat (snd <$> rs).
Definition records_given (l : list SharePartData) : Z := foldr Z.add 0 ((λ p, spans (sd_acquired p)) <$> l).
Definition bytes_given (l : list SharePartData) : Z := foldr Z.add 0 ((λ p, len (sd_records p)) <$> l).

Lemma given_app l l' : records_given (l ++ l') = records_given l + records_given l' ∧ bytes_given (l ++ l') = bytes_given l + bytes_given l'.
Proof. unfold records_given, bytes_given. rewrite !fmap_app, !foldr_app. induction l as [|p l IH]; cbn in *; lia. Qed.

Section Limits.

Context {L S : Type} `{LogReader S}.
Variables (now lock : Z) (w : World L) (store : S) (acls : AclCache) (who : Principal) (largest : Z).
Hypothesis Hcap : reader_capped largest store.
Hypothesis Hlargest : 0 ≤ largest.

Lemma acquire_length_limit k m upto limit d :
  Z.of_nat (length (acquire now lock k m (start_offset k d) upto limit d).1) ≤ clamp 1 MAX_ACQUIRE_PER_FETCH limit.
Proof using Type.
  destruct (decide (open_ now k d)) as [Ho|Hc].
  - destruct (acquire_open now lock k m (start_offset k d) upto limit d Ho) as [-> _].
    destruct (candidates_spec now (start_offset k d) upto (allowance now k limit d) (rows_of k d)) as (_ & Hlen & _).
    unfold taken. etrans; [apply Nat2Z.inj_le, length_filter |]. etrans; [exact Hlen |].
    unfold allowance, clamp, MAX_ACQUIRE_PER_FETCH. destruct Ho as [_ Hroom]. clear Hlargest. lia.
  - rewrite acquire_closed by done. cbn. unfold clamp, MAX_ACQUIRE_PER_FETCH. lia.
Qed.

(** What a read leaves within the budgets. *)
Lemma acquire_and_read_limits k m limit cap d records acquired d' :
  0 < limit → 0 < cap → acquire_and_read now lock store k m limit cap d = (Ok (records, acquired), d') →
  0 ≤ spans acquired ≤ limit ∧ len records ≤ Z.max cap largest.
Proof using Hcap Hlargest.
  intros Hl Hc. unfold acquire_and_read. destruct (reader_high_watermark k.2 store) as [hwm|]; [| done].
  assert (Hzero : 0 ≤ spans [] ≤ limit ∧ len [] ≤ Z.max cap largest) by (change (spans []) with 0; change (len []) with 0; lia).
  destruct (hwm <=? _); [by intros [= <- <- _] |]. destruct (read _ _ _ _ _) as [s|] eqn:Er; [| done].
  destruct (fs_next s <=? _); [by intros [= <- <- _] |].
  pose proof (acquire_length_limit k m (fs_next s - 1) limit d) as Hlen.
  destruct (acquire now lock k m _ _ limit d) as [out d1]. destruct out as [|o0 out']; [by intros [= <- <- _] |].
  intros [= <- <- _]. cbn [fst] in Hlen. destruct (ranges_of_expand (delivery_count k d1) (o0 :: out')) as [Ex Hf].
  rewrite (spans_expand _ Hf), Ex, length_fmap. split; [| by eapply (cp_bytes _ _ Hcap)].
  unfold clamp, MAX_ACQUIRE_PER_FETCH in Hlen. lia.
Qed.

(** Records and bytes given out, and what is left. *)
Definition kept_within (b0 y0 : Z) (recs bs : Z) (rest : Left) : Prop :=
  0 ≤ lf_budget rest ∧ recs + lf_budget rest ≤ b0 ∧ 0 ≤ lf_bytes rest ∧
  bs + lf_bytes rest ≤ y0 + (if lf_bytes rest =? 0 then largest else 0).

Lemma share_partition_limits version g m resolved b0 y0 recs bs rest d p data rest' d' :
  kept_within b0 y0 recs bs rest → share_partition now lock store acls who version g m resolved (rest, d) p = (data, (rest', d')) →
  kept_within b0 y0 (recs + spans (sd_acquired data)) (bs + len (sd_records data)) rest'.
Proof using Hcap Hlargest.
  intros Hk. assert (Hz : kept_within b0 y0 (recs + 0) (bs + 0) rest) by by rewrite !Z.add_0_r.
  unfold share_partition. destruct resolved as [[tid name]|]; [| by intros [= <- <- _]]. destruct (negb _); [by intros [= <- <- _] |].
  set (k := (g, (tid, spt_index p))). destruct (ack_batches now lock version k m (spt_acks p) d) as [code d1].
  destruct Hk as (Hb & Hrecs & Hy & Hbytes).
  destruct (Z.eqb_spec (lf_budget rest) 0) as [E0|E0]; cbn [orb].
  { intros [= <- <- _]. cbn [sd_acquired sd_records]. change (spans []) with 0. change (len []) with 0. unfold kept_within in *. cbn [lf_budget lf_bytes].
    replace (Z.max 0 (lf_bytes rest - 0)) with (lf_bytes rest) by lia. destruct (lf_bytes rest =? 0); lia. }
  destruct (Z.eqb_spec (lf_bytes rest) 0) as [E1|E1].
  { intros [= <- <- _]. cbn [sd_acquired sd_records]. change (spans []) with 0. change (len []) with 0. unfold kept_within in *. cbn [lf_budget lf_bytes].
    replace (Z.max 0 (lf_bytes rest - 0)) with (lf_bytes rest) by lia. rewrite E1 in *. cbn in *. lia. }
  set (cap := Z.min _ _). assert (Hcap0 : 0 < cap ≤ lf_bytes rest) by (subst cap; destruct (Z.ltb_spec 0 (spt_max_bytes p)); lia).
  destruct (acquire_and_read now lock store k m (lf_budget rest) cap d1) as [[[records acquired]|e] d2] eqn:Ear; [| by intros [= <- <- _]].
  intros [= <- <- _]. cbn [sd_acquired sd_records]. apply acquire_and_read_limits in Ear as [Hs Hr]; [| lia | lia].
  unfold kept_within. cbn [lf_budget lf_bytes]. pose proof (len_nonneg records).
  set (z := Z.max 0 (lf_bytes rest - len records)). assert (Ez : z = Z.max 0 (lf_bytes rest - len records)) by done.
  destruct (Z.eqb_spec z 0); lia.
Qed.

Lemma share_partitions_limits version g m resolved b0 y0 l : ∀ recs bs rest d ds rest' d',
  kept_within b0 y0 recs bs rest → map_state (share_partition now lock store acls who version g m resolved) (rest, d) l = (ds, (rest', d')) →
  kept_within b0 y0 (recs + records_given ds) (bs + bytes_given ds) rest'.
Proof using Hcap Hlargest.
  induction l as [|p l IH]; intros recs bs rest d ds rest' d' Hk; cbn [map_state].
  { intros [= <- <- _]. by rewrite !Z.add_0_r. }
  destruct (share_partition _ _ _ _ _ _ _ _ _ _ p) as [data [rest1 d1]] eqn:E1.
  destruct (map_state _ (rest1, d1) l) as [ds1 [rest2 d2]] eqn:E2. intros [= <- <- _].
  change (records_given (data :: ds1)) with (spans (sd_acquired data) + records_given ds1).
  change (bytes_given (data :: ds1)) with (len (sd_records data) + bytes_given ds1). rewrite !Z.add_assoc.
  eapply IH; [| exact E2]. by eapply share_partition_limits.
Qed.

Lemma share_topics_limits version g m b0 y0 l : ∀ recs bs rest d rs rest' d',
  kept_within b0 y0 recs bs rest → map_state (share_topic now lock w store acls who version g m) (rest, d) l = (rs, (rest', d')) →
  kept_within b0 y0 (recs + records_given (all_parts rs)) (bs + bytes_given (all_parts rs)) rest'.
Proof using Hcap Hlargest.
  induction l as [|t l IH]; intros recs bs rest d rs rest' d' Hk; cbn [map_state].
  { intros [= <- <- _]. by rewrite !Z.add_0_r. }
  unfold share_topic at 1. destruct (map_state (share_partition _ _ _ _ _ _ _ _ _) (rest, d) (stp_parts t)) as [ds [rest1 d1]] eqn:E1.
  destruct (map_state _ (rest1, d1) l) as [rs1 [rest2 d2]] eqn:E2. intros [= <- <- _].
  unfold all_parts. cbn [fmap list_fmap concat snd]. destruct (given_app ds (concat (snd <$> rs1))) as [-> ->]. rewrite !Z.add_assoc.
  eapply IH; [| exact E2]. by eapply share_partitions_limits.
Qed.

End Limits.

(** A ShareFetch keeps to its limits.  It acquires at most as many records as the
    member asked for and as one fetch may, over all partitions together; the records
    it sends are within the response limit but for one batch, the last.  (So with
    batches of up to 2 MiB the response always fits; with larger ones allowed, as
    [max.message.bytes] can be up to 8 MiB, it need not, and the records of a
    response that is refused stay acquired.) *)
Theorem share_fetch_limits {L S} `{LogReader S} now lock (w : World L) (store : S) acls who largest req version d resp d' :
  reader_capped largest store → 0 ≤ largest → share_fetch now lock w store acls who req version d = (Ok resp, d') →
  records_given (all_parts (sr_responses resp)) ≤ clamp 1 MAX_ACQUIRE_PER_FETCH (sf_max_records req) ∧
  bytes_given (all_parts (sr_responses resp)) ≤ MAX_RESPONSE_BYTES + largest.
Proof.
  intros Hcap Hl. unfold share_fetch. set (g := default _ (sf_group req)). set (m := default _ (sf_member req)).
  assert (Hempty : ∀ code, records_given (all_parts (sr_responses (mk_sfr code []))) ≤ clamp 1 MAX_ACQUIRE_PER_FETCH (sf_max_records req) ∧
    bytes_given (all_parts (sr_responses (mk_sfr code []))) ≤ MAX_RESPONSE_BYTES + largest).
  { intros code. cbn. unfold clamp, MAX_ACQUIRE_PER_FETCH, MAX_RESPONSE_BYTES. lia. }
  destruct (_ || _); [intros [= <- _]; apply Hempty |]. destruct (check _ _ _ _ _); [| intros [= <- _]; apply Hempty].
  destruct (check_admin_len _ _); [| done]. destruct (_ <? 0); [intros [= <- _]; apply Hempty |].
  destruct (negb _); [intros [= <- _]; apply Hempty |]. destruct (_ && negb _); [intros [= <- _]; apply Hempty |].
  set (topics := if _ && _ then _ else _). set (b0 := clamp _ _ _). set (y0 := Z.max 0 _).
  destruct (map_state _ _ topics) as [rs [rest d2]] eqn:E. intros [= <- _]. cbn [sr_responses].
  apply (share_topics_limits now lock w store acls who largest Hcap Hl version g m b0 y0 topics 0 0) in E as (H1 & H2 & H3 & H4).
  - subst b0 y0. unfold MAX_RESPONSE_BYTES in *. destruct (_ =? 0); lia.
  - unfold kept_within. cbn [lf_budget lf_bytes]. subst b0 y0. unfold clamp, MAX_ACQUIRE_PER_FETCH. destruct (_ =? 0); lia.
Qed.

(** ** Witnesses *)

Definition sample_shares : Shares :=
  set_smembers <[("workers", "a")%string := mk_smember 1 None ["orders"%string] 0]> (set_groups <["workers"%string := (1, "Stable"%string)]> no_shares).
Definition take_two : ShareFetchRequest :=
  mk_sfetch (Some "workers"%string) (Some "a"%string) 0 2 100000 0 [mk_stopic (uuid_for 1) [mk_spart 0 0 []]].
Definition took : result HandlerError ShareFetchResponse * Shares :=
  share_fetch (H := sample_reader) 0 30000 made_world sample_table open_acls nobody take_two 1 sample_shares.

Lemma share_fetch_limits_witness :
  match took with
  | (Ok resp, _) => records_given (all_parts (sr_responses resp)) = 2 ∧ bytes_given (all_parts (sr_responses resp)) = 189 ∧
      records_given (all_parts (sr_responses resp)) ≤ clamp 1 MAX_ACQUIRE_PER_FETCH 2 ∧
      bytes_given (all_parts (sr_responses resp)) ≤ MAX_RESPONSE_BYTES + 8 * 1024 * 1024
  | (Err _, _) => False
  end.
Proof.
  assert (E : match took with (Ok resp, _) => records_given (all_parts (sr_responses resp)) = 2 ∧ bytes_given (all_parts (sr_responses resp)) = 189
    | _ => False end) by (vm_compute; split; reflexivity).
  destruct took as [[resp|e] d'] eqn:Et; [| exact E]. destruct E as [E1 E2]. split; [exact E1 |]. split; [exact E2 |].
  refine (share_fetch_limits (H := sample_reader) 0 30000 made_world sample_table open_acls nobody (8 * 1024 * 1024) take_two 1 sample_shares resp d' _ _ Et).
  - apply (table_capped 64 Compaction.no_decoder (λ _, false) 2); [exact sample_table_ok | intros p part b r Hp Hr; pose proof (sample_small p part b r Hp Hr); lia | lia].
  - lia.
Defined.

Lemma acquired_records_exact_witness :
  ∃ s, table_read (λ _, false) (1, 0) 0 100000 ReadUncommitted sample_table = Ok s ∧
    acquire 0 30000 queue "a" 0 (fs_next s - 1) 2 no_shares =
      ([0; 1], (acquire_and_read (H := sample_reader) 0 30000 sample_table queue "a" 2 100000 no_shares).2).
Proof.
  destruct (acquired_records_exact (H := sample_reader) 0 30000 sample_table queue "a" 2 100000 no_shares
    (match table_read (λ _, false) (1, 0) 0 100000 ReadUncommitted sample_table with Ok s => fs_bytes s | Err _ => [] end) [mk_acq 0 1 1]
    (acquire_and_read (H := sample_reader) 0 30000 sample_table queue "a" 2 100000 no_shares).2) as (s & Hs & _ & Ha & _).
  - exact no_shares_ok.
  - vm_compute. reflexivity.
  - discriminate.
  - exists s. split; [exact Hs | exact Ha].
Defined.
