(* ===== verification/ShareBehind.v ===== *)
(** * Share groups: a position behind the log

    A share group reads from its own start offset, which nothing moves when
    retention or DeleteRecords moves the start of the log.  A group whose position
    is behind is refused by the store at every fetch; so is a new group on a log
    that does not start at 0. *)

From stdpp Require Import gmap sorting strings.
From S2P Require Import Prelude Errors Records RecordIter Compaction Cleaner Acl Group Pmeta Store Offsets Txn Config Topics Table TableSpec TableRead TableRun Fetch FetchSpec Share ShareSpec ShareHandlers ShareServe.

#[local] Open Scope Z_scope.

(** Nothing is handed out of the partition, whose position is [s]. *)
Definition idle (k : SharePartition) (s : Z) (d : Shares) : Prop := rows_of k d = ∅ ∧ start_offset k d = s.

Section Idle.

Variables (k : SharePartition) (s : Z).

Lemma idle_update k' m a b sel f d : idle k s d → idle k s (update_held k' m a b sel f d).2.
Proof using Type.
  intros [Hr Hs]. unfold update_held. cbn [snd]. split; [| by rewrite start_set_rows].
  rewrite rows_set. case_decide as E; [| done]. subst k'. rewrite Hr. apply map_eq. intros o. by rewrite map_lookup_imap, lookup_empty.
Qed.

Lemma idle_advance k' d : idle k s d → idle k s (advance_start_offset k' d).
Proof using Type.
  intros [Hr Hs]. destruct (decide (k' = k)) as [->|Hne].
  - split.
    + apply map_eq. intros o. rewrite advance_rows, Hr. case_decide; by rewrite lookup_empty.
    + destruct (advance_start k d) as (Hle & Hall & _). rewrite Hs in *. apply Z.le_antisymm; [| done].
      apply Z.nlt_ge. intros Hlt. destruct (Hall s) as (r & Hrow & _); [lia |]. by rewrite Hr, lookup_empty in Hrow.
  - destruct (advance_other k' d k) as [E1 E2]; [done |]. unfold idle. by rewrite E1, E2.
Qed.

Lemma idle_ack_one now lock k' m o kind d : idle k s d → idle k s (ack_one now lock k' m o kind d).2.
Proof using Type.
  intros Hd. assert (Hu : ∀ sel f, idle k s (update_held k' m o o sel f d).2) by (intros; by apply idle_update).
  destruct kind; cbn [ack_one snd]; unfold set_state; apply Hu.
Qed.

Lemma idle_ack_each now lock k' m first last types : ∀ i d,
  idle k s d → idle k s (ack_each now lock k' m first last i types d).2.
Proof using Type.
  induction types as [|kind ts IH]; intros i d Hd; cbn [ack_each]; [done |]. destruct (last <? _); [done |].
  apply bind_state_ok; [by apply idle_ack_one | intros; by apply IH].
Qed.

Lemma idle_acknowledge now lock k' m first last types d : idle k s d → idle k s (acknowledge now lock k' m first last types d).2.
Proof using Type.
  intros Hd. unfold acknowledge. destruct (last <? first); [done |].
  assert (Heach : idle k s ((ack_each now lock k' m first last 0 types;;; (λ d, (Ok tt, advance_start_offset k' d))) d).2).
  { apply bind_state_ok; [by apply idle_ack_each | intros; by apply idle_advance]. }
  destruct types as [|kind [|]]; [exact Heach | | exact Heach]. destruct (first <? last); [| exact Heach].
  apply bind_state_ok; [| intros; by apply idle_advance].
  rewrite ack_range_state. unfold range_update. destruct kind; by apply idle_update.
Qed.

Lemma idle_ack_batches now lock version k' m bs d : idle k s d → idle k s (ack_batches now lock version k' m bs d).2.
Proof using Type.
  unfold ack_batches. intros Hd. assert (Hall : ∀ acc, idle k s acc.2 → idle k s (foldl (ack_batch now lock version k' m) acc bs).2);
    [| by apply (Hall (_, d))].
  clear Hd d. induction bs as [|b bs IH]; intros [code d] Hd; cbn [foldl]; [done |]. apply IH. unfold ack_batch.
  destruct (decode_acks (ab_types b) version) as [acks|]; [| done].
  pose proof (idle_acknowledge now lock k' m (ab_first b) (ab_last b) acks d Hd) as H1.
  by destruct (acknowledge now lock k' m (ab_first b) (ab_last b) acks d) as [[]].
Qed.

Lemma idle_acquire now lock k' m from upto limit d : k' ≠ k → idle k s d → idle k s (acquire now lock k' m from upto limit d).2.
Proof using Type.
  intros Hne Hd. unfold acquire. destruct (_ <=? _); [done |]. destruct (_ =? 0); [done |].
  destruct (hand_out _ _ _ _ _) as [out rows']. cbn [snd]. apply idle_advance. destruct Hd as [Hr Hs].
  split; [by rewrite rows_set_ne | by rewrite start_set_rows].
Qed.

Lemma idle_release_all g m d : idle k s d → idle k s (release_all g m d).
Proof using Type.
  intros [Hr Hs]. split; [| done]. rewrite rows_release_all, Hr. unfold hand_back_rows. rewrite fmap_empty. by case_decide.
Qed.

(** ** The requests of members *)

Context {L : Type}.
Variables (entry_size : Z) (open_decoder : Z → bytes → result BatchError (bytes * option BatchError)) (ongoing : Z → bool).
#[local] Instance reader : LogReader Table := table_reader entry_size open_decoder ongoing.
Variables (size : Z) (t : Table) (part : TPart) (row : PartitionRow).
Hypothesis Hok : table_ok size t.
Hypothesis Hpart : tb_parts t !! k.2 = Some part.
Hypothesis Hrow : partitions (tb_meta t) !! k.2 = Some row.
Hypothesis Hbehind : s < pt_log_start row.

Lemma behind_refused now lock m limit cap d : idle k s d → acquire_and_read now lock t k m limit cap d = (Err OffsetOutOfRange, d).
Proof using Hok Hpart Hrow Hbehind.
  intros [_ Hs]. unfold acquire_and_read. cbn [reader_high_watermark read reader table_reader]. unfold table_high_watermark. rewrite Hpart, Hs.
  pose proof (tk_start _ _ Hok k.2 part row Hpart Hrow). rewrite (proj2 (Z.leb_gt _ _)) by lia.
  destruct (table_read_spec size ongoing t k.2 part s cap ReadUncommitted Hok Hpart) as (start & Es & Hspec).
  unfold log_start_offset in Es. rewrite Hrow in Es. injection Es as <-.
  destruct (table_read _ _ _ _ _ _) as [sl|e]; [destruct Hspec as [? _]; lia |]. by destruct Hspec as [-> _].
Qed.

Lemma idle_partition now lock acls who version g m resolved st p :
  idle k s st.2 → idle k s (share_partition now lock t acls who version g m resolved st p).2.2.
Proof using Hok Hpart Hrow Hbehind.
  destruct st as [rest d]. cbn [snd]. intros Hd. unfold share_partition. destruct resolved as [[tid name]|]; [| done]. destruct (negb _); [done |].
  set (k' := (g, (tid, spt_index p))). pose proof (idle_ack_batches now lock version k' m (spt_acks p) d Hd) as H1.
  destruct (ack_batches now lock version k' m (spt_acks p) d) as [code d1]. cbn [snd] in *. destruct (_ || _); [done |].
  set (cap := Z.min _ _). destruct (decide (k' = k)) as [->|Hne]; [by rewrite behind_refused |].
  unfold acquire_and_read. destruct (reader_high_watermark _ t) as [hwm|]; [| done]. destruct (hwm <=? _); [done |].
  destruct (read _ _ _ _ t) as [sl|]; [| done]. destruct (fs_next sl <=? _); [done |].
  pose proof (idle_acquire now lock k' m (start_offset k' d1) (fs_next sl - 1) (lf_budget rest) d1 Hne H1) as H2.
  by destruct (acquire now lock k' m _ _ _ d1) as [[|]].
Qed.

Lemma idle_map_state {A B X} (P : X → Prop) (f : X → A → B * X) l : ∀ x, P x → (∀ x a, P x → P (f x a).2) → P (map_state f x l).2.
Proof using Type. intros x Hx Hf. apply (map_state_rel (λ x y, P x → P y)); auto. Qed.

Lemma idle_share_fetch now lock (w : World L) acls who req version d :
  idle k s d → idle k s (share_fetch now lock w t acls who req version d).2.
Proof using Hok Hpart Hrow Hbehind.
  intros Hd. unfold share_fetch. destruct (_ || _); [done |]. destruct (check _ _ _ _ _); [| done]. destruct (check_admin_len _ _); [| done].
  destruct (_ <? 0); [by apply idle_release_all |]. destruct (negb _); [done |]. destruct (_ && negb _); [done |].
  set (topics := if _ && _ then _ else _). set (st := mk_left _ _). set (d1 := set_smembers _ d). set (f := share_topic _ _ _ _ _ _ _ _ _).
  pose proof (idle_map_state (λ x : Left * Shares, idle k s x.2) f topics (st, d1) Hd) as Hm.
  destruct (map_state f (st, d1) topics) as [rs [st' d2]]. cbn [snd] in *. apply Hm. intros x tp Hx. subst f. unfold share_topic.
  set (f := share_partition _ _ _ _ _ _ _ _ _).
  pose proof (idle_map_state (λ x : Left * Shares, idle k s x.2) f (stp_parts tp) x Hx) as Hp.
  destruct (map_state f x (stp_parts tp)) as [ds x']. cbn [snd] in *. apply Hp. intros. by apply idle_partition.
Qed.

Lemma idle_share_acknowledge now lock (w : World L) acls who g m epoch topics version d :
  idle k s d → idle k s (share_acknowledge now lock w acls who g m epoch topics version d).2.
Proof using Type.
  intros Hd. unfold share_acknowledge. destruct (check _ _ _ _ _); [| done]. destruct (check_admin_len _ _); [| done].
  set (d1 := if _ <? 0 then _ else _). assert (H1 : idle k s d1) by (subst d1; destruct (_ <? 0); [by apply idle_release_all | done]).
  set (f := λ d t, _). pose proof (idle_map_state (idle k s) f topics d1 H1) as Hm. destruct (map_state f d1 topics). cbn [snd] in *.
  apply Hm. intros d0 tp Hd0. subst f. cbn beta. set (f := λ d p, _).
  pose proof (idle_map_state (idle k s) f (stp_parts tp) d0 Hd0) as Hp. destruct (map_state f d0 (stp_parts tp)). cbn [snd] in *.
  apply Hp. intros d2 p Hd2. subst f. cbn beta. destruct (topic_by_uuid _ _) as [[tid name]|]; [| done].
  pose proof (idle_ack_batches now lock version (default ""%string g, (tid, spt_index p)) (default ""%string m) (spt_acks p) d2 Hd2) as Ha.
  by destruct (ack_batches now lock version _ _ _ d2).
Qed.

Lemma idle_heartbeat now fresh_id (w : World L) acls who req d : idle k s d → idle k s (heartbeat now fresh_id w acls who req d).2.
Proof using Type.
  intros Hd. unfold heartbeat. destruct (check_bounds _); [| done]. destruct (check _ _ _ _ _); [| done]. destruct (negb (forallb _ _)); [done |].
  destruct (_ <? 0); [by apply (idle_release_all _ _ d Hd) |]. destruct (_ && negb _); [done |].
  unfold ensure_member. destruct (clashes w _); [done |]. cbn [snd]. by destruct (member_is_known _ _ _).
Qed.

End Idle.

(** What members may ask for, of this log, whoever they are and whenever. *)
Inductive member_request {L} (reader : LogReader Table) (t : Table) : Shares → Shares → Prop :=
| ask_heartbeat now fresh_id (w : World L) acls who req d : member_request reader t d (heartbeat now fresh_id w acls who req d).2
| ask_fetch now lock (w : World L) acls who req version d : member_request reader t d (share_fetch now lock w t acls who req version d).2
| ask_acknowledge now lock (w : World L) acls who g m epoch topics version d :
    member_request reader t d (share_acknowledge now lock w acls who g m epoch topics version d).2.

(** A share group whose position is behind the start of the log is stuck: with
    nothing of the partition handed out, every attempt to read for it fails, for every
    member, limit and time, and no sequence of heartbeats, fetches and
    acknowledgements changes that, although the log has records.  A new group on a log
    that does not start at offset 0 is in that state. *)
Theorem share_group_behind_log {L} entry_size open_decoder ongoing size t part row k s d d' :
  table_ok size t → tb_parts t !! k.2 = Some part → partitions (tb_meta t) !! k.2 = Some row → s < pt_log_start row →
  let reader := table_reader entry_size open_decoder ongoing in
  idle k s d → rtc (member_request (L := L) reader t) d d' →
  idle k s d' ∧ ∀ now lock m limit cap, acquire_and_read now lock t k m limit cap d' = (Err OffsetOutOfRange, d').
Proof.
  intros Hok Hp Hr Hlt reader Hd Hs. assert (Hi : idle k s d').
  { induction Hs as [|d d1 d' Hst _ IH]; [done |]. apply IH. destruct Hst.
    - by apply idle_heartbeat.
    - by eapply idle_share_fetch.
    - by apply idle_share_acknowledge. }
  split; [done |]. intros. by eapply behind_refused.
Qed.

Lemma trimmed_ok : table_ok 2 trimmed.
Proof. apply (table_step_ok sum_crc 2 sample_table); [done | apply run_truncate | apply sample_table_ok]. Qed.

Lemma share_group_behind_log_witness :
  let reader := table_reader 64 no_decoder (λ _, true) in
  log_start_offset (1, 0) (tb_meta trimmed) = Ok 1 ∧ is_ok (table_read (λ _, true) (1, 0) 1 1000 ReadUncommitted trimmed) = true ∧
  acquire_and_read 5 30000 trimmed queue "a" 10 1000 no_shares = (Err OffsetOutOfRange, no_shares).
Proof.
  intros reader. split; [vm_compute; reflexivity |]. split; [vm_compute; reflexivity |].
  refine (proj2 (share_group_behind_log (L := unit) 64 no_decoder (λ _, true) 2 trimmed (default (mk_tpart 0 ∅ ∅) (tb_parts trimmed !! (1, 0)))
    (mk_partition 1 0 0) queue 0 no_shares no_shares _ _ _ _ _ (rtc_refl _ _)) 5 30000 "a"%string 10 1000).
  - exact trimmed_ok.
  - vm_compute. reflexivity.
  - vm_compute. reflexivity.
  - reflexivity.
  - split; vm_compute; reflexivity.
Defined.
