(* ===== verification/ConsumerGroup.v ===== *)
(** * extension/src/handlers/consumer_group.rs: consumer groups (KIP-848)

    The broker assigns the partitions.  [target] is where the assignor wants a
    partition, [granted] what the broker told a member it may hold, [owned] what
    the member last reported; a partition goes to its new owner only when nobody
    else is left with it in the last two.  One heartbeat is one transaction over
    the two tables of init120.rs.

    [now] is the database clock in milliseconds, [fresh_id] what [uuid_like]
    returns, [w] the catalog of Topics.v with the tables of the other group kinds,
    [id_le] the collation of the database.  The regular expressions are the
    server's: [compiles] and [regex_match] stand for them.  A [BTreeMap] is a
    finite map that is walked in the order of its keys as byte strings. *)

From Stdlib Require Import Ascii.
From stdpp Require Import gmap sorting strings pretty.
From S2P Require Import Prelude Errors Acl Group Pmeta Offsets Txn Config Topics Table ShareHandlers.

#[local] Open Scope Z_scope.

Definition HEARTBEAT_INTERVAL_MS : Z := 5000.
Definition SESSION_TIMEOUT_MS : Z := 45000.
Definition ASSIGNOR : string := "uniform".
Definition MAX_SUBSCRIBED_TOPICS : Z := 5000.
Definition MAX_OWNED_PARTITIONS : Z := 50000.
Definition MAX_GROUP_SIZE : Z := 1000.
Definition REASSIGN_INTERVAL_MS : Z := 30000.
Definition MAX_DESCRIBED_MEMBERS : nat := 1000.
(** [PER_SWEEP] of [expire_members]. *)
Definition PER_SWEEP : nat := 500.

(** [topic_id:partition]. *)
Definition tp (topic partition : Z) : string := pretty topic +:+ ":" +:+ pretty partition.

(** ** Sorted walks *)

(** The order of [String], byte by byte. *)
Definition sorted_strings (l : list string) : list string := merge_sort str_le l.
Definition keys {A} (m : gmap string A) : list string := sorted_strings (map_to_list m).*1.
Definition to_vec (s : gset string) : list string := sorted_strings (elements s).

(** ** The assignor *)

Abbreviation Subscriptions := (gmap string (gset string)).
Abbreviation Assignments := (gmap string (gset string)).

Definition interested (members : Subscriptions) (topic : string) : list string :=
  filter (λ m, topic ∈ default ∅ (members !! m)) (keys members).

(** Partition number [i] of a topic's list goes to the interested member [i] modulo
    their number. *)
Definition hand_out (who : list string) (topic : string) (out : Assignments) (ip : nat * Z) : Assignments :=
  match who !! (ip.1 mod length who)%nat with
  | Some m => alter (λ s, {[ topic +:+ ":" +:+ pretty ip.2 ]} ∪ s) m out
  | None => out
  end.

Definition assign_topic (members : Subscriptions) (partitions_of : gmap string (list Z)) (out : Assignments)
    (topic : string) : Assignments :=
  match interested members topic with
  | [] => out
  | who => match partitions_of !! topic with
           | Some parts => foldl (hand_out who topic) out (imap pair parts)
           | None => out
           end
  end.

Definition assign (members : Subscriptions) (partitions_of : gmap string (list Z)) : Assignments :=
  foldl (assign_topic members partitions_of) ((λ _, ∅) <$> members) (keys partitions_of).

(** ** Tables *)

Record CGroup : Type := mk_cgroup {
  cg_epoch : Z;
  cg_assignment_epoch : Z;
  cg_state : string;
  cg_updated : Z }.

Record Member : Type := mk_cmember {
  mb_epoch : Z;
  mb_instance : option string;
  mb_rack : option string;
  mb_rebalance_timeout : Z;
  mb_subscribed : list string;
  mb_owned : list string;
  mb_granted : list string;
  mb_target : list string;
  mb_revoking : option Z;
  mb_departed : bool;
  mb_seen : Z;
  mb_regex : option string;
  mb_matched : list string }.

Record CGroups : Type := mk_cgroups {
  cg_groups : gmap string CGroup;
  cg_members : gmap (string * string) Member }.

Definition on_cgroups (f : gmap string CGroup → gmap string CGroup) d := mk_cgroups (f (cg_groups d)) (cg_members d).
Definition on_members (f : gmap (string * string) Member → gmap (string * string) Member) d :=
  mk_cgroups (cg_groups d) (f (cg_members d)).

(** The rows the check of offset commits reads (Offsets.v). *)
Definition commit_view (shares : gset string) d : ConsumerTables :=
  mk_consumers shares (dom (cg_groups d))
    ((λ m, mk_consumer (mb_epoch m) (mb_owned m) (mb_granted m)) <$> cg_members d).

Definition wants (m : Member) : list string := mb_subscribed m ++ mb_matched m.

(** ** Requests *)

Record CHeartbeat : Type := mk_cheartbeat {
  ch_group : string;
  ch_member : string;
  ch_epoch : Z;
  ch_instance : option string;
  ch_rack : option string;
  ch_rebalance_timeout : Z;
  ch_subscribed : option (list string);
  ch_regex : option string;
  ch_assignor : option string;
  ch_partitions : option (list (bytes * list Z)) }.
Record CHeartbeatResponse : Type := mk_cheartbeat_response {
  cr_error : ErrorCode.t;
  cr_member : option string;
  cr_epoch : Z;
  cr_interval : Z;
  cr_assignment : option (list (bytes * list Z)) }.

Definition err_hb (code : ErrorCode.t) : CHeartbeatResponse := mk_cheartbeat_response code None 0 0 None.

Definition check_bounds (req : CHeartbeat) : result HandlerError unit :=
  let names := Z.of_nat (length (default [] (ch_subscribed req))) in
  let owned := foldr Z.add 0 ((λ t : bytes * list Z, Z.of_nat (length t.2)) <$> default [] (ch_partitions req)) in
  if MAX_SUBSCRIBED_TOPICS <? names then Err (TooLarge "subscribed topics" names)
  else if MAX_OWNED_PARTITIONS <? owned then Err (TooLarge "owned partitions" owned)
  else Ok tt.

(** ** Patterns *)

(** [split_once] at a character. *)
Fixpoint split_once (c : ascii) (s : string) : option (string * string) :=
  match s with
  | EmptyString => None
  | String a s' => if decide (a = c) then Some (EmptyString, s')
                   else '(l, r) ← split_once c s'; Some (String a l, r)
  end.
Definition alphabetic (a : ascii) : bool :=
  let n := Z.of_N (N_of_ascii a) in (65 <=? n) && (n <=? 90) || (97 <=? n) && (n <=? 122).

(** Leading options stay in front of the anchor. *)
Definition anchored (pattern : string) : string :=
  let plain := ("" +:+ "^(?:" +:+ pattern +:+ ")$")%string in
  match pattern with
  | String "(" (String "?" rest) =>
      match split_once ")" rest with
      | Some (flags, body) =>
          if negb (bool_decide (flags = ""%string)) && forallb alphabetic (String.list_ascii_of_string flags)
          then ("(?" +:+ flags +:+ ")" +:+ "^(?:" +:+ body +:+ ")$")%string
          else plain
      | None => plain
      end
  | _ => plain
  end.

Section Handlers.

Context {L : Type}.
Variables (now : Z) (fresh_id : string).
Variables (w : World L) (acls : AclCache) (who : Principal).
Variable id_le : string → string → Prop.
Context {id_dec : ∀ a b, Decision (id_le a b)}.
Variables (compiles : string → bool) (regex_match : string → string → bool).

Abbreviation cg A := (ST CGroups Failure A).
Implicit Types d : CGroups.

Definition by_id (a b : string * Member) : Prop := id_le a.1 b.1.
#[local] Instance by_id_dec a b : Decision (by_id a b).
Proof using id_dec. unfold by_id. apply _. Defined.

Definition load_members (group : string) d : list (string * Member) :=
  merge_sort by_id
    (omap (λ e : string * string * Member, if decide (e.1.1 = group) then Some (e.1.2, e.2) else None)
       (map_to_list (cg_members d))).

(** ** The catalog *)

Definition loaded (names : gset string) : list (Z * (string * Z)) :=
  filter (λ t, t.2.1 ∈ names) (map_to_list (t_topics (w_tx w))).
Definition partition_list (topic : Z) : list Z := merge_sort (≤) (partitions_of topic w).*2.
Definition subscribed_partitions (names : gset string) : gmap string (list Z) * gmap string string :=
  (list_to_map ((λ t : Z * (string * Z), (pretty t.1, partition_list t.1)) <$> loaded names),
   list_to_map ((λ t : Z * (string * Z), (t.2.1, pretty t.1)) <$> loaded names)).

(** [topic_ids_by_uuids]: the uuid is unique. *)
Definition topic_id_by_uuid (uuid : bytes) : option Z :=
  fst ∘ snd <$> list_find (λ e : Z * (bytes * Overrides), e.2.1 = uuid) (map_to_list (w_cols w)).
Definition reported (tps : list (bytes * list Z)) : list string :=
  t ← tps; match topic_id_by_uuid t.1 with Some oid => tp oid <$> t.2 | None => [] end.

Definition regex_topics (pattern : string) : option (list string) :=
  if negb (compiles pattern) || negb (compiles (anchored pattern)) then None
  else Some (filter (λ n, is_ok (check acls who Acl.Describe Acl.Topic n))
              (merge_sort id_le (filter (λ n, regex_match (anchored pattern) n) (map_to_list (t_topics (w_tx w))).*2.*1))).

Definition to_wire (parts : list (Z * Z)) : list (bytes * list Z) := per_topic w parts.

(** ** Statements *)

Definition bump_epoch (group : string) : cg unit := λ d,
  match cg_groups d !! group with
  | None => (Ok tt, d)
  | Some g =>
      if cg_epoch g =? i32_max then (Err Raised, d)
      else (Ok tt, on_cgroups <[group := mk_cgroup (cg_epoch g + 1) (cg_assignment_epoch g) (cg_state g) now]> d)
  end.

Definition orelse {A} (a b : option A) : option A := match a with Some x => Some x | None => b end.
Definition timeout_or (given stored : Z) : Z := if given =? -1 then stored else given.

Definition upsert_row (req : CHeartbeat) (owned : option (list string)) (regex : option string) (matched : list string)
    (o : option Member) : Member :=
  match o with
  | None =>
      mk_cmember 0 (ch_instance req) (ch_rack req) (timeout_or (ch_rebalance_timeout req) 300000)
        (default [] (ch_subscribed req)) (default [] owned) [] [] None false now regex matched
  | Some m =>
      mk_cmember (mb_epoch m) (orelse (ch_instance req) (mb_instance m)) (orelse (ch_rack req) (mb_rack m))
        (timeout_or (ch_rebalance_timeout req) (mb_rebalance_timeout m))
        (default (mb_subscribed m) (ch_subscribed req)) (default (mb_owned m) owned) (mb_granted m) (mb_target m)
        (mb_revoking m) false now regex matched
  end.
Definition upsert_member (req : CHeartbeat) (member : string) (owned : option (list string)) (regex : option string)
    (matched : list string) : CGroups → CGroups :=
  on_members (λ ms, <[(ch_group req, member) := upsert_row req owned regex matched (ms !! (ch_group req, member))]> ms).

Definition set_target (target : list string) (m : Member) : Member :=
  mk_cmember (mb_epoch m) (mb_instance m) (mb_rack m) (mb_rebalance_timeout m) (mb_subscribed m) (mb_owned m)
    (mb_granted m) target (mb_revoking m) (mb_departed m) (mb_seen m) (mb_regex m) (mb_matched m).
Definition set_departed (departed : bool) (m : Member) : Member :=
  mk_cmember (mb_epoch m) (mb_instance m) (mb_rack m) (mb_rebalance_timeout m) (mb_subscribed m) (mb_owned m)
    (mb_granted m) (mb_target m) (mb_revoking m) departed (mb_seen m) (mb_regex m) (mb_matched m).
Definition set_seen (m : Member) : Member :=
  mk_cmember (mb_epoch m) (mb_instance m) (mb_rack m) (mb_rebalance_timeout m) (mb_subscribed m) (mb_owned m)
    (mb_granted m) (mb_target m) (mb_revoking m) (mb_departed m) now (mb_regex m) (mb_matched m).
(** A returning static member takes over the row of the one that left. *)
Definition adopted (m : Member) : Member :=
  mk_cmember (mb_epoch m) (mb_instance m) (mb_rack m) (mb_rebalance_timeout m) (mb_subscribed m) (mb_owned m)
    (mb_granted m) (mb_target m) None false now (mb_regex m) (mb_matched m).
Definition reconciled (epoch : Z) (granted : list string) (revoking : bool) (m : Member) : Member :=
  mk_cmember epoch (mb_instance m) (mb_rack m) (mb_rebalance_timeout m) (mb_subscribed m) (mb_owned m) granted
    (mb_target m) (if revoking then Some (default now (mb_revoking m)) else None) (mb_departed m) now (mb_regex m)
    (mb_matched m).

(** ** Reconciliation *)

Definition new_target (members : list (string * Member)) : Assignments :=
  let names : gset string := list_to_set (members ≫= λ m, wants m.2) in
  let '(partitions_of, oid_of_name) := subscribed_partitions names in
  let by_oid : Subscriptions :=
    list_to_map ((λ m : string * Member, (m.1, list_to_set (omap (λ n, oid_of_name !! n) (wants m.2)))) <$> members) in
  assign by_oid partitions_of.

Definition store_target (group : string) (target : Assignments) (d : CGroups) (m : string * Member) : CGroups :=
  match target !! m.1 with
  | None => d
  | Some want => if decide (list_to_set (mb_target m.2) = want) then d
                 else on_members (alter (set_target (to_vec want)) (group, m.1)) d
  end.

Definition recompute_target (group : string) (members : list (string * Member)) d : Assignments * CGroups :=
  let target := new_target members in
  let d := foldl (store_target group target) d members in
  let state := if decide (load_members group d = []) then "Empty"%string else "Stable"%string in
  (target, on_cgroups (alter (λ g, mk_cgroup (cg_epoch g) (cg_epoch g) state now) group) d).

Definition held_elsewhere (members : list (string * Member)) (target : Assignments) : gset string :=
  list_to_set (members ≫= λ m, filter (λ p, p ∉ default ∅ (target !! m.1)) (mb_owned m.2 ++ mb_granted m.2)).

Definition stored_target (members : list (string * Member)) : Assignments :=
  list_to_map ((λ m : string * Member, (m.1, list_to_set (mb_target m.2))) <$> members).

(** The group epoch, and whether the stored target stands. *)
Definition epochs_of (group : string) d : Z * bool :=
  match cg_groups d !! group with
  | Some g => (cg_epoch g, (cg_assignment_epoch g =? cg_epoch g) && negb (cg_updated g <? now - REASSIGN_INTERVAL_MS))
  | None => (0, false)
  end.

Definition current_target (group : string) d : Assignments * CGroups :=
  let members := load_members group d in
  if (epochs_of group d).2 then (stored_target members, d) else recompute_target group members d.

Definition granted_to (members : list (string * Member)) (me : string) : gset string :=
  match list_find (λ m : string * Member, m.1 = me) members with
  | Some (_, m) => list_to_set (mb_granted m.2)
  | None => ∅
  end.

Definition reconcile (group me : string) (prev_epoch : Z) (acknowledged : option (gset string)) d
    : (Z * list (bytes * list Z)) * CGroups :=
  let group_epoch := (epochs_of group d).1 in
  let members := load_members group d in
  let '(target, d) := current_target group d in
  let my_target : gset string := default ∅ (target !! me) in
  let grantable := my_target ∖ held_elsewhere members target in
  let my_granted := granted_to members me in
  let keep := match acknowledged with Some owned => my_granted ∩ owned | None => my_granted end in
  let now_granted := keep ∪ grantable in
  let epoch := if (size grantable =? size my_target)%nat then group_epoch else prev_epoch in
  let still_revoking := negb (bool_decide (now_granted ⊆ my_target)) in
  let d := on_members (alter (reconciled epoch (to_vec now_granted) still_revoking) (group, me)) d in
  ((epoch, to_wire (omap parse_tp (to_vec grantable))), d).

(** ** The heartbeat *)

Definition leave_group (group member : string) (epoch : Z) : cg unit := λ d,
  if epoch =? -2 then (Ok tt, on_members (alter (set_departed true) (group, member)) d)
  else match cg_members d !! (group, member) with
       | Some _ => bump_epoch group (on_members (delete (group, member)) d)
       | None => (Ok tt, d)
       end.

(** Whether the static member may go on; [false] when its instance is in use. *)
Definition claim_instance (group member : string) (instance : option string) : cg bool := λ d,
  match instance with
  | None => (Ok true, d)
  | Some i =>
      match list_find (λ e : string * string * Member, e.1.1 = group ∧ mb_instance e.2 = Some i) (map_to_list (cg_members d)) with
      | None => (Ok true, d)
      | Some (_, ((_, holder), row)) =>
          if decide (holder = member) then (Ok true, d)
          else if negb (mb_departed row) then (Ok false, d)
          else if decide (is_Some (cg_members d !! (group, member))) then (Err Raised, d)
          else (Ok true, on_members (λ ms, <[(group, member) := adopted row]> (delete (group, holder) ms)) d)
      end
  end.

Definition revoke_expired (m : Member) : bool :=
  match mb_revoking m with
  | Some since => since <? now - Z.max (mb_rebalance_timeout m) 1000
  | None => false
  end.

(** The member's row, or why it is refused. *)
Definition admit_member (group member : string) (epoch : Z) : cg (result ErrorCode.t (option Member)) := λ d,
  match cg_members d !! (group, member) with
  | None =>
      if negb (epoch =? 0) then (Ok (Err ErrorCode.UnknownMemberId), d)
      else if MAX_GROUP_SIZE <=? Z.of_nat (length (load_members group d)) then (Ok (Err ErrorCode.GroupMaxSizeReached), d)
      else (Ok (Ok None), d)
  | Some row =>
      if negb (epoch =? 0) && negb (epoch =? mb_epoch row) then (Ok (Err ErrorCode.FencedMemberEpoch), d)
      else if revoke_expired row
      then (bump_epoch group;;; ret (Err ErrorCode.UnknownMemberId)) (on_members (delete (group, member)) d)
      else (Ok (Ok (Some row)), d)
  end.

Definition next_regex (req : CHeartbeat) (existing : option Member) : option string :=
  match ch_regex req with
  | None => existing ≫= mb_regex
  | Some p => if decide (p = ""%string) then None else Some p
  end.
Definition matched_topics (regex : option string) : result ErrorCode.t (list string) :=
  match regex with
  | None => Ok []
  | Some p => match regex_topics p with
              | None => Err ErrorCode.InvalidRegularExpression
              | Some names => if MAX_SUBSCRIBED_TOPICS <? Z.of_nat (length names) then Err ErrorCode.InvalidRequest
                              else Ok names
              end
  end.

Definition group_changed (req : CHeartbeat) (existing : option Member) (regex : option string) (matched : list string) : bool :=
  match existing with
  | None => true
  | Some row =>
      match ch_subscribed req with
      | Some new => negb (bool_decide (list_to_set (C := gset string) new = list_to_set (mb_subscribed row)))
      | None => false
      end ||
      negb (bool_decide (mb_regex row = regex)) || negb (bool_decide (mb_matched row = matched))
  end.

(** What is left once the member is admitted. *)
Definition serve_member (req : CHeartbeat) (member : string) (existing : option Member) : cg CHeartbeatResponse := λ d,
  let owned := reported <$> ch_partitions req in
  let regex := next_regex req existing in
  match matched_topics regex with
  | Err code => (Ok (err_hb code), d)
  | Ok matched =>
      let d := upsert_member req member owned regex matched d in
      ((if group_changed req existing regex matched then bump_epoch (ch_group req) else ret tt);;;
       λ d,
         let prev_epoch := match existing with Some row => mb_epoch row | None => 0 end in
         let '((epoch, asg), d) := reconcile (ch_group req) member prev_epoch (list_to_set <$> owned) d in
         (Ok (mk_cheartbeat_response ErrorCode.NoError (Some member) epoch HEARTBEAT_INTERVAL_MS (Some asg)), d)) d
  end.

Definition other_protocol (group : string) : bool :=
  bool_decide (is_Some (groups (t_groups (w_tx w)) !! group)) ||
  bool_decide (group ∈ share_groups (t_consumers (w_tx w))).

Definition ensure_group (group : string) : CGroups → CGroups :=
  on_cgroups (λ gs, match gs !! group with Some _ => gs | None => <[group := mk_cgroup 0 0 "Empty" now]> gs end).

Definition join_or_continue (req : CHeartbeat) : cg CHeartbeatResponse := λ d,
  let member := if decide (ch_member req = ""%string) then fresh_id else ch_member req in
  if negb (forallb (λ n, is_ok (check acls who Acl.Read Acl.Topic n)) (default [] (ch_subscribed req)))
  then (Ok (err_hb ErrorCode.TopicAuthorizationFailed), d)
  else
    (let* claimed := claim_instance (ch_group req) member (ch_instance req) in
     if negb claimed then ret (err_hb ErrorCode.UnreleasedInstanceId)
     else
       let* admitted := admit_member (ch_group req) member (ch_epoch req) in
       match admitted with
       | Err code => ret (err_hb code)
       | Ok existing => serve_member req member existing
       end) (ensure_group (ch_group req) d).

Definition leave (req : CHeartbeat) : cg CHeartbeatResponse :=
  if decide (ch_member req = ""%string) then ret (err_hb ErrorCode.UnknownMemberId)
  else if ch_epoch req <? -2 then ret (err_hb ErrorCode.InvalidRequest)
  else leave_group (ch_group req) (ch_member req) (ch_epoch req);;;
       ret (mk_cheartbeat_response ErrorCode.NoError (Some (ch_member req)) (ch_epoch req) 0 None).

Definition heartbeat (req : CHeartbeat) : cg CHeartbeatResponse :=
  match check_bounds req with
  | Err e => throw (Returned e)
  | Ok _ =>
  match check acls who Acl.Read Acl.Group (ch_group req) with
  | Err code => ret (err_hb code)
  | Ok _ =>
      if other_protocol (ch_group req) then ret (err_hb ErrorCode.GroupIdNotFound)
      else if negb (bool_decide (default ASSIGNOR (ch_assignor req) = ASSIGNOR))
      then ret (err_hb ErrorCode.UnsupportedAssignor)
      else if ch_epoch req <? 0 then leave req else join_or_continue req
  end
  end.

(** ** The sweep *)

Definition by_seen (a b : string * string * Member) : Prop := mb_seen a.2 ≤ mb_seen b.2.
#[local] Instance by_seen_dec a b : Decision (by_seen a b).
Proof using Type. unfold by_seen. apply _. Defined.

(** Silent for the session timeout, the longest first. *)
Definition gone (d : CGroups) : list (string * string * Member) :=
  take PER_SWEEP (merge_sort by_seen
    (filter (λ e, mb_seen e.2 < now - SESSION_TIMEOUT_MS) (map_to_list (cg_members d)))).

Definition after_loss (group : string) : cg unit :=
  bump_epoch group;;;
  λ d, (Ok tt, if decide (load_members group d = [])
               then on_cgroups (alter (λ g, mk_cgroup (cg_epoch g) (cg_assignment_epoch g) "Empty" (cg_updated g)) group) d
               else d).

Definition expire_members (alive : list (string * string)) : cg Z := λ d,
  let d := on_members (λ ms, foldl (λ ms k, alter set_seen k ms) ms alive) d in
  let lost := gone d in
  let groups := to_vec (list_to_set lost.*1.*1) in
  (each after_loss groups;;; ret (Z.of_nat (length groups)))
    (on_members (λ ms, foldl (λ ms k, delete k ms) ms lost.*1) d).

(** ** Describing *)

Record DescMember : Type := mk_desc_member {
  dm_id : string;
  dm_epoch : Z;
  dm_subscribed : list string;
  dm_regex : option string;
  dm_assignment : list (bytes * list Z);
  dm_target : list (bytes * list Z) }.
Record CDescribedGroup : Type := mk_cdescribed {
  cd_error : ErrorCode.t;
  cd_group : string;
  cd_state : string;
  cd_epoch : Z;
  cd_assignment_epoch : Z;
  cd_members : list DescMember }.

Definition to_assignment (pairs : list string) : list (bytes * list Z) := to_wire (omap parse_tp pairs).
Definition describe_member (m : string * Member) : DescMember :=
  mk_desc_member m.1 (mb_epoch m.2) (mb_subscribed m.2) (mb_regex m.2)
    (to_assignment (mb_owned m.2)) (to_assignment (mb_target m.2)).

Definition too_many : Failure := Returned (TooLarge "described group members" (Z.of_nat MAX_DESCRIBED_MEMBERS)).

(** Each member takes one off the budget; with none left the request is refused. *)
Definition describe_one (d : CGroups) (budget : nat) (gid : string) : result Failure (CDescribedGroup * nat) :=
  if negb (is_ok (check acls who Acl.Describe Acl.Group gid))
  then Ok (mk_cdescribed ErrorCode.GroupAuthorizationFailed gid "" 0 0 [], budget)
  else match cg_groups d !! gid with
       | None => Ok (mk_cdescribed ErrorCode.GroupIdNotFound gid "" 0 0 [], budget)
       | Some g =>
           let ms := load_members gid d in
           if (budget =? 0)%nat || (budget <? length ms)%nat then Err too_many
           else Ok (mk_cdescribed ErrorCode.NoError gid (cg_state g) (cg_epoch g) (cg_assignment_epoch g)
                      (describe_member <$> ms), (budget - length ms)%nat)
       end.
Fixpoint describe_from (d : CGroups) (budget : nat) (ids : list string) : result Failure (list CDescribedGroup) :=
  match ids with
  | [] => Ok []
  | gid :: ids' =>
      let? (g, rest) := describe_one d budget gid in
      let? gs := describe_from d rest ids' in Ok (g :: gs)
  end.
Definition describe (ids : list string) (d : CGroups) : result Failure (list CDescribedGroup) :=
  match check_admin_len "described groups" (Z.of_nat (length ids)) with
  | Err e => Err (Returned e)
  | Ok _ => describe_from d MAX_DESCRIBED_MEMBERS ids
  end.

End Handlers.
