(* ===== verification/Assign.v ===== *)
(** * The assignor of consumer groups, and the text of its partitions

    [topic:partition] prints and parses back, so distinct partitions have distinct
    texts; [assign] gives every partition of a topic to exactly one of the members
    that want the topic, in equal shares. *)

From Stdlib Require Import Ascii.
From stdpp Require Import gmap sorting strings pretty.
From S2P Require Import Prelude Errors Group Offsets ConsumerGroup.

#[local] Open Scope Z_scope.

(** ** Decimal text *)

Lemma digit_char n : (n < 10)%N → digit (pretty_N_char n) = Some (Z.of_N n).
Proof.
  intros H. assert (n = 0 ∨ n = 1 ∨ n = 2 ∨ n = 3 ∨ n = 4 ∨ n = 5 ∨ n = 6 ∨ n = 7 ∨ n = 8 ∨ n = 9)%N as Hn by lia.
  by destruct_or! Hn; subst n.
Qed.

Lemma digits_go (x : N) s : digits (pretty_N_go x s) 0 = digits s (Z.of_N x).
Proof.
  revert s. induction (N.lt_wf_0 x) as [x _ IH]. intros s. destruct (decide (x = 0)%N) as [->|Hx]; [done |].
  rewrite pretty_N_go_step by lia. rewrite IH by (apply N.div_lt; lia). cbn [digits].
  rewrite digit_char by (apply N.mod_lt; lia). cbn. f_equal. rewrite N2Z.inj_div, N2Z.inj_mod.
  pose proof (Z.div_mod (Z.of_N x) 10). lia.
Qed.

Lemma go_head (x : N) s : (0 < x)%N → ∃ a s' d, pretty_N_go x s = String a s' ∧ digit a = Some d.
Proof.
  revert s. induction (N.lt_wf_0 x) as [x _ IH]. intros s Hx. rewrite pretty_N_go_step by done.
  destruct (decide (x / 10 = 0)%N) as [->|Hd]; [| apply IH; [apply N.div_lt; lia | by apply N.neq_0_lt_0]].
  rewrite pretty_N_go_0. eexists _, _, _. split; [done |]. apply digit_char, N.mod_lt. lia.
Qed.

Lemma pretty_digits (x : N) : ∃ a s d, pretty x = String a s ∧ digit a = Some d ∧ digits (String a s) 0 = Some (Z.of_N x).
Proof.
  unfold pretty, pretty_N. case_decide as Hx; [subst; by eexists _, _, _ |].
  destruct (go_head x "") as (a & s & d & Hgo & Ha); [lia |]. exists a, s, d. split_and!; [done | done |].
  by rewrite <- Hgo, digits_go.
Qed.

Lemma digit_not c a d : digit a = Some d → digit c = None → a ≠ c.
Proof. intros H1 H2 ->. congruence. Qed.

Lemma pretty_nonneg (z : Z) : 0 ≤ z → ∃ a s d, pretty z = String a s ∧ digit a = Some d ∧ digits (String a s) 0 = Some z.
Proof.
  intros Hz. destruct z as [|p|p]; [by eexists _, _, _ | | lia].
  change (pretty (Z.pos p)) with (pretty (N.pos p)). destruct (pretty_digits (N.pos p)) as (a & s & d & H).
  by exists a, s, d.
Qed.

Lemma in_bounds_in lo hi z : lo ≤ z ≤ hi → in_bounds lo hi (Some z) = Some z.
Proof. intros H. unfold in_bounds. cbn. by rewrite (proj2 (Z.leb_le lo z)), (proj2 (Z.leb_le z hi)) by lia. Qed.

(** A reader that tries signs first reads plain digits as they are. *)
Ltac past_signs a s Ha :=
  destruct a as [[] [] [] [] [] [] [] []]; try (cbv in Ha; discriminate).

Lemma parse_u32_pretty t : is_u32 t → parse_u32 (pretty t) = Some t.
Proof.
  intros Ht. unfold is_u32 in Ht. destruct (pretty_nonneg t) as (a & s & d & -> & Ha & Hd); [lia |].
  unfold parse_u32. replace (match String a s with String "+" s' => unsigned s' | _ => unsigned (String a s) end)
    with (Some t); [apply in_bounds_in; lia |].
  rewrite <- Hd. by past_signs a s Ha.
Qed.

Lemma parse_i32_pretty p : is_i32 p → parse_i32 (pretty p) = Some p.
Proof.
  intros Hp. unfold is_i32 in Hp. unfold parse_i32. destruct p as [|p|p].
  - done.
  - destruct (pretty_nonneg (Z.pos p)) as (a & s & d & -> & Ha & Hd); [lia |].
    replace (match String a s with String "-" s' => Z.opp <$> unsigned s' | String "+" s' => unsigned s' | _ => unsigned (String a s) end)
      with (Some (Z.pos p)); [apply in_bounds_in; unfold i32_max; lia |].
    rewrite <- Hd. by past_signs a s Ha.
  - change (pretty (Z.neg p)) with (String "-" (pretty (N.pos p))). cbn.
    destruct (pretty_digits (N.pos p)) as (a & s & d & -> & _ & Hd). unfold unsigned. rewrite Hd. cbn.
    apply in_bounds_in. unfold i32_max. lia.
Qed.

Lemma split_colon_digits l r acc z : digits l acc = Some z → split_colon (l +:+ ":" +:+ r) = Some (l, r).
Proof.
  revert acc. induction l as [|a l IH]; intros acc Hd; [done |]. cbn in Hd. destruct (digit a) as [d|] eqn:Ha; [| done].
  cbn in Hd. specialize (IH _ Hd). change (String a l +:+ ":" +:+ r) with (String a (l +:+ ":" +:+ r)).
  cbn [split_colon]. rewrite IH. by past_signs a l Ha.
Qed.

Lemma split_colon_topic t r : 0 ≤ t → split_colon (pretty t +:+ ":" +:+ r) = Some (pretty t, r).
Proof.
  intros Ht. destruct (pretty_nonneg t Ht) as (a & s & d & -> & _ & Hd). by eapply split_colon_digits.
Qed.

(** A partition survives its text, for every 32-bit topic id and index. *)
Lemma tp_roundtrip t p : is_u32 t → is_i32 p → parse_tp (tp t p) = Some (t, p).
Proof.
  intros Ht Hp. unfold parse_tp, tp. rewrite split_colon_topic by (unfold is_u32 in Ht; lia). cbn.
  rewrite parse_u32_pretty by done. cbn. by rewrite parse_i32_pretty by done.
Qed.

(** The text of a partition tells its topic and its number apart. *)
Definition plain (topic : string) : Prop := ∀ r, split_colon (topic +:+ ":" +:+ r) = Some (topic, r).
Definition text (topic : string) (p : Z) : string := topic +:+ ":" +:+ pretty p.

Lemma text_inj t1 t2 p1 p2 : plain t1 → plain t2 → text t1 p1 = text t2 p2 → t1 = t2 ∧ p1 = p2.
Proof.
  unfold text. intros H1 H2 Heq. assert (Hs := H1 (pretty p1)). rewrite Heq, H2 in Hs. injection Hs as -> Hp.
  split; [done |]. by apply (inj pretty) in Hp.
Qed.

Lemma pretty_plain t : 0 ≤ t → plain (pretty t).
Proof. intros Ht r. by apply split_colon_topic. Qed.

(** ** Where the assignor puts a partition *)

Section Assign.

Variables (members : Subscriptions) (parts_of : gmap string (list Z)).

(** Partition [p] of [topic], number [i] of its list, goes to [m]. *)
Definition goes (topic : string) (i : nat) (p : Z) (m : string) : Prop :=
  ∃ ps, parts_of !! topic = Some ps ∧ ps !! i = Some p ∧
    interested members topic !! (i mod length (interested members topic))%nat = Some m.

Lemma keys_elem {A} (m : gmap string A) k : k ∈ keys m ↔ is_Some (m !! k).
Proof using Type.
  unfold keys, sorted_strings. rewrite merge_sort_Permutation, list_elem_of_fmap. split.
  - intros [[k' a] [-> H]]. apply elem_of_map_to_list in H. eauto.
  - intros [a H]. exists (k, a). split; [done |]. by apply elem_of_map_to_list.
Qed.

Lemma keys_NoDup {A} (m : gmap string A) : NoDup (keys m).
Proof using Type. unfold keys, sorted_strings. rewrite merge_sort_Permutation. apply NoDup_fst_map_to_list. Qed.

Lemma interested_elem topic m : m ∈ interested members topic ↔ ∃ s, members !! m = Some s ∧ topic ∈ s.
Proof using Type.
  unfold interested. rewrite list_elem_of_filter, keys_elem. split.
  - intros [Hin [s Hs]]. rewrite Hs in Hin. eauto.
  - intros [s [Hs Hin]]. rewrite Hs. eauto.
Qed.

Lemma hand_out_all who topic l out m s :
  out !! m = Some s → ∃ s', foldl (hand_out who topic) out l !! m = Some s' ∧
    ∀ x, x ∈ s' ↔ x ∈ s ∨ ∃ i p, (i, p) ∈ l ∧ who !! (i mod length who)%nat = Some m ∧ x = text topic p.
Proof using Type.
  revert out s. induction l as [|[i p] l IH]; intros out s Hm.
  { exists s. split; [done |]. intros x. split; [by left |]. intros [?|(i & p & Hin & _)]; [done | by apply elem_of_nil in Hin]. }
  cbn [foldl]. set (mine := who !! (i mod length who)%nat = Some m).
  assert (∃ s1, hand_out who topic out (i, p) !! m = Some s1 ∧ ∀ x, x ∈ s1 ↔ x ∈ s ∨ mine ∧ x = text topic p) as (s1 & H1 & Hs1).
  { unfold hand_out, mine. cbn [fst snd]. destruct (who !! (i mod length who)%nat) as [m'|].
    - destruct (decide (m' = m)) as [->|Hne].
      + rewrite lookup_alter_eq, Hm. eexists. split; [done |]. intros x. unfold text. set_solver.
      + rewrite lookup_alter_ne by done. exists s. split; [done |]. intros x. naive_solver.
    - exists s. split; [done |]. intros x. naive_solver. }
  destruct (IH _ _ H1) as (s' & H' & Hs'). exists s'. split; [done |]. intros x. rewrite Hs', Hs1. unfold mine.
  split.
  - intros [[?|[? ->]]|(i' & p' & Hin & ?)]; [by left | right; exists i, p; set_solver | right; exists i', p'; set_solver].
  - intros [?|(i' & p' & Hin & Hw & ->)]; [by left; left |]. apply elem_of_cons in Hin as [[= -> ->]|Hin]; naive_solver.
Qed.

Lemma imap_pair_elem (ps : list Z) i p : (i, p) ∈ imap pair ps ↔ ps !! i = Some p.
Proof using Type.
  rewrite list_elem_of_lookup. split.
  - intros [j Hj]. apply list_lookup_imap_Some in Hj as (p' & Hp & [= -> ->]). done.
  - intros H. exists i. apply list_lookup_imap_Some. eauto.
Qed.

Lemma assign_topic_at topic out m s :
  out !! m = Some s → ∃ s', assign_topic members parts_of out topic !! m = Some s' ∧
    ∀ x, x ∈ s' ↔ x ∈ s ∨ ∃ i p, goes topic i p m ∧ x = text topic p.
Proof using Type.
  intros Hm. unfold assign_topic, goes. set (who := interested members topic).
  assert (Hkeep : (∀ i p ps, parts_of !! topic = Some ps → ps !! i = Some p → who !! (i mod length who)%nat ≠ Some m) →
    ∃ s', Some s = Some s' ∧ ∀ x, x ∈ s' ↔ x ∈ s ∨ ∃ i p, (∃ ps, parts_of !! topic = Some ps ∧ ps !! i = Some p ∧
      who !! (i mod length who)%nat = Some m) ∧ x = text topic p).
  { intros Hno. exists s. split; [done |]. intros x. split; [by left |]. intros [?|(i & p & (ps & H1 & H2 & H3) & _)]; [done |].
    by destruct (Hno i p ps). }
  destruct who as [|m0 who'] eqn:Ew; [rewrite Hm; apply Hkeep; done |].
  destruct (parts_of !! topic) as [ps|] eqn:Ep; [| rewrite Hm; apply Hkeep; done].
  destruct (hand_out_all (m0 :: who') topic (imap pair ps) out m s Hm) as (s' & H' & Hs'). exists s'. split; [done |].
  intros x. rewrite Hs'. setoid_rewrite imap_pair_elem. split; (intros [?|(i & p & H)]; [by left |]; right; exists i, p).
  - destruct H as (? & ? & ->). eauto.
  - destruct H as ((ps' & [= <-] & ? & ?) & ->). done.
Qed.

Lemma assign_topics_at topics out m s :
  out !! m = Some s → ∃ s', foldl (assign_topic members parts_of) out topics !! m = Some s' ∧
    ∀ x, x ∈ s' ↔ x ∈ s ∨ ∃ topic i p, topic ∈ topics ∧ goes topic i p m ∧ x = text topic p.
Proof using Type.
  revert out s. induction topics as [|t topics IH]; intros out s Hm.
  { exists s. split; [done |]. intros x. split; [by left |]. intros [?|(t & i & p & Hin & _)]; [done | by apply elem_of_nil in Hin]. }
  cbn [foldl]. destruct (assign_topic_at t out m s Hm) as (s1 & H1 & Hs1). destruct (IH _ _ H1) as (s' & H' & Hs').
  exists s'. split; [done |]. intros x. rewrite Hs', Hs1. split.
  - intros [[?|(i & p & ? & ?)]|(t' & i & p & Hin & ? & ?)]; [by left | right; exists t, i, p; set_solver | right; exists t', i, p; set_solver].
  - intros [?|(t' & i & p & Hin & Hg & ->)]; [by left; left |]. apply elem_of_cons in Hin as [->|Hin]; [left; right | right]; eauto 6.
Qed.

(** Everything a member gets, and nothing else. *)
Lemma assign_at m subs : members !! m = Some subs →
  ∃ s, assign members parts_of !! m = Some s ∧ ∀ x, x ∈ s ↔ ∃ topic i p, goes topic i p m ∧ x = text topic p.
Proof using Type.
  intros Hm. unfold assign.
  destruct (assign_topics_at (keys parts_of) ((λ _, ∅) <$> members) m ∅) as (s & Hs & Hx); [by rewrite lookup_fmap, Hm |].
  exists s. split; [done |]. intros x. rewrite Hx. split.
  - intros [Hin|(t & i & p & _ & Hg & ->)]; [by apply elem_of_empty in Hin | eauto].
  - intros (t & i & p & Hg & ->). right. exists t, i, p. split_and!; [| done | done].
    destruct Hg as (ps & Hps & _). apply keys_elem. eauto.
Qed.

Lemma assign_topic_none topic out m : out !! m = None → assign_topic members parts_of out topic !! m = None.
Proof using Type.
  intros Hm. unfold assign_topic. destruct (interested members topic) as [|w0 who]; [done |].
  destruct (parts_of !! topic) as [ps|]; [| done]. generalize (imap pair ps). intros l. revert out Hm.
  induction l as [|[i p] l IH]; intros out Hm; [done |]. cbn [foldl]. apply IH. unfold hand_out.
  destruct (_ !! (_ mod _)%nat); [by apply lookup_alter_None | done].
Qed.

Lemma assign_dom m : members !! m = None → assign members parts_of !! m = None.
Proof using Type.
  intros Hm. unfold assign. assert (Hout : ((λ _ : gset string, ∅ : gset string) <$> members) !! m = None) by by rewrite lookup_fmap, Hm.
  revert Hout. generalize ((λ _ : gset string, ∅ : gset string) <$> members).
  induction (keys parts_of) as [|t l IH]; intros out Hout; [done |]. cbn [foldl]. by apply IH, assign_topic_none.
Qed.

Hypothesis topics_plain : ∀ t ps, parts_of !! t = Some ps → plain t ∧ NoDup ps.

(** No partition goes to two members. *)
Lemma assign_disjoint m1 m2 s1 s2 x :
  assign members parts_of !! m1 = Some s1 → assign members parts_of !! m2 = Some s2 → x ∈ s1 → x ∈ s2 → m1 = m2.
Proof using topics_plain.
  assert (Hin : ∀ m s, assign members parts_of !! m = Some s → x ∈ s → ∃ topic i p, goes topic i p m ∧ x = text topic p).
  { intros m s Hs Hx. destruct (members !! m) as [subs|] eqn:Em; [| rewrite assign_dom in Hs by done; done].
    destruct (assign_at m subs Em) as (s' & Hs' & Hi). rewrite Hs in Hs'. injection Hs' as <-. by apply Hi. }
  intros H1 H2 Hx1 Hx2. destruct (Hin _ _ H1 Hx1) as (t1 & i1 & p1 & (ps1 & G1 & L1 & W1) & ->).
  destruct (Hin _ _ H2 Hx2) as (t2 & i2 & p2 & (ps2 & G2 & L2 & W2) & Heq).
  destruct (topics_plain _ _ G1) as [Hp1 Hnd], (topics_plain _ _ G2) as [Hp2 _].
  apply text_inj in Heq as [<- <-]; [| done | done]. rewrite G1 in G2. injection G2 as <-.
  rewrite (NoDup_lookup _ _ _ _ Hnd L2 L1) in W2. congruence.
Qed.

(** ** Equal shares *)

Definition hits (k j n : nat) : nat := length (filter (λ i, (i mod k)%nat = j) (seq 0 n)).

Lemma hits_closed k j n : (j < k)%nat → hits k j n = (n / k + if (j <? n mod k)%nat then 1 else 0)%nat.
Proof using Type.
  intros Hj. unfold hits. induction n as [|n IH].
  { rewrite Nat.Div0.div_0_l, Nat.Div0.mod_0_l. done. }
  rewrite seq_S, filter_app, length_app, IH. clear IH. cbn [plus].
  pose proof (Nat.div_mod_eq n k) as Hn. pose proof (Nat.mod_upper_bound n k ltac:(lia)) as Hr.
  set (q := (n / k)%nat) in *. set (r := (n mod k)%nat) in *.
  destruct (decide (S r = k)) as [Hk|Hk].
  - assert (HS : (S n / k = S q)%nat) by (symmetry; apply (Nat.div_unique _ _ _ 0); lia).
    assert (HM : (S n mod k = 0)%nat) by (symmetry; apply (Nat.mod_unique _ _ (S q) 0); lia).
    rewrite HS, HM. rewrite filter_cons, filter_nil. case_decide as Hd; cbn beta in Hd; fold r in Hd; cbn [length]; destruct (Nat.ltb_spec j r), (Nat.ltb_spec j 0); lia.
  - assert (HS : (S n / k = q)%nat) by (symmetry; apply (Nat.div_unique _ _ _ (S r)); lia).
    assert (HM : (S n mod k = S r)%nat) by (symmetry; apply (Nat.mod_unique _ _ q (S r)); lia).
    rewrite HS, HM. rewrite filter_cons, filter_nil. case_decide as Hd; cbn beta in Hd; fold r in Hd; cbn [length]; destruct (Nat.ltb_spec j r), (Nat.ltb_spec j (S r)); lia.
Qed.

(** The partitions of a topic that a member gets. *)
Definition share (topic : string) (ps : list Z) (m : string) : list Z :=
  filter (λ p, text topic p ∈ default ∅ (assign members parts_of !! m)) ps.

Lemma filter_by_index (P : nat → Prop) (Q : Z → Prop) `{∀ i, Decision (P i), ∀ p, Decision (Q p)} ps n :
  (∀ i p, ps !! i = Some p → Q p ↔ P (n + i)%nat) → length (filter Q ps) = length (filter P (seq n (length ps))).
Proof using Type.
  revert n. induction ps as [|p ps IH]; intros n Hpq; [done |]. cbn [length seq]. rewrite !filter_cons.
  assert (Hrest : length (filter Q ps) = length (filter P (seq (S n) (length ps)))).
  { apply IH. intros i p' Hi. rewrite (Hpq (S i) p' Hi). by rewrite Nat.add_succ_r. }
  specialize (Hpq 0%nat p eq_refl). rewrite Nat.add_0_r in Hpq. repeat case_decide; cbn; tauto || lia.
Qed.

Lemma assign_goes topic i p ps m subs : parts_of !! topic = Some ps → ps !! i = Some p → members !! m = Some subs →
  text topic p ∈ default ∅ (assign members parts_of !! m) ↔ goes topic i p m.
Proof using topics_plain.
  intros Hps Hi Hm. destruct (assign_at m subs Hm) as (s & -> & Hs). cbn. rewrite Hs. split; [| eauto].
  intros (t & i' & p' & (ps' & G & L & W) & Heq). destruct (topics_plain _ _ Hps) as [Hp1 Hnd], (topics_plain _ _ G) as [Hp2 _].
  apply text_inj in Heq as [<- <-]; [| done | done]. rewrite Hps in G. injection G as <-.
  rewrite (NoDup_lookup _ _ _ _ Hnd L Hi) in W. by exists ps.
Qed.

Lemma share_hits topic ps m j : parts_of !! topic = Some ps → interested members topic !! j = Some m →
  length (share topic ps m) = hits (length (interested members topic)) j (length ps).
Proof using topics_plain.
  intros Hps Hj. unfold share, hits. apply filter_by_index. intros i p Hi. rewrite Nat.add_0_l.
  assert (Hin : m ∈ interested members topic) by by eapply list_elem_of_lookup_2.
  apply interested_elem in Hin as (subs & Hm & _). rewrite (assign_goes topic i p ps m subs) by done. split.
  - intros (ps' & _ & _ & W). refine (NoDup_lookup _ _ _ _ _ W Hj). unfold interested. apply NoDup_filter, keys_NoDup.
  - intros <-. exists ps. by rewrite Hj.
Qed.

(** C24. The assignor hands out everything once and evenly.  A partition of a topic that
    somebody wants goes to exactly one member, who wants the topic; a member gets
    nothing but partitions of the topics it wants; and the shares of a topic of two
    members that want it differ by one partition at most. *)
Theorem assign_exact topic ps : parts_of !! topic = Some ps →
  (∀ p, p ∈ ps → interested members topic ≠ [] →
    ∃ m, m ∈ interested members topic ∧ ∀ m', p ∈ share topic ps m' ↔ m' = m) ∧
  (∀ m s x, assign members parts_of !! m = Some s → x ∈ s →
    ∃ t qs p, parts_of !! t = Some qs ∧ p ∈ qs ∧ x = text t p ∧ m ∈ interested members t) ∧
  (∀ m m', m ∈ interested members topic → m' ∈ interested members topic →
    (length (share topic ps m) ≤ S (length (share topic ps m')))%nat).
Proof using topics_plain.
  intros Hps. split_and!.
  - intros p Hp Hne. apply list_elem_of_lookup in Hp as [i Hi]. set (who := interested members topic) in *.
    assert (Hlt : (i mod length who < length who)%nat) by (apply Nat.mod_upper_bound; destruct who; cbn; done || lia).
    apply lookup_lt_is_Some in Hlt as [m Hm]. exists m. split; [by eapply list_elem_of_lookup_2 |]. intros m'.
    assert (Hin : m ∈ interested members topic) by by eapply list_elem_of_lookup_2.
    apply interested_elem in Hin as (subs & Hsub & _). unfold share. rewrite list_elem_of_filter.
    assert (Hpe : p ∈ ps) by by eapply list_elem_of_lookup_2. split.
    + intros [Hx _]. destruct (members !! m') as [subs'|] eqn:Em'.
      * rewrite (assign_goes topic i p ps m' subs') in Hx by done. destruct Hx as (ps' & _ & _ & W). unfold who in Hm. congruence.
      * rewrite assign_dom in Hx by done. by apply elem_of_empty in Hx.
    + intros ->. split; [| done]. rewrite (assign_goes topic i p ps m subs) by done. by exists ps.
  - intros m s x Hs Hx. destruct (members !! m) as [subs|] eqn:Em; [| rewrite assign_dom in Hs by done; done].
    destruct (assign_at m subs Em) as (s' & Hs' & Hi). rewrite Hs in Hs'. injection Hs' as <-. apply Hi in Hx as (t & i & p & (qs & G & Li & W) & ->).
    exists t, qs, p. split_and!; [done | by eapply list_elem_of_lookup_2 | done | by eapply list_elem_of_lookup_2].
  - intros m m' Hm Hm'. apply list_elem_of_lookup in Hm as [j Hj], Hm' as [j' Hj'].
    rewrite (share_hits topic ps m j), (share_hits topic ps m' j') by done.
    rewrite !hits_closed by by eapply lookup_lt_Some. repeat case_match; lia.
Qed.

End Assign.

(** Two members want a topic of three partitions, one of them another as well. *)
Definition two_members : Subscriptions := {[ "a" := {[ "7"; "12" ]}; "b" := {[ "7" ]} ]}%string.
Definition two_topics : gmap string (list Z) := {[ "7" := [0; 1; 2]; "12" := [0] ]}%string.

Lemma two_topics_plain t ps : two_topics !! t = Some ps → plain t ∧ NoDup ps.
Proof.
  unfold two_topics. rewrite lookup_insert_Some, lookup_singleton_Some.
  intros [[<- <-]|[_ [<- <-]]]; (split; [by apply (pretty_plain 7) || by apply (pretty_plain 12) |]);
    repeat constructor; set_solver.
Qed.

Lemma assign_exact_witness :
  (length (share two_members two_topics "7" [0; 1; 2]%Z "a") ≤ S (length (share two_members two_topics "7" [0; 1; 2]%Z "b")))%nat.
Proof.
  refine (proj2 (proj2 (assign_exact two_members two_topics two_topics_plain "7" [0; 1; 2]%Z eq_refl)) "a"%string "b"%string _ _);
    vm_compute; repeat constructor.
Defined.

(** The first, third and only partition are the first member's. *)
Example assign_two : assign two_members two_topics !! "a"%string = Some {[ "7:0"; "7:2"; "12:0" ]}%string.
Proof. by vm_compute. Qed.
