(* ===== verification/ConsumerGroupSpec.v ===== *)
(** * Consumer groups: no partition is granted twice

    The invariant of the tables of ConsumerGroup.v, kept by every heartbeat and by
    the sweep: within a group the grants of two members are disjoint, and so are
    their targets. *)

From stdpp Require Import gmap sorting strings pretty.
From S2P Require Import Prelude Errors Acl Group Pmeta Offsets Txn Config Topics Table ShareHandlers ConsumerGroup Assign.

#[local] Open Scope Z_scope.

(** ** The invariant *)

(** A text the broker wrote. *)
Definition real_tp (x : string) : Prop := ∃ t p, is_u32 t ∧ is_i32 p ∧ x = tp t p.

Abbreviation Rows := (gmap (string * string) Member).

Record grants_ok (rows : Rows) : Prop := mk_grants_ok {
  ok_granted : ∀ g m1 m2 r1 r2 x, rows !! (g, m1) = Some r1 → rows !! (g, m2) = Some r2 →
    x ∈ mb_granted r1 → x ∈ mb_granted r2 → m1 = m2;
  ok_target : ∀ g m1 m2 r1 r2 x, rows !! (g, m1) = Some r1 → rows !! (g, m2) = Some r2 →
    x ∈ mb_target r1 → x ∈ mb_target r2 → m1 = m2;
  ok_text : ∀ k r x, rows !! k = Some r → x ∈ mb_granted r ∨ x ∈ mb_target r → real_tp x }.

Record epochs_ok (d : CGroups) : Prop := mk_epochs_ok {
  ok_group : ∀ g m r, cg_members d !! (g, m) = Some r → ∃ row, cg_groups d !! g = Some row ∧ 0 ≤ mb_epoch r ≤ cg_epoch row;
  ok_epochs : ∀ g row, cg_groups d !! g = Some row → 0 ≤ cg_assignment_epoch row ≤ cg_epoch row ∧ cg_epoch row ≤ i32_max }.

Definition cgroups_ok (d : CGroups) : Prop := grants_ok (cg_members d) ∧ epochs_ok d.

(** Every row of [rows'] has the grants and the target of a row of [rows], or less;
    [f] tells whose. *)
Definition inherits (f : string → string → string) (rows rows' : Rows) : Prop :=
  ∀ g m r', rows' !! (g, m) = Some r' →
    (mb_granted r' = [] ∧ mb_target r' = []) ∨
    ∃ r, rows !! (g, f g m) = Some r ∧ mb_granted r' ⊆ mb_granted r ∧ mb_target r' ⊆ mb_target r.

Lemma inherits_ok f rows rows' : (∀ g, Inj (=) (=) (f g)) → inherits f rows rows' → grants_ok rows → grants_ok rows'.
Proof.
  intros Hf Hi [Hg Ht Hx]. split.
  - intros g m1 m2 r1 r2 x H1 H2 X1 X2.
    destruct (Hi _ _ _ H1) as [[E _]|(s1 & S1 & G1 & _)]; [rewrite E in X1; by apply elem_of_nil in X1 |].
    destruct (Hi _ _ _ H2) as [[E _]|(s2 & S2 & G2 & _)]; [rewrite E in X2; by apply elem_of_nil in X2 |].
    apply (inj (f g)). eapply Hg; eauto.
  - intros g m1 m2 r1 r2 x H1 H2 X1 X2.
    destruct (Hi _ _ _ H1) as [[_ E]|(s1 & S1 & _ & G1)]; [rewrite E in X1; by apply elem_of_nil in X1 |].
    destruct (Hi _ _ _ H2) as [[_ E]|(s2 & S2 & _ & G2)]; [rewrite E in X2; by apply elem_of_nil in X2 |].
    apply (inj (f g)). eapply Ht; eauto.
  - intros [g m] r x H X. destruct (Hi _ _ _ H) as [[E1 E2]|(s & S & G & T)].
    + rewrite E1, E2 in X. destruct X as [X|X]; by apply elem_of_nil in X.
    + eapply Hx; [exact S |]. destruct X; [left | right]; eauto.
Qed.

Definition same (_ m : string) : string := m.
#[export] Instance same_inj g : Inj (=) (=) (same g).
Proof. by intros ??. Qed.

Lemma inherits_delete k rows : inherits same rows (delete k rows).
Proof. intros g m r. rewrite lookup_delete_Some. intros [_ H]. right. by exists r. Qed.

Lemma inherits_subset rows rows' : rows' ⊆ rows → inherits same rows rows'.
Proof. intros Hs g m r H. right. exists r. split; [by eapply lookup_weaken |]. done. Qed.

(** Changing a row in place, not its grants and its target. *)
Lemma inherits_alter h k rows :
  (∀ r, mb_granted (h r) = mb_granted r ∧ mb_target (h r) = mb_target r) → inherits same rows (alter h k rows).
Proof.
  intros Hh g m r'. destruct (decide (k = (g, m))) as [->|Hne].
  - rewrite lookup_alter_eq. destruct (rows !! (g, m)) as [r|] eqn:E; [| done]. intros [= <-]. right. exists r.
    destruct (Hh r) as [-> ->]. done.
  - rewrite lookup_alter_ne by done. intros H. right. by exists r'.
Qed.

Lemma no_members_ok : cgroups_ok (mk_cgroups ∅ ∅).
Proof. split; split; cbn; intros; simplify_map_eq. Qed.

(** ** Members of a group *)

Section Loaded.

Variable id_le : string → string → Prop.
Context {id_dec : ∀ a b, Decision (id_le a b)}.

Lemma load_members_elem g d m r : (m, r) ∈ load_members id_le g d ↔ cg_members d !! (g, m) = Some r.
Proof using Type.
  unfold load_members. rewrite merge_sort_Permutation, list_elem_of_omap. split.
  - intros ([[g' m'] r'] & Hin & H). cbn in H. case_decide; [| done]. injection H as -> ->. subst.
    by apply elem_of_map_to_list in Hin.
  - intros H. exists ((g, m), r). split; [by apply elem_of_map_to_list |]. cbn. by rewrite decide_True.
Qed.

Lemma load_members_NoDup g d : NoDup (load_members id_le g d).*1.
Proof using Type.
  unfold load_members. rewrite merge_sort_Permutation. generalize (NoDup_fst_map_to_list (cg_members d)).
  induction (map_to_list (cg_members d)) as [|[[g' m] r] l IH]; [constructor |].
  cbn. intros Hn. apply NoDup_cons in Hn as [Hnot Hn]. case_decide; [| by apply IH]. subst. cbn.
  apply NoDup_cons. split; [| by apply IH]. intros Hin. apply Hnot.
  apply list_elem_of_fmap in Hin as ([m' r'] & -> & Hin). apply list_elem_of_omap in Hin as ([[g1 m1] r1] & Hin & H1).
  cbn in H1. case_decide; [| done]. injection H1 as -> ->. subst. cbn. apply list_elem_of_fmap. by exists ((g, m', r')).
Qed.

Lemma load_members_unique g d m r r' : (m, r) ∈ load_members id_le g d → (m, r') ∈ load_members id_le g d → r = r'.
Proof using Type. rewrite !load_members_elem. congruence. Qed.

Lemma by_member {A} (h : Member → A) g d m :
  list_to_map (M := gmap string A) ((λ e : string * Member, (e.1, h e.2)) <$> load_members id_le g d) !! m =
  h <$> cg_members d !! (g, m).
Proof using Type.
  assert (Hfst : ((λ e : string * Member, (e.1, h e.2)) <$> load_members id_le g d).*1 = (load_members id_le g d).*1)
    by by rewrite <- list_fmap_compose.
  destruct (cg_members d !! (g, m)) as [r|] eqn:E; cbn.
  - apply elem_of_list_to_map_1; [rewrite Hfst; apply load_members_NoDup |]. apply list_elem_of_fmap.
    exists (m, r). split; [done |]. by apply load_members_elem.
  - apply not_elem_of_list_to_map_1. rewrite Hfst. intros Hin. apply list_elem_of_fmap in Hin as ([m' r] & -> & Hin).
    apply load_members_elem in Hin. cbn in *. congruence.
Qed.

End Loaded.

(** ** Targets *)

Section Targets.

Context {L : Type}.
Variable (w : World L).

(** Topic ids are object ids, partition numbers are [int]s. *)
Record catalog_fits : Prop := mk_catalog_fits {
  cf_ids : ∀ i v, t_topics (w_tx w) !! i = Some v → is_u32 i;
  cf_parts : ∀ i p, is_Some (partitions (t_meta (w_tx w)) !! (i, p)) → is_i32 p }.

Lemma partition_list_NoDup i : NoDup (partition_list w i).
Proof using Type.
  unfold partition_list. rewrite merge_sort_Permutation. unfold partitions_of.
  apply NoDup_fmap_2_strong; [| apply NoDup_filter, NoDup_fst_map_to_list].
  intros [a p] [b q] Ha Hb. apply list_elem_of_filter in Ha as [<- _], Hb as [Hb _]. cbn in *. congruence.
Qed.

Lemma partition_list_elem i p : p ∈ partition_list w i ↔ is_Some (partitions (t_meta (w_tx w)) !! (i, p)).
Proof using Type.
  unfold partition_list. rewrite merge_sort_Permutation. unfold partitions_of. rewrite list_elem_of_fmap. split.
  - intros ([j q] & -> & Hin). apply list_elem_of_filter in Hin as [<- Hin]. apply list_elem_of_fmap in Hin as ([k v] & Hk & Hin). cbn in Hk. subst k.
    apply elem_of_map_to_list in Hin. eauto.
  - intros [v Hv]. exists (i, p). split; [done |]. apply list_elem_of_filter. split; [done |]. apply list_elem_of_fmap.
    exists ((i, p), v). split; [done |]. by apply elem_of_map_to_list.
Qed.

Lemma subscribed_lookup names t ps : (subscribed_partitions w names).1 !! t = Some ps →
  ∃ i v, t_topics (w_tx w) !! i = Some v ∧ t = pretty i ∧ ps = partition_list w i.
Proof using Type.
  intros H. apply elem_of_list_to_map_2, list_elem_of_fmap in H as ([i v] & [= -> ->] & Hin).
  apply list_elem_of_filter in Hin as [_ Hin]. apply elem_of_map_to_list in Hin. eauto.
Qed.

Lemma subscribed_plain names t ps : catalog_fits → (subscribed_partitions w names).1 !! t = Some ps → plain t ∧ NoDup ps.
Proof using Type.
  intros [Hi _] H. apply subscribed_lookup in H as (i & v & Hv & -> & ->). split; [| apply partition_list_NoDup].
  apply pretty_plain. specialize (Hi _ _ Hv). unfold is_u32 in Hi. lia.
Qed.

Definition target_ok (target : Assignments) : Prop :=
  (∀ m1 m2 s1 s2 x, target !! m1 = Some s1 → target !! m2 = Some s2 → x ∈ s1 → x ∈ s2 → m1 = m2) ∧
  (∀ m s x, target !! m = Some s → x ∈ s → real_tp x).

Lemma assign_real members names m s x : catalog_fits →
  assign members (subscribed_partitions w names).1 !! m = Some s → x ∈ s → real_tp x.
Proof using Type.
  intros Hfit Hs Hx. destruct (members !! m) as [subs|] eqn:Em; [| rewrite assign_dom in Hs by done; done].
  destruct (assign_at members (subscribed_partitions w names).1 m subs Em) as (s' & Hs' & Hi). rewrite Hs in Hs'. injection Hs' as <-.
  apply Hi in Hx as (t & i & p & (ps & Hps & Hp & _) & ->).
  apply subscribed_lookup in Hps as (id & v & Hv & -> & ->). exists id, p. split_and!; [by eapply cf_ids | | done].
  apply (cf_parts Hfit id). apply partition_list_elem. by eapply list_elem_of_lookup_2.
Qed.

Section NewTarget.

Variable id_le : string → string → Prop.
Context {id_dec : ∀ a b, Decision (id_le a b)}.

(** What a recomputed target is a target of. *)
Definition subscriptions_of (members : list (string * Member)) : Subscriptions :=
  let names : gset string := list_to_set (members ≫= λ m, wants m.2) in
  list_to_map ((λ m : string * Member, (m.1, list_to_set (omap (λ n, (subscribed_partitions w names).2 !! n) (wants m.2)))) <$> members).

Lemma new_target_eq members :
  new_target w members = assign (subscriptions_of members) (subscribed_partitions w (list_to_set (members ≫= λ m, wants m.2))).1.
Proof using Type. done. Qed.

Lemma new_target_ok members : catalog_fits → target_ok (new_target w members).
Proof using Type.
  intros Hfit. rewrite new_target_eq. split.
  - intros. by eapply assign_disjoint; [intros; by eapply subscribed_plain | ..].
  - intros. by eapply assign_real.
Qed.

Lemma new_target_dom g d m :
  is_Some (new_target w (load_members id_le g d) !! m) ↔ is_Some (cg_members d !! (g, m)).
Proof using Type.
  rewrite new_target_eq. set (ms := load_members id_le g d). set (names := list_to_set _).
  assert (Hsub : subscriptions_of ms !! m =
    (λ r, list_to_set (omap (λ n, (subscribed_partitions w names).2 !! n) (wants r))) <$> cg_members d !! (g, m)).
  { unfold subscriptions_of. fold names.
    apply (by_member id_le (λ r, list_to_set (omap (λ n, (subscribed_partitions w names).2 !! n) (wants r)))). }
  destruct (cg_members d !! (g, m)) as [r|]; cbn in Hsub.
  - destruct (assign_at _ (subscribed_partitions w names).1 _ _ Hsub) as (s & -> & _). split; eauto.
  - rewrite assign_dom by done. split; intros [? [=]].
Qed.

End NewTarget.

End Targets.

(** ** Recomputing *)

Lemma set_target_same r : set_target (mb_target r) r = r.
Proof. by destruct r. Qed.

Lemma elem_of_to_vec x s : x ∈ to_vec s ↔ x ∈ s.
Proof. unfold to_vec, sorted_strings. by rewrite merge_sort_Permutation, elem_of_elements. Qed.

Lemma to_vec_set s : list_to_set (to_vec s) = s.
Proof. apply set_eq. intros x. by rewrite elem_of_list_to_set, elem_of_to_vec. Qed.

Lemma store_target_at g target d m r s : cg_members d !! (g, m) = Some r → target !! m = Some s →
  cg_groups (store_target g target d (m, r)) = cg_groups d ∧
  (∀ k, k ≠ (g, m) → cg_members (store_target g target d (m, r)) !! k = cg_members d !! k) ∧
  ∃ t, cg_members (store_target g target d (m, r)) !! (g, m) = Some (set_target t r) ∧ target !! m = Some (list_to_set t).
Proof.
  intros Hr Hs. unfold store_target. cbn [fst snd]. rewrite Hs. case_decide as Heq.
  - split_and!; [done | done |]. exists (mb_target r). by rewrite set_target_same, Heq.
  - cbn. split_and!; [done | intros k Hk; by rewrite lookup_alter_ne |]. exists (to_vec s).
    rewrite lookup_alter_eq, Hr, to_vec_set. done.
Qed.

Lemma store_targets g target l d : NoDup l.*1 → (∀ m r, (m, r) ∈ l → cg_members d !! (g, m) = Some r ∧ is_Some (target !! m)) →
  let d' := foldl (store_target g target) d l in
  cg_groups d' = cg_groups d ∧
  (∀ k, (∀ m r, (m, r) ∈ l → k ≠ (g, m)) → cg_members d' !! k = cg_members d !! k) ∧
  (∀ m r, (m, r) ∈ l → ∃ t, cg_members d' !! (g, m) = Some (set_target t r) ∧ target !! m = Some (list_to_set t)).
Proof.
  revert d. induction l as [|[m0 r0] l IH]; intros d Hn Hl.
  { split_and!; [done | done |]. intros m r Hin. by apply elem_of_nil in Hin. }
  apply NoDup_cons in Hn as [Hnot Hn]. destruct (Hl m0 r0) as [Hr0 [s Hs]]; [left |].
  destruct (store_target_at g target d m0 r0 s Hr0 Hs) as (G1 & K1 & t & T1 & S1).
  assert (Hne : ∀ m r, (m, r) ∈ l → m ≠ m0). { intros m r Hin ->. apply Hnot. apply list_elem_of_fmap. by exists (m0, r). }
  destruct (IH (store_target g target d (m0, r0)) Hn) as (G2 & K2 & T2).
  { intros m r Hin. rewrite K1 by (intros [= ->]; by eapply Hne). apply Hl. by right. }
  cbn [foldl]. split_and!.
  - by rewrite G2.
  - intros k Hk. rewrite K2 by (intros m r Hin; eapply Hk; by right). apply K1. eapply Hk. left.
  - intros m r Hin. apply elem_of_cons in Hin as [[= -> ->]|Hin]; [| by apply T2]. exists t. split; [| done].
    rewrite K2; [done |]. intros m r Hin [= <-]. by eapply Hne.
Qed.

(** The tables after the target of [g] is settled as [target]. *)
Record refreshed (g : string) (target : Assignments) (d d' : CGroups) : Prop := mk_refreshed {
  rf_group : ∀ h, (λ row, cg_epoch row) <$> cg_groups d' !! h = (λ row, cg_epoch row) <$> cg_groups d !! h;
  rf_assigned : ∀ h row, cg_groups d' !! h = Some row → cg_groups d !! h = Some row ∨ cg_assignment_epoch row = cg_epoch row;
  rf_none : ∀ k, cg_members d !! k = None → cg_members d' !! k = None;
  rf_rows : ∀ k r, cg_members d !! k = Some r → ∃ t, cg_members d' !! k = Some (set_target t r) ∧
    (k.1 = g → target !! k.2 = Some (list_to_set t)) ∧ (k.1 ≠ g → t = mb_target r);
  rf_dom : ∀ m s, target !! m = Some s → is_Some (cg_members d !! (g, m));
  rf_target : target_ok target }.

Section Reconcile.

Context {L : Type}.
Variables (now : Z) (w : World L).
Variable id_le : string → string → Prop.
Context {id_dec : ∀ a b, Decision (id_le a b)}.
Hypothesis Hfit : catalog_fits w.

Lemma recompute_refreshed g d target d' :
  recompute_target now w id_le g (load_members id_le g d) d = (target, d') → refreshed g target d d'.
Proof using Hfit.
  unfold recompute_target. intros [= <- <-]. set (ms := load_members id_le g d). set (T := new_target w ms).
  destruct (store_targets g T ms d) as (G & K & R).
  { apply load_members_NoDup. }
  { intros m r Hin. apply load_members_elem in Hin. split; [done |]. apply (new_target_dom w id_le). eauto. }
  split; cbn [cg_groups cg_members on_cgroups].
  - intros h. rewrite <- G. destruct (decide (h = g)) as [->|Hne]; [| by rewrite lookup_alter_ne].
    rewrite lookup_alter_eq. by destruct (_ !! g).
  - intros h row. rewrite <- G. destruct (decide (h = g)) as [->|Hne]; [| rewrite lookup_alter_ne by done; by left].
    rewrite lookup_alter_eq. destruct (_ !! g); [| done]. intros [= <-]. by right.
  - intros k Hk. rewrite K; [done |]. intros m r Hin ->. apply load_members_elem in Hin. congruence.
  - intros [h m] r Hr. cbn [fst snd]. destruct (decide (h = g)) as [->|Hne].
    + destruct (R m r) as (t & Ht & Hs); [by apply load_members_elem |]. exists t. split_and!; done.
    + exists (mb_target r). rewrite set_target_same, K; [done |]. intros m' r' _ [= ? ?]. done.
  - intros m s Hs. apply (new_target_dom w id_le). unfold T, ms in Hs. eauto.
  - by apply new_target_ok.
Qed.

Lemma stored_refreshed g d : grants_ok (cg_members d) → refreshed g (stored_target (load_members id_le g d)) d d.
Proof using Type.
  intros Hok. assert (Hl : ∀ m, stored_target (load_members id_le g d) !! m = (λ r, list_to_set (mb_target r)) <$> cg_members d !! (g, m)).
  { intros m. unfold stored_target. apply (by_member id_le (λ r, list_to_set (mb_target r))). }
  split.
  - done.
  - intros h row. by left.
  - done.
  - intros [h m] r Hr. exists (mb_target r). rewrite set_target_same. split_and!; [done | | done]. cbn. intros ->. by rewrite Hl, Hr.
  - intros m s. rewrite Hl. destruct (cg_members d !! (g, m)); [eauto | done].
  - split.
    + intros m1 m2 s1 s2 x. rewrite !Hl. destruct (cg_members d !! (g, m1)) as [r1|] eqn:E1; [| done].
      destruct (cg_members d !! (g, m2)) as [r2|] eqn:E2; [| done]. intros [= <-] [= <-]. rewrite !elem_of_list_to_set.
      by eapply (ok_target _ Hok).
    + intros m s x. rewrite Hl. destruct (cg_members d !! (g, m)) as [r|] eqn:E; [| done]. intros [= <-].
      rewrite elem_of_list_to_set. intros Hx. eapply (ok_text _ Hok); eauto.
Qed.

Lemma current_target_refreshed g d target d' : grants_ok (cg_members d) →
  current_target now w id_le g d = (target, d') → refreshed g target d d'.
Proof using Hfit.
  intros Hok. unfold current_target. destruct (epochs_of now g d).2.
  - intros [= <- <-]. by apply stored_refreshed.
  - apply recompute_refreshed.
Qed.

(** Settling a target keeps the grants, and makes the targets those of [target]. *)
Lemma refreshed_ok g target d d' : refreshed g target d d' → grants_ok (cg_members d) → grants_ok (cg_members d').
Proof using Type.
  intros [_ _ Hnone Hrows _ [Tdis Treal]] [Hg Ht Hx].
  assert (Hback : ∀ k r', cg_members d' !! k = Some r' → ∃ r t, cg_members d !! k = Some r ∧ r' = set_target t r ∧
    (k.1 = g → target !! k.2 = Some (list_to_set t)) ∧ (k.1 ≠ g → t = mb_target r)).
  { intros k r' Hr'. destruct (cg_members d !! k) as [r|] eqn:E; [| rewrite Hnone in Hr' by done; done].
    destruct (Hrows k r E) as (t & Ht' & H1 & H2). rewrite Hr' in Ht'. injection Ht' as ->. eauto 6. }
  split.
  - intros h m1 m2 r1 r2 x H1 H2. apply Hback in H1 as (s1 & t1 & H1 & -> & _), H2 as (s2 & t2 & H2 & -> & _).
    cbn. intros. eapply Hg; eauto.
  - intros h m1 m2 r1 r2 x H1 H2. apply Hback in H1 as (s1 & t1 & H1 & -> & A1 & B1), H2 as (s2 & t2 & H2 & -> & A2 & B2).
    cbn in *. intros X1 X2. destruct (decide (h = g)) as [->|Hne].
    + eapply Tdis; [by apply A1 | by apply A2 | ..]; by apply elem_of_list_to_set.
    + rewrite (B1 Hne) in X1. rewrite (B2 Hne) in X2. eapply Ht; eauto.
  - intros [h m] r' x H1 X. apply Hback in H1 as (r & t & H1 & -> & A & B). cbn in *.
    destruct X as [X|X]; [by eapply Hx; eauto |]. destruct (decide (h = g)) as [->|Hne].
    + eapply Treal; [by apply A |]. by apply elem_of_list_to_set.
    + rewrite (B Hne) in X. by eapply Hx; eauto.
Qed.

(** ** Granting *)

Definition target_at (target : Assignments) (m : string) : gset string := default ∅ (target !! m).

(** What may be granted: the target, less what anybody is left with outside its own. *)
Definition may_grant (g me : string) (target : Assignments) (d : CGroups) (x : string) : Prop :=
  x ∈ default ∅ (target !! me) ∧
  ∀ m r, cg_members d !! (g, m) = Some r → x ∈ mb_owned r ∨ x ∈ mb_granted r → x ∈ default ∅ (target !! m).

Lemma grantable_elem g me target d x :
  x ∈ default ∅ (target !! me) ∖ held_elsewhere (load_members id_le g d) target ↔ may_grant g me target d x.
Proof using Type.
  unfold may_grant, held_elsewhere. rewrite elem_of_difference, elem_of_list_to_set, list_elem_of_bind. split.
  - intros [Hx Hnot]. split; [done |]. intros m r Hr Ho. destruct (decide (x ∈ default ∅ (target !! m))) as [|Hout]; [done |].
    destruct Hnot. exists (m, r). split; [| by apply load_members_elem]. apply list_elem_of_filter. split; [done |]. by apply elem_of_app.
  - intros [Hx Hall]. split; [done |]. intros ([m r] & Hin & Hr). apply list_elem_of_filter in Hin as [Hout Hin].
    apply elem_of_app in Hin. apply load_members_elem in Hr. cbn in *. eauto.
Qed.

Lemma granted_to_elem g d me r : cg_members d !! (g, me) = Some r →
  granted_to (load_members id_le g d) me = list_to_set (mb_granted r).
Proof using Type.
  intros Hr. unfold granted_to. destruct (list_find _ _) as [[i [m r']]|] eqn:E.
  - apply list_find_Some in E as (Hi & Heq & _). cbn in Heq. subst m. apply list_elem_of_lookup_2, load_members_elem in Hi. cbn. congruence.
  - apply list_find_None in E. rewrite Forall_forall in E. exfalso. eapply (E (me, r)); [| done]. by apply load_members_elem.
Qed.

(** The data of a reconciliation of [me], whose row is [r]. *)
Record Round : Type := mk_round {
  rd_target : Assignments;
  rd_mid : CGroups;
  rd_grantable : gset string;
  rd_granted : list string;
  rd_revoking : bool }.

Record reconciliation (g me : string) (prev : Z) (ack : option (gset string)) (d : CGroups) (r : Member) (n : Round)
    (epoch : Z) (wire : list (bytes * list Z)) (d' : CGroups) : Prop := mk_reconciliation {
  rc_refreshed : refreshed g (rd_target n) d (rd_mid n);
  rc_groups : cg_groups d' = cg_groups (rd_mid n);
  rc_others : ∀ k, k ≠ (g, me) → cg_members d' !! k = cg_members (rd_mid n) !! k;
  rc_me : ∃ t, rd_target n !! me = Some (list_to_set t) ∧ cg_members (rd_mid n) !! (g, me) = Some (set_target t r) ∧
    cg_members d' !! (g, me) = Some (reconciled now epoch (rd_granted n) (rd_revoking n) (set_target t r));
  rc_granted : ∀ x, x ∈ rd_granted n ↔ x ∈ mb_granted r ∧ (∀ o, ack = Some o → x ∈ o) ∨ x ∈ rd_grantable n;
  rc_grantable : ∀ x, x ∈ rd_grantable n ↔ may_grant g me (rd_target n) d x;
  rc_wire : wire = to_wire w (omap parse_tp (to_vec (rd_grantable n)));
  rc_epoch : epoch = if (size (rd_grantable n) =? size (target_at (rd_target n) me))%nat then (epochs_of now g d).1 else prev;
  rc_revoking : rd_revoking n = false ↔ ∀ x, x ∈ rd_granted n → x ∈ target_at (rd_target n) me }.

Lemma reconcile_spec g me prev ack d r epoch wire d' :
  grants_ok (cg_members d) → cg_members d !! (g, me) = Some r →
  reconcile now w id_le g me prev ack d = ((epoch, wire), d') →
  ∃ n, reconciliation g me prev ack d r n epoch wire d'.
Proof using Hfit.
  intros Hok Hr. unfold reconcile. destruct (current_target now w id_le g d) as [target d1] eqn:Et.
  pose proof (current_target_refreshed g d target d1 Hok Et) as Href. rewrite (granted_to_elem g d me r Hr).
  set (grantable := _ ∖ _). set (keep := match ack with Some o => _ | None => _ end). set (granted := to_vec (keep ∪ grantable)).
  set (revoking := negb _). intros [= <- <- <-]. destruct (rf_rows _ _ _ _ Href (g, me) r Hr) as (t & Hrow & Htar & _).
  specialize (Htar eq_refl). cbn in Htar. exists (mk_round target d1 grantable granted revoking). split; cbn.
  - done.
  - done.
  - intros k Hk. by rewrite lookup_alter_ne.
  - exists t. rewrite lookup_alter_eq, Hrow. done.
  - intros x. unfold granted. rewrite elem_of_to_vec, elem_of_union. unfold keep. destruct ack as [o|].
    + rewrite elem_of_intersection, elem_of_list_to_set. naive_solver.
    + rewrite elem_of_list_to_set. naive_solver.
  - intros x. apply grantable_elem.
  - done.
  - done.
  - unfold revoking, granted. rewrite negb_false_iff, bool_decide_eq_true. apply forall_proper. intros x. by rewrite elem_of_to_vec.
Qed.

Lemma refreshed_back g target d d' k r' : refreshed g target d d' → cg_members d' !! k = Some r' →
  ∃ r t, cg_members d !! k = Some r ∧ r' = set_target t r.
Proof using Type.
  intros Href Hr'. destruct (cg_members d !! k) as [r|] eqn:E; [| rewrite (rf_none _ _ _ _ Href) in Hr' by done; done].
  destruct (rf_rows _ _ _ _ Href k r E) as (t & Ht & _). rewrite Hr' in Ht. injection Ht as ->. eauto.
Qed.

(** What one member is granted, no other has. *)
Lemma grants_apart g me prev ack d r n epoch wire d' m2 r2 x :
  cg_members d !! (g, me) = Some r → reconciliation g me prev ack d r n epoch wire d' → grants_ok (cg_members d) →
  x ∈ rd_granted n → cg_members (rd_mid n) !! (g, m2) = Some r2 → x ∈ mb_granted r2 → m2 = me.
Proof using Type.
  intros Hr Hc Hok Hx H2 X2. pose proof (rc_refreshed _ _ _ _ _ _ _ _ _ _ Hc) as Href.
  destruct (refreshed_back _ _ _ _ _ _ Href H2) as (s2 & t2 & S2 & ->). cbn in X2.
  apply (rc_granted _ _ _ _ _ _ _ _ _ _ Hc) in Hx as [[Hx _]|Hx].
  - by eapply (ok_granted _ Hok).
  - apply (rc_grantable _ _ _ _ _ _ _ _ _ _ Hc) in Hx as [Hmine Hall]. specialize (Hall m2 s2 S2 (or_intror X2)).
    destruct (rd_target n !! me) as [s|] eqn:E1; [| by apply elem_of_empty in Hmine].
    destruct (rd_target n !! m2) as [s'|] eqn:E2; [| by apply elem_of_empty in Hall].
    by eapply (proj1 (rf_target _ _ _ _ Href)).
Qed.

Lemma reconciliation_ok g me prev ack d r n epoch wire d' : cg_members d !! (g, me) = Some r →
  reconciliation g me prev ack d r n epoch wire d' → grants_ok (cg_members d) → grants_ok (cg_members d').
Proof using Type.
  intros Hr Hc Hok. pose proof (λ m2 r2 x, grants_apart g me prev ack d r n epoch wire d' m2 r2 x Hr Hc Hok) as Happ.
  destruct Hc as [Href _ Hothers (t & Ht & Hmid & Hme) Hgr Hgb _ _ _].
  pose proof (refreshed_ok _ _ _ _ Href Hok) as [Mg Mt Mx].
  assert (Hrow : ∀ k r', cg_members d' !! k = Some r' → ∃ r1, cg_members (rd_mid n) !! k = Some r1 ∧ mb_target r' = mb_target r1 ∧
    (k = (g, me) ∧ mb_granted r' = rd_granted n ∨ k ≠ (g, me) ∧ mb_granted r' = mb_granted r1)).
  { intros k r' H. destruct (decide (k = (g, me))) as [->|Hne].
    - exists (set_target t r). rewrite Hme in H. injection H as <-. split_and!; [done | done | by left].
    - exists r'. rewrite <- Hothers by done. split_and!; [done | done | by right]. }
  split.
  - intros h m1 m2 r1 r2 x H1 H2 X1 X2. apply Hrow in H1 as (s1 & S1 & _ & [[K1 G1]|[K1 G1]]), H2 as (s2 & S2 & _ & [[K2 G2]|[K2 G2]]);
      rewrite G1 in X1; rewrite G2 in X2.
    + congruence.
    + injection K1 as -> ->. symmetry. by eapply Happ.
    + injection K2 as -> ->. by eapply Happ.
    + by eapply Mg.
  - intros h m1 m2 r1 r2 x H1 H2 X1 X2. apply Hrow in H1 as (s1 & S1 & G1 & _), H2 as (s2 & S2 & G2 & _).
    rewrite G1 in X1. rewrite G2 in X2. by eapply Mt.
  - intros k r' x H X. apply Hrow in H as (r1 & S1 & G1 & G2). destruct X as [X|X]; [| rewrite G1 in X; eapply Mx; eauto].
    destruct G2 as [[-> G2]|[_ G2]]; rewrite G2 in X; [| eapply Mx; eauto].
    apply Hgr in X as [[X _]|X]; [eapply (ok_text _ Hok); eauto |]. apply Hgb in X as [X _]. rewrite Ht in X. cbn in X.
    eapply (proj2 (rf_target _ _ _ _ Href)); eauto.
Qed.

End Reconcile.
