(* ===== verification/ConsumerGroupRun.v ===== *)
(** * Consumer groups: what requests and the sweep do to the tables

    Every heartbeat, whatever it carries and however it ends, and every sweep keep
    the invariant of ConsumerGroupSpec.v; and a heartbeat touches the grants of no
    member but its own. *)

From stdpp Require Import gmap sorting strings pretty.
From S2P Require Import Prelude Errors Acl Group Pmeta Offsets Txn Config Topics Table ShareHandlers ConsumerGroup Assign ConsumerGroupSpec.

#[local] Open Scope Z_scope.

(** ** Epochs *)

Lemma epochs_mono d d' : epochs_ok d →
  (∀ g row', cg_groups d' !! g = Some row' → 0 ≤ cg_assignment_epoch row' ≤ cg_epoch row' ∧ cg_epoch row' ≤ i32_max) →
  (∀ g row, cg_groups d !! g = Some row → ∃ row', cg_groups d' !! g = Some row' ∧ cg_epoch row ≤ cg_epoch row') →
  (∀ g m r', cg_members d' !! (g, m) = Some r' →
    (∃ m0 r, cg_members d !! (g, m0) = Some r ∧ mb_epoch r' = mb_epoch r) ∨ mb_epoch r' = 0 ∧ is_Some (cg_groups d' !! g)) →
  epochs_ok d'.
Proof.
  intros [Hg He] Hb Hgr Hm. split; [| done]. intros g m r' Hr'. destruct (Hm g m r' Hr') as [(m0 & r & Hr & ->)|[-> [row Hrow]]].
  - destruct (Hg _ _ _ Hr) as (row & Hrow & Hle). destruct (Hgr _ _ Hrow) as (row' & Hrow' & Hle'). exists row'. split; [done | lia].
  - exists row. split; [done |]. destruct (Hb _ _ Hrow). lia.
Qed.

(** Rows come from rows of the same group with the same epoch. *)
Lemma epochs_rows f d : epochs_ok d →
  (∀ g m r', f (cg_members d) !! (g, m) = Some r' → ∃ m0 r, cg_members d !! (g, m0) = Some r ∧ mb_epoch r' = mb_epoch r) →
  epochs_ok (on_members f d).
Proof.
  intros Hok Hm. apply (epochs_mono d); [done | | |]; cbn.
  - intros g row. apply (ok_epochs _ Hok).
  - intros g row H. exists row. split; [done | lia].
  - intros g m r' H. left. by apply (Hm g m).
Qed.

Lemma epochs_alter h k d : (∀ r, mb_epoch (h r) = mb_epoch r) → epochs_ok d → epochs_ok (on_members (alter h k) d).
Proof.
  intros Hh Hok. apply epochs_rows; [done |]. intros g m r'. destruct (decide (k = (g, m))) as [->|Hne].
  - rewrite lookup_alter_eq. destruct (_ !! _) as [r|] eqn:E; [| done]. intros [= <-]. exists m, r. by rewrite Hh.
  - rewrite lookup_alter_ne by done. intros H. by exists m, r'.
Qed.

Lemma epochs_subset f d : f (cg_members d) ⊆ cg_members d → epochs_ok d → epochs_ok (on_members f d).
Proof.
  intros Hs Hok. apply epochs_rows; [done |]. intros g m r' H. exists m, r'. split; [by eapply lookup_weaken | done].
Qed.

Lemma bump_epoch_epochs now g d : epochs_ok d → epochs_ok (bump_epoch now g d).2.
Proof.
  intros Hok. unfold bump_epoch. destruct (cg_groups d !! g) as [row|] eqn:E; [| done].
  destruct (Z.eqb_spec (cg_epoch row) i32_max); [done |]. cbn. pose proof (ok_epochs _ Hok _ _ E) as Hrow.
  apply (epochs_mono d); [done | | |]; cbn.
  - intros h row'. rewrite lookup_insert_Some. intros [[<- <-]|[_ H]]; [cbn; lia |]. by apply (ok_epochs _ Hok h).
  - intros h row' H. destruct (decide (h = g)) as [->|Hne].
    + rewrite lookup_insert_eq. rewrite E in H. injection H as <-. eexists. split; [done |]. cbn. lia.
    + rewrite lookup_insert_ne by done. exists row'. split; [done | lia].
  - intros h m r H. left. by exists m, r.
Qed.

Lemma bump_epoch_rows now g d : cg_members (bump_epoch now g d).2 = cg_members d.
Proof. unfold bump_epoch. by repeat case_match. Qed.

(** The group is there, and its epoch did not go back. *)
Lemma bump_epoch_group now g d row : cg_groups d !! g = Some row →
  ∃ row', cg_groups (bump_epoch now g d).2 !! g = Some row' ∧ cg_epoch row ≤ cg_epoch row'.
Proof.
  intros E. unfold bump_epoch. rewrite E. destruct (_ =? _); cbn; [exists row; split; [done | lia] |].
  rewrite lookup_insert_eq. eexists. split; [done |]. cbn. lia.
Qed.

Lemma ensure_group_ok now g d : epochs_ok d → epochs_ok (ensure_group now g d).
Proof.
  intros Hok. unfold ensure_group. destruct (cg_groups d !! g) as [row|] eqn:E.
  - replace (on_cgroups _ d) with d; [done |]. unfold on_cgroups. rewrite E. by destruct d.
  - apply (epochs_mono d); [done | | |]; cbn; rewrite E.
    + intros h row'. rewrite lookup_insert_Some. intros [[<- <-]|[_ H]]; [unfold i32_max; cbn; lia |]. by apply (ok_epochs _ Hok h).
    + intros h row' H. rewrite lookup_insert_ne by congruence. exists row'. split; [done | lia].
    + intros h m r H. left. by exists m, r.
Qed.

Lemma ensure_group_there now g d : is_Some (cg_groups (ensure_group now g d) !! g).
Proof. cbn. destruct (cg_groups d !! g) eqn:E; [eauto |]. rewrite lookup_insert_eq. eauto. Qed.

(** ** One member's request *)

(** Nobody but [k] gets or loses a grant. *)
Definition others_keep (k : string * string) (d d' : CGroups) : Prop :=
  ∀ k' r', k' ≠ k → cg_members d' !! k' = Some r' → ∃ r, cg_members d !! k' = Some r ∧ mb_granted r' = mb_granted r.

Lemma others_keep_trans k d1 d2 d3 : others_keep k d1 d2 → others_keep k d2 d3 → others_keep k d1 d3.
Proof.
  intros H1 H2 k' r3 Hne Hr3. destruct (H2 _ _ Hne Hr3) as (r2 & Hr2 & ->). destruct (H1 _ _ Hne Hr2) as (r1 & Hr1 & ->). eauto.
Qed.

Lemma others_keep_rows k d d' : cg_members d' = cg_members d → others_keep k d d'.
Proof. intros Heq k' r' _. rewrite Heq. eauto. Qed.

Lemma others_keep_at k d f : (∀ k', k' ≠ k → f (cg_members d) !! k' = cg_members d !! k') → others_keep k d (on_members f d).
Proof. intros Hf k' r' Hne. cbn. rewrite Hf by done. eauto. Qed.

(** [k] keeps of its grants what [ack] holds of, unless it was not there before. *)
Definition keeps (k : string * string) (ack : string → Prop) (d d' : CGroups) : Prop :=
  ∀ r r', cg_members d !! k = Some r → cg_members d' !! k = Some r' → ∀ x, x ∈ mb_granted r → ack x → x ∈ mb_granted r'.

Lemma delete_ok k d : cgroups_ok d → cgroups_ok (on_members (delete k) d).
Proof.
  intros [Hg He]. split; cbn.
  - eapply inherits_ok; [apply same_inj | apply inherits_delete | done].
  - apply epochs_subset; [apply delete_subseteq | done].
Qed.

Lemma alter_ok h k d : (∀ r, mb_granted (h r) = mb_granted r ∧ mb_target (h r) = mb_target r ∧ mb_epoch (h r) = mb_epoch r) →
  cgroups_ok d → cgroups_ok (on_members (alter h k) d).
Proof.
  intros Hh [Hg He]. split; cbn.
  - eapply inherits_ok; [apply same_inj | apply inherits_alter; intros r; by destruct (Hh r) as (? & ? & _) | done].
  - apply epochs_alter; [intros r; by destruct (Hh r) as (_ & _ & ?) | done].
Qed.

Lemma bump_epoch_ok now g d : cgroups_ok d → cgroups_ok (bump_epoch now g d).2.
Proof. intros [Hg He]. split; [by rewrite bump_epoch_rows | by apply bump_epoch_epochs]. Qed.

(** Renaming one member of one group. *)
Definition swap (g a b : string) (h m : string) : string :=
  if decide (h = g) then if decide (m = a) then b else if decide (m = b) then a else m else m.
#[export] Instance swap_inj g a b h : Inj (=) (=) (swap g a b h).
Proof. intros x y. unfold swap. repeat case_decide; congruence. Qed.

Lemma adopt_ok now g member holder row d : holder ≠ member → cg_members d !! (g, member) = None → cg_members d !! (g, holder) = Some row →
  cgroups_ok d → cgroups_ok (on_members (λ ms, <[(g, member) := adopted now row]> (delete (g, holder) ms)) d).
Proof.
  intros Hne Hno Hrow [Hg He]. split; cbn.
  - eapply (inherits_ok (swap g member holder)); [apply _ | | done]. intros h m r'. rewrite lookup_insert_Some.
    intros [[[= <- <-] <-]|[Hk Hd]]; right.
    + exists row. unfold swap. rewrite !decide_True by done. done.
    + apply lookup_delete_Some in Hd as [Hk' Hd]. exists r'. unfold swap. repeat case_decide; subst; try done.
  - apply epochs_rows; [done |]. intros h m r'. rewrite lookup_insert_Some. intros [[[= <- <-] <-]|[Hk Hd]].
    + by exists holder, row.
    + apply lookup_delete_Some in Hd as [_ Hd]. by exists m, r'.
Qed.

Lemma claim_instance_spec now g member inst d : cgroups_ok d →
  let d' := (claim_instance now g member inst d).2 in
  cgroups_ok d' ∧ cg_groups d' = cg_groups d ∧ others_keep (g, member) d d' ∧
  (cg_members d' !! (g, member) = cg_members d !! (g, member) ∨ inst ≠ None ∧ cg_members d !! (g, member) = None).
Proof.
  intros Hok. unfold claim_instance. destruct inst as [i|]; cbn -[map_to_list]; [| split_and!; [done | done | by apply others_keep_rows | by left]].
  destruct (list_find _ _) as [[n [[h holder] row]]|] eqn:E; cbn; [| split_and!; [done | done | by apply others_keep_rows | by left]].
  apply list_find_Some in E as (Hn & [Hh _] & _). cbn in Hh. subst h. apply list_elem_of_lookup_2, elem_of_map_to_list in Hn.
  case_decide as Hhm; cbn; [split_and!; [done | done | by apply others_keep_rows | by left] |].
  destruct (mb_departed row); cbn; [| split_and!; [done | done | by apply others_keep_rows | by left]].
  case_decide as Hthere; cbn; [split_and!; [done | done | by apply others_keep_rows | by left] |].
  apply eq_None_not_Some in Hthere. split_and!; [by apply adopt_ok | done | | by right].
  intros k' r' Hk. cbn. rewrite lookup_insert_ne by done. rewrite lookup_delete_Some. intros [_ H]. eauto.
Qed.

Section Requests.

Context {L : Type}.
Variables (now : Z) (fresh_id : string).
Variables (w : World L) (acls : AclCache) (who : Principal).
Variable id_le : string → string → Prop.
Context {id_dec : ∀ a b, Decision (id_le a b)}.
Variables (compiles : string → bool) (regex_match : string → string → bool).

Lemma admit_member_spec g member epoch d r d' : cgroups_ok d → admit_member now id_le g member epoch d = (r, d') →
  cgroups_ok d' ∧ others_keep (g, member) d d' ∧
  match r with
  | Ok (Ok existing) => d' = d ∧ cg_members d !! (g, member) = existing ∧ (existing = None → epoch = 0)
  | _ => d' = d ∨ cg_members d' !! (g, member) = None
  end.
Proof using Type.
  intros Hok. unfold admit_member. destruct (cg_members d !! (g, member)) as [row|] eqn:E.
  - destruct (_ && _); [intros [= <- <-]; split_and!; [done | by apply others_keep_rows | by left] |].
    destruct (revoke_expired now row); [| intros [= <- <-]; split_and!; [done | by apply others_keep_rows | done | done | done]].
    unfold bind. set (d1 := on_members _ d). pose proof (bump_epoch_ok now g d1 (delete_ok _ _ Hok)) as Hb.
    pose proof (bump_epoch_rows now g d1) as Hrows. destruct (bump_epoch now g d1) as [[[]|e] d2]; cbn in *; intros [= <- <-];
      (split_and!; [done | | right; rewrite Hrows; cbn; by rewrite lookup_delete_eq]);
      (intros k' r' Hne; rewrite Hrows; cbn; rewrite lookup_delete_ne by done; eauto).
  - destruct (Z.eqb_spec epoch 0) as [->|]; cbn [negb]; [| intros [= <- <-]; split_and!; [done | by apply others_keep_rows | by left]].
    destruct (_ <=? _); intros [= <- <-]; (split_and!; [done | by apply others_keep_rows | ..]); try done. by left.
Qed.

(** ** Serving a member *)

Lemma upsert_granted req owned regex matched o :
  mb_granted (upsert_row now req owned regex matched o) = match o with Some m => mb_granted m | None => [] end ∧
  mb_target (upsert_row now req owned regex matched o) = match o with Some m => mb_target m | None => [] end ∧
  mb_epoch (upsert_row now req owned regex matched o) = match o with Some m => mb_epoch m | None => 0 end.
Proof using Type. by destruct o. Qed.

Lemma upsert_ok req member owned regex matched d : is_Some (cg_groups d !! ch_group req) → cgroups_ok d →
  cgroups_ok (upsert_member now req member owned regex matched d).
Proof using Type.
  intros Hgr [Hg He]. unfold upsert_member. set (k := (ch_group req, member)).
  destruct (upsert_granted req owned regex matched (cg_members d !! k)) as (G & T & E). split; cbn.
  - eapply inherits_ok; [apply same_inj | | done]. intros h m r'. rewrite lookup_insert_Some. intros [[Hk <-]|[_ H]]; [| right; by exists r'].
    fold k. rewrite G, T. unfold same. rewrite <- Hk. destruct (cg_members d !! k) as [r|]; [right; by exists r | by left].
  - apply (epochs_mono d); [done | | |]; cbn.
    + intros g row. apply (ok_epochs _ He).
    + intros g row H. exists row. split; [done | lia].
    + intros h m r'. rewrite lookup_insert_Some. intros [[Hk <-]|[_ H]]; [| left; by exists m, r']. fold k. rewrite E.
      destruct (cg_members d !! k) as [r|] eqn:Er; [left; exists member, r | right; split; [done |]]; unfold k in *; by injection Hk as <- <-.
Qed.

Hypothesis Hfit : catalog_fits w.

Lemma refreshed_epochs g target d d' : refreshed g target d d' → epochs_ok d → epochs_ok d'.
Proof using Type.
  intros Href Hok. apply (epochs_mono d); [done | | |].
  - intros h row H. pose proof (rf_group _ _ _ _ Href h) as He. rewrite H in He.
    destruct (cg_groups d !! h) as [row0|] eqn:E; [| done]. injection He as He. pose proof (ok_epochs _ Hok _ _ E).
    destruct (rf_assigned _ _ _ _ Href h row H) as [Hrow|Hrow]; [rewrite E in Hrow; injection Hrow as ->; lia | lia].
  - intros h row H. pose proof (rf_group _ _ _ _ Href h) as He. rewrite H in He.
    destruct (cg_groups d' !! h) as [row'|] eqn:E; [| done]. injection He as He. exists row'. split; [done | lia].
  - intros h m r' H. destruct (refreshed_back _ _ _ _ _ _ Href H) as (r & t & Hr & ->). left. by exists m, r.
Qed.

Lemma reconcile_ok g me prev ack d r epoch wire d' row :
  cgroups_ok d → cg_members d !! (g, me) = Some r → cg_groups d !! g = Some row → 0 ≤ prev ≤ cg_epoch row →
  reconcile now w id_le g me prev ack d = ((epoch, wire), d') → cgroups_ok d'.
Proof using Hfit.
  intros [Hg He] Hr Hrow Hprev Hrec. destruct (reconcile_spec now w id_le Hfit _ _ _ _ _ _ _ _ _ Hg Hr Hrec) as [n Hn].
  split; [by eapply reconciliation_ok |]. destruct Hn as [Href Hgroups Hothers (t & _ & Hmid & Hme) _ _ _ Hep _].
  pose proof (refreshed_epochs _ _ _ _ Href He) as [Mg Me]. split; [| by rewrite Hgroups].
  intros h m r' H. rewrite Hgroups. destruct (decide ((h, m) = (g, me))) as [Heq|Hne].
  - injection Heq as -> ->. rewrite Hme in H. injection H as <-. cbn.
    destruct (Mg _ _ _ Hmid) as (row' & Hrow' & _). exists row'. split; [done |].
    pose proof (rf_group _ _ _ _ Href g) as Hge. rewrite Hrow, Hrow' in Hge. injection Hge as Hge.
    pose proof (Me _ _ Hrow'). rewrite Hep. unfold epochs_of. rewrite Hrow. cbn. destruct (_ =? _)%nat; lia.
  - apply (Mg h m). by rewrite <- Hothers.
Qed.

(** The pairs of an assignment as the client reads it. *)
Definition listed (asg : list (bytes * list Z)) (u : bytes) (p : Z) : Prop := ∃ ps, (u, ps) ∈ asg ∧ p ∈ ps.

Definition ack_of (req : CHeartbeat) (x : string) : Prop := ∀ tps, ch_partitions req = Some tps → x ∈ reported w tps.

Lemma matched_topics_error regex code :
  matched_topics w acls who id_le compiles regex_match regex = Err code → code ≠ ErrorCode.NoError.
Proof using Type. unfold matched_topics. repeat case_match; congruence. Qed.

(** What a response tells its member it has been granted. *)
Definition told (k : string * string) (resp : CHeartbeatResponse) (d : CGroups) : Prop :=
  cr_assignment resp = None ∨
  ∃ row grantable, cg_members d !! k = Some row ∧ (∀ x, x ∈ grantable → x ∈ mb_granted row ∧ real_tp x) ∧
    cr_assignment resp = Some (to_wire w (omap parse_tp (to_vec grantable))).

Lemma reconcile_told g me prev ack d r epoch wire d' : cgroups_ok d → cg_members d !! (g, me) = Some r →
  reconcile now w id_le g me prev ack d = ((epoch, wire), d') →
  others_keep (g, me) d d' ∧ keeps (g, me) (λ x, ∀ o, ack = Some o → x ∈ o) d d' ∧
  ∃ row grantable, cg_members d' !! (g, me) = Some row ∧ (∀ x, x ∈ grantable → x ∈ mb_granted row ∧ real_tp x) ∧
    wire = to_wire w (omap parse_tp (to_vec grantable)).
Proof using Hfit.
  intros [Hg He] Hr Hrec. destruct (reconcile_spec now w id_le Hfit _ _ _ _ _ _ _ _ _ Hg Hr Hrec) as [n Hn].
  pose proof (reconciliation_ok now w _ _ _ _ _ _ _ _ _ _ Hr Hn Hg) as Hg'.
  destruct Hn as [Href _ Hothers (t & _ & Hmid & Hme) Hgr _ Hw _ _]. split_and!.
  - intros k' r' Hne H. rewrite Hothers in H by done. destruct (refreshed_back _ _ _ _ _ _ Href H) as (r0 & t0 & H0 & ->). by exists r0.
  - intros r0 r1 H0 H1 x Hx Hack. rewrite Hr in H0. injection H0 as <-. rewrite Hme in H1. injection H1 as <-. cbn. apply Hgr. by left.
  - eexists _, (rd_grantable n). split_and!; [exact Hme | | done]. intros x Hx.
    assert (Hin : x ∈ rd_granted n) by (apply Hgr; by right). split; [done |]. eapply (ok_text _ Hg' (g, me)); [exact Hme |]. by left.
Qed.

Lemma bump_if_ok (b : bool) g d :
  let d' := ((if b then bump_epoch now g else ret tt) d).2 in
  (cgroups_ok d → cgroups_ok d') ∧ cg_members d' = cg_members d ∧
  ∀ row, cg_groups d !! g = Some row → ∃ row', cg_groups d' !! g = Some row' ∧ cg_epoch row ≤ cg_epoch row'.
Proof using Type.
  destruct b; cbn.
  - split_and!; [apply bump_epoch_ok | apply bump_epoch_rows | intros row; apply bump_epoch_group].
  - split_and!; [done | done |]. intros row H. exists row. split; [done | lia].
Qed.

Lemma serve_member_spec req member existing d r d' row :
  cgroups_ok d → cg_members d !! (ch_group req, member) = existing → cg_groups d !! ch_group req = Some row →
  serve_member now w acls who id_le compiles regex_match req member existing d = (r, d') →
  cgroups_ok d' ∧ others_keep (ch_group req, member) d d' ∧ keeps (ch_group req, member) (ack_of req) d d' ∧
  ∀ resp, r = Ok resp → told (ch_group req, member) resp d'.
Proof using Hfit.
  intros Hok Hex Hrow. unfold serve_member. destruct (matched_topics _ _ _ _ _ _ _) as [matched|code] eqn:Em.
  2:{ intros [= <- <-]. split_and!; [done | by apply others_keep_rows | intros r0 r1; congruence |]. intros resp [= <-]. by left. }
  set (k := (ch_group req, member)) in *. set (owned := reported w <$> ch_partitions req).
  set (d1 := upsert_member _ _ _ _ _ _ d). set (b := group_changed _ _ _ _).
  assert (Hok1 : cgroups_ok d1) by (apply upsert_ok; eauto).
  set (r1 := upsert_row now req owned (next_regex req existing) matched existing).
  assert (Hk1 : cg_members d1 !! k = Some r1). { unfold d1. cbn. rewrite lookup_insert_eq. fold k. by rewrite Hex. }
  assert (Ho1 : others_keep k d d1). { apply others_keep_at. intros k' Hne. by rewrite lookup_insert_ne. }
  destruct (bump_if_ok b (ch_group req) d1) as (Hok2 & Hrows2 & Hgr2). specialize (Hok2 Hok1). destruct (Hgr2 row Hrow) as (row2 & Hrow2 & Hle).
  unfold bind. destruct ((if b then bump_epoch now (ch_group req) else ret tt) d1) as [[[]|e] d2]; cbn [snd] in *.
  - assert (Hk2 : cg_members d2 !! k = Some r1) by by rewrite Hrows2. destruct (reconcile _ _ _ _ _ _ _ _) as [[epoch wire] d3] eqn:Er.
    intros [= <- <-]. destruct (reconcile_told _ _ _ _ _ _ _ _ _ Hok2 Hk2 Er) as (Ho & Hkeep & Htold). split_and!.
    + eapply reconcile_ok; [done | exact Hk2 | exact Hrow2 | | exact Er]. destruct existing as [m|]; [| pose proof (ok_epochs _ (proj2 Hok2) _ _ Hrow2); lia].
      destruct (ok_group _ (proj2 Hok) _ _ _ Hex) as (row0 & H0 & ?). rewrite Hrow in H0. injection H0 as <-. lia.
    + eapply others_keep_trans; [exact Ho1 |]. eapply others_keep_trans; [| exact Ho]. by apply others_keep_rows.
    + intros r0 r' H0 H' x Hx Hack. eapply Hkeep; [exact Hk2 | exact H' | |].
      * unfold r1. rewrite H0 in Hex. subst existing. destruct (upsert_granted req owned (next_regex req (Some r0)) matched (Some r0)) as [-> _]. done.
      * intros o Ho'. unfold owned in Ho'. destruct (ch_partitions req) as [tps|] eqn:Et; [| done]. injection Ho' as <-.
        apply elem_of_list_to_set. by apply Hack.
    + intros resp [= <-]. right. destruct Htold as (r' & gr & ? & ? & ->). by exists r', gr.
  - intros [= <- <-]. split_and!; [done | | | by intros resp [=]].
    + eapply others_keep_trans; [exact Ho1 |]. by apply others_keep_rows.
    + intros r0 r' H0 H' x Hx _. rewrite Hrows2, Hk1 in H'. injection H' as <-. unfold r1. rewrite H0 in Hex. subst existing.
      destruct (upsert_granted req owned (next_regex req (Some r0)) matched (Some r0)) as [-> _]. done.
Qed.

(** ** A whole heartbeat *)

(** The member a request is about. *)
Definition hb_key (req : CHeartbeat) : string * string :=
  (ch_group req, if decide (ch_member req = ""%string) then fresh_id else ch_member req).

Record served (req : CHeartbeat) (d : CGroups) (r : result Failure CHeartbeatResponse) (d' : CGroups) : Prop := mk_served {
  sv_ok : cgroups_ok d';
  sv_others : others_keep (hb_key req) d d';
  sv_keeps : keeps (hb_key req) (ack_of req) d d';
  sv_new : is_Some (cg_members d' !! hb_key req) → is_Some (cg_members d !! hb_key req) ∨ ch_epoch req = 0 ∨ ch_instance req ≠ None;
  sv_told : ∀ resp, r = Ok resp → told (hb_key req) resp d' }.

Lemma served_same req d r : cgroups_ok d → (∀ resp, r = Ok resp → cr_assignment resp = None) → served req d r d.
Proof using Type.
  intros Hok Hr. split; [done | by apply others_keep_rows | intros r0 r1; congruence | by left |]. intros resp H. left. by apply Hr.
Qed.

(** The claim of an instance leaves the member's own row alone, or brings it. *)
Lemma served_after req d d1 r d' : cgroups_ok d1 → others_keep (hb_key req) d d1 →
  (cg_members d1 !! hb_key req = cg_members d !! hb_key req ∨ ch_instance req ≠ None ∧ cg_members d !! hb_key req = None) →
  served req d1 r d' → served req d r d'.
Proof using Type.
  intros Hok1 Ho1 Hrow [Hok Ho Hk Hn Ht]. split; [done | by eapply others_keep_trans | | | done].
  - intros r0 r' H0 H' x Hx Hack. destruct Hrow as [Hrow|[_ Hrow]]; [| congruence]. eapply Hk; eauto. by rewrite Hrow.
  - intros H. destruct Hrow as [Hrow|[Hinst _]]; [| by right; right]. rewrite <- Hrow. by apply Hn.
Qed.

Lemma admitted_served req d r d' : cgroups_ok d → is_Some (cg_groups d !! ch_group req) →
  (let* admitted := admit_member now id_le (ch_group req) (hb_key req).2 (ch_epoch req) in
   match admitted with
   | Err code => ret (err_hb code)
   | Ok existing => serve_member now w acls who id_le compiles regex_match req (hb_key req).2 existing
   end) d = (r, d') → served req d r d'.
Proof using Hfit.
  intros Hok [row Hrow]. unfold bind. destruct (admit_member _ _ _ _ _ d) as [a d1] eqn:Ea.
  destruct (admit_member_spec _ _ _ _ _ _ Hok Ea) as (Hok1 & Ho1 & Hcase).
  assert (Hgone : d1 = d ∨ cg_members d1 !! hb_key req = None → ∀ r', (∀ resp, r' = Ok resp → cr_assignment resp = None) → served req d r' d1).
  { intros [->|Hnone] r' Hr'; [by apply served_same |]. split; [done | done | | | intros resp H; left; by apply Hr'].
    - intros r0 r1 _ H1. congruence.
    - rewrite Hnone. by intros [? [=]]. }
  destruct a as [[existing|code]|e].
  - destruct Hcase as (-> & Hex & Hzero). intros Hs. destruct (serve_member_spec _ _ _ _ _ _ _ Hok Hex Hrow Hs) as (Hok' & Ho' & Hk' & Ht').
    split; [done | done | done | | done]. intros _. destruct existing; [left | right; left; by apply Hzero].
    change (is_Some (cg_members d !! (ch_group req, (hb_key req).2))). rewrite Hex. eauto.
  - intros [= <- <-]. apply Hgone; [done |]. by intros resp [= <-].
  - intros [= <- <-]. apply Hgone; [done |]. by intros resp [=].
Qed.

Lemma join_served req d r d' : cgroups_ok d →
  join_or_continue now fresh_id w acls who id_le compiles regex_match req d = (r, d') → served req d r d'.
Proof using Hfit.
  intros Hok. unfold join_or_continue. destruct (negb (forallb _ _)); [intros [= <- <-]; apply served_same; [done |]; by intros resp [= <-] |].
  set (d1 := ensure_group now (ch_group req) d).
  assert (Hok1 : cgroups_ok d1) by (split; [apply (proj1 Hok) | apply ensure_group_ok, Hok]).
  pose proof (claim_instance_spec now (ch_group req) (hb_key req).2 (ch_instance req) d1 Hok1) as (Hok2 & Hg2 & Ho2 & Hrow2).
  unfold bind at 1. fold (hb_key req). change (if decide _ then fresh_id else ch_member req) with (hb_key req).2.
  destruct (claim_instance now (ch_group req) (hb_key req).2 (ch_instance req) d1) as [[claimed|e] d2]; cbn [snd] in *.
  - destruct claimed; cbn [negb]; intros Hs; (eapply served_after; [exact Hok2 | exact Ho2 | exact Hrow2 |]).
    + eapply admitted_served; [done | | exact Hs]. rewrite Hg2. apply ensure_group_there.
    + injection Hs as <- <-. apply served_same; [done |]. by intros resp [= <-].
  - intros [= <- <-]. eapply served_after; [exact Hok2 | exact Ho2 | exact Hrow2 |]. apply served_same; [done |]. by intros resp [=].
Qed.

Lemma leave_served req d r d' : cgroups_ok d → leave now req d = (r, d') → served req d r d'.
Proof using Type.
  intros Hok. unfold leave. case_decide as Hm; [intros [= <- <-]; apply served_same; [done |]; by intros resp [= <-] |].
  destruct (_ <? -2); [intros [= <- <-]; apply served_same; [done |]; by intros resp [= <-] |].
  assert (Hkey : hb_key req = (ch_group req, ch_member req)) by (unfold hb_key; by rewrite decide_False).
  unfold bind. destruct (leave_group _ _ _ _ d) as [res d1] eqn:El.
  assert (Hd1 : cgroups_ok d1 ∧ others_keep (hb_key req) d d1 ∧ keeps (hb_key req) (ack_of req) d d1 ∧
    (is_Some (cg_members d1 !! hb_key req) → is_Some (cg_members d !! hb_key req))).
  { revert El. unfold leave_group. rewrite Hkey. destruct (_ =? -2).
    - intros [= <- <-]. split_and!.
      + by apply alter_ok.
      + apply others_keep_at. intros k' Hne. by rewrite lookup_alter_ne.
      + intros r0 r1 H0. cbn. rewrite lookup_alter_eq, H0. intros [= <-]. done.
      + cbn. rewrite lookup_alter_eq. by rewrite fmap_is_Some.
    - destruct (cg_members d !! (ch_group req, ch_member req)) eqn:E.
      + set (d2 := on_members _ d). intros Hb. pose proof (bump_epoch_ok now (ch_group req) d2 (delete_ok _ _ Hok)) as Hok2.
        pose proof (bump_epoch_rows now (ch_group req) d2) as Hrows. rewrite Hb in Hok2, Hrows. cbn in Hok2, Hrows. split_and!; [done | | |].
        * intros k' r' Hne. rewrite Hrows. rewrite lookup_delete_ne by done. eauto.
        * intros r0 r1 _. rewrite Hrows, lookup_delete_eq. done.
        * rewrite Hrows, lookup_delete_eq. by intros [? [=]].
      + intros [= <- <-]. split_and!; [done | by apply others_keep_rows | intros r0 r1; congruence | by rewrite E]. }
  destruct Hd1 as (Hok1 & Ho1 & Hk1 & Hn1).
  destruct res as [[]|e]; intros [= <- <-]; (split; [done | done | done | by left; apply Hn1 |]); intros resp H; [injection H as <-; by left | done].
Qed.

Lemma heartbeat_served req d r d' : cgroups_ok d →
  heartbeat now fresh_id w acls who id_le compiles regex_match req d = (r, d') → served req d r d'.
Proof using Hfit.
  intros Hok. unfold heartbeat.
  destruct (check_bounds req); [| intros [= <- <-]; apply served_same; [done |]; by intros resp [=]].
  destruct (check _ _ _ _ _); [| intros [= <- <-]; apply served_same; [done |]; by intros resp [= <-]].
  destruct (other_protocol _ _); [intros [= <- <-]; apply served_same; [done |]; by intros resp [= <-] |].
  destruct (negb _); [intros [= <- <-]; apply served_same; [done |]; by intros resp [= <-] |].
  destruct (_ <? 0); [by apply leave_served | by apply join_served].
Qed.

End Requests.

(** ** The sweep *)

(** Rows only go, and what is left keeps its grants. *)
Definition rows_go (d d' : CGroups) : Prop :=
  ∀ k r', cg_members d' !! k = Some r' → ∃ r, cg_members d !! k = Some r ∧ mb_granted r' = mb_granted r.

Lemma rows_go_trans d1 d2 d3 : rows_go d1 d2 → rows_go d2 d3 → rows_go d1 d3.
Proof. intros H1 H2 k r3 H3. destruct (H2 _ _ H3) as (r2 & Hr2 & ->). destruct (H1 _ _ Hr2) as (r1 & Hr1 & ->). eauto. Qed.

Section Sweep.

Variable (now : Z).
Variable id_le : string → string → Prop.
Context {id_dec : ∀ a b, Decision (id_le a b)}.

Lemma see_all_ok alive d : cgroups_ok d →
  let d' := on_members (λ ms, foldl (λ ms k, alter (set_seen now) k ms) ms alive) d in cgroups_ok d' ∧ rows_go d d'.
Proof using Type.
  revert d. induction alive as [|k alive IH]; intros d Hok; cbn.
  { unfold on_members. destruct d. split; [done |]. intros k r. eauto. }
  destruct (IH (on_members (alter (set_seen now) k) d)) as [Hok' Hrows]; [by apply alter_ok |]. split; [exact Hok' |].
  eapply rows_go_trans; [| exact Hrows]. intros k' r'. cbn. destruct (decide (k = k')) as [->|Hne].
  - rewrite lookup_alter_eq. destruct (cg_members d !! k') as [r|]; [| done]. intros [= <-]. by exists r.
  - rewrite lookup_alter_ne by done. eauto.
Qed.

Lemma delete_all_ok (ks : list (string * string)) d : cgroups_ok d →
  let d' := on_members (λ ms, foldl (λ ms k, delete k ms) ms ks) d in cgroups_ok d' ∧ rows_go d d'.
Proof using Type.
  revert d. induction ks as [|k ks IH]; intros d Hok; cbn.
  { unfold on_members. destruct d. split; [done |]. intros k r. eauto. }
  destruct (IH (on_members (delete k) d)) as [Hok' Hrows]; [by apply delete_ok |]. split; [exact Hok' |].
  eapply rows_go_trans; [| exact Hrows]. intros k' r'. cbn. rewrite lookup_delete_Some. intros [_ H]. eauto.
Qed.

Lemma after_loss_ok g d : cgroups_ok d → cgroups_ok (after_loss now id_le g d).2 ∧ cg_members (after_loss now id_le g d).2 = cg_members d.
Proof using Type.
  intros Hok. unfold after_loss, bind. pose proof (bump_epoch_ok now g d Hok) as Hb. pose proof (bump_epoch_rows now g d) as Hrows.
  destruct (bump_epoch now g d) as [[[]|e] d1]; cbn in *; [| done]. case_decide; [| done]. cbn. split; [| done].
  destruct Hb as [Hg He]. split; [done |]. apply (epochs_mono d1); [done | | |]; cbn.
  - intros h row. destruct (decide (g = h)) as [->|Hne]; [| rewrite lookup_alter_ne by done; apply (ok_epochs _ He)].
    rewrite lookup_alter_eq. destruct (_ !! h) as [row0|] eqn:E; [| done]. intros [= <-]. apply (ok_epochs _ He _ _ E).
  - intros h row Hrow. destruct (decide (g = h)) as [->|Hne]; [| rewrite lookup_alter_ne by done; exists row; split; [done | lia]].
    rewrite lookup_alter_eq, Hrow. eexists. split; [done |]. cbn. lia.
  - intros h m r Hr. left. by exists m, r.
Qed.

Lemma each_after_loss l d : cgroups_ok d →
  cgroups_ok (each (after_loss now id_le) l d).2 ∧ cg_members (each (after_loss now id_le) l d).2 = cg_members d.
Proof using Type.
  revert d. induction l as [|g l IH]; intros d Hok; [done |]. cbn [each]. unfold bind.
  destruct (after_loss_ok g d Hok) as [Hok1 Hrows]. destruct (after_loss now id_le g d) as [[[]|e] d1]; cbn in *; [| done].
  destruct (IH d1 Hok1) as [Hok2 Hrows2]. split; [exact Hok2 |]. by rewrite Hrows2.
Qed.

Lemma expire_members_ok alive d : cgroups_ok d →
  cgroups_ok (expire_members now id_le alive d).2 ∧ rows_go d (expire_members now id_le alive d).2.
Proof using Type.
  intros Hok. unfold expire_members. destruct (see_all_ok alive d Hok) as [Hok1 Hr1]. set (d1 := on_members _ d) in *.
  destruct (delete_all_ok (gone now d1).*1 d1 Hok1) as [Hok2 Hr2]. set (d2 := on_members _ d1) in *. unfold bind.
  set (l := to_vec _). destruct (each_after_loss l d2 Hok2) as [Hok3 Hr3].
  destruct (each (after_loss now id_le) l d2) as [[[]|e] d3]; cbn in *;
    (split; [done |]; eapply rows_go_trans; [exact Hr1 |]; intros k r; rewrite Hr3; apply Hr2).
Qed.

End Sweep.
