(* ===== verification/ConsumerGroupClients.v ===== *)
(** * Consumer groups: one owner per partition

    The tables of ConsumerGroup.v together with what the clients really hold.  A
    client keeps what it was assigned until it drops it; its requests and the
    answers to them may be lost, and members may be fenced or swept at any time.
    Between the members of a group no partition has two owners. *)

From stdpp Require Import gmap sorting strings pretty relations.
From S2P Require Import Prelude Errors Acl Group Pmeta Offsets Txn Config Topics Table TableSpec ShareHandlers ConsumerGroup Assign ConsumerGroupSpec ConsumerGroupRun.

#[local] Open Scope Z_scope.

(** ** The wire *)

Lemma push_parts_elem asg m t p :
  (∃ ps, foldl push_part m asg !! t = Some ps ∧ p ∈ ps) ↔ (∃ ps, m !! t = Some ps ∧ p ∈ ps) ∨ (t, p) ∈ asg.
Proof.
  revert m. induction asg as [|[t0 p0] asg IH]; intros m; cbn [foldl].
  { split; [by left |]. intros [H|H]; [done | by apply elem_of_nil in H]. }
  rewrite IH, elem_of_cons. unfold push_part. cbn [fst snd]. destruct (decide (t0 = t)) as [->|Hne].
  - rewrite lookup_insert_eq. split.
    + intros [(ps & [= <-] & Hin)|Hin]; [| by right; right]. apply elem_of_app in Hin as [Hin|Hin].
      * destruct (m !! t) as [l|]; [left; by exists l | by apply elem_of_nil in Hin].
      * apply list_elem_of_singleton in Hin as ->. right. by left.
    + intros [(ps & Hps & Hin)|[[= <-]|Hin]]; [left | left | by right].
      * rewrite Hps. eexists. split; [done |]. apply elem_of_app. by left.
      * eexists. split; [done |]. apply elem_of_app. right. by apply list_elem_of_singleton.
  - rewrite lookup_insert_ne by done. naive_solver.
Qed.

Section Wire.

Context {L : Type}.
Implicit Types w : World L.

(** A topic's uuid has 16 bytes and is its own. *)
Definition uuids_ok w : Prop :=
  ∀ i u c, w_cols w !! i = Some (u, c) → length u = 16%nat ∧ ∀ j c', w_cols w !! j = Some (u, c') → i = j.

Lemma topic_id_by_uuid_some w u t : topic_id_by_uuid w u = Some t → ∃ c, w_cols w !! t = Some (u, c).
Proof.
  unfold topic_id_by_uuid. destruct (list_find _ _) as [[i [t' [u' c]]]|] eqn:E; [| done]. intros [= <-].
  apply list_find_Some in E as (Hi & Hu & _). cbn in *. subst u'. apply list_elem_of_lookup_2, elem_of_map_to_list in Hi. eauto.
Qed.

Lemma topic_id_by_uuid_of w t u c : uuids_ok w → w_cols w !! t = Some (u, c) → topic_id_by_uuid w u = Some t.
Proof.
  intros Hok Ht. destruct (topic_id_by_uuid w u) as [t'|] eqn:E.
  - apply topic_id_by_uuid_some in E as [c' E]. f_equal. symmetry. by apply (proj2 (Hok _ _ _ Ht) _ c').
  - exfalso. revert E. unfold topic_id_by_uuid. destruct (list_find _ _) as [|] eqn:E; [done |]. intros _.
    apply list_find_None in E. rewrite Forall_forall in E. by apply (E (t, (u, c))); [apply elem_of_map_to_list |].
Qed.

(** What a client reads off an assignment is a partition some text stands for. *)
Lemma listed_wire w parts u p : uuids_ok w → listed (to_wire w parts) u p → ∃ t, topic_id_by_uuid w u = Some t ∧ (t, p) ∈ parts.
Proof.
  intros Hok (ps & Hin & Hp). unfold to_wire, per_topic in Hin. apply list_elem_of_omap in Hin as ([t l] & Hl & Heq). cbn in Heq.
  destruct (w_cols w !! t) as [[raw c]|] eqn:Ec; [| done]. injection Heq as <- <-. apply in_order_elem in Hl. cbn in Hl.
  rewrite merge_sort_Permutation in Hp. exists t. destruct (Hok _ _ _ Ec) as [Hlen _].
  unfold to_uuid. cbn [fst]. rewrite Hlen. split; [by eapply topic_id_by_uuid_of |].
  destruct (push_parts_elem parts ∅ t p) as [H _]. destruct H as [(ps' & H' & _)|H]; [eauto | by rewrite lookup_empty in H' | done].
Qed.

Lemma reported_elem w tps u t p : listed tps u p → topic_id_by_uuid w u = Some t → tp t p ∈ reported w tps.
Proof.
  intros (ps & Hin & Hp) Ht. unfold reported. apply list_elem_of_bind. exists (u, ps). split; [| done]. cbn. rewrite Ht.
  apply list_elem_of_fmap. eauto.
Qed.

End Wire.

(** ** Clients *)

(** What each member's client holds, by topic uuid and partition. *)
Definition Holdings : Type := string * string → bytes → Z → Prop.

Record Sys (L : Type) : Type := mk_sys {
  sy_world : World L;
  sy_groups : CGroups;
  sy_held : Holdings }.
Arguments mk_sys {L}. Arguments sy_world {L}. Arguments sy_groups {L}. Arguments sy_held {L}.

(** A client that joins holds nothing, names its instance only then, and when it
    reports what it owns leaves out nothing it holds. *)
Record honest (k : string * string) (req : CHeartbeat) (held : Holdings) : Prop := mk_honest {
  hn_join : ch_epoch req = 0 → ∀ u p, ¬ held k u p;
  hn_instance : ch_epoch req ≠ 0 → ch_instance req = None;
  hn_report : ∀ tps, ch_partitions req = Some tps → ∀ u p, held k u p → listed tps u p }.

Section Clients.

Context {L : Type}.
Implicit Types w : World L.
Variable id_le : string → string → Prop.
Context {id_dec : ∀ a b, Decision (id_le a b)}.

Inductive client_step : Sys L → Sys L → Prop :=
| step_heartbeat w d held now fresh_id acls who compiles regex_match req resp d' held' :
    (* a request is served; the client takes up what the answer lists, or does not get it *)
    honest (hb_key fresh_id req) req held →
    heartbeat now fresh_id w acls who id_le compiles regex_match req d = (Ok resp, d') →
    (∀ k u p, held' k u p → held k u p ∨ k = hb_key fresh_id req ∧ listed (default [] (cr_assignment resp)) u p) →
    client_step (mk_sys w d held) (mk_sys w d' held')
| step_drop w d held held' :
    (∀ k u p, held' k u p → held k u p) → client_step (mk_sys w d held) (mk_sys w d held')
| step_sweep w d held now alive n d' :
    expire_members now id_le alive d = (Ok n, d') → client_step (mk_sys w d held) (mk_sys w d' held)
| step_catalog w d held w' :
    (* topics come with new uuids, and go *)
    catalog_fits w' → uuids_ok w' →
    (∀ u t', topic_id_by_uuid w' u = Some t' → topic_id_by_uuid w u = Some t' ∨ ∀ k p, ¬ held k u p) →
    client_step (mk_sys w d held) (mk_sys w' d held).

Definition exclusive (s : Sys L) : Prop :=
  ∀ g m1 m2 u p, is_Some (cg_members (sy_groups s) !! (g, m1)) → is_Some (cg_members (sy_groups s) !! (g, m2)) →
    sy_held s (g, m1) u p → sy_held s (g, m2) u p → m1 = m2.

(** A member holds what it was granted. *)
Definition backed (s : Sys L) : Prop :=
  ∀ k r u p t, cg_members (sy_groups s) !! k = Some r → sy_held s k u p → topic_id_by_uuid (sy_world s) u = Some t →
    tp t p ∈ mb_granted r.

Record sys_ok (s : Sys L) : Prop := mk_sys_ok {
  so_fits : catalog_fits (sy_world s);
  so_uuids : uuids_ok (sy_world s);
  so_groups : cgroups_ok (sy_groups s);
  so_backed : backed s;
  so_exclusive : exclusive s }.

Lemma honest_new k req held : honest k req held → ch_epoch req = 0 ∨ ch_instance req ≠ None → ∀ u p, ¬ held k u p.
Proof using Type.
  intros [Hj Hi _] H. apply Hj. destruct H as [|H]; [done |]. destruct (decide (ch_epoch req = 0)); [done |]. by destruct H; apply Hi.
Qed.

Lemma told_backed w k resp d u p : uuids_ok w → told w k resp d → listed (default [] (cr_assignment resp)) u p →
  ∃ t r, topic_id_by_uuid w u = Some t ∧ cg_members d !! k = Some r ∧ tp t p ∈ mb_granted r.
Proof using Type.
  intros Hu [->|(r & gr & Hr & Hall & ->)] Hl; cbn in Hl; [destruct Hl as (? & Hin & _); by apply elem_of_nil in Hin |].
  destruct (listed_wire w _ u p Hu Hl) as (t & Ht & Hin). apply list_elem_of_omap in Hin as (x & Hx & Hp). apply elem_of_to_vec in Hx.
  destruct (Hall x Hx) as (Hg & t' & p' & Ht' & Hp' & ->). rewrite tp_roundtrip in Hp by done. injection Hp as -> ->. by exists t, r.
Qed.

Lemma heartbeat_backed w d held now fresh_id acls who compiles regex_match req resp d' held' :
  sys_ok (mk_sys w d held) → honest (hb_key fresh_id req) req held →
  heartbeat now fresh_id w acls who id_le compiles regex_match req d = (Ok resp, d') →
  (∀ k u p, held' k u p → held k u p ∨ k = hb_key fresh_id req ∧ listed (default [] (cr_assignment resp)) u p) →
  backed (mk_sys w d' held').
Proof using Type.
  intros [Hfit Hu Hok Hb Hex] Hhon Hhb Hheld. pose proof (heartbeat_served now fresh_id w acls who id_le compiles regex_match Hfit _ _ _ _ Hok Hhb) as Hs.
  cbn in *. intros k r' u p t Hr' Hh Ht. cbn in *. set (me := hb_key fresh_id req) in *.
  destruct (Hheld _ _ _ Hh) as [Hold|[-> Hl]].
  - destruct (decide (k = me)) as [->|Hne].
    + destruct (sv_new _ _ _ _ _ _ Hs (mk_is_Some _ _ Hr')) as [[r Hr]|Hnew]; [| by destruct (honest_new _ _ _ Hhon Hnew u p)].
      apply (sv_keeps _ _ _ _ _ _ Hs r r' Hr Hr'); [by eapply Hb |]. intros tps Htps.
      eapply reported_elem; [| done]. by eapply (hn_report _ _ _ Hhon).
    + destruct (sv_others _ _ _ _ _ _ Hs k r' Hne Hr') as (r & Hr & ->). by eapply Hb.
  - destruct (told_backed w me resp d' u p Hu) as (t' & r & Ht' & Hr & Hin); [by apply (sv_told _ _ _ _ _ _ Hs) | done |]. congruence.
Qed.

Lemma heartbeat_exclusive w d held now fresh_id acls who compiles regex_match req resp d' held' :
  sys_ok (mk_sys w d held) → honest (hb_key fresh_id req) req held →
  heartbeat now fresh_id w acls who id_le compiles regex_match req d = (Ok resp, d') →
  (∀ k u p, held' k u p → held k u p ∨ k = hb_key fresh_id req ∧ listed (default [] (cr_assignment resp)) u p) →
  backed (mk_sys w d' held') → exclusive (mk_sys w d' held').
Proof using Type.
  intros [Hfit Hu Hok Hb Hex] Hhon Hhb Hheld Hb'. pose proof (heartbeat_served now fresh_id w acls who id_le compiles regex_match Hfit _ _ _ _ Hok Hhb) as Hs.
  cbn in *. intros g m1 m2 u p [r1 H1] [r2 H2] X1 X2. cbn in *. set (me := hb_key fresh_id req) in *.
  destruct (topic_id_by_uuid w u) as [t|] eqn:Ht.
  { eapply (ok_granted _ (proj1 (sv_ok _ _ _ _ _ _ Hs))); [exact H1 | exact H2 | eapply Hb'; eauto | eapply Hb'; eauto]. }
  assert (Hback : ∀ m r, cg_members d' !! (g, m) = Some r → held' (g, m) u p → held (g, m) u p ∧ is_Some (cg_members d !! (g, m))).
  { intros m r Hr Hh. destruct (Hheld _ _ _ Hh) as [Hold|[_ Hl]].
    - split; [done |]. destruct (decide ((g, m) = me)) as [Heq|Hne].
      + rewrite Heq in *. destruct (sv_new _ _ _ _ _ _ Hs (mk_is_Some _ _ Hr)) as [|Hnew]; [done |]. by destruct (honest_new _ _ _ Hhon Hnew u p).
      + destruct (sv_others _ _ _ _ _ _ Hs _ _ Hne Hr) as (r0 & ? & _). eauto.
    - destruct (told_backed w me resp d' u p Hu) as (t' & r' & Ht' & _); [by apply (sv_told _ _ _ _ _ _ Hs) | done |]. congruence. }
  destruct (Hback _ _ H1 X1) as [Y1 R1], (Hback _ _ H2 X2) as [Y2 R2]. by eapply (Hex g m1 m2 u p).
Qed.

Lemma client_step_ok s s' : client_step s s' → sys_ok s → sys_ok s'.
Proof using Type.
  destruct 1 as [w d held now fresh_id acls who compiles regex_match req resp d' held' Hhon Hhb Hheld | w d held held' Hsub | w d held now alive n d' Hsw | w d held w' Hfit' Hu' Hsame];
    intros Hs; pose proof Hs as [Hfit Hu Hok Hb Hex]; cbn in *.
  - pose proof (heartbeat_backed _ _ _ _ _ _ _ _ _ _ _ _ _ Hs Hhon Hhb Hheld) as Hb'.
    split; cbn; [done | done | | done | by eapply heartbeat_exclusive].
    exact (sv_ok _ _ _ _ _ _ (heartbeat_served now fresh_id w acls who id_le compiles regex_match Hfit _ _ _ _ Hok Hhb)).
  - split; cbn; [done | done | done | |].
    + intros k r u p t Hr Hh. apply (Hb k r); [done | by apply Hsub].
    + intros g m1 m2 u p R1 R2 X1 X2. apply (Hex g m1 m2 u p); cbn; [done | done | by apply Hsub | by apply Hsub].
  - destruct (expire_members_ok now id_le alive d Hok) as [Hok' Hgo]. rewrite Hsw in Hok', Hgo. cbn in *. split; cbn; [done | done | done | |].
    + intros k r u p t Hr Hh Ht. cbn in *. destruct (Hgo _ _ Hr) as (r0 & Hr0 & ->). by eapply Hb.
    + intros g m1 m2 u p [r1 R1] [r2 R2] X1 X2. cbn in *. destruct (Hgo _ _ R1) as (? & ? & _), (Hgo _ _ R2) as (? & ? & _).
      apply (Hex g m1 m2 u p); cbn; eauto.
  - split; cbn; [done | done | done | | done].
    intros k r u p t Hr Hh Ht. cbn in *. destruct (Hsame u t Ht) as [Ht'|Hno]; [by eapply Hb | by destruct (Hno k p)].
Qed.

Lemma client_steps_ok s s' : rtc client_step s s' → sys_ok s → sys_ok s'.
Proof using Type. induction 1; [done |]. intros. by eapply IHrtc, client_step_ok. Qed.

Definition start (w : World L) : Sys L := mk_sys w (mk_cgroups ∅ ∅) (λ _ _ _, False).

Lemma start_ok w : catalog_fits w → uuids_ok w → sys_ok (start w).
Proof using Type. intros Hf Hu. split; cbn; [done | done | apply no_members_ok | by intros ?????? | by intros ??????]. Qed.

(** C19. No partition has two owners.  Whatever order heartbeats, lost answers, dropped
    partitions, sweeps and changes of the catalog come in, two members of a group
    never hold the same partition: the broker hands a partition on only once its
    last holder has let go of it or is no longer a member. *)
Theorem no_partition_has_two_owners w s : catalog_fits w → uuids_ok w → rtc client_step (start w) s → exclusive s.
Proof using Type. intros Hf Hu Hs. apply so_exclusive. by eapply client_steps_ok, start_ok. Qed.

(** Requests and sweeps, one after the other, however they end, each over the catalog
    of its time. *)
Inductive table_step : CGroups → CGroups → Prop :=
| table_heartbeat now fresh_id w acls who compiles regex_match req d :
    catalog_fits w → table_step d (heartbeat now fresh_id w acls who id_le compiles regex_match req d).2
| table_sweep now alive d : table_step d (expire_members now id_le alive d).2.

Lemma table_steps_ok d d' : rtc table_step d d' → cgroups_ok d → cgroups_ok d'.
Proof using Type.
  intros Hd. induction Hd as [|d1 d2 d3 Hstep _ IH]; [done |]. intros Hok. apply IH.
  destruct Hstep as [now fresh_id w acls who compiles regex_match req d Hf | now alive d].
  - destruct (heartbeat _ _ _ _ _ _ _ _ req d) as [r d'] eqn:E. cbn.
    exact (sv_ok _ _ _ _ _ _ (heartbeat_served now fresh_id w acls who id_le compiles regex_match Hf _ _ _ _ Hok E)).
  - by apply expire_members_ok.
Qed.

(** The tables stay consistent under every sequence of requests, refused ones and
    failing ones included: grants and targets of different members of a group are
    disjoint and well-formed texts, every member belongs to a group, and
    [0 <= member epoch, assignment epoch <= group epoch], a 32-bit number. *)
Theorem consumer_group_invariant d : rtc table_step (mk_cgroups ∅ ∅) d → cgroups_ok d.
Proof using Type. intros Hd. by eapply table_steps_ok, no_members_ok. Qed.

End Clients.

(** ** A topic with two partitions and two members *)

Definition ask (member : string) (epoch : Z) (owned : option (list Z)) : CHeartbeat :=
  mk_cheartbeat "g" member epoch None None 300000 (Some ["orders"]) None None ((λ ps, [(uuid_for (w_next first_world), ps)]) <$> owned).
Definition run (req : CHeartbeat) (d : CGroups) : result Failure CHeartbeatResponse * CGroups :=
  heartbeat 0 "fresh" made_world open_acls nobody str_le (λ _, false) (λ _ _, false) req d.
Definition told_parts (r : result Failure CHeartbeatResponse) : option (Z * list (list Z)) :=
  match r with
  | Ok resp => Some (cr_epoch resp, (default [] (cr_assignment resp)).*2)
  | Err _ => None
  end.

Definition d_a : CGroups := (run (ask "a" 0 (Some [])) (mk_cgroups ∅ ∅)).2.
Definition d_b : CGroups := (run (ask "b" 0 (Some [])) d_a).2.
Definition d_a2 : CGroups := (run (ask "a" 1 None) d_b).2.
Definition d_b2 : CGroups := (run (ask "b" 0 None) d_a2).2.
Definition d_a3 : CGroups := (run (ask "a" 2 (Some [0])) d_b2).2.

Example handover :
  told_parts (run (ask "a" 0 (Some [])) (mk_cgroups ∅ ∅)).1 = Some (1, [[0; 1]]) ∧
  told_parts (run (ask "b" 0 (Some [])) d_a).1 = Some (0, []) ∧
  told_parts (run (ask "a" 1 None) d_b).1 = Some (2, [[0]]) ∧
  told_parts (run (ask "b" 0 None) d_a2).1 = Some (0, []) ∧
  told_parts (run (ask "a" 2 (Some [0])) d_b2).1 = Some (2, [[0]]) ∧
  told_parts (run (ask "b" 0 None) d_a3).1 = Some (2, [[1]]).
Proof. by vm_compute. Qed.

Lemma made_fits : catalog_fits made_world.
Proof.
  split.
  - intros i v H. assert (Hm : t_topics (w_tx made_world) = {[ 1 := ("orders"%string, 2) ]}) by by vm_compute.
    rewrite Hm in H. apply lookup_singleton_Some in H as [<- _]. split; lia.
  - intros i p H. assert (H1 : (i, p) ∈ dom (partitions (t_meta (w_tx made_world)))) by by apply elem_of_dom.
    assert (Hd : dom (partitions (t_meta (w_tx made_world))) = {[ (1, 0); (1, 1) ]} :> gset (Z * Z)) by by vm_compute.
    rewrite Hd, elem_of_union, !elem_of_singleton in H1. destruct H1 as [[= _ ->]|[= _ ->]]; split; lia.
Qed.

Lemma made_uuids : uuids_ok made_world.
Proof.
  assert (Hc : ∀ i v, w_cols made_world !! i = Some v → i = 1 ∧ v.1 = uuid_for 1).
  { intros i v H. assert (Hm : map_to_list (fst <$> w_cols made_world) = [(1, uuid_for 1)]) by (vm_compute; reflexivity).
    assert (Hin : (i, v.1) ∈ map_to_list (fst <$> w_cols made_world)) by (apply elem_of_map_to_list; by rewrite lookup_fmap, H).
    rewrite Hm in Hin. apply list_elem_of_singleton in Hin as [= -> ->]. done. }
  intros i u c H. apply Hc in H as [-> Hu]. cbn in Hu. subst u. split; [done |]. intros j c' Hj. by apply Hc in Hj as [-> _].
Qed.

(** The first member takes what it is told. *)
Definition resp_of (r : result Failure CHeartbeatResponse) : CHeartbeatResponse := match r with Ok resp => resp | Err _ => err_hb ErrorCode.NoError end.
Definition a_holds : Holdings := λ k u p,
  k = ("g", "a")%string ∧ listed (default [] (cr_assignment (resp_of (run (ask "a" 0 (Some [])) (mk_cgroups ∅ ∅)).1))) u p.

Lemma run_ok req d : is_ok (run req d).1 = true → run req d = (Ok (resp_of (run req d).1), (run req d).2).
Proof. by destruct (run req d) as [[|] ?]. Qed.

Lemma a_joins : is_ok (run (ask "a" 0 (Some [])) (mk_cgroups ∅ ∅)).1 = true.
Proof. by vm_compute. Qed.
Lemma b_joins : is_ok (run (ask "b" 0 (Some [])) d_a).1 = true.
Proof. by vm_compute. Qed.

Lemma two_joined : rtc (client_step str_le) (start made_world) (mk_sys made_world d_b a_holds).
Proof.
  apply (rtc_l _ _ (mk_sys made_world d_a a_holds)).
  - refine (step_heartbeat str_le made_world _ _ 0 "fresh" open_acls nobody (λ _, false) (λ _ _, false) (ask "a" 0 (Some [])) _ _ a_holds _ (run_ok _ _ a_joins) _).
    + split; [by intros _ u p [] | done | by intros tps _ u p []].
    + intros k u p [-> H]. right. split; [done | exact H].
  - apply rtc_once.
    refine (step_heartbeat str_le made_world _ _ 0 "fresh" open_acls nobody (λ _, false) (λ _ _, false) (ask "b" 0 (Some [])) _ _ a_holds _ (run_ok _ _ b_joins) _).
    + split; [intros _ u p [Hk _]; discriminate Hk | done | intros tps _ u p [Hk _]; discriminate Hk].
    + intros k u p H. by left.
Qed.

Lemma no_partition_has_two_owners_witness : exclusive (mk_sys made_world d_b a_holds) ∧ a_holds ("g", "a")%string (uuid_for 1) 1.
Proof.
  split; [exact (no_partition_has_two_owners str_le made_world _ made_fits made_uuids two_joined) |].
  split; [done |]. exists [0; 1]. split; [by vm_compute; constructor | repeat constructor].
Defined.

Lemma asks_reach reqs d : rtc (table_step (L := unit) str_le) d (foldl (λ d req, (run req d).2) d reqs).
Proof.
  revert d. induction reqs as [|req reqs IH]; intros d; [done |]. cbn [foldl]. eapply rtc_l; [| apply IH].
  apply (table_heartbeat str_le 0 "fresh" made_world), made_fits.
Qed.

Lemma consumer_group_invariant_witness : cgroups_ok d_b.
Proof.
  apply (consumer_group_invariant (L := unit) str_le d_b). apply (asks_reach [ask "a" 0 (Some []); ask "b" 0 (Some [])]).
Defined.
