(* ===== verification/ConsumerGroupConverge.v ===== *)
(** * Consumer groups: reconciliation ends

    Once the assignor has run and no member joins, leaves, expires or changes its
    subscription, one report from every member is enough: from then on each
    heartbeat brings its member the whole target and the epoch of the group.  A
    member whose clock for letting go has run out is fenced instead. *)

From stdpp Require Import gmap sorting strings pretty relations.
From S2P Require Import Prelude Errors Acl Group Pmeta Offsets Txn Config Topics Table ShareHandlers ConsumerGroup Assign ConsumerGroupSpec ConsumerGroupRun ConsumerGroupClients.

#[local] Open Scope Z_scope.

Section Converge.

Context {L : Type}.
Variables (fresh_id : string) (w : World L) (acls : AclCache) (who : Principal).
Variable id_le : string → string → Prop.
Context {id_dec : ∀ a b, Decision (id_le a b)}.
Variables (compiles : string → bool) (regex_match : string → string → bool).
Variable (g : string).
(** What each member reports, as topic ids and partitions. *)
Variable (reports : string → list (bytes * list Z)).
Hypothesis Hfit : catalog_fits w.

(** A heartbeat that changes nothing but what the member owns. *)
Definition steady (member : string) (epoch : Z) : CHeartbeat :=
  mk_cheartbeat g member epoch None None (-1) None None None (Some (reports member)).

(** The members may read the group, which is of this protocol, and report no more than a
    heartbeat may carry. *)
Hypothesis Hread : is_ok (check acls who Acl.Read Acl.Group g) = true.
Hypothesis Hproto : other_protocol w g = false.
Hypothesis Hbounds : ∀ member epoch, check_bounds (steady member epoch) = Ok tt.

Abbreviation hears now member row d :=
  (heartbeat now fresh_id w acls who id_le compiles regex_match (steady member (mb_epoch row)) d).
Abbreviation serve now member row d :=
  (serve_member now w acls who id_le compiles regex_match (steady member (mb_epoch row)) member (Some row) d).

(** A heartbeat of the member at a time, with the epoch it is in. *)
Definition beat (d : CGroups) (x : Z * string) : CGroups :=
  match cg_members d !! (g, x.2) with
  | Some row => (hears x.1 x.2 row d).2
  | None => d
  end.

(** Up to time [now] the target is current and no member's clock for letting go runs out;
    patterns match what they matched, and members report partitions of their targets. *)
Record quiet (now : Z) (d : CGroups) : Prop := mk_quiet {
  qt_ok : cgroups_ok d;
  qt_current : (epochs_of now g d).2 = true;
  qt_clock : ∀ m r, cg_members d !! (g, m) = Some r → m ≠ ""%string ∧ revoke_expired now r = false;
  qt_pattern : ∀ m r, cg_members d !! (g, m) = Some r →
    matched_topics w acls who id_le compiles regex_match (mb_regex r) = Ok (mb_matched r);
  qt_reports : ∀ m r, cg_members d !! (g, m) = Some r → reported w (reports m) ⊆ mb_target r }.

Lemma epochs_fst t now d : (epochs_of t g d).1 = (epochs_of now g d).1.
Proof using Type. unfold epochs_of. by destruct (cg_groups d !! g). Qed.

Lemma quiet_earlier t now d : t ≤ now → quiet now d → quiet t d.
Proof using Type.
  intros Ht [Hok Hcur Hcl Hpat Hrep]. split; [done | | | done | done].
  - revert Hcur. unfold epochs_of. destruct (cg_groups d !! g) as [row|]; [| done]. cbn. rewrite !andb_true_iff, !negb_true_iff. lia.
  - intros m r Hr. destruct (Hcl m r Hr) as [Hm He]. split; [done |]. revert He. unfold revoke_expired. destruct (mb_revoking r); [lia | done].
Qed.

(** The member holds, and is told to hold, nothing outside its target. *)
Definition settled (r : Member) : Prop := mb_owned r ⊆ mb_target r ∧ mb_granted r ⊆ mb_target r.

(** What a steady heartbeat leaves of the member's row. *)
Record beaten (m : string) (r r' : Member) : Prop := mk_beaten {
  bt_target : mb_target r' = mb_target r;
  bt_owned : mb_owned r' = reported w (reports m);
  bt_pattern : mb_regex r' = mb_regex r ∧ mb_matched r' = mb_matched r;
  bt_clock : mb_revoking r' = None;
  bt_settled : settled r' }.

Lemma stored_target_at d m : stored_target (load_members id_le g d) !! m = (λ r, list_to_set (mb_target r)) <$> cg_members d !! (g, m).
Proof using Type. apply (by_member id_le (λ r, list_to_set (mb_target r))). Qed.

(** The row a steady heartbeat starts from. *)
Definition upserted (now : Z) (m : string) (r : Member) : Member :=
  upsert_row now (steady m (mb_epoch r)) (Some (reported w (reports m))) (mb_regex r) (mb_matched r) (Some r).

(** A member of the group is admitted. *)
Lemma hears_serves now d m r : quiet now d → cg_members d !! (g, m) = Some r → hears now m r d = serve now m r d.
Proof using Hread Hproto Hbounds.
  intros Hq Hr. destruct (qt_clock _ _ Hq m r Hr) as [Hm Hcl]. destruct (ok_group _ (proj2 (qt_ok _ _ Hq)) _ _ _ Hr) as (row & Hrow & Hep).
  unfold heartbeat. rewrite Hbounds. cbn [ch_group steady]. destruct (check acls who Acl.Read Acl.Group g); [| done]. rewrite Hproto.
  cbn [ch_assignor ch_epoch steady default]. rewrite bool_decide_true by done. cbn [negb]. rewrite (proj2 (Z.ltb_ge _ _)) by lia.
  unfold join_or_continue. cbn [ch_member ch_subscribed ch_group ch_instance steady default forallb negb]. rewrite decide_False by done.
  replace (ensure_group now g d) with d by (unfold ensure_group, on_cgroups; rewrite Hrow; by destruct d).
  unfold bind. cbn [claim_instance negb]. unfold admit_member. rewrite Hr. cbn [ch_epoch steady]. rewrite Z.eqb_refl, andb_false_r, Hcl. done.
Qed.

Lemma serve_unfold now d m r : quiet now d → cg_members d !! (g, m) = Some r →
  let d1 := on_members <[(g, m) := upserted now m r]> d in
  let out := reconcile now w id_le g m (mb_epoch r) (Some (list_to_set (reported w (reports m)))) d1 in
  serve now m r d = (Ok (mk_cheartbeat_response ErrorCode.NoError (Some m) out.1.1 HEARTBEAT_INTERVAL_MS (Some out.1.2)), out.2).
Proof using Type.
  intros Hq Hr d1 out. unfold serve_member. cbn [ch_regex steady next_regex mbind option_bind].
  change (Some r ≫= mb_regex) with (mb_regex r). rewrite (qt_pattern _ _ Hq m r Hr).
  unfold group_changed. cbn [ch_subscribed steady]. rewrite !bool_decide_true by done. cbn [negb orb].
  unfold bind, ret, upsert_member. cbn [ch_group steady ch_partitions fmap option_fmap option_map].
  replace (on_members (λ ms, <[_ := _]> ms) d) with d1 by (unfold d1, on_members; by rewrite Hr).
  unfold out. by destruct (reconcile _ _ _ _ _ _ _ d1) as [[e asg] d2].
Qed.

Lemma serve_steady now d m r : quiet now d → cg_members d !! (g, m) = Some r →
  ∃ resp r', serve now m r d = (Ok resp, on_members <[(g, m) := r']> d) ∧ beaten m r r' ∧
    ((∀ m' r0, m' ≠ m → cg_members d !! (g, m') = Some r0 → settled r0) →
     cr_error resp = ErrorCode.NoError ∧ cr_epoch resp = (epochs_of now g d).1 ∧ mb_epoch r' = (epochs_of now g d).1 ∧
     cr_assignment resp = Some (to_wire w (omap parse_tp (to_vec (list_to_set (mb_target r))))) ∧
     (∀ x, x ∈ mb_granted r' ↔ x ∈ mb_target r)).
Proof using Type.
  intros Hq Hr. rewrite serve_unfold by done. set (r1 := upserted now m r). set (d1 := on_members <[(g, m) := r1]> d).
  assert (H1 : cg_members d1 !! (g, m) = Some r1) by (unfold d1; cbn; by rewrite lookup_insert_eq).
  unfold reconcile. change (epochs_of now g d1) with (epochs_of now g d). unfold current_target.
  change (epochs_of now g d1) with (epochs_of now g d). rewrite (qt_current _ _ Hq). cbn [fst snd].
  set (T := stored_target (load_members id_le g d1)). set (grantable := _ ∖ _). rewrite (granted_to_elem id_le g d1 m r1 H1).
  assert (Hmine : T !! m = Some (list_to_set (mb_target r))) by (unfold T; rewrite stored_target_at, H1; done).
  assert (Hsub : grantable ⊆ list_to_set (mb_target r)). { unfold grantable. rewrite Hmine. cbn. apply subseteq_difference_l. done. }
  set (granted := _ ∪ grantable). assert (Hin : granted ⊆ list_to_set (mb_target r)).
  { unfold granted. intros x. rewrite elem_of_union, elem_of_intersection, !elem_of_list_to_set.
    intros [[_ Hx]|Hx]; [by apply (qt_reports _ _ Hq m r Hr) | apply Hsub in Hx; by apply elem_of_list_to_set in Hx]. }
  match goal with |- context [if ?b then (epochs_of now g d).1 else ?e] => set (epoch := if b then (epochs_of now g d).1 else e) end.
  set (rv := negb _). eexists _, (reconciled now epoch (to_vec granted) rv r1). split_and!.
  - f_equal. unfold d1, on_members. cbn. f_equal. by rewrite alter_insert_eq.
  - split; [done | done | done | |].
    { cbn. unfold rv. rewrite bool_decide_true by (by rewrite Hmine). done. }
    split; cbn; intros x; [apply (qt_reports _ _ Hq m r Hr) |].
    rewrite elem_of_to_vec. intros Hx. apply Hin in Hx. by apply elem_of_list_to_set in Hx.
  - intros Hset. assert (Hall : grantable = list_to_set (mb_target r)).
    { apply set_eq. intros x. split; [by apply Hsub |]. intros Hx. apply grantable_elem. unfold may_grant. rewrite Hmine. split; [done |].
      intros m' r0 Hr0 Ho. destruct (decide (m' = m)) as [->|Hne]; [by rewrite Hmine |]. unfold T. rewrite stored_target_at, Hr0. cbn.
      apply elem_of_list_to_set. unfold d1 in Hr0. cbn in Hr0. rewrite lookup_insert_ne in Hr0 by congruence.
      destruct (Hset m' r0 Hne Hr0) as [S1 S2]. destruct Ho; eauto. }
    assert (Hep : epoch = (epochs_of now g d).1). { unfold epoch. rewrite Hmine, Hall. cbn. by rewrite Nat.eqb_refl. }
    split_and!; [done | exact Hep | exact Hep | by rewrite Hall |]. intros x. cbn. rewrite elem_of_to_vec. split.
    + intros Hx. apply Hin in Hx. by apply elem_of_list_to_set in Hx.
    + intros Hx. unfold granted. rewrite Hall. apply elem_of_union. right. by apply elem_of_list_to_set.
Qed.

Lemma beat_quiet now d t m : t ≤ now → quiet now d → let d' := beat d (t, m) in
  quiet now d' ∧ (∀ m', m' ≠ m → cg_members d' !! (g, m') = cg_members d !! (g, m')) ∧ epochs_of now g d' = epochs_of now g d ∧
  (∀ r, cg_members d !! (g, m) = Some r → ∃ r', cg_members d' !! (g, m) = Some r' ∧ beaten m r r') ∧
  (cg_members d !! (g, m) = None → d' = d).
Proof using Hfit Hread Hproto Hbounds.
  intros Ht Hq. unfold beat. cbn [fst snd]. destruct (cg_members d !! (g, m)) as [r|] eqn:Hr; [| done].
  pose proof (quiet_earlier t now d Ht Hq) as Hqt. rewrite (hears_serves t d m r Hqt Hr).
  destruct (serve_steady t d m r Hqt Hr) as (resp & r' & Hs & Hb & _). pose proof Hs as Hs'. rewrite Hs. cbn [snd].
  destruct (ok_group _ (proj2 (qt_ok _ _ Hq)) _ _ _ Hr) as (row & Hrow & _). split_and!; [split | ..].
  - refine (proj1 (serve_member_spec t w acls who id_le compiles regex_match Hfit (steady m (mb_epoch r)) m (Some r) d _ _ row (qt_ok _ _ Hq) Hr Hrow Hs')).
  - apply (qt_current _ _ Hq).
  - intros m' r0. cbn. rewrite lookup_insert_Some. intros [[[= <-] <-]|[_ H]]; [| by apply (qt_clock _ _ Hq m')].
    split; [by apply (qt_clock _ _ Hq m r) |]. unfold revoke_expired. by rewrite (bt_clock _ _ _ Hb).
  - intros m' r0. cbn. rewrite lookup_insert_Some. intros [[[= <-] <-]|[_ H]]; [| by apply (qt_pattern _ _ Hq m')].
    destruct (bt_pattern _ _ _ Hb) as [-> ->]. by apply (qt_pattern _ _ Hq m).
  - intros m' r0. cbn. rewrite lookup_insert_Some. intros [[[= <-] <-]|[_ H]]; [| by apply (qt_reports _ _ Hq m')].
    rewrite (bt_target _ _ _ Hb). by apply (qt_reports _ _ Hq m).
  - intros m' Hne. cbn. by rewrite lookup_insert_ne by congruence.
  - done.
  - intros r0 [= <-]. exists r'. cbn. by rewrite lookup_insert_eq.
  - done.
Qed.

(** After a round every member heard from is settled, and the targets are the same. *)
Lemma round_settles now l d : Forall (λ x, x.1 ≤ now) l → quiet now d → let d' := foldl beat d l in
  quiet now d' ∧ epochs_of now g d' = epochs_of now g d ∧ (∀ m, cg_members d !! (g, m) = None → cg_members d' !! (g, m) = None) ∧
  ∀ m r, cg_members d !! (g, m) = Some r → ∃ r', cg_members d' !! (g, m) = Some r' ∧ mb_target r' = mb_target r ∧ (m ∈ l.*2 ∨ settled r → settled r').
Proof using Hfit Hread Hproto Hbounds.
  revert d. induction l as [|[t m0] l IH]; intros d Ht Hq; cbn.
  { split_and!; [done | done | done |]. intros m r Hr. exists r. split_and!; [done | done |]. intros [H|H]; [by apply elem_of_nil in H | done]. }
  apply Forall_cons in Ht as [Ht Hts]. destruct (beat_quiet now d t m0 Ht Hq) as (Hq1 & Hoth & Hep & Hme & Hno).
  destruct (IH _ Hts Hq1) as (Hq2 & Hep2 & Hn2 & Hr2). split_and!; [done | by rewrite Hep2 | |].
  { intros m Hm. apply Hn2. destruct (decide (m = m0)) as [->|Hne]; [by rewrite Hno | by rewrite Hoth]. }
  intros m r Hr. destruct (decide (m = m0)) as [->|Hne].
  - destruct (Hme r Hr) as (r1 & H1 & Hb). destruct (Hr2 _ _ H1) as (r2 & H2 & Htg & Hs). exists r2.
    rewrite Htg, (bt_target _ _ _ Hb). split_and!; [done | done |]. intros _. apply Hs. right. apply (bt_settled _ _ _ Hb).
  - destruct (Hr2 m r) as (r2 & H2 & Htg & Hs); [by rewrite Hoth |]. exists r2. split_and!; [done | done |].
    intros [Hin|Hset]; apply Hs; [left | by right]. by apply elem_of_cons in Hin as [->|].
Qed.

(** C23. Reconciliation ends.  When no member joins, leaves or expires, subscriptions and
    catalog stay as they are, the target is current, and up to time [now] no member's
    clock for letting go runs out: once every member has sent a heartbeat reporting what
    it holds of its target, in whatever order, however often and at whatever times up to
    [now], the heartbeat of any member at [now] is answered without an error, assigns it
    its whole target and brings it to the epoch of the group. *)
Theorem reconciliation_converges now d l m r : quiet now d → Forall (λ x, x.1 ≤ now) l →
  (∀ m' r', cg_members d !! (g, m') = Some r' → m' ∈ l.*2) → cg_members d !! (g, m) = Some r →
  let d' := foldl beat d l in
  ∃ r0 resp r1, cg_members d' !! (g, m) = Some r0 ∧ hears now m r0 d' = (Ok resp, on_members <[(g, m) := r1]> d') ∧
    cr_error resp = ErrorCode.NoError ∧ cr_epoch resp = (epochs_of now g d).1 ∧ mb_epoch r1 = (epochs_of now g d).1 ∧
    cr_assignment resp = Some (to_wire w (omap parse_tp (to_vec (list_to_set (mb_target r))))) ∧
    (∀ x, x ∈ mb_granted r1 ↔ x ∈ mb_target r).
Proof using Hfit Hread Hproto Hbounds.
  intros Hq Ht Hl Hr d'. destruct (round_settles now l d Ht Hq) as (Hq' & Hep & Hnone & Hrows). fold d' in Hq', Hep, Hnone, Hrows.
  destruct (Hrows m r Hr) as (r0 & H0 & Htg & _). destruct (serve_steady now d' m r0 Hq' H0) as (resp & r1 & Hs & _ & Hfull).
  exists r0, resp, r1. rewrite (hears_serves now d' m r0 Hq' H0), <- Htg, <- Hep. split; [done |]. split; [done |]. apply Hfull.
  intros m' r' Hne Hr'. destruct (cg_members d !! (g, m')) as [r2|] eqn:E; [| by rewrite Hnone in Hr'].
  destruct (Hrows m' r2 E) as (r3 & H3 & _ & Hset). rewrite Hr' in H3. injection H3 as <-. apply Hset. left. by eapply Hl.
Qed.

End Converge.

(** ** The handover of ConsumerGroupClients.v *)

(** The first member has been told to give up partition 1 and reports 0 only. *)
Definition owns (m : string) : list (bytes * list Z) := if decide (m = "a"%string) then [(uuid_for 1, [0])] else [].

Definition rows_fine (d : CGroups) : bool :=
  forallb (λ e : string * string * Member,
    bool_decide (mb_regex e.2 = None ∧ mb_matched e.2 = [] ∧ e.1.2 ≠ ""%string ∧ revoke_expired 4000 e.2 = false) &&
    forallb (λ x, bool_decide (x ∈ mb_target e.2)) (reported made_world (owns e.1.2))) (map_to_list (cg_members d)).

Lemma handover_quiet : quiet made_world open_acls nobody str_le (λ _, false) (λ _ _, false) "g" owns 4000 d_b2.
Proof.
  assert (Hfine : rows_fine d_b2 = true) by (vm_compute; reflexivity).
  assert (Hrow : ∀ m r, cg_members d_b2 !! ("g"%string, m) = Some r →
    (mb_regex r = None ∧ mb_matched r = [] ∧ m ≠ ""%string ∧ revoke_expired 4000 r = false) ∧ reported made_world (owns m) ⊆ mb_target r).
  { intros m r H. unfold rows_fine in Hfine. rewrite forallb_forall in Hfine. specialize (Hfine ("g"%string, m, r)).
    rewrite <- list_elem_of_In, elem_of_map_to_list in Hfine. specialize (Hfine H). apply andb_true_iff in Hfine as [H1 H2].
    apply bool_decide_eq_true in H1. split; [exact H1 |]. cbn in H2. intros x Hx. rewrite forallb_forall in H2.
    apply list_elem_of_In, H2 in Hx. by apply bool_decide_eq_true in Hx. }
  split.
  - eapply (table_steps_ok (L := unit) str_le); [| apply no_members_ok].
    apply (asks_reach [ask "a" 0 (Some []); ask "b" 0 (Some []); ask "a" 1 None; ask "b" 0 None]).
  - vm_compute. reflexivity.
  - intros m r H. by destruct (Hrow m r H) as ((_ & _ & ?) & _).
  - intros m r H. by destruct (Hrow m r H) as ((-> & -> & _) & _).
  - intros m r H. by destruct (Hrow m r H) as (_ & ?).
Qed.

Definition row_of (m : string) (d : CGroups) : Member := default (adopted 0 (mk_cmember 0 None None 0 [] [] [] [] None false 0 None [])) (cg_members d !! ("g"%string, m)).

(** Both report, at different times. *)
Definition reporting : list (Z * string) := [(1000, "b"); (2500, "a"); (3000, "b")]%string.

Lemma all_there m r : cg_members d_b2 !! ("g"%string, m) = Some r → m ∈ reporting.*2.
Proof.
  intros H. assert (Hin : ("g"%string, m) ∈ (map_to_list (cg_members d_b2)).*1).
  { apply list_elem_of_fmap. exists ("g"%string, m, r). split; [done |]. by apply elem_of_map_to_list. }
  assert (Hall : forallb (λ k : string * string, bool_decide (k.2 ∈ reporting.*2)) (map_to_list (cg_members d_b2)).*1 = true) by (vm_compute; reflexivity).
  rewrite forallb_forall in Hall. apply list_elem_of_In, Hall in Hin. by apply bool_decide_eq_true in Hin.
Qed.

Lemma b_there : cg_members d_b2 !! ("g"%string, "b"%string) = Some (row_of "b" d_b2).
Proof. vm_compute. reflexivity. Qed.

Lemma owns_fits member epoch : check_bounds (steady "g" owns member epoch) = Ok tt.
Proof. unfold check_bounds, steady, owns. cbn [ch_subscribed ch_partitions]. by case_decide. Qed.

Lemma reconciliation_converges_witness : ∃ r1, ∀ x, x ∈ mb_granted r1 ↔ x ∈ mb_target (row_of "b" d_b2).
Proof.
  assert (Ht : Forall (λ x, x.1 ≤ 4000) reporting) by (repeat constructor; cbn; lia).
  destruct (reconciliation_converges "fresh" made_world open_acls nobody str_le (λ _, false) (λ _ _, false) "g" owns made_fits eq_refl eq_refl owns_fits
    4000 d_b2 reporting "b" (row_of "b" d_b2) handover_quiet Ht all_there b_there) as (_ & _ & r1 & _ & _ & _ & _ & _ & _ & H).
  exists r1. exact H.
Defined.

(** ** Where the code does not do what it means to *)

(** The last member leaves: nothing writes the state of the group, which goes on
    being reported as it was; only the sweep writes [Empty]. *)
Theorem last_leave_keeps_state now g m d row :
  cg_groups d !! g = Some row → is_Some (cg_members d !! (g, m)) → cg_epoch row < i32_max →
  let d' := (leave_group now g m (-1) d).2 in
  cg_members d' = delete (g, m) (cg_members d) ∧ cg_state <$> cg_groups d' !! g = Some (cg_state row).
Proof.
  intros Hg [r Hr] Hlt. unfold leave_group. cbn. rewrite Hr. unfold bump_epoch. cbn. rewrite Hg.
  rewrite (proj2 (Z.eqb_neq _ _)) by lia. cbn. by rewrite lookup_insert_eq.
Qed.

(** A member joins claiming a partition it was never granted.  The owner is told to
    drop it, nobody gets it, and the claimant, who is not in the way of its own
    grants, is never put on the clock that fences a member that does not let go. *)
Definition d_claim : CGroups := (run (ask "b" 0 (Some [0])) d_a).2.
Definition d_claim2 : CGroups := (run (ask "a" 1 None) d_claim).2.
Definition d_claim3 : CGroups := (run (ask "b" 0 (Some [0])) d_claim2).2.

Example claim_is_believed :
  told_parts (run (ask "a" 1 None) d_claim).1 = Some (1, []) ∧
  told_parts (run (ask "b" 0 (Some [0])) d_claim2).1 = Some (0, []) ∧
  mb_target (row_of "a" d_claim3) = ["1:0"%string] ∧ mb_revoking (row_of "b" d_claim3) = None.
Proof. by vm_compute. Qed.
