(* ===== verification/OffsetHandlers.v ===== *)
(** * extension/src/handlers/offsets.rs: OffsetCommit, OffsetFetch, OffsetDelete

    The handlers of committed offsets, over the tables of Group.v and the catalog of
    Topics.v; [now] is the database clock.  Who may commit is in Offsets.v.  The
    tables do not fail here: what [commit_and_report] and [offset_delete] answer
    when the database does is not modelled. *)

From stdpp Require Import gmap sorting strings.
From S2P Require Import Prelude Errors Acl Group Producer Offsets Txn Config Topics ShareHandlers.

#[local] Open Scope Z_scope.

Definition OFFSET_FETCH_BATCHED_FROM : Z := 8.
Definition NO_OFFSET : Z := -1.
Definition MAX_METADATA_BYTES : Z := 4096.
Definition MAX_OFFSET_PARTITIONS : Z := 4096.

Record CommitTopic : Type := mk_commit_topic {
  ct_name : string;
  ct_topic_uuid : bytes;
  ct_parts : list CommitPartition }.
Record OffsetCommitRequest : Type := mk_offset_commit {
  om_committer : Committer;
  om_topics : list CommitTopic }.
Record CommitTopicResponse : Type := mk_commit_response {
  cs_name : string;
  cs_uuid : bytes;
  cs_parts : list (Z * ErrorCode.t) }.

Record FetchedOffset : Type := mk_fetched {
  fo_index : Z;
  fo_offset : Z;
  fo_leader_epoch : Z;
  fo_metadata : option string;
  fo_error : ErrorCode.t }.

Definition total {A} (inner : A → Z) (l : list A) : Z := foldr Z.add 0 (inner <$> l).
Definition count_of {A} (l : list A) : Z := Z.of_nat (length l).

Section Offsets.

Context {L : Type}.
Variables (now : Z) (acls : AclCache) (who : Principal).
Variable id_le : string → string → Prop.
Context {id_dec : ∀ a b, Decision (id_le a b)}.

Implicit Types w : World L.

(** ** Committing *)

Definition on_offsets (f : gmap (string * Z * Z) OffsetRow → gmap (string * Z * Z) OffsetRow) w : World L :=
  on_tx (on_groups (λ g, mk_groups (groups g) (gmembers g) (f (goffsets g)))) w.

Definition commit_one (group : string) (topic_id : Z) (p : CommitPartition) : World L → World L :=
  on_offsets <[(group, topic_id, cp_index p) := offset_row now (cp_staged p)]>.

Definition oversized (p : CommitPartition) : bool :=
  match so_metadata (cp_staged p) with
  | Some m => MAX_METADATA_BYTES <? Z.of_nat (String.length m)
  | None => false
  end.

(** The verdict of the group is asked for once, by the first partition that needs it. *)
Definition ask_verdict (c : Committer) (version : Z) (v : option GroupVerdict) w : GroupVerdict * World L :=
  match v with
  | Some v => (v, w)
  | None =>
      let '(v, g) := validate_commit id_le now c false version (t_consumers (w_tx w)) (t_groups (w_tx w)) in
      (v, on_tx (on_groups (λ _, g)) w)
  end.

Definition commit_partition (c : Committer) (version : Z) (denied : option ErrorCode.t) (resolved : option ResolvedTopic)
    (count : Z) (st : option GroupVerdict * World L) (p : CommitPartition) : (Z * ErrorCode.t) * (option GroupVerdict * World L) :=
  let '(v, w) := st in
  match denied with
  | Some code => ((cp_index p, code), st)
  | None =>
      match resolved with
      | None => ((cp_index p, ErrorCode.UnknownTopicOrPartition), st)
      | Some r =>
          if (cp_index p <? 0) || (count <=? cp_index p) then ((cp_index p, ErrorCode.UnknownTopicOrPartition), st)
          else
            let '(verdict, w) := ask_verdict c version v w in
            let code :=
              match verdict with
              | Refuse code => code
              | _ => if oversized p then ErrorCode.OffsetMetadataTooLarge else code_for verdict (rt_topic_id r) (cp_index p)
              end in
            let committed := bool_decide (code = ErrorCode.NoError) && match verdict with Refuse _ => false | _ => true end in
            ((cp_index p, code),
             (Some verdict, if committed then commit_one (c_group c) (rt_topic_id r) p w else w))
      end
  end.

Definition topic_denied (group_denied : option ErrorCode.t) (name : string) : option ErrorCode.t :=
  match group_denied with
  | Some code => Some code
  | None => match Acl.check acls who Acl.Read Acl.Topic name with Err code => Some code | Ok _ => None end
  end.

Definition commit_topic (c : Committer) (version : Z) (group_denied : option ErrorCode.t)
    (st : option GroupVerdict * World L) (t : CommitTopic) : CommitTopicResponse * (option GroupVerdict * World L) :=
  let denied := topic_denied group_denied (ct_name t) in
  let resolved := resolve_topic (ct_name t) (ct_topic_uuid t) st.2 in
  let count := match resolved, denied with Some r, None => partition_count (rt_topic_id r) (w_tx st.2) | _, _ => 0 end in
  let '(ps, st) := map_state (commit_partition c version denied resolved count) st (ct_parts t) in
  (mk_commit_response (match resolved with Some r => rt_name r | None => ct_name t end)
     (match resolved with Some r => rt_uuid r | None => ct_topic_uuid t end) ps, st).

Definition offset_commit (req : OffsetCommitRequest) (version : Z) : ST (World L) HandlerError (list CommitTopicResponse) := λ w,
  let c := om_committer req in
  let group_denied := match Acl.check acls who Acl.Read Acl.Group (c_group c) with Err code => Some code | Ok _ => None end in
  let parts := total (λ t, count_of (ct_parts t)) (om_topics req) in
  if MAX_OFFSET_PARTITIONS <? count_of (om_topics req)
  then (Err (TooLarge "offset commit topic list" (count_of (om_topics req))), w)
  else if MAX_OFFSET_PARTITIONS <? parts then (Err (TooLarge "offset commit partition list" parts), w)
  else
    let '(rs, (_, w)) := map_state (commit_topic c version group_denied) (None, w) (om_topics req) in
    (Ok rs, w).

(** ** Fetching *)

(** The rows of a group in a topic. *)
Definition committed_for_topic (group : string) (topic_id : Z) w : gmap Z OffsetRow :=
  list_to_map (omap (λ e : string * Z * Z * OffsetRow, if decide (e.1.1 = (group, topic_id)) then Some (e.1.2, e.2) else None)
    (map_to_list (goffsets (t_groups (w_tx w))))).

Definition committed_topics (group : string) w : list (string * Z * list Z) :=
  omap (λ t : Z * (string * Z),
    match merge_sort (≤) (map_to_list (committed_for_topic group t.1 w)).*1 with
    | [] => None
    | ps => Some (t.2.1, t.1, ps)
    end) (map_to_list (t_topics (w_tx w))).

(** Whether an open transaction has an offset staged there. *)
Definition unstable (group : string) (topic_id index : Z) w : bool :=
  existsb (λ e : Z * gmap (string * Z * Z) Staged,
    is_ongoing e.1 (w_tx w) && bool_decide (is_Some (e.2 !! (group, topic_id, index)))) (map_to_list (t_staged (w_tx w))).

Definition fetch_partition (group : string) (require_stable : bool) (topic_id : Z) w (p : Z) : FetchedOffset :=
  if require_stable && unstable group topic_id p w
  then mk_fetched p NO_OFFSET (-1) (Some ""%string) ErrorCode.UnstableOffsetCommit
  else match committed_for_topic group topic_id w !! p with
       | Some r => mk_fetched p (of_offset r) (of_leader_epoch r) (Some (default ""%string (of_metadata r))) ErrorCode.NoError
       | None => mk_fetched p NO_OFFSET (-1) (Some ""%string) ErrorCode.NoError
       end.

Definition resolve_requested (l : list (string * list Z)) w : list (string * Z * list Z) :=
  (λ t : string * list Z, (t.1, default 0 (topic_id_by_name t.1 (w_tx w)), t.2)) <$> l.

Definition fetch_topics (group : string) (requested : option (list (string * list Z))) (require_stable : bool) w
    : result HandlerError (list (string * list FetchedOffset)) :=
  let? wanted :=
    match requested with
    | Some l => if MAX_OFFSET_PARTITIONS <? count_of l then Err (TooLarge "offset fetch topic list" (count_of l))
                else Ok (resolve_requested l w)
    | None => Ok (committed_topics group w)
    end in
  let parts := total (λ t : string * Z * list Z, count_of t.2) wanted in
  if MAX_OFFSET_PARTITIONS <? parts then Err (TooLarge "offset fetch partition list" parts)
  else Ok ((λ t : string * Z * list Z, (t.1.1, fetch_partition group require_stable t.1.2 w <$> t.2)) <$> wanted).

(** From version 8: by group, each topic with its uuid. *)
Definition fetch_topics_v8 (group : string) (requested : option (list (string * list Z))) (require_stable : bool) w
    : result HandlerError (list (string * bytes * list FetchedOffset)) :=
  let? topics := fetch_topics group requested require_stable w in
  Ok ((λ t : string * list FetchedOffset,
    let uuid := match topic_id_by_name t.1 (w_tx w) ≫= λ _, resolve_topic t.1 no_uuid w with
                | Some r => rt_uuid r
                | None => no_uuid
                end in (t.1, uuid, t.2)) <$> topics).

Record FetchedGroup : Type := mk_fetched_group {
  fg_group : string;
  fg_error : ErrorCode.t;
  fg_topics : list (string * bytes * list FetchedOffset) }.
(** The two shapes of the answer. *)
Inductive OffsetFetchResponse : Type :=
| FetchedTopics (error : ErrorCode.t) (topics : list (string * list FetchedOffset))
| FetchedGroups (groups : list FetchedGroup).

Fixpoint fetch_groups (require_stable : bool) w (gs : list (string * option (list (string * list Z))))
    : result HandlerError (list FetchedGroup) :=
  match gs with
  | [] => Ok []
  | (g, requested) :: gs' =>
      let? one := match Acl.check acls who Acl.Read Acl.Group g with
                  | Err code => Ok (mk_fetched_group g code [])
                  | Ok _ => let? topics := fetch_topics_v8 g requested require_stable w in Ok (mk_fetched_group g ErrorCode.NoError topics)
                  end in
      let? rest := fetch_groups require_stable w gs' in Ok (one :: rest)
  end.

Definition offset_fetch (version : Z) (group : string) (topics : option (list (string * list Z)))
    (gs : list (string * option (list (string * list Z)))) (require_stable : bool) w : result HandlerError OffsetFetchResponse :=
  if version <? OFFSET_FETCH_BATCHED_FROM then
    match Acl.check acls who Acl.Read Acl.Group group with
    | Err code => Ok (FetchedTopics code [])
    | Ok _ => let? ts := fetch_topics group topics require_stable w in Ok (FetchedTopics ErrorCode.NoError ts)
    end
  else
    let? _ := check_admin_len "offset fetch group list" (count_of gs) in
    let? gs := fetch_groups require_stable w gs in Ok (FetchedGroups gs).

(** ** Deleting *)

Definition delete_partition (group : string) (denied : option ErrorCode.t) (has_members : bool) (topic_id : option Z)
    w (index : Z) : (Z * ErrorCode.t) * World L :=
  match denied with
  | Some code => ((index, code), w)
  | None =>
      if has_members then ((index, ErrorCode.GroupSubscribedToTopic), w)
      else match topic_id with
           | Some id => ((index, ErrorCode.NoError), on_tx (on_groups (λ g, (delete_offset group id index g).2)) w)
           | None => ((index, ErrorCode.NoError), w)
           end
  end.

Definition offset_delete (group : string) (topics : list (string * list Z))
    : ST (World L) HandlerError (ErrorCode.t * list (string * list (Z * ErrorCode.t))) := λ w,
  match Acl.check acls who Acl.Delete Acl.Group group with
  | Err code => (Ok (code, []), w)
  | Ok _ =>
  match check_admin_len "offset delete topic list" (count_of topics) with
  | Err e => (Err e, w)
  | Ok _ =>
      let parts := total (λ t : string * list Z, count_of t.2) topics in
      if MAX_OFFSET_PARTITIONS <? parts then (Err (TooLarge "offset delete partition list" parts), w)
      else
        let '(exists_, has_members) := existence id_le group (t_groups (w_tx w)) in
        if negb exists_ then (Ok (ErrorCode.GroupIdNotFound, []), w)
        else
          let '(rs, w) := map_state (λ w t,
            let denied := match Acl.check acls who Acl.Delete Acl.Topic t.1 with Err code => Some code | Ok _ => None end in
            let '(ps, w) := map_state (delete_partition group denied has_members (topic_id_by_name t.1 (w_tx w))) w t.2 in
            ((t.1, ps), w)) w topics in
          (Ok (ErrorCode.NoError, rs), w)
  end
  end.

End Offsets.
