(* ===== verification/OffsetSpec.v ===== *)
(** * Committed offsets: what is stored and what is read back

    [offset_commit] asks for the group's verdict lazily, in the middle of a walk that
    changes the tables the verdict is read from.  It is the same as asking first: the
    reference definition below.  From it follow what a commit stores, that a refused
    member stores nothing, and that a fetch reads back what was committed. *)

From stdpp Require Import gmap sorting strings.
From S2P Require Import Prelude Errors Acl Group Producer Offsets Txn Config Topics ShareHandlers OffsetHandlers.

#[local] Open Scope Z_scope.

Lemma map_state_map {A B X} (f : X → A → B * X) (inv : list A → X → Prop) (h : A → B) l :
  ∀ done x, inv done x → (∀ done x a, inv done x → (f x a).1 = h a ∧ inv (done ++ [a]) (f x a).2) →
  (map_state f x l).1 = h <$> l ∧ inv (done ++ l) (map_state f x l).2.
Proof.
  induction l as [|a l IH]; intros done x Hx Hf; cbn [map_state]; [by rewrite app_nil_r |].
  destruct (Hf done x a Hx) as [Hb Hi]. destruct (f x a) as [b x1]. cbn [fst snd] in *. subst b.
  destruct (IH _ _ Hi Hf) as [H1 H2]. destruct (map_state f x1 l) as [bs x2]. cbn [fst snd] in *. subst bs.
  by rewrite <- app_assoc in H2.
Qed.

Section Reference.

Context {L : Type}.
Variables (now : Z) (acls : AclCache) (who : Principal).
Variable id_le : string → string → Prop.
Context {id_dec : ∀ a b, Decision (id_le a b)}.
Variables (c : Committer) (version : Z) (w0 : World L).

Implicit Types w : World L.

(** The verdict on the committer, and the tables once it has been asked for. *)
Definition verdict_on : GroupVerdict := (ask_verdict now id_le c version None w0).1.
Definition asked : World L := (ask_verdict now id_le c version None w0).2.

Definition group_denied : option ErrorCode.t :=
  match Acl.check acls who Acl.Read Acl.Group (c_group c) with Err code => Some code | Ok _ => None end.
Definition denied_at (t : CommitTopic) : option ErrorCode.t := topic_denied acls who group_denied (ct_name t).
Definition resolved_at (t : CommitTopic) : option ResolvedTopic := resolve_topic (ct_name t) (ct_topic_uuid t) w0.
Definition count_at (t : CommitTopic) : Z :=
  match resolved_at t, denied_at t with Some r, None => partition_count (rt_topic_id r) (w_tx w0) | _, _ => 0 end.

(** The topic id of an entry that gets as far as the verdict. *)
Definition reaches (e : CommitTopic * CommitPartition) : option Z :=
  match denied_at e.1, resolved_at e.1 with
  | None, Some r => if (cp_index e.2 <? 0) || (count_at e.1 <=? cp_index e.2) then None else Some (rt_topic_id r)
  | _, _ => None
  end.
Definition entry_code (e : CommitTopic * CommitPartition) : ErrorCode.t :=
  match denied_at e.1, reaches e with
  | Some code, _ => code
  | None, None => ErrorCode.UnknownTopicOrPartition
  | None, Some id =>
      match verdict_on with
      | Refuse code => code
      | v => if oversized e.2 then ErrorCode.OffsetMetadataTooLarge else code_for v id (cp_index e.2)
      end
  end.
Definition refused : bool := match verdict_on with Refuse _ => true | _ => false end.

(** The entries that are stored, with their topic ids. *)
Definition accepted_of (e : CommitTopic * CommitPartition) : option (Z * CommitPartition) :=
  id ← reaches e;
  if decide (entry_code e = ErrorCode.NoError ∧ refused = false) then Some (id, e.2) else None.

Definition store_all (l : list (Z * CommitPartition)) w : World L := foldl (λ w e, commit_one now (c_group c) e.1 e.2 w) w l.

Definition entries (ts : list CommitTopic) : list (CommitTopic * CommitPartition) := t ← ts; (t,.) <$> ct_parts t.

(** The tables after a request: touched only when some entry got to the verdict. *)
Definition stored (l : list (CommitTopic * CommitPartition)) : World L :=
  if decide (omap reaches l = []) then w0 else store_all (omap accepted_of l) asked.

Definition reference_response (t : CommitTopic) : CommitTopicResponse :=
  mk_commit_response (match resolved_at t with Some r => rt_name r | None => ct_name t end)
    (match resolved_at t with Some r => rt_uuid r | None => ct_topic_uuid t end)
    ((λ p, (cp_index p, entry_code (t, p))) <$> ct_parts t).

(** ** The walk *)

Definition walked (l : list (CommitTopic * CommitPartition)) (st : option GroupVerdict * World L) : Prop :=
  st.1 = (if decide (omap reaches l = []) then None else Some verdict_on) ∧ st.2 = stored l.

Lemma catalog_kept l : t_topics (w_tx (stored l)) = t_topics (w_tx w0) ∧ w_cols (stored l) = w_cols w0.
Proof using Type.
  unfold stored. case_decide; [done |]. assert (Ha : t_topics (w_tx asked) = t_topics (w_tx w0) ∧ w_cols asked = w_cols w0).
  { unfold asked, ask_verdict. by destruct (validate_commit _ _ _ _ _ _ _). }
  revert Ha. unfold store_all. generalize asked. induction (omap accepted_of l) as [|e es IH]; intros w Hw; [done |]. cbn [foldl]. by apply IH.
Qed.

Lemma resolve_kept l name uuid : resolve_topic name uuid (stored l) = resolve_topic name uuid w0.
Proof using Type.
  destruct (catalog_kept l) as [H1 H2]. unfold resolve_topic, topic_by_uuid, topic_id_by_name, topic_name_by_id. by rewrite H1, H2.
Qed.

Lemma omap_snoc {A B} (f : A → option B) l a : omap f (l ++ [a]) = omap f l ++ (match f a with Some b => [b] | None => [] end).
Proof using Type. rewrite omap_app. cbn. by destruct (f a). Qed.

Lemma stored_reach l e id : reaches e = Some id →
  stored (l ++ [e]) = match accepted_of e with
                      | Some a => commit_one now (c_group c) a.1 a.2 (store_all (omap accepted_of l) asked)
                      | None => store_all (omap accepted_of l) asked
                      end.
Proof using Type.
  intros He. unfold stored. rewrite decide_False; [| rewrite omap_snoc, He; by destruct (omap reaches l)].
  rewrite omap_snoc. unfold store_all. destruct (accepted_of e) as [a|]; [by rewrite foldl_app | by rewrite app_nil_r].
Qed.

Lemma commit_partition_step t l st p : walked l st →
  (commit_partition now id_le c version (denied_at t) (resolved_at t) (count_at t) st p).1 = (cp_index p, entry_code (t, p)) ∧
  walked (l ++ [(t, p)]) (commit_partition now id_le c version (denied_at t) (resolved_at t) (count_at t) st p).2.
Proof using Type.
  intros [Hv Hw]. destruct st as [v w]. cbn [fst snd] in *. subst v w. unfold commit_partition.
  assert (Hstay : reaches (t, p) = None → walked (l ++ [(t, p)]) (if decide (omap reaches l = []) then None else Some verdict_on, stored l)).
  { intros Hr. unfold walked, stored. assert (Ha : accepted_of (t, p) = None) by (unfold accepted_of; by rewrite Hr).
    rewrite !omap_snoc, Hr, Ha, !app_nil_r. done. }
  destruct (denied_at t) as [code|] eqn:Ed.
  { cbn. split; [unfold entry_code; cbn; by rewrite Ed |]. apply Hstay. unfold reaches. cbn. by rewrite Ed. }
  destruct (resolved_at t) as [r|] eqn:Er.
  2:{ cbn. assert (Hr : reaches (t, p) = None) by (unfold reaches; cbn; by rewrite Ed, Er). split; [| by apply Hstay].
      unfold entry_code. cbn. by rewrite Ed, Hr. }
  destruct (_ || _) eqn:Erange.
  { cbn. assert (Hr : reaches (t, p) = None) by (unfold reaches; cbn; by rewrite Ed, Er, Erange). split; [| by apply Hstay].
    unfold entry_code. cbn. by rewrite Ed, Hr. }
  assert (Hr : reaches (t, p) = Some (rt_topic_id r)) by (unfold reaches; cbn; by rewrite Ed, Er, Erange).
  assert (Hask : ask_verdict now id_le c version (if decide (omap reaches l = []) then None else Some verdict_on) (stored l) =
    (verdict_on, store_all (omap accepted_of l) asked)).
  { unfold stored. case_decide as Hnil; [| done]. assert (Hacc : omap accepted_of l = []).
    { clear -Hnil. induction l as [|e l IH]; [done |]. cbn in *. unfold accepted_of at 1. destruct (reaches e); [done |]. cbn. by apply IH. }
    rewrite Hacc. unfold store_all. cbn [foldl]. apply surjective_pairing. }
  rewrite Hask. cbn [fst snd]. set (code := match verdict_on with Refuse code => code | _ => if oversized p then _ else _ end).
  assert (Hcode : entry_code (t, p) = code) by (unfold entry_code, code; cbn [fst snd]; rewrite Ed, Hr; by destruct verdict_on). split; [cbn; by rewrite Hcode |].
  split; cbn [fst snd].
  - rewrite decide_False; [done |]. rewrite omap_snoc, Hr. by destruct (omap reaches l).
  - rewrite (stored_reach l (t, p) (rt_topic_id r) Hr). replace (accepted_of (t, p)) with (if decide (code = ErrorCode.NoError ∧ refused = false) then Some (rt_topic_id r, p) else None)
      by (unfold accepted_of; rewrite Hr; cbn; by rewrite Hcode).
    assert (Hneg : match verdict_on with Refuse _ => false | _ => true end = negb refused) by (unfold refused; by destruct verdict_on).
    rewrite Hneg. destruct refused; cbn [negb]; [rewrite andb_false_r, decide_False by naive_solver; done |]. rewrite andb_true_r.
    case_bool_decide; [rewrite decide_True by done | rewrite decide_False by naive_solver]; done.
Qed.

Lemma commit_topic_step t l st : walked l st →
  (commit_topic now acls who id_le c version group_denied st t).1 = reference_response t ∧
  walked (l ++ ((t,.) <$> ct_parts t)) (commit_topic now acls who id_le c version group_denied st t).2.
Proof using Type.
  intros Hst. unfold commit_topic. pose proof Hst as [_ Hw]. rewrite Hw, resolve_kept. fold (resolved_at t) (denied_at t).
  assert (Hc : (match resolved_at t, denied_at t with Some r, None => partition_count (rt_topic_id r) (w_tx (stored l)) | _, _ => 0 end) = count_at t).
  { unfold count_at, partition_count. by rewrite (proj1 (catalog_kept l)). }
  rewrite Hc. clear Hc.
  destruct (map_state_map (commit_partition now id_le c version (denied_at t) (resolved_at t) (count_at t))
    (λ ps st, walked (l ++ ((t,.) <$> ps)) st) (λ p, (cp_index p, entry_code (t, p))) (ct_parts t) [] st) as [H1 H2].
  - cbn. by rewrite app_nil_r.
  - intros ps st' p Hp. rewrite fmap_app, app_assoc. by apply commit_partition_step.
  - destruct (map_state _ st (ct_parts t)) as [rs st']. cbn [fst snd] in *. subst rs. done.
Qed.

Lemma offset_commit_eq ts : count_of ts ≤ MAX_OFFSET_PARTITIONS → total (λ t, count_of (ct_parts t)) ts ≤ MAX_OFFSET_PARTITIONS →
  offset_commit now acls who id_le (mk_offset_commit c ts) version w0 = (Ok (reference_response <$> ts), stored (entries ts)).
Proof using Type.
  intros H1 H2. unfold offset_commit. cbn [om_committer om_topics]. fold group_denied.
  rewrite !(proj2 (Z.ltb_ge _ _)) by lia.
  destruct (map_state_map (commit_topic now acls who id_le c version group_denied) (λ ts st, walked (entries ts) st)
    reference_response ts [] (None, w0)) as [Hr Hs].
  - done.
  - intros done st t Hst. unfold entries. rewrite bind_app. cbn. rewrite app_nil_r. by apply commit_topic_step.
  - destruct (map_state _ (None, w0) ts) as [rs [v w]]. cbn in *. destruct Hs as [_ Hs]. cbn in Hs. by subst rs w.
Qed.

(** Committing offsets partition by partition, with the group's verdict asked for by
    the first entry that needs it, is the same as asking for it before anything is
    stored: every entry is answered, and stored or not, as the reference says, and
    later entries are judged as if the earlier ones had not been stored yet. *)
Theorem offset_commit_reference ts : count_of ts ≤ MAX_OFFSET_PARTITIONS → total (λ t, count_of (ct_parts t)) ts ≤ MAX_OFFSET_PARTITIONS →
  offset_commit now acls who id_le (mk_offset_commit c ts) version w0 = (Ok (reference_response <$> ts), stored (entries ts)).
Proof using Type. apply offset_commit_eq. Qed.

(** ** What is stored *)

Definition offsets_of w : gmap (string * Z * Z) OffsetRow := goffsets (t_groups (w_tx w)).

Lemma asked_offsets : offsets_of asked = offsets_of w0.
Proof using Type.
  unfold asked, ask_verdict, offsets_of, validate_commit. by repeat (case_match; cbn; simplify_eq).
Qed.

Definition key_of (a : Z * CommitPartition) : Z * Z := (a.1, cp_index a.2).

Lemma store_all_other l w k : k ∉ (λ a, (c_group c, a.1, cp_index a.2)) <$> l → offsets_of (store_all l w) !! k = offsets_of w !! k.
Proof using Type.
  revert w. induction l as [|a l IH]; intros w Hk; [done |]. rewrite fmap_cons, not_elem_of_cons in Hk. destruct Hk as [Hne Hk].
  change (store_all (a :: l) w) with (store_all l (commit_one now (c_group c) a.1 a.2 w)). rewrite IH by done. unfold commit_one, offsets_of. cbn. by rewrite lookup_insert_ne.
Qed.

(** The last entry for a partition is the one that stays. *)
Lemma store_all_at l1 a l2 w : key_of a ∉ key_of <$> l2 →
  offsets_of (store_all (l1 ++ a :: l2) w) !! (c_group c, a.1, cp_index a.2) = Some (offset_row now (cp_staged a.2)).
Proof using Type.
  intros Ha. assert (Hs : store_all (l1 ++ a :: l2) w = store_all l2 (commit_one now (c_group c) a.1 a.2 (store_all l1 w))) by (unfold store_all; by rewrite foldl_app).
  rewrite Hs, store_all_other.
  - unfold commit_one, offsets_of. cbn. by rewrite lookup_insert_eq.
  - intros Hin. apply Ha. apply list_elem_of_fmap in Hin as (b & [= H1 H2] & Hin). apply list_elem_of_fmap. exists b. unfold key_of. by rewrite H1, H2.
Qed.

Lemma committed_lookup group id w p : committed_for_topic group id w !! p = offsets_of w !! (group, id, p).
Proof using Type.
  unfold committed_for_topic, offsets_of. set (m := goffsets (t_groups (w_tx w))).
  set (f := λ e : string * Z * Z * OffsetRow, if decide (e.1.1 = (group, id)) then Some (e.1.2, e.2) else None).
  assert (Hel : ∀ q r, (q, r) ∈ omap f (map_to_list m) ↔ m !! (group, id, q) = Some r).
  { intros q r. rewrite list_elem_of_omap. split.
    - intros ([[k q'] r'] & Hin & H). unfold f in H. cbn in H. case_decide; [| done]. injection H as -> ->. subst k. by apply elem_of_map_to_list in Hin.
    - intros H. exists ((group, id, q), r). split; [by apply elem_of_map_to_list |]. unfold f. cbn. by rewrite decide_True. }
  destruct (m !! (group, id, p)) as [r|] eqn:E.
  - apply elem_of_list_to_map_1'; [| by apply Hel]. intros r' H'. apply Hel in H'. congruence.
  - apply not_elem_of_list_to_map_1. intros Hin. apply list_elem_of_fmap in Hin as ([q r] & -> & Hin). apply Hel in Hin. cbn in *. congruence.
Qed.

(** ** What a refused member can do *)

(** A member the group refuses stores nothing.  When the verdict on the committer is a
    refusal (it was evicted, is of another generation, the group is rebalancing, ..),
    no committed offset changes, of this group or another, and every entry that names
    an existing partition it may read is answered with that refusal. *)
Theorem refused_commit_stores_nothing ts code rs w' : verdict_on = Refuse code →
  offset_commit now acls who id_le (mk_offset_commit c ts) version w0 = (Ok rs, w') →
  offsets_of w' = offsets_of w0 ∧ ∀ e id, e ∈ entries ts → reaches e = Some id → entry_code e = code.
Proof using Type.
  intros Hv Hc. assert (Hs : w' = stored (entries ts)).
  { destruct (decide (count_of ts ≤ MAX_OFFSET_PARTITIONS ∧ total (λ t, count_of (ct_parts t)) ts ≤ MAX_OFFSET_PARTITIONS)) as [[H1 H2]|Hno].
    - rewrite offset_commit_eq in Hc by done. by injection Hc as _ <-.
    - exfalso. revert Hc. unfold offset_commit. cbn [om_committer om_topics].
      destruct (Z.ltb_spec MAX_OFFSET_PARTITIONS (count_of ts)); [done |].
      by destruct (Z.ltb_spec MAX_OFFSET_PARTITIONS (total (λ t, count_of (ct_parts t)) ts)); [done | lia]. }
  subst w'. split.
  - assert (Hacc : ∀ l, omap accepted_of l = []).
    { intros l. induction l as [|e l IH]; [done |]. cbn. unfold accepted_of at 1. destruct (reaches e); [| done]. cbn.
      rewrite decide_False by (unfold refused; rewrite Hv; naive_solver). done. }
    unfold stored. case_decide; [done |]. rewrite Hacc. apply asked_offsets.
  - intros e id _ He. unfold entry_code. rewrite He, Hv. unfold reaches in He. by destruct (denied_at e.1).
Qed.

(** ** Reading back *)

Lemma accepted_reaches e id p : accepted_of e = Some (id, p) → reaches e = Some id ∧ p = e.2.
Proof using Type. unfold accepted_of. destruct (reaches e) as [i|]; cbn; [| done]. case_decide; [| done]. by intros [= -> <-]. Qed.

Lemma reaches_acl e id : reaches e = Some id → ∃ u, Acl.check acls who Acl.Read Acl.Group (c_group c) = Ok u.
Proof using Type. unfold reaches, denied_at, group_denied. cbn. destruct (Acl.check _ _ _ _ _); [eauto | done]. Qed.

Lemma stored_at l1 e l2 id p : accepted_of e = Some (id, p) → (id, cp_index p) ∉ key_of <$> omap accepted_of l2 →
  offsets_of (stored (l1 ++ e :: l2)) !! (c_group c, id, cp_index p) = Some (offset_row now (cp_staged p)).
Proof using Type.
  intros Hacc Hn. unfold stored. rewrite decide_False.
  - rewrite omap_app. cbn. rewrite Hacc. by apply (store_all_at _ (id, p)).
  - destruct (accepted_reaches _ _ _ Hacc) as [Hr _]. rewrite omap_app. cbn. rewrite Hr. by intros [_ ?]%app_nil.
Qed.

(** Which group, topic and partition a request asks for at a place: a topic and a
    partition of it, and from version 8 a group. *)
Definition asked_at (fv : Z) (group : string) (topics : option (list (string * list Z))) (gs : list (string * option (list (string * list Z))))
    (k i j : nat) : option (string * string * Z) :=
  '(g, requested) ← (if fv <? OFFSET_FETCH_BATCHED_FROM then Some (group, topics) else gs !! k);
  l ← requested;
  '(name, ps) ← l !! i;
  q ← ps !! j;
  Some (g, name, q).
(** ... and what the response has there. *)
Definition fetched_at (resp : OffsetFetchResponse) (k i j : nat) : option (string * FetchedOffset) :=
  match resp with
  | FetchedTopics _ ts => x ← ts !! i; f ← x.2 !! j; Some (x.1, f)
  | FetchedGroups gs => g ← gs !! k; x ← fg_topics g !! i; f ← x.2 !! j; Some (x.1.1, f)
  end.

Lemma fetch_topics_at group l stable w ts i j name ps q id : fetch_topics group (Some l) stable w = Ok ts →
  l !! i = Some (name, ps) → ps !! j = Some q → topic_id_by_name name (w_tx w) = Some id →
  ∃ fs, ts !! i = Some (name, fs) ∧ fs !! j = Some (fetch_partition group stable id w q).
Proof using Type.
  intros Hf Hi Hj Hid. unfold fetch_topics in Hf. destruct (_ <? _); [done |]. cbn [rbind] in Hf. destruct (_ <? _); [done |].
  injection Hf as <-. exists (fetch_partition group stable id w <$> ps). unfold resolve_requested.
  split; [| by rewrite list_lookup_fmap, Hj]. rewrite !list_lookup_fmap, Hi. cbn -[fetch_partition]. by rewrite Hid.
Qed.

Lemma fetch_groups_at stable w gs out k g requested : fetch_groups acls who stable w gs = Ok out → gs !! k = Some (g, requested) →
  (∃ u, Acl.check acls who Acl.Read Acl.Group g = Ok u) →
  ∃ one topics, out !! k = Some one ∧ fetch_topics g requested stable w = Ok topics ∧
    (λ x, (x.1.1, x.2)) <$> fg_topics one = topics.
Proof using Type.
  revert out k. induction gs as [|[g0 r0] gs IH]; intros out k Hf Hk Hacl; [done |]. cbn [fetch_groups] in Hf.
  destruct (match Acl.check _ _ _ _ g0 with Ok _ => _ | Err _ => _ end) as [one|] eqn:E1; [| done]. cbn [rbind] in Hf.
  destruct (fetch_groups acls who stable w gs) as [rest|]; [| done]. injection Hf as <-. destruct k as [|k]; [| by apply (IH rest k)].
  injection Hk as -> ->. destruct Hacl as [u Hu]. rewrite Hu in E1. unfold fetch_topics_v8 in E1.
  destruct (fetch_topics g requested stable w) as [topics|]; [| done]. cbn [rbind] in E1. injection E1 as <-.
  exists (mk_fetched_group g ErrorCode.NoError ((λ t : string * list FetchedOffset,
    (t.1, match topic_id_by_name t.1 (w_tx w) ≫= λ _, resolve_topic t.1 no_uuid w with Some r => rt_uuid r | None => no_uuid end, t.2)) <$> topics)), topics.
  split_and!; [done | done |]. cbn [fg_topics]. rewrite <- list_fmap_compose. rewrite <- (list_fmap_id topics) at 2.
  apply list_fmap_ext. by intros ? [] _.
Qed.

(** Wherever a fetch asks for the group and the topic, it is answered by [fetch_partition]. *)
Lemma offset_fetch_at fv group topics gs stable w resp k i j g name q id :
  offset_fetch acls who fv group topics gs stable w = Ok resp → asked_at fv group topics gs k i j = Some (g, name, q) →
  (∃ u, Acl.check acls who Acl.Read Acl.Group g = Ok u) → topic_id_by_name name (w_tx w) = Some id →
  fetched_at resp k i j = Some (name, fetch_partition g stable id w q).
Proof using Type.
  unfold offset_fetch, asked_at. intros Hf Ha Hacl Hid. destruct (fv <? OFFSET_FETCH_BATCHED_FROM).
  - cbn in Ha. destruct topics as [l|]; [| done]. cbn in Ha. destruct (l !! i) as [[n ps]|] eqn:Ei; [| done]. cbn in Ha.
    destruct (ps !! j) as [q'|] eqn:Ej; [| done]. injection Ha as -> -> ->. destruct Hacl as [u Hu]. rewrite Hu in Hf.
    destruct (fetch_topics g (Some l) stable w) as [ts|] eqn:Et; [| done]. injection Hf as <-.
    destruct (fetch_topics_at g l stable w ts i j name ps q id Et Ei Ej Hid) as (fs & H1 & H2). cbn. rewrite H1. cbn. by rewrite H2.
  - destruct (gs !! k) as [[g' r]|] eqn:Ek; [| done]. cbn in Ha. destruct r as [l|]; [| done]. cbn in Ha.
    destruct (l !! i) as [[n ps]|] eqn:Ei; [| done]. cbn in Ha. destruct (ps !! j) as [q'|] eqn:Ej; [| done]. injection Ha as -> -> ->.
    destruct (check_admin_len _ _); [| done]. cbn [rbind] in Hf. destruct (fetch_groups _ _ _ _ _) as [out|] eqn:Eo; [| done]. injection Hf as <-.
    destruct (fetch_groups_at stable w gs out k g (Some l) Eo Ek Hacl) as (one & ts & H1 & Et & H3).
    destruct (fetch_topics_at g l stable w ts i j name ps q id Et Ei Ej Hid) as (fs & H4 & H5). cbn. rewrite H1. cbn.
    rewrite <- H3, list_lookup_fmap in H4. destruct (fg_topics one !! i) as [[[n' uuid] fs']|]; [| done]. injection H4 as -> ->. cbn. by rewrite H5.
Qed.

(** C21. What was committed is what is read.  After a commit that stored an entry for a
    partition, none behind it in the request for the same one, an OffsetFetch of any
    version, for however many groups, topics and partitions, gives at every place where
    it lists that group, the topic by its name and the partition: the offset, the leader
    epoch and the metadata of the entry (no metadata as the empty string); or, if the
    request asks for stable offsets and an open transaction has one staged there, no
    offset and UNSTABLE_OFFSET_COMMIT. *)
Theorem commit_then_fetch ts l1 t p l2 id name fv group topics gs stable resp k i j :
  count_of ts ≤ MAX_OFFSET_PARTITIONS → total (λ t, count_of (ct_parts t)) ts ≤ MAX_OFFSET_PARTITIONS →
  entries ts = l1 ++ (t, p) :: l2 → accepted_of (t, p) = Some (id, p) → (id, cp_index p) ∉ key_of <$> omap accepted_of l2 →
  topic_id_by_name name (w_tx w0) = Some id →
  let w' := (offset_commit now acls who id_le (mk_offset_commit c ts) version w0).2 in
  offset_fetch acls who fv group topics gs stable w' = Ok resp →
  asked_at fv group topics gs k i j = Some (c_group c, name, cp_index p) →
  fetched_at resp k i j = Some (name,
    if stable && unstable (c_group c) id (cp_index p) w'
    then mk_fetched (cp_index p) NO_OFFSET (-1) (Some ""%string) ErrorCode.UnstableOffsetCommit
    else mk_fetched (cp_index p) (so_offset (cp_staged p)) (so_leader_epoch (cp_staged p))
           (Some (default ""%string (so_metadata (cp_staged p)))) ErrorCode.NoError).
Proof using Type.
  intros H1 H2 Hes Hacc Hn Hid w' Hf Ha. unfold w' in *. rewrite (offset_commit_eq ts), Hes in * by done. cbn [snd] in *.
  destruct (accepted_reaches _ _ _ Hacc) as [Hr _].
  rewrite (offset_fetch_at fv group topics gs stable _ resp k i j (c_group c) name (cp_index p) id Hf Ha (reaches_acl _ _ Hr)).
  - unfold fetch_partition. destruct (_ && _); [done |]. by rewrite committed_lookup, stored_at.
  - unfold topic_id_by_name. by rewrite (proj1 (catalog_kept _)).
Qed.

End Reference.

(** ** Deleting offsets of a live group *)

(** OffsetDelete looks for members in the table of the classic protocol only: the offsets
    of a consumer group with members are deleted under them. *)
Theorem delete_ignores_consumer_members {L} (w : World L) acls who id_le `{∀ a b, Decision (id_le a b)} g m cm name id p u1 u2 :
  consumer_members (t_consumers (w_tx w)) !! (g, m) = Some cm →
  groups (t_groups (w_tx w)) !! g = None → members id_le g (t_groups (w_tx w)) = [] →
  is_Some (offsets_of w !! (g, id, p)) → topic_id_by_name name (w_tx w) = Some id →
  Acl.check acls who Acl.Delete Acl.Group g = Ok u1 → Acl.check acls who Acl.Delete Acl.Topic name = Ok u2 →
  (offset_delete acls who id_le g [(name, [p])] w).1 = Ok (ErrorCode.NoError, [(name, [(p, ErrorCode.NoError)])]) ∧
  offsets_of (offset_delete acls who id_le g [(name, [p])] w).2 !! (g, id, p) = None.
Proof.
  intros _ Hg Hm [r Hr] Hid A1 A2. unfold offset_delete. rewrite A1. cbn -[existence topic_id_by_name].
  change (MAX_OFFSET_PARTITIONS <? _) with false. cbn -[existence topic_id_by_name]. unfold existence. rewrite Hg, Hm.
  assert (Hne : filter (λ q : string * Z * Z * OffsetRow, q.1.1.1 = g) (goffsets (t_groups (w_tx w))) ≠ ∅).
  { intros He. assert (Hf : filter (λ q : string * Z * Z * OffsetRow, q.1.1.1 = g) (goffsets (t_groups (w_tx w))) !! (g, id, p) = Some r)
      by (apply map_lookup_filter_Some; split; [exact Hr | done]). by rewrite He in Hf. }
  rewrite (bool_decide_true _ Hne), orb_true_r. cbn -[topic_id_by_name]. rewrite A2, Hid. cbn. split; [done |].
  change (delete (g, id, p) (offsets_of w) !! (g, id, p) = None). apply lookup_delete_eq.
Qed.

(** ** A simple group on the topic of Topics.v *)

Definition by_hand : Committer := mk_committer "g" (-1) "" None.
Definition at_seven : CommitPartition := mk_commit_partition 1 (mk_staged 7 0 None).
Definition to_orders : list CommitTopic := [mk_commit_topic "orders" no_uuid [at_seven]].

(** Version 9, two groups, the partition behind another one. *)
Definition read_back : result HandlerError OffsetFetchResponse :=
  offset_fetch open_acls nobody 9 "" None [("h", None); ("g", Some [("orders", [0; 1])])]%string true
    (offset_commit 5 open_acls nobody str_le (mk_offset_commit by_hand to_orders) 8 made_world).2.

Lemma commit_then_fetch_witness : ∃ resp, read_back = Ok resp ∧
  fetched_at resp 1 0 1 = Some ("orders"%string, mk_fetched 1 7 0 (Some ""%string) ErrorCode.NoError).
Proof.
  assert (∃ resp, read_back = Ok resp) as [resp Hr] by (eexists; vm_compute; reflexivity). exists resp. split; [exact Hr |].
  refine (commit_then_fetch 5 open_acls nobody str_le by_hand 8 made_world to_orders [] (mk_commit_topic "orders" no_uuid [at_seven]) at_seven []
    1 "orders" 9 "" None [("h", None); ("g", Some [("orders", [0; 1])])]%string true resp 1 0 1 _ _ _ _ _ _ Hr _);
    [by vm_compute | by vm_compute | reflexivity | by vm_compute | by intros ?%elem_of_nil | by vm_compute | by vm_compute].
Defined.

Lemma offset_commit_reference_witness :
  offset_commit 5 open_acls nobody str_le (mk_offset_commit by_hand to_orders) 8 made_world =
  (Ok (reference_response 5 open_acls nobody str_le by_hand 8 made_world <$> to_orders),
   stored 5 open_acls nobody str_le by_hand 8 made_world (entries to_orders)).
Proof. apply offset_commit_reference; by vm_compute. Defined.

(** A generation nobody has in a group that does not exist. *)
Definition stranger : Committer := mk_committer "g" 3 "m" None.

Lemma refused_commit_stores_nothing_witness :
  offsets_of (offset_commit 5 open_acls nobody str_le (mk_offset_commit stranger to_orders) 8 made_world).2 = offsets_of made_world.
Proof.
  destruct (offset_commit 5 open_acls nobody str_le (mk_offset_commit stranger to_orders) 8 made_world) as [[rs|e] w'] eqn:E.
  - refine (proj1 (refused_commit_stores_nothing 5 open_acls nobody str_le stranger 8 made_world to_orders ErrorCode.IllegalGeneration rs w' _ E)). by vm_compute.
  - exfalso. rewrite offset_commit_eq in E by by vm_compute. discriminate E.
Defined.
