(* ===== verification/Segment.v ===== *)
(** * extension/src/storage/segment.rs: the segment engine

    The log of a partition is a directory of segment files, one per base offset: the
    log itself (batches, one after the other), an offset index and a time index.
    Where the next batch goes is kept in shared memory, in a slot per partition, found
    by hashing; a slot is made from the files when no process has used the partition
    since the server started ([recover]).  Each process keeps hints of its own where
    in a segment a batch lies.

    [SegStore] is the whole engine: the tables of Pmeta.v, the directories, the slots
    with their rings of reservations, the rows of the archive, and the memory of each
    process.  What runs under the lock of a slot is a computation on [View], the
    partition as its slot, ring, files and the hints of the running process
    ([with_slot]).  A file is its bytes; [room] says how many bytes the next write of
    a file takes before it fails.  Descriptors kept open name the file of their base
    and generation and are not modelled; neither are [fsync] and writeback, which
    change no byte. *)

From stdpp Require Import gmap sorting strings.
From S2P Require Import Prelude Errors Records RecordIter Build Compaction Cleaner PendingRing Pmeta Store Config Table.

Definition LOCK_SHARDS : Z := 16.
Definition SLOTS_PER_SHARD : Z := 256.
Definition INDEX_INTERVAL_BYTES : Z := 4096.
Definition INDEX_ENTRY : Z := 8.
Definition TIME_INDEX_ENTRY : Z := 12.
Definition MAX_SEGMENT_UNLINKS : Z := 32.
Definition HEADER : Z := Z.of_nat RECORD_BATCH_OVERHEAD.

(** ** Data *)

Record SegFile : Type := mk_segfile {
  sf_log : bytes;
  sf_index : option bytes;
  sf_time : option bytes;
  sf_mtime : Z }.
Abbreviation Files := (gmap Z SegFile).
Abbreviation Hints := (gmap Z (list (Z * Z))).

Record Slot : Type := mk_slot {
  sl_topic : Z;
  sl_partition : Z;
  sl_next : Z;
  sl_active_base : Z;
  sl_active_bytes : Z;
  sl_pending : PendingRing;
  sl_ring : Z;
  sl_since : Z;
  sl_segment_ms : Z;
  sl_segment_bytes : Z;
  sl_generation : Z;
  sl_cursor : Z;
  sl_epoch : Z;
  sl_max_ts : Z;
  sl_max_ts_offset : Z;
  sl_time_indexed : Z }.
Definition slot_default : Slot :=
  mk_slot 0 0 0 0 0 ring_default 0 0 604800000 0 0 0 (-1) i64_min (-1) i64_min.

Definition with_next (o : Z) (st : Slot) : Slot :=
  mk_slot (sl_topic st) (sl_partition st) o (sl_active_base st) (sl_active_bytes st) (sl_pending st) (sl_ring st)
    (sl_since st) (sl_segment_ms st) (sl_segment_bytes st) (sl_generation st) (sl_cursor st) (sl_epoch st)
    (sl_max_ts st) (sl_max_ts_offset st) (sl_time_indexed st).
Definition with_pending (r : PendingRing) (st : Slot) : Slot :=
  mk_slot (sl_topic st) (sl_partition st) (sl_next st) (sl_active_base st) (sl_active_bytes st) r (sl_ring st)
    (sl_since st) (sl_segment_ms st) (sl_segment_bytes st) (sl_generation st) (sl_cursor st) (sl_epoch st)
    (sl_max_ts st) (sl_max_ts_offset st) (sl_time_indexed st).
Definition with_epoch (e : Z) (st : Slot) : Slot :=
  mk_slot (sl_topic st) (sl_partition st) (sl_next st) (sl_active_base st) (sl_active_bytes st) (sl_pending st) (sl_ring st)
    (sl_since st) (sl_segment_ms st) (sl_segment_bytes st) (sl_generation st) (sl_cursor st) e
    (sl_max_ts st) (sl_max_ts_offset st) (sl_time_indexed st).
Definition with_bounds (ms bytes_ : Z) (st : Slot) : Slot :=
  mk_slot (sl_topic st) (sl_partition st) (sl_next st) (sl_active_base st) (sl_active_bytes st) (sl_pending st) (sl_ring st)
    (sl_since st) ms bytes_ (sl_generation st) (sl_cursor st) (sl_epoch st)
    (sl_max_ts st) (sl_max_ts_offset st) (sl_time_indexed st).
Definition with_since (since : Z) (st : Slot) : Slot :=
  mk_slot (sl_topic st) (sl_partition st) (sl_next st) (sl_active_base st) (sl_active_bytes st) (sl_pending st) (sl_ring st)
    since (sl_segment_ms st) (sl_segment_bytes st) (sl_generation st) (sl_cursor st) (sl_epoch st)
    (sl_max_ts st) (sl_max_ts_offset st) (sl_time_indexed st).
(** The active segment and what is known of its timestamps. *)
Definition with_active (base bytes_ max_ts max_off indexed : Z) (st : Slot) : Slot :=
  mk_slot (sl_topic st) (sl_partition st) (sl_next st) base bytes_ (sl_pending st) (sl_ring st)
    (sl_since st) (sl_segment_ms st) (sl_segment_bytes st) (sl_generation st) (sl_cursor st) (sl_epoch st)
    max_ts max_off indexed.
(** A change of the byte layout, after which everything is dirty again. *)
Definition with_new_layout (st : Slot) : Slot :=
  mk_slot (sl_topic st) (sl_partition st) (sl_next st) (sl_active_base st) (sl_active_bytes st) (sl_pending st) (sl_ring st)
    (sl_since st) (sl_segment_ms st) (sl_segment_bytes st) (wrap_u 64 (sl_generation st + 1)) 0 (sl_epoch st)
    (sl_max_ts st) (sl_max_ts_offset st) (sl_time_indexed st).

(** A segment as listed: its base, size and age. *)
Record SegInfo : Type := mk_info { in_base : Z; in_bytes : Z; in_mtime : Z }.

Record Rewrite : Type := mk_rewrite {
  rx_info : SegInfo;
  rx_pos : Z;
  rx_written : Z;
  rx_removed : Z;
  rx_writing : bool }.
Record CleanPlan : Type := mk_plan {
  pl_map : OffsetMap;
  pl_dirty_from : Z;
  pl_mapping_at : option (Z * Z);
  pl_rewrite_from : Z;
  pl_rewriting : option Rewrite;
  pl_generation : Z;
  pl_abandoned : bool;
  pl_touched : Z }.

(** The statics of a process: [HINTS], [PLANS], and the history of Cleaner.v. *)
Record Process : Type := mk_process {
  pr_hints : gmap (Z * Z) (Z * Hints);
  pr_plans : gmap (Z * Z) CleanPlan;
  pr_cleaned : gmap (Z * Z) (list (Z * Z)) * gmap (Z * Z) (gset (Z * Z)) }.
Definition no_memory : Process := mk_process ∅ ∅ (∅, ∅).

Record SegStore : Type := mk_seg_store {
  ss_meta : Meta;
  ss_dirs : gmap (Z * Z) Files;
  ss_slots : gmap Z Slot;
  ss_rings : gmap Z (list Z);
  ss_archive : gmap (Z * Z) (gset Z);
  ss_procs : gmap Z Process }.

Definition on_meta (f : Meta → Meta) (s : SegStore) : SegStore :=
  mk_seg_store (f (ss_meta s)) (ss_dirs s) (ss_slots s) (ss_rings s) (ss_archive s) (ss_procs s).
Definition on_dirs (f : gmap (Z * Z) Files → gmap (Z * Z) Files) (s : SegStore) : SegStore :=
  mk_seg_store (ss_meta s) (f (ss_dirs s)) (ss_slots s) (ss_rings s) (ss_archive s) (ss_procs s).
Definition on_slots (f : gmap Z Slot → gmap Z Slot) (s : SegStore) : SegStore :=
  mk_seg_store (ss_meta s) (ss_dirs s) (f (ss_slots s)) (ss_rings s) (ss_archive s) (ss_procs s).
Definition on_rings (f : gmap Z (list Z) → gmap Z (list Z)) (s : SegStore) : SegStore :=
  mk_seg_store (ss_meta s) (ss_dirs s) (ss_slots s) (f (ss_rings s)) (ss_archive s) (ss_procs s).
Definition on_archive (f : gmap (Z * Z) (gset Z) → gmap (Z * Z) (gset Z)) (s : SegStore) : SegStore :=
  mk_seg_store (ss_meta s) (ss_dirs s) (ss_slots s) (ss_rings s) (f (ss_archive s)) (ss_procs s).
Definition process (me : Z) (s : SegStore) : Process := default no_memory (ss_procs s !! me).
Definition on_process (me : Z) (f : Process → Process) (s : SegStore) : SegStore :=
  mk_seg_store (ss_meta s) (ss_dirs s) (ss_slots s) (ss_rings s) (ss_archive s) (<[me := f (process me s)]> (ss_procs s)).
Definition on_hints (f : gmap (Z * Z) (Z * Hints) → gmap (Z * Z) (Z * Hints)) (m : Process) : Process :=
  mk_process (f (pr_hints m)) (pr_plans m) (pr_cleaned m).
Definition on_plans (f : gmap (Z * Z) CleanPlan → gmap (Z * Z) CleanPlan) (m : Process) : Process :=
  mk_process (pr_hints m) (f (pr_plans m)) (pr_cleaned m).
Definition forget_all_cleaned (p : Z * Z) (m : Process) : Process :=
  mk_process (pr_hints m) (pr_plans m) (forget_cleaned p (pr_cleaned m)).

(** The directory of a partition; one that was never made reads as an empty one, and
    nothing tells them apart. *)
Definition dir (p : Z * Z) (s : SegStore) : Files := default ∅ (ss_dirs s !! p).

(** ** Files *)

(** [FileRead] of up to [n] bytes. *)
Definition file_at (file : bytes) (pos n : Z) : bytes := take (Z.to_nat n) (drop (Z.to_nat pos) file).

(** A write past the end leaves zeroes between; nothing written changes nothing. *)
Definition overwrite (file : bytes) (pos : Z) (data : bytes) : bytes :=
  match data with
  | [] => file
  | _ => take (Z.to_nat pos) (file ++ replicate (Z.to_nat (pos - len file)) x00) ++ data
         ++ drop (Z.to_nat (pos + len data)) file
  end.

(** [write_all_at]: whether everything was written, and the file then. *)
Definition write_all_at (room : option nat) (file : bytes) (pos : Z) (bs : bytes) : bool * bytes :=
  match room with
  | None => (true, overwrite file pos bs)
  | Some n => ((length bs <=? n)%nat, overwrite file pos (take n bs))
  end.

(** [FileTruncate]. *)
Definition cut_file (file : bytes) (n : Z) : bytes := take (Z.to_nat n) file.

(** [segment_bases]: the names of the directory, in order. *)
Definition segment_bases (files : Files) : list Z := (in_order files).*1.

Definition segment_infos (files : Files) : list SegInfo :=
  (λ e : Z * SegFile, mk_info e.1 (len (sf_log e.2)) (sf_mtime e.2)) <$> in_order files.

(** ** Batch headers *)

Definition length_of (header : bytes) : Z := read_i LENGTH_OFFSET 4 header.
Definition total_of (header : bytes) : Z := Z.of_nat LENGTH_OFFSET + 4 + length_of header.
Definition base_of (header : bytes) : Z := read_i BASE_OFFSET_OFFSET 8 header.
Definition last_offset_delta_of (bs : bytes) : Z :=
  if (LAST_OFFSET_DELTA_OFFSET + 4 <=? length bs)%nat then read_i LAST_OFFSET_DELTA_OFFSET 4 bs else 0.
Definition max_timestamp_of (bs : bytes) : option Z :=
  if len bs <? HEADER then None else Some (read_i MAX_TIMESTAMP_OFFSET 8 bs).
Definition is_marker_backed (header : bytes) : bool :=
  (PRODUCER_EPOCH_OFFSET + 2 <=? length header)%nat && (read_i PRODUCER_EPOCH_OFFSET 2 header <? 0).

(** The header at [pos] of the [data_end] bytes in use, and [None] where the loops
    over a segment end: fewer bytes than a header, or a length that is not positive. *)
Definition header_at (file : bytes) (data_end pos : Z) : option bytes :=
  if data_end <? pos + HEADER then None
  else
    let header := file_at file pos HEADER in
    if negb (len header =? HEADER) then None
    else if length_of header <=? 0 then None
    else Some header.

(** [ts] and where it was set, when it is later than the latest so far. *)
Definition later (best : Z * Z) (bs : bytes) (base : Z) : Z * Z :=
  match max_timestamp_of bs with
  | Some ts => if best.1 <? ts then (ts, base + last_offset_delta_of bs) else best
  | None => best
  end.

Definition sparse (entries : list (Z * Z)) (pos : Z) : bool :=
  match last entries with
  | None => true
  | Some (_, last_pos) => INDEX_INTERVAL_BYTES <=? Z.max 0 (pos - last_pos)
  end.

(** ** Index files *)

Fixpoint read_entries (fuel : nat) (file : bytes) (base data_end at_ : Z) : list (Z * Z) :=
  match fuel with
  | O => []
  | S fuel =>
      if len file <? at_ + INDEX_ENTRY then []
      else
        let rel := be_val (file_at file at_ 4) in
        let pos := be_val (file_at file (at_ + 4) 4) in
        if data_end <=? pos then []
        else (base + rel, pos) :: read_entries fuel file base data_end (at_ + INDEX_ENTRY)
  end.
Definition read_index (f : SegFile) (base data_end : Z) : list (Z * Z) :=
  match sf_index f with
  | Some file => read_entries (length file) file base data_end 0
  | None => []
  end.

(** Up to the first entry at or past the timestamp: the offset of the last before it. *)
Fixpoint last_below (fuel : nat) (file : bytes) (base timestamp at_ : Z) (below : option Z) : option Z :=
  match fuel with
  | O => below
  | S fuel =>
      if len file <? at_ + TIME_INDEX_ENTRY then below
      else
        let ts := wrap_i 64 (be_val (file_at file at_ 8)) in
        if timestamp <=? ts then below
        else last_below fuel file base timestamp (at_ + TIME_INDEX_ENTRY) (Some (base + be_val (file_at file (at_ + 8) 4)))
  end.
Fixpoint take_while {A} (f : A → bool) (l : list A) : list A :=
  match l with
  | [] => []
  | a :: l' => if f a then a :: take_while f l' else []
  end.
Definition time_index_seek (f : SegFile) (base timestamp : Z) (index : option (list (Z * Z))) : Z :=
  match sf_time f with
  | None => 0
  | Some file =>
      match last_below (length file) file base timestamp 0 None, index with
      | Some offset, Some index =>
          match last (take_while (λ e : Z * Z, e.1 <=? offset) index) with Some (_, pos) => pos | None => 0 end
      | _, _ => 0
      end
  end.

(** Where the entries at or past an offset begin, and the last timestamp before them. *)
Fixpoint time_prefix (fuel : nat) (file : bytes) (base next at_ last_ : Z) : Z * Z :=
  match fuel with
  | O => (at_, last_)
  | S fuel =>
      if len file <? at_ + TIME_INDEX_ENTRY then (at_, last_)
      else if next <=? base + be_val (file_at file (at_ + 8) 4) then (at_, last_)
      else time_prefix fuel file base next (at_ + TIME_INDEX_ENTRY) (wrap_i 64 (be_val (file_at file at_ 8)))
  end.
Definition truncate_time_index (f : SegFile) (base next : Z) : Z * SegFile :=
  match sf_time f with
  | None => (i64_min, f)
  | Some file =>
      let '(at_, last_) := time_prefix (length file) file base next 0 i64_min in
      (last_, mk_segfile (sf_log f) (sf_index f) (Some (if at_ <? len file then cut_file file at_ else file)) (sf_mtime f))
  end.

Section Engine.

Variable crc32c : bytes → Z.
Variable entry_size : Z.
Variable open_decoder : Z → bytes → result BatchError (bytes * option BatchError).
(** [now_millis()]; [kafgres.segment_bytes]; [kafgres.segment_lock_stripes], clamped;
    [MaxBackends]; whether an archive command is set; the producers whose transaction
    is open; what [roll_bounds_cached] gives for a topic, the age and the size at which
    a segment is left. *)
Variable now : Z.
Variable segment_bytes : Z.
Variable stripes : Z.
Variable max_backends : nat.
Variable archiving : bool.
Variable ongoing : Z → bool.
Variable roll_bounds : Z → Z * Z.
(** What the writes to the log, the index and the time index take. *)
Variables log_room index_room time_room : option nat.
(** The process that runs. *)
Variable me : Z.

(** ** Scanning and recovery *)

Record Scan : Type := mk_scan { sc_index : list (Z * Z); sc_pos : Z; sc_next : Z; sc_max : Z * Z }.

Definition scan_batch (s : Scan) (whole : bytes) : Scan :=
  let base := base_of whole in
  mk_scan (if sparse (sc_index s) (sc_pos s) then sc_index s ++ [(base, sc_pos s)] else sc_index s)
    (sc_pos s + len whole) (base + last_offset_delta_of whole + 1) (later (sc_max s) whole base).

(** The loop of [read_segment]: up to the first thing that is not a whole, valid batch. *)
Fixpoint scan_from (fuel : nat) (file : bytes) (s : Scan) : Scan :=
  match fuel with
  | O => s
  | S fuel =>
      match header_at file (len file) (sc_pos s) with
      | None => s
      | Some header =>
          if len file <? sc_pos s + total_of header then s
          else
            let whole := file_at file (sc_pos s) (total_of header) in
            match validated crc32c whole with
            | Err _ => s
            | Ok _ => scan_from fuel file (scan_batch s whole)
            end
      end
  end.
Definition read_segment (base : Z) (file : bytes) : Scan := scan_from (length file) file (mk_scan [] 0 base (i64_min, -1)).

(** [read_segment], and the cut behind the last whole batch. *)
Definition scan_segment (base : Z) (f : SegFile) : Scan * SegFile :=
  let s := read_segment base (sf_log f) in
  (s, if sc_pos s <? len (sf_log f)
      then mk_segfile (cut_file (sf_log f) (sc_pos s)) (sf_index f) (sf_time f) now else f).

Definition on_disk_log_end (files : Files) : Z :=
  match last (in_order files) with
  | Some (base, f) => sc_next (read_segment base (sf_log f))
  | None => 0
  end.

Record Recovered : Type := mk_recovered {
  rc_next : Z; rc_active_base : Z; rc_active_bytes : Z; rc_index : Hints; rc_max : Z * Z; rc_time_indexed : Z }.

(** Only the last segment is scanned; the others are indexed by their files. *)
Definition sealed_hints (l : list (Z * SegFile)) : Hints :=
  list_to_map ((λ e : Z * SegFile, (e.1, read_index e.2 e.1 (len (sf_log e.2)))) <$> l).
Definition recover (files : Files) : Recovered * Files :=
  match last (in_order files) with
  | None => (mk_recovered 0 0 0 ∅ (i64_min, -1) i64_min, files)
  | Some (base, f) =>
      let '(s, f) := scan_segment base f in
      let '(indexed, f) := truncate_time_index f base (sc_next s) in
      (mk_recovered (sc_next s) base (sc_pos s)
         (<[base := sc_index s]> (sealed_hints (removelast (in_order files)))) (sc_max s) indexed,
       <[base := f]> files)
  end.

(** ** Slots *)

Definition partition_hash (p : Z * Z) : Z :=
  let h := Z.lxor (wrap_u 64 (p.1 * 11400714819323198485)) (wrap_u 64 (wrap_u 64 p.2 * 14029467366897019727)) in
  Z.lxor h (Z.shiftr h 29).
Definition shard_of (p : Z * Z) : Z := partition_hash p mod Z.max 1 (Z.min LOCK_SHARDS stripes).

(** Slot [i] of a shard is number [shard * SLOTS_PER_SHARD + i] of all. *)
Definition slot_at (s : SegStore) (k : Z) : Slot := default slot_default (ss_slots s !! k).
Definition probe_at (p : Z * Z) (n : nat) : Z :=
  shard_of p * SLOTS_PER_SHARD + (partition_hash p mod SLOTS_PER_SHARD + Z.of_nat n) mod SLOTS_PER_SHARD.
Definition holds (p : Z * Z) (st : Slot) : bool := (sl_topic st =? p.1) && (sl_partition st =? p.2).
Definition is_free (st : Slot) : bool := sl_topic st =? 0.

Inductive Probe : Type := Found (k : Z) | Free (k : Z) | Full.

(** The linear probe: to the partition's slot, or to the first free one. *)
Fixpoint probe (p : Z * Z) (s : SegStore) (rounds n : nat) : Probe :=
  match rounds with
  | O => Full
  | S rounds =>
      let k := probe_at p n in
      if holds p (slot_at s k) then Found k
      else if is_free (slot_at s k) then Free k
      else probe p s rounds (S n)
  end.
Definition find_slot (p : Z * Z) (s : SegStore) : Probe := probe p s (Z.to_nat SLOTS_PER_SHARD) 0.

Definition fresh_slot (p : Z * Z) (k : Z) (r : Recovered) : Slot :=
  mk_slot p.1 p.2 (rc_next r) (rc_active_base r) (rc_active_bytes r) ring_default k 0 604800000 0 0 0 (-1)
    (rc_max r).1 (rc_max r).2 (rc_time_indexed r).

Definition slot_for (p : Z * Z) : ST SegStore StoreError Z := λ s,
  match find_slot p s with
  | Found k => (Ok k, s)
  | Full => (Err (Io "lock shard full"), s)
  | Free k =>
      let '(r, files) := recover (dir p s) in
      let s := on_dirs <[p := files]> s in
      let s := on_slots <[k := fresh_slot p k r]> s in
      (Ok k, on_process me (on_hints <[p := (0, rc_index r)]>) s)
  end.

(** What runs under the lock sees. *)
Record View : Type := mk_view { v_slot : Slot; v_hints : Hints; v_ring : list Z; v_files : Files }.

Definition ring_mut (k : Z) (s : SegStore) : list Z := default (replicate max_backends 0) (ss_rings s !! k).

(** The hints of the process, dropped when the layout has changed since. *)
Definition hints_for (p : Z * Z) (generation : Z) (s : SegStore) : Hints :=
  match pr_hints (process me s) !! p with
  | Some (g, h) => if g =? generation then h else ∅
  | None => ∅
  end.

Definition view_of (p : Z * Z) (k : Z) (s : SegStore) : View :=
  let st := slot_at s k in
  mk_view st (hints_for p (sl_generation st) s) (ring_mut (sl_ring st) s) (dir p s).

(** The hints keep the generation they were handed out under. *)
Definition store_view (p : Z * Z) (k : Z) (generation : Z) (v : View) (s : SegStore) : SegStore :=
  let ring := sl_ring (slot_at s k) in
  let s := on_slots <[k := v_slot v]> s in
  let s := on_rings <[ring := v_ring v]> s in
  let s := on_dirs <[p := v_files v]> s in
  on_process me (on_hints <[p := (generation, v_hints v)]>) s.

Definition with_slot {A} (p : Z * Z) (f : ST View StoreError A) : ST SegStore StoreError A :=
  let* k := slot_for p in
  λ s,
    let '(r, v) := f (view_of p k s) in
    (r, store_view p k (sl_generation (slot_at s k)) v s).

(** ** Appending *)

Definition pending_floor (st : Slot) : Z :=
  match floor (sl_pending st) with
  | Some b => Z.min b (sl_next st)
  | None => sl_next st
  end.

Definition on_slot (f : Slot → Slot) (v : View) : View := mk_view (f (v_slot v)) (v_hints v) (v_ring v) (v_files v).

Definition epoch_for_append (seed : Z) : ST View StoreError Z := λ v,
  let e := sl_epoch (v_slot v) in
  let v := if (e <? 0) || (e <? seed) then on_slot (with_epoch seed) v else v in
  let e := sl_epoch (v_slot v) in
  if seed <? e then (Err LeaderEpochUnsettled, v) else (Ok e, v).

(** Opening the active segment makes its file. *)
Definition open_active (base : Z) (files : Files) : Files :=
  match files !! base with
  | Some _ => files
  | None => <[base := mk_segfile [] None None now]> files
  end.

Definition roll_due (st : Slot) (n : Z) : bool :=
  let aged_out := (0 <? sl_since st) && (sl_segment_ms st <=? now - sl_since st) && (0 <? sl_active_bytes st) in
  let roll_at := if 0 <? sl_segment_bytes st then sl_segment_bytes st else segment_bytes in
  (0 <? sl_active_bytes st) && (aged_out || (roll_at <? sl_active_bytes st + n)).

Definition roll (base : Z) (v : View) : View :=
  mk_view (with_since now (with_active base 0 i64_min (-1) i64_min (v_slot v)))
    (<[base := []]> (v_hints v)) (v_ring v) (open_active (sl_active_base (v_slot v)) (v_files v)).

(** [append_index_entry]: an index may lose an entry, or end in a part of one. *)
Definition append_entry (room : option nat) (entry : bytes) (file : option bytes) : option bytes :=
  let file := default [] file in
  Some (write_all_at room file (len file) entry).2.

Definition index_entry (base active pos : Z) : bytes := be_bytes 4 (base - active) ++ be_bytes 4 pos.
Definition time_index_entry (ts offset active : Z) : bytes := be_bytes 8 ts ++ be_bytes 4 (offset - active).

Definition add_entries (indexable : bool) (time_entry : option (Z * Z)) (base active pos : Z) (f : SegFile) : SegFile :=
  if indexable then
    mk_segfile (sf_log f) (append_entry index_room (index_entry base active pos) (sf_index f))
      (match time_entry with
       | Some (ts, offset) => append_entry time_room (time_index_entry ts offset active) (sf_time f)
       | None => sf_time f
       end) (sf_mtime f)
  else f.

(** [write_raw] after the roll: at the end of the active segment. *)
Definition write_active (bs : bytes) (base : Z) : ST View StoreError unit := λ v,
  let st := v_slot v in
  let st := if sl_since st =? 0 then with_since now st else st in
  let pos := sl_active_bytes st in
  let active := sl_active_base st in
  let '(max_ts, max_offset) := later (sl_max_ts st, sl_max_ts_offset st) bs base in
  let time_entry := if (sl_time_indexed st <? max_ts) && (active <=? max_offset) then Some (max_ts, max_offset) else None in
  let entries := default [] (v_hints v !! active) in
  let indexable := sparse entries pos in
  let files := open_active active (v_files v) in
  let f := default (mk_segfile [] None None now) (files !! active) in
  let '(written, log) := write_all_at log_room (sf_log f) pos bs in
  let f := mk_segfile log (sf_index f) (sf_time f) now in
  if written then
    let hints := <[active := if indexable then entries ++ [(base, pos)] else entries]> (v_hints v) in
    let indexed := match time_entry with Some (ts, _) => if indexable then ts else sl_time_indexed st | None => sl_time_indexed st end in
    (Ok tt, mk_view (with_active active (pos + len bs) max_ts max_offset indexed st) hints (v_ring v)
              (<[active := add_entries indexable time_entry base active pos f]> files))
  else (Err (Io "FileWrite"), mk_view st (<[active := entries]> (v_hints v)) (v_ring v) (<[active := f]> files)).

Definition write_raw (bs : bytes) (base : Z) : ST View StoreError unit := λ v,
  write_active bs base (if roll_due (v_slot v) (len bs) then roll base v else v).

Definition write_batch (b : RawBatch) (epoch base : Z) : ST View StoreError unit := λ v,
  match validated crc32c (rw_bytes b) with
  | Err _ => (Err CorruptBatch, v)
  | Ok view =>
      (let* _ := write_raw (Records.stamp view base epoch) base in
       λ v, (Ok tt, on_slot (with_next (base + rw_last_offset_delta b + 1)) v)) v
  end.

(** The critical section of [append]: the epoch and the offset are decided together. *)
Definition append_section (topic seed : Z) (b : RawBatch) : ST View StoreError Z := λ v,
  let v := on_slot (with_bounds (roll_bounds topic).1 (roll_bounds topic).2) v in
  (let* epoch := epoch_for_append seed in
   λ v, (let base := sl_next (v_slot v) in write_batch b epoch base;;; ret base) v) v.

Definition seg_append (p : Z * Z) (b : RawBatch) : ST SegStore StoreError Z := λ s,
  match leader_epoch p (ss_meta s) with
  | Err e => (Err e, s)
  | Ok seed => with_slot p (append_section p.1 seed b) s
  end.

(** ** Reservations *)

Definition pending_section (topic seed : Z) (b : RawBatch) (reserve_ : bool) : ST View StoreError (Z * Z) := λ v,
  let v := on_slot (with_bounds (roll_bounds topic).1 (roll_bounds topic).2) v in
  (let* epoch := epoch_for_append seed in
   λ v,
     let base := sl_next (v_slot v) in
     if reserve_ && (length (v_ring v) <=? len_ (sl_pending (v_slot v)))%nat then (Err (Io "the reservation ring is full"), v)
     else
       (write_batch b epoch base;;;
        λ v,
          if reserve_ then
            let '(_, r, ring) := reserve (sl_pending (v_slot v)) (v_ring v) base in
            (Ok (base, base + rw_last_offset_delta b),
             mk_view (with_pending r (v_slot v)) (v_hints v) ring (v_files v))
          else (Ok (base, base + rw_last_offset_delta b), v)) v) v.

Definition append_pending (p : Z * Z) (b : RawBatch) (reserve_ : bool) : ST SegStore StoreError (Z * Z) := λ s,
  match leader_epoch p (ss_meta s) with
  | Err e => (Err e, s)
  | Ok seed => with_slot p (pending_section p.1 seed b reserve_) s
  end.

(** The slots of a shard, in order. *)
Definition shard_slots (p : Z * Z) : list Z :=
  (λ i, shard_of p * SLOTS_PER_SHARD + Z.of_nat i) <$> seq 0 (Z.to_nat SLOTS_PER_SHARD).

Definition release_pending (p : Z * Z) (base : Z) (s : SegStore) : SegStore :=
  match list_find (λ k, holds p (slot_at s k)) (shard_slots p) with
  | Some (_, k) =>
      let st := slot_at s k in
      let '(_, r, ring) := PendingRing.release (sl_pending st) (ring_mut (sl_ring st) s) base in
      on_rings <[sl_ring st := ring]> (on_slots <[k := with_pending r st]> s)
  | None => s
  end.

Definition seg_high_watermark (p : Z * Z) : ST SegStore StoreError Z :=
  with_slot p (λ v, (Ok (sl_next (v_slot v)), v)).

Definition seg_last_stable_offset (p : Z * Z) : ST SegStore StoreError Z :=
  let* pending := with_slot p (λ v, (Ok (pending_floor (v_slot v)), v)) in
  λ s, (Ok (match kafka_txn_lso ongoing p (ss_meta s) with
            | Some kafka => if 0 <=? kafka then Z.min pending kafka else pending
            | None => pending
            end), s).

(** Of a slot that is there: none is made. *)
Definition tracked {A} (f : Slot → A) (p : Z * Z) (s : SegStore) : option A :=
  match find_slot p s with Found k => Some (f (slot_at s k)) | _ => None end.
Definition last_stable_offset_if_tracked : Z * Z → SegStore → option Z := tracked pending_floor.
Definition high_watermark_if_tracked : Z * Z → SegStore → option Z := tracked sl_next.

(** The whole shard is searched, past free slots. *)
Definition slot_snapshot (p : Z * Z) (s : SegStore) : option (Z * Z * Z) :=
  match list_find (λ k, holds p (slot_at s k)) (probe_at p <$> seq 0 (Z.to_nat SLOTS_PER_SHARD)) with
  | Some (_, k) => let st := slot_at s k in Some (sl_active_base st, sl_generation st, sl_active_bytes st)
  | None => None
  end.

(** A batch of the leader, written as it is where it belongs. *)
Definition replicate_section (bs : bytes) (b : RecordBatch) (expected : Z) : ST View StoreError Z := λ v,
  if negb (sl_next (v_slot v) =? expected) then (Err (Io "replication position moved"), v)
  else if negb (base_offset b =? sl_next (v_slot v)) then (Err (Io "a gap or overlap"), v)
  else
    (write_raw bs (base_offset b);;;
     λ v, (Ok (base_offset b), on_slot (with_next (last_offset b + 1)) v)) v.

Definition append_replicated (p : Z * Z) (bs : bytes) (expected : Z) : ST SegStore StoreError Z := λ s,
  match validated crc32c bs with
  | Err _ => (Err CorruptBatch, s)
  | Ok b => with_slot p (replicate_section bs b expected) s
  end.

(** ** Reading *)

Record ReadState : Type := mk_read { rd_out : bytes; rd_next : Z; rd_aborted : list (Z * Z) }.

(** A batch of a transaction of [kafgres_produce()] without a committed marker. *)
Definition orphan (committed : option (list Z)) (header : bytes) : bool :=
  match committed with
  | None => false
  | Some c =>
      is_transactional (mk_batch header) && negb (is_control (mk_batch header)) && is_marker_backed header &&
      negb (bool_decide (base_of header ∈ c))
  end.

(** The loop over the batches of a segment: whether the read is full. *)
Fixpoint read_batches (fuel : nat) (file : bytes) (data_end offset max_bytes ceiling : Z) (committed : option (list Z))
    (pos : Z) (r : ReadState) : bool * ReadState :=
  match fuel with
  | O => (false, r)
  | S fuel =>
      match header_at file data_end pos with
      | None => (false, r)
      | Some header =>
          let total := total_of header in
          if data_end <? pos + total then (false, r)
          else
            let batch_base := base_of header in
            let batch_last := batch_base + last_offset_delta_of header in
            if batch_last <? offset then
              read_batches fuel file data_end offset max_bytes ceiling committed (pos + total) r
            else if ceiling <=? batch_base then (false, r)
            else
              let aborted := if orphan committed header then rd_aborted r ++ [(producer_id (mk_batch header), batch_base)]
                             else rd_aborted r in
              let r := mk_read (rd_out r) (rd_next r) aborted in
              if (0 <? len (rd_out r)) && (max_bytes <? len (rd_out r) + total) then (true, r)
              else
                let buf := file_at file pos total in
                if negb (len buf =? total) then (false, r)
                else
                  let r := mk_read (rd_out r ++ buf) (batch_last + 1) aborted in
                  if max_bytes <=? len (rd_out r) then (true, r)
                  else read_batches fuel file data_end offset max_bytes ceiling committed (pos + total) r
      end
  end.

(** The byte position the hints give for an offset. *)
Definition hint_for (entries : list (Z * Z)) (next : Z) : Z :=
  match list_find (λ e : Z * Z, e.1 ≤ next) (reverse entries) with
  | Some (_, (_, pos)) => pos
  | None => 0
  end.

(** The bytes of a segment in use. *)
Definition data_end (st : Slot) (base : Z) (f : SegFile) : Z :=
  if base =? sl_active_base st then sl_active_bytes st else len (sf_log f).

(** The loop over the segments; the second list is those found gone. *)
Fixpoint read_segments (v : View) (bases : list Z) (log_start offset max_bytes ceiling : Z) (committed : option (list Z))
    (gone : list Z) (r : ReadState) : result StoreError (list Z * ReadState) :=
  match bases with
  | [] => Ok (gone, r)
  | base :: rest =>
      if match rest with next_base :: _ => next_base <=? offset | [] => false end
      then read_segments v rest log_start offset max_bytes ceiling committed gone r
      else
        match v_files v !! base with
        | None =>
            if match rest with next_base :: _ => next_base <=? log_start | [] => false end
            then read_segments v rest log_start offset max_bytes ceiling committed (gone ++ [base]) r
            else Err (Io "cannot open")
        | Some f =>
            let pos := match v_hints v !! base with Some entries => hint_for entries (rd_next r) | None => 0 end in
            let '(full, r) := read_batches (length (sf_log f)) (sf_log f) (data_end (v_slot v) base f) offset max_bytes
                                ceiling committed pos r in
            if full then Ok (gone, r)
            else read_segments v rest log_start offset max_bytes ceiling committed gone r
        end
  end.

Definition read_section (bases : list Z) (log_start offset max_bytes ceiling : Z) (committed : option (list Z))
    : ST View StoreError ReadState := λ v,
  match read_segments v bases log_start offset max_bytes ceiling committed [] (mk_read [] offset []) with
  | Err e => (Err e, v)
  | Ok (gone, r) => (Ok r, mk_view (v_slot v) (foldl (λ h b, delete b h) (v_hints v) gone) (v_ring v) (v_files v))
  end.

Definition seg_read (p : Z * Z) (offset max_bytes : Z) (iso : IsolationLevel) : ST SegStore StoreError FetchSlice := λ s,
  match log_start_offset p (ss_meta s) with
  | Err e => (Err e, s)
  | Ok log_start =>
      (let* hw := seg_high_watermark p in
       let* lso := seg_last_stable_offset p in
       let ceiling := match iso with ReadCommitted => lso | ReadUncommitted => hw end in
       if (offset <? log_start) || (hw <? offset) then throw OffsetOutOfRange
       else if offset <? ceiling then
         λ s,
           let bases := segment_bases (dir p s) in
           let '(committed, ceiling) :=
             match iso with
             | ReadCommitted => let '(set, capped) := committed_markers p offset ceiling (ss_meta s) in (Some set, capped)
             | ReadUncommitted => (None, ceiling)
             end in
           (let* r := with_slot p (read_section bases log_start offset max_bytes ceiling committed) in
            λ s,
              let listed := match iso with
                            | ReadCommitted => aborted_txns p offset (Z.max (rd_next r) (offset + 1)) (ss_meta s)
                            | ReadUncommitted => []
                            end in
              (Ok (mk_slice (rd_out r) (rd_next r) hw log_start lso (rd_aborted r ++ listed)), s)) s
       else ret (mk_slice [] offset hw log_start lso [])) s
  end.

(** ** Lookups by time *)

Inductive Sought : Type := Missing | Hit (pos total : Z).

(** The first batch from a position on whose latest timestamp is late enough. *)
Fixpoint seek_time (fuel : nat) (file : bytes) (data_end timestamp pos : Z) : Sought :=
  match fuel with
  | O => Missing
  | S fuel =>
      match header_at file data_end pos with
      | None => Missing
      | Some header =>
          if data_end <? pos + total_of header then Missing
          else if timestamp <=? max_timestamp (mk_batch header) then Hit pos (total_of header)
          else seek_time fuel file data_end timestamp (pos + total_of header)
      end
  end.

Fixpoint time_in_segments (v : View) (bases : list Z) (timestamp : Z) : result StoreError (option (Z * Z)) :=
  match bases with
  | [] => Ok None
  | base :: rest =>
      match v_files v !! base with
      | None => time_in_segments v rest timestamp
      | Some f =>
          let end_ := data_end (v_slot v) base f in
          let pos := Z.min (time_index_seek f base timestamp (v_hints v !! base)) end_ in
          match seek_time (length (sf_log f)) (sf_log f) end_ timestamp pos with
          | Hit pos total =>
              let body := file_at (sf_log f) pos total in
              if negb (len body =? total) then Err (Io "short read of the batch")
              else Ok (first_at_or_after entry_size open_decoder body timestamp)
          | Missing => time_in_segments v rest timestamp
          end
      end
  end.

Definition seg_offset_for_timestamp (p : Z * Z) (timestamp : Z) : ST SegStore StoreError (option (Z * Z)) :=
  if timestamp =? -1 then let* o := seg_high_watermark p in ret (Some (o, -1))
  else if timestamp =? -2 then
    λ s, (match log_start_offset p (ss_meta s) with Ok o => Ok (Some (o, -1)) | Err e => Err e end, s)
  else
    λ s, let bases := segment_bases (dir p s) in
         with_slot p (λ v, (time_in_segments v bases timestamp, v)) s.

(** [Winner]: the batch with the latest timestamp so far, the first of equals. *)
Record Winner : Type := mk_winner { wn_ts : Z; wn_base : Z; wn_pos : Z; wn_len : Z }.
Fixpoint find_winner (fuel : nat) (file : bytes) (data_end base pos : Z) (best : option Winner) : option Winner :=
  match fuel with
  | O => best
  | S fuel =>
      match header_at file data_end pos with
      | None => best
      | Some header =>
          let total := total_of header in
          if data_end <? pos + total then best
          else
            let ts := max_timestamp (mk_batch header) in
            let better := match best with Some w => wn_ts w <? ts | None => true end in
            find_winner fuel file data_end base (pos + total) (if better then Some (mk_winner ts base pos total) else best)
      end
  end.
Fixpoint winner_in (files : Files) (active_base active_bytes : Z) (bases : list Z) (best : option Winner) : option Winner :=
  match bases with
  | [] => best
  | base :: rest =>
      if active_base <? base then best
      else
        match files !! base with
        | None => winner_in files active_base active_bytes rest best
        | Some f =>
            let end_ := if base =? active_base then active_bytes else len (sf_log f) in
            winner_in files active_base active_bytes rest (find_winner (length (sf_log f)) (sf_log f) end_ base 0 best)
        end
  end.
Definition seg_max_timestamp_offset (p : Z * Z) : ST SegStore StoreError (option (Z * Z)) := λ s,
  let bases := segment_bases (dir p s) in
  (let* (active_base, active_bytes) := with_slot p (λ v, (Ok (sl_active_base (v_slot v), sl_active_bytes (v_slot v)), v)) in
   λ s,
     (match winner_in (dir p s) active_base active_bytes bases None with
      | None => Ok None
      | Some w =>
          match dir p s !! wn_base w with
          | None => Ok None
          | Some f =>
              let body := file_at (sf_log f) (wn_pos w) (wn_len w) in
              if negb (len body =? wn_len w) then Err (Io "short read of the max-timestamp batch")
              else Ok (offset_of_max_timestamp entry_size open_decoder body)
          end
      end, s)) s.

(** ** Reclaiming *)

Definition partition_bytes (p : Z * Z) (s : SegStore) : Z := foldr Z.add 0 (in_bytes <$> segment_infos (dir p s)).

Record RolledSegment : Type := mk_rolled { ro_base : Z; ro_bytes : Z }.
Definition rolled_segments (files : Files) : list RolledSegment :=
  let infos := segment_infos files in
  (λ i, mk_rolled (in_base i) (in_bytes i)) <$> take (length infos - 1) infos.

(** The two arms of [retention_cutoff]: a sealed segment and the base of the next. *)
Fixpoint age_cutoff (horizon : Z) (l : list SegInfo) (cutoff : Z) : Z :=
  match l with
  | i :: (j :: _) as rest =>
      if in_mtime i <=? horizon then age_cutoff horizon rest (Z.max cutoff (in_base j)) else cutoff
  | _ => cutoff
  end.
Fixpoint bytes_cutoff (over : Z) (l : list SegInfo) (cutoff : Z) : Z :=
  match l with
  | i :: (j :: _) as rest =>
      if over <=? 0 then cutoff else bytes_cutoff (over - in_bytes i) rest (Z.max cutoff (in_base j))
  | _ => cutoff
  end.
Definition seg_retention_cutoff (infos : list SegInfo) (policy : RetentionPolicy) : Z :=
  let cutoff := match retention_ms policy with
                | Some ms => age_cutoff (saturate_i64 (now - ms)) infos 0
                | None => 0
                end in
  match retention_bytes policy with
  | Some budget => bytes_cutoff (foldr Z.add 0 (in_bytes <$> infos) - budget) infos cutoff
  | None => cutoff
  end.

Definition archived_bases (p : Z * Z) (from to : Z) (s : SegStore) : gset Z :=
  filter (λ b, from ≤ b ≤ to) (default ∅ (ss_archive s !! p)).
Definition forget_from (p : Z * Z) (offset : Z) : SegStore → SegStore :=
  on_archive (alter (filter (λ b, ¬ (offset ≤ b))) p).

(** The segments unlinked: sealed ones wholly below the target, a few at a time, and
    with an archive those it has, in order. *)
Fixpoint unlinked (target : Z) (archived : option (gset Z)) (n : Z) (l : list SegInfo) : list Z :=
  match l with
  | i :: (j :: _) as rest =>
      if MAX_SEGMENT_UNLINKS <=? n then []
      else if target <? in_base j then []
      else if match archived with Some done_ => negb (bool_decide (in_base i ∈ done_)) | None => false end then []
      else in_base i :: unlinked target archived (n + 1) rest
  | _ => []
  end.

Definition seg_reclaim (p : Z * Z) (offset : Z) : ST SegStore StoreError Z := λ s,
  match log_start_offset p (ss_meta s) with
  | Err e => (Err e, s)
  | Ok start =>
      let target := Z.max offset start in
      let infos := segment_infos (dir p s) in
      let lowest := match infos with i :: _ => in_base i | [] => 0 end in
      let archived := if archiving then Some (archived_bases p lowest target s) else None in
      let gone := unlinked target archived 0 infos in
      let s := on_dirs (alter (λ files, foldl (λ f b, delete b f) files gone) p) s in
      let s := on_process me (on_hints (alter (λ e : Z * Hints, (e.1, foldl (λ h b, delete b h) e.2 gone)) p)) s in
      (Ok (Z.of_nat (length gone)), on_meta (advance_log_start p target) s)
  end.

Fixpoint seg_reclaim_each (policy : RetentionPolicy) (l : list (Z * Z)) (dropped : Z) : ST SegStore StoreError Z :=
  match l with
  | [] => ret dropped
  | p :: l' =>
      λ s, (let* n := seg_reclaim p (seg_retention_cutoff (segment_infos (dir p s)) policy) in
            seg_reclaim_each policy l' (dropped + n)) s
  end.
Definition seg_enforce_retention (topic : Z) (policy : RetentionPolicy) : ST SegStore StoreError Z := λ s,
  match retention_ms policy, retention_bytes policy with
  | None, None => (Ok 0, s)
  | _, _ => seg_reclaim_each policy (filter (λ p, p.1 = topic) (map_to_list (partitions (ss_meta s))).*1) 0 s
  end.

(** ** Truncating to a leader's log *)

(** The position of the first batch at or past an offset, and the size of the file
    where there is none. *)
Fixpoint cut_at (fuel : nat) (file : bytes) (offset pos : Z) : Z :=
  match fuel with
  | O => len file
  | S fuel =>
      match header_at file (len file) pos with
      | None => len file
      | Some header => if offset <=? base_of header then pos else cut_at fuel file offset (pos + total_of header)
      end
  end.

(** The latest timestamp of the batches below a position. *)
Fixpoint max_before (fuel : nat) (file : bytes) (cut scan : Z) (best : Z * Z) : Z * Z :=
  match fuel with
  | O => best
  | S fuel =>
      match header_at file cut scan with
      | None => best
      | Some header => max_before fuel file cut (scan + total_of header) (later best header (base_of header))
      end
  end.

(** The loop over the segments, the last first. *)
Fixpoint truncate_segments (offset : Z) (bases : list Z) : ST View StoreError bool :=
  match bases with
  | [] => ret false
  | base :: rest =>
      λ v,
        if offset <=? base then
          truncate_segments offset rest
            (mk_view (v_slot v) (delete base (v_hints v)) (v_ring v) (delete base (v_files v)))
        else
          match v_files v !! base with
          | None => (Err (Io "cannot open"), v)
          | Some f =>
              let cut := cut_at (length (sf_log f)) (sf_log f) offset 0 in
              let log := cut_file (sf_log f) cut in
              let '(ts, at_) := max_before (length log) log cut 0 (i64_min, -1) in
              (Ok true, mk_view (with_active base cut ts at_ i64_min (v_slot v)) (delete base (v_hints v)) (v_ring v)
                          (<[base := mk_segfile log None None now]> (v_files v)))
          end
  end.

Definition truncate_section (bases : list Z) (offset : Z) : ST View StoreError Z := λ v,
  if sl_next (v_slot v) <=? offset then (Ok 0, v)
  else
    let removed := sl_next (v_slot v) - offset in
    (let* in_place := truncate_segments offset (reverse bases) in
     λ v,
       let st := if in_place then v_slot v else with_active offset 0 i64_min (-1) i64_min (v_slot v) in
       (Ok removed, mk_view (with_next offset (with_new_layout st)) (v_hints v) (v_ring v) (v_files v))) v.

Definition truncate_to (p : Z * Z) (offset : Z) : ST SegStore StoreError Z := λ s,
  let s := on_process me (λ m, forget_all_cleaned p (on_plans (delete p) m)) s in
  let bases := segment_bases (dir p s) in
  (let* removed := with_slot p (truncate_section bases offset) in
   λ s, (Ok removed, forget_from p offset s)) s.

(** ** Partitions *)

Definition seg_create_partition (p : Z * Z) (epoch : Z) (s : SegStore) : SegStore :=
  on_dirs (partial_alter (λ d, Some (default ∅ d)) p) (on_meta (create_partition p epoch) s).

Definition free_slots (p : Z * Z) (slots : gmap Z Slot) : gmap Z Slot :=
  foldl (λ m k, if holds p (default slot_default (m !! k)) then <[k := slot_default]> m else m) slots (shard_slots p).

Definition forget_memory (p : Z * Z) (m : Process) : Process := on_hints (delete p) (on_plans (delete p) m).

Definition seg_drop_partition (p : Z * Z) (s : SegStore) : SegStore :=
  let s := on_meta (drop_partition p) s in
  let s := on_dirs (delete p) s in
  let s := on_process me (λ m, forget_all_cleaned p (forget_memory p m)) s in
  on_slots (free_slots p) s.

(** [forget_dropped]: the memory of partitions another process dropped. *)
Definition held_partitions (m : Process) : gset (Z * Z) := dom (pr_plans m) ∪ dom (pr_hints m).
Definition forget_dropped (s : SegStore) : Z * SegStore :=
  let gone := elements (filter (λ p, partitions (ss_meta s) !! p = None) (held_partitions (process me s))) in
  (Z.of_nat (length gone), on_process me (λ m, foldl (λ m p, forget_memory p m) m gone) s).

Definition seg_set_leader_epoch (p : Z * Z) (epoch : Z) : ST SegStore StoreError bool := λ s,
  match leader_epoch p (ss_meta s) with
  | Err e => (Err e, s)
  | Ok current =>
      if epoch <=? current then (Ok false, s)
      else
        (let* start := with_slot p (λ v, (Ok (sl_next (v_slot v)), on_slot (with_epoch epoch) v)) in
         λ s, (Ok true, on_meta (record_epoch p epoch start) s)) s
  end.

End Engine.
