(* ===== verification/SegmentFiles.v ===== *)
(** * The segment engine: segment files

    A segment file is batches, one after the other.  What the loops over a file find
    at a batch ([header_at_whole]), that scanning it finds exactly the batches up to
    the first that is not whole ([scan_exact]), and with it recovery: of whatever
    prefix of the log a crash leaves, the whole batches are kept and the rest is cut. *)

From stdpp Require Import gmap sorting.
From S2P Require Import Prelude Errors Records RecordIter Build Compaction Cleaner PendingRing Pmeta Store Config Table TableSpec Segment.

(** ** Headers *)

Section Files.

Variable crc32c : bytes → Z.

Definition whole (x : bytes) : Prop := validated crc32c x = Ok (mk_batch x).
Definition last_of (x : bytes) : Z := base_of x + last_offset_delta_of x.

Lemma validated_whole bs b : validated crc32c bs = Ok b → whole bs ∧ b = mk_batch bs.
Proof using Type.
  intros H. pose proof H as H'. apply validated_ok in H' as [Hn _]. apply batch_new_ok in Hn as (-> & _). by split.
Qed.

Record sound (x : bytes) : Prop := mk_sound {
  sd_long : HEADER ≤ len x;
  sd_length : 0 < length_of x;
  sd_total : total_of x = len x;
  sd_delta : 0 ≤ last_offset_delta_of x }.

Lemma whole_sound x : whole x → sound x.
Proof using Type.
  intros H. apply validated_ok in H as [Hn _]. apply batch_new_ok in Hn as (_ & Hl & _ & Hb & Hd & _).
  assert (Hlen : HEADER ≤ len x) by (unfold HEADER, len; lia).
  unfold batch_length in Hb. unfold last_offset_delta in Hd. cbn [rb_bytes] in *. fold (length_of x) in Hb. split.
  - done.
  - unfold HEADER, RECORD_BATCH_OVERHEAD in *. lia.
  - unfold total_of. change (Z.of_nat LENGTH_OFFSET + 4) with 12. lia.
  - unfold last_offset_delta_of. rewrite (proj2 (Nat.leb_le _ _)); [done |]. off_lia.
Qed.

(** The first 61 bytes, and what is read of them. *)
Definition head_of (x : bytes) : bytes := take RECORD_BATCH_OVERHEAD x.

Lemma read_i_head off n x : (off + n ≤ RECORD_BATCH_OVERHEAD)%nat → read_i off n (head_of x) = read_i off n x.
Proof using Type.
  intros H. apply read_i_eq. unfold slice, head_of. rewrite !take_drop_commute, take_take. by rewrite Nat.min_l.
Qed.

Lemma head_length x : HEADER ≤ len x → len (head_of x) = HEADER.
Proof using Type. unfold HEADER, len, head_of. rewrite length_take. lia. Qed.

Lemma head_fields x : HEADER ≤ len x →
  length_of (head_of x) = length_of x ∧ total_of (head_of x) = total_of x ∧ base_of (head_of x) = base_of x ∧
  last_offset_delta_of (head_of x) = last_offset_delta_of x ∧ max_timestamp_of (head_of x) = max_timestamp_of x ∧
  max_timestamp (mk_batch (head_of x)) = max_timestamp (mk_batch x).
Proof using Type.
  intros H. pose proof (head_length x H) as Hh.
  assert (Hl : length_of (head_of x) = length_of x) by (apply read_i_head; off_lia).
  assert (Hb : base_of (head_of x) = base_of x) by (apply read_i_head; off_lia).
  assert (Hm : read_i MAX_TIMESTAMP_OFFSET 8 (head_of x) = read_i MAX_TIMESTAMP_OFFSET 8 x) by (apply read_i_head; off_lia).
  assert (Hd : read_i LAST_OFFSET_DELTA_OFFSET 4 (head_of x) = read_i LAST_OFFSET_DELTA_OFFSET 4 x) by (apply read_i_head; off_lia).
  split_and!; [done | by unfold total_of; rewrite Hl | done | | | done].
  - unfold last_offset_delta_of. rewrite Hd. unfold HEADER, len in *. rewrite !(proj2 (Nat.leb_le _ _)); [done | off_lia..].
  - unfold max_timestamp_of. rewrite Hm, Hh. rewrite (proj2 (Z.ltb_ge (len x) HEADER)) by lia. by rewrite Z.ltb_irrefl.
Qed.

Lemma file_at_app a x b n : n ≤ len x → file_at (a ++ x ++ b) (len a) n = take (Z.to_nat n) x.
Proof using Type.
  intros Hn. unfold file_at. rewrite drop_len_app. rewrite take_app_le; [done |]. unfold len in Hn. lia.
Qed.

(** What the loops find at a batch, and that they stop behind the last. *)
Lemma header_at_whole a x b data_end :
  sound x → len a + len x ≤ data_end → header_at (a ++ x ++ b) data_end (len a) = Some (head_of x).
Proof using Type.
  intros [Hl Hp _ _] Hend. unfold header_at. rewrite (proj2 (Z.ltb_ge _ _)) by lia.
  rewrite file_at_app by done. change (take (Z.to_nat HEADER) x) with (head_of x).
  rewrite head_length, Z.eqb_refl by done. cbn [negb]. destruct (head_fields x Hl) as (-> & _).
  by rewrite (proj2 (Z.leb_gt _ _)).
Qed.

Lemma header_at_end file pos : header_at file pos pos = None.
Proof using Type. unfold header_at, HEADER. by rewrite (proj2 (Z.ltb_lt _ _)) by (unfold RECORD_BATCH_OVERHEAD; lia). Qed.

Lemma head_total x : sound x → total_of (head_of x) = len x.
Proof using Type. intros [Hl _ Ht _]. destruct (head_fields x Hl) as (_ & -> & _). done. Qed.

Lemma head_last x : sound x → base_of (head_of x) + last_offset_delta_of (head_of x) = last_of x.
Proof using Type. intros [Hl _ _ _]. destruct (head_fields x Hl) as (_ & _ & -> & -> & _). done. Qed.

(** ** Runs of batches *)

(** Batches that cover the offsets from [b] to [e], in order; and without a gap. *)
Fixpoint ascending (b : Z) (l : list bytes) (e : Z) : Prop :=
  match l with
  | [] => b ≤ e
  | x :: l' => whole x ∧ b ≤ base_of x ∧ ascending (last_of x + 1) l' e
  end.
Fixpoint dense (b : Z) (l : list bytes) (e : Z) : Prop :=
  match l with
  | [] => b = e
  | x :: l' => whole x ∧ base_of x = b ∧ dense (last_of x + 1) l' e
  end.

Lemma dense_ascending b l e : dense b l e → ascending b l e.
Proof using Type. revert b. induction l as [|x l IH]; cbn; intros b; [lia |]. intros (? & ? & ?). split_and!; [done | lia | auto]. Qed.

Lemma ascending_whole b l e : ascending b l e → Forall whole l.
Proof using Type. revert b. induction l as [|x l IH]; cbn; intros b H; [done |]. destruct H as (? & ? & H). constructor; [done | by eapply IH]. Qed.

Lemma last_of_base x : whole x → base_of x ≤ last_of x.
Proof using Type. intros H. pose proof (sd_delta _ (whole_sound _ H)). unfold last_of. lia. Qed.

Lemma ascending_le b l e : ascending b l e → b ≤ e.
Proof using Type.
  revert b. induction l as [|x l IH]; cbn; intros b; [done |]. intros (Hw & Hb & Ha).
  pose proof (IH _ Ha). pose proof (last_of_base x Hw). lia.
Qed.

Lemma ascending_weaken b b' l e e' : b' ≤ b → e ≤ e' → ascending b l e → ascending b' l e'.
Proof using Type.
  revert b b'. induction l as [|x l IH]; cbn; intros b b' Hb He; [lia |]. intros (Hw & Hx & Ha). split_and!; [done | lia |].
  eapply IH; [| done | done]. lia.
Qed.

Lemma ascending_app b l1 l2 e : ascending b (l1 ++ l2) e ↔ ∃ m, ascending b l1 m ∧ ascending m l2 e.
Proof using Type.
  revert b. induction l1 as [|x l1 IH]; intros b; cbn.
  - split; [intros H; by exists b |]. intros (m & Hb & H). by eapply ascending_weaken; [| | exact H].
  - rewrite IH. naive_solver.
Qed.

Lemma dense_app b l1 l2 e : dense b (l1 ++ l2) e ↔ ∃ m, dense b l1 m ∧ dense m l2 e.
Proof using Type.
  revert b. induction l1 as [|x l1 IH]; intros b; cbn.
  - split; [intros H; by exists b | intros (m & <- & H); done].
  - setoid_rewrite IH. split.
    + intros (Hw & Hb & m & H1 & H2). by exists m.
    + intros (m & (Hw & Hb & H1) & H2). split_and!; [done | done |]. by exists m.
Qed.

(** Batches before one end below it. *)
Lemma ascending_in b l e x : ascending b l e → x ∈ l → whole x ∧ b ≤ base_of x ∧ last_of x < e.
Proof using Type.
  revert b. induction l as [|y l IH]; intros b H Hx; [by apply elem_of_nil in Hx |]. cbn in H. destruct H as (Hw & Hb & Ha).
  pose proof (last_of_base y Hw). apply elem_of_cons in Hx as [->|Hx].
  - pose proof (ascending_le _ _ _ Ha). split_and!; [done | done | lia].
  - destruct (IH _ Ha Hx) as (? & ? & ?). split_and!; [done | lia | done].
Qed.

Lemma concat_len_snoc (l : list bytes) x : len (concat (l ++ [x])) = len (concat l) + len x.
Proof using Type. rewrite concat_app. cbn. by rewrite app_nil_r, len_app. Qed.

(** ** Scanning *)

(** Nothing at its front is a whole batch. *)
Definition torn (tail : bytes) : Prop := ∀ x rest, tail = x ++ rest → ¬ whole x.

Lemma torn_nil : torn [].
Proof using Type.
  intros x rest H. symmetry in H. apply app_nil in H as [-> _]. intros Hw. pose proof (sd_long _ (whole_sound _ Hw)) as H.
  change (61 ≤ 0) in H. lia.
Qed.

(** The length a batch declares is its own, so no proper prefix of it is one. *)
Lemma prefix_torn y t rest : whole y → y = t ++ rest → rest ≠ [] → torn t.
Proof using Type.
  intros Hy Heq Hne x r -> Hx. rewrite <- app_assoc in Heq.
  destruct (whole_sound _ Hx) as [Hxl _ Hxt _]. destruct (whole_sound _ Hy) as [Hyl _ Hyt _].
  assert (Hlen : length_of y = length_of x).
  { subst y. apply read_i_eq, slice_app_l. unfold HEADER, len in Hxl. off_lia. }
  assert (len y = len x) by (rewrite <- Hyt, <- Hxt; unfold total_of; by rewrite Hlen).
  subst y. rewrite !len_app in *. pose proof (len_nonneg r). destruct rest as [|z rest]; [done |].
  rewrite len_cons in *. pose proof (len_nonneg rest). lia.
Qed.

Lemma scan_stops fuel a tail s : torn tail → sc_pos s = len a → scan_from crc32c fuel (a ++ tail) s = s.
Proof using Type.
  intros Ht Hp. destruct fuel as [|fuel]; [done |]. cbn [scan_from]. destruct (header_at _ _ _) as [h|]; [| done].
  destruct (Z.ltb_spec (len (a ++ tail)) (sc_pos s + total_of h)) as [|Hfit]; [done |].
  rewrite Hp. unfold file_at. rewrite drop_len_app. destruct (validated crc32c _) as [b|] eqn:E; [| done]. exfalso.
  apply validated_whole in E as [E _]. eapply Ht; [| exact E]. symmetry. apply take_drop.
Qed.

Lemma scan_exact fuel a l tail s :
  Forall whole l → torn tail → sc_pos s = len a → (length l ≤ fuel)%nat →
  scan_from crc32c fuel (a ++ concat l ++ tail) s = foldl scan_batch s l.
Proof using Type.
  revert fuel a s. induction l as [|x l IH]; intros fuel a s Hl Ht Hp Hf; cbn [concat foldl].
  { by apply scan_stops. }
  apply Forall_cons in Hl as [Hx Hl]. pose proof (whole_sound _ Hx) as Hs. destruct fuel as [|fuel]; [cbn in Hf; lia |].
  cbn [scan_from]. rewrite <- !app_assoc, Hp. rewrite header_at_whole, head_total; [| done | done |].
  2: { rewrite !len_app. pose proof (len_nonneg (concat l)). pose proof (len_nonneg tail). lia. }
  rewrite (proj2 (Z.ltb_ge _ _)).
  2: { rewrite !len_app. pose proof (len_nonneg (concat l)). pose proof (len_nonneg tail). lia. }
  rewrite file_at_app by done. rewrite (take_ge x) by (unfold len; lia). rewrite Hx.
  replace (a ++ x ++ concat l ++ tail) with ((a ++ x) ++ concat l ++ tail) by (by rewrite <- app_assoc).
  apply IH; [done | done | | cbn in Hf; lia]. cbn. rewrite Hp, len_app. done.
Qed.

Lemma length_concat l : Forall whole l → (length l ≤ length (concat l))%nat.
Proof using Type.
  induction 1 as [|x l Hx Hl IH]; cbn; [done |]. rewrite length_app. pose proof (sd_long _ (whole_sound _ Hx)) as H.
  unfold HEADER, RECORD_BATCH_OVERHEAD, len in H. lia.
Qed.

(** What [read_segment] collects over a run of batches. *)
Definition scanned (base : Z) (l : list bytes) : Scan := foldl scan_batch (mk_scan [] 0 base (i64_min, -1)) l.

Lemma read_segment_exact base l tail : Forall whole l → torn tail → read_segment crc32c base (concat l ++ tail) = scanned base l.
Proof using Type.
  intros Hl Ht. unfold read_segment. apply (scan_exact _ [] l tail); [done | done | done |].
  pose proof (length_concat l Hl). rewrite length_app. lia.
Qed.

Lemma scanned_snoc base l x : scanned base (l ++ [x]) = scan_batch (scanned base l) x.
Proof using Type. unfold scanned. by rewrite foldl_app. Qed.

Lemma scanned_pos base l : sc_pos (scanned base l) = len (concat l).
Proof using Type.
  induction l as [|x l IH] using rev_ind; [done |]. rewrite scanned_snoc, concat_len_snoc. cbn. by rewrite IH.
Qed.

Lemma scanned_next base l e : dense base l e → sc_next (scanned base l) = e.
Proof using Type.
  induction l as [|x l IH] using rev_ind in e |- *; [done |]. intros (m & H1 & Hx & _ & He)%dense_app. rewrite scanned_snoc. done.
Qed.

(** ** Index entries *)

(** Entries name the base and the position of a batch. *)
Definition names (l : list bytes) (entry : Z * Z) : Prop :=
  ∃ l1 x l2, l = l1 ++ x :: l2 ∧ entry = (base_of x, len (concat l1)).

Lemma names_app l l' entry : names l entry → names (l ++ l') entry.
Proof using Type. intros (l1 & x & l2 & -> & ->). exists l1, x, (l2 ++ l'). by rewrite <- app_assoc. Qed.

Lemma names_last l x : names (l ++ [x]) (base_of x, len (concat l)).
Proof using Type. by exists l, x, []. Qed.

Lemma scanned_index base l : Forall (names l) (sc_index (scanned base l)).
Proof using Type.
  induction l as [|x l IH] using rev_ind; [constructor |]. rewrite scanned_snoc. cbn.
  assert (H : Forall (names (l ++ [x])) (sc_index (scanned base l))) by (eapply Forall_impl; [exact IH |]; intros; by apply names_app).
  case_match; [| done]. apply Forall_app. split; [done |]. constructor; [| done]. rewrite scanned_pos. apply names_last.
Qed.

(** ** Torn logs *)

(** A prefix of a log is whole batches and a torn one. *)
Lemma prefix_split l n : Forall whole l →
  ∃ l1 l2 tail, l = l1 ++ l2 ∧ take n (concat l) = concat l1 ++ tail ∧ torn tail ∧
    (l2 = [] → tail = []) ∧ (∀ x l', l2 = x :: l' → (n < length (concat l1) + length x)%nat).
Proof using Type.
  revert n. induction l as [|x l IH]; intros n Hl.
  { exists [], [], []. cbn. rewrite take_nil. split_and!; [done | done | apply torn_nil | done | done]. }
  apply Forall_cons in Hl as [Hx Hl]. cbn [concat]. destruct (Nat.le_gt_cases (length x) n) as [Hn|Hn].
  - destruct (IH (n - length x)%nat Hl) as (l1 & l2 & tail & -> & Ht & Htorn & Hnil & Hlt).
    exists (x :: l1), l2, tail. cbn [concat app]. rewrite take_app_ge by done. rewrite Ht, <- app_assoc. split_and!; [done | done | done | done |].
    intros y l' Hy. specialize (Hlt y l' Hy). rewrite length_app. lia.
  - exists [], (x :: l), (take n x). cbn. rewrite take_app_le by lia. split_and!; [done | done | | done |].
    + eapply prefix_torn; [exact Hx | symmetry; apply take_drop |]. intros H. apply (f_equal length) in H.
      rewrite length_drop in H. cbn in H. lia.
    + intros y l' [= <- <-]. lia.
Qed.

End Files.
