(* ===== verification/SegmentView.v ===== *)
(** * The segment engine: a partition and what appending does to it

    [holds_log] says which batches a partition holds: those of the sealed segments
    and those of the active one, without a gap up to the next offset.  [hints_ok] says
    that hints name batches.  Writing a batch, with or without leaving the active
    segment, adds it at the end and nothing else. *)

From stdpp Require Import gmap sorting.
From S2P Require Import Prelude Errors Records RecordIter Build Compaction Cleaner PendingRing Pmeta Store Config Table TableSpec Segment SegmentFiles.

(** ** Directories in order *)

Definition logs_of (files : Files) : list (Z * bytes) := (λ e : Z * SegFile, (e.1, sf_log e.2)) <$> in_order files.

Lemma logs_of_keys files : (logs_of files).*1 = (in_order files).*1.
Proof. unfold logs_of. rewrite <- list_fmap_compose. apply list_fmap_ext. done. Qed.

Lemma logs_of_elem files b bs : (b, bs) ∈ logs_of files ↔ ∃ f, files !! b = Some f ∧ sf_log f = bs.
Proof.
  unfold logs_of. rewrite list_elem_of_fmap. split.
  - intros ([b' f] & [= -> ->] & H%in_order_elem). by exists f.
  - intros (f & H & <-). exists (b, f). split; [done | by apply in_order_elem].
Qed.

Lemma logs_of_sorted files : StronglySorted (<) (logs_of files).*1.
Proof. rewrite logs_of_keys. apply in_order_sorted. Qed.

(** A directory is determined by its names and logs. *)
Lemma logs_of_unique files l :
  StronglySorted (<) l.*1 → (∀ b bs, (b, bs) ∈ l ↔ ∃ f, files !! b = Some f ∧ sf_log f = bs) → logs_of files = l.
Proof.
  intros Hs H. apply sorted_unique; [apply logs_of_sorted | done |]. intros [b bs]. by rewrite H, logs_of_elem.
Qed.

Lemma logs_sorted_snoc (l : list Z) x : StronglySorted (<) l → (∀ y, y ∈ l → y < x) → StronglySorted (<) (l ++ [x]).
Proof.
  induction 1 as [|a l Hs IH Ha]; cbn; intros Hx; [repeat constructor |]. constructor.
  - apply IH. intros y Hy. apply Hx. by right.
  - apply Forall_app. split; [done |]. constructor; [| done]. apply Hx. by left.
Qed.

(** Putting a file behind all others, in place of one of that name or not. *)
Lemma logs_of_put files b f l tail :
  logs_of files = l ++ tail → (∀ e, e ∈ l → e.1 < b) → tail = [] ∨ (∃ bs, tail = [(b, bs)]) →
  logs_of (<[b := f]> files) = l ++ [(b, sf_log f)].
Proof.
  intros Hl Hlt Htail. pose proof (logs_of_sorted files) as Hs. rewrite Hl, fmap_app in Hs.
  apply StronglySorted_app in Hs as (_ & Hs & _). apply logs_of_unique.
  - rewrite fmap_app. cbn. apply logs_sorted_snoc; [done |]. intros y (e & -> & He)%list_elem_of_fmap. by apply Hlt.
  - intros b' bs. rewrite elem_of_app, list_elem_of_singleton.
    assert (Hold : b' ≠ b → (b', bs) ∈ l ↔ ∃ f, files !! b' = Some f ∧ sf_log f = bs).
    { intros Hne. rewrite <- logs_of_elem, Hl, elem_of_app. split; [by left |]. intros [?|Hin]; [done |].
      destruct Htail as [->|[x ->]]; [by apply elem_of_nil in Hin |]. apply list_elem_of_singleton in Hin. congruence. }
    destruct (decide (b' = b)) as [->|Hne].
    + rewrite lookup_insert_eq. split.
      * intros [Hin|[= ->]]; [| by exists f]. pose proof (Hlt _ Hin). cbn in *. lia.
      * intros (f' & [= <-] & <-). by right.
    + rewrite lookup_insert_ne by done. rewrite <- Hold by done. split; [| by left]. intros [?|[= ]]; done.
Qed.

(** ** What a partition holds *)

Section View.

Variable crc32c : bytes → Z.
Abbreviation segments := (list (Z * list bytes)).

Definition segs_of (l : segments) : list (Z * bytes) := (λ e : Z * list bytes, (e.1, concat e.2)) <$> l.
Definition batches_of (l : segments) : list bytes := l ≫= snd.

Definition first_base_of (l : segments) (e : Z) : Z := match l with (b, _) :: _ => b | [] => e end.
(** Segments one after the other without a gap, the last ending at [e]. *)
Fixpoint chained (l : segments) (e : Z) : Prop :=
  match l with
  | [] => True
  | (b, xs) :: rest => b < first_base_of rest e ∧ dense crc32c b xs (first_base_of rest e) ∧ chained rest e
  end.

(** The files hold the segments; the active one may have no file yet. *)
Definition files_hold (files : Files) (sealed : segments) (base : Z) (active : list bytes) : Prop :=
  logs_of files = segs_of (sealed ++ [(base, active)]) ∨ (logs_of files = segs_of sealed ∧ active = []).

Record holds_log (v : View) (sealed : segments) (active : list bytes) (next : Z) : Prop := mk_holds {
  hl_files : files_hold (v_files v) sealed (sl_active_base (v_slot v)) active;
  hl_sealed : chained sealed (sl_active_base (v_slot v));
  hl_active : dense crc32c (sl_active_base (v_slot v)) active next;
  hl_bytes : sl_active_bytes (v_slot v) = len (concat active) }.

Definition log_batches (sealed : segments) (active : list bytes) : list bytes := batches_of sealed ++ active.

(** Hints name batches of their segment, and no segment past the active one. *)
Definition hints_ok (h : Hints) (segs : segments) (active_base : Z) : Prop :=
  ∀ b entries, h !! b = Some entries → entries = [] ∨ (b ≤ active_base ∧ ∀ xs, (b, xs) ∈ segs → Forall (names xs) entries).

Lemma batches_of_snoc l b xs : batches_of (l ++ [(b, xs)]) = batches_of l ++ xs.
Proof using Type. unfold batches_of. rewrite bind_app. cbn. by rewrite app_nil_r. Qed.

Lemma chained_snoc l b xs e : chained (l ++ [(b, xs)]) e ↔ chained l b ∧ b < e ∧ dense crc32c b xs e.
Proof using Type.
  induction l as [|[c ys] l IH]; cbn; [tauto |].
  replace (first_base_of (l ++ [(b, xs)]) e) with (first_base_of l b) by by destruct l as [|[]]. rewrite IH. tauto.
Qed.

(** Bases and batches of sealed segments are below the end. *)
Lemma first_base_le l e : chained l e → first_base_of l e ≤ e.
Proof using Type.
  induction l as [|[b xs] l IH]; cbn; [lia |]. intros (Hb & _ & Hc). specialize (IH Hc). lia.
Qed.

Lemma chained_in l e b xs : chained l e → (b, xs) ∈ l → b < e ∧ ascending crc32c b xs e.
Proof using Type.
  induction l as [|[c ys] l IH]; cbn; intros H Hin; [by apply elem_of_nil in Hin |]. destruct H as (Hc & Ha & Hl).
  pose proof (first_base_le l e Hl). apply elem_of_cons in Hin as [[= -> ->]|Hin]; [| by apply IH].
  split; [lia |]. eapply ascending_weaken; [| | exact (dense_ascending _ _ _ _ Ha)]; lia.
Qed.

(** The same, where segments may be empty: with the active one. *)
Fixpoint linked (l : segments) (e : Z) : Prop :=
  match l with
  | [] => True
  | (b, xs) :: rest => dense crc32c b xs (first_base_of rest e) ∧ linked rest e
  end.

Lemma chained_linked l e : chained l e → linked l e.
Proof using Type. induction l as [|[b xs] l IH]; cbn; tauto. Qed.

Lemma linked_snoc l b xs e : linked (l ++ [(b, xs)]) e ↔ linked l b ∧ dense crc32c b xs e.
Proof using Type.
  induction l as [|[c ys] l IH]; cbn; [tauto |].
  replace (first_base_of (l ++ [(b, xs)]) e) with (first_base_of l b) by by destruct l as [|[]]. rewrite IH. tauto.
Qed.

Lemma linked_dense l e : linked l e → dense crc32c (first_base_of l e) (batches_of l) e.
Proof using Type.
  induction l as [|[b xs] l IH]; [done |]. cbn. intros (Hd & Hc). apply dense_app. eexists. split; [exact Hd | by apply IH].
Qed.

Lemma segs_of_below l e x : chained l e → x ∈ segs_of l → x.1 < e.
Proof using Type.
  intros H Hx. apply list_elem_of_fmap in Hx as ([b xs] & -> & Hin). cbn. by apply (chained_in l e b xs).
Qed.

Lemma segs_of_app l l' : segs_of (l ++ l') = segs_of l ++ segs_of l'.
Proof using Type. apply fmap_app. Qed.

Lemma files_hold_put files sealed base active f : chained sealed base → files_hold files sealed base active →
  logs_of (<[base := f]> files) = segs_of sealed ++ [(base, sf_log f)].
Proof using Type.
  intros Hc [H|[H _]].
  - eapply logs_of_put; [by rewrite H, segs_of_app | intros e; by apply segs_of_below |]. right. by eexists.
  - eapply logs_of_put; [by rewrite H, app_nil_r | intros e; by apply segs_of_below |]. by left.
Qed.

Lemma files_hold_open now files sealed base active : chained sealed base → files_hold files sealed base active →
  ∃ f, open_active now base files !! base = Some f ∧ sf_log f = concat active ∧ logs_of (open_active now base files) = segs_of (sealed ++ [(base, active)]).
Proof using Type.
  intros Hc H. unfold open_active. destruct (files !! base) as [f|] eqn:E.
  - destruct H as [H|[H ->]].
    + assert (Hin : (base, concat active) ∈ logs_of files) by (rewrite H, segs_of_app; apply elem_of_app; right; by left).
      apply logs_of_elem in Hin as (f' & E' & Hf). rewrite E in E'. injection E' as <-. by exists f.
    + exfalso. assert (Hin : (base, sf_log f) ∈ logs_of files) by (apply logs_of_elem; by exists f).
      rewrite H in Hin. pose proof (segs_of_below _ _ _ Hc Hin). cbn in *. lia.
  - destruct H as [H|[H ->]].
    + exfalso. assert (Hin : (base, concat active) ∈ logs_of files) by (rewrite H, segs_of_app; apply elem_of_app; right; by left).
      apply logs_of_elem in Hin as (f' & E' & _). congruence.
    + eexists. rewrite lookup_insert_eq. split_and!; [done | done |].
      rewrite (files_hold_put _ sealed base []); [by rewrite segs_of_app | done | by right].
Qed.

Lemma insert_open_active now base f (files : Files) : <[base := f]> (open_active now base files) = <[base := f]> files.
Proof using Type. unfold open_active. destruct (files !! base); [done |]. apply insert_insert_eq. Qed.

(** ** Index files *)

(** An index file holds entries that name batches, each in the 32 bits it has. *)
Definition entries_of (base : Z) (es : list (Z * Z)) : bytes := concat ((λ e : Z * Z, index_entry e.1 base e.2) <$> es).
Definition in_u32 (base : Z) (e : Z * Z) : Prop := 0 ≤ e.1 - base < 2 ^ 32 ∧ 0 ≤ e.2 < 2 ^ 32.
Definition index_ok (f : SegFile) (base : Z) (xs : list bytes) : Prop :=
  ∃ es, default [] (sf_index f) = entries_of base es ∧ Forall (names xs) es ∧ Forall (in_u32 base) es.

Definition indexes_ok (files : Files) (segs : segments) : Prop :=
  ∀ b xs f, (b, xs) ∈ segs → files !! b = Some f → index_ok f b xs.

(** The active segment is narrow enough for the 32 bits of its entries. *)
Definition narrow (st : Slot) : Prop := sl_next st - sl_active_base st < 2 ^ 32 ∧ sl_active_bytes st < 2 ^ 32.

Lemma index_entry_len b base pos : len (index_entry b base pos) = 8.
Proof using Type. unfold index_entry. by rewrite len_app, !len_be_bytes. Qed.

(** What is read of an index file is among what was written to it. *)
Lemma read_entries_sound fuel pre base es data_end : Forall (in_u32 base) es →
  ∀ e, e ∈ read_entries fuel (pre ++ entries_of base es) base data_end (len pre) → e ∈ es.
Proof using Type.
  revert fuel pre. induction es as [|[b pos] es IH]; intros [|fuel] pre Hin e; cbn [read_entries]; try (intros H; by apply elem_of_nil in H).
  { unfold entries_of. cbn. rewrite app_nil_r, (proj2 (Z.ltb_lt _ _)) by (unfold INDEX_ENTRY; lia). intros H; by apply elem_of_nil in H. }
  apply Forall_cons in Hin as [[H1 H2] Hin]. cbn [fst snd] in *.
  change (entries_of base ((b, pos) :: es)) with (index_entry b base pos ++ entries_of base es).
  set (rest := entries_of base es). destruct (len _ <? _); [intros H; by apply elem_of_nil in H |].
  assert (E1 : file_at (pre ++ index_entry b base pos ++ rest) (len pre) 4 = be_bytes 4 (b - base)).
  { unfold index_entry. rewrite <- app_assoc. rewrite (file_at_app pre) by (by rewrite len_be_bytes). by rewrite take_ge by (by rewrite be_bytes_length). }
  assert (E2 : file_at (pre ++ index_entry b base pos ++ rest) (len pre + 4) 4 = be_bytes 4 pos).
  { unfold index_entry. replace (pre ++ (be_bytes 4 (b - base) ++ be_bytes 4 pos) ++ rest) with ((pre ++ be_bytes 4 (b - base)) ++ be_bytes 4 pos ++ rest) by (by rewrite <- !app_assoc).
    replace (len pre + 4) with (len (pre ++ be_bytes 4 (b - base))) by (by rewrite len_app, len_be_bytes).
    rewrite file_at_app by (by rewrite len_be_bytes). by rewrite take_ge by (by rewrite be_bytes_length). }
  rewrite E1, E2, !be_val_be_bytes. rewrite !Z.mod_small by (change (256 ^ Z.of_nat 4) with (2 ^ 32); lia).
  destruct (data_end <=? pos); [intros H; by apply elem_of_nil in H |]. intros He. replace (base + (b - base)) with b in He by lia.
  apply elem_of_cons in He as [->|He]; [by left |].
  right. apply (IH fuel (pre ++ index_entry b base pos)); [done |]. rewrite len_app, index_entry_len, <- app_assoc. exact He.
Qed.

Lemma read_index_names f base xs data_end : index_ok f base xs → Forall (names xs) (read_index f base data_end).
Proof using Type.
  intros (es & Hes & Hn & Hu). unfold read_index. destruct (sf_index f) as [file|]; [| done]. cbn in Hes. subst file.
  rewrite Forall_forall in Hn |- *. intros e He. apply Hn. exact (read_entries_sound (length (entries_of base es)) [] base es data_end Hu e He).
Qed.

Lemma index_ok_app f base xs x : index_ok f base xs → index_ok f base (xs ++ [x]).
Proof using Type. intros (es & H1 & H2 & H3). exists es. split_and!; [done | eapply Forall_impl; [exact H2 |]; intros; by apply names_app | done]. Qed.

Lemma index_ok_same f f' base xs : sf_index f' = sf_index f → index_ok f base xs → index_ok f' base xs.
Proof using Type. intros E (es & H1 & H2). exists es. by rewrite E. Qed.

(** ** Writing *)

Lemma overwrite_end file bs : overwrite file (len file) bs = file ++ bs.
Proof using Type.
  unfold overwrite. destruct bs as [|b bs]; [by rewrite app_nil_r |]. rewrite Z.sub_diag. cbn [replicate Z.to_nat].
  rewrite app_nil_r, take_ge by (unfold len; lia). rewrite (drop_ge file); [by rewrite app_nil_r |]. unfold len. lia.
Qed.

(** A disk that takes a write whole or refuses it whole. *)
Definition clean_room (room : option nat) : Prop := room = None ∨ room = Some 0%nat.

Lemma clean_write room file bs : clean_room room → bs ≠ [] →
  write_all_at room file (len file) bs = (true, file ++ bs) ∨ write_all_at room file (len file) bs = (false, file).
Proof using Type.
  intros [->| ->] Hne; cbn [write_all_at].
  - left. by rewrite overwrite_end.
  - right. cbn. destruct bs; [done |]. done.
Qed.

(** What writing never changes of a slot. *)
Record same_slot (st st' : Slot) : Prop := mk_same {
  sm_topic : sl_topic st' = sl_topic st;
  sm_partition : sl_partition st' = sl_partition st;
  sm_next : sl_next st' = sl_next st;
  sm_pending : sl_pending st' = sl_pending st;
  sm_ring : sl_ring st' = sl_ring st;
  sm_generation : sl_generation st' = sl_generation st;
  sm_epoch : sl_epoch st' = sl_epoch st;
  sm_cursor : sl_cursor st' = sl_cursor st }.

Lemma same_slot_refl st : same_slot st st.
Proof using Type. done. Qed.
Lemma same_slot_trans st st' st'' : same_slot st st' → same_slot st' st'' → same_slot st st''.
Proof using Type. intros [] []. split; congruence. Qed.

Section Write.

Variables (now segment_bytes : Z) (log_room index_room time_room : option nat).
Hypothesis Hroom : clean_room log_room.
Hypothesis Hindex : clean_room index_room.

Definition active_base_of (v : View) : Z := sl_active_base (v_slot v).

(** From one partition to another that holds other segments: what is left of the slot,
    and that the hints of every process, and of this one, stay good. *)
Record moves (v v' : View) (sealed : segments) (active : list bytes) (sealed' : segments) (active' : list bytes) (next : Z)
    : Prop := mk_moves {
  mv_slot : same_slot (v_slot v) (v_slot v');
  mv_ring : v_ring v' = v_ring v;
  mv_log : holds_log v' sealed' active' next;
  mv_others : ∀ h, hints_ok h (sealed ++ [(active_base_of v, active)]) (active_base_of v) →
    hints_ok h (sealed' ++ [(active_base_of v', active')]) (active_base_of v');
  mv_mine : hints_ok (v_hints v) (sealed ++ [(active_base_of v, active)]) (active_base_of v) →
    hints_ok (v_hints v') (sealed' ++ [(active_base_of v', active')]) (active_base_of v');
  mv_index : narrow (v_slot v) → indexes_ok (v_files v) (sealed ++ [(active_base_of v, active)]) →
    indexes_ok (v_files v') (sealed' ++ [(active_base_of v', active')]) }.

Lemma hints_ok_grow h sealed base active x :
  chained sealed base → hints_ok h (sealed ++ [(base, active)]) base → hints_ok h (sealed ++ [(base, active ++ [x])]) base.
Proof using Type.
  intros Hc H b entries E. destruct (H b entries E) as [->|[Hb Hn]]; [by left |]. right. split; [done |]. intros xs Hin.
  apply elem_of_app in Hin as [Hin|Hin].
  - apply Hn. apply elem_of_app. by left.
  - apply list_elem_of_singleton in Hin as [= -> ->]. eapply Forall_impl; [apply Hn; apply elem_of_app; right; by left |].
    intros. by apply names_app.
Qed.

Lemma hints_ok_new h sealed base base' : base < base' → chained sealed base' → (∀ b xs, (b, xs) ∈ sealed → b ≤ base) →
  hints_ok h sealed base → hints_ok h (sealed ++ [(base', [])]) base'.
Proof using Type.
  intros Hlt Hc Hs H b entries E. destruct (H b entries E) as [->|[Hb Hn]]; [by left |]. right. split; [lia |]. intros xs Hin.
  apply elem_of_app in Hin as [Hin|Hin]; [by apply Hn |]. apply list_elem_of_singleton in Hin as [= -> ->]. lia.
Qed.

Lemma hints_ok_entry h sealed base active x :
  chained sealed base → hints_ok h (sealed ++ [(base, active)]) base →
  hints_ok (<[base := default [] (h !! base) ++ [(base_of x, len (concat active))]]> h) (sealed ++ [(base, active ++ [x])]) base.
Proof using Type.
  intros Hc H b entries E. destruct (decide (b = base)) as [->|Hne].
  - rewrite lookup_insert_eq in E. injection E as <-. right. split; [done |]. intros xs Hin.
    assert (xs = active ++ [x]) as ->.
    { apply elem_of_app in Hin as [Hin|Hin]; [pose proof (chained_in _ _ _ _ Hc Hin); lia |].
      apply list_elem_of_singleton in Hin. congruence. }
    apply Forall_app. split; [| constructor; [apply names_last | done]]. destruct (h !! base) as [es|] eqn:Eh; [| done]. cbn.
    destruct (H base es Eh) as [->|[_ Hn]]; [done |]. eapply Forall_impl; [apply Hn; apply elem_of_app; right; by left |].
    intros. by apply names_app.
  - rewrite lookup_insert_ne in E by done. by apply (hints_ok_grow h sealed base active x Hc H).
Qed.

Lemma hints_ok_touch h segs base : hints_ok h segs base → hints_ok (<[base := default [] (h !! base)]> h) segs base.
Proof using Type.
  intros H b entries E. destruct (decide (b = base)) as [->|Hne].
  - rewrite lookup_insert_eq in E. injection E as <-. destruct (h !! base) as [es|] eqn:Eh; [by apply H | by left].
  - rewrite lookup_insert_ne in E by done. by apply H.
Qed.

Lemma moves_trans v v' v'' s a s' a' s'' a'' n n' :
  moves v v' s a s' a' n → moves v' v'' s' a' s'' a'' n' → (narrow (v_slot v) → narrow (v_slot v')) → moves v v'' s a s'' a'' n'.
Proof using Type. intros [] [] Hn. split; [by eapply same_slot_trans | congruence | done | auto | auto | auto]. Qed.

Lemma index_ok_open files base xs f : (∀ f, files !! base = Some f → index_ok f base xs) →
  open_active now base files !! base = Some f → index_ok f base xs.
Proof using Type.
  intros H. unfold open_active. destruct (files !! base) as [f'|] eqn:E.
  - rewrite E. intros [= <-]. by apply H.
  - rewrite lookup_insert_eq. intros [= <-]. by exists [].
Qed.

Lemma indexes_ok_open files base segs : indexes_ok files segs → indexes_ok (open_active now base files) segs.
Proof using Type.
  intros H b xs f Hin E. destruct (decide (b = base)) as [->|Hne].
  - eapply index_ok_open; [| exact E]. intros f' E'. by eapply H.
  - eapply H; [exact Hin |]. revert E. unfold open_active. destruct (files !! base); [done |]. by rewrite lookup_insert_ne.
Qed.

(** An entry for the batch just written, when the index takes it. *)
Lemma add_entries_ok ix te f base active x : index_ok f base active → in_u32 base (base_of x, len (concat active)) →
  index_ok (add_entries index_room time_room ix te (base_of x) base (len (concat active)) f) base (active ++ [x]).
Proof using Hindex.
  intros Hf Hu. apply (index_ok_app _ _ _ x) in Hf. unfold add_entries. destruct ix; [| done].
  destruct Hf as (es & Hes & Hn & Hus). unfold index_ok, append_entry. cbn [sf_index default from_option id]. destruct Hindex as [->| ->]; cbn [write_all_at snd].
  - exists (es ++ [(base_of x, len (concat active))]). rewrite overwrite_end, Hes. split_and!.
    + unfold entries_of. rewrite fmap_app, concat_app. cbn [fmap list_fmap concat fst snd]. by rewrite app_nil_r.
    + apply Forall_app. split; [done |]. constructor; [apply names_last | done].
    + apply Forall_app. split; [done |]. by constructor.
  - exists es. cbn. by rewrite Hes.
Qed.

(** Replacing the file of the active segment. *)
Lemma indexes_ok_put files sealed base active active' f : chained sealed base →
  indexes_ok files (sealed ++ [(base, active)]) → index_ok f base active' → indexes_ok (<[base := f]> files) (sealed ++ [(base, active')]).
Proof using Type.
  intros Hc H Hf b xs f' Hin E. apply elem_of_app in Hin as [Hin|Hin].
  - pose proof (chained_in _ _ _ _ Hc Hin) as [Hlt _]. rewrite lookup_insert_ne in E by lia. eapply H; [| exact E]. apply elem_of_app. by left.
  - apply list_elem_of_singleton in Hin as [= -> ->]. rewrite lookup_insert_eq in E. by injection E as <-.
Qed.

Lemma roll_moves v sealed active base :
  holds_log v sealed active base → 0 < sl_active_bytes (v_slot v) →
  moves v (roll now base v) sealed active (sealed ++ [(active_base_of v, active)]) [] base.
Proof using Type.
  intros [Hf Hs Ha Hb] Hpos. unfold active_base_of in *.
  assert (Hlt : sl_active_base (v_slot v) < base).
  { destruct active as [|x xs]; [rewrite Hb in Hpos; change (0 < 0) in Hpos; lia |]. apply dense_ascending in Ha. cbn in Ha. destruct Ha as (Hw & Hx & Ha).
    pose proof (ascending_le _ _ _ _ Ha). pose proof (last_of_base _ x Hw). lia. }
  assert (Hc : chained (sealed ++ [(sl_active_base (v_slot v), active)]) base).
  { apply chained_snoc. by split_and!. }
  destruct (files_hold_open now _ _ _ _ Hs Hf) as (f & _ & _ & Ho).
  assert (Hle : ∀ b xs, (b, xs) ∈ sealed ++ [(sl_active_base (v_slot v), active)] → b ≤ sl_active_base (v_slot v)).
  { intros b xs Hin. apply elem_of_app in Hin as [Hin|Hin]; [pose proof (chained_in _ _ _ _ Hs Hin); lia |].
    apply list_elem_of_singleton in Hin as [= -> ->]. lia. }
  split; cbn; [done | done | | | |].
  - split; cbn; [by right | done | done | done].
  - intros h Hh. unfold active_base_of. cbn. eapply hints_ok_new; [| done | done |]; [| exact Hh]. done.
  - intros Hh b entries E. unfold active_base_of. cbn. destruct (decide (b = base)) as [->|Hne].
    + rewrite lookup_insert_eq in E. injection E as <-. by left.
    + rewrite lookup_insert_ne in E by done. revert b entries E Hne. 
      intros b entries E _. eapply (hints_ok_new (v_hints v)); [exact Hlt | done | done | exact Hh | exact E].
  - intros _ Hi b xs f' Hin E. unfold active_base_of in *. cbn in *. apply elem_of_app in Hin as [Hin|Hin].
    + by eapply indexes_ok_open.
    + exfalso. apply list_elem_of_singleton in Hin as [= -> ->].
      assert (Hb' : (base, sf_log f') ∈ logs_of (open_active now (sl_active_base (v_slot v)) (v_files v))) by (apply logs_of_elem; by exists f').
      rewrite Ho in Hb'. apply list_elem_of_fmap in Hb' as ([b xs] & [= -> _] & Hin). pose proof (Hle _ _ Hin). lia.
Qed.

Lemma write_active_moves v bs sealed active base r v' :
  holds_log v sealed active base → whole crc32c bs → base_of bs = base → base = sl_next (v_slot v) →
  write_active now log_room index_room time_room bs base v = (r, v') →
  (r = Ok tt ∧ moves v v' sealed active sealed (active ++ [bs]) (last_of bs + 1)) ∨
  (∃ e, r = Err e ∧ moves v v' sealed active sealed active base).
Proof using Hroom Hindex.
  intros [Hf Hs Ha Hb] Hw Hbase Hnext. unfold write_active. set (st := if _ =? 0 then _ else _).
  assert (Hst : same_slot (v_slot v) st ∧ sl_active_base st = sl_active_base (v_slot v) ∧ sl_active_bytes st = sl_active_bytes (v_slot v))
    by (unfold st; by destruct (_ =? 0)).
  destruct Hst as (Hsame & Hab & Hbytes). rewrite Hab, Hbytes. clearbody st. set (ab := sl_active_base (v_slot v)) in *.
  destruct (files_hold_open now _ _ _ _ Hs Hf) as (f & Ef & Elog & _). rewrite Ef. cbn [default from_option id].
  assert (Hfi : indexes_ok (v_files v) (sealed ++ [(ab, active)]) → index_ok f ab active).
  { intros Hi. eapply index_ok_open; [| exact Ef]. intros f' E'. eapply Hi; [apply elem_of_app; right; by left | done]. }
  destruct (later _ bs base) as [ts at_]. rewrite Hb, Elog.
  assert (Hne : bs ≠ []) by (intros ->; pose proof (sd_long _ (whole_sound _ _ Hw)) as H; change (61 ≤ 0) in H; lia).
  destruct (clean_write log_room (concat active) bs Hroom Hne) as [-> | ->]; rewrite insert_open_active; intros [= <- <-].
  - left. split; [done |]. split; cbn; [by eapply same_slot_trans; [exact Hsame |] | done | | | |].
    + split; cbn.
      * left. rewrite (files_hold_put _ sealed _ active) by done. rewrite segs_of_app. cbn. do 3 f_equal.
        unfold add_entries. rewrite concat_app. cbn. rewrite app_nil_r. by destruct (sparse _ _).
      * done.
      * apply dense_app. exists base. split; [done |]. cbn. split_and!; [done | done | done].
      * by rewrite concat_len_snoc.
    + intros h Hh. unfold active_base_of in *. cbn. by apply hints_ok_grow.
    + intros Hh. unfold active_base_of in *. cbn. destruct (sparse _ _).
      * rewrite <- Hbase. by apply hints_ok_entry.
      * apply hints_ok_touch. by apply hints_ok_grow.
    + intros [Hn1 Hn2] Hi. unfold active_base_of in *. cbn. fold ab in Hn1, Hi. eapply indexes_ok_put; [done | exact Hi |]. rewrite <- Hbase.
      apply add_entries_ok; [eapply index_ok_same; [| by apply Hfi]; done |]. pose proof (len_nonneg (concat active)).
      pose proof (ascending_le _ _ _ _ (dense_ascending _ _ _ _ Ha)). unfold in_u32. cbn. lia.
  - right. eexists. split; [done |]. split; cbn; [done | done | | | |].
    + split; cbn; rewrite ?Hab; [| done | done | by rewrite Hbytes].
      left. rewrite (files_hold_put _ sealed _ active) by done. by rewrite segs_of_app.
    + intros h. unfold active_base_of. cbn. by rewrite Hab.
    + unfold active_base_of. cbn. rewrite Hab. apply hints_ok_touch.
    + intros _ Hi. unfold active_base_of in *. cbn. rewrite Hab. eapply indexes_ok_put; [done | exact Hi |].
      eapply index_ok_same; [| by apply Hfi]. done.
Qed.

(** Writing a batch at the end adds it at the end, or, when the disk refuses it,
    nothing. *)
Lemma write_raw_moves v bs sealed active base r v' :
  holds_log v sealed active base → whole crc32c bs → base_of bs = base → base = sl_next (v_slot v) →
  write_raw now segment_bytes log_room index_room time_room bs base v = (r, v') →
  ∃ sealed' active' added next, moves v v' sealed active sealed' active' next ∧
    log_batches sealed' active' = log_batches sealed active ++ added ∧
    ((r = Ok tt ∧ added = [bs] ∧ next = last_of bs + 1) ∨ (∃ e, r = Err e ∧ added = [] ∧ next = base)).
Proof using Hroom Hindex.
  intros Hl Hw Hb Hn. unfold write_raw. destruct (roll_due now segment_bytes (v_slot v) (len bs)) eqn:E.
  - apply andb_true_iff in E as [E _]. apply Z.ltb_lt in E. pose proof (roll_moves v sealed active base Hl E) as Hr.
    assert (Hnar : narrow (v_slot v) → narrow (v_slot (roll now base v))) by (intros _; unfold narrow; cbn; lia).
    intros H. destruct (write_active_moves _ bs _ _ _ _ _ (mv_log _ _ _ _ _ _ _ Hr) Hw Hb Hn H) as [[-> Hm]|(e & -> & Hm)].
    + eexists _, _, [bs], _. split; [exact (moves_trans _ _ _ _ _ _ _ _ _ _ _ Hr Hm Hnar) |]. unfold log_batches. rewrite batches_of_snoc.
      split; [by rewrite <- ?app_assoc |]. by left.
    + eexists _, _, [], _. split; [exact (moves_trans _ _ _ _ _ _ _ _ _ _ _ Hr Hm Hnar) |]. unfold log_batches. rewrite batches_of_snoc.
      split; [by rewrite !app_nil_r |]. right. by exists e.
  - intros H. destruct (write_active_moves _ bs _ _ _ _ _ Hl Hw Hb Hn H) as [[-> Hm]|(e & -> & Hm)].
    + eexists _, _, [bs], _. split; [exact Hm |]. unfold log_batches. split; [by rewrite <- ?app_assoc |]. by left.
    + eexists _, _, [], _. split; [exact Hm |]. split; [by rewrite !app_nil_r |]. right. by exists e.
Qed.

End Write.
End View.
