(* ===== verification/SegmentAppend.v ===== *)
(** * The segment engine: the critical sections that append

    [append], [append_pending] and [append_replicated] under the lock of the slot.
    Each adds one batch at the end of the partition at the next offset, stamped with
    the offset and an epoch the tables and the slot agree on, or adds nothing.

    Behind it: what a read returns, and truncating to a leader's log. *)

From stdpp Require Import gmap sorting strings.
From S2P Require Import Prelude Errors Records RecordIter Build Compaction Cleaner PendingRing Pmeta Store Config Table TableSpec TableRead Segment SegmentFiles SegmentView.



Section Append.

Variable crc32c : bytes → Z.
Variables (now segment_bytes : Z) (roll_bounds : Z → Z * Z) (log_room index_room time_room : option nat).
Hypothesis Hroom : clean_room log_room.
Hypothesis Hindex : clean_room index_room.

(** A stamped batch is whole and where the stamp says. *)
Lemma stamp_whole bs b off ep : validated crc32c bs = Ok b → whole crc32c (Records.stamp b off ep).
Proof using Type.
  intros Hv. apply validated_ok in Hv as [Hn Hc]. apply batch_new_ok in Hn as (-> & Hl & Hm & Hb & Hd & Hr).
  destruct (stamp_fields (mk_batch bs) off ep Hl) as (F1 & F2 & F3 & F4 & F5).
  pose proof (stamp_length (mk_batch bs) off ep Hl) as Hs. pose proof (stamp_drop (mk_batch bs) off ep Hl ATTRIBUTES_OFFSET) as Hdr.
  revert F1 F2 F3 F4 F5 Hs Hdr. generalize (Records.stamp (mk_batch bs) off ep). intros s F1 F2 F3 F4 F5 Hs Hdr. cbn [rb_bytes] in *.
  apply validated_ok. split.
  - apply batch_new_ok. rewrite F1, F2, F3, F4, Hs. unfold len in *. rewrite Hs. by split_and!.
  - rewrite F5, Hc. unfold computed_crc. cbn [rb_bytes]. rewrite Hdr; [done |]. off_lia.
Qed.

Lemma stamped_whole bs b off ep : validated crc32c bs = Ok b →
  whole crc32c (Records.stamp b off ep) ∧ base_of (Records.stamp b off ep) = wrap_i 64 off ∧
  last_offset_delta_of (Records.stamp b off ep) = last_offset_delta b ∧ 0 ≤ last_offset_delta b.
Proof using Type.
  intros Hv. pose proof (stamp_whole _ _ off ep Hv) as Hw. apply validated_ok in Hv as [Hn _]. apply batch_new_ok in Hn as (-> & Hl & _ & _ & Hd & _).
  destruct (stamp_fields (mk_batch bs) off ep Hl) as (_ & _ & F3 & _ & _).
  pose proof (stamp_length (mk_batch bs) off ep Hl) as Hs. pose proof (stamp_base_offset (mk_batch bs) off ep Hl) as Hbase.
  revert F3 Hs Hbase Hw. generalize (Records.stamp (mk_batch bs) off ep). intros s F3 Hs Hbase Hw. split_and!; [exact Hw | exact Hbase | | exact Hd].
  unfold last_offset_delta_of. rewrite (proj2 (Nat.leb_le _ _)); [exact F3 |]. cbn [rb_bytes] in Hs. rewrite Hs. off_lia.
Qed.

(** What a critical section may do to a partition: add batches at its end. *)
Record grows (v v' : View) (sealed : list (Z * list bytes)) (active : list bytes) (sealed' : list (Z * list bytes))
    (active' added : list bytes) : Prop := mk_grows {
  gw_id : (sl_topic (v_slot v'), sl_partition (v_slot v')) = (sl_topic (v_slot v), sl_partition (v_slot v));
  gw_ring_index : sl_ring (v_slot v') = sl_ring (v_slot v);
  gw_generation : sl_generation (v_slot v') = sl_generation (v_slot v);
  gw_log : holds_log crc32c v' sealed' active' (sl_next (v_slot v'));
  gw_batches : log_batches sealed' active' = log_batches sealed active ++ added;
  gw_others : ∀ h, hints_ok h (sealed ++ [(active_base_of v, active)]) (active_base_of v) →
    hints_ok h (sealed' ++ [(active_base_of v', active')]) (active_base_of v');
  gw_mine : hints_ok (v_hints v) (sealed ++ [(active_base_of v, active)]) (active_base_of v) →
    hints_ok (v_hints v') (sealed' ++ [(active_base_of v', active')]) (active_base_of v');
  gw_index : narrow (v_slot v) → indexes_ok (v_files v) (sealed ++ [(active_base_of v, active)]) →
    indexes_ok (v_files v') (sealed' ++ [(active_base_of v', active')]) }.

Definition same_ring (v v' : View) : Prop := sl_pending (v_slot v') = sl_pending (v_slot v) ∧ v_ring v' = v_ring v.

(** A change of the slot that leaves the active segment and the next offset alone. *)
Definition aside (f : Slot → Slot) : Prop := ∀ st,
  sl_topic (f st) = sl_topic st ∧ sl_partition (f st) = sl_partition st ∧ sl_ring (f st) = sl_ring st ∧
  sl_generation (f st) = sl_generation st ∧ sl_active_base (f st) = sl_active_base st ∧
  sl_active_bytes (f st) = sl_active_bytes st ∧ sl_next (f st) = sl_next st ∧ sl_pending (f st) = sl_pending st.

Lemma grows_refl v sealed active : holds_log crc32c v sealed active (sl_next (v_slot v)) → grows v v sealed active sealed active [].
Proof using Type. intros. split; try done. by rewrite app_nil_r. Qed.

Lemma grows_aside f v sealed active : aside f → holds_log crc32c v sealed active (sl_next (v_slot v)) →
  grows v (on_slot f v) sealed active sealed active [] ∧ same_ring v (on_slot f v).
Proof using Type.
  intros Hf [H1 H2 H3 H4]. destruct (Hf (v_slot v)) as (Ht & Hp & Hr & Hg & Hb & Hy & Hn & Hpe).
  split; [split | split]; unfold active_base_of, on_slot; cbn; rewrite ?Ht, ?Hp, ?Hr, ?Hg, ?Hb, ?Hn, ?app_nil_r; try done.
  split; cbn; by rewrite ?Hb, ?Hy.
Qed.

Lemma grows_trans v v' v'' s a s' a' s'' a'' l l' :
  grows v v' s a s' a' l → grows v' v'' s' a' s'' a'' l' → (narrow (v_slot v) → narrow (v_slot v')) → grows v v'' s a s'' a'' (l ++ l').
Proof using Type.
  intros [] [] Hn. split; [congruence | congruence | congruence | done | | auto | auto | auto]. rewrite app_assoc. congruence.
Qed.

Lemma same_ring_trans v v' v'' : same_ring v v' → same_ring v' v'' → same_ring v v''.
Proof using Type. intros [] []. split; congruence. Qed.

Lemma epoch_aside e : aside (with_epoch e). Proof using Type. done. Qed.
Lemma bounds_aside ms n : aside (with_bounds ms n). Proof using Type. done. Qed.

(** The epoch of an append is that of the tables, or there is none. *)
Lemma epoch_for_append_spec seed v sealed active r v' :
  holds_log crc32c v sealed active (sl_next (v_slot v)) → epoch_for_append seed v = (r, v') →
  grows v v' sealed active sealed active [] ∧ same_ring v v' ∧ sl_next (v_slot v') = sl_next (v_slot v) ∧
  (narrow (v_slot v) → narrow (v_slot v')) ∧
  (r = Ok seed ∨ r = Err LeaderEpochUnsettled) ∧ (sl_epoch (v_slot v) ≤ seed → r = Ok seed).
Proof using Type.
  intros Hl. unfold epoch_for_append. destruct ((sl_epoch (v_slot v) <? 0) || (sl_epoch (v_slot v) <? seed)) eqn:E.
  - cbn. rewrite Z.ltb_irrefl. intros [= <- <-]. destruct (grows_aside _ _ _ _ (epoch_aside seed) Hl). split_and!; [done | done | done | done | by left | done].
  - apply orb_false_iff in E as [E1 E2]. apply Z.ltb_ge in E1, E2.
    destruct (Z.ltb_spec seed (sl_epoch (v_slot v))) as [Hlt|Hle]; intros [= <- <-];
      split_and!; try done; try (by apply grows_refl); [by right | lia | left; f_equal; lia | intros; f_equal; lia].
Qed.

(** Writing a batch at the next offset. *)
Lemma write_batch_grows v b epoch sealed active r v' :
  holds_log crc32c v sealed active (sl_next (v_slot v)) → raw_consistent b → is_i64 (sl_next (v_slot v)) →
  write_batch crc32c now segment_bytes log_room index_room time_room b epoch (sl_next (v_slot v)) v = (r, v') →
  ∃ sealed' active' added, grows v v' sealed active sealed' active' added ∧ same_ring v v' ∧
    ((∃ e, r = Err e ∧ added = [] ∧ sl_next (v_slot v') = sl_next (v_slot v)) ∨
     (∃ view, r = Ok tt ∧ validated crc32c (rw_bytes b) = Ok view ∧
        added = [Records.stamp view (sl_next (v_slot v)) epoch] ∧
        sl_next (v_slot v') = sl_next (v_slot v) + rw_last_offset_delta b + 1)).
Proof using Hroom Hindex.
  intros Hl Hraw Hi. unfold write_batch. set (next := sl_next (v_slot v)) in *. destruct (validated crc32c (rw_bytes b)) as [view|] eqn:Ev.
  2: { intros [= <- <-]. exists sealed, active, []. split_and!; [by apply grows_refl | done |]. left. by eexists. }
  destruct (stamped_whole _ _ next epoch Ev) as (Hw & Hbase & Hdelta & Hd0). rewrite wrap_i64_id in Hbase by done.
  destruct (validated_whole _ _ _ Ev) as [_ ->]. unfold raw_consistent in Hraw.
  unfold bind. destruct (write_raw _ _ _ _ _ _ _ v) as [r1 v1] eqn:E.
  destruct (write_raw_moves crc32c now segment_bytes log_room index_room time_room Hroom Hindex v _ sealed active next r1 v1 Hl Hw Hbase eq_refl E)
    as (sealed' & active' & added & e' & [Hs Hr Hlog Ho Hm] & Hbat & Hcase).
  destruct Hcase as [(-> & -> & ->)|(e & -> & -> & ->)]; intros [= <- <-].
  - assert (Hlast : last_of (Records.stamp (mk_batch (rw_bytes b)) next epoch) = next + rw_last_offset_delta b)
      by (unfold last_of; lia). rewrite Hlast in Hlog. exists sealed', active', [Records.stamp (mk_batch (rw_bytes b)) next epoch].
    split_and!; [| split; [apply Hs | done] | right; by eexists].
    split; cbn; [by rewrite (sm_topic _ _ Hs), (sm_partition _ _ Hs) | apply Hs | apply Hs | by destruct Hlog | done | done | done | done].
  - exists sealed', active', []. split_and!; [| split; [apply Hs | done] | left; eexists; split_and!; [done | done | apply Hs]].
    split; [by rewrite (sm_topic _ _ Hs), (sm_partition _ _ Hs) | apply Hs | apply Hs | by rewrite (sm_next _ _ Hs) | done | done | done | done].
Qed.

(** What an append at the next offset comes to. *)
Definition added_at (next epoch : Z) (b : RawBatch) (added : list bytes) (v' : View) (ok : Prop) : Prop :=
  ∃ view, ok ∧ validated crc32c (rw_bytes b) = Ok view ∧ added = [Records.stamp view next epoch] ∧
    sl_next (v_slot v') = next + rw_last_offset_delta b + 1.
Definition added_nothing (next : Z) (added : list bytes) (v' : View) (failed : Prop) : Prop :=
  failed ∧ added = [] ∧ sl_next (v_slot v') = next.

(** Both appends begin with the bounds and the epoch. *)
Lemma enter_section topic seed v sealed active : holds_log crc32c v sealed active (sl_next (v_slot v)) →
  ∃ r v1, epoch_for_append seed (on_slot (with_bounds (roll_bounds topic).1 (roll_bounds topic).2) v) = (r, v1) ∧
    grows v v1 sealed active sealed active [] ∧ same_ring v v1 ∧ sl_next (v_slot v1) = sl_next (v_slot v) ∧
    (narrow (v_slot v) → narrow (v_slot v1)) ∧ (r = Ok seed ∨ r = Err LeaderEpochUnsettled).
Proof using Type.
  intros Hl. set (v0 := on_slot _ v).
  destruct (grows_aside _ v sealed active (bounds_aside (roll_bounds topic).1 (roll_bounds topic).2) Hl) as [G0 R0]. fold v0 in G0, R0.
  destruct (epoch_for_append seed v0) as [r1 v1] eqn:E1.
  destruct (epoch_for_append_spec seed v0 sealed active r1 v1 (gw_log _ _ _ _ _ _ _ G0) E1) as (G1 & R1 & N1 & W1 & Hr & _).
  exists r1, v1. split_and!; [done | exact (grows_trans _ _ _ _ _ _ _ _ _ _ _ G0 G1 id) | by eapply same_ring_trans | done | exact W1 | done].
Qed.

Lemma append_section_grows topic seed v b sealed active r v' :
  holds_log crc32c v sealed active (sl_next (v_slot v)) → raw_consistent b → is_i64 (sl_next (v_slot v)) →
  append_section crc32c now segment_bytes roll_bounds log_room index_room time_room topic seed b v = (r, v') →
  ∃ sealed' active' added, grows v v' sealed active sealed' active' added ∧ same_ring v v' ∧
    (added_nothing (sl_next (v_slot v)) added v' (∃ e, r = Err e) ∨
     added_at (sl_next (v_slot v)) seed b added v' (r = Ok (sl_next (v_slot v)))).
Proof using Hroom Hindex.
  intros Hl Hraw Hi. unfold append_section, bind. destruct (enter_section topic seed v sealed active Hl) as (r1 & v1 & -> & G & R & N1 & W1 & Hr).
  destruct Hr as [-> | ->]; [| intros [= <- <-]; exists sealed, active, []; split_and!; [done | done | left; split_and!; [by eexists | done | congruence]]].
  destruct (write_batch _ _ _ _ _ _ b seed (sl_next (v_slot v1)) v1) as [r2 v2] eqn:E2.
  destruct (write_batch_grows v1 b seed sealed active r2 v2 (gw_log _ _ _ _ _ _ _ G) Hraw ltac:(by rewrite N1) E2)
    as (s' & a' & added & G2 & R2 & Hcase). pose proof (grows_trans _ _ _ _ _ _ _ _ _ _ _ G G2 W1) as G3. cbn [app] in G3.
  pose proof (same_ring_trans _ _ _ R R2) as R3. rewrite N1 in Hcase.
  destruct Hcase as [(e & -> & -> & Hn)|(view & -> & Hv & -> & Hn)]; intros [= <- <-].
  - exists s', a', []. split_and!; [done | done | left; split_and!; [by eexists | done | done]].
  - eexists s', a', _. split_and!; [exact G3 | done | right; exists view; split_and!; [congruence | done | done | done]].
Qed.

(** A change of the ring on top. *)
Lemma grows_ring v v' s a s' a' l r ring : grows v v' s a s' a' l →
  grows v (mk_view (with_pending r (v_slot v')) (v_hints v') ring (v_files v')) s a s' a' l.
Proof using Type. intros [H1 H2 H3 [] H5 H6 H7 H8]. by split. Qed.

(** With a reservation, the base of the batch joins the reserved ones in the same
    critical section. *)
Lemma pending_section_grows topic seed v b reserve_ sealed active r v' :
  holds_log crc32c v sealed active (sl_next (v_slot v)) → raw_consistent b → is_i64 (sl_next (v_slot v)) →
  ring_wf (sl_pending (v_slot v)) (v_ring v) →
  pending_section crc32c now segment_bytes roll_bounds log_room index_room time_room topic seed b reserve_ v = (r, v') →
  ∃ sealed' active' added, grows v v' sealed active sealed' active' added ∧
    ring_wf (sl_pending (v_slot v')) (v_ring v') ∧ length (v_ring v') = length (v_ring v) ∧
    ((added_nothing (sl_next (v_slot v)) added v' (∃ e, r = Err e) ∧ same_ring v v') ∨
     (added_at (sl_next (v_slot v)) seed b added v' (r = Ok (sl_next (v_slot v), sl_next (v_slot v) + rw_last_offset_delta b)) ∧
      if reserve_ then PendingRing.bases (sl_pending (v_slot v')) (v_ring v') ≡ₚ
                         sl_next (v_slot v) :: PendingRing.bases (sl_pending (v_slot v)) (v_ring v)
      else same_ring v v')).
Proof using Hroom Hindex.
  intros Hl Hraw Hi Hring. unfold pending_section, bind. destruct (enter_section topic seed v sealed active Hl) as (r1 & v1 & -> & G & R & N1 & W1 & Hr).
  assert (Hstuck : ∀ e, ∃ sealed' active' added, grows v v1 sealed active sealed' active' added ∧
    ring_wf (sl_pending (v_slot v1)) (v_ring v1) ∧ length (v_ring v1) = length (v_ring v) ∧
    (added_nothing (sl_next (v_slot v)) added v1 (∃ e', @Err StoreError (Z * Z) e = Err e') ∧ same_ring v v1)).
  { intros e. exists sealed, active, []. destruct R as [Rp Rr]. rewrite Rp, Rr. split_and!; [done | done | done | | by split].
    split_and!; [by eexists | done | congruence]. }
  destruct Hr as [-> | ->].
  2: { intros [= <- <-]. destruct (Hstuck LeaderEpochUnsettled) as (s' & a' & ad & ? & ? & ? & ?). exists s', a', ad. by split_and!; [.. | left]. }
  destruct (reserve_ && _) eqn:Efull.
  { intros [= <- <-]. destruct (Hstuck (Io "the reservation ring is full"%string)) as (s' & a' & ad & ? & ? & ? & ?). exists s', a', ad. by split_and!; [.. | left]. }
  destruct (write_batch _ _ _ _ _ _ b seed (sl_next (v_slot v1)) v1) as [r2 v2] eqn:E2.
  destruct (write_batch_grows v1 b seed sealed active r2 v2 (gw_log _ _ _ _ _ _ _ G) Hraw ltac:(by rewrite N1) E2)
    as (s' & a' & added & G2 & R2 & Hcase). pose proof (grows_trans _ _ _ _ _ _ _ _ _ _ _ G G2 W1) as G3. cbn [app] in G3.
  pose proof (same_ring_trans _ _ _ R R2) as R3. rewrite N1 in Hcase. destruct R3 as [Rp Rr].
  destruct Hcase as [(e & -> & -> & Hn)|(view & -> & Hv & -> & Hn)].
  { intros [= <- <-]. exists s', a', []. rewrite Rp, Rr. split_and!; [done | done | done | left; split; [split_and!; [by eexists | done | done] | by split]]. }
  destruct reserve_; cbn [andb] in Efull.
  - apply Nat.leb_gt in Efull. destruct R as [Rp1 Rr1]. rewrite Rp1, Rr1 in Efull.
    pose proof (reserve_inserts (sl_pending (v_slot v2)) (v_ring v2) (sl_next (v_slot v1))) as Hres. rewrite Rp, Rr in Hres |- *.
    destruct (reserve _ _ _) as [[ok rr] ring']. destruct (Hres Hring) as (Hwf & Hlen & Hb). rewrite (proj2 (Nat.ltb_lt _ _)) in Hb by done.
    intros [= <- <-]. eexists s', a', _. split_and!; [| done | done | right; split].
    + exact (grows_ring _ _ _ _ _ _ _ rr ring' G3).
    + exists view. split_and!; [by rewrite N1 | done | done | done].
    + destruct Hb as [_ Hb]. cbn. by rewrite <- N1.
  - intros [= <- <-]. rewrite Rp, Rr. eexists s', a', _. split_and!; [exact G3 | done | done | right; split; [| by split]].
    exists view. split_and!; [by rewrite N1 | done | done | done].
Qed.

(** A replicated batch is written as it came, at the offset it carries. *)
Lemma replicate_section_grows v bs b expected sealed active r v' :
  holds_log crc32c v sealed active (sl_next (v_slot v)) → validated crc32c bs = Ok b → is_i64 (last_of bs) →
  replicate_section now segment_bytes log_room index_room time_room bs b expected v = (r, v') →
  ∃ sealed' active' added, grows v v' sealed active sealed' active' added ∧ same_ring v v' ∧
    ((∃ e, r = Err e ∧ added = [] ∧ sl_next (v_slot v') = sl_next (v_slot v)) ∨
     (r = Ok (sl_next (v_slot v)) ∧ expected = sl_next (v_slot v) ∧ base_of bs = expected ∧ added = [bs] ∧ sl_next (v_slot v') = last_of bs + 1)).
Proof using Hroom Hindex.
  intros Hl Hv Hi. destruct (validated_whole _ _ _ Hv) as [Hw ->]. unfold replicate_section.
  assert (Hno : ∀ e, ∃ sealed' active' added, grows v v sealed active sealed' active' added ∧ same_ring v v ∧
    (∃ e', @Err StoreError Z e = Err e' ∧ added = [] ∧ sl_next (v_slot v) = sl_next (v_slot v))).
  { intros e. exists sealed, active, []. split_and!; [by apply grows_refl | done | by eexists]. }
  destruct (Z.eqb_spec (sl_next (v_slot v)) expected) as [He|_]; cbn [negb].
  2: { intros [= <- <-]. destruct (Hno (Io "replication position moved"%string)) as (s' & a' & ad & ? & ? & ?). exists s', a', ad. by split_and!; [.. | left]. }
  destruct (Z.eqb_spec (base_offset (mk_batch bs)) (sl_next (v_slot v))) as [Hb|_]; cbn [negb].
  2: { intros [= <- <-]. destruct (Hno (Io "a gap or overlap"%string)) as (s' & a' & ad & ? & ? & ?). exists s', a', ad. by split_and!; [.. | left]. }
  assert (Hlast : last_offset (mk_batch bs) = last_of bs).
  { unfold last_offset. change (base_offset (mk_batch bs)) with (base_of bs).
    assert (Hd : last_offset_delta (mk_batch bs) = last_offset_delta_of bs).
    { unfold last_offset_delta_of. rewrite (proj2 (Nat.leb_le _ _)); [done |].
      pose proof (sd_long _ (whole_sound _ _ Hw)) as Hlen. unfold HEADER, len in Hlen. off_lia. }
    rewrite Hd. by apply wrap_i64_id. }
  unfold bind. rewrite Hb, Hlast. destruct (write_raw _ _ _ _ _ _ _ v) as [r1 v1] eqn:E.
  destruct (write_raw_moves crc32c now segment_bytes log_room index_room time_room Hroom Hindex v _ sealed active _ r1 v1 Hl Hw Hb eq_refl E)
    as (sealed' & active' & added & e' & [Hs Hr Hlog Ho Hm] & Hbat & Hcase).
  destruct Hcase as [(-> & -> & ->)|(e & -> & -> & ->)]; intros [= <- <-].
  - exists sealed', active', [bs]. split_and!; [| split; [apply Hs | done] | right; split_and!; [done | done | by rewrite <- He | done | done]].
    split; cbn; [by rewrite (sm_topic _ _ Hs), (sm_partition _ _ Hs) | apply Hs | apply Hs | by destruct Hlog | done | done | done | done].
  - exists sealed', active', []. split_and!; [| split; [apply Hs | done] | left; eexists; split_and!; [done | done | apply Hs]].
    split; [by rewrite (sm_topic _ _ Hs), (sm_partition _ _ Hs) | apply Hs | apply Hs | by rewrite (sm_next _ _ Hs) | done | done | done | done].
Qed.

End Append.

(** * The segment engine: what a read returns

    [pick] is a read over a list of batches.  The loops over the segments and their
    files come to [pick] over the batches the partition holds, whatever the hints of
    the process: a hint moves where a scan starts, and nothing else
    ([read_segments_pick]).  And [pick] is the loop of the table engine over the same
    batches ([pick_fill]). *)

Section Read.

Variable crc32c : bytes → Z.
Variables (offset max_bytes ceiling : Z) (committed : option (list Z)).

Fixpoint pick (l : list bytes) (r : ReadState) : bool * ReadState :=
  match l with
  | [] => (false, r)
  | x :: l' =>
      if last_of x <? offset then pick l' r
      else if ceiling <=? base_of x then (false, r)
      else
        let aborted := if orphan committed x then rd_aborted r ++ [(producer_id (mk_batch x), base_of x)] else rd_aborted r in
        if (0 <? len (rd_out r)) && (max_bytes <? len (rd_out r) + len x)
        then (true, mk_read (rd_out r) (rd_next r) aborted)
        else
          let r := mk_read (rd_out r ++ x) (last_of x + 1) aborted in
          if max_bytes <=? len (rd_out r) then (true, r) else pick l' r
  end.

Lemma orphan_head x : HEADER ≤ len x → orphan committed (head_of x) = orphan committed x ∧
  producer_id (mk_batch (head_of x)) = producer_id (mk_batch x).
Proof using Type.
  intros H. assert (Hat : attributes (mk_batch (head_of x)) = attributes (mk_batch x)) by (apply read_i_head; off_lia).
  split; [| apply read_i_head; off_lia]. destruct (head_fields x H) as (_ & _ & Hb & _).
  unfold orphan. destruct committed as [c|]; [| done]. unfold is_transactional, is_control. rewrite Hat, Hb.
  assert (Hm : is_marker_backed (head_of x) = is_marker_backed x).
  { unfold is_marker_backed. rewrite (read_i_head PRODUCER_EPOCH_OFFSET) by off_lia. pose proof (head_length x H) as Hh.
    unfold HEADER, len in *. rewrite !(proj2 (Nat.leb_le _ _)); [done | off_lia..]. }
  by rewrite Hm.
Qed.

(** The loop over a file, from a batch on. *)
Lemma read_batches_pick fuel a l rest r : Forall (whole crc32c) l → (length l ≤ fuel)%nat →
  read_batches fuel (a ++ concat l ++ rest) (len a + len (concat l)) offset max_bytes ceiling committed (len a) r = pick l r.
Proof using Type.
  revert fuel a r. induction l as [|x l IH]; intros fuel a r Hl Hf; cbn [concat pick].
  { cbn. rewrite Z.add_0_r. destruct fuel; [done |]. cbn [read_batches]. by rewrite header_at_end. }
  apply Forall_cons in Hl as [Hx Hl]. pose proof (whole_sound _ _ Hx) as Hs. destruct fuel as [|fuel]; [cbn in Hf; lia |].
  cbn [read_batches]. rewrite <- !app_assoc, len_app. pose proof (len_nonneg (concat l)) as Hc.
  rewrite header_at_whole by (done || lia). rewrite head_total, head_last by done.
  rewrite (proj2 (Z.ltb_ge _ (len a + len x))) by lia.
  destruct (orphan_head x (sd_long _ Hs)) as [-> ->]. destruct (head_fields x (sd_long _ Hs)) as (_ & _ & -> & _).
  rewrite file_at_app, (take_ge x), Z.eqb_refl by (unfold len; lia). cbn [negb].
  assert (Hnext : ∀ r, read_batches fuel (a ++ x ++ concat l ++ rest) (len a + (len x + len (concat l))) offset max_bytes ceiling committed (len a + len x) r = pick l r).
  { intros r0. specialize (IH fuel (a ++ x) r0 Hl ltac:(cbn in Hf; lia)). rewrite len_app, <- app_assoc, <- Z.add_assoc in IH. exact IH. }
  rewrite !Hnext. done.
Qed.

(** ** Hints *)

Lemma hint_for_cases entries next :
  hint_for entries next = 0 ∨ ∃ b, (b, hint_for entries next) ∈ entries ∧ b ≤ next.
Proof using Type.
  unfold hint_for. destruct (list_find _ (reverse entries)) as [[i [b pos]]|] eqn:E; [| by left]. right. exists b.
  apply list_find_Some in E as (E & Hb & _). split; [| done]. apply elem_of_reverse. by eapply list_elem_of_lookup_2.
Qed.

Lemma pick_skips l1 l2 r : (∀ x, x ∈ l1 → last_of x < offset) → pick (l1 ++ l2) r = pick l2 r.
Proof using Type.
  induction l1 as [|x l1 IH]; intros H; [done |]. cbn [app pick]. rewrite (proj2 (Z.ltb_lt _ _)) by (apply H; by left).
  apply IH. intros y Hy. apply H. by right.
Qed.

(** Where a scan may start: at a batch whose offset is not past what was read. *)
Lemma hint_sound entries base l e r : ascending crc32c base l e → Forall (names l) entries →
  rd_next r = offset ∨ rd_next r ≤ base →
  ∃ l1 l2, l = l1 ++ l2 ∧ hint_for entries (rd_next r) = len (concat l1) ∧ pick l r = pick l2 r.
Proof using Type.
  intros Ha Hn Hr. destruct (hint_for_cases entries (rd_next r)) as [->|(b & Hin & Hb)]; [by exists [], l |].
  rewrite Forall_forall in Hn. destruct (Hn _ Hin) as (l1 & x & l2 & -> & [= -> ->]). exists l1, (x :: l2). split_and!; [done | done |].
  apply pick_skips. intros y Hy. apply ascending_app in Ha as (m & H1 & H2). destruct (ascending_in _ _ _ _ y H1 Hy) as (Hw & Hby & Hly).
  cbn in H2. destruct H2 as (_ & Hmx & _). pose proof (last_of_base _ y Hw). destruct Hr; lia.
Qed.

(** ** Segments *)

Lemma pick_past l r : (∀ x, x ∈ l → ceiling ≤ base_of x ∧ offset ≤ last_of x) → pick l r = (false, r).
Proof using Type.
  destruct l as [|x l]; [done |]. intros H. destruct (H x ltac:(by left)) as [H1 H2]. cbn.
  by rewrite (proj2 (Z.ltb_ge _ _)), (proj2 (Z.leb_le _ _)).
Qed.

Lemma pick_app b l1 l2 e r : ascending crc32c b (l1 ++ l2) e → offset < ceiling →
  pick (l1 ++ l2) r = if (pick l1 r).1 then pick l1 r else pick l2 (pick l1 r).2.
Proof using Type.
  revert b r. induction l1 as [|x l1 IH]; intros b r Ha Hoc; [done |]. cbn [app ascending] in Ha. destruct Ha as (Hw & Hb & Ha).
  cbn [app pick]. specialize (IH _ r Ha Hoc) as IHr. destruct (Z.ltb_spec (last_of x) offset) as [|Hl]; [done |].
  destruct (Z.leb_spec ceiling (base_of x)) as [Hc|_].
  - cbn. symmetry. apply pick_past. intros y Hy. pose proof (last_of_base _ x Hw).
    destruct (ascending_in _ _ _ _ y Ha) as (Hwy & Hby & _); [apply elem_of_app; by right |]. pose proof (last_of_base _ y Hwy). lia.
  - destruct ((0 <? len (rd_out r)) && _); [done |]. destruct (max_bytes <=? _); [done |]. by eapply IH.
Qed.

(** The next offset is the one asked for, or behind a batch that was read. *)
Lemma pick_next b l e r : ascending crc32c b l e → rd_next r = offset ∨ rd_next r ≤ b →
  rd_next (pick l r).2 = offset ∨ rd_next (pick l r).2 ≤ e.
Proof using Type.
  revert b r. induction l as [|x l IH]; intros b r Ha Hr; cbn [pick].
  { cbn in *. lia. }
  cbn in Ha. destruct Ha as (Hw & Hb & Ha). pose proof (ascending_le _ _ _ _ Ha) as Hle. pose proof (last_of_base _ x Hw).
  assert (Hr' : rd_next r = offset ∨ rd_next r ≤ last_of x + 1) by lia.
  destruct (last_of x <? offset); [by eapply IH |]. destruct (ceiling <=? base_of x); [cbn; lia |].
  destruct ((0 <? len (rd_out r)) && _); [cbn; lia |]. destruct (max_bytes <=? _); [cbn; lia |]. eapply IH; [exact Ha |]. right. cbn. lia.
Qed.

(** The loop over the segments, the one that is active or the last included. *)
Lemma read_segments_pick v log_start gone segs b e r :
  linked crc32c segs e → (∀ b' xs, (b', xs) ∈ segs → ∃ f, v_files v !! b' = Some f ∧ sf_log f = concat xs ∧
    data_end (v_slot v) b' f = len (concat xs)) →
  hints_ok (v_hints v) segs b → offset < ceiling → (rd_next r = offset ∨ rd_next r ≤ first_base_of segs e) →
  read_segments v segs.*1 log_start offset max_bytes ceiling committed gone r = Ok (gone, (pick (batches_of segs) r).2).
Proof using Type.
  revert r. induction segs as [|[c xs] segs IH]; intros r Hc Hf Hh Hoc Hr; [done |].
  cbn [fmap list_fmap fst read_segments linked first_base_of] in *. destruct Hc as (Hd & Hc).
  pose proof (dense_ascending _ _ _ _ Hd) as Ha. pose proof (ascending_le _ _ _ _ Ha) as Hle. unfold batches_of. cbn [mbind list_bind snd]. fold (batches_of segs).
  assert (Hf' : ∀ b' xs, (b', xs) ∈ segs → ∃ f, v_files v !! b' = Some f ∧ sf_log f = concat xs ∧ data_end (v_slot v) b' f = len (concat xs))
    by (intros; apply Hf; by right).
  assert (Hh' : hints_ok (v_hints v) segs b).
  { intros b' entries E. destruct (Hh b' entries E) as [->|[Hb Hn]]; [by left |]. right. split; [done |]. intros. apply Hn. by right. }
  destruct (match segs.*1 with next_base :: _ => next_base <=? offset | [] => false end) eqn:Eskip.
  - destruct segs as [|[c' xs'] segs]; [done |]. cbn in Eskip. apply Z.leb_le in Eskip. rewrite pick_skips.
    + apply IH; [done | done | done | done |]. cbn in *. lia.
    + intros x Hx. cbn in Ha. pose proof (ascending_in _ _ _ _ x Ha Hx). lia.
  - clear Eskip. destruct (Hf c xs ltac:(by left)) as (f & Ef & El & Ed). rewrite Ef, El, Ed.
    assert (Hpos : ∃ l1 l2, xs = l1 ++ l2 ∧ (match v_hints v !! c with Some entries => hint_for entries (rd_next r) | None => 0 end) = len (concat l1)
      ∧ pick xs r = pick l2 r).
    { destruct (v_hints v !! c) as [entries|] eqn:E; [| by exists [], xs]. apply (hint_sound entries c xs _ r Ha); [| done].
      destruct (Hh c entries E) as [->|[_ Hn]]; [done |]. apply Hn. by left. }
    destruct Hpos as (l1 & l2 & -> & Hp & Hpick).
    assert (Hw : Forall (whole crc32c) l2) by (apply ascending_whole in Ha; by apply Forall_app in Ha as [_ ?]).
    pose proof (read_batches_pick (length (concat (l1 ++ l2))) (concat l1) l2 [] r Hw) as Hrb.
    rewrite app_nil_r, <- len_app, <- concat_app in Hrb. rewrite Hp, Hrb; clear Hrb.
    2: { pose proof (length_concat _ _ Hw). rewrite concat_app, length_app. lia. }
    rewrite <- Hpick. assert (Hasc : ascending crc32c c ((l1 ++ l2) ++ batches_of segs) e).
    { apply ascending_app. eexists. split; [exact Ha |]. by apply dense_ascending, linked_dense. }
    rewrite (pick_app _ _ _ _ r Hasc Hoc). destruct (pick (l1 ++ l2) r) as [full r'] eqn:Er. cbn [fst snd].
    destruct full; [done |]. apply IH; [done | done | done | done |].
    pose proof (pick_next _ _ _ r Ha Hr) as Hnx. by rewrite Er in Hnx.
Qed.

(** ** The loop of the table engine *)

(** A batch as a row of [kafgres_log]; of the other columns a read sees nothing. *)
Definition row_like (e : Z * LogRow) (x : bytes) : Prop := e.1 = base_of x ∧ lr_last e.2 = last_of x ∧ lr_batch e.2 = x.
Definition in_range (e : Z * LogRow) : Prop := offset ≤ lr_last e.2 ∧ e.1 < ceiling.

Lemma pick_fill b l e rows r : ascending crc32c b l e → offset < ceiling → Forall2 row_like rows l →
  (rd_out (pick l r).2, rd_next (pick l r).2) = fill max_bytes (filter in_range rows) (rd_out r) (rd_next r).
Proof using Type.
  revert b r rows. induction l as [|x l IH]; intros b r rows Ha Hoc Hrows; inversion Hrows as [|[k row] y rows' l' (Hk & Hlast & Hbatch) Hrest]; subst; [done |].
  cbn in Ha, Hk, Hlast. destruct Ha as (Hw & Hb & Ha). cbn [pick snd]. rewrite filter_cons.
  destruct (Z.ltb_spec (last_of (lr_batch row)) offset) as [Hlt|Hge].
  { rewrite decide_False by (unfold in_range; cbn; lia). by eapply IH. }
  destruct (Z.leb_spec ceiling (base_of (lr_batch row))) as [Hc|Hc].
  { rewrite decide_False by (unfold in_range; cbn; lia). cbn [snd]. rewrite filter_none; [done |]. apply Forall_forall. intros [k' row'] Hin [_ Hlt].
    apply list_elem_of_lookup in Hin as [i Hi]. destruct (Forall2_lookup_l _ _ _ _ _ Hrest Hi) as (y & Hy & Hky & _ & _).
    apply list_elem_of_lookup_2 in Hy. destruct (ascending_in _ _ _ _ y Ha Hy) as (_ & Hby & _). cbn in *. pose proof (last_of_base _ _ Hw). lia. }
  rewrite decide_True by (unfold in_range; cbn; lia). cbn [fill]. rewrite Hlast. destruct ((0 <? len (rd_out r)) && _); [done |].
  cbn [rd_out rd_next]. destruct (max_bytes <=? _); [done |]. by eapply (IH _ (mk_read _ _ _)).
Qed.

(** ** The critical section *)

(** The segments that have a file. *)
Lemma view_segments v sealed active next : holds_log crc32c v sealed active next →
  ∃ segs, segment_bases (v_files v) = segs.*1 ∧ batches_of segs = log_batches sealed active ∧ linked crc32c segs next ∧
    (∀ e, e ∈ segs → e ∈ sealed ++ [(active_base_of v, active)]) ∧
    (∀ b xs, (b, xs) ∈ segs → ∃ f, v_files v !! b = Some f ∧ sf_log f = concat xs ∧ data_end (v_slot v) b f = len (concat xs)).
Proof using Type.
  intros [Hf Hs Ha Hb]. unfold active_base_of. set (ab := sl_active_base (v_slot v)) in *.
  assert (Hlink : linked crc32c (sealed ++ [(ab, active)]) next).
  { apply linked_snoc. split; [by apply chained_linked | done]. }
  assert (Hend : ∀ b xs f, (b, xs) ∈ sealed ++ [(ab, active)] → sf_log f = concat xs → data_end (v_slot v) b f = len (concat xs)).
  { intros b xs f Hin El. unfold data_end. fold ab. destruct (Z.eqb_spec b ab) as [->|Hne]; [| by rewrite El].
    apply elem_of_app in Hin as [Hin|Hin]; [pose proof (chained_in _ _ _ _ _ Hs Hin); lia |].
    apply list_elem_of_singleton in Hin as [= ->]. done. }
  assert (Hfile : ∀ segs, logs_of (v_files v) = segs_of segs → ∀ b xs, (b, xs) ∈ segs → ∃ f, v_files v !! b = Some f ∧ sf_log f = concat xs).
  { intros segs El b xs Hin. apply logs_of_elem. rewrite El. apply list_elem_of_fmap. by exists (b, xs). }
  assert (Hkeys : ∀ segs, logs_of (v_files v) = segs_of segs → segment_bases (v_files v) = segs.*1).
  { intros segs El. unfold segment_bases. rewrite <- logs_of_keys, El. unfold segs_of. rewrite <- list_fmap_compose. by apply list_fmap_ext. }
  destruct Hf as [El|[El ->]].
  - exists (sealed ++ [(ab, active)]). split_and!; [by apply Hkeys | apply batches_of_snoc | done | done |].
    intros b xs Hin. destruct (Hfile _ El _ _ Hin) as (f & Ef & Elog). exists f. split_and!; [done | done | by apply Hend].
  - cbn in Ha. subst next. exists sealed. unfold log_batches. rewrite app_nil_r. split_and!; [by apply Hkeys | done | by apply chained_linked | |].
    + intros e He. apply elem_of_app. by left.
    + intros b xs Hin. destruct (Hfile _ El _ _ Hin) as (f & Ef & Elog). exists f. split_and!; [done | done | apply Hend; [| done]].
      apply elem_of_app. by left.
Qed.

Lemma read_section_pick v sealed active next log_start : holds_log crc32c v sealed active next →
  hints_ok (v_hints v) (sealed ++ [(active_base_of v, active)]) (active_base_of v) → offset < ceiling →
  read_section (segment_bases (v_files v)) log_start offset max_bytes ceiling committed v =
    (Ok (pick (log_batches sealed active) (mk_read [] offset [])).2, v).
Proof using Type.
  intros Hl Hh Hoc. destruct (view_segments v sealed active next Hl) as (segs & -> & <- & Hlink & Hsub & Hfiles). unfold read_section.
  rewrite (read_segments_pick v log_start [] segs (active_base_of v) next); [by destruct v | done | done | | done | by left].
  intros b entries E. destruct (Hh b entries E) as [->|[Hb Hn]]; [by left |]. right. split; [done |]. intros xs Hin. by apply Hn, Hsub.
Qed.

End Read.

(** * The segment engine: truncating to a leader's log

    [truncate_to] cuts a log at the offset where it left the leader's: what is below
    stays, what is at or past it goes, and the next batch lands there. *)

Section Truncate.

Variable crc32c : bytes → Z.
Variable now : Z.
Variable offset : Z.

Abbreviation segments := (list (Z * list bytes)).

(** No batch reaches over the offset. *)
Definition boundary (l : list bytes) : Prop := ∀ x, x ∈ l → base_of x < offset → last_of x < offset.
Definition below (l : list bytes) : list bytes := filter (λ x, base_of x < offset) l.

Lemma dense_split b l e : dense crc32c b l e → b ≤ offset ≤ e → boundary l →
  ∃ l1 l2, l = l1 ++ l2 ∧ dense crc32c b l1 offset ∧ dense crc32c offset l2 e.
Proof using Type.
  revert b. induction l as [|x l IH]; intros b Hd Hb Hbd.
  { cbn in Hd. exists [], []. cbn. split_and!; [done | lia | lia]. }
  destruct (decide (b = offset)) as [->|Hne]; [by exists [], (x :: l) |]. cbn in Hd. destruct Hd as (Hw & Hx & Hd).
  pose proof (Hbd x ltac:(by left) ltac:(lia)). destruct (IH _ Hd) as (l1 & l2 & -> & H1 & H2).
  - pose proof (ascending_le _ _ _ _ (dense_ascending _ _ _ _ Hd)). lia.
  - intros y Hy. apply Hbd. by right.
  - exists (x :: l1), l2. by split_and!.
Qed.

Lemma below_split b l1 l2 e : dense crc32c b l1 offset → dense crc32c offset l2 e → below (l1 ++ l2) = l1.
Proof using Type.
  intros H1 H2. unfold below. rewrite filter_app, filter_every, filter_none; [apply app_nil_r | |]; apply Forall_forall; intros x Hx.
  - pose proof (ascending_in _ _ _ _ x (dense_ascending _ _ _ _ H2) Hx). lia.
  - destruct (ascending_in _ _ _ _ x (dense_ascending _ _ _ _ H1) Hx) as (Hw & _ & Hl). pose proof (last_of_base _ x Hw). lia.
Qed.

Lemma below_none b l e : dense crc32c b l e → offset ≤ b → below l = [].
Proof using Type.
  intros H Hb. apply filter_none, Forall_forall. intros x Hx. pose proof (ascending_in _ _ _ _ x (dense_ascending _ _ _ _ H) Hx). lia.
Qed.

(** The walk stops at the first batch at or past the offset. *)
Lemma cut_at_exact fuel a l1 l2 : Forall (whole crc32c) (l1 ++ l2) → (∀ x, x ∈ l1 → base_of x < offset) →
  (∀ x, x ∈ l2 → offset ≤ base_of x) → (length (l1 ++ l2) ≤ fuel)%nat →
  cut_at fuel (a ++ concat l1 ++ concat l2) offset (len a) = len a + len (concat l1).
Proof using Type.
  revert fuel a. induction l1 as [|x l1 IH]; intros fuel a Hw H1 H2 Hf.
  - cbn [concat app] in *. rewrite len_nil, Z.add_0_r. destruct l2 as [|x l2].
    + cbn [concat]. rewrite app_nil_r. destruct fuel; [done |]. cbn. by rewrite header_at_end.
    + apply Forall_cons in Hw as [Hx _]. pose proof (whole_sound _ _ Hx) as Hs. destruct fuel as [|fuel]; [cbn in Hf; lia |].
      cbn [cut_at concat]. rewrite header_at_whole; [| done |].
      2: { rewrite !len_app. pose proof (len_nonneg (concat l2)). lia. }
      destruct (head_fields x (sd_long _ Hs)) as (_ & _ & -> & _). by rewrite (proj2 (Z.leb_le _ _)) by (apply H2; by left).
  - apply Forall_cons in Hw as [Hx Hw]. pose proof (whole_sound _ _ Hx) as Hs. destruct fuel as [|fuel]; [cbn in Hf; lia |].
    cbn [cut_at concat]. rewrite <- !app_assoc. rewrite header_at_whole; [| done |].
    2: { rewrite !len_app. pose proof (len_nonneg (concat l1)). pose proof (len_nonneg (concat l2)). lia. }
    destruct (head_fields x (sd_long _ Hs)) as (_ & _ & Hb & _). rewrite head_total, Hb by done.
    rewrite (proj2 (Z.leb_gt _ _)) by (apply H1; by left).
    specialize (IH fuel (a ++ x) Hw ltac:(intros; apply H1; by right) H2 ltac:(cbn in Hf; lia)).
    rewrite len_app, <- app_assoc in IH. rewrite IH, len_app. lia.
Qed.

(** What is left of a partition whose files hold [segs], when the walk over the
    segments is done: the files, the slot but for the active segment, the ring. *)
Record cut_to (v v' : View) (segs : segments) (in_place : bool) : Prop := mk_cut {
  ct_slot : same_slot (v_slot v) (v_slot v');
  ct_ring : v_ring v' = v_ring v;
  ct_log : if in_place then ∃ sealed active,
             logs_of (v_files v') = segs_of (sealed ++ [(sl_active_base (v_slot v'), active)]) ∧
             chained crc32c sealed (sl_active_base (v_slot v')) ∧
             dense crc32c (sl_active_base (v_slot v')) active offset ∧
             sl_active_bytes (v_slot v') = len (concat active) ∧
             log_batches sealed active = below (batches_of segs) ∧
             (indexes_ok (v_files v) segs → indexes_ok (v_files v') (sealed ++ [(sl_active_base (v_slot v'), active)]))
           else logs_of (v_files v') = [] ∧ below (batches_of segs) = [] }.

Lemma logs_of_delete_last files l b bs : logs_of files = l ++ [(b, bs)] → logs_of (delete b files) = l.
Proof using Type.
  intros H. pose proof (logs_of_sorted files) as Hs. rewrite H, fmap_app in Hs. cbn in Hs. pose proof Hs as Hs'.
  apply StronglySorted_app in Hs as (Hlt & Hs & _). apply logs_of_unique; [done |]. intros b' bs'.
  assert (Hb : ∀ x, (b, x) ∉ l).
  { intros x Hin. specialize (Hlt b b). assert (b < b); [| lia]. apply Hlt; [| by left]. apply list_elem_of_fmap. by exists (b, x). }
  destruct (decide (b' = b)) as [->|Hne].
  - rewrite lookup_delete_eq. split; [intros Hin; by apply Hb in Hin | by intros (? & ? & _)].
  - rewrite lookup_delete_ne by done. rewrite <- logs_of_elem, H, elem_of_app, list_elem_of_singleton. split; [by left |]. intros [?|[= ? ?]]; done.
Qed.

(** Names in order are strictly so. *)
Lemma linked_chained l e : linked crc32c l e → StronglySorted (<) l.*1 → (∀ b, b ∈ l.*1 → b < e) → chained crc32c l e.
Proof using Type.
  induction l as [|[b xs] l IH]; cbn; [done |]. intros (Hd & Hl) Hs He. apply StronglySorted_inv in Hs as [Hs Hlt].
  split_and!; [| done | apply IH; [done | done | intros; apply He; by right]].
  destruct l as [|[c ys] l]; cbn in *; [apply He; by left |]. by apply Forall_cons in Hlt as [? _].
Qed.

Lemma truncate_segments_cut segs : ∀ e v, logs_of (v_files v) = segs_of segs → linked crc32c segs e → offset ≤ e →
  boundary (batches_of segs) → ∃ in_place v', truncate_segments now offset (reverse segs.*1) v = (Ok in_place, v') ∧ cut_to v v' segs in_place.
Proof using Type.
  induction segs as [|[b xs] segs IH] using rev_ind; intros e v Hlog Hlink He Hbd.
  { exists false, v. by split. }
  rewrite fmap_app, reverse_app. cbn [fmap list_fmap fst reverse rev_append]. cbn [app truncate_segments].
  apply linked_snoc in Hlink as [Hlink Hd]. rewrite batches_of_snoc in Hbd. rewrite segs_of_app in Hlog. cbn in Hlog.
  destruct (Z.leb_spec offset b) as [Hob|Hob].
  - set (v1 := mk_view _ _ _ _). destruct (IH b v1) as (ip & v' & E & Hc).
    + cbn. by eapply logs_of_delete_last.
    + done.
    + done.
    + intros x Hx. apply Hbd. apply elem_of_app. by left.
    + exists ip, v'. split; [exact E |]. destruct Hc as [H1 H2 H3]. split; [done | done |]. rewrite batches_of_snoc.
      replace (below (batches_of segs ++ xs)) with (below (batches_of segs)).
      2: { unfold below. rewrite filter_app. fold (below xs). by rewrite (below_none b xs e), app_nil_r. }
      destruct ip; [| done]. destruct H3 as (se & ac & ? & ? & ? & ? & ? & Hi). exists se, ac. split_and!; try done. intros Hix. apply Hi.
      intros c ys f Hin Ef. cbn in Ef. apply lookup_delete_Some in Ef as [_ Ef]. eapply Hix; [apply elem_of_app; by left | done].
  - assert (Hfile : ∃ f, v_files v !! b = Some f ∧ sf_log f = concat xs).
    { apply logs_of_elem. rewrite Hlog. apply elem_of_app. right. by left. }
    destruct Hfile as (f & Ef & El). rewrite Ef, El.
    destruct (dense_split b xs e Hd) as (l1 & l2 & -> & H1 & H2); [lia | intros x Hx; apply Hbd; apply elem_of_app; by right |].
    assert (Hwh : Forall (whole crc32c) (l1 ++ l2)) by (by eapply ascending_whole, dense_ascending).
    assert (Hcut : cut_at (length (concat (l1 ++ l2))) (concat (l1 ++ l2)) offset 0 = len (concat l1)).
    { pose proof (cut_at_exact (length (concat (l1 ++ l2))) [] l1 l2 Hwh) as Hc. cbn [app] in Hc. rewrite <- concat_app in Hc. apply Hc.
      - intros x Hx. destruct (ascending_in _ _ _ _ x (dense_ascending _ _ _ _ H1) Hx) as (Hw & _ & ?). pose proof (last_of_base _ x Hw). lia.
      - intros x Hx. apply (ascending_in _ _ _ _ x (dense_ascending _ _ _ _ H2) Hx).
      - by apply length_concat with crc32c. }
    rewrite Hcut. unfold cut_file. rewrite concat_app, take_len_app. destruct (max_before _ _ _ _ _) as [ts at_].
    exists true. eexists. split; [done |]. split; cbn; [done | done |]. exists segs, l1.
    assert (Hsort : chained crc32c segs b).
    { pose proof (logs_of_sorted (v_files v)) as Hs. rewrite Hlog, fmap_app in Hs. apply StronglySorted_app in Hs as (Hlt & Hs & _).
      assert (Hk : (segs_of segs).*1 = segs.*1) by (unfold segs_of; rewrite <- list_fmap_compose; by apply list_fmap_ext).
      rewrite Hk in Hs, Hlt. apply linked_chained; [done | done |]. intros c Hc. apply Hlt; [done | by left]. }
    split_and!; [| done | done | done | |].
    + rewrite (files_hold_put crc32c _ segs b (l1 ++ l2)); [by rewrite segs_of_app | done |]. left. by rewrite segs_of_app.
    + rewrite batches_of_snoc. unfold log_batches. rewrite app_assoc. symmetry. unfold below. rewrite filter_app, filter_app. 
      fold (below (batches_of segs)) (below l1) (below l2). rewrite (below_none offset l2 e), app_nil_r by (done || lia).
      assert (Hall : below (batches_of segs ++ l1) = batches_of segs ++ l1); [| unfold below in Hall; by rewrite filter_app in Hall].
      apply filter_every, Forall_forall. intros x Hx. 
      assert (Hd' : dense crc32c (first_base_of segs b) (batches_of segs ++ l1) offset).
      { apply dense_app. exists b. split; [by apply linked_dense, chained_linked | done]. }
      destruct (ascending_in _ _ _ _ x (dense_ascending _ _ _ _ Hd') Hx) as (Hw & _ & ?). pose proof (last_of_base _ x Hw). lia.
    + intros Hix. eapply indexes_ok_put; [done | exact Hix |]. by exists [].
Qed.

(** The critical section: nothing to do, or exactly the batches below the offset are
    left, under a new layout generation. *)
Record truncated (v v' : View) (sealed : segments) (active : list bytes) (sealed' : segments) (active' : list bytes) : Prop := mk_truncated {
  tr_id : (sl_topic (v_slot v'), sl_partition (v_slot v')) = (sl_topic (v_slot v), sl_partition (v_slot v));
  tr_ring_index : sl_ring (v_slot v') = sl_ring (v_slot v);
  tr_pending : sl_pending (v_slot v') = sl_pending (v_slot v);
  tr_ring : v_ring v' = v_ring v;
  tr_generation : sl_generation (v_slot v') = wrap_u 64 (sl_generation (v_slot v) + 1);
  tr_next : sl_next (v_slot v') = offset;
  tr_log : holds_log crc32c v' sealed' active' offset;
  tr_batches : log_batches sealed' active' = below (log_batches sealed active);
  tr_index : indexes_ok (v_files v) (sealed ++ [(active_base_of v, active)]) →
    indexes_ok (v_files v') (sealed' ++ [(active_base_of v', active')]) }.

Lemma truncate_section_cuts v sealed active r v' :
  holds_log crc32c v sealed active (sl_next (v_slot v)) → boundary (log_batches sealed active) →
  truncate_section now (segment_bases (v_files v)) offset v = (r, v') →
  (sl_next (v_slot v) ≤ offset ∧ r = Ok 0 ∧ v' = v) ∨
  (offset < sl_next (v_slot v) ∧ r = Ok (sl_next (v_slot v) - offset) ∧ ∃ sealed' active', truncated v v' sealed active sealed' active').
Proof using Type.
  intros Hl Hbd. unfold truncate_section, bind. destruct (Z.leb_spec (sl_next (v_slot v)) offset) as [Hle|Hlt].
  { intros [= <- <-]. by left. }
  destruct (view_segments crc32c v sealed active _ Hl) as (segs & Hbases & Hbat & Hlink & Hsub & Hfiles). rewrite Hbases.
  assert (Hlog : logs_of (v_files v) = segs_of segs).
  { apply logs_of_unique.
    - unfold segs_of. rewrite <- list_fmap_compose. rewrite (list_fmap_ext _ fst) by done. rewrite <- Hbases. apply in_order_sorted.
    - intros b bs. unfold segs_of. rewrite list_elem_of_fmap. split.
      + intros ([b' xs] & [= -> ->] & Hin). destruct (Hfiles _ _ Hin) as (f & Ef & El & _). by exists f.
      + intros (f & Ef & <-). assert (Hin : b ∈ segs.*1).
        { rewrite <- Hbases. apply list_elem_of_fmap. exists (b, f). split; [done | by apply in_order_elem]. }
        apply list_elem_of_fmap in Hin as ([b' xs] & -> & Hin). destruct (Hfiles _ _ Hin) as (f' & Ef' & El & _). cbn in *.
        assert (f' = f) as -> by congruence. exists (b', xs). by rewrite El. }
  rewrite <- Hbat in Hbd. destruct (truncate_segments_cut segs _ v Hlog Hlink ltac:(lia) Hbd) as (ip & v1 & -> & [Hs Hr Hc]).
  intros [= <- <-]. right. split_and!; [done | done |].
  destruct ip; [destruct Hc as (sealed' & active' & Hf & Hch & Hd & Hby & Hb & Hix) | destruct Hc as [Hf Hb]].
  - exists sealed', active'. destruct Hs. split; cbn; [congruence | congruence | congruence | done | congruence | done | | by rewrite <- Hbat |].
    + split; cbn; [by left | done | done | done].
    + intros Hi. apply Hix. intros b xs f Hin. by apply Hi, Hsub.
  - exists [], []. destruct Hs. split; cbn; [congruence | congruence | congruence | done | congruence | done | | by rewrite <- Hbat, Hb |].
    + split; cbn; [by right | done | done | done].
    + intros _ b xs f _ Ef. assert (Hin : (b, sf_log f) ∈ logs_of (v_files v1)) by (apply logs_of_elem; by exists f).
      rewrite Hf in Hin. by apply elem_of_nil in Hin.
Qed.

End Truncate.
