(* ===== verification/SegmentSlots.v ===== *)
(** * The segment engine: slots, recovery and the whole store

    While no partition is dropped a partition has one slot, found by the probe from
    its hash ([slots_ok]).  [part_ok] says what a partition holds, whether it has a
    slot or is still on disk only: the batches, the next offset, and that everything
    kept beside them (the ring, the hints of every process, the index files) agrees.
    A slot made by recovery holds what the disk held ([slot_for_ok]), and what runs
    under the lock of one partition leaves the others alone ([store_view_ok]). *)

From stdpp Require Import gmap sorting strings.
From S2P Require Import Prelude Errors Records RecordIter Build Compaction Cleaner PendingRing Pmeta Store Config Table TableSpec Segment SegmentFiles SegmentView.

Section Slots.

Variable crc32c : bytes → Z.
Variables (now stripes : Z) (max_backends : nat) (me : Z).

Abbreviation segments := (list (Z * list bytes)).

(** ** The probe *)

Lemma probe_found p s rounds n k : probe stripes p s rounds n = Found k →
  ∃ m, (m < rounds)%nat ∧ probe_at stripes p (n + m) = k ∧ holds p (slot_at s k) = true ∧
    ∀ i, (i < m)%nat → holds p (slot_at s (probe_at stripes p (n + i))) = false ∧ is_free (slot_at s (probe_at stripes p (n + i))) = false.
Proof using Type.
  revert n. induction rounds as [|rounds IH]; intros n; cbn [probe]; [done |].
  destruct (holds p (slot_at s (probe_at stripes p n))) eqn:Eh.
  - intros [= <-]. exists 0%nat. rewrite Nat.add_0_r. split_and!; [lia | done | done | lia].
  - destruct (is_free _) eqn:Ef; [done |]. intros H. destruct (IH _ H) as (m & Hm & Hk & Hh & Hi). exists (S m).
    rewrite Nat.add_succ_r. split_and!; [lia | done | done |]. intros [|i] Hlt; [by rewrite Nat.add_0_r |]. rewrite Nat.add_succ_r. apply Hi. lia.
Qed.

Lemma probe_reaches p s rounds n m k : (m < rounds)%nat → probe_at stripes p (n + m) = k → holds p (slot_at s k) = true →
  (∀ i, (i < m)%nat → holds p (slot_at s (probe_at stripes p (n + i))) = false ∧ is_free (slot_at s (probe_at stripes p (n + i))) = false) →
  probe stripes p s rounds n = Found k.
Proof using Type.
  revert n m. induction rounds as [|rounds IH]; intros n m Hm Hk Hh Hi; [lia |]. cbn [probe]. destruct m as [|m].
  - rewrite Nat.add_0_r in Hk. by rewrite Hk, Hh.
  - destruct (Hi 0%nat ltac:(lia)) as [H1 H2]. rewrite Nat.add_0_r in H1, H2. rewrite H1, H2.
    rewrite Nat.add_succ_r in Hk. apply (IH (S n) m); [lia | done | done |]. intros i Hlt. specialize (Hi (S i) ltac:(lia)).
    by rewrite Nat.add_succ_r in Hi.
Qed.

Lemma probe_free p s rounds n k : probe stripes p s rounds n = Free k →
  ∃ m, (m < rounds)%nat ∧ probe_at stripes p (n + m) = k ∧ is_free (slot_at s k) = true ∧
    ∀ i, (i < m)%nat → holds p (slot_at s (probe_at stripes p (n + i))) = false ∧ is_free (slot_at s (probe_at stripes p (n + i))) = false.
Proof using Type.
  revert n. induction rounds as [|rounds IH]; intros n; cbn [probe]; [done |].
  destruct (holds p (slot_at s (probe_at stripes p n))) eqn:Eh; [done |]. destruct (is_free (slot_at s (probe_at stripes p n))) eqn:Ef.
  - intros [= <-]. exists 0%nat. rewrite Nat.add_0_r. split_and!; [lia | done | done | lia].
  - intros H. destruct (IH _ H) as (m & Hm & Hk & Hh & Hi). exists (S m).
    rewrite Nat.add_succ_r. split_and!; [lia | done | done |]. intros [|i] Hlt; [by rewrite Nat.add_0_r |]. rewrite Nat.add_succ_r. apply Hi. lia.
Qed.

Definition id_of (st : Slot) : Z * Z := (sl_topic st, sl_partition st).

Lemma holds_iff p st : holds p st = true ↔ id_of st = p.
Proof using Type.
  unfold holds, id_of. rewrite andb_true_iff, !Z.eqb_eq. destruct p as [t q]. cbn. split; [intros [-> ->]; done | by intros [= -> ->]].
Qed.

Lemma find_slot_ext p s s' : (∀ k, id_of (slot_at s' k) = id_of (slot_at s k)) → find_slot stripes p s' = find_slot stripes p s.
Proof using Type.
  intros H. unfold find_slot. generalize 0%nat. induction (Z.to_nat SLOTS_PER_SHARD) as [|rounds IH]; intros n; [done |]. cbn [probe].
  pose proof (H (probe_at stripes p n)) as Hn. unfold id_of in Hn. injection Hn as Ht Hq. unfold holds, is_free. rewrite Ht, Hq.
  destruct (_ && _); [done |]. destruct (_ =? 0); [done |]. apply IH.
Qed.

(** Every slot is somebody's, and the probe for him ends there. *)
Definition slots_ok (s : SegStore) : Prop :=
  ∀ k st, ss_slots s !! k = Some st → sl_topic st ≠ 0 ∧ find_slot stripes (id_of st) s = Found k.

Lemma found_holds p s k : find_slot stripes p s = Found k → holds p (slot_at s k) = true.
Proof using Type. intros H. by apply probe_found in H as (m & _ & _ & H & _). Qed.

Lemma found_slot p s k : p.1 ≠ 0 → find_slot stripes p s = Found k → ∃ st, ss_slots s !! k = Some st ∧ slot_at s k = st ∧ id_of st = p.
Proof using Type.
  intros Hp H. apply found_holds, holds_iff in H. unfold slot_at in *. destruct (ss_slots s !! k) as [st|]; [by exists st |].
  cbn in H. subst p. done.
Qed.

Lemma holder_found p s k : slots_ok s → p.1 ≠ 0 → holds p (slot_at s k) = true → find_slot stripes p s = Found k.
Proof using Type.
  intros Hs Hp H. apply holds_iff in H. unfold slot_at in H. destruct (ss_slots s !! k) as [st|] eqn:E; cbn in H; [| by subst p].
  destruct (Hs k st E) as [_ Hf]. by rewrite H in Hf.
Qed.

(** A slot filled where the probe ended. *)
Lemma find_slot_insert p s s' k st : slots_ok s → p.1 ≠ 0 → find_slot stripes p s = Free k → id_of st = p →
  ss_slots s' = <[k := st]> (ss_slots s) →
  find_slot stripes p s' = Found k ∧ slots_ok s' ∧
  (∀ q kq, q ≠ p → q.1 ≠ 0 → find_slot stripes q s = Found kq ↔ find_slot stripes q s' = Found kq).
Proof using Type.
  intros Hs Hp Hfree Hid Hslots.
  assert (Hat : ∀ k', slot_at s' k' = if decide (k' = k) then st else slot_at s k').
  { intros k'. unfold slot_at. rewrite Hslots. case_decide as E; [subst; by rewrite lookup_insert_eq | by rewrite lookup_insert_ne]. }
  apply probe_free in Hfree as (m & Hm & Hk & Hf & Hi).
  assert (Hfound : find_slot stripes p s' = Found k).
  { apply (probe_reaches p s' _ 0 m); [done | done | rewrite Hat, decide_True by done; by apply holds_iff |].
    intros i Hlt. specialize (Hi i Hlt). rewrite Hat. case_decide as E; [| done]. rewrite E in Hi. destruct Hi as [_ Hi]. congruence. }
  assert (Hbusy : ∀ k', is_free (slot_at s k') = false → k' ≠ k) by (intros k' H ->; congruence).
  assert (Hkeep : ∀ q kq, q ≠ p → q.1 ≠ 0 → find_slot stripes q s = Found kq → find_slot stripes q s' = Found kq).
  { intros q kq Hq Hq0 H. pose proof (found_holds _ _ _ H) as Hh. apply probe_found in H as (j & Hj & Hkq & _ & Hij).
    apply (probe_reaches q s' _ 0 j); [done | done | |].
    - rewrite Hat, decide_False; [done |]. apply Hbusy. apply holds_iff in Hh. unfold is_free. apply Z.eqb_neq. by rewrite <- Hh in Hq0.
    - intros i Hlt. destruct (Hij i Hlt) as [H1 H2]. by rewrite Hat, decide_False by (by apply Hbusy). }
  assert (Hnew : ∀ q kq, q ≠ p → q.1 ≠ 0 → find_slot stripes q s' = Found kq → find_slot stripes q s = Found kq).
  { intros q kq Hq Hq0 H. apply holder_found; [done | done |]. apply found_holds in H. rewrite Hat in H. case_decide; [| done].
    apply holds_iff in H. congruence. }
  split_and!; [done | | intros; split; auto].
  intros k' st' E. rewrite Hslots in E. destruct (decide (k' = k)) as [->|Hne].
  - rewrite lookup_insert_eq in E. injection E as <-. rewrite Hid. split; [| done]. by rewrite <- Hid in Hp.
  - rewrite lookup_insert_ne in E by done. destruct (Hs k' st' E) as [H1 H2]. split; [done |]. apply Hkeep; [| done | done].
    intros Hq. rewrite Hq in H2. apply probe_found in H2 as (j & Hj & Hkj & Hh & Hij). pose proof Hh as Hh'. apply holds_iff in Hh'.
    destruct (Nat.lt_trichotomy j m) as [Hlt|[->|Hlt]]; [destruct (Hi j Hlt) | congruence | destruct (Hij m Hlt)]; cbn in *; congruence.
Qed.

(** ** Recovery *)

(** A directory that holds whole batches, and behind the last of them what a crash may
    have left of one. *)
Record dir_holds (files : Files) (sealed : segments) (base : Z) (active : list bytes) (tail : bytes) (e : Z) : Prop := mk_dir_holds {
  dh_files : logs_of files = segs_of sealed ++ [(base, concat active ++ tail)];
  dh_sealed : chained crc32c sealed base;
  dh_active : dense crc32c base active e;
  dh_torn : torn crc32c tail;
  dh_index : indexes_ok files (sealed ++ [(base, active)]) }.

Lemma in_order_last files l b bs : logs_of files = l ++ [(b, bs)] →
  ∃ l' f, in_order files = l' ++ [(b, f)] ∧ sf_log f = bs ∧ (λ e : Z * SegFile, (e.1, sf_log e.2)) <$> l' = l.
Proof using Type.
  unfold logs_of. intros H. apply fmap_app_inv in H as (l' & l2 & Hl & H2 & Hio). symmetry in H2.
  destruct l2 as [|[b' f] [|]]; try done. injection H2 as ? ?. subst. by exists l', f.
Qed.

Lemma truncate_time_index_log f base next : sf_log (truncate_time_index f base next).2 = sf_log f ∧ sf_index (truncate_time_index f base next).2 = sf_index f.
Proof using Type. unfold truncate_time_index. destruct (sf_time f); [| done]. by destruct (time_prefix _ _ _ _ _ _). Qed.

Lemma sealed_hints_lookup l b entries : sealed_hints l !! b = Some entries → ∃ f, (b, f) ∈ l ∧ entries = read_index f b (len (sf_log f)).
Proof using Type.
  unfold sealed_hints. intros H. apply elem_of_list_to_map_2 in H. apply list_elem_of_fmap in H as ([b' f] & [= -> ->] & Hin). by exists f.
Qed.

(** Recovery finds exactly the whole batches, cuts what is behind them, and hints at
    batches only. *)
Lemma recover_exact files sealed base active tail e : dir_holds files sealed base active tail e →
  ∃ h mx ti files', recover crc32c now files = (mk_recovered e base (len (concat active)) h mx ti, files') ∧
    logs_of files' = segs_of (sealed ++ [(base, active)]) ∧ indexes_ok files' (sealed ++ [(base, active)]) ∧
    hints_ok h (sealed ++ [(base, active)]) base.
Proof using Type.
  intros [Hf Hs Ha Ht Hi]. destruct (in_order_last _ _ _ _ Hf) as (l' & f & Hio & Hlog & Hl').
  assert (Hw : Forall (whole crc32c) active) by (by eapply ascending_whole, dense_ascending).
  assert (Hfile : files !! base = Some f) by (apply (in_order_elem files (base, f)); rewrite Hio; apply elem_of_app; right; by left).
  unfold recover. rewrite Hio, last_snoc, removelast_last. unfold scan_segment. rewrite Hlog, (read_segment_exact _ base active tail Hw Ht).
  rewrite scanned_pos. set (f1 := if _ <? _ then _ else _).
  assert (Hf1 : sf_log f1 = concat active ∧ sf_index f1 = sf_index f).
  { unfold f1. destruct (Z.ltb_spec (len (concat active)) (len (concat active ++ tail))) as [Hlt|Hge]; cbn.
    - split; [| done]. unfold cut_file. by rewrite take_len_app.
    - rewrite Hlog. split; [| done]. rewrite len_app in Hge. destruct tail as [|t tail]; [by rewrite app_nil_r |].
      rewrite len_cons in Hge. pose proof (len_nonneg tail). lia. }
  destruct Hf1 as [Hf1 Hx1]. destruct (truncate_time_index f1 base _) as [ti f2] eqn:E2.
  pose proof (truncate_time_index_log f1 base (sc_next (scanned base active))) as [Hf2 Hx2]. rewrite E2 in Hf2, Hx2. cbn in Hf2, Hx2.
  rewrite (scanned_next crc32c base active e Ha). do 4 eexists. split; [done |]. split_and!.
  - rewrite (logs_of_put files base f2 (segs_of sealed) [(base, concat active ++ tail)]); [| done | intros; by eapply segs_of_below | right; by eexists].
    rewrite Hf2, Hf1. by rewrite segs_of_app.
  - eapply indexes_ok_put; [done | exact Hi |]. eapply index_ok_same; [| eapply Hi; [apply elem_of_app; right; by left | exact Hfile]].
    by rewrite Hx2.
  - intros b entries E. right. destruct (decide (b = base)) as [->|Hne].
    + rewrite lookup_insert_eq in E. injection E as <-. split; [done |]. intros xs Hin.
      apply elem_of_app in Hin as [Hin|Hin]; [pose proof (chained_in _ _ _ _ _ Hs Hin); lia |].
      apply list_elem_of_singleton in Hin as [= ->]. apply scanned_index.
    + rewrite lookup_insert_ne in E by done. apply sealed_hints_lookup in E as (fb & Hin & ->).
      assert (Hfb : files !! b = Some fb) by (apply (in_order_elem files (b, fb)); rewrite Hio; apply elem_of_app; by left).
      split; [| intros xs Hxs; eapply read_index_names, Hi; [exact Hxs | exact Hfb]].
      assert (Hb : (b, sf_log fb) ∈ segs_of sealed) by (rewrite <- Hl'; apply list_elem_of_fmap; by exists (b, fb)).
      pose proof (segs_of_below _ _ _ _ Hs Hb). cbn in *. lia.
Qed.

(** ** What a partition holds *)

Definition hints_in (s : SegStore) (p : Z * Z) (generation : Z) (segs : segments) (base : Z) : Prop :=
  ∀ m g h, pr_hints (process m s) !! p = Some (g, h) → g ≤ generation ∧ (g = generation → hints_ok h segs base).

Definition part_view (p : Z * Z) (k : Z) (s : SegStore) : View := mk_view (slot_at s k) ∅ [] (dir p s).

Record tracked_as (s : SegStore) (p : Z * Z) (k : Z) (sealed : segments) (active : list bytes) : Prop := mk_tracked {
  tk_log : holds_log crc32c (part_view p k s) sealed active (sl_next (slot_at s k));
  tk_ring : sl_ring (slot_at s k) = k;
  tk_wf : ring_wf (sl_pending (slot_at s k)) (ring_mut max_backends k s);
  tk_index : indexes_ok (dir p s) (sealed ++ [(sl_active_base (slot_at s k), active)]);
  tk_generation : 0 ≤ sl_generation (slot_at s k);
  tk_hints : hints_in s p (sl_generation (slot_at s k)) (sealed ++ [(sl_active_base (slot_at s k), active)]) (sl_active_base (slot_at s k)) }.

Definition untracked_as (s : SegStore) (p : Z * Z) (l : list bytes) (e : Z) : Prop :=
  (∀ m, pr_hints (process m s) !! p = None) ∧
  ((dir p s = ∅ ∧ l = [] ∧ e = 0) ∨
   (∃ sealed base active tail, dir_holds (dir p s) sealed base active tail e ∧ l = log_batches sealed active)).

(** Partition [p] holds the batches [l], and the next one lands at [e]. *)
Definition part_ok (s : SegStore) (p : Z * Z) (l : list bytes) (e : Z) : Prop :=
  match find_slot stripes p s with
  | Found k => ∃ sealed active, tracked_as s p k sealed active ∧ l = log_batches sealed active ∧ e = sl_next (slot_at s k)
  | _ => untracked_as s p l e
  end.

Record store_ok (s : SegStore) : Prop := mk_store_ok {
  so_slots : slots_ok s;
  so_rings : ∀ k ring, ss_rings s !! k = Some ring → (0 < length ring)%nat;
  so_parts : ∀ p, p.1 ≠ 0 → ∃ l e, part_ok s p l e }.

Lemma found_id p s k : find_slot stripes p s = Found k → id_of (slot_at s k) = p.
Proof using Type. intros H. by apply found_holds, holds_iff in H. Qed.

(** Other partitions see the same slot, ring, files and hints. *)
Lemma part_ok_ext s s' p l e : (∀ k, find_slot stripes p s = Found k ↔ find_slot stripes p s' = Found k) →
  (∀ k, find_slot stripes p s = Found k → slot_at s' k = slot_at s k ∧ ring_mut max_backends k s' = ring_mut max_backends k s) →
  dir p s' = dir p s → (∀ m, pr_hints (process m s') !! p = pr_hints (process m s) !! p) →
  part_ok s p l e → part_ok s' p l e.
Proof using Type.
  intros Hf Hk Hd Hh. unfold part_ok.
  assert (Hun : (∀ k, find_slot stripes p s ≠ Found k) → untracked_as s p l e → match find_slot stripes p s' with
    | Found k => ∃ sealed active, tracked_as s' p k sealed active ∧ l = log_batches sealed active ∧ e = sl_next (slot_at s' k)
    | _ => untracked_as s' p l e end).
  { intros Hno [H1 H2]. assert (Hu : untracked_as s' p l e) by (split; [intros m; by rewrite Hh | by rewrite Hd]).
    destruct (find_slot stripes p s') as [k|k|] eqn:E; [| done | done]. exfalso. apply (Hno k). by apply Hf. }
  destruct (find_slot stripes p s) as [k|k|] eqn:E; [| by apply Hun.. ].
  rewrite (proj1 (Hf k) eq_refl). destruct (Hk k eq_refl) as [Hs Hr]. intros (sealed & active & [H1 H2 H3 H4 H5 H6] & -> & ->).
  exists sealed, active. unfold part_view in *. split_and!; [| done | by rewrite Hs].
  split; rewrite ?Hs, ?Hr, ?Hd; try done. + unfold part_view. by rewrite Hs, Hd. + intros m g h. rewrite Hh. apply H6.
Qed.

Definition kept (s s' : SegStore) : Prop := ∀ q l e, q.1 ≠ 0 → part_ok s q l e → part_ok s' q l e.

Lemma on_process_hints m f s' p : pr_hints (process m (on_process me f s')) !! p =
  if decide (m = me) then pr_hints (f (process me s')) !! p else pr_hints (process m s') !! p.
Proof using Type.
  unfold process, on_process. cbn. case_decide as E; [subst; by rewrite lookup_insert_eq | by rewrite lookup_insert_ne].
Qed.

(** ** Storing what ran under the lock *)

(** The new partition, as the hints of all processes find it. *)
Record stays (s : SegStore) (p : Z * Z) (k : Z) (g : Z) (v : View) (sealed : segments) (active : list bytes) : Prop := mk_stays {
  sy_id : id_of (v_slot v) = p;
  sy_ring : sl_ring (v_slot v) = k;
  sy_log : holds_log crc32c v sealed active (sl_next (v_slot v));
  sy_wf : ring_wf (sl_pending (v_slot v)) (v_ring v);
  sy_index : indexes_ok (v_files v) (sealed ++ [(active_base_of v, active)]);
  sy_generation : 0 ≤ sl_generation (v_slot v);
  sy_mine : g ≤ sl_generation (v_slot v) ∧ (g = sl_generation (v_slot v) → hints_ok (v_hints v) (sealed ++ [(active_base_of v, active)]) (active_base_of v));
  sy_others : hints_in s p (sl_generation (v_slot v)) (sealed ++ [(active_base_of v, active)]) (active_base_of v) }.

Lemma store_view_slot p k g v s k' : slot_at (store_view me p k g v s) k' = if decide (k' = k) then v_slot v else slot_at s k'.
Proof using Type. unfold slot_at, store_view. cbn. case_decide as E; [subst; by rewrite lookup_insert_eq | by rewrite lookup_insert_ne]. Qed.

Lemma store_view_find p k g v s q : id_of (v_slot v) = id_of (slot_at s k) → find_slot stripes q (store_view me p k g v s) = find_slot stripes q s.
Proof using Type. intros H. apply find_slot_ext. intros k'. rewrite store_view_slot. by case_decide; subst. Qed.

Lemma store_view_ok s p k g v sealed active : store_ok s → p.1 ≠ 0 → find_slot stripes p s = Found k → sl_ring (slot_at s k) = k →
  stays s p k g v sealed active → let s' := store_view me p k g v s in
  store_ok s' ∧ part_ok s' p (log_batches sealed active) (sl_next (v_slot v)) ∧ find_slot stripes p s' = Found k ∧
  (∀ q l e, q ≠ p → q.1 ≠ 0 → part_ok s q l e → part_ok s' q l e).
Proof using Type.
  intros [Hs Hr Hp] Hp0 Hf Hring [Y1 Y2 Y3 Y4 Y5 Y6 Y7 Y8] s'.
  pose proof (found_id _ _ _ Hf) as Hid. assert (Hfind : ∀ q, find_slot stripes q s' = find_slot stripes q s) by (intros; apply store_view_find; congruence).
  assert (Hat : slot_at s' k = v_slot v) by (unfold s'; by rewrite store_view_slot, decide_True).
  assert (Hmine : part_ok s' p (log_batches sealed active) (sl_next (v_slot v))).
  { unfold part_ok. rewrite Hfind, Hf. exists sealed, active. rewrite Hat. split_and!; [| done | done].
    assert (Hdir : dir p s' = v_files v) by (unfold dir, s', store_view; cbn; by rewrite lookup_insert_eq).
    assert (Hrg : ring_mut max_backends k s' = v_ring v) by (unfold ring_mut, s', store_view; cbn; by rewrite Hring, lookup_insert_eq).
    split; rewrite ?Hat, ?Hdir, ?Hrg; try done; [unfold part_view; rewrite Hat, Hdir; by destruct Y3 |].
    intros m g' h. unfold s', store_view. rewrite on_process_hints. case_decide as Em; [| apply Y8].
    cbn. rewrite lookup_insert_eq. intros [= <- <-]. done. }
  assert (Hoth : ∀ q l e, q ≠ p → q.1 ≠ 0 → part_ok s q l e → part_ok s' q l e).
  { intros q l e Hq Hq0. apply part_ok_ext; [intros; by rewrite Hfind | | |].
    - intros kq Hkq. assert (kq ≠ k) by (intros ->; pose proof (found_id _ _ _ Hkq); congruence).
      unfold s'. rewrite store_view_slot, decide_False by done. split; [done |]. unfold ring_mut, store_view. cbn.
      by rewrite Hring, lookup_insert_ne.
    - unfold dir, s', store_view. cbn. by rewrite lookup_insert_ne.
    - intros m. unfold s', store_view. rewrite on_process_hints. case_decide as Em; [| done]. subst m. cbn. by rewrite lookup_insert_ne. }
  split_and!; [| done | by rewrite Hfind | done]. split.
  - intros k' st E. unfold s', store_view in E. cbn in E. rewrite Hfind. destruct (decide (k' = k)) as [->|Hne].
    + rewrite lookup_insert_eq in E. injection E as <-. rewrite Y1. split; [by rewrite <- Y1 in Hp0 | done].
    + rewrite lookup_insert_ne in E by done. by apply Hs.
  - intros k' ring E. unfold s', store_view in E. cbn in E. rewrite Hring in E. destruct (decide (k' = k)) as [->|Hne].
    + rewrite lookup_insert_eq in E. injection E as <-. destruct Y4. lia.
    + rewrite lookup_insert_ne in E by done. by eapply Hr.
  - intros q Hq0. destruct (decide (q = p)) as [->|Hq]; [by eexists _, _ |]. destruct (Hp q Hq0) as (l & e & Hl). exists l, e. by apply Hoth.
Qed.

(** ** Making a slot *)

Hypothesis Hbackends : (0 < max_backends)%nat.

Lemma fresh_ring_wf s k : store_ok s → ring_wf ring_default (ring_mut max_backends k s).
Proof using Hbackends.
  intros [_ Hr _]. assert (Hlen : (0 < length (ring_mut max_backends k s))%nat).
  { unfold ring_mut. destruct (ss_rings s !! k) as [ring|] eqn:E; [by eapply Hr |]. cbn. by rewrite length_replicate. }
  unfold ring_wf. cbn. split_and!; [done | lia | constructor | lia | done].
Qed.

(** What recovery makes of a directory: the segments it holds, and good hints. *)
Record recovered_as (rc : Recovered) (files : Files) (sealed : segments) (active l : list bytes) (e : Z) : Prop := mk_recovered_as {
  ra_batches : l = log_batches sealed active;
  ra_next : rc_next rc = e;
  ra_files : files_hold files sealed (rc_active_base rc) active;
  ra_sealed : chained crc32c sealed (rc_active_base rc);
  ra_active : dense crc32c (rc_active_base rc) active e;
  ra_bytes : rc_active_bytes rc = len (concat active);
  ra_index : indexes_ok files (sealed ++ [(rc_active_base rc, active)]);
  ra_hints : hints_ok (rc_index rc) (sealed ++ [(rc_active_base rc, active)]) (rc_active_base rc) }.

Lemma recover_untracked s p l e : untracked_as s p l e →
  ∃ sealed active, recovered_as (recover crc32c now (dir p s)).1 (recover crc32c now (dir p s)).2 sealed active l e.
Proof using Type.
  intros [_ [(-> & -> & ->)|(sealed & base & active & tail & Hd & ->)]].
  - exists [], []. split; try done. by right.
  - destruct (recover_exact _ _ _ _ _ _ Hd) as (h & mx & ti & files' & E & Hl & Hi & Hh). rewrite E. destruct Hd.
    exists sealed, active. split; try done. by left.
Qed.

Lemma recover_bases s p l e : untracked_as s p l e → segment_bases (recover crc32c now (dir p s)).2 = segment_bases (dir p s).
Proof using Type.
  intros [_ [(-> & _)|(sealed & base & active & tail & Hd & ->)]]; [done |].
  destruct (recover_exact _ _ _ _ _ _ Hd) as (h & mx & ti & files' & -> & Hl & _ & _). cbn [snd]. unfold segment_bases.
  rewrite <- !logs_of_keys, Hl, (dh_files _ _ _ _ _ _ Hd), segs_of_app, !fmap_app. done.
Qed.

(** The store with a slot made for [p]. *)
Definition with_fresh (p : Z * Z) (k : Z) (s : SegStore) : SegStore :=
  let '(r, files) := recover crc32c now (dir p s) in
  on_process me (on_hints <[p := (0, rc_index r)]>) (on_slots <[k := fresh_slot p k r]> (on_dirs <[p := files]> s)).

Lemma with_fresh_part s p k l e : store_ok s → p.1 ≠ 0 → find_slot stripes p s = Free k → untracked_as s p l e → part_ok (with_fresh p k s) p l e.
Proof using Hbackends.
  intros Hok Hp Ef Hu. destruct (recover_untracked s p l e Hu) as (sealed & active & [-> <- Rf Rs Ra Rb Ri Rh]). destruct Hu as [Hnone _].
  unfold with_fresh in *. destruct (recover crc32c now (dir p s)) as [rc files]. cbn [fst snd] in *. set (st := fresh_slot p k rc). set (s' := on_process me _ _).
  destruct (find_slot_insert p s s' k st (so_slots s Hok) Hp Ef) as (Hf' & _ & _); [by destruct p | done |].
  assert (Hat : slot_at s' k = st) by (unfold slot_at, s'; cbn; by rewrite lookup_insert_eq).
  assert (Hdr : dir p s' = files) by (unfold dir, s'; cbn; by rewrite lookup_insert_eq).
  unfold part_ok. rewrite Hf'. exists sealed, active. rewrite Hat. split_and!; [| done | done].
  split; rewrite ?Hat, ?Hdr; try done; [by unfold part_view; rewrite Hat, Hdr | by apply (fresh_ring_wf s) |].
  intros m g h'. unfold s'. rewrite on_process_hints. case_decide as Em.
  - cbn. rewrite lookup_insert_eq. intros [= <- <-]. by split.
  - intros E. change (process m _) with (process m s) in E. rewrite Hnone in E. done.
Qed.

Lemma with_fresh_ok s p k : store_ok s → p.1 ≠ 0 → find_slot stripes p s = Free k →
  store_ok (with_fresh p k s) ∧ kept s (with_fresh p k s) ∧ find_slot stripes p (with_fresh p k s) = Found k ∧
  sl_pending (slot_at (with_fresh p k s) k) = ring_default ∧ segment_bases (dir p (with_fresh p k s)) = segment_bases (dir p s).
Proof using Hbackends.
  intros Hok Hp Ef. assert (Hfree : ss_slots s !! k = None).
  { destruct (ss_slots s !! k) as [st|] eqn:E; [| done]. exfalso. destruct (so_slots s Hok k st E) as [Ht _].
    apply probe_free in Ef as (m & _ & _ & Hfr & _). unfold is_free, slot_at in Hfr. rewrite E in Hfr. cbn in Hfr. apply Z.eqb_eq in Hfr. done. }
  assert (Hmine : ∀ l e, part_ok s p l e → part_ok (with_fresh p k s) p l e).
  { intros l e Hl. unfold part_ok in Hl. rewrite Ef in Hl. by apply with_fresh_part. }
  assert (Hbases : segment_bases (recover crc32c now (dir p s)).2 = segment_bases (dir p s)).
  { destruct (so_parts s Hok p Hp) as (l & e & Hl). unfold part_ok in Hl. rewrite Ef in Hl. by eapply recover_bases. }
  revert Hmine Hbases. unfold with_fresh. destruct (recover crc32c now (dir p s)) as [rc files]. set (st := fresh_slot p k rc). set (s' := on_process me _ _). intros Hmine Hbases.
  destruct (find_slot_insert p s s' k st (so_slots s Hok) Hp Ef) as (Hf' & Hs' & Hoth); [by destruct p | done |].
  assert (Hat : ∀ k', slot_at s' k' = if decide (k' = k) then st else slot_at s k').
  { intros k'. unfold slot_at, s'. cbn. case_decide as E; [subst; by rewrite lookup_insert_eq | by rewrite lookup_insert_ne]. }
  assert (Hkept : kept s s').
  { intros q l e Hq0 Hq. destruct (decide (q = p)) as [->|Hne]; [by apply Hmine |]. revert Hq. apply part_ok_ext; [intros; by apply Hoth | | |].
    - intros kq Hkq. rewrite Hat. destruct (found_slot q s kq Hq0 Hkq) as (st' & E & _). rewrite decide_False by congruence. done.
    - unfold dir, s'. cbn. by rewrite lookup_insert_ne.
    - intros m. unfold s'. rewrite on_process_hints. case_decide as Em; [| done]. subst m. cbn. by rewrite lookup_insert_ne. }
  split_and!; [split; [done | | ] | done | done | by rewrite Hat, decide_True | unfold dir at 1, s'; cbn; by rewrite lookup_insert_eq].
  - intros k' ring E. eapply so_rings; [exact Hok | exact E].
  - intros q Hq0. destruct (so_parts s Hok q Hq0) as (l & e & Hl). exists l, e. by apply Hkept.
Qed.

Lemma slot_for_ok s p r s' : store_ok s → p.1 ≠ 0 → slot_for crc32c now stripes me p s = (r, s') →
  (∃ e, r = Err e ∧ s' = s) ∨
  (∃ k, r = Ok k ∧ store_ok s' ∧ kept s s' ∧ find_slot stripes p s' = Found k ∧ ss_meta s' = ss_meta s ∧ ss_archive s' = ss_archive s ∧
    segment_bases (dir p s') = segment_bases (dir p s) ∧
    (s' = s ∨ ((∀ k', find_slot stripes p s ≠ Found k') ∧ sl_pending (slot_at s' k) = ring_default))).
Proof using Hbackends.
  intros Hok Hp. unfold slot_for. destruct (find_slot stripes p s) as [k|k|] eqn:Ef.
  - intros [= <- <-]. right. exists k. split_and!; [done | done | by intros ? | done | done | done | done | by left].
  - pose proof (with_fresh_ok s p k Hok Hp Ef) as H. unfold with_fresh in H. destruct (recover crc32c now (dir p s)) as [rc files].
    intros [= <- <-]. destruct H as (H1 & H2 & H3 & H4 & H5). right. exists k. split_and!; [done | done | done | done | done | done | done |]. right. split; [| done]. by intros k' ?.
  - intros [= <- <-]. left. by eexists.
Qed.

End Slots.
