(* ===== verification/SegmentRun.v ===== *)
(** * The segment engine: operations of the store

    What [append], [append_pending], [append_replicated] and [truncate_to] do to the
    partition they name, and that they leave every other partition as it was.

    Behind it: requests that only look, and reservations. *)

From stdpp Require Import gmap sorting strings.
From S2P Require Import Prelude Errors Records RecordIter Build Compaction Cleaner PendingRing Pmeta Store Config Table TableSpec Segment SegmentFiles SegmentView SegmentAppend SegmentSlots.



Section Run.

Variable crc32c : bytes → Z.
Variables (stripes : Z) (max_backends : nat).
Hypothesis Hbackends : (0 < max_backends)%nat.
Variables (now segment_bytes : Z) (roll_bounds : Z → Z * Z) (log_room index_room time_room : option nat) (me : Z).
Hypothesis Hroom : clean_room log_room.
Hypothesis Hindex : clean_room index_room.

Abbreviation segments := (list (Z * list bytes)).
Abbreviation part_ok := (part_ok crc32c stripes max_backends).
Abbreviation store_ok := (store_ok crc32c stripes max_backends).
Abbreviation kept := (kept crc32c stripes max_backends).

(** ** Under the lock *)

Lemma with_slot_enter {A} p (f : ST View StoreError A) s r s' : store_ok s → p.1 ≠ 0 →
  with_slot crc32c now stripes max_backends me p f s = (r, s') →
  (∃ e, r = Err e ∧ s' = s ∧ slot_for crc32c now stripes me p s = (Err e, s)) ∨
  (∃ k s1 v', slot_for crc32c now stripes me p s = (Ok k, s1) ∧ store_ok s1 ∧ kept s s1 ∧ find_slot stripes p s1 = Found k ∧
    ss_meta s1 = ss_meta s ∧ ss_archive s1 = ss_archive s ∧ segment_bases (dir p s1) = segment_bases (dir p s) ∧
    (s1 = s ∨ ((∀ k', find_slot stripes p s ≠ Found k') ∧ sl_pending (slot_at s1 k) = ring_default)) ∧
    f (view_of max_backends me p k s1) = (r, v') ∧ s' = store_view me p k (sl_generation (slot_at s1 k)) v' s1).
Proof using Hbackends.
  intros Hok Hp. unfold with_slot, bind. destruct (slot_for crc32c now stripes me p s) as [r0 s1] eqn:E.
  destruct (slot_for_ok crc32c now stripes max_backends me Hbackends s p r0 s1 Hok Hp E) as [(e & -> & ->)|(k & -> & H1 & H2 & H3 & H4 & H5 & H6 & H7)].
  - intros [= <- <-]. left. by eexists.
  - destruct (f _) as [r1 v'] eqn:Ef. intros [= <- <-]. right. by exists k, s1, v'.
Qed.

(** The partition as what runs under its lock finds it. *)
Lemma view_of_tracked s p k l e : part_ok s p l e → find_slot stripes p s = Found k →
  ∃ sealed active, tracked_as crc32c max_backends s p k sealed active ∧ l = log_batches sealed active ∧ e = sl_next (slot_at s k) ∧
    holds_log crc32c (view_of max_backends me p k s) sealed active (sl_next (slot_at s k)) ∧
    ring_wf (sl_pending (slot_at s k)) (v_ring (view_of max_backends me p k s)) ∧
    hints_ok (v_hints (view_of max_backends me p k s)) (sealed ++ [(sl_active_base (slot_at s k), active)]) (sl_active_base (slot_at s k)).
Proof using Type.
  unfold SegmentSlots.part_ok. intros H Hf. rewrite Hf in H. destruct H as (sealed & active & Ht & -> & ->). pose proof Ht as [[] Hr Hw Hi Hg Hh].
  exists sealed, active. split_and!; [done | done | done | done | cbn; by rewrite Hr |]. cbn. unfold hints_for.
  destruct (pr_hints (process me s) !! p) as [[g h]|] eqn:E; [| by intros b entries]. destruct (Z.eqb_spec g (sl_generation (slot_at s k))) as [->|_]; [| by intros b entries].
  by apply (Hh me _ _ E).
Qed.

(** A partition that grew under its lock is stored as it is. *)
Lemma grows_stays s p k sealed active v' sealed' active' added : p.1 ≠ 0 → find_slot stripes p s = Found k →
  tracked_as crc32c max_backends s p k sealed active →
  hints_ok (v_hints (view_of max_backends me p k s)) (sealed ++ [(sl_active_base (slot_at s k), active)]) (sl_active_base (slot_at s k)) →
  grows crc32c (view_of max_backends me p k s) v' sealed active sealed' active' added → ring_wf (sl_pending (v_slot v')) (v_ring v') →
  narrow (slot_at s k) → stays crc32c s p k (sl_generation (slot_at s k)) v' sealed' active'.
Proof using Type.
  intros Hp Hf [_ Hr _ Hi Hg Hh] Hmine [G1 G2 G3 G4 _ G6 G7 G8] Hw Hn. split; [| by rewrite G2 | done | done | by apply G8 | by rewrite G3 | |].
  - pose proof (found_id _ _ _ _ Hf) as Hid. unfold id_of in *. by rewrite G1.
  - rewrite G3. split; [done |]. intros _. by apply G7.
  - intros m g h E. rewrite G3. destruct (Hh m g h E) as [Hle Heq]. split; [done |]. intros Hgen. by apply G6, Heq.
Qed.

(** A truncated one too: no hint is of its generation. *)
Lemma truncated_stays offset s p k sealed active v' sealed' active' : p.1 ≠ 0 → find_slot stripes p s = Found k →
  tracked_as crc32c max_backends s p k sealed active → sl_generation (slot_at s k) + 1 < 2 ^ 64 →
  truncated crc32c offset (view_of max_backends me p k s) v' sealed active sealed' active' →
  stays crc32c s p k (sl_generation (slot_at s k)) v' sealed' active'.
Proof using Type.
  clear Hbackends. intros Hp Hf [_ Hr Hw Hi Hg Hh] Hgen [T1 T2 T3 T4 T5 T6 T7 T8 T9]. cbn in *. rewrite wrap_u_small in T5 by lia.
  split; [| congruence | by rewrite T6 | by rewrite T3, T4, Hr | by apply T9 | lia | split; lia |].
  - pose proof (found_id _ _ _ _ Hf) as Hid. unfold id_of in *. by rewrite T1.
  - intros m g h E. destruct (Hh m g h E) as [Hle _]. split; lia.
Qed.

(** The slot a request finds or makes. *)
Definition slot_in (p : Z * Z) (s : SegStore) : option Slot :=
  match slot_for crc32c now stripes me p s with (Ok k, s1) => Some (slot_at s1 k) | (Err _, _) => None end.

(** Its active segment fits the 32 bits of index entries, and its next offset an [i64]. *)
Definition ready (p : Z * Z) (s : SegStore) : Prop :=
  match slot_in p s with Some st => narrow st ∧ is_i64 (sl_next st) | None => True end.

(** A critical section that only grows its partition. *)
Definition section {A} (f : ST View StoreError A) (P : result StoreError A → View → View → list bytes → Prop) : Prop :=
  ∀ v sealed active r v', holds_log crc32c v sealed active (sl_next (v_slot v)) → ring_wf (sl_pending (v_slot v)) (v_ring v) →
    narrow (v_slot v) → is_i64 (sl_next (v_slot v)) → f v = (r, v') →
    ∃ sealed' active' added, grows crc32c v v' sealed active sealed' active' added ∧ ring_wf (sl_pending (v_slot v')) (v_ring v') ∧ P r v v' added.

Lemma with_slot_section {A} p (f : ST View StoreError A) P s r s' : store_ok s → p.1 ≠ 0 → ready p s → section f P →
  with_slot crc32c now stripes max_backends me p f s = (r, s') →
  store_ok s' ∧ (∀ q l e, q ≠ p → q.1 ≠ 0 → part_ok s q l e → part_ok s' q l e) ∧ ss_meta s' = ss_meta s ∧ ss_archive s' = ss_archive s ∧
  ∀ l e, part_ok s p l e →
    ((∃ x, r = Err x) ∧ s' = s ∧ part_ok s' p l e) ∨
    (∃ v v' added, P r v v' added ∧ sl_next (v_slot v) = e ∧ part_ok s' p (l ++ added) (sl_next (v_slot v'))).
Proof using Hbackends.
  intros Hok Hp Hready Hsec E. unfold ready, slot_in in Hready.
  destruct (with_slot_enter p f s r s' Hok Hp E) as [(x & -> & -> & _)|(k & s1 & v' & Es & Hok1 & Hk & Hf & Hm & Ha & _ & _ & Ef & ->)].
  { split_and!; [done | done | done | done |]. intros l e Hl. left. split_and!; [by eexists | done | done]. }
  rewrite Es in Hready. destruct Hready as [Hn Hi]. destruct (so_parts _ _ _ _ Hok1 p Hp) as (l1 & e1 & Hl1).
  destruct (view_of_tracked s1 p k l1 e1 Hl1 Hf) as (sealed & active & Ht & _ & _ & Hlog & Hring & Hhint).
  destruct (Hsec _ sealed active r v' Hlog Hring Hn Hi Ef) as (sealed' & active' & added & Hg & Hw & HP).
  pose proof (grows_stays s1 p k sealed active v' sealed' active' added Hp Hf Ht Hhint Hg Hw Hn) as Hst.
  destruct (store_view_ok crc32c stripes max_backends me s1 p k _ v' sealed' active' Hok1 Hp Hf (tk_ring _ _ _ _ _ _ _ Ht) Hst) as (S1 & S2 & S3 & S4).
  split_and!; [done | intros q l e Hq Hq0 Hl; apply S4; [done | done | by apply Hk] | done | done |].
  intros l e Hl. right.
  pose proof (Hk p l e Hp Hl) as Hl'. destruct (view_of_tracked s1 p k l e Hl' Hf) as (sl & ac & Ht2 & -> & -> & Hlog2 & Hring2 & Hhint2).
  destruct (Hsec _ sl ac r v' Hlog2 Hring2 Hn Hi Ef) as (sl' & ac' & added2 & Hg2 & Hw2 & HP2).
  pose proof (grows_stays s1 p k sl ac v' sl' ac' added2 Hp Hf Ht2 Hhint2 Hg2 Hw2 Hn) as Hst2.
  destruct (store_view_ok crc32c stripes max_backends me s1 p k _ v' sl' ac' Hok1 Hp Hf (tk_ring _ _ _ _ _ _ _ Ht2) Hst2) as (_ & S2' & _ & _).
  exists (view_of max_backends me p k s1), v', added2. split_and!; [done | done |]. by rewrite <- (gw_batches _ _ _ _ _ _ _ _ Hg2).
Qed.

(** ** Appending *)

Lemma same_ring_wf v v' : same_ring v v' → ring_wf (sl_pending (v_slot v)) (v_ring v) → ring_wf (sl_pending (v_slot v')) (v_ring v').
Proof using Type. by intros [-> ->]. Qed.

Definition append_outcome (seed : Z) (b : RawBatch) (r : result StoreError Z) (v v' : View) (added : list bytes) : Prop :=
  is_i64 (sl_next (v_slot v)) ∧ same_ring v v' ∧
  (added_nothing (sl_next (v_slot v)) added v' (∃ e, r = Err e) ∨
   added_at crc32c (sl_next (v_slot v)) seed b added v' (r = Ok (sl_next (v_slot v)))).

Lemma append_is_section topic seed b : raw_consistent b →
  section (append_section crc32c now segment_bytes roll_bounds log_room index_room time_room topic seed b) (append_outcome seed b).
Proof using Hroom Hindex.
  intros Hraw v sealed active r v' Hl Hw Hn Hi E.
  destruct (append_section_grows crc32c now segment_bytes roll_bounds log_room index_room time_room Hroom Hindex topic seed v b sealed active r v' Hl Hraw Hi E)
    as (sealed' & active' & added & Hg & Hr & H). exists sealed', active', added. split_and!; [done | by eapply same_ring_wf | by split].
Qed.

(** What [append] and its variants promise of the partition and of the others. *)
Definition others_kept (p : Z * Z) (s s' : SegStore) : Prop := ∀ q l e, q ≠ p → q.1 ≠ 0 → part_ok s q l e → part_ok s' q l e.

(** The batch is there, stamped with its place and the epoch. *)
Definition appended (p : Z * Z) (b : RawBatch) (s s' : SegStore) (l : list bytes) (e : Z) : Prop :=
  is_i64 e ∧ ∃ view epoch, validated crc32c (rw_bytes b) = Ok view ∧ leader_epoch p (ss_meta s) = Ok epoch ∧
    part_ok s' p (l ++ [Records.stamp view e epoch]) (e + rw_last_offset_delta b + 1).

Lemma append_exact s p b r s' : store_ok s → p.1 ≠ 0 → raw_consistent b → ready p s →
  seg_append crc32c now segment_bytes stripes max_backends roll_bounds log_room index_room time_room me p b s = (r, s') →
  store_ok s' ∧ others_kept p s s' ∧ ss_meta s' = ss_meta s ∧
  ∀ l e, part_ok s p l e →
    match r with
    | Err _ => part_ok s' p l e
    | Ok base => base = e ∧ appended p b s s' l e
    end.
Proof using Hbackends Hroom Hindex.
  intros Hok Hp Hraw Hready. unfold seg_append. destruct (leader_epoch p (ss_meta s)) as [seed|x] eqn:Eep; [| intros [= <- <-]; split_and!; [done | by intros q l e | done | done]]. intros E.
  destruct (with_slot_section p _ _ s r s' Hok Hp Hready (append_is_section p.1 seed b Hraw) E) as (S1 & S2 & S3 & _ & S5).
  split_and!; [done | done | done |]. intros l e Hl.
  destruct (S5 l e Hl) as [((x & ->) & -> & H)|(v & v' & added & HP & Hv & H)]; [done |]. destruct HP as (Hi & _ & [((x & ->) & -> & Hn)|(view & -> & Hval & -> & Hn)]).
  - rewrite app_nil_r, Hn, Hv in H. done.
  - rewrite Hv in *. split; [done |]. split; [done |]. exists view, seed. rewrite Hn in H. by split_and!.
Qed.

(** With a reservation or without. *)
Definition pending_outcome (seed : Z) (b : RawBatch) (reserve_ : bool) (r : result StoreError (Z * Z)) (v v' : View) (added : list bytes) : Prop :=
  is_i64 (sl_next (v_slot v)) ∧
  ((added_nothing (sl_next (v_slot v)) added v' (∃ e, r = Err e) ∧ same_ring v v') ∨
   (added_at crc32c (sl_next (v_slot v)) seed b added v' (r = Ok (sl_next (v_slot v), sl_next (v_slot v) + rw_last_offset_delta b)) ∧
    if reserve_ then PendingRing.bases (sl_pending (v_slot v')) (v_ring v') ≡ₚ
                       sl_next (v_slot v) :: PendingRing.bases (sl_pending (v_slot v)) (v_ring v)
    else same_ring v v')).

Lemma pending_is_section topic seed b reserve_ : raw_consistent b →
  section (pending_section crc32c now segment_bytes roll_bounds log_room index_room time_room topic seed b reserve_) (pending_outcome seed b reserve_).
Proof using Hroom Hindex.
  intros Hraw v sealed active r v' Hl Hw Hn Hi E.
  destruct (pending_section_grows crc32c now segment_bytes roll_bounds log_room index_room time_room Hroom Hindex topic seed v b reserve_ sealed active r v' Hl Hraw Hi Hw E)
    as (sealed' & active' & added & Hg & Hr & _ & H). by exists sealed', active', added.
Qed.

Lemma pending_exact s p b reserve_ r s' : store_ok s → p.1 ≠ 0 → raw_consistent b → ready p s →
  append_pending crc32c now segment_bytes stripes max_backends roll_bounds log_room index_room time_room me p b reserve_ s = (r, s') →
  store_ok s' ∧ others_kept p s s' ∧ ss_meta s' = ss_meta s ∧
  ∀ l e, part_ok s p l e →
    match r with
    | Err _ => part_ok s' p l e
    | Ok (base, last_) => base = e ∧ last_ = e + rw_last_offset_delta b ∧ appended p b s s' l e
    end.
Proof using Hbackends Hroom Hindex.
  intros Hok Hp Hraw Hready. unfold append_pending. destruct (leader_epoch p (ss_meta s)) as [seed|x] eqn:Eep; [| intros [= <- <-]; split_and!; [done | by intros q l e | done | done]]. intros E.
  destruct (with_slot_section p _ _ s r s' Hok Hp Hready (pending_is_section p.1 seed b reserve_ Hraw) E) as (S1 & S2 & S3 & _ & S5).
  split_and!; [done | done | done |]. intros l e Hl.
  destruct (S5 l e Hl) as [((x & ->) & -> & H)|(v & v' & added & HP & Hv & H)]; [done |]. destruct HP as [Hi [[((x & ->) & -> & Hn) _]|[(view & -> & Hval & -> & Hn) _]]].
  - rewrite app_nil_r, Hn, Hv in H. done.
  - rewrite Hv in *. split_and!; [done | done |]. split; [done |]. exists view, seed. rewrite Hn in H. by split_and!.
Qed.

Definition replicate_outcome (bs : bytes) (expected : Z) (r : result StoreError Z) (v v' : View) (added : list bytes) : Prop :=
  same_ring v v' ∧
  ((∃ e, r = Err e ∧ added = [] ∧ sl_next (v_slot v') = sl_next (v_slot v)) ∨
   (r = Ok (sl_next (v_slot v)) ∧ expected = sl_next (v_slot v) ∧ base_of bs = expected ∧ added = [bs] ∧ sl_next (v_slot v') = last_of bs + 1)).

Lemma replicate_is_section bs b expected : validated crc32c bs = Ok b → is_i64 (last_of bs) →
  section (replicate_section now segment_bytes log_room index_room time_room bs b expected) (replicate_outcome bs expected).
Proof using Hroom Hindex.
  intros Hv Hlast v sealed active r v' Hl Hw Hn Hi E.
  destruct (replicate_section_grows crc32c now segment_bytes log_room index_room time_room Hroom Hindex v bs b expected sealed active r v' Hl Hv Hlast E)
    as (sealed' & active' & added & Hg & Hr & H). exists sealed', active', added. split_and!; [done | by eapply same_ring_wf | by split].
Qed.

(** A follower takes a batch where the leader has it, or not at all. *)
Lemma replicated_exact s p bs expected r s' : store_ok s → p.1 ≠ 0 → is_i64 (last_of bs) → ready p s →
  append_replicated crc32c now segment_bytes stripes max_backends log_room index_room time_room me p bs expected s = (r, s') →
  store_ok s' ∧ others_kept p s s' ∧ ss_meta s' = ss_meta s ∧
  ∀ l e, part_ok s p l e →
    match r with
    | Err _ => part_ok s' p l e
    | Ok base => base = e ∧ expected = e ∧ base_of bs = e ∧ part_ok s' p (l ++ [bs]) (last_of bs + 1)
    end.
Proof using Hbackends Hroom Hindex.
  intros Hok Hp Hlast Hready. unfold append_replicated. destruct (validated crc32c bs) as [b|x] eqn:Eb; [| intros [= <- <-]; split_and!; [done | by intros q l e | done | done]]. intros E.
  destruct (with_slot_section p _ _ s r s' Hok Hp Hready (replicate_is_section bs b expected Eb Hlast) E) as (S1 & S2 & S3 & _ & S5).
  split_and!; [done | done | done |]. intros l e Hl.
  destruct (S5 l e Hl) as [((x & ->) & -> & H)|(v & v' & added & HP & Hv & H)]; [done |].
  destruct HP as [_ [(x & -> & -> & Hn)|(-> & -> & Hb & -> & Hn)]].
  - rewrite app_nil_r, Hn, Hv in H. done.
  - rewrite Hv in *. rewrite Hn in H. by split_and!.
Qed.

(** ** Truncating *)

(** The layout generation has room. *)
Definition young (p : Z * Z) (s : SegStore) : Prop :=
  match slot_in p s with Some st => sl_generation st + 1 < 2 ^ 64 | None => True end.

(** Forgetting a compaction plan is not seen by any partition. *)
Definition plan_forgotten (p : Z * Z) (s : SegStore) : SegStore := on_process me (λ m, forget_all_cleaned p (on_plans (delete p) m)) s.

Lemma plan_forgotten_hints p s m q : pr_hints (process m (plan_forgotten p s)) !! q = pr_hints (process m s) !! q.
Proof using Type. unfold plan_forgotten. rewrite on_process_hints. by case_decide; subst. Qed.

Lemma plan_forgotten_part p s q l e : part_ok (plan_forgotten p s) q l e ↔ part_ok s q l e.
Proof using Type. split; apply part_ok_ext; try done; intros m; by rewrite plan_forgotten_hints. Qed.

Lemma plan_forgotten_ok p s : store_ok s → store_ok (plan_forgotten p s).
Proof using Type.
  intros [H1 H2 H3]. split; [done | done |]. intros q Hq. destruct (H3 q Hq) as (l & e & Hl). exists l, e. by apply plan_forgotten_part.
Qed.

Lemma archive_part f s q l e : part_ok (on_archive f s) q l e ↔ part_ok s q l e.
Proof using Type. split; by apply part_ok_ext. Qed.
Lemma archive_ok f s : store_ok s → store_ok (on_archive f s).
Proof using Type. intros [H1 H2 H3]. split; [done | done |]. intros q Hq. destruct (H3 q Hq) as (l & e & Hl). exists l, e. by apply archive_part. Qed.

Lemma below_all b l e offset : dense crc32c b l e → e ≤ offset → below offset l = l.
Proof using Type.
  clear Hbackends. intros Hd He. apply filter_every, Forall_forall. intros x Hx.
  destruct (ascending_in _ _ _ _ x (dense_ascending _ _ _ _ Hd) Hx) as (Hw & _ & Hl). pose proof (last_of_base _ x Hw). lia.
Qed.

Lemma holds_log_dense v sealed active e : holds_log crc32c v sealed active e →
  dense crc32c (first_base_of (sealed ++ [(sl_active_base (v_slot v), active)]) e) (log_batches sealed active) e.
Proof using Type.
  intros [_ Hs Ha _]. unfold log_batches. rewrite <- (batches_of_snoc sealed (sl_active_base (v_slot v)) active). apply linked_dense, linked_snoc.
  split; [by apply chained_linked | done].
Qed.

Lemma truncate_exact s p offset r s' : store_ok s → p.1 ≠ 0 → young p (plan_forgotten p s) → (∀ l e, part_ok s p l e → boundary offset l) →
  truncate_to crc32c now stripes max_backends me p offset s = (r, s') →
  store_ok s' ∧ others_kept p s s' ∧ ss_meta s' = ss_meta s ∧
  ∀ l e, part_ok s p l e →
    match r with
    | Err _ => part_ok s' p l e
    | Ok n => n = Z.max 0 (e - offset) ∧ part_ok s' p (below offset l) (Z.min e offset)
    end.
Proof using Hbackends.
  intros Hok Hp Hyoung Hbd. unfold truncate_to, bind. fold (plan_forgotten p s). set (s0 := plan_forgotten p s) in *.
  assert (Hok0 : store_ok s0) by by apply plan_forgotten_ok.
  destruct (with_slot crc32c now stripes max_backends me p _ s0) as [r1 s2] eqn:E. unfold young, slot_in in Hyoung.
  destruct (with_slot_enter p _ s0 r1 s2 Hok0 Hp E) as [(x & -> & -> & _)|(k & s1 & v' & Es & Hok1 & Hk & Hf & Hm & Ha & Hba & _ & Ef & ->)].
  { intros [= <- <-]. split_and!; [done | by intros q l e _ _; apply plan_forgotten_part | done |]. intros l e. apply plan_forgotten_part. }
  rewrite Es in Hyoung.
  assert (Hrun : ∀ l e, part_ok s p l e → ∃ sealed active sealed' active', tracked_as crc32c max_backends s1 p k sealed active ∧
    l = log_batches sealed active ∧ e = sl_next (slot_at s1 k) ∧ stays crc32c s1 p k (sl_generation (slot_at s1 k)) v' sealed' active' ∧
    r1 = Ok (Z.max 0 (e - offset)) ∧ log_batches sealed' active' = below offset l ∧ sl_next (v_slot v') = Z.min e offset).
  { intros l e Hl. assert (Hl1 : part_ok s1 p l e) by (apply Hk; [done | by apply plan_forgotten_part]).
    destruct (view_of_tracked s1 p k l e Hl1 Hf) as (sealed & active & Ht & -> & -> & Hlog & Hring & Hhint).
    rewrite <- Hba in Ef. destruct (truncate_section_cuts crc32c now offset _ sealed active r1 v' Hlog (Hbd _ _ Hl) Ef) as [(Hle & -> & ->)|(Hlt & -> & sealed' & active' & Ht')].
    - exists sealed, active, sealed, active. cbn in Hle. split_and!; [done | done | done | | f_equal; lia | | cbn; lia].
      + destruct Ht as [T1 T2 T3 T4 T5 T6]. split; [by apply (found_id _ _ _ _ Hf) | done | done | done | exact T4 | done | split; [done |]; by intros _ | exact T6].
      + symmetry. eapply below_all; [exact (holds_log_dense _ _ _ _ Hlog) | done].
    - exists sealed, active, sealed', active'. cbn in Hlt. split_and!; [done | done | done | by eapply truncated_stays | cbn; f_equal; lia | by destruct Ht' | destruct Ht'; lia]. }
  destruct (so_parts _ _ _ _ Hok p Hp) as (l0 & e0 & Hl0). destruct (Hrun l0 e0 Hl0) as (se & ac & se' & ac' & Ht & _ & -> & Hst & Hr1 & _ & _).
  destruct (store_view_ok crc32c stripes max_backends me s1 p k _ v' se' ac' Hok1 Hp Hf (tk_ring _ _ _ _ _ _ _ Ht) Hst) as (S1 & _ & _ & S4).
  rewrite Hr1. intros [= <- <-]. split_and!; [by apply archive_ok | | done |].
  - intros q l e Hq Hq0 Hl. apply archive_part, S4; [done | done |]. apply Hk; [done |]. by apply plan_forgotten_part.
  - intros l e Hl. destruct (Hrun l e Hl) as (sl & al & sl' & al' & Ht2 & -> & -> & Hst2 & _ & Hb & Hnext). split; [done |]. apply archive_part.
    destruct (store_view_ok crc32c stripes max_backends me s1 p k _ v' sl' al' Hok1 Hp Hf (tk_ring _ _ _ _ _ _ _ Ht2) Hst2) as (_ & H & _).
    by rewrite Hb, Hnext in H.
Qed.

End Run.

(** * The segment engine: requests that only look, and reservations

    Reads, lookups and the setting of an epoch run under the lock without touching a
    batch ([quiet]); what they return is a function of what the partition holds.
    [reserved] are the offsets of a partition that open transactions hold. *)

Section Serve.

Variable crc32c : bytes → Z.
Variables (stripes : Z) (max_backends : nat).
Hypothesis Hbackends : (0 < max_backends)%nat.
Variables (now segment_bytes : Z) (roll_bounds : Z → Z * Z) (log_room index_room time_room : option nat) (me : Z).

Abbreviation segments := (list (Z * list bytes)).
Abbreviation part_ok := (part_ok crc32c stripes max_backends).
Abbreviation store_ok := (store_ok crc32c stripes max_backends).
Abbreviation kept := (kept crc32c stripes max_backends).

(** ** Reservations *)

Definition reserved (s : SegStore) (p : Z * Z) : list Z :=
  match find_slot stripes p s with
  | Found k => PendingRing.bases (sl_pending (slot_at s k)) (ring_mut max_backends (sl_ring (slot_at s k)) s)
  | _ => []
  end.

Lemma slot_for_reserved s p r s' q : store_ok s → p.1 ≠ 0 → q.1 ≠ 0 → slot_for crc32c now stripes me p s = (r, s') → reserved s' q = reserved s q.
Proof using Type.
  intros Hok Hp Hq. unfold slot_for. destruct (find_slot stripes p s) as [k|k|] eqn:Ef; [by intros [= <- <-] | | by intros [= <- <-]].
  destruct (recover crc32c now (dir p s)) as [rc files]. intros [= <- <-]. set (s' := on_process me _ _). set (st := fresh_slot p k rc).
  destruct (find_slot_insert stripes p s s' k st (so_slots _ _ _ _ Hok) Hp Ef) as (Hf & _ & Hoth); [by destruct p | done |].
  assert (Hat : ∀ k', slot_at s' k' = if decide (k' = k) then st else slot_at s k').
  { intros k'. unfold slot_at, s'. cbn. case_decide as E; [subst; by rewrite lookup_insert_eq | by rewrite lookup_insert_ne]. }
  unfold reserved. destruct (decide (q = p)) as [->|Hne].
  - rewrite Hf, Ef, Hat, decide_True by done. done.
  - destruct (find_slot stripes q s) as [kq| |] eqn:Eq.
    + rewrite (proj1 (Hoth q kq Hne Hq) Eq). destruct (found_slot stripes q s kq Hq Eq) as (st' & E & _).
      rewrite Hat, decide_False; [done |]. intros ->. apply probe_free in Ef as (m & _ & _ & Hfr & _).
      destruct (so_slots _ _ _ _ Hok k st' E) as [Ht _]. unfold is_free, slot_at in Hfr. rewrite E in Hfr. cbn in Hfr. apply Z.eqb_eq in Hfr. done.
    + destruct (find_slot stripes q s') as [k'| |] eqn:E'; [| done | done]. apply (Hoth q k' Hne Hq) in E'. congruence.
    + destruct (find_slot stripes q s') as [k'| |] eqn:E'; [| done | done]. apply (Hoth q k' Hne Hq) in E'. congruence.
Qed.

Lemma store_view_reserved s p k g v q : find_slot stripes p s = Found k → id_of (v_slot v) = p → sl_ring (slot_at s k) = k → sl_ring (v_slot v) = k →
  (∀ kq, find_slot stripes q s = Found kq → sl_ring (slot_at s kq) = kq) →
  reserved (store_view me p k g v s) q = if decide (q = p) then PendingRing.bases (sl_pending (v_slot v)) (v_ring v) else reserved s q.
Proof using Type.
  intros Hf Hid Hr Hr' Hrq. unfold reserved. rewrite store_view_find by (rewrite Hid; symmetry; by apply (found_id stripes)).
  case_decide as E.
  - subst q. rewrite Hf, store_view_slot, decide_True by done. rewrite Hr'. unfold ring_mut, store_view. cbn. by rewrite Hr, lookup_insert_eq.
  - destruct (find_slot stripes q s) as [kq| |] eqn:Eq; [| done | done].
    assert (kq ≠ k) by (intros ->; pose proof (found_id stripes _ _ _ Eq); pose proof (found_id stripes _ _ _ Hf); congruence).
    rewrite store_view_slot, decide_False by done. rewrite (Hrq kq eq_refl). unfold ring_mut, store_view. cbn. by rewrite Hr, lookup_insert_ne.
Qed.

Lemma tracked_ring s q kq : store_ok s → q.1 ≠ 0 → find_slot stripes q s = Found kq → sl_ring (slot_at s kq) = kq.
Proof using Type.
  intros Hok Hq E. destruct (so_parts _ _ _ _ Hok q Hq) as (l & e & Hl). unfold SegmentSlots.part_ok in Hl. rewrite E in Hl.
  destruct Hl as (sealed & active & Ht & _). apply Ht.
Qed.

(** What runs under the lock changes the reservations of its own partition only. *)
Lemma with_slot_reserved {A} p (f : ST View StoreError A) s r s' q : store_ok s → p.1 ≠ 0 → q.1 ≠ 0 →
  with_slot crc32c now stripes max_backends me p f s = (r, s') →
  (∀ k s1 v', slot_for crc32c now stripes me p s = (Ok k, s1) → f (view_of max_backends me p k s1) = (r, v') →
    id_of (v_slot v') = id_of (slot_at s1 k) ∧ sl_ring (v_slot v') = sl_ring (slot_at s1 k)) →
  (reserved s' q = reserved s q ∧ (q ≠ p ∨ ∃ e, r = Err e)) ∨
  (q = p ∧ ∃ k s1 v', slot_for crc32c now stripes me p s = (Ok k, s1) ∧ f (view_of max_backends me p k s1) = (r, v') ∧
    reserved s p = PendingRing.bases (sl_pending (slot_at s1 k)) (v_ring (view_of max_backends me p k s1)) ∧
    reserved s' p = PendingRing.bases (sl_pending (v_slot v')) (v_ring v')).
Proof using Hbackends.
  intros Hok Hp Hq E Hid. destruct (with_slot_enter crc32c stripes max_backends Hbackends now me p f s r s' Hok Hp E)
    as [(e & -> & -> & _)|(k & s1 & v' & Es & Hok1 & _ & Hf & _ & _ & _ & _ & Ef & ->)]; [left; split; [done | right; by eexists] |].
  destruct (Hid _ _ _ Es Ef) as [Hi Hr]. pose proof (tracked_ring s1 p k Hok1 Hp Hf) as Hk.
  assert (Hres : ∀ q, q.1 ≠ 0 → reserved s1 q = reserved s q) by (intros q' Hq'; exact (slot_for_reserved s p _ s1 q' Hok Hp Hq' Es)).
  assert (Hview : ∀ q, q.1 ≠ 0 → reserved (store_view me p k (sl_generation (slot_at s1 k)) v' s1) q =
    if decide (q = p) then PendingRing.bases (sl_pending (v_slot v')) (v_ring v') else reserved s1 q).
  { intros q' Hq'. apply store_view_reserved; [done | | done | by rewrite Hr | intros kq Hkq; by apply (tracked_ring s1 q')].
    rewrite Hi. apply (found_id stripes _ _ _ Hf). }
  rewrite (Hview q Hq).
  case_decide as Eq; [| left; split; [by apply Hres | by left]]. subst q. right. split; [done |]. exists k, s1, v'. split_and!; [done | done | | ].
  - rewrite <- (Hres p Hp). unfold reserved. by rewrite Hf.
  - by rewrite (Hview p Hp), decide_True.
Qed.

(** ** Looking *)

(** Nothing but hints lost, and the slot set aside. *)
Definition quiet {A} (f : ST View StoreError A) : Prop := ∀ v r v', f v = (r, v') →
  (∃ g, aside g ∧ v_slot v' = g (v_slot v)) ∧ v_ring v' = v_ring v ∧ v_files v' = v_files v ∧ v_hints v' ⊆ v_hints v.

Lemma hints_ok_subset h h' segs base : h' ⊆ h → hints_ok h segs base → hints_ok h' segs base.
Proof using Type. intros Hsub H b entries E. apply (H b entries). by eapply lookup_weaken. Qed.

Lemma with_slot_quiet {A} p (f : ST View StoreError A) s r s' : store_ok s → p.1 ≠ 0 → quiet f →
  with_slot crc32c now stripes max_backends me p f s = (r, s') →
  store_ok s' ∧ kept s s' ∧ ss_meta s' = ss_meta s ∧ ss_archive s' = ss_archive s ∧ (∀ q, q.1 ≠ 0 → reserved s' q = reserved s q) ∧
  segment_bases (dir p s') = segment_bases (dir p s) ∧
  ((∃ e, r = Err e ∧ slot_for crc32c now stripes me p s = (Err e, s)) ∨
   ∃ k s1, slot_for crc32c now stripes me p s = (Ok k, s1) ∧ slot_for crc32c now stripes me p s' = (Ok k, s') ∧ r = (f (view_of max_backends me p k s1)).1 ∧
     store_ok s1 ∧ kept s s1 ∧ find_slot stripes p s1 = Found k ∧ ss_meta s1 = ss_meta s).
Proof using Hbackends.
  intros Hok Hp Hq E.
  assert (Hres : ∀ q, q.1 ≠ 0 → reserved s' q = reserved s q).
  { intros q Hq0. destruct (with_slot_reserved p f s r s' q Hok Hp Hq0 E) as [[? _]|(-> & k & s1 & v' & Es & Ef & -> & ->)]; [| done |].
    - intros k s1 v' _ H. destruct (Hq _ _ _ H) as ((g & Hg & ->) & _). change (v_slot (view_of max_backends me p k s1)) with (slot_at s1 k).
      destruct (Hg (slot_at s1 k)) as (H1 & H2 & H3 & _). unfold id_of. by rewrite H1, H2, H3.
    - destruct (Hq _ _ _ Ef) as ((g & Hg & ->) & -> & _). cbn. destruct (Hg (slot_at s1 k)) as (_ & _ & _ & _ & _ & _ & _ & ->). done. }
  destruct (with_slot_enter crc32c stripes max_backends Hbackends now me p f s r s' Hok Hp E)
    as [(e & -> & -> & Es)|(k & s1 & v' & Es & Hok1 & Hk & Hf & Hm & Ha & Hb & _ & Ef & ->)].
  { split_and!; [done | by intros ? | done | done | done | done |]. left. by eexists. }
  destruct (Hq _ _ _ Ef) as ((g & Hg & Hslot) & Hring & Hfiles & Hsub). cbn in Hslot, Hring, Hfiles.
  destruct (Hg (slot_at s1 k)) as (G1 & G2 & G3 & G4 & G5 & G6 & G7 & G8).
  assert (Hst : ∀ l e, part_ok s1 p l e → ∃ sealed active, tracked_as crc32c max_backends s1 p k sealed active ∧
    stays crc32c s1 p k (sl_generation (slot_at s1 k)) v' sealed active ∧ l = log_batches sealed active ∧ e = sl_next (v_slot v')).
  { intros l e Hl. destruct (view_of_tracked crc32c stripes max_backends me s1 p k l e Hl Hf) as (sealed & active & Ht & -> & -> & Hlog & Hwf & Hhint).
    exists sealed, active. pose proof Ht as [T1 T2 T3 T4 T5 T6]. split_and!; [done | | done | congruence]. destruct Hlog as [L1 L2 L3 L4].
    split; unfold active_base_of; rewrite ?Hslot, ?G3, ?G4, ?G5, ?G7, ?G8, ?Hring, ?Hfiles; try done.
    - unfold id_of. rewrite G1, G2. by apply (found_id stripes _ _ _ Hf).
    - split; rewrite ?Hslot, ?Hfiles, ?G5, ?G6; done.
    - split; [done |]. intros _. by eapply hints_ok_subset. }
  destruct (so_parts _ _ _ _ Hok1 p Hp) as (l1 & e1 & Hl1). destruct (Hst l1 e1 Hl1) as (se & ac & Ht & Hs1 & _ & _).
  destruct (store_view_ok crc32c stripes max_backends me s1 p k _ v' se ac Hok1 Hp Hf (tk_ring _ _ _ _ _ _ _ Ht) Hs1) as (S1 & _ & S3 & S4).
  split_and!; [done | | done | done | done | |].
  - intros q l e Hq0 Hl. destruct (decide (q = p)) as [->|Hne]; [| apply S4; [done | done | by apply Hk]].
    destruct (Hst l e (Hk _ _ _ Hq0 Hl)) as (se2 & ac2 & Ht2 & Hs2 & -> & ->).
    by destruct (store_view_ok crc32c stripes max_backends me s1 p k _ v' se2 ac2 Hok1 Hp Hf (tk_ring _ _ _ _ _ _ _ Ht2) Hs2) as (_ & ? & _).
  - rewrite <- Hb. unfold dir at 1, store_view. cbn. rewrite lookup_insert_eq. cbn. by rewrite Hfiles.
  - right. exists k, s1. split_and!; [done | | by rewrite Ef | done | done | done | done]. unfold slot_for. by rewrite S3.
Qed.

(** What a quiet request leaves: the same partitions, reservations and tables. *)
Record unseen (p : Z * Z) (k : Z) (s s' : SegStore) : Prop := mk_unseen {
  un_ok : store_ok s';
  un_kept : kept s s';
  un_meta : ss_meta s' = ss_meta s;
  un_reserved : ∀ q, q.1 ≠ 0 → reserved s' q = reserved s q;
  un_bases : segment_bases (dir p s') = segment_bases (dir p s);
  un_slot : slot_for crc32c now stripes me p s' = (Ok k, s') }.

(** A quiet request that finds a slot looks at the partition as it is. *)
Lemma quiet_looks {A} p (f : ST View StoreError A) s k s1 l e : store_ok s → p.1 ≠ 0 → quiet f → slot_for crc32c now stripes me p s = (Ok k, s1) →
  part_ok s p l e → ∃ s' v sealed active, with_slot crc32c now stripes max_backends me p f s = ((f v).1, s') ∧ unseen p k s s' ∧
    holds_log crc32c v sealed active (sl_next (v_slot v)) ∧ l = log_batches sealed active ∧ e = sl_next (v_slot v) ∧
    ring_wf (sl_pending (v_slot v)) (v_ring v) ∧ reserved s p = PendingRing.bases (sl_pending (v_slot v)) (v_ring v) ∧
    hints_ok (v_hints v) (sealed ++ [(active_base_of v, active)]) (active_base_of v) ∧ segment_bases (v_files v) = segment_bases (dir p s).
Proof using Hbackends.
  intros Hok Hp Hq Es Hl. destruct (with_slot crc32c now stripes max_backends me p f s) as [r s'] eqn:E.
  destruct (with_slot_quiet p f s r s' Hok Hp Hq E) as (H1 & H2 & H3 & _ & H5 & H6 & [(x & _ & Hno)|(k' & s1' & Es' & Es2 & -> & Hok1 & Hk1 & Hf1 & Hm1)]).
  { rewrite Es in Hno. done. }
  rewrite Es in Es'. injection Es' as <- <-. exists s', (view_of max_backends me p k s1).
  destruct (view_of_tracked crc32c stripes max_backends me s1 p k l e (Hk1 _ _ _ Hp Hl) Hf1) as (sealed & active & Ht & -> & -> & Hlog & Hwf & Hhint).
  exists sealed, active. split_and!; try done.
  - rewrite <- (slot_for_reserved s p _ s1 p Hok Hp Hp Es). unfold reserved. by rewrite Hf1.
  - cbn. destruct (slot_for_ok crc32c now stripes max_backends me Hbackends s p _ s1 Hok Hp Es) as [(x & [=] & _)|(k2 & _ & _ & _ & _ & _ & _ & Hb & _)]. done.
Qed.

Lemma look_quiet {A} (g : View → result StoreError A) : quiet (λ v, (g v, v)).
Proof using Type. intros v r v' [= <- <-]. split_and!; [by exists id | done | done | done]. Qed.

(** The lowest reservation, or the end. *)
Definition floor_over (rs : list Z) (e : Z) : Z := foldr Z.min e rs.

Lemma floor_over_le rs e x : x ∈ rs → floor_over rs e ≤ x.
Proof using Type.
  clear Hbackends. induction rs as [|y rs IH]; intros Hx; [by apply elem_of_nil in Hx |]. cbn.
  apply elem_of_cons in Hx as [->|Hx]; [lia |]. specialize (IH Hx). unfold floor_over in IH. lia.
Qed.
Lemma floor_over_end rs e : floor_over rs e ≤ e.
Proof using Type. clear Hbackends. induction rs as [|y rs IH]; cbn; [lia |]. unfold floor_over in IH. lia. Qed.
Lemma floor_over_least rs e m : m ∈ rs → (∀ x, x ∈ rs → m ≤ x) → floor_over rs e = Z.min m e.
Proof using Type.
  clear Hbackends. intros Hm Hmin. pose proof (floor_over_le rs e m Hm). pose proof (floor_over_end rs e).
  assert (Z.min m e ≤ floor_over rs e); [| lia]. clear Hm H H0. induction rs as [|y rs IH]; cbn; [lia |].
  assert (Z.min m e ≤ floor_over rs e) by (apply IH; intros; apply Hmin; by right). pose proof (Hmin y ltac:(by left)). unfold floor_over in *. lia.
Qed.

Lemma pending_floor_spec st ring : ring_wf (sl_pending st) ring →
  pending_floor st = floor_over (PendingRing.bases (sl_pending st) ring) (sl_next st).
Proof using Type.
  intros Hw. pose proof (floor_is_minimum _ _ Hw) as H. unfold pending_floor. destruct (floor (sl_pending st)) as [m|].
  - destruct H as [H1 H2]. by rewrite (floor_over_least _ _ m).
  - by rewrite H.
Qed.

(** ** Reading *)

Variable ongoing : Z → bool.

Definition stable (p : Z * Z) (d : Meta) (floor : Z) : Z :=
  match kafka_txn_lso ongoing p d with
  | Some kafka => if 0 <=? kafka then Z.min floor kafka else floor
  | None => floor
  end.

(** The answer to a read, from the batches and the reservations of the partition. *)
Definition read_answer (p : Z * Z) (offset max_bytes : Z) (iso : IsolationLevel) (d : Meta) (l : list bytes) (e : Z) (rs : list Z)
    : result StoreError FetchSlice :=
  match log_start_offset p d with
  | Err x => Err x
  | Ok start =>
      let lso := stable p d (floor_over rs e) in
      let ceiling := match iso with ReadCommitted => lso | ReadUncommitted => e end in
      if (offset <? start) || (e <? offset) then Err OffsetOutOfRange
      else if offset <? ceiling then
        let '(committed, ceiling) :=
          match iso with
          | ReadCommitted => let '(set, capped) := committed_markers p offset ceiling d in (Some set, capped)
          | ReadUncommitted => (None, ceiling)
          end in
        let r := (pick offset max_bytes ceiling committed l (mk_read [] offset [])).2 in
        let listed := match iso with ReadCommitted => aborted_txns p offset (Z.max (rd_next r) (offset + 1)) d | ReadUncommitted => [] end in
        Ok (mk_slice (rd_out r) (rd_next r) e start lso (rd_aborted r ++ listed))
      else Ok (mk_slice [] offset e start lso [])
  end.

Lemma foldl_delete_subset gone (h : Hints) : foldl (λ h b, delete b h) h gone ⊆ h.
Proof using Type.
  revert h. induction gone as [|b gone IH]; intros h; cbn; [done |]. etransitivity; [apply IH | apply delete_subseteq].
Qed.

Lemma read_section_quiet bases log_start offset max_bytes ceiling committed : quiet (read_section bases log_start offset max_bytes ceiling committed).
Proof using Type.
  intros v r v'. unfold read_section. destruct (read_segments _ _ _ _ _ _ _ _ _) as [[gone rd]|x]; intros [= <- <-].
  - split_and!; [by exists id | done | done | apply foldl_delete_subset].
  - split_and!; [by exists id | done | done | done].
Qed.

Lemma unseen_trans p k s s' s'' : unseen p k s s' → unseen p k s' s'' → unseen p k s s''.
Proof using Type.
  intros [] []. split; [done | intros q l e Hq Hl; auto | congruence | intros q Hq; rewrite un_reserved1 by done; auto | congruence | done].
Qed.

Lemma hw_looks s p k s1 l e : store_ok s → p.1 ≠ 0 → slot_for crc32c now stripes me p s = (Ok k, s1) → part_ok s p l e →
  ∃ s', seg_high_watermark crc32c now stripes max_backends me p s = (Ok e, s') ∧ unseen p k s s'.
Proof using Hbackends.
  intros Hok Hp Es Hl. destruct (quiet_looks p _ s k s1 l e Hok Hp (look_quiet (λ v, Ok (sl_next (v_slot v)))) Es Hl)
    as (s' & v & sealed & active & E & Hu & _ & _ & -> & _). exists s'. by split.
Qed.

Lemma lso_looks s p k s1 l e : store_ok s → p.1 ≠ 0 → slot_for crc32c now stripes me p s = (Ok k, s1) → part_ok s p l e →
  ∃ s', seg_last_stable_offset crc32c now stripes max_backends ongoing me p s = (Ok (stable p (ss_meta s) (floor_over (reserved s p) e)), s') ∧ unseen p k s s'.
Proof using Hbackends.
  intros Hok Hp Es Hl. destruct (quiet_looks p _ s k s1 l e Hok Hp (look_quiet (λ v, Ok (pending_floor (v_slot v)))) Es Hl)
    as (s' & v & sealed & active & E & Hu & _ & _ & -> & Hw & Hr & _). exists s'. split; [| done].
  unfold seg_last_stable_offset, bind. rewrite E. cbn [fst]. rewrite (un_meta _ _ _ _ Hu), (pending_floor_spec _ _ Hw), Hr. done.
Qed.

Lemma markers_ceiling p from to d : from < to → from < (committed_markers p from to d).2 ≤ to.
Proof using Type.
  clear Hbackends. intros H. unfold committed_markers. cbn [snd]. destruct (foldl_max_spec (take MARKERS_PER_FETCH
    (merge_sort Z.le (filter (λ b, from ≤ b ∧ b < to) (elements (marker_set p d))))) from) as [H1 _]. case_match; lia.
Qed.

(** A read answers from what the partition holds, and changes nothing that counts. *)
Lemma seg_read_answer s p offset max_bytes iso k s1 l e : store_ok s → p.1 ≠ 0 → slot_for crc32c now stripes me p s = (Ok k, s1) → part_ok s p l e →
  ∃ s', seg_read crc32c now stripes max_backends ongoing me p offset max_bytes iso s =
    (read_answer p offset max_bytes iso (ss_meta s) l e (reserved s p), s') ∧ (s' = s ∨ unseen p k s s').
Proof using Hbackends.
  intros Hok Hp Es Hl. unfold seg_read, read_answer. destruct (log_start_offset p (ss_meta s)) as [start|x]; [| exists s; split; [done | by left]].
  destruct (hw_looks s p k s1 l e Hok Hp Es Hl) as (sa & Ea & Ua). unfold bind at 1. rewrite Ea.
  destruct (lso_looks sa p k sa l e (un_ok _ _ _ _ Ua) Hp (un_slot _ _ _ _ Ua) (un_kept _ _ _ _ Ua _ _ _ Hp Hl)) as (sb & Eb & Ub). unfold bind at 1. rewrite Eb.
  rewrite (un_meta _ _ _ _ Ua), (un_reserved _ _ _ _ Ua p Hp). pose proof (unseen_trans _ _ _ _ _ Ua Ub) as Uab.
  set (lso := stable _ _ _). destruct ((offset <? start) || (e <? offset)); [exists sb; split; [done | by right] |].
  set (ceiling := match iso with ReadCommitted => lso | ReadUncommitted => e end).
  destruct (Z.ltb_spec offset ceiling) as [Hc|_]; [| exists sb; split; [done | by right]]. rewrite (un_meta _ _ _ _ Uab).
  assert (Hcc : ∃ committed capped, (match iso with
      | ReadCommitted => let '(set, capped) := committed_markers p offset ceiling (ss_meta s) in (Some set, capped)
      | ReadUncommitted => (None, ceiling) end) = (committed, capped) ∧ offset < capped).
  { destruct iso; [by exists None, ceiling |]. pose proof (markers_ceiling p offset ceiling (ss_meta s) Hc) as Hm.
    destruct (committed_markers p offset ceiling (ss_meta s)) as [set capped]. cbn in Hm. exists (Some set), capped. split; [done | lia]. }
  destruct Hcc as (committed & capped & -> & Hcap). unfold bind.
  destruct (quiet_looks p _ sb k sb l e (un_ok _ _ _ _ Uab) Hp
    (read_section_quiet (segment_bases (dir p sb)) start offset max_bytes capped committed) (un_slot _ _ _ _ Uab) (un_kept _ _ _ _ Uab _ _ _ Hp Hl))
    as (sc & v & sealed & active & Ec & Uc & Hlog & -> & -> & _ & _ & Hhint & Hbases).
  rewrite Ec, <- Hbases, (read_section_pick crc32c offset max_bytes capped committed v sealed active _ start Hlog Hhint Hcap). cbn [fst].
  exists sc. rewrite (un_meta _ _ _ _ Uc), (un_meta _ _ _ _ Uab). split; [done |]. right. by eapply unseen_trans.
Qed.

End Serve.
