(* ===== verification/SegmentReclaim.v ===== *)
(** * The segment engine: reclaiming

    [reclaim] unlinks sealed segments that lie wholly below its target, from the
    lowest on, and never the last one: what it takes is below the log start it sets,
    and everything else is still there.

    Behind it: releasing reservations, creating partitions, restarting. *)

From stdpp Require Import gmap sorting strings.
From S2P Require Import Prelude Errors Records RecordIter Build Compaction Cleaner PendingRing Pmeta Store Config Table TableSpec Segment SegmentFiles SegmentView SegmentAppend SegmentSlots SegmentRun.



Section Reclaim.

Variable crc32c : bytes → Z.
Variables (stripes : Z) (max_backends : nat) (archiving : bool) (me : Z).

Abbreviation segments := (list (Z * list bytes)).
Abbreviation part_ok := (part_ok crc32c stripes max_backends).
Abbreviation store_ok := (store_ok crc32c stripes max_backends).

(** ** Files *)

Definition unlinks_front (target : Z) (infos : list SegInfo) (gone : list Z) : Prop :=
  ∃ rest, in_base <$> infos = gone ++ rest ∧ (infos ≠ [] → rest ≠ []) ∧ (gone ≠ [] → ∃ b rest', rest = b :: rest' ∧ b ≤ target).

Lemma unlinked_prefix target archived infos n : unlinks_front target infos (unlinked target archived n infos).
Proof using Type.
  revert n. induction infos as [|i [|j infos] IH]; intros n.
  - by exists [].
  - exists [in_base i]. by cbn.
  - specialize (IH (n + 1)). change (unlinked target archived n (i :: j :: infos)) with
      (if MAX_SEGMENT_UNLINKS <=? n then [] else if target <? in_base j then []
       else if match archived with Some done_ => negb (bool_decide (in_base i ∈ done_)) | None => false end then []
       else in_base i :: unlinked target archived (n + 1) (j :: infos)).
    assert (Hstop : unlinks_front target (i :: j :: infos) []) by by exists (in_base <$> i :: j :: infos).
    destruct (MAX_SEGMENT_UNLINKS <=? n); [exact Hstop |]. destruct (Z.ltb_spec target (in_base j)) as [|Hle]; [exact Hstop |].
    destruct (match archived with Some _ => _ | None => _ end); [exact Hstop |]. destruct IH as (rest & Hr & Hne & Hb). exists rest.
    split; [rewrite fmap_cons, Hr; done |]. split; [intros _; by apply Hne |]. intros _.
    destruct (unlinked target archived (n + 1) (j :: infos)) as [|b l] eqn:E; [| by apply Hb].
    cbn in Hr. exists (in_base j), (in_base <$> infos). by rewrite <- Hr.
Qed.

Lemma logs_of_delete_prefix files l1 l2 : logs_of files = l1 ++ l2 → logs_of (foldl (λ f b, delete b f) files l1.*1) = l2.
Proof using Type.
  revert files. induction l1 as [|[b bs] l1 IH]; intros files H; [done |]. cbn [fmap list_fmap foldl fst]. apply IH.
  pose proof (logs_of_sorted files) as Hs. rewrite H in Hs. cbn [app fmap list_fmap fst] in Hs. apply StronglySorted_inv in Hs as [Hs Hlt].
  apply logs_of_unique; [done |]. intros b' bs'. rewrite Forall_forall in Hlt.
  assert (Hb : ∀ x, (b, x) ∉ l1 ++ l2).
  { intros x Hin. specialize (Hlt b). assert (b < b); [| lia]. apply Hlt. apply list_elem_of_fmap. by exists (b, x). }
  destruct (decide (b' = b)) as [->|Hne].
  - rewrite lookup_delete_eq. split; [intros Hin; by apply Hb in Hin | by intros (? & ? & _)].
  - rewrite lookup_delete_ne by done. rewrite <- logs_of_elem, H. cbn [app]. rewrite elem_of_cons. split; [by right |]. intros [[= ? ?]|?]; done.
Qed.

Lemma infos_bases files : in_base <$> segment_infos files = (logs_of files).*1.
Proof using Type. unfold segment_infos, logs_of. rewrite <- !list_fmap_compose. by apply list_fmap_ext. Qed.

(** What is unlinked is the front of the directory, and something stays. *)
Lemma unlink_splits files target archived : let gone := unlinked target archived 0 (segment_infos files) in
  ∃ g rest, logs_of files = g ++ rest ∧ gone = g.*1 ∧ logs_of (foldl (λ f b, delete b f) files gone) = rest ∧
    (logs_of files ≠ [] → rest ≠ []) ∧ (g ≠ [] → ∃ b x rest', rest = (b, x) :: rest' ∧ b ≤ target).
Proof using Type.
  intros gone. destruct (unlinked_prefix target archived (segment_infos files) 0) as (bs & Hbs & Hne & Hb). fold gone in Hbs, Hb.
  rewrite infos_bases in Hbs. apply fmap_app_inv in Hbs as (g & rest & Hg & Hr & Hl). exists g, rest.
  assert (Hlen : length (segment_infos files) = length (logs_of files)) by (unfold segment_infos, logs_of; by rewrite !length_fmap).
  split_and!; [done | done | rewrite Hg; by apply logs_of_delete_prefix | |].
  - intros Hn Hrest. subst rest. cbn in Hr. subst bs. apply Hne; [| done]. intros Hi. rewrite Hi in Hlen. destruct (logs_of files); [done | by cbn in Hlen].
  - intros Hgne. destruct Hb as (b & rest' & -> & Hbt); [intros E; rewrite E in Hg; by destruct g |].
    destruct rest as [|[b' x] rest]; [done |]. cbn in Hr. injection Hr as -> _. by exists b', x, rest.
Qed.

(** ** Segments *)

Lemma chained_drop g l e : chained crc32c (g ++ l) e → chained crc32c l e ∧ chained crc32c g (first_base_of l e).
Proof using Type.
  induction g as [|[b xs] g IH]; cbn; [done |]. intros (H1 & H2 & H3). destruct (IH H3) as [H4 H5]. split; [done |].
  replace (first_base_of (g ++ l) e) with (first_base_of g (first_base_of l e)) in * by by destruct g as [|[]]. done.
Qed.

Lemma batches_of_app g l : batches_of (g ++ l) = batches_of g ++ batches_of l.
Proof using Type. unfold batches_of. apply bind_app. Qed.

Lemma segs_split segs g rest : segs_of segs = g ++ rest → ∃ sg sr, segs = sg ++ sr ∧ segs_of sg = g ∧ segs_of sr = rest.
Proof using Type. intros H. apply fmap_app_inv in H as (sg & sr & H1 & H2 & H3). by exists sg, sr. Qed.

Lemma segs_of_keys segs : (segs_of segs).*1 = segs.*1.
Proof using Type. unfold segs_of. rewrite <- list_fmap_compose. by apply list_fmap_ext. Qed.

(** Batches of the unlinked segments end below the first base that stays. *)
Lemma dropped_below g e b x target : chained crc32c g e → e = b → b ≤ target → x ∈ batches_of g → last_of x < target.
Proof using Type.
  intros Hc -> Hb Hx. pose proof (ascending_in _ _ _ _ x (dense_ascending _ _ _ _ (linked_dense _ _ _ (chained_linked _ _ _ Hc))) Hx). lia.
Qed.

Lemma foldl_delete_lookup {A} (m : gmap Z A) gone b a : foldl (λ f b, delete b f) m gone !! b = Some a → m !! b = Some a.
Proof using Type.
  revert m. induction gone as [|c gone IH]; intros m; cbn; [done |]. intros H. apply IH in H. by apply lookup_delete_Some in H as [_ H].
Qed.

(** What is left of the sealed segments. *)
Record unlinks (files files' : Files) (sealed sealed' : segments) (base : Z) (active : list bytes) (target : Z) : Prop := mk_unlinks {
  ul_index : indexes_ok files (sealed ++ [(base, active)]) → indexes_ok files' (sealed' ++ [(base, active)]);
  ul_sealed : chained crc32c sealed' base;
  ul_sub : ∀ e, e ∈ sealed' → e ∈ sealed;
  ul_batches : ∃ dropped, batches_of sealed = dropped ++ batches_of sealed' ∧ ∀ x, x ∈ dropped → last_of x < target }.

Lemma unlink_sealed files target archived sealed base active last_ : let gone := unlinked target archived 0 (segment_infos files) in
  let files' := foldl (λ f b, delete b f) files gone in
  logs_of files = segs_of sealed ++ last_ → chained crc32c sealed base → (last_ = [] ∨ ∃ x, last_ = [(base, x)]) →
  ∃ sealed', unlinks files files' sealed sealed' base active target ∧ logs_of files' = segs_of sealed' ++ last_.
Proof using Type.
  intros gone files' Hl Hc Hlast. destruct (unlink_splits files target archived) as (g & rest & Hgr & Hg & Hrest & Hne & Hb). fold gone in Hg, Hrest.
  assert (Hsplit : ∃ sg sr, sealed = sg ++ sr ∧ segs_of sg = g ∧ segs_of sr ++ last_ = rest).
  { rewrite Hl in Hgr. destruct Hlast as [->|[x ->]].
    - rewrite app_nil_r in Hgr. apply segs_split in Hgr as (sg & sr & -> & <- & <-). exists sg, sr. by rewrite app_nil_r.
    - destruct rest as [|y rest _] using rev_ind; [exfalso; apply Hne; [by rewrite Hl; intros [_ ?]%app_nil | done] |].
      rewrite app_assoc in Hgr. apply app_inj_tail in Hgr as [Hgr <-]. apply segs_split in Hgr as (sg & sr & -> & <- & <-). by exists sg, sr. }
  destruct Hsplit as (sg & sr & -> & <- & <-). exists sr. split; [| done]. destruct (chained_drop sg sr base Hc) as [H1 H2]. split.
  - intros Hi b xs f Hin E. eapply Hi; [| by eapply foldl_delete_lookup]. apply elem_of_app in Hin as [Hin|Hin]; apply elem_of_app; [left | by right].
    apply elem_of_app. by right.
  - done.
  - intros e He. apply elem_of_app. by right.
  - exists (batches_of sg). split; [apply batches_of_app |]. intros x Hx. destruct (segs_of sg) as [|y gs] eqn:Esg.
    + apply fmap_nil_inv in Esg. subst sg. by apply elem_of_nil in Hx.
    + destruct Hb as (b & x0 & rest' & Hr & Hbt); [done |]. eapply (dropped_below sg _ b); [exact H2 | | done | done].
      destruct sr as [|[c ys] sr]; cbn in *; [| by injection Hr]. destruct Hlast as [->|[x1 ->]]; [done |]. by injection Hr.
Qed.

(** ** Partitions *)

Definition reclaimed (p : Z * Z) (gone : list Z) (s : SegStore) : SegStore :=
  on_process me (on_hints (alter (λ e : Z * Hints, (e.1, foldl (λ h b, delete b h) e.2 gone)) p))
    (on_dirs (alter (λ files, foldl (λ f b, delete b f) files gone) p) s).

Lemma reclaimed_dir p gone s q : dir q (reclaimed p gone s) = if decide (q = p) then foldl (λ f b, delete b f) (dir p s) gone else dir q s.
Proof using Type.
  unfold dir, reclaimed. cbn. case_decide as E; [| by rewrite lookup_alter_ne]. subst q. rewrite lookup_alter_eq.
  destruct (ss_dirs s !! p) as [d|]; [done |]. cbn. symmetry. induction gone as [|b gone IH]; [done |]. cbn. by rewrite delete_empty.
Qed.

Lemma reclaimed_hints p gone s m q : pr_hints (process m (reclaimed p gone s)) !! q =
  if decide (m = me ∧ q = p) then (λ e : Z * Hints, (e.1, foldl (λ h b, delete b h) e.2 gone)) <$> pr_hints (process me s) !! p
  else pr_hints (process m s) !! q.
Proof using Type.
  unfold reclaimed. rewrite on_process_hints. change (process m (on_dirs _ s)) with (process m s). change (process me (on_dirs _ s)) with (process me s).
  destruct (decide (m = me)) as [->|Hm]; [| by rewrite decide_False by tauto]. cbn. destruct (decide (q = p)) as [->|Hq].
  - by rewrite decide_True, lookup_alter_eq.
  - rewrite decide_False by tauto. by rewrite lookup_alter_ne.
Qed.

Lemma hints_ok_fewer h h' segs segs' base : h' ⊆ h → (∀ e, e ∈ segs' → e ∈ segs) → hints_ok h segs base → hints_ok h' segs' base.
Proof using Type.
  intros Hsub Hin H b entries E. destruct (H b entries) as [?|[Hb Hn]]; [by eapply lookup_weaken | by left |]. right. split; [done |]. intros xs Hx. by apply Hn, Hin.
Qed.

Lemma hints_in_fewer s p gone generation segs segs' base : (∀ e, e ∈ segs' → e ∈ segs) → hints_in s p generation segs base →
  hints_in (reclaimed p gone s) p generation segs' base.
Proof using Type.
  intros Hin H m g h. rewrite reclaimed_hints. case_decide as E.
  - destruct E as [-> _]. destruct (pr_hints (process me s) !! p) as [[g0 h0]|] eqn:E; [| done]. cbn. intros [= <- <-].
    destruct (H me g0 h0 E) as [H1 H2]. split; [done |]. intros Hg. eapply hints_ok_fewer; [apply foldl_delete_subset | exact Hin | by apply H2].
  - intros Eh. destruct (H m g h Eh) as [H1 H2]. split; [done |]. intros Hg. eapply hints_ok_fewer; [reflexivity | exact Hin | by apply H2].
Qed.

(** What reclaiming leaves of a partition: a tail of its batches, and its end. *)
Definition reclaims (p : Z * Z) (target : Z) (s s' : SegStore) : Prop :=
  ∀ l e, part_ok s p l e → ∃ dropped l', l = dropped ++ l' ∧ (∀ x, x ∈ dropped → last_of x < target) ∧ part_ok s' p l' e.

Lemma segs_in_snoc (sealed sealed' : segments) base active : (∀ e, e ∈ sealed' → e ∈ sealed) →
  ∀ e, e ∈ sealed' ++ [(base, active)] → e ∈ sealed ++ [(base, active)].
Proof using Type. intros H e. rewrite !elem_of_app. intros [?|?]; [left; auto | by right]. Qed.

Lemma reclaimed_part s p target archived : let gone := unlinked target archived 0 (segment_infos (dir p s)) in
  reclaims p target s (reclaimed p gone s).
Proof using Type.
  intros gone l e. unfold SegmentSlots.part_ok. change (find_slot stripes p (reclaimed p gone s)) with (find_slot stripes p s).
  pose proof (reclaimed_dir p gone s p) as Hdir. rewrite decide_True in Hdir by done.
  assert (Hun : untracked_as crc32c s p l e → ∃ dropped l', l = dropped ++ l' ∧ (∀ x, x ∈ dropped → last_of x < target) ∧ untracked_as crc32c (reclaimed p gone s) p l' e).
  { intros [Hh Hd]. assert (Hh' : ∀ m, pr_hints (process m (reclaimed p gone s)) !! p = None) by (intros m; rewrite reclaimed_hints, Hh; by case_decide; rewrite ?Hh).
    destruct Hd as [(Hd & -> & ->)|(sealed & base & active & tail & [D1 D2 D3 D4 D5] & ->)].
    - exists [], []. split_and!; [done | by intros x ?%elem_of_nil |]. split; [done |]. left. split_and!; [| done | done]. rewrite Hdir. unfold gone. by rewrite Hd.
    - destruct (unlink_sealed (dir p s) target archived sealed base active [(base, concat active ++ tail)] D1 D2) as (sealed' & [U1 U2 U3 (dr & Hb & Hdr)] & Hl); [right; by eexists |].
      exists dr, (log_batches sealed' active). split_and!; [unfold log_batches; by rewrite Hb, app_assoc | done |]. split; [done |]. right.
      exists sealed', base, active, tail. split; [| done]. rewrite Hdir. split; auto. }
  destruct (find_slot stripes p s) as [k|k|]; [| exact Hun | exact Hun].
  intros (sealed & active & [[T1 T2 T3 T4] H2 H3 H4 H5 H6] & -> & ->). cbn in T1, T2, T3, T4.
  assert (Hlast : ∃ last_, logs_of (dir p s) = segs_of sealed ++ last_ ∧ (last_ = [] ∧ active = [] ∨ last_ = [(sl_active_base (slot_at s k), concat active)])).
  { destruct T1 as [T1|[T1 ->]]; [exists [(sl_active_base (slot_at s k), concat active)]; split; [by rewrite T1, segs_of_app | by right] | exists []; rewrite app_nil_r; auto]. }
  destruct Hlast as (last_ & Hl & Hlast).
  destruct (unlink_sealed (dir p s) target archived sealed (sl_active_base (slot_at s k)) active last_ Hl T2) as (sealed' & [U1 U2 U3 (dr & Hb & Hdr)] & Hl');
    [destruct Hlast as [[-> _]|E]; [by left | right; by eexists] |]. fold gone in Hl', U1. rewrite <- Hdir in Hl', U1.
  exists dr, (log_batches sealed' active). split_and!; [unfold log_batches; by rewrite Hb, app_assoc | done |]. exists sealed', active. split_and!; [| done | done].
  split; [split; try done | done | done | by apply U1 | done |].
  - unfold files_hold. cbn. destruct Hlast as [[-> ->]|E]; [right; by rewrite app_nil_r in Hl' | left; by rewrite segs_of_app, Hl', E].
  - eapply hints_in_fewer; [| exact H6]. by apply segs_in_snoc.
Qed.

Lemma unlinked_others s p gone q l e : q ≠ p → part_ok s q l e → part_ok (reclaimed p gone s) q l e.
Proof using Type.
  intros Hq. apply part_ok_ext; [done | done | by rewrite reclaimed_dir, decide_False | intros m; rewrite reclaimed_hints, decide_False; [done | tauto]].
Qed.

Lemma meta_part f s q l e : part_ok (on_meta f s) q l e ↔ part_ok s q l e.
Proof using Type. split; by apply part_ok_ext. Qed.

Lemma reclaim_exact s p offset r s' : store_ok s → p.1 ≠ 0 → seg_reclaim archiving me p offset s = (r, s') →
  store_ok s' ∧ others_kept crc32c stripes max_backends p s s' ∧
  match r with
  | Err _ => s' = s
  | Ok _ => ∃ start, log_start_offset p (ss_meta s) = Ok start ∧ ss_meta s' = advance_log_start p (Z.max offset start) (ss_meta s) ∧
      reclaims p (Z.max offset start) s s'
  end.
Proof using Type.
  intros Hok Hp. unfold seg_reclaim. destruct (log_start_offset p (ss_meta s)) as [start|x]; [| intros [= <- <-]; split_and!; [done | by intros q l e | done]].
  set (archived := if archiving then _ else None). set (gone := unlinked _ _ _ _). fold (reclaimed p gone s). intros [= <- <-].
  assert (Hpart : reclaims p (Z.max offset start) s (on_meta (advance_log_start p (Z.max offset start)) (reclaimed p gone s))).
  { intros l e Hl. destruct (reclaimed_part s p (Z.max offset start) archived l e Hl) as (dr & l' & ? & ? & ?). exists dr, l'. split_and!; [done | done | by apply meta_part]. }
  assert (Hoth : others_kept crc32c stripes max_backends p s (on_meta (advance_log_start p (Z.max offset start)) (reclaimed p gone s))).
  { intros q l e Hq _ Hl. apply meta_part. by apply unlinked_others. }
  split_and!; [| done | by exists start]. destruct Hok as [O1 O2 O3]. split; [done | done |]. intros q Hq. destruct (O3 q Hq) as (l & e & Hl).
  destruct (decide (q = p)) as [->|Hne]; [destruct (Hpart l e Hl) as (dr & l' & _ & _ & H); by exists l', e | exists l, e; by apply Hoth].
Qed.

End Reclaim.

(** * The segment engine: releasing, creating and restarting

    The requests that do not run under [with_slot], and what a stop of the server
    leaves: the files, with at most the start of the batch that was being written. *)

Section Release.

Variable crc32c : bytes → Z.
Variables (stripes : Z) (max_backends : nat).
Hypothesis Hbackends : (0 < max_backends)%nat.
Variables (now me : Z).

Abbreviation segments := (list (Z * list bytes)).
Abbreviation part_ok := (part_ok crc32c stripes max_backends).
Abbreviation store_ok := (store_ok crc32c stripes max_backends).
Abbreviation kept := (kept crc32c stripes max_backends).
Abbreviation reserved := (reserved stripes max_backends).

(** ** Releasing *)

Definition with_ring (k : Z) (r : PendingRing) (ring : list Z) (s : SegStore) : SegStore :=
  on_rings <[k := ring]> (on_slots <[k := with_pending r (slot_at s k)]> s).

Lemma with_ring_slot k r ring s k' : slot_at (with_ring k r ring s) k' = if decide (k' = k) then with_pending r (slot_at s k) else slot_at s k'.
Proof using Type. unfold slot_at at 1, with_ring. cbn. case_decide as E; [subst; by rewrite lookup_insert_eq | by rewrite lookup_insert_ne]. Qed.

Lemma with_ring_find k r ring s q : find_slot stripes q (with_ring k r ring s) = find_slot stripes q s.
Proof using Type. apply find_slot_ext. intros k'. rewrite with_ring_slot. case_decide; by subst. Qed.

Lemma with_ring_mut k r ring s k' : ring_mut max_backends k' (with_ring k r ring s) = if decide (k' = k) then ring else ring_mut max_backends k' s.
Proof using Type. unfold ring_mut, with_ring. cbn. case_decide as E; [subst; by rewrite lookup_insert_eq | by rewrite lookup_insert_ne]. Qed.

Lemma with_ring_ok s p k r ring : store_ok s → p.1 ≠ 0 → find_slot stripes p s = Found k → ring_wf r ring →
  store_ok (with_ring k r ring s) ∧ kept s (with_ring k r ring s) ∧
  (∀ q, q.1 ≠ 0 → reserved (with_ring k r ring s) q = if decide (q = p) then PendingRing.bases r ring else reserved s q).
Proof using Type.
  intros Hok Hp Hf Hw. set (s' := with_ring k r ring s).
  assert (Hne : ∀ q kq, q ≠ p → find_slot stripes q s = Found kq → kq ≠ k).
  { intros q kq Hq Hk ->. pose proof (found_id stripes _ _ _ Hk). pose proof (found_id stripes _ _ _ Hf). congruence. }
  assert (Hkept : kept s s').
  { intros q l e Hq0 Hl. destruct (decide (q = p)) as [->|Hq].
    - unfold SegmentSlots.part_ok in *. unfold s'. rewrite with_ring_find. rewrite Hf in *. destruct Hl as (sealed & active & [T1 T2 T3 T4 T5 T6] & -> & ->).
      exists sealed, active. rewrite with_ring_slot, decide_True by done. split_and!; [| done | done].
      split; rewrite ?with_ring_slot, ?with_ring_mut, ?(decide_True _ _ eq_refl); try done.
      unfold part_view. rewrite with_ring_slot, (decide_True _ _ eq_refl). destruct T1. by split.
    - revert Hl. apply part_ok_ext; [intros; unfold s'; by rewrite with_ring_find | | done | done].
      intros kq Hkq. unfold s'. rewrite with_ring_slot, with_ring_mut, !decide_False by (by eapply Hne). done. }
  split_and!; [split | done |].
  - intros k' st E. unfold s' in *. cbn in E. rewrite with_ring_find. destruct (decide (k' = k)) as [->|Hk].
    + rewrite lookup_insert_eq in E. injection E as <-. pose proof (found_id stripes _ _ _ Hf) as Hid. unfold id_of in *. cbn in *.
      rewrite Hid. split; [by rewrite <- Hid in Hp | done].
    + rewrite lookup_insert_ne in E by done. by apply (so_slots _ _ _ _ Hok).
  - intros k' ring' E. unfold s' in E. cbn in E. destruct (decide (k' = k)) as [->|Hk].
    + rewrite lookup_insert_eq in E. injection E as <-. destruct Hw. clear Hbackends. lia.
    + rewrite lookup_insert_ne in E by done. by eapply (so_rings _ _ _ _ Hok).
  - intros q Hq. destruct (so_parts _ _ _ _ Hok q Hq) as (l & e & Hl). exists l, e. by apply Hkept.
  - intros q Hq0. unfold SegmentRun.reserved, s'. rewrite with_ring_find. case_decide as E.
    + subst q. rewrite Hf, with_ring_slot, decide_True by done. cbn. rewrite (tracked_ring crc32c stripes max_backends s p k Hok Hp Hf), with_ring_mut.
      by rewrite decide_True.
    + destruct (find_slot stripes q s) as [kq| |] eqn:Eq; [| done | done]. rewrite with_ring_slot, decide_False by (by eapply Hne).
      rewrite with_ring_mut, decide_False; [done |]. rewrite (tracked_ring crc32c stripes max_backends s q kq Hok Hq0 Eq). by eapply Hne.
Qed.

Lemma shard_slots_find p s : slots_ok stripes s → p.1 ≠ 0 →
  match list_find (λ k, holds p (slot_at s k)) (shard_slots stripes p) with
  | Some (_, k) => find_slot stripes p s = Found k
  | None => ∀ k, find_slot stripes p s ≠ Found k
  end.
Proof using Type.
  intros Hs Hp. destruct (list_find _ _) as [[i k]|] eqn:E.
  - apply list_find_Some in E as (_ & Hh & _). apply holder_found; [done | done |]. by apply Is_true_eq_true.
  - apply list_find_None in E. rewrite Forall_forall in E. intros k Hk. pose proof (found_holds _ _ _ _ Hk) as Hh.
    apply probe_found in Hk as (m & Hm & Hk & _). apply (E k); [| by apply Is_true_eq_left]. subst k. unfold shard_slots, probe_at.
    apply list_elem_of_fmap. set (i := (_ + _) mod SLOTS_PER_SHARD). assert (0 ≤ i < SLOTS_PER_SHARD) by (apply Z.mod_pos_bound; done).
    clear Hbackends. exists (Z.to_nat i). split; [lia |]. apply elem_of_seq. lia.
Qed.

(** Releasing gives back the one reservation, and does nothing else. *)
Lemma release_ok s p base : store_ok s → p.1 ≠ 0 → let s' := release_pending stripes max_backends p base s in
  store_ok s' ∧ kept s s' ∧ ss_meta s' = ss_meta s ∧
  (∀ q, q.1 ≠ 0 → if decide (q = p ∧ base ∈ reserved s q) then reserved s q ≡ₚ base :: reserved s' q else reserved s' q = reserved s q).
Proof using Type.
  intros Hok Hp. unfold release_pending. pose proof (shard_slots_find p s (so_slots _ _ _ _ Hok) Hp) as Hf.
  destruct (list_find _ _) as [[i k]|].
  - pose proof (tracked_ring crc32c stripes max_backends s p k Hok Hp Hf) as Hr.
    assert (Hw : ring_wf (sl_pending (slot_at s k)) (ring_mut max_backends (sl_ring (slot_at s k)) s)).
    { destruct (so_parts _ _ _ _ Hok p Hp) as (l & e & Hl). unfold SegmentSlots.part_ok in Hl. rewrite Hf in Hl.
      destruct Hl as (se & ac & [] & _). by rewrite Hr. }
    pose proof (release_removes _ _ base Hw) as Hrel. destruct (PendingRing.release _ _ base) as [[ok r] ring]. destruct Hrel as (Hw' & _ & Hb).
    rewrite Hr. fold (with_ring k r ring s). destruct (with_ring_ok s p k r ring Hok Hp Hf Hw') as (H1 & H2 & H3). split_and!; [done | done | done |].
    intros q Hq. rewrite (H3 q Hq). destruct (decide (q = p)) as [->|Hne]; [| by rewrite decide_False by tauto].
    assert (Hres : reserved s p = PendingRing.bases (sl_pending (slot_at s k)) (ring_mut max_backends (sl_ring (slot_at s k)) s)) by (unfold SegmentRun.reserved; by rewrite Hf).
    rewrite Hres. case_decide as Hin; [rewrite decide_True by done; tauto | rewrite decide_False by tauto]. by destruct Hb as (_ & -> & ->).
  - split_and!; [done | by intros q l e | done |]. intros q Hq. rewrite decide_False; [done |]. intros [-> Hin].
    unfold SegmentRun.reserved in Hin. destruct (find_slot stripes p s) as [k| |] eqn:E; [by apply (Hf k) | by apply elem_of_nil in Hin..].
Qed.

(** ** Changes of the tables *)

Lemma meta_ok f s : store_ok s → store_ok (on_meta f s).
Proof using Type. intros [H1 H2 H3]. split; [done | done |]. intros q Hq. destruct (H3 q Hq) as (l & e & Hl). exists l, e. by apply meta_part. Qed.

Lemma create_part p epoch s q l e : part_ok s q l e → part_ok (seg_create_partition p epoch s) q l e.
Proof using Type.
  apply part_ok_ext; [done | done | | done]. unfold dir, seg_create_partition. cbn. destruct (decide (q = p)) as [->|Hq].
  - rewrite lookup_partial_alter_eq. by destruct (ss_dirs s !! p).
  - by rewrite lookup_partial_alter_ne.
Qed.

Lemma seg_create_ok p epoch s : store_ok s → store_ok (seg_create_partition p epoch s).
Proof using Type. intros [H1 H2 H3]. split; [done | done |]. intros q Hq. destruct (H3 q Hq) as (l & e & Hl). exists l, e. by apply create_part. Qed.

(** ** Stopping the server *)

(** What is left of a directory: all that was written, and at the end of the active
    segment, or of one just begun, possibly the start of a batch. *)
Inductive survives (s : SegStore) (p : Z * Z) : Files → Prop :=
  | SurvivesAsIs : survives s p (dir p s)
  | SurvivesWrite k tail mtime (f := default (mk_segfile [] None None mtime) (dir p s !! sl_active_base (slot_at s k))) :
      find_slot stripes p s = Found k → torn crc32c tail →
      survives s p (<[sl_active_base (slot_at s k) := mk_segfile (sf_log f ++ tail) (sf_index f) (sf_time f) mtime]> (dir p s))
  | SurvivesRoll k tail mtime :
      find_slot stripes p s = Found k → 0 < sl_active_bytes (slot_at s k) → torn crc32c tail →
      survives s p (<[sl_next (slot_at s k) := mk_segfile tail None None mtime]> (dir p s)).

(** Shared memory and the memory of the processes are gone. *)
Record restarted (s s' : SegStore) : Prop := mk_restarted {
  rs_slots : ss_slots s' = ∅;
  rs_rings : ss_rings s' = ∅;
  rs_procs : ss_procs s' = ∅;
  rs_dirs : ∀ p, survives s p (dir p s') }.

Lemma logs_of_nil files : logs_of files = [] → files = ∅.
Proof using Type.
  intros H. apply map_empty. intros b. destruct (files !! b) as [f|] eqn:E; [| done].
  assert (Hin : (b, sf_log f) ∈ logs_of files) by (apply logs_of_elem; by exists f). rewrite H in Hin. by apply elem_of_nil in Hin.
Qed.

Lemma index_ok_none log time mtime b xs : index_ok (mk_segfile log None time mtime) b xs.
Proof using Type. by exists []. Qed.

(** The directory a tracked partition leaves behind. *)
Lemma left_behind s p k sealed active files : tracked_as crc32c max_backends s p k sealed active → find_slot stripes p s = Found k → survives s p files →
  let e := sl_next (slot_at s k) in
  (files = ∅ ∧ log_batches sealed active = []) ∨
  (∃ sealed' base active' tail, dir_holds crc32c files sealed' base active' tail e ∧ log_batches sealed' active' = log_batches sealed active).
Proof using Type.
  clear Hbackends. intros [[T1 T2 T3 T4] _ _ Ti _ _] Hf Hsurv. cbn in T1, T2, T3, T4. intros e. set (ab := sl_active_base (slot_at s k)) in *.
  destruct Hsurv as [|k' tail mtime f Hf' Htorn|k' tail mtime Hf' Hbytes Htorn]; try (rewrite Hf in Hf'; injection Hf' as <-).
  - destruct T1 as [T1|[T1 ->]].
    + right. exists sealed, ab, active, []. split; [| done]. split; [by rewrite app_nil_r, T1, segs_of_app | done | done | apply torn_nil | done].
    + destruct sealed as [|[b xs] sealed _] using rev_ind; [left; split; [by apply logs_of_nil | done] |]. right. exists sealed, b, xs, [].
      apply chained_snoc in T2 as (H1 & H2 & H3). cbn in T3. unfold ab in *. rewrite T3 in H3.
      split; [| unfold log_batches; by rewrite batches_of_snoc, app_nil_r]. split; [by rewrite app_nil_r, T1, segs_of_app | done | done | apply torn_nil |].
      intros b' xs' f' Hin E. eapply Ti; [| done]. apply elem_of_app. by left.
  - right. exists sealed, ab, active, tail. split; [| done].
    assert (Hfile : sf_log f = concat active ∧ index_ok f ab active).
    { unfold f. fold ab. destruct (files_hold_open crc32c 0 _ sealed ab active T2 T1) as (f1 & E1 & Hlog & _). unfold open_active in E1.
      destruct (dir p s !! ab) as [f0|] eqn:E.
      - rewrite E in E1. injection E1 as <-. split; [done |]. eapply Ti; [apply elem_of_app; right; by left | done].
      - rewrite lookup_insert_eq in E1. injection E1 as <-. split; [done | apply index_ok_none]. }
    destruct Hfile as [Hlog Hidx]. split; [rewrite (files_hold_put crc32c _ sealed ab active) by done; cbn; by rewrite Hlog | done | done | done |].
    eapply indexes_ok_put; [exact T2 | exact Ti |]. destruct Hidx as (es & H1 & H2 & H3). by exists es.
  - assert (Hne : active ≠ []) by (intros ->; rewrite T4 in Hbytes; change (0 < 0) in Hbytes; lia). destruct T1 as [T1|[_ ?]]; [| done].
    assert (Hlt : ab < e). { destruct active as [|x active]; [done |]. cbn in T3. destruct T3 as (Hw & Hb & Hd). pose proof (last_of_base _ x Hw).
      pose proof (ascending_le _ _ _ _ (dense_ascending _ _ _ _ Hd)). unfold e, ab in *. lia. }
    assert (Hc : chained crc32c (sealed ++ [(ab, active)]) e) by (apply chained_snoc; by split_and!).
    right. exists (sealed ++ [(ab, active)]), e, [], tail. split; [| unfold log_batches; by rewrite batches_of_snoc, app_nil_r].
    split; [| done | done | done |].
    + rewrite (logs_of_put _ e _ (segs_of (sealed ++ [(ab, active)])) []); [done | by rewrite T1, app_nil_r | intros x; by apply (segs_of_below crc32c) | by left].
    + eapply (indexes_ok_put crc32c _ _ _ []); [exact Hc | | apply index_ok_none]. intros b xs f0 Hin E. apply elem_of_app in Hin as [Hin|Hin]; [by eapply Ti |].
      apply list_elem_of_singleton in Hin as [= -> ->]. assert (Hin2 : (e, sf_log f0) ∈ logs_of (dir p s)) by (apply logs_of_elem; by exists f0).
      rewrite T1 in Hin2. pose proof (segs_of_below _ _ _ _ Hc Hin2). cbn in *. lia.
Qed.

Lemma nobody s p : ss_slots s = ∅ → p.1 ≠ 0 → ∃ k, find_slot stripes p s = Free k.
Proof using Type.
  intros Hs Hp. exists (probe_at stripes p 0). unfold find_slot. replace (Z.to_nat SLOTS_PER_SHARD) with (S 255) by done. cbn [probe].
  unfold slot_at. rewrite Hs, lookup_empty. cbn [default from_option id]. replace (holds p slot_default) with false; [done |]. symmetry. unfold holds.
  apply andb_false_intro1, Z.eqb_neq. by cbn.
Qed.

Lemma survives_empty s p files : survives s p files → files = ∅ → dir p s = ∅.
Proof using Type. intros [|? ? ? ? _ _|? ? ? _ _ _] E; [done | exfalso; by apply insert_non_empty in E..]. Qed.
Lemma survives_untracked s p files : survives s p files → (∀ k, find_slot stripes p s ≠ Found k) → files = dir p s.
Proof using Type. intros [|k ? ? ? Hf _|k ? ? Hf _ _] H; [done | by apply H in Hf..]. Qed.

(** A restart loses no batch; an empty directory loses the next offset. *)
Lemma restart_part s s' p l e : p.1 ≠ 0 → restarted s s' → part_ok s p l e →
  part_ok s' p l e ∨ (dir p s = ∅ ∧ l = [] ∧ part_ok s' p [] 0).
Proof using Type.
  intros Hp [R1 R2 R3 R4] Hl. specialize (R4 p). destruct (nobody s' p R1 Hp) as [k' Hn]. unfold SegmentSlots.part_ok. rewrite Hn.
  assert (Hh : ∀ m, pr_hints (process m s') !! p = None) by (intros m; unfold process; by rewrite R3, lookup_empty).
  unfold SegmentSlots.part_ok in Hl. destruct (find_slot stripes p s) as [k|k|] eqn:Ef.
  - destruct Hl as (sealed & active & Ht & -> & ->).
    destruct (left_behind s p k sealed active _ Ht Ef R4) as [(E & Hnil)|(sealed' & base & active' & tail & Hd & Hb)].
    + right. split_and!; [| done | split; [done |]; left; by split_and!]. by apply (survives_empty s p (dir p s')).
    + left. split; [done |]. right. exists sealed', base, active', tail. by split.
  - left. destruct Hl as [_ Hd]. split; [done |]. by rewrite (survives_untracked s p (dir p s') R4) by (intros; by rewrite Ef).
  - left. destruct Hl as [_ Hd]. split; [done |]. by rewrite (survives_untracked s p (dir p s') R4) by (intros; by rewrite Ef).
Qed.

Lemma restart_ok s s' : store_ok s → restarted s s' → store_ok s'.
Proof using Type.
  intros [H1 H2 H3] Hr. pose proof Hr as [R1 R2 R3 _]. split.
  - intros k st E. by rewrite R1, lookup_empty in E.
  - intros k ring E. by rewrite R2, lookup_empty in E.
  - intros p Hp. destruct (H3 p Hp) as (l & e & Hl). destruct (restart_part s s' p l e Hp Hr Hl) as [H|(_ & _ & H)]; by eexists _, _.
Qed.

End Release.
