(* ===== verification/SegmentSpec.v ===== *)
(** * The segment engine: a log

    The contract of the engine is an abstract log per partition, a list of batches
    and the offset of the next one, with one step per request and the answer it got
    ([log_spec]): an acknowledged append is in the log at the offset acknowledged, a
    refused request changes nothing.  Every run of the engine from an empty directory,
    restarts included, is a run of that log ([segment_runs_refine_log]), and reads are
    answered from it.  Runs have no drop of a partition, no compaction, no write that
    fails half way and no segment past the 32 bits of an index entry: SegmentFaults.v has
    what happens there. *)

From stdpp Require Import gmap sorting strings.
From S2P Require Import Prelude Errors Records RecordIter Build Compaction Cleaner PendingRing Pmeta Store Config Table TableSpec Segment SegmentFiles SegmentView SegmentAppend SegmentSlots SegmentRun SegmentReclaim.

(** ** Requests *)

(** What a request finds besides the store: the clock, the settings, whether the next
    write of each file succeeds, and which process runs. *)
Record Env : Type := mk_env {
  en_now : Z;
  en_segment_bytes : Z;
  en_roll_bounds : Z → Z * Z;
  en_log_room : option nat;
  en_index_room : option nat;
  en_time_room : option nat;
  en_archiving : bool;
  en_ongoing : Z → bool;
  en_me : Z }.

Inductive Op : Type :=
  | OpAppend (p : Z * Z) (b : RawBatch)
  | OpPending (p : Z * Z) (b : RawBatch) (reserve_ : bool)
  | OpRelease (p : Z * Z) (base : Z)
  | OpReplicated (p : Z * Z) (bs : bytes) (expected : Z)
  | OpTruncate (p : Z * Z) (offset : Z)
  | OpReclaim (p : Z * Z) (offset : Z)
  | OpRead (p : Z * Z) (offset max_bytes : Z) (iso : IsolationLevel)
  | OpEpoch (p : Z * Z) (epoch : Z)
  | OpCreate (p : Z * Z) (epoch : Z)
  | OpTables (f : Meta → Meta).

(** What a request is answered with, as far as the log is concerned; for a reclaim, the
    log start it works towards. *)
Inductive Answer : Type :=
  | Refused (e : StoreError)
  | Offset (n : Z)
  | Range (base last_ : Z)
  | Reclaimed (start : Z)
  | Done.
Definition offset_or (r : result StoreError Z) : Answer := match r with Ok n => Offset n | Err e => Refused e end.

Definition part_of (op : Op) : option (Z * Z) :=
  match op with
  | OpAppend p _ | OpPending p _ _ | OpRelease p _ | OpReplicated p _ _ | OpTruncate p _ | OpReclaim p _
  | OpRead p _ _ _ | OpEpoch p _ | OpCreate p _ => Some p
  | OpTables _ => None
  end.

Section Spec.

Variable crc32c : bytes → Z.
Variables (stripes : Z) (max_backends : nat).
Hypothesis Hbackends : (0 < max_backends)%nat.

Abbreviation part_ok := (part_ok crc32c stripes max_backends).
Abbreviation store_ok := (store_ok crc32c stripes max_backends).
Abbreviation kept := (kept crc32c stripes max_backends).
Abbreviation reserved := (reserved stripes max_backends).

Definition perform (env : Env) (op : Op) (s : SegStore) : SegStore :=
  let '(mk_env now segment_bytes roll_bounds log_room index_room time_room archiving ongoing me) := env in
  match op with
  | OpAppend p b => (seg_append crc32c now segment_bytes stripes max_backends roll_bounds log_room index_room time_room me p b s).2
  | OpPending p b reserve_ =>
      (append_pending crc32c now segment_bytes stripes max_backends roll_bounds log_room index_room time_room me p b reserve_ s).2
  | OpRelease p base => release_pending stripes max_backends p base s
  | OpReplicated p bs expected =>
      (append_replicated crc32c now segment_bytes stripes max_backends log_room index_room time_room me p bs expected s).2
  | OpTruncate p offset => (truncate_to crc32c now stripes max_backends me p offset s).2
  | OpReclaim p offset => (seg_reclaim archiving me p offset s).2
  | OpRead p offset max_bytes iso => (seg_read crc32c now stripes max_backends ongoing me p offset max_bytes iso s).2
  | OpEpoch p epoch => (seg_set_leader_epoch crc32c now stripes max_backends me p epoch s).2
  | OpCreate p epoch => seg_create_partition p epoch s
  | OpTables f => on_meta f s
  end.

Definition answer (env : Env) (op : Op) (s : SegStore) : Answer :=
  let '(mk_env now segment_bytes roll_bounds log_room index_room time_room archiving ongoing me) := env in
  match op with
  | OpAppend p b => offset_or (seg_append crc32c now segment_bytes stripes max_backends roll_bounds log_room index_room time_room me p b s).1
  | OpPending p b reserve_ =>
      match (append_pending crc32c now segment_bytes stripes max_backends roll_bounds log_room index_room time_room me p b reserve_ s).1 with
      | Ok (base, last_) => Range base last_
      | Err e => Refused e
      end
  | OpReplicated p bs expected =>
      offset_or (append_replicated crc32c now segment_bytes stripes max_backends log_room index_room time_room me p bs expected s).1
  | OpTruncate p offset => offset_or (truncate_to crc32c now stripes max_backends me p offset s).1
  | OpReclaim p offset =>
      match (seg_reclaim archiving me p offset s).1, log_start_offset p (ss_meta s) with
      | Ok _, Ok start => Reclaimed (Z.max offset start)
      | Err e, _ | _, Err e => Refused e
      end
  | _ => Done
  end.

(** Writes that do not fail half way. *)
Definition clean (env : Env) : Prop := clean_room (en_log_room env) ∧ clean_room (en_index_room env).

(** Partitions have a topic; batches say of themselves what their header says; the
    active segment is narrower than its index entries; logs are cut between batches. *)
Definition allowed (env : Env) (op : Op) (s : SegStore) : Prop :=
  (∀ p, part_of op = Some p → p.1 ≠ 0) ∧
  match op with
  | OpAppend p b | OpPending p b _ => raw_consistent b ∧ ready crc32c stripes (en_now env) (en_me env) p s
  | OpReplicated p bs _ => is_i64 (last_of bs) ∧ ready crc32c stripes (en_now env) (en_me env) p s
  | OpTruncate p offset =>
      young crc32c stripes (en_now env) (en_me env) p (plan_forgotten (en_me env) p s) ∧ (∀ l e, part_ok s p l e → boundary offset l)
  | _ => True
  end.

(** A request and its answer, or a stop of the server. *)
Inductive seg_step : option (Op * Answer) → SegStore → SegStore → Prop :=
  | Performed env op s : clean env → allowed env op s → seg_step (Some (op, answer env op s)) s (perform env op s)
  | Restarted s s' : restarted crc32c stripes s s' → seg_step None s s'.

Inductive seg_run : list (option (Op * Answer)) → SegStore → SegStore → Prop :=
  | RunNil s : seg_run [] s s
  | RunSnoc ops op s s' s'' : seg_run ops s s' → seg_step op s' s'' → seg_run (ops ++ [op]) s s''.

(** ** The abstract log *)

(** A log is its batches and the offset of the next. *)
Abbreviation Log := (list bytes * Z)%type.

Definition adds (b : RawBatch) : Log → Log → Prop := λ '(l, e) '(l', e'),
  ∃ view epoch, validated crc32c (rw_bytes b) = Ok view ∧ l' = l ++ [Records.stamp view e epoch] ∧ e' = e + rw_last_offset_delta b + 1.

(** What a request with the given answer does to the log of its partition. *)
Definition log_op (op : Op) (ans : Answer) : Log → Log → Prop := λ '(l, e) '(l', e'),
  match op, ans with
  | OpAppend _ b, Offset base => base = e ∧ adds b (l, e) (l', e')
  | OpPending _ b _, Range base last_ => base = e ∧ last_ = e + rw_last_offset_delta b ∧ adds b (l, e) (l', e')
  | OpReplicated _ bs expected, Offset base =>
      base = e ∧ base_of bs = e ∧ expected = e ∧ l' = l ++ [bs] ∧ e' = last_of bs + 1
  | OpTruncate _ offset, Offset n => n = Z.max 0 (e - offset) ∧ l' = below offset l ∧ e' = Z.min e offset
  | OpReclaim _ offset, Reclaimed start =>
      offset ≤ start ∧ e' = e ∧ ∃ dropped, l = dropped ++ l' ∧ ∀ x, x ∈ dropped → last_of x < start
  | _, _ => (l', e') = (l, e)
  end.

(** What a step does to the log of [q]: what the request is for if it is one for [q],
    else nothing.  A restart may forget the end of a log that has no file. *)
Definition log_spec (q : Z * Z) (ev : option (Op * Answer)) (a a' : Log) : Prop :=
  match ev with
  | Some (op, ans) => if decide (part_of op = Some q) then log_op op ans a a' else a' = a
  | None => a' = a ∨ (a.1 = [] ∧ a' = ([], 0))
  end.

Inductive log_run (q : Z * Z) : list (option (Op * Answer)) → Log → Log → Prop :=
  | LogNil a : log_run q [] a a
  | LogSnoc ops op a a' a'' : log_run q ops a a' → log_spec q op a' a'' → log_run q (ops ++ [op]) a a''.

Definition holds_as (s : SegStore) (q : Z * Z) (a : Log) : Prop := part_ok s q a.1 a.2.

(** A step keeps the store sound and takes every log along. *)
Definition follows (ev : option (Op * Answer)) (s s' : SegStore) : Prop :=
  store_ok s' ∧ ∀ q a, q.1 ≠ 0 → holds_as s q a → ∃ a', holds_as s' q a' ∧ log_spec q ev a a'.

(** Requests that touch no log. *)
Definition looks (op : Op) : Prop :=
  match op with OpRelease _ _ | OpRead _ _ _ _ | OpEpoch _ _ | OpCreate _ _ | OpTables _ => True | _ => False end.

Lemma follows_kept op ans s s' : looks op → store_ok s' → kept s s' → follows (Some (op, ans)) s s'.
Proof using Type.
  intros Hl Hok Hk. split; [done |]. intros q [l e] Hq Ha. exists (l, e). split; [by apply Hk |]. cbn. case_decide; [| done].
  by destruct op, ans.
Qed.

Lemma follows_own op ans p s s' : part_of op = Some p → store_ok s' → others_kept crc32c stripes max_backends p s s' →
  (∀ a, holds_as s p a → ∃ a', holds_as s' p a' ∧ log_op op ans a a') → follows (Some (op, ans)) s s'.
Proof using Type.
  intros Hp Hok Hoth Hown. split; [done |]. intros q a Hq Ha. cbn. destruct (decide (q = p)) as [->|Hne].
  - destruct (Hown a Ha) as (a' & H1 & H2). exists a'. split; [done |]. by rewrite decide_True.
  - exists a. split; [by apply Hoth |]. rewrite decide_False; [done | congruence].
Qed.

Section Steps.

Variables (now segment_bytes : Z) (roll_bounds : Z → Z * Z) (log_room index_room time_room : option nat) (archiving : bool) (ongoing : Z → bool) (me : Z).
Hypothesis Hroom : clean_room log_room.
Hypothesis Hindex : clean_room index_room.
Abbreviation env_ := (mk_env now segment_bytes roll_bounds log_room index_room time_room archiving ongoing me).
Abbreviation does := (perform env_).
Abbreviation says := (answer env_).

Lemma append_follows p b s : store_ok s → p.1 ≠ 0 → raw_consistent b → ready crc32c stripes now me p s → follows (Some (OpAppend p b, says (OpAppend p b) s)) s (does (OpAppend p b) s).
Proof using Hbackends Hroom Hindex.
  intros Hok Hp Hraw Hready. cbn [perform answer]. destruct (seg_append _ _ _ _ _ _ _ _ _ _ p b s) as [r s'] eqn:E.
  destruct (append_exact crc32c stripes max_backends Hbackends now segment_bytes roll_bounds log_room index_room time_room me Hroom Hindex s p b r s' Hok Hp Hraw Hready E)
    as (H1 & H2 & _ & H4). eapply follows_own; [done | done | done |]. intros [l e] Ha. specialize (H4 l e Ha). destruct r as [base|x].
  - destruct H4 as (-> & _ & view & epoch & Hv & _ & H). eexists (_, _). split; [exact H |]. split; [done |]. by exists view, epoch.
  - by exists (l, e).
Qed.

Lemma pending_follows p b reserve_ s : store_ok s → p.1 ≠ 0 → raw_consistent b → ready crc32c stripes now me p s →
  follows (Some (OpPending p b reserve_, says (OpPending p b reserve_) s)) s (does (OpPending p b reserve_) s).
Proof using Hbackends Hroom Hindex.
  intros Hok Hp Hraw Hready. cbn [perform answer]. destruct (append_pending _ _ _ _ _ _ _ _ _ _ p b reserve_ s) as [r s'] eqn:E.
  destruct (pending_exact crc32c stripes max_backends Hbackends now segment_bytes roll_bounds log_room index_room time_room me Hroom Hindex s p b reserve_ r s' Hok Hp Hraw Hready E)
    as (H1 & H2 & _ & H4). eapply follows_own; [done | done | done |]. intros [l e] Ha. specialize (H4 l e Ha). destruct r as [[base last_]|x].
  - destruct H4 as (-> & -> & _ & view & epoch & Hv & _ & H). eexists (_, _). split; [exact H |]. split_and!; [done | done |]. by exists view, epoch.
  - by exists (l, e).
Qed.

Lemma replicated_follows p bs expected s : store_ok s → p.1 ≠ 0 → is_i64 (last_of bs) → ready crc32c stripes now me p s →
  follows (Some (OpReplicated p bs expected, says (OpReplicated p bs expected) s)) s (does (OpReplicated p bs expected) s).
Proof using Hbackends Hroom Hindex.
  intros Hok Hp Hlast Hready. cbn [perform answer]. destruct (append_replicated _ _ _ _ _ _ _ _ _ p bs expected s) as [r s'] eqn:E.
  destruct (replicated_exact crc32c stripes max_backends Hbackends now segment_bytes log_room index_room time_room me Hroom Hindex s p bs expected r s' Hok Hp Hlast Hready E)
    as (H1 & H2 & _ & H4). eapply follows_own; [done | done | done |]. intros [l e] Ha. specialize (H4 l e Ha). destruct r as [base|x].
  - destruct H4 as (-> & He & Hb & H). eexists (_, _). split; [exact H |]. by split_and!.
  - by exists (l, e).
Qed.

Lemma truncate_follows p offset s : store_ok s → p.1 ≠ 0 → young crc32c stripes now me p (plan_forgotten me p s) →
  (∀ l e, part_ok s p l e → boundary offset l) → follows (Some (OpTruncate p offset, says (OpTruncate p offset) s)) s (does (OpTruncate p offset) s).
Proof using Hbackends.
  intros Hok Hp Hyoung Hbd. cbn [perform answer]. destruct (truncate_to _ _ _ _ _ p offset s) as [r s'] eqn:E.
  destruct (truncate_exact crc32c stripes max_backends Hbackends now me s p offset r s' Hok Hp Hyoung Hbd E) as (H1 & H2 & _ & H4).
  eapply follows_own; [done | done | done |]. intros [l e] Ha. specialize (H4 l e Ha). destruct r as [n|x].
  - destruct H4 as (-> & H). eexists (_, _). split; [exact H |]. by split_and!.
  - by exists (l, e).
Qed.

Lemma reclaim_follows p offset s : store_ok s → p.1 ≠ 0 → follows (Some (OpReclaim p offset, says (OpReclaim p offset) s)) s (does (OpReclaim p offset) s).
Proof using Type.
  intros Hok Hp. cbn [perform answer]. destruct (seg_reclaim _ _ p offset s) as [r s'] eqn:E.
  destruct (reclaim_exact crc32c stripes max_backends archiving me s p offset r s' Hok Hp E) as (H1 & H2 & H3).
  eapply follows_own; [done | done | done |]. intros [l e] Ha. destruct r as [n|x].
  - destruct H3 as (start & -> & _ & H). destruct (H l e Ha) as (dropped & l' & -> & Hd & Hl'). exists (l', e). split; [done |].
    split_and!; [apply Z.le_max_l | done | by exists dropped].
  - subst s'. by exists (l, e).
Qed.

(** Requests that only look. *)
Lemma with_slot_fails {A} p (f : ST View StoreError A) s e : slot_for crc32c now stripes me p s = (Err e, s) →
  with_slot crc32c now stripes max_backends me p f s = (Err e, s).
Proof using Type. intros E. unfold with_slot, bind. by rewrite E. Qed.

Lemma slot_for_cases s p : store_ok s → p.1 ≠ 0 → (∃ e, slot_for crc32c now stripes me p s = (Err e, s)) ∨ (∃ k s1, slot_for crc32c now stripes me p s = (Ok k, s1)).
Proof using Hbackends.
  intros Hok Hp. destruct (slot_for crc32c now stripes me p s) as [r s1] eqn:E.
  destruct (slot_for_ok crc32c now stripes max_backends me Hbackends s p r s1 Hok Hp E) as [(e & -> & ->)|(k & -> & _)]; [left; by eexists | right; by exists k, s1].
Qed.

Definition looked (s s' : SegStore) : Prop := store_ok s' ∧ kept s s' ∧ ∀ q, q.1 ≠ 0 → reserved s' q = reserved s q.

Lemma read_looks p offset max_bytes iso s : store_ok s → p.1 ≠ 0 → looked s (does (OpRead p offset max_bytes iso) s).
Proof using Hbackends.
  intros Hok Hp. cbn [perform]. assert (Hrefl : looked s s) by (split_and!; [done | by intros q l e | done]).
  destruct (slot_for_cases s p Hok Hp) as [(x & E)|(k & s1 & E)].
  - unfold seg_read. destruct (log_start_offset p (ss_meta s)); [| done]. unfold bind at 1, seg_high_watermark. by rewrite (with_slot_fails p _ s x E).
  - destruct (so_parts _ _ _ _ Hok p Hp) as (l & e & Hl).
    destruct (seg_read_answer crc32c stripes max_backends Hbackends now me ongoing s p offset max_bytes iso k s1 l e Hok Hp E Hl) as (s' & -> & [->|[]]); [done | by split_and!].
Qed.

Lemma epoch_looks p epoch s : store_ok s → p.1 ≠ 0 → looked s (does (OpEpoch p epoch) s).
Proof using Hbackends.
  intros Hok Hp. cbn [perform]. assert (Hrefl : looked s s) by (split_and!; [done | by intros q l e | done]).
  unfold seg_set_leader_epoch. destruct (leader_epoch p (ss_meta s)) as [current|x]; [| done]. destruct (epoch <=? current); [done |]. unfold bind.
  set (f := λ v : View, _). destruct (with_slot crc32c now stripes max_backends me p f s) as [r s'] eqn:E.
  destruct (with_slot_quiet crc32c stripes max_backends Hbackends now me p f s r s' Hok Hp) as (H1 & H2 & _ & _ & H5 & _); [| done |].
  - intros v r0 v' [= <- <-]. split_and!; [exists (with_epoch epoch); split; [apply epoch_aside | done] | done | done | done].
  - destruct r; [| by split_and!]. cbn. split_and!; [by apply meta_ok | intros q l e Hq Hl; apply meta_part; auto | done].
Qed.

End Steps.

Lemma step_follows op s s' : store_ok s → seg_step op s s' → follows op s s'.
Proof using Hbackends.
  intros Hok Hstep. destruct Hstep as [env o s0 Hclean Hallow|s0 s1 Hr].
  - destruct env as [now segment_bytes roll_bounds log_room index_room time_room archiving ongoing me], Hclean as [Hroom Hindex], Hallow as [Hp Ho]. cbn in Hroom, Hindex, Ho.
    destruct o as [p b|p b rs|p base|p bs expected|p offset|p offset|p offset mb iso|p epoch|p epoch|f]; try (specialize (Hp p eq_refl)).
    + destruct Ho. by apply append_follows.
    + destruct Ho. by apply pending_follows.
    + destruct (release_ok crc32c stripes max_backends s0 p base Hok Hp) as (H1 & H2 & _). by apply follows_kept.
    + destruct Ho. by apply replicated_follows.
    + destruct Ho. by apply truncate_follows.
    + by apply reclaim_follows.
    + destruct (read_looks now segment_bytes roll_bounds log_room index_room time_room archiving ongoing me p offset mb iso s0 Hok Hp) as (H1 & H2 & _). by apply follows_kept.
    + destruct (epoch_looks now segment_bytes roll_bounds log_room index_room time_room archiving ongoing me p epoch s0 Hok Hp) as (H1 & H2 & _). by apply follows_kept.
    + apply follows_kept; [done | by apply seg_create_ok | intros q l e Hq; by apply create_part].
    + apply follows_kept; [done | by apply meta_ok | intros q l e Hq Hl; by apply meta_part].
  - split; [by eapply restart_ok |]. intros q [l e] Hq Ha.
    destruct (restart_part crc32c stripes max_backends s0 s1 q l e Hq Hr Ha) as [H|(_ & -> & H)]; [exists (l, e); split; [done | by left] |].
    exists ([], 0). split; [done | by right].
Qed.

(** ** Runs *)

Definition no_store (d : Meta) : SegStore := mk_seg_store d ∅ ∅ ∅ ∅ ∅.

Lemma no_store_part d p : p.1 ≠ 0 → part_ok (no_store d) p [] 0.
Proof using Type.
  intros Hp. destruct (nobody stripes (no_store d) p eq_refl Hp) as [k Hk]. unfold SegmentSlots.part_ok. rewrite Hk. split; [done | left; by split_and!].
Qed.
Lemma no_store_ok d : store_ok (no_store d).
Proof using Type. split; [by intros k st | by intros k ring |]. intros p Hp. exists [], 0. by apply no_store_part. Qed.

Lemma run_follows d ops s : seg_run ops (no_store d) s → store_ok s ∧ ∀ q, q.1 ≠ 0 → ∃ a, log_run q ops ([], 0) a ∧ holds_as s q a.
Proof using Hbackends.
  intros Hrun. remember (no_store d) as s0 eqn:E0. induction Hrun as [s|ops op s s' s'' Hrun IH Hstep]; subst.
  - split; [apply no_store_ok |]. intros q Hq. exists ([], 0). split; [constructor | by apply no_store_part].
  - destruct (IH eq_refl) as [Hok Hall]. destruct (step_follows op s' s'' Hok Hstep) as [Hok' Hf]. split; [done |]. intros q Hq.
    destruct (Hall q Hq) as (a & Ha & Hh). destruct (Hf q a Hq Hh) as (a' & Hh' & Hs). exists a'. split; [by econstructor | done].
Qed.

(** Batches follow one another up to the next offset. *)
Lemma part_dense s p l e : part_ok s p l e → ∃ b, dense crc32c b l e.
Proof using Type.
  unfold SegmentSlots.part_ok. assert (Hun : untracked_as crc32c s p l e → ∃ b, dense crc32c b l e).
  { intros [_ [(_ & -> & ->)|(sealed & base & active & tail & [_ Hs Ha _ _] & ->)]]; [by exists 0 |]. eexists.
    unfold log_batches. rewrite <- (batches_of_snoc sealed base active). apply linked_dense, linked_snoc. split; [by apply chained_linked | done]. }
  destruct (find_slot stripes p s) as [k|k|]; [| done | done]. intros (sealed & active & [Hl _ _ _ _ _] & -> & ->). eexists. by apply (holds_log_dense _ _ _ _ _ Hl).
Qed.

(** The answer a read gives, in whatever process. *)
Definition reads_as (s : SegStore) (q : Z * Z) (a : Log) : Prop := ∀ env offset max_bytes iso k s1,
  slot_for crc32c (en_now env) stripes (en_me env) q s = (Ok k, s1) →
  (seg_read crc32c (en_now env) stripes max_backends (en_ongoing env) (en_me env) q offset max_bytes iso s).1 =
    read_answer (en_ongoing env) q offset max_bytes iso (ss_meta s) a.1 a.2 (reserved s q).

(** C9. The segment engine is a log per partition.  After any sequence of appends (plain,
    reserved, replicated), truncations between batches, reclaims, releases, reads, epoch
    changes, creations and restarts, from any set of tables and no file, each partition
    has gone through the steps of the abstract log for those requests and the answers
    they got: an acknowledged append put the batch, stamped, behind all others at the
    offset it was acknowledged with, a refused request changed nothing, and no request
    touched another partition.  The batches follow one another without a gap up to the
    next offset, and a read in any process answers from exactly these, whatever its
    hints, its slot and the index files say.  Not among the requests: dropping a
    partition, compaction, writes that fail half way and segments past 32 bits. *)
Theorem segment_runs_refine_log d ops s : seg_run ops (no_store d) s →
  ∀ q, q.1 ≠ 0 → ∃ a, log_run q ops ([], 0) a ∧ (∃ b, dense crc32c b a.1 a.2) ∧ reads_as s q a.
Proof using Hbackends.
  intros Hrun q Hq. destruct (run_follows d ops s Hrun) as [Hok Hall]. destruct (Hall q Hq) as ([l e] & Hlog & Hh). exists (l, e).
  split_and!; [done | by eapply part_dense |]. intros env offset max_bytes iso k s1 Es.
  destruct (seg_read_answer crc32c stripes max_backends Hbackends (en_now env) (en_me env) (en_ongoing env) s q offset max_bytes iso k s1 l e Hok Hq Es Hh) as (s' & -> & _). done.
Qed.

End Spec.

(** ** A sample run: a batch, another in a new segment, and a restart *)

Definition sample_env : Env := mk_env 1000 100 (λ _, (604800000, 0)) None None None false (λ _, false) 7.
Definition sample_does (op : Op) (s : SegStore) : SegStore := perform sum_crc 16 4 sample_env op s.
Definition first_store : SegStore := sample_does (OpCreate (1, 0) 0) (no_store (tb_meta empty_table)).
Definition second_store : SegStore := sample_does (OpAppend (1, 0) sample_raw) first_store.
Definition third_store : SegStore := sample_does (OpAppend (1, 0) sample_raw) second_store.
Definition stopped_store : SegStore := mk_seg_store (ss_meta third_store) (ss_dirs third_store) ∅ ∅ ∅ ∅.
Definition sample_ops : list (option (Op * Answer)) :=
  [Some (OpCreate (1, 0) 0, Done); Some (OpAppend (1, 0) sample_raw, Offset 0); Some (OpAppend (1, 0) sample_raw, Offset 1); None].

Lemma sample_step op ans s : allowed sum_crc 16 4 sample_env op s → answer sum_crc 16 4 sample_env op s = ans →
  seg_step sum_crc 16 4 (Some (op, ans)) s (sample_does op s).
Proof. intros H <-. apply Performed; [by split; left | done]. Qed.

Lemma sample_allowed st s : slot_in sum_crc 16 1000 7 (1, 0) s = Some st → narrow st → is_i64 (sl_next st) → allowed sum_crc 16 4 sample_env (OpAppend (1, 0) sample_raw) s.
Proof. intros E Hn Hi. split; [by intros p [= <-] |]. split; [done |]. unfold ready. cbn. by rewrite E. Qed.

Lemma sample_seg_run : seg_run sum_crc 16 4 sample_ops (no_store (tb_meta empty_table)) stopped_store.
Proof.
  apply (RunSnoc _ _ _ [_; _; _] _ _ third_store); [apply (RunSnoc _ _ _ [_; _] _ _ second_store);
    [apply (RunSnoc _ _ _ [_] _ _ first_store); [apply (RunSnoc _ _ _ [] _ _ (no_store (tb_meta empty_table))); [constructor |] |] |] |].
  - apply sample_step; [split; [by intros p [= <-] | done] | done].
  - apply sample_step; [| vm_compute; reflexivity]. eapply sample_allowed; [vm_compute; reflexivity | split; cbn; lia | split; cbn; lia].
  - apply sample_step; [| vm_compute; reflexivity]. eapply sample_allowed; [vm_compute; reflexivity | split; cbn; lia | split; cbn; lia].
  - apply Restarted. split; [done | done | done |]. intros p. unfold dir, stopped_store. cbn [ss_dirs]. fold (dir p third_store). apply SurvivesAsIs.
Qed.

Lemma segment_runs_refine_log_witness :
  (∃ a, log_run sum_crc (1, 0) sample_ops ([], 0) a ∧ (∃ b, dense sum_crc b a.1 a.2) ∧ reads_as sum_crc 16 4 stopped_store (1, 0) a) ∧
  size (dir (1, 0) stopped_store) = 2%nat.
Proof.
  split; [exact (segment_runs_refine_log sum_crc 16 4 ltac:(lia) (tb_meta empty_table) sample_ops stopped_store sample_seg_run (1, 0) ltac:(done)) | vm_compute; reflexivity].
Defined.
