(* ===== verification/SegmentHold.v ===== *)
(** * The segment engine: reservations hold readers back

    A batch appended with a reservation stays hidden from committed readers until the
    reservation is released, whatever requests of SegmentSpec.v's runs come between.
    Dropping a partition is not one of them: it can uncover the batch (SegmentFaults.v). *)

From stdpp Require Import gmap sorting strings.
From S2P Require Import Prelude Errors Records RecordIter Build Compaction Cleaner PendingRing Pmeta Store Config Table TableSpec Segment SegmentFiles SegmentView SegmentAppend SegmentSlots SegmentRun SegmentReclaim SegmentSpec.

Section Hold.

Variable crc32c : bytes → Z.
Variables (stripes : Z) (max_backends : nat).
Hypothesis Hbackends : (0 < max_backends)%nat.

Abbreviation part_ok := (part_ok crc32c stripes max_backends).
Abbreviation store_ok := (store_ok crc32c stripes max_backends).
Abbreviation reserved := (reserved stripes max_backends).

(** ** Steps and reservations *)

Section Steps.

Variables (now segment_bytes : Z) (roll_bounds : Z → Z * Z) (log_room index_room time_room : option nat) (archiving : bool) (ongoing : Z → bool) (me : Z).
Hypothesis Hroom : clean_room log_room.
Hypothesis Hindex : clean_room index_room.
Abbreviation does := (perform crc32c stripes max_backends (mk_env now segment_bytes roll_bounds log_room index_room time_room archiving ongoing me)).

(** The ring of the view a section runs on, and of the one it leaves. *)
Lemma section_reserved {A} p (f : ST View StoreError A) P s r s' q : store_ok s → p.1 ≠ 0 → q.1 ≠ 0 → ready crc32c stripes now me p s → section crc32c f P →
  with_slot crc32c now stripes max_backends me p f s = (r, s') →
  (reserved s' q = reserved s q ∧ (q ≠ p ∨ ∃ e, r = Err e)) ∨
  (q = p ∧ ∃ v v' added, P r v v' added ∧ reserved s q = PendingRing.bases (sl_pending (v_slot v)) (v_ring v) ∧
    reserved s' q = PendingRing.bases (sl_pending (v_slot v')) (v_ring v')).
Proof using Hbackends.
  intros Hok Hp Hq Hready Hsec E.
  assert (Hrun : ∀ k s1 r v', slot_for crc32c now stripes me p s = (Ok k, s1) → f (view_of max_backends me p k s1) = (r, v') →
    ∃ added, id_of (v_slot v') = id_of (slot_at s1 k) ∧ sl_ring (v_slot v') = sl_ring (slot_at s1 k) ∧ P r (view_of max_backends me p k s1) v' added).
  { intros k s1 r0 v' Es Ef. destruct (slot_for_ok crc32c now stripes max_backends me Hbackends s p _ s1 Hok Hp Es) as [(? & [=] & _)|(k0 & [= <-] & Hok1 & _ & Hf & _)].
    destruct (so_parts _ _ _ _ Hok1 p Hp) as (l & e & Hl).
    destruct (view_of_tracked crc32c stripes max_backends me s1 p k l e Hl Hf) as (sealed & active & _ & _ & _ & Hlog & Hring & _).
    unfold ready, slot_in in Hready. rewrite Es in Hready. destruct Hready as [Hn Hi].
    destruct (Hsec _ sealed active r0 v' Hlog Hring Hn Hi Ef) as (sealed' & active' & added & [] & _ & HP). exists added. split_and!; [| done | done].
    unfold id_of. cbn in *. congruence. }
  destruct (with_slot_reserved crc32c stripes max_backends Hbackends now me p f s r s' q Hok Hp Hq E) as [[? ?]|(-> & k & s1 & v' & Es & Ef & H1 & H2)].
  - intros k s1 v' Es Ef. destruct (Hrun k s1 r v' Es Ef) as (_ & ? & ? & _). by split.
  - by left.
  - right. split; [done |]. destruct (Hrun k s1 r v' Es Ef) as (added & _ & _ & HP). by exists (view_of max_backends me p k s1), v', added.
Qed.

Lemma same_ring_bases v v' : same_ring v v' → PendingRing.bases (sl_pending (v_slot v')) (v_ring v') = PendingRing.bases (sl_pending (v_slot v)) (v_ring v).
Proof using Type. by intros [-> ->]. Qed.

Lemma append_reserved p b s q : store_ok s → p.1 ≠ 0 → q.1 ≠ 0 → raw_consistent b → ready crc32c stripes now me p s →
  reserved (does (OpAppend p b) s) q = reserved s q.
Proof using Hbackends Hroom Hindex.
  intros Hok Hp Hq Hraw Hready. cbn [perform]. unfold seg_append. destruct (leader_epoch p (ss_meta s)) as [seed|]; [| done].
  destruct (with_slot _ _ _ _ _ p _ s) as [r s'] eqn:E. 
  destruct (section_reserved p _ _ s r s' q Hok Hp Hq Hready
    (append_is_section crc32c now segment_bytes roll_bounds log_room index_room time_room Hroom Hindex p.1 seed b Hraw) E)
    as [[? _]|(-> & v & v' & added & (_ & Hs & _) & -> & H)]; [done |]. cbn. by rewrite H, (same_ring_bases v v' Hs).
Qed.

Lemma replicated_reserved p bs expected s q : store_ok s → p.1 ≠ 0 → q.1 ≠ 0 → is_i64 (last_of bs) → ready crc32c stripes now me p s →
  reserved (does (OpReplicated p bs expected) s) q = reserved s q.
Proof using Hbackends Hroom Hindex.
  intros Hok Hp Hq Hlast Hready. cbn [perform]. unfold append_replicated. destruct (validated crc32c bs) as [b|] eqn:Eb; [| done].
  destruct (with_slot _ _ _ _ _ p _ s) as [r s'] eqn:E.
  destruct (section_reserved p _ _ s r s' q Hok Hp Hq Hready
    (replicate_is_section crc32c now segment_bytes log_room index_room time_room Hroom Hindex bs b expected Eb Hlast) E)
    as [[? _]|(-> & v & v' & added & (Hs & _) & -> & H)]; [done |]. cbn. by rewrite H, (same_ring_bases v v' Hs).
Qed.

(** A reservation joins the others; an append without one leaves them alone. *)
Lemma pending_reserved p b reserve_ s r s' q : store_ok s → p.1 ≠ 0 → q.1 ≠ 0 → raw_consistent b → ready crc32c stripes now me p s →
  append_pending crc32c now segment_bytes stripes max_backends roll_bounds log_room index_room time_room me p b reserve_ s = (r, s') →
  reserved s' q = reserved s q ∧ (q = p → reserve_ = true → ∃ e, r = Err e) ∨
  (q = p ∧ ∃ base last_, r = Ok (base, last_) ∧ reserved s' q ≡ₚ base :: reserved s q).
Proof using Hbackends Hroom Hindex.
  intros Hok Hp Hq Hraw Hready. unfold append_pending. destruct (leader_epoch p (ss_meta s)) as [seed|]; [| intros [= <- <-]; left; split; [done | by eexists]].
  intros E. destruct (section_reserved p _ _ s r s' q Hok Hp Hq Hready
    (pending_is_section crc32c now segment_bytes roll_bounds log_room index_room time_room Hroom Hindex p.1 seed b reserve_ Hraw) E)
    as [[? Hc]|(-> & v & v' & added & (_ & [[(Herr & _) Hs]|[(view & -> & _) Hs]]) & -> & ->)].
  - left. split; [done |]. intros Hqp. by destruct Hc.
  - left. split; [by apply same_ring_bases | done].
  - destruct reserve_; [right | left; split; [by apply same_ring_bases | done]]. split; [done |]. by eexists _, _.
Qed.

Lemma truncate_reserved p offset s q : store_ok s → p.1 ≠ 0 → q.1 ≠ 0 → young crc32c stripes now me p (plan_forgotten me p s) →
  (∀ l e, part_ok s p l e → boundary offset l) → reserved (does (OpTruncate p offset) s) q = reserved s q.
Proof using Hbackends.
  intros Hok Hp Hq Hyoung Hbd. cbn [perform]. unfold truncate_to, bind. fold (plan_forgotten me p s). set (s0 := plan_forgotten me p s) in *.
  assert (Hok0 : store_ok s0) by by apply plan_forgotten_ok. change (reserved s q) with (reserved s0 q).
  set (f := truncate_section _ _ _). destruct (with_slot _ _ _ _ _ p f s0) as [r s'] eqn:E. cbn [snd].
  assert (Hrun : ∀ k s1 r v', slot_for crc32c now stripes me p s0 = (Ok k, s1) → f (view_of max_backends me p k s1) = (r, v') →
    id_of (v_slot v') = id_of (slot_at s1 k) ∧ sl_ring (v_slot v') = sl_ring (slot_at s1 k) ∧
    PendingRing.bases (sl_pending (v_slot v')) (v_ring v') = PendingRing.bases (sl_pending (slot_at s1 k)) (v_ring (view_of max_backends me p k s1))).
  { intros k s1 r0 v' Es Ef. destruct (slot_for_ok crc32c now stripes max_backends me Hbackends s0 p _ s1 Hok0 Hp Es) as [(? & [=] & _)|(k0 & [= <-] & Hok1 & Hk & Hf & _ & _ & Hb & _)].
    destruct (so_parts _ _ _ _ Hok p Hp) as (l & e & Hl). assert (Hl1 : part_ok s1 p l e) by (apply Hk; [done | by apply plan_forgotten_part]).
    destruct (view_of_tracked crc32c stripes max_backends me s1 p k l e Hl1 Hf) as (sealed & active & _ & -> & _ & Hlog & _ & _).
    unfold f in Ef. rewrite <- Hb in Ef. destruct (truncate_section_cuts crc32c now offset _ sealed active r0 v' Hlog (Hbd _ _ Hl) Ef) as [(_ & _ & ->)|(_ & _ & se' & ac' & [T1 T2 T3 T4 _ _ _ _ _])]; [done |].
    cbn in *. rewrite T2, T3, T4. split_and!; [| done | done]. unfold id_of. congruence. }
  assert (Hres : reserved s' q = reserved s0 q).
  { destruct (with_slot_reserved crc32c stripes max_backends Hbackends now me p f s0 r s' q Hok0 Hp Hq E) as [[? _]|(-> & k & s1 & v' & Es & Ef & -> & ->)]; [| done |].
    - intros k s1 v' Es Ef. destruct (Hrun k s1 r v' Es Ef) as (? & ? & _). by split.
    - by destruct (Hrun k s1 r v' Es Ef) as (_ & _ & ->). }
  by destruct r.
Qed.

Lemma reclaim_reserved p offset s q : reserved (does (OpReclaim p offset) s) q = reserved s q.
Proof using Type. cbn [perform]. unfold seg_reclaim. by destruct (log_start_offset p (ss_meta s)). Qed.

End Steps.

(** A reservation goes only with its release, or with the server. *)
Lemma step_reserved op s s' q base : store_ok s → seg_step crc32c stripes max_backends op s s' → q.1 ≠ 0 →
  op ≠ None → (∀ ans, op ≠ Some (OpRelease q base, ans)) → base ∈ reserved s q → base ∈ reserved s' q.
Proof using Hbackends.
  intros Hok Hstep Hq Hnone Hrel Hin. destruct Hstep as [env o s0 Hclean Hallow|s0 s1 Hr]; [| done].
  destruct env as [now segment_bytes roll_bounds log_room index_room time_room archiving ongoing me], Hclean as [Hroom Hindex], Hallow as [Hp Ho]. cbn in Hroom, Hindex, Ho.
  destruct o as [p b|p b rs|p b|p bs expected|p offset|p offset|p offset mb iso|p epoch|p epoch|f]; try (specialize (Hp p eq_refl)).
  - destruct Ho. by rewrite append_reserved.
  - destruct Ho. cbn [perform]. destruct (append_pending _ _ _ _ _ _ _ _ _ _ p b rs s0) as [r s'] eqn:E. cbn [snd].
    destruct (pending_reserved now segment_bytes roll_bounds log_room index_room time_room me Hroom Hindex p b rs s0 r s' q) as [[-> _]|(-> & b0 & l0 & _ & H1)]; try done.
    rewrite H1. by right.
  - destruct (release_ok crc32c stripes max_backends s0 p b Hok Hp) as (_ & _ & _ & H). specialize (H q Hq). cbn [perform]. case_decide as Ec; [| by rewrite H].
    destruct Ec as [-> Hb]. rewrite H in Hin. apply elem_of_cons in Hin as [->|Hin]; [by destruct (Hrel Done) | done].
  - destruct Ho. by rewrite replicated_reserved.
  - destruct Ho. by rewrite truncate_reserved.
  - by rewrite reclaim_reserved.
  - destruct (read_looks crc32c stripes max_backends Hbackends now segment_bytes roll_bounds log_room index_room time_room archiving ongoing me p offset mb iso s0 Hok Hp) as (_ & _ & H). by rewrite H.
  - destruct (epoch_looks crc32c stripes max_backends Hbackends now segment_bytes roll_bounds log_room index_room time_room archiving ongoing me p epoch s0 Hok Hp) as (_ & _ & H). by rewrite H.
  - done.
  - done.
Qed.

(** Nothing of [ops] stops the server or releases the reservation. *)
Definition holding (p : Z * Z) (base : Z) (ops : list (option (Op * Answer))) : Prop :=
  Forall (λ ev, ev ≠ None ∧ ∀ ans, ev ≠ Some (OpRelease p base, ans)) ops.

Lemma seg_run_ok ops s s' : store_ok s → seg_run crc32c stripes max_backends ops s s' → store_ok s'.
Proof using Hbackends. intros Hok Hrun. induction Hrun as [|ops op s s' s'' _ IH Hstep]; [done |]. by destruct (step_follows crc32c stripes max_backends Hbackends op s' s'' (IH Hok) Hstep). Qed.

Lemma run_reserved ops s s' p base : store_ok s → seg_run crc32c stripes max_backends ops s s' → p.1 ≠ 0 → holding p base ops →
  base ∈ reserved s p → base ∈ reserved s' p.
Proof using Hbackends.
  intros Hok Hrun Hp Hops Hin. induction Hrun as [|ops op s s' s'' Hrun IH Hstep]; [done |]. apply Forall_app in Hops as [Hops [[H1 H2] _]%Forall_cons].
  eapply step_reserved; [by eapply seg_run_ok | done | done | done | done | by apply IH].
Qed.

(** ** What committed readers see *)

(** A slice of batches below an offset. *)
Definition hidden_from (base : Z) (slice : FetchSlice) : Prop :=
  fs_last_stable slice ≤ base ∧ ∃ xs, fs_bytes slice = concat xs ∧ Forall (λ x, base_of x < base) xs.

Lemma pick_below offset max_bytes ceiling committed l r :
  ∃ xs, rd_out (pick offset max_bytes ceiling committed l r).2 = rd_out r ++ concat xs ∧ Forall (λ x, base_of x < ceiling) xs.
Proof using Type.
  clear Hbackends. revert r. induction l as [|x l IH]; intros r; cbn [pick]; [exists []; by rewrite app_nil_r |].
  destruct (last_of x <? offset); [apply IH |]. destruct (Z.leb_spec ceiling (base_of x)) as [|Hlt]; [exists []; by rewrite app_nil_r |].
  destruct (_ && _); [exists []; by rewrite app_nil_r |]. destruct (_ <=? _).
  - exists [x]. cbn. rewrite app_nil_r. split; [done | by repeat constructor].
  - match goal with |- context [pick _ _ _ _ _ ?r'] => destruct (IH r') as (xs & -> & Hxs) end. exists (x :: xs). cbn. rewrite <- app_assoc. split; [done | by constructor].
Qed.

Lemma read_answer_hidden ongoing p offset max_bytes d l e rs slice base : base ∈ rs →
  read_answer ongoing p offset max_bytes ReadCommitted d l e rs = Ok slice → hidden_from base slice.
Proof using Type.
  clear Hbackends. intros Hin. unfold read_answer. destruct (log_start_offset p d) as [start|]; [| done]. cbn zeta.
  assert (Hlso : stable ongoing p d (floor_over rs e) ≤ base).
  { pose proof (floor_over_le rs e base Hin). unfold stable. repeat case_match; lia. }
  set (lso := stable _ _ _ _) in *. destruct (_ || _); [done |]. destruct (Z.ltb_spec offset lso) as [Hlt|_].
  - pose proof (markers_ceiling p offset lso d Hlt) as Hc. destruct (committed_markers p offset lso d) as [set_ capped]. cbn in Hc. intros [= <-].
    split; [done |]. cbn. match goal with |- context [pick ?o ?m ?c ?k l ?r] => destruct (pick_below o m c k l r) as (xs & -> & Hxs) end. exists xs.
    split; [done |]. eapply Forall_impl; [exact Hxs |]. cbn. lia.
  - intros [= <-]. split; [done |]. exists []. by split.
Qed.

Definition pend (env : Env) (p : Z * Z) (b : RawBatch) : ST SegStore StoreError (Z * Z) :=
  append_pending crc32c (en_now env) (en_segment_bytes env) stripes max_backends (en_roll_bounds env) (en_log_room env) (en_index_room env)
    (en_time_room env) (en_me env) p b true.
Definition read_committed (env : Env) (p : Z * Z) (offset max_bytes : Z) : ST SegStore StoreError FetchSlice :=
  seg_read crc32c (en_now env) stripes max_backends (en_ongoing env) (en_me env) p offset max_bytes ReadCommitted.


End Hold.

(** A batch held back, and another behind it. *)
Definition held_store : SegStore := (pend sum_crc 16 4 sample_env (1, 0) sample_raw second_store).2.
Definition beyond_store : SegStore := sample_does (OpAppend (1, 0) sample_raw) held_store.

Lemma second_run : seg_run sum_crc 16 4 [Some (OpCreate (1, 0) 0, Done); Some (OpAppend (1, 0) sample_raw, Offset 0)] (no_store (tb_meta empty_table)) second_store.
Proof.
  apply (RunSnoc _ _ _ [_] _ _ first_store); [apply (RunSnoc _ _ _ [] _ _ (no_store (tb_meta empty_table))); [constructor |] |].
  - apply sample_step; [split; [by intros p [= <-] | done] | done].
  - apply sample_step; [| vm_compute; reflexivity]. eapply sample_allowed; [vm_compute; reflexivity | split; cbn; lia | split; cbn; lia].
Qed.
Lemma beyond_run : seg_run sum_crc 16 4 [Some (OpAppend (1, 0) sample_raw, Offset 2)] held_store beyond_store.
Proof.
  apply (RunSnoc _ _ _ [] _ _ held_store); [constructor |]. apply sample_step; [| vm_compute; reflexivity].
  eapply sample_allowed; [vm_compute; reflexivity | split; cbn; lia | split; cbn; lia].
Qed.

Lemma sample_ready st s : slot_in sum_crc 16 1000 7 (1, 0) s = Some st → narrow st → is_i64 (sl_next st) → ready sum_crc 16 (en_now sample_env) (en_me sample_env) (1, 0) s.
Proof. intros E Hn Hi. unfold ready. cbn. by rewrite E. Qed.
Lemma held_ready : ready sum_crc 16 (en_now sample_env) (en_me sample_env) (1, 0) second_store.
Proof. eapply sample_ready; [vm_compute; reflexivity | split; cbn; lia | split; cbn; lia]. Qed.
Lemma held_pend : pend sum_crc 16 4 sample_env (1, 0) sample_raw second_store = (Ok (1, 1), held_store).
Proof.
  assert (E : (pend sum_crc 16 4 sample_env (1, 0) sample_raw second_store).1 = Ok (1, 1)) by (vm_compute; reflexivity).
  unfold held_store. rewrite <- E. by destruct (pend _ _ _ _ _ _ second_store).
Qed.
Lemma held_holding : holding (1, 0) 1 [Some (OpAppend (1, 0) sample_raw, Offset 2)].
Proof. constructor; [by split | constructor]. Qed.

