(* ===== verification/SegmentEngines.v ===== *)
(** * The two engines answer alike

    Partitions of both engines that were created and appended to alike hold the same
    batches ([alike]), and both engines answer every read of them alike, up to the rows
    the table engine looks at in one read. *)

From stdpp Require Import gmap sorting strings.
From S2P Require Import Prelude Errors Records RecordIter Build Compaction Cleaner PendingRing Pmeta Store Config Table TableSpec TableRead Segment SegmentFiles SegmentView SegmentAppend SegmentSlots SegmentRun SegmentReclaim SegmentSpec SegmentHold.

Section Engines.

Variable crc32c : bytes → Z.
Variables (stripes : Z) (max_backends : nat) (size : Z).
Hypothesis Hbackends : (0 < max_backends)%nat.
Hypothesis Hsize : 0 < size.

Abbreviation part_ok := (part_ok crc32c stripes max_backends).
Abbreviation store_ok := (store_ok crc32c stripes max_backends).
Abbreviation reserved := (reserved stripes max_backends).

(** Not a batch of [kafgres_produce()] in a transaction: these have markers, which
    only the segment engine keeps. *)
Definition plain (bs : bytes) : bool := negb (orphan (Some []) bs).

(** ** Appending to both *)

Inductive filled_alike (p : Z * Z) : Table → SegStore → Prop :=
  | AlikeNew epoch : filled_alike p (table_create_partition size p epoch empty_table) (seg_create_partition p epoch (no_store (tb_meta empty_table)))
  | AlikeAppend t s env now b base s' : filled_alike p t s → clean env → raw_consistent b → plain (rw_bytes b) = true →
      ready crc32c stripes (en_now env) (en_me env) p s →
      seg_append crc32c (en_now env) (en_segment_bytes env) stripes max_backends (en_roll_bounds env) (en_log_room env) (en_index_room env)
        (en_time_room env) (en_me env) p b s = (Ok base, s') →
      filled_alike p (table_append crc32c size now p b t).2 s'.

Record alike (p : Z * Z) (t : Table) (s : SegStore) (part : TPart) (l : list bytes) : Prop := mk_alike {
  ak_table : table_ok size t;
  ak_part : tb_parts t !! p = Some part;
  ak_store : store_ok s;
  ak_log : part_ok s p l (tp_next part);
  ak_rows : Forall2 row_like (in_order (tp_rows part)) l;
  ak_meta : tb_meta t = ss_meta s;
  ak_markers : marker_set p (ss_meta s) = ∅;
  ak_reserved : reserved s p = [];
  ak_plain : Forall (λ x, plain x = true) l }.

Lemma table_appends_at now t p part b view epoch : tb_parts t !! p = Some part → leader_epoch p (tb_meta t) = Ok epoch → validated crc32c (rw_bytes b) = Ok view →
  ∃ part', table_append crc32c size now p b t = (Ok (tp_next part), set_part p part' t) ∧ tp_next part' = tp_next part + rw_last_offset_delta b + 1 ∧
    tp_rows part' = <[tp_next part := mk_logrow (tp_next part + rw_last_offset_delta b) (Records.stamp view (tp_next part) epoch) now (rw_max_timestamp b) b]> (tp_rows part).
Proof using Type.
  intros Hp He Hv. unfold table_append. rewrite Hp, He, Hv. eexists. split; [done |]. split; [done |]. cbn [tp_rows insert_row].
  f_equal. destruct (ensure_rows size (tp_next part) part) as [H1 _]. case_match; [done |].
  by destruct (ensure_rows size (tp_next part + rw_last_offset_delta b) (ensure_segment size (tp_next part) part)) as [-> _].
Qed.

(** Stamping keeps what makes a batch plain. *)
Lemma stamp_plain bs b off ep : validated crc32c bs = Ok b → plain (Records.stamp b off ep) = plain bs.
Proof using Type.
  clear Hbackends Hsize. intros Hv. apply validated_ok in Hv as [Hn _]. apply batch_new_ok in Hn as (-> & Hl & _).
  assert (Hread : ∀ o n, (16 ≤ o ≤ length bs)%nat → read_i o n (Records.stamp (mk_batch bs) off ep) = read_i o n bs).
  { intros o n Ho. unfold read_i, read_u. by rewrite (stamp_slice (mk_batch bs) off ep Hl o n Ho). }
  pose proof (stamp_length (mk_batch bs) off ep Hl) as Hs. revert Hread Hs. generalize (Records.stamp (mk_batch bs) off ep). intros x Hread Hs. cbn in Hs.
  unfold plain, orphan, is_transactional, is_control, attributes, is_marker_backed. cbn [rb_bytes]. unfold RECORD_BATCH_OVERHEAD in Hl.
  by rewrite Hs, !Hread by off_lia.
Qed.

Lemma new_alike p epoch : p.1 ≠ 0 →
  alike p (table_create_partition size p epoch empty_table) (seg_create_partition p epoch (no_store (tb_meta empty_table))) (ensure_segment size 0 (mk_tpart 0 ∅ ∅)) [].
Proof using Hsize.
  intros Hp. destruct (ensure_rows size 0 (mk_tpart 0 ∅ ∅)) as [Hr Hn]. split.
  - by apply table_create_ok; [| apply empty_table_ok |].
  - unfold table_create_partition. cbn. by rewrite lookup_insert_eq.
  - apply seg_create_ok, no_store_ok.
  - rewrite Hn. apply create_part. by apply no_store_part.
  - rewrite Hr. constructor.
  - done.
  - unfold marker_set, seg_create_partition, create_partition. cbn. by case_match.
  - unfold SegmentRun.reserved. by destruct (nobody stripes (seg_create_partition p epoch (no_store (tb_meta empty_table))) p eq_refl Hp) as [k ->].
  - constructor.
Qed.

Lemma append_alike p t s part l env now b base s' : p.1 ≠ 0 → alike p t s part l → clean env → raw_consistent b → plain (rw_bytes b) = true →
  ready crc32c stripes (en_now env) (en_me env) p s →
  seg_append crc32c (en_now env) (en_segment_bytes env) stripes max_backends (en_roll_bounds env) (en_log_room env) (en_index_room env)
    (en_time_room env) (en_me env) p b s = (Ok base, s') →
  ∃ part' x, (table_append crc32c size now p b t).1 = Ok base ∧ alike p (table_append crc32c size now p b t).2 s' part' (l ++ [x]).
Proof using Hbackends Hsize.
  intros Hp [A1 A2 A3 A4 A5 A6 A7 A8 A9] [Hroom Hindex] Hraw Hplain Hready E.
  destruct (append_exact crc32c stripes max_backends Hbackends _ _ _ _ _ _ _ Hroom Hindex s p b _ s' A3 Hp Hraw Hready E) as (B1 & _ & B3 & B4).
  destruct (B4 l _ A4) as (-> & Hi & view & epoch & Hv & He & Hl').
  destruct (table_appends_at now t p part b view epoch A2) as (part' & Et & Hn & Hr); [by rewrite A6 | done |].
  destruct (stamped_whole crc32c _ _ (tp_next part) epoch Hv) as (Hw & Hb & Hd & Hd0). pose proof (stamp_plain _ _ (tp_next part) epoch Hv) as Hsp.
  rewrite Et. exists part', (Records.stamp view (tp_next part) epoch). revert Hl' Hw Hb Hd Hr Hsp. generalize (Records.stamp view (tp_next part) epoch).
  intros x Hl' Hw Hb Hd Hr Hsp. rewrite wrap_i_small in Hb by (unfold is_i64 in Hi; lia). split; [done |].
  assert (Hdelta : last_offset_delta view = rw_last_offset_delta b).
  { apply validated_ok in Hv as [Hnew _]. apply batch_new_ok in Hnew as (-> & _). by rewrite Hraw. }
  split; cbn [snd set_part tb_meta tb_parts].
  - replace (set_part p part' t) with (table_append crc32c size now p b t).2 by (by rewrite Et). by eapply (append_ok crc32c size now Hsize); [| | rewrite Et].
  - apply lookup_insert_eq.
  - done.
  - by rewrite Hn.
  - rewrite Hr, in_order_insert_last.
    + apply Forall2_app; [done |]. constructor; [| constructor]. split_and!; [done | cbn; unfold last_of; rewrite Hb, Hd, Hdelta; done | done].
    + intros b' r' Hb'. pose proof (ro_range _ _ (to_rows _ _ (tk_part _ _ A1 p part A2)) b' r' Hb'). clear Hbackends. lia.
  - by rewrite B3.
  - by rewrite B3.
  - pose proof (append_reserved crc32c stripes max_backends Hbackends (en_now env) (en_segment_bytes env) (en_roll_bounds env) (en_log_room env) (en_index_room env) (en_time_room env)
      false (λ _, false) (en_me env) Hroom Hindex p b s p A3 Hp Hp Hraw Hready) as H. cbn [perform] in H. rewrite E in H. cbn in H. by rewrite H.
  - apply Forall_app. split; [done |]. constructor; [by rewrite Hsp | constructor].
Qed.

Lemma filled_are_alike p t s : p.1 ≠ 0 → filled_alike p t s → ∃ part l, alike p t s part l.
Proof using Hbackends Hsize.
  intros Hp. induction 1 as [epoch|t s env now b base s' _ (part & l & IH) Hc Hraw Hpl Hready E]; [by eexists _, _; apply new_alike |].
  destruct (append_alike p t s part l env now b base s' Hp IH Hc Hraw Hpl Hready E) as (part' & x & _ & H). by eexists _, _.
Qed.

(** ** Reading from both *)

Lemma pick_plain offset max_bytes ceiling l r : Forall (λ x, plain x = true) l → rd_aborted (pick offset max_bytes ceiling (Some []) l r).2 = rd_aborted r.
Proof using Type.
  intros Hl. revert r. induction Hl as [|x l Hx Hl IH]; intros r; cbn [pick]; [done |]. destruct (last_of x <? offset); [apply IH |]. destruct (ceiling <=? base_of x); [done |].
  unfold plain in Hx. apply negb_true_iff in Hx. rewrite Hx. destruct (_ && _); [done |]. destruct (_ <=? _); [done |]. by rewrite IH.
Qed.
Lemma pick_uncommitted offset max_bytes ceiling l r : rd_aborted (pick offset max_bytes ceiling None l r).2 = rd_aborted r.
Proof using Type.
  revert r. induction l as [|x l IH]; intros r; cbn [pick]; [done |]. destruct (last_of x <? offset); [apply IH |]. destruct (ceiling <=? base_of x); [done |].
  cbn [orphan]. destruct (_ && _); [done |]. destruct (_ <=? _); [done |]. by rewrite IH.
Qed.

Lemma no_markers p from to d : marker_set p d = ∅ → committed_markers p from to d = ([], to).
Proof using Type. intros H. unfold committed_markers. by rewrite H, elements_empty. Qed.

Lemma stable_alike ongoing p e t : stable ongoing p (tb_meta t) (floor_over [] e) = stable_bound ongoing p e t.
Proof using Type. clear Hbackends Hsize. unfold stable, stable_bound. cbn. repeat case_match; lia. Qed.

Lemma read_alike ongoing p t s part l offset max_bytes iso : alike p t s part l → (length l ≤ ROWS_PER_READ)%nat →
  read_answer ongoing p offset max_bytes iso (ss_meta s) l (tp_next part) (reserved s p) = table_read ongoing p offset max_bytes iso t.
Proof using Type.
  intros [A1 A2 A3 A4 A5 A6 A7 A8 A9] Hlen. destruct (part_dense crc32c stripes max_backends s p l _ A4) as [b Hd]. apply dense_ascending in Hd.
  unfold read_answer, table_read, table_high_watermark. rewrite A2, A8, <- A6, stable_alike. cbn [rbind]. destruct (log_start_offset p (tb_meta t)) as [start|x]; [| done].
  cbn [rbind]. set (lso := stable_bound _ _ _ _). destruct ((offset <? start) || (tp_next part <? offset)); [done |].
  set (ceiling := match iso with ReadCommitted => lso | ReadUncommitted => tp_next part end). destruct (Z.ltb_spec offset ceiling) as [Hlt|]; [| done].
  rewrite (select_rows_visible (tp_next part) (tp_rows part) (to_rows _ _ (tk_part _ _ A1 p part A2))).
  assert (Htake : take ROWS_PER_READ (visible offset ceiling (tp_rows part)) = filter (in_range offset ceiling) (in_order (tp_rows part))).
  { rewrite take_ge; [done |]. unfold visible. etransitivity; [apply length_filter |]. by rewrite (Forall2_length _ _ _ A5). }
  rewrite Htake. pose proof (pick_fill crc32c offset max_bytes ceiling) as Hfill.
  destruct iso.
  - specialize (Hfill None b l _ _ (mk_read [] offset []) Hd Hlt A5). cbn in Hfill. rewrite <- Hfill. by rewrite pick_uncommitted.
  - rewrite A6, no_markers by done. specialize (Hfill (Some []) b l _ _ (mk_read [] offset []) Hd Hlt A5). cbn in Hfill. rewrite <- Hfill. by rewrite pick_plain.
Qed.

(** C14. The two storage engines answer alike where both are asked for the same.  A store
    of each engine with one partition, created and given the same batches in the same
    order by appends the segment engine accepted, none of them a batch of
    [kafgres_produce()] in a transaction (only the segment engine keeps markers for
    these), and at most [ROWS_PER_READ] (1000) of them: every read of the partition, of
    any offset, size and isolation, in a process that gets a slot, is answered by both
    with the same bytes, offsets, aborted transactions or error.  Beyond that many rows
    the table engine may return fewer batches than the segment engine. *)
Theorem engines_read_alike p t s env ongoing offset max_bytes iso k s1 :
  p.1 ≠ 0 → filled_alike p t s → (length (rows_of_part p t) ≤ ROWS_PER_READ)%nat →
  slot_for crc32c (en_now env) stripes (en_me env) p s = (Ok k, s1) →
  (seg_read crc32c (en_now env) stripes max_backends ongoing (en_me env) p offset max_bytes iso s).1 = table_read ongoing p offset max_bytes iso t.
Proof using Hbackends Hsize.
  intros Hp Hf Hlen Es. destruct (filled_are_alike p t s Hp Hf) as (part & l & Ha). pose proof Ha as [A1 A2 A3 A4 A5 A6 A7 A8 A9].
  destruct (seg_read_answer crc32c stripes max_backends Hbackends (en_now env) (en_me env) ongoing s p offset max_bytes iso k s1 l _ A3 Hp Es A4) as (s' & -> & _).
  cbn [fst]. apply read_alike; [done |]. unfold rows_of_part in Hlen. rewrite A2 in Hlen. by rewrite <- (Forall2_length _ _ _ A5).
Qed.

End Engines.

(** The sample partition, in both engines. *)
Definition twin_append (t : Table) : Table := (table_append sum_crc 2 100 (1, 0) sample_raw t).2.
Definition twin_table : Table := twin_append (twin_append (table_create_partition 2 (1, 0) 0 empty_table)).
Definition accepts (s : SegStore) : result StoreError Z * SegStore :=
  seg_append sum_crc (en_now sample_env) (en_segment_bytes sample_env) 16 4 (en_roll_bounds sample_env) (en_log_room sample_env)
    (en_index_room sample_env) (en_time_room sample_env) (en_me sample_env) (1, 0) sample_raw s.

Lemma twin_step t s base st : filled_alike sum_crc 16 4 2 (1, 0) t s → (accepts s).1 = Ok base → slot_in sum_crc 16 1000 7 (1, 0) s = Some st →
  narrow st → is_i64 (sl_next st) → filled_alike sum_crc 16 4 2 (1, 0) (twin_append t) (accepts s).2.
Proof.
  intros Ha E Est Hn Hi. eapply (AlikeAppend _ _ _ _ _ t s sample_env 100 sample_raw base); [exact Ha | by split; left | done | by vm_compute | by eapply sample_ready |].
  fold (accepts s). rewrite <- E. by destruct (accepts s).
Qed.

Lemma twins : filled_alike sum_crc 16 4 2 (1, 0) twin_table third_store.
Proof.
  change third_store with (accepts second_store).2. eapply twin_step; [| vm_compute; reflexivity | vm_compute; reflexivity | split; cbn; lia | split; cbn; lia].
  change second_store with (accepts first_store).2. eapply twin_step; [| vm_compute; reflexivity | vm_compute; reflexivity | split; cbn; lia | split; cbn; lia].
  apply AlikeNew.
Qed.

Lemma engines_read_alike_witness :
  (seg_read sum_crc 1000 16 4 (λ _, false) 8 (1, 0) 1 1000 ReadCommitted third_store).1 = table_read (λ _, false) (1, 0) 1 1000 ReadCommitted twin_table ∧
  rmap fs_next (table_read (λ _, false) (1, 0) 1 1000 ReadCommitted twin_table) = Ok 2.
Proof.
  assert (E : ∃ k s1, slot_for sum_crc 1000 16 8 (1, 0) third_store = (Ok k, s1)) by (eexists _, _; vm_compute; reflexivity).
  destruct E as (k & s1 & E). split; [| vm_compute; reflexivity].
  exact (engines_read_alike sum_crc 16 4 2 ltac:(lia) ltac:(lia) (1, 0) twin_table third_store (mk_env 1000 100 (λ _, (604800000, 0)) None None None false (λ _, false) 8)
    (λ _, false) 1 1000 ReadCommitted k s1 ltac:(discriminate) twins ltac:(by vm_compute; lia) E).
Defined.
