(* ===== verification/SegmentAccept.v ===== *)
(** * The segment engine: what an append does, and what a torn log recovers to

    Appending adds exactly the stamped batch, and is not refused without a reason
    ([segment_append_exact]); a log cut at any byte recovers to the whole batches
    before the cut ([recovery_keeps_whole_batches]). *)

From stdpp Require Import gmap sorting strings.
From S2P Require Import Prelude Errors Records RecordIter Build Compaction Cleaner PendingRing Pmeta Store Config Table TableSpec Segment SegmentFiles SegmentView SegmentAppend SegmentSlots SegmentRun SegmentReclaim SegmentSpec SegmentHold.

Section Accept.

Variable crc32c : bytes → Z.
Variables (stripes : Z) (max_backends : nat).
Hypothesis Hbackends : (0 < max_backends)%nat.

Abbreviation part_ok := (part_ok crc32c stripes max_backends).
Abbreviation store_ok := (store_ok crc32c stripes max_backends).

Definition appends (env : Env) (p : Z * Z) (b : RawBatch) : ST SegStore StoreError Z :=
  seg_append crc32c (en_now env) (en_segment_bytes env) stripes max_backends (en_roll_bounds env) (en_log_room env) (en_index_room env)
    (en_time_room env) (en_me env) p b.

(** The partition exists and has a slot, at an epoch not past that of the tables; the
    batch is valid and the file takes it. *)
Definition acceptable (env : Env) (p : Z * Z) (b : RawBatch) (s : SegStore) : bool :=
  match leader_epoch p (ss_meta s), slot_in crc32c stripes (en_now env) (en_me env) p s, validated crc32c (rw_bytes b), en_log_room env with
  | Ok seed, Some st, Ok _, None => sl_epoch st <=? seed
  | _, _, _, _ => false
  end.

Lemma write_raw_succeeds now segment_bytes index_room time_room bs base v :
  (write_raw now segment_bytes None index_room time_room bs base v).1 = Ok tt.
Proof using Type. unfold write_raw, write_active. generalize (if roll_due now segment_bytes (v_slot v) (len bs) then roll now base v else v). intros v'. by destruct (later _ _ _). Qed.

Lemma epoch_settles seed v : sl_epoch (v_slot v) ≤ seed → ∃ v', epoch_for_append seed v = (Ok seed, v').
Proof using Type.
  clear Hbackends. intros H. unfold epoch_for_append. destruct (Z.ltb_spec (sl_epoch (v_slot v)) 0), (Z.ltb_spec (sl_epoch (v_slot v)) seed); cbn;
    (rewrite (proj2 (Z.ltb_ge _ _)) by lia; eexists; f_equal; f_equal; lia).
Qed.

Lemma acceptable_accepted env p b s : acceptable env p b s = true → ∃ base, (appends env p b s).1 = Ok base.
Proof using Type.
  unfold acceptable, appends, seg_append, slot_in, with_slot, bind. destruct env as [now sb rb [n|] ir tr ar og me]; cbn [en_log_room en_now en_me en_segment_bytes en_roll_bounds en_index_room en_time_room].
  { by destruct (leader_epoch p (ss_meta s)), (slot_for crc32c now stripes me p s) as [[]], (validated crc32c (rw_bytes b)). }
  destruct (leader_epoch p (ss_meta s)) as [seed|]; [| done]. destruct (slot_for crc32c now stripes me p s) as [[k|] s1]; [| done].
  destruct (validated crc32c (rw_bytes b)) as [view|] eqn:Ev; [| done]. intros Hle%Z.leb_le. unfold append_section, bind.
  destruct (epoch_settles seed (on_slot (with_bounds (rb p.1).1 (rb p.1).2) (view_of max_backends me p k s1)) Hle) as [v' ->].
  unfold write_batch. rewrite Ev. unfold bind. pose proof (write_raw_succeeds now sb ir tr (Records.stamp view (sl_next (v_slot v')) seed) (sl_next (v_slot v')) v') as H.
  destruct (write_raw _ _ _ _ _ _ _ v') as [[[]|] v2]; [| done]. by eexists.
Qed.

(** C15. Appending to the segment engine is exact: an accepted batch lands at the next
    offset, behind all others of its partition, as its bytes stamped with that offset
    and the leader epoch of the tables, and the next offset moves past its last
    record; a refused one leaves the batches as they were; no other partition is
    touched; and a valid batch for a partition that has a slot is refused only if the
    slot has seen a later epoch than the tables or the file does not take it. *)
Theorem segment_append_exact env p b s r s' :
  store_ok s → p.1 ≠ 0 → clean env → raw_consistent b → ready crc32c stripes (en_now env) (en_me env) p s → appends env p b s = (r, s') →
  store_ok s' ∧ others_kept crc32c stripes max_backends p s s' ∧ (acceptable env p b s = true → ∃ base, r = Ok base) ∧
  ∀ l e, part_ok s p l e → match r with Err _ => part_ok s' p l e | Ok base => base = e ∧ appended crc32c stripes max_backends p b s s' l e end.
Proof using Hbackends.
  intros Hok Hp [Hroom Hindex] Hraw Hready E.
  destruct (append_exact crc32c stripes max_backends Hbackends _ _ _ _ _ _ _ Hroom Hindex s p b r s' Hok Hp Hraw Hready E) as (H1 & H2 & _ & H4).
  split_and!; [done | done | | done]. intros Ha. destruct (acceptable_accepted env p b s Ha) as [base Hb]. exists base. by rewrite E in Hb.
Qed.

(** ** Recovery *)

(** The batches that end at or before a byte of the file. *)
Fixpoint whole_prefix (n : nat) (l : list bytes) : list bytes :=
  match l with
  | x :: l' => if (length x <=? n)%nat then x :: whole_prefix (n - length x) l' else []
  | [] => []
  end.

Lemma whole_prefix_cut n l : Forall (whole crc32c) l →
  (∃ lost, l = whole_prefix n l ++ lost) ∧ ∃ tail, take n (concat l) = concat (whole_prefix n l) ++ tail ∧ torn crc32c tail.
Proof using Type.
  clear Hbackends. revert n. induction l as [|x l IH]; intros n Hl; cbn [whole_prefix].
  { split; [by exists [] | exists []; split; [apply take_nil | apply torn_nil]]. }
  apply Forall_cons in Hl as [Hx Hl]. cbn [concat]. destruct (Nat.leb_spec (length x) n) as [Hn|Hn].
  - destruct (IH (n - length x)%nat Hl) as [[lost Hlost] (tail & Ht & Htorn)]. split; [exists lost; cbn; by rewrite <- Hlost |].
    exists tail. cbn [concat app]. rewrite take_app_ge by done. by rewrite Ht, <- app_assoc.
  - split; [by exists (x :: l) |]. exists (take n x). cbn. rewrite take_app_le by lia. split; [done |].
    eapply prefix_torn; [exact Hx | symmetry; apply take_drop |]. intros H. apply (f_equal length) in H. rewrite length_drop in H. cbn in H. lia.
Qed.

(** C16. Recovery keeps exactly the whole batches.  Of a partition whose last segment was
    cut at any byte, with index entries for the batches that are left: recovery goes on
    behind the last whole batch, cuts the file there and leaves the sealed segments as
    they are, and recovering once more finds the same. *)
Theorem recovery_keeps_whole_batches now files sealed base active e n :
  let kept := whole_prefix n active in
  chained crc32c sealed base → dense crc32c base active e →
  logs_of files = segs_of sealed ++ [(base, take n (concat active))] → indexes_ok files (sealed ++ [(base, kept)]) →
  let '(r, files') := recover crc32c now files in
  dense crc32c base kept (rc_next r) ∧ rc_active_base r = base ∧ rc_active_bytes r = len (concat kept) ∧
  logs_of files' = segs_of (sealed ++ [(base, kept)]) ∧
  let r' := (recover crc32c now files').1 in rc_next r' = rc_next r ∧ rc_active_base r' = base ∧ rc_active_bytes r' = rc_active_bytes r.
Proof using Type.
  intros kept Hs Ha Hl Hi. destruct (whole_prefix_cut n active) as [[lost Hlost] (tail & Ht & Htorn)]; [by eapply ascending_whole, dense_ascending |].
  fold kept in Hlost, Ht. rewrite Hlost in Ha. apply dense_app in Ha as (m & Ha & _). rewrite Ht in Hl.
  destruct (recover_exact crc32c now files sealed base kept tail m (mk_dir_holds crc32c _ _ _ _ _ _ Hl Hs Ha Htorn Hi)) as (h & mx & ti & files' & -> & Hl' & Hi' & _).
  cbn [rc_next rc_active_base rc_active_bytes]. do 4 (split; [done |]).
  assert (Hd : dir_holds crc32c files' sealed base kept [] m) by (split; [by rewrite app_nil_r, Hl', segs_of_app | done | done | apply torn_nil | done]).
  destruct (recover_exact crc32c now files' sealed base kept [] m Hd) as (h2 & mx2 & ti2 & files2 & -> & _). done.
Qed.

End Accept.

(** ** Witnesses *)

Lemma second_store_ok : store_ok sum_crc 16 4 second_store.
Proof. exact (proj1 (run_follows sum_crc 16 4 ltac:(lia) _ _ _ second_run)). Qed.

Lemma segment_append_exact_witness :
  acceptable sum_crc 16 sample_env (1, 0) sample_raw second_store = true ∧
  ∃ base s', appends sum_crc 16 4 sample_env (1, 0) sample_raw second_store = (Ok base, s') ∧ store_ok sum_crc 16 4 s'.
Proof.
  assert (Ha : acceptable sum_crc 16 sample_env (1, 0) sample_raw second_store = true) by (vm_compute; reflexivity). split; [exact Ha |].
  destruct (appends sum_crc 16 4 sample_env (1, 0) sample_raw second_store) as [r s'] eqn:E.
  destruct (segment_append_exact sum_crc 16 4 ltac:(lia) sample_env (1, 0) sample_raw second_store r s' second_store_ok ltac:(discriminate)
    (conj (or_introl eq_refl) (or_introl eq_refl)) eq_refl held_ready E) as (H1 & _ & H3 & _).
  destruct (H3 Ha) as [base ->]. exists base, s'. split; [reflexivity | exact H1].
Defined.

Definition torn_batch : bytes := Records.stamp (mk_batch (sample_batch [x01; x02])) 0 0.
Definition torn_files : Files := {[0 := mk_segfile (take 100 (concat [torn_batch; Records.stamp (mk_batch (sample_batch [x01; x02])) 1 0])) None None 5]}.

Lemma recovery_keeps_whole_batches_witness :
  whole_prefix 100 [torn_batch; Records.stamp (mk_batch (sample_batch [x01; x02])) 1 0] = [torn_batch] ∧
  let '(r, files') := recover sum_crc 9 torn_files in
  dense sum_crc 0 [torn_batch] (rc_next r) ∧ rc_active_base r = 0 ∧ rc_active_bytes r = len (concat [torn_batch]) ∧
  logs_of files' = segs_of ([] ++ [(0, [torn_batch])]) ∧
  let r' := (recover sum_crc 9 files').1 in rc_next r' = rc_next r ∧ rc_active_base r' = 0 ∧ rc_active_bytes r' = rc_active_bytes r.
Proof.
  assert (Hk : whole_prefix 100 [torn_batch; Records.stamp (mk_batch (sample_batch [x01; x02])) 1 0] = [torn_batch]) by (vm_compute; reflexivity).
  split; [exact Hk |].
  pose proof (recovery_keeps_whole_batches sum_crc 9 torn_files [] 0 [torn_batch; Records.stamp (mk_batch (sample_batch [x01; x02])) 1 0] 2 100) as H.
  cbv zeta in H. rewrite Hk in H. apply H.
  - exact I.
  - repeat split; vm_compute; reflexivity.
  - vm_compute; reflexivity.
  - intros b xs f Hin E. apply list_elem_of_singleton in Hin as [= -> ->]. unfold torn_files in E. rewrite lookup_singleton_eq in E. injection E as <-. apply index_ok_none.
Defined.
