(* ===== verification/SegmentFaults.v ===== *)
(** * The segment engine: where the contract ends

    Three things the contract of SegmentSpec.v has to leave out, on concrete stores:
    a partition dropped next to one with an open reservation, batches whose offsets
    leave the 32 bits of an index entry, and a log emptied by truncation. *)

From stdpp Require Import gmap sorting strings.
From S2P Require Import Prelude Errors Records RecordIter Build Compaction Cleaner PendingRing Pmeta Store Config Table TableSpec Segment SegmentFiles SegmentView SegmentAppend SegmentSlots SegmentRun SegmentReclaim SegmentSpec SegmentHold.

Definition first_batch (r : result StoreError FetchSlice) : option (Z * Z) :=
  match r with Ok s => Some (base_of (fs_bytes s), fs_last_stable s) | Err _ => None end.
Definition committed_read (p : Z * Z) (offset : Z) (s : SegStore) : result StoreError FetchSlice :=
  (read_committed sum_crc 16 4 sample_env p offset 100000 s).1.
Definition restart (s : SegStore) : SegStore := mk_seg_store (ss_meta s) (ss_dirs s) ∅ ∅ (ss_archive s) ∅.

Lemma restart_restarts crc32c stripes s : restarted crc32c stripes s (restart s).
Proof. split; [done | done | done |]. intros p. unfold dir, restart. cbn [ss_dirs]. fold (dir p s). apply SurvivesAsIs. Qed.

(** ** A hole in the probe chain *)

(** Partition 0 of topic 131 and partition 0 of topic 1 probe from the same slot. *)
Definition neighbours : SegStore :=
  (pend sum_crc 16 4 sample_env (1, 0) sample_raw
    (sample_does (OpAppend (131, 0) sample_raw) (sample_does (OpCreate (1, 0) 0) (sample_does (OpCreate (131, 0) 0) (no_store (tb_meta empty_table)))))).2.

(** Dropping a partition uncovers the reservations of another: the freed slot ends
    the probe of a partition whose slot lies behind it, which then gets a second slot,
    recovered from the files and without its reservations.  The batch of an open
    transaction, hidden before the drop, is served to committed readers after it. *)
Theorem drop_uncovers_reservation :
  let s := neighbours in let s' := seg_drop_partition 16 7 (131, 0) s in
  reserved 16 4 s (1, 0) = [0] ∧ rmap (λ r, (fs_bytes r, fs_last_stable r)) (committed_read (1, 0) 0 s) = Ok ([], 0) ∧
  first_batch (committed_read (1, 0) 0 s') = Some (0, 1) ∧ rmap fs_next (committed_read (1, 0) 0 s') = Ok 1.
Proof. vm_compute. by repeat split. Qed.

(** ** Entries of 32 bits *)

(** A batch of one record that claims 2^31 offsets, over the index interval in size. *)
Definition wide_batch : bytes :=
  let covered := be_bytes 2 0 ++ be_bytes 4 (2 ^ 31 - 1) ++ be_bytes 8 1700000000000 ++ be_bytes 8 1700000000001 ++ be_bytes 8 (-1) ++
    be_bytes 2 (-1) ++ be_bytes 4 (-1) ++ be_bytes 4 1 ++ replicate 4096 x01 in
  be_bytes 8 0 ++ be_bytes 4 (9 + len covered) ++ be_bytes 4 (-1) ++ be_bytes 1 2 ++ be_bytes 4 (sum_crc covered) ++ covered.
Definition wide_raw : RawBatch := mk_raw wide_batch 1 (2 ^ 31 - 1) 1700000000001 (-1) (-1) (-1) false false.
Definition wide_env : Env := mk_env 1000 13000 (λ _, (604800000, 0)) None None None false (λ _, false) 7.
Definition wide_append (s : SegStore) : SegStore := perform sum_crc 16 4 wide_env (OpAppend (1, 0) wide_raw) s.
Definition wide_store : SegStore := wide_append (wide_append (wide_append (wide_append first_store))).

(** Index entries hold offsets in 32 bits and wrap.  Four accepted batches that span
    2^31 offsets each fill a segment and begin the next; as long as the server runs, a
    read from the start returns the first of them.  After a clean restart, which takes
    the hints of the sealed segment from its index file, the same read begins at the
    third batch: the first two are skipped without an error. *)
Theorem wide_segment_skips_batches :
  first_batch (committed_read (1, 0) 0 wide_store) = Some (0, 2 ^ 33) ∧
  first_batch (committed_read (1, 0) 0 (restart wide_store)) = Some (2 ^ 32, 2 ^ 33).
Proof. vm_compute. by split. Qed.

(** ** A log without a file *)

(** A log that begins at 1, truncated to 1. *)
Definition emptied : SegStore := sample_does (OpTruncate (1, 0) 1) (sample_does (OpReclaim (1, 0) 1) third_store).
Definition next_of (s : SegStore) : result StoreError Z := (seg_high_watermark sum_crc 1000 16 4 7 (1, 0) s).1.

(** A log emptied by truncation forgets its end: its last segment is unlinked and none
    is made, so that after a restart the partition goes on at offset 0, below its log
    start. *)
Theorem emptied_log_forgets_end :
  next_of emptied = Ok 1 ∧ next_of (restart emptied) = Ok 0 ∧ log_start_offset (1, 0) (ss_meta (restart emptied)) = Ok 1.
Proof. vm_compute. by repeat split. Qed.
