(* ===== verification/Sasl.v ===== *)
(** * extension/src/sasl.rs and handlers/auth.rs: SCRAM-SHA-256 over PostgreSQL roles

    A connection opens with a handshake that names the mechanism, then the client
    and the server exchange two messages each (RFC 5802): the client proves it knows
    the password whose verifier the role's row holds, the server proves it holds the
    verifier.  A Rust [String] is its UTF-8 bytes.  [sha256] and [hmac256] (the ring
    crate) and [b64_encode] and [b64_decode] (the base64 crate) are parameters; what
    the code asks of its surroundings, the role's row and random bytes, comes in a
    [SaslEnv]. *)

From Stdlib Require Import String Bool.
From stdpp Require Import strings.
From S2P Require Import Prelude Errors Primitives.

#[local] Open Scope Z_scope.

(** ** [str] *)

Definition lit (s : string) : bytes := String.list_byte_of_string s.

Definition bytes_eqb (a b : bytes) : bool := bool_decide (a = b).
Definition starts_with (pat s : bytes) : bool := bytes_eqb (take (length pat) s) pat.
Definition ends_with (pat s : bytes) : bool :=
  (length pat <=? length s)%nat && bytes_eqb (drop (length s - length pat) s) pat.
Definition strip_prefix (pat s : bytes) : option bytes :=
  if starts_with pat s then Some (drop (length pat) s) else None.

Fixpoint split_once (c : byte) (s : bytes) : option (bytes * bytes) :=
  match s with
  | [] => None
  | b :: s' =>
      if Byte.eqb b c then Some ([], s')
      else match split_once c s' with
           | Some (h, t) => Some (b :: h, t)
           | None => None
           end
  end.

(** [split(c)]: at least one field. *)
Fixpoint split (c : byte) (s : bytes) : list bytes :=
  match s with
  | [] => [[]]
  | b :: s' =>
      if Byte.eqb b c then [] :: split c s'
      else match split c s' with
           | f :: fs => (b :: f) :: fs
           | [] => [[b]]
           end
  end.

Fixpoint rsplit_once (pat s : bytes) : option (bytes * bytes) :=
  match s with
  | [] => None
  | b :: s' =>
      match rsplit_once pat s' with
      | Some (h, t) => Some (b :: h, t)
      | None => if starts_with pat s then Some ([], drop (length pat) s) else None
      end
  end.

Definition is_digit (b : byte) : bool := (48 <=? u8 b) && (u8 b <=? 57).

(** [parse::<u32>]: an optional plus sign, then digits, within 32 bits. *)
Definition parse_u32 (s : bytes) : option Z :=
  let digits := default s (strip_prefix (lit "+") s) in
  if bool_decide (digits = []) || negb (forallb is_digit digits) then None
  else
    let v := fold_left (λ acc b, acc * 10 + (u8 b - 48)) digits 0 in
    if v <? 2 ^ 32 then Some v else None.

(** [format!] of an integer that is not negative. *)
Fixpoint show_digits (fuel : nat) (n : Z) : bytes :=
  match fuel with
  | O => []
  | S fuel =>
      if n <? 10 then [as_u8 (48 + n)]
      else show_digits fuel (n / 10) ++ [as_u8 (48 + n mod 10)]
  end.
Definition show_u32 (n : Z) : bytes := show_digits 10 n.

(** ** Data *)

Definition MECHANISM : bytes := lit "SCRAM-SHA-256".
Definition SERVER_NONCE_CHARS : nat := 32.
Definition NONCE_ALPHABET : bytes :=
  lit "0123456789abcdefghijklmnopqrstuvwxyzABCDEFGHIJKLMNOPQRSTUVWXYZ".
Definition MAX_SASL_MESSAGE : Z := 4096.
Definition SCRAM_SALT_LEN : nat := 16.

Record Pending : Type := mk_pending {
  pd_principal : bytes;
  pd_client_first_bare : bytes;
  pd_server_first : bytes;
  pd_client_nonce : bytes;
  pd_server_nonce : bytes;
  pd_stored_key : bytes;
  pd_server_key : bytes;
  pd_real : bool }.

Inductive SaslState : Type :=
| AwaitingHandshake
| AwaitingFirst
| AwaitingFinal (p : Pending)
| Authenticated (principal : bytes).

Inductive SaslError : Type :=
| UnsupportedMechanism (m : bytes)
| IllegalState (m : string)
| Failed (m : string).

Definition sasl_error_code (e : SaslError) : ErrorCode.t :=
  match e with
  | UnsupportedMechanism _ => ErrorCode.UnsupportedSaslMechanism
  | IllegalState _ => ErrorCode.IllegalSaslState
  | Failed _ => ErrorCode.SaslAuthenticationFailed
  end.

Record Verifier : Type := mk_verifier {
  v_iterations : Z;
  v_salt : bytes;
  v_stored_key : bytes;
  v_server_key : bytes }.

Record Lookup : Type := mk_lookup {
  lk_verifier : option Verifier;
  lk_cluster_secret : bytes;
  lk_iterations : Z }.

(** What one call of the exchange finds outside: the [rolpassword] of a role that
    may log in now ([se_role]), the cluster's identifier, the setting
    [scram_iterations], whether the query ran at all, and the buffers the random
    number generator fills, [None] where it fails. *)
Record SaslEnv : Type := mk_sasl_env {
  se_role : bytes → option bytes;
  se_system_identifier : option bytes;
  se_scram_iterations : option bytes;
  se_query_ok : bool;
  se_random : list (option bytes) }.

Section Scram.
Context (sha256 : bytes → bytes) (hmac256 : bytes → bytes → bytes).
Context (b64_encode : bytes → bytes) (b64_decode : bytes → option bytes).

Definition parse_verifier (s : bytes) : option Verifier :=
  rest ← strip_prefix (lit "SCRAM-SHA-256$") s;
  '(iter_salt, keys) ← split_once x24 rest;
  '(iter_str, salt_b64) ← split_once x3a iter_salt;
  '(stored_b64, server_b64) ← split_once x3a keys;
  iterations ← parse_u32 iter_str;
  if iterations =? 0 then None
  else
    salt ← b64_decode salt_b64;
    stored_key ← b64_decode stored_b64;
    server_key ← b64_decode server_b64;
    if negb (len stored_key =? 32) || negb (len server_key =? 32) then None
    else Some (mk_verifier iterations salt stored_key server_key).

Definition dummy_verifier (username cluster_secret : bytes) (iterations : Z) : Verifier :=
  mk_verifier iterations (take SCRAM_SALT_LEN (hmac256 cluster_secret username))
    (replicate 32 x00) (replicate 32 x00).

Definition fallback_lookup : Lookup :=
  mk_lookup None (lit "kafgres-fallback-mock-key") 4096.

(** [None] where the query fails. *)
Definition lookup (env : SaslEnv) (username : bytes) : option Lookup :=
  if negb (se_query_ok env) then None
  else
    Some (mk_lookup
      (r ← se_role env username; parse_verifier r)
      (default (lit "kafgres-fallback-mock-key") (se_system_identifier env))
      (match v ← se_scram_iterations env; parse_u32 v with
       | Some i => if 0 <? i then i else 4096
       | None => 4096
       end)).

Definition handshake (state : SaslState) (mechanism : bytes) : result SaslError SaslState :=
  match state with
  | AwaitingHandshake =>
      if bytes_eqb mechanism MECHANISM then Ok AwaitingFirst
      else Err (UnsupportedMechanism mechanism)
  | _ => Err (IllegalState "handshake already done")
  end.

(** The bytes of one buffer, until the nonce is full. *)
Fixpoint nonce_fill (out buf : bytes) : bytes :=
  match buf with
  | [] => out
  | b :: buf' =>
      if (length out =? SERVER_NONCE_CHARS)%nat then out
      else if u8 b <? 256 - 256 mod len NONCE_ALPHABET then
        nonce_fill (out ++ [nth (Z.to_nat (u8 b mod len NONCE_ALPHABET)) NONCE_ALPHABET x00]) buf'
      else nonce_fill out buf'
  end.

(** The [while] of [server_nonce], one buffer per round; a generator that gives no
    further buffer is one that fails. *)
Fixpoint nonce_loop (out : bytes) (random : list (option bytes)) : result SaslError bytes :=
  if (SERVER_NONCE_CHARS <=? length out)%nat then Ok out
  else match random with
       | Some buf :: random' => nonce_loop (nonce_fill out buf) random'
       | _ => Err (Failed "no entropy for server nonce")
       end.
Definition server_nonce (env : SaslEnv) : result SaslError bytes := nonce_loop [] (se_random env).

Fixpoint saslname_chars (s : bytes) : result SaslError bytes :=
  match s with
  | [] => Ok []
  | c :: s' =>
      if Byte.eqb c x3d then
        match s' with
        | a :: b :: s'' =>
            if Byte.eqb a x32 && Byte.eqb b x43 then
              let? out := saslname_chars s'' in Ok (x2c :: out)
            else if Byte.eqb a x33 && Byte.eqb b x44 then
              let? out := saslname_chars s'' in Ok (x3d :: out)
            else Err (Failed "bad escape in username")
        | _ => Err (Failed "bad escape in username")
        end
      else let? out := saslname_chars s' in Ok (c :: out)
  end.
Definition saslname_decode (s : bytes) : result SaslError bytes :=
  let? out := saslname_chars s in
  if bool_decide (out = []) then Err (Failed "empty username") else Ok out.

Definition printable_nonce (b : byte) : bool := (33 <=? u8 b) && (u8 b <=? 126) && negb (Byte.eqb b x2c).

(** The loop over the fields of the client's first message. *)
Fixpoint first_fields (fields : list bytes) (username client_nonce : option bytes)
    : result SaslError (option bytes * option bytes) :=
  match fields with
  | [] => Ok (username, client_nonce)
  | field :: fields' =>
      match split_once x3d field with
      | Some (k, v) =>
          if bytes_eqb k (lit "n") then
            let? u := saslname_decode v in first_fields fields' (Some u) client_nonce
          else if bytes_eqb k (lit "r") then first_fields fields' username (Some v)
          else first_fields fields' username client_nonce
      | None => first_fields fields' username client_nonce
      end
  end.

Definition gs2_bare (msg : bytes) : result SaslError bytes :=
  match strip_prefix (lit "n,,") msg with
  | Some rest => Ok rest
  | None =>
      if starts_with (lit "y,,") msg then Err (Failed "channel binding downgrade")
      else if starts_with (lit "p=") msg then Err (Failed "channel binding not supported")
      else Err (Failed "unsupported gs2 header")
  end.

Definition ok_or {A} (o : option A) (e : SaslError) : result SaslError A :=
  match o with Some a => Ok a | None => Err e end.

Definition client_first (env : SaslEnv) (token : bytes) : result SaslError (bytes * SaslState) :=
  if negb (utf8_valid token) then Err (Failed "client-first not utf-8")
  else
    let? bare := gs2_bare token in
    let? (username, client_nonce) := first_fields (split x2c bare) None None in
    let? username := ok_or username (Failed "no username in client-first") in
    let? client_nonce := ok_or client_nonce (Failed "no nonce in client-first") in
    if bool_decide (client_nonce = []) || negb (forallb printable_nonce client_nonce) then
      Err (Failed "malformed client nonce")
    else
      let found := default fallback_lookup (lookup env username) in
      let real := bool_decide (is_Some (lk_verifier found)) in
      let verifier := default
        (dummy_verifier username (lk_cluster_secret found) (lk_iterations found)) (lk_verifier found) in
      let? nonce := server_nonce env in
      let server_first := lit "r=" ++ client_nonce ++ nonce ++ lit ",s=" ++ b64_encode (v_salt verifier)
                          ++ lit ",i=" ++ show_u32 (v_iterations verifier) in
      Ok (server_first,
          AwaitingFinal (mk_pending username bare server_first client_nonce nonce
                           (v_stored_key verifier) (v_server_key verifier) real)).

(** The loop over the fields of the client's final message: channel binding,
    nonce, proof. *)
Fixpoint final_fields (fields : list bytes) (c r p : option bytes)
    : option bytes * option bytes * option bytes :=
  match fields with
  | [] => (c, r, p)
  | field :: fields' =>
      match split_once x3d field with
      | Some (k, v) =>
          if bytes_eqb k (lit "c") then final_fields fields' (Some v) r p
          else if bytes_eqb k (lit "r") then final_fields fields' c (Some v) p
          else if bytes_eqb k (lit "p") then final_fields fields' c r (Some v)
          else final_fields fields' c r p
      | None => final_fields fields' c r p
      end
  end.

Definition xor_bytes (a b : bytes) : bytes :=
  zip_with (λ x y, as_u8 (Z.lxor (u8 x) (u8 y))) a b.

Definition auth_message (pending : Pending) (without_proof : bytes) : bytes :=
  pd_client_first_bare pending ++ lit "," ++ pd_server_first pending ++ lit "," ++ without_proof.

Definition client_final (pending : Pending) (token : bytes) : result SaslError (bytes * SaslState) :=
  if negb (utf8_valid token) then Err (Failed "client-final not utf-8")
  else
    let '(channel_binding, nonce, proof_b64) := final_fields (split x2c token) None None None in
    if negb (bool_decide (channel_binding = Some (lit "biws"))) then Err (Failed "channel binding mismatch")
    else
      let echoed := default [] nonce in
      if negb (starts_with (pd_client_nonce pending) echoed)
         || negb (ends_with (pd_server_nonce pending) echoed) then
        Err (Failed "nonce not bound to the challenge")
      else
        let? proof_b64 := ok_or proof_b64 (Failed "no proof in client-final") in
        let? proof := ok_or (b64_decode proof_b64) (Failed "proof not base64") in
        if negb (len proof =? 32) then Err (Failed "proof wrong length")
        else
          let? (without_proof, _) := ok_or (rsplit_once (lit ",p=") token) (Failed "no proof delimiter") in
          let auth := auth_message pending without_proof in
          let client_signature := hmac256 (pd_stored_key pending) auth in
          let client_key := xor_bytes proof client_signature in
          let matches := bytes_eqb (sha256 client_key) (pd_stored_key pending) in
          if negb matches || negb (pd_real pending) then Err (Failed "proof did not verify")
          else
            let server_signature := hmac256 (pd_server_key pending) auth in
            Ok (lit "v=" ++ b64_encode server_signature, Authenticated (pd_principal pending)).

Definition step (env : SaslEnv) (state : SaslState) (token : bytes) : result SaslError (bytes * SaslState) :=
  if MAX_SASL_MESSAGE <? len token then Err (Failed "message too large")
  else match state with
       | AwaitingHandshake => Err (IllegalState "no handshake yet")
       | AwaitingFirst => client_first env token
       | AwaitingFinal pending => client_final pending token
       | Authenticated _ => Err (IllegalState "already authenticated")
       end.

Definition postgres_verifier (iterations : Z) (salt salted_password : bytes) : bytes :=
  let client_key := hmac256 salted_password (lit "Client Key") in
  let stored_key := sha256 client_key in
  let server_key := hmac256 salted_password (lit "Server Key") in
  lit "SCRAM-SHA-256$" ++ show_u32 iterations ++ lit ":" ++ b64_encode salt ++ lit "$"
  ++ b64_encode stored_key ++ lit ":" ++ b64_encode server_key.

End Scram.
