(* ===== verification/SaslSpec.v ===== *)
(** * What the SCRAM exchange of Sasl.v guarantees

    If the messages of a connection got it authenticated as a role, then one of them
    answered a challenge made for that role with a proof that verifies against the
    verifier in the role's row; and a client that knows the password is authenticated, and gets
    the server's own proof.  The second needs what is documented of the two crates:
    hashes of 32 bytes, and a base64 that decodes what it encodes and writes only its
    own characters. *)

From Stdlib Require Import String Bool.
From stdpp Require Import strings.
From S2P Require Import Prelude Errors Primitives Sasl.

#[local] Open Scope Z_scope.

(** ** Splitting *)

Lemma byte_eqb_refl b : Byte.eqb b b = true.
Proof. by apply Byte.byte_dec_lb. Qed.

Lemma byte_eqb_false a b : a ≠ b → Byte.eqb a b = false.
Proof. intros H. destruct (Byte.eqb a b) eqn:E; [| done]. by apply Byte.byte_dec_bl in E. Qed.

Lemma without c s : existsb (Byte.eqb c) s = false → c ∉ s.
Proof.
  induction s as [|b s IH]; cbn; [set_solver |]. intros [H1 H2]%orb_false_elim.
  rewrite elem_of_cons. intros [->|H]; [by rewrite byte_eqb_refl in H1 | by apply IH].
Qed.

Lemma split_once_app c a b : c ∉ a → split_once c (a ++ c :: b) = Some (a, b).
Proof.
  induction a as [|x a IH]; intros Hc; cbn.
  - by rewrite byte_eqb_refl.
  - rewrite byte_eqb_false by set_solver. rewrite IH by set_solver. done.
Qed.

Lemma split_nosep c a : c ∉ a → split c a = [a].
Proof.
  induction a as [|x a IH]; intros Hc; cbn; [done |].
  rewrite byte_eqb_false by set_solver. by rewrite IH by set_solver.
Qed.

Lemma split_app c a b : c ∉ a → split c (a ++ c :: b) = a :: split c b.
Proof.
  induction a as [|x a IH]; intros Hc; cbn.
  - by rewrite byte_eqb_refl.
  - rewrite byte_eqb_false by set_solver. by rewrite IH by set_solver.
Qed.

Lemma starts_with_app pat s : starts_with pat (pat ++ s) = true.
Proof. unfold starts_with, bytes_eqb. rewrite take_app_length. by apply bool_decide_eq_true. Qed.

Lemma strip_prefix_app pat s : strip_prefix pat (pat ++ s) = Some s.
Proof. unfold strip_prefix. by rewrite starts_with_app, drop_app_length. Qed.

Lemma strip_prefix_inv pat s r : strip_prefix pat s = Some r → s = pat ++ r.
Proof.
  unfold strip_prefix, starts_with, bytes_eqb. case_bool_decide as E; [| done].
  intros [= <-]. by rewrite <- E at 1; rewrite take_drop.
Qed.

Lemma ends_with_app pat s : ends_with pat (s ++ pat) = true.
Proof.
  unfold ends_with, bytes_eqb. rewrite length_app.
  replace (length s + length pat - length pat)%nat with (length s) by lia.
  rewrite drop_app_length. apply andb_true_intro. split; [apply Nat.leb_le; lia |].
  by apply bool_decide_eq_true.
Qed.

Lemma rsplit_once_none c pat s : c ∉ s → rsplit_once (c :: pat) s = None.
Proof.
  induction s as [|x s IH]; intros Hc; cbn; [done |]. rewrite IH by set_solver.
  unfold starts_with, bytes_eqb. cbn. case_bool_decide as E; [| done].
  injection E as -> _. set_solver.
Qed.

Lemma rsplit_once_tail c pat s : c ∉ pat → c ∉ s →
  rsplit_once (c :: pat) (c :: pat ++ s) = Some ([], s).
Proof.
  intros Hp Hs. cbn [rsplit_once]. rewrite rsplit_once_none by set_solver.
  change (c :: pat ++ s) with ((c :: pat) ++ s). by rewrite starts_with_app, drop_app_length.
Qed.

Lemma rsplit_once_app c pat a s : c ∉ pat → c ∉ s →
  rsplit_once (c :: pat) (a ++ (c :: pat) ++ s) = Some (a, s).
Proof.
  intros Hp Hs. induction a as [|x a IH]; cbn [app].
  - by apply rsplit_once_tail.
  - cbn [rsplit_once]. cbn [app] in IH. by rewrite IH.
Qed.

Lemma rsplit_once_inv pat s a b : rsplit_once pat s = Some (a, b) → s = a ++ pat ++ b.
Proof.
  revert a b. induction s as [|x s IH]; intros a b; cbn; [done |].
  destruct (rsplit_once pat s) as [[h t]|] eqn:E.
  - intros [= <- <-]. cbn. f_equal. by apply IH.
  - destruct (starts_with pat (x :: s)) eqn:Ew; [| done]. intros [= <- <-]. cbn [app].
    apply strip_prefix_inv. unfold strip_prefix. by rewrite Ew.
Qed.

(** ** Numbers *)

Definition value (ds : bytes) (acc : Z) : Z := fold_left (λ acc b, acc * 10 + (u8 b - 48)) ds acc.

Lemma u8_digit n : 0 ≤ n < 10 → u8 (as_u8 (48 + n)) = 48 + n.
Proof. intros. rewrite u8_as_u8. apply Z.mod_small. lia. Qed.

Lemma show_digits_value fuel n : 0 ≤ n < 10 ^ Z.of_nat (S fuel) →
  value (show_digits (S fuel) n) 0 = n ∧ Forall (λ b, is_digit b = true) (show_digits (S fuel) n)
  ∧ show_digits (S fuel) n ≠ [].
Proof.
  revert n. induction fuel as [|fuel IH]; intros n Hn.
  - cbn in Hn |- *. rewrite (proj2 (Z.ltb_lt n 10)) by lia. unfold value; cbn.
    rewrite u8_digit by lia. split; [lia |]. split; [| done]. constructor; [| constructor].
    unfold is_digit. rewrite u8_digit by lia. lia.
  - remember (S fuel) as k. cbn [show_digits]. destruct (Z.ltb_spec n 10) as [Hlt|Hge].
    + unfold value; cbn. rewrite u8_digit by lia. split; [lia |]. split; [| done].
      constructor; [| constructor]. unfold is_digit. rewrite u8_digit by lia. lia.
    + pose proof (Z.mod_pos_bound n 10 ltac:(lia)) as Hm.
      destruct (IH (n / 10)) as (Hv & Hd & Hne).
      { subst k. rewrite (Nat2Z.inj_succ (S fuel)), Z.pow_succ_r in Hn by lia.
        split; [apply Z.div_pos; lia | apply Z.div_lt_upper_bound; lia]. }
      split; [| split].
      * unfold value in *. rewrite fold_left_app, Hv. cbn. rewrite u8_digit by lia.
        pose proof (Z.div_mod n 10). lia.
      * apply Forall_app. split; [done |]. constructor; [| constructor].
        unfold is_digit. rewrite u8_digit by lia. lia.
      * intros H. by apply app_eq_nil in H as [_ ?].
Qed.

Lemma is_digit_char b c : is_digit b = true → ¬ (48 ≤ u8 c ≤ 57) → b ≠ c.
Proof. intros Hb Hc ->. unfold is_digit in Hb. lia. Qed.

Lemma show_u32_digits n : 0 ≤ n < 2 ^ 32 → Forall (λ b, is_digit b = true) (show_u32 n).
Proof. intros Hn. apply (show_digits_value 9). split; [lia |]. etransitivity; [apply Hn | done]. Qed.

Lemma parse_show n : 0 ≤ n < 2 ^ 32 → parse_u32 (show_u32 n) = Some n.
Proof.
  intros Hn. destruct (show_digits_value 9 n) as (Hv & Hd & Hne).
  { split; [lia |]. etransitivity; [apply Hn | done]. }
  unfold parse_u32. change (show_digits 10 n) with (show_u32 n) in *.
  replace (default _ (strip_prefix (lit "+") (show_u32 n))) with (show_u32 n).
  - rewrite bool_decide_eq_false_2 by done. rewrite (proj2 (forallb_forall _ _)).
    + cbn [orb negb]. unfold value in Hv. rewrite Hv. by rewrite (proj2 (Z.ltb_lt _ _)) by lia.
    + intros b Hb. rewrite Forall_forall in Hd. apply Hd. by apply list_elem_of_In.
  - unfold strip_prefix. destruct (starts_with (lit "+") (show_u32 n)) eqn:E; [| done].
    destruct (show_u32 n) as [|b ds]; [done |]. inversion Hd as [|? ? Hb _]; subst.
    unfold starts_with, bytes_eqb in E. apply bool_decide_eq_true in E. cbn in E.
    injection E as E. exfalso. apply (is_digit_char b x2b Hb); [| done].
    change (u8 x2b) with 43. lia.
Qed.

(** ** Who is authenticated *)

Section Scram.
Context (sha256 : bytes → bytes) (hmac256 : bytes → bytes → bytes).
Context (b64_encode : bytes → bytes) (b64_decode : bytes → option bytes).

#[local] Abbreviation parse_verifier := (parse_verifier b64_decode).
#[local] Abbreviation lookup := (lookup b64_decode).
#[local] Abbreviation client_first := (client_first hmac256 b64_encode b64_decode).
#[local] Abbreviation client_final := (client_final sha256 hmac256 b64_encode b64_decode).
#[local] Abbreviation step := (step sha256 hmac256 b64_encode b64_decode).
#[local] Abbreviation postgres_verifier := (postgres_verifier sha256 hmac256 b64_encode).

(** What a connection receives: a handshake, or a token with what the database and the
    generator give when it is handled.  What is refused leaves the state as it is. *)
Inductive Message : Type :=
| Handshake (mechanism : bytes)
| Token (env : SaslEnv) (token : bytes).
Definition receive (s : SaslState) (m : Message) : SaslState :=
  match m with
  | Handshake mechanism => match handshake s mechanism with Ok s' => s' | Err _ => s end
  | Token env token => match step env s token with Ok (_, s') => s' | Err _ => s end
  end.
Definition exchange (ms : list Message) : SaslState := foldl receive AwaitingHandshake ms.

(** [nonce] is one the server draws: 32 characters of its alphabet. *)
Definition fresh_nonce (nonce : bytes) : Prop :=
  length nonce = SERVER_NONCE_CHARS ∧ Forall (λ b, b ∈ NONCE_ALPHABET) nonce.

Lemma nonce_fill_ok out buf :
  (length out <= SERVER_NONCE_CHARS)%nat → Forall (λ b, b ∈ NONCE_ALPHABET) out →
  (length (nonce_fill out buf) <= SERVER_NONCE_CHARS)%nat
  ∧ Forall (λ b, b ∈ NONCE_ALPHABET) (nonce_fill out buf).
Proof.
  revert out. induction buf as [|b buf IH]; intros out Hl Ho; cbn [nonce_fill]; [done |].
  destruct (Nat.eqb_spec (length out) SERVER_NONCE_CHARS); [done |].
  destruct (u8 b <? _); [| by apply IH]. apply IH.
  - rewrite length_app. cbn. lia.
  - apply Forall_app. split; [done |]. constructor; [| constructor]. apply list_elem_of_In, nth_In.
    change (length NONCE_ALPHABET) with 62%nat. change (len NONCE_ALPHABET) with 62.
    pose proof (Z.mod_pos_bound (u8 b) 62). lia.
Qed.

Lemma server_nonce_fresh env nonce : server_nonce env = Ok nonce → fresh_nonce nonce.
Proof.
  unfold server_nonce. generalize (se_random env) as random. intros random.
  assert (∀ out, (length out <= SERVER_NONCE_CHARS)%nat → Forall (λ b, b ∈ NONCE_ALPHABET) out →
    nonce_loop out random = Ok nonce → fresh_nonce nonce) as H; [| by apply H; [cbn; lia |]].
  induction random as [|[buf|] random IH]; intros out Hl Ho; cbn [nonce_loop];
    destruct (Nat.leb_spec SERVER_NONCE_CHARS (length out)); try done;
    try (intros [= <-]; split; [lia | done]).
  apply IH; by apply nonce_fill_ok.
Qed.

(** The first message names [u], whose row held verifier [v], and was answered with a
    challenge that carries a nonce drawn for it. *)
Definition challenged (env : SaslEnv) (u first challenge bare client_nonce nonce : bytes) (v : Verifier) : Prop :=
  first = lit "n,," ++ bare ∧
  first_fields (split x2c bare) None None = Ok (Some u, Some client_nonce) ∧
  se_query_ok env = true ∧ (∃ row, se_role env u = Some row ∧ parse_verifier row = Some v) ∧
  server_nonce env = Ok nonce ∧ fresh_nonce nonce ∧
  challenge = lit "r=" ++ client_nonce ++ nonce ++ lit ",s=" ++ b64_encode (v_salt v) ++ lit ",i=" ++ show_u32 (v_iterations v).

(** The final message echoes both nonces and carries a proof that verifies against the
    stored key of [v] over the three messages. *)
Definition proved (v : Verifier) (bare client_nonce nonce challenge final : bytes) : Prop :=
  ∃ echoed proof_b64 proof without_proof rest,
    final_fields (split x2c final) None None None = (Some (lit "biws"), echoed, Some proof_b64) ∧
    starts_with client_nonce (default [] echoed) = true ∧ ends_with nonce (default [] echoed) = true ∧
    b64_decode proof_b64 = Some proof ∧ len proof = 32 ∧ final = without_proof ++ lit ",p=" ++ rest ∧
    sha256 (xor_bytes proof
      (hmac256 (v_stored_key v) (bare ++ lit "," ++ challenge ++ lit "," ++ without_proof))) = v_stored_key v.

(** [client_first], as far as it matters to whoever is let in by its end. *)
Lemma client_first_challenges env t r s :
  client_first env t = Ok (r, s) → ∃ p, s = AwaitingFinal p ∧ r = pd_server_first p ∧
    (pd_real p = true → ∃ v, challenged env (pd_principal p) t r (pd_client_first_bare p) (pd_client_nonce p)
       (pd_server_nonce p) v ∧ pd_stored_key p = v_stored_key v).
Proof.
  unfold Sasl.client_first. destruct (utf8_valid t); [| done]. cbn [negb]. unfold gs2_bare.
  destruct (strip_prefix (lit "n,,") t) as [bare|] eqn:Eb; cbn [rbind];
    [| by destruct (starts_with (lit "y,,") t); [| destruct (starts_with (lit "p=") t)]].
  destruct (first_fields _ _ _) as [[u n]|] eqn:Ef; [| done]. cbn [rbind].
  destruct u as [u|]; [| done]. cbn [ok_or rbind]. destruct n as [n|]; [| done]. cbn [ok_or rbind].
  destruct (_ || _); [done |]. destruct (server_nonce env) as [nonce|] eqn:En; [| done].
  cbn [rbind]. intros [= <- <-]. eexists. split; [done |]. split; [done |]. cbn. intros Hreal.
  apply bool_decide_eq_true in Hreal as [v Hv]. exists v. rewrite Hv. cbn. split; [| done].
  unfold Sasl.lookup in Hv. destruct (se_query_ok env) eqn:Eq; [| done]. cbn in Hv.
  destruct (se_role env u) as [row|] eqn:Er; [| done]. cbn in Hv.
  split_and!; try done; [by apply strip_prefix_inv | by exists row | by eapply server_nonce_fresh].
Qed.

Lemma client_final_proves p t r s :
  client_final p t = Ok (r, s) → s = Authenticated (pd_principal p) ∧ pd_real p = true ∧
    ∀ v, pd_stored_key p = v_stored_key v →
      proved v (pd_client_first_bare p) (pd_client_nonce p) (pd_server_nonce p) (pd_server_first p) t.
Proof.
  unfold Sasl.client_final. destruct (utf8_valid t); [| done]. cbn [negb].
  destruct (final_fields _ _ _ _) as [[c n] pr] eqn:Ef. destruct (bool_decide_reflect (c = Some (lit "biws"))) as [->|]; [| done].
  cbn [negb]. destruct (starts_with _ _) eqn:Es; [| done]. destruct (ends_with _ _) eqn:Ee; [| done]. cbn [negb orb].
  destruct pr as [pr|]; [| done]. cbn [ok_or rbind]. destruct (b64_decode pr) as [proof|] eqn:Ed; [| done]. cbn [ok_or rbind].
  destruct (Z.eqb_spec (len proof) 32) as [Hl|]; [| done]. cbn [negb].
  destruct (rsplit_once _ t) as [[wp rest]|] eqn:Er; [| done]. cbn [ok_or rbind].
  unfold bytes_eqb. case_bool_decide as Hm; [| done]. destruct (pd_real p); [| done].
  cbn [negb orb]. intros [= <- <-]. split; [done |]. split; [done |]. intros v Hv. exists n, pr, proof, wp, rest.
  rewrite <- Hv. split_and!; try done. by apply rsplit_once_inv.
Qed.

(** How the messages received led to a state. *)
Definition explained (ms : list Message) (s : SaslState) : Prop :=
  match s with
  | AwaitingHandshake => True
  | AwaitingFirst => ∃ pre post, ms = pre ++ Handshake MECHANISM :: post ∧ exchange pre = AwaitingHandshake
  | AwaitingFinal p => ∃ pre env first post, ms = pre ++ Token env first :: post ∧ exchange pre = AwaitingFirst ∧
      step env AwaitingFirst first = Ok (pd_server_first p, AwaitingFinal p)
  | Authenticated u => ∃ pre env final post p reply, ms = pre ++ Token env final :: post ∧
      exchange pre = AwaitingFinal p ∧ step env (AwaitingFinal p) final = Ok (reply, Authenticated u)
  end.

Lemma explained_more ms m s : explained ms s → explained (ms ++ [m]) s.
Proof.
  destruct s; cbn; [done | | |].
  - intros (pre & post & -> & ?). exists pre, (post ++ [m]). by rewrite <- app_assoc.
  - intros (pre & env & first & post & -> & ?). exists pre, env, first, (post ++ [m]). by rewrite <- app_assoc.
  - intros (pre & env & final & post & p & reply & -> & ?). exists pre, env, final, (post ++ [m]), p, reply.
    by rewrite <- app_assoc.
Qed.

Lemma exchange_explained ms : explained ms (exchange ms).
Proof.
  induction ms as [|m ms IH] using rev_ind; [done |]. unfold exchange in *. rewrite foldl_app. cbn [foldl].
  fold (exchange ms) in *. destruct m as [mech|env t]; cbn [receive].
  - destruct (handshake (exchange ms) mech) as [s'|] eqn:Eh; [| by apply explained_more]. unfold handshake in Eh.
    destruct (exchange ms) eqn:Es; try done. unfold bytes_eqb in Eh. case_bool_decide; [| done]. injection Eh as <-.
    subst mech. by exists ms, [].
  - destruct (step env (exchange ms) t) as [[r s']|] eqn:Et; [| by apply explained_more]. pose proof Et as Et'.
    unfold Sasl.step in Et'. destruct (_ <? _); [done |]. destruct (exchange ms) as [| |p|u] eqn:Es; try done.
    + apply client_first_challenges in Et' as (p & -> & -> & _). by exists ms, env, t, [].
    + apply client_final_proves in Et' as (-> & _). by exists ms, env, t, [], p, r.
Qed.

(** C7. A connection whose messages got it authenticated as [u] received, in this order
    and whatever else between them: a handshake for the one mechanism; a first message
    that names [u], at a time when the row of [u] held a usable verifier, and that was
    answered with a challenge carrying a fresh nonce of 32 characters; and, while that
    very challenge was pending, a final message that echoes the nonces of both sides and
    carries a proof of 32 bytes that verifies against the stored key of that verifier
    over these three messages. *)
Theorem authenticated_only_by_proof ms u : exchange ms = Authenticated u →
  ∃ ms0 ms1 ms2 ms3 env first env' final p reply v,
    ms = ms0 ++ Handshake MECHANISM :: ms1 ++ Token env first :: ms2 ++ Token env' final :: ms3 ∧
    exchange ms0 = AwaitingHandshake ∧ exchange (ms0 ++ Handshake MECHANISM :: ms1) = AwaitingFirst ∧
    step env AwaitingFirst first = Ok (pd_server_first p, AwaitingFinal p) ∧
    exchange (ms0 ++ Handshake MECHANISM :: ms1 ++ Token env first :: ms2) = AwaitingFinal p ∧
    step env' (AwaitingFinal p) final = Ok (reply, Authenticated u) ∧
    challenged env u first (pd_server_first p) (pd_client_first_bare p) (pd_client_nonce p) (pd_server_nonce p) v ∧
    proved v (pd_client_first_bare p) (pd_client_nonce p) (pd_server_nonce p) (pd_server_first p) final.
Proof.
  intros Hu. pose proof (exchange_explained ms) as He. rewrite Hu in He.
  destruct He as (pre & env' & final & ms3 & p & reply & -> & Hp & Hfinal).
  pose proof (exchange_explained pre) as He. rewrite Hp in He. destruct He as (pre' & env & first & ms2 & -> & Hp' & Hfirst).
  pose proof (exchange_explained pre') as He. rewrite Hp' in He. destruct He as (ms0 & ms1 & -> & H0).
  rewrite <- app_assoc in Hp. cbn [app] in Hp.
  pose proof Hfinal as Hf. unfold Sasl.step in Hf. destruct (_ <? _); [done |].
  apply client_final_proves in Hf as ([= ->] & Hreal & Hproved).
  pose proof Hfirst as Hc. unfold Sasl.step in Hc. destruct (_ <? _); [done |].
  apply client_first_challenges in Hc as (p' & [= <-] & _ & Hchal). destruct (Hchal Hreal) as (v & Hc & Hk).
  exists ms0, ms1, ms2, ms3, env, first, env', final, p, reply, v. rewrite <- !app_assoc. cbn [app].
  split_and!; try done. by apply Hproved.
Qed.

(** ** A client that knows the password *)

(** What the exchange asks of the two crates. *)
Definition b64_char (b : byte) : Prop :=
  97 ≤ u8 b ≤ 122 ∨ 65 ≤ u8 b ≤ 90 ∨ 48 ≤ u8 b ≤ 57 ∨ b = x2b ∨ b = x2f ∨ b = x3d.
Context (sha256_len : ∀ m, length (sha256 m) = 32%nat).
Context (hmac256_len : ∀ k m, length (hmac256 k m) = 32%nat).
Context (b64_round : ∀ m, b64_decode (b64_encode m) = Some m).
Context (b64_chars : ∀ m, Forall b64_char (b64_encode m)).

(** RFC 5802's client: a name escaped, its first message without the header, and
    its final message for the challenge [server_first], from the salted password. *)
Definition escape (u : bytes) : bytes :=
  mjoin ((λ b, if Byte.eqb b x2c then lit "=2C" else if Byte.eqb b x3d then lit "=3D" else [b]) <$> u).
Definition first_bare (u client_nonce : bytes) : bytes := lit "n=" ++ escape u ++ lit ",r=" ++ client_nonce.
Definition first_message (u client_nonce : bytes) : bytes := lit "n,," ++ first_bare u client_nonce.
Definition final_bare (nonce : bytes) : bytes := lit "c=biws,r=" ++ nonce.
Definition client_auth (u client_nonce server_first nonce : bytes) : bytes :=
  first_bare u client_nonce ++ lit "," ++ server_first ++ lit "," ++ final_bare nonce.
Definition final_message (salted u client_nonce server_first nonce : bytes) : bytes :=
  let client_key := hmac256 salted (lit "Client Key") in
  let signature := hmac256 (sha256 client_key) (client_auth u client_nonce server_first nonce) in
  final_bare nonce ++ lit ",p=" ++ b64_encode (xor_bytes client_key signature).

Lemma b64_without c m : ¬ b64_char c → c ∉ b64_encode m.
Proof. intros Hc Hin. pose proof (b64_chars m) as H. rewrite Forall_forall in H. by apply Hc, H. Qed.

Lemma comma_not_b64 : ¬ b64_char x2c.
Proof. unfold b64_char. change (u8 x2c) with 44. intuition (done || lia). Qed.
Lemma colon_not_b64 : ¬ b64_char x3a.
Proof. unfold b64_char. change (u8 x3a) with 58. intuition (done || lia). Qed.
Lemma dollar_not_b64 : ¬ b64_char x24.
Proof. unfold b64_char. change (u8 x24) with 36. intuition (done || lia). Qed.

Lemma digits_without c n : 0 ≤ n < 2 ^ 32 → ¬ (48 ≤ u8 c ≤ 57) → c ∉ show_u32 n.
Proof.
  intros Hn Hc Hin. pose proof (show_u32_digits n Hn) as H. rewrite Forall_forall in H.
  by apply (is_digit_char c c (H c Hin)).
Qed.

Lemma parse_postgres_verifier it salt salted : 0 < it < 2 ^ 32 →
  parse_verifier (postgres_verifier it salt salted)
  = Some (mk_verifier it salt (sha256 (hmac256 salted (lit "Client Key"))) (hmac256 salted (lit "Server Key"))).
Proof using b64_chars b64_round hmac256_len sha256_len.
  intros Hit. unfold Sasl.parse_verifier, Sasl.postgres_verifier.
  rewrite strip_prefix_app. cbn [mbind option_bind].
  change (lit "$") with [x24]. change (lit ":") with [x3a].
  set (st := sha256 _). set (sv := hmac256 _ (lit "Server Key")).
  replace (show_u32 it ++ [x3a] ++ b64_encode salt ++ [x24] ++ b64_encode st ++ [x3a] ++ b64_encode sv)
    with ((show_u32 it ++ x3a :: b64_encode salt) ++ x24 :: (b64_encode st ++ x3a :: b64_encode sv))
    by (rewrite <- !app_assoc; done).
  rewrite split_once_app.
  2:{ rewrite elem_of_app, elem_of_cons. intros [H|[H|H]]; [| done |].
      - apply (digits_without x24 it) in H; [done | lia | change (u8 x24) with 36; lia].
      - by apply (b64_without _ _ dollar_not_b64) in H. }
  cbn [mbind option_bind].
  rewrite (split_once_app x3a (show_u32 it)) by (apply digits_without; [lia | change (u8 x3a) with 58; lia]).
  cbn [mbind option_bind].
  rewrite split_once_app by apply (b64_without _ _ colon_not_b64).
  cbn [mbind option_bind].
  rewrite parse_show by lia. cbn [mbind option_bind]. rewrite (proj2 (Z.eqb_neq it 0)) by lia.
  rewrite !b64_round. cbn [mbind option_bind].
  unfold len, st, sv. by rewrite sha256_len, hmac256_len.
Qed.

Lemma escape_cons b u : escape (b :: u) =
  (if Byte.eqb b x2c then lit "=2C" else if Byte.eqb b x3d then lit "=3D" else [b]) ++ escape u.
Proof. done. Qed.

Lemma escape_no_comma u : x2c ∉ escape u.
Proof.
  induction u as [|b u IH]; [set_solver |]. rewrite escape_cons, elem_of_app. intros [H|H]; [| done].
  destruct (Byte.eqb b x2c) eqn:E1; [by apply (without x2c) in H |].
  destruct (Byte.eqb b x3d) eqn:E2; [by apply (without x2c) in H |].
  apply list_elem_of_singleton in H as <-. by rewrite byte_eqb_refl in E1.
Qed.

Lemma saslname_escape u : saslname_chars (escape u) = Ok u.
Proof.
  induction u as [|b u IH]; [done |]. rewrite escape_cons.
  destruct (Byte.eqb b x2c) eqn:E1.
  { apply Byte.byte_dec_bl in E1 as ->. cbn. by rewrite IH. }
  destruct (Byte.eqb b x3d) eqn:E2.
  { apply Byte.byte_dec_bl in E2 as ->. cbn. by rewrite IH. }
  cbn. by rewrite E2, IH.
Qed.

Lemma first_fields_message u client_nonce : u ≠ [] → x2c ∉ client_nonce →
  first_fields (split x2c (first_bare u client_nonce)) None None = Ok (Some u, Some client_nonce).
Proof.
  intros Hu Hn. unfold first_bare. change (lit ",r=") with (x2c :: lit "r=").
  replace (lit "n=" ++ escape u ++ (x2c :: lit "r=") ++ client_nonce)
    with ((lit "n=" ++ escape u) ++ x2c :: (lit "r=" ++ client_nonce)) by (rewrite <- app_assoc; done).
  rewrite split_app.
  2:{ rewrite elem_of_app. intros [H|H%escape_no_comma]; [| done].
      by apply (without x2c) in H. }
  rewrite split_nosep.
  2:{ rewrite elem_of_app. intros [H|H]; [| done]. by apply (without x2c) in H. }
  cbn. unfold saslname_decode. rewrite saslname_escape. cbn. by rewrite bool_decide_eq_false_2 by done.
Qed.

Lemma log2_u8 x : Z.log2 (u8 x) < 8.
Proof.
  pose proof (u8_range x). destruct (Z.eq_dec (u8 x) 0) as [->|]; [done |].
  apply Z.log2_lt_pow2; [lia |]. change (2 ^ 8) with 256. lia.
Qed.

Lemma xor_bytes_involutive a b : (length a <= length b)%nat → xor_bytes (xor_bytes a b) b = a.
Proof.
  unfold xor_bytes. revert b. induction a as [|x a IH]; intros [|y b]; cbn; try done; [lia |].
  intros H. rewrite (IH b) by lia. f_equal. rewrite u8_as_u8.
  assert (0 ≤ Z.lxor (u8 x) (u8 y) < 2 ^ 8) as Hr.
  { pose proof (u8_range x). pose proof (u8_range y). split; [apply Z.lxor_nonneg; lia |].
    destruct (Z.eq_dec (Z.lxor (u8 x) (u8 y)) 0) as [->|Hne]; [lia |].
    apply Z.log2_lt_pow2; [pose proof (proj2 (Z.lxor_nonneg (u8 x) (u8 y))); lia |].
    eapply Z.le_lt_trans; [apply Z.log2_lxor; lia |].
    apply Z.max_lub_lt; apply log2_u8. }
  rewrite Z.mod_small by (change (2 ^ 8) with 256 in Hr; lia).
  by rewrite Z.lxor_assoc, Z.lxor_nilpotent, Z.lxor_0_r, as_u8_u8.
Qed.

Lemma utf8_ascii s : Forall (λ b, u8 b < 128) s → utf8_valid s = true.
Proof.
  induction 1 as [|b s Hb Hs IH]; [done |]. cbn [utf8_valid].
  by rewrite (proj2 (Z.ltb_lt _ _)) by done.
Qed.

Lemma printable_ascii n : forallb printable_nonce n = true → Forall (λ b, u8 b < 128) n ∧ x2c ∉ n.
Proof.
  induction n as [|b n IH]; cbn; [split; [constructor | set_solver] |].
  intros [Hb Hn]%andb_prop. destruct (IH Hn) as [H1 H2]. unfold printable_nonce in Hb.
  apply andb_prop in Hb as [Hb Hc]. split; [constructor; [lia | done] |].
  rewrite elem_of_cons. intros [<-|?]; [by rewrite byte_eqb_refl in Hc | done].
Qed.

Lemma fresh_ascii n : fresh_nonce n → Forall (λ b, u8 b < 128) n ∧ x2c ∉ n.
Proof.
  intros [_ H]. assert (Forall (λ b, u8 b < 128 ∧ b ≠ x2c) NONCE_ALPHABET) as Ha.
  { apply (bool_decide_unpack _). vm_compute. constructor. }
  rewrite Forall_forall in Ha. rewrite Forall_forall in H. split.
  - apply Forall_forall. intros b Hb. by apply Ha, H.
  - intros Hc. by apply H, Ha in Hc as [_ ?].
Qed.

Lemma b64_ascii m : Forall (λ b, u8 b < 128) (b64_encode m).
Proof using b64_chars.
  eapply Forall_impl; [apply b64_chars |]. intros b [H|[H|[H|[H|[H|H]]]]]; try lia; by rewrite H.
Qed.

Lemma final_fields_message nonce m : x2c ∉ nonce →
  final_fields (split x2c (final_bare nonce ++ lit ",p=" ++ b64_encode m)) None None None
  = (Some (lit "biws"), Some nonce, Some (b64_encode m)).
Proof using b64_chars.
  intros Hn. unfold final_bare. change (lit ",p=") with (x2c :: lit "p=").
  replace ((lit "c=biws,r=" ++ nonce) ++ (x2c :: lit "p=") ++ b64_encode m)
    with (lit "c=biws" ++ x2c :: ((lit "r=" ++ nonce) ++ x2c :: (lit "p=" ++ b64_encode m)))
    by (rewrite <- !app_assoc; done).
  rewrite split_app by by apply without.
  rewrite split_app by (rewrite elem_of_app; intros [H|H]; [by apply without in H | done]).
  rewrite split_nosep; [done |]. rewrite elem_of_app. intros [H|H]; [by apply without in H |].
  by apply (b64_without _ _ comma_not_b64) in H.
Qed.

(** The pending exchange the client's first message opens. *)
Definition opened (it : Z) (salt salted u client_nonce nonce : bytes) : Pending :=
  mk_pending u (first_bare u client_nonce)
    (lit "r=" ++ client_nonce ++ nonce ++ lit ",s=" ++ b64_encode salt ++ lit ",i=" ++ show_u32 it)
    client_nonce nonce (sha256 (hmac256 salted (lit "Client Key"))) (hmac256 salted (lit "Server Key")) true.

Lemma client_first_opens env it salt salted u client_nonce nonce :
  se_query_ok env = true → se_role env u = Some (postgres_verifier it salt salted) → 0 < it < 2 ^ 32 →
  server_nonce env = Ok nonce → u ≠ [] → client_nonce ≠ [] → forallb printable_nonce client_nonce = true →
  utf8_valid (first_message u client_nonce) = true →
  client_first env (first_message u client_nonce)
  = Ok (pd_server_first (opened it salt salted u client_nonce nonce),
        AwaitingFinal (opened it salt salted u client_nonce nonce)).
Proof using b64_chars b64_round hmac256_len sha256_len.
  intros Hq Hrole Hit Hn Hu Hc Hp Hv. unfold Sasl.client_first. rewrite Hv. cbn [negb].
  unfold gs2_bare, first_message. rewrite strip_prefix_app. cbn [rbind].
  rewrite first_fields_message by (done || by apply printable_ascii). cbn [rbind ok_or].
  rewrite bool_decide_eq_false_2, Hp by done. cbn [orb negb].
  unfold Sasl.lookup. rewrite Hq, Hrole. cbn [negb mbind option_bind].
  rewrite parse_postgres_verifier by done. cbn [default lk_verifier].
  rewrite Hn. cbn [rbind]. by rewrite bool_decide_eq_true_2 by (by eexists).
Qed.

Lemma client_final_accepts it salt salted u client_nonce nonce :
  forallb printable_nonce client_nonce = true → fresh_nonce nonce →
  let p := opened it salt salted u client_nonce nonce in
  client_final p (final_message salted u client_nonce (pd_server_first p) (client_nonce ++ nonce))
  = Ok (lit "v=" ++ b64_encode (hmac256 (hmac256 salted (lit "Server Key"))
          (client_auth u client_nonce (pd_server_first p) (client_nonce ++ nonce))), Authenticated u).
Proof using b64_chars b64_round hmac256_len sha256_len.
  intros Hp Hf p. destruct (printable_ascii _ Hp) as [Hp1 Hp2]. destruct (fresh_ascii _ Hf) as [Hf1 Hf2].
  unfold Sasl.client_final, final_message.
  rewrite utf8_ascii.
  2:{ unfold final_bare. repeat (apply Forall_app; split); try done; try apply b64_ascii;
      apply (bool_decide_unpack _); vm_compute; constructor. }
  cbn [negb]. rewrite final_fields_message by (rewrite elem_of_app; tauto).
  rewrite bool_decide_eq_true_2 by done. cbn [negb from_option id].
  change (pd_client_nonce p) with client_nonce. change (pd_server_nonce p) with nonce.
  rewrite starts_with_app, ends_with_app. cbn [negb orb ok_or rbind].
  rewrite b64_round. cbn [ok_or rbind].
  set (ck := hmac256 salted (lit "Client Key")). set (sig := hmac256 (sha256 ck) _).
  assert (length (xor_bytes ck sig) = 32%nat) as Hlen.
  { unfold xor_bytes, ck, sig. by rewrite length_zip_with, !hmac256_len. }
  unfold len at 1. rewrite Hlen. cbn [Z.of_nat Z.eqb negb Pos.of_succ_nat Pos.succ Pos.eqb].
  change (lit ",p=") with (x2c :: lit "p=").
  rewrite rsplit_once_app; [| by apply without | apply (b64_without _ _ comma_not_b64)].
  cbn [ok_or rbind]. change (hmac256 (pd_stored_key p) (auth_message p _)) with sig.
  rewrite xor_bytes_involutive by (unfold ck, sig; by rewrite !hmac256_len).
  change (pd_stored_key p) with (sha256 ck). unfold bytes_eqb. by rewrite bool_decide_eq_true_2.
Qed.

(** C31. A client that knows the password gets in: if the row of role [u] holds the
    verifier [postgres_verifier] writes for its salted password, RFC 5802's two
    messages, within the size limit, take the exchange from the handshake to
    [Authenticated u], and the reply to the second is the server's proof, computed
    with the server key over the same messages. *)
Theorem password_authenticates env env' it salt salted u client_nonce nonce :
  se_query_ok env = true → se_role env u = Some (postgres_verifier it salt salted) → 0 < it < 2 ^ 32 →
  server_nonce env = Ok nonce → u ≠ [] → client_nonce ≠ [] → forallb printable_nonce client_nonce = true →
  utf8_valid (first_message u client_nonce) = true →
  len (first_message u client_nonce) ≤ MAX_SASL_MESSAGE →
  let challenge := pd_server_first (opened it salt salted u client_nonce nonce) in
  let answer := final_message salted u client_nonce challenge (client_nonce ++ nonce) in
  len answer ≤ MAX_SASL_MESSAGE →
  ∃ pending, handshake AwaitingHandshake MECHANISM = Ok AwaitingFirst ∧
    step env AwaitingFirst (first_message u client_nonce) = Ok (challenge, AwaitingFinal pending) ∧
    step env' (AwaitingFinal pending) answer
    = Ok (lit "v=" ++ b64_encode (hmac256 (hmac256 salted (lit "Server Key"))
            (client_auth u client_nonce challenge (client_nonce ++ nonce))), Authenticated u).
Proof using b64_chars b64_round hmac256_len sha256_len.
  intros Hq Hrole Hit Hn Hu Hc Hp Hv Hl1 challenge answer Hl2.
  exists (opened it salt salted u client_nonce nonce). split; [done |]. unfold Sasl.step.
  rewrite !(proj2 (Z.ltb_ge _ _)) by done. split.
  - by apply client_first_opens.
  - apply client_final_accepts; [done | by eapply server_nonce_fresh].
Qed.

End Scram.

(** ** A concrete exchange

    Hashes that keep the first 32 bytes, and hexadecimal digits for base64, have the
    properties assumed above. *)

Module Toy.

Definition pad (m : bytes) : bytes := take 32 (m ++ replicate 32 x00).
Definition sha256 (m : bytes) : bytes := pad m.
Definition hmac256 (k m : bytes) : bytes := pad (rev m ++ k).
Definition nibble (n : Z) : byte := nth (Z.to_nat n) NONCE_ALPHABET x00.
Definition of_nibble (b : byte) : Z := if is_digit b then u8 b - 48 else u8 b - 87.
Fixpoint b64_encode (m : bytes) : bytes :=
  match m with
  | [] => []
  | b :: m' => nibble (u8 b / 16) :: nibble (u8 b mod 16) :: b64_encode m'
  end.
Fixpoint b64_decode (m : bytes) : option bytes :=
  match m with
  | [] => Some []
  | a :: b :: m' => r ← b64_decode m'; Some (as_u8 (16 * of_nibble a + of_nibble b) :: r)
  | _ => None
  end.

Lemma pad_len m : length (pad m) = 32%nat.
Proof. unfold pad. rewrite length_take, length_app, length_replicate. lia. Qed.

Lemma b64_round m : b64_decode (b64_encode m) = Some m.
Proof.
  induction m as [|b m IH]; [done |]. cbn [b64_encode b64_decode]. rewrite IH. cbn [mbind option_bind].
  do 2 f_equal. by destruct b; vm_compute.
Qed.

Lemma b64_chars m : Forall b64_char (b64_encode m).
Proof.
  assert (∀ n, 0 ≤ n < 16 → b64_char (nibble n)) as H.
  { assert (Forall (λ n, b64_char (nibble n)) (seqZ 0 16)) as Hall.
    { unfold b64_char. apply (bool_decide_unpack _). vm_compute. constructor. }
    rewrite Forall_forall in Hall. intros n Hn. apply Hall, elem_of_seqZ. lia. }
  induction m as [|b m IH]; cbn; [constructor |]. pose proof (u8_range b).
  constructor; [| constructor; [| done]]; apply H.
  - split; [apply Z.div_pos; lia | apply Z.div_lt_upper_bound; lia].
  - apply Z.mod_pos_bound. lia.
Qed.

Definition user : bytes := lit "ali,ce".
Definition client_nonce : bytes := lit "rOprNGfwEbeRWgbNEkqO".
Definition nonce : bytes := replicate 32 x61.
Definition salted : bytes := lit "salted password".
Definition row : bytes := postgres_verifier sha256 hmac256 b64_encode 4096 (lit "salt") salted.
Definition env : SaslEnv := mk_sasl_env
  (λ u, if bytes_eqb u user then Some row else None) (Some (lit "7")) (Some (lit "4096")) true
  [Some (replicate 64 x0a)].
Definition pending : Pending := opened sha256 hmac256 b64_encode 4096 (lit "salt") salted user client_nonce nonce.
Definition answer : bytes :=
  final_message sha256 hmac256 b64_encode salted user client_nonce (pd_server_first pending) (client_nonce ++ nonce).

Definition messages : list Message :=
  [Handshake (lit "PLAIN"); Handshake MECHANISM; Token env (lit "n,,n=user"); Token env (first_message user client_nonce);
   Token env answer].

Lemma reached : exchange sha256 hmac256 b64_encode b64_decode messages = Authenticated user.
Proof. vm_compute. reflexivity. Qed.

End Toy.

Lemma authenticated_only_by_proof_witness : ∃ env first challenge final bare client_nonce nonce v,
  Token env first ∈ Toy.messages ∧ Token env final ∈ Toy.messages ∧
  challenged Toy.b64_encode Toy.b64_decode env Toy.user first challenge bare client_nonce nonce v ∧
  proved Toy.sha256 Toy.hmac256 Toy.b64_decode v bare client_nonce nonce challenge final.
Proof.
  destruct (authenticated_only_by_proof _ _ _ _ Toy.messages Toy.user Toy.reached)
    as (ms0 & ms1 & ms2 & ms3 & env & first & env' & final & p & reply & v & Hms & _ & _ & _ & _ & _ & Hc & Hp).
  assert (∀ e t, Token e t ∈ Toy.messages → e = Toy.env) as Henv by (unfold Toy.messages; set_solver).
  assert (Token env first ∈ Toy.messages) as H1 by (rewrite Hms; set_solver).
  assert (Token env' final ∈ Toy.messages) as H2 by (rewrite Hms; set_solver).
  rewrite (Henv _ _ H2), <- (Henv _ _ H1) in H2.
  by exists env, first, (pd_server_first p), final, (pd_client_first_bare p), (pd_client_nonce p), (pd_server_nonce p), v.
Defined.

Lemma password_authenticates_witness : ∃ pending,
  step Toy.sha256 Toy.hmac256 Toy.b64_encode Toy.b64_decode Toy.env (AwaitingFinal pending) Toy.answer
  = Ok (lit "v=" ++ Toy.b64_encode (Toy.hmac256 (Toy.hmac256 Toy.salted (lit "Server Key"))
          (client_auth Toy.user Toy.client_nonce (pd_server_first Toy.pending) (Toy.client_nonce ++ Toy.nonce))),
        Authenticated Toy.user).
Proof.
  destruct (password_authenticates Toy.sha256 Toy.hmac256 Toy.b64_encode Toy.b64_decode Toy.pad_len
    (λ k m, Toy.pad_len _) Toy.b64_round Toy.b64_chars Toy.env Toy.env 4096 (lit "salt") Toy.salted Toy.user
    Toy.client_nonce Toy.nonce) as (p & _ & _ & H).
  1-2: vm_compute; reflexivity.
  1: lia.
  1: vm_compute; reflexivity.
  1-2: discriminate.
  1-2: vm_compute; reflexivity.
  1-2: vm_compute; discriminate.
  exists p. exact H.
Defined.
