(* ===== verification/ServerConn.v ===== *)
(** * extension/src/server/mod.rs: one connection

    A connection holds what it has read and not served, what it owes the peer, and
    what it knows of the peer.  The socket below it (std's [TcpStream], or rustls) is
    a [Stream]: the bytes the peer has sent that are still unread, and what the next
    calls of [read], [write] and [pump] give, one event per call; past the last event
    they would block.  [st_received] and [st_sent] are what the two ends have seen.
    The fields of [Conn] are in three groups: inbound, outbound, authentication. *)

From stdpp Require Import gmap strings.
From S2P Require Import Prelude Framing Sasl.

#[local] Open Scope Z_scope.

Definition READ_CHUNK_BYTES : Z := 65536.
Definition MAX_CONN_BUFFER_BYTES : Z := 8 * 1024 * 1024.
Definition MAX_OVERSIZE_TOTAL_BYTES : Z := 256 * 1024 * 1024.
Definition MAX_INBOUND_TOTAL_BYTES : Z := 512 * 1024 * 1024.
(** Durations are in milliseconds. *)
Definition MAX_MUTED : Z := 30000.

(** ** The socket *)

Inductive ReadEvent : Type :=
| RGive (n : nat)
| RClosed
| RUnexpectedEof
| RWouldBlock
| RInterrupted
| RFailed.

Inductive WriteEvent : Type :=
| WAccept (n : nat)
| WWouldBlock
| WInterrupted
| WFailed.

Record Stream : Type := mk_stream {
  st_incoming : bytes;
  st_reads : list ReadEvent;
  st_writes : list WriteEvent;
  st_pumps : list bool;
  st_handshake_done : bool;
  st_certificate : option bytes;
  st_received : bytes;
  st_sent : bytes }.

Definition pump (s : Stream) : bool * Stream :=
  match st_pumps s with
  | [] => (true, s)
  | b :: ps => (b, mk_stream (st_incoming s) (st_reads s) (st_writes s) ps (st_handshake_done s)
                     (st_certificate s) (st_received s) (st_sent s))
  end.

Definition set_writes (ws : list WriteEvent) (sent : bytes) (s : Stream) : Stream :=
  mk_stream (st_incoming s) (st_reads s) ws (st_pumps s) (st_handshake_done s) (st_certificate s)
    (st_received s) sent.
Definition set_reads (rs : list ReadEvent) (s : Stream) : Stream :=
  mk_stream (st_incoming s) rs (st_writes s) (st_pumps s) (st_handshake_done s) (st_certificate s)
    (st_received s) (st_sent s).
(** [read] hands over the next [k] bytes. *)
Definition give (k : nat) (rs : list ReadEvent) (s : Stream) : Stream :=
  mk_stream (drop k (st_incoming s)) rs (st_writes s) (st_pumps s) (st_handshake_done s) (st_certificate s)
    (st_received s ++ take k (st_incoming s)) (st_sent s).

(** ** The connection *)

Record Inbound : Type := mk_inbound {
  inbuf : bytes;
  frame_cap : Z;
  muted_since : option Z;
  reserved : Z;
  prefix_pending : bool;
  last_read : Z;
  parked_bytes : Z }.

Record Outbound : Type := mk_outbound {
  outbuf : bytes;
  next_seq : Z;
  flush_seq : Z;
  ready : gmap Z bytes;
  awaiting_sync : bool }.

Record Auth : Type := mk_auth {
  sasl : SaslState;
  sasl_failures : Z;
  sasl_raw : bool;
  tls_principal : option string;
  tls_checked : bool;
  opened_at : Z }.

Record Conn : Type := mk_conn {
  stream : Stream;
  peer : string;
  c_in : Inbound;
  c_out : Outbound;
  c_auth : Auth;
  retrying : bool;
  peer_closed : bool }.

Definition set_stream (s : Stream) (c : Conn) : Conn :=
  mk_conn s (peer c) (c_in c) (c_out c) (c_auth c) (retrying c) (peer_closed c).
Definition set_in (i : Inbound) (c : Conn) : Conn :=
  mk_conn (stream c) (peer c) i (c_out c) (c_auth c) (retrying c) (peer_closed c).
Definition set_out (o : Outbound) (c : Conn) : Conn :=
  mk_conn (stream c) (peer c) (c_in c) o (c_auth c) (retrying c) (peer_closed c).
Definition set_auth (a : Auth) (c : Conn) : Conn :=
  mk_conn (stream c) (peer c) (c_in c) (c_out c) a (retrying c) (peer_closed c).
Definition set_retrying (r : bool) (c : Conn) : Conn :=
  mk_conn (stream c) (peer c) (c_in c) (c_out c) (c_auth c) r (peer_closed c).
Definition set_peer_closed (c : Conn) : Conn :=
  mk_conn (stream c) (peer c) (c_in c) (c_out c) (c_auth c) (retrying c) true.

Definition set_outbuf (b : bytes) (o : Outbound) : Outbound :=
  mk_outbound b (next_seq o) (flush_seq o) (ready o) (awaiting_sync o).
Definition set_awaiting (b : bool) (c : Conn) : Conn :=
  let o := c_out c in set_out (mk_outbound (outbuf o) (next_seq o) (flush_seq o) (ready o) b) c.
Definition set_inbuf (b : bytes) (r : Z) (i : Inbound) : Inbound :=
  mk_inbound b (frame_cap i) (muted_since i) r (prefix_pending i) (last_read i) (parked_bytes i).
Definition set_parked_bytes (n : Z) (c : Conn) : Conn :=
  let i := c_in c in
  set_in (mk_inbound (inbuf i) (frame_cap i) (muted_since i) (reserved i) (prefix_pending i)
            (last_read i) n) c.

(** What [accept_new] makes of a new socket. *)
Definition new_conn (now : Z) (s : Stream) (addr : string) : Conn :=
  mk_conn s addr (mk_inbound [] MAX_CONN_BUFFER_BYTES None 0 false now 0)
    (mk_outbound [] 0 0 ∅ false) (mk_auth AwaitingHandshake 0 false None false now) false false.

(** ** Outbound *)

(** The loop of [flush]: [buf] is what is left to write. *)
Fixpoint write_loop (ws : list WriteEvent) (buf sent : bytes) : bool * list WriteEvent * bytes * bytes :=
  if bool_decide (buf = []) then (true, ws, buf, sent)
  else match ws with
       | [] => (true, [], buf, sent)
       | WAccept n :: ws' =>
           let k := Nat.min n (length buf) in
           if (k =? 0)%nat then (false, ws', buf, sent)
           else write_loop ws' (drop k buf) (sent ++ take k buf)
       | WWouldBlock :: ws' => (true, ws', buf, sent)
       | WInterrupted :: ws' => write_loop ws' buf sent
       | WFailed :: ws' => (false, ws', buf, sent)
       end.

Definition flush (c : Conn) : bool * Conn :=
  let '(ok, s) := pump (stream c) in
  if negb ok then (false, set_stream s c)
  else
    let '(ok, ws, rest, sent) := write_loop (st_writes s) (outbuf (c_out c)) (st_sent s) in
    let c := set_stream (set_writes ws sent s) c in
    if ok : bool then (true, set_out (set_outbuf rest (c_out c)) c) else (false, c).

Definition flush_unless_held (c : Conn) : bool * Conn :=
  if peer_closed c then (true, set_out (set_outbuf [] (c_out c)) c)
  else if awaiting_sync (c_out c) then
    let '(ok, s) := pump (stream c) in (ok, set_stream s c)
  else flush c.

Definition reserve (c : Conn) : Z * Conn :=
  let o := c_out c in
  (next_seq o, set_out (mk_outbound (outbuf o) (next_seq o + 1) (flush_seq o) (ready o) (awaiting_sync o)) c).

Definition queued_bytes (c : Conn) : Z :=
  len (outbuf (c_out c)) + map_fold (λ _ b n, len b + n) 0 (ready (c_out c)).

(** The [while] of [complete]; each round takes an entry of [ready]. *)
Fixpoint release_ready (fuel : nat) (o : Outbound) : Outbound :=
  match fuel with
  | O => o
  | S fuel =>
      match ready o !! flush_seq o with
      | Some b => release_ready fuel
          (mk_outbound (outbuf o ++ b) (next_seq o) (flush_seq o + 1) (delete (flush_seq o) (ready o))
             (awaiting_sync o))
      | None => o
      end
  end.
Definition complete (seq : Z) (b : bytes) (c : Conn) : Conn :=
  let o := c_out c in
  let m := <[seq := b]> (ready o) in
  set_out (release_ready (size m) (mk_outbound (outbuf o) (next_seq o) (flush_seq o) m (awaiting_sync o))) c.

(** ** Inbound *)

Definition claim (c : Conn) : Z := Z.max (len (inbuf (c_in c))) (reserved (c_in c)) + parked_bytes (c_in c).

Definition stalled_in_body (c : Conn) : bool :=
  let i := c_in c in
  (len (inbuf i) <? reserved i) && negb (prefix_pending i && (reserved i <=? len (inbuf i) + 4)).

Inductive ReadResult : Type := ReadOk | ReadClosed | ReadFatal.

(** The loop of [read_available], an event per [read]. *)
Fixpoint read_loop (rs : list ReadEvent) (cap now : Z) (c : Conn) : ReadResult * Conn :=
  let i := c_in c in
  let stop rs := set_stream (set_reads rs (stream c)) c in
  if cap <=? len (inbuf i) then (ReadOk, stop rs)
  else match rs with
       | [] => (ReadOk, stop [])
       | RGive n :: rs' =>
           let want := Z.min (cap - len (inbuf i)) READ_CHUNK_BYTES in
           let k := Nat.min n (Nat.min (Z.to_nat want) (length (st_incoming (stream c)))) in
           if (k =? 0)%nat then (ReadOk, stop rs')
           else
             let chunk := take k (st_incoming (stream c)) in
             read_loop rs' cap now
               (set_stream (give k rs' (stream c))
                  (set_in (mk_inbound (inbuf i ++ chunk) (frame_cap i) (muted_since i) (reserved i)
                             (prefix_pending i) now (parked_bytes i)) c))
       | RClosed :: rs' | RUnexpectedEof :: rs' => (ReadClosed, stop rs')
       | RWouldBlock :: rs' => (ReadOk, stop rs')
       | RInterrupted :: rs' => read_loop rs' cap now c
       | RFailed :: rs' => (ReadFatal, stop rs')
       end.
Definition read_available (cap now : Z) (c : Conn) : ReadResult * Conn :=
  read_loop (st_reads (stream c)) cap now c.

Definition admits (reserved step budget : Z) : bool := (step =? 0) || (reserved + step <=? budget).

(** The size of the next step: a body whose prefix has arrived, or a prefix. *)
Definition next_step (i : Inbound) : Z :=
  if prefix_pending i then
    Z.max (wrap_i 32 (be_val (slice (Z.to_nat (reserved i - 4)) 4 (inbuf i)))) 0
  else 4.

(** [None] when the fuel ran out. *)
Fixpoint admit_loop (fuel : nat) (budget now : Z) (c : Conn) : option (ReadResult * Conn) :=
  match fuel with
  | O => None
  | S fuel =>
      let i := c_in c in
      if len (inbuf i) <? reserved i then
        match read_available (reserved i) now c with
        | (ReadOk, c') => if len (inbuf (c_in c')) =? len (inbuf i) then Some (ReadOk, c')
                          else admit_loop fuel budget now c'
        | other => Some other
        end
      else
        let step := next_step i in
        if negb (admits (reserved i) step budget) then
          Some (ReadOk, set_in (mk_inbound (inbuf i) (frame_cap i) (Some (default now (muted_since i)))
                                  (reserved i) (prefix_pending i) (last_read i) (parked_bytes i)) c)
        else
          admit_loop fuel budget now
            (set_in (mk_inbound (inbuf i) (frame_cap i) None (reserved i + step)
                       (negb (prefix_pending i)) (last_read i) (parked_bytes i)) c)
  end.
(** Every round that reads uses up an event, and at most two steps are admitted
    between reads. *)
Definition admit_fuel (c : Conn) : nat := 3 * length (st_reads (stream c)) + 4.
Definition read_admitted (budget now : Z) (c : Conn) : ReadResult * Conn :=
  default (ReadOk, c) (admit_loop (admit_fuel c) budget now c).

Definition set_frame_cap (cap : Z) (c : Conn) : Conn :=
  let i := c_in c in
  set_in (mk_inbound (inbuf i) cap (muted_since i) (reserved i) (prefix_pending i) (last_read i)
            (parked_bytes i)) c.
