(* ===== verification/ServerInbound.v ===== *)
(** * Admission of inbound bytes (ServerConn.v)

    A connection reads only bytes it was granted: whole frames, then possibly the
    bare prefix of the next one.  [layout] says how the buffer lies in what was
    granted; reading and admitting keep it, the loop ends, and what is granted stays
    within the budget. *)

From stdpp Require Import gmap strings.
From S2P Require Import Prelude Framing Sasl ServerConn.

#[local] Open Scope Z_scope.

(** The size a prefix announces, as the reader takes it. *)
Definition announced (p : bytes) : Z := Z.max (wrap_i 32 (be_val p)) 0.

(** [b] is the buffer, [r] what was granted, [pending] whether the last grant is a
    bare prefix.  When [strict], a pending prefix that has arrived announces a body. *)
Inductive layout (strict : bool) : bytes → Z → bool → Prop :=
| lay_none : layout strict [] 0 false
| lay_prefix b : len b ≤ 4 → (strict = true → len b = 4 → 0 < announced b) → layout strict b 4 true
| lay_part p g n : length p = 4%nat → n = announced p → len g < n → layout strict (p ++ g) (4 + n) false
| lay_frame p f b r pending : length p = 4%nat → len f = announced p → layout strict b r pending →
    layout strict (p ++ f ++ b) (4 + len f + r) pending.
#[export] Hint Constructors layout : kafgres.

Lemma len_prefix (p : bytes) : length p = 4%nat → len p = 4.
Proof. unfold len. lia. Qed.

Lemma layout_bound strict b r pending : layout strict b r pending → len b ≤ r ∧ (pending = true → 4 ≤ r).
Proof.
  induction 1 as [|b Hb|p g n Hp Hn Hg|p f b r pd Hp Hf Hl IH].
  - done.
  - done.
  - rewrite len_app, (len_prefix p) by done. split; [lia | done].
  - rewrite !len_app, (len_prefix p) by done. pose proof (len_nonneg f).
    destruct IH as [IH1 IH2]. split; [lia | intros Hpd; specialize (IH2 Hpd); lia].
Qed.

Lemma layout_relax strict b r pending : layout strict b r pending → layout false b r pending.
Proof. induction 1; eauto with kafgres. by apply lay_prefix. Qed.

(** A prefix that has not arrived whole announces nothing yet. *)
Lemma layout_short b r pending : layout false b r pending → len b < r → layout true b r pending.
Proof.
  induction 1 as [|b Hb|p g n Hp Hn Hg|p f b r pd Hp Hf Hl IH]; intros Hlt; eauto with kafgres.
  - apply lay_prefix; [done | lia].
  - apply lay_frame; try done. apply IH. rewrite !len_app, (len_prefix p) in Hlt by done. lia.
Qed.

Lemma layout_read b r pending chunk :
  layout false b r pending → len (b ++ chunk) ≤ r → layout false (b ++ chunk) r pending.
Proof.
  induction 1 as [|b Hb|p g n Hp Hn Hg|p f b r pd Hp Hf Hl IH]; intros Hle.
  - destruct chunk; [constructor |]. rewrite len_app, len_cons in Hle. pose proof (len_nonneg chunk).
    change (len []) with 0 in Hle. lia.
  - by apply lay_prefix.
  - rewrite <- app_assoc in *. rewrite len_app, (len_prefix p) in Hle by done.
    destruct (Z.lt_ge_cases (len (g ++ chunk)) n) as [Hlt|Hge]; [by apply lay_part |].
    replace n with (len (g ++ chunk) + 0) by lia.
    rewrite <- (app_nil_r (p ++ g ++ chunk)), <- app_assoc.
    replace (4 + (len (g ++ chunk) + 0)) with (4 + len (g ++ chunk) + 0) by lia.
    apply lay_frame; [done | lia | constructor].
  - rewrite <- !app_assoc in *. rewrite !len_app, (len_prefix p) in Hle by done.
    apply lay_frame; try done. apply IH. rewrite len_app. lia.
Qed.

Lemma layout_admit_prefix b r : layout false b r false → len b = r → layout false b (r + 4) true.
Proof.
  remember false as pd eqn:E in |- * at 1. revert E.
  intros -> H. remember false as pd eqn:Epd in H at 2. revert Epd.
  induction H as [|b Hb|p g n Hp Hn Hg|p f b r pd Hp Hf Hl IH]; intros Epd Hlen; try done.
  - cbn. apply lay_prefix; [done | done].
  - rewrite len_app, (len_prefix p) in Hlen by done. lia.
  - rewrite !len_app, (len_prefix p) in Hlen by done.
    replace (4 + len f + r + 4) with (4 + len f + (r + 4)) by lia. apply lay_frame; try done.
    apply IH; [done | lia].
Qed.

Lemma slice_skip off n (a b : bytes) : off = length a → slice (off + n) 4 (a ++ b) = slice n 4 b.
Proof.
  intros ->. unfold slice. rewrite drop_app_ge by lia. do 2 f_equal. lia.
Qed.

Lemma layout_admit_body b r : layout false b r true → len b = r →
  let step := announced (slice (Z.to_nat (r - 4)) 4 b) in
  layout false b (r + step) false ∧ (0 < step → layout true b r true).
Proof.
  intros H. remember true as pd eqn:Epd in H. revert Epd.
  induction H as [|b Hb|p g n Hp Hn Hg|p f b r pd Hp Hf Hl IH]; intros Epd Hlen; try done; cbv zeta.
  - change (slice (Z.to_nat (4 - 4)) 4 b) with (take 4 b). rewrite take_ge by (unfold len in *; lia).
    assert (length b = 4%nat) as Hb4 by (unfold len in *; lia). split; [| intros; by apply lay_prefix].
    destruct (Z.lt_ge_cases 0 (announced b)) as [Hlt|Hge].
    + rewrite <- (app_nil_r b) at 1. apply lay_part; [done | done |]. done.
    + assert (announced b = 0) as E0 by (unfold announced in *; lia). rewrite E0.
      rewrite <- (app_nil_r b) at 1. change (b ++ []) with (b ++ [] ++ []).
      apply (lay_frame false b [] [] 0 false); [done | by rewrite E0 | constructor].
  - rewrite !len_app, (len_prefix p) in Hlen by done.
    destruct (layout_bound _ _ _ _ Hl) as [_ H4]. specialize (H4 Epd).
    destruct IH as [IH1 IH2]; [done | lia |]. cbv zeta in IH1, IH2.
    assert (slice (Z.to_nat (4 + len f + r - 4)) 4 (p ++ f ++ b) = slice (Z.to_nat (r - 4)) 4 b) as Es.
    { replace (Z.to_nat (4 + len f + r - 4)) with (length (p ++ f) + Z.to_nat (r - 4))%nat
        by (rewrite length_app, Hp; unfold len; lia).
      rewrite app_assoc. by apply slice_skip. }
    rewrite Es. split.
    + rewrite <- Z.add_assoc. by apply lay_frame.
    + intros Hs. apply lay_frame; try done. by apply IH2.
Qed.

(** The framer takes a frame off the front: what is left is granted still. *)
Lemma be_bytes_announced p : length p = 4%nat → 0 ≤ wrap_i 32 (be_val p) → be_bytes 4 (wrap_i 32 (be_val p)) = p.
Proof.
  intros Hp Hn. pose proof (be_val_range p) as Hb. rewrite (len_prefix p Hp) in Hb.
  assert (wrap_i 32 (be_val p) = be_val p) as ->.
  { unfold wrap_i in *. rewrite Z.mod_small in * by (change (2 ^ 32) with (256 ^ 4); lia).
    destruct (_ <? _); [done |]. change (2 ^ 32) with (256 ^ 4) in Hn. lia. }
  rewrite <- Hp. apply be_bytes_be_val.
Qed.

Lemma layout_take max b r pending f rest :
  layout true b r pending → take_frame max b = (Ok (Some f), rest) →
  layout true rest (r - (4 + len f)) pending ∧ b = framed f ++ rest.
Proof.
  intros Hl Ht. pose proof (take_frame_cases max b) as Hc. rewrite Ht in Hc.
  inversion Hc as [| | |d p body rst Hb Hp Hd Hw Hr]; subst. clear Hc Ht.
  assert (framed f = p ++ f) as Hf.
  { unfold framed. rewrite Hw, be_bytes_announced by (done || lia). done. }
  split; [| by rewrite Hf, <- app_assoc].
  assert (announced p = len f) as Ha by (unfold announced; lia).
  remember (p ++ f ++ rest) as b eqn:Eb.
  destruct Hl as [|b Hb4 Hs|p' g n Hp' Hn Hg|p' f' b r pd Hp' Hf' Hl].
  - destruct p; [done | discriminate Eb].
  - exfalso. rewrite Eb, !len_app, (len_prefix p) in Hb4 by done.
    pose proof (len_nonneg f). pose proof (len_nonneg rest).
    assert (len b = 4) as E4 by (rewrite Eb, !len_app, (len_prefix p) by done; lia).
    specialize (Hs eq_refl E4). assert (f = []) as -> by (destruct f; [done | rewrite len_cons in *; pose proof (len_nonneg f); lia]).
    assert (rest = []) as -> by (destruct rest; [done | rewrite len_cons in *; pose proof (len_nonneg rest); lia]).
    rewrite Eb, !app_nil_r in Hs. change (len []) with 0 in Ha. lia.
  - apply app_inj_1 in Eb as [-> ->]; [| by rewrite Hp, Hp']. exfalso.
    rewrite len_app in Hg. pose proof (len_nonneg rest). lia.
  - apply app_inj_1 in Eb as [-> Eb]; [| by rewrite Hp, Hp'].
    apply app_inj_1 in Eb as [-> ->]; [| unfold len in *; lia].
    by replace (4 + len f + r - (4 + len f)) with r by lia.
Qed.

(** ** Reading *)

(** What reading may change of a connection: the unread bytes move to the buffer,
    the first ones first. *)
Record read_by (c c' : Conn) (chunk : bytes) : Prop := mk_read_by {
  rb_inbuf : inbuf (c_in c') = inbuf (c_in c) ++ chunk;
  rb_received : st_received (stream c') = st_received (stream c) ++ chunk;
  rb_sent : st_sent (stream c') = st_sent (stream c);
  rb_out : c_out c' = c_out c;
  rb_auth : c_auth c' = c_auth c;
  rb_retrying : retrying c' = retrying c;
  rb_closed : peer_closed c' = peer_closed c;
  rb_parked : parked_bytes (c_in c') = parked_bytes (c_in c) }.

Lemma read_by_refl c : read_by c c [].
Proof. split; by rewrite ?app_nil_r. Qed.

Lemma read_by_trans c1 c2 c3 a b : read_by c1 c2 a → read_by c2 c3 b → read_by c1 c3 (a ++ b).
Proof.
  intros [] []. split; try congruence.
  - by rewrite app_assoc; congruence.
  - by rewrite app_assoc; congruence.
Qed.

Lemma read_loop_spec rs cap now c : len (inbuf (c_in c)) ≤ cap →
  let '(r, c') := read_loop rs cap now c in
  ∃ chunk, read_by c c' chunk ∧ reserved (c_in c') = reserved (c_in c) ∧
    prefix_pending (c_in c') = prefix_pending (c_in c) ∧
    len (inbuf (c_in c')) ≤ cap ∧
    (r ≠ ReadOk → len (inbuf (c_in c')) < cap) ∧
    (length (st_reads (stream c')) ≤ length rs)%nat ∧
    (chunk ≠ [] → (length (st_reads (stream c')) < length rs)%nat).
Proof.
  revert c. induction rs as [|ev rs IH]; intros c Hc; cbn [read_loop].
  - destruct (_ <=? _); exists []; (split; [by split; rewrite ?app_nil_r |]); cbn; split_and!; try done; lia.
  - destruct (Z.leb_spec cap (len (inbuf (c_in c)))) as [Hge|Hlt].
    { exists []. split; [by split; rewrite ?app_nil_r |]. cbn. split_and!; try done; lia. }
    assert (∀ r, ∃ chunk, read_by c (set_stream (set_reads rs (stream c)) c) chunk ∧
      reserved (c_in c) = reserved (c_in c) ∧ prefix_pending (c_in c) = prefix_pending (c_in c) ∧
      len (inbuf (c_in c)) ≤ cap ∧ (r ≠ ReadOk → len (inbuf (c_in c)) < cap) ∧
      (length rs ≤ S (length rs))%nat ∧ (chunk ≠ [] → (length rs < S (length rs))%nat)) as Hstop.
    { intros r. exists []. split; [by split; rewrite ?app_nil_r |]. split_and!; try done; lia. }
    destruct ev; try apply Hstop; cbv zeta.
    + set (k := Nat.min _ _). destruct (Nat.eqb_spec k 0); [apply (Hstop ReadOk) |].
      set (chunk := take k _). set (c1 := set_stream _ _).
      assert (len chunk ≤ cap - len (inbuf (c_in c))) as Hk.
      { unfold chunk, len at 1. rewrite length_take. subst k. lia. }
      specialize (IH c1). destruct (read_loop rs cap now c1) as [r c2].
      destruct IH as (ch & Hby & Hr & Hp & Hle & Hne & Hl1 & Hl2); [cbn; rewrite len_app; lia |].
      exists (chunk ++ ch). split; [eapply read_by_trans; [| apply Hby]; by split |].
      cbn in *. split_and!; try done; lia.
    + specialize (IH c Hc). destruct (read_loop rs cap now c) as [r c2].
      destruct IH as (ch & Hby & Hr & Hp & Hle & Hne & Hl1 & Hl2). exists ch. cbn.
      split_and!; try done; lia.
Qed.

(** ** The admission loop *)

(** What is granted and how the buffer lies in it. *)
Definition in_layout (strict : bool) (c : Conn) : Prop :=
  layout strict (inbuf (c_in c)) (reserved (c_in c)) (prefix_pending (c_in c)).

(** Rounds the loop still needs: a read, or up to two grants before one. *)
Definition rounds_left (c : Conn) : nat :=
  3 * length (st_reads (stream c))
  + (if len (inbuf (c_in c)) <? reserved (c_in c) then 1 else if prefix_pending (c_in c) then 3 else 2).

Lemma rounds_left_fuel c : (rounds_left c <= admit_fuel c)%nat.
Proof. unfold rounds_left, admit_fuel. destruct (_ <? _), (prefix_pending (c_in c)); lia. Qed.

Lemma rounds_left_le c : (rounds_left c <= 3 * length (st_reads (stream c)) + 3)%nat.
Proof. unfold rounds_left. destruct (_ <? _), (prefix_pending (c_in c)); lia. Qed.

(** The loop grants [4] bytes, or a body: what that makes of the connection. *)
Definition grant (step : Z) (c : Conn) : Conn :=
  let i := c_in c in
  set_in (mk_inbound (inbuf i) (frame_cap i) None (reserved i + step) (negb (prefix_pending i))
            (last_read i) (parked_bytes i)) c.

Lemma grant_layout c : in_layout false c → reserved (c_in c) ≤ len (inbuf (c_in c)) →
  in_layout false (grant (next_step (c_in c)) c) ∧ 0 ≤ next_step (c_in c) ∧
  (0 < next_step (c_in c) → in_layout true c).
Proof.
  unfold in_layout, grant, next_step. intros Hl Hge. cbn.
  destruct (layout_bound _ _ _ _ Hl) as [Hle _].
  destruct (prefix_pending (c_in c)) eqn:Ep; cbn.
  - destruct (layout_admit_body _ _ Hl ltac:(lia)) as [H1 H2]. unfold announced in *.
    split_and!; [done | lia | done].
  - split_and!; [by apply layout_admit_prefix; [| lia] | lia | intros _].
    clear Hge Hle. remember false as pd eqn:E in Hl at 2 |- *. revert E. induction Hl; intros; eauto with kafgres.
Qed.

Lemma grant_rounds c : reserved (c_in c) ≤ len (inbuf (c_in c)) → len (inbuf (c_in c)) ≤ reserved (c_in c) →
  0 ≤ next_step (c_in c) →
  (rounds_left (grant (next_step (c_in c)) c) < rounds_left c)%nat.
Proof.
  intros Hge Hle Hs. unfold rounds_left, grant, next_step in *. cbn.
  rewrite (proj2 (Z.ltb_ge (len (inbuf (c_in c))) (reserved (c_in c)))) by lia.
  destruct (prefix_pending (c_in c)); cbn [negb];
    match goal with |- context [?a <? ?b] => destruct (Z.ltb_spec a b) end; lia.
Qed.

(** What the loop does, whatever it reads: it ends, keeps the layout, and grants no
    more than the budget. *)
Record admitted (budget : Z) (c c' : Conn) : Prop := mk_admitted {
  ad_read : ∃ chunk, read_by c c' chunk;
  ad_layout : in_layout true c';
  ad_budget : reserved (c_in c') ≤ Z.max (reserved (c_in c)) budget }.

Lemma admit_loop_spec fuel budget now c :
  in_layout false c → (rounds_left c <= fuel)%nat →
  ∃ r c', admit_loop fuel budget now c = Some (r, c') ∧ admitted budget c c'.
Proof.
  revert c. induction fuel as [|fuel IH]; intros c Hl Hf.
  { unfold rounds_left in Hf. destruct (_ <? _), (prefix_pending (c_in c)); lia. }
  cbn [admit_loop]. destruct (layout_bound _ _ _ _ Hl) as [Hle _].
  destruct (Z.ltb_spec (len (inbuf (c_in c))) (reserved (c_in c))) as [Hlt|Hge].
  - pose proof (read_loop_spec (st_reads (stream c)) (reserved (c_in c)) now c Hle) as Hr.
    unfold read_available. destruct (read_loop _ _ _ _) as [r c1].
    destruct Hr as (ch & Hby & Hres & Hpp & Hle1 & Hne & Hl1 & Hl2).
    assert (in_layout false c1) as Hlay.
    { unfold in_layout. rewrite Hres, Hpp, (rb_inbuf _ _ _ Hby) in *. by apply layout_read. }
    assert (len (inbuf (c_in c1)) < reserved (c_in c) → admitted budget c c1) as Hdone.
    { intros Hsh. split; [by exists ch | | lia]. apply layout_short; [done | lia]. }
    destruct r; [| eexists _, _; split; [done |]; apply Hdone, Hne; done..].
    destruct (Z.eqb_spec (len (inbuf (c_in c1))) (len (inbuf (c_in c)))).
    { eexists _, _. split; [done |]. apply Hdone. lia. }
    destruct (IH c1) as (r & c2 & -> & [[ch2 Hby2] Hlay2 Hb2]); [done | |].
    { pose proof (rounds_left_le c1). assert (ch ≠ []) as Hch.
      { intros ->. rewrite (rb_inbuf _ _ _ Hby), app_nil_r in *. done. }
      specialize (Hl2 Hch). unfold rounds_left in Hf at 1. rewrite (proj2 (Z.ltb_lt _ _) Hlt) in Hf. lia. }
    eexists _, _. split; [done |]. split; [eexists; by eapply read_by_trans | done | lia].
  - destruct (grant_layout c Hl Hge) as (Hg1 & Hg2 & Hg3). unfold admits.
    pose proof (grant_rounds c Hge Hle Hg2) as Hfuel.
    destruct (Z.eqb_spec (next_step (c_in c)) 0) as [E0|Hn0]; cbn [orb negb].
    2: destruct (Z.leb_spec (reserved (c_in c) + next_step (c_in c)) budget) as [Hb|Hb]; cbn [negb].
    3:{ eexists _, _. split; [done |]. split; [exists []; by split; rewrite ?app_nil_r | | cbn; lia].
        apply Hg3. lia. }
    all: destruct (IH (grant (next_step (c_in c)) c)) as (r & c2 & Hrun & [[ch2 Hby2] Hlay2 Hb2]); [done | lia |].
    all: unfold grant in Hrun; rewrite Hrun; eexists _, _; (split; [done |]).
    all: split; [exists ch2; by destruct Hby2; split | done |]; cbn in Hb2; lia.
Qed.

Lemma read_admitted_spec budget now c : in_layout false c →
  admitted budget c (read_admitted budget now c).2.
Proof.
  intros Hl. destruct (admit_loop_spec (admit_fuel c) budget now c Hl (rounds_left_fuel c)) as (r & c' & E & Ha).
  unfold read_admitted. by rewrite E.
Qed.
