(* ===== verification/Server.v ===== *)
(** * extension/src/server/: the event loop, dispatch and parked requests

    One worker serves every connection.  A pass accepts, retries the requests parked
    behind table locks, reads and serves each connection, runs the sweeps, completes
    parked requests, makes what was appended durable and flushes.  [Server] is the
    source's struct, without the quota windows, the TLS setup and the spare
    descriptor.

    A handler is a call of [Host]: what it answers and what it leaves behind in [E],
    the database, the log and the clock, with [guarded_tx] around it.  The handlers
    themselves are in the files of this library they are modelled in; the loop is
    proved for any of them.  A call of the produce handler also tells the host which
    connection the request is of and at which place, for hosts that record their calls
    (ServerTheorems.v).  Generated decoders and encoders, settings and the
    iteration order of a hash map come from [Host] too. *)

From stdpp Require Import gmap strings.
From S2P Require Import Prelude Errors Primitives Framing Header Acl Group Txn Produce Fetch Sasl ServerConn.

#[local] Open Scope Z_scope.

Definition MAX_CONNECTIONS : Z := 512.
Definition MAX_REQUESTS_PER_TICK : nat := 64.
Definition MAX_PARKED : Z := 4096.
Definition MAX_FETCH_WAIT : Z := 5000.
Definition MAX_LOCK_RETRY : Z := 10000.
Definition MIN_RETRY_BACKOFF : Z := 5.
Definition MAX_RETRY_BACKOFF : Z := 50.
Definition MAX_SASL_FAILURES : Z := 3.
Definition AUTH_DEADLINE : Z := 30000.
Definition SASL_HANDSHAKE_KEY : Z := 17.
Definition SASL_AUTHENTICATE_KEY : Z := 36.

Definition saturating_sub (a b : Z) : Z := Z.max 0 (a - b).

(** ** Requests and responses: handlers/mod.rs *)

Record Request : Type := mk_request {
  req_api_key : Z;
  req_api_version : Z;
  req_correlation_id : Z;
  req_client_id : option bytes;
  req_body : bytes }.

Definition parse (frame : bytes) : result CodecError (Request * Negotiation) :=
  let? (api_key, api_version) := peek_api frame in
  let outcome := negotiate api_key api_version in
  let? header_version :=
    match outcome with
    | Supported => request_header_version api_key api_version
    | _ => Ok (if (3 <=? api_version) && (api_key =? API_VERSIONS_KEY) then 2 else 1)
    end in
  match rq_decode header_version frame with
  | (Err e, _) => Err e
  | (Ok header, buf) =>
      Ok (mk_request api_key api_version (rq_correlation_id header) (rq_client_id header) buf, outcome)
  end.

(** A message to encode: its size and its bytes, or the error of its encoder. *)
Record Body : Type := mk_body { body_size : Z; body_bytes : result CodecError bytes }.
Definition encode_body (b : Body) : codec unit := λ out,
  match body_bytes b with
  | Ok bs => (Ok tt, out ++ bs)
  | Err e => (Err e, out)
  end.

Definition write_response (out : bytes) (api_key api_version correlation_id : Z) (body : Body)
    : result HandlerError bytes :=
  match response_header_version api_key api_version with
  | Err e => Err (Codec e)
  | Ok header_version =>
      let header := mk_ResponseHeader correlation_id [] in
      let total := rs_size header header_version + body_size body in
      if MAX_RESPONSE_BYTES + RESPONSE_HEADROOM <? total then Err (TooLarge "response" total)
      else match write_frame (rs_encode header header_version ;;; encode_body body) out with
           | (Ok _, out) => Ok out
           | (Err e, _) => Err (Codec e)
           end
  end.

(** ** What requests wait for *)

Record FetchAsk : Type := mk_fetch_ask {
  fa_request : Fetching.FetchRequest;
  fa_min_bytes : Z;
  fa_max_wait_ms : Z }.
Record SyncAsk : Type := mk_sync_ask {
  sq_group_id : string;
  sq_member_id : string;
  sq_generation : Z;
  sq_assignments : list (string * bytes) }.

Inductive Waiting : Type :=
| WFetch (request : FetchAsk) (watching : list (Z * Z)) (min_bytes : Z)
| WJoin (group_id member_id : string)
| WSync (group_id member_id : string)
| WRetry (request : Request).

Definition is_retry (w : Waiting) : bool := match w with WRetry _ => true | _ => false end.

Record Parked : Type := mk_parked {
  pk_conn_id : Z;
  pk_seq : Z;
  pk_correlation_id : Z;
  pk_api_key : Z;
  pk_api_version : Z;
  pk_client_id : bytes;
  pk_deadline : Z;
  pk_waiting : Waiting }.

Inductive Rate : Type := RateProducer | RateConsumer.
Inductive GroupKind : Type := Classic | Consumer | ShareKind.
#[export] Instance group_kind_eq : EqDecision GroupKind.
Proof. solve_decision. Defined.

Record Server : Type := mk_server {
  conns : gmap Z Conn;
  next_id : Z;
  parked : list Parked;
  appended : gset (Z * Z);
  groups_changed : gset string;
  tick : Z;
  producer_backlog : bool;
  retention_cursor : Z;
  srv_acls : AclCache;
  unsynced : gset (Z * Z);
  sync_failed_passes : Z;
  served : Z;
  ticked : bool;
  retry_at : Z;
  retry_backoff : Z }.

(** What the listener gives next, a call at a time; past the last it would block. *)
Inductive AcceptEvent : Type :=
| AConnection (s : Stream) (addr : string)
| ARefused
| AInterrupted
| AStop.

(** ** The interface to handlers, settings and the rest of the process *)

Class Host (E : Type) := {
  clock : E → Z;
  conn_order : gset Z → E → list Z;
  part_order : gset (Z * Z) → E → list (Z * Z);
  sasl_required : E → bool;
  fsync_before_ack : E → bool;
  max_request_bytes : E → Z;
  retention_check_ticks : E → Z;
  principal_from_cert : bytes → option string;
  sha256 : bytes → bytes;
  hmac256 : bytes → bytes → bytes;
  b64_encode : bytes → bytes;
  b64_decode : bytes → option bytes;
  decode_fetch : Z → bytes → result CodecError FetchAsk;
  decode_join : Z → bytes → result CodecError JoinGroupRequest;
  decode_sync : Z → bytes → result CodecError SyncAsk;
  decode_handshake : Z → bytes → result CodecError bytes;
  decode_authenticate : Z → bytes → result CodecError bytes;
  decode_member : Z → Z → bytes → option (string * string);
  encode_api_versions : ErrorCode.t → Z → Body;
  encode_produce : list TopicResponse → Z → Z → Body;
  encode_fetch : list Fetching.FetchableTopicResponse → Z → Z → Body;
  encode_join : JoinGroupResponse → Z → Body;
  encode_sync : SyncGroupResponse → Z → Body;
  encode_handshake : ErrorCode.t → Z → Body;
  encode_authenticate : ErrorCode.t → bytes → Z → Body;
  run_produce : Z → Z → Request → AclCache → Principal → E → result HandlerError ProduceOutcome * E;
  run_fetch : FetchAsk → AclCache → Principal → bool → E →
    result HandlerError (list Fetching.FetchableTopicResponse * list (Z * Z)) * E;
  run_join : JoinGroupRequest → Z → bytes → string → AclCache → Principal → E →
    result HandlerError JoinOutcome * E;
  run_sync : SyncAsk → AclCache → Principal → E → result HandlerError SyncOutcome * E;
  run_leave : Request → AclCache → Principal → E → result HandlerError (string * Body) * E;
  run_handler : Request → AclCache → Principal → E → result HandlerError Body * E;
  run_parked_join : bool → string → string → E → result HandlerError (option JoinGroupResponse) * E;
  run_parked_sync : string → string → E → result HandlerError (option SyncGroupResponse) * E;
  sasl_tx : E → result HandlerError SaslEnv * E;
  sync_partition : Z * Z → E → bool * E;
  charge_quota : Rate → string → bytes → Z → E → Z * E;
  load_acls : E → result HandlerError AclCache * E;
  sweep_groups : list (string * string) → E → result HandlerError (list string) * E;
  sweep_producers : E → result HandlerError Z * E;
  sweep_consumer_members : list (string * string) → E → E;
  sweep_share_state : list (string * string) → E → E;
  sweep_quotas : E → E;
  sweep_retention : Z → E → result HandlerError Z * E;
  raise_leader_epochs : E → bool * E;
  reconcile_markers : E → bool * E }.

(** ** The server's own state *)

Definition set_conns m s := mk_server m (next_id s) (parked s) (appended s) (groups_changed s) (tick s)
  (producer_backlog s) (retention_cursor s) (srv_acls s) (unsynced s) (sync_failed_passes s) (served s)
  (ticked s) (retry_at s) (retry_backoff s).
Definition set_next_id n s := mk_server (conns s) n (parked s) (appended s) (groups_changed s) (tick s)
  (producer_backlog s) (retention_cursor s) (srv_acls s) (unsynced s) (sync_failed_passes s) (served s)
  (ticked s) (retry_at s) (retry_backoff s).
Definition set_parked l s := mk_server (conns s) (next_id s) l (appended s) (groups_changed s) (tick s)
  (producer_backlog s) (retention_cursor s) (srv_acls s) (unsynced s) (sync_failed_passes s) (served s)
  (ticked s) (retry_at s) (retry_backoff s).
Definition set_doorbells a g s := mk_server (conns s) (next_id s) (parked s) a g (tick s)
  (producer_backlog s) (retention_cursor s) (srv_acls s) (unsynced s) (sync_failed_passes s) (served s)
  (ticked s) (retry_at s) (retry_backoff s).
Definition set_ticks t b s := mk_server (conns s) (next_id s) (parked s) (appended s) (groups_changed s) t
  (producer_backlog s) (retention_cursor s) (srv_acls s) (unsynced s) (sync_failed_passes s) (served s)
  b (retry_at s) (retry_backoff s).
Definition set_sweeps b n s := mk_server (conns s) (next_id s) (parked s) (appended s) (groups_changed s)
  (tick s) b n (srv_acls s) (unsynced s) (sync_failed_passes s) (served s)
  (ticked s) (retry_at s) (retry_backoff s).
Definition set_acls a s := mk_server (conns s) (next_id s) (parked s) (appended s) (groups_changed s)
  (tick s) (producer_backlog s) (retention_cursor s) a (unsynced s) (sync_failed_passes s) (served s)
  (ticked s) (retry_at s) (retry_backoff s).
Definition set_unsynced u n s := mk_server (conns s) (next_id s) (parked s) (appended s) (groups_changed s)
  (tick s) (producer_backlog s) (retention_cursor s) (srv_acls s) u n (served s)
  (ticked s) (retry_at s) (retry_backoff s).
Definition set_served n s := mk_server (conns s) (next_id s) (parked s) (appended s) (groups_changed s)
  (tick s) (producer_backlog s) (retention_cursor s) (srv_acls s) (unsynced s) (sync_failed_passes s) n
  (ticked s) (retry_at s) (retry_backoff s).
Definition set_retry at_ b s := mk_server (conns s) (next_id s) (parked s) (appended s) (groups_changed s)
  (tick s) (producer_backlog s) (retention_cursor s) (srv_acls s) (unsynced s) (sync_failed_passes s)
  (served s) (ticked s) at_ b.

Definition on_conn (id : Z) (f : Conn → Conn) (s : Server) : Server := set_conns (alter f id (conns s)) s.
Definition push_parked (p : Parked) (s : Server) : Server := set_parked (parked s ++ [p]) s.
Definition ring (ps : list (Z * Z)) (s : Server) : Server :=
  set_doorbells (appended s ∪ list_to_set ps) (groups_changed s) s.
Definition group_changed (g : string) (s : Server) : Server :=
  set_doorbells (appended s) ({[g]} ∪ groups_changed s) s.

Definition back_off (now : Z) (s : Server) : Server :=
  let b := Z.min (Z.max (retry_backoff s * 2) MIN_RETRY_BACKOFF) MAX_RETRY_BACKOFF in
  set_retry (now + b) b s.

Definition due (every_n_ticks : Z) (s : Server) : bool := ticked s && (tick s mod every_n_ticks =? 0).

Definition drop_conn (id : Z) (s : Server) : Server :=
  set_parked (List.filter (λ p, negb (pk_conn_id p =? id)) (parked s)) (set_conns (delete id (conns s)) s).

Definition is_authenticated (st : SaslState) : bool :=
  match st with Authenticated _ => true | _ => false end.
Definition conn_authenticated (c : Conn) : bool :=
  bool_decide (is_Some (tls_principal (c_auth c))) || is_authenticated (sasl (c_auth c)).
Definition authenticated (id : Z) (s : Server) : bool :=
  match conns s !! id with Some c => conn_authenticated c | None => false end.

Definition is_pre_auth_api (api_key : Z) : bool :=
  (api_key =? API_VERSIONS_KEY) || (api_key =? SASL_HANDSHAKE_KEY) || (api_key =? SASL_AUTHENTICATE_KEY).

(** Host without the port, and without the brackets of an IPv6 address. *)
Definition host_of (peer : string) : string :=
  let host := match rsplit_once (lit ":") (lit peer) with Some (h, _) => h | None => lit peer end in
  let host :=
    match strip_prefix (lit "[") host with
    | Some h => if ends_with (lit "]") h then take (length h - 1) h else host
    | None => host
    end in
  String.string_of_list_byte host.

Definition certificate (dn host : string) : Principal := mk_principal ("User:" +:+ dn) host.

Definition principal_of (id : Z) (s : Server) : Principal :=
  match conns s !! id with
  | None => anonymous ""
  | Some c =>
      let host := host_of (peer c) in
      match tls_principal (c_auth c), sasl (c_auth c) with
      | Some dn, _ => certificate dn host
      | None, Authenticated principal => Acl.user (String.string_of_list_byte principal) host
      | None, _ => anonymous host
      end
  end.

Definition conn_sasl (id : Z) (s : Server) : SaslState :=
  match conns s !! id with Some c => sasl (c_auth c) | None => AwaitingHandshake end.

Definition fetch_wait (max_wait_ms : Z) : Z :=
  if max_wait_ms <=? 0 then 0 else Z.min max_wait_ms MAX_FETCH_WAIT.

(** ** Computations on the server and its surroundings *)

Definition M (E A : Type) : Type := Server * E → A * (Server * E).
Definition mret {E A} (a : A) : M E A := λ w, (a, w).
Definition mbind' {E A B} (m : M E A) (k : A → M E B) : M E B := λ w, let '(a, w') := m w in k a w'.
Notation "'let!' x ':=' m 'in' k" := (mbind' m (λ x, k))
  (at level 10, x pattern, m at level 100, k at level 200) : rust_scope.
Notation "'do!' m 'in' k" := (mbind' m (λ _, k))
  (at level 10, m at level 100, k at level 200) : rust_scope.

Definition gets {E A} (f : Server → A) : M E A := λ w, (f w.1, w).
Definition modify {E} (f : Server → Server) : M E unit := λ w, (tt, (f w.1, w.2)).
Definition asks {E A} (f : E → A) : M E A := λ w, (f w.2, w).
Definition outside {E A} (f : E → A * E) : M E A := λ w, let '(a, e) := f w.2 in (a, (w.1, e)).
Definition outside_ {E} (f : E → E) : M E unit := λ w, (tt, (w.1, f w.2)).
(** A method of the connection, when there is one. *)
Definition with_conn {E A} (id : Z) (absent : A) (f : Conn → A * Conn) : M E A := λ w,
  match conns w.1 !! id with
  | None => (absent, w)
  | Some c => let '(a, c') := f c in (a, (set_conns (<[id := c']> (conns w.1)) w.1, w.2))
  end.

(** As a fallible computation. *)
Definition lift {E A} (m : M E A) : ST (Server * E) HandlerError A := λ w, let '(a, w') := m w in (Ok a, w').
Definition of_codec {E A} (r : result CodecError A) : ST (Server * E) HandlerError A := λ w,
  match r with Ok a => (Ok a, w) | Err e => (Err (Codec e), w) end.
Definition of_result {E A} (r : result HandlerError A) : ST (Server * E) HandlerError A := λ w, (r, w).

Section Loop.
Context {E : Type} {H : Host E}.

#[local] Abbreviation ctx := (ST (Server * E) HandlerError).

(** ** server/dispatch.rs *)

Inductive Disposition : Type := Reply (out : bytes) | NoReply | ParkedReply.

(** [Ctx]: the request, the connection it came on and its place in the order. *)
Record Ctx : Type := mk_ctx { cx_req : Request; cx_conn_id : Z; cx_seq : Z }.

Definition client_id (c : Ctx) : bytes := default [] (req_client_id (cx_req c)).

Definition reply (c : Ctx) (body : Z → Body) : ctx Disposition :=
  let r := cx_req c in
  let* out := of_result (write_response [] (req_api_key r) (req_api_version r) (req_correlation_id r)
                           (body (req_api_version r))) in
  ret (Reply out).

Definition charge (rate : Rate) (conn_id : Z) (client : bytes) (n : Z) : M E Z :=
  if n <=? 0 then mret 0
  else
    let! who := gets (principal_of conn_id) in
    outside (charge_quota rate (p_name who) client n).

Definition parking_full (s : Server) : bool := MAX_PARKED <=? Z.of_nat (length (parked s)).

Definition park (c : Ctx) (deadline : Z) (w : Waiting) : M E Disposition :=
  let r := cx_req c in
  do! modify (push_parked (mk_parked (cx_conn_id c) (cx_seq c) (req_correlation_id r) (req_api_key r)
                             (req_api_version r) (client_id c) deadline w)) in
  mret ParkedReply.

(** A handler's call, with the snapshot of the rules and the caller's identity. *)
Definition with_authz {A} (c : Ctx) (f : AclCache → Principal → E → result HandlerError A * E) : ctx A := λ w,
  let '(r, e) := f (srv_acls w.1) (principal_of (cx_conn_id c) w.1) w.2 in (r, (w.1, e)).

Definition serve_produce (c : Ctx) : ctx Disposition :=
  let* outcome := with_authz c (run_produce (cx_conn_id c) (cx_seq c) (cx_req c)) in
  lift (modify (ring (po_appended outcome))) ;;;
  let* fsync := lift (asks fsync_before_ack) in
  lift (if fsync && bool_decide (po_appended outcome ≠ []) then
          modify (λ s, on_conn (cx_conn_id c) (set_awaiting true)
                         (set_unsynced (unsynced s ∪ list_to_set (po_appended outcome)) (sync_failed_passes s) s))
        else mret tt) ;;;
  let* throttle := lift (charge RateProducer (cx_conn_id c) (client_id c) (po_bytes outcome)) in
  match po_response outcome with
  | None => ret NoReply
  | Some body => reply c (encode_produce body throttle)
  end.

Definition serve_fetch (c : Ctx) : ctx Disposition :=
  let* request := of_codec (decode_fetch (req_api_version (cx_req c)) (req_body (cx_req c))) in
  let* (body, watching) := with_authz c (λ a p, run_fetch request a p true) in
  let min_bytes := Z.max (fa_min_bytes request) 1 in
  let wait := fetch_wait (fa_max_wait_ms request) in
  let* full := lift (gets parking_full) in
  if (min_bytes <=? Fetching.records_bytes body) || Fetching.has_error body || (wait =? 0) || full then
    let* throttle := lift (charge RateConsumer (cx_conn_id c) (client_id c) (Fetching.records_bytes body)) in
    reply c (encode_fetch body throttle)
  else
    let* now := lift (asks clock) in
    lift (park c (now + wait) (WFetch request watching min_bytes)).

Definition peer_of (id : Z) (s : Server) : string :=
  match conns s !! id with Some c => peer c | None => ""%string end.

Definition serve_join_group (c : Ctx) : ctx Disposition :=
  let* request := of_codec (decode_join (req_api_version (cx_req c)) (req_body (cx_req c))) in
  let* from := lift (gets (peer_of (cx_conn_id c))) in
  let* outcome := with_authz c (run_join request (req_api_version (cx_req c)) (client_id c) from) in
  lift (modify (group_changed (jq_group_id request))) ;;;
  match outcome with
  | JoinReply body => reply c (encode_join body)
  | JoinPark member_id =>
      let* full := lift (gets parking_full) in
      if full : bool then reply c (encode_join (error_join ErrorCode.RebalanceInProgress member_id))
      else
        let* now := lift (asks clock) in
        lift (park c (now + clamp_rebalance_timeout (jq_rebalance_timeout request))
                (WJoin (jq_group_id request) member_id))
  end.

Definition serve_sync_group (c : Ctx) : ctx Disposition :=
  let* request := of_codec (decode_sync (req_api_version (cx_req c)) (req_body (cx_req c))) in
  let* outcome := with_authz c (run_sync request) in
  lift (modify (group_changed (sq_group_id request))) ;;;
  match outcome with
  | SyncReply body => reply c (encode_sync body)
  | SyncPark =>
      let* full := lift (gets parking_full) in
      if full : bool then reply c (encode_sync (error_sync ErrorCode.RebalanceInProgress))
      else
        let* now := lift (asks clock) in
        lift (park c (now + 60000) (WSync (sq_group_id request) (sq_member_id request)))
  end.

Definition set_sasl (st : SaslState) (raw : bool) (c : Conn) : Conn :=
  let a := c_auth c in
  set_auth (mk_auth st (sasl_failures a) raw (tls_principal a) (tls_checked a) (opened_at a)) c.
Definition sasl_failed (c : Conn) : Conn :=
  let a := c_auth c in
  set_auth (mk_auth (sasl a) (sasl_failures a + 1) (sasl_raw a) (tls_principal a) (tls_checked a)
              (opened_at a)) c.

(** handlers/auth.rs. *)
Definition auth_handshake (mechanism : bytes) (state : SaslState) : (Z → Body) * option SaslState :=
  match handshake state mechanism with
  | Ok next => (encode_handshake ErrorCode.NoError, Some next)
  | Err e => (encode_handshake (sasl_error_code e), None)
  end.
Definition scram_step : SaslEnv → SaslState → bytes → result SaslError (bytes * SaslState) :=
  Sasl.step sha256 hmac256 b64_encode b64_decode.
Definition auth_authenticate (env : SaslEnv) (token : bytes) (state : SaslState)
    : (Z → Body) * option SaslState :=
  match scram_step env state token with
  | Ok (bs, next) => (encode_authenticate ErrorCode.NoError bs, Some next)
  | Err e => (encode_authenticate (sasl_error_code e) [], None)
  end.

Definition serve_sasl_handshake (c : Ctx) : ctx Disposition :=
  let* mechanism := of_codec (decode_handshake (req_api_version (cx_req c)) (req_body (cx_req c))) in
  let* state := lift (gets (conn_sasl (cx_conn_id c))) in
  let '(body, next) := auth_handshake mechanism state in
  lift (modify (on_conn (cx_conn_id c)
    (match next with
     | Some next => set_sasl next (req_api_version (cx_req c) =? 0)
     | None => sasl_failed
     end))) ;;;
  reply c body.

Definition serve_sasl_authenticate (c : Ctx) : ctx Disposition :=
  let* token := of_codec (decode_authenticate (req_api_version (cx_req c)) (req_body (cx_req c))) in
  let* state := lift (gets (conn_sasl (cx_conn_id c))) in
  let* env := (λ w, let '(r, e) := sasl_tx w.2 in (r, (w.1, e))) in
  let '(body, next) := auth_authenticate env token state in
  lift (modify (on_conn (cx_conn_id c)
    (λ conn, match next with
             | Some next => set_sasl next (sasl_raw (c_auth conn)) conn
             | None => sasl_failed conn
             end))) ;;;
  reply c body.

Definition serve_leave_group (c : Ctx) : ctx Disposition :=
  let* (group_id, body) := with_authz c (run_leave (cx_req c)) in
  lift (modify (group_changed group_id)) ;;;
  reply c (λ _, body).

(** The keys [dispatch] sends to [Ctx::tx] or [Ctx::direct]. *)
Definition handler_keys : list Z :=
  [2; 23; 21; 3; 75; 10; 60; 8; 9; 47; 12; 15; 16; 42; 68; 69; 76; 77; 78; 79; 90; 91; 92;
   22; 24; 25; 28; 26; 27; 61; 65; 66; 19; 20; 37; 32; 33; 44; 74; 29; 30; 31;
   35; 43; 50; 51; 48; 49; 46; 45; 34; 38; 39; 40; 41; 57; 64; 80; 81; 55; 83; 84; 85; 86; 87; 88; 89].

Definition dispatch (req : Request) (conn_id seq : Z) : ctx Disposition :=
  let c := mk_ctx req conn_id seq in
  let k := req_api_key req in
  if k =? API_VERSIONS_KEY then reply c (encode_api_versions ErrorCode.NoError)
  else if k =? 0 then serve_produce c
  else if k =? 1 then serve_fetch c
  else if k =? 11 then serve_join_group c
  else if k =? 14 then serve_sync_group c
  else if k =? SASL_HANDSHAKE_KEY then serve_sasl_handshake c
  else if k =? SASL_AUTHENTICATE_KEY then serve_sasl_authenticate c
  else if k =? 13 then serve_leave_group c
  else if existsb (Z.eqb k) handler_keys then
    let* body := with_authz c (run_handler req) in reply c (λ _, body)
  else throw (Codec (UnknownApiKey k)).

(** [ApiVersions] in the version the fallback encodes. *)
Definition write_unsupported (req : Request) (outcome : Negotiation) : result HandlerError bytes :=
  let code := default ErrorCode.UnsupportedVersion (negotiation_error_code outcome) in
  match outcome with
  | ApiVersionsFallback =>
      write_response [] API_VERSIONS_KEY 0 (req_correlation_id req) (encode_api_versions code 0)
  | _ => Err (Codec (UnsupportedVersionE (req_api_key req) (req_api_version req)))
  end.

(** ** Serving one frame *)

Definition set_parked_retry (frame_len : Z) (c : Conn) : Conn := set_parked_bytes frame_len (set_retrying true c).

Definition park_retry (conn_id seq : Z) (request : Request) (frame_len : Z) : M E bool :=
  let! found := gets (λ s, bool_decide (is_Some (conns s !! conn_id))) in
  if negb found then mret false
  else
    let! full := gets parking_full in
    if full : bool then mret false
    else
      let! now := asks clock in
      do! modify (on_conn conn_id (set_parked_retry frame_len)) in
      do! modify (push_parked (mk_parked conn_id seq (req_correlation_id request) (req_api_key request)
                                 (req_api_version request) (default [] (req_client_id request))
                                 (now + MAX_LOCK_RETRY) (WRetry request))) in
      mret true.

(** The bytes of a raw token's reply go straight behind what is queued. *)
Definition push_raw (reply : bytes) (c : Conn) : bool * Conn :=
  if MAX_CONN_BUFFER_BYTES <? queued_bytes c + len reply + 4 then (false, c)
  else (true, set_out (set_outbuf (outbuf (c_out c) ++ be_bytes 4 (len reply) ++ reply) (c_out c)) c).

Definition serve_raw_sasl (id : Z) (token : bytes) : M E bool :=
  let! state := gets (conn_sasl id) in
  let! env := outside sasl_tx in
  match env with
  | Err _ => mret false
  | Ok env =>
      match scram_step env state token with
      | Err _ => mret false
      | Ok (reply, next) =>
          with_conn id false (λ c, push_raw reply (set_sasl next (sasl_raw (c_auth c)) c))
      end
  end.

Definition is_raw (c : Conn) : bool := sasl_raw (c_auth c) && negb (is_authenticated (sasl (c_auth c))).

(** What becomes of a request [dispatch] has dealt with. *)
Definition settle (id seq frame_len : Z) (req : Request) (result : result HandlerError Disposition) : M E bool :=
  match result with
  | Ok (Reply out) =>
      let! over_limit := with_conn id false (λ c,
        let c := complete seq out c in (MAX_SASL_FAILURES <=? sasl_failures (c_auth c), c)) in
      if over_limit : bool then
        do! with_conn id true flush in mret false
      else mret true
  | Ok NoReply => do! modify (on_conn id (complete seq [])) in mret true
  | Ok ParkedReply => mret true
  | Err Busy => park_retry id seq req frame_len
  | Err _ => mret false
  end.

(** The gate, then the handler. *)
Definition serve_slot (id seq frame_len : Z) (req : Request) (outcome : Negotiation) : M E bool :=
  let! required := asks sasl_required in
  let! known := gets (authenticated id) in
  if required && negb known && negb (is_pre_auth_api (req_api_key req)) then
    do! with_conn id true flush in mret false
  else
    let! result :=
      match outcome with
      | Supported => dispatch req id seq
      | _ => mret (match write_unsupported req outcome with Ok out => Ok (Reply out) | Err e => Err e end)
      end in
    settle id seq frame_len req result.

Definition serve_request (id : Z) (frame_len : Z) (req : Request) (outcome : Negotiation) : M E bool :=
  do! modify (λ s, set_served (wrap_u 64 (served s + 1)) s) in
  let! seq := with_conn id None (λ c, let '(seq, c) := reserve c in (Some seq, c)) in
  match seq with
  | None => mret false
  | Some seq => serve_slot id seq frame_len req outcome
  end.

Definition serve_one (id : Z) (frame : bytes) : M E bool :=
  let! raw := gets (λ s, match conns s !! id with Some c => is_raw c | None => false end) in
  if raw : bool then serve_raw_sasl id frame
  else match parse frame with
       | Err _ => mret false
       | Ok (req, outcome) => serve_request id (len frame) req outcome
       end.

(** The head of a round of [serve_frames]: close, stop, or a frame to serve. *)
Inductive Next : Type := Close | Wait | Frame (f : bytes).
Definition next_frame (c : Conn) : Next * Conn :=
  let '(ok, c) := flush_unless_held c in
  if negb ok then (Close, c)
  else if retrying c then (Wait, c)
  else if MAX_CONN_BUFFER_BYTES <? queued_bytes c then
    if awaiting_sync (c_out c) then (Wait, c) else (Close, c)
  else match take_frame (Z.max (frame_cap (c_in c)) 1) (inbuf (c_in c)) with
       | (Ok (Some f), rest) =>
           (Frame f, set_in (set_inbuf rest (reserved (c_in c) - (4 + len f)) (c_in c)) c)
       | (Ok None, rest) => (Wait, set_in (set_inbuf rest (reserved (c_in c)) (c_in c)) c)
       | (Err _, _) => (Close, c)
       end.

Fixpoint serve_rounds (n : nat) (id : Z) : M E bool :=
  match n with
  | O => mret true
  | S n =>
      let! next := with_conn id Close next_frame in
      match next with
      | Close => mret false
      | Wait => mret true
      | Frame f =>
          let! ok := serve_one id f in
          if ok : bool then serve_rounds n id else mret false
      end
  end.
Definition serve_frames (id : Z) : M E bool := serve_rounds MAX_REQUESTS_PER_TICK id.

Definition complete_frame (b : bytes) : bool :=
  (4 <=? len b) && (let n := wrap_i 32 (be_val (slice 0 4 b)) in (0 <=? n) && (4 + n <=? len b)).

Definition drain_closed (id : Z) : M E bool :=
  let! ok := serve_frames id in
  if negb ok then mret true
  else gets (λ s, match conns s !! id with
                  | None => true
                  | Some c => negb (retrying c) && negb (complete_frame (inbuf (c_in c)))
                  end).

(** ** Reading and serving every connection *)

(** The inbound bytes one connection may hold, from the totals of the others. *)
Definition budget_of (requested_cap tier others others_total parked_bytes : Z) : Z :=
  saturating_sub
    (Z.min (Z.min (tier + saturating_sub MAX_OVERSIZE_TOTAL_BYTES others) (Z.max requested_cap tier + 4))
       (saturating_sub MAX_INBOUND_TOTAL_BYTES others_total))
    parked_bytes.

(** A read that went well still closes a connection that has waited too long. *)
Definition judge_read (now : Z) (r : ReadResult) (c : Conn) : ReadResult :=
  match r with
  | ReadOk =>
      if match muted_since (c_in c) with Some t => MAX_MUTED <? now - t | None => false end then ReadFatal
      else if stalled_in_body c && (MAX_MUTED <? now - last_read (c_in c)) then ReadFatal
      else ReadOk
  | other => other
  end.

Definition check_certificate (c : Conn) : Conn :=
  let a := c_auth c in
  if negb (tls_checked a) && st_handshake_done (stream c) then
    let dn := der ← st_certificate (stream c); principal_from_cert der in
    set_auth (mk_auth (sasl a) (sasl_failures a) (sasl_raw a)
                (match dn with Some dn => Some dn | None => tls_principal a end) true (opened_at a)) c
  else c.

(** The totals over every connection that [poll_connections] keeps. *)
Record Totals : Type := mk_totals { oversize_total : Z; inbound_total : Z }.
Definition tier_of (requested_cap : Z) : Z := Z.min MAX_CONN_BUFFER_BYTES (Z.max requested_cap 1).
Definition sum_claims (f : Z → Z) (m : gmap Z Conn) : Z := map_fold (λ _ c n, f (claim c) + n) 0 m.
Definition totals_of (requested_cap : Z) (s : Server) : Totals :=
  mk_totals (sum_claims (λ n, saturating_sub n (tier_of requested_cap)) (conns s)) (sum_claims id (conns s)).

(** Flush, read within the budget, look at the certificate; [None] when the flush
    failed. *)
Definition read_conn (requested_cap now : Z) (t : Totals) (c : Conn) : option (ReadResult * Totals) * Conn :=
  let tier := tier_of requested_cap in
  let '(ok, c) := flush_unless_held c in
  if negb ok then (None, c)
  else
    let mine := claim c in
    let others := saturating_sub (oversize_total t) (saturating_sub mine tier) in
    let others_total := saturating_sub (inbound_total t) mine in
    let budget := budget_of requested_cap tier others others_total (parked_bytes (c_in c)) in
    let '(r, c) := read_admitted budget now (set_frame_cap (Z.max requested_cap tier) c) in
    let r := judge_read now r c in
    let mine := claim c in
    (Some (r, mk_totals (others + saturating_sub mine tier) (others_total + mine)), check_certificate c).

(** One connection of a pass: the totals after it, and whether it is to be closed. *)
Definition poll_one (requested_cap : Z) (t : Totals) (id : Z) : M E (Totals * bool) :=
  let! closed := gets (λ s, match conns s !! id with Some c => peer_closed c | None => false end) in
  if closed : bool then let! gone := drain_closed id in mret (t, gone)
  else
    let! present := gets (λ s, bool_decide (is_Some (conns s !! id))) in
    if negb present then mret (t, false)
    else
      let! now := asks clock in
      let! read := with_conn id None (read_conn requested_cap now t) in
      match read with
      | None => mret (t, true)
      | Some (ReadClosed, t) =>
          do! modify (on_conn id set_peer_closed) in
          let! gone := drain_closed id in
          mret (t, gone)
      | Some (ReadFatal, t) => mret (t, true)
      | Some (ReadOk, t) =>
          let! ok := serve_frames id in
          mret (t, negb ok)
      end.

Fixpoint poll_all (requested_cap : Z) (t : Totals) (ids closed : list Z) : M E (list Z) :=
  match ids with
  | [] => mret closed
  | id :: ids =>
      let! (t, gone) := poll_one requested_cap t id in
      poll_all requested_cap t ids (if gone : bool then closed ++ [id] else closed)
  end.

(** The loop passes no readiness set: every connection is polled. *)
Definition poll_connections : M E unit :=
  let! ids := (λ w, (conn_order (dom (conns w.1)) w.2, w)) in
  let! requested_cap := asks max_request_bytes in
  let! t := gets (totals_of requested_cap) in
  let! closed := poll_all requested_cap t ids [] in
  modify (λ s, foldl (λ s id, drop_conn id s) s closed).

Fixpoint accept_new (events : list AcceptEvent) : M E unit :=
  let! full := gets (λ s, MAX_CONNECTIONS <=? Z.of_nat (size (conns s))) in
  if full : bool then mret tt
  else match events with
       | [] | AStop :: _ => mret tt
       | ARefused :: events | AInterrupted :: events => accept_new events
       | AConnection st addr :: events =>
           let! now := asks clock in
           do! modify (λ s, let id := wrap_i 32 (next_id s + 1) in
                            set_conns (<[id := new_conn now st addr]> (conns s)) (set_next_id id s)) in
           accept_new events
       end.

(** ** Parked requests *)

(** A retry got through: its connection goes on; or it failed: its connection is
    closed. *)
Definition got_through (id : Z) (locks_held : bool) : M E (bool * option Parked) :=
  do! modify (λ s, set_retry (retry_at s) 0 s) in
  do! modify (on_conn id (λ c, set_parked_bytes 0 (set_retrying false c))) in
  mret (locks_held, None).
Definition got_nowhere (id : Z) (locks_held : bool) : M E (bool * option Parked) :=
  do! modify (drop_conn id) in mret (locks_held, None).

(** One request parked behind a table lock; the result is whether the locks are now
    known to be held, and the entry when it stays. *)
Definition retry_one (now : Z) (locks_held : bool) (p : Parked) : M E (bool * option Parked) :=
  let! present := gets (λ s, bool_decide (is_Some (conns s !! pk_conn_id p))) in
  if negb present then mret (locks_held, None)
  else
    let expired := pk_deadline p <=? now in
    if locks_held && negb expired then mret (locks_held, Some p)
    else match pk_waiting p with
         | WRetry request =>
             let id := pk_conn_id p in
             let! result := dispatch request id (pk_seq p) in
             match result with
             | Err Busy =>
                 if negb expired then
                   do! modify (back_off now) in mret (true, Some p)
                 else got_nowhere id locks_held
             | Err _ => got_nowhere id locks_held
             | Ok ParkedReply => got_through id locks_held
             | Ok (Reply out) =>
                 do! modify (on_conn id (complete (pk_seq p) out)) in got_through id locks_held
             | Ok NoReply =>
                 do! modify (on_conn id (complete (pk_seq p) [])) in got_through id locks_held
             end
         | _ => mret (locks_held, None)
         end.

Fixpoint retry_each (now : Z) (locks_held : bool) (ps still_waiting : list Parked) : M E (list Parked) :=
  match ps with
  | [] => mret still_waiting
  | p :: ps =>
      let! (locks_held, stays) := retry_one now locks_held p in
      retry_each now locks_held ps (still_waiting ++ option_list stays)
  end.

Definition retry_parked : M E unit :=
  let! any := gets (λ s, existsb (λ p, is_retry (pk_waiting p)) (parked s)) in
  if negb any then mret tt
  else
    let! now := asks clock in
    let! retries := gets (λ s, List.filter (λ p, is_retry (pk_waiting p)) (parked s)) in
    do! modify (λ s, set_parked (List.filter (λ p, negb (is_retry (pk_waiting p))) (parked s)) s) in
    let! held := gets (λ s, now <? retry_at s) in
    let! still_waiting := retry_each now held retries [] in
    modify (λ s, set_parked (parked s ++ still_waiting) s).

(** What a parked request comes to when it is looked at: it stays, it stays because
    the locks are held, its connection fails, or a response. *)
Inductive Outcome : Type := Stays | StaysLocked | Fails | Answers (body : Z → Body).

Definition parked_fetch (now : Z) (p : Parked) (request : FetchAsk) (min_bytes : Z) : M E Outcome :=
  let expired := pk_deadline p <=? now in
  let may_retry := now <? pk_deadline p + MAX_LOCK_RETRY in
  let! fetched := with_authz (mk_ctx (mk_request 0 0 0 None []) (pk_conn_id p) 0)
                    (λ a who, run_fetch request a who false) in
  match fetched with
  | Ok (body, _) =>
      if negb expired && (Fetching.records_bytes body <? min_bytes) then mret Stays
      else
        let! throttle := charge RateConsumer (pk_conn_id p) (pk_client_id p) (Fetching.records_bytes body) in
        mret (Answers (encode_fetch body throttle))
  | Err Busy => mret (if may_retry then StaysLocked else Fails)
  | Err _ => mret Fails
  end.

Definition parked_join_again (now : Z) (p : Parked) (group_id member_id : string) : M E Outcome :=
  let expired := pk_deadline p <=? now in
  let may_retry := now <? pk_deadline p + MAX_LOCK_RETRY in
  let! joined := outside (run_parked_join expired group_id member_id) in
  mret (match joined with
        | Ok (Some body) => Answers (encode_join body)
        | Ok None => Stays
        | Err Busy => if may_retry then StaysLocked else Fails
        | Err _ => Fails
        end).

Definition parked_sync_again (now : Z) (p : Parked) (group_id member_id : string) : M E Outcome :=
  let expired := pk_deadline p <=? now in
  let may_retry := now <? pk_deadline p + MAX_LOCK_RETRY in
  let! synced := outside (run_parked_sync group_id member_id) in
  mret (match synced with
        | Ok (Some body) => Answers (encode_sync body)
        | Ok None => if negb expired then Stays
                     else Answers (encode_sync (error_sync ErrorCode.RebalanceInProgress))
        | Err Busy => if may_retry then StaysLocked else Fails
        | Err _ => Fails
        end).

(** Stay woken: the doorbell that woke the entry rings again next pass. *)
Definition ring_again (w : Waiting) (s : Server) : Server :=
  match w with
  | WFetch _ watching _ => ring watching s
  | WJoin g _ | WSync g _ => group_changed g s
  | WRetry _ => s
  end.

(** Whether the doorbells, as they were at the start of the pass, wake an entry. *)
Definition woken (bells : gset (Z * Z)) (groups : gset string) (w : Waiting) : bool :=
  match w with
  | WFetch _ watching _ => existsb (λ k, bool_decide (k ∈ bells)) watching
  | WJoin g _ | WSync g _ => bool_decide (g ∈ groups)
  | WRetry _ => false
  end.

Definition look_again (now : Z) (p : Parked) : M E Outcome :=
  match pk_waiting p with
  | WFetch request _ min_bytes => parked_fetch now p request min_bytes
  | WJoin g m => parked_join_again now p g m
  | WSync g m => parked_sync_again now p g m
  | WRetry _ => mret Stays
  end.

(** [encode_parked]. *)
Definition encode_parked (p : Parked) (body : Z → Body) : result HandlerError bytes :=
  write_response [] (pk_api_key p) (pk_api_version p) (pk_correlation_id p) (body (pk_api_version p)).

Definition complete_one (now : Z) (bells : gset (Z * Z)) (groups : gset string) (locks_held : bool)
    (p : Parked) : M E (bool * option Parked) :=
  let id := pk_conn_id p in
  let! present := gets (λ s, bool_decide (is_Some (conns s !! id))) in
  if negb present then mret (locks_held, None)
  else
    let expired := pk_deadline p <=? now in
    let may_retry := now <? pk_deadline p + MAX_LOCK_RETRY in
    if is_retry (pk_waiting p) || (negb expired && negb (woken bells groups (pk_waiting p))) then
      mret (locks_held, Some p)
    else
      let! at_ := gets retry_at in
      if (locks_held || (now <? at_)) && may_retry then
        do! modify (ring_again (pk_waiting p)) in mret (locks_held, Some p)
      else
        let! outcome := look_again now p in
        match outcome with
        | Stays => mret (locks_held, Some p)
        | StaysLocked =>
            do! modify (back_off now) in
            do! modify (ring_again (pk_waiting p)) in
            mret (true, Some p)
        | Fails => do! modify (drop_conn id) in mret (locks_held, None)
        | Answers body =>
            match encode_parked p body with
            | Ok out => do! modify (on_conn id (complete (pk_seq p) out)) in mret (locks_held, None)
            | Err _ => do! modify (drop_conn id) in mret (locks_held, None)
            end
        end.

Fixpoint complete_each (now : Z) (bells : gset (Z * Z)) (groups : gset string) (locks_held : bool)
    (ps still_parked : list Parked) : M E (list Parked) :=
  match ps with
  | [] => mret still_parked
  | p :: ps =>
      let! (locks_held, stays) := complete_one now bells groups locks_held p in
      complete_each now bells groups locks_held ps (still_parked ++ option_list stays)
  end.

Definition complete_parked : M E unit :=
  let! pending := gets parked in
  if bool_decide (pending = []) then modify (set_doorbells ∅ ∅)
  else
    let! now := asks clock in
    let! bells := gets appended in
    let! groups := gets groups_changed in
    do! modify (λ s, set_parked [] (set_doorbells ∅ ∅ s)) in
    let! still_parked := complete_each now bells groups false pending [] in
    modify (set_parked still_parked).

(** ** The durability barrier and the sweeps *)

Fixpoint sync_each (owed : list (Z * Z)) (failed : bool) : M E bool :=
  match owed with
  | [] => mret failed
  | p :: owed =>
      let! ok := outside (sync_partition p) in
      if ok : bool then
        do! modify (λ s, set_unsynced (unsynced s ∖ {[p]}) (sync_failed_passes s) s) in sync_each owed failed
      else sync_each owed true
  end.

Definition sync_before_ack : M E bool :=
  let! none := gets (λ s, bool_decide (unsynced s = ∅)) in
  if none : bool then do! modify (λ s, set_unsynced (unsynced s) 0 s) in mret true
  else
    let! owed := (λ w, (part_order (unsynced w.1) w.2, w)) in
    let! failed := sync_each owed false in
    if negb failed then do! modify (λ s, set_unsynced (unsynced s) 0 s) in mret true
    else
      do! modify (λ s, set_unsynced (unsynced s) (wrap_u 64 (sync_failed_passes s + 1)) s) in mret false.

Definition flush_one (id : Z) : M E unit :=
  let! ok := with_conn id true flush_unless_held in
  if ok : bool then mret tt else modify (drop_conn id).
Fixpoint flush_each (ids : list Z) : M E unit :=
  match ids with
  | [] => mret tt
  | id :: ids => do! flush_one id in flush_each ids
  end.
Definition flush_all : M E unit :=
  let! ids := (λ w, (conn_order (dom (conns w.1)) w.2, w)) in flush_each ids.

Definition refresh_acls : M E unit :=
  let! now := asks clock in
  let! stale := gets (λ s, is_stale now (srv_acls s)) in
  if negb stale then mret tt
  else
    let! loaded := outside load_acls in
    match loaded with
    | Ok fresh => modify (set_acls fresh)
    | Err _ => modify (λ s, set_acls (mark_attempted now (srv_acls s)) s)
    end.

Definition drop_unauthenticated : M E unit :=
  let! d := gets (due 200) in
  let! required := asks sasl_required in
  if negb d || negb required then mret tt
  else
    let! now := asks clock in
    let! stale := (λ w, (List.filter (λ id, match conns w.1 !! id with
                                            | Some c => negb (conn_authenticated c)
                                                        && negb (is_authenticated (sasl (c_auth c)))
                                                        && (AUTH_DEADLINE <? now - opened_at (c_auth c))
                                            | None => false
                                            end) (conn_order (dom (conns w.1)) w.2), w)) in
    modify (λ s, foldl (λ s id, drop_conn id s) s stale).

Definition retried_member (req : Request) : option (GroupKind * string * string) :=
  let k := req_api_key req in
  let kind :=
    if (k =? 11) || (k =? 12) || (k =? 14) then Some Classic
    else if k =? 68 then Some Consumer
    else if k =? 76 then Some ShareKind
    else None in
  kind ← kind;
  '(group_id, member_id) ← decode_member k (req_api_version req) (req_body req);
  if bool_decide (member_id = ""%string) then None else Some (kind, group_id, member_id).

Definition retried_members (kind : GroupKind) (s : Server) : list (string * string) :=
  omap (λ p, match pk_waiting p with
             | WRetry request =>
                 '(k, g, m) ← retried_member request;
                 if bool_decide (k = kind) then Some (g, m) else None
             | _ => None
             end) (parked s).

(** The members that are only waiting: they are not judged silent. *)
Definition awaiting_members (s : Server) : list (string * string) :=
  omap (λ p, match pk_waiting p with
             | WJoin g m | WSync g m => Some (g, m)
             | _ => None
             end) (parked s) ++ retried_members Classic s.

Definition expire_group_members : M E unit :=
  let! d := gets (due 100) in
  if negb d then mret tt
  else
    let! awaiting := gets awaiting_members in
    let! changed := outside (sweep_groups awaiting) in
    match changed with
    | Ok gs => modify (λ s, set_doorbells (appended s) (groups_changed s ∪ list_to_set gs) s)
    | Err _ => mret tt
    end.

Definition expire_producer_state : M E unit :=
  let! d := gets (λ s, due (if producer_backlog s then 100 else 12000) s) in
  if negb d then mret tt
  else
    let! swept := outside sweep_producers in
    modify (λ s, set_sweeps (match swept with
                             | Ok n => Z.of_nat Producer.SWEEP_BATCH <=? n
                             | Err _ => false
                             end) (retention_cursor s) s).

Definition expire_consumer_group_members : M E unit :=
  let! d := gets (due 1000) in
  if negb d then mret tt
  else let! alive := gets (retried_members Consumer) in outside_ (sweep_consumer_members alive).

Definition expire_share_group_state : M E unit :=
  let! d := gets (due 1000) in
  if negb d then mret tt
  else let! alive := gets (retried_members ShareKind) in outside_ (sweep_share_state alive).

(** [expire_quota_windows] and [refresh_quotas] touch the quota tables only. *)
Definition sweep_quota_tables : M E unit := outside_ sweep_quotas.

Definition enforce_retention : M E unit :=
  let! every := asks retention_check_ticks in
  let! d := gets (due every) in
  if negb d then mret tt
  else
    let! cursor := gets retention_cursor in
    let! swept := outside (sweep_retention cursor) in
    modify (λ s, set_sweeps (producer_backlog s)
                   (match swept with
                    | Ok next => next
                    | Err _ => Z.min (cursor + 1) (2 ^ 32 - 1)
                    end) s).

(** ** A pass and the loop *)

Definition release_acks (s : Server) : Server := set_conns (set_awaiting false <$> conns s) s.

(** Up to the barrier. *)
Definition pass_serve (listener : list AcceptEvent) : M E unit :=
  do! refresh_acls in
  do! accept_new listener in
  do! retry_parked in
  do! poll_connections in
  do! drop_unauthenticated in
  do! expire_group_members in
  do! expire_producer_state in
  do! expire_consumer_group_members in
  do! expire_share_group_state in
  do! sweep_quota_tables in
  do! enforce_retention in
  complete_parked.

(** The barrier, and the writes it allows. *)
Definition pass_flush : M E unit :=
  let! synced := sync_before_ack in
  do! (if synced : bool then modify release_acks else mret tt) in
  flush_all.

Definition pass (listener : list AcceptEvent) : M E unit :=
  do! pass_serve listener in pass_flush.

(** What [run] keeps beside the server. *)
Record Gate : Type := mk_gate {
  gt_next_tick_at : Z;
  gt_epochs_ready : bool;
  gt_markers_reconciled : bool;
  gt_spin : bool }.

(** One round of the loop of [run], after the wait. *)
Definition round (tick_ms : Z) (listener : list AcceptEvent) (g : Gate) : M E Gate :=
  let! now := asks clock in
  let fresh := gt_next_tick_at g <=? now in
  do! modify (λ s, set_ticks (if fresh then wrap_u 64 (tick s + 1) else tick s) fresh s) in
  let at_ := if fresh then now + tick_ms else gt_next_tick_at g in
  let! d := gets (due 200) in
  if negb (gt_epochs_ready g) then
    let! ok := (if d : bool then outside raise_leader_epochs else mret false) in
    mret (mk_gate at_ ok (gt_markers_reconciled g) false)
  else if negb (gt_markers_reconciled g) then
    let! ok := (if d : bool then outside reconcile_markers else mret false) in
    mret (mk_gate at_ true ok false)
  else
    let! before := gets served in
    do! pass listener in
    let! after := gets served in
    mret (mk_gate at_ true true (negb (after =? before))).

End Loop.
