(* ===== verification/ServerInv.v ===== *)
(** * The server as a machine of small steps

    A pass of the event loop (Server.v) is a sequence of steps of this machine, each
    a single change of one connection or of the parked requests.  Its state is the
    server with what the loop holds in local variables: the requests being served or
    looked at again, the connections it has decided to close, and the one whose retry
    has just gone through.  Beside them it keeps what the source forgets: for every
    connection the frames it took and the replies it queued, in order, and the calls
    the loop made of the produce handler and of the sync, with what they returned.

    Behind it: the invariant of the machine. *)

From stdpp Require Import gmap strings.
From S2P Require Import Prelude Errors Framing Sasl ServerConn ServerInbound Server.

#[local] Open Scope Z_scope.

(** ** State *)

(** A request that is neither answered nor parked: one being served, with the length
    of its frame, or a parked one that has been picked up. *)
Inductive Held : Type :=
| HRequest (id seq : Z) (req : Request) (frame_len : Z)
| HParked (p : Parked).

Definition h_id (h : Held) : Z := match h with HRequest id _ _ _ => id | HParked p => pk_conn_id p end.
Definition h_seq (h : Held) : Z := match h with HRequest _ s _ _ => s | HParked p => pk_seq p end.
Definition h_correlation (h : Held) : Z :=
  match h with HRequest _ _ r _ => req_correlation_id r | HParked p => pk_correlation_id p end.
(** The request itself, where the loop still has it. *)
Definition h_request (h : Held) : option Request :=
  match h with
  | HRequest _ _ r _ => Some r
  | HParked p => match pk_waiting p with WRetry r => Some r | _ => None end
  end.
Definition h_retry (h : Held) : bool :=
  match h with HRequest _ _ _ _ => false | HParked p => is_retry (pk_waiting p) end.
Definition h_len (h : Held) : Z := match h with HRequest _ _ _ n => n | HParked _ => 0 end.
Definition is_request (h : Held) : bool := match h with HRequest _ _ _ _ => true | HParked _ => false end.

(** What was put into [outbuf]: the response to a request, or the reply to a raw
    SASL token. *)
Inductive Item : Type := Answer (b : bytes) | RawReply (b : bytes).
Definition item_bytes (i : Item) : bytes := match i with Answer b | RawReply b => b end.

(** The history of a connection: its frames, with the request of those that were
    requests, its queued output, and the places of the requests whose handler
    returned no response. *)
Record Hist : Type := mk_hist {
  h_frames : list (bytes * option Request);
  h_items : list Item;
  h_silent : gset Z }.
Definition requests (h : Hist) : list Request := omap snd (h_frames h).
Definition replies (h : Hist) : list bytes :=
  omap (λ i, match i with Answer b => Some b | RawReply _ => None end) (h_items h).
Definition output (h : Hist) : bytes := concat (item_bytes <$> h_items h).

Definition add_frame (f : bytes) (k : option Request) (h : Hist) : Hist :=
  mk_hist (h_frames h ++ [(f, k)]) (h_items h) (h_silent h).
Definition add_items (l : list Item) (h : Hist) : Hist := mk_hist (h_frames h) (h_items h ++ l) (h_silent h).
Definition add_silent (l : gset Z) (h : Hist) : Hist := mk_hist (h_frames h) (h_items h) (h_silent h ∪ l).

(** The responses [complete] moves from [ready] to [outbuf]. *)
Definition released (c c' : Conn) (s : Z) (b : bytes) : list Item :=
  (λ i : nat, Answer (default [] (<[s := b]> (ready (c_out c)) !! (flush_seq (c_out c) + Z.of_nat i))))
    <$> seq 0 (Z.to_nat (flush_seq (c_out c') - flush_seq (c_out c))).

(** The output queued before the response to request [n]. *)
Fixpoint before (n : nat) (l : list Item) : list Item :=
  match l with
  | [] => []
  | RawReply b :: l => RawReply b :: before n l
  | Answer b :: l => match n with O => [] | S n => Answer b :: before n l end
  end.

Lemma before_all n h : (length (replies h) ≤ n)%nat → before n (h_items h) = h_items h.
Proof.
  unfold replies. generalize (h_items h). intros l. revert n. induction l as [|[b|b] l IH]; intros n Hn; cbn in *; [done | |].
  - destruct n; [lia |]. f_equal. apply IH. lia.
  - f_equal. by apply IH.
Qed.

Lemma before_app n l l' : before n l `prefix_of` before n (l ++ l').
Proof.
  revert n. induction l as [|[b|b] l IH]; intros n; cbn; [apply prefix_nil | |].
  - destruct n; [done |]. apply prefix_cons, IH.
  - apply prefix_cons, IH.
Qed.

Lemma before_answers n bs : before n (Answer <$> bs) = Answer <$> take n bs.
Proof. revert n. induction bs as [|b bs IH]; intros [|n]; cbn; [done.. |]. f_equal. apply IH. Qed.

(** ** The calls that matter to durability *)

(** A call of the produce handler that went through, for the request at a place of a
    connection: what it appended, whether acknowledgements have to wait for a sync, and
    whether it returned a response; and a sync that went through. *)
Inductive Call : Type :=
| CallProduce (conn_id seq : Z) (req : Request) (ps : list (Z * Z)) (barrier responds : bool)
| CallSynced (p : Z * Z).

(** By the calls so far: [req], at place [s] of connection [id], appended to [p] with the
    barrier on, and [p] has not been synced since. *)
Definition owed (log : list Call) (id s : Z) (req : Request) (p : Z * Z) : Prop :=
  ∃ l1 ps r l2, log = l1 ++ CallProduce id s req ps true r :: l2 ∧ p ∈ ps ∧ CallSynced p ∉ l2.

(** By the calls so far: the handler of the request at [s] returned no response. *)
Definition silent (log : list Call) (id s : Z) : Prop :=
  ∃ req ps b, CallProduce id s req ps b false ∈ log.

Lemma calls_owed_snoc log x id s req p : owed (log ++ [x]) id s req p →
  owed log id s req p ∧ x ≠ CallSynced p ∨ ∃ ps r, x = CallProduce id s req ps true r ∧ p ∈ ps.
Proof.
  intros (l1 & ps & r & l2 & E & Hp & Hn). destruct l2 as [|y l2 _] using rev_ind.
  - right. apply app_inj_2 in E as [_ E]; [| done]. injection E as ->. by eauto.
  - left. rewrite app_comm_cons, app_assoc in E. apply app_inj_2 in E as [-> E]; [| done]. injection E as ->.
    split; [exists l1, ps, r, l2; split_and!; [done | done | set_solver] |]. intros ->. apply Hn. set_solver.
Qed.

Lemma silent_snoc log x id s : silent log id s → silent (log ++ [x]) id s.
Proof. intros (req & ps & b & Hin). exists req, ps, b. set_solver. Qed.

Record Machine : Type := mk_machine {
  m_srv : Server;
  m_held : list Held;
  m_doomed : gset Z;
  m_loose : option Z;
  m_hist : gmap Z Hist;
  m_log : list Call }.

Definition at_rest (m : Machine) : Prop := m_held m = [] ∧ m_doomed m = ∅ ∧ m_loose m = None.

Definition m_conn (m : Machine) (id : Z) : option Conn := conns (m_srv m) !! id.

(** Inbound bytes the server accounts for. *)
Definition load (m : Machine) : Z :=
  sum_claims id (conns (m_srv m)) + foldr Z.add 0 (h_len <$> m_held m).

(** A whole response with correlation id [k]. *)
Definition response_to (k : Z) (b : bytes) : Prop := ∃ body, b = framed (be_bytes 4 k ++ body).

(** The reply to the request at place [s]: a response with its correlation id, or
    nothing where its handler returned none. *)
Definition answers (silent : gset Z) (s : Z) (req : Request) (b : bytes) : Prop :=
  response_to (req_correlation_id req) b ∨ b = [] ∧ s ∈ silent.

(** A reply to the held request [t] that its connection can queue. *)
Definition completes (t : Held) (h : Hist) (b : bytes) : Prop :=
  response_to (h_correlation t) b ∨ b = [] ∧ h_seq t ∈ h_silent h.

(** SaslHandshake of version 0 was among the requests: only then may raw tokens be. *)
Definition starts_raw (req : Request) : Prop := req_api_key req = SASL_HANDSHAKE_KEY ∧ req_api_version req = 0.
Definition raw_started (h : Hist) : Prop := ∃ req, req ∈ requests h ∧ starts_raw req.

(** ** Steps *)

Definition same_core (s s' : Server) : Prop :=
  conns s' = conns s ∧ next_id s' = next_id s ∧ parked s' = parked s ∧ unsynced s' = unsynced s.

(** The last writes before a connection is closed. *)
Definition last_writes (c c' : Conn) : Prop :=
  peer_closed c' = peer_closed c ∧
  ∃ x, st_sent (stream c') = st_sent (stream c) ++ x ∧ x `prefix_of` outbuf (c_out c).

(** The frame [f] taken off the inbound buffer. *)
Definition taken (c : Conn) (f rest : bytes) : Conn :=
  set_in (set_inbuf rest (reserved (c_in c) - (4 + len f)) (c_in c)) c.

Definition put_conn (id : Z) (c : Conn) (s : Server) : Server := set_conns (<[id := c]> (conns s)) s.
Definition set_srv (s : Server) (m : Machine) : Machine :=
  mk_machine s (m_held m) (m_doomed m) (m_loose m) (m_hist m) (m_log m).
Definition put (id : Z) (c : Conn) (m : Machine) : Machine := set_srv (put_conn id c (m_srv m)) m.
Definition set_hist (id : Z) (f : Hist → Hist) (m : Machine) : Machine :=
  mk_machine (m_srv m) (m_held m) (m_doomed m) (m_loose m) (alter f id (m_hist m)) (m_log m).
Definition set_held (l : list Held) (m : Machine) : Machine :=
  mk_machine (m_srv m) l (m_doomed m) (m_loose m) (m_hist m) (m_log m).
Definition set_loose (l : option Z) (m : Machine) : Machine :=
  mk_machine (m_srv m) (m_held m) (m_doomed m) l (m_hist m) (m_log m).
Definition set_log (l : list Call) (m : Machine) : Machine :=
  mk_machine (m_srv m) (m_held m) (m_doomed m) (m_loose m) (m_hist m) l.
Definition loosened (h : Held) (m : Machine) : Machine := if h_retry h then set_loose (Some (h_id h)) m else m.

(** A connection the loop has not decided to close. *)
Definition live (m : Machine) (id : Z) (c : Conn) : Prop := m_conn m id = Some c ∧ id ∉ m_doomed m.

(** What [serve_produce] does to the server when its handler appended to [ps]. *)
Definition produced (id : Z) (ps : list (Z * Z)) (barrier : bool) (s : Server) : Server :=
  if barrier && bool_decide (ps ≠ []) then
    on_conn id (set_awaiting true) (set_unsynced (unsynced s ∪ list_to_set ps) (sync_failed_passes s) s)
  else s.

(** A request parked to be retried keeps its correlation id twice. *)
Definition retry_ok (p : Parked) : Prop :=
  ∀ req, pk_waiting p = WRetry req → req_correlation_id req = pk_correlation_id p.

Inductive mstep : Machine → Machine → Prop :=
| st_other m s' : same_core (m_srv m) s' → mstep m (set_srv s' m)
| st_flush m id c c' : live m id c → flush_unless_held c = (true, c') → mstep m (put id c' m)
| st_doom m id c c' : live m id c → claim c' ≤ claim c → 0 ≤ parked_bytes (c_in c') → last_writes c c' →
    mstep m (mk_machine (put_conn id c' (m_srv m)) (m_held m) ({[id]} ∪ m_doomed m) (m_loose m) (m_hist m) (m_log m))
| st_request m id c f rest req outcome seq c' :
    live m id c → m_held m = [] → retrying c = false →
    take_frame (Z.max (frame_cap (c_in c)) 1) (inbuf (c_in c)) = (Ok (Some f), rest) →
    parse f = Ok (req, outcome) → reserve (taken c f rest) = (seq, c') →
    mstep m (set_held [HRequest id seq req (len f)] (set_hist id (add_frame f (Some req)) (put id c' m)))
| st_raw m id c f rest reply a c' :
    live m id c → m_held m = [] → retrying c = false →
    sasl_raw (c_auth c) = true → sasl_raw a = true →
    take_frame (Z.max (frame_cap (c_in c)) 1) (inbuf (c_in c)) = (Ok (Some f), rest) →
    push_raw reply (set_auth a (taken c f rest)) = (true, c') →
    mstep m (set_hist id (λ h, add_items [RawReply (be_bytes 4 (len reply) ++ reply)] (add_frame f None h))
               (put id c' m))
| st_auth m id c a : live m id c →
    (sasl_raw a = true → sasl_raw (c_auth c) = true ∨ ∃ h, m_hist m !! id = Some h ∧ raw_started h) →
    mstep m (put id (set_auth a c) m)
| st_produce m h l1 l2 c req ps barrier responds : live m (h_id h) c → m_held m = l1 ++ h :: l2 →
    h_request h = Some req →
    mstep m (set_log (m_log m ++ [CallProduce (h_id h) (h_seq h) req ps barrier responds])
      (set_hist (h_id h) (add_silent (if responds then ∅ else {[h_seq h]}))
        (set_srv (produced (h_id h) ps barrier (m_srv m)) m)))
| st_complete m h l1 l2 c b : live m (h_id h) c → m_held m = l1 ++ h :: l2 → m_loose m = None →
    (∃ hi, m_hist m !! h_id h = Some hi ∧ completes h hi b) →
    mstep m (loosened h (set_held (l1 ++ l2)
      (set_hist (h_id h) (add_items (released c (complete (h_seq h) b c) (h_seq h) b))
        (put (h_id h) (complete (h_seq h) b c) m))))
| st_park m h l1 l2 c p : live m (h_id h) c → m_held m = l1 ++ h :: l2 → m_loose m = None →
    pk_conn_id p = h_id h → pk_seq p = h_seq h → pk_correlation_id p = h_correlation h →
    is_retry (pk_waiting p) = false → Z.of_nat (length (parked (m_srv m))) < MAX_PARKED →
    (is_request h = true → m_held m = [h]) →
    mstep m (loosened h (set_held (l1 ++ l2) (set_srv (push_parked p (m_srv m)) m)))
| st_park_retry m id seq req n c p : live m id c → m_held m = [HRequest id seq req n] →
    pk_conn_id p = id → pk_seq p = seq → pk_correlation_id p = req_correlation_id req →
    pk_waiting p = WRetry req → Z.of_nat (length (parked (m_srv m))) < MAX_PARKED →
    mstep m (set_held [] (set_srv (push_parked p (put_conn id (set_parked_retry n c) (m_srv m))) m))
| st_release m id c : live m id c → m_loose m = Some id →
    mstep m (set_loose None (put id (set_parked_bytes 0 (set_retrying false c)) m))
| st_hold m p l1 l2 : parked (m_srv m) = l1 ++ p :: l2 →
    mstep m (set_held (m_held m ++ [HParked p]) (set_srv (set_parked (l1 ++ l2) (m_srv m)) m))
| st_return m p l1 l2 : m_held m = l1 ++ HParked p :: l2 →
    mstep m (set_held (l1 ++ l2) (set_srv (push_parked p (m_srv m)) m))
| st_forget m h l1 l2 : m_held m = l1 ++ h :: l2 → h_id h ∈ m_doomed m ∨ m_conn m (h_id h) = None →
    mstep m (set_held (l1 ++ l2) m)
| st_drop m id : m_loose m ≠ Some id →
    mstep m (mk_machine (drop_conn id (m_srv m)) (m_held m) (m_doomed m ∖ {[id]}) (m_loose m)
               (delete id (m_hist m)) (m_log m))
| st_closed m id c : live m id c → mstep m (put id (set_peer_closed c) m)
| st_accept m now st addr :
    at_rest m → Z.of_nat (size (conns (m_srv m))) < MAX_CONNECTIONS → next_id (m_srv m) + 1 < 2 ^ 31 → 0 ≤ next_id (m_srv m) →
    st_received st = [] → st_sent st = [] →
    let id := next_id (m_srv m) + 1 in
    mstep m (mk_machine (put_conn id (new_conn now st addr) (set_next_id id (m_srv m))) (m_held m) (m_doomed m)
               (m_loose m) (<[id := mk_hist [] [] ∅]> (m_hist m)) (m_log m))
| st_sync m p :
    mstep m (mk_machine (set_unsynced (unsynced (m_srv m) ∖ {[p]}) (sync_failed_passes (m_srv m)) (m_srv m))
               (m_held m) (m_doomed m) (m_loose m) (m_hist m) (m_log m ++ [CallSynced p]))
| st_release_acks m : unsynced (m_srv m) = ∅ → mstep m (set_srv (release_acks (m_srv m)) m).

(** Reading grants bytes: within the budget, or nothing. *)
Inductive rstep : Machine → Machine → Prop :=
| st_read m id c cap budget c1 c' : live m id c →
    (0 < budget → budget + parked_bytes (c_in c) + (load m - claim c) ≤ MAX_INBOUND_TOTAL_BYTES) →
    admitted budget (set_frame_cap cap c) c1 →
    (∃ a, c' = set_auth a c1 ∧ sasl_raw a = sasl_raw (c_auth c1)) →
    rstep m (put id c' m).

(** Between passes: peers send, sockets become ready, handshakes end. *)
Definition stream_moves (s s' : Stream) : Prop := st_received s' = st_received s ∧ st_sent s' = st_sent s.
Inductive estep : Machine → Machine → Prop :=
| st_world m id c s' : live m id c → stream_moves (stream c) s' → estep m (put id (set_stream s' c) m).

Definition machine_step (m m' : Machine) : Prop := mstep m m' ∨ rstep m m' ∨ estep m m'.

(** * The invariant of the server machine

    Every request a connection took and has not answered is parked, held or waits in
    [ready] behind an earlier one, and only one of these; what was sent is the
    responses in the order of the requests; a connection that retries has its last
    request parked and serves nothing else; what was appended and is not durable
    holds the connection's output back; and the inbound bytes accounted for stay
    within the limit. *)

(** ** Outbound operations *)

Lemma write_loop_spec ws buf sent :
  let '(_, _, rest, sent') := write_loop ws buf sent in
  ∃ x, sent' = sent ++ x ∧ buf = x ++ rest.
Proof.
  revert buf sent. induction ws as [|ev ws IH]; intros buf sent; cbn [write_loop];
    (destruct (bool_decide (buf = [])); [exists []; by rewrite app_nil_r |]).
  { exists []. by rewrite app_nil_r. }
  destruct ev; try (exists []; by rewrite app_nil_r); [| apply IH].
  destruct (_ =? _)%nat; [exists []; by rewrite app_nil_r |]. set (k := Nat.min _ _).
  specialize (IH (drop k buf) (sent ++ take k buf)). destruct (write_loop _ _ _) as [[[ok ws'] rest] sent'].
  destruct IH as (x & -> & Hx). exists (take k buf ++ x). split; [by rewrite app_assoc |].
  by rewrite <- app_assoc, <- Hx, take_drop.
Qed.

(** What writing leaves alone. *)
Record written (c c' : Conn) : Prop := mk_written {
  wr_in : c_in c' = c_in c;
  wr_auth : c_auth c' = c_auth c;
  wr_retrying : retrying c' = retrying c;
  wr_closed : peer_closed c' = peer_closed c;
  wr_received : st_received (stream c') = st_received (stream c);
  wr_next : next_seq (c_out c') = next_seq (c_out c);
  wr_flush : flush_seq (c_out c') = flush_seq (c_out c);
  wr_ready : ready (c_out c') = ready (c_out c);
  wr_awaiting : awaiting_sync (c_out c') = awaiting_sync (c_out c) }.

Lemma pump_spec s ok s' : pump s = (ok, s') → st_received s' = st_received s ∧ st_sent s' = st_sent s
  ∧ st_writes s' = st_writes s.
Proof. unfold pump. destruct (st_pumps s); by intros [= <- <-]. Qed.

Lemma flush_spec c ok c' : flush c = (ok, c') → written c c' ∧
  ∃ x, st_sent (stream c') = st_sent (stream c) ++ x ∧ x `prefix_of` outbuf (c_out c) ∧
       (ok = true → outbuf (c_out c) = x ++ outbuf (c_out c')).
Proof.
  unfold flush. destruct (pump (stream c)) as [ok1 s] eqn:Ep.
  destruct (pump_spec _ _ _ Ep) as (Hr & Hs & _). destruct ok1; cbn [negb].
  - pose proof (write_loop_spec (st_writes s) (outbuf (c_out c)) (st_sent s)) as Hw.
    destruct (write_loop _ _ _) as [[[ok2 ws] rest] sent]. destruct Hw as (x & -> & Hx).
    destruct ok2; intros [= <- <-]; (split; [by split |]); exists x; cbn; rewrite Hs; split_and!; try done;
      by exists rest.
  - intros [= <- <-]. split; [by split |]. exists []. cbn. rewrite app_nil_r.
    split_and!; [done | apply prefix_nil | done].
Qed.

(** Held back, discarded, or written in order. *)
Lemma flush_unless_held_spec c ok c' : flush_unless_held c = (ok, c') → written c c' ∧
  ∃ x, st_sent (stream c') = st_sent (stream c) ++ x ∧ x `prefix_of` outbuf (c_out c) ∧
       (peer_closed c = true → x = []) ∧ (awaiting_sync (c_out c) = true → x = []) ∧
       (ok = true → peer_closed c = false → outbuf (c_out c) = x ++ outbuf (c_out c')).
Proof.
  unfold flush_unless_held. destruct (peer_closed c) eqn:Ec.
  { intros [= <- <-]. split; [by split |]. exists []. cbn. rewrite app_nil_r.
    split_and!; [done | apply prefix_nil | done..]. }
  destruct (awaiting_sync (c_out c)) eqn:Ea.
  - destruct (pump (stream c)) as [ok1 s] eqn:Ep. destruct (pump_spec _ _ _ Ep) as (Hr & Hs & _).
    intros [= <- <-]. split; [by split |]. exists []. cbn. rewrite app_nil_r.
    split_and!; [done | apply prefix_nil | done..].
  - intros Hf. destruct (flush_spec _ _ _ Hf) as (Hw & x & H1 & H2 & H3).
    split; [done |]. exists x. split_and!; try done. intros Hok _. by apply H3.
Qed.

(** ** Releasing responses *)

Lemma release_ready_spec fuel o : (size (ready o) <= fuel)%nat →
  let o' := release_ready fuel o in
  ∃ bs, outbuf o' = outbuf o ++ concat bs ∧ flush_seq o' = flush_seq o + Z.of_nat (length bs) ∧
    next_seq o' = next_seq o ∧ awaiting_sync o' = awaiting_sync o ∧
    (∀ i b, bs !! i = Some b → ready o !! (flush_seq o + Z.of_nat i) = Some b) ∧
    (∀ s, ready o' !! s = if decide (flush_seq o ≤ s < flush_seq o') then None else ready o !! s) ∧
    ready o' !! flush_seq o' = None.
Proof.
  revert o. induction fuel as [|fuel IH]; intros o Hf; cbn [release_ready].
  - assert (ready o = ∅) as He by (apply map_size_empty_inv; lia).
    exists []. cbn. rewrite app_nil_r, He. split_and!; try done; try lia.
    intros s. case_decide; [lia | done].
  - destruct (ready o !! flush_seq o) as [b|] eqn:Eb.
    2:{ exists []. cbn. rewrite app_nil_r. split_and!; try done; try lia.
        intros s. case_decide; [lia | done]. }
    set (o1 := mk_outbound _ _ _ _ _). destruct (IH o1) as (bs & H1 & H2 & H3 & H4 & H5 & H6 & H7).
    { cbn. pose proof (map_size_delete_Some (flush_seq o) (ready o) (mk_is_Some _ _ Eb)).
      assert (size (ready o) ≠ 0)%nat by (intros E; apply map_size_empty_inv in E; by rewrite E in Eb). lia. }
    exists (b :: bs). cbn in *. split_and!; try done.
    + by rewrite H1, <- app_assoc.
    + rewrite H2. lia.
    + intros [|i] b'; cbn; [intros [= <-]; by rewrite Z.add_0_r |]. intros Hi%H5.
      apply lookup_delete_Some in Hi as [_ Hi]. by replace (flush_seq o + Z.of_nat (S i)) with (flush_seq o + 1 + Z.of_nat i) by lia.
    + intros s. rewrite H6. assert (flush_seq o + 1 ≤ flush_seq (release_ready fuel o1)) by (rewrite H2; lia).
      destruct (decide (s = flush_seq o)) as [->|Hne].
      * rewrite decide_False by lia. rewrite lookup_delete_eq, decide_True by lia. done.
      * rewrite lookup_delete_ne by done. do 2 case_decide; try done; lia.
Qed.

Lemma complete_spec seq b c :
  let o := c_out c in let o' := c_out (complete seq b c) in let m := <[seq := b]> (ready o) in
  ∃ bs, outbuf o' = outbuf o ++ concat bs ∧ flush_seq o' = flush_seq o + Z.of_nat (length bs) ∧
    next_seq o' = next_seq o ∧ awaiting_sync o' = awaiting_sync o ∧
    (∀ i x, bs !! i = Some x → m !! (flush_seq o + Z.of_nat i) = Some x) ∧
    (∀ s, ready o' !! s = if decide (flush_seq o ≤ s < flush_seq o') then None else m !! s) ∧
    ready o' !! flush_seq o' = None.
Proof.
  exact (release_ready_spec _ (mk_outbound (outbuf (c_out c)) (next_seq (c_out c)) (flush_seq (c_out c))
           (<[seq := b]> (ready (c_out c))) (awaiting_sync (c_out c))) (le_n _)).
Qed.

(** ** The invariant of a connection *)

Definition frame_ok (x : bytes * option Request) : Prop :=
  len x.1 ≤ i32_max ∧ match x.2 with Some req => ∃ outcome, parse x.1 = Ok (req, outcome) | None => True end.

(** [t] is the request [req] of the history. *)
Definition stands_for (t : Held) (req : Request) : Prop :=
  req_correlation_id req = h_correlation t ∧ ∀ r, h_request t = Some r → r = req.

Definition raw_seen (h : Hist) : Prop := None ∈ (h_frames h).*2 ∨ ∃ b, RawReply b ∈ h_items h.

(** [loose]: its retry has just gone through; [ts]: its requests that are held or
    parked. *)
Record conn_ok (loose : bool) (ts : list Held) (c : Conn) (h : Hist) : Prop := mk_conn_ok {
  ok_layout : in_layout true c;
  ok_received : st_received (stream c) = concat (framed <$> (h_frames h).*1) ++ inbuf (c_in c);
  ok_frames : Forall frame_ok (h_frames h);
  ok_output : peer_closed c = false → st_sent (stream c) ++ outbuf (c_out c) = output h;
  ok_sent : st_sent (stream c) `prefix_of` output h;
  ok_flush : 0 ≤ flush_seq (c_out c) ≤ next_seq (c_out c);
  ok_next : Z.of_nat (length (requests h)) = next_seq (c_out c);
  ok_answered : length (replies h) = Z.to_nat (flush_seq (c_out c));
  ok_replies : ∀ i b, replies h !! i = Some b →
    ∃ req, requests h !! i = Some req ∧ answers (h_silent h) (Z.of_nat i) req b;
  ok_ready : ∀ s b, ready (c_out c) !! s = Some b →
    flush_seq (c_out c) < s < next_seq (c_out c) ∧
    ∃ req, requests h !! Z.to_nat s = Some req ∧ answers (h_silent h) s req b;
  ok_tickets : ∀ t, t ∈ ts →
    flush_seq (c_out c) ≤ h_seq t < next_seq (c_out c) ∧
    (∃ req, requests h !! Z.to_nat (h_seq t) = Some req ∧ stands_for t req) ∧ ready (c_out c) !! h_seq t = None;
  ok_covered : ∀ s, flush_seq (c_out c) ≤ s < next_seq (c_out c) →
    is_Some (ready (c_out c) !! s) ∨ s ∈ h_seq <$> ts;
  ok_distinct : NoDup (h_seq <$> ts);
  ok_retry : ∀ t, t ∈ ts → h_retry t = true → h_seq t = next_seq (c_out c) - 1 ∧ retrying c = true ∧ loose = false;
  ok_retrying : retrying c = true → loose = true ∨ ∃ t, t ∈ ts ∧ h_retry t = true;
  ok_request : ∀ t, t ∈ ts → is_request t = true → h_seq t = next_seq (c_out c) - 1 ∧ retrying c = false;
  ok_parked : retrying c = false → parked_bytes (c_in c) = 0 ∧ loose = false;
  ok_raw : sasl_raw (c_auth c) = true ∨ raw_seen h → raw_started h }.

Lemma conn_ok_perm loose ts ts' c h : ts ≡ₚ ts' → conn_ok loose ts c h → conn_ok loose ts' c h.
Proof.
  intros Hp []. split; try done.
  - intros t Ht. apply ok_tickets0. by rewrite Hp.
  - intros s Hs. destruct (ok_covered0 s Hs); [by left | right; by rewrite <- Hp].
  - by rewrite <- Hp.
  - intros t Ht. apply ok_retry0. by rewrite Hp.
  - intros Hr. destruct (ok_retrying0 Hr) as [?|(t & Ht & ?)]; [by left | right; exists t; by rewrite <- Hp].
  - intros t Ht. apply ok_request0. by rewrite Hp.
Qed.

(** A connection that differs only where none of this looks. *)
Lemma conn_ok_same loose ts c c' h :
  conn_ok loose ts c h → c_in c' = c_in c → c_out c' = c_out c → stream c' = stream c →
  retrying c' = retrying c → (peer_closed c' = false → peer_closed c = false) →
  (sasl_raw (c_auth c') = true → sasl_raw (c_auth c) = true ∨ raw_started h) → conn_ok loose ts c' h.
Proof.
  intros [] E1 E2 E3 E4 E5 E6. unfold in_layout in *. split; unfold in_layout; rewrite ?E1, ?E2, ?E3, ?E4; auto.
  intros [Hr|Hr]; [destruct (E6 Hr); auto | auto].
Qed.

Lemma conn_ok_flush loose ts c c' h :
  conn_ok loose ts c h → flush_unless_held c = (true, c') → conn_ok loose ts c' h.
Proof.
  intros Hok Hf. destruct (flush_unless_held_spec _ _ _ Hf) as ([E1 E2 E3 E4 E5 E6 E7 E8 E9] & x & Hx & Hp & Hc & _ & Ho).
  pose proof Hok as []. split; unfold in_layout in *; rewrite ?E1, ?E3, ?E4, ?E5, ?E6, ?E7, ?E8, ?E2; try done.
  - intros Hnc. rewrite Hx, <- app_assoc, <- Ho by done. by apply ok_output0.
  - rewrite Hx. destruct (peer_closed c) eqn:Ec.
    + by rewrite Hc, app_nil_r by done.
    + rewrite <- ok_output0 by done. destruct Hp as [y ->]. exists y. by rewrite app_assoc.
Qed.

(** ** The steps on a connection *)

Lemma output_add_items l h : output (add_items l h) = output h ++ concat (item_bytes <$> l).
Proof. unfold output, add_items. cbn. by rewrite fmap_app, concat_app. Qed.
Lemma requests_add_frame f k h : requests (add_frame f k h) = requests h ++ option_list k.
Proof. unfold requests, add_frame. cbn. rewrite omap_app. by destruct k. Qed.
Lemma replies_add_items l h : replies (add_items l h) =
  replies h ++ omap (λ i, match i with Answer b => Some b | RawReply _ => None end) l.
Proof. unfold replies, add_items. cbn. by rewrite omap_app. Qed.
Lemma replies_answers (bs : list bytes) : omap (λ i, match i with Answer b => Some b | RawReply _ => None end) (Answer <$> bs) = bs.
Proof. induction bs; cbn; by f_equal. Qed.

(** More requests, replies and silences. *)
Lemma raw_started_frame h f k : raw_started h → raw_started (add_frame f k h).
Proof. intros (req & Hin & Hr). exists req. split; [| done]. rewrite requests_add_frame. set_solver. Qed.
Lemma answers_mono l l' s req b : answers l s req b → l ⊆ l' → answers l' s req b.
Proof. intros [Hb|[-> Hs]] Hl; [by left | right; set_solver]. Qed.

Lemma received_taken loose ts c h max f rest :
  conn_ok loose ts c h → take_frame max (inbuf (c_in c)) = (Ok (Some f), rest) →
  in_layout true (taken c f rest) ∧
  st_received (stream c) = concat (framed <$> (h_frames h ++ [(f, None : option Request)]).*1) ++ rest.
Proof.
  intros [] Ht. destruct (layout_take _ _ _ _ _ _ ok_layout0 Ht) as [Hl Hb]. split; [done |].
  rewrite ok_received0, !fmap_app, concat_app, Hb. cbn. by rewrite app_nil_r, <- app_assoc.
Qed.

Lemma frames_fst (l : list (bytes * option Request)) f k : (l ++ [(f, k)]).*1 = (l ++ [(f, None : option Request)]).*1.
Proof. by rewrite !fmap_app. Qed.

Lemma claim_taken loose ts c h max f rest :
  conn_ok loose ts c h → take_frame max (inbuf (c_in c)) = (Ok (Some f), rest) →
  claim (taken c f rest) = claim c - (4 + len f) ∧ 0 ≤ len f.
Proof.
  intros Hok Ht. destruct (received_taken _ _ _ _ _ _ _ Hok Ht) as [Hl _].
  pose proof (layout_bound _ _ _ _ Hl) as [H1 _]. pose proof (layout_bound _ _ _ _ (ok_layout _ _ _ _ Hok)) as [H2 _].
  unfold claim. cbn in *. pose proof (len_nonneg f). lia.
Qed.

Lemma frame_len max buf f rest : take_frame max buf = (Ok (Some f), rest) → len f ≤ i32_max.
Proof.
  intros Ht. pose proof (take_frame_cases max buf) as Hc. rewrite Ht in Hc.
  inversion Hc as [| | |d prefix body rest' Hb Hp Hd Hw Hm]; subst.
  rewrite Hw. pose proof (wrap_i_range 32 (be_val prefix) ltac:(lia)) as Hr. unfold i32_max. lia.
Qed.

Lemma conn_ok_request ts c h max f rest req outcome seq c' id n :
  conn_ok false ts c h → (∀ t, t ∈ ts → is_request t = false) → retrying c = false →
  take_frame max (inbuf (c_in c)) = (Ok (Some f), rest) →
  parse f = Ok (req, outcome) → reserve (taken c f rest) = (seq, c') →
  conn_ok false (HRequest id seq req n :: ts) c' (add_frame f (Some req) h).
Proof.
  intros Hok Hreq Hr Ht Hp Hs. destruct (received_taken _ _ _ _ _ _ _ Hok Ht) as [Hl Hrec].
  unfold reserve in Hs. injection Hs as <- <-. pose proof Hok as [].
  assert (∀ s, s < next_seq (c_out c) → 0 ≤ s →
    (requests h ++ [req]) !! Z.to_nat s = requests h !! Z.to_nat s) as Hlook.
  { intros s Hs0 Hs1. apply lookup_app_l. lia. }
  split; rewrite ?requests_add_frame; cbn [c_in c_out stream set_out set_in taken set_inbuf next_seq flush_seq
    ready outbuf retrying option_list peer_closed parked_bytes add_frame h_frames h_silent c_auth]; try done.
  - by rewrite frames_fst.
  - apply Forall_app. split; [done |]. constructor; [| constructor]. split; [by eapply frame_len | by exists outcome].
  - lia.
  - rewrite length_app. cbn. lia.
  - intros i b Hb. destruct (ok_replies0 i b Hb) as (r & H1 & H2). exists r. split; [by apply lookup_app_l_Some | done].
  - intros s b Hb. destruct (ok_ready0 s b Hb) as (H1 & r & H2 & H3). split; [lia |].
    exists r. by rewrite Hlook by lia.
  - intros t [->|Hin]%elem_of_cons; cbn.
    + split; [lia |]. split.
      * exists req. rewrite lookup_app_r by lia. replace (_ - _)%nat with O by lia. split; [done |].
        split; [done |]. by intros r [= ->].
      * destruct (ready (c_out c) !! next_seq (c_out c)) eqn:E; [| done]. apply ok_ready0 in E. lia.
    + destruct (ok_tickets0 t Hin) as (H1 & H2 & H3). split_and!; [lia | lia | | done]. by rewrite Hlook by lia.
  - intros s Hs. destruct (decide (s = next_seq (c_out c))) as [->|Hne].
    { right. cbn. by left. }
    destruct (ok_covered0 s); [lia | by left | right; cbn; by right].
  - cbn. constructor; [| done]. intros (t & Ht1 & Ht2)%list_elem_of_fmap.
    apply ok_tickets0 in Ht2. lia.
  - intros t [->|Hin]%elem_of_cons Hret; [done |]. by destruct (ok_retry0 t Hin Hret) as (_ & ? & _); congruence.
  - intros Hret. congruence.
  - intros t [->|Hin]%elem_of_cons Hq; cbn; [split; [lia | done] |]. by rewrite Hreq in Hq.
  - intros Hraw. apply raw_started_frame, ok_raw0. destruct Hraw as [?|[Hn|?]]; [by left | | by right; right].
    right. left. cbn [h_frames add_frame] in Hn. rewrite fmap_app in Hn. apply elem_of_app in Hn as [?|Hn]; [done |]. by apply list_elem_of_singleton in Hn.
Qed.

Lemma conn_ok_raw ts c h max f rest reply a c' :
  conn_ok false ts c h → sasl_raw (c_auth c) = true → take_frame max (inbuf (c_in c)) = (Ok (Some f), rest) →
  push_raw reply (set_auth a (taken c f rest)) = (true, c') →
  conn_ok false ts c' (add_items [RawReply (be_bytes 4 (len reply) ++ reply)] (add_frame f None h)).
Proof.
  intros Hok Hraw Ht Hs. destruct (received_taken _ _ _ _ _ _ _ Hok Ht) as [Hl Hrec].
  unfold push_raw in Hs. destruct (_ <? _); [done |]. injection Hs as <-. pose proof Hok as [].
  set (h' := add_items _ _). assert (requests h' = requests h) as Er.
  { change (requests (add_frame f None h) = requests h). rewrite requests_add_frame. apply app_nil_r. }
  assert (replies h' = replies h) as Ep by (unfold h'; rewrite replies_add_items; apply app_nil_r).
  split; rewrite ?Er, ?Ep; try done.
  - cbn. apply Forall_app. split; [done |]. constructor; [| constructor]. split; [by eapply frame_len | done].
  - intros Hc. unfold h'. rewrite output_add_items. change (output (add_frame f None h)) with (output h).
    cbn. rewrite app_assoc, ok_output0, app_nil_r by done. done.
  - unfold h'. rewrite output_add_items. change (output (add_frame f None h)) with (output h).
    cbn. by apply prefix_app_r.
  - intros _. unfold raw_started. rewrite Er. apply ok_raw0. by left.
Qed.

Lemma conn_ok_admit loose ts c h cap budget c1 a :
  conn_ok loose ts c h → admitted budget (set_frame_cap cap c) c1 → sasl_raw a = sasl_raw (c_auth c1) →
  conn_ok loose ts (set_auth a c1) h.
Proof.
  intros [] [[ch [R1 R2 R3 R4 R5 R6 R7 R8]] Hl Hb] Ha.
  cbn [set_frame_cap set_in c_in inbuf c_out stream retrying peer_closed parked_bytes] in *.
  split; unfold in_layout in *; cbn [set_auth c_in c_out stream retrying peer_closed]; rewrite ?R4, ?R6, ?R7, ?R8, ?R3; try done.
  - rewrite R2, R1, ok_received0. by rewrite app_assoc.
  - cbn [c_auth set_auth]. by rewrite Ha, R5.
Qed.

(** *** A request is answered *)

Section Complete.
Context (loose : bool) (t : Held) (ts : list Held) (c : Conn) (h : Hist) (b : bytes).
Context (Hok : conn_ok loose (t :: ts) c h) (Hb : completes t h b).

#[local] Abbreviation c' := (complete (h_seq t) b c).
#[local] Abbreviation slots := (<[h_seq t := b]> (ready (c_out c))).

Lemma slot_answers s x : slots !! s = Some x →
  flush_seq (c_out c) ≤ s < next_seq (c_out c) ∧
  ∃ req, requests h !! Z.to_nat s = Some req ∧ answers (h_silent h) s req x.
Proof using Hok Hb.
  pose proof Hok as []. intros [[<- <-]|[Hne Hx]]%lookup_insert_Some.
  - destruct (ok_tickets0 t) as (H1 & (req & H2 & H3 & _) & _); [by left |]. split; [done |]. exists req.
    split; [done |]. unfold answers. rewrite H3. exact Hb.
  - destruct (ok_ready0 s x Hx) as (H1 & H2). split; [lia | done].
Qed.

(** What [complete] moves, as the machine records it. *)
Lemma complete_released : ∃ bs,
  released c c' (h_seq t) b = Answer <$> bs ∧
  outbuf (c_out c') = outbuf (c_out c) ++ concat bs ∧
  flush_seq (c_out c') = flush_seq (c_out c) + Z.of_nat (length bs) ∧
  flush_seq (c_out c') ≤ next_seq (c_out c) ∧
  ∀ i x, bs !! i = Some x → ∃ req, requests h !! (Z.to_nat (flush_seq (c_out c)) + i)%nat = Some req ∧
    answers (h_silent h) (flush_seq (c_out c) + Z.of_nat i) req x.
Proof using Hok Hb.
  pose proof Hok as []. destruct (complete_spec (h_seq t) b c) as (bs & H1 & H2 & _ & _ & H5 & _ & _).
  exists bs. set (f := flush_seq (c_out c)) in *. rewrite H2.
  assert (f + Z.of_nat (length bs) ≤ next_seq (c_out c)) as Hn.
  { destruct (decide (bs = [])) as [->|Hne]; [cbn; lia |].
    destruct (lookup_lt_is_Some_2 bs (length bs - 1)) as [x Hx]; [destruct bs; cbn; [done | lia] |].
    apply H5, slot_answers in Hx as [Hx _]. destruct bs; [done |]. cbn in *. lia. }
  split_and!; try done.
  - unfold released. rewrite H2. replace (Z.to_nat (f + Z.of_nat (length bs) - flush_seq (c_out c)))
      with (length bs) by (fold f; lia). fold f. apply list_eq. intros i. rewrite !list_lookup_fmap.
    destruct (bs !! i) as [x|] eqn:Ex.
    + rewrite lookup_seq_lt by (by apply lookup_lt_Some in Ex). cbn. by rewrite (H5 i x Ex).
    + rewrite lookup_seq_ge; [done |]. by apply lookup_ge_None.
  - intros i x Hx. destruct (slot_answers _ _ (H5 i x Hx)) as (_ & req & Hk & Ha). exists req. split; [| done].
    by replace (Z.to_nat f + i)%nat with (Z.to_nat (f + Z.of_nat i)) by lia.
Qed.

Lemma complete_other s : ready (c_out c') !! s =
  if decide (flush_seq (c_out c) ≤ s < flush_seq (c_out c')) then None else slots !! s.
Proof using Type. destruct (complete_spec (h_seq t) b c) as (bs & _ & _ & _ & _ & _ & H & _). apply H. Qed.

Lemma conn_ok_complete :
  conn_ok (loose || h_retry t) ts c' (add_items (released c c' (h_seq t) b) h).
Proof using Hok Hb.
  pose proof Hok as []. destruct (complete_released) as (bs & Hrel & H1 & H2 & Hn & Hans).
  destruct (complete_spec (h_seq t) b c) as (bs' & _ & _ & E3 & E4 & _ & _ & E7).
  set (hi := add_items _ h) in *. assert (requests hi = requests h) as Er by done.
  assert (replies hi = replies h ++ bs) as Ep by (unfold hi; by rewrite replies_add_items, Hrel, replies_answers).
  assert (output hi = output h ++ concat bs) as Eo.
  { unfold hi. rewrite output_add_items, Hrel, <- list_fmap_compose. unfold compose. cbn. by rewrite list_fmap_id. }
  assert (∀ u, u ∈ ts → h_seq u ≠ h_seq t) as Hneq.
  { intros u Hu E. apply NoDup_cons in ok_distinct0 as [Hnot _]. apply Hnot. apply list_elem_of_fmap. by exists u. }
  assert (∀ u, u ∈ ts → flush_seq (c_out c') ≤ h_seq u ∧ ready (c_out c') !! h_seq u = None) as Hun.
  { intros u Hu. destruct (ok_tickets0 u) as (Hr & _ & Hnone); [by right |].
    assert (slots !! h_seq u = None) as Hs by (rewrite lookup_insert_ne by (by apply not_eq_sym, Hneq); done).
    split; [| rewrite complete_other; by case_decide].
    destruct (Z.lt_ge_cases (h_seq u) (flush_seq (c_out c'))) as [Hlt|]; [| lia]. exfalso.
    destruct (complete_spec (h_seq t) b c) as (bs2 & _ & F2 & _ & _ & F5 & _ & _).
    destruct (lookup_lt_is_Some_2 bs2 (Z.to_nat (h_seq u - flush_seq (c_out c)))) as [x Hx]; [lia |].
    apply F5 in Hx. replace (flush_seq (c_out c) + Z.of_nat (Z.to_nat (h_seq u - flush_seq (c_out c)))) with (h_seq u) in Hx by lia.
    congruence. }
  split; rewrite ?Er, ?E3; try done.
  - intros Hc. change (st_sent (stream c')) with (st_sent (stream c)). rewrite H1, app_assoc, ok_output0 by done. done.
  - rewrite Eo. by apply prefix_app_r.
  - lia.
  - rewrite Ep, length_app, ok_answered0. lia.
  - intros i x. rewrite Ep. intros [Hx|[Hge Hx]]%lookup_app_Some; [by apply ok_replies0 |].
    destruct (Hans _ _ Hx) as (req & Hq & Ha). exists req. rewrite ok_answered0 in *. split.
    + by replace (Z.to_nat (flush_seq (c_out c)) + (i - Z.to_nat (flush_seq (c_out c))))%nat with i in Hq by lia.
    + by replace (flush_seq (c_out c) + Z.of_nat (i - Z.to_nat (flush_seq (c_out c)))) with (Z.of_nat i) in Ha by lia.
  - intros s x Hx. assert (s ≠ flush_seq (c_out c')) by (intros ->; congruence).
    rewrite complete_other in Hx. case_decide; [done |].
    destruct (slot_answers s x Hx) as [Hs Hk]. split; [lia | done].
  - intros u Hu. destruct (ok_tickets0 u) as (Hr & Hq & _); [by right |]. destruct (Hun u Hu). by split_and!; [lia | lia | |].
  - intros s Hs. rewrite complete_other, decide_False by lia.
    destruct (decide (s = h_seq t)) as [->|Hne]; [left; by rewrite lookup_insert_eq |].
    rewrite lookup_insert_ne by done. destruct (ok_covered0 s) as [?|Hin]; [lia | by left |].
    right. cbn in Hin. apply elem_of_cons in Hin as [->|?]; done.
  - by apply NoDup_cons in ok_distinct0 as [_ ?].
  - intros u Hu Hret. destruct (ok_retry0 u) as (A1 & A2 & A3); [by right | done |].
    split_and!; [done | done |]. rewrite A3. cbn. destruct (h_retry t) eqn:Et; [| done].
    destruct (ok_retry0 t) as (B1 & _); [by left | done |]. exfalso. apply (Hneq u Hu). congruence.
  - intros Hr. destruct (ok_retrying0 Hr) as [->|(u & Hu & Hret)]; [by left |].
    apply elem_of_cons in Hu as [->|Hu]; [left; by rewrite Hret, orb_true_r | right; by exists u].
  - intros u Hu Hq. apply ok_request0; [by right | done].
  - intros Hr. destruct (ok_parked0 Hr) as [? ->]. split; [done |]. cbn. change (retrying c = false) in Hr.
    destruct (h_retry t) eqn:Et; [| done]. destruct (ok_retry0 t) as (_ & ? & _); [by left | done | congruence].
  - intros Hraw. apply ok_raw0. destruct Hraw as [?|[?|[x Hx]]]; [by left | by right; left |]. right. right. exists x.
    unfold hi in Hx. cbn in Hx. rewrite Hrel in Hx. apply elem_of_app in Hx as [?|(y & [=] & _)%list_elem_of_fmap]. done.
Qed.

End Complete.

(** *** A request is parked *)

(** The same place in the order, whoever keeps it. *)
Lemma conn_ok_park loose t t' ts c h :
  conn_ok loose (t :: ts) c h → h_seq t' = h_seq t → h_correlation t' = h_correlation t → h_request t' = None →
  h_retry t' = false → is_request t' = false → conn_ok (loose || h_retry t) (t' :: ts) c h.
Proof.
  intros Hok E1 E2 E0 E3 E4. pose proof Hok as []. cbn [fmap list_fmap] in *. apply NoDup_cons in ok_distinct0 as [Hnot Hnd].
  assert (∀ u, u ∈ ts → h_retry u = true → h_retry t = false) as Honly.
  { intros u Hu Hr. destruct (h_retry t) eqn:Et; [| done]. destruct (ok_retry0 u) as (A & _); [by right | done |].
    destruct (ok_retry0 t) as (B & _); [by left | done |]. exfalso. apply Hnot, list_elem_of_fmap. exists u.
    split; [congruence | done]. }
  split; try done.
  - intros u [->|Hu]%elem_of_cons; [| apply ok_tickets0; by right]. unfold stands_for. rewrite E1, E2, E0.
    destruct (ok_tickets0 t) as (H1 & (req & H2 & H3 & _) & H4); [by left |]. split; [done |]. split; [| done].
    exists req. by split_and!.
  - intros s Hs. cbn [fmap list_fmap]. rewrite E1. by apply ok_covered0.
  - cbn [fmap list_fmap]. rewrite E1. by constructor.
  - intros u [->|Hu]%elem_of_cons Hr; [congruence |]. rewrite (Honly u Hu Hr).
    destruct (ok_retry0 u) as (A1 & A2 & ->); [by right | done | done].
  - intros Hr. destruct (ok_retrying0 Hr) as [->|(u & Hu & Hret)]; [by left |].
    apply elem_of_cons in Hu as [->|Hu]; [left; by rewrite Hret, orb_true_r | right; exists u; split; [by right | done]].
  - intros u [->|Hu]%elem_of_cons Hq; [congruence |]. apply ok_request0; [by right | done].
  - intros Hr. destruct (ok_parked0 Hr) as [? ->]. split; [done |]. cbn. destruct (h_retry t) eqn:Et; [| done].
    destruct (ok_retry0 t) as (_ & ? & _); [by left | done | congruence].
Qed.

Lemma conn_ok_park_retry id seq k n p ts c h :
  conn_ok false (HRequest id seq k n :: ts) c h → pk_seq p = seq → pk_correlation_id p = req_correlation_id k →
  pk_waiting p = WRetry k → conn_ok false (HParked p :: ts) (set_parked_retry n c) h.
Proof.
  intros Hok E1 E2 E3. pose proof Hok as []. cbn [fmap list_fmap h_seq] in *. apply NoDup_cons in ok_distinct0 as [Hnot Hnd].
  destruct (ok_request0 (HRequest id seq k n)) as [Hseq Hr]; [by left | done |]. cbn in Hseq.
  split; try done.
  - intros u [->|Hu]%elem_of_cons; [| apply ok_tickets0; by right]. unfold stands_for. cbn. rewrite E1, E2, E3.
    apply (ok_tickets0 (HRequest id seq k n)). by left.
  - intros s Hs. cbn. rewrite E1. by apply ok_covered0.
  - cbn. rewrite E1. by constructor.
  - intros u [->|Hu]%elem_of_cons Hret; [cbn; split_and!; [lia | done | done] |].
    destruct (ok_retry0 u) as (_ & ? & _); [by right | done | congruence].
  - intros _. right. exists (HParked p). split; [by left | cbn; by rewrite E3].
  - intros u [->|Hu]%elem_of_cons Hq; [done |]. exfalso. apply Hnot, list_elem_of_fmap. exists u.
    split; [| done]. destruct (ok_request0 u) as [? _]; [by right | done | congruence].
Qed.

Lemma conn_ok_release ts c h : conn_ok true ts c h →
  conn_ok false ts (set_parked_bytes 0 (set_retrying false c)) h.
Proof.
  intros []. split; try done.
  - intros u Hu Hr. by destruct (ok_retry0 u Hu Hr) as (_ & _ & ?).
  - intros u Hu Hq. destruct (ok_request0 u Hu Hq) as [? Hr]. split; [done |]. done.
Qed.

Lemma conn_ok_new now st addr : st_received st = [] → st_sent st = [] →
  conn_ok false [] (new_conn now st addr) (mk_hist [] [] ∅).
Proof.
  intros H1 H2. split; cbn; rewrite ?H1, ?H2; try done; try lia.
  - constructor.
  - intros t Ht. by apply not_elem_of_nil in Ht.
  - constructor.
  - intros t Ht. by apply not_elem_of_nil in Ht.
  - intros t Ht. by apply not_elem_of_nil in Ht.
  - intros [?|[Hn|[b Hb]]]; [done | by apply elem_of_nil in Hn | by apply elem_of_nil in Hb].
Qed.
