(* ===== verification/ServerStep.v ===== *)
(** * Every step of the server machine keeps its invariant *)

From stdpp Require Import gmap strings.
From S2P Require Import Prelude Errors Framing Sasl ServerConn ServerInbound Server ServerInv.

#[local] Open Scope Z_scope.

(** ** The invariant *)

Definition tickets (m : Machine) : list Held := m_held m ++ (HParked <$> parked (m_srv m)).
Definition of_conn (id : Z) (l : list Held) : list Held := filter (λ t, h_id t = id) l.
Definition parked_held (l : list Held) : nat := length (filter (λ t, is_request t = false) l).

#[global] Arguments of_conn : simpl never.
#[global] Arguments parked_held : simpl never.

(** What the calls so far leave owed on a connection: the partition waits for a sync,
    the connection's output is held back, and nothing went out from the response to the
    request on. *)
Definition barred (log : list Call) (un : gset (Z * Z)) (id : Z) (c : Conn) (h : Hist) : Prop :=
  ∀ s req p, owed log id s req p →
    p ∈ un ∧ awaiting_sync (c_out c) = true ∧ 0 ≤ s ∧ requests h !! Z.to_nat s = Some req ∧
    st_sent (stream c) `prefix_of` concat (item_bytes <$> before (Z.to_nat s) (h_items h)).

Lemma concat_prefix (l l' : list Item) : l `prefix_of` l' →
  concat (item_bytes <$> l) `prefix_of` concat (item_bytes <$> l').
Proof. intros [k ->]. rewrite fmap_app, concat_app. by apply prefix_app_r. Qed.

Lemma barred_step log log' un un' id c c' h h' : barred log un id c h →
  (∀ s req p, owed log' id s req p → owed log id s req p ∧ (p ∈ un → p ∈ un')) →
  (awaiting_sync (c_out c) = true →
     awaiting_sync (c_out c') = true ∧ st_sent (stream c') = st_sent (stream c)) →
  requests h `prefix_of` requests h' → h_items h `prefix_of` h_items h' → barred log' un' id c' h'.
Proof.
  intros Hb Ho Hc [k Hr] [l Hi] s req p Hp. destruct (Ho s req p Hp) as [H1 H2].
  destruct (Hb s req p H1) as (B1 & B2 & B3 & B4 & B5). destruct (Hc B2) as [C1 ->].
  split_and!; [auto | done | done | |].
  - rewrite Hr. by apply lookup_app_l_Some.
  - etransitivity; [exact B5 |]. apply concat_prefix. rewrite Hi. apply before_app.
Qed.

(** What a connection that is not to be closed satisfies. *)
Definition live_ok (m : Machine) (id : Z) (c : Conn) (h : Hist) : Prop :=
  conn_ok (bool_decide (m_loose m = Some id)) (of_conn id (tickets m)) c h ∧
  barred (m_log m) (unsynced (m_srv m)) id c h ∧ (∀ s, s ∈ h_silent h → silent (m_log m) id s).

(** Every call was made for a connection there has been. *)
Definition log_ok (log : list Call) (last : Z) : Prop :=
  ∀ id s req ps b r, CallProduce id s req ps b r ∈ log → id ≤ last.

(** [limit] bounds the inbound bytes accounted for. *)
Section Limit.
Context (limit : Z).

Record minv (m : Machine) : Prop := mk_minv {
  mi_conns : ∀ id c, m_conn m id = Some c →
    ∃ h, m_hist m !! id = Some h ∧ 0 ≤ parked_bytes (c_in c) ∧ (id ∉ m_doomed m → live_ok m id c h);
  mi_ids : ∀ id, is_Some (m_conn m id) → id ≤ next_id (m_srv m);
  mi_tickets : ∀ t, t ∈ tickets m → h_id t ≤ next_id (m_srv m);
  mi_parked : Z.of_nat (length (parked (m_srv m)) + parked_held (m_held m)) ≤ MAX_PARKED;
  mi_lens : ∀ t, t ∈ m_held m → 0 ≤ h_len t;
  mi_retries : ∀ p, HParked p ∈ tickets m → retry_ok p;
  mi_log : log_ok (m_log m) (next_id (m_srv m));
  mi_load : load m ≤ limit }.

(** ** Sums of claims *)

Lemma sum_claims_insert_new (f : Z → Z) (m : gmap Z Conn) i c : m !! i = None →
  sum_claims f (<[i := c]> m) = f (claim c) + sum_claims f m.
Proof.
  intros Hi. unfold sum_claims. apply (map_fold_insert_L (λ _ c n, f (claim c) + n)); [| done].
  intros. lia.
Qed.

Lemma sum_claims_delete (f : Z → Z) (m : gmap Z Conn) i c : m !! i = Some c →
  sum_claims f (delete i m) = sum_claims f m - f (claim c).
Proof.
  intros Hi. rewrite <- (insert_delete_id m i c Hi) at 2.
  rewrite sum_claims_insert_new by apply lookup_delete_eq. lia.
Qed.

Lemma sum_claims_insert (f : Z → Z) (m : gmap Z Conn) i c c' : m !! i = Some c →
  sum_claims f (<[i := c']> m) = sum_claims f m - f (claim c) + f (claim c').
Proof.
  intros Hi. rewrite <- insert_delete_eq. rewrite sum_claims_insert_new by apply lookup_delete_eq.
  rewrite (sum_claims_delete f m i c Hi). lia.
Qed.

Lemma sum_claims_alter (f : Z → Z) (g : Conn → Conn) (m : gmap Z Conn) : (∀ c, claim (g c) = claim c) →
  sum_claims f (g <$> m) = sum_claims f m.
Proof.
  intros Hg. induction m as [|i c m Hi IH] using map_ind; [by rewrite fmap_empty |].
  rewrite fmap_insert, !sum_claims_insert_new by (by rewrite ?lookup_fmap, ?Hi). by rewrite Hg, IH.
Qed.

Lemma load_put m i c c' : m_conn m i = Some c → load (put i c' m) = load m - claim c + claim c'.
Proof.
  intros Hc. unfold load. change (conns (m_srv (put i c' m))) with (<[i := c']> (conns (m_srv m))).
  rewrite (sum_claims_insert Datatypes.id _ i c c' Hc). change (m_held (put i c' m)) with (m_held m).
  change (Datatypes.id (claim c)) with (claim c). change (Datatypes.id (claim c')) with (claim c'). lia.
Qed.

(** ** Tickets *)

Lemma of_conn_app id l l' : of_conn id (l ++ l') = of_conn id l ++ of_conn id l'.
Proof. apply filter_app. Qed.
Lemma of_conn_cons_eq id t l : h_id t = id → of_conn id (t :: l) = t :: of_conn id l.
Proof. intros H. unfold of_conn. by rewrite filter_cons_True. Qed.
Lemma of_conn_cons_ne id t l : h_id t ≠ id → of_conn id (t :: l) = of_conn id l.
Proof. intros H. unfold of_conn. by rewrite filter_cons_False. Qed.
Lemma of_conn_perm id l l' : l ≡ₚ l' → of_conn id l ≡ₚ of_conn id l'.
Proof. intros H. unfold of_conn. by rewrite H. Qed.
Lemma elem_of_conn id t l : t ∈ of_conn id l ↔ h_id t = id ∧ t ∈ l.
Proof. unfold of_conn. by rewrite list_elem_of_filter. Qed.

Lemma parked_held_app l l' : parked_held (l ++ l') = (parked_held l + parked_held l')%nat.
Proof. unfold parked_held. by rewrite filter_app, length_app. Qed.
Lemma parked_held_cons t l : parked_held (t :: l) = ((if is_request t then 0 else 1) + parked_held l)%nat.
Proof. unfold parked_held. rewrite filter_cons. destruct (is_request t); by case_decide. Qed.

Lemma h_lens_app l l' : foldr Z.add 0 (h_len <$> l ++ l') = foldr Z.add 0 (h_len <$> l) + foldr Z.add 0 (h_len <$> l').
Proof. rewrite fmap_app. induction l as [|t l IH]; cbn; lia. Qed.

Lemma conn_ok_loose b b' ts ts' c h : conn_ok b ts c h → b = b' → ts ≡ₚ ts' → conn_ok b' ts' c h.
Proof. intros H <- Hp. by eapply conn_ok_perm. Qed.

(** ** A step that changes one connection *)

Lemma minv_update m m' id c' h' :
  minv m →
  conns (m_srv m') = <[id := c']> (conns (m_srv m)) →
  next_id (m_srv m') = next_id (m_srv m) → (∀ j, j ≠ id → j ∉ m_doomed m' → j ∉ m_doomed m) →
  id ≤ next_id (m_srv m) →
  (∀ j, j ≠ id → of_conn j (tickets m') ≡ₚ of_conn j (tickets m)) →
  (∀ t, t ∈ tickets m' → h_id t ≤ next_id (m_srv m)) →
  (∀ j, j ≠ id → m_hist m' !! j = m_hist m !! j ∧ (m_loose m' = Some j ↔ m_loose m = Some j)) →
  unsynced (m_srv m) ⊆ unsynced (m_srv m') →
  (∀ j s req p, j ≠ id → owed (m_log m') j s req p → owed (m_log m) j s req p) →
  (∀ j s, silent (m_log m) j s → silent (m_log m') j s) → log_ok (m_log m') (next_id (m_srv m)) →
  m_hist m' !! id = Some h' → 0 ≤ parked_bytes (c_in c') → (id ∉ m_doomed m' → live_ok m' id c' h') →
  Z.of_nat (length (parked (m_srv m')) + parked_held (m_held m')) ≤ MAX_PARKED →
  (∀ t, t ∈ m_held m' → 0 ≤ h_len t) →
  (∀ p, HParked p ∈ tickets m' → retry_ok p) →
  load m' ≤ limit → minv m'.
Proof.
  intros [] Ec En Ed Hid Ht Htn Hh Hu Ho Hsl Hlo Hhi Hs Hl Hp Hlen Hret Hload. split; try done.
  - unfold m_conn. rewrite Ec. intros j c Hj. destruct (decide (j = id)) as [->|Hne].
    { rewrite lookup_insert_eq in Hj. injection Hj as <-. by exists h'. }
    rewrite lookup_insert_ne in Hj by done. destruct (mi_conns0 j c Hj) as (h & H1 & H2 & H3).
    destruct (Hh j Hne) as [E1 E2]. exists h. rewrite E1. split_and!; [done | done |].
    intros Hd. destruct (H3 (Ed j Hne Hd)) as (A1 & A2 & A3). split_and!; [| | auto].
    + eapply conn_ok_loose; [done | by apply bool_decide_ext | symmetry; by apply Ht].
    + eapply barred_step; [exact A2 | | done..]. intros s req p Hp'. split; [by apply (Ho j) | apply Hu].
  - unfold m_conn. rewrite Ec, En. intros j Hj. destruct (decide (j = id)) as [->|Hne]; [done |].
    rewrite lookup_insert_ne in Hj by done. by apply mi_ids0.
  - by rewrite En.
  - by rewrite En.
Qed.

(** Only the connection changes; what it claims does not grow. *)
Lemma minv_put m id c c' :
  minv m → live m id c → claim c' ≤ claim c →
  0 ≤ parked_bytes (c_in c') →
  (∀ h, m_hist m !! id = Some h → live_ok m id c h → live_ok m id c' h) →
  minv (put id c' m).
Proof.
  intros Hm [Hc Hd] Hcl Hpb Hstep. pose proof Hm as [].
  destruct (mi_conns0 id c Hc) as (h & H1 & H2 & H3). specialize (H3 Hd).
  pose proof (Hstep h H1 H3) as S2.
  apply (minv_update m (put id c' m) id c' h); try done.
  - by apply mi_ids0; exists c.
  - rewrite (load_put m id c c') by done. lia.
Qed.

(** ** The steps *)

Lemma minv_other m s' : minv m → same_core (m_srv m) s' → minv (set_srv s' m).
Proof.
  intros [] (E1 & E2 & E3 & E4). split; unfold m_conn, load, tickets in *; cbn; rewrite ?E1, ?E2, ?E3; try done.
  intros i c Hc. destruct (mi_conns0 i c Hc) as (h & H1 & H2 & H3). exists h. split_and!; [done | done |].
  intros Hd. destruct (H3 Hd) as (A1 & A2 & A3). unfold live_ok, tickets in *. cbn. by rewrite E3, E4.
Qed.

(** A connection keeps its history. *)
Lemma minv_keep m id c c' :
  minv m → live m id c → claim c' ≤ claim c → 0 ≤ parked_bytes (c_in c') →
  (∀ b ts h, m_hist m !! id = Some h → conn_ok b ts c h → conn_ok b ts c' h) →
  (awaiting_sync (c_out c) = true →
     awaiting_sync (c_out c') = true ∧ st_sent (stream c') = st_sent (stream c)) → minv (put id c' m).
Proof.
  intros Hm Hl Hcl Hp Hok Ha. eapply minv_put; [done.. |]. intros h Hh (A1 & A2 & A3).
  split_and!; [by apply Hok | | done]. by eapply barred_step.
Qed.

Lemma minv_sent m id c : minv m → m_conn m id = Some c → 0 ≤ parked_bytes (c_in c).
Proof. intros [] Hc. destruct (mi_conns0 id c Hc) as (h & _ & ? & _). done. Qed.

Lemma minv_flush m id c c' : minv m → live m id c → flush_unless_held c = (true, c') → minv (put id c' m).
Proof.
  intros Hm Hl Hf. destruct (flush_unless_held_spec _ _ _ Hf) as ([E1 E2 E3 E4 E5 E6 E7 E8 E9] & x & Hx & _ & _ & Hw & _).
  eapply minv_keep; try done.
  - unfold claim. rewrite E1. lia.
  - rewrite E1. by eapply minv_sent; [| apply Hl].
  - intros. by eapply conn_ok_flush.
  - intros Haw. by rewrite E9, Hx, (Hw Haw), app_nil_r.
Qed.

Lemma minv_auth m id c a : minv m → live m id c →
  (sasl_raw a = true → sasl_raw (c_auth c) = true ∨ ∃ h, m_hist m !! id = Some h ∧ raw_started h) →
  minv (put id (set_auth a c) m).
Proof.
  intros Hm Hl Ha. eapply minv_keep; try done; [exact (minv_sent m id c Hm (proj1 Hl)) |].
  intros b ts h Hh Hok. eapply conn_ok_same; [exact Hok | done.. |]. intros Hr.
  destruct (Ha Hr) as [?|(h' & Hh' & Hs)]; [by left | right; congruence].
Qed.

Lemma minv_closed m id c : minv m → live m id c → minv (put id (set_peer_closed c) m).
Proof.
  intros Hm Hl. eapply minv_keep; try done; [exact (minv_sent m id c Hm (proj1 Hl)) |].
  intros. eapply conn_ok_same; [done.. |]. by left.
Qed.

Lemma minv_world m id c s' : minv m → live m id c → stream_moves (stream c) s' → minv (put id (set_stream s' c) m).
Proof.
  intros Hm Hl [E1 E2]. eapply minv_keep; try done; [exact (minv_sent m id c Hm (proj1 Hl)) |].
  intros b ts h _ []. split; cbn [stream set_stream]; rewrite ?E1, ?E2; done.
Qed.

Lemma minv_doom m id c c' : minv m → live m id c → claim c' ≤ claim c → 0 ≤ parked_bytes (c_in c') →
  last_writes c c' →
  minv (mk_machine (put_conn id c' (m_srv m)) (m_held m) ({[id]} ∪ m_doomed m) (m_loose m) (m_hist m) (m_log m)).
Proof.
  intros Hm [Hc Hd] Hcl Hp _. pose proof Hm as [].
  destruct (mi_conns0 id c Hc) as (h & H1 & _ & _).
  eapply (minv_update m _ id c' h); try done.
  - cbn. set_solver.
  - by apply mi_ids0; exists c.
  - cbn. set_solver.
  - change (load (put id c' m) ≤ limit). rewrite (load_put m id c c') by done. lia.
Qed.

Lemma minv_read m m' : MAX_INBOUND_TOTAL_BYTES ≤ limit → minv m → rstep m m' → minv m'.
Proof.
  intros Hmax Hm Hr. destruct Hr as [m id c cap budget c1 c' Hl Hbud Had (a & -> & Hra)]. pose proof Hm as [].
  destruct Hl as [Hc Hd]. destruct (mi_conns0 id c Hc) as (h & H1 & H2 & H3).
  destruct (H3 Hd) as (A1 & A2 & A3).
  pose proof (conn_ok_admit _ _ _ _ cap budget c1 a A1 Had Hra) as Hok'.
  destruct Had as [[ch [R1 R2 R3 R4 R5 R6 R7 R8]] Hlay Hb]. cbn in R4, R8, Hb.
  eapply (minv_update m _ id _ h); try done.
  - by apply mi_ids0; exists c.
  - cbn. by rewrite R8.
  - intros _. split_and!; [done | | done]. eapply barred_step; [exact A2 | done | | done..].
    cbn. rewrite R4. intros ?. split; [done | exact R3].
  - rewrite (load_put m id c) by done. pose proof (layout_bound _ _ _ _ Hlay) as [B1 _].
    pose proof (layout_bound _ _ _ _ (ok_layout _ _ _ _ A1)) as [B2 _].
    pose proof (len_nonneg (inbuf (c_in c))). unfold claim in *.
    change (c_in (set_auth a c1)) with (c_in c1). rewrite R8. lia.
Qed.

(** Nothing but requests being served is held, so all other tickets are parked. *)
Lemma of_conn_parked id l t : t ∈ of_conn id (HParked <$> l) → is_request t = false.
Proof. intros [_ (p & -> & _)%list_elem_of_fmap]%elem_of_conn. done. Qed.

Lemma minv_request m id c f rest req outcome seq c' :
  minv m → live m id c → m_held m = [] → retrying c = false →
  take_frame (Z.max (frame_cap (c_in c)) 1) (inbuf (c_in c)) = (Ok (Some f), rest) →
  parse f = Ok (req, outcome) → reserve (taken c f rest) = (seq, c') →
  minv (set_held [HRequest id seq req (len f)] (set_hist id (add_frame f (Some req)) (put id c' m))).
Proof.
  intros Hm [Hc Hd] Hh Hr Ht Hpa Hs. pose proof Hm as [].
  destruct (mi_conns0 id c Hc) as (h & H1 & Hpb0 & H3). destruct (H3 Hd) as (A1 & A2 & A3).
  unfold live_ok in A1. assert (m_loose m ≠ Some id) as Hnl.
  { destruct A1. destruct (ok_parked Hr) as [_ ?]. by apply bool_decide_eq_false in H. }
  rewrite bool_decide_eq_false_2 in A1 by done.
  destruct (claim_taken _ _ _ _ _ _ _ A1 Ht) as [Hcl Hf0].
  assert (claim c' = claim c - (4 + len f) ∧ parked_bytes (c_in c') = parked_bytes (c_in c) ∧
          awaiting_sync (c_out c') = awaiting_sync (c_out c) ∧ st_sent (stream c') = st_sent (stream c))
    as (Ecl & Epb & Eaw & Est).
  { unfold reserve in Hs. injection Hs as <- <-. by rewrite <- Hcl. }
  unfold tickets in A1. rewrite Hh in A1. cbn [app] in A1.
  pose proof (conn_ok_request _ _ _ _ _ _ _ _ _ _ id (len f) A1 (of_conn_parked id _) Hr Ht Hpa Hs) as Hok'.
  eapply (minv_update m _ id c' (add_frame f (Some req) h)); try done.
  - by apply mi_ids0; exists c.
  - intros j Hj. unfold tickets. cbn. rewrite of_conn_cons_ne by (cbn; done). by rewrite Hh.
  - unfold tickets. cbn. intros t [->|Hin]%elem_of_cons; [apply mi_ids0; by exists c |].
    apply mi_tickets0. unfold tickets. rewrite Hh. done.
  - intros j Hj. cbn. by rewrite lookup_alter_ne.
  - cbn. by rewrite lookup_alter_eq, H1.
  - by rewrite Epb.
  - intros _. split_and!; [| | done].
    + cbn. rewrite bool_decide_eq_false_2 by done. unfold tickets. cbn. rewrite of_conn_cons_eq by done. done.
    + eapply barred_step; [exact A2 | done | by rewrite Eaw, Est | | done].
      rewrite requests_add_frame. by apply prefix_app_r.
  - rewrite Hh in mi_parked0. exact mi_parked0.
  - by intros t ->%list_elem_of_singleton.
  - unfold tickets. cbn. intros p [?|Hin]%elem_of_cons; [done |]. apply mi_retries0. unfold tickets. by rewrite Hh.
  - unfold load. cbn. pose proof (load_put m id c c' Hc) as El. unfold load in El. cbn in El. rewrite Hh in El.
    unfold load in mi_load0. rewrite Hh in mi_load0. cbn in *. lia.
Qed.

Lemma minv_raw m id c f rest reply a c' :
  minv m → live m id c → m_held m = [] → retrying c = false → sasl_raw (c_auth c) = true →
  take_frame (Z.max (frame_cap (c_in c)) 1) (inbuf (c_in c)) = (Ok (Some f), rest) →
  push_raw reply (set_auth a (taken c f rest)) = (true, c') →
  minv (set_hist id (λ h, add_items [RawReply (be_bytes 4 (len reply) ++ reply)] (add_frame f None h)) (put id c' m)).
Proof.
  intros Hm [Hc Hd] Hh Hr Hra Ht Hs. pose proof Hm as [].
  destruct (mi_conns0 id c Hc) as (h & H1 & Hpb0 & H3). destruct (H3 Hd) as (A1 & A2 & A3).
  assert (bool_decide (m_loose m = Some id) = false) as Hnl by (destruct A1; by destruct (ok_parked Hr)).
  rewrite Hnl in A1. destruct (claim_taken _ _ _ _ _ _ _ A1 Ht) as [Hcl Hf0].
  assert (claim c' = claim c - (4 + len f) ∧ parked_bytes (c_in c') = parked_bytes (c_in c) ∧
          awaiting_sync (c_out c') = awaiting_sync (c_out c) ∧ st_sent (stream c') = st_sent (stream c))
    as (Ecl & Epb & Eaw & Est).
  { unfold push_raw in Hs. destruct (_ <? _); [done |]. injection Hs as <-. by rewrite <- Hcl. }
  pose proof (conn_ok_raw _ _ _ _ _ _ _ _ _ A1 Hra Ht Hs) as Hok'.
  eapply (minv_update m _ id c'); try done.
  - by apply mi_ids0; exists c.
  - intros j Hj. cbn. by rewrite lookup_alter_ne.
  - cbn. by rewrite lookup_alter_eq, H1.
  - by rewrite Epb.
  - intros _. split_and!; [cbn; by rewrite Hnl | | done].
    eapply barred_step; [exact A2 | done | by rewrite Eaw, Est | |].
    + change (requests h `prefix_of` requests (add_frame f None h)). rewrite requests_add_frame. by apply prefix_app_r.
    + cbn. by apply prefix_app_r.
  - change (load (put id c' m) ≤ limit). rewrite (load_put m id c c') by done. lia.
Qed.

Lemma produced_fields id ps barrier s : next_id (produced id ps barrier s) = next_id s ∧
  parked (produced id ps barrier s) = parked s ∧ unsynced s ⊆ unsynced (produced id ps barrier s) ∧
  (barrier = true → list_to_set ps ⊆ unsynced (produced id ps barrier s)).
Proof.
  unfold produced. destruct barrier; cbn [andb]; [| done]. case_bool_decide as Hps; cbn.
  - split_and!; [done | done | set_solver | intros _; set_solver].
  - split_and!; [done | done | done |]. intros _. destruct ps; [set_solver | naive_solver].
Qed.

(** The connection it is for. *)
Definition produced_conn (ps : list (Z * Z)) (barrier : bool) (c : Conn) : Conn :=
  if barrier && bool_decide (ps ≠ []) then set_awaiting true c else c.

Lemma produced_conns id ps barrier s c : conns s !! id = Some c →
  conns (produced id ps barrier s) = <[id := produced_conn ps barrier c]> (conns s).
Proof.
  intros Hc. unfold produced, produced_conn. destruct (_ && _); cbn; [| by rewrite insert_id].
  apply map_eq. intros j. destruct (decide (j = id)) as [->|];
    [by rewrite lookup_alter_eq, lookup_insert_eq, Hc | by rewrite lookup_alter_ne, lookup_insert_ne].
Qed.

Lemma conn_ok_produced b ts c h ps barrier l :
  conn_ok b ts c h → conn_ok b ts (produced_conn ps barrier c) (add_silent l h).
Proof.
  intros []. assert (∀ s req x, answers (h_silent h) s req x → answers (h_silent (add_silent l h)) s req x) as Ha
    by (intros s req x Hx; eapply answers_mono; [exact Hx |]; cbn; set_solver).
  unfold produced_conn. destruct (_ && _); (split; try done);
    first [ intros i x Hx; destruct (ok_replies i x Hx) as (r & ? & ?); exists r; by auto
          | intros i x Hx; destruct (ok_ready i x Hx) as (? & r & ? & ?); split; [done | exists r; by auto] ].
Qed.

(** Its request has not been answered, so all that was sent came before it. *)
Lemma barred_produced m h l1 l2 c hi req ps barrier responds : m_held m = l1 ++ h :: l2 →
  h_request h = Some req → live_ok m (h_id h) c hi →
  barred (m_log m ++ [CallProduce (h_id h) (h_seq h) req ps barrier responds])
    (unsynced (produced (h_id h) ps barrier (m_srv m))) (h_id h) (produced_conn ps barrier c)
    (add_silent (if responds then ∅ else {[h_seq h]}) hi).
Proof.
  intros Hh Hq (A1 & A2 & _) s r p Hp. destruct (produced_fields (h_id h) ps barrier (m_srv m)) as (_ & _ & Hu & Hps).
  assert (st_sent (stream (produced_conn ps barrier c)) = st_sent (stream c)) as Es
    by (unfold produced_conn; by destruct (_ && _)).
  apply calls_owed_snoc in Hp as [[Hp _]|(ps' & r' & Heq & Hin)]; [| simplify_eq].
  - destruct (A2 s r p Hp) as (B1 & B2 & B3 & B4 & B5). rewrite Es. split_and!; [by apply Hu | | done..].
    unfold produced_conn. by destruct (_ && _).
  - destruct A1. destruct (ok_tickets h) as (T1 & (x & T2 & _ & T3) & _).
    { apply elem_of_conn. split; [done |]. unfold tickets. rewrite Hh. set_solver. }
    assert (x = r) as -> by (symmetry; by apply T3). rewrite Es. split_and!; [| | lia | done |].
    + apply Hps; [done |]. by apply elem_of_list_to_set.
    + unfold produced_conn. rewrite bool_decide_eq_true_2; [done |]. intros ->. by apply elem_of_nil in Hin.
    + cbn [h_items add_silent]. rewrite before_all; [exact ok_sent |]. lia.
Qed.

Lemma minv_produce m h l1 l2 c req ps barrier responds : minv m → live m (h_id h) c →
  m_held m = l1 ++ h :: l2 → h_request h = Some req →
  minv (set_log (m_log m ++ [CallProduce (h_id h) (h_seq h) req ps barrier responds])
    (set_hist (h_id h) (add_silent (if responds then ∅ else {[h_seq h]}))
      (set_srv (produced (h_id h) ps barrier (m_srv m)) m))).
Proof.
  intros Hm [Hc Hd] Hh Hq. pose proof Hm as [].
  destruct (mi_conns0 (h_id h) c Hc) as (hi & H1 & H2 & H3). specialize (H3 Hd).
  pose proof (barred_produced m h l1 l2 c hi req ps barrier responds Hh Hq H3) as Hb. destruct H3 as (A1 & A2 & A3).
  destruct (produced_fields (h_id h) ps barrier (m_srv m)) as (En & Epk & Hu & _).
  pose proof (produced_conns (h_id h) ps barrier (m_srv m) c Hc) as Ec. set (m' := set_log _ _).
  assert (tickets m' = tickets m) as Et by (unfold tickets, m'; cbn; by rewrite Epk).
  assert (h_id h ≤ next_id (m_srv m)) as Hid by (by apply mi_ids0; exists c).
  eapply (minv_update m m' (h_id h) (produced_conn ps barrier c)); rewrite ?Et; try done.
  - intros j Hj. cbn. by rewrite lookup_alter_ne.
  - intros j s r p Hj Hp. apply calls_owed_snoc in Hp as [[? _]|(? & ? & [=] & _)]; [done | congruence].
  - intros j s. apply silent_snoc.
  - intros j s r ps' b x [?|[=]%list_elem_of_singleton]%elem_of_app; [by eapply mi_log0 | congruence].
  - cbn. by rewrite lookup_alter_eq, H1.
  - unfold produced_conn. by destruct (_ && _).
  - intros _. split_and!; [| exact Hb |].
    + rewrite Et. by apply conn_ok_produced.
    + cbn. intros s [Hs|Hs]%elem_of_union; [by apply silent_snoc, A3 |].
      destruct responds; [set_solver |]. apply elem_of_singleton in Hs as ->. exists req, ps, barrier. set_solver.
  - cbn. by rewrite Epk.
  - pose proof (load_put m (h_id h) c (produced_conn ps barrier c) Hc) as El. unfold load in *. cbn in *.
    rewrite Ec. assert (claim (produced_conn ps barrier c) = claim c) by (unfold produced_conn; by destruct (_ && _)). lia.
Qed.

(** The tickets of a machine whose held requests lose [h]. *)
Lemma tickets_split m h l1 l2 : m_held m = l1 ++ h :: l2 →
  tickets m ≡ₚ h :: (l1 ++ l2) ++ (HParked <$> parked (m_srv m)).
Proof. intros E. unfold tickets. rewrite E, <- !app_assoc. cbn. symmetry. apply Permutation_middle. Qed.

Lemma loose_none_of_conn m id c : minv m → live m id c → m_loose m = None → ∃ h, m_hist m !! id = Some h ∧
  0 ≤ parked_bytes (c_in c) ∧ conn_ok false (of_conn id (tickets m)) c h ∧
  barred (m_log m) (unsynced (m_srv m)) id c h ∧ (∀ s, s ∈ h_silent h → silent (m_log m) id s).
Proof.
  intros [] [Hc Hd] Hn. destruct (mi_conns0 id c Hc) as (h & H1 & H2 & H3). destruct (H3 Hd) as (A1 & A2 & A3).
  exists h. rewrite Hn in A1. by split_and!.
Qed.

Lemma loosened_fields h m : m_srv (loosened h m) = m_srv m ∧ m_held (loosened h m) = m_held m ∧
  m_doomed (loosened h m) = m_doomed m ∧ m_hist (loosened h m) = m_hist m ∧
  m_loose (loosened h m) = (if h_retry h then Some (h_id h) else m_loose m) ∧ m_log (loosened h m) = m_log m.
Proof. unfold loosened. by destruct (h_retry h). Qed.

Lemma loosened_flag h m : m_loose m = None →
  bool_decide (m_loose (loosened h m) = Some (h_id h)) = h_retry h ∧
  (∀ j, j ≠ h_id h → m_loose (loosened h m) ≠ Some j).
Proof.
  intros Hn. destruct (loosened_fields h m) as (_ & _ & _ & _ & -> & _). rewrite Hn.
  destruct (h_retry h); split; try done; [by apply bool_decide_eq_true_2 |].
  intros j Hj [= E]. congruence.
Qed.

Lemma load_less m h l1 l2 m' : minv m → m_held m = l1 ++ h :: l2 →
  load m' + foldr Z.add 0 (h_len <$> m_held m)
    ≤ load m + foldr Z.add 0 (h_len <$> (l1 ++ l2)) → load m' ≤ limit.
Proof.
  intros [] Hh Hle. rewrite Hh, !h_lens_app in Hle. cbn in Hle.
  pose proof (mi_lens0 h ltac:(rewrite Hh; set_solver)). lia.
Qed.

Lemma claim_complete s b c : claim (complete s b c) = claim c.
Proof. done. Qed.

Lemma minv_complete m h l1 l2 c b :
  minv m → live m (h_id h) c → m_held m = l1 ++ h :: l2 → m_loose m = None →
  (∃ hi, m_hist m !! h_id h = Some hi ∧ completes h hi b) →
  minv (loosened h (set_held (l1 ++ l2)
    (set_hist (h_id h) (add_items (released c (complete (h_seq h) b c) (h_seq h) b))
      (put (h_id h) (complete (h_seq h) b c) m)))).
Proof.
  intros Hm Hl Hh Hn (hi0 & Hhi0 & Hb). destruct (loose_none_of_conn m _ c Hm Hl Hn) as (hi & H1 & Hpb & A1 & A2 & A3).
  assert (hi0 = hi) as -> by congruence.
  pose proof Hm as []. destruct Hl as [Hc Hd]. set (m1 := set_held _ _).
  destruct (loosened_fields h m1) as (F1 & F2 & F3 & F4 & F5 & F6).
  destruct (loosened_flag h m1) as [L1 L2]; [done |].
  pose proof (tickets_split _ _ _ _ Hh) as Hp.
  assert (conn_ok false (h :: of_conn (h_id h) ((l1 ++ l2) ++ (HParked <$> parked (m_srv m)))) c hi) as Hok.
  { eapply conn_ok_perm; [| apply A1]. rewrite (of_conn_perm _ _ _ Hp). by rewrite of_conn_cons_eq. }
  pose proof (conn_ok_complete _ _ _ _ _ b Hok Hb) as Hok'.
  eapply (minv_update m _ (h_id h) (complete (h_seq h) b c)
    (add_items (released c (complete (h_seq h) b c) (h_seq h) b) hi)); rewrite ?F1, ?F2, ?F3, ?F4, ?F6; try done.
  - by apply mi_ids0; exists c.
  - intros j Hj. unfold tickets. rewrite F1, F2. cbn. rewrite (of_conn_perm _ _ _ Hp), of_conn_cons_ne by done. done.
  - unfold tickets. rewrite F1, F2. cbn. intros t Ht. apply mi_tickets0. rewrite Hp. by right.
  - intros j Hj. cbn. rewrite lookup_alter_ne by done. split; [done |].
    rewrite Hn. split; [by intros ?%L2 | done].
  - unfold m1. cbn. by rewrite lookup_alter_eq, H1.
  - intros _. unfold live_ok. rewrite F1, F6. split_and!; [| | done].
    + unfold tickets. rewrite L1, F1, F2. done.
    + eapply barred_step; [exact A2 | done | | done | cbn; by apply prefix_app_r].
      destruct (complete_spec (h_seq h) b c) as (bs' & _ & _ & _ & -> & _). done.
  - cbn. rewrite Hh, parked_held_app, parked_held_cons in mi_parked0. rewrite parked_held_app.
    destruct (is_request h); lia.
  - intros t Ht. apply mi_lens0. rewrite Hh. cbn in Ht. set_solver.
  - unfold tickets. rewrite F1, F2. cbn. intros p Hin. apply mi_retries0. rewrite Hp. by right.
  - apply (load_less m h l1 l2); [done.. |]. unfold load. rewrite F1, F2. cbn.
    pose proof (load_put m (h_id h) c (complete (h_seq h) b c) Hc) as E. unfold load in E. cbn in E.
    rewrite claim_complete in E. lia.
Qed.

Lemma put_same m i c : m_conn m i = Some c → <[i := c]> (conns (m_srv m)) = conns (m_srv m).
Proof. intros H. by apply insert_id. Qed.

Lemma tickets_push m p : HParked <$> parked (push_parked p m) = (HParked <$> parked m) ++ [HParked p].
Proof. cbn. by rewrite fmap_app. Qed.

Lemma minv_park m h l1 l2 c p :
  minv m → live m (h_id h) c → m_held m = l1 ++ h :: l2 → m_loose m = None →
  pk_conn_id p = h_id h → pk_seq p = h_seq h → pk_correlation_id p = h_correlation h →
  is_retry (pk_waiting p) = false → Z.of_nat (length (parked (m_srv m))) < MAX_PARKED →
  (is_request h = true → m_held m = [h]) →
  minv (loosened h (set_held (l1 ++ l2) (set_srv (push_parked p (m_srv m)) m))).
Proof.
  intros Hm Hl Hh Hn E1 E2 E3 E4 Hroom Hone. destruct (loose_none_of_conn m _ c Hm Hl Hn) as (hi & H1 & Hpb & A1 & A2 & A3).
  pose proof Hm as []. destruct Hl as [Hc Hd]. set (m1 := set_held _ _).
  destruct (loosened_fields h m1) as (F1 & F2 & F3 & F4 & F5 & F6). destruct (loosened_flag h m1) as [L1 L2]; [done |].
  pose proof (tickets_split _ _ _ _ Hh) as Hp.
  assert (tickets (loosened h m1) ≡ₚ HParked p :: (l1 ++ l2) ++ (HParked <$> parked (m_srv m))) as Hp'.
  { unfold tickets. rewrite F1, F2. unfold m1. cbn [set_held set_srv m_held m_srv].
    rewrite tickets_push, app_assoc. symmetry. apply Permutation_cons_append. }
  assert (conn_ok (false || h_retry h) (HParked p :: of_conn (h_id h) ((l1 ++ l2) ++ (HParked <$> parked (m_srv m)))) c hi) as Hok.
  { eapply conn_ok_park; [| done | done | cbn; by destruct (pk_waiting p) | done..]. eapply conn_ok_perm; [| apply A1].
    rewrite (of_conn_perm _ _ _ Hp). by rewrite of_conn_cons_eq. }
  eapply (minv_update m _ (h_id h) c hi); rewrite ?F1, ?F2, ?F3, ?F4, ?F6; try done.
  - unfold m1. cbn. symmetry. by apply insert_id.
  - by apply mi_ids0; exists c.
  - intros j Hj. rewrite (of_conn_perm _ _ _ Hp'), (of_conn_perm _ _ _ Hp).
    rewrite !of_conn_cons_ne by (cbn; congruence). done.
  - intros t. rewrite Hp'. intros [->|Ht]%elem_of_cons; cbn.
    + rewrite E1. apply mi_ids0. by exists c.
    + apply mi_tickets0. rewrite Hp. by right.
  - intros j Hj. split; [done |]. rewrite Hn. split; [by intros ?%L2 | done].
  - intros _. unfold live_ok. rewrite F1, F6. split_and!; [| done | done]. rewrite L1. eapply conn_ok_perm; [| apply Hok].
    rewrite (of_conn_perm _ _ _ Hp'). by rewrite of_conn_cons_eq.
  - unfold m1. cbn. rewrite length_app. rewrite Hh, parked_held_app, parked_held_cons in mi_parked0.
    rewrite parked_held_app. destruct (is_request h) eqn:Eq; cbn in *; [| lia].
    specialize (Hone eq_refl). rewrite Hh in Hone. destruct l1 as [|x [|]]; cbn in Hone; try discriminate Hone.
    injection Hone as ->. change (parked_held []) with 0%nat. cbn. lia.
  - intros t Ht. apply mi_lens0. rewrite Hh. cbn in Ht. set_solver.
  - intros q. rewrite Hp'. intros [[= ->]|Hin]%elem_of_cons; [intros req Hw; by rewrite Hw in E4 |].
    apply mi_retries0. rewrite Hp. by right.
  - apply (load_less m h l1 l2); [done.. |]. unfold load. rewrite F1, F2. cbn. lia.
Qed.

Lemma minv_park_retry m id seq k n c p :
  minv m → live m id c → m_held m = [HRequest id seq k n] →
  pk_conn_id p = id → pk_seq p = seq → pk_correlation_id p = req_correlation_id k →
  pk_waiting p = WRetry k → Z.of_nat (length (parked (m_srv m))) < MAX_PARKED →
  minv (set_held [] (set_srv (push_parked p (put_conn id (set_parked_retry n c) (m_srv m))) m)).
Proof.
  intros Hm [Hc Hd] Hh E1 E2 E3 E4 Hroom. pose proof Hm as [].
  assert (retry_ok p) as E5 by (intros r Hr; rewrite E4 in Hr; injection Hr as <-; done).
  destruct (mi_conns0 id c Hc) as (h & H1 & Hpb0 & H3). destruct (H3 Hd) as (A1 & A2 & A3).
  unfold tickets in A1. rewrite Hh in A1. cbn [app] in A1. rewrite of_conn_cons_eq in A1 by done.
  assert (retrying c = false) as Hr by (destruct A1; destruct (ok_request (HRequest id seq k n)) as [_ ?]; [by left | done | done]).
  assert (bool_decide (m_loose m = Some id) = false) as Hnl by (destruct A1; by destruct (ok_parked Hr)).
  assert (0 ≤ n) as Hn0 by (apply (mi_lens0 (HRequest id seq k n)); rewrite Hh; by left).
  assert (parked_bytes (c_in c) = 0) as Hpb by (destruct A1; by destruct (ok_parked Hr)).
  rewrite Hnl in A1. pose proof (conn_ok_park_retry _ _ _ _ p _ _ _ A1 E2 E3 E4) as Hok.
  set (m' := set_held _ _).
  assert (tickets m' ≡ₚ HParked p :: (HParked <$> parked (m_srv m))) as Hp'.
  { unfold tickets, m'. cbn [set_held set_srv m_held m_srv]. rewrite tickets_push. symmetry. apply Permutation_cons_append. }
  eapply (minv_update m m' id (set_parked_retry n c) h); try done.
  - by apply mi_ids0; exists c.
  - intros j Hj. rewrite (of_conn_perm _ _ _ Hp'). unfold tickets. rewrite Hh. cbn [app].
    rewrite !of_conn_cons_ne by (cbn; congruence). done.
  - intros t. rewrite Hp'. intros [->|Ht]%elem_of_cons; cbn.
    + rewrite E1. apply mi_ids0. by exists c.
    + apply mi_tickets0. unfold tickets. rewrite Hh. by right.
  - intros _. split_and!; [| done | done]. change (m_loose m') with (m_loose m). rewrite Hnl.
    eapply conn_ok_perm; [| apply Hok]. rewrite (of_conn_perm _ _ _ Hp'). by rewrite of_conn_cons_eq.
  - rewrite Hh in mi_parked0. unfold m'. cbn. rewrite length_app. change (parked_held []) with 0%nat. cbn. lia.
  - intros t Ht. by apply not_elem_of_nil in Ht.
  - intros q. rewrite Hp'. intros [[= ->]|Hin]%elem_of_cons; [done |].
    apply mi_retries0. unfold tickets. rewrite Hh. by right.
  - pose proof (load_put m id c (set_parked_retry n c) Hc) as El.
    assert (claim (set_parked_retry n c) = claim c + n) as Ecl by (unfold claim; rewrite Hpb; cbn; lia).
    assert (load m' = load (put id (set_parked_retry n c) m) - n) as Em; [| lia].
    unfold load. change (m_held (put id (set_parked_retry n c) m)) with (m_held m). rewrite Hh.
    change (conns (m_srv m')) with (conns (m_srv (put id (set_parked_retry n c) m))).
    change (foldr Z.add 0 (h_len <$> m_held m')) with 0.
    change (foldr Z.add 0 (h_len <$> [HRequest id seq k n])) with (n + 0). lia.
Qed.

Lemma minv_release m id c : minv m → live m id c → m_loose m = Some id →
  minv (set_loose None (put id (set_parked_bytes 0 (set_retrying false c)) m)).
Proof.
  intros Hm [Hc Hd] Hl. pose proof Hm as [].
  destruct (mi_conns0 id c Hc) as (h & H1 & Hpb0 & H3). destruct (H3 Hd) as (A1 & A2 & A3).
  rewrite bool_decide_eq_true_2 in A1 by done. pose proof (conn_ok_release _ _ _ A1) as Hok.
  eapply (minv_update m _ id (set_parked_bytes 0 (set_retrying false c)) h); try done.
  - by apply mi_ids0; exists c.
  - intros j Hj. split; [done |]. cbn. rewrite Hl. split; [done | intros [= E]; congruence].
  - change (load (put id (set_parked_bytes 0 (set_retrying false c)) m) ≤ limit).
    rewrite (load_put m id c) by done. unfold claim. cbn. lia.
Qed.

(** Moving a ticket between the loop's hands and the list of parked requests. *)
Lemma minv_move m m' : minv m →
  conns (m_srv m') = conns (m_srv m) → next_id (m_srv m') = next_id (m_srv m) →
  unsynced (m_srv m') = unsynced (m_srv m) → m_doomed m' = m_doomed m → m_loose m' = m_loose m →
  m_hist m' = m_hist m → m_log m' = m_log m → tickets m' ≡ₚ tickets m →
  (length (parked (m_srv m')) + parked_held (m_held m') = length (parked (m_srv m)) + parked_held (m_held m))%nat →
  (∀ t, t ∈ m_held m' → 0 ≤ h_len t) →
  foldr Z.add 0 (h_len <$> m_held m') = foldr Z.add 0 (h_len <$> m_held m) → minv m'.
Proof.
  intros [] E1 E2 E3 E4 E5 E6 E7 Hp Hn Hl Hs.
  split; unfold m_conn, load in *; rewrite ?E1, ?E2, ?E4, ?E6, ?E7, ?Hn, ?Hs; try done.
  - intros i c Hc. destruct (mi_conns0 i c Hc) as (h & H1 & H2 & H3). exists h. split_and!; [done | done |].
    intros Hd. destruct (H3 Hd) as (A1 & A2 & A3). unfold live_ok. rewrite E3, E5, E7. split_and!; [| done | done].
    eapply conn_ok_perm; [| apply A1]. apply of_conn_perm. by symmetry.
  - intros t. rewrite Hp. apply mi_tickets0.
  - intros p. rewrite Hp. apply mi_retries0.
Qed.

Lemma minv_hold m p l1 l2 : minv m → parked (m_srv m) = l1 ++ p :: l2 →
  minv (set_held (m_held m ++ [HParked p]) (set_srv (set_parked (l1 ++ l2) (m_srv m)) m)).
Proof.
  intros Hm Hp. apply (minv_move m); try done.
  - unfold tickets. cbn. rewrite Hp, <- app_assoc, !fmap_app, fmap_cons. cbn. apply Permutation_app_head.
    by rewrite Permutation_middle.
  - cbn. rewrite Hp, parked_held_app, parked_held_cons, !length_app. change (parked_held []) with 0%nat. cbn. lia.
  - cbn. destruct Hm. intros t [?| ->%list_elem_of_singleton]%elem_of_app; [by apply mi_lens0 | done].
  - cbn. rewrite h_lens_app. cbn. lia.
Qed.

Lemma minv_return m p l1 l2 : minv m → m_held m = l1 ++ HParked p :: l2 →
  minv (set_held (l1 ++ l2) (set_srv (push_parked p (m_srv m)) m)).
Proof.
  intros Hm Hp. apply (minv_move m); try done.
  - unfold tickets. cbn [set_held set_srv m_held m_srv]. rewrite tickets_push, Hp, <- !app_assoc.
    apply Permutation_app_head. cbn. rewrite app_assoc. symmetry. apply Permutation_cons_append.
  - cbn. rewrite Hp, !parked_held_app, parked_held_cons, length_app. cbn. lia.
  - cbn. destruct Hm. intros t Ht. apply mi_lens0. rewrite Hp. set_solver.
  - cbn. rewrite Hp, !h_lens_app. cbn. lia.
Qed.

Lemma minv_forget m h l1 l2 : minv m → m_held m = l1 ++ h :: l2 →
  h_id h ∈ m_doomed m ∨ m_conn m (h_id h) = None → minv (set_held (l1 ++ l2) m).
Proof.
  intros Hm Hh Hgone. pose proof Hm as []. pose proof (tickets_split _ _ _ _ Hh) as Hp.
  assert (tickets (set_held (l1 ++ l2) m) = (l1 ++ l2) ++ (HParked <$> parked (m_srv m))) as Et by done.
  split; try done.
  - intros i c Hc. destruct (mi_conns0 i c Hc) as (h' & H1 & H2 & H3). exists h'. split_and!; [done | done |].
    intros Hd. destruct (H3 Hd) as (A1 & A2 & A3). split_and!; [| done | done]. eapply conn_ok_perm; [| apply A1].
    rewrite (of_conn_perm _ _ _ Hp), of_conn_cons_ne; [done |]. intros <-.
    destruct Hgone as [?|Hn]; [done |]. unfold m_conn in *. cbn in Hc. congruence.
  - intros t. rewrite Et. intros Ht. apply mi_tickets0. rewrite Hp. by right.
  - cbn. rewrite Hh, !parked_held_app, parked_held_cons in mi_parked0. rewrite parked_held_app. lia.
  - intros t Ht. apply mi_lens0. rewrite Hh. cbn in Ht. set_solver.
  - intros p. rewrite Et. intros Hin. apply mi_retries0. rewrite Hp. by right.
  - apply (load_less m h l1 l2); [done.. |]. unfold load. cbn. lia.
Qed.

Lemma filter_parked_other i j l : j ≠ i →
  of_conn j (HParked <$> List.filter (λ p, negb (pk_conn_id p =? i)) l) = of_conn j (HParked <$> l).
Proof.
  intros Hne. induction l as [|p l IH]; [done |]. cbn. destruct (Z.eqb_spec (pk_conn_id p) i) as [E|E]; cbn.
  - rewrite of_conn_cons_ne by (cbn; congruence). done.
  - destruct (decide (pk_conn_id p = j)) as [Ej|Ej].
    + rewrite !of_conn_cons_eq by done. by rewrite IH.
    + rewrite !of_conn_cons_ne by done. done.
Qed.

Lemma filter_length_le {A} (f : A → bool) l : (length (List.filter f l) <= length l)%nat.
Proof. induction l; cbn; [done |]. destruct (f a); cbn; lia. Qed.

Lemma tickets_drop m id t l D lo hi :
  t ∈ tickets (mk_machine (drop_conn id (m_srv m)) l D lo hi (m_log m)) → l = m_held m → t ∈ tickets m.
Proof.
  intros Ht ->. unfold tickets in *. cbn in Ht. apply elem_of_app in Ht as [?|Ht]; [set_solver |].
  apply elem_of_app. right. apply list_elem_of_fmap in Ht as (p & -> & Hp). apply list_elem_of_fmap. exists p.
  split; [done |]. apply list_elem_of_In, filter_In in Hp as [Hp _]. by apply list_elem_of_In.
Qed.

Lemma minv_drop m id : minv m → m_loose m ≠ Some id →
  minv (mk_machine (drop_conn id (m_srv m)) (m_held m) (m_doomed m ∖ {[id]}) (m_loose m) (delete id (m_hist m))
          (m_log m)).
Proof.
  intros Hm Hnl. pose proof Hm as []. split; unfold m_conn in *; cbn.
  - intros j c [Hj Hc]%lookup_delete_Some. rewrite lookup_delete_ne by done.
    destruct (mi_conns0 j c Hc) as (h & H1 & H2 & H3). exists h. split_and!; [done | done |].
    intros Hd. destruct H3 as (A1 & A2 & A3); [set_solver |]. split_and!; [| done | done].
    unfold tickets in *. cbn. rewrite of_conn_app, filter_parked_other by done. by rewrite <- of_conn_app.
  - intros j [c [_ Hc]%lookup_delete_Some]. apply mi_ids0. by exists c.
  - intros t Ht. apply mi_tickets0. exact (tickets_drop m id t (m_held m) (m_doomed m) (m_loose m) (m_hist m) Ht eq_refl).
  - pose proof (filter_length_le (λ p, negb (pk_conn_id p =? id)) (parked (m_srv m))). lia.
  - done.
  - intros p Hp. apply mi_retries0.
    exact (tickets_drop m id (HParked p) (m_held m) (m_doomed m) (m_loose m) (m_hist m) Hp eq_refl).
  - done.
  - unfold load in *. cbn. destruct (conns (m_srv m) !! id) as [c|] eqn:Ec.
    + rewrite (sum_claims_delete _ _ id c) by done. pose proof (minv_sent m id c Hm Ec).
      unfold claim, Datatypes.id in *. pose proof (len_nonneg (inbuf (c_in c))). lia.
    + rewrite delete_id by done. done.
Qed.

Lemma minv_accept m now st addr :
  minv m → at_rest m → next_id (m_srv m) + 1 < 2 ^ 31 → 0 ≤ next_id (m_srv m) →
  st_received st = [] → st_sent st = [] →
  let i := next_id (m_srv m) + 1 in
  minv (mk_machine (put_conn i (new_conn now st addr) (set_next_id i (m_srv m))) (m_held m) (m_doomed m)
          (m_loose m) (<[i := mk_hist [] [] ∅]> (m_hist m)) (m_log m)).
Proof.
  intros Hm (Hh & Hdoom & Hl) Hmax Hmin Hr Hs i. pose proof Hm as [].
  assert (conns (m_srv m) !! i = None) as Hfresh.
  { destruct (conns (m_srv m) !! i) as [c|] eqn:E; [| done].
    pose proof (mi_ids0 i (mk_is_Some _ _ E)). subst i. lia. }
  assert (of_conn i (tickets m) = []) as Et.
  { destruct (of_conn i (tickets m)) as [|t l] eqn:E; [done |].
    assert (t ∈ of_conn i (tickets m)) as Ht by (rewrite E; by left).
    apply elem_of_conn in Ht as [Hi Ht]. apply mi_tickets0 in Ht. subst i. lia. }
  pose proof (conn_ok_new now st addr Hr Hs) as Hnew. split; unfold m_conn in *; cbn.
  - intros j c [[<- <-]|[Hj Hc]]%lookup_insert_Some.
    + rewrite lookup_insert_eq. eexists. split; [done |]. split; [done |].
      intros _. split_and!; [| | cbn; set_solver].
      2:{ intros s req p (l1 & ps & r & l2 & E & _). assert (i ≤ next_id (m_srv m)); [| subst i; lia].
          apply (mi_log0 i s req ps true r). cbn in E. rewrite E. set_solver. }
      change (conn_ok (bool_decide (m_loose m = Some i)) (of_conn i (tickets m)) (new_conn now st addr) (mk_hist [] [] ∅)).
      by rewrite Hl, Et.
    + rewrite lookup_insert_ne by done. apply (mi_conns0 j c Hc).
  - intros j [c [[<- _]|[_ Hc]]%lookup_insert_Some]; [done |]. subst i. pose proof (mi_ids0 j (mk_is_Some _ _ Hc)). lia.
  - intros t Ht. specialize (mi_tickets0 t Ht). subst i. lia.
  - done.
  - done.
  - done.
  - intros j s req ps b r Hin. pose proof (mi_log0 j s req ps b r Hin). subst i. lia.
  - unfold load in *. cbn. rewrite sum_claims_insert_new by done. done.
Qed.

Lemma minv_sync m p : minv m →
  minv (mk_machine (set_unsynced (unsynced (m_srv m) ∖ {[p]}) (sync_failed_passes (m_srv m)) (m_srv m))
          (m_held m) (m_doomed m) (m_loose m) (m_hist m) (m_log m ++ [CallSynced p])).
Proof.
  intros []. split; unfold m_conn in *; cbn; try done.
  - intros j c Hc. destruct (mi_conns0 j c Hc) as (h & H1 & H2 & H3). exists h. split_and!; [done | done |].
    intros Hd. destruct (H3 Hd) as (A1 & A2 & A3). split_and!; [done | | intros s Hs; by apply silent_snoc, A3].
    eapply barred_step; [exact A2 | | done..]. cbn.
    intros s req q Hq. apply calls_owed_snoc in Hq as [[? Hne]|(? & ? & [=] & _)]. split; [done |].
    assert (q ≠ p) by congruence. set_solver.
  - intros j s req ps b r [Hin|[=]%list_elem_of_singleton]%elem_of_app. by eapply mi_log0.
Qed.

Lemma minv_release_acks m : minv m → unsynced (m_srv m) = ∅ → minv (set_srv (release_acks (m_srv m)) m).
Proof.
  intros [] Hu. split; unfold m_conn in *; cbn; try done.
  - intros j c Hc. rewrite lookup_fmap_Some in Hc. destruct Hc as (c0 & <- & Hc).
    destruct (mi_conns0 j c0 Hc) as (h & H1 & H2 & H3). exists h. split; [done |]. split; [done |].
    intros Hd. destruct (H3 Hd) as ([] & A2 & A3). split_and!; [by split | | done].
    intros s req p Hp. destruct (A2 s req p Hp) as [Hin _]. set_solver.
  - intros j [c Hc]. rewrite lookup_fmap_Some in Hc. destruct Hc as (c0 & _ & Hc). apply mi_ids0. by exists c0.
  - unfold load in *. cbn. by rewrite sum_claims_alter.
Qed.

Lemma minv_mstep m m' : minv m → mstep m m' → minv m'.
Proof.
  intros Hm Hs. destruct Hs.
  - by apply minv_other.
  - by eapply minv_flush.
  - by eapply minv_doom.
  - by eapply minv_request.
  - by eapply minv_raw.
  - by eapply minv_auth.
  - by eapply minv_produce.
  - by eapply minv_complete.
  - by eapply minv_park.
  - by eapply minv_park_retry.
  - by eapply minv_release.
  - by eapply minv_hold.
  - by eapply minv_return.
  - by eapply minv_forget.
  - by eapply minv_drop.
  - by eapply minv_closed.
  - by eapply minv_accept.
  - by eapply minv_sync.
  - by eapply minv_release_acks.
Qed.

Lemma minv_estep m m' : minv m → estep m m' → minv m'.
Proof. intros Hm Hs. destruct Hs. by eapply minv_world. Qed.

End Limit.

(** ** Reachable machines *)

Definition invariant (m : Machine) : Prop := minv MAX_INBOUND_TOTAL_BYTES m.

Lemma invariant_step m m' : invariant m → machine_step m m' → invariant m'.
Proof.
  intros Hm [Hs|[Hs|Hs]]; [by eapply minv_mstep | by eapply minv_read | by eapply minv_estep].
Qed.

Lemma invariant_steps m m' : invariant m → rtc machine_step m m' → invariant m'.
Proof. intros Hm Hs. revert Hm. induction Hs; eauto using invariant_step. Qed.

(** Serving, parking and answering never grant bytes. *)
Lemma load_mstep m m' : invariant m → mstep m m' → load m' ≤ load m.
Proof. intros [] Hs. by destruct (minv_mstep (load m) m m'). Qed.

Lemma load_msteps m m' : invariant m → rtc mstep m m' → load m' ≤ load m.
Proof.
  intros Hm Hs. revert Hm. induction Hs as [|m1 m2 m3 H12 _ IH]; intros Hm; [lia |].
  pose proof (load_mstep _ _ Hm H12). pose proof (IH (minv_mstep _ _ _ Hm H12)). lia.
Qed.
