(* ===== verification/ServerRefine.v ===== *)
(** * The event loop runs the server machine

    [sim R m f post]: started from the server of machine [m], in any surroundings that
    agree with the machine on the calls made of them, the computation [f] of Server.v
    goes from [m] by steps [R] to a machine with the server it leaves, in surroundings
    that agree again, and [post] holds of its result.  The rules follow the combinators;
    a lemma per function of server/mod.rs says which steps it takes. *)

From stdpp Require Import gmap strings.
From S2P Require Import Prelude Errors Primitives Framing Header Acl Group Txn Produce Fetch Sasl ServerConn ServerInbound Server ServerInv ServerStep.

#[local] Open Scope Z_scope.

(** Surroundings that say which calls were made of them: [agrees e l] when [l] are the
    calls that led to [e].  Only the produce handler and the sync are told apart. *)
Class Ledger (E : Type) {H : Host E} := {
  agrees : E → list Call → Prop;
  agrees_produce : ∀ id s req a who e l, agrees e l →
    agrees (run_produce id s req a who e).2
      (match (run_produce id s req a who e).1 with
       | Ok o => l ++ [CallProduce id s req (po_appended o) (fsync_before_ack (run_produce id s req a who e).2)
                         (bool_decide (is_Some (po_response o)))]
       | Err _ => l
       end);
  agrees_sync : ∀ p e l, agrees e l →
    agrees (sync_partition p e).2 (if (sync_partition p e).1 then l ++ [CallSynced p] else l);
  agrees_fetch : ∀ ask a who w e l, agrees e l → agrees (run_fetch ask a who w e).2 l;
  agrees_join : ∀ q v c from a who e l, agrees e l → agrees (run_join q v c from a who e).2 l;
  agrees_sync_group : ∀ q a who e l, agrees e l → agrees (run_sync q a who e).2 l;
  agrees_leave : ∀ q a who e l, agrees e l → agrees (run_leave q a who e).2 l;
  agrees_handler : ∀ q a who e l, agrees e l → agrees (run_handler q a who e).2 l;
  agrees_parked_join : ∀ b g m e l, agrees e l → agrees (run_parked_join b g m e).2 l;
  agrees_parked_sync : ∀ g m e l, agrees e l → agrees (run_parked_sync g m e).2 l;
  agrees_sasl : ∀ e l, agrees e l → agrees (sasl_tx e).2 l;
  agrees_charge : ∀ r who c n e l, agrees e l → agrees (charge_quota r who c n e).2 l;
  agrees_acls : ∀ e l, agrees e l → agrees (load_acls e).2 l;
  agrees_groups : ∀ ms e l, agrees e l → agrees (sweep_groups ms e).2 l;
  agrees_producers : ∀ e l, agrees e l → agrees (sweep_producers e).2 l;
  agrees_members : ∀ ms e l, agrees e l → agrees (sweep_consumer_members ms e) l;
  agrees_share : ∀ ms e l, agrees e l → agrees (sweep_share_state ms e) l;
  agrees_quotas : ∀ e l, agrees e l → agrees (sweep_quotas e) l;
  agrees_retention : ∀ n e l, agrees e l → agrees (sweep_retention n e).2 l;
  agrees_epochs : ∀ e l, agrees e l → agrees (raise_leader_epochs e).2 l;
  agrees_markers : ∀ e l, agrees e l → agrees (reconcile_markers e).2 l }.

(** A call that is not told apart. *)
Class Quiet {E A : Type} `{Ledger E} (f : E → A * E) : Prop := quiet : ∀ e l, agrees e l → agrees (f e).2 l.
Class Quiet_ {E : Type} `{Ledger E} (f : E → E) : Prop := quiet_ : ∀ e l, agrees e l → agrees (f e) l.

Section Quiet.
Context {E : Type} `{Ledger E}.
#[global] Instance quiet_fetch ask a who w : Quiet (run_fetch ask a who w) := agrees_fetch ask a who w.
#[global] Instance quiet_join q v c from a who : Quiet (run_join q v c from a who) := agrees_join q v c from a who.
#[global] Instance quiet_sync q a who : Quiet (run_sync q a who) := agrees_sync_group q a who.
#[global] Instance quiet_leave q a who : Quiet (run_leave q a who) := agrees_leave q a who.
#[global] Instance quiet_handler q a who : Quiet (run_handler q a who) := agrees_handler q a who.
#[global] Instance quiet_parked_join b g m : Quiet (run_parked_join b g m) := agrees_parked_join b g m.
#[global] Instance quiet_parked_sync g m : Quiet (run_parked_sync g m) := agrees_parked_sync g m.
#[global] Instance quiet_sasl : Quiet sasl_tx := agrees_sasl.
#[global] Instance quiet_charge r who c n : Quiet (charge_quota r who c n) := agrees_charge r who c n.
#[global] Instance quiet_acls : Quiet load_acls := agrees_acls.
#[global] Instance quiet_groups ms : Quiet (sweep_groups ms) := agrees_groups ms.
#[global] Instance quiet_producers : Quiet sweep_producers := agrees_producers.
#[global] Instance quiet_members ms : Quiet_ (sweep_consumer_members ms) := agrees_members ms.
#[global] Instance quiet_share ms : Quiet_ (sweep_share_state ms) := agrees_share ms.
#[global] Instance quiet_quotas : Quiet_ sweep_quotas := agrees_quotas.
#[global] Instance quiet_retention n : Quiet (sweep_retention n) := agrees_retention n.
#[global] Instance quiet_epochs : Quiet raise_leader_epochs := agrees_epochs.
#[global] Instance quiet_markers : Quiet reconcile_markers := agrees_markers.
End Quiet.
#[export] Hint Extern 0 (Quiet _) => apply _ : core.
#[export] Hint Extern 0 (Quiet_ _) => apply _ : core.

Section Sim.
Context {E : Type} `{Ledger E}.

Definition sim {A} (R : Machine → Machine → Prop) (m : Machine) (f : M E A) (post : A → Machine → Prop) : Prop :=
  ∀ e, agrees e (m_log m) → ∃ m', rtc R m m' ∧ m_srv m' = (f (m_srv m, e)).2.1 ∧
    agrees (f (m_srv m, e)).2.2 (m_log m') ∧ post (f (m_srv m, e)).1 m'.

Lemma sim_stay {A} R m (f : M E A) (post : A → Machine → Prop) :
  (∀ e, agrees e (m_log m) → (f (m_srv m, e)).2.1 = m_srv m ∧ agrees (f (m_srv m, e)).2.2 (m_log m) ∧
     post (f (m_srv m, e)).1 m) → sim R m f post.
Proof. intros Hf e He. exists m. destruct (Hf e He) as (-> & Ha & Hp). by split_and!; [constructor | ..]. Qed.

Lemma sim_ret {A} R m (a : A) (post : A → Machine → Prop) : post a m → sim R m (mret a) post.
Proof. intros Hp. by apply sim_stay. Qed.

Lemma sim_bind {A B} R m (f : M E A) (k : A → M E B) (mid : A → Machine → Prop) post :
  sim R m f mid → (∀ a m', rtc R m m' → mid a m' → sim R m' (k a) post) → sim R m (mbind' f k) post.
Proof.
  intros Hf Hk e He. destruct (Hf e He) as (m1 & S1 & E1 & A1 & P1). unfold mbind'.
  destruct (f (m_srv m, e)) as [a [s1 e1]]. cbn in *. subst s1.
  destruct (Hk a m1 S1 P1 e1 A1) as (m2 & S2 & E2 & P2). exists m2. split; [by etransitivity | done].
Qed.

Lemma sim_gets {A} R m (f : Server → A) (post : A → Machine → Prop) : post (f (m_srv m)) m → sim R m (gets f) post.
Proof. intros Hp. by apply sim_stay. Qed.

Lemma sim_asks {A} R m (f : E → A) (post : A → Machine → Prop) : (∀ a, post a m) → sim R m (asks f) post.
Proof. intros Hp. apply sim_stay. intros e He. split_and!; [done | done | apply Hp]. Qed.

Lemma sim_outside {A} R m (f : E → A * E) `{!Quiet f} (post : A → Machine → Prop) :
  (∀ a, post a m) → sim R m (outside f) post.
Proof.
  intros Hp. apply sim_stay. intros e He. apply (quiet (f := f)) in He. unfold outside. cbn. destruct (f e).
  split_and!; [done | done | apply Hp].
Qed.

Lemma sim_outside_ R m (f : E → E) `{!Quiet_ f} (post : unit → Machine → Prop) : post tt m → sim R m (outside_ f) post.
Proof. intros Hp. apply sim_stay. intros e He. apply (quiet_ (f := f)) in He. done. Qed.

Lemma sim_modify R m (f : Server → Server) m' (post : unit → Machine → Prop) :
  rtc R m m' → m_srv m' = f (m_srv m) → m_log m' = m_log m → post tt m' → sim R m (modify f) post.
Proof. intros Hs Hf Hl Hp e He. exists m'. by rewrite Hl. Qed.

Lemma sim_with_conn {A} R m id (absent : A) (f : Conn → A * Conn) (post : A → Machine → Prop) :
  (m_conn m id = None → post absent m) →
  (∀ c, m_conn m id = Some c → ∃ m', rtc R m m' ∧ m_srv m' = put_conn id (f c).2 (m_srv m) ∧
     m_log m' = m_log m ∧ post (f c).1 m') →
  sim R m (with_conn id absent f) post.
Proof.
  intros Hn Hs e He. unfold with_conn, m_conn in *. cbn. destruct (conns (m_srv m) !! id) as [c|] eqn:Ec.
  - destruct (Hs c eq_refl) as (m' & S & Em & El & Hp). exists m'. rewrite El. by destruct (f c).
  - exists m. split_and!; [constructor | done | done | by apply Hn].
Qed.

Lemma sim_mono {A} (R R' : Machine → Machine → Prop) m (f : M E A) (post post' : A → Machine → Prop) :
  (∀ x y, R x y → R' x y) → sim R m f post → (∀ a m', rtc R m m' → post a m' → post' a m') → sim R' m f post'.
Proof.
  intros HR Hs Hp e He. destruct (Hs e He) as (m' & S & Em & A' & P). exists m'. split_and!; [| done | done | by apply Hp].
  clear -HR S. induction S; [constructor |]. eapply rtc_l; eauto.
Qed.

Lemma sim_post {A} R m (f : M E A) (post post' : A → Machine → Prop) :
  sim R m f post → (∀ a m', rtc R m m' → post a m' → post' a m') → sim R m f post'.
Proof. intros Hs Hp. by eapply sim_mono. Qed.

(** Fallible computations: a failure keeps what [post] says of errors. *)
Lemma sim_try {A B} R m (f : ST (Server * E) HandlerError A) (k : A → ST (Server * E) HandlerError B)
    (mid : A → Machine → Prop) (post : result HandlerError B → Machine → Prop) :
  sim R m f (λ r m', match r with Ok a => mid a m' | Err e => post (Err e) m' end) →
  (∀ a m', rtc R m m' → mid a m' → sim R m' (k a) post) → sim R m (bind f k) post.
Proof.
  intros Hf Hk e He. destruct (Hf e He) as (m1 & S1 & E1 & A1 & P1). unfold bind.
  destruct (f (m_srv m, e)) as [[a|x] [s1 e1]]; cbn in *; subst s1.
  - destruct (Hk a m1 S1 P1 e1 A1) as (m2 & S2 & E2 & P2). exists m2. split; [by etransitivity | done].
  - by exists m1.
Qed.

Lemma sim_lift {A} R m (f : M E A) (post : result HandlerError A → Machine → Prop) :
  sim R m f (λ a, post (Ok a)) → sim R m (lift f) post.
Proof. intros Hf e He. destruct (Hf e He) as (m' & S & Em & P). exists m'. unfold lift. by destruct (f _) as [a w]. Qed.

Lemma sim_lift_bind {A B} R m (f : M E A) (k : A → ST (Server * E) HandlerError B) post (mid : A → Machine → Prop) :
  sim R m f mid → (∀ a m', rtc R m m' → mid a m' → sim R m' (k a) post) → sim R m (bind (lift f) k) post.
Proof. intros Hf Hk. eapply sim_try; [apply sim_lift; exact Hf | done]. Qed.

Lemma sim_pure {A} R m (r : result HandlerError A) (post : result HandlerError A → Machine → Prop) :
  post r m → sim R m (of_result r) post.
Proof. intros Hp. by apply sim_stay. Qed.

Lemma sim_codec {A} R m (r : result CodecError A) (post : result HandlerError A → Machine → Prop) :
  (∀ a, post (Ok a) m) → (∀ e, post (Err e) m) → sim R m (of_codec r) post.
Proof. intros H1 H2. apply sim_stay. intros e He. unfold of_codec. destruct r; cbn; auto. Qed.

Lemma sim_authz {A} R m c (f : AclCache → Principal → E → result HandlerError A * E) `{!∀ a who, Quiet (f a who)} post :
  (∀ r, post r m) → sim R m (with_authz c f) post.
Proof.
  intros Hp. apply sim_stay. intros e He. unfold with_authz. cbn.
  apply (quiet (f := f (srv_acls (m_srv m)) (principal_of (cx_conn_id c) (m_srv m)))) in He.
  destruct (f _ _ _). split_and!; [done | done | apply Hp].
Qed.

End Sim.

(** ** Responses *)

Lemma write_response_answers k v corr body out :
  write_response [] k v corr body = Ok out → response_to corr out.
Proof.
  unfold write_response. destruct (response_header_version k v) as [hv|]; [| done].
  destruct (_ <? _); [done |]. intros Hw.
  assert (∃ t, writes (rs_encode (mk_ResponseHeader corr []) hv) (be_bytes 4 corr ++ t)) as [t Ht].
  { unfold rs_encode. cbn [rs_correlation_id rs_unknown_tagged_fields]. destruct (1 <=? hv).
    - exists (leb128 5 (count_u32 (A := RawTaggedField) []) ++ []). apply writes_bind; [apply writes_slice |].
      unfold put_tagged. cbn [put_tagged_loop]. apply writes_bind; [apply put_uvarint_loop_writes | apply writes_ret].
    - exists []. apply writes_bind; [apply writes_slice | apply writes_ret]. }
  unfold encode_body in Hw. destruct (body_bytes body) as [bs|e] eqn:Eb.
  - assert (writes (rs_encode (mk_ResponseHeader corr []) hv ;;; (λ out, (Ok tt, out ++ bs)))
              ((be_bytes 4 corr ++ t) ++ bs)) as Hwr by (apply writes_bind; [done | by intros ?]).
    exists (t ++ bs). rewrite app_assoc. revert Hw. unfold write_frame. rewrite Hwr.
    cbn [length app]. destruct (i32_max <? _) eqn:Ei; [done |]. intros [= <-]. apply Z.ltb_ge in Ei.
    pose proof (write_frame_writes _ _ Hwr) as Hf. unfold write_frame, writes in Hf.
    assert (len ((be_bytes 4 corr ++ t) ++ bs) ≤ i32_max) as Hle.
    { rewrite len_app in Ei. change (len (replicate 4 x00)) with 4 in Ei. change (Z.of_nat 0) with 0 in Ei. lia. }
    specialize (Hf Hle []). rewrite Hwr in Hf. cbn [length app] in Hf.
    rewrite (proj2 (Z.ltb_ge _ _)) in Hf by done. apply (f_equal snd) in Hf. exact Hf.
  - exfalso. revert Hw. unfold write_frame. rewrite (bind_ok _ _ _ tt _ (Ht _)). done.
Qed.

(** ** Dispatch *)

Section Loop.
Context {E : Type} `{Ledger E}.

(** [h] is being served: it is in the loop's hands, its connection is there, and it
    is alone there if it is a new request. *)
Record serving (h : Held) (l1 l2 : list Held) (D : gset Z) (m : Machine) : Prop := mk_serving {
  sv_held : m_held m = l1 ++ h :: l2;
  sv_loose : m_loose m = None;
  sv_doomed : m_doomed m = D;
  sv_alone : is_request h = true → m_held m = [h];
  sv_live : ∃ c, live m (h_id h) c;
  sv_hist : ∃ hi, m_hist m !! h_id h = Some hi ∧ ∀ req, h_request h = Some req → req ∈ requests hi }.

(** Its handler returned no response. *)
Definition unanswered (h : Held) (m : Machine) : Prop :=
  ∃ hi, m_hist m !! h_id h = Some hi ∧ h_seq h ∈ h_silent hi.

(** What is left to do about [h] once it was dispatched. *)
Definition dispatched (h : Held) (l1 l2 : list Held) (D : gset Z) (r : result HandlerError Disposition)
    (m : Machine) : Prop :=
  match r with
  | Ok ParkedReply => m_held m = l1 ++ l2 ∧ m_doomed m = D ∧ (∃ c, live m (h_id h) c) ∧
      m_loose m = (if h_retry h then Some (h_id h) else None)
  | Ok (Reply out) => serving h l1 l2 D m ∧ response_to (h_correlation h) out
  | Ok NoReply => serving h l1 l2 D m ∧ unanswered h m
  | Err _ => serving h l1 l2 D m
  end.

Lemma live_same_core m s' id c : same_core (m_srv m) s' → live m id c → live (set_srv s' m) id c.
Proof. intros (E1 & _) [Hc Hd]. split; [| done]. unfold m_conn in *. cbn. by rewrite E1. Qed.

Lemma serving_other h l1 l2 D m s' : serving h l1 l2 D m → same_core (m_srv m) s' → serving h l1 l2 D (set_srv s' m).
Proof. intros [] Hs. split; try done. destruct sv_live0 as [c Hc]. exists c. by apply live_same_core. Qed.

Lemma live_put m id c c' : live m id c → live (put id c' m) id c'.
Proof. intros [_ Hd]. split; [| done]. unfold m_conn. cbn. apply lookup_insert_eq. Qed.

Lemma serving_put h l1 l2 D m c' : serving h l1 l2 D m → serving h l1 l2 D (put (h_id h) c' m).
Proof. intros []. split; try done. destruct sv_live0 as [c Hc]. exists c'. by eapply live_put. Qed.

Lemma on_conn_put m id c f : m_conn m id = Some c → on_conn id f (m_srv m) = put_conn id (f c) (m_srv m).
Proof.
  intros Hc. unfold on_conn, put_conn. f_equal. apply map_eq. intros j. unfold m_conn in Hc.
  destruct (decide (j = id)) as [->|]; [by rewrite lookup_alter_eq, Hc, lookup_insert_eq |].
  by rewrite lookup_alter_ne, lookup_insert_ne.
Qed.

(** A change the invariant does not look at. *)
Lemma sim_other (m : Machine) (f : Server → Server) (post : unit → Machine → Prop) :
  same_core (m_srv m) (f (m_srv m)) → post tt (set_srv (f (m_srv m)) m) → sim (E := E) mstep m (modify f) post.
Proof. intros Hs Hp. eapply sim_modify; [apply rtc_once, st_other, Hs | done | done | done]. Qed.

Section Serve.
Context (h : Held) (l1 l2 : list Held) (D : gset Z).
#[local] Abbreviation here := (serving h l1 l2 D).
#[local] Abbreviation done_with := (dispatched h l1 l2 D).
Context (req : Request) (Hk : req_correlation_id req = h_correlation h) (Hq : h_request h = Some req).
#[local] Abbreviation c := (mk_ctx req (h_id h) (h_seq h)).

Lemma sim_reply m body : here m → sim (E := E) mstep m (reply c body) done_with.
Proof using Hk.
  intros Hm. unfold reply.
  eapply (sim_try _ _ _ _ (λ out m', here m' ∧ response_to (req_correlation_id req) out)).
  - apply sim_pure. destruct (write_response _ _ _ _ _) as [out|e] eqn:Ew; [| done].
    exact (conj Hm (write_response_answers _ _ _ _ _ Ew)).
  - intros out m' _ [Hm' Ha]. apply (sim_ret mstep m' (Ok (Reply out)) done_with). split; [done |]. cbn in *.
    by rewrite <- Hk.
Qed.

Lemma sim_charge m rate id client n : here m → sim mstep m (charge rate id client n) (λ _ m', here m').
Proof using Type.
  intros Hm. unfold charge. destruct (n <=? 0); [by apply sim_ret |].
  eapply (sim_bind _ _ _ _ (λ _, here)); [by apply sim_gets |]. intros who m' _ Hm'. by apply sim_outside.
Qed.

Lemma sim_park m deadline w : here m → is_retry w = false → parking_full (m_srv m) = false →
  sim (E := E) mstep m (lift (park c deadline w)) done_with.
Proof using Hk.
  intros Hm Hw Hf. apply sim_lift. unfold park. set (p := mk_parked _ _ _ _ _ _ _ _).
  destruct Hm. destruct sv_live0 as [conn Hl].
  eapply (sim_bind _ _ _ _ (λ _ m', m_held m' = l1 ++ l2 ∧ m_doomed m' = D ∧ (∃ c, live m' (h_id h) c) ∧
    m_loose m' = (if h_retry h then Some (h_id h) else None))).
  - eapply sim_modify; [apply rtc_once, (st_park m h l1 l2 conn p) | | |]; try done.
    + unfold parking_full in Hf. apply Z.leb_gt in Hf. done.
    + by destruct (loosened_fields h (set_held (l1 ++ l2) (set_srv (push_parked p (m_srv m)) m))) as (-> & _).
    + by destruct (loosened_fields h (set_held (l1 ++ l2) (set_srv (push_parked p (m_srv m)) m))) as (_ & _ & _ & _ & _ & ->).
    + destruct (loosened_fields h (set_held (l1 ++ l2) (set_srv (push_parked p (m_srv m)) m)))
        as (F1 & F2 & F3 & F4 & F5 & _). rewrite F2, F3, F5. split_and!; [done | done | | by destruct (h_retry h)].
      exists conn. destruct Hl as [Hc Hd]. split; [| by rewrite F3]. unfold m_conn in *. by rewrite F1.
  - intros [] m' _ Hp. apply (sim_ret mstep m' ParkedReply (λ a, done_with (Ok a))). exact Hp.
Qed.

(** Ends of the handlers that may park. *)
Lemma sim_full_or_park m (body : Z → Body) (wait : Z → Z) w : here m → is_retry w = false →
  sim mstep m
    (let* full := lift (gets parking_full) in
     if full : bool then reply c body
     else let* now := lift (asks clock) in lift (park c (wait now) w)) done_with.
Proof using Hk.
  intros Hm Hw.
  eapply (sim_lift_bind _ _ _ _ _ (λ full m', here m' ∧ full = parking_full (m_srv m'))); [by apply sim_gets |].
  intros full m' _ [Hm' ->]. destruct (parking_full (m_srv m')) eqn:Ef; [by apply sim_reply |].
  eapply (sim_lift_bind _ _ _ _ _ (λ _ m'', here m'' ∧ parking_full (m_srv m'') = false)); [by apply sim_asks |].
  intros now m'' _ [Hm'' Hf]. by apply sim_park.
Qed.

(** The call of the handler and the marks it leaves are one step. *)
Lemma sim_produce_call m (k : ProduceOutcome → ST (Server * E) HandlerError Disposition) : here m →
  (∀ o m', here m' → (po_response o = None → unanswered h m') → sim mstep m' (k o) done_with) →
  sim mstep m
    (let* outcome := with_authz c (run_produce (cx_conn_id c) (cx_seq c) (cx_req c)) in
     lift (modify (ring (po_appended outcome))) ;;;
     let* fsync := lift (asks fsync_before_ack) in
     lift (if fsync && bool_decide (po_appended outcome ≠ []) then
             modify (λ s, on_conn (cx_conn_id c) (set_awaiting true)
                            (set_unsynced (unsynced s ∪ list_to_set (po_appended outcome)) (sync_failed_passes s) s))
           else mret tt) ;;;
     k outcome) done_with.
Proof using Hk Hq.
  intros Hm Hk' e He. match goal with |- context [?f (m_srv m, e)] => remember (f (m_srv m, e)) as w eqn:Ew end.
  unfold bind at 1, with_authz in Ew. cbn [cx_req cx_conn_id cx_seq fst snd] in Ew.
  set (a := srv_acls _) in Ew. set (who := principal_of _ _) in Ew.
  pose proof (agrees_produce (h_id h) (h_seq h) req a who e (m_log m) He) as Ha.
  destruct (run_produce (h_id h) (h_seq h) req a who e) as [[o|x] e1]; cbn [fst snd] in Ha.
  2:{ subst w. exists m. split; [constructor |]. by split_and!. }
  pose proof Hm as []. destruct sv_live0 as [conn Hl]. destruct sv_hist0 as (hi & Hhi & Hreq).
  set (m1 := set_srv (ring (po_appended o) (m_srv m)) m). set (r := bool_decide (is_Some (po_response o))) in *.
  set (m2 := set_log (m_log m1 ++ [CallProduce (h_id h) (h_seq h) req (po_appended o) (fsync_before_ack e1) r])
    (set_hist (h_id h) (add_silent (if r then ∅ else {[h_seq h]}))
      (set_srv (produced (h_id h) (po_appended o) (fsync_before_ack e1) (m_srv m1)) m1))).
  assert (mstep m m1) as S1 by by apply st_other.
  assert (mstep m1 m2) as S2 by by eapply (st_produce m1 h l1 l2 conn).
  assert (m_hist m2 !! h_id h = Some (add_silent (if r then ∅ else {[h_seq h]}) hi)) as Hhi2
    by (unfold m2, m1; cbn; by rewrite lookup_alter_eq, Hhi).
  assert (here m2) as H2.
  { split; try done; [| by eexists]. exists (produced_conn (po_appended o) (fsync_before_ack e1) conn).
    destruct Hl as [Hc Hd]. split; [| done]. unfold m_conn, m2. cbn. rewrite (produced_conns _ _ _ _ conn) by done.
    apply lookup_insert_eq. }
  assert (w = k o (m_srv m2, e1)) as ->.
  { subst w. unfold bind, lift, modify, asks, mret, m2, m1, produced. cbn. by destruct (_ && _). }
  destruct (Hk' o m2 H2) with (e := e1) as (m3 & S3 & P3); [| exact Ha |].
  { intros Hn. eexists. split; [exact Hhi2 |]. unfold r. rewrite Hn. cbn. set_solver. }
  exists m3. split; [eapply rtc_l; [exact S1 |]; by eapply rtc_l | done].
Qed.

Lemma sim_serve_produce m : here m → sim mstep m (serve_produce c) done_with.
Proof using Hk Hq.
  intros Hm. unfold serve_produce. apply sim_produce_call; [done |]. intros outcome m4 H4 Hun.
  eapply (sim_lift_bind _ _ _ _ _ (λ _ m', here m' ∧ (po_response outcome = None → unanswered h m'))).
  { unfold charge. destruct (_ <=? 0); [by apply sim_ret |].
    eapply (sim_bind _ _ _ _ (λ _ m', m' = m4)); [by apply sim_gets |]. intros who m' _ ->. by apply sim_outside. }
  intros th m5 _ [H5 Hu5].
  destruct (po_response outcome); [by apply sim_reply | ].
  apply (sim_ret mstep m5 (Ok NoReply) done_with). split; [done | by apply Hu5].
Qed.

Lemma sim_serve_fetch m : here m → sim mstep m (serve_fetch c) done_with.
Proof using Hk.
  intros Hm. unfold serve_fetch.
  eapply (sim_try _ _ _ _ (λ _, here)); [by apply sim_codec |]. intros request m1 _ H1.
  eapply (sim_try _ _ _ _ (λ _, here)); [apply sim_authz; [done | by intros []] |]. intros [body watching] m2 _ H2. cbv zeta.
  eapply (sim_lift_bind _ _ _ _ _ (λ full m', here m' ∧ full = parking_full (m_srv m'))); [by apply sim_gets |].
  intros full m3 _ [H3 ->]. destruct (_ || _ || _ || _) eqn:Es.
  - eapply (sim_lift_bind _ _ _ _ _ (λ _, here)); [by apply sim_charge |]. intros th m4 _ H4. by apply sim_reply.
  - apply orb_false_elim in Es as [_ Ef].
    eapply (sim_lift_bind _ _ _ _ _ (λ _ m'', here m'' ∧ parking_full (m_srv m'') = false)); [by apply sim_asks |].
    intros now m4 _ [H4 Hf]. by apply sim_park.
Qed.

Lemma sim_serve_join m : here m → sim mstep m (serve_join_group c) done_with.
Proof using Hk.
  intros Hm. unfold serve_join_group.
  eapply (sim_try _ _ _ _ (λ _, here)); [by apply sim_codec |]. intros request m1 _ H1.
  eapply (sim_lift_bind _ _ _ _ _ (λ _, here)); [by apply sim_gets |]. intros from m2 _ H2.
  eapply (sim_try _ _ _ _ (λ _, here)); [apply sim_authz; [done | by intros []] |]. intros outcome m3 _ H3.
  eapply (sim_lift_bind _ _ _ _ _ (λ _, here)); [apply sim_other; [done | by apply serving_other] |].
  intros [] m4 _ H4. destruct outcome; [by apply sim_reply |]. by apply sim_full_or_park.
Qed.

Lemma sim_serve_sync m : here m → sim mstep m (serve_sync_group c) done_with.
Proof using Hk.
  intros Hm. unfold serve_sync_group.
  eapply (sim_try _ _ _ _ (λ _, here)); [by apply sim_codec |]. intros request m1 _ H1.
  eapply (sim_try _ _ _ _ (λ _, here)); [apply sim_authz; [done | by intros []] |]. intros outcome m3 _ H3.
  eapply (sim_lift_bind _ _ _ _ _ (λ _, here)); [apply sim_other; [done | by apply serving_other] |].
  intros [] m4 _ H4. destruct outcome; [by apply sim_reply |]. by apply sim_full_or_park.
Qed.

(** What a SASL request does to its connection is a change of its authentication. *)
Lemma sim_auth m (f : Conn → Conn) : here m →
  (∀ conn, ∃ a, f conn = set_auth a conn ∧ (sasl_raw a = true → sasl_raw (c_auth conn) = true ∨ starts_raw req)) →
  sim (E := E) mstep m (modify (on_conn (h_id h) f)) (λ _, here).
Proof using Hq.
  intros Hm Hf. destruct (sv_live _ _ _ _ _ Hm) as [conn Hl]. destruct (Hf conn) as (a & Ha & Hraw).
  destruct (sv_hist _ _ _ _ _ Hm) as (hi & Hhi & Hin).
  eapply sim_modify; [apply rtc_once, (st_auth m (h_id h) conn a Hl) | | |].
  - intros Hr. destruct (Hraw Hr) as [?|Hs]; [by left | right]. exists hi. split; [done |]. exists req. auto.
  - cbn. rewrite (on_conn_put m (h_id h) conn) by apply Hl. by rewrite Ha.
  - done.
  - by apply serving_put.
Qed.

Lemma sim_serve_handshake m : req_api_key req = SASL_HANDSHAKE_KEY → here m →
  sim mstep m (serve_sasl_handshake c) done_with.
Proof using Hk Hq.
  intros Hkey Hm. unfold serve_sasl_handshake.
  eapply (sim_try _ _ _ _ (λ _, here)); [by apply sim_codec |]. intros mech m1 _ H1.
  eapply (sim_lift_bind _ _ _ _ _ (λ _, here)); [by apply sim_gets |]. intros state m2 _ H2.
  destruct (auth_handshake mech state) as [body next].
  eapply (sim_lift_bind _ _ _ _ _ (λ _, here)).
  { apply sim_auth; [done |]. intros conn. destruct next; eexists; (split; [done |]); cbn; [| by left].
    intros Hv. right. split; [done |]. by apply Z.eqb_eq. }
  intros [] m3 _ H3. by apply sim_reply.
Qed.

Lemma sim_serve_authenticate m : here m → sim mstep m (serve_sasl_authenticate c) done_with.
Proof using Hk Hq.
  intros Hm. unfold serve_sasl_authenticate.
  eapply (sim_try _ _ _ _ (λ _, here)); [by apply sim_codec |]. intros token m1 _ H1.
  eapply (sim_lift_bind _ _ _ _ _ (λ _, here)); [by apply sim_gets |]. intros state m2 _ H2.
  eapply (sim_try _ _ _ _ (λ _, here)).
  { apply sim_stay. intros e He. apply (quiet (f := sasl_tx)) in He. cbn. by destruct (sasl_tx e) as [[] e']. }
  intros env m3 _ H3. destruct (auth_authenticate env token state) as [body next].
  eapply (sim_lift_bind _ _ _ _ _ (λ _, here)).
  { apply sim_auth; [done |]. intros conn. destruct next; eexists; (split; [done |]); cbn; by left. }
  intros [] m4 _ H4. by apply sim_reply.
Qed.

Lemma sim_serve_leave m : here m → sim mstep m (serve_leave_group c) done_with.
Proof using Hk.
  intros Hm. unfold serve_leave_group.
  eapply (sim_try _ _ _ _ (λ _, here)); [apply sim_authz; [done | by intros []] |]. intros [g body] m3 _ H3.
  eapply (sim_lift_bind _ _ _ _ _ (λ _, here)); [apply sim_other; [done | by apply serving_other] |].
  intros [] m4 _ H4. by apply sim_reply.
Qed.

Lemma sim_dispatch m : here m → sim mstep m (dispatch req (h_id h) (h_seq h)) done_with.
Proof using Hk Hq.
  intros Hm. unfold dispatch.
  repeat match goal with |- sim _ _ (if ?b then _ else _) _ => destruct b eqn:? end.
  - by apply sim_reply.
  - by apply sim_serve_produce.
  - by apply sim_serve_fetch.
  - by apply sim_serve_join.
  - by apply sim_serve_sync.
  - apply sim_serve_handshake; [by apply Z.eqb_eq | done].
  - by apply sim_serve_authenticate.
  - by apply sim_serve_leave.
  - eapply (sim_try _ _ _ _ (λ _, here)); [apply sim_authz; [done | by intros []] |]. intros body m1 _ H1. by apply sim_reply.
  - by apply sim_stay.
Qed.

End Serve.

(** ** Serving one connection *)

(** The loop's hands are empty and it has decided to close [D]. *)
Definition idle (D : gset Z) (m : Machine) : Prop := m_held m = [] ∧ m_doomed m = D ∧ m_loose m = None.

(** After serving connection [id]: it goes on, or it is to be closed. *)
Definition served_post (D : gset Z) (id : Z) (ok : bool) (m : Machine) : Prop :=
  if ok then idle D m ∧ ∃ c, live m id c else idle ({[id]} ∪ D) m.

Lemma put_conn_same id c s : conns s !! id = Some c → put_conn id c s = s.
Proof. intros Hc. unfold put_conn, set_conns. rewrite insert_id by done. by destruct s. Qed.

(** Deciding to close: the connection is doomed, and its request forgotten. *)
Definition doom (id : Z) (c' : Conn) (m : Machine) : Machine :=
  mk_machine (put_conn id c' (m_srv m)) [] ({[id]} ∪ m_doomed m) (m_loose m) (m_hist m) (m_log m).

Lemma doom_steps m id c c' : live m id c → claim c' ≤ claim c → 0 ≤ parked_bytes (c_in c') → last_writes c c' →
  (m_held m = [] ∨ ∃ seq k n, m_held m = [HRequest id seq k n]) → rtc mstep m (doom id c' m).
Proof.
  intros Hl Hc Hp Hw Hh. eapply rtc_l; [by apply (st_doom m id c c') |].
  destruct Hh as [Hh|(seq & k & n & Hh)].
  - unfold doom. rewrite Hh. constructor.
  - apply rtc_once. set (m1 := mk_machine _ _ _ _ _ _).
    assert (doom id c' m = set_held ([] ++ []) m1) as -> by done.
    apply (st_forget m1 (HRequest id seq k n) [] []); [by cbn; rewrite Hh |]. left. cbn. set_solver.
Qed.

Lemma last_writes_refl c : last_writes c c.
Proof. split; [done |]. exists []. rewrite app_nil_r. split; [done | apply prefix_nil]. Qed.

Lemma last_writes_flush c ok c' : flush c = (ok, c') → last_writes c c' ∧ claim c' = claim c ∧ c_in c' = c_in c.
Proof.
  intros Hf. destruct (flush_spec _ _ _ Hf) as ([E1 E2 E3 E4 E5 E6 E7 E8 E9] & x & Hx & Hp & _).
  split; [split; [done |]; by exists x |]. split; [unfold claim; by rewrite E1 | done].
Qed.

Lemma last_writes_held c ok c' : flush_unless_held c = (ok, c') →
  last_writes c c' ∧ claim c' = claim c ∧ c_in c' = c_in c.
Proof.
  intros Hf. destruct (flush_unless_held_spec _ _ _ Hf) as ([E1 E2 E3 E4 E5 E6 E7 E8 E9] & x & Hx & Hp & _).
  split; [split; [done |]; by exists x |]. split; [unfold claim; by rewrite E1 | done].
Qed.

Lemma idle_doom D m id c' : m_doomed m = D → m_loose m = None → idle ({[id]} ∪ D) (doom id c' m).
Proof. intros <- Hl. done. Qed.

Lemma invariant_msteps m m' : invariant m → rtc mstep m m' → invariant m'.
Proof. intros Hm Hs. revert Hm. induction Hs; eauto using minv_mstep. intros. apply IHHs. by eapply minv_mstep. Qed.

(** The connection's request, alone in the loop's hands. *)
#[local] Abbreviation at_request D id seq k n := (serving (HRequest id seq k n) [] [] D).

(** Nothing but that request, if anything, is in the loop's hands. *)
Record closable (D : gset Z) (id : Z) (m : Machine) : Prop := mk_closable {
  cl_held : m_held m = [] ∨ ∃ seq k n, m_held m = [HRequest id seq k n];
  cl_doomed : m_doomed m = D;
  cl_loose : m_loose m = None;
  cl_live : ∃ c, live m id c }.

Lemma closable_request D m id seq k n : at_request D id seq k n m → closable D id m.
Proof. intros []. split; try done. right. by eexists _, _, _. Qed.

Lemma closable_idle D m id c : idle D m → live m id c → closable D id m.
Proof. intros (H1 & H2 & H3) Hl. split; [by left | done | done | by exists c]. Qed.

Lemma sim_close D m id : invariant m → closable D id m →
  sim (E := E) mstep m (mret false) (λ b m', served_post D id b m').
Proof.
  intros Hm [] e He. destruct cl_live0 as [c Hl]. exists (doom id c m). split.
  - apply (doom_steps m id c c); [done | lia | by eapply minv_sent; [| apply Hl] | apply last_writes_refl | done].
  - split; [| split; [done | by apply idle_doom]]. cbn. by apply put_conn_same, Hl.
Qed.

(** Write what can be written, then close. *)
Lemma sim_flush_close D m id : invariant m → closable D id m →
  sim (E := E) mstep m (do! with_conn id true flush in mret false) (λ b m', served_post D id b m').
Proof.
  intros Hm [] e He. destruct cl_live0 as [c Hl]. destruct (flush c) as [ok c'] eqn:Ef.
  destruct (last_writes_flush _ _ _ Ef) as (Hw & Hcl & Ei). exists (doom id c' m). split.
  - apply (doom_steps m id c c'); [done | lia | | done | done].
    rewrite Ei. by eapply minv_sent; [| apply Hl].
  - unfold mbind', with_conn. cbn. destruct Hl as [Hc Hd]. unfold m_conn in Hc. rewrite Hc, Ef. cbn.
    split; [done | split; [done | by apply idle_doom]].
Qed.

Lemma sim_answer D m id seq k n b : at_request D id seq k n m →
  response_to (req_correlation_id k) b ∨ b = [] ∧ unanswered (HRequest id seq k n) m →
  ∃ c, m_conn m id = Some c ∧
  ∃ m', rtc mstep m m' ∧ m_srv m' = put_conn id (complete seq b c) (m_srv m) ∧ idle D m' ∧
        live m' id (complete seq b c) ∧ m_doomed m' = m_doomed m ∧ m_log m' = m_log m.
Proof.
  intros [] Ha. destruct sv_live0 as [c Hl]. exists c. split; [apply Hl |]. destruct sv_hist0 as (hi & Hhi & _).
  eexists. split; [apply rtc_once, (st_complete m (HRequest id seq k n) [] [] c b); try done |].
  { exists hi. split; [done |]. destruct Ha as [Ha|[-> (hi' & Hhi' & Hs)]]; [by left |]. right. split; [done |].
    by assert (hi' = hi) as -> by congruence. }
  cbn. split; [done |]. split; [done |]. split; [| done]. by eapply live_put.
Qed.

Lemma sim_park_retry D m id seq req n : invariant m → at_request D id seq req n m →
  sim mstep m (park_retry id seq req n) (λ b m', served_post D id b m').
Proof.
  intros Hm Hs. unfold park_retry. pose proof Hs as []. destruct sv_live0 as [c [Hc Hd]].
  eapply (sim_bind _ _ _ _ (λ b m', m' = m ∧ b = true)).
  { apply sim_gets. split; [done |]. cbn in Hc. unfold m_conn in Hc. rewrite Hc. by apply bool_decide_eq_true. }
  intros b m' _ [-> ->]. cbn [negb].
  eapply (sim_bind _ _ _ _ (λ b m', m' = m ∧ b = parking_full (m_srv m))); [by apply sim_gets |].
  intros full m' _ [-> ->]. destruct (parking_full (m_srv m)) eqn:Ef; [apply (sim_close D m id); [done | by eapply closable_request] |].
  eapply (sim_bind _ _ _ _ (λ _ m', m' = m)); [by apply sim_asks |]. intros now m' _ ->.
  intros e He. unfold mbind', modify, mret. cbn. set (p := mk_parked _ _ _ _ _ _ _ _).
  eexists. split; [apply rtc_once, (st_park_retry m id seq req n c p) |]; try done.
  - unfold parking_full in Ef. by apply Z.leb_gt in Ef.
  - split; [cbn; by rewrite (on_conn_put m id c) by done |]. split; [done |]. split; [done |].
    exists (set_parked_retry n c). split; [| done]. unfold m_conn. cbn. apply lookup_insert_eq.
Qed.

Lemma sim_settle D m id seq req n r : invariant m →
  dispatched (HRequest id seq req n) [] [] D r m →
  sim mstep m (settle id seq n req r) (λ b m', served_post D id b m').
Proof.
  intros Hm Hd. unfold settle. destruct r as [[out| |]|err].
  - destruct Hd as [Hs Ha]. destruct (sim_answer _ _ _ _ _ _ out Hs (or_introl Ha)) as (c & Hc & m1 & S1 & E1 & I1 & L1 & D1 & G1).
    eapply (sim_bind _ _ _ _ (λ over m', idle D m' ∧ live m' id (complete seq out c))).
    + apply sim_with_conn; [congruence |]. intros c0 Hc0. rewrite Hc in Hc0. injection Hc0 as <-. by exists m1.
    + intros over m' S' [I' L']. destruct over; [| apply (sim_ret mstep m' true (λ b m', served_post D id b m'))].
      * apply sim_flush_close; [by eapply invariant_msteps | by eapply closable_idle].
      * split; [done | by eexists].
  - destruct Hd as [Hs Hu].
    destruct (sim_answer _ _ _ _ _ _ [] Hs (or_intror (conj eq_refl Hu))) as (c & Hc & m1 & S1 & E1 & I1 & L1 & D1 & G1).
    intros e He. exists m1. unfold mbind', modify, mret. cbn.
    rewrite (on_conn_put m id c) by done.
    split; [exact S1 |]. split; [done |]. split; [by rewrite G1 |]. split; [done | by eexists].
  - destruct Hd as (Hh & HD & Hl & Hlo). cbn in *. apply (sim_ret mstep m true (λ b m', served_post D id b m')).
    split; [done | done].
  - destruct err; try (apply (sim_close D m id); [done | by eapply closable_request]). by apply sim_park_retry.
Qed.

End Loop.
