(* ===== verification/ServerPass.v ===== *)
(** * A pass of the event loop runs the server machine

    The rest of the functions of server/mod.rs: serving a connection, reading within
    the budget, parked requests, the barrier, the sweeps. *)

From stdpp Require Import gmap strings.
From S2P Require Import Prelude Errors Primitives Framing Header Acl Group Txn Produce Fetch Sasl ServerConn ServerInbound Server ServerInv ServerStep ServerRefine.

#[local] Open Scope Z_scope.

Section Pass.
Context {E : Type} `{Ledger E}.

(** As [sim], where the server has gone ahead of the machine. *)
Definition sim_from {A} (R : Machine → Machine → Prop) (m : Machine) (s : Server) (f : M E A)
    (post : A → Machine → Prop) : Prop :=
  ∀ e, agrees e (m_log m) → ∃ m', rtc R m m' ∧ m_srv m' = (f (s, e)).2.1 ∧
    agrees (f (s, e)).2.2 (m_log m') ∧ post (f (s, e)).1 m'.

Lemma put_put id c c' s : put_conn id c' (put_conn id c s) = put_conn id c' s.
Proof. unfold put_conn, set_conns. cbn. by rewrite insert_insert_eq. Qed.

(** ** One frame *)

Lemma sim_serve_slot D m id seq req n outcome : invariant m →
  serving (HRequest id seq req n) [] [] D m →
  sim mstep m (serve_slot id seq n req outcome) (served_post D id).
Proof.
  intros Hm Hs. unfold serve_slot.
  eapply (sim_bind _ _ _ _ (λ _ m', m' = m)); [by apply sim_asks |]. intros required m' _ ->.
  eapply (sim_bind _ _ _ _ (λ _ m', m' = m)); [by apply sim_gets |]. intros known m' _ ->.
  destruct (_ && _); [apply (sim_flush_close D m id); [done | by eapply closable_request] |].
  eapply (sim_bind _ _ _ _ (dispatched (HRequest id seq req n) [] [] D)).
  - destruct outcome; [by apply (sim_dispatch (HRequest id seq req n) [] [] D req eq_refl eq_refl) | ..];
      apply sim_ret; unfold write_unsupported; try done.
    destruct (write_response _ _ _ _ _) as [out|] eqn:Ew; [| done]. split; [done |].
    by apply write_response_answers in Ew.
  - intros r m' S Hd. apply sim_settle; [by eapply invariant_msteps | done].
Qed.

Lemma live_conn_ok m id c : invariant m → live m id c → ∃ b ts h, conn_ok b ts c h.
Proof. intros [] [Hc Hd]. destruct (mi_conns id c Hc) as (h & _ & _ & Hl). destruct (Hl Hd) as (A & _). by eexists _, _, _. Qed.

Section Frame.
Context (D : gset Z) (m : Machine) (id : Z) (c : Conn) (f rest : bytes).
Context (Hm : invariant m) (Hi : idle D m) (Hl : live m id c) (Hr : retrying c = false).
Context (Ht : take_frame (Z.max (frame_cap (c_in c)) 1) (inbuf (c_in c)) = (Ok (Some f), rest)).

Lemma claim_frame : claim (taken c f rest) ≤ claim c ∧ 0 ≤ parked_bytes (c_in c).
Proof using Hm Hl Ht.
  destruct (live_conn_ok m id c Hm Hl) as (b & ts & h & Hok). destruct (claim_taken _ _ _ _ _ _ _ Hok Ht) as [-> ?].
  split; [lia | by eapply minv_sent; [| apply Hl]].
Qed.

(** The frame is gone and the connection is to be closed. *)
Lemma from_close c' : c_in c' = c_in (taken c f rest) → c_out c' = c_out c → stream c' = stream c →
  peer_closed c' = peer_closed c →
  ∃ m', rtc mstep m m' ∧ m_srv m' = put_conn id c' (m_srv m) ∧ m_log m' = m_log m ∧ served_post D id false m'.
Proof using Hm Hi Hl Ht.
  intros E1 E2 E3 E4. exists (doom id c' m). destruct claim_frame as [Hcl Hp].
  split; [| split; [done | split; [done | by apply idle_doom; apply Hi]]].
  apply (doom_steps m id c c'); [done | | by rewrite E1 | | left; apply Hi].
  - unfold claim in *. by rewrite E1.
  - split; [done |]. exists []. rewrite E3, app_nil_r. split; [done | apply prefix_nil].
Qed.

Lemma from_closed e s' c' : agrees e (m_log m) → s' = put_conn id c' (m_srv m) →
  c_in c' = c_in (taken c f rest) → c_out c' = c_out c → stream c' = stream c → peer_closed c' = peer_closed c →
  ∃ m', rtc mstep m m' ∧ m_srv m' = s' ∧ agrees e (m_log m') ∧ served_post D id false m'.
Proof using Hm Hi Hl Ht.
  intros He -> E1 E2 E3 E4. destruct (from_close c' E1 E2 E3 E4) as (m' & S & Em & El & P).
  exists m'. by rewrite El.
Qed.

Lemma from_raw : sasl_raw (c_auth c) = true →
  sim_from mstep m (put_conn id (taken c f rest) (m_srv m)) (serve_raw_sasl id f) (served_post D id).
Proof using Hm Hi Hl Hr Ht.
  intros Hraw e He. apply (quiet (f := sasl_tx)) in He. unfold serve_raw_sasl, mbind', gets, outside, mret. cbn.
  destruct (sasl_tx e) as [[env|] e1]; cbn in *; [| by eapply from_closed].
  destruct (scram_step env _ f) as [[reply next]|]; cbn; [| by eapply from_closed].
  unfold with_conn. cbn. rewrite lookup_insert_eq.
  set (ct := taken c f rest). destruct (push_raw reply (set_sasl next (sasl_raw (c_auth ct)) ct)) as [ok c'] eqn:Ep.
  pose proof (put_put id ct c' (m_srv m)) as Ew. unfold put_conn at 1 in Ew. cbn [put_conn set_conns conns] in Ew.
  cbn [fst snd]. rewrite Ew. destruct ok.
  - eexists. split; [apply rtc_once; eapply (st_raw m id c f rest reply _ c'); [done | apply Hi | done | done | | done | exact Ep]; done |].
    split; [done |]. split; [done |]. split; [done |]. exists c'. split; [| apply Hl]. unfold m_conn. cbn. apply lookup_insert_eq.
  - unfold push_raw in Ep. destruct (_ <? _); [| done]. injection Ep as <-. by eapply from_closed.
Qed.

Lemma from_request req outcome : parse f = Ok (req, outcome) →
  sim_from mstep m (put_conn id (taken c f rest) (m_srv m)) (serve_request id (len f) req outcome) (served_post D id).
Proof using Hm Hi Hl Hr Ht.
  intros Hp e He. set (ct := taken c f rest). destruct (reserve ct) as [seq c'] eqn:Es.
  set (m1 := set_held [HRequest id seq req (len f)]
               (set_hist id (add_frame f (Some req)) (put id c' m))).
  assert (mstep m m1) as S1 by (apply (st_request m id c f rest req outcome seq c'); [done | apply Hi | done..]).
  set (m2 := set_srv (set_served (wrap_u 64 (served (m_srv m) + 1)) (m_srv m1)) m1).
  assert (mstep m1 m2) as S2 by by apply st_other.
  assert (serving (HRequest id seq req (len f)) [] [] D m2) as Hs.
  { destruct Hi as (I1 & I2 & I3). split; try done.
    - exists c'. split; [| apply Hl]. unfold m_conn. cbn. apply lookup_insert_eq.
    - destruct Hm. destruct (mi_conns id c (proj1 Hl)) as (h & Hh & _). exists (add_frame f (Some req) h).
      split; [cbn; by rewrite lookup_alter_eq, Hh |]. intros r [= <-]. rewrite requests_add_frame. set_solver. }
  assert (invariant m2) as Hm2 by (eapply minv_mstep, S2; by eapply minv_mstep, S1).
  destruct (sim_serve_slot D m2 id seq req (len f) outcome Hm2 Hs e He) as (m3 & S3 & E3 & P3).
  exists m3. split; [eapply rtc_l; [exact S1 |]; by eapply rtc_l |].
  assert (serve_request id (len f) req outcome (put_conn id ct (m_srv m), e) = serve_slot id seq (len f) req outcome (m_srv m2, e)) as ->; [| done].
  unfold serve_request, mbind', modify, with_conn. cbn -[reserve]. rewrite lookup_insert_eq, Es. cbn.
  do 2 f_equal. unfold m2, m1. cbn. unfold put_conn, set_conns, set_served. cbn. by rewrite insert_insert_eq.
Qed.

Lemma from_serve_one :
  sim_from mstep m (put_conn id (taken c f rest) (m_srv m)) (serve_one id f) (served_post D id).
Proof using Hm Hi Hl Hr Ht.
  intros e He. unfold serve_one, mbind', gets. cbn [fst snd]. cbn. rewrite lookup_insert_eq.
  destruct (is_raw (taken c f rest)) eqn:Eraw; [apply from_raw; [by apply andb_prop in Eraw as [? _] | done] |].
  destruct (parse f) as [[req outcome]|err] eqn:Ep; [by apply from_request |].
  unfold mret. cbn. by eapply from_closed.
Qed.

End Frame.

(** ** A connection's turn *)

Lemma set_inbuf_same c : set_in (set_inbuf (inbuf (c_in c)) (reserved (c_in c)) (c_in c)) c = c.
Proof. by destruct c as [? ? [] ? ? ? ?]. Qed.

Lemma next_frame_cases c nx c' : next_frame c = (nx, c') →
  match nx with
  | Close => last_writes c c' ∧ claim c' = claim c ∧ c_in c' = c_in c
  | Wait => flush_unless_held c = (true, c')
  | Frame f => ∃ c1 rest, flush_unless_held c = (true, c1) ∧ retrying c1 = false ∧
      take_frame (Z.max (frame_cap (c_in c1)) 1) (inbuf (c_in c1)) = (Ok (Some f), rest) ∧ c' = taken c1 f rest
  end.
Proof.
  unfold next_frame. destruct (flush_unless_held c) as [ok c1] eqn:Ef. pose proof (last_writes_held _ _ _ Ef) as Hw.
  destruct ok; cbn [negb]; [| by intros [= <- <-]].
  destruct (retrying c1) eqn:Er; [by intros [= <- <-] |].
  destruct (_ <? _); [destruct (awaiting_sync _); by intros [= <- <-] |].
  destruct (take_frame _ _) as [[[f|]|] rest] eqn:Et; intros [= <- <-]; [by exists c1, rest | | done].
  pose proof (take_frame_cases (Z.max (frame_cap (c_in c1)) 1) (inbuf (c_in c1))) as Hc. rewrite Et in Hc.
  assert (rest = inbuf (c_in c1)) as -> by by inversion Hc. by rewrite set_inbuf_same.
Qed.

Lemma idle_put D m id c : idle D m → idle D (put id c m).
Proof. done. Qed.

Lemma sim_serve_rounds n D m id : invariant m → idle D m → (∃ c, live m id c) →
  sim mstep m (serve_rounds n id) (served_post D id).
Proof.
  revert m. induction n as [|n IH]; intros m Hm Hi [c Hl]; cbn [serve_rounds].
  { apply sim_ret. split; [done | by exists c]. }
  intros e He. unfold mbind' at 1 3 5, with_conn. cbn [fst snd]. destruct Hl as [Hc Hd]. unfold m_conn in Hc. rewrite Hc.
  destruct (next_frame c) as [nx c'] eqn:En. pose proof (next_frame_cases _ _ _ En) as Hn. destruct nx as [| |f].
  - destruct Hn as (Hw & Hcl & Ei). exists (doom id c' m). split; [| split; [done | split; [done | by apply idle_doom; apply Hi]]].
    apply (doom_steps m id c c'); [done | lia | | done | left; apply Hi]. rewrite Ei. by eapply minv_sent.
  - exists (put id c' m). split; [apply rtc_once; by apply (st_flush m id c c') |]. split; [done |].
    split; [done |]. split; [done |]. exists c'. by eapply live_put; split.
  - destruct Hn as (c1 & rest & Hf & Hr & Ht & ->). set (m1 := put id c1 m).
    assert (mstep m m1) as S1 by by apply (st_flush m id c c1).
    assert (invariant m1) as Hm1 by by eapply minv_mstep.
    assert (live m1 id c1) as Hl1 by by eapply live_put.
    destruct (from_serve_one D m1 id c1 f rest Hm1 Hi Hl1 Hr Ht e He) as (m2 & S2 & E2 & A2 & P2).
    assert (put_conn id (taken c1 f rest) (m_srv m1) = put_conn id (taken c1 f rest) (m_srv m)) as Ep by apply put_put.
    rewrite Ep in E2, A2, P2. fold (put_conn id (taken c1 f rest) (m_srv m)).
    assert (rtc mstep m m2) as S02 by by eapply rtc_l.
    unfold mbind'. destruct (serve_one id f (put_conn id (taken c1 f rest) (m_srv m), e)) as [ok [s2 e2]]. cbn in E2, A2, P2.
    destruct ok; [| exists m2; done]. destruct P2 as [I2 L2]. subst s2.
    destruct (IH m2 (invariant_msteps _ _ Hm S02) I2 L2 e2 A2) as (m3 & S3 & E3 & P3).
    exists m3. split; [by etransitivity | done].
Qed.

(** A connection that is done with is doomed as it is. *)
Lemma sim_done D m id : invariant m → idle D m → (∃ c, live m id c) →
  ∃ m', rtc mstep m m' ∧ m_srv m' = m_srv m ∧ m_log m' = m_log m ∧ idle ({[id]} ∪ D) m'.
Proof.
  intros Hm Hi [c Hl]. exists (doom id c m).
  split; [| split; [by apply put_conn_same, Hl | split; [done | by apply idle_doom; apply Hi]]].
  apply (doom_steps m id c c); [done | lia | by eapply minv_sent; [| apply Hl] | apply last_writes_refl | left; apply Hi].
Qed.

(** Whether the connection is to be closed. *)
Definition polled_post (D : gset Z) (id : Z) (gone : bool) (m : Machine) : Prop :=
  idle (if gone then {[id]} ∪ D else D) m.

Lemma sim_drain_closed D m id : invariant m → idle D m → (∃ c, live m id c) →
  sim mstep m (drain_closed id) (polled_post D id).
Proof.
  intros Hm Hi Hl. unfold drain_closed.
  eapply (sim_bind _ _ _ _ (served_post D id)); [by apply sim_serve_rounds |].
  intros ok m1 S1 P1. destruct ok; cbn [negb].
  - destruct P1 as [I1 L1]. pose proof (invariant_msteps _ _ Hm S1) as Hm1. intros e He. unfold gets. cbn.
    match goal with |- context [polled_post D id ?b] => destruct b end.
    + destruct (sim_done D m1 id Hm1 I1 L1) as (m2 & S2 & E2 & G2 & P2). exists m2. by rewrite G2.
    + exists m1. split; [constructor | done].
  - by apply sim_ret.
Qed.

(** ** Reading within the budget *)

Definition pstep (m m' : Machine) : Prop := mstep m m' ∨ rstep m m'.

Lemma invariant_psteps m m' : invariant m → rtc pstep m m' → invariant m'.
Proof.
  intros Hm Hs. revert Hm. induction Hs as [|m1 m2 m3 [H12|H12] _ IH]; intros Hm; [done | ..]; apply IH.
  - by eapply minv_mstep.
  - by eapply minv_read.
Qed.

Lemma psteps_of m m' : rtc mstep m m' → rtc pstep m m'.
Proof. induction 1; [constructor |]. eapply rtc_l; [by left | done]. Qed.

Lemma check_certificate_auth c : ∃ a, check_certificate c = set_auth a c ∧ sasl_raw a = sasl_raw (c_auth c).
Proof.
  unfold check_certificate. destruct (_ && _); [by eexists |]. exists (c_auth c). by destruct c.
Qed.

Lemma budget_bound cap tier others others_total parked : 0 ≤ parked →
  0 < budget_of cap tier others others_total parked →
  budget_of cap tier others others_total parked + parked + others_total ≤ MAX_INBOUND_TOTAL_BYTES.
Proof. unfold budget_of, saturating_sub. lia. Qed.

(** [read_conn] flushes, then reads: either the connection is to be closed, or two
    steps and totals that still cover the load. *)
Lemma read_conn_steps D m id c cap now t o c' :
  invariant m → idle D m → live m id c → load m ≤ inbound_total t →
  read_conn cap now t c = (o, c') →
  match o with
  | None => rtc mstep m (doom id c' m)
  | Some (_, t') => rtc pstep m (put id c' m) ∧ load (put id c' m) ≤ inbound_total t'
  end.
Proof.
  intros Hm Hi Hl Hload. unfold read_conn. destruct (flush_unless_held c) as [ok c1] eqn:Ef.
  destruct (last_writes_held _ _ _ Ef) as (Hw & Hcl & Ei). destruct ok; cbn [negb].
  2:{ intros [= <- <-]. apply (doom_steps m id c c1); [done | lia | | done | left; apply Hi].
      rewrite Ei. by eapply minv_sent; [| apply Hl]. }
  set (m1 := put id c1 m). assert (mstep m m1) as S1 by by apply (st_flush m id c c1).
  assert (invariant m1) as Hm1 by by eapply minv_mstep. assert (live m1 id c1) as Hl1 by by eapply live_put.
  assert (load m1 = load m) as El1 by (unfold m1; rewrite (load_put m id c c1) by apply Hl; lia).
  destruct (live_conn_ok m1 id c1 Hm1 Hl1) as (b & ts & h & Hok).
  set (others := saturating_sub (oversize_total t) _). set (ot := saturating_sub (inbound_total t) (claim c1)).
  set (budget := budget_of _ _ _ _ _). set (cap' := Z.max cap _).
  pose proof (read_admitted_spec budget now (set_frame_cap cap' c1) (layout_relax _ _ _ _ (ok_layout _ _ _ _ Hok))) as Had.
  destruct (read_admitted budget now (set_frame_cap cap' c1)) as [r c2]. cbn in Had. intros [= <- <-].
  destruct (check_certificate_auth c2) as (a & Ea & Hra).
  assert (load m1 - claim c1 ≤ ot) as Hot by (unfold ot, saturating_sub; lia).
  assert (rstep m1 (put id (check_certificate c2) m1)) as S2.
  { apply (st_read m1 id c1 cap' budget c2 (check_certificate c2)); [done | | done | by exists a].
    intros Hb. pose proof (budget_bound _ _ _ _ _ (minv_sent _ m1 id c1 Hm1 (proj1 Hl1)) Hb). unfold budget. lia. }
  assert (put id (check_certificate c2) m1 = put id (check_certificate c2) m) as Ep.
  { unfold m1, put. cbn. by rewrite put_put. }
  rewrite <- Ep. split; [eapply rtc_l; [by left |]; apply rtc_once; by right |].
  rewrite (load_put m1 id c1) by apply Hl1. assert (claim (check_certificate c2) = claim c2) as -> by by rewrite Ea.
  cbn. lia.
Qed.

Lemma sim_poll_one D m cap t id : invariant m → idle D m → id ∉ D → load m ≤ inbound_total t →
  sim pstep m (poll_one cap t id) (λ r m', polled_post D id r.2 m' ∧ load m' ≤ inbound_total r.1).
Proof.
  intros Hm Hi Hd Hload. unfold poll_one.
  eapply (sim_bind _ _ _ _ (λ b m', m' = m ∧ (b = true → ∃ c, live m id c))).
  { apply sim_gets. split; [done |]. destruct (conns (m_srv m) !! id) as [c|] eqn:Ec; [| done]. intros _.
    exists c. split; [done |]. by destruct Hi as (_ & -> & _). }
  intros closed m' _ [-> Hcl]. destruct closed.
  { eapply (sim_bind _ _ _ _ (λ gone m', polled_post D id gone m' ∧ load m' ≤ inbound_total t)).
    - eapply sim_mono; [intros; by left | apply (sim_drain_closed D); [done | done | by apply Hcl] |].
      intros gone m1 S1 P1. split; [done |]. pose proof (load_msteps _ _ Hm S1). lia.
    - intros gone m1 _ P1. by apply sim_ret. }
  destruct (conns (m_srv m) !! id) as [c|] eqn:Ec.
  2:{ intros e He. exists m. unfold mbind', gets, mret. cbn. rewrite Ec. cbn. split; [constructor | done]. }
  assert (live m id c) as Hl by (split; [done |]; by destruct Hi as (_ & -> & _)).
  eapply (sim_bind _ _ _ _ (λ b m', m' = m ∧ b = true)).
  { apply sim_gets. rewrite Ec. done. }
  intros b m' _ [-> ->]. cbn [negb].
  eapply (sim_bind _ _ _ _ (λ _ m', m' = m)); [by apply sim_asks |]. intros now m' _ ->.
  eapply (sim_bind _ _ _ _ (λ o m', match o with
    | None => idle ({[id]} ∪ D) m' ∧ load m' ≤ inbound_total t
    | Some (_, t') => idle D m' ∧ (∃ c, live m' id c) ∧ load m' ≤ inbound_total t' end)).
  { apply sim_with_conn; [unfold m_conn; congruence |]. intros c0 Hc0. unfold m_conn in Hc0. rewrite Ec in Hc0.
    injection Hc0 as <-. destruct (read_conn cap now t c) as [o c'] eqn:Er.
    pose proof (read_conn_steps D m id c cap now t o c' Hm Hi Hl Hload Er) as Hs. destruct o as [[r t']|].
    - destruct Hs as [Hs Hle]. exists (put id c' m). split; [done |]. split; [done |]. split; [done |]. split_and!; [done | | done].
      exists c'. by eapply live_put.
    - exists (doom id c' m). split; [by apply psteps_of |]. split; [done |]. split; [done |]. split; [by apply idle_doom; apply Hi |].
      pose proof (load_msteps _ _ Hm Hs). lia. }
  intros o m1 S1 P1. pose proof (invariant_psteps _ _ Hm S1) as Hm1. destruct o as [[[] t']|].
  - destruct P1 as (I1 & L1 & Q1).
    eapply (sim_bind _ _ _ _ (λ ok m', served_post D id ok m' ∧ load m' ≤ inbound_total t')).
    + eapply sim_mono; [intros; by left | by apply (sim_serve_rounds MAX_REQUESTS_PER_TICK D) |].
      intros ok m2 S2 P2. split; [done |]. pose proof (load_msteps _ _ Hm1 S2). lia.
    + intros ok m2 _ [P2 Q2]. apply sim_ret. split; [| done]. destruct ok; [apply P2 | done].
  - destruct P1 as (I1 & [c1 L1] & Q1).
    eapply (sim_bind _ _ _ _ (λ _ m', m' = put id (set_peer_closed c1) m1)).
    { eapply sim_modify; [apply rtc_once; left; by apply (st_closed m1 id c1) | | done | done].
      cbn. by rewrite (on_conn_put m1 id c1) by apply L1. }
    intros [] m2 S2 ->. pose proof (invariant_psteps _ _ Hm1 S2) as Hm2.
    assert (load (put id (set_peer_closed c1) m1) = load m1) as El.
    { rewrite (load_put m1 id c1) by apply L1. change (claim (set_peer_closed c1)) with (claim c1). lia. }
    eapply (sim_bind _ _ _ _ (λ gone m', polled_post D id gone m' ∧ load m' ≤ inbound_total t')).
    + eapply sim_mono; [intros; by left | apply (sim_drain_closed D); [done | done | by eexists; eapply live_put] |].
      intros gone m3 S3 P3. split; [done |]. pose proof (load_msteps _ _ Hm2 S3). lia.
    + intros gone m3 _ P3. by apply sim_ret.
  - destruct P1 as (I1 & L1 & Q1). intros e He.
    destruct (sim_done D m1 id Hm1 I1 L1) as (m2 & S2 & E2 & G2 & P2). exists m2. split; [by apply psteps_of |].
    split; [done |]. split; [by rewrite G2 |]. split; [done |]. pose proof (load_msteps _ _ Hm1 S2). cbn. lia.
  - by apply sim_ret.
Qed.

Lemma sim_poll_all cap t ids closed m : invariant m → idle (list_to_set closed) m → NoDup ids →
  (∀ id, id ∈ ids → id ∉ closed) → load m ≤ inbound_total t →
  sim pstep m (poll_all cap t ids closed) (λ closed' m', idle (list_to_set closed') m').
Proof.
  revert t closed m. induction ids as [|id ids IH]; intros t closed m Hm Hi Hnd Hdis Hload; cbn [poll_all].
  { by apply sim_ret. }
  apply NoDup_cons in Hnd as [Hnot Hnd].
  eapply sim_bind; [apply (sim_poll_one (list_to_set closed)); try done; rewrite elem_of_list_to_set; apply Hdis; by left |].
  intros [t' gone] m1 S1 [P1 Q1]. cbn in *. pose proof (invariant_psteps _ _ Hm S1) as Hm1.
  apply IH; try done.
  - destruct gone; [| done]. unfold polled_post in P1. rewrite list_to_set_app_L. cbn.
    by replace (list_to_set closed ∪ ({[id]} ∪ ∅)) with ({[id]} ∪ list_to_set closed : gset Z) by set_solver.
  - intros j Hj. destruct gone; [| apply Hdis; by right]. rewrite elem_of_app, list_elem_of_singleton.
    intros [?| ->]; [| done]. by apply (Hdis j); [right |].
Qed.

(** Dropping what was to be closed. *)
Lemma sim_drops ids m : m_held m = [] → m_loose m = None → m_doomed m ⊆ list_to_set ids →
  sim (E := E) mstep m (modify (λ s, foldl (λ s id, drop_conn id s) s ids)) (λ _ m', at_rest m').
Proof.
  intros Hh Hlo Hd. assert (∃ m', rtc mstep m m' ∧ m_srv m' = foldl (λ s id, drop_conn id s) (m_srv m) ids ∧
    m_log m' = m_log m ∧ at_rest m') as (m' & S & Em & El & Hr); [| by eapply sim_modify].
  revert m Hh Hlo Hd. induction ids as [|id ids IH]; intros m Hh Hlo Hd; cbn.
  { exists m. split; [constructor |]. split; [done |]. split; [done |]. split_and!; [done | set_solver | done]. }
  set (m1 := mk_machine (drop_conn id (m_srv m)) (m_held m) (m_doomed m ∖ {[id]}) (m_loose m) (delete id (m_hist m)) (m_log m)).
  destruct (IH m1) as (m' & S & Em & El & Hr); [done | done | cbn; set_solver |].
  exists m'. split; [eapply rtc_l; [apply (st_drop m id); by rewrite Hlo | exact S] | done].
Qed.

End Pass.

(** A hash map is iterated once per key. *)
Class HostLaws (E : Type) `{Host E} : Prop := {
  conn_order_perm : ∀ s (e : E), conn_order s e ≡ₚ elements s;
  part_order_perm : ∀ s (e : E), part_order s e ≡ₚ elements s }.

Section Loop.
Context {E : Type} `{HostLaws E} `{!Ledger E}.

Lemma sim_poll_connections m : invariant m → at_rest m →
  sim pstep m (poll_connections (E := E)) (λ _ m', at_rest m').
Proof.
  intros Hm (Hh & Hd & Hlo). unfold poll_connections.
  eapply (sim_bind _ _ _ _ (λ ids m', m' = m ∧ NoDup ids)).
  { apply sim_stay. intros e He. split; [done |]. split; [done |]. split; [done |]. cbn.
    rewrite conn_order_perm. apply NoDup_elements. }
  intros ids m' _ [-> Hnd]. eapply (sim_bind _ _ _ _ (λ _ m', m' = m)); [by apply sim_asks |]. intros cap m' _ ->.
  eapply (sim_bind _ _ _ _ (λ t m', m' = m ∧ load m ≤ inbound_total t)).
  { apply sim_gets. split; [done |]. unfold load. rewrite Hh. cbn. lia. }
  intros t m' _ [-> Ht].
  eapply (sim_bind _ _ _ _ (λ closed m', idle (list_to_set closed) m')).
  { apply sim_poll_all; try done. intros id _. apply not_elem_of_nil. }
  intros closed m1 S1 (I1 & I2 & I3). eapply sim_mono; [intros; by left | apply (sim_drops closed) | done]; try done.
  by rewrite I2.
Qed.

End Loop.
