(* ===== verification/ServerLoop.v ===== *)
(** * Parked requests, the barrier and the sweeps run the server machine

    With ServerRefine.v and ServerPass.v this completes the simulation: a pass of the
    event loop, from a machine at rest, is a run of machine steps to a machine at
    rest with the server the pass leaves. *)

From stdpp Require Import gmap strings.
From S2P Require Import Prelude Errors Primitives Framing Header Acl Group Txn Produce Fetch Sasl ServerConn ServerInbound Server ServerInv ServerStep ServerRefine ServerPass.

#[local] Open Scope Z_scope.

(** ** Picking parked requests up and putting them back *)

Lemma set_parked_twice l l' s : set_parked l (set_parked l' s) = set_parked l s.
Proof. done. Qed.

Lemma hold_all (f : Parked → bool) l pre m : parked (m_srv m) = pre ++ l →
  ∃ m', rtc mstep m m' ∧ m_srv m' = set_parked (pre ++ List.filter (λ p, negb (f p)) l) (m_srv m) ∧
    m_held m' = m_held m ++ (HParked <$> List.filter f l) ∧ m_doomed m' = m_doomed m ∧ m_loose m' = m_loose m ∧
    m_log m' = m_log m.
Proof.
  revert pre m. induction l as [|p l IH]; intros pre m Hp; cbn [List.filter].
  { exists m. split; [constructor |]. rewrite <- Hp. split_and!; try done; [by destruct (m_srv m) | by rewrite app_nil_r]. }
  destruct (f p) eqn:Ef; cbn [negb].
  - set (m1 := set_held (m_held m ++ [HParked p]) (set_srv (set_parked (pre ++ l) (m_srv m)) m)).
    destruct (IH pre m1) as (m' & S & E1 & E2 & E3 & E4 & E5); [done |]. exists m'.
    split; [eapply rtc_l; [by apply (st_hold m p pre l) | exact S] |]. split_and!; try done.
    rewrite E2. cbn. by rewrite <- app_assoc.
  - destruct (IH (pre ++ [p]) m) as (m' & S & E1 & E2 & E3 & E4 & E5); [by rewrite <- app_assoc |].
    exists m'. split; [done |]. split_and!; try done. by rewrite E1, <- app_assoc.
Qed.

Lemma return_all ps m : m_held m = HParked <$> ps →
  ∃ m', rtc mstep m m' ∧ m_srv m' = set_parked (parked (m_srv m) ++ ps) (m_srv m) ∧ m_held m' = [] ∧
    m_doomed m' = m_doomed m ∧ m_loose m' = m_loose m ∧ m_log m' = m_log m.
Proof.
  revert m. induction ps as [|p ps IH]; intros m Hh.
  { exists m. split; [constructor |]. rewrite app_nil_r. split_and!; try done. by destruct (m_srv m). }
  set (m1 := set_held ([] ++ (HParked <$> ps)) (set_srv (push_parked p (m_srv m)) m)).
  destruct (IH m1) as (m' & S & E1 & E2 & E3 & E4 & E5); [done |]. exists m'.
  split; [eapply rtc_l; [by apply (st_return m p [] (HParked <$> ps)) | exact S] |]. split_and!; try done.
  rewrite E1. cbn. by rewrite <- app_assoc.
Qed.

Section Loop.
Context {E : Type} `{HostLaws E} `{!Ledger E}.

(** A parked request in the loop's hands, between [l1] and [l2]. *)
Definition picked (p : Parked) (l1 l2 : list Held) (m : Machine) : Prop :=
  m_held m = l1 ++ HParked p :: l2 ∧ m_doomed m = ∅ ∧ m_loose m = None.
Definition rest (l : list Held) (m : Machine) : Prop := m_held m = l ∧ m_doomed m = ∅ ∧ m_loose m = None.

(** It stays, or it is dealt with. *)
Definition looked_post (p : Parked) (l1 l2 : list Held) (stays : option Parked) (m : Machine) : Prop :=
  match stays with
  | Some q => q = p ∧ picked p l1 l2 m
  | None => rest (l1 ++ l2) m
  end.

Lemma picked_serving p l1 l2 m c : invariant m → picked p l1 l2 m → m_conn m (pk_conn_id p) = Some c →
  serving (HParked p) l1 l2 ∅ m.
Proof.
  intros [] (H1 & H2 & H3) Hc. split; try done; [exists c; split; [done |]; rewrite H2; set_solver |].
  destruct (mi_conns _ c Hc) as (h & Hh & _ & Hl). exists h. split; [done |]. intros req Hq.
  destruct Hl as ([] & _); [rewrite H2; set_solver |]. destruct (ok_tickets (HParked p)) as (_ & (r & Hr & _ & Hs) & _).
  { apply elem_of_conn. split; [done |]. unfold tickets. rewrite H1. set_solver. }
  rewrite (Hs req Hq). by eapply list_elem_of_lookup_2.
Qed.

Lemma serving_picked p l1 l2 m : serving (HParked p) l1 l2 ∅ m → picked p l1 l2 m.
Proof. intros []. done. Qed.

Lemma picked_other p l1 l2 m s' : picked p l1 l2 m → picked p l1 l2 (set_srv s' m).
Proof. done. Qed.

(** Close its connection, and with it the request. *)
Lemma sim_fail p l1 l2 m : picked p l1 l2 m →
  sim (E := E) mstep m (modify (drop_conn (pk_conn_id p))) (λ _ m', rest (l1 ++ l2) m').
Proof.
  intros (H1 & H2 & H3).
  set (m1 := mk_machine (drop_conn (pk_conn_id p) (m_srv m)) (m_held m) (m_doomed m ∖ {[pk_conn_id p]}) (m_loose m)
               (delete (pk_conn_id p) (m_hist m)) (m_log m)).
  eapply (sim_modify _ _ _ (set_held (l1 ++ l2) m1)).
  - eapply rtc_l; [apply (st_drop m (pk_conn_id p)); by rewrite H3 |].
    apply rtc_once, (st_forget m1 (HParked p) l1 l2); [done |]. right. unfold m_conn. cbn. apply lookup_delete_eq.
  - done.
  - done.
  - split_and!; [done | cbn; rewrite H2; set_solver | done].
Qed.

(** Answer it. *)
Lemma answer_picked p l1 l2 m c b : picked p l1 l2 m → m_conn m (pk_conn_id p) = Some c →
  (∃ hi, m_hist m !! pk_conn_id p = Some hi ∧ completes (HParked p) hi b) →
  ∃ m', rtc mstep m m' ∧ m_srv m' = on_conn (pk_conn_id p) (complete (pk_seq p) b) (m_srv m) ∧
    m_held m' = l1 ++ l2 ∧ m_doomed m' = ∅ ∧ live m' (pk_conn_id p) (complete (pk_seq p) b c) ∧
    m_loose m' = (if is_retry (pk_waiting p) then Some (pk_conn_id p) else None) ∧ m_log m' = m_log m.
Proof.
  intros (H1 & H2 & H3) Hc Ha. assert (live m (pk_conn_id p) c) as Hl by (split; [done | rewrite H2; set_solver]).
  eexists. split; [apply rtc_once, (st_complete m (HParked p) l1 l2 c b); done |].
  match goal with |- m_srv (loosened ?h ?x) = _ ∧ _ => destruct (loosened_fields h x) as (F1 & F2 & F3 & F4 & F5 & F6) end.
  split; [rewrite F1; cbn; by rewrite (on_conn_put m _ c) |]. split; [by rewrite F2 |]. split; [by rewrite F3 |].
  split; [| split; [rewrite F5; cbn; by destruct (is_retry _) | by rewrite F6]].
  split; [| rewrite F3; apply Hl]. unfold m_conn. rewrite F1. cbn. apply lookup_insert_eq.
Qed.

(** A retry that got through, or nowhere. *)
Lemma sim_got_through p l1 l2 m c held : m_held m = l1 ++ l2 → m_doomed m = ∅ → live m (pk_conn_id p) c →
  m_loose m = Some (pk_conn_id p) →
  sim (E := E) mstep m (got_through (pk_conn_id p) held) (λ r m', looked_post p l1 l2 r.2 m').
Proof.
  intros Hh Hd Hl Hlo. unfold got_through. set (id := pk_conn_id p) in *.
  eapply (sim_bind _ _ _ _ (λ _ m', m_held m' = l1 ++ l2 ∧ m_doomed m' = ∅ ∧ live m' id c ∧ m_loose m' = Some id)).
  { apply sim_other; [done |]. by split_and!. }
  intros [] m1 _ (E1 & E2 & E3 & E4).
  eapply (sim_bind _ _ _ _ (λ _, rest (l1 ++ l2))).
  { eapply sim_modify; [apply rtc_once, (st_release m1 id c); done | | done | by split_and!].
    cbn. by rewrite (on_conn_put m1 id c) by apply E3. }
  intros [] m2 _ P2. by apply sim_ret.
Qed.

Lemma sim_got_nowhere p l1 l2 m held : picked p l1 l2 m →
  sim (E := E) mstep m (got_nowhere (pk_conn_id p) held) (λ r m', looked_post p l1 l2 r.2 m').
Proof.
  intros Hp. eapply sim_bind; [by apply sim_fail |]. intros [] m2 _ P2. by apply sim_ret.
Qed.

Lemma sim_retry_answered p l1 l2 m b held : serving (HParked p) l1 l2 ∅ m → is_retry (pk_waiting p) = true →
  response_to (pk_correlation_id p) b ∨ b = [] ∧ unanswered (HParked p) m →
  sim (E := E) mstep m (do! modify (on_conn (pk_conn_id p) (complete (pk_seq p) b)) in got_through (pk_conn_id p) held)
    (λ r m', looked_post p l1 l2 r.2 m').
Proof.
  intros Hs Hw Ha. destruct (sv_live _ _ _ _ _ Hs) as [c [Hc _]]. destruct (sv_hist _ _ _ _ _ Hs) as (hi & Hhi & _).
  assert (∃ hi, m_hist m !! pk_conn_id p = Some hi ∧ completes (HParked p) hi b) as Hb.
  { destruct Ha as [Ha|[-> (h & Hh & Hs')]]; [exists hi; split; [done | by left] | exists h; split; [done | by right]]. }
  destruct (answer_picked p l1 l2 m c b (serving_picked _ _ _ _ Hs) Hc Hb) as (m2 & S2 & E2 & A1 & A2 & A3 & A4 & A5).
  rewrite Hw in A4.
  eapply (sim_bind _ _ _ _ (λ _ m', m_held m' = l1 ++ l2 ∧ m_doomed m' = ∅ ∧
    live m' (pk_conn_id p) (complete (pk_seq p) b c) ∧ m_loose m' = Some (pk_conn_id p))); [by eapply sim_modify |].
  intros [] m3 _ (B1 & B2 & B3 & B4). by eapply sim_got_through.
Qed.

(** Whether the connection of a parked request is still there. *)
Lemma sim_present {A} p l1 l2 m (gone here : M E A) (post : A → Machine → Prop) :
  picked p l1 l2 m →
  (rest (l1 ++ l2) (set_held (l1 ++ l2) m) → sim mstep (set_held (l1 ++ l2) m) gone post) →
  (∀ c, m_conn m (pk_conn_id p) = Some c → sim mstep m here post) →
  sim mstep m (let! present := gets (λ s, bool_decide (is_Some (conns s !! pk_conn_id p))) in
               if negb present then gone else here) post.
Proof.
  intros Hp Hg Hh.
  eapply (sim_bind _ _ _ _ (λ b m', m' = m ∧ b = bool_decide (is_Some (m_conn m (pk_conn_id p))))); [by apply sim_gets |].
  intros b m' _ [-> ->]. destruct (m_conn m (pk_conn_id p)) as [c|] eqn:Ec; [by eapply Hh |].
  rewrite bool_decide_eq_false_2 by (by intros [? ?]). cbn [negb]. destruct Hp as (H1 & H2 & H3).
  intros e He. destruct (Hg (conj eq_refl (conj H2 H3)) e He) as (m2 & S2 & P2). exists m2. split; [| exact P2].
  eapply rtc_l; [apply (st_forget m (HParked p) l1 l2); [done | by right] | exact S2].
Qed.

Lemma sim_retry_one now held p l1 l2 m : invariant m → picked p l1 l2 m → is_retry (pk_waiting p) = true →
  sim mstep m (retry_one now held p) (λ r m', looked_post p l1 l2 r.2 m').
Proof.
  intros Hm Hp Hw. unfold retry_one. eapply sim_present; [done | intros Hr; by apply sim_ret |]. intros c Ec. cbv zeta.
  destruct (_ && _); [by apply sim_ret |].
  destruct (pk_waiting p) as [| | |request] eqn:Ew; try done.
  assert (req_correlation_id request = h_correlation (HParked p)) as Hk.
  { destruct Hm. apply (mi_retries p); [| done]. unfold tickets. destruct Hp as (-> & _). set_solver. }
  eapply sim_bind; [apply (sim_dispatch (HParked p) l1 l2 ∅ request Hk); [cbn; by rewrite Ew | by eapply picked_serving] |].
  intros r m1 S1 P1. destruct r as [[out| |]|err]; cbn [dispatched] in P1.
  - destruct P1 as [P1 Ha]. apply sim_retry_answered; [done | by rewrite Ew | by left].
  - destruct P1 as [P1 Hu]. apply sim_retry_answered; [done | by rewrite Ew | by right].
  - destruct P1 as (A1 & A2 & [c1 A3] & A4). cbn in A4. rewrite Ew in A4. by eapply sim_got_through.
  - apply serving_picked in P1. destruct err; try by apply sim_got_nowhere.
    destruct (negb _); [| by apply sim_got_nowhere].
    eapply (sim_bind _ _ _ _ (λ _, picked p l1 l2)); [by apply sim_other |]. intros [] m2 _ P2. by apply sim_ret.
Qed.

Lemma sim_retry_each now held ps still m : invariant m → rest ((HParked <$> still) ++ (HParked <$> ps)) m →
  Forall (λ p, is_retry (pk_waiting p) = true) ps →
  sim mstep m (retry_each now held ps still) (λ still' m', rest (HParked <$> still') m').
Proof.
  revert held still m. induction ps as [|p ps IH]; intros held still m Hm Hr Hall; cbn [retry_each].
  { apply sim_ret. cbn in Hr. by rewrite app_nil_r in Hr. }
  apply Forall_cons in Hall as [Hp Hall].
  eapply sim_bind; [apply (sim_retry_one now held p (HParked <$> still) (HParked <$> ps)); done |].
  intros [held' stays] m1 S1 P1. cbn in *. apply IH; [by eapply invariant_msteps | | done].
  destruct stays as [q|]; cbn in *.
  - destruct P1 as [-> (A1 & A2 & A3)]. split_and!; [| done | done]. rewrite A1, fmap_app. cbn. by rewrite <- app_assoc.
  - by rewrite app_nil_r.
Qed.

Lemma filter_all {A} (f : A → bool) l : Forall (λ x, f x = true) (List.filter f l).
Proof. induction l as [|x l IH]; cbn; [constructor |]. destruct (f x) eqn:Ex; [by constructor | done]. Qed.

Lemma sim_retry_parked m : invariant m → at_rest m → sim mstep m (retry_parked (E := E)) (λ _ m', at_rest m').
Proof.
  intros Hm (Hh & Hd & Hlo). unfold retry_parked.
  eapply (sim_bind _ _ _ _ (λ _ m', m' = m)); [by apply sim_gets |]. intros any m' _ ->.
  destruct any; cbn [negb]; [| by apply sim_ret].
  eapply (sim_bind _ _ _ _ (λ _ m', m' = m)); [by apply sim_asks |]. intros now m' _ ->.
  set (f := λ p, is_retry (pk_waiting p)).
  eapply (sim_bind _ _ _ _ (λ l m', m' = m ∧ l = List.filter f (parked (m_srv m)))); [by apply sim_gets |].
  intros l m' _ [-> ->].
  destruct (hold_all f (parked (m_srv m)) [] m eq_refl) as (m1 & S1 & E1 & A1 & A2 & A3 & A4).
  eapply (sim_bind _ _ _ _ (λ _ m', m' = m1)); [by eapply sim_modify |]. intros [] m' _ ->.
  eapply (sim_bind _ _ _ _ (λ _ m', m' = m1)); [by apply sim_gets |]. intros held m' _ ->.
  eapply sim_bind; [apply sim_retry_each; [by eapply invariant_msteps | | apply filter_all] |].
  - split_and!; [by rewrite A1, Hh | congruence | congruence].
  - intros still m2 S2 (B1 & B2 & B3). destruct (return_all still m2 B1) as (m3 & S3 & E3 & C1 & C2 & C3 & C4).
    eapply sim_modify; [exact S3 | exact E3 | done |]. split_and!; congruence.
Qed.

(** ** Completing parked requests *)

(** No request is parked meanwhile. *)
Definition unparked (m : Machine) : Prop := parked (m_srv m) = [].

Lemma sim_look_again now p l1 l2 m : picked p l1 l2 m → unparked m →
  sim mstep m (look_again (E := E) now p) (λ _ m', picked p l1 l2 m' ∧ unparked m').
Proof.
  intros Hp Hu. unfold look_again. destruct (pk_waiting p).
  - unfold parked_fetch. eapply (sim_bind _ _ _ _ (λ _ m', m' = m)); [by apply sim_authz |].
    intros fetched m' _ ->. destruct fetched as [[body w]|[]]; try by apply sim_ret.
    destruct (_ && _); [by apply sim_ret |].
    eapply (sim_bind _ _ _ _ (λ _ m', m' = m)); [| intros th m' _ ->; by apply sim_ret].
    unfold charge. destruct (_ <=? _); [by apply sim_ret |].
    eapply (sim_bind _ _ _ _ (λ _ m', m' = m)); [by apply sim_gets |]. intros who m' _ ->. by apply sim_outside.
  - eapply (sim_bind _ _ _ _ (λ _ m', m' = m)); [by apply sim_outside |]. intros ? m' _ ->. by apply sim_ret.
  - eapply (sim_bind _ _ _ _ (λ _ m', m' = m)); [by apply sim_outside |]. intros ? m' _ ->. by apply sim_ret.
  - by apply sim_ret.
Qed.

Lemma ring_again_core w s : same_core s (ring_again w s).
Proof. by destruct w. Qed.

Lemma sim_complete_failed p l1 l2 m held : picked p l1 l2 m → unparked m →
  sim (E := E) mstep m (do! modify (drop_conn (pk_conn_id p)) in mret (held, None))
    (λ r : bool * option Parked, λ m', looked_post p l1 l2 r.2 m' ∧ unparked m').
Proof.
  intros Hp Hu e He. destruct (sim_fail p l1 l2 m Hp e He) as (m' & S & Em & Ag & P). exists m'. cbn in *.
  split_and!; [done | done | done | done |]. unfold unparked in *. rewrite Em. cbn. by rewrite Hu.
Qed.

Lemma on_conn_absent m id f : m_conn m id = None → on_conn id f (m_srv m) = m_srv m.
Proof.
  intros Hc. unfold on_conn, set_conns. rewrite alter_id; [by destruct (m_srv m) |]. unfold m_conn in Hc. congruence.
Qed.

Lemma sim_complete_answered p l1 l2 m held out : picked p l1 l2 m → unparked m → is_retry (pk_waiting p) = false →
  response_to (pk_correlation_id p) out → invariant m →
  sim (E := E) mstep m (do! modify (on_conn (pk_conn_id p) (complete (pk_seq p) out)) in mret (held, None))
    (λ r : bool * option Parked, λ m', looked_post p l1 l2 r.2 m' ∧ unparked m').
Proof.
  intros Hp Hu Hw Ha Hm e He. destruct (m_conn m (pk_conn_id p)) as [c|] eqn:Hc.
  2:{ destruct Hp as (H1 & H2 & H3). exists (set_held (l1 ++ l2) m).
      split; [apply rtc_once, (st_forget m (HParked p) l1 l2); [done | by right] |]. cbn.
      split; [by rewrite on_conn_absent | done]. }
  destruct Hm. destruct (mi_conns _ c Hc) as (hi & Hhi & _).
  destruct (answer_picked p l1 l2 m c out Hp Hc) as (m' & S & Em & A1 & A2 & A3 & A4 & A5).
  { exists hi. split; [done | by left]. }
  rewrite Hw in A4. exists m'. cbn. split; [done |]. split; [done |]. split; [by rewrite A5 |].
  split; [by split_and! |]. unfold unparked in *. by rewrite Em.
Qed.

Lemma sim_complete_one now bells groups held p l1 l2 m : invariant m → picked p l1 l2 m → unparked m →
  sim mstep m (complete_one (E := E) now bells groups held p) (λ r : bool * option Parked, λ m', looked_post p l1 l2 r.2 m' ∧ unparked m').
Proof.
  intros Hm Hp Hu. unfold complete_one. eapply sim_present; [done | intros Hr; by apply sim_ret |]. intros c Ec. cbv zeta.
  destruct (is_retry (pk_waiting p)) eqn:Ew; cbn [orb]; [by apply sim_ret |]. destruct (_ && _); [by apply sim_ret |].
  eapply (sim_bind _ _ _ _ (λ _ m', m' = m)); [by apply sim_gets |]. intros at_ m' _ ->.
  assert (∀ m1 f, picked p l1 l2 m1 ∧ unparked m1 → same_core (m_srv m1) (f (m_srv m1)) →
    sim (E := E) mstep m1 (modify f) (λ _ m', picked p l1 l2 m' ∧ unparked m')) as Hother.
  { intros m1 f [A1 A2] Hf. apply sim_other; [done |]. split; [done |]. unfold unparked in *. cbn.
    by destruct Hf as (_ & _ & -> & _). }
  destruct (_ && _).
  { eapply sim_bind; [apply Hother; [done | apply ring_again_core] |]. intros [] m1 _ [P1 U1]. by apply sim_ret. }
  eapply sim_bind; [by apply sim_look_again |]. intros o m1 S1 [P1 U1]. destruct o as [| | |body].
  - by apply sim_ret.
  - eapply sim_bind; [by apply Hother |]. intros [] m2 _ P2.
    eapply sim_bind; [apply Hother; [exact P2 | apply ring_again_core] |]. intros [] m3 _ [P3 U3]. by apply sim_ret.
  - by apply sim_complete_failed.
  - unfold encode_parked. destruct (write_response _ _ _ _ _) as [out|] eqn:Eo; [| by apply sim_complete_failed].
    apply write_response_answers in Eo. apply sim_complete_answered; [done.. |]. by eapply invariant_msteps.
Qed.

Lemma sim_complete_each now bells groups held ps still m : invariant m →
  rest ((HParked <$> still) ++ (HParked <$> ps)) m → unparked m →
  sim mstep m (complete_each (E := E) now bells groups held ps still)
    (λ still' m', rest (HParked <$> still') m' ∧ unparked m').
Proof.
  revert held still m. induction ps as [|p ps IH]; intros held still m Hm Hr Hu; cbn [complete_each].
  { apply sim_ret. cbn in Hr. rewrite app_nil_r in Hr. done. }
  eapply sim_bind; [apply (sim_complete_one now bells groups held p (HParked <$> still) (HParked <$> ps)); done |].
  intros [held' stays] m1 S1 [P1 U1]. cbn in *. apply IH; [by eapply invariant_msteps | | done].
  destruct stays as [q|]; cbn in *.
  - destruct P1 as [-> (A1 & A2 & A3)]. split_and!; [| done | done]. rewrite A1, fmap_app. cbn. by rewrite <- app_assoc.
  - by rewrite app_nil_r.
Qed.

Lemma filter_false {A} (l : list A) : List.filter (λ _, negb true) l = [].
Proof. by induction l. Qed.
Lemma filter_true {A} (l : list A) : List.filter (λ _, true) l = l.
Proof. induction l; cbn; by f_equal. Qed.

Lemma sim_complete_parked m : invariant m → at_rest m → sim mstep m (complete_parked (E := E)) (λ _ m', at_rest m').
Proof.
  intros Hm Hr. pose proof Hr as (Hh & Hd & Hlo). unfold complete_parked.
  eapply (sim_bind _ _ _ _ (λ l m', m' = m ∧ l = parked (m_srv m))); [by apply sim_gets |]. intros l m' _ [-> ->].
  case_bool_decide; [by apply sim_other |].
  eapply (sim_bind _ _ _ _ (λ _ m', m' = m)); [by apply sim_asks |]. intros now m' _ ->.
  eapply (sim_bind _ _ _ _ (λ _ m', m' = m)); [by apply sim_gets |]. intros bells m' _ ->.
  eapply (sim_bind _ _ _ _ (λ _ m', m' = m)); [by apply sim_gets |]. intros groups m' _ ->.
  set (m0 := set_srv (set_doorbells ∅ ∅ (m_srv m)) m).
  destruct (hold_all (λ _, true) (parked (m_srv m)) [] m0 eq_refl) as (m1 & S1 & E1 & A1 & A2 & A3 & A4).
  rewrite filter_false in E1. rewrite filter_true in A1. cbn [app] in E1.
  eapply (sim_bind _ _ _ _ (λ _ m', m' = m1)).
  { eapply sim_modify; [eapply rtc_l; [by apply (st_other m (set_doorbells ∅ ∅ (m_srv m))) | exact S1] | exact E1 | exact A4 | done]. }
  intros [] m' S01 ->. eapply (sim_bind _ _ _ _ (λ l m', rest (HParked <$> l) m' ∧ unparked m')).
  { apply sim_complete_each; [by eapply invariant_msteps | | unfold unparked; by rewrite E1]. cbn [m0 set_srv m_srv m_held m_doomed m_loose] in *.
    split_and!; [by rewrite A1, Hh | congruence | congruence]. }
  intros still m2 S2 [(B1 & B2 & B3) U2]. destruct (return_all still m2 B1) as (m3 & S3 & E3 & C1 & C2 & C3 & C4).
  eapply sim_modify; [exact S3 | by rewrite E3, U2 | done |]. split_and!; congruence.
Qed.

(** ** The barrier *)

(** A sync that went through and the removal of its mark are one step. *)
Lemma sim_sync_one {A} p m (k k' : M E A) (post : A → Machine → Prop) : at_rest m →
  (∀ m', at_rest m' → unsynced (m_srv m') = unsynced (m_srv m) ∖ {[p]} → sim mstep m' k post) →
  sim mstep m k' post →
  sim mstep m (let! ok := outside (sync_partition p) in
               if ok : bool then
                 do! modify (λ s, set_unsynced (unsynced s ∖ {[p]}) (sync_failed_passes s) s) in k
               else k') post.
Proof.
  intros Hr Hk Hk' e He. pose proof (agrees_sync p e (m_log m) He) as Ha. unfold mbind' at 1 3 5, outside.
  cbn [fst snd]. destruct (sync_partition p e) as [ok e1]. cbn [fst snd] in Ha. destruct ok; [| exact (Hk' e1 Ha)].
  set (m1 := mk_machine (set_unsynced (unsynced (m_srv m) ∖ {[p]}) (sync_failed_passes (m_srv m)) (m_srv m))
               (m_held m) (m_doomed m) (m_loose m) (m_hist m) (m_log m ++ [CallSynced p])).
  destruct (Hk m1 Hr eq_refl e1 Ha) as (m2 & S2 & P2). exists m2. split; [| exact P2].
  eapply rtc_l; [apply (st_sync m p) | exact S2].
Qed.

(** Syncing every owed partition leaves none owed. *)
Lemma sim_sync_each owed failed m : at_rest m →
  sim mstep m (sync_each (E := E) owed failed)
    (λ b m', at_rest m' ∧ (failed = true → b = true) ∧
      (b = false → unsynced (m_srv m') = unsynced (m_srv m) ∖ list_to_set owed)).
Proof.
  revert failed m. induction owed as [|p owed IH]; intros failed m Hr; cbn [sync_each].
  { apply sim_ret. split; [done |]. split; [done |]. intros _. cbn. set_solver. }
  apply sim_sync_one; [done | |].
  - intros m1 R1 U1. eapply sim_post; [by apply IH |]. intros b m2 _ (R2 & F2 & U2). split_and!; [done | done |].
    intros Hb. rewrite U2, U1 by done. cbn. set_solver.
  - eapply sim_post; [by apply IH |]. intros b m2 S2 (R2 & F2 & U2). split_and!; [done | by intros _; apply F2 |].
    intros ->. by specialize (F2 eq_refl).
Qed.

Lemma sim_sync_before_ack m : at_rest m →
  sim mstep m (sync_before_ack (E := E)) (λ b m', at_rest m' ∧ (b = true → unsynced (m_srv m') = ∅)).
Proof.
  intros Hr. unfold sync_before_ack.
  eapply (sim_bind _ _ _ _ (λ b m', m' = m ∧ b = bool_decide (unsynced (m_srv m) = ∅))); [by apply sim_gets |].
  intros none m' _ [-> ->]. case_bool_decide as Hu.
  { eapply (sim_bind _ _ _ _ (λ _ m', at_rest m' ∧ unsynced (m_srv m') = ∅)); [by apply sim_other |].
    intros [] m1 _ P1. by apply sim_ret; split; [| intros _]; apply P1. }
  eapply (sim_bind _ _ _ _ (λ owed m', m' = m ∧ list_to_set owed = unsynced (m_srv m))).
  { apply sim_stay. intros e He. split; [done |]. split; [done |]. split; [done |]. cbn.
    rewrite part_order_perm. apply list_to_set_elements_L. }
  intros owed m' _ [-> Ho]. eapply sim_bind; [by apply sim_sync_each |].
  intros failed m1 _ (R1 & _ & U1). destruct failed; cbn [negb].
  - eapply (sim_bind _ _ _ _ (λ _ m', at_rest m')); [by apply sim_other |]. intros [] m2 _ P2. by apply sim_ret.
  - eapply (sim_bind _ _ _ _ (λ _ m', at_rest m' ∧ unsynced (m_srv m') = ∅)).
    { apply sim_other; [done |]. split; [done |]. cbn. rewrite U1, Ho by done. set_solver. }
    intros [] m2 _ [P2 U2]. by apply sim_ret.
Qed.

Lemma sim_flush_one id m : at_rest m → invariant m → sim mstep m (flush_one (E := E) id) (λ _ m', at_rest m').
Proof.
  intros Hr Hm. pose proof Hr as (Hh & Hd & Hlo). unfold flush_one.
  eapply (sim_bind _ _ _ _ (λ ok m', m_held m' = [] ∧ m_loose m' = None ∧ m_doomed m' = if ok : bool then ∅ else {[id]})).
  - apply sim_with_conn; [done |]. intros c Hc. assert (live m id c) as Hl by (split; [done | rewrite Hd; set_solver]).
    destruct (flush_unless_held c) as [ok c'] eqn:Ef. cbn. destruct ok.
    + exists (put id c' m). split; [by apply rtc_once, (st_flush m id c c') | done].
    + destruct (last_writes_held _ _ _ Ef) as (Hw & Hcl & Ei). exists (doom id c' m).
      split; [apply (doom_steps m id c c'); [done | lia | | done | by left] |].
      * rewrite Ei. by eapply minv_sent; [| apply Hl].
      * split; [done |]. cbn. rewrite Hd. split_and!; [done | done | done | set_solver].
  - intros ok m1 _ (I1 & I2 & I3). destruct ok; [by apply sim_ret |].
    apply (sim_drops [id]); [done | done |]. rewrite I3. set_solver.
Qed.

Lemma sim_flush_each ids m : at_rest m → invariant m → sim mstep m (flush_each (E := E) ids) (λ _ m', at_rest m').
Proof.
  revert m. induction ids as [|id ids IH]; intros m Hr Hm; cbn [flush_each]; [by apply sim_ret |].
  eapply sim_bind; [by apply sim_flush_one |]. intros [] m1 S1 P1. apply IH; [done | by eapply invariant_msteps].
Qed.

Lemma sim_flush_all m : at_rest m → invariant m → sim mstep m (flush_all (E := E)) (λ _ m', at_rest m').
Proof.
  intros Hr Hm. unfold flush_all. eapply (sim_bind _ _ _ _ (λ _ m', m' = m)).
  { by apply sim_stay. }
  intros ids m' _ ->. by apply sim_flush_each.
Qed.

(** ** Accepting *)

(** A connection comes with nothing read from it and nothing written to it. *)
Definition fresh_event (e : AcceptEvent) : Prop :=
  match e with AConnection st _ => st_received st = [] ∧ st_sent st = [] | _ => True end.

Lemma sim_accept_new events m : at_rest m → Forall fresh_event events → 0 ≤ next_id (m_srv m) →
  next_id (m_srv m) + Z.of_nat (length events) < 2 ^ 31 →
  sim mstep m (accept_new (E := E) events) (λ _ m', at_rest m').
Proof.
  revert m. induction events as [|e events IH]; intros m Hr Hf Hz Hn; cbn [accept_new].
  { eapply (sim_bind _ _ _ _ (λ _ m', m' = m)); [by apply sim_gets |]. intros [] m' _ ->; by apply sim_ret. }
  apply Forall_cons in Hf as [Hfe Hf]. cbn [length] in Hn.
  eapply (sim_bind _ _ _ _ (λ b m', m' = m ∧ b = (MAX_CONNECTIONS <=? Z.of_nat (size (conns (m_srv m))))));
    [by apply sim_gets |]. intros full m' _ [-> ->].
  destruct (Z.leb_spec MAX_CONNECTIONS (Z.of_nat (size (conns (m_srv m))))); [by apply sim_ret |].
  destruct e as [st addr| | |]; try (by apply sim_ret); try (apply IH; [done | done | done | lia]).
  eapply (sim_bind _ _ _ _ (λ _ m', m' = m)); [by apply sim_asks |]. intros now m' _ ->. destruct Hfe as [F1 F2].
  assert (wrap_i 32 (next_id (m_srv m) + 1) = next_id (m_srv m) + 1) as Ew by (apply wrap_i_small; lia).
  eapply (sim_bind _ _ _ _ (λ _ m', at_rest m' ∧ next_id (m_srv m') = next_id (m_srv m) + 1)).
  - eapply sim_modify; [apply rtc_once, (st_accept m now st addr); try done; lia | cbn; by rewrite Ew | done | done].
  - intros [] m1 _ [R1 N1]. apply IH; [done | done | lia | lia].
Qed.

(** ** A pass *)

#[local] Ltac rest_step := first
  [ by apply sim_ret | by apply sim_other | by apply sim_outside_
  | match goal with |- sim _ ?m (mbind' _ _) _ =>
      eapply (sim_bind _ _ _ _ (λ _ m', m' = m)); [by first [apply sim_gets | apply sim_asks | apply sim_outside] |];
      let a := fresh "a" in intros a ? _ -> end
  | match goal with |- sim _ _ (if ?b then _ else _) _ => destruct b end
  | match goal with |- sim _ _ (match ?b with _ => _ end) _ => destruct b end ].

Lemma sim_expire_groups m : at_rest m → sim mstep m (expire_group_members (E := E)) (λ _ m', at_rest m').
Proof. intros Hr. unfold expire_group_members. repeat rest_step. Qed.

Lemma sim_expire_producers m : at_rest m → sim mstep m (expire_producer_state (E := E)) (λ _ m', at_rest m').
Proof. intros Hr. unfold expire_producer_state. repeat rest_step. Qed.

Lemma sim_expire_consumers m : at_rest m → sim mstep m (expire_consumer_group_members (E := E)) (λ _ m', at_rest m').
Proof. intros Hr. unfold expire_consumer_group_members. repeat rest_step. Qed.

Lemma sim_expire_shares m : at_rest m → sim mstep m (expire_share_group_state (E := E)) (λ _ m', at_rest m').
Proof. intros Hr. unfold expire_share_group_state. repeat rest_step. Qed.

Lemma sim_quotas m : at_rest m → sim mstep m (sweep_quota_tables (E := E)) (λ _ m', at_rest m').
Proof. intros Hr. unfold sweep_quota_tables. repeat rest_step. Qed.

Lemma sim_retention m : at_rest m → sim mstep m (enforce_retention (E := E)) (λ _ m', at_rest m').
Proof. intros Hr. unfold enforce_retention. repeat rest_step. Qed.

Lemma sim_drop_unauthenticated m : at_rest m → sim mstep m (drop_unauthenticated (E := E)) (λ _ m', at_rest m').
Proof.
  intros Hr. unfold drop_unauthenticated. do 2 rest_step. destruct (_ || _); [by apply sim_ret |]. rest_step.
  eapply (sim_bind _ _ _ _ (λ _ m', m' = m)); [by apply sim_stay |].
  intros ids m' _ ->. destruct Hr as (Hh & Hd & Hlo). apply sim_drops; [done | done |]. rewrite Hd. set_solver.
Qed.

(** One stage of a pass after another. *)
Lemma sim_then {A B} m (f : M E A) (k : A → M E B) (post : B → Machine → Prop) : invariant m →
  sim pstep m f (λ _, at_rest) → (∀ a m', invariant m' → at_rest m' → sim pstep m' (k a) post) →
  sim pstep m (mbind' f k) post.
Proof.
  intros Hm Hf Hk. eapply sim_bind; [exact Hf |]. intros a m' S' R'. apply Hk; [by eapply invariant_psteps | done].
Qed.

Lemma sim_quiet {A} m (f : M E A) (post : A → Machine → Prop) : sim mstep m f post → sim pstep m f post.
Proof. intros Hf. eapply sim_mono; [intros; by left | exact Hf | done]. Qed.

Lemma sim_release_acks m b : at_rest m → (b = true → unsynced (m_srv m) = ∅) →
  sim (E := E) mstep m (if b : bool then modify release_acks else mret tt) (λ _, at_rest).
Proof.
  intros Hr Hu. destruct b; [| by apply sim_ret].
  eapply sim_modify; [by apply rtc_once, st_release_acks, Hu | done | done | done].
Qed.

Lemma sim_pass_flush m : invariant m → at_rest m → sim mstep m (pass_flush (E := E)) (λ _, at_rest).
Proof.
  intros Hm Hr. unfold pass_flush. eapply sim_bind; [by apply sim_sync_before_ack |]. intros b m1 S1 [R1 U1].
  eapply sim_bind; [by apply sim_release_acks |]. intros [] m2 S2 R2.
  apply sim_flush_all; [done |]. eapply invariant_msteps; [| exact S2]. by eapply invariant_msteps.
Qed.

(** What a pass takes from the listener: new connections, while there are ids. *)
Definition listener_ok (s : Server) (listener : list AcceptEvent) : Prop :=
  Forall fresh_event listener ∧ 0 ≤ next_id s ∧ next_id s + Z.of_nat (length listener) < 2 ^ 31.

Lemma sim_pass m listener : invariant m → at_rest m → listener_ok (m_srv m) listener →
  sim pstep m (pass (E := E) listener) (λ _, at_rest).
Proof.
  intros Hm Hr (Hf & Hz & Hn). unfold pass, pass_serve.
  eapply (sim_bind _ _ _ _ (λ _, at_rest)); [| intros [] m1 S1 R1; apply sim_quiet, sim_pass_flush;
    [by eapply invariant_psteps | done]].
  eapply (sim_bind _ _ _ _ (λ _ m', at_rest m' ∧ next_id (m_srv m') = next_id (m_srv m))).
  { apply sim_quiet. unfold refresh_acls. repeat rest_step. }
  intros [] m1 S1 [R1 N1]. pose proof (invariant_psteps _ _ Hm S1) as Hm1.
  apply sim_then; [done | by apply sim_quiet, sim_accept_new; rewrite ?N1 |]. clear m Hm Hr Hz Hn m1 S1 R1 N1 Hm1.
  intros [] m Hm Hr. apply sim_then; [done | by apply sim_quiet, sim_retry_parked |]. clear m Hm Hr.
  intros [] m Hm Hr. apply sim_then; [done | by apply sim_poll_connections |]. clear m Hm Hr.
  intros [] m Hm Hr. apply sim_then; [done | by apply sim_quiet, sim_drop_unauthenticated |]. clear m Hm Hr.
  intros [] m Hm Hr. apply sim_then; [done | by apply sim_quiet, sim_expire_groups |]. clear m Hm Hr.
  intros [] m Hm Hr. apply sim_then; [done | by apply sim_quiet, sim_expire_producers |]. clear m Hm Hr.
  intros [] m Hm Hr. apply sim_then; [done | by apply sim_quiet, sim_expire_consumers |]. clear m Hm Hr.
  intros [] m Hm Hr. apply sim_then; [done | by apply sim_quiet, sim_expire_shares |]. clear m Hm Hr.
  intros [] m Hm Hr. apply sim_then; [done | by apply sim_quiet, sim_quotas |]. clear m Hm Hr.
  intros [] m Hm Hr. apply sim_then; [done | by apply sim_quiet, sim_retention |]. clear m Hm Hr.
  intros [] m Hm Hr. by apply sim_quiet, sim_complete_parked.
Qed.

End Loop.
