(* ===== verification/ServerToy.v ===== *)
(** * A small host

    An instance of the interface the event loop is proved against: a clock, settings,
    handlers that answer at once and a disk that may refuse to sync.  The examples of
    ServerTheorems.v run the loop on it. *)

From stdpp Require Import gmap strings.
From S2P Require Import Prelude Errors Primitives Framing Header Acl Group Txn Produce Fetch Sasl ServerConn Server ServerPass.

#[local] Open Scope Z_scope.

Record Toy : Type := mk_toy {
  ty_clock : Z;
  ty_sasl : bool;
  ty_synced : bool;
  ty_appended : list (Z * Z) }.

Definition empty_body : Body := mk_body 0 (Ok []).

#[export] Instance toy_host : Host Toy := {
  clock := ty_clock;
  conn_order := λ s _, elements s;
  part_order := λ s _, elements s;
  sasl_required := ty_sasl;
  fsync_before_ack := λ _, true;
  max_request_bytes := λ _, 1048576;
  retention_check_ticks := λ _, 100;
  principal_from_cert := λ _, None;
  sha256 := λ b, b;
  hmac256 := λ _ b, b;
  b64_encode := λ b, b;
  b64_decode := Some;
  decode_fetch := λ _ _, Ok (mk_fetch_ask (Fetching.mk_fetch 0 0 []) 1 500);
  decode_join := λ _ _, Err InvalidUtf8;
  decode_sync := λ _ _, Ok (mk_sync_ask "g" "m" 1 []);
  decode_handshake := λ _ b, Ok b;
  decode_authenticate := λ _ b, Ok b;
  decode_member := λ _ _ _, None;
  encode_api_versions := λ _ _, empty_body;
  encode_produce := λ _ _ _, empty_body;
  encode_fetch := λ _ _ _, empty_body;
  encode_join := λ _ _, empty_body;
  encode_sync := λ _ _, empty_body;
  encode_handshake := λ _ _, empty_body;
  encode_authenticate := λ _ _ _, empty_body;
  run_produce := λ _ _ _ _ _ e, (Ok (mk_outcome (Some []) (ty_appended e) 0), e);
  run_fetch := λ _ _ _ _ e, (Ok ([], []), e);
  run_join := λ _ _ _ _ _ _ e, (Err Busy, e);
  run_sync := λ _ _ _ e, (Ok SyncPark, e);
  run_leave := λ _ _ _ e, (Ok ("g"%string, empty_body), e);
  run_handler := λ _ _ _ e, (Err Busy, e);
  run_parked_join := λ _ _ _ e, (Ok None, e);
  run_parked_sync := λ _ _ e, (Ok None, e);
  sasl_tx := λ e, (Err Busy, e);
  sync_partition := λ _ e, (ty_synced e, e);
  charge_quota := λ _ _ _ _ e, (0, e);
  load_acls := λ e, (Err Busy, e);
  sweep_groups := λ _ e, (Ok [], e);
  sweep_producers := λ e, (Ok 0, e);
  sweep_consumer_members := λ _ e, e;
  sweep_share_state := λ _ e, e;
  sweep_quotas := λ e, e;
  sweep_retention := λ _ e, (Ok 0, e);
  raise_leader_epochs := λ e, (true, e);
  reconcile_markers := λ e, (true, e) }.

#[export] Instance toy_laws : HostLaws Toy.
Proof. by split. Qed.

(** ** A run *)

Definition toy (now : Z) (sasl : bool) : Toy := mk_toy now sasl true [].
Definition no_rules : AclCache := mk_cache [] (Some 0) false [].
Definition empty_server : Server := mk_server ∅ 0 [] ∅ ∅ 0 false 0 no_rules ∅ 0 0 false 0 0.

(** ApiVersions 0, correlation id 7, no client id. *)
Definition versions_request : bytes :=
  [x00; x00; x00; x0a; x00; x12; x00; x00; x00; x00; x00; x07; xff; xff]%byte.
(** DescribeGroups 0, correlation id 8, no client id, no groups. *)
Definition groups_request : bytes :=
  [x00; x00; x00; x0e; x00; x0f; x00; x00; x00; x00; x00; x08; xff; xff; x00; x00; x00; x00]%byte.

(** A peer whose two requests are read a few bytes at a time and whose socket takes
    [ws]. *)
Definition client (ws : list WriteEvent) : Stream :=
  mk_stream (versions_request ++ groups_request) (replicate 20 (RGive 5)) ws [] false None [] [].

Definition open_gate : Gate := mk_gate 0 true true false.
Definition served_once (ws : list WriteEvent) : Server :=
  (round 10 [AConnection (client ws) "10.0.0.1:5"] open_gate (empty_server, toy 1 false)).2.1.

(** Produce 3, correlation id 7, then three handshakes for an unknown mechanism. *)
Definition bad_handshakes : bytes :=
  [x00; x00; x00; x0a; x00; x00; x00; x03; x00; x00; x00; x07; xff; xff]%byte ++
  concat (replicate 3 [x00; x00; x00; x0a; x00; x11; x00; x01; x00; x00; x00; x08; xff; xff]%byte).

(** Accept a peer, read what it sent and serve it; the produce appends to partition 0
    of topic 1, which cannot be synced. *)
Definition bad_client : Stream :=
  mk_stream bad_handshakes (replicate 20 (RGive 64)) [WAccept 64] [] false None [] [].
Definition serve_bad_client : bool * (Server * Toy) :=
  (do! accept_new [AConnection bad_client "10.0.0.1:5"] in
   let! t := gets (totals_of 1048576) in
   let! _ := with_conn 1 None (read_conn 1048576 1 t) in
   serve_frames 1) (empty_server, mk_toy 1 false false [(1, 0)]).
