(* ===== verification/ServerParked.v ===== *)
(** * Parked requests end

    The deadlines of parked requests: what a look at them may leave parked.  Requests
    are parked to be retried by [serve_request] only, never by a handler, so that a
    retry whose deadline has passed is gone after [retry_parked]. *)

From stdpp Require Import gmap strings.
From S2P Require Import Prelude Errors Primitives Framing Header Acl Group Txn Produce Fetch Sasl ServerConn Server.

#[local] Open Scope Z_scope.

Section Parked.
Context {E : Type} {H : Host E}.

(** ** Computations that park nothing to be retried *)

Definition no_retries {A} (f : Server * E → A * (Server * E)) : Prop :=
  ∀ w p, p ∈ parked (f w).2.1 → is_retry (pk_waiting p) = true → p ∈ parked w.1.

Lemma no_retries_still {A} (f : Server * E → A * (Server * E)) : (∀ w, parked (f w).2.1 = parked w.1) → no_retries f.
Proof. intros Hf w p. by rewrite Hf. Qed.

Lemma no_retries_then {A B} (f : M E A) (k : A → M E B) :
  no_retries f → (∀ a, no_retries (k a)) → no_retries (mbind' f k).
Proof.
  intros Hf Hk w p. unfold mbind'. pose proof (Hf w p). destruct (f w) as [a w1]. intros Hp Hw.
  apply H0; [by apply (Hk a w1 p) | done].
Qed.

Lemma no_retries_try {A B} (f : ST (Server * E) HandlerError A) (k : A → ST (Server * E) HandlerError B) :
  no_retries f → (∀ a, no_retries (k a)) → no_retries (bind f k).
Proof.
  intros Hf Hk w p. unfold bind. pose proof (Hf w p) as Hw. destruct (f w) as [[a|x] w1]; cbn in *; [| done].
  intros Hp Hr. apply Hw; [by apply (Hk a w1 p) | done].
Qed.

Lemma no_retries_lift {A} (f : M E A) : no_retries f → no_retries (lift f).
Proof. intros Hf w p. unfold lift. pose proof (Hf w p). by destruct (f w) as [a w1]. Qed.

Lemma no_retries_modify (f : Server → Server) : (∀ s, parked (f s) = parked s) → no_retries (modify f).
Proof. intros Hf. apply no_retries_still. intros w. apply Hf. Qed.

Lemma no_retries_outside {A} (f : E → A * E) : no_retries (outside f).
Proof. apply no_retries_still. intros [s e]. unfold outside. cbn. by destruct (f e). Qed.

Lemma no_retries_authz {A} c (f : AclCache → Principal → E → result HandlerError A * E) :
  no_retries (with_authz c f).
Proof. apply no_retries_still. intros [s e]. unfold with_authz. cbn. by destruct (f _ _ e). Qed.

Lemma no_retries_codec {A} (r : result CodecError A) : no_retries (of_codec r).
Proof. apply no_retries_still. intros w. unfold of_codec. by destruct r. Qed.

Lemma no_retries_park c deadline w : is_retry w = false → no_retries (park c deadline w).
Proof.
  intros Hw s p. unfold park, mbind', modify, mret. cbn. rewrite elem_of_app, list_elem_of_singleton.
  intros [?| ->]; [done |]. cbn. congruence.
Qed.

#[local] Ltac parks := repeat first
  [ progress intros
  | apply no_retries_try | apply no_retries_then | apply no_retries_lift | apply no_retries_authz
  | apply no_retries_codec | apply no_retries_outside | by apply no_retries_park
  | apply no_retries_modify; done
  | match goal with |- no_retries (if ?b then _ else _) => destruct b end
  | match goal with |- no_retries (match ?x with _ => _ end) => destruct x end
  | by apply no_retries_still ].

Lemma no_retries_reply c body : no_retries (reply c body).
Proof. unfold reply. parks. Qed.

Lemma no_retries_charge rate id client n : no_retries (charge rate id client n).
Proof. unfold charge. parks. Qed.

Lemma no_retries_dispatch req id seq : no_retries (dispatch req id seq).
Proof.
  unfold dispatch, serve_produce, serve_fetch, serve_join_group, serve_sync_group, serve_sasl_handshake,
    serve_sasl_authenticate, serve_leave_group.
  parks; try apply no_retries_reply; try apply no_retries_charge.
  all: apply no_retries_still; intros [s e]; cbn; by destruct (sasl_tx e).
Qed.

(** ** Retries *)

Lemma no_retries_drop id : no_retries (modify (drop_conn id)).
Proof. intros w p. cbn. intros [Hp _]%list_elem_of_In%filter_In. by rewrite list_elem_of_In. Qed.

Lemma no_retries_retry now held p : no_retries (retry_one now held p).
Proof.
  unfold retry_one. parks; try apply no_retries_dispatch; apply no_retries_drop.
Qed.

(** A retry that stays parked has time left. *)
Lemma retry_one_stays now held p w q : (retry_one now held p w).1.2 = Some q → q = p ∧ now < pk_deadline p.
Proof.
  unfold retry_one, mbind', gets. cbn. destruct (negb _); [done |].
  destruct (Z.leb_spec (pk_deadline p) now) as [Hd|Hd]; cbn.
  - rewrite andb_false_r. destruct (pk_waiting p); try done.
    destruct (dispatch _ _ _ w) as [[[]|[]] w1]; cbn; by intros [=].
  - destruct (held && true); [by intros [= <-] |]. destruct (pk_waiting p); try done.
    destruct (dispatch _ _ _ w) as [[[]|[]] w1]; cbn; by intros [= <-].
Qed.

Lemma retry_each_stay now held ps still w p : p ∈ (retry_each now held ps still w).1 → p ∈ still ∨ now < pk_deadline p.
Proof.
  revert held still w. induction ps as [|q ps IH]; intros held still w; cbn [retry_each]; [by left |].
  unfold mbind'. pose proof (retry_one_stays now held q w) as Hq.
  destruct (retry_one now held q w) as [[held' stays] w1]. cbn in Hq. intros Hp.
  destruct (IH _ _ _ Hp) as [[?|Ht]%elem_of_app|?]; [by left | | by right]. right.
  destruct stays as [q'|]; cbn in Ht; [| set_solver]. apply list_elem_of_singleton in Ht as ->.
  by destruct (Hq q' eq_refl) as [-> ?].
Qed.

Lemma no_retries_each now held ps still : no_retries (retry_each now held ps still).
Proof.
  revert held still. induction ps as [|q ps IH]; intros held still; cbn [retry_each]; [by apply no_retries_still |].
  apply no_retries_then; [apply no_retries_retry |]. intros [held' stays]. apply IH.
Qed.

(** ** Requests that wait for something else *)

(** How long past its deadline a request may stay parked. *)
Definition outlived (now : Z) (p : Parked) : Prop :=
  match pk_waiting p with
  | WFetch _ _ _ | WSync _ _ => pk_deadline p + MAX_LOCK_RETRY ≤ now
  | WJoin _ _ | WRetry _ => False
  end.

Lemma complete_one_stays now bells groups held p w q :
  (complete_one now bells groups held p w).1.2 = Some q → q = p ∧ ¬ outlived now p.
Proof.
  unfold complete_one, mbind', gets, outlived. cbn. destruct (negb (bool_decide _)); [done |].
  destruct (Z.ltb_spec now (pk_deadline p + MAX_LOCK_RETRY)) as [Hm|Hm].
  { intros Hq. assert (q = p) as ->; [| split; [done |]; destruct (pk_waiting p); lia].
    destruct (_ || _); [by injection Hq |]. destruct (_ && _); [by injection Hq |].
    destruct (look_again now p w) as [[] w1]; cbn in Hq; try done; try by injection Hq.
    by destruct (encode_parked p body). }
  rewrite (proj2 (Z.leb_le (pk_deadline p) now)) by (unfold MAX_LOCK_RETRY in Hm; lia).
  cbn [negb andb]. rewrite orb_false_r. unfold look_again.
  destruct (pk_waiting p) eqn:Ew; cbn [is_retry]; [.. | intros Hq; injection Hq as <-; tauto]; cbv beta; rewrite andb_false_r.
  - unfold parked_fetch, mbind'. cbn.
    rewrite (proj2 (Z.leb_le (pk_deadline p) now)), (proj2 (Z.ltb_ge now _)) by (unfold MAX_LOCK_RETRY in *; lia).
    destruct (with_authz _ _ w) as [[[fb fw]|[]] w1]; cbn; try done.
    destruct (charge _ _ _ _ w1) as [th w2]. cbn. by destruct (encode_parked p _).
  - destruct (parked_join_again now p group_id member_id w) as [[] w1]; cbn; try (intros Hq; injection Hq as <-; tauto); [done |].
    by destruct (encode_parked p body).
  - unfold parked_sync_again, mbind'. cbn.
    rewrite (proj2 (Z.leb_le (pk_deadline p) now)), (proj2 (Z.ltb_ge now _)) by (unfold MAX_LOCK_RETRY in *; lia).
    destruct (outside _ w) as [[[b|]|[]] w1]; cbn; try done; by destruct (encode_parked p _).
Qed.

Lemma complete_each_stay now bells groups held ps still w p :
  p ∈ (complete_each now bells groups held ps still w).1 → p ∈ still ∨ (p ∈ ps ∧ ¬ outlived now p).
Proof.
  revert held still w. induction ps as [|q ps IH]; intros held still w; cbn [complete_each]; [by left |].
  unfold mbind'. pose proof (complete_one_stays now bells groups held q w) as Hq.
  destruct (complete_one now bells groups held q w) as [[held' stays] w1]. cbn in Hq. intros Hp.
  destruct (IH _ _ _ Hp) as [[?|Ht]%elem_of_app|[??]]; [by left | | right; split; [by right | done]]. right.
  destruct stays as [q'|]; cbn in Ht; [| set_solver]. apply list_elem_of_singleton in Ht as ->.
  destruct (Hq q' eq_refl) as [-> ?]. split; [by left | done].
Qed.

(** C32. No request stays parked for ever: after [retry_parked] a request that waits for
    table locks has time left, and after [complete_parked] a fetch or a sync is at most
    [MAX_LOCK_RETRY] past its deadline; nothing new was parked.  (A join stays until its
    group settles.) *)
Theorem parked_requests_end s (e : E) p :
  (p ∈ parked (retry_parked (s, e)).2.1 ∧ is_retry (pk_waiting p) = true → clock e < pk_deadline p) ∧
  (p ∈ parked (complete_parked (s, e)).2.1 → p ∈ parked s ∧ ¬ outlived (clock e) p).
Proof.
  split.
  - unfold retry_parked, mbind', gets, asks, modify. cbn.
    destruct (existsb _ (parked s)) eqn:Ex; cbn.
    2:{ intros [Hp Hr]. apply not_true_iff_false in Ex. destruct Ex. apply existsb_exists. exists p.
        by rewrite <- list_elem_of_In. }
    set (s1 := set_parked _ s). set (l := List.filter _ (parked s)).
    pose proof (retry_each_stay (clock e) (clock e <? retry_at s1) l [] (s1, e) p) as Hs.
    pose proof (no_retries_each (clock e) (clock e <? retry_at s1) l [] (s1, e) p) as Hn.
    destruct (retry_each _ _ l [] (s1, e)) as [still [s2 e2]]. cbn in *. intros [[Hp|Hp]%elem_of_app Hr].
    + specialize (Hn Hp Hr). apply list_elem_of_In, filter_In in Hn as [_ Hn]. by rewrite Hr in Hn.
    + destruct (Hs Hp) as [?|?]; [set_solver | done].
  - unfold complete_parked, mbind', gets, asks, modify. cbn. case_bool_decide as Hb; cbn.
    { rewrite Hb. set_solver. }
    match goal with |- context [complete_each ?now ?b ?g ?h ?ps ?st ?w] =>
      pose proof (complete_each_stay now b g h ps st w p) as Hs; destruct (complete_each now b g h ps st w) as [still w2] end.
    cbn in *. intros Hp. destruct (Hs Hp) as [?|?]; [set_solver | done].
Qed.

End Parked.
