(* ===== verification/ServerTheorems.v ===== *)
(** * What the event loop guarantees

    [reachable s]: the event loop can be in state [s] at the end of a round, from an
    empty server, whatever the handlers, the clock and the peers do in between.  Every
    such state is the state of a machine (ServerInv.v) that ran from the empty one,
    so the invariant of ServerStep.v holds of it.

    [recorded s log]: likewise, in surroundings that write down the calls the loop makes
    of the produce handler and of the sync, with what they returned; [log] is what they
    wrote.  Since the loop is proved for any surroundings, these are the calls it makes. *)

From stdpp Require Import gmap strings.
From S2P Require Import Prelude Errors Primitives Apis Framing Header Acl Group Txn Produce Fetch Sasl ServerConn ServerInbound Server ServerInv ServerStep ServerRefine ServerPass ServerLoop ServerToy.

#[local] Open Scope Z_scope.

(** ** States of the loop *)

Definition boot (s : Server) : Prop :=
  conns s = ∅ ∧ parked s = [] ∧ unsynced s = ∅ ∧ next_id s = 0.
Definition boot_machine (s : Server) : Machine := mk_machine s [] ∅ None ∅ [].

(** ** Surroundings that record the calls made of them *)

Definition Recorded (E : Type) : Type := E * list Call.
Definition on_env {E A} (f : E → A * E) (w : Recorded E) : A * Recorded E :=
  let '(a, e) := f w.1 in (a, (e, w.2)).

Section Recording.
Context {E : Type} {H : Host E}.

Definition record_produce (id s : Z) (req : Request) (a : AclCache) (who : Principal) (w : Recorded E)
    : result HandlerError ProduceOutcome * Recorded E :=
  let '(r, e) := run_produce id s req a who w.1 in
  (r, (e, match r with
          | Ok o => w.2 ++ [CallProduce id s req (po_appended o) (fsync_before_ack e)
                              (bool_decide (is_Some (po_response o)))]
          | Err _ => w.2
          end)).

Definition record_sync (p : Z * Z) (w : Recorded E) : bool * Recorded E :=
  let '(ok, e) := sync_partition p w.1 in (ok, (e, if ok : bool then w.2 ++ [CallSynced p] else w.2)).

#[global] Instance recording : Host (Recorded E) := {
  clock := λ w, clock w.1;
  conn_order := λ s w, conn_order s w.1;
  part_order := λ s w, part_order s w.1;
  sasl_required := λ w, sasl_required w.1;
  fsync_before_ack := λ w, fsync_before_ack w.1;
  max_request_bytes := λ w, max_request_bytes w.1;
  retention_check_ticks := λ w, retention_check_ticks w.1;
  principal_from_cert := principal_from_cert;
  sha256 := sha256;
  hmac256 := hmac256;
  b64_encode := b64_encode;
  b64_decode := b64_decode;
  decode_fetch := decode_fetch;
  decode_join := decode_join;
  decode_sync := decode_sync;
  decode_handshake := decode_handshake;
  decode_authenticate := decode_authenticate;
  decode_member := decode_member;
  encode_api_versions := encode_api_versions;
  encode_produce := encode_produce;
  encode_fetch := encode_fetch;
  encode_join := encode_join;
  encode_sync := encode_sync;
  encode_handshake := encode_handshake;
  encode_authenticate := encode_authenticate;
  run_produce := record_produce;
  run_fetch := λ q a who b, on_env (run_fetch q a who b);
  run_join := λ q v c from a who, on_env (run_join q v c from a who);
  run_sync := λ q a who, on_env (run_sync q a who);
  run_leave := λ q a who, on_env (run_leave q a who);
  run_handler := λ q a who, on_env (run_handler q a who);
  run_parked_join := λ b g m, on_env (run_parked_join b g m);
  run_parked_sync := λ g m, on_env (run_parked_sync g m);
  sasl_tx := on_env sasl_tx;
  sync_partition := record_sync;
  charge_quota := λ r who c n, on_env (charge_quota r who c n);
  load_acls := on_env load_acls;
  sweep_groups := λ ms, on_env (sweep_groups ms);
  sweep_producers := on_env sweep_producers;
  sweep_consumer_members := λ ms w, (sweep_consumer_members ms w.1, w.2);
  sweep_share_state := λ ms w, (sweep_share_state ms w.1, w.2);
  sweep_quotas := λ w, (sweep_quotas w.1, w.2);
  sweep_retention := λ n, on_env (sweep_retention n);
  raise_leader_epochs := on_env raise_leader_epochs;
  reconcile_markers := on_env reconcile_markers }.

Lemma on_env_log {A} (f : E → A * E) w l : w.2 = l → (on_env f w).2.2 = l.
Proof. unfold on_env. by destruct (f w.1). Qed.

(** They agree with what they wrote. *)
#[global] Instance recording_ledger : Ledger (Recorded E).
Proof.
  refine {| agrees := λ w l, w.2 = l |}; try (intros; by apply on_env_log); try done.
  - intros id s req a who w l <-. cbn. unfold record_produce. by destruct (run_produce id s req a who w.1) as [[] e].
  - intros p w l <-. cbn. unfold record_sync. by destruct (sync_partition p w.1) as [[] e].
Defined.

(** Nothing need be written down. *)
Definition no_ledger : Ledger E.
Proof. by refine {| agrees := λ _ _, True |}. Defined.

End Recording.

#[global] Instance recording_laws {E} `{HostLaws E} : HostLaws (Recorded E).
Proof. split; intros s w; [exact (conn_order_perm (E := E) s w.1) | exact (part_order_perm (E := E) s w.1)]. Qed.

Section Loop.
Context {E : Type} `{HostLaws E}.

(** Between rounds the peers send and the sockets become ready. *)
Inductive reachable : Server → Prop :=
| rc_boot s : boot s → reachable s
| rc_world s id c st : reachable s → conns s !! id = Some c → stream_moves (stream c) st →
    reachable (put_conn id (set_stream st c) s)
| rc_round s tick_ms listener g (e : E) : reachable s → Forall fresh_event listener →
    next_id s + Z.of_nat (length listener) < 2 ^ 31 → reachable (round tick_ms listener g (s, e)).2.1.

(** As [reachable], with the calls written down.  Between rounds the database may become
    anything; what was written stays. *)
Inductive recorded : Server → list Call → Prop :=
| rd_boot s : boot s → recorded s []
| rd_world s log id c st : recorded s log → conns s !! id = Some c → stream_moves (stream c) st →
    recorded (put_conn id (set_stream st c) s) log
| rd_round s log tick_ms listener g (e : E) : recorded s log → Forall fresh_event listener →
    next_id s + Z.of_nat (length listener) < 2 ^ 31 →
    let w := (round (E := Recorded E) tick_ms listener g (s, (e, log))).2 in recorded w.1 w.2.2.

End Loop.

Section Loop.
Context {E : Type} `{HostLaws E} `{!Ledger E}.

Lemma sim_round m tick_ms listener g : invariant m → at_rest m → listener_ok (m_srv m) listener →
  sim pstep m (round (E := E) tick_ms listener g) (λ _, at_rest).
Proof.
  intros Hm Hr Hl. unfold round. eapply (sim_bind _ _ _ _ (λ _ m', m' = m)); [by apply sim_asks |]. intros now m' _ ->.
  cbv zeta.
  eapply (sim_bind _ _ _ _ (λ _ m', at_rest m' ∧ listener_ok (m_srv m') listener)).
  { apply sim_quiet, sim_other; [done |]. split; [done |]. exact Hl. }
  intros [] m1 S1 [R1 L1]. pose proof (invariant_psteps _ _ Hm S1) as Hm1. clear m Hm Hr Hl S1.
  eapply (sim_bind _ _ _ _ (λ _ m', m' = m1)); [by apply sim_gets |]. intros d m' _ ->.
  assert (∀ x, Quiet x → sim pstep m1 (if d : bool then outside (E := E) x else mret false) (λ _ m', m' = m1)) as Hx.
  { intros x ?. destruct d; [by apply sim_outside | by apply sim_ret]. }
  destruct (gt_epochs_ready g); cbn [negb].
  2:{ eapply sim_bind; [by apply Hx |]. intros ok m' _ ->. by apply sim_ret. }
  destruct (gt_markers_reconciled g); cbn [negb].
  2:{ eapply sim_bind; [by apply Hx |]. intros ok m' _ ->. by apply sim_ret. }
  eapply (sim_bind _ _ _ _ (λ _ m', m' = m1)); [by apply sim_gets |]. intros before m' _ ->.
  eapply sim_bind; [by apply sim_pass |]. intros [] m2 _ R2.
  eapply (sim_bind _ _ _ _ (λ _, at_rest)); [by apply sim_gets |]. intros after m3 _ R3. by apply sim_ret.
Qed.

End Loop.

(** ** Ids and the number of connections *)

Definition counted (m : Machine) : Prop :=
  0 ≤ next_id (m_srv m) ∧ Z.of_nat (size (conns (m_srv m))) ≤ MAX_CONNECTIONS.

Lemma size_put id c c' (m : gmap Z Conn) : m !! id = Some c → size (<[id := c']> m) = size m.
Proof. intros Hc. by rewrite map_size_insert, Hc. Qed.

Lemma counted_put m id c c' : counted m → m_conn m id = Some c → counted (put id c' m).
Proof. intros [H1 H2] Hc. split; [done |]. cbn. by rewrite (size_put id c). Qed.

Lemma counted_fields m m' : next_id (m_srv m') = next_id (m_srv m) →
  size (conns (m_srv m')) = size (conns (m_srv m)) → counted m → counted m'.
Proof. unfold counted. by intros -> ->. Qed.

Lemma counted_loosened h m : counted m → counted (loosened h m).
Proof. unfold loosened. by destruct (h_retry h). Qed.

Lemma counted_step m m' : machine_step m m' → counted m → counted m'.
Proof.
  intros [Hs|[Hs|Hs]] Hm; [| destruct Hs as [??????? [Hc _]]; by eapply counted_put
                            | destruct Hs as [???? [Hc _]]; by eapply counted_put].
  destruct Hs; try (match goal with Hl : live _ _ ?c |- _ => destruct Hl as [Hc Hd] end);
    try (by eapply counted_put).
  - destruct H as (E1 & E2 & _). apply (counted_fields m); [done | cbn; by rewrite E1 | done].
  - apply (counted_fields m); [apply produced_fields | cbn | done]. rewrite (produced_conns _ _ _ _ c) by done.
    by apply (size_put _ c).
  - apply counted_loosened. by apply (counted_put m (h_id h) c).
  - by apply counted_loosened.
  - done.
  - done.
  - done.
  - destruct Hm as [H1 H2]. split; [done |]. cbn. rewrite map_size_delete. destruct (_ !! _); cbn; lia.
  - destruct Hm as [H5 H6]. split; [cbn; lia |]. cbn. rewrite map_size_insert. destruct (_ !! _); cbn; lia.
  - done.
  - apply (counted_fields m); [done | cbn; by rewrite map_size_fmap | done].
Qed.

Lemma counted_steps m m' : rtc machine_step m m' → counted m → counted m'.
Proof. induction 1; eauto using counted_step. Qed.

Lemma machine_psteps m m' : rtc pstep m m' → rtc machine_step m m'.
Proof. induction 1 as [|? ? ? [Hs|Hs]]; [constructor | ..]; (eapply rtc_l; [| done]); [by left | by right; left]. Qed.

Lemma boot_invariant s : boot s → invariant (boot_machine s).
Proof.
  intros (H1 & H2 & H3 & H4). unfold m_conn. split; cbn; unfold m_conn, tickets; cbn; rewrite ?H1, ?H2.
  - by intros ? ? [=].
  - by intros ? [? [=]].
  - set_solver.
  - done.
  - set_solver.
  - set_solver.
  - by intros ? ? ? ? ? ? ?%elem_of_nil.
  - unfold load. cbn. by rewrite H1.
Qed.

Lemma boot_counted s : boot s → counted (boot_machine s).
Proof. intros (H1 & H2 & H3 & H4). unfold counted. cbn. rewrite H1, H4. by split. Qed.

(** A machine that ran from an empty server, and the state of the loop it is behind. *)
Definition ran (m : Machine) : Prop := ∃ s0, boot s0 ∧ rtc machine_step (boot_machine s0) m.
Definition backed (s : Server) (m : Machine) : Prop := ran m ∧ m_srv m = s ∧ at_rest m.

Lemma ran_facts m : ran m → invariant m ∧ counted m.
Proof.
  intros (s0 & Hb & Hs).
  split; [by eapply invariant_steps; [apply boot_invariant |] | by eapply counted_steps; [| apply boot_counted]].
Qed.

Lemma backed_facts s m : backed s m → invariant m ∧ counted m.
Proof. intros [Hr _]. by apply ran_facts. Qed.

Lemma backed_step s m m' : backed s m → rtc machine_step m m' → at_rest m' → backed (m_srv m') m'.
Proof. intros ((s0 & Hb & Hs) & _ & _) Hs' Hr. split; [| done]. exists s0. split; [done | by etransitivity]. Qed.

Lemma world_backed s m id c st : backed s m → conns s !! id = Some c → stream_moves (stream c) st →
  ∃ m', backed (put_conn id (set_stream st c) s) m' ∧ m_log m' = m_log m.
Proof.
  intros Hm Hc Hst. pose proof Hm as (_ & Em & Hr). exists (put id (set_stream st c) m). split; [| done].
  assert (put_conn id (set_stream st c) s = m_srv (put id (set_stream st c) m)) as -> by (cbn; by rewrite Em).
  eapply backed_step; [exact Hm | | exact Hr]. apply rtc_once. right. right.
  apply (st_world m id c st); [| done]. split; [unfold m_conn; by rewrite Em |].
  destruct Hr as (_ & -> & _). set_solver.
Qed.

Lemma round_backed_in {E} `{HostLaws E} `{!Ledger E} s m tick_ms listener g (e : E) : backed s m →
  agrees e (m_log m) → Forall fresh_event listener → next_id s + Z.of_nat (length listener) < 2 ^ 31 →
  let w := (round tick_ms listener g (s, e)).2 in
  ∃ m', rtc machine_step m m' ∧ backed w.1 m' ∧ agrees w.2 (m_log m').
Proof.
  intros Hb He Hf Hn. destruct (backed_facts _ _ Hb) as [Hm [Hz Hc]]. pose proof Hb as (_ & <- & Hr).
  destruct (sim_round m tick_ms listener g Hm Hr (conj Hf (conj Hz Hn)) e He) as (m' & S & Em & Ag & R').
  apply machine_psteps in S. exists m'. split; [done |]. cbv zeta. rewrite <- Em. split; [by eapply backed_step | done].
Qed.

Section Loop.
Context {E : Type} `{HostLaws E}.

Lemma round_backed s m tick_ms listener g (e : E) : backed s m → Forall fresh_event listener →
  next_id s + Z.of_nat (length listener) < 2 ^ 31 →
  ∃ m', rtc machine_step m m' ∧ backed (round tick_ms listener g (s, e)).2.1 m'.
Proof.
  intros Hb Hf Hn.
  destruct (@round_backed_in E _ _ no_ledger s m tick_ms listener g e Hb I Hf Hn) as (m' & S & Hb' & _). by exists m'.
Qed.

Lemma reachable_backed s : reachable (E := E) s → ∃ m, backed s m.
Proof.
  induction 1 as [s Hb|s id c st _ [m Hm] Hc Hst|s tick_ms listener g e _ [m Hm] Hf Hn].
  - exists (boot_machine s). split; [exists s; by split; [| constructor] | done].
  - destruct (world_backed s m id c st Hm Hc Hst) as (m' & Hm' & _). by exists m'.
  - destruct (round_backed s m tick_ms listener g e Hm Hf Hn) as (m' & _ & Hb). by exists m'.
Qed.

Lemma recorded_backed s log : recorded (E := E) s log → ∃ m, backed s m ∧ m_log m = log.
Proof.
  induction 1 as [s Hb|s log id c st _ (m & Hm & El) Hc Hst|s log tick_ms listener g e _ (m & Hm & <-) Hf Hn].
  - exists (boot_machine s). split; [| done]. split; [exists s; by split; [| constructor] | done].
  - destruct (world_backed s m id c st Hm Hc Hst) as (m' & Hm' & El'). exists m'. by rewrite El'.
  - destruct (@round_backed_in (Recorded E) _ _ recording_ledger s m tick_ms listener g (e, m_log m) Hm eq_refl Hf Hn)
      as (m' & _ & Hb & Ha). exists m'. by split.
Qed.

(** The connection behind a state of the loop. *)
Lemma backed_conn s m id c : backed s m → conns s !! id = Some c →
  ∃ h, conn_ok false (of_conn id (HParked <$> parked s)) c h ∧ barred (m_log m) (unsynced s) id c h ∧
       ∀ n, n ∈ h_silent h → silent (m_log m) id n.
Proof.
  intros Hb Hc. destruct (backed_facts _ _ Hb) as [Hm _].
  destruct Hb as (_ & <- & (Hh & Hd & Hlo)). destruct Hm.
  destruct (mi_conns id c Hc) as (h & _ & _ & Hlive). exists h.
  destruct Hlive as (Hok & Hu & Ha); [rewrite Hd; set_solver |].
  unfold tickets in Hok. by rewrite Hh, Hlo in Hok.
Qed.

(** C11. A round of the loop is a run of the machine: from any machine run that led to
    the state before it, small steps lead to the state it leaves, with nothing left in
    the loop's hands. *)
Theorem rounds_run_the_machine s m tick_ms listener g (e : E) : backed s m → Forall fresh_event listener →
  next_id s + Z.of_nat (length listener) < 2 ^ 31 →
  ∃ m', rtc machine_step m m' ∧ backed (round tick_ms listener g (s, e)).2.1 m'.
Proof. exact (round_backed s m tick_ms listener g e). Qed.

End Loop.

(** ** What was received and what was sent *)

(** The frames served so far, read off the bytes received: all but those still
    buffered. *)
Definition served_frames (c : Conn) : list bytes :=
  let received := st_received (stream c) in
  (drain i32_max (take (length received - length (inbuf (c_in c))) received)).1.1.

(** The requests they are. *)
Definition served_requests (c : Conn) : list Request :=
  omap (λ f, match parse f with Ok (req, _) => Some req | Err _ => None end) (served_frames c).

(** The peer has asked for the exchange of raw tokens (SaslHandshake of version 0). *)
Definition speaks_raw (c : Conn) : Prop := ∃ req, req ∈ served_requests c ∧ starts_raw req.

(** [rs] are the replies queued so far, all or some of them sent: one for each of the
    first [flush_seq] requests, in their order, a whole response with the correlation id
    of its request, or nothing where the produce handler returned no response. *)
Record queued (log : list Call) (id : Z) (c : Conn) (rs : list bytes) : Prop := mk_queued {
  qd_count : Z.of_nat (length rs) = flush_seq (c_out c);
  qd_each : ∀ i b, rs !! i = Some b → ∃ req, served_requests c !! i = Some req ∧
    (response_to (req_correlation_id req) b ∨ b = [] ∧ silent log id (Z.of_nat i));
  qd_sent : st_sent (stream c) `prefix_of` concat rs;
  qd_open : peer_closed c = false → st_sent (stream c) ++ outbuf (c_out c) = concat rs }.

Lemma omap_requests (l : list (bytes * option Request)) : Forall frame_ok l → None ∉ l.*2 →
  omap (λ f, match parse f with Ok (req, _) => Some req | Err _ => None end) l.*1 = omap snd l ∧
  length (omap snd l) = length l.
Proof.
  induction l as [|[f [req|]] l IH]; intros Hf Hn; [done | | by destruct Hn; left].
  apply Forall_cons in Hf as [(_ & outcome & Hp) Hf]. destruct (IH Hf) as [E1 E2]; [intros ?; apply Hn; by right |].
  cbn in *. rewrite Hp. cbn. by rewrite E1, E2.
Qed.

Lemma requests_served (l : list (bytes * option Request)) req : Forall frame_ok l → req ∈ omap snd l →
  req ∈ omap (λ f, match parse f with Ok (req, _) => Some req | Err _ => None end) l.*1.
Proof.
  intros Hf ([f o] & Hin & Ho)%list_elem_of_omap. cbn in Ho. subst o.
  rewrite Forall_forall in Hf. destruct (Hf _ Hin) as (_ & outcome & Hp). cbn in Hp.
  apply list_elem_of_omap. exists f. split; [| by rewrite Hp]. apply list_elem_of_fmap. by exists (f, Some req).
Qed.

Lemma drain_frames (fs : list bytes) : Forall (λ f, len f ≤ i32_max) fs → (drain i32_max (concat (framed <$> fs))).1.1 = fs.
Proof.
  intros Hf. pose proof (drain_framed i32_max fs [] ltac:(eapply Forall_impl; [exact Hf | done]) eq_refl) as Hd.
  rewrite app_nil_r in Hd. by rewrite Hd.
Qed.

Section Order.
Context (loose : bool) (ts : list Held) (log : list Call) (id : Z) (c : Conn) (h : Hist).
Context (Hok : conn_ok loose ts c h) (Hs : ∀ n, n ∈ h_silent h → silent log id n).

Lemma served_frames_hist : served_frames c = (h_frames h).*1.
Proof using Hok.
  destruct Hok. unfold served_frames. cbv zeta.
  rewrite ok_received, length_app. replace (_ + _ - _)%nat with (length (concat (framed <$> (h_frames h).*1))) by lia.
  rewrite take_app_length. apply drain_frames, Forall_fmap. eapply Forall_impl; [exact ok_frames |]. by intros [] [].
Qed.

Lemma received_served : st_received (stream c) = concat (framed <$> served_frames c) ++ inbuf (c_in c).
Proof using Hok. rewrite served_frames_hist. by destruct Hok. Qed.

Hypothesis Hraw : ¬ speaks_raw c.

Lemma no_raw : ¬ raw_seen h.
Proof using Hok Hraw.
  intros Hr. apply Hraw. destruct Hok. destruct ok_raw as (req & Hin & Hst); [by right |]. exists req. split; [| done].
  unfold served_requests. rewrite served_frames_hist. by apply requests_served.
Qed.

Lemma served_requests_hist : served_requests c = requests h ∧ length (served_requests c) = length (served_frames c).
Proof using Hok Hraw.
  pose proof no_raw as Hn. destruct Hok. unfold served_requests. rewrite served_frames_hist, length_fmap.
  destruct (omap_requests (h_frames h) ok_frames) as [E1 E2]; [intros ?; apply Hn; by left |]. by rewrite E1.
Qed.

Lemma items_answers : h_items h = Answer <$> replies h.
Proof using Hok Hraw.
  assert (∀ b, RawReply b ∉ h_items h) as Hn by (intros b Hb; apply no_raw; right; by exists b).
  revert Hn. unfold replies. generalize (h_items h). induction l as [|[b|b] l IH]; intros Hn; [done | |].
  - cbn. f_equal. apply IH. intros x Hx. apply (Hn x). by right.
  - destruct (Hn b). by left.
Qed.

Lemma output_replies : output h = concat (replies h).
Proof using Hok Hraw.
  unfold output. rewrite items_answers, <- list_fmap_compose at 1. unfold compose. cbn. by rewrite list_fmap_id.
Qed.

Lemma queued_replies : queued log id c (replies h).
Proof using Hok Hs Hraw.
  pose proof output_replies as Eo. destruct served_requests_hist as [Er _]. destruct Hok. split.
  - rewrite ok_answered. lia.
  - intros i b Hb. destruct (ok_replies i b Hb) as (req & Hq & Ha). exists req. rewrite Er. split; [done |].
    destruct Ha as [?|[-> Hn]]; [by left | right; split; [done | by apply Hs]].
  - by rewrite <- Eo.
  - by rewrite <- Eo.
Qed.

End Order.

Section Loop.
Context {E : Type} `{HostLaws E}.

(** C3. Responses go out in the order of the requests.  On a connection that has not
    asked for raw tokens: the bytes received are whole frames, all of them requests, and
    what is still buffered; the bytes sent are a prefix of one reply for each of the
    first [flush_seq] requests, in their order, each a whole response with the
    correlation id of its request (or nothing, where the produce handler was called for
    it and returned no response); and every later request waits in exactly one place, as
    a finished response or as a parked request. *)
Theorem responses_in_order s log id c : recorded (E := E) s log → conns s !! id = Some c → ¬ speaks_raw c →
  st_received (stream c) = concat (framed <$> served_frames c) ++ inbuf (c_in c) ∧
  length (served_requests c) = length (served_frames c) ∧
  (∃ rs, queued log id c rs) ∧
  (∀ i req, served_requests c !! i = Some req → flush_seq (c_out c) ≤ Z.of_nat i →
     match ready (c_out c) !! Z.of_nat i with
     | Some b => response_to (req_correlation_id req) b ∨ b = [] ∧ silent log id (Z.of_nat i)
     | None => ∃ p, p ∈ parked s ∧ pk_conn_id p = id ∧ pk_seq p = Z.of_nat i ∧
         pk_correlation_id p = req_correlation_id req
     end) ∧
  (∀ p, p ∈ parked s → pk_conn_id p = id → ready (c_out c) !! pk_seq p = None).
Proof.
  intros Hr Hc Hraw. destruct (recorded_backed s log Hr) as (m & Hb & <-).
  destruct (backed_conn s m id c Hb Hc) as (h & Hok & _ & Hs).
  destruct (served_requests_hist _ _ _ _ Hok Hraw) as [Er El].
  split; [by eapply received_served |]. split; [done |].
  split; [eexists; by eapply queued_replies |].
  assert (∀ t, t ∈ of_conn id (HParked <$> parked s) ↔ ∃ p, t = HParked p ∧ p ∈ parked s ∧ pk_conn_id p = id) as Hin.
  { intros t. unfold of_conn. rewrite list_elem_of_filter, list_elem_of_fmap. split; [| naive_solver].
    intros [Hi (p & -> & Hp)]. by exists p. }
  rewrite Er. destruct Hok. split.
  - intros i k Hk Hf. apply lookup_lt_Some in Hk as Hlt. destruct (ready (c_out c) !! Z.of_nat i) as [b|] eqn:Eb.
    { destruct (ok_ready _ _ Eb) as (_ & k' & Hk' & Ha). rewrite Nat2Z.id in Hk'. assert (k' = k) as -> by congruence.
      destruct Ha as [?|[-> Hn]]; [by left | right; split; [done | by apply Hs]]. }
    destruct (ok_covered (Z.of_nat i)) as [[b Hb']|Ht]; [lia | congruence |].
    apply list_elem_of_fmap in Ht as (t & Et & Ht). pose proof (ok_tickets t Ht) as (_ & (k' & Hk' & Hcor & _) & _).
    apply Hin in Ht as (p & -> & Hp & Hid). exists p. cbn in *. rewrite <- Et, Nat2Z.id in Hk'.
    split_and!; [done | done | done | congruence].
  - intros p Hp Hid. apply (ok_tickets (HParked p)). apply Hin. by exists p.
Qed.

(** ** The durability barrier *)

(** C4. Acknowledgements wait for the sync.  When the produce handler was called for
    request [n] of a connection, appended to partition [p] with the barrier on, and no
    sync of [p] went through since, then whatever the loop did meanwhile, the bytes sent
    on that connection, if it is still open and has not asked for raw tokens, are at most
    the replies to the requests before [n]: neither its acknowledgement nor anything
    behind it is out. *)
Theorem acks_wait_for_sync s log id c n req p : recorded (E := E) s log → conns s !! id = Some c →
  ¬ speaks_raw c → owed log id n req p →
  served_requests c !! Z.to_nat n = Some req ∧
  ∃ rs, queued log id c rs ∧ st_sent (stream c) `prefix_of` concat (take (Z.to_nat n) rs).
Proof.
  intros Hr Hc Hraw Ho. destruct (recorded_backed s log Hr) as (m & Hb & <-).
  destruct (backed_conn s m id c Hb Hc) as (h & Hok & Hbar & Hs).
  destruct (Hbar n req p Ho) as (_ & _ & _ & Hq & Hp).
  destruct (served_requests_hist _ _ _ _ Hok Hraw) as [-> _]. split; [done |].
  exists (replies h). split; [by eapply queued_replies |].
  rewrite (items_answers _ _ _ _ Hok Hraw), before_answers, <- list_fmap_compose in Hp. unfold compose in Hp. cbn in Hp.
  by rewrite list_fmap_id in Hp.
Qed.

End Loop.

(** ** Bounds *)

(** Bytes the server holds for its peers: unserved input, and the frames of requests
    it will try again. *)
Definition buffered (s : Server) : Z :=
  map_fold (λ _ c n, len (inbuf (c_in c)) + parked_bytes (c_in c) + n) 0 (conns s).

Lemma buffered_claims (m : gmap Z Conn) :
  map_fold (λ _ c n, len (inbuf (c_in c)) + parked_bytes (c_in c) + n) 0 m ≤ sum_claims id m.
Proof.
  induction m as [|i c m Hi IH] using map_ind; [done |].
  rewrite sum_claims_insert_new by done.
  rewrite (map_fold_insert_L (λ _ c n, len (inbuf (c_in c)) + parked_bytes (c_in c) + n)); [| intros; lia | done].
  unfold claim at 1. unfold id at 1. lia.
Qed.

Section Bounds.
Context {E : Type} `{HostLaws E}.

(** C12. What peers can make the server hold is bounded: connections, the bytes of input
    it buffers for all of them together, and parked requests; and on each connection the
    buffered input lies within what was granted, so that taking a frame off never
    underflows [reserved]. *)
Theorem server_bounds s : reachable (E := E) s →
  Z.of_nat (size (conns s)) ≤ MAX_CONNECTIONS ∧
  buffered s ≤ MAX_INBOUND_TOTAL_BYTES ∧
  Z.of_nat (length (parked s)) ≤ MAX_PARKED ∧
  (∀ id c, conns s !! id = Some c → len (inbuf (c_in c)) ≤ reserved (c_in c) ∧
     ∀ max f rest, take_frame max (inbuf (c_in c)) = (Ok (Some f), rest) → 0 ≤ reserved (c_in c) - (4 + len f)).
Proof.
  intros Hs. destruct (reachable_backed s Hs) as [m Hb]. destruct (backed_facts _ _ Hb) as [Hm [_ Hn]].
  pose proof Hb as (_ & <- & (Hh & _ & _)). split; [done |]. destruct Hm. split_and!.
  - unfold buffered. unfold load in mi_load. rewrite Hh in mi_load. cbn in mi_load.
    pose proof (buffered_claims (conns (m_srv m))). lia.
  - lia.
  - intros id c Hc. destruct (backed_conn _ _ id c Hb Hc) as (h & [] & _).
    split; [by apply (layout_bound _ _ _ _ ok_layout) |]. intros max f rest Ht.
    destruct (layout_take _ _ _ _ _ _ ok_layout Ht) as [Hl _]. pose proof (proj1 (layout_bound _ _ _ _ Hl)).
    pose proof (len_nonneg rest). lia.
Qed.

End Bounds.

(** ** The gate *)

Section Gate.
Context {E : Type} `{Host E}.

(** A peer the gate has to keep out: it has shown no certificate and no password, and is
    not sending bare tokens either. *)
Definition unknown_peer (c : Conn) : bool := negb (conn_authenticated c) && negb (sasl_raw (c_auth c)).

(** C33. While authentication is required, a request of a connection that has not
    authenticated reaches no handler unless it asks for the versions or belongs to the
    authentication exchange: the database and the logs stay as they are, nothing is
    parked, no other connection changes, and the connection is closed. *)
Theorem unauthenticated_reach_no_handler id frame req outcome s (e : E) c :
  sasl_required e = true → conns s !! id = Some c → unknown_peer c = true →
  parse frame = Ok (req, outcome) → is_pre_auth_api (req_api_key req) = false →
  ∃ c' s', serve_one id frame (s, e) = (false, (s', e)) ∧
    conns s' = <[id := c']> (conns s) ∧ c_auth c' = c_auth c ∧
    parked s' = parked s ∧ unsynced s' = unsynced s ∧ appended s' = appended s ∧ groups_changed s' = groups_changed s.
Proof.
  intros Hreq Hc [Ha%negb_true_iff Hraw%negb_true_iff]%andb_prop Hp Hk.
  destruct (reserve c) as [seq c0] eqn:Er. assert (c_auth c0 = c_auth c) as Ea by by injection Er as _ <-.
  destruct (flush c0) as [ok c'] eqn:Ef. destruct (flush_spec _ _ _ Ef) as ([_ E2 _ _ _ _ _ _ _] & _).
  exists c'. eexists. unfold serve_one, serve_request, serve_slot, mbind', gets, asks, modify, with_conn, is_raw.
  cbn -[reserve]. rewrite Hc, Hraw. cbn -[reserve]. rewrite Hp. cbn -[reserve]. rewrite Hc, Er. cbn.
  unfold authenticated, conn_authenticated in *. cbn. rewrite lookup_insert_eq, Hreq, Ea, Ha, Hk. cbn.
  rewrite lookup_insert_eq, Ef. cbn. rewrite insert_insert_eq. split; [done |]. split_and!; [done | congruence | done..].
Qed.

End Gate.

(** ** Examples *)

Lemma empty_boot : boot empty_server.
Proof. done. Qed.

Lemma client_fresh ws : Forall fresh_event [AConnection (client ws) "10.0.0.1:5"].
Proof. by repeat constructor. Qed.

Lemma served_reachable ws : reachable (E := Toy) (served_once ws).
Proof. apply rc_round; [apply rc_boot, empty_boot | apply client_fresh | done]. Qed.

Lemma rounds_run_the_machine_witness : ∃ m', rtc machine_step (boot_machine empty_server) m' ∧ backed (served_once []) m'.
Proof.
  exact (rounds_run_the_machine (E := Toy) empty_server (boot_machine empty_server) 10
    [AConnection (client []) "10.0.0.1:5"] open_gate (toy 1 false)
    (conj (ex_intro _ empty_server (conj empty_boot (rtc_refl _ _))) (conj eq_refl (conj eq_refl (conj eq_refl eq_refl))))
    (client_fresh []) eq_refl).
Defined.

(** Of the two requests the second is parked; the response to the first is out when the
    socket took it, and queued otherwise. *)
Lemma served_state :
  (∃ c, conns (served_once [WAccept 3; WAccept 9]) !! 1 = Some c ∧ len (st_sent (stream c)) = 8) ∧
  length (parked (served_once [WAccept 3; WAccept 9])) = 1%nat.
Proof. split; [eexists; split; vm_compute; reflexivity | vm_compute; reflexivity]. Qed.

Lemma queued_state : size (conns (served_once [])) = 1%nat ∧
  ∃ c, conns (served_once []) !! 1 = Some c ∧ unknown_peer c = true ∧
    st_sent (stream c) = [] ∧
    let '(ok, c') := flush_unless_held (set_stream (set_writes [WAccept 8] [] (stream c)) c) in
    ok = true ∧ len (st_sent (stream c')) = 8.
Proof.
  split; [vm_compute; reflexivity |]. eexists. split; [vm_compute; reflexivity |].
  split_and!; vm_compute; [reflexivity | reflexivity | split; reflexivity].
Qed.

(** The same round, its calls written down. *)
Definition recorded_once (ws : list WriteEvent) : Server * Recorded Toy :=
  (round (E := Recorded Toy) 10 [AConnection (client ws) "10.0.0.1:5"] open_gate (empty_server, (toy 1 false, []))).2.

Lemma recorded_state : ∃ s log c, recorded (E := Toy) s log ∧ conns s !! 1 = Some c ∧ len (st_sent (stream c)) = 8 ∧
  req_api_key <$> served_requests c = [18; 15] ∧ flush_seq (c_out c) = 1.
Proof.
  exists (recorded_once [WAccept 3; WAccept 9]).1, (recorded_once [WAccept 3; WAccept 9]).2.2. eexists.
  split; [exact (rd_round empty_server [] 10 _ open_gate (toy 1 false) (rd_boot _ empty_boot) (client_fresh _) eq_refl) |].
  split; [vm_compute; reflexivity |]. split_and!; vm_compute; reflexivity.
Qed.

(** No handshake among the requests, by their api keys. *)
Lemma not_raw c ks : req_api_key <$> served_requests c = ks →
  forallb (λ k, negb (k =? SASL_HANDSHAKE_KEY)) ks = true → ¬ speaks_raw c.
Proof.
  intros <- Hk (req & Hin & Hs & _). rewrite forallb_forall in Hk.
  specialize (Hk (req_api_key req)). rewrite Hs, Z.eqb_refl in Hk. discriminate Hk.
  apply list_elem_of_In. rewrite <- Hs. by apply list_elem_of_fmap_2.
Qed.

(** Two requests are served; the response to the first is out, the second waits. *)
Lemma responses_in_order_witness : ∃ s log c rs,
  recorded (E := Toy) s log ∧ conns s !! 1 = Some c ∧ length (served_frames c) = 2%nat ∧
  queued log 1 c rs ∧ length rs = 1%nat ∧ len (st_sent (stream c)) = 8.
Proof.
  destruct recorded_state as (s & log & c & Hr & Hc & Hs & Hk & Hf). exists s, log, c.
  destruct (responses_in_order (E := Toy) s log 1 c Hr Hc (not_raw c _ Hk eq_refl)) as (_ & H2 & (rs & Hrs) & _).
  exists rs. split; [exact Hr |]. split; [exact Hc |].
  split; [rewrite <- H2, <- (length_fmap req_api_key), Hk; reflexivity |].
  split; [exact Hrs |]. split; [| exact Hs]. pose proof (qd_count _ _ _ _ Hrs). lia.
Defined.

(** A produce to a partition that cannot be synced, on a socket that would take it all. *)
Definition produce_request : bytes :=
  [x00; x00; x00; x0a; x00; x00; x00; x03; x00; x00; x00; x07; xff; xff]%byte.
Definition producer : Stream :=
  mk_stream produce_request (replicate 20 (RGive 64)) (replicate 9 (WAccept 64)) [] false None [] [].
Definition unsynced_once : Server * Recorded Toy :=
  (round (E := Recorded Toy) 10 [AConnection producer "10.0.0.1:5"] open_gate
     (empty_server, (mk_toy 1 false false [(1, 0)], []))).2.

Lemma unsynced_state : ∃ s c req, recorded (E := Toy) s [CallProduce 1 0 req [(1, 0)] true true] ∧
  conns s !! 1 = Some c ∧ req_api_key <$> served_requests c = [0] ∧ flush_seq (c_out c) = 1 ∧ len (outbuf (c_out c)) = 8.
Proof.
  assert (recorded (E := Toy) unsynced_once.1 unsynced_once.2.2) as Hr.
  { apply (rd_round empty_server [] 10 [AConnection producer "10.0.0.1:5"] open_gate (mk_toy 1 false false [(1, 0)]));
      [apply rd_boot, empty_boot | by repeat constructor | done]. }
  assert (∃ req, unsynced_once.2.2 = [CallProduce 1 0 req [(1, 0)] true true]) as [req Hl] by (eexists; vm_compute; reflexivity).
  rewrite Hl in Hr. exists unsynced_once.1. eexists _, req. split; [exact Hr |].
  split; [vm_compute; reflexivity |]. split_and!; vm_compute; reflexivity.
Qed.

(** Its response is queued, and none of it is out. *)
Lemma acks_wait_for_sync_witness : ∃ s log c, recorded (E := Toy) s log ∧ conns s !! 1 = Some c ∧
  len (outbuf (c_out c)) = 8 ∧ st_sent (stream c) = [].
Proof.
  destruct unsynced_state as (s & c & req & Hr & Hc & Hk & _ & Ho). exists s. eexists. exists c.
  split; [exact Hr |]. split; [exact Hc |]. split; [exact Ho |].
  destruct (acks_wait_for_sync (E := Toy) s _ 1 c 0 req (1, 0) Hr Hc (not_raw c _ Hk eq_refl)) as (_ & rs & _ & Hp).
  - exists [], [(1, 0)], true, []. split; [reflexivity |]. split; set_solver.
  - cbn in Hp. by apply prefix_nil_inv in Hp.
Defined.

Lemma server_bounds_witness : buffered (served_once []) ≤ MAX_INBOUND_TOTAL_BYTES ∧ size (conns (served_once [])) = 1%nat.
Proof.
  exact (conj (proj1 (proj2 (server_bounds (E := Toy) (served_once []) (served_reachable [])))) (proj1 queued_state)).
Defined.

(** A peer that asks for groups before it has authenticated. *)
Lemma groups_parsed : parse (drop 4 groups_request) = Ok (mk_request 15 0 8 None [x00; x00; x00; x00]%byte, Supported).
Proof. vm_compute. reflexivity. Qed.

Lemma unauthenticated_reach_no_handler_witness : ∃ c' s',
  serve_one 1 (drop 4 groups_request) (served_once [], toy 2 true) = (false, (s', toy 2 true)) ∧
  conns s' = <[1 := c']> (conns (served_once [])).
Proof.
  destruct queued_state as [_ (c & Hc & H1 & _)].
  destruct (unauthenticated_reach_no_handler (E := Toy) (H := toy_host) 1 (drop 4 groups_request) _ _ (served_once []) (toy 2 true) c
    eq_refl Hc H1 groups_parsed eq_refl) as (c' & s' & E1 & E2 & _).
  exists c', s'. exact (conj E1 E2).
Defined.

(** ** Two details of the source *)

(** Whatever version negotiation accepts has an arm of [dispatch]. *)
Definition dispatched_keys : list Z :=
  [API_VERSIONS_KEY; 0; 1; 11; 14; SASL_HANDSHAKE_KEY; SASL_AUTHENTICATE_KEY; 13] ++ handler_keys.

Lemma supported_is_dispatched k v : negotiate k v = Supported → k ∈ dispatched_keys.
Proof.
  unfold negotiate. destruct (lookup_spec k) as [spec|]; [| by destruct (k =? _)].
  destruct (lookup_adv k) as [adv|] eqn:Ea; [| by destruct (k =? _)]. intros _.
  apply List.find_some in Ea as [Hin Hk%Z.eqb_eq]. subst k.
  assert (forallb (λ a, bool_decide (api_key a ∈ dispatched_keys)) ADVERTISED = true) as Hall by (vm_compute; reflexivity).
  rewrite forallb_forall in Hall. exact (bool_decide_eq_true_1 _ (Hall adv Hin)).
Qed.

(** The last flush of a connection that failed to authenticate too often goes past the
    barrier: a produce is acknowledged although its partition is not synced. *)
Lemma failed_authentication_skips_barrier :
  ∃ c, conns serve_bad_client.2.1 !! 1 = Some c ∧ awaiting_sync (c_out c) = true ∧
    serve_bad_client.1 = false ∧ elements (unsynced serve_bad_client.2.1) = [(1, 0)] ∧
    take 8 (st_sent (stream c)) = framed (be_bytes 4 7).
Proof. eexists. split; [vm_compute; reflexivity |]. vm_compute. split_and!; reflexivity. Qed.
