(* ===== verification/Lsn.v ===== *)
(** * extension/src/cdc.rs: LSNs and their text

    A position in the database's log is 64 bits, written as two hexadecimal halves with
    a slash between them.  What is written parses back, and what parses fits 64 bits. *)

From stdpp Require Import base list strings.
From S2P Require Import Prelude Sasl SaslSpec.

#[local] Open Scope Z_scope.

Definition hex_val (b : byte) : option Z :=
  let n := u8 b in
  if (48 <=? n) && (n <=? 57) then Some (n - 48)
  else if (65 <=? n) && (n <=? 70) then Some (n - 55)
  else if (97 <=? n) && (n <=? 102) then Some (n - 87)
  else None.
Fixpoint hex_digits (s : bytes) (acc : Z) : option Z :=
  match s with
  | [] => Some acc
  | b :: s =>
      d ← hex_val b;
      let n := acc * 16 + d in
      if 2 ^ 64 <=? n then None else hex_digits s n
  end.
(** [u64::from_str_radix(_, 16)]. *)
Definition from_hex (s : bytes) : option Z :=
  let digits := default s (strip_prefix (lit "+") s) in
  if bool_decide (digits = []) then None else hex_digits digits 0.

Definition parse_lsn (text : bytes) : option Z :=
  '(hi, lo) ← split_once x2f text;
  h ← from_hex hi;
  l ← from_hex lo;
  Some (Z.lor (wrap_u 64 (Z.shiftl h 32)) l).

Definition hex_char (d : Z) : byte := as_u8 (if d <? 10 then 48 + d else 55 + d).
Fixpoint show_hex (fuel : nat) (n : Z) : bytes :=
  match fuel with
  | O => []
  | S fuel => if n <? 16 then [hex_char n] else show_hex fuel (n / 16) ++ [hex_char (n mod 16)]
  end.
Definition format_lsn (lsn : Z) : bytes :=
  show_hex 16 (Z.shiftr lsn 32) ++ lit "/" ++ show_hex 16 (Z.land lsn 4294967295).

(** ** 64 bits *)

Lemma hex_digits_bound s acc n : 0 ≤ acc < 2 ^ 64 → hex_digits s acc = Some n → 0 ≤ n < 2 ^ 64.
Proof.
  revert acc. induction s as [|b s IH]; intros acc Ha; cbn [hex_digits]; [by intros [= <-] |].
  destruct (hex_val b) as [d|] eqn:Ed; [| done]. cbn.
  assert (0 ≤ d) as Hd.
  { unfold hex_val in Ed. repeat case_match; simplify_eq; lia. }
  destruct (Z.leb_spec (2 ^ 64) (acc * 16 + d)); [done |]. apply IH. lia.
Qed.

Lemma lor_bound a b n : 0 ≤ n → 0 ≤ a < 2 ^ n → 0 ≤ b < 2 ^ n → 0 ≤ Z.lor a b < 2 ^ n.
Proof.
  intros Hn Ha Hb. split; [apply Z.lor_nonneg; lia |]. destruct (decide (Z.lor a b = 0)) as [->|Hz]; [lia |].
  apply Z.log2_lt_pow2; [pose proof (proj2 (Z.lor_nonneg a b)); lia |]. rewrite Z.log2_lor by lia.
  assert (∀ x, 0 ≤ x < 2 ^ n → x = 0 ∨ Z.log2 x < n) as Hl.
  { intros x Hx. destruct (decide (x = 0)); [by left | right]. apply Z.log2_lt_pow2; lia. }
  pose proof (Z.log2_nonneg a). pose proof (Z.log2_nonneg b).
  destruct (Hl a Ha) as [-> |]; destruct (Hl b Hb) as [-> |]; [done | change (Z.log2 0) with 0; lia.. | lia].
Qed.

Lemma from_hex_bound s n : from_hex s = Some n → 0 ≤ n < 2 ^ 64.
Proof. unfold from_hex. case_bool_decide; [done |]. by apply hex_digits_bound. Qed.

Lemma parse_lsn_bound t n : parse_lsn t = Some n → 0 ≤ n < 2 ^ 64.
Proof.
  unfold parse_lsn. destruct (split_once _ _) as [[hi lo]|]; [| done]. cbn -[from_hex].
  destruct (from_hex hi) as [h|]; [| done]. cbn -[from_hex]. destruct (from_hex lo) as [l|] eqn:El; [| done]. intros [= <-].
  apply lor_bound; [lia | unfold wrap_u; apply Z.mod_pos_bound; lia | by eapply from_hex_bound].
Qed.

(** ** Writing and parsing *)

Lemma hex_char_spec d : 0 ≤ d < 16 → hex_val (hex_char d) = Some d ∧ hex_char d ≠ x2f ∧ hex_char d ≠ x2b.
Proof.
  intros Hd. assert (d ∈ seqZ 0 16) as Hin by (apply elem_of_seqZ; lia). revert d Hd Hin.
  assert (Forall (λ d, hex_val (hex_char d) = Some d ∧ hex_char d ≠ x2f ∧ hex_char d ≠ x2b) (seqZ 0 16)) as Hall.
  { repeat constructor; try reflexivity; by intros [=]. }
  rewrite Forall_forall in Hall. intros d _ Hin. by apply Hall.
Qed.

Lemma hex_digits_snoc s b acc : hex_digits (s ++ [b]) acc =
  (m ← hex_digits s acc; d ← hex_val b; if 2 ^ 64 <=? m * 16 + d then None else Some (m * 16 + d)).
Proof.
  revert acc. induction s as [|x s IH]; intros acc; cbn [app hex_digits].
  - destruct (hex_val b); [| done]. cbn. by destruct (_ <=? _).
  - destruct (hex_val x); [| done]. cbn [mbind option_bind]. by destruct (2 ^ 64 <=? _).
Qed.

Lemma show_hex_step fuel n :
  show_hex (S fuel) n = if n <? 16 then [hex_char n] else show_hex fuel (n / 16) ++ [hex_char (n mod 16)].
Proof. done. Qed.

Lemma show_hex_ok fuel n : 0 ≤ n < 2 ^ 64 → n < 16 ^ Z.of_nat (S fuel) →
  hex_digits (show_hex (S fuel) n) 0 = Some n ∧ show_hex (S fuel) n ≠ [] ∧
  Forall (λ b, b ≠ x2f ∧ b ≠ x2b) (show_hex (S fuel) n).
Proof.
  revert n. induction fuel as [|fuel IH]; intros n Hn Hf; rewrite show_hex_step.
  - change (16 ^ Z.of_nat 1) with 16 in Hf. rewrite (proj2 (Z.ltb_lt n 16)) by lia.
    destruct (hex_char_spec n) as (Hv & H1 & H2); [lia |]. cbn. rewrite Hv. cbn. rewrite (proj2 (Z.leb_gt _ _)) by lia.
    split_and!; [done | done | by repeat constructor].
  - destruct (Z.ltb_spec n 16) as [Hlt|Hge].
    + destruct (hex_char_spec n) as (Hv & H1 & H2); [lia |]. cbn [hex_digits]. rewrite Hv. cbn [mbind option_bind].
      rewrite (proj2 (Z.leb_gt _ _)) by lia. split_and!; [done | done | by repeat constructor].
    + destruct (IH (n / 16)) as (I1 & I2 & I3).
      { split; [apply Z.div_pos; lia |]. apply Z.div_lt_upper_bound; lia. }
      { apply Z.div_lt_upper_bound; [lia |]. rewrite Nat2Z.inj_succ, Z.pow_succ_r in Hf by lia. exact Hf. }
      pose proof (Z.mod_pos_bound n 16 ltac:(lia)) as Hm. destruct (hex_char_spec (n mod 16) Hm) as (Hv & H1 & H2).
      rewrite hex_digits_snoc, I1, Hv. cbn [mbind option_bind]. pose proof (Z.div_mod n 16 ltac:(lia)).
      replace (n / 16 * 16 + n mod 16) with n by lia. rewrite (proj2 (Z.leb_gt _ _)) by lia.
      split_and!; [done | by intros [_ ?]%app_nil | apply Forall_app; split; [done | by repeat constructor]].
Qed.

Lemma from_hex_show n : 0 ≤ n < 2 ^ 64 → from_hex (show_hex 16 n) = Some n.
Proof.
  intros Hn. destruct (show_hex_ok 15 n Hn) as (H1 & H2 & H3); [change (16 ^ Z.of_nat 16) with (2 ^ 64); lia |].
  unfold from_hex, strip_prefix, starts_with, bytes_eqb. rewrite (bool_decide_eq_false_2 (take _ _ = _)).
  - cbn [default from_option]. unfold id. by rewrite bool_decide_eq_false_2.
  - intros Ht. destruct (show_hex 16 n) as [|b s]; [done |]. apply Forall_cons in H3 as [[_ Hb] _]. by injection Ht as ->.
Qed.

(** Every 64-bit position in the log is read back from the text it is written as. *)
Theorem lsn_round_trip n : 0 ≤ n < 2 ^ 64 → parse_lsn (format_lsn n) = Some n.
Proof.
  intros Hn. assert (0 ≤ Z.shiftr n 32 < 2 ^ 32) as Hhi.
  { rewrite Z.shiftr_div_pow2 by lia. split; [apply Z.div_pos; lia |]. apply Z.div_lt_upper_bound; lia. }
  assert (0 ≤ Z.land n 4294967295 < 2 ^ 32) as Hlo.
  { change 4294967295 with (Z.ones 32). rewrite Z.land_ones by lia. apply Z.mod_pos_bound. lia. }
  unfold parse_lsn, format_lsn. change (lit "/" ++ show_hex 16 (Z.land n 4294967295)) with (x2f :: show_hex 16 (Z.land n 4294967295)).
  rewrite split_once_app.
  2:{ destruct (show_hex_ok 15 (Z.shiftr n 32)) as (_ & _ & Hall); [lia | change (16 ^ Z.of_nat 16) with (2 ^ 64); lia |].
      intros Hin. rewrite Forall_forall in Hall. by apply Hall in Hin as [? _]. }
  cbn [mbind option_bind]. rewrite !from_hex_show by lia. cbn [mbind option_bind]. f_equal.
  rewrite Z.shiftl_mul_pow2 by lia. unfold wrap_u. rewrite Z.mod_small by lia.
  change 4294967295 with (Z.ones 32). rewrite <- Z.shiftl_mul_pow2, Z.lor_comm by lia.
  apply Z.bits_inj'. intros k Hk. rewrite Z.lor_spec, Z.land_spec. rewrite Z.shiftl_spec by lia.
  destruct (Z.ltb_spec k 32) as [Hlt|Hge].
  - rewrite Z.ones_spec_low by lia. rewrite (Z.testbit_neg_r _ (k - 32)) by lia. by rewrite andb_true_r, orb_false_r.
  - rewrite Z.ones_spec_high, andb_false_r by lia. cbn [orb]. rewrite Z.shiftr_spec by lia. f_equal. lia.
Qed.

Lemma lsn_round_trip_witness : format_lsn 24022704 = lit "0/16E8EB0" ∧ parse_lsn (format_lsn 24022704) = Some 24022704.
Proof. split; [vm_compute; reflexivity | apply (lsn_round_trip 24022704); lia]. Defined.
