(* ===== verification/Cdc.v ===== *)
(** * extension/src/cdc.rs: draining the replication slot into topics

    A mapping sends the changes of a table, or one summary per transaction, to a topic.
    A drain peeks the slot, routes every change to the lanes of its mappings, renders
    and appends them a run at a time, records how far each mapping got and then moves
    the slot.  [World] is the database, the log and the slot as they answer, with the
    history of what they were asked and what took effect on them: topics resolved, runs
    rendered or split, records appended, changes dead-lettered, runs delivered, partitions
    synced, positions recorded, the slot moved.  Text is bytes; the wording of errors is
    not modelled. *)

From stdpp Require Import gmap sorting strings.
From S2P Require Import Prelude Framing Records Sasl Lsn.

#[local] Open Scope Z_scope.

Definition MAX_RECORD_BYTES : Z := DEFAULT_MAX_REQUEST_BYTES - Z.of_nat RECORD_BATCH_OVERHEAD - 64.
Definition MAX_DRAIN_BYTES : Z := 256 * 1024 * 1024.
Definition TRANSACTION_SOURCE : bytes := lit "kafgres.transaction".
(** A transaction summary sorts after every change of its transaction. *)
Definition SUMMARY_SEQ : Z := 2 ^ 63 - 1.

(** ** Positions *)

(** The commit end of a change's transaction, and its place in it. *)
Abbreviation Pos := (Z * Z)%type.
Definition pos_le (a b : Pos) : Prop := a.1 < b.1 ∨ (a.1 = b.1 ∧ a.2 ≤ b.2).
#[export] Instance pos_le_dec a b : Decision (pos_le a b).
Proof. unfold pos_le. apply _. Defined.

(** ** Data *)

Record Mapping : Type := mk_mapping {
  mp_name : bytes;
  mp_source : bytes;
  mp_topic : bytes;
  mp_value_expr : bytes;
  mp_key_expr : option bytes;
  mp_filter_expr : option bytes;
  mp_on_error : bytes;
  mp_delivered : option Pos }.
Definition is_summary (m : Mapping) : bool := bytes_eqb (mp_source m) TRANSACTION_SOURCE.
Definition stalls (m : Mapping) : bool := bytes_eqb (mp_on_error m) (lit "stall").

(** The fields of a plugin row; [cols] is its text. *)
Record Head : Type := mk_head {
  hd_op : bytes;
  hd_xid : option Z;
  hd_ts : option Z;
  hd_end : option Z;
  hd_schema : option bytes;
  hd_table : option bytes;
  hd_cols : option bytes }.

Record Txn : Type := mk_txn {
  tx_end : Z;
  tx_prev : option Z;
  tx_seq : Z;
  tx_xid : option Z;
  tx_ts : option Z;
  tx_lsn : option Z;
  tx_events : Z;
  tx_tables : list ((bytes * bytes) * Z) }.

Record Run : Type := mk_run {
  rn_cols : bytes;
  rn_body : bytes;
  rn_hold : option Z;
  rn_last : Pos;
  rn_ends : list (Pos * option Z * Z) }.

(** Why a lane stopped: its own failure, or that of a mapping it waits for. *)
Inductive Reason : Type :=
| Stopped (name why : bytes)
| BadShape (name cols why : bytes)
| WaitsFor (name first : bytes).

Record Lane : Type := mk_lane {
  ln_mapping : Mapping;
  ln_delivered : option Pos;
  ln_moved : bool;
  ln_run : option Run;
  ln_stopped : option (option Z * Reason) }.

Inductive Mode : Type := Worker | Sql.
Inductive DrainError : Type := RenderFailed (e : bytes) | PersistFailed (e : bytes).
Definition message (f : DrainError) : bytes := match f with RenderFailed e | PersistFailed e => e end.

Abbreviation Parts := (gset (Z * Z)).
Record Drain : Type := mk_drain {
  d_mode : Mode;
  d_chunk_bytes : Z;
  d_buffered : Z;
  d_lanes : list Lane;
  d_appended : Parts;
  d_produced : Z;
  d_streaming : bool }.

Record Target : Type := mk_target { tg_topic : bytes; tg_topic_id : Z; tg_partitions : Z }.
Abbreviation Rendered := (list (option bytes * option bytes)).

(** What was answered and what took effect, in order: lanes by their index.  Of the dead
    letters of a step that fails, the database keeps none. *)
Inductive Event : Type :=
| Resolves (topic : bytes) (target : Target)
| Renders (m : Mapping) (columns : list (bytes * bytes)) (changes : bytes) (rows : Rendered)
| Splits (changes : bytes) (each : list bytes)
| Buries (m : Mapping) (one why : bytes)
| Appends (topic partition : Z) (key value : option bytes)
| Produced (lane : nat) (body : bytes) (parts : Parts)
| Synced (parts : Parts)
| Saved (l : list (nat * Pos))
| Advanced (lsn : Z).

(** ** What the drain calls *)

Class CdcHost (E : Type) := {
  parse_head : bytes → result bytes Head;
  parse_cols : bytes → result bytes (list (bytes * bytes));
  encoding_passthrough : E → bool;
  run_render : Mapping → list (bytes * bytes) → bytes → E → result bytes Rendered * E;
  set_lock_timeout : E → result bytes unit * E;
  run_resolve_topic : bytes → E → result bytes Target * E;
  split_changes : bytes → E → result bytes (list bytes) * E;
  dead_letter : Mapping → bytes → bytes → E → E;
  append_record : Z → Z → option bytes → option bytes → E → result bytes unit * E;
  sync_partition : Z * Z → E → result bytes unit * E;
  store_positions : list (Mapping * Pos) → E → result bytes unit * E;
  slot_advance : bytes → E → result bytes unit * E;
  take_lock : Mode → E → result bytes bool * E;
  lock_held : E → bool;
  unlock : E → result bytes unit * E;
  slot_exists : E → bool;
  load_mappings : E → result bytes (list Mapping) * E;
  open_cursor : Z → E → result bytes unit * E;
  close_cursor : E → result bytes unit * E;
  chunk_bytes : E → Z;
  (** The state a failed step goes back to, from those before and after it. *)
  roll_back : Mode → E → E → E }.

Record World (E : Type) : Type := mk_world { w_env : E; w_events : list Event }.
Arguments mk_world {E}.
Arguments w_env {E}.
Arguments w_events {E}.

Section Cdc.
Context {E : Type} {H : CdcHost E}.

#[local] Abbreviation W := (World E).
#[local] Abbreviation cdc := (ST W bytes).

Definition calls {A} (f : E → result bytes A * E) : cdc A := λ w,
  let '(r, e) := f (w_env w) in (r, mk_world e (w_events w)).
Definition happens (ev : Event) (w : W) : W := mk_world (w_env w) (w_events w ++ [ev]).
Definition record (ev : Event) : cdc unit := λ w, (Ok tt, happens ev w).

(** [step]: a (sub)transaction of its own.  What took effect stays in the history. *)
Definition step {A} (mode : Mode) (f : cdc A) : cdc A := λ w,
  match f w with
  | (Ok a, w') => (Ok a, w')
  | (Err e, w') => (Err e, mk_world (roll_back mode (w_env w) (w_env w')) (w_events w'))
  end.

(** ** Rendering and appending *)

Definition is_ascii (s : bytes) : bool := forallb (λ b, u8 b <? 128) s.

(** The records of a run within their limits. *)
Definition opt_len (o : option bytes) : Z := match o with Some b => len b | None => 0 end.
Fixpoint check_sizes (rows : Rendered) (total : Z) : result bytes unit :=
  match rows with
  | [] => Ok tt
  | (key, value) :: rows =>
      let size := opt_len key + opt_len value in
      if MAX_RECORD_BYTES <? size then Err (lit "rendered record over the limit")
      else
        let total := total + size in
        if MAX_DRAIN_BYTES <? total then Err (lit "batch over the drain limit") else check_sizes rows total
  end.

Definition render (m : Mapping) (columns : list (bytes * bytes)) (changes : bytes) : cdc Rendered :=
  let* plain := calls (λ e, (Ok (encoding_passthrough e), e)) in
  let texts := concat ((λ c, [c.1; c.2]) <$> columns) ++ [mp_value_expr m]
               ++ option_list (mp_key_expr m) ++ option_list (mp_filter_expr m) in
  if negb plain && existsb (λ t, negb (is_ascii t)) texts then throw (lit "non-ASCII names or expressions")
  else
    let* rendered := calls (run_render m columns changes) in
    match check_sizes rendered 0 with
    | Ok _ => record (Renders m columns changes rendered) ;;; ret rendered
    | Err e => throw e
    end.

(** The calls that take a run apart: its changes, and a dead letter for one of them. *)
Definition split_run (changes : bytes) : cdc (list bytes) :=
  let* each := calls (split_changes changes) in record (Splits changes each) ;;; ret each.
Definition bury (m : Mapping) (one why : bytes) : cdc unit :=
  calls (λ e, (Ok tt, dead_letter m one why e)) ;;; record (Buries m one why).

Fixpoint dead_letters (m : Mapping) (changes : list bytes) (why : bytes) : cdc unit :=
  match changes with
  | [] => ret tt
  | one :: changes => bury m one why ;;; dead_letters m changes why
  end.

(** One change at a time, after the set-based query failed. *)
Fixpoint render_each (m : Mapping) (columns : list (bytes * bytes)) (changes : list bytes) (out : Rendered)
    (held : Z) : cdc Rendered :=
  match changes with
  | [] => ret out
  | one :: changes => λ w,
      match render m columns one w with
      | (Ok rows, w) =>
          let held := held + foldr (λ r n, opt_len r.1 + opt_len r.2 + n) 0 rows in
          if MAX_DRAIN_BYTES <? held then (Err (lit "over the drain limit even one change at a time"), w)
          else render_each m columns changes (out ++ rows) held w
      | (Err e, w) => (bury m one e ;;; render_each m columns changes out held) w
      end
  end.

(** The topic of a mapping, by its name. *)
Definition resolve_target (topic : bytes) : cdc Target :=
  let* target := calls (run_resolve_topic topic) in record (Resolves topic target) ;;; ret target.

Definition render_phase (m : Mapping) (columns : list (bytes * bytes)) (changes : bytes)
    : cdc (option (Target * Rendered)) := λ w,
  match resolve_target (mp_topic m) w with
  | (Err e, w) =>
      if stalls m then (Err e, w)
      else (let* each := split_run changes in dead_letters m each e ;;; ret None) w
  | (Ok target, w) =>
      match render m columns changes w with
      | (Ok rendered, w) => (Ok (Some (target, rendered)), w)
      | (Err e, w) =>
          if stalls m then (Err e, w)
          else (let* each := split_run changes in
                let* rendered := render_each m columns each [] 0 in
                ret (Some (target, rendered))) w
      end
  end.

(** produce_sql.rs: the partitioner of the Java client, in 32 bits. *)
Definition MURMUR_M : Z := 1540483477.
Definition murmur_mix (h k : Z) : Z :=
  let k := wrap_u 32 (k * MURMUR_M) in
  let k := Z.lxor k (Z.shiftr k 24) in
  let k := wrap_u 32 (k * MURMUR_M) in
  Z.lxor (wrap_u 32 (h * MURMUR_M)) k.
Fixpoint murmur_body (fuel : nat) (data : bytes) (h : Z) : Z * bytes :=
  match fuel, data with
  | S fuel, a :: b :: c :: d :: data =>
      murmur_body fuel data
        (murmur_mix h (u8 a + Z.shiftl (u8 b) 8 + Z.shiftl (u8 c) 16 + Z.shiftl (u8 d) 24))
  | _, _ => (h, data)
  end.
Definition murmur_tail (h : Z) (rest : bytes) : Z :=
  let at_ i := match rest !! i with Some b => u8 b | None => 0 end in
  let rem := length rest in
  let h := if (3 <=? rem)%nat then Z.lxor h (Z.shiftl (at_ 2%nat) 16) else h in
  let h := if (2 <=? rem)%nat then Z.lxor h (Z.shiftl (at_ 1%nat) 8) else h in
  if (1 <=? rem)%nat then wrap_u 32 (Z.lxor h (at_ 0%nat) * MURMUR_M) else h.
Definition murmur2 (data : bytes) : Z :=
  let '(h, rest) := murmur_body (length data / 4) data (Z.lxor 2538058380 (wrap_u 32 (len data))) in
  let h := murmur_tail h rest in
  let h := Z.lxor h (Z.shiftr h 13) in
  let h := wrap_u 32 (h * MURMUR_M) in
  let h := Z.lxor h (Z.shiftr h 15) in
  wrap_i 32 h.

Definition partition_for (key : option bytes) (partitions : Z) : Z :=
  match key with
  | Some k => Z.rem (Z.land (murmur2 k) 2147483647) partitions
  | None => 0
  end.

Definition produce_rendered (target : Target) (key value : option bytes) : cdc Z :=
  let partition := partition_for key (tg_partitions target) in
  calls (append_record (tg_topic_id target) partition key value) ;;;
  record (Appends (tg_topic_id target) partition key value) ;;;
  ret partition.

(** The appends of a run, [n] of them done. *)
Fixpoint append_each (m : Mapping) (changes : bytes) (target : Target) (rendered : Rendered) (n : Z)
    (partitions : Parts) : cdc (Z * Parts) :=
  match rendered with
  | [] => ret (n, partitions)
  | (key, value) :: rendered => λ w,
      match produce_rendered target key value w with
      | (Ok p, w) => append_each m changes target rendered (n + 1) ({[(tg_topic_id target, p)]} ∪ partitions) w
      | (Err e, w) =>
          if n =? 0 then (Err e, w)
          else (let* each := split_run changes in dead_letters m each e ;;; ret (n, partitions)) w
      end
  end.

Definition render_and_produce (m : Mapping) (columns : list (bytes * bytes)) (changes : bytes) : cdc (Z * Parts) :=
  let* phase := render_phase m columns changes in
  match phase with
  | None => ret (0, ∅)
  | Some (target, rendered) =>
      calls set_lock_timeout ;;;
      append_each m changes target rendered 0 ∅
  end.

(** ** Durability and positions *)

Definition in_order (parts : Parts) : list (Z * Z) := merge_sort pos_le (elements parts).

Fixpoint sync_then {A} (parts : list (Z * Z)) (then_ : cdc A) : cdc A :=
  match parts with
  | [] => then_
  | p :: parts => calls (sync_partition p) ;;; sync_then parts then_
  end.

Definition sync_all (mode : Mode) (appended : Parts) : cdc unit :=
  if bool_decide (appended = ∅) then ret tt
  else step mode (sync_then (in_order appended) (record (Synced appended))).

Definition save_positions (moved : list (nat * Mapping * Pos)) : cdc unit :=
  calls (store_positions ((λ x, (x.1.2, x.2)) <$> moved)) ;;;
  record (Saved ((λ x, (x.1.1, x.2)) <$> moved)).

Definition advance (lsn : Z) : cdc unit :=
  calls (slot_advance (format_lsn lsn)) ;;; record (Advanced lsn).

(** [DrainLock::release]. *)
Definition release_lock : cdc unit :=
  let* held := calls (λ e, (Ok (lock_held e), e)) in
  if held : bool then calls unlock else ret tt.

(** ** Lanes and runs *)

#[local] Abbreviation st := (Drain * W)%type.

Definition set_lane (i : nat) (l : Lane) (d : Drain) : Drain :=
  mk_drain (d_mode d) (d_chunk_bytes d) (d_buffered d) (<[i := l]> (d_lanes d)) (d_appended d) (d_produced d)
    (d_streaming d).
Definition set_buffered (n : Z) (d : Drain) : Drain :=
  mk_drain (d_mode d) (d_chunk_bytes d) n (d_lanes d) (d_appended d) (d_produced d) (d_streaming d).
Definition add_produced (n : Z) (d : Drain) : Drain :=
  mk_drain (d_mode d) (d_chunk_bytes d) (d_buffered d) (d_lanes d) (d_appended d) (d_produced d + n) (d_streaming d).
Definition add_appended (ps : Parts) (d : Drain) : Drain :=
  mk_drain (d_mode d) (d_chunk_bytes d) (d_buffered d) (d_lanes d) (d_appended d ∪ ps) (d_produced d) (d_streaming d).
Definition set_streaming (b : bool) (d : Drain) : Drain :=
  mk_drain (d_mode d) (d_chunk_bytes d) (d_buffered d) (d_lanes d) (d_appended d) (d_produced d) b.
Definition set_run (r : option Run) (l : Lane) : Lane :=
  mk_lane (ln_mapping l) (ln_delivered l) (ln_moved l) r (ln_stopped l).
Definition set_stopped (s : option (option Z * Reason)) (l : Lane) : Lane :=
  mk_lane (ln_mapping l) (ln_delivered l) (ln_moved l) (ln_run l) s.
Definition set_delivered (p : Pos) (moved : bool) (l : Lane) : Lane :=
  mk_lane (ln_mapping l) (Some p) moved (ln_run l) (ln_stopped l).

(** A method on a lane; indices are always in range. *)
Definition on_lane (i : nat) (f : Lane → Lane) (d : Drain) : Drain :=
  match d_lanes d !! i with Some l => set_lane i (f l) d | None => d end.

Definition persist (mode : Mode) (i : nat) (m : Mapping) (last : Pos) (parts : Parts) : cdc unit :=
  sync_all mode parts ;;; step mode (save_positions [(i, m, last)]).

Definition produce (i : nat) (m : Mapping) (cols : list (bytes * bytes)) (body : bytes) (last : Pos) (s : st)
    : result DrainError unit * st :=
  let '(d, w) := s in
  match step (d_mode d) (render_and_produce m cols body) w with
  | (Err e, w) => (Err (RenderFailed e), (d, w))
  | (Ok (n, parts), w) =>
      let w := happens (Produced i body parts) w in
      let d := add_produced n d in
      if d_streaming d then
        match persist (d_mode d) i m last parts w with
        | (Err e, w) => (Err (PersistFailed e), (add_appended parts d, w))
        | (Ok _, w) => (Ok tt, (on_lane i (set_delivered last false) d, w))
        end
      else (Ok tt, (on_lane i (set_delivered last true) (add_appended parts d), w))
  end.

Fixpoint take_while {A} (f : A → bool) (l : list A) : list A :=
  match l with [] => [] | x :: l => if f x then x :: take_while f l else [] end.

Definition deliverable (ends : list (Pos * option Z * Z)) (hold : option Z) : option (Pos * option Z * Z) :=
  last (take_while (λ e, match hold with Some h => e.1.1.1 <=? h | None => false end) ends).

(** [body] has no closing bracket. *)
Fixpoint cut (body : bytes) (start : Z) (ends : list (Pos * option Z * Z)) : list (option Z * Pos * bytes) :=
  match ends with
  | [] => []
  | (last, hold, end_) :: ends =>
      (hold, last, lit "[" ++ slice (Z.to_nat start) (Z.to_nat (end_ - start)) body ++ lit "]")
      :: cut body (end_ + 1) ends
  end.
Definition transactions (run : Run) : list (option Z * Pos * bytes) := cut (rn_body run) 1 (rn_ends run).

(** One transaction of a run at a time, up to the first that fails. *)
Fixpoint produce_each (i : nat) (m : Mapping) (cols : list (bytes * bytes)) (txns : list (option Z * Pos * bytes))
    (failed : option (option Z * bytes)) (s : st) : option (option Z * bytes) * st :=
  match txns with
  | [] => (failed, s)
  | (hold, last, body) :: txns =>
      match produce i m cols body last s with
      | (Ok _, s) => produce_each i m cols txns None s
      | (Err f, s) => (Some (hold, message f), s)
      end
  end.

Definition advance_target (high : option Z) (holds : list (option Z)) : option Z :=
  if bool_decide (holds = []) then high
  else foldl (λ acc h, a ← acc; x ← h; Some (Z.min a x)) (Some (2 ^ 64 - 1)) holds.

(** A run of a lane, cut where [held] holds its summaries back. *)
Definition cut_run (held : option (option Z * Reason)) (run : Run) : option Run :=
  match held with
  | None => Some run
  | Some (hold, _) =>
      '(pos, _, n) ← deliverable (rn_ends run) hold;
      Some (mk_run (rn_cols run) (take (Z.to_nat n) (rn_body run)) (rn_hold run) pos
              (List.filter (λ e, e.1.1.1 <=? pos.1) (rn_ends run)))
  end.

(** Deliver a run: whole, or transaction by transaction when it failed to render. *)
Definition deliver (i : nat) (m : Mapping) (cols : list (bytes * bytes)) (run : Run) (s : st)
    : option (option Z * bytes) * st :=
  match produce i m cols (rn_body run ++ lit "]") (rn_last run) s with
  | (Ok _, s) => (None, s)
  | (Err (RenderFailed e), s) =>
      if stalls m && (1 <? length (rn_ends run))%nat then
        produce_each i m cols (transactions run) (Some (rn_hold run, e)) s
      else (Some (rn_hold run, e), s)
  | (Err (PersistFailed e), s) => (Some (rn_hold run, e), s)
  end.

(** The end of [flush], once it is known where stopped mappings hold the slot. *)
Definition flush_held (i : nat) (held : option (option Z * Reason)) (s : st) : st :=
  let '(d, w) := s in
  match d_lanes d !! i with
  | None => s
  | Some l =>
      match ln_run l with
      | None => s
      | Some run =>
          let d := set_lane i (set_run None l) (set_buffered (d_buffered d - len (rn_body run)) d) in
          let m := ln_mapping l in
          match cut_run held run with
          | None => (on_lane i (set_stopped ((λ h, (rn_hold run, h.2)) <$> held)) d, w)
          | Some run =>
              match parse_cols (rn_cols run) with
              | Err e => (on_lane i (set_stopped (Some (rn_hold run, BadShape (mp_name m) (rn_cols run) e))) d, w)
              | Ok cols =>
                  let '(failed, (d, w)) := deliver i m cols run (d, w) in
                  match failed with
                  | Some (hold, why) => (on_lane i (set_stopped (Some (hold, Stopped (mp_name m) why))) d, w)
                  | None =>
                      match held with
                      | Some _ => (on_lane i (set_stopped held) d, w)
                      | None => (d, w)
                      end
                  end
              end
          end
      end
  end.

Definition flush_all_of (lanes : list nat) (s : st) : st := foldl (λ s i, flush_held i None s) s lanes.
Definition table_lanes (d : Drain) : list nat :=
  List.filter (λ i, match d_lanes d !! i with Some l => negb (is_summary (ln_mapping l)) | None => false end)
    (seq 0 (length (d_lanes d))).

(** The stopped table mappings: where they hold the slot, and the first of them. *)
Definition blockers (d : Drain) : list (option Z * bytes) :=
  omap (λ l, if is_summary (ln_mapping l) then None else s ← ln_stopped l; Some (s.1, mp_name (ln_mapping l)))
    (d_lanes d).
Definition changes_first (i : nat) (s : st) : option (option Z * Reason) * st :=
  let '(d, w) := flush_all_of (table_lanes s.1) s in
  let name := match d_lanes d !! i with Some l => mp_name (ln_mapping l) | None => [] end in
  (match blockers d with
   | [] => None
   | (_, first) :: _ => Some (advance_target None ((blockers d).*1), WaitsFor name first)
   end, (d, w)).

Definition flush (i : nat) (s : st) : st :=
  match d_lanes s.1 !! i with
  | None => s
  | Some l =>
      if is_summary (ln_mapping l) then let '(held, s) := changes_first i s in flush_held i held s
      else flush_held i None s
  end.

(** ** Collecting changes *)

Definition run_len (l : Lane) : Z := match ln_run l with Some r => len (rn_body r) | None => 0 end.
(** [max_by_key]: the last of the largest. *)
Fixpoint largest_from (i : nat) (ls : list Lane) (best : nat * Z) : nat :=
  match ls with
  | [] => best.1
  | l :: ls => largest_from (S i) ls (if best.2 <=? run_len l then (i, run_len l) else best)
  end.
Definition largest (lane : nat) (d : Drain) : nat :=
  match d_lanes d with [] => lane | l :: ls => largest_from 1 ls (0%nat, run_len l) end.

(** Make room: at most one flush per lane. *)
Fixpoint make_room (fuel : nat) (lane : nat) (n : Z) (s : st) : st :=
  match fuel with
  | O => s
  | S fuel =>
      let d := s.1 in
      if (0 <? d_buffered d) && (d_chunk_bytes d <? d_buffered d + n + 2) then
        let i := largest lane d in
        match d_lanes d !! i with
        | Some l => match ln_run l with
                    | Some _ => make_room fuel lane n (flush i s)
                    | None => s
                    end
        | None => s
        end
      else s
  end.

(** The element behind the others of the run. *)
Definition extend (pos : Pos) (hold : option Z) (cols element : bytes) (r : option Run) : Run :=
  let run := default (mk_run cols (lit "[") hold pos []) r in
  let body := rn_body run ++ (if 1 <? len (rn_body run) then lit "," else []) ++ element in
  let ends :=
    match last (rn_ends run) with
    | Some e => if e.1.1.1 =? pos.1 then removelast (rn_ends run) ++ [(pos, e.1.2, len body)]
                else rn_ends run ++ [(pos, hold, len body)]
    | None => rn_ends run ++ [(pos, hold, len body)]
    end in
  mk_run (rn_cols run) body (rn_hold run) pos ends.

Definition is_stopped (i : nat) (d : Drain) : bool :=
  match d_lanes d !! i with Some l => bool_decide (is_Some (ln_stopped l)) | None => true end.

Definition collect (i : nat) (pos : Pos) (hold : option Z) (cols element : bytes) (s : st) : st :=
  let '(d, w) := s in
  match d_lanes d !! i with
  | None => s
  | Some l =>
      let run := extend pos hold cols element (ln_run l) in
      let before := match ln_run l with Some r => len (rn_body r) | None => 1 end in
      let added := len (rn_body run) - before + (if before =? 1 then 1 else 0) in
      (set_buffered (d_buffered d + added) (set_lane i (set_run (Some run) l) d), w)
  end.

Definition offer (i : nat) (pos : Pos) (hold : option Z) (cols element : bytes) (s : st) : st :=
  match d_lanes s.1 !! i with
  | None => s
  | Some l =>
      if bool_decide (is_Some (ln_stopped l))
         || match ln_delivered l with Some p => bool_decide (pos_le pos p) | None => false end then s
      else
        let s := match ln_run l with
                 | Some r => if bytes_eqb (rn_cols r) cols then s else flush i s
                 | None => s
                 end in
        let s := make_room (S (length (d_lanes s.1))) i (len element) s in
        if is_stopped i s.1 then s else collect i pos hold cols element s
  end.

(** ** Summaries *)

Definition show_int (n : Z) : bytes := if n <? 0 then lit "-" ++ show_digits 20 (- n) else show_digits 20 n.
Definition show_opt (o : option Z) : bytes := match o with Some n => show_int n | None => lit "null" end.

Definition hex_low (d : Z) : byte := as_u8 (if d <? 10 then 48 + d else 87 + d).
Definition json_char (b : byte) : bytes :=
  let n := u8 b in
  if n =? 34 then [x5c; x22]%byte
  else if n =? 92 then [x5c; x5c]%byte
  else if n =? 10 then lit "\n"
  else if n =? 13 then lit "\r"
  else if n =? 9 then lit "\t"
  else if n <? 32 then lit "\u00" ++ [hex_low (n / 16); hex_low (n mod 16)]
  else [b].
Definition json_bytes (s : bytes) : bytes := [x22]%byte ++ concat (json_char <$> s) ++ [x22]%byte.

Fixpoint join (sep : bytes) (l : list bytes) : bytes :=
  match l with
  | [] => []
  | [x] => x
  | x :: l => x ++ sep ++ join sep l
  end.

(** String order, byte by byte. *)
Fixpoint bytes_cmp (a b : bytes) : comparison :=
  match a, b with
  | [], [] => Eq
  | [], _ => Lt
  | _, [] => Gt
  | x :: a, y :: b => match Z.compare (u8 x) (u8 y) with Eq => bytes_cmp a b | c => c end
  end.
(** One more change of a table, in the sorted list of the transaction's tables. *)
Fixpoint count_table (schema table : bytes) (l : list ((bytes * bytes) * Z)) : list ((bytes * bytes) * Z) :=
  match l with
  | [] => [((schema, table), 1)]
  | ((s, t), n) :: l' =>
      match bytes_cmp schema s, bytes_cmp table t with
      | Eq, Eq => ((s, t), n + 1) :: l'
      | Lt, _ | Eq, Lt => ((schema, table), 1) :: l
      | _, _ => ((s, t), n) :: count_table schema table l'
      end
  end.

Definition quoted (s : bytes) : bytes := [x22]%byte ++ s ++ [x22]%byte.
Definition summary_element (t : Txn) : bytes :=
  let tables := (λ e, json_bytes (e.1.1 ++ lit "." ++ e.1.2) ++ lit ":" ++ show_int e.2) <$> tx_tables t in
  lit "{" ++ quoted (lit "lsn") ++ lit ":" ++ quoted (format_lsn (default 0 (tx_lsn t))) ++ lit ","
  ++ quoted (lit "ch") ++ lit ":{" ++ quoted (lit "op") ++ lit ":" ++ quoted (lit "T")
  ++ lit "," ++ quoted (lit "xid") ++ lit ":" ++ show_opt (tx_xid t)
  ++ lit "," ++ quoted (lit "ts") ++ lit ":" ++ show_opt (tx_ts t)
  ++ lit "," ++ quoted (lit "events") ++ lit ":" ++ show_int (tx_events t)
  ++ lit "," ++ quoted (lit "tables") ++ lit ":{" ++ join (lit ",") tables ++ lit "}}}".
Definition change_element (lsn_text data : bytes) : bytes :=
  lit "{" ++ quoted (lit "lsn") ++ lit ":" ++ quoted lsn_text ++ lit "," ++ quoted (lit "ch") ++ lit ":" ++ data ++ lit "}".

(** ** Reading the peek *)

Definition split_source (source : bytes) : bytes * bytes := default (lit "public", source) (split_once x2e source).

Definition indices (f : Mapping → bool) (ms : list Mapping) : list nat :=
  List.filter (λ i, match ms !! i with Some m => f m | None => false end) (seq 0 (length ms)).
Definition summary_lanes (ms : list Mapping) : list nat := indices is_summary ms.
(** [by_table]. *)
Definition lanes_of (schema table : bytes) (ms : list Mapping) : list nat :=
  indices (λ m, negb (is_summary m) && bool_decide (split_source (mp_source m) = (schema, table))) ms.

Definition opt_max (a b : option Z) : option Z :=
  match a, b with Some x, Some y => Some (Z.max x y) | Some x, None => Some x | None, o => o end.

(** What [stream] keeps between rows. *)
Record Scan : Type := mk_scan { sc_high : option Z; sc_last_end : option Z; sc_txn : option Txn }.

(** What a row is offered as, and what is known after it. *)
Definition Offer : Type := nat * Pos * option Z * bytes * bytes.
Definition read_row (ms : list Mapping) (sc : Scan) (row : bytes * bytes) : result bytes (list Offer * Scan) :=
  let '(lsn_text, data) := row in
  match parse_lsn lsn_text with
  | None => Err (lit "unreadable LSN")
  | Some lsn =>
      let high := opt_max (sc_high sc) (Some lsn) in
      let? head := parse_head data in
      let op := hd_op head in
      if bytes_eqb op (lit "B") then
        match hd_end head with
        | None => Err (lit "transaction has no end LSN")
        | Some end_ =>
            Ok ([], mk_scan high (sc_last_end sc)
                      (Some (mk_txn end_ (sc_last_end sc) 0 (hd_xid head) None None 0 [])))
        end
      else if bytes_eqb op (lit "C") then
        let offers :=
          match sc_txn sc with
          | Some t => if 0 <? tx_events t then
                        (λ i, (i, (tx_end t, SUMMARY_SEQ), tx_prev t, lit "[]", summary_element t)) <$> summary_lanes ms
                      else []
          | None => []
          end in
        Ok (offers, mk_scan high (Some lsn) None)
      else if bytes_eqb op (lit "I") || bytes_eqb op (lit "U") || bytes_eqb op (lit "D") then
        match sc_txn sc with
        | None => Err (lit "change outside a transaction")
        | Some t =>
            let schema := default [] (hd_schema head) in
            let table := default [] (hd_table head) in
            let t := mk_txn (tx_end t) (tx_prev t) (tx_seq t + 1) (tx_xid t) (opt_max (tx_ts t) (hd_ts head))
                       (opt_max (tx_lsn t) (Some lsn)) (tx_events t + 1)
                       (if bool_decide (summary_lanes ms = []) then tx_tables t
                        else count_table schema table (tx_tables t)) in
            Ok ((λ i, (i, (tx_end t, tx_seq t), tx_prev t, default (lit "[]") (hd_cols head), change_element lsn_text data))
                  <$> lanes_of schema table ms,
                mk_scan high (sc_last_end sc) (Some t))
        end
      else Ok ([], mk_scan high (sc_last_end sc) (sc_txn sc))
  end.

Definition offer_all (os : list Offer) (s : st) : st :=
  foldl (λ s o, let '(i, pos, hold, cols, element) := o in offer i pos hold cols element s) s os.

Fixpoint read_rows (ms : list Mapping) (rows : list (bytes * bytes)) (sc : Scan) (s : st) : result bytes Scan * st :=
  match rows with
  | [] => (Ok sc, s)
  | row :: rows =>
      match read_row ms sc row with
      | Err e => (Err e, s)
      | Ok (os, sc) => read_rows ms rows sc (offer_all os s)
      end
  end.

(** [peeks] is what further calls of [fetch_peeked] give; past the last, nothing. *)
Fixpoint read_peek (ms : list Mapping) (rows : list (bytes * bytes))
    (peeks : list (result bytes (list (bytes * bytes)))) (sc : Scan) (s : st) : result bytes Scan * st :=
  if bool_decide (rows = []) then (Ok sc, s)
  else
    match read_rows ms rows sc s with
    | (Err e, s) => (Err e, s)
    | (Ok sc, s) =>
        match peeks with
        | [] => (Ok sc, s)
        | Err e :: _ => (Err e, s)
        | Ok rows :: peeks => read_peek ms rows peeks sc s
        end
    end.

Definition new_drain (mode : Mode) (chunk : Z) (ms : list Mapping) : Drain :=
  mk_drain mode chunk 0 ((λ m, mk_lane m (mp_delivered m) false None None) <$> ms) ∅ 0 true.

Definition flush_each (lanes : list nat) (s : st) : st := foldl (λ s i, flush i s) s lanes.

Definition stream (ms : list Mapping) (first : list (bytes * bytes)) (peeks : list (result bytes (list (bytes * bytes))))
    (mode : Mode) (w : W) : result bytes (option Z) * st :=
  let d := new_drain mode (chunk_bytes (w_env w)) ms in
  match read_peek ms first peeks (mk_scan None None None) (d, w) with
  | (Err e, s) => (Err e, s)
  | (Ok sc, (d, w)) =>
      let s := flush_each (indices (λ m, negb (is_summary m)) ms) (set_streaming false d, w) in
      (Ok (sc_high sc), flush_each (summary_lanes ms) s)
  end.

(** ** A drain *)

Definition lane_holds (d : Drain) : list (option Z) := omap (λ l, fst <$> ln_stopped l) (d_lanes d).
Definition lane_moves (d : Drain) : list (nat * Mapping * Pos) :=
  omap (λ x : nat * Lane, let '(i, l) := x in
          if ln_moved l then p ← ln_delivered l; Some (i, ln_mapping l, p) else None)
    (imap (λ i l, (i, l)) (d_lanes d)).

(** Everything after the peek: sync, record, move the slot. *)
Definition settle (mode : Mode) (d : Drain) (high : Z) : cdc unit :=
  sync_all mode (d_appended d) ;;;
  (if bool_decide (lane_moves d = []) then ret tt else step mode (save_positions (lane_moves d))) ;;;
  match advance_target (Some high) (lane_holds d) with
  | Some target => step mode (advance target ;;; release_lock)
  | None => ret tt
  end.

Record Drained : Type := mk_drained { dr_produced : Z; dr_stalled : list Reason }.

(** The first step: the lock, the mappings, the cursor and its first rows. *)
Definition open_drain (max_changes : Z) (mode : Mode) (first : result bytes (list (bytes * bytes)))
    : cdc (option (list Mapping * list (bytes * bytes))) :=
  step mode
    (let* got := calls (take_lock mode) in
     if negb got then ret None
     else
       let* there := calls (λ e, (Ok (slot_exists e), e)) in
       if negb there then release_lock ;;; ret None
       else
         let* ms := calls load_mappings in
         calls (open_cursor max_changes) ;;;
         let* rows := (λ w, (first, w)) in
         ret (Some (ms, rows))).

Definition drain_locked (max_changes : Z) (mode : Mode) (first : result bytes (list (bytes * bytes)))
    (peeks : list (result bytes (list (bytes * bytes)))) : cdc Drained := λ w,
  match open_drain max_changes mode first w with
  | (Err e, w) => (Err e, w)
  | (Ok None, w) => (Ok (mk_drained 0 []), w)
  | (Ok (Some (ms, rows)), w) =>
      let '(drained, (d, w)) := stream ms rows peeks mode w in
      let over := match drained with Ok (Some _) => false | _ => true end in
      let '(closed, w) :=
        step mode (calls close_cursor ;;; if over : bool then release_lock else ret tt) w in
      match drained with
      | Err e => (Err e, w)
      | Ok high =>
          match closed with
          | Err e => (Err e, w)
          | Ok _ =>
              match high with
              | None => (Ok (mk_drained 0 []), w)
              | Some high =>
                  (settle mode d high ;;;
                   ret (mk_drained (d_produced d) (omap (λ l, snd <$> ln_stopped l) (d_lanes d)))) w
              end
          end
      end
  end.

Definition drain (max_changes : Z) (mode : Mode) (first : result bytes (list (bytes * bytes)))
    (peeks : list (result bytes (list (bytes * bytes)))) : cdc Drained := λ w,
  let '(drained, w) := drain_locked max_changes mode first peeks w in
  if lock_held (w_env w) then (drained, (step mode release_lock w).2) else (drained, w).

End Cdc.
