(* ===== verification/CdcInv.v ===== *)
(** * Runs of changes

    What a run of a lane holds: consecutive offers, their elements joined into the
    body, and the ends of their transactions.  Extending a run, cutting it where the
    slot is held, and splitting it into its transactions, in terms of the offers.

    Behind it: the history of a drain, and [inv], what it has done at any time. *)

From stdpp Require Import gmap sorting strings.
From S2P Require Import Prelude Sasl Cdc.

#[local] Open Scope Z_scope.

(** ** Offers *)

Definition o_lane (o : Offer) : nat := o.1.1.1.1.
Definition o_pos (o : Offer) : Pos := o.1.1.1.2.
Definition o_hold (o : Offer) : option Z := o.1.1.2.
Definition o_cols (o : Offer) : bytes := o.1.2.
Definition o_element (o : Offer) : bytes := o.2.

(** The slot may stay at [a] for a change kept by [b]. *)
Definition hold_le (a b : option Z) : Prop :=
  match a with None => True | Some x => ∃ y, b = Some y ∧ x ≤ y end.

Lemma hold_le_refl a : hold_le a a.
Proof. destruct a; [| done]. eexists. split; [done | lia]. Qed.

Lemma hold_le_trans a b c : hold_le a b → hold_le b c → hold_le a c.
Proof.
  destruct a as [x|]; [| done]. intros (y & -> & Hy) (z & -> & Hz). exists z. split; [done | lia].
Qed.

(** The JSON array of elements a run is rendered from. *)
Definition elements_of (os : list Offer) : bytes := join (lit ",") (o_element <$> os).
Definition array (os : list Offer) : bytes := lit "[" ++ elements_of os ++ lit "]".

Definition head_hold (os : list Offer) : option Z := match os with o :: _ => o_hold o | [] => None end.
Definition last_pos (os : list Offer) : Pos := match last os with Some o => o_pos o | None => (0, 0) end.

Lemma join_snoc sep l x : join sep (l ++ [x]) = join sep l ++ (if bool_decide (l = []) then [] else sep) ++ x.
Proof.
  induction l as [|y l IH]; [done |]. cbn [app]. destruct l as [|z l]; [done |].
  change (join sep (y :: (z :: l) ++ [x])) with (y ++ sep ++ join sep ((z :: l) ++ [x])).
  rewrite IH. cbn [join]. by rewrite <- !app_assoc.
Qed.

Lemma join_app sep l l' : l ≠ [] → l' ≠ [] → join sep (l ++ l') = join sep l ++ sep ++ join sep l'.
Proof.
  intros Hl Hl'. induction l as [|y l IH]; [done |]. destruct l as [|z l].
  - cbn [app]. by destruct l'.
  - change (join sep ((y :: z :: l) ++ l')) with (y ++ sep ++ join sep ((z :: l) ++ l')).
    rewrite IH by done. cbn [join]. by rewrite <- !app_assoc.
Qed.

Lemma elements_snoc os o :
  elements_of (os ++ [o]) = elements_of os ++ (if bool_decide (os = []) then [] else lit ",") ++ o_element o.
Proof.
  unfold elements_of. rewrite fmap_app. cbn. rewrite join_snoc. by destruct os.
Qed.

Lemma elements_app os os' : os ≠ [] → os' ≠ [] →
  elements_of (os ++ os') = elements_of os ++ lit "," ++ elements_of os'.
Proof.
  intros H1 H2. unfold elements_of. rewrite fmap_app. apply join_app; [by destruct os | by destruct os'].
Qed.

(** ** Transactions of a run *)

(** The ends of the transactions [gs] behind the offers [pre]. *)
Fixpoint ends_of (pre : list Offer) (gs : list (list Offer)) : list (Pos * option Z * Z) :=
  match gs with
  | [] => []
  | g :: gs => (last_pos g, head_hold g, 1 + len (elements_of (pre ++ g))) :: ends_of (pre ++ g) gs
  end.

Lemma ends_of_app pre gs gs' : ends_of pre (gs ++ gs') = ends_of pre gs ++ ends_of (pre ++ concat gs) gs'.
Proof.
  revert pre. induction gs as [|g gs IH]; intros pre; cbn; [by rewrite app_nil_r |].
  by rewrite IH, <- app_assoc.
Qed.

Lemma ends_of_length pre gs : length (ends_of pre gs) = length gs.
Proof. revert pre. induction gs; intros pre; cbn; [done |]. by rewrite IHgs. Qed.

(** One transaction: offers of the same end. *)
Definition txn_of (n : Z) (g : list Offer) : Prop := g ≠ [] ∧ Forall (λ o, (o_pos o).1 = n) g.
(** Transactions in commit order. *)
Inductive grouped : list (list Offer) → Prop :=
| grouped_nil : grouped []
| grouped_cons n g gs : txn_of n g → Forall (λ o, n < (o_pos o).1) (concat gs) → grouped gs → grouped (g :: gs).

Lemma txn_last n g : txn_of n g → (last_pos g).1 = n.
Proof.
  intros [Hg Hn]. unfold last_pos. destruct (last g) as [o|] eqn:El; [| by apply last_None in El].
  apply last_Some_elem_of in El. by eapply Forall_forall in Hn.
Qed.

Lemma grouped_ne gs g : grouped gs → g ∈ gs → g ≠ [].
Proof. induction 1 as [|n g' gs [Hg _] _ _ IH]; [set_solver |]. intros [->|?]%elem_of_cons; [done | by apply IH]. Qed.

(** A run holds [os]. *)
Record run_ok (r : Run) (os : list Offer) : Prop := mk_run_ok {
  ro_some : os ≠ [];
  ro_body : rn_body r = lit "[" ++ elements_of os;
  ro_hold : rn_hold r = head_hold os;
  ro_last : rn_last r = last_pos os;
  ro_groups : ∃ gs, concat gs = os ∧ grouped gs ∧ rn_ends r = ends_of [] gs;
  ro_cols : Forall (λ o, o_cols o = rn_cols r) os }.
Definition run_of (r : option Run) (os : list Offer) : Prop :=
  match r with Some r => run_ok r os | None => os = [] end.

Lemma grouped_new gs n g : grouped gs → Forall (λ o, (o_pos o).1 < n) (concat gs) → txn_of n g → grouped (gs ++ [g]).
Proof.
  induction 1 as [|k g' gs Hg Hlt _ IH]; intros Hn Hg'.
  - by apply (grouped_cons n); [| constructor | constructor].
  - cbn in *. apply Forall_app in Hn as [Hn1 Hn2]. apply (grouped_cons k); [done | | by apply IH].
    rewrite concat_app. cbn. rewrite app_nil_r. apply Forall_app. split; [done |].
    destruct Hg as [Hne Hk]. destruct g' as [|o g']; [done |]. apply Forall_cons in Hk as [Ho _].
    apply Forall_cons in Hn1 as [Ho' _]. destruct Hg' as [_ Hg']. eapply Forall_impl; [exact Hg' |]. cbn. lia.
Qed.

Lemma grouped_extend gs n g o : grouped (gs ++ [g]) → txn_of n g → (o_pos o).1 = n → grouped (gs ++ [g ++ [o]]).
Proof.
  intros Hg Hn Ho. induction gs as [|g' gs IH]; cbn in *.
  - inversion Hg as [|k ? ? Hk _ _]; subst. apply (grouped_cons (o_pos o).1); [| constructor | constructor].
    destruct Hn as [Hne Hall]. split; [by destruct g |]. apply Forall_app. split; [done | by constructor].
  - inversion Hg as [|k ? ? Hk Hlt Hgs]; subst. apply (grouped_cons k); [done | | by apply IH].
    revert Hlt. rewrite !concat_app. cbn. rewrite !app_nil_r, !Forall_app. intros [H1 H2]. split_and!; [done | done |].
    constructor; [| done]. destruct Hn as [Hne Hall]. destruct g as [|x g]; [done |].
    apply Forall_cons in Hall as [Hx _]. apply Forall_cons in H2 as [Hx' _]. lia.
Qed.

Lemma grouped_last gs g : grouped (gs ++ [g]) → ∃ n, txn_of n g.
Proof.
  induction gs as [|g' gs IH]; cbn; intros Hg; inversion Hg; subst; [by eexists | by apply IH].
Qed.

Lemma grouped_le gs n g : grouped (gs ++ [g]) → txn_of n g → Forall (λ o, (o_pos o).1 ≤ n) (concat (gs ++ [g])).
Proof.
  intros Hg Hn. induction gs as [|g' gs IH]; cbn in *.
  - rewrite app_nil_r. eapply Forall_impl; [apply Hn |]. cbn. lia.
  - inversion Hg as [|k ? ? [_ Hk] Hlt Hgs]; subst. apply Forall_app. split; [| by apply IH].
    assert (k < n); [| eapply Forall_impl; [exact Hk |]; cbn; lia].
    rewrite concat_app in Hlt. cbn in Hlt. rewrite app_nil_r in Hlt. apply Forall_app in Hlt as [_ Hlt].
    destruct Hn as [Hne Hall]. destruct g as [|x g]; [done |]. apply Forall_cons in Hall as [Hx _].
    apply Forall_cons in Hlt as [Hx' _]. lia.
Qed.

Lemma last_pos_snoc os o : last_pos (os ++ [o]) = o_pos o.
Proof. unfold last_pos. by rewrite last_snoc. Qed.
Lemma head_hold_app os os' : os ≠ [] → head_hold (os ++ os') = head_hold os.
Proof. by destruct os. Qed.

Lemma elements_ne os : os ≠ [] → Forall (λ o, o_element o ≠ []) os → elements_of os ≠ [].
Proof.
  intros Hne Hall He. destruct os as [|o os]; [done |]. apply Forall_cons in Hall as [Ho _].
  unfold elements_of in He. cbn in He. destruct (o_element o) eqn:E; [done |].
  cbn in He. by destruct (o_element <$> os).
Qed.

Lemma len_nil_iff (b : bytes) : len b = 0 ↔ b = [].
Proof. destruct b; cbn; split; try done; rewrite ?len_cons; pose proof (len_nonneg b); lia. Qed.

Lemma join_body os : Forall (λ o, o_element o ≠ []) os →
  (1 <? len (lit "[" ++ elements_of os)) = negb (bool_decide (os = [])).
Proof.
  intros Hall. rewrite len_app. change (len (lit "[")) with 1. destruct (decide (os = [])) as [->|Hne].
  - by rewrite bool_decide_eq_true_2.
  - rewrite bool_decide_eq_false_2 by done. apply Z.ltb_lt.
    pose proof (elements_ne os Hne Hall) as He. pose proof (len_nonneg (elements_of os)).
    destruct (decide (len (elements_of os) = 0)) as [E0|]; [by apply len_nil_iff in E0 | lia].
Qed.

(** Extending a run by the next offer. *)
Lemma extend_ok r os o : run_of r os → Forall (λ x, o_element x ≠ []) os →
  Forall (λ x, (o_pos x).1 ≤ (o_pos o).1) os → (∀ r', r = Some r' → rn_cols r' = o_cols o) →
  run_ok (extend (o_pos o) (o_hold o) (o_cols o) (o_element o) r) (os ++ [o]).
Proof.
  intros Hr Hel Hle Hcols. unfold extend.
  assert (∃ gs, concat gs = os ∧ grouped gs ∧ (default (mk_run (o_cols o) (lit "[") (o_hold o) (o_pos o) []) r).(rn_ends) = ends_of [] gs
    ∧ (default (mk_run (o_cols o) (lit "[") (o_hold o) (o_pos o) []) r).(rn_body) = lit "[" ++ elements_of os
    ∧ (default (mk_run (o_cols o) (lit "[") (o_hold o) (o_pos o) []) r).(rn_hold) = head_hold (os ++ [o])
    ∧ Forall (λ x, o_cols x = (default (mk_run (o_cols o) (lit "[") (o_hold o) (o_pos o) []) r).(rn_cols)) (os ++ [o]))
    as (gs & Hos & Hgr & He & Hb & Hh & Hco).
  { destruct r as [r|]; cbn in Hr.
    - destruct Hr as [Hne Hb Hh _ (gs & H1 & H2 & H3) Hco]. exists gs. rewrite head_hold_app by done. split_and!; try done.
      apply Forall_app. split; [done |]. constructor; [| done]. symmetry. by apply Hcols.
    - subst os. exists []. split_and!; try done; [constructor | by repeat constructor]. }
  set (run := default _ r) in *. rewrite Hb, (join_body os Hel), He.
  assert ((lit "[" ++ elements_of os) ++ (if negb (bool_decide (os = [])) then lit "," else []) ++ o_element o
    = lit "[" ++ elements_of (os ++ [o])) as ->.
  { rewrite elements_snoc, <- app_assoc. by destruct (bool_decide (os = [])). }
  assert (len (lit "[" ++ elements_of (os ++ [o])) = 1 + len (elements_of (os ++ [o]))) as -> by (rewrite len_app; done).
  split; cbn; [by destruct os | done | done | by rewrite last_pos_snoc | | done].
  destruct gs as [|g gs _] using rev_ind.
  { cbn in Hos. subst os. exists [[o]]. cbn. split_and!; [done | | done].
    apply (grouped_cons (o_pos o).1); [split; [done | by constructor] | constructor | constructor]. }
  destruct (grouped_last _ _ Hgr) as [n Hn]. pose proof (txn_last n g Hn) as Hln.
  rewrite concat_app in Hos. cbn in Hos. rewrite app_nil_r in Hos.
  rewrite ends_of_app. cbn [ends_of app]. rewrite last_snoc. cbn [fst snd]. rewrite Hln.
  destruct (Z.eqb_spec n (o_pos o).1) as [En|Hne].
  - exists (gs ++ [g ++ [o]]). rewrite concat_app. cbn. rewrite app_nil_r. split; [by rewrite app_assoc, Hos |].
    split; [eapply grouped_extend; [done | exact Hn | done] |].
    rewrite removelast_last, ends_of_app. cbn. rewrite last_pos_snoc, app_assoc, Hos.
    rewrite head_hold_app by apply Hn. done.
  - exists ((gs ++ [g]) ++ [[o]]). rewrite !concat_app. cbn. rewrite !app_nil_r. split; [by rewrite Hos |].
    split.
    + pose proof (grouped_le _ n _ Hgr Hn) as Hall. rewrite concat_app in Hall. cbn in Hall.
      rewrite app_nil_r, Hos in Hall.
      apply (grouped_new _ (o_pos o).1); [done | | split; [done | by constructor]].
      rewrite concat_app. cbn. rewrite app_nil_r, Hos. assert (n < (o_pos o).1) as Hlt.
      { destruct Hn as [Hg Hn]. destruct g as [|x g]; [done |]. apply Forall_cons in Hn as [Hx _].
        assert (x ∈ os) as Hin by (rewrite <- Hos; set_solver). rewrite Forall_forall in Hle. specialize (Hle x Hin). lia. }
      eapply Forall_impl; [exact Hall |]. cbn. lia.
    + rewrite !ends_of_app. cbn. rewrite concat_app. cbn. by rewrite !app_nil_r, Hos.
Qed.

(** ** Splitting a run *)

(** Where the elements behind [pre] start in a body. *)
Definition start_of (pre : list Offer) : Z := if bool_decide (pre = []) then 1 else 2 + len (elements_of pre).

Lemma len_lit1 : len (lit "[") = 1 ∧ len (lit ",") = 1.
Proof. done. Qed.

Lemma slice_at (a b c : bytes) : slice (length a) (length b) (a ++ b ++ c) = b.
Proof. unfold slice. rewrite drop_app_length. apply take_app_length. Qed.

(** The bytes of the transaction [g] between those before and behind it. *)
Lemma cut_group pre g tail : g ≠ [] →
  slice (Z.to_nat (start_of pre)) (Z.to_nat (1 + len (elements_of (pre ++ g)) - start_of pre))
    ((lit "[" ++ elements_of (pre ++ g)) ++ tail) = elements_of g.
Proof.
  intros Hg. unfold start_of. case_bool_decide as Hp.
  - subst pre. cbn [app]. replace (Z.to_nat 1) with (length (lit "[")) by done.
    replace (Z.to_nat (1 + len (elements_of g) - 1)) with (length (elements_of g)) by (unfold len; lia).
    rewrite <- app_assoc. apply slice_at.
  - rewrite elements_app by done. rewrite !len_app. destruct len_lit1 as [_ Hc]. rewrite Hc.
    replace (Z.to_nat (2 + len (elements_of pre))) with (length (lit "[" ++ elements_of pre ++ lit ","))
      by (rewrite !length_app; cbn; unfold len; lia).
    replace (Z.to_nat _) with (length (elements_of g)) by (unfold len; lia).
    replace ((lit "[" ++ elements_of pre ++ lit "," ++ elements_of g) ++ tail)
      with ((lit "[" ++ elements_of pre ++ lit ",") ++ elements_of g ++ tail) by (by rewrite <- !app_assoc).
    apply slice_at.
Qed.

Lemma elements_prefix os os' : ∃ t, elements_of (os ++ os') = elements_of os ++ t.
Proof.
  destruct (decide (os' = [])) as [->|H']; [exists []; by rewrite !app_nil_r |].
  destruct (decide (os = [])) as [->|Hn]; [by eexists |]. rewrite elements_app by done. by eexists.
Qed.

Lemma cut_ends gs pre os : grouped gs → os = pre ++ concat gs →
  cut (lit "[" ++ elements_of os) (start_of pre) (ends_of pre gs) = (λ g, (head_hold g, last_pos g, array g)) <$> gs.
Proof.
  intros Hgr. revert pre os. induction Hgr as [|n g gs [Hg _] _ _ IH]; intros pre os ->; [done |].
  cbn [ends_of cut concat]. rewrite fmap_cons, (app_assoc pre g).
  destruct (elements_prefix (pre ++ g) (concat gs)) as [t Ht]. f_equal.
  - unfold array. do 3 f_equal. rewrite Ht, app_assoc. by apply cut_group.
  - rewrite <- (IH (pre ++ g) _ eq_refl). f_equal. unfold start_of.
    rewrite bool_decide_eq_false_2 by (by intros [-> ->]%app_nil). lia.
Qed.

Lemma transactions_ok r os : run_ok r os →
  ∃ gs, concat gs = os ∧ grouped gs ∧ length (rn_ends r) = length gs ∧
        transactions r = (λ g, (head_hold g, last_pos g, array g)) <$> gs.
Proof.
  intros [_ Hb _ _ (gs & Hos & Hgr & He)]. exists gs. rewrite He, ends_of_length. split_and!; try done.
  unfold transactions. rewrite Hb, He. by apply (cut_ends gs []).
Qed.

(** ** Cutting a run *)

Lemma take_while_split {A} (f : A → bool) l : ∃ l', l = take_while f l ++ l' ∧ Forall (λ x, f x = true) (take_while f l) ∧
  match l' with x :: _ => f x = false | [] => True end.
Proof.
  induction l as [|x l (l' & E & Hall & Hl')]; cbn; [by exists [] |]. destruct (f x) eqn:Ex.
  - exists l'. split; [by rewrite E at 1 |]. by split; [constructor |].
  - by exists (x :: l).
Qed.

(** Groups up to [h], and those past it. *)
Lemma groups_split gs pre h : grouped gs → ∃ gs1 gs2, gs = gs1 ++ gs2 ∧
  take_while (λ e : Pos * option Z * Z, e.1.1.1 <=? h) (ends_of pre gs) = ends_of pre gs1 ∧
  Forall (λ o, (o_pos o).1 ≤ h) (concat gs1) ∧ Forall (λ o, h < (o_pos o).1) (concat gs2).
Proof.
  intros Hgr. revert pre. induction Hgr as [|n g gs Hg Hlt Hgr IH]; intros pre; [by exists [], [] |].
  cbn [ends_of take_while]. cbn. rewrite (txn_last n g Hg). destruct (Z.leb_spec n h) as [Hle|Hgt].
  - destruct (IH (pre ++ g)) as (gs1 & gs2 & -> & Et & H1 & H2). exists (g :: gs1), gs2. cbn. rewrite Et.
    split_and!; try done. apply Forall_app. split; [| done]. eapply Forall_impl; [apply Hg |]. cbn. lia.
  - exists [], (g :: gs). split_and!; try done. cbn. apply Forall_app. split.
    + eapply Forall_impl; [apply Hg |]. cbn. lia.
    + eapply Forall_impl; [exact Hlt |]. cbn. lia.
Qed.

Lemma grouped_app gs gs' : grouped (gs ++ gs') → grouped gs ∧ grouped gs'.
Proof.
  induction gs as [|g gs IH]; cbn; intros Hg; [split; [constructor | done] |].
  inversion Hg as [|n ? ? H1 H2 H3]; subst. destruct (IH H3). split; [| done].
  apply (grouped_cons n); [done | | done]. rewrite concat_app in H2. by apply Forall_app in H2 as [? _].
Qed.

Lemma ends_filter_all gs pre n : Forall (λ o, (o_pos o).1 ≤ n) (concat gs) → grouped gs →
  List.filter (λ e : Pos * option Z * Z, e.1.1.1 <=? n) (ends_of pre gs) = ends_of pre gs.
Proof.
  intros Hall Hgr. revert pre Hall. induction Hgr as [|k g gs Hg _ _ IH]; intros pre Hall; [done |]. cbn in *.
  apply Forall_app in Hall as [H1 H2]. rewrite (txn_last k g Hg). destruct Hg as [Hne Hk].
  destruct g as [|x g]; [done |]. apply Forall_cons in Hk as [Hx _]. apply Forall_cons in H1 as [Hx' _].
  rewrite (proj2 (Z.leb_le k n)) by lia. f_equal. by apply IH.
Qed.

Lemma ends_filter_none gs pre n : Forall (λ o, n < (o_pos o).1) (concat gs) → grouped gs →
  List.filter (λ e : Pos * option Z * Z, e.1.1.1 <=? n) (ends_of pre gs) = [].
Proof.
  intros Hall Hgr. revert pre Hall. induction Hgr as [|k g gs Hg _ _ IH]; intros pre Hall; [done |]. cbn in *.
  apply Forall_app in Hall as [H1 H2]. rewrite (txn_last k g Hg). destruct Hg as [Hne Hk].
  destruct g as [|x g]; [done |]. apply Forall_cons in Hk as [Hx _]. apply Forall_cons in H1 as [Hx' _].
  rewrite (proj2 (Z.leb_gt k n)) by lia. by apply IH.
Qed.

Lemma grouped_last_pos gs g : last_pos (concat (gs ++ [g])) = last_pos g ∨ g = [].
Proof.
  destruct g as [|x g _] using rev_ind; [by right |]. left. rewrite concat_app. cbn.
  by rewrite app_nil_r, app_assoc, !last_pos_snoc.
Qed.

(** Cutting at [hold] keeps the offers of transactions that ended by then. *)
Lemma cut_run_ok r os hold why : run_ok r os →
  match cut_run (Some (hold, why)) r with
  | None => match hold with Some h => Forall (λ o, h < (o_pos o).1) os | None => True end
  | Some r' => ∃ h os1 os2, hold = Some h ∧ os = os1 ++ os2 ∧ run_ok r' os1 ∧ Forall (λ o, (o_pos o).1 ≤ h) os1 ∧
      Forall (λ o, h < (o_pos o).1) os2
  end.
Proof.
  intros [Hne Hb Hh _ (gs & Hos & Hgr & He) Hco]. unfold cut_run, deliverable. rewrite He. destruct hold as [h|].
  2:{ assert (∀ l : list (Pos * option Z * Z), take_while (λ _, false) l = []) as Hn by (by intros []).
      by rewrite Hn. }
  destruct (groups_split gs [] h Hgr) as (gs1 & gs2 & -> & Et & H1 & H2). rewrite Et.
  destruct (grouped_app _ _ Hgr) as [G1 G2]. rewrite concat_app in Hos.
  destruct gs1 as [|g gs1 _] using rev_ind; [cbn; by rewrite <- Hos |].
  rewrite (ends_of_app [] gs1 [g]). cbn [ends_of app]. rewrite last_snoc. cbn.
  destruct (grouped_last _ _ G1) as [n Hn]. rewrite (txn_last n g Hn).
  exists h, (concat (gs1 ++ [g])), (concat gs2). split; [done |]. split; [done |].
  pose proof (grouped_le _ n _ G1 Hn) as Hle.
  assert (concat gs1 ++ g = concat (gs1 ++ [g])) as Ec by (rewrite concat_app; cbn; by rewrite app_nil_r).
  assert (concat (gs1 ++ [g]) ≠ []) as Hc by (rewrite <- Ec; destruct Hn as [? _]; by intros [_ ->]%app_nil).
  split; [| by split]. split; cbn; [done | | | | | rewrite <- Hos in Hco; by apply Forall_app in Hco as [? _]].
  - rewrite Ec, Hb, <- Hos. destruct (elements_prefix (concat (gs1 ++ [g])) (concat gs2)) as [t ->].
    rewrite app_assoc. replace (Z.to_nat _) with (length (lit "[" ++ elements_of (concat (gs1 ++ [g]))))
      by (rewrite length_app; cbn; unfold len; lia). apply take_app_length.
  - by rewrite Hh, <- Hos, head_hold_app.
  - destruct (grouped_last_pos gs1 g) as [Hl|Hl]; [by rewrite Hl |]. by destruct Hn.
  - exists (gs1 ++ [g]). split; [done |]. split; [done |]. rewrite ends_of_app, List.filter_app.
    rewrite ends_filter_all, ends_filter_none, app_nil_r; try done.
    destruct (decide (gs2 = [])) as [->|Hg2]; [constructor |].
    assert (n ≤ h); [| eapply Forall_impl; [exact H2 |]; cbn; lia].
    destruct Hn as [Hg Hn]. destruct g as [|x g]; [done |]. apply Forall_cons in Hn as [Hx _].
    rewrite <- Ec in H1. apply Forall_app in H1 as [_ H1]. apply Forall_cons in H1 as [Hx' _]. lia.
Qed.

Lemma cut_run_hold held r r' : cut_run held r = Some r' → rn_hold r' = rn_hold r.
Proof.
  destruct held as [[hold why]|]; cbn [cut_run]; [| by intros [= <-]].
  destruct (deliverable (rn_ends r) hold) as [[[pos h] n]|]; [by intros [= <-] | done].
Qed.

(** * What a drain has done at any time

    [OS] is everything a peek has to offer, lane by lane; [os] what has been offered so
    far.  Of the offers due to a lane a prefix was delivered, in runs that became
    [Produced] events; the rest waits in the lane's run, or the lane has stopped and
    holds the slot before it.  Positions are recorded, and the slot moved, only over
    what was delivered and synced: [history]. *)

(** ** History *)

(** The runs delivered to a lane. *)
Definition bodies (i : nat) (evs : list Event) : list bytes :=
  omap (λ ev, match ev with Produced j b _ => if bool_decide (j = i) then Some b else None | _ => None end) evs.

(** Partitions a lane appended to that were not synced since. *)
Definition owed_after (i : nat) (owed : Parts) (ev : Event) : Parts :=
  match ev with
  | Produced j _ ps => if bool_decide (j = i) then owed ∪ ps else owed
  | Synced ps => owed ∖ ps
  | _ => owed
  end.
Definition owed (i : nat) (evs : list Event) : Parts := foldl (owed_after i) ∅ evs.

Lemma owed_snoc i evs ev : owed i (evs ++ [ev]) = owed_after i (owed i evs) ev.
Proof. unfold owed. by rewrite foldl_app. Qed.
Lemma bodies_app i evs evs' : bodies i (evs ++ evs') = bodies i evs ++ bodies i evs'.
Proof. apply omap_app. Qed.

(** Events of other lanes, and those of a run on its way into the log. *)
Definition apart (i : nat) (ev : Event) : Prop := match ev with Produced j _ _ => j ≠ i | _ => True end.
Definition plain (ev : Event) : Prop :=
  match ev with
  | Resolves _ _ | Renders _ _ _ _ | Splits _ _ | Buries _ _ _ | Appends _ _ _ _ => True
  | Produced _ _ _ | Synced _ | Saved _ | Advanced _ => False
  end.

Lemma bodies_apart i evs evs' : Forall (apart i) evs' → bodies i (evs ++ evs') = bodies i evs.
Proof.
  intros Hall. rewrite bodies_app. replace (bodies i evs') with (@nil bytes); [by rewrite app_nil_r |].
  induction Hall as [|ev evs' Hev _ IH]; [done |]. unfold bodies in *. cbn. rewrite <- IH.
  destruct ev; try done. cbn in Hev. by rewrite bool_decide_eq_false_2.
Qed.

Lemma owed_apart i evs evs' : Forall (apart i) evs' → owed i (evs ++ evs') ⊆ owed i evs.
Proof.
  revert evs. induction evs' as [|ev evs' IH]; intros evs Hall; [by rewrite app_nil_r |].
  apply Forall_cons in Hall as [Hev Hall]. replace (evs ++ ev :: evs') with ((evs ++ [ev]) ++ evs') by (by rewrite <- app_assoc).
  etransitivity; [by apply IH |]. rewrite owed_snoc. destruct ev; cbn in *; try done; [| set_solver].
  by rewrite bool_decide_eq_false_2.
Qed.

Lemma plain_apart i evs : Forall plain evs → Forall (apart i) evs.
Proof. intros Hp. eapply Forall_impl; [exact Hp |]. by intros []. Qed.

Lemma owed_plain i evs evs' : Forall plain evs' → owed i (evs ++ evs') = owed i evs.
Proof.
  revert evs. induction evs' as [|ev evs' IH]; intros evs Hall; [by rewrite app_nil_r |].
  apply Forall_cons in Hall as [Hev Hall]. replace (evs ++ ev :: evs') with ((evs ++ [ev]) ++ evs') by (by rewrite <- app_assoc).
  rewrite IH by done. rewrite owed_snoc. by destruct ev.
Qed.

(** ** What a delivered run became

    The topic the mapping names, the rendering of the run and one append per rendered
    record, each on the partition of its key.  A mapping that does not stall has a run
    that cannot be rendered rendered change by change, the changes that cannot be become
    dead letters; all of them do when its topic does not exist.  When an append fails
    behind others of the run, all its changes become dead letters too. *)

Definition append_of (t : Target) (row : option bytes * option bytes) : Event :=
  Appends (tg_topic_id t) (partition_for row.1 (tg_partitions t)) row.1 row.2.
Definition parts_of (t : Target) (rows : Rendered) : Parts :=
  list_to_set ((λ row : option bytes * option bytes, (tg_topic_id t, partition_for row.1 (tg_partitions t))) <$> rows).
Definition buried (m : Mapping) (why : bytes) (each : list bytes) : list Event := (λ one, Buries m one why) <$> each.

(** Changes rendered one at a time. *)
Inductive rendered_each (m : Mapping) (cols : list (bytes * bytes)) : list bytes → list Event → Rendered → Prop :=
| each_none : rendered_each m cols [] [] []
| each_rendered one rows each evs out : rendered_each m cols each evs out →
    rendered_each m cols (one :: each) (Renders m cols one rows :: evs) (rows ++ out)
| each_buried one why each evs out : rendered_each m cols each evs out →
    rendered_each m cols (one :: each) (Buries m one why :: evs) out.

Definition rendered_as (m : Mapping) (cols : list (bytes * bytes)) (body : bytes) (evs : list Event) (rows : Rendered) : Prop :=
  evs = [Renders m cols body rows] ∨
  stalls m = false ∧ ∃ each evs', evs = Splits body each :: evs' ∧ rendered_each m cols each evs' rows.

Inductive written (m : Mapping) (cols : list (bytes * bytes)) (body : bytes) : list Event → Parts → Prop :=
| written_whole t evs rows : rendered_as m cols body evs rows →
    written m cols body (Resolves (mp_topic m) t :: evs ++ (append_of t <$> rows)) (parts_of t rows)
| written_partly t evs rows row rest each why : rendered_as m cols body evs (rows ++ row :: rest) → rows ≠ [] →
    written m cols body
      (Resolves (mp_topic m) t :: evs ++ (append_of t <$> rows) ++ Splits body each :: buried m why each) (parts_of t rows)
| written_nowhere each why : stalls m = false → written m cols body (Splits body each :: buried m why each) ∅.

(** The slot has not been moved. *)
Definition unmoved (evs : list Event) : Prop := ∀ t, Advanced t ∉ evs.

Lemma unmoved_app evs evs' : unmoved evs → unmoved evs' → unmoved (evs ++ evs').
Proof. intros H1 H2 t [?|?]%elem_of_app; [by eapply H1 | by eapply H2]. Qed.

Lemma unmoved_plain evs : Forall plain evs → unmoved evs.
Proof. rewrite Forall_forall. intros Hp t Ht. by apply Hp in Ht. Qed.

Lemma unmoved_one ev : (∀ t, ev ≠ Advanced t) → unmoved [ev].
Proof. intros Hev t Ht%list_elem_of_singleton. by apply (Hev t). Qed.

(** ** The order of a peek *)

Definition pos_lt (a b : Pos) : Prop := a.1 < b.1 ∨ (a.1 = b.1 ∧ a.2 < b.2).

(** [o] is offered before [o']. *)
Definition before (o o' : Offer) : Prop :=
  (o_pos o).1 ≤ (o_pos o').1 ∧ hold_le (o_hold o) (o_hold o') ∧
  pos_le (o_pos o) (o_pos o') ∧ (o_lane o = o_lane o' → pos_lt (o_pos o) (o_pos o')).

(** Holding the slot at the hold of any offer keeps every transaction that ends past it. *)
Record in_commit_order (OS : list Offer) : Prop := mk_order {
  co_sorted : StronglySorted before OS;
  co_element : ∀ o, o ∈ OS → o_element o ≠ [];
  co_hold : ∀ o h, o ∈ OS → o_hold o = Some h → h < (o_pos o).1 ∧ h < 2 ^ 64;
  co_keeps : ∀ o o' h, o ∈ OS → o' ∈ OS → o_hold o = Some h → h < (o_pos o').1 → hold_le (Some h) (o_hold o') }.

Lemma offers_filtered (f : Offer → bool) l : StronglySorted before l → StronglySorted before (List.filter f l).
Proof.
  induction 1 as [|x l Hl IH Hx]; cbn; [constructor |]. destruct (f x); [| done]. constructor; [done |].
  rewrite Forall_forall in Hx |- *. intros y Hy. apply Hx. rewrite list_elem_of_In, filter_In in Hy.
  apply list_elem_of_In, Hy.
Qed.

Lemma sorted_split (l : list Offer) a b x y : StronglySorted before l → l = a ++ b → x ∈ a → y ∈ b → before x y.
Proof.
  intros Hs. revert a. induction Hs as [|z l _ IH Hz]; intros a Heq Hx Hy.
  { symmetry in Heq. apply app_nil in Heq as [-> ->]. set_solver. }
  destruct a as [|z' a]; [set_solver |]. injection Heq as <- ->. apply elem_of_cons in Hx as [->|Hx].
  - rewrite Forall_forall in Hz. apply Hz. set_solver.
  - by eapply IH.
Qed.

Section Drain.
Context {E : Type} {H : CdcHost E}.
Context (ms : list Mapping) (OS : list Offer) (Horder : in_commit_order OS).

(** How far mapping [i] had got before the drain. *)
Definition start (i : nat) : option Pos := m ← ms !! i; mp_delivered m.
Definition already (i : nat) (o : Offer) : bool :=
  match start i with Some p => bool_decide (pos_le (o_pos o) p) | None => false end.
(** What is due to lane [i]. *)
Definition due (i : nat) (os : list Offer) : list Offer :=
  List.filter (λ o, bool_decide (o_lane o = i) && negb (already i o)) os.

Lemma due_app i os os' : due i (os ++ os') = due i os ++ due i os'.
Proof. apply List.filter_app. Qed.

Lemma due_in i os o : o ∈ due i os ↔ o ∈ os ∧ o_lane o = i ∧ already i o = false.
Proof.
  unfold due. rewrite !list_elem_of_In, filter_In. rewrite andb_true_iff, bool_decide_eq_true, negb_true_iff. done.
Qed.

(** Recorded as delivered to [p]: everything due up to there was, and is durable. *)
Definition delivered_to (evs : list Event) (i : nat) (covers : Offer → Prop) : Prop :=
  owed i evs = ∅ ∧ ∃ chunks, bodies i evs = array <$> chunks ∧ concat chunks `prefix_of` due i OS ∧
    ∀ o, o ∈ due i OS → covers o → o ∈ concat chunks.

(** A position that may be recorded. *)
Definition saved_at (evs : list Event) (i : nat) (p : Pos) : Prop :=
  delivered_to evs i (λ o, pos_le (o_pos o) p) ∧ (start i = Some p ∨ ∃ o, o ∈ OS ∧ o_lane o = i ∧ o_pos o = p).

(** Every change before the summary [o], on every table mapping, was delivered. *)
Definition follows (evs : list Event) (o : Offer) : Prop :=
  ∀ j m, ms !! j = Some m → is_summary m = false →
    ∃ chunks, bodies j evs = array <$> chunks ∧ concat chunks `prefix_of` due j OS ∧
      ∀ o', o' ∈ due j OS → pos_lt (o_pos o') (o_pos o) → o' ∈ concat chunks.
Definition summarises (i : nat) : Prop := ∃ m, ms !! i = Some m ∧ is_summary m = true.

(** Run [c] of lane [i], all of one shape, has just been written as its mapping says. *)
Definition accounted (evs : list Event) (i : nat) (c : list Offer) (parts : Parts) : Prop :=
  ∃ m shape cols pre evs', ms !! i = Some m ∧ Forall (λ o, o_cols o = shape) c ∧ parse_cols shape = Ok cols ∧
    evs = pre ++ evs' ∧ written m cols (array c) evs' parts.

(** Run [c] comes behind the runs lane [i] was given. *)
Definition next_run (evs : list Event) (i : nat) (c : list Offer) : Prop :=
  ∃ chunks, bodies i evs = array <$> chunks ∧ concat (chunks ++ [c]) `prefix_of` due i OS.

Definition ok_at (evs : list Event) (ev : Event) : Prop :=
  match ev with
  | Produced i b parts => ∃ c, b = array c ∧ next_run evs i c ∧ accounted evs i c parts ∧ (summarises i → ∀ o, o ∈ c → follows evs o)
  | Saved l => ∀ i p, (i, p) ∈ l → saved_at evs i p
  | Advanced t => ∀ i, (i < length ms)%nat → delivered_to evs i (λ o, (o_pos o).1 ≤ t)
  | _ => True
  end.
Definition history (evs : list Event) : Prop := ∀ pre ev post, evs = pre ++ ev :: post → ok_at pre ev.

Lemma history_snoc evs ev : history evs → ok_at evs ev → history (evs ++ [ev]).
Proof.
  intros Hh Hev pre ev' post Heq. destruct post as [|x post _] using rev_ind.
  - apply app_inj_tail in Heq as [<- <-]. done.
  - rewrite app_comm_cons, app_assoc in Heq. apply app_inj_tail in Heq as [Heq _]. by eapply Hh.
Qed.

Lemma history_plain evs evs' : history evs → Forall plain evs' → history (evs ++ evs').
Proof.
  revert evs. induction evs' as [|ev evs' IH]; intros evs Hh Hall; [by rewrite app_nil_r |].
  apply Forall_cons in Hall as [Hev Hall]. replace (evs ++ ev :: evs') with ((evs ++ [ev]) ++ evs') by (by rewrite <- app_assoc).
  apply IH; [| done]. apply history_snoc; [done |]. by destruct ev.
Qed.

(** ** Runs by their text *)

(** A run is told from a longer one by its text. *)
Lemma array_longer c d : Forall (λ o, o_element o ≠ []) d → array (c ++ d) = array c → d = [].
Proof using Type.
  clear Horder. intros Hd Ha. destruct d as [|x d _] using rev_ind; [done |]. exfalso. apply Forall_app in Hd as [_ Hx].
  apply Forall_cons in Hx as [Hx _]. unfold array in Ha. rewrite (app_assoc c d [x]), elements_snoc in Ha.
  destruct (elements_prefix c d) as [t Ht]. rewrite Ht in Ha. apply (f_equal length) in Ha.
  rewrite !length_app in Ha. destruct (o_element x); [done |]. cbn in Ha. lia.
Qed.

Lemma array_prefix_inj c c' l : Forall (λ o, o_element o ≠ []) l → c `prefix_of` l → c' `prefix_of` l →
  array c = array c' → c = c'.
Proof using Type.
  clear Horder. intros Hl Hc Hc' Ha. destruct (prefix_weak_total c c' l Hc Hc') as [[d ->]|[d ->]].
  - rewrite (array_longer c d); [by rewrite app_nil_r | | done]. destruct Hc' as [t ->].
    apply Forall_app in Hl as [Hl _]. by apply Forall_app in Hl as [_ ?].
  - rewrite (array_longer c' d); [by rewrite app_nil_r | | done]. destruct Hc as [t ->].
    apply Forall_app in Hl as [Hl _]. by apply Forall_app in Hl as [_ ?].
Qed.

Lemma runs_unique chunks chunks' l : Forall (λ o, o_element o ≠ []) l → concat chunks `prefix_of` l →
  concat chunks' `prefix_of` l → array <$> chunks = array <$> chunks' → chunks = chunks'.
Proof using Type.
  clear Horder. revert chunks' l. induction chunks as [|c chunks IH]; intros [|c' chunks'] l Hl H1 H2 Ha; try done.
  cbn in H1, H2. rewrite !fmap_cons in Ha. apply (inj2 cons) in Ha as [Hc Ha]. assert (c = c') as <-.
  { apply (array_prefix_inj c c' l); [done | | | done]; (etransitivity; [by eexists | done]). }
  f_equal. destruct H1 as [t ->]. rewrite <- app_assoc in H2. apply prefix_app_inv in H2. rewrite <- app_assoc in Hl.
  apply Forall_app in Hl as [_ Hl]. by apply (IH _ (concat chunks ++ t)); [| eexists | |].
Qed.

Lemma bodies_split i evs bs1 b bs2 : bodies i evs = bs1 ++ b :: bs2 →
  ∃ pre parts post, evs = pre ++ Produced i b parts :: post ∧ bodies i pre = bs1.
Proof using Type.
  clear Horder OS ms. revert bs1. induction evs as [|ev evs IH]; intros bs1 Hb; [by destruct bs1 |].
  change (ev :: evs) with ([ev] ++ evs) in Hb. rewrite bodies_app in Hb.
  destruct (bodies i [ev]) as [|b' [|]] eqn:Eb; cbn in Hb.
  - destruct (IH bs1 Hb) as (pre & parts & post & -> & Hpre). exists (ev :: pre), parts, post. split; [done |].
    change (ev :: pre) with ([ev] ++ pre). by rewrite bodies_app, Eb.
  - destruct bs1 as [|b1 bs1]; injection Hb as -> Hb.
    + exists []. destruct ev; cbn in Eb; try done. case_bool_decide; [| done]. simplify_eq. by eexists _, _.
    + destruct (IH bs1 Hb) as (pre & parts & post & -> & Hpre). exists (ev :: pre), parts, post. split; [done |].
      change (ev :: pre) with ([ev] ++ pre). by rewrite bodies_app, Eb, Hpre.
  - destruct ev; cbn in Eb; try done. by case_bool_decide.
Qed.

(** Every run given to a lane was written, as its mapping says. *)
Lemma history_accounted i evs chunks a c b : history evs → bodies i evs = array <$> chunks →
  concat chunks `prefix_of` due i OS → chunks = a ++ c :: b →
  ∃ pre parts post, evs = pre ++ Produced i (array c) parts :: post ∧ bodies i pre = array <$> a ∧ accounted pre i c parts.
Proof using Horder.
  intros Hh Hb Hp ->. rewrite fmap_app, fmap_cons in Hb. destruct (bodies_split i evs _ _ _ Hb) as (pre & parts & post & He & Hpre).
  exists pre, parts, post. split; [done |]. split; [done |].
  destruct (Hh pre _ post He) as (c' & Ha & (a' & Hb' & Hp') & Hac & _).
  assert (a' ++ [c'] = a ++ [c]) as Heq.
  { apply (runs_unique _ _ (due i OS)); [| done | |].
    - apply Forall_forall. intros o Ho. apply due_in in Ho as (Ho & _). by apply (co_element OS Horder).
    - etransitivity; [| exact Hp]. rewrite !concat_app. cbn. rewrite app_nil_r. exists (concat b). by rewrite <- app_assoc.
    - rewrite !fmap_app, <- Hb', Hpre. rewrite !fmap_cons. by rewrite <- Ha. }
  apply app_inj_tail in Heq as [_ ->]. done.
Qed.

(** ** Lanes *)

(** Where a lane that delivered [done] is. *)
Definition reached (i : nat) (done : list Offer) : option Pos := match last done with Some o => Some (o_pos o) | None => start i end.

(** A hold that comes from an offer seen, or from none. *)
Definition held_by (os : list Offer) (hold : option Z) : Prop := ∃ o, o ∈ os ∧ (hold = None ∨ hold = o_hold o).

Inductive lane_ok (os : list Offer) (streaming : bool) (i : nat) (l : Lane) (evs : list Event) : Prop :=
| lane_going done pend chunks :
    ln_stopped l = None → due i os = done ++ pend → bodies i evs = array <$> chunks → concat chunks = done →
    run_of (ln_run l) pend → ln_delivered l = reached i done → (streaming = true → owed i evs = ∅) →
    lane_ok os streaming i l evs
| lane_halted done rest extra chunks hold why :
    ln_stopped l = Some (hold, why) → ln_run l = None → due i os = done ++ rest → bodies i evs = array <$> chunks →
    concat chunks = done ++ extra → extra `prefix_of` rest → held_by os hold →
    Forall (λ o, hold_le hold (o_hold o)) rest → ln_delivered l = reached i done →
    lane_ok os streaming i l evs.

Record inv (os : list Offer) (s : Drain * World E) : Prop := mk_inv {
  iv_length : length (d_lanes s.1) = length ms;
  iv_mappings : ∀ i l, d_lanes s.1 !! i = Some l → ms !! i = Some (ln_mapping l);
  iv_lanes : ∀ i l, d_lanes s.1 !! i = Some l → lane_ok os (d_streaming s.1) i l (w_events s.2);
  iv_owed : ∀ i, owed i (w_events s.2) ⊆ d_appended s.1;
  iv_history : history (w_events s.2);
  iv_buffered : d_buffered s.1 = foldr (λ l n, run_len l + n) 0 (d_lanes s.1) }.


(** ** Order among what is due *)

Lemma due_sorted i : StronglySorted before (due i OS).
Proof using Horder. apply offers_filtered, Horder. Qed.

(** A position reached covers what was delivered to get there, and nothing else due. *)
Lemma reached_covers i done more p o : due i OS = done ++ more → reached i done = Some p →
  o ∈ due i OS → pos_le (o_pos o) p → o ∈ done.
Proof using Horder.
  intros Hd Hr Ho Hle. pose proof Ho as Ho'. rewrite Hd in Ho'. apply elem_of_app in Ho' as [?|Hm]; [done |]. exfalso.
  unfold reached in Hr. destruct (last done) as [x|] eqn:El.
  - injection Hr as <-. apply last_Some_elem_of in El.
    destruct (sorted_split _ _ _ x o (due_sorted i) Hd El Hm) as (_ & _ & _ & Hlt).
    apply due_in in Ho as (_ & Hlane & _). assert (x ∈ due i OS) as Hx by (rewrite Hd; set_solver).
    apply due_in in Hx as (_ & Hlx & _). specialize (Hlt ltac:(congruence)). unfold pos_lt, pos_le in *. lia.
  - apply due_in in Ho as (_ & _ & Ha). unfold already in Ha. rewrite Hr in Ha. by rewrite bool_decide_eq_true_2 in Ha.
Qed.

(** Whatever lane, a position reached may be recorded once nothing is owed. *)
Lemma reached_delivered i done more extra chunks evs p : due i OS = done ++ more → extra `prefix_of` more →
  bodies i evs = array <$> chunks → concat chunks = done ++ extra → reached i done = Some p → owed i evs = ∅ →
  saved_at evs i p.
Proof using Horder.
  intros Hd [t Ht] Hb Hc Hr Ho. split; [split; [done |]; exists chunks; rewrite Hc; split_and!; [done | |] |].
  - rewrite Hd, Ht. exists t. by rewrite <- app_assoc.
  - intros o Ho' Hle. apply elem_of_app. left. by eapply reached_covers.
  - unfold reached in Hr. destruct (last done) as [o|] eqn:El; [right | by left]. injection Hr as <-. exists o.
    apply last_Some_elem_of in El. assert (o ∈ due i OS) as Hin by (rewrite Hd; set_solver).
    by apply due_in in Hin as (? & ? & _).
Qed.

(** Lanes the events of others leave alone. *)
Lemma lane_ok_frame os str i l evs evs' : Forall (apart i) evs' → lane_ok os str i l evs → lane_ok os str i l (evs ++ evs').
Proof using Type.
  clear Horder OS. intros Ha [done pend chunks H1 H2 H3 H4 H5 H6 H7|done rest extra chunks hold why H1 H2 H3 H4 H5 H6 H7 H8 H9].
  - eapply lane_going; try done; [by rewrite bodies_apart |]. intros Hs. pose proof (owed_apart i evs evs' Ha).
    rewrite H7 in H0 by done. set_solver.
  - eapply lane_halted; try done. by rewrite bodies_apart.
Qed.

End Drain.
