(* ===== verification/CdcDrain.v ===== *)
(** * Delivering runs keeps the books

    Every operation of a drain preserves [inv] (CdcInv.v): producing and recording a
    run, flushing a lane, making room, taking an offer.

    Behind it: flushing lanes, summaries after their changes. *)

From stdpp Require Import gmap sorting strings.
From S2P Require Import Prelude Sasl Cdc CdcInv.

#[local] Open Scope Z_scope.

(** ** Calls and their history *)

Section Calls.
Context {E : Type} {H : CdcHost E}.
#[local] Abbreviation cdc := (ST (World E) bytes).

(** What [f] adds to the history, by its result. *)
Definition adds {A} (f : cdc A) (P : result bytes A → list Event → Prop) : Prop :=
  ∀ w, ∃ evs, w_events (f w).2 = w_events w ++ evs ∧ Forall plain evs ∧ P (f w).1 evs.

Lemma adds_weaken {A} (f : cdc A) (P Q : result bytes A → list Event → Prop) : adds f P → (∀ r evs, P r evs → Q r evs) → adds f Q.
Proof. intros Hf HPQ w. destruct (Hf w) as (evs & He & Hp & Hr). exists evs. split_and!; [done | done | by apply HPQ]. Qed.

Lemma adds_ext {A} (f g : cdc A) P : (∀ w, f w = g w) → adds f P → adds g P.
Proof. intros He Hf w. rewrite <- He. apply Hf. Qed.

Lemma adds_calls {A} (f : E → result bytes A * E) : adds (calls f) (λ _ evs, evs = []).
Proof. intros w. exists []. unfold calls. destruct (f (w_env w)). cbn. by rewrite app_nil_r. Qed.

Lemma adds_ret {A} (a : A) : adds (ret a) (λ r evs, r = Ok a ∧ evs = []).
Proof. intros w. exists []. cbn. by rewrite app_nil_r. Qed.

Lemma adds_throw {A} e : adds (throw e : cdc A) (λ r evs, r = Err e ∧ evs = []).
Proof. intros w. exists []. cbn. by rewrite app_nil_r. Qed.

Lemma adds_record ev : plain ev → adds (record ev) (λ r evs, r = Ok tt ∧ evs = [ev]).
Proof. intros Hev w. exists [ev]. split_and!; [done | by repeat constructor | done | done]. Qed.

(** Running one computation after another whatever the first gave. *)
Lemma adds_match {A B} (f : cdc A) (k : result bytes A → cdc B) P Q : adds f P → (∀ r, adds (k r) (Q r)) →
  adds (λ w, let '(r, w') := f w in k r w') (λ r evs, ∃ r1 e1 e2, P r1 e1 ∧ Q r1 r e2 ∧ evs = e1 ++ e2).
Proof.
  intros Hf Hk w. destruct (Hf w) as (e1 & E1 & P1 & R1). destruct (f w) as [r w1]. cbn [fst snd] in *.
  destruct (Hk r w1) as (e2 & E2 & P2 & R2). exists (e1 ++ e2). rewrite E2, E1, app_assoc.
  split_and!; [done | by apply Forall_app | by exists r, e1, e2].
Qed.

Lemma adds_bind {A B} (f : cdc A) (k : A → cdc B) P Q : adds f P → (∀ a, adds (k a) (Q a)) →
  adds (bind f k) (λ r evs, (∃ e, P (Err e) evs ∧ r = Err e) ∨ ∃ a e1 e2, P (Ok a) e1 ∧ Q a r e2 ∧ evs = e1 ++ e2).
Proof.
  intros Hf Hk w. unfold bind. destruct (Hf w) as (e1 & E1 & P1 & R1). destruct (f w) as [[a|x] w1]; cbn [fst snd] in *.
  - destruct (Hk a w1) as (e2 & E2 & P2 & R2). exists (e1 ++ e2). rewrite E2, E1, app_assoc.
    split_and!; [done | by apply Forall_app | right; by exists a, e1, e2].
  - exists e1. split_and!; [done | done | left; by exists x].
Qed.

Lemma adds_call {A B} (f : E → result bytes A * E) (k : A → cdc B) (Q : result bytes B → list Event → Prop) :
  (∀ e, Q (Err e) []) → (∀ a, adds (k a) Q) → adds (bind (calls f) k) Q.
Proof.
  intros He Hk. eapply adds_weaken; [apply adds_bind; [apply adds_calls | exact Hk] |].
  cbv beta. intros r evs [(e & -> & ->)|(a & e1 & e2 & -> & Hr & ->)]; [apply He | exact Hr].
Qed.

Lemma adds_recorded {B} ev (k : cdc B) (Q R : result bytes B → list Event → Prop) : plain ev → adds k R →
  (∀ r evs, R r evs → Q r (ev :: evs)) → adds (record ev ;;; k) Q.
Proof.
  intros Hev Hk HR. eapply adds_weaken; [apply adds_bind; [by apply adds_record | intros u; exact Hk] |]. cbv beta.
  intros r evs [(e & [[=] _] & _)|(u & e1 & e2 & [_ ->] & Hr & ->)]. by apply HR.
Qed.

(** An answer put on record. *)
Definition answered {A} (ev : A → Event) (r : result bytes A) (evs : list Event) : Prop :=
  evs = match r with Ok a => [ev a] | Err _ => [] end.

Lemma adds_answer {A} (a : A) (ev : A → Event) : plain (ev a) → adds (record (ev a) ;;; ret a) (answered ev).
Proof. intros Hev. eapply adds_recorded; [done | apply adds_ret |]. by intros r evs [-> ->]. Qed.

Lemma adds_resolve topic : adds (resolve_target topic) (answered (Resolves topic)).
Proof. apply adds_call; [done |]. intros t. by apply (adds_answer t). Qed.

Lemma adds_split changes : adds (split_run changes) (answered (Splits changes)).
Proof. apply adds_call; [done |]. intros each. by apply (adds_answer each). Qed.

Lemma adds_failed {A} e (ev : A → Event) : adds (throw e : cdc A) (answered ev).
Proof. eapply adds_weaken; [apply adds_throw |]. by intros r evs [-> ->]. Qed.

Lemma adds_render m columns changes : adds (render m columns changes) (answered (Renders m columns changes)).
Proof.
  unfold render. apply adds_call; [done |]. intros plain. cbv zeta. destruct (_ && _); [apply adds_failed |].
  apply adds_call; [done |]. intros rows. destruct (check_sizes rows 0); [| apply adds_failed]. by apply (adds_answer rows).
Qed.

Lemma adds_bury m one why : adds (bury m one why) (λ r evs, r = Ok tt ∧ evs = [Buries m one why]).
Proof.
  intros w. exists [Buries m one why]. unfold bury, bind, calls. cbn. split_and!; [done | by repeat constructor | done | done].
Qed.

Lemma adds_letters m changes why : adds (dead_letters m changes why) (λ r evs, r = Ok tt ∧ evs = buried m why changes).
Proof.
  induction changes as [|one changes IH]; cbn [dead_letters]; [by apply adds_ret |].
  eapply adds_weaken; [apply adds_bind; [apply adds_bury | intros u; exact IH] |]. cbv beta.
  intros r evs [(e & [[=] _] & _)|(u & e1 & e2 & [_ ->] & [-> ->] & ->)]. done.
Qed.

(** Splitting a run to bury all of it. *)
Lemma adds_buried {A} m changes why (a : A) :
  adds (let* each := split_run changes in dead_letters m each why ;;; ret a)
    (λ r evs, ∀ x, r = Ok x → x = a ∧ ∃ each, evs = Splits changes each :: buried m why each).
Proof.
  eapply adds_weaken; [apply adds_bind; [apply adds_split |]; intros each; apply adds_bind; [apply adds_letters |];
    intros u; apply adds_ret |]. cbv beta.
  intros r evs [(e & _ & ->)|(each & e1 & e2 & -> & [(e & [[=] _] & _)|H2] & ->)] x Hx; [done |].
  destruct H2 as (u & e3 & e4 & [_ ->] & [-> ->] & ->). injection Hx as <-. split; [done |]. exists each.
  by rewrite app_nil_r.
Qed.

Lemma adds_each m columns changes out held : adds (render_each m columns changes out held)
  (λ r evs, ∀ rows, r = Ok rows → ∃ more, rows = out ++ more ∧ rendered_each m columns changes evs more).
Proof.
  revert out held. induction changes as [|one changes IH]; intros out held; cbn [render_each].
  { eapply adds_weaken; [apply adds_ret |]. intros r evs [-> ->] rows [= <-]. exists []. rewrite app_nil_r.
    split; [done | constructor]. }
  eapply adds_ext; [| eapply adds_weaken; [apply (adds_match (render m columns one) (λ r, match r with
    | Ok rows => let held := held + foldr (λ r n, opt_len r.1 + opt_len r.2 + n) 0 rows in
                 if MAX_DRAIN_BYTES <? held then throw (lit "over the drain limit even one change at a time")
                 else render_each m columns changes (out ++ rows) held
    | Err e => bury m one e ;;; render_each m columns changes out held end)
    (answered (Renders m columns one))
    (λ r1 r evs, ∀ rows, r = Ok rows → ∃ e2 more, rendered_each m columns changes e2 more ∧
       match r1 with
       | Ok got => evs = e2 ∧ rows = out ++ got ++ more
       | Err e => evs = Buries m one e :: e2 ∧ rows = out ++ more
       end)); [apply adds_render |] |]].
  - intros w. cbv beta. destruct (render m columns one w) as [[rows|e] w1]; [| reflexivity]. cbv zeta. by destruct (_ <? _).
  - intros [got|e]; cbv zeta.
    + destruct (_ <? _); [eapply adds_weaken; [apply adds_throw |]; by intros r evs [-> _] ? [=] |].
      eapply adds_weaken; [apply IH |]. intros r evs Hr rows Hrows. destruct (Hr rows Hrows) as (more & -> & Hm).
      exists evs, more. by rewrite <- app_assoc.
    + eapply adds_weaken; [apply adds_bind; [apply adds_bury | intros u; apply IH] |]. cbv beta.
      intros r evs [(x & [[=] _] & _)|(u & e1 & e2 & [_ ->] & Hr & ->)] rows Hrows.
      destruct (Hr rows Hrows) as (more & -> & Hm). by exists e2, more.
  - cbv beta. intros r evs (r1 & e1 & e2 & -> & H2 & ->) rows Hrows. destruct (H2 rows Hrows) as (e3 & more & Hm & Hr).
    destruct r1 as [got|e]; destruct Hr as [-> ->].
    + exists (got ++ more). split; [done |]. by apply each_rendered.
    + exists more. split; [done |]. by apply each_buried.
Qed.

(** The run as a whole, or change by change. *)
Lemma adds_rendering m columns changes (t : Target) :
  adds (λ w, let '(r, w) := render m columns changes w in (match r with
        | Ok rendered => ret (Some (t, rendered))
        | Err e => if stalls m then throw e
                   else let* each := split_run changes in
                        let* rendered := render_each m columns each [] 0 in ret (Some (t, rendered))
        end) w)
    (λ r evs, ∀ x, r = Ok x → ∃ rows, x = Some (t, rows) ∧ rendered_as m columns changes evs rows).
Proof.
  eapply adds_weaken; [apply (adds_match (render m columns changes) _ (answered (Renders m columns changes))
    (λ r1 r evs, ∀ x, r = Ok x → ∃ rows, x = Some (t, rows) ∧ match r1 with
       | Ok got => rows = got ∧ evs = []
       | Err _ => stalls m = false ∧ ∃ each e2, evs = Splits changes each :: e2 ∧ rendered_each m columns each e2 rows end));
    [apply adds_render |] |].
  - intros [rows|e].
    + eapply adds_weaken; [apply adds_ret |]. intros r evs [-> ->] x [= <-]. by exists rows.
    + destruct (stalls m); [eapply adds_weaken; [apply adds_throw |]; by intros r evs [-> _] x [=] |].
      eapply adds_weaken; [apply adds_bind; [apply adds_split |]; intros each; apply adds_bind; [apply adds_each |];
        intros rows; apply adds_ret |]. cbv beta.
      intros r evs [(x & _ & ->)|(each & e1 & e2 & -> & H2 & ->)] y Hy; [done |].
      destruct H2 as [(x & _ & ->)|(rows & e3 & e4 & H3 & [-> ->] & ->)]; [done |]. injection Hy as <-. exists rows.
      split_and!; [done | done |]. destruct (H3 rows eq_refl) as (more & -> & Hm). exists each, e3. by rewrite app_nil_r.
  - cbv beta. intros r evs (r1 & e1 & e2 & -> & H2 & ->) x Hx. destruct (H2 x Hx) as (rows & -> & Hr). exists rows.
    split; [done |]. destruct r1 as [got|e].
    + destruct Hr as [-> ->]. by left.
    + destruct Hr as (Hst & each & e3 & -> & Hm). right. split; [done |]. by exists each, e3.
Qed.

Lemma adds_phase m columns changes : adds (render_phase m columns changes) (λ r evs, ∀ x, r = Ok x →
  match x with
  | None => stalls m = false ∧ ∃ each why, evs = Splits changes each :: buried m why each
  | Some (t, rows) => ∃ evs', evs = Resolves (mp_topic m) t :: evs' ∧ rendered_as m columns changes evs' rows
  end).
Proof.
  unfold render_phase. eapply adds_ext; [| eapply adds_weaken; [apply (adds_match (resolve_target (mp_topic m)) (λ r, match r with
    | Err e => if stalls m then throw e
               else let* each := split_run changes in dead_letters m each e ;;; ret None
    | Ok target => λ w, let '(r, w) := render m columns changes w in (match r with
        | Ok rendered => ret (Some (target, rendered))
        | Err e => if stalls m then throw e
                   else let* each := split_run changes in
                        let* rendered := render_each m columns each [] 0 in ret (Some (target, rendered))
        end) w end) (answered (Resolves (mp_topic m)))
    (λ r1 r evs, ∀ x, r = Ok x → match r1 with
       | Err _ => x = None ∧ stalls m = false ∧ ∃ each why, evs = Splits changes each :: buried m why each
       | Ok t => ∃ rows, x = Some (t, rows) ∧ rendered_as m columns changes evs rows end)); [apply adds_resolve |] |]].
  - intros w. cbv beta. destruct (resolve_target _ w) as [[t|e] w1]; [| by destruct (stalls m)].
    destruct (render m columns changes w1) as [[]]; [done |]. by destruct (stalls m).
  - intros [t|e]; [apply adds_rendering |]. destruct (stalls m).
    + eapply adds_weaken; [apply adds_throw |]. by intros r evs [-> _] x [=].
    + eapply adds_weaken; [apply adds_buried |]. cbv beta. intros r evs Hr x Hx. destruct (Hr x Hx) as (-> & each & ->).
      split_and!; [done | done | by exists each, e].
  - cbv beta. intros r evs (r1 & e1 & e2 & -> & H2 & ->) x Hx. specialize (H2 x Hx). destruct r1 as [t|e].
    + destruct H2 as (rows & -> & Hr). by exists e2.
    + by destruct H2 as (-> & ? & ?).
Qed.

(** The appends of a run, as far as they got. *)
Definition appended_as (m : Mapping) (changes : bytes) (t : Target) (rendered : Rendered) (n : Z) (parts : Parts)
    (parts' : Parts) (evs : list Event) : Prop :=
  (evs = append_of t <$> rendered ∧ parts' = parts_of t rendered ∪ parts) ∨
  ∃ rows row rest each why, rendered = rows ++ row :: rest ∧ (rows = [] → n ≠ 0) ∧ parts' = parts_of t rows ∪ parts ∧
    evs = (append_of t <$> rows) ++ Splits changes each :: buried m why each.

Lemma parts_of_cons t row rows parts :
  parts_of t rows ∪ ({[(tg_topic_id t, partition_for row.1 (tg_partitions t))]} ∪ parts) = parts_of t (row :: rows) ∪ parts.
Proof. unfold parts_of. rewrite fmap_cons. cbn [list_to_set]. set_solver. Qed.

Lemma appended_cons m changes t row rendered n parts parts' evs :
  appended_as m changes t rendered (n + 1) ({[(tg_topic_id t, partition_for row.1 (tg_partitions t))]} ∪ parts) parts' evs →
  appended_as m changes t (row :: rendered) n parts parts' (append_of t row :: evs).
Proof.
  intros [[-> ->]|(rows & row' & rest & each & why & -> & Hn & -> & ->)].
  - left. by rewrite parts_of_cons.
  - right. exists (row :: rows), row', rest, each, why. by rewrite parts_of_cons.
Qed.

Lemma adds_append_each m changes t rendered n parts : adds (append_each m changes t rendered n parts)
  (λ r evs, ∀ x, r = Ok x → appended_as m changes t rendered n parts x.2 evs).
Proof.
  revert n parts. induction rendered as [|[key value] rendered IH]; intros n parts; cbn [append_each].
  { eapply adds_weaken; [apply adds_ret |]. intros r evs [-> ->] x [= <-]. left. unfold parts_of. cbn. split; [done |]. set_solver. }
  set (p := partition_for key (tg_partitions t)).
  eapply adds_ext; [| eapply adds_weaken; [apply (adds_match (produce_rendered t key value) (λ r, match r with
    | Ok p => append_each m changes t rendered (n + 1) ({[(tg_topic_id t, p)]} ∪ parts)
    | Err e => if n =? 0 then throw e
               else let* each := split_run changes in dead_letters m each e ;;; ret (n, parts) end)
    (λ r evs, match r with Ok q => q = p ∧ evs = [append_of t (key, value)] | Err _ => evs = [] end)
    (λ r1 r evs, ∀ x, r = Ok x → match r1 with
       | Ok q => appended_as m changes t rendered (n + 1) ({[(tg_topic_id t, q)]} ∪ parts) x.2 evs
       | Err _ => n ≠ 0 ∧ x.2 = parts ∧ ∃ each why, evs = Splits changes each :: buried m why each end)) |]].
  - intros w. cbv beta. destruct (produce_rendered t key value w) as [[]]; [done |]. by destruct (n =? 0).
  - apply adds_call; [done |]. intros u. eapply adds_recorded; [done | apply adds_ret |]. by intros r evs [-> ->].
  - intros [q|e]; [apply IH |]. destruct (Z.eqb_spec n 0); [eapply adds_weaken; [apply adds_throw |]; by intros r evs [-> _] x [=] |].
    eapply adds_weaken; [apply adds_buried |]. cbv beta. intros r evs Hr x Hx. destruct (Hr x Hx) as (-> & each & ->).
    split_and!; [done | done | by exists each, e].
  - cbv beta. intros r evs (r1 & e1 & e2 & H1 & H2 & ->) x Hx. specialize (H2 x Hx). destruct r1 as [q|e].
    + destruct H1 as [-> ->]. by apply (appended_cons m changes t (key, value)).
    + rewrite H1. destruct H2 as (Hn & -> & each & why & ->). right. exists [], (key, value), rendered, each, why.
      split_and!; [done | done | unfold parts_of; cbn; set_solver | done].
Qed.

(** What follows the rendering. *)
Lemma adds_after m changes (phase : option (Target * Rendered)) :
  adds (match phase with
        | None => ret (0, ∅)
        | Some (t, rendered) => calls set_lock_timeout ;;; append_each m changes t rendered 0 ∅
        end)
    (λ r evs, ∀ x, r = Ok x → match phase with
       | None => x.2 = ∅ ∧ evs = []
       | Some (t, rendered) => appended_as m changes t rendered 0 ∅ x.2 evs
       end).
Proof.
  destruct phase as [[t rendered]|].
  - apply adds_call; [done |]. intros u. apply adds_append_each.
  - eapply adds_weaken; [apply adds_ret |]. by intros r evs [-> ->] x [= <-].
Qed.

(** A run taken is a run written. *)
Lemma adds_produce m columns changes : adds (render_and_produce m columns changes)
  (λ r evs, ∀ x, r = Ok x → written m columns changes evs x.2).
Proof.
  unfold render_and_produce. eapply adds_weaken; [apply adds_bind; [apply adds_phase |]; intros phase;
    apply (adds_after m changes phase) |]. cbv beta.
  intros r evs [(e & _ & ->)|(phase & e1 & e2 & H1 & H2 & ->)] x Hx; [done |]. specialize (H1 phase eq_refl). specialize (H2 x Hx).
  destruct phase as [[t rows]|].
  - destruct H1 as (e3 & -> & Hr). destruct H2 as [[-> ->]|(done & row & rest & each & why & -> & Hn & -> & ->)].
    + rewrite union_empty_r_L. by apply written_whole.
    + rewrite union_empty_r_L. apply (written_partly m columns changes t e3 done row rest each why); [done |]. by intros ->; apply Hn.
  - destruct H1 as (Hst & each & why & ->), H2 as [-> ->]. rewrite app_nil_r. by apply written_nowhere.
Qed.

Lemma step_events {A} mode (f : cdc A) w : (step mode f w).1 = (f w).1 ∧ w_events (step mode f w).2 = w_events (f w).2.
Proof. unfold step. by destruct (f w) as [[]]. Qed.

(** Syncing: an event if all went well, else none. *)
Definition sync_events (parts : Parts) : list Event := if bool_decide (parts = ∅) then [] else [Synced parts].

Lemma sync_then_events (parts : list (Z * Z)) ev w :
  match sync_then parts (record ev) w with
  | (Ok _, w') => w_events w' = w_events w ++ [ev]
  | (Err _, w') => w_events w' = w_events w
  end.
Proof.
  revert w. induction parts as [|p parts IH]; intros w; [done |]. cbn [sync_then]. unfold bind, calls.
  destruct (sync_partition p (w_env w)) as [[u|e] e1]; [| done].
  specialize (IH (mk_world e1 (w_events w))). by destruct (sync_then parts _ _) as [[]].
Qed.

Lemma sync_all_events mode parts w :
  match sync_all mode parts w with
  | (Ok _, w') => w_events w' = w_events w ++ sync_events parts
  | (Err _, w') => w_events w' = w_events w
  end.
Proof.
  unfold sync_all, sync_events. case_bool_decide; [by rewrite app_nil_r |].
  pose proof (sync_then_events (in_order parts) (Synced parts) w) as Hs. unfold step.
  by destruct (sync_then _ _ w) as [[]].
Qed.

Lemma save_events moved w :
  match save_positions moved w with
  | (Ok _, w') => w_events w' = w_events w ++ [Saved ((λ x, (x.1.1, x.2)) <$> moved)]
  | (Err _, w') => w_events w' = w_events w
  end.
Proof. unfold save_positions, bind, calls. by destruct (store_positions _ _) as [[]]. Qed.

Lemma persist_events mode i m last parts w :
  match persist mode i m last parts w with
  | (Ok _, w') => w_events w' = w_events w ++ sync_events parts ++ [Saved [(i, last)]]
  | (Err _, w') => w_events w' = w_events w ∨ w_events w' = w_events w ++ sync_events parts
  end.
Proof.
  unfold persist, bind. pose proof (sync_all_events mode parts w) as Hs.
  destruct (sync_all mode parts w) as [[u|e] w1]; [| by left].
  pose proof (save_events [(i, m, last)] w1) as Hv. unfold step.
  destruct (save_positions _ w1) as [[u'|e'] w2]; cbn in *; rewrite Hv, Hs; [by rewrite <- app_assoc | by right].
Qed.

Lemma owed_sync i evs parts D : owed i evs ⊆ D ∪ parts → owed i (evs ++ sync_events parts) ⊆ D.
Proof.
  intros Hs. unfold sync_events. case_bool_decide as Hp; [subst parts; rewrite app_nil_r; set_solver |].
  rewrite owed_snoc. cbn. set_solver.
Qed.

Lemma owed_produced i j b ps evs : owed j (evs ++ [Produced i b ps]) ⊆ owed j evs ∪ ps.
Proof. rewrite owed_snoc. cbn. case_bool_decide; set_solver. Qed.

Lemma sync_unmoved parts : unmoved (sync_events parts).
Proof. unfold sync_events. case_bool_decide; [intros t []%not_elem_of_nil | by apply unmoved_one]. Qed.

Lemma sync_apart i parts : Forall (apart i) (sync_events parts).
Proof. unfold sync_events. case_bool_decide; by repeat constructor. Qed.

End Calls.

(** ** One lane in hand *)

Section Lane.
Context {E : Type} {H : CdcHost E}.
Context (ms : list Mapping) (OS : list Offer) (Horder : in_commit_order OS).
#[local] Abbreviation st := (Drain * World E)%type.
#[local] Abbreviation events s := (w_events s.2).

(** The invariant but for lane [i], whose run has been taken out. *)
Record inv_but (i : nat) (os : list Offer) (s : st) : Prop := mk_inv_but {
  ib_length : length (d_lanes s.1) = length ms;
  ib_mappings : ∀ j l, d_lanes s.1 !! j = Some l → ms !! j = Some (ln_mapping l);
  ib_lanes : ∀ j l, j ≠ i → d_lanes s.1 !! j = Some l → lane_ok ms os (d_streaming s.1) j l (events s);
  ib_owed : ∀ j, owed j (events s) ⊆ d_appended s.1;
  ib_history : history ms OS (events s);
  ib_buffered : d_buffered s.1 = foldr (λ l n, run_len l + n) 0 (d_lanes s.1) }.

(** Lane [i] has delivered [done]; [extra] was appended behind it but not recorded. *)
Definition hand (i : nat) (s : st) (done extra : list Offer) : Prop :=
  ∃ l chunks, d_lanes s.1 !! i = Some l ∧ ln_stopped l = None ∧ ln_run l = None ∧
    bodies i (events s) = array <$> chunks ∧ concat chunks = done ++ extra ∧ ln_delivered l = reached ms i done ∧
    (extra = [] → d_streaming s.1 = true → owed i (events s) = ∅).

Lemma hand_inv i os s done : inv_but i os s → hand i s done [] → due ms i os = done → inv ms OS os s.
Proof using Type.
  intros [] (l & chunks & Hl & Hst & Hr & Hb & Hc & Hd & Ho) Hdue. split; try done. intros j l' Hj.
  destruct (decide (j = i)) as [->|Hne]; [| by apply ib_lanes0]. rewrite Hl in Hj. injection Hj as <-.
  apply (lane_going ms os _ i l _ done [] chunks); try done; [by rewrite app_nil_r | by rewrite Hc, app_nil_r |
    by rewrite Hr | by apply Ho].
Qed.

(** The bytes of all runs. *)
Lemma runs_insert (ls : list Lane) i l l' : ls !! i = Some l →
  foldr (λ l n, run_len l + n) 0 (<[i := l']> ls) = foldr (λ l n, run_len l + n) 0 ls - run_len l + run_len l'.
Proof using Type.
  clear. revert i. induction ls as [|x ls IH]; intros [|i] Hl; [done | done | |].
  - injection Hl as ->. change (<[0%nat := l']> (l :: ls)) with (l' :: ls). cbn. lia.
  - change (<[S i := l']> (x :: ls)) with (x :: <[i := l']> ls). cbn [foldr]. rewrite (IH i) by done. lia.
Qed.

(** Changing lane [i] but not its mapping and its run. *)
Lemma inv_but_lane i os s l f : inv_but i os s → d_lanes s.1 !! i = Some l →
  ln_mapping (f l) = ln_mapping l → run_len (f l) = run_len l → inv_but i os (on_lane i f s.1, s.2).
Proof using Type.
  intros [] Hl Hm Hr. unfold on_lane. rewrite Hl. split; cbn; try done.
  - by rewrite length_insert.
  - intros j l'. rewrite list_lookup_insert_Some. intros [(<- & <- & _)|[_ Hj]]; [| by apply ib_mappings0].
    rewrite Hm. by apply ib_mappings0.
  - intros j l' Hne. rewrite list_lookup_insert_ne by done. by apply ib_lanes0.
  - rewrite (runs_insert _ i l) by done. lia.
Qed.

Lemma on_lane_eq i f (d : Drain) l : d_lanes d !! i = Some l → d_lanes (on_lane i f d) !! i = Some (f l).
Proof using Type.
  intros Hl. unfold on_lane. rewrite Hl. cbn. apply list_lookup_insert_eq. by eapply lookup_lt_Some.
Qed.

Lemma on_lane_streaming i f d : d_streaming (on_lane i f d) = d_streaming d.
Proof using Type. unfold on_lane. by destruct (d_lanes d !! i). Qed.

(** Putting the lane back makes the whole. *)
Lemma inv_put i os s l : inv_but i os s → d_lanes s.1 !! i = Some l → lane_ok ms os (d_streaming s.1) i l (events s) →
  inv ms OS os s.
Proof using Type.
  intros [] Hl Hok. split; try done. intros j l' Hj. destruct (decide (j = i)) as [->|Hne]; [| by apply ib_lanes0].
  by rewrite Hl in Hj; injection Hj as <-.
Qed.

Lemma hand_stop i os s done extra rest hold why : inv_but i os s → hand i s done extra →
  due ms i os = done ++ rest → extra `prefix_of` rest → held_by os hold →
  Forall (λ o, hold_le hold (o_hold o)) rest →
  inv ms OS os (on_lane i (set_stopped (Some (hold, why))) s.1, s.2).
Proof using Type.
  intros Hi (l & chunks & Hl & Hst & Hr & Hb & Hc & Hd & Ho) Hdue Hex Hh Hall.
  apply (inv_put i os _ (set_stopped (Some (hold, why)) l)).
  - by apply (inv_but_lane i os s l).
  - by apply on_lane_eq.
  - by apply (lane_halted ms os _ i _ _ done rest extra chunks hold why).
Qed.

(** The new events of lane [i] leave the others alone. *)
Lemma others_frame i os (s s' : st) evs : d_lanes s'.1 = d_lanes s.1 → d_streaming s'.1 = d_streaming s.1 →
  events s' = events s ++ evs → (∀ j, j ≠ i → Forall (apart j) evs) →
  (∀ j l, j ≠ i → d_lanes s.1 !! j = Some l → lane_ok ms os (d_streaming s.1) j l (events s)) →
  (∀ j l, j ≠ i → d_lanes s'.1 !! j = Some l → lane_ok ms os (d_streaming s'.1) j l (events s')).
Proof using Type.
  intros E1 E2 E3 Ha Hl j l Hj Hlj. rewrite E1 in Hlj. rewrite E2, E3. apply lane_ok_frame; [by apply Ha | by apply Hl].
Qed.

Lemma history_sync evs parts : history ms OS evs → history ms OS (evs ++ sync_events parts).
Proof using Type.
  intros Hh. unfold sync_events. case_bool_decide; [by rewrite app_nil_r | by apply history_snoc].
Qed.


(** ** Producing a run *)

(** How an attempt to deliver [pend] ended: all of it, or up to a transaction that
    holds the slot, records appended behind what was recorded counted as [extra]. *)
Definition outcome {X} (i : nat) (os done pend : list Offer) (failed : option (option Z * X)) (s : st) : Prop :=
  inv_but i os s ∧
  match failed with
  | None => hand i s (done ++ pend) []
  | Some (hold, _) => ∃ p1 p2 extra, pend = p1 ++ p2 ∧ p2 ≠ [] ∧ hold = head_hold p2 ∧
      hand i s (done ++ p1) extra ∧ extra `prefix_of` p2
  end.

(** Before a run of summaries, the changes they summarise. *)
Definition ahead (i : nat) (c : list Offer) (evs : list Event) : Prop :=
  summarises ms i → ∀ o, o ∈ c → follows ms OS evs o.

Lemma follows_frame evs evs' o : (∀ j m, ms !! j = Some m → is_summary m = false → Forall (apart j) evs') →
  follows ms OS evs o → follows ms OS (evs ++ evs') o.
Proof using Type.
  clear Horder. intros Ha Hf j m Hj Hm. destruct (Hf j m Hj Hm) as (chunks & Hb & Hc). exists chunks.
  rewrite bodies_apart by (by eapply Ha). done.
Qed.

Lemma ahead_frame i c evs evs' : (∀ j, j ≠ i → Forall (apart j) evs') → ahead i c evs → ahead i c (evs ++ evs').
Proof using Type.
  clear Horder. intros Ha Hf Hs o Ho. apply follows_frame; [| by apply Hf]. intros j m Hj Hm. apply Ha. intros ->.
  destruct Hs as (m' & Hm' & Hs). rewrite Hj in Hm'. injection Hm' as ->. by rewrite Hm in Hs.
Qed.

Lemma last_pos_some g : g ≠ [] → last (A := Offer) g = None → False.
Proof using Type. clear. by intros Hg ?%last_None. Qed.

Lemma reached_app i done g : g ≠ [] → reached ms i (done ++ g) = Some (last_pos g).
Proof using Type.
  clear Horder. intros Hg. unfold reached, last_pos. destruct g as [|x g _] using rev_ind; [done |].
  by rewrite app_assoc, !last_snoc.
Qed.

(** Recording the position of a run just appended and synced. *)
Lemma saved_ok i os done g rest chunks evs : os `prefix_of` OS → due ms i os = done ++ g ++ rest → g ≠ [] →
  bodies i evs = array <$> chunks → concat chunks = done ++ g → owed i evs = ∅ →
  history ms OS evs → history ms OS (evs ++ [Saved [(i, last_pos g)]]).
Proof using Horder.
  intros [os' Hos] Hdue Hg Hb Hc Ho Hh. apply history_snoc; [done |]. intros j p Hp.
  apply list_elem_of_singleton in Hp as [= -> ->].
  apply (reached_delivered ms OS Horder i (done ++ g) (rest ++ due ms i os') [] chunks); try done.
  - by rewrite Hos, due_app, Hdue, <- !app_assoc.
  - apply prefix_nil.
  - by rewrite app_nil_r.
  - by apply reached_app.
Qed.

(** What [produce] did, by its result. *)
Inductive produced (i : nat) (m : Mapping) (cols : list (bytes * bytes)) (body : bytes) (last : Pos) (s : st) : result DrainError unit → st → Prop :=
| produced_none e evs w : Forall plain evs → w_events w = events s ++ evs →
    produced i m cols body last s (Err (RenderFailed e)) (s.1, w)
| produced_saved n parts evs w : d_streaming s.1 = true → Forall plain evs → written m cols body evs parts →
    w_events w = ((events s ++ evs) ++ [Produced i body parts]) ++ sync_events parts ++ [Saved [(i, last)]] →
    produced i m cols body last s (Ok tt) (on_lane i (set_delivered last false) (add_produced n s.1), w)
| produced_unsaved e n parts evs evs' w : d_streaming s.1 = true → Forall plain evs → written m cols body evs parts →
    evs' = [] ∨ evs' = sync_events parts → w_events w = ((events s ++ evs) ++ [Produced i body parts]) ++ evs' →
    produced i m cols body last s (Err (PersistFailed e)) (add_appended parts (add_produced n s.1), w)
| produced_later n parts evs w : d_streaming s.1 = false → Forall plain evs → written m cols body evs parts →
    w_events w = (events s ++ evs) ++ [Produced i body parts] →
    produced i m cols body last s (Ok tt) (on_lane i (set_delivered last true) (add_appended parts (add_produced n s.1)), w).

Lemma produce_did i m cols body last s :
  produced i m cols body last s (produce i m cols body last s).1 (produce i m cols body last s).2.
Proof using Type.
  clear Horder OS. destruct s as [d w]. unfold produce.
  destruct (step_events (d_mode d) (render_and_produce m cols body) w) as [Hr Hw].
  destruct (adds_produce m cols body w) as (evs & He & Hp & Hwr). rewrite He in Hw. rewrite <- Hr in Hwr.
  destruct (step _ _ w) as [[[n parts]|e] w1]; cbn [fst snd] in Hw, Hwr; [| by eapply (produced_none i m cols body last (d, w))].
  specialize (Hwr _ eq_refl). cbn [snd] in Hwr.
  cbn. set (w2 := happens _ w1). assert (w_events w2 = (w_events w ++ evs) ++ [Produced i body parts]) as E2.
  { cbn. by rewrite Hw. }
  destruct (d_streaming d) eqn:Es; [| by eapply (produced_later i m cols body last (d, w))].
  pose proof (persist_events (d_mode d) i m last parts w2) as Hps.
  destruct (persist _ i m last parts w2) as [[u|e] w3]; cbn.
  - eapply (produced_saved i m cols body last (d, w)); [done | done | done |]. by rewrite Hps, E2.
  - destruct Hps as [Hps|Hps]; (eapply (produced_unsaved i m cols body last (d, w)); [done | exact Hp | exact Hwr | | rewrite Hps, E2]).
    + by left.
    + by rewrite app_nil_r.
    + by right.
    + done.
Qed.

(** Events of lane [i] and of none, as the books need them. *)
Lemma inv_but_events i os (s s' : st) evs : inv_but i os s →
  d_lanes s'.1 = d_lanes s.1 → d_streaming s'.1 = d_streaming s.1 → d_buffered s'.1 = d_buffered s.1 →
  events s' = events s ++ evs → (∀ j, j ≠ i → Forall (apart j) evs) →
  (∀ j, owed j (events s') ⊆ d_appended s'.1) → history ms OS (events s') → inv_but i os s'.
Proof using Type.
  clear Horder. intros [] E1 E2 E3 E4 Ha Ho Hh. split; try done; try (by rewrite ?E1, ?E3).
  intros j l Hj Hl. rewrite E1 in Hl. rewrite E2, E4. apply lane_ok_frame; [by apply Ha | by apply ib_lanes0].
Qed.

(** What delivering on lane [i] leaves alone. *)
Record keeps (i : nat) (s s' : st) : Prop := mk_keeps {
  kp_streaming : d_streaming s'.1 = d_streaming s.1;
  kp_chunk : d_chunk_bytes s'.1 = d_chunk_bytes s.1;
  kp_lanes : ∀ j, j ≠ i → d_lanes s'.1 !! j = d_lanes s.1 !! j;
  kp_events : ∃ evs, events s' = events s ++ evs ∧ ∀ j, j ≠ i → Forall (apart j) evs;
  kp_unmoved : unmoved (events s) → unmoved (events s') }.

Lemma keeps_refl i s : keeps i s s.
Proof using Type. clear Horder. split; try done. exists []. rewrite app_nil_r. by split; [| constructor]. Qed.

Lemma keeps_trans i s1 s2 s3 : keeps i s1 s2 → keeps i s2 s3 → keeps i s1 s3.
Proof using Type.
  clear Horder. intros [A1 A2 A3 (e1 & A4 & A5) A6] [B1 B2 B3 (e2 & B4 & B5) B6]. split; [congruence | congruence | | | by intros ?; apply B6, A6].
  - intros j Hj. by rewrite B3, A3.
  - exists (e1 ++ e2). rewrite B4, A4, app_assoc. split; [done |]. intros j Hj. apply Forall_app. split; [by apply A5 | by apply B5].
Qed.

Lemma on_lane_ne i j f (d : Drain) : j ≠ i → d_lanes (on_lane i f d) !! j = d_lanes d !! j.
Proof using Type. clear Horder. intros Hj. unfold on_lane. destruct (d_lanes d !! i); [| done]. cbn. by rewrite list_lookup_insert_ne. Qed.

Lemma on_lane_chunk i f d : d_chunk_bytes (on_lane i f d) = d_chunk_bytes d.
Proof using Type. clear. unfold on_lane. by destruct (d_lanes d !! i). Qed.

Lemma keeps_on_lane i f s d w : keeps i s (d, w) → keeps i s (on_lane i f d, w).
Proof using Type.
  clear Horder. intros [A1 A2 A3 A4 A5]. split; cbn in *; [by rewrite on_lane_streaming | by rewrite on_lane_chunk | | done | done].
  intros j Hj. rewrite on_lane_ne by done. by apply A3.
Qed.

Lemma own_apart i body parts evs evs' j : Forall plain evs → Forall (apart j) evs' → j ≠ i →
  Forall (apart j) ((evs ++ [Produced i body parts]) ++ evs').
Proof using Type.
  clear. intros Hp Hs Hj. rewrite !Forall_app. split_and!; [by apply plain_apart | by repeat constructor | done].
Qed.

Lemma own_unmoved i body parts evs evs' evs'' : unmoved evs → Forall plain evs' → unmoved evs'' →
  unmoved (((evs ++ evs') ++ [Produced i body parts]) ++ evs'').
Proof using Type.
  clear. intros H1 H2 H3. apply unmoved_app; [| done]. apply unmoved_app; [| by apply unmoved_one].
  apply unmoved_app; [done | by apply unmoved_plain].
Qed.

Lemma produced_keeps i m cols body last s r s' : produced i m cols body last s r s' → keeps i s s'.
Proof using Type.
  clear Horder. intros Hp. destruct Hp as [e evs w Hp He|n parts evs w _ Hp _ He|e n parts evs evs' w _ Hp _ He' He|n parts evs w _ Hp _ He].
  - split; [done | done | done | |]; cbn; rewrite He.
    + exists evs. split; [done |]. intros j _. by apply plain_apart.
    + intros Hu. apply unmoved_app; [done | by apply unmoved_plain].
  - apply keeps_on_lane. split; [done | done | done | |]; cbn; rewrite He.
    + exists ((evs ++ [Produced i body parts]) ++ sync_events parts ++ [Saved [(i, last)]]).
      split; [by rewrite <- !app_assoc |]. intros j Hj. apply own_apart; [done | | done].
      apply Forall_app. split; [apply sync_apart | by repeat constructor].
    + intros Hu. apply own_unmoved; [done | done |]. apply unmoved_app; [apply sync_unmoved | by apply unmoved_one].
  - split; [done | done | done | |]; cbn; rewrite He.
    + exists ((evs ++ [Produced i body parts]) ++ evs'). split; [by rewrite <- !app_assoc |].
      intros j Hj. apply own_apart; [done | | done]. destruct He' as [-> | ->]; [constructor | apply sync_apart].
    + intros Hu. apply own_unmoved; [done | done |]. destruct He' as [-> | ->]; [by apply unmoved_plain | apply sync_unmoved].
  - apply keeps_on_lane. split; [done | done | done | |]; cbn; rewrite He.
    + exists ((evs ++ [Produced i body parts]) ++ []). split; [by rewrite <- !app_assoc |].
      intros j Hj. apply own_apart; [done | constructor | done].
    + intros Hu. rewrite <- (app_nil_r (_ ++ _)). apply own_unmoved; [done | done |]. by apply unmoved_plain.
Qed.

(** Run [g] is of the mapping of lane [i] and of one shape, that of [cols]. *)
Definition shaped (i : nat) (m : Mapping) (cols : list (bytes * bytes)) (g : list Offer) : Prop :=
  ms !! i = Some m ∧ ∃ shape, Forall (λ o, o_cols o = shape) g ∧ parse_cols shape = Ok cols.

Lemma shaped_sub i m cols g g' : g ⊆ g' → shaped i m cols g' → shaped i m cols g.
Proof using Type.
  clear Horder. intros Hsub (Hm & shape & Hall & Hc). split; [done |]. exists shape. split; [| done].
  rewrite Forall_forall in Hall |- *. intros o Ho. by apply Hall, Hsub.
Qed.

Lemma run_appended i m cols os s chunks g parts evs : inv_but i os s → bodies i (events s) = array <$> chunks →
  concat (chunks ++ [g]) `prefix_of` due ms i OS → ahead i g (events s) → shaped i m cols g → Forall plain evs → written m cols (array g) evs parts →
  let e := (events s ++ evs) ++ [Produced i (array g) parts] in
  bodies i e = array <$> (chunks ++ [g]) ∧ history ms OS e ∧ (∀ j, owed j e ⊆ d_appended s.1 ∪ parts) ∧
  owed i e = owed i (events s) ∪ parts.
Proof using Type.
  clear Horder. intros [] Hb Hpre Ha (Hm & shape & Hall & Hcols) Hp Hw e. subst e. split_and!.
  - rewrite bodies_app, bodies_apart, Hb by (by apply plain_apart). rewrite fmap_app. cbn.
    by rewrite bool_decide_eq_true_2.
  - apply history_snoc; [by apply history_plain |]. exists g. split; [done |].
    split; [exists chunks; rewrite bodies_apart by (by apply plain_apart); done |].
    split; [by exists m, shape, cols, (events s), evs |]. intros Hs o Ho. apply follows_frame; [| by apply Ha]. intros j m' _ _. by apply plain_apart.
  - intros j. etransitivity; [apply owed_produced |]. rewrite owed_plain by done. specialize (ib_owed0 j). set_solver.
  - rewrite owed_snoc. cbn. rewrite bool_decide_eq_true_2 by done. by rewrite owed_plain.
Qed.

(** Lane [i] once the position of [g] is its own. *)
Lemma hand_moved i d w done g moved l chunks : d_lanes d !! i = Some l → ln_stopped l = None → ln_run l = None →
  bodies i (w_events w) = array <$> (chunks ++ [g]) → concat chunks = done → g ≠ [] →
  (d_streaming d = true → owed i (w_events w) = ∅) →
  hand i (on_lane i (set_delivered (last_pos g) moved) d, w) (done ++ g) [].
Proof using Type.
  clear Horder. intros Hl Hs Hr Hb Hc Hg Ho. exists (set_delivered (last_pos g) moved l), (chunks ++ [g]).
  split; [by apply on_lane_eq |]. split_and!; try done; cbn.
  - by rewrite concat_app, Hc; cbn; rewrite !app_nil_r.
  - by rewrite reached_app.
  - intros _ Hst. apply Ho. by rewrite on_lane_streaming in Hst.
Qed.

Section Produced.
Context (i : nat) (m : Mapping) (cols : list (bytes * bytes)) (g : list Offer) (s : st) (os done rest : list Offer) (l : Lane) (chunks : list (list Offer)).
Context (Hos : os `prefix_of` OS) (Hi : inv_but i os s) (Hl : d_lanes s.1 !! i = Some l) (Hst : ln_stopped l = None).
Context (Hr : ln_run l = None) (Hb : bodies i (events s) = array <$> chunks) (Hc : concat chunks = done).
Context (Hd : ln_delivered l = reached ms i done) (Ho : d_streaming s.1 = true → owed i (events s) = ∅).
Context (Hdue : due ms i os = done ++ g ++ rest) (Hg : g ≠ []) (Ha : ahead i g (events s)) (Hsh : shaped i m cols g).

#[local] Abbreviation appended evs parts := ((events s ++ evs) ++ [Produced i (array g) parts]).

Lemma concat_more : concat (chunks ++ [g]) = done ++ g.
Proof using Hc. rewrite concat_app, Hc. cbn. by rewrite app_nil_r. Qed.

Lemma concat_due : concat (chunks ++ [g]) `prefix_of` due ms i OS.
Proof using Hos Hc Hdue.
  rewrite concat_more. pose proof Hos as [os' Ho']. rewrite Ho', due_app, Hdue. exists (rest ++ due ms i os'). by rewrite <- !app_assoc.
Qed.

Lemma produce_none evs w : Forall plain evs → w_events w = events s ++ evs →
  inv_but i os (s.1, w) ∧ hand i (s.1, w) done [].
Proof using Hi Hl Hst Hr Hb Hc Hd Ho.
  clear Horder. intros Hp He. pose proof Hi as [_ _ _ Iow Ihi _]. split.
  - apply (inv_but_events i os s _ evs); try done; [intros j _; by apply plain_apart | |]; cbn; rewrite He.
    + intros j. rewrite owed_plain by done. apply Iow.
    + by apply history_plain.
  - exists l, chunks. cbn. rewrite He, bodies_apart, owed_plain, app_nil_r by (done || by apply plain_apart). done.
Qed.

Lemma produce_saved n parts evs w : d_streaming s.1 = true → Forall plain evs → written m cols (array g) evs parts →
  w_events w = appended evs parts ++ sync_events parts ++ [Saved [(i, last_pos g)]] →
  let s' := (on_lane i (set_delivered (last_pos g) false) (add_produced n s.1), w) in
  inv_but i os s' ∧ hand i s' (done ++ g) [].
Proof using Horder Hos Hi Hl Hst Hr Hb Hc Hd Ho Hdue Hg Ha Hsh.
  intros Hs Hp Hwr He s'. destruct (run_appended i m cols os s chunks g parts evs Hi Hb concat_due Ha Hsh Hp Hwr) as (B1 & B2 & B3 & B4).
  rewrite Ho in B4 by done. rewrite app_assoc in He.
  assert (owed i (appended evs parts ++ sync_events parts) = ∅) as Ow.
  { assert (owed i (appended evs parts ++ sync_events parts) ⊆ ∅); [| set_solver]. apply owed_sync. by rewrite B4. }
  assert (bodies i (appended evs parts ++ sync_events parts) = array <$> (chunks ++ [g])) as Bo
    by (by rewrite bodies_apart by apply sync_apart).
  split.
  - apply (inv_but_lane i os (add_produced n s.1, w) l); try done.
    apply (inv_but_events i os s _ ((evs ++ [Produced i (array g) parts]) ++ sync_events parts ++ [Saved [(i, last_pos g)]]));
      try done; cbn; rewrite ?He.
    + by rewrite <- !app_assoc.
    + intros j Hj. apply own_apart; [done | | done]. apply Forall_app. split; [apply sync_apart | by repeat constructor].
    + intros j. rewrite owed_snoc. cbn. by apply owed_sync.
    + apply (saved_ok i os done g rest (chunks ++ [g])); try done; [apply concat_more | by apply history_sync].
  - apply (hand_moved i _ w done g false l chunks); try done; rewrite He.
    + by rewrite bodies_apart by (by repeat constructor).
    + intros _. by rewrite owed_snoc.
Qed.

Lemma produce_unsaved n parts evs evs' w : Forall plain evs → written m cols (array g) evs parts →
  evs' = [] ∨ evs' = sync_events parts →
  w_events w = appended evs parts ++ evs' →
  let s' := (add_appended parts (add_produced n s.1), w) in inv_but i os s' ∧ hand i s' done g.
Proof using Hos Hi Hl Hst Hr Hb Hc Hd Ho Hdue Hg Ha Hsh.
  clear Horder. intros Hp Hwr He' He s'. destruct (run_appended i m cols os s chunks g parts evs Hi Hb concat_due Ha Hsh Hp Hwr) as (B1 & B2 & B3 & B4).
  assert (∀ j, Forall (apart j) evs') as Ap by (intros j; destruct He' as [-> | ->]; [constructor | apply sync_apart]).
  split.
  - apply (inv_but_events i os s _ ((evs ++ [Produced i (array g) parts]) ++ evs')); try done; cbn; rewrite ?He.
    + by rewrite <- !app_assoc.
    + intros j Hj. by apply own_apart.
    + intros j. etransitivity; [by apply owed_apart |]. done.
    + destruct He' as [-> | ->]; [by rewrite app_nil_r | by apply history_sync].
  - exists l, (chunks ++ [g]). cbn. rewrite He, bodies_apart by done. split_and!; try done. apply concat_more.
Qed.

Lemma produce_later n parts evs w : d_streaming s.1 = false → Forall plain evs → written m cols (array g) evs parts →
  w_events w = appended evs parts →
  let s' := (on_lane i (set_delivered (last_pos g) true) (add_appended parts (add_produced n s.1)), w) in
  inv_but i os s' ∧ hand i s' (done ++ g) [].
Proof using Hos Hi Hl Hst Hr Hb Hc Hd Ho Hdue Hg Ha Hsh.
  clear Horder. intros Hs Hp Hwr He s'. destruct (run_appended i m cols os s chunks g parts evs Hi Hb concat_due Ha Hsh Hp Hwr) as (B1 & B2 & B3 & B4).
  split.
  - apply (inv_but_lane i os (add_appended parts (add_produced n s.1), w) l); try done.
    apply (inv_but_events i os s _ (evs ++ [Produced i (array g) parts])); try done; cbn; rewrite ?He; try done.
    + by rewrite <- !app_assoc.
    + intros j Hj. rewrite <- (app_nil_r (_ ++ _)). by apply own_apart.
  - apply (hand_moved i _ w done g true l chunks); try done; rewrite He; [done |]. cbn. by rewrite Hs.
Qed.

End Produced.

Lemma produce_ok i m cols g s os done rest : os `prefix_of` OS → inv_but i os s → hand i s done [] →
  due ms i os = done ++ g ++ rest → g ≠ [] → ahead i g (events s) → shaped i m cols g →
  let r := produce i m cols (array g) (last_pos g) s in
  keeps i s r.2 ∧ inv_but i os r.2 ∧
  match r.1 with
  | Ok _ => hand i r.2 (done ++ g) []
  | Err (RenderFailed _) => hand i r.2 done []
  | Err (PersistFailed _) => hand i r.2 done g
  end.
Proof using Horder.
  intros Hos Hi (l & chunks & Hl & Hst & Hr & Hb & Hc & Hd & Ho) Hdue Hg Ha Hsh r. rewrite app_nil_r in Hc.
  pose proof (produce_did i m cols (array g) (last_pos g) s) as Hp. fold r in Hp. specialize (Ho eq_refl).
  split; [by eapply produced_keeps |].
  destruct Hp; [by eapply produce_none | by eapply produce_saved | by eapply produce_unsaved | by eapply produce_later].
Qed.

(** ** Delivering a run *)

Lemma outcome_app {X} i os done g pend (failed : option (option Z * X)) s :
  outcome i os (done ++ g) pend failed s → outcome i os done (g ++ pend) failed s.
Proof using Type.
  clear Horder. intros [Hi Hf]. split; [done |]. destruct failed as [[hold x]|]; [| by rewrite app_assoc].
  destruct Hf as (p1 & p2 & extra & -> & Hp & Hh & Hha & Hex). exists (g ++ p1), p2, extra. rewrite !app_assoc in *. done.
Qed.

(** A run, or a transaction of it, that failed as a whole. *)
Lemma outcome_failed {X} i os done g pend hold (x : X) s extra : inv_but i os s → hand i s done extra → g ≠ [] →
  hold = head_hold g → extra `prefix_of` g → outcome i os done (g ++ pend) (Some (hold, x)) s.
Proof using Type.
  clear Horder. intros Hi Hha Hg Hh Hex. split; [done |]. exists [], (g ++ pend), extra. rewrite app_nil_r.
  split_and!; [done | by destruct g | by rewrite head_hold_app | done | by apply prefix_app_r].
Qed.

Lemma ahead_sub i c c' evs : c ⊆ c' → ahead i c' evs → ahead i c evs.
Proof using Type. clear Horder. intros Hsub Ha Hs o Ho. apply Ha; [done | by apply Hsub]. Qed.

Lemma keeps_ahead i c s s' : keeps i s s' → ahead i c (events s) → ahead i c (events s').
Proof using Type. clear Horder. intros [_ _ _ (evs & -> & Ha) _]. by apply ahead_frame. Qed.

Lemma produce_each_ok i m cols os rest gs s done failed : os `prefix_of` OS → inv_but i os s → hand i s done [] →
  due ms i os = done ++ concat gs ++ rest → Forall (.≠ []) gs → ahead i (concat gs) (events s) →
  (gs = [] → failed = None) → shaped i m cols (concat gs) →
  let r := produce_each i m cols ((λ g, (head_hold g, last_pos g, array g)) <$> gs) failed s in
  keeps i s r.2 ∧ outcome i os done (concat gs) r.1 r.2.
Proof using Horder.
  intros Hos. revert s done failed. induction gs as [|g gs IH]; intros s done failed Hi Hha Hdue Hne Ha Hf Hsh.
  { rewrite Hf by done. cbn. split; [apply keeps_refl |]. split; [done |]. by rewrite app_nil_r. }
  apply Forall_cons in Hne as [Hg Hne]. cbn [concat] in *. rewrite fmap_cons. cbn [produce_each].
  assert (due ms i os = done ++ g ++ (concat gs ++ rest)) as Hdue' by (by rewrite Hdue, <- app_assoc).
  destruct (produce_ok i m cols g s os done _ Hos Hi Hha Hdue' Hg) as (Hk & Hi' & Hr).
  { by eapply ahead_sub; [| exact Ha]; set_solver. }
  { by eapply shaped_sub; [| exact Hsh]; set_solver. }
  destruct (produce i m cols (array g) (last_pos g) s) as [[u|f] s1]; cbn [fst snd] in *.
  - destruct (IH s1 (done ++ g) None) as [Hk' Ho]; try done.
    + by rewrite Hdue', <- app_assoc.
    + eapply keeps_ahead; [done |]. eapply ahead_sub; [| exact Ha]. set_solver.
    + eapply shaped_sub; [| exact Hsh]. set_solver.
    + split; [by eapply keeps_trans | by apply outcome_app].
  - split; [done |]. destruct f as [e|e].
    + by apply (outcome_failed _ _ _ _ _ _ _ _ []); [| | | | apply prefix_nil].
    + by apply (outcome_failed _ _ _ _ _ _ _ _ g).
Qed.

Lemma deliver_ok i m cols run pend s os done rest : os `prefix_of` OS → inv_but i os s → hand i s done [] →
  due ms i os = done ++ pend ++ rest → run_ok run pend → ahead i pend (events s) → shaped i m cols pend →
  let r := deliver i m cols run s in keeps i s r.2 ∧ outcome i os done pend r.1 r.2.
Proof using Horder.
  intros Hos Hi Hha Hdue Hrun Ha Hsh. pose proof Hrun as [Hne Hb Hh Hla _ _]. cbv zeta. unfold deliver.
  rewrite Hb, Hla. replace ((lit "[" ++ elements_of pend) ++ lit "]") with (array pend) by (unfold array; by rewrite app_assoc).
  destruct (produce_ok i m cols pend s os done rest Hos Hi Hha Hdue Hne Ha Hsh) as (Hk & Hi' & Hr).
  destruct (produce i m cols (array pend) (last_pos pend) s) as [[u|[e|e]] s1]; cbn [fst snd] in *.
  - by split; [| split].
  - destruct (stalls m && (1 <? length (rn_ends run))%nat) eqn:Est.
    + destruct (transactions_ok run pend Hrun) as (gs & Hgs & Hgr & Hlen & ->).
      destruct (produce_each_ok i m cols os rest gs s1 done (Some (rn_hold run, e))) as [Hk' Ho]; try done.
      * by rewrite Hgs.
      * apply Forall_forall. intros g. by apply grouped_ne.
      * rewrite Hgs. by eapply keeps_ahead.
      * intros ->. by rewrite Hlen, andb_false_r in Est.
      * by rewrite Hgs.
      * split; [by eapply keeps_trans |]. by rewrite <- Hgs.
    + split; [done |]. rewrite <- (app_nil_r pend). apply (outcome_failed _ _ _ _ _ _ _ _ []); try done. apply prefix_nil.
  - split; [done |]. rewrite <- (app_nil_r pend). by apply (outcome_failed _ _ _ _ _ _ _ _ pend).
Qed.

End Lane.

(** * Flushing lanes and taking offers

    [flush], [make_room] and [offer] (Cdc.v) preserve [inv] (CdcInv.v), and the runs
    of all lanes together stay within the drain's budget. *)

Section Flush.
Context {E : Type} {H : CdcHost E}.
Context (ms : list Mapping) (OS : list Offer) (Horder : in_commit_order OS).
#[local] Abbreviation st := (Drain * World E)%type.
#[local] Abbreviation events s := (w_events s.2).

(** What is known where the summaries of lane [i] are held back. *)
Definition clear_of (i : nat) (os : list Offer) (held : option (option Z * Reason)) (evs : list Event) : Prop :=
  match held with
  | None => summarises ms i → ∀ o, o ∈ os → follows ms OS evs o
  | Some (hold, _) => held_by os hold ∧
      (summarises ms i → ∀ o h, hold = Some h → o ∈ os → (o_pos o).1 ≤ h → follows ms OS evs o)
  end.

Lemma due_sub i os : due ms i os ⊆ os.
Proof using Type. clear. intros o Ho. by apply due_in in Ho as (? & _). Qed.

(** The hold of what is left of a lane is no later than those behind it. *)
Lemma holds_after i os done p2 rest : os `prefix_of` OS → due ms i os = done ++ p2 ++ rest → p2 ≠ [] →
  held_by os (head_hold p2) ∧ Forall (λ o, hold_le (head_hold p2) (o_hold o)) (p2 ++ rest).
Proof using Horder.
  intros [os' Hos] Hdue Hp. destruct p2 as [|o p2]; [done |]. cbn [head_hold app]. split.
  - exists o. split; [| by right]. apply (due_sub i). rewrite Hdue. set_solver.
  - constructor; [apply hold_le_refl |]. apply Forall_forall. intros o' Ho'.
    pose proof (due_sorted ms OS Horder i) as Hs. rewrite Hos, due_app, Hdue in Hs.
    destruct (sorted_split _ (done ++ [o]) (p2 ++ rest ++ due ms i os') o o' Hs) as (_ & Hle & _); [| set_solver | set_solver | done].
    by rewrite <- !app_assoc.
Qed.

(** A run taken out of its lane. *)
Lemma take_run i os (s : st) l run : inv ms OS os s → d_lanes s.1 !! i = Some l → ln_run l = Some run →
  ∃ done pend, due ms i os = done ++ pend ∧ run_ok run pend ∧
    let d := set_lane i (set_run None l) (set_buffered (d_buffered s.1 - len (rn_body run)) s.1) in
    inv_but ms OS i os (d, s.2) ∧ hand ms i (d, s.2) done [] ∧ keeps i s (d, s.2).
Proof using Type.
  clear Horder. intros [I1 I2 I3 I4 I5 I6] Hl Hr. pose proof (I3 i l Hl) as Hok.
  destruct Hok as [done pend chunks H1 H2 H3 H4 H5 H6 H7|]; [| by rewrite Hr in *].
  rewrite Hr in H5. exists done, pend. split; [done |]. split; [done |]. cbv zeta.
  assert (i < length (d_lanes s.1))%nat as Hlt by (by eapply lookup_lt_Some). split_and!.
  - split; cbn; try done.
    + by rewrite length_insert.
    + intros j l'. rewrite list_lookup_insert_Some. intros [(<- & <- & _)|[_ Hj]]; [by apply (I2 i l) | by apply I2].
    + intros j l' Hj. rewrite list_lookup_insert_ne by done. by apply I3.
    + assert (run_len l = len (rn_body run) ∧ run_len (set_run None l) = 0) as [E1 E2] by (unfold run_len; by rewrite Hr).
      rewrite (runs_insert _ i l), E1, E2 by done. lia.
  - exists (set_run None l), chunks. cbn. rewrite list_lookup_insert_eq by done. split_and!; try done.
    by rewrite app_nil_r.
  - split; cbn; [done | done | | | done].
    + intros j Hj. by rewrite list_lookup_insert_ne.
    + exists []. rewrite app_nil_r. by split; [| constructor].
Qed.

(** Stopping a lane where what is left of it starts. *)
Lemma stop_at i os (s : st) done extra p2 rest why : os `prefix_of` OS → inv_but ms OS i os s → hand ms i s done extra →
  due ms i os = done ++ p2 ++ rest → p2 ≠ [] → extra `prefix_of` p2 →
  inv ms OS os (on_lane i (set_stopped (Some (head_hold p2, why))) s.1, s.2).
Proof using Horder.
  intros Hos Hi Hha Hdue Hp Hex. destruct (holds_after i os done p2 rest Hos Hdue Hp) as [Hh Hall].
  apply (hand_stop ms OS i os s done extra (p2 ++ rest)); try done. by apply prefix_app_r.
Qed.

Lemma flushed_run i f (d : Drain) (w : World E) done extra : (∀ l, ln_run (f l) = ln_run l) → hand ms i (d, w) done extra →
  ∀ l, d_lanes (on_lane i f d) !! i = Some l → ln_run l = None.
Proof using Type.
  clear Horder. intros Hf (l & chunks & Hl & _ & Hr & _) l'. rewrite (on_lane_eq i f d l Hl). intros [= <-]. by rewrite Hf.
Qed.

Lemma hand_run i (s : st) done extra l : hand ms i s done extra → d_lanes s.1 !! i = Some l → ln_run l = None.
Proof using Type. clear Horder. intros (l' & chunks & Hl & _ & Hr & _). by intros [= <-]%(eq_trans (eq_sym Hl)). Qed.

(** What [flush_held] does with a run it may deliver [p1] of, [p2] held back. *)
Lemma flush_deliver i m cols run held os (s : st) done p1 p2 : os `prefix_of` OS → inv_but ms OS i os s →
  hand ms i s done [] → due ms i os = done ++ p1 ++ p2 → run_ok run p1 → ahead ms OS i p1 (events s) → shaped ms i m cols p1 →
  match held with
  | None => p2 = []
  | Some (hold, _) => held_by os hold ∧ Forall (λ o, hold_le hold (o_hold o)) p2
  end →
  let '(failed, (d, w)) := deliver i m cols run s in
  let s' := match failed with
            | Some (hold, why) => (on_lane i (set_stopped (Some (hold, Stopped (mp_name m) why))) d, w)
            | None => match held with Some _ => (on_lane i (set_stopped held) d, w) | None => (d, w) end
            end in
  inv ms OS os s' ∧ keeps i s s' ∧ ∀ l, d_lanes s'.1 !! i = Some l → ln_run l = None.
Proof using Horder.
  intros Hos Hi Hha Hdue Hrun Ha Hsh Hheld.
  destruct (deliver_ok ms OS Horder i m cols run p1 s os done p2 Hos Hi Hha Hdue Hrun Ha Hsh) as [Hk [Hi' Hf]].
  destruct (deliver i m cols run s) as [failed [d w]]. cbn [fst snd] in *. destruct failed as [[hold why]|].
  - destruct Hf as (q1 & q2 & extra & -> & Hq & -> & Hha' & Hex). split_and!.
    + apply (stop_at i os (d, w) (done ++ q1) extra q2 p2); try done. by rewrite Hdue, <- !app_assoc.
    + by apply keeps_on_lane.
    + by eapply flushed_run.
  - destruct held as [[hold why]|]; split_and!.
    + apply (hand_stop ms OS i os (d, w) (done ++ p1) [] p2); try done; [by rewrite Hdue, <- app_assoc | apply prefix_nil | apply Hheld | apply Hheld].
    + by apply keeps_on_lane.
    + by eapply flushed_run.
    + apply (hand_inv ms OS i os (d, w) (done ++ p1)); [done | done |]. by rewrite Hdue, Hheld, app_nil_r.
    + done.
    + intros l. by eapply hand_run.
Qed.

(** What flushing lane [i] guarantees. *)
Definition flushed (i : nat) (os : list Offer) (s s' : st) : Prop :=
  inv ms OS os s' ∧ keeps i s s' ∧ ∀ l, d_lanes s'.1 !! i = Some l → ln_run l = None.

Section Taken.
Context (i : nat) (os : list Offer) (s : st) (d : Drain) (run : Run) (done pend : list Offer).
Context (Hos : os `prefix_of` OS) (Hdue : due ms i os = done ++ pend) (Hrun : run_ok run pend).
Context (Hi : inv_but ms OS i os (d, s.2)) (Hha : hand ms i (d, s.2) done []) (Hk : keeps i s (d, s.2)).

Lemma pend_sub : pend ⊆ os.
Proof using Hdue. clear Horder Hos Hrun Hi Hha Hk. intros o Ho. apply (due_sub i). rewrite Hdue. set_solver. Qed.

Lemma flush_stop why : flushed i os s (on_lane i (set_stopped (Some (rn_hold run, why))) d, s.2).
Proof using All.
  rewrite (ro_hold _ _ Hrun). split_and!; [| by apply keeps_on_lane | by eapply flushed_run].
  apply (stop_at i os (d, s.2) done [] pend []); try done; [by rewrite app_nil_r | apply Hrun | apply prefix_nil].
Qed.

Lemma flush_go m cols r p1 p2 held : pend = p1 ++ p2 → run_ok r p1 → ahead ms OS i p1 (events s) → shaped ms i m cols p1 →
  match held with None => p2 = [] | Some (hold, _) => held_by os hold ∧ Forall (λ o, hold_le hold (o_hold o)) p2 end →
  flushed i os s (let '(failed, (d, w)) := deliver i m cols r (d, s.2) in
    match failed with
    | Some (hold, why) => (on_lane i (set_stopped (Some (hold, Stopped (mp_name m) why))) d, w)
    | None => match held with Some _ => (on_lane i (set_stopped held) d, w) | None => (d, w) end
    end).
Proof using All.
  intros Hp Hr Ha Hsh Hh. rewrite Hp in Hdue.
  pose proof (flush_deliver i m cols r held os (d, s.2) done p1 p2 Hos Hi Hha Hdue Hr Ha Hsh Hh) as Hf.
  destruct (deliver i m cols r (d, s.2)) as [failed [d2 w2]]. destruct Hf as (F1 & F2 & F3).
  split_and!; [done | by eapply keeps_trans | done].
Qed.

(** Holding the slot at [h] keeps what ends past it. *)
Lemma keeps_past h p1 p2 : held_by os (Some h) → pend = p1 ++ p2 → Forall (λ o, h < (o_pos o).1) p2 →
  Forall (λ o, hold_le (Some h) (o_hold o)) p2.
Proof using All.
  intros (o & Ho & [?|Hh]) Hp Hall; [done |]. destruct Hos as [os' Hos']. rewrite Forall_forall in Hall |- *. intros o' Ho'.
  apply (co_keeps OS Horder o); [| | done | by apply Hall]; rewrite Hos'; apply elem_of_app; left; [done |].
  apply pend_sub. rewrite Hp. set_solver.
Qed.

End Taken.

Lemma flush_held_ok i os held (s : st) : os `prefix_of` OS → inv ms OS os s → clear_of i os held (events s) →
  flushed i os s (flush_held i held s).
Proof using Horder.
  intros Hos Hi Hcl. destruct s as [d w]. unfold flush_held.
  destruct (d_lanes d !! i) as [l|] eqn:Hl; [| split_and!; [done | apply keeps_refl | cbn; by rewrite Hl]].
  destruct (ln_run l) as [run|] eqn:Hr.
  2:{ split_and!; [done | apply keeps_refl |]. cbn. rewrite Hl. by intros ? [= <-]. }
  destruct (take_run i os (d, w) l run Hi Hl Hr) as (done & pend & Hdue & Hrun & Hi1 & Hha & Hk). cbn [fst snd] in *.
  set (d1 := set_lane i (set_run None l) _) in *. pose proof (pend_sub i os done pend Hdue) as Hsub.
  pose proof (flush_stop i os (d, w) d1 run done pend Hos Hdue Hrun Hi1 Hha Hk) as Hstop.
  pose proof (flush_go i os (d, w) d1 run done pend Hos Hdue Hrun Hi1 Hha Hk) as Hgo.
  destruct (cut_run held run) as [r'|] eqn:Ec; [| destruct held as [[]|]; [apply Hstop | done]].
  destruct (parse_cols (rn_cols r')) as [cols|e] eqn:Epc; [| rewrite (cut_run_hold _ _ _ Ec); apply Hstop].
  assert (∀ p, run_ok r' p → shaped ms i (ln_mapping l) cols p) as Hshape.
  { intros p Hp. split; [by apply (iv_mappings _ _ _ _ Hi) | by exists (rn_cols r'); split; [apply Hp |]]. }
  destruct held as [[hold why]|]; cbn [clear_of] in Hcl.
  - pose proof (cut_run_ok run pend hold why Hrun) as Hcut. rewrite Ec in Hcut.
    destruct Hcut as (h & p1 & p2 & -> & Hp & Hr' & H1 & H2). destruct Hcl as [Hh Hf].
    apply (Hgo _ cols r' p1 p2 (Some (Some h, why))); [done | done | | by apply Hshape |].
    + intros Hs o' Ho'. apply (Hf Hs o' h eq_refl); [apply Hsub; rewrite Hp; set_solver |]. by eapply Forall_forall in H1.
    + split; [done |]. by eapply (keeps_past i os (d, w) d1 run done pend).
  - injection Ec as <-. apply (Hgo _ cols run pend [] None); [by rewrite app_nil_r | done | | by apply Hshape | done].
    intros Hs o Ho. apply (Hcl Hs). by apply Hsub.
Qed.

(** ** The changes before their summaries *)

Lemma target_none (holds : list (option Z)) : foldl (λ acc h, a ← acc; x ← h; Some (Z.min a x)) None holds = None.
Proof using Type. clear. by induction holds. Qed.

(** The least of the holds, if all of them hold somewhere. *)
Lemma target_least (holds : list (option Z)) t :
  match foldl (λ acc h, a ← acc; x ← h; Some (Z.min a x)) (Some t) holds with
  | Some u => (u = t ∨ Some u ∈ holds) ∧ u ≤ t ∧ ∀ h, h ∈ holds → ∃ x, h = Some x ∧ u ≤ x
  | None => None ∈ holds
  end.
Proof using Type.
  clear. revert t. induction holds as [|[x|] holds IH]; intros t; cbn.
  - split_and!; [by left | lia | set_solver].
  - specialize (IH (Z.min t x)). destruct (foldl _ _ _) as [u|]; [| set_solver]. destruct IH as (H1 & H2 & H3). split_and!.
    + destruct H1 as [-> |]; [| set_solver]. destruct (Z.min_spec t x) as [[_ ->]|[_ ->]]; [by left | set_solver].
    + lia.
    + intros h [-> |Hh]%elem_of_cons; [exists x; split; [done | lia] | by apply H3].
  - rewrite target_none. set_solver.
Qed.

Lemma advance_target_spec high holds : holds ≠ [] → (∀ x, Some x ∈ holds → x < 2 ^ 64) →
  match advance_target high holds with
  | Some t => Some t ∈ holds ∧ ∀ h, h ∈ holds → ∃ x, h = Some x ∧ t ≤ x
  | None => None ∈ holds
  end.
Proof using Type.
  clear. intros Hne Hb. unfold advance_target. rewrite bool_decide_eq_false_2 by done.
  pose proof (target_least holds (2 ^ 64 - 1)) as Ht. destruct (foldl _ _ _) as [u|]; [| done].
  destruct Ht as (H1 & H2 & H3). split; [| done]. destruct H1 as [-> |]; [| done].
  destruct holds as [|h holds]; [done |]. destruct (H3 h) as (x & -> & Hx); [set_solver |].
  specialize (Hb x ltac:(set_solver)). assert (x = 2 ^ 64 - 1) as <- by lia. set_solver.
Qed.

(** Runs are only flushed. *)
Record calmer (s s' : st) : Prop := mk_calmer {
  cm_streaming : d_streaming s'.1 = d_streaming s.1;
  cm_chunk : d_chunk_bytes s'.1 = d_chunk_bytes s.1;
  cm_lanes : ∀ j l, d_lanes s'.1 !! j = Some l → ln_run l = None ∨ d_lanes s.1 !! j = Some l;
  cm_unmoved : unmoved (events s) → unmoved (events s') }.

Lemma calmer_refl s : calmer s s.
Proof using Type. clear Horder. split; try done. intros j l ?. by right. Qed.

Lemma calmer_trans s1 s2 s3 : calmer s1 s2 → calmer s2 s3 → calmer s1 s3.
Proof using Type.
  clear Horder. intros [A1 A2 A3 A4] [B1 B2 B3 B4]. split; [congruence | congruence | | by intros ?; apply B4, A4]. intros j l Hl.
  destruct (B3 j l Hl) as [|Hl2]; [by left | by apply A3].
Qed.

Lemma flushed_calmer i os s s' : flushed i os s s' → calmer s s'.
Proof using Type.
  clear Horder. intros (_ & [K1 K2 K3 _ K5] & Hr). split; [done | done | | done]. intros j l Hl.
  destruct (decide (j = i)) as [->|Hj]; [left; by apply Hr | right]. by rewrite <- K3.
Qed.

Lemma calmer_none s s' j l : calmer s s' → d_lanes s'.1 !! j = Some l → (∀ l, d_lanes s.1 !! j = Some l → ln_run l = None) →
  ln_run l = None.
Proof using Type. clear Horder. intros Hc Hl Hn. destruct (cm_lanes _ _ Hc j l Hl) as [|Hl']; [done | by apply Hn]. Qed.

Lemma flush_all_ok os js (s : st) : os `prefix_of` OS → inv ms OS os s → (∀ j, j ∈ js → ¬ summarises ms j) →
  inv ms OS os (flush_all_of js s) ∧ calmer s (flush_all_of js s) ∧
  ∀ j l, j ∈ js → d_lanes (flush_all_of js s).1 !! j = Some l → ln_run l = None.
Proof using Horder.
  intros Hos. unfold flush_all_of. revert s. induction js as [|j js IH]; intros s Hi Hjs; cbn.
  { split_and!; [done | apply calmer_refl |]. intros ? ? []%not_elem_of_nil. }
  assert (flushed j os s (flush_held j None s)) as Hf.
  { apply flush_held_ok; [done | done |]. intros Hs. exfalso. apply (Hjs j); [set_solver | done]. }
  destruct (IH (flush_held j None s)) as (I1 & I2 & I3); [apply Hf | set_solver |].
  split_and!; [done | eapply calmer_trans; [by eapply flushed_calmer | done] |].
  intros j' l [->|Hj']%elem_of_cons Hl; [| by eapply I3]. eapply calmer_none; [done | done |]. apply Hf.
Qed.

Lemma table_lanes_in os (s : st) j : inv ms OS os s →
  j ∈ table_lanes s.1 ↔ ∃ m, ms !! j = Some m ∧ is_summary m = false.
Proof using Type.
  clear Horder. intros [I1 I2 _ _ _ _]. unfold table_lanes. rewrite list_elem_of_In, filter_In, in_seq, I1. split.
  - intros [_ Hl]. destruct (d_lanes s.1 !! j) as [l|] eqn:El; [| done]. exists (ln_mapping l). split; [by apply I2 |].
    by apply negb_true_iff.
  - intros (m & Hm & Hs). pose proof (lookup_lt_Some _ _ _ Hm) as Hlt. split; [lia |].
    destruct (lookup_lt_is_Some_2 (d_lanes s.1) j) as [l Hl]; [by rewrite I1 |]. rewrite Hl.
    pose proof (I2 j l Hl) as Hm'. rewrite Hm in Hm'. injection Hm' as <-. by rewrite Hs.
Qed.

Lemma blockers_in os (s : st) hold name : inv ms OS os s → (hold, name) ∈ blockers s.1 →
  ∃ j l why, d_lanes s.1 !! j = Some l ∧ is_summary (ln_mapping l) = false ∧ ln_stopped l = Some (hold, why).
Proof using Type.
  clear Horder. intros Hi. unfold blockers. rewrite list_elem_of_omap. intros (l & Hl & Hb).
  apply list_elem_of_lookup in Hl as [j Hj]. destruct (is_summary (ln_mapping l)) eqn:Es; [done |].
  destruct (ln_stopped l) as [[h why]|] eqn:Est; [| done]. injection Hb as <- <-. by exists j, l, why.
Qed.

Lemma in_blockers (s : st) j l hold why : d_lanes s.1 !! j = Some l → is_summary (ln_mapping l) = false →
  ln_stopped l = Some (hold, why) → (hold, mp_name (ln_mapping l)) ∈ blockers s.1.
Proof using Type.
  clear Horder. intros Hl Hs Hst. unfold blockers. apply list_elem_of_omap. exists l. split; [by eapply list_elem_of_lookup_2 |].
  by rewrite Hs, Hst.
Qed.

Lemma stopped_held os (s : st) j l hold why : inv ms OS os s → d_lanes s.1 !! j = Some l →
  ln_stopped l = Some (hold, why) → held_by os hold.
Proof using Type.
  clear Horder. intros [_ _ I3 _ _ _] Hl Hst. destruct (I3 j l Hl) as [|? ? ? ? ? ? Hst']; [congruence |].
  rewrite Hst in Hst'. by injection Hst' as <- <-.
Qed.

Lemma held_bound os h : os `prefix_of` OS → held_by os (Some h) → h < 2 ^ 64.
Proof using Horder.
  intros [os' Hos] (o & Ho & [|Hh]); [done |]. eapply (co_hold OS Horder o); [| done]. rewrite Hos. set_solver.
Qed.

(** What is due to a lane up to an offer seen has been offered. *)
Lemma due_before os j o o' : os `prefix_of` OS → o ∈ os → o' ∈ due ms j OS → pos_lt (o_pos o') (o_pos o) → o' ∈ due ms j os.
Proof using Horder.
  intros [os' Hos] Ho Hdue Hlt. rewrite Hos, due_app in Hdue. apply elem_of_app in Hdue as [?|Hd]; [done |]. exfalso.
  destruct (sorted_split _ _ _ o o' (co_sorted OS Horder) Hos Ho) as (_ & _ & Hle & _); [by eapply due_sub |].
  unfold pos_lt, pos_le in *. lia.
Qed.

(** Once the table mappings are flushed, a summary no stopped one holds back follows its changes. *)
Lemma follows_at os (s : st) o : os `prefix_of` OS → inv ms OS os s → o ∈ os →
  (∀ j l, d_lanes s.1 !! j = Some l → is_summary (ln_mapping l) = false → ln_run l = None) →
  (∀ j l hold why, d_lanes s.1 !! j = Some l → is_summary (ln_mapping l) = false → ln_stopped l = Some (hold, why) →
     ∃ x, hold = Some x ∧ (o_pos o).1 ≤ x) →
  follows ms OS (events s) o.
Proof using Horder.
  intros Hos [I1 I2 I3 _ _ _] Ho Hruns Hst j m Hm Hs.
  destruct (lookup_lt_is_Some_2 (d_lanes s.1) j) as [l Hl]; [rewrite I1; by eapply lookup_lt_Some |].
  pose proof (I2 j l Hl) as Hm'. rewrite Hm in Hm'. injection Hm' as ->. pose proof Hos as [os' Hos'].
  destruct (I3 j l Hl) as [done pend chunks H1 H2 H3 H4 H5 H6 H7|done rest extra chunks hold why H1 H2 H3 H4 H5 H6 H7 H8 H9];
    exists chunks.
  - rewrite (Hruns j l Hl Hs) in H5. cbn in H5. subst pend. rewrite app_nil_r in H2. rewrite H4. split_and!; [done | |].
    + exists (due ms j os'). by rewrite Hos', due_app, H2.
    + intros o' Ho' Hlt. rewrite <- H2. by eapply due_before.
  - destruct (Hst j l hold why Hl Hs H1) as (x & -> & Hx). rewrite H5. destruct H6 as [t ->]. split_and!; [done | |].
    + exists (t ++ due ms j os'). by rewrite Hos', due_app, H3, <- !app_assoc.
    + intros o' Ho' Hlt. pose proof (due_before os j o o' Hos Ho Ho' Hlt) as Hd. rewrite H3 in Hd.
      apply elem_of_app in Hd as [?|Hr]; [by apply elem_of_app; left |]. exfalso.
      rewrite Forall_forall in H8. destruct (H8 o' Hr) as (y & Hy & Hxy).
      destruct (co_hold OS Horder o' y) as [? _]; [by eapply due_sub | done |]. unfold pos_lt in Hlt. lia.
Qed.

Lemma changes_first_ok i os (s : st) : os `prefix_of` OS → inv ms OS os s →
  let r := changes_first i s in inv ms OS os r.2 ∧ calmer s r.2 ∧ clear_of i os r.1 (events r.2).
Proof using Horder.
  intros Hos Hi. unfold changes_first.
  destruct (flush_all_ok os (table_lanes s.1) s Hos Hi) as (I1 & I2 & I3).
  { intros j Hj. apply (table_lanes_in os s j Hi) in Hj as (m & Hm & Hs). intros (m' & Hm' & Hs'). congruence. }
  destruct (flush_all_of (table_lanes s.1) s) as [d w]. cbn [fst snd]. split; [done |]. split; [done |].
  assert (∀ j l, d_lanes d !! j = Some l → is_summary (ln_mapping l) = false → ln_run l = None) as Hruns.
  { intros j l Hl Hs. apply (I3 j l); [| done]. apply (table_lanes_in os s j Hi). exists (ln_mapping l). split; [| done].
    by apply (iv_mappings _ _ _ _ I1 j l). }
  assert (∀ h, h ∈ (blockers d).*1 → held_by os h) as Hheld.
  { intros h Hh. apply list_elem_of_fmap in Hh as ([hold name] & -> & Hb).
    apply (blockers_in os (d, w)) in Hb as (j & l & why & Hl & _ & Hst); [| done]. by eapply (stopped_held os (d, w)). }
  destruct (blockers d) as [|[hold first] bs] eqn:Eb.
  - intros _ o Ho. apply (follows_at os (d, w)); try done. intros j l hold why Hl Hs Hst. exfalso.
    pose proof (in_blockers (d, w) j l hold why Hl Hs Hst) as Hb. cbn in Hb. rewrite Eb in Hb. by apply not_elem_of_nil in Hb.
  - rewrite <- Eb in Hheld |- *. pose proof (advance_target_spec None ((blockers d).*1)) as Ht.
    assert ((blockers d).*1 ≠ []) as Hne by (by rewrite Eb). specialize (Ht Hne).
    specialize (Ht ltac:(intros x Hx; eapply held_bound; [done | by apply Hheld])).
    destruct (advance_target None ((blockers d).*1)) as [t|].
    + destruct Ht as [Ht Hle]. split; [by apply Hheld |]. intros _ o h [= <-] Ho Hend.
      apply (follows_at os (d, w)); try done. intros j l hold' why Hl Hs Hst.
      pose proof (in_blockers (d, w) j l hold' why Hl Hs Hst) as Hb.
      destruct (Hle hold') as (x & -> & Hx); [apply list_elem_of_fmap; by exists (hold', mp_name (ln_mapping l)) |]. exists x. split; [done | lia].
    + split; [by apply Hheld | done].
Qed.

Lemma flush_ok i os (s : st) : os `prefix_of` OS → inv ms OS os s →
  inv ms OS os (flush i s) ∧ calmer s (flush i s) ∧ ∀ l, d_lanes (flush i s).1 !! i = Some l → ln_run l = None.
Proof using Horder.
  intros Hos Hi. unfold flush. destruct (d_lanes s.1 !! i) as [l|] eqn:Hl.
  2:{ split_and!; [done | apply calmer_refl | by rewrite Hl]. }
  destruct (is_summary (ln_mapping l)) eqn:Es.
  - destruct (changes_first_ok i os s Hos Hi) as (I1 & I2 & I3). destruct (changes_first i s) as [held s1]. cbn [fst snd] in *.
    pose proof (flush_held_ok i os held s1 Hos I1 I3) as Hf. split_and!; [apply Hf | | apply Hf].
    eapply calmer_trans; [done | by eapply flushed_calmer].
  - pose proof (flush_held_ok i os None s Hos Hi) as Hf.
    destruct Hf as (F1 & F2 & F3); [| split_and!; [done | by eapply (flushed_calmer i os) | done]].
    intros (m & Hm & Hs). pose proof (iv_mappings _ _ _ _ Hi i l Hl). congruence.
Qed.

End Flush.
