(* ===== verification/CdcPeek.v ===== *)
(** * Taking offers within the budget

    [make_room] flushes at most one run per lane and leaves room for the next change;
    [offer] preserves [inv] (CdcInv.v), and the bytes of all runs together never exceed
    the drain's chunk size, or one change if that is larger.

    Behind it: reading a peek, settling, and a whole drain. *)

From stdpp Require Import gmap sorting strings.
From S2P Require Import Prelude Sasl Cdc CdcInv CdcDrain.

#[local] Open Scope Z_scope.

(** ** Counting runs *)

Definition has_run (l : Lane) : nat := match ln_run l with Some _ => 1 | None => 0 end.
Fixpoint runs (ls : list Lane) : nat := match ls with [] => 0 | l :: ls => has_run l + runs ls end.
Definition run_bytes (ls : list Lane) : Z := foldr (λ l n, run_len l + n) 0 ls.
Lemma run_bytes_cons l ls : run_bytes (l :: ls) = run_len l + run_bytes ls.
Proof. done. Qed.

Lemma run_len_nonneg l : 0 ≤ run_len l.
Proof. unfold run_len. destruct (ln_run l) as [r|]; [apply len_nonneg | done]. Qed.

Lemma runs_le ls : (runs ls ≤ length ls)%nat.
Proof. induction ls as [|l ls IH]; cbn; [done |]. unfold has_run. destruct (ln_run l); lia. Qed.

(** Flushed lanes hold fewer runs, and fewer bytes. *)
Lemma flushed_runs (ls ls' : list Lane) : length ls' = length ls →
  (∀ j l, ls' !! j = Some l → ln_run l = None ∨ ls !! j = Some l) →
  (runs ls' ≤ runs ls)%nat ∧ run_bytes ls' ≤ run_bytes ls.
Proof.
  revert ls. induction ls' as [|l' ls' IH]; intros [|l ls] Hlen Hj; try done; cbn in Hlen.
  destruct (IH ls) as [R B]; [lia | intros j x Hx; exact (Hj (S j) x Hx) |]. rewrite !run_bytes_cons. cbn [runs].
  pose proof (run_len_nonneg l). destruct (Hj 0%nat l' eq_refl) as [Hn|[= ->]]; [| split; lia].
  assert (has_run l' = 0%nat ∧ run_len l' = 0) as [-> ->] by (unfold has_run, run_len; by rewrite Hn). split; lia.
Qed.

Lemma flushed_fewer (ls ls' : list Lane) i l l' : length ls' = length ls →
  (∀ j l, ls' !! j = Some l → ln_run l = None ∨ ls !! j = Some l) →
  ls !! i = Some l → ln_run l ≠ None → ls' !! i = Some l' → ln_run l' = None → (runs ls' < runs ls)%nat.
Proof.
  revert ls i. induction ls' as [|x' ls' IH]; intros [|x ls] i Hlen Hj Hl Hr Hl' Hr'; try done; cbn in Hlen.
  assert (∀ j l, ls' !! j = Some l → ln_run l = None ∨ ls !! j = Some l) as Hj' by (intros j y Hy; exact (Hj (S j) y Hy)).
  destruct (flushed_runs ls ls') as [R _]; [lia | done |]. destruct i as [|i]; cbn in *.
  - simplify_eq. unfold has_run. rewrite Hr'. destruct (ln_run l); [lia | done].
  - assert (runs ls' < runs ls)%nat by (apply (IH ls i); try done; lia).
    assert (has_run x' ≤ has_run x)%nat; [| lia].
    destruct (Hj 0%nat x' eq_refl) as [Hn|[= ->]]; [| done]. unfold has_run. rewrite Hn. lia.
Qed.

(** ** The largest run *)

Lemma largest_from_spec (ls pre : list Lane) i n b : length pre = i → pre !! b.1 = Some n → run_len n = b.2 →
  Forall (λ l, run_len l ≤ b.2) pre →
  ∃ l, (pre ++ ls) !! largest_from i ls b = Some l ∧ Forall (λ x, run_len x ≤ run_len l) (pre ++ ls).
Proof.
  revert pre i n b. induction ls as [|l ls IH]; intros pre i n b Hlen Hb Hn Hall.
  { exists n. rewrite app_nil_r. cbn. by rewrite Hn. }
  cbn [largest_from]. replace (pre ++ l :: ls) with ((pre ++ [l]) ++ ls) by (by rewrite <- app_assoc).
  destruct (Z.leb_spec b.2 (run_len l)) as [Hle|Hgt].
  - apply (IH _ _ l); cbn; [rewrite length_app; cbn; lia | | done |].
    + rewrite lookup_app_r by lia. by rewrite Hlen, Nat.sub_diag.
    + apply Forall_app. split; [eapply Forall_impl; [exact Hall |]; cbn; lia | by repeat constructor].
  - apply (IH _ _ n); [rewrite length_app; cbn; lia | | done |].
    + rewrite lookup_app_l; [done |]. by eapply lookup_lt_Some.
    + apply Forall_app. split; [done | repeat constructor; lia].
Qed.

Lemma largest_spec lane d : d_lanes d ≠ [] →
  ∃ l, d_lanes d !! largest lane d = Some l ∧ Forall (λ x, run_len x ≤ run_len l) (d_lanes d).
Proof.
  unfold largest. intros Hne. destruct (d_lanes d) as [|l ls]; [done |].
  apply (largest_from_spec ls [l] 1 l); [done | done | done |]. by repeat constructor.
Qed.

(** While anything is buffered the largest run is a run. *)
Lemma largest_run lane d : 0 < run_bytes (d_lanes d) →
  ∃ l, d_lanes d !! largest lane d = Some l ∧ ln_run l ≠ None.
Proof.
  intros Hpos. destruct (largest_spec lane d) as (l & Hl & Hall).
  { intros He. by rewrite He in Hpos. }
  exists l. split; [done |]. intros Hn. assert (run_len l = 0) as E0 by (unfold run_len; by rewrite Hn).
  assert (run_bytes (d_lanes d) ≤ 0); [| lia]. rewrite E0 in Hall.
  clear -Hall. induction Hall as [|x ls Hx _ IH]; [done |]. rewrite run_bytes_cons. lia.
Qed.

(** ** Making room *)

Section Offer.
Context {E : Type} {H : CdcHost E}.
Context (ms : list Mapping) (OS : list Offer) (Horder : in_commit_order OS).
#[local] Abbreviation st := (Drain * World E)%type.
#[local] Abbreviation events s := (w_events s.2).

Lemma calmer_bytes os os' (s s' : st) : inv ms OS os s → inv ms OS os' s' → calmer s s' →
  (runs (d_lanes s'.1) ≤ runs (d_lanes s.1))%nat ∧ d_buffered s'.1 ≤ d_buffered s.1.
Proof using Type.
  clear Horder. intros Hi Hi' Hc. rewrite (iv_buffered _ _ _ _ Hi), (iv_buffered _ _ _ _ Hi').
  apply flushed_runs; [by rewrite (iv_length _ _ _ _ Hi), (iv_length _ _ _ _ Hi') |]. apply Hc.
Qed.

(** Room enough, once every run that had to go is gone. *)
Definition roomy (n : Z) (s : st) : Prop := d_buffered s.1 = 0 ∨ d_buffered s.1 + n + 2 ≤ d_chunk_bytes s.1.

Lemma make_room_ok lane n os fuel (s : st) : os `prefix_of` OS → inv ms OS os s →
  let s' := make_room fuel lane n s in
  inv ms OS os s' ∧ calmer s s' ∧ ((runs (d_lanes s.1) < fuel)%nat → roomy n s').
Proof using Horder.
  intros Hos. revert s. induction fuel as [|fuel IH]; intros s Hi; cbn [make_room].
  { split_and!; [done | apply calmer_refl | lia]. }
  assert (0 ≤ d_buffered s.1) as Hnn.
  { rewrite (iv_buffered _ _ _ _ Hi). clear. induction (d_lanes s.1) as [|l ls IHl]; cbn; [done |].
    pose proof (run_len_nonneg l). lia. }
  destruct (Z.ltb_spec 0 (d_buffered s.1)) as [Hpos|Hz]; cbn [andb].
  2:{ split_and!; [done | apply calmer_refl |]. intros _. left. lia. }
  destruct (Z.ltb_spec (d_chunk_bytes s.1) (d_buffered s.1 + n + 2)) as [Hover|Hfits].
  2:{ split_and!; [done | apply calmer_refl |]. intros _. right. lia. }
  destruct (largest_run lane s.1) as (l & Hl & Hr); [by rewrite (iv_buffered _ _ _ _ Hi) in Hpos |].
  rewrite Hl. destruct (ln_run l) as [r|] eqn:Er; [| done].
  destruct (flush_ok ms OS Horder (largest lane s.1) os s Hos Hi) as (I1 & I2 & I3).
  destruct (IH _ I1) as (J1 & J2 & J3). split_and!; [done | by eapply calmer_trans |]. intros Hf. apply J3.
  assert (length (d_lanes (flush (largest lane s.1) s).1) = length (d_lanes s.1)) as Hlen
    by (by rewrite (iv_length _ _ _ _ Hi), (iv_length _ _ _ _ I1)).
  destruct (lookup_lt_is_Some_2 (d_lanes (flush (largest lane s.1) s).1) (largest lane s.1)) as [l' Hl'].
  { rewrite Hlen. by eapply lookup_lt_Some. }
  assert (runs (d_lanes (flush (largest lane s.1) s).1) < runs (d_lanes s.1))%nat; [| lia].
  apply (flushed_fewer _ _ (largest lane s.1) l l'); try done; [apply I2 | by rewrite Er | by apply I3].
Qed.

(** ** One more offer *)

Lemma due_one i o : due ms i [o] = if bool_decide (o_lane o = i) && negb (already ms i o) then [o] else [].
Proof using Type. clear. unfold due. cbn. by destruct (_ && _). Qed.

Lemma held_more os o hold : held_by os hold → held_by (os ++ [o]) hold.
Proof using Type. clear. intros (x & Hx & Hh). exists x. split; [set_solver | done]. Qed.

(** Nothing due to the lane. *)
Lemma lane_ok_skip os o str i l evs : due ms i [o] = [] → lane_ok ms os str i l evs → lane_ok ms (os ++ [o]) str i l evs.
Proof using Type.
  clear Horder. intros Hd [got pend chunks H1 H2 H3 H4 H5 H6 H7|got rest extra chunks hold why H1 H2 H3 H4 H5 H6 H7 H8 H9].
  - eapply lane_going; try done. by rewrite due_app, Hd, app_nil_r.
  - eapply lane_halted; try done; [by rewrite due_app, Hd, app_nil_r | by apply held_more].
Qed.

(** A stopped lane holds the slot before whatever comes. *)
Lemma lane_ok_stopped os o str i l evs : os ++ [o] `prefix_of` OS → ln_stopped l ≠ None →
  lane_ok ms os str i l evs → lane_ok ms (os ++ [o]) str i l evs.
Proof using Horder.
  intros [os' Hos] Hst [|got rest extra chunks hold why H1 H2 H3 H4 H5 H6 H7 H8 H9]; [done |].
  eapply (lane_halted ms _ _ _ _ _ got (rest ++ due ms i [o]) extra chunks hold why); try done.
  - by rewrite due_app, H3, app_assoc.
  - by apply prefix_app_r.
  - by apply held_more.
  - apply Forall_app. split; [done |]. rewrite due_one. destruct (_ && _); [| constructor]. repeat constructor.
    destruct H7 as (x & Hx & [-> | ->]); [done |]. rewrite <- app_assoc in Hos.
    by destruct (sorted_split _ _ _ x o (co_sorted OS Horder) Hos Hx) as (_ & Hle & _); [set_solver |].
Qed.

(** Whether a lane takes an offer is whether it is due. *)
Lemma takes_due os o str l evs : os ++ [o] `prefix_of` OS → ln_stopped l = None →
  lane_ok ms os str (o_lane o) l evs →
  due ms (o_lane o) [o] = if match ln_delivered l with Some p => bool_decide (pos_le (o_pos o) p) | None => false end
                          then [] else [o].
Proof using Horder.
  intros [os' Hos] Hst [got pend chunks H1 H2 H3 H4 H5 H6 H7|]; [| congruence]. clear H3 H4 H5 H7.
  rewrite due_one, bool_decide_eq_true_2 by done. cbn [andb]. rewrite H6. unfold reached.
  destruct (last got) as [x|] eqn:El; [| unfold already; by destruct (start ms (o_lane o)) as [p|]; [case_bool_decide |]].
  apply last_Some_elem_of in El. assert (x ∈ due ms (o_lane o) os) as Hx by (rewrite H2; set_solver).
  apply due_in in Hx as (Hx & Hlane & Ha). rewrite <- app_assoc in Hos.
  destruct (sorted_split _ _ _ x o (co_sorted OS Horder) Hos Hx) as (_ & _ & _ & Hlt); [set_solver |].
  specialize (Hlt Hlane). rewrite bool_decide_eq_false_2 by (unfold pos_lt, pos_le in *; lia).
  unfold already in *. destruct (start ms (o_lane o)) as [p|]; [| done]. apply bool_decide_eq_false in Ha.
  rewrite bool_decide_eq_false_2; [done |]. unfold pos_lt, pos_le in *. lia.
Qed.

(** An offer all lanes may ignore. *)
Lemma offer_skipped os o (s : st) : os ++ [o] `prefix_of` OS → inv ms OS os s →
  (∀ l, d_lanes s.1 !! o_lane o = Some l → ln_stopped l ≠ None ∨ due ms (o_lane o) [o] = []) → inv ms OS (os ++ [o]) s.
Proof using Horder.
  intros Hos [I1 I2 I3 I4 I5 I6] Hl. split; try done. intros j l Hj. destruct (decide (j = o_lane o)) as [->|Hne].
  - destruct (Hl l Hj) as [Hst|Hd]; [apply lane_ok_stopped | apply lane_ok_skip]; by try apply I3.
  - apply lane_ok_skip; [| by apply I3]. rewrite due_one, bool_decide_eq_false_2; done.
Qed.

Lemma extend_bytes pos hold cols element r pend : run_of r pend → Forall (λ o, o_element o ≠ []) pend →
  let before := match r with Some r => len (rn_body r) | None => 1 end in
  len (rn_body (extend pos hold cols element r)) - before + (if before =? 1 then 1 else 0) = len element + 1 ∧
  len (rn_body (extend pos hold cols element r)) = match r with Some r => len (rn_body r) | None => 0 end + (len element + 1).
Proof using Type.
  clear. intros Hr Hel. unfold extend. destruct r as [r|]; cbn [run_of from_option rn_body] in *; unfold id in *; cbv zeta.
  - destruct Hr as [Hne Hb _ _ _]. pose proof (join_body pend Hel) as Hj. rewrite <- Hb in Hj.
    rewrite bool_decide_eq_false_2 in Hj by done. cbn [negb] in Hj. rewrite Hj, !len_app.
    apply Z.ltb_lt in Hj. change (len (lit ",")) with 1.
    assert ((len (rn_body r) =? 1) = false) as -> by lia. lia.
  - cbn [rn_body]. change (1 <? len (lit "[")) with false. rewrite !len_app. change (len (lit "[")) with 1.
    cbn [len app]. change (len []) with 0. change (1 =? 1) with true. cbv iota. lia.
Qed.

Lemma collect_ok os o (s : st) l : os ++ [o] `prefix_of` OS → inv ms OS os s → d_lanes s.1 !! o_lane o = Some l →
  ln_stopped l = None → due ms (o_lane o) [o] = [o] → (∀ r, ln_run l = Some r → rn_cols r = o_cols o) →
  let s' := collect (o_lane o) (o_pos o) (o_hold o) (o_cols o) (o_element o) s in
  inv ms OS (os ++ [o]) s' ∧ d_buffered s'.1 = d_buffered s.1 + len (o_element o) + 1.
Proof using Horder.
  intros Hos Hi Hl Hst Hdue Hcols. pose proof Hi as [I1 I2 I3 I4 I5 I6].
  destruct (I3 _ _ Hl) as [got pend chunks H1 H2 H3 H4 H5 H6 H7|]; [| congruence].
  assert (pend ⊆ os) as Hsub by (intros x Hx; apply (due_sub ms (o_lane o)); rewrite H2; set_solver).
  pose proof Hos as [os' Hos']. rewrite <- app_assoc in Hos'.
  assert (Forall (λ x, o_element x ≠ []) pend) as Hel.
  { apply Forall_forall. intros x Hx. apply (co_element OS Horder). rewrite Hos'. set_solver. }
  destruct s as [d w]. unfold collect. cbn [fst snd] in *. rewrite Hl.
  destruct (extend_bytes (o_pos o) (o_hold o) (o_cols o) (o_element o) (ln_run l) pend H5 Hel) as [E1 E2].
  cbv zeta in E1. rewrite E1. split; [| cbn; lia]. apply (inv_put ms OS (o_lane o) _ _ (set_run (Some (extend (o_pos o) (o_hold o) (o_cols o) (o_element o) (ln_run l))) l)).
  - split; cbn; try done.
    + by rewrite length_insert.
    + intros j l'. rewrite list_lookup_insert_Some. intros [(<- & <- & _)|[_ Hj]]; [by apply (I2 _ l) | by apply I2].
    + intros j l' Hj. rewrite list_lookup_insert_ne by done. intros Hl'. apply lane_ok_skip; [| by apply I3].
      rewrite due_one, bool_decide_eq_false_2; done.
    + rewrite (runs_insert _ (o_lane o) l) by done. rewrite <- I6. cbn [run_len]. unfold run_len. cbn [ln_run set_run].
      rewrite E2. lia.
  - cbn. apply list_lookup_insert_eq. by eapply lookup_lt_Some.
  - eapply (lane_going ms _ _ _ _ _ got (pend ++ [o]) chunks); try done; cbn.
    + by rewrite due_app, H2, Hdue, app_assoc.
    + apply (extend_ok (ln_run l) pend o); [done | done | | done]. apply Forall_forall. intros x Hx.
      by destruct (sorted_split _ _ _ x o (co_sorted OS Horder) Hos' (Hsub x Hx)) as [? _]; [set_solver |].
Qed.

Lemma collect_keeps i pos hold cols element (s : st) :
  let s' := collect i pos hold cols element s in
  d_streaming s'.1 = d_streaming s.1 ∧ d_chunk_bytes s'.1 = d_chunk_bytes s.1 ∧ s'.2 = s.2.
Proof using Type. clear Horder. destruct s as [d w]. unfold collect. cbn [fst snd]. by destruct (d_lanes d !! i). Qed.

(** What an offer guarantees: the books are kept, and the budget. *)
Definition offered (os : list Offer) (n : Z) (s s' : st) : Prop :=
  inv ms OS os s' ∧ d_streaming s'.1 = d_streaming s.1 ∧ d_chunk_bytes s'.1 = d_chunk_bytes s.1 ∧
  (unmoved (events s) → unmoved (events s')) ∧ d_buffered s'.1 ≤ Z.max (d_buffered s.1) (Z.max (d_chunk_bytes s.1) (n + 1)).

Lemma offer_ok os o (s : st) : os ++ [o] `prefix_of` OS → inv ms OS os s →
  offered (os ++ [o]) (len (o_element o)) s (offer (o_lane o) (o_pos o) (o_hold o) (o_cols o) (o_element o) s).
Proof using Horder.
  intros Hos Hi. assert (os `prefix_of` OS) as Hos' by (etransitivity; [by eexists | done]).
  unfold offer. destruct (d_lanes s.1 !! o_lane o) as [l|] eqn:Hl.
  2:{ split_and!; [| done | done | done | lia]. apply offer_skipped; [done | done |]. by rewrite Hl. }
  pose proof (iv_lanes _ _ _ _ Hi _ _ Hl) as Hok. case_bool_decide as Hst; cbn [orb].
  { split_and!; [| done | done | done | lia]. apply offer_skipped; [done | done |]. rewrite Hl. intros ? [= <-]. left. by destruct Hst as [? ->]. }
  apply eq_None_not_Some in Hst. pose proof (takes_due os o _ l _ Hos Hst Hok) as Htake.
  match type of Htake with _ = if ?b then _ else _ => destruct b eqn:Edel end.
  { split_and!; [| done | done | done | lia]. apply offer_skipped; [done | done |]. intros ? _. by right. }
  set (s1 := match ln_run l with Some r => if bytes_eqb (rn_cols r) (o_cols o) then s else flush (o_lane o) s | None => s end).
  assert (∀ l1 r, d_lanes s1.1 !! o_lane o = Some l1 → ln_run l1 = Some r → rn_cols r = o_cols o) as Hcols.
  { subst s1. intros l1 r Hl1 Hr. destruct (ln_run l) as [r0|] eqn:Er; [| congruence].
    unfold bytes_eqb in Hl1. case_bool_decide; [congruence |].
    destruct (flush_ok ms OS Horder (o_lane o) os s Hos' Hi) as (_ & _ & Hn). by rewrite (Hn l1 Hl1) in Hr. }
  assert (inv ms OS os s1 ∧ calmer s s1) as [I1 C1].
  { subst s1. destruct (ln_run l) as [r|]; [| split; [done | apply calmer_refl]]. destruct (bytes_eqb _ _); [split; [done | apply calmer_refl] |].
    destruct (flush_ok ms OS Horder (o_lane o) os s Hos' Hi) as (? & ? & _). done. }
  destruct (make_room_ok (o_lane o) (len (o_element o)) os (S (length (d_lanes s1.1))) s1 Hos' I1) as (I2 & C2 & R2).
  specialize (R2 ltac:(pose proof (runs_le (d_lanes s1.1)); lia)). set (s2 := make_room _ _ _ s1) in *.
  pose proof (calmer_trans _ _ _ C1 C2) as C. destruct (calmer_bytes os os s s2 Hi I2 C) as [_ B2].
  destruct C as [Cs Cc _ Cu]. unfold is_stopped. destruct (d_lanes s2.1 !! o_lane o) as [l2|] eqn:Hl2.
  - case_bool_decide as Hst2.
    + split_and!; [| done | done | done | lia]. apply offer_skipped; [done | done |]. rewrite Hl2. intros ? [= <-]. left. by destruct Hst2 as [? ->].
    + apply eq_None_not_Some in Hst2. destruct (collect_ok os o s2 l2 Hos I2 Hl2 Hst2 Htake) as [J1 J2].
      { intros r Hr. destruct (cm_lanes _ _ C2 _ _ Hl2) as [Hn|Hl1]; [congruence | by apply (Hcols l2)]. }
      destruct (collect_keeps (o_lane o) (o_pos o) (o_hold o) (o_cols o) (o_element o) s2) as (K1 & K2 & K3).
      split_and!; [done | by rewrite K1 | by rewrite K2 | by rewrite K3 |].
      rewrite J2. destruct R2 as [R2|R2]; rewrite ?Cc in R2; lia.
  - split_and!; [| done | done | done | lia]. apply offer_skipped; [done | done |]. by rewrite Hl2.
Qed.

End Offer.

(** * A whole drain keeps the books

    [offers_of] is what the rows of a peek offer to the lanes.  Reading them, the final
    flush and what follows it (Cdc.v) preserve [inv] and [history] (CdcInv.v) for it,
    whatever fails on the way. *)

Abbreviation Row := (bytes * bytes)%type.

(** ** What a peek offers *)

Section Rows.
Context {E : Type} {H : CdcHost E}.

Fixpoint offers_of (ms : list Mapping) (rows : list Row) (sc : Scan) : list Offer :=
  match rows with
  | [] => []
  | row :: rows => match read_row ms sc row with
                   | Ok (os, sc) => os ++ offers_of ms rows sc
                   | Err _ => []
                   end
  end.

(** The rows read: up to a chunk that is empty or fails. *)
Fixpoint rows_read (rows : list Row) (peeks : list (result bytes (list Row))) : list Row :=
  if bool_decide (rows = []) then []
  else rows ++ match peeks with Ok rows :: peeks => rows_read rows peeks | _ => [] end.

(** No chunk failed. *)
Fixpoint ends_well (rows : list Row) (peeks : list (result bytes (list Row))) : bool :=
  bool_decide (rows = []) || match peeks with
                             | [] => true
                             | Ok rows :: peeks => ends_well rows peeks
                             | Err _ :: _ => false
                             end.

Definition scan0 : Scan := mk_scan None None None.

End Rows.

Section Peek.
Context {E : Type} {H : CdcHost E}.
Context (ms : list Mapping) (OS : list Offer) (Horder : in_commit_order OS).
#[local] Abbreviation st := (Drain * World E)%type.
#[local] Abbreviation events s := (w_events s.2).

(** Taking the offers [xs]: the books, and the budget of elements of [n] bytes. *)
Definition took (os xs : list Offer) (s s' : st) : Prop :=
  inv ms OS (os ++ xs) s' ∧ d_streaming s'.1 = d_streaming s.1 ∧ d_chunk_bytes s'.1 = d_chunk_bytes s.1 ∧
  (unmoved (events s) → unmoved (events s')) ∧
  ∀ n, Forall (λ o, len (o_element o) ≤ n) xs → d_buffered s.1 ≤ Z.max (d_chunk_bytes s.1) (n + 1) →
       d_buffered s'.1 ≤ Z.max (d_chunk_bytes s'.1) (n + 1).

Lemma took_none os s : inv ms OS os s → took os [] s s.
Proof using Type. clear Horder. intros Hi. split_and!; [by rewrite app_nil_r | done | done | done |]. intros n _ Hn. exact Hn. Qed.

Lemma took_app os xs ys s1 s2 s3 : took os xs s1 s2 → took (os ++ xs) ys s2 s3 → took os (xs ++ ys) s1 s3.
Proof using Type.
  clear Horder. intros (A1 & A2 & A3 & A5 & A4) (B1 & B2 & B3 & B5 & B4). split_and!; [by rewrite app_assoc | congruence | congruence | by intros ?; apply B5, A5 |].
  intros n [Hx Hy]%Forall_app Hn. apply B4; [done |]. apply (A4 n Hx) in Hn. lia.
Qed.

Lemma offer_all_ok os xs (s : st) : os ++ xs `prefix_of` OS → inv ms OS os s → took os xs s (offer_all xs s).
Proof using Horder.
  revert os s. induction xs as [|o xs IH]; intros os s Hos Hi; [by apply took_none |].
  replace (o :: xs) with ([o] ++ xs) by done. replace (os ++ o :: xs) with ((os ++ [o]) ++ xs) in Hos by (by rewrite <- app_assoc).
  assert (os ++ [o] `prefix_of` OS) as Hos' by (etransitivity; [by eexists | done]).
  destruct (offer_ok ms OS Horder os o s Hos' Hi) as (O1 & O2 & O3 & O5 & O4).
  replace (offer_all ([o] ++ xs) s) with
    (offer_all xs (offer (o_lane o) (o_pos o) (o_hold o) (o_cols o) (o_element o) s)) by (by destruct o as [[[[]]]]).
  eapply took_app; [| by apply IH]. split_and!; try done. intros n [Hn _]%Forall_cons Hb. rewrite O3. lia.
Qed.

Lemma read_rows_ok rows sc (s : st) os : os ++ offers_of ms rows sc `prefix_of` OS → inv ms OS os s →
  took os (offers_of ms rows sc) s (read_rows ms rows sc s).2.
Proof using Horder.
  revert sc s os. induction rows as [|row rows IH]; intros sc s os Hos Hi; cbn in *; [by apply took_none |].
  destruct (read_row ms sc row) as [[xs sc']|e]; [| by apply took_none]. rewrite app_assoc in Hos.
  assert (os ++ xs `prefix_of` OS) as Hos' by (etransitivity; [by eexists | done]).
  pose proof (offer_all_ok os xs s Hos' Hi) as Ht. eapply took_app; [exact Ht |]. apply IH; [done |]. apply Ht.
Qed.

Lemma read_rows_scan rows sc (s : st) rows' : match (read_rows ms rows sc s).1 with
  | Ok sc' => offers_of ms (rows ++ rows') sc = offers_of ms rows sc ++ offers_of ms rows' sc'
  | Err _ => offers_of ms (rows ++ rows') sc = offers_of ms rows sc
  end.
Proof using Type.
  clear Horder OS. revert sc s. induction rows as [|row rows IH]; intros sc s; cbn; [done |].
  destruct (read_row ms sc row) as [[xs sc']|e]; [| done]. specialize (IH sc' (offer_all xs s)).
  destruct (read_rows _ _ _ _) as [[]]; cbn in *; rewrite IH; [by rewrite app_assoc | done].
Qed.

Lemma read_peek_ok rows peeks sc (s : st) os : os ++ offers_of ms (rows_read rows peeks) sc `prefix_of` OS → inv ms OS os s →
  took os (offers_of ms (rows_read rows peeks) sc) s (read_peek ms rows peeks sc s).2.
Proof using Horder.
  revert rows sc s os. induction peeks as [|pk peeks IH]; intros rows sc s os; cbn; case_bool_decide as Hr;
    try (intros _ Hi; by apply took_none).
  - rewrite app_nil_r. intros Hos Hi. pose proof (read_rows_ok rows sc s os Hos Hi) as Ht.
    by destruct (read_rows ms rows sc s) as [[]].
  - intros Hos Hi. set (more := match pk with Ok rows => rows_read rows peeks | Err _ => [] end) in *.
    pose proof (read_rows_scan rows sc s more) as Hsc.
    assert (os ++ offers_of ms rows sc `prefix_of` OS) as Hos'.
    { destruct (read_rows ms rows sc s) as [[sc'|e] s']; cbn in Hsc; rewrite Hsc in Hos; [| done].
      rewrite app_assoc in Hos. etransitivity; [by eexists | done]. }
    pose proof (read_rows_ok rows sc s os Hos' Hi) as Ht.
    destruct (read_rows ms rows sc s) as [[sc'|e] s'] eqn:Er; cbn in *; rewrite Hsc in Hos |- *; [| done].
    rewrite app_assoc in Hos. subst more. destruct pk as [rows'|e]; cbn.
    + eapply took_app; [exact Ht |]. apply IH; [done |]. apply Ht.
    + eapply took_app; [exact Ht |]. apply took_none. apply Ht.
Qed.

(** ** The last flush *)

Lemma stop_streaming os (s : st) : inv ms OS os s → inv ms OS os (set_streaming false s.1, s.2).
Proof using Type.
  clear Horder. intros [I1 I2 I3 I4 I5 I6]. split; try done. intros i l Hl. cbn.
  destruct (I3 i l Hl) as [got pend chunks H1 H2 H3 H4 H5 H6 H7|]; [by eapply lane_going | by eapply lane_halted].
Qed.

Lemma flush_each_ok os is_ (s : st) : os `prefix_of` OS → inv ms OS os s →
  inv ms OS os (flush_each is_ s) ∧ calmer s (flush_each is_ s) ∧
  ∀ i l, i ∈ is_ → d_lanes (flush_each is_ s).1 !! i = Some l → ln_run l = None.
Proof using Horder.
  intros Hos. unfold flush_each. revert s. induction is_ as [|i is_ IH]; intros s Hi; cbn.
  { split_and!; [done | apply calmer_refl |]. intros ? ? []%not_elem_of_nil. }
  destruct (flush_ok ms OS Horder i os s Hos Hi) as (F1 & F2 & F3). destruct (IH _ F1) as (J1 & J2 & J3).
  split_and!; [done | by eapply calmer_trans |].
  intros j l [->|Hj]%elem_of_cons Hl; [by eapply calmer_none | by eapply J3].
Qed.

Lemma in_indices f i : i ∈ indices f ms ↔ ∃ m, ms !! i = Some m ∧ f m = true.
Proof using Type.
  clear Horder OS. unfold indices. rewrite list_elem_of_In, filter_In, in_seq. split.
  - intros [_ Hf]. destruct (ms !! i) as [m|]; [by exists m | done].
  - intros (m & Hm & Hf). rewrite Hm. apply lookup_lt_Some in Hm. split; [lia | done].
Qed.

(** Every lane is flushed or stopped. *)
Definition settled (s : st) : Prop := inv ms OS OS s ∧ ∀ i l, d_lanes s.1 !! i = Some l → ln_run l = None.

Lemma last_flush (s : st) : inv ms OS OS s →
  settled (flush_each (summary_lanes ms) (flush_each (indices (λ m, negb (is_summary m)) ms) (set_streaming false s.1, s.2))).
Proof using Horder.
  intros Hi. apply stop_streaming in Hi.
  destruct (flush_each_ok OS (indices (λ m, negb (is_summary m)) ms) _ ltac:(done) Hi) as (I1 & I2 & I3).
  destruct (flush_each_ok OS (summary_lanes ms) _ ltac:(done) I1) as (J1 & J2 & J3).
  split; [done |]. intros i l Hl. pose proof (iv_mappings _ _ _ _ J1 i l Hl) as Hm.
  destruct (is_summary (ln_mapping l)) eqn:Es.
  - apply (J3 i l); [| done]. apply in_indices. by exists (ln_mapping l).
  - eapply calmer_none; [exact J2 | exact Hl |]. intros l' Hl'. apply (I3 i l'); [| done].
    apply in_indices. exists (ln_mapping l). by rewrite Es.
Qed.

(** ** Settling *)

Lemma delivered_frame evs evs' i P : Forall (apart i) evs' → delivered_to ms OS evs i P → delivered_to ms OS (evs ++ evs') i P.
Proof using Type.
  clear Horder. intros Ha (Ho & chunks & Hb & Hc). split.
  - pose proof (owed_apart i evs evs' Ha). set_solver.
  - exists chunks. by rewrite bodies_apart.
Qed.

(** With nothing owed, lanes are delivered up to their positions. *)
Lemma moves_delivered (s : st) i m p evs : settled s → (∀ j, bodies j evs = bodies j (events s)) → owed i evs = ∅ →
  (i, m, p) ∈ lane_moves s.1 → saved_at ms OS evs i p.
Proof using Horder.
  intros [[I1 I2 I3 I4 I5 I6] Hruns] Hb Ho Hin. unfold lane_moves in Hin.
  apply list_elem_of_omap in Hin as ([j l] & Hj & Hm). apply list_elem_of_lookup in Hj as [k Hk].
  rewrite list_lookup_imap in Hk. destruct (d_lanes s.1 !! k) as [l'|] eqn:Hl; [| done]. injection Hk as -> ->.
  destruct (ln_moved l); [| done]. destruct (ln_delivered l) as [q|] eqn:Hq; [| done]. injection Hm as -> _ ->.
  destruct (I3 i l Hl) as [got pend chunks H1 H2 H3 H4 H5 H6 H7|got rest extra chunks hold why H1 H2 H3 H4 H5 H6 H7 H8 H9].
  - apply (reached_delivered ms OS Horder i got pend [] chunks); try done; [apply prefix_nil | by rewrite Hb | by rewrite app_nil_r | congruence].
  - apply (reached_delivered ms OS Horder i got rest extra chunks); try done; [by rewrite Hb | congruence].
Qed.

(** ... and whatever ends by where the slot may move. *)
Lemma holds_delivered (s : st) i t high evs : settled s → (∀ j, bodies j evs = bodies j (events s)) → owed i evs = ∅ →
  advance_target (Some high) (lane_holds s.1) = Some t → (i < length ms)%nat →
  delivered_to ms OS evs i (λ o, (o_pos o).1 ≤ t).
Proof using Horder.
  intros [[I1 I2 I3 I4 I5 I6] Hruns] Hb Ho Ht Hi. rewrite <- I1 in Hi. apply lookup_lt_is_Some_2 in Hi as [l Hl].
  split; [done |].
  destruct (I3 i l Hl) as [got pend chunks H1 H2 H3 H4 H5 H6 H7|got rest extra chunks hold why H1 H2 H3 H4 H5 H6 H7 H8 H9];
    exists chunks; rewrite Hb.
  - rewrite (Hruns i l Hl) in H5. cbn in H5. subst pend. rewrite app_nil_r in H2. rewrite H4, <- H2. done.
  - destruct H6 as [y Hy]. rewrite H5. split_and!; [done | exists y; by rewrite H3, Hy, app_assoc |].
    intros o Hdue Hle. rewrite H3 in Hdue. apply elem_of_app in Hdue as [?|Hr]; [by apply elem_of_app; left |]. exfalso.
    assert (hold ∈ lane_holds s.1) as Hh.
    { apply list_elem_of_omap. exists l. split; [by eapply list_elem_of_lookup_2 | by rewrite H1]. }
    pose proof (advance_target_spec (Some high) (lane_holds s.1)) as Hs. rewrite Ht in Hs.
    destruct Hs as [_ Hs]; [by intros E0; rewrite E0 in Hh; apply not_elem_of_nil in Hh | |].
    { intros x Hx. apply list_elem_of_omap in Hx as (l' & Hl' & Hx). apply list_elem_of_lookup in Hl' as [k Hk].
      destruct (ln_stopped l') as [[h' w']|] eqn:Es; [| done]. injection Hx as ->.
      apply (held_bound OS Horder OS); [done |]. by eapply (stopped_held ms OS OS s). }
    destruct (Hs hold Hh) as (x & -> & Hx). rewrite Forall_forall in H8. destruct (H8 o Hr) as (y' & Hy' & Hxy).
    destruct (co_hold OS Horder o y') as [? _]; [| done | lia]. apply (due_sub ms i). rewrite H3. set_solver.
Qed.

Definition saves (d : Drain) : list (nat * Pos) := (λ x, (x.1.1, x.2)) <$> lane_moves d.
Definition save_events_of (d : Drain) : list Event := if bool_decide (lane_moves d = []) then [] else [Saved (saves d)].

(** The events of a settling, all of them or the first few. *)
Definition settle_all (d : Drain) (high : Z) : list Event :=
  sync_events (d_appended d) ++ save_events_of d ++
  match advance_target (Some high) (lane_holds d) with Some t => [Advanced t] | None => [] end.

Lemma advance_events mode t w :
  match step mode (advance t ;;; release_lock) w with
  | (Ok _, w') => w_events w' = w_events w ++ [Advanced t]
  | (Err _, w') => w_events w' = w_events w ∨ w_events w' = w_events w ++ [Advanced t]
  end.
Proof using Type.
  clear Horder OS ms. unfold step, advance, bind, calls, release_lock. cbn.
  destruct (slot_advance _ _) as [[u|e] e1]; cbn; [| by left]. destruct (lock_held e1); cbn; [| done].
  unfold calls. cbn. destruct (unlock e1) as [[]]; cbn; [done | by right].
Qed.

Lemma settle_events mode d high w r w' : settle mode d high w = (r, w') →
  ∃ evs, w_events w' = w_events w ++ evs ∧ evs `prefix_of` settle_all d high ∧ ∀ u, r = Ok u → evs = settle_all d high.
Proof using Type.
  clear Horder OS ms. unfold settle, settle_all. unfold bind at 1. pose proof (sync_all_events mode (d_appended d) w) as Hs.
  destruct (sync_all mode (d_appended d) w) as [[u|e] w1].
  2:{ intros [= <- <-]. exists []. rewrite Hs, app_nil_r. split_and!; [done | apply prefix_nil | done]. }
  set (saving := if bool_decide (lane_moves d = []) then ret tt else step mode (save_positions (lane_moves d))).
  assert (match saving w1 with
          | (Ok _, w') => w_events w' = w_events w1 ++ save_events_of d
          | (Err _, w') => w_events w' = w_events w1 end) as Hv.
  { subst saving. unfold save_events_of. case_bool_decide; [cbn; by rewrite app_nil_r |].
    pose proof (save_events (lane_moves d) w1) as Hv. unfold step. by destruct (save_positions _ w1) as [[]]. }
  unfold bind at 1. destruct (saving w1) as [[u1|e1] w2].
  2:{ intros [= <- <-]. exists (sync_events (d_appended d)). rewrite Hv, Hs. split_and!; [done | by eexists | done]. }
  destruct (advance_target (Some high) (lane_holds d)) as [t|].
  - pose proof (advance_events mode t w2) as Ha. intros Heq. rewrite Heq in Ha. destruct r as [u2|e2].
    + exists (sync_events (d_appended d) ++ save_events_of d ++ [Advanced t]). rewrite Ha, Hv, Hs, <- !app_assoc. done.
    + destruct Ha as [Ha|Ha]; [exists (sync_events (d_appended d) ++ save_events_of d) |
        exists (sync_events (d_appended d) ++ save_events_of d ++ [Advanced t])];
        rewrite Ha, Hv, Hs, <- ?app_assoc; split_and!; try done; by eexists; rewrite <- app_assoc.
  - intros [= <- <-]. exists (sync_events (d_appended d) ++ save_events_of d). rewrite app_nil_r, Hv, Hs, <- !app_assoc. done.
Qed.

Lemma history_prefix evs evs' : evs `prefix_of` evs' → history ms OS evs' → history ms OS evs.
Proof using Type.
  clear Horder. intros [t ->] Hh pre ev post ->. eapply (Hh pre ev (post ++ t)). by rewrite <- app_assoc.
Qed.

Lemma settle_all_ok (s : st) high : settled s → history ms OS (events s ++ settle_all s.1 high).
Proof using Horder.
  intros Hset. pose proof Hset as [[_ _ _ I4 I5 _] _]. unfold settle_all.
  set (e1 := events s ++ sync_events (d_appended s.1)).
  assert (∀ i, owed i e1 = ∅) as Ho.
  { intros i. assert (owed i e1 ⊆ ∅); [| set_solver]. apply owed_sync. specialize (I4 i). set_solver. }
  assert (∀ i, bodies i e1 = bodies i (events s)) as Hb by (intros i; apply bodies_apart, sync_apart).
  assert (history ms OS e1) as Hh by (by apply history_sync).
  rewrite app_assoc. fold e1. set (e2 := e1 ++ save_events_of s.1).
  assert (history ms OS e2 ∧ (∀ i, owed i e2 = ∅) ∧ (∀ i, bodies i e2 = bodies i (events s))) as (Hh2 & Ho2 & Hb2).
  { subst e2. unfold save_events_of. case_bool_decide; [by rewrite app_nil_r |]. split_and!.
    - apply history_snoc; [done |]. intros i p Hp. unfold saves in Hp.
      apply list_elem_of_fmap in Hp as ([[j m] q] & [= -> ->] & Hin). by eapply moves_delivered.
    - intros i. rewrite owed_snoc. apply Ho.
    - intros i. rewrite bodies_apart by (by repeat constructor). apply Hb. }
  rewrite app_assoc. fold e2. destruct (advance_target (Some high) (lane_holds s.1)) as [t|] eqn:Et; [| by rewrite app_nil_r].
  apply history_snoc; [done |]. intros i Hi. by eapply holds_delivered.
Qed.

(** ** From an empty history *)

Lemma new_drain_ok mode chunk (e : E) : inv ms OS [] (new_drain mode chunk ms, mk_world e []).
Proof using Type.
  clear Horder. split; cbn.
  - by rewrite length_fmap.
  - intros i l. rewrite list_lookup_fmap, fmap_Some. by intros (m & Hm & ->).
  - intros i l. rewrite list_lookup_fmap, fmap_Some. intros (m & Hm & ->).
    apply (lane_going ms [] _ i _ _ [] [] []); try done. unfold reached, start. cbn. by rewrite Hm.
  - done.
  - intros pre ev post Heq. by destruct pre.
  - clear. by induction ms as [|m ms' IH]; cbn.
Qed.

End Peek.

(** Every lane was given runs of what is due to it, one behind the other. *)
Definition in_turn (ms : list Mapping) (OS : list Offer) (evs : list Event) : Prop :=
  ∀ i, (i < length ms)%nat → ∃ chunks, bodies i evs = array <$> chunks ∧ concat chunks `prefix_of` due ms i OS.

Lemma inv_in_turn {E} `{CdcHost E} ms OS (s : Drain * World E) : inv ms OS OS s → in_turn ms OS (w_events s.2).
Proof.
  intros [I1 I2 I3 _ _ _] i Hi. rewrite <- I1 in Hi. apply lookup_lt_is_Some_2 in Hi as [l Hl].
  destruct (I3 i l Hl) as [got pend chunks H1 H2 H3 H4 H5 H6 H7|got rest extra chunks hold why H1 H2 H3 H4 H5 H6 H7 H8 H9];
    exists chunks; (split; [done |]).
  - rewrite H4, H2. by eexists.
  - destruct H6 as [t ->]. rewrite H5, H3. exists t. by rewrite <- app_assoc.
Qed.

(** What a drain of the mappings [ms] did by the time it was over: nothing yet
    settled, or some of what settling does. *)
Inductive drained {E} `{CdcHost E} (ms : list Mapping) (OS : list Offer) (high : option Z) (r : result bytes Drained)
    (evs : list Event) : Prop :=
| drained_early : history ms OS evs → in_turn ms OS evs → unmoved evs → (∀ x, r = Ok x → high = None) → drained ms OS high r evs
| drained_settled (s : Drain * World E) h more : settled ms OS s → unmoved (w_events s.2) → high = Some h →
    evs = w_events s.2 ++ more → more `prefix_of` settle_all s.1 h →
    (∀ x, r = Ok x → more = settle_all s.1 h ∧ dr_stalled x = omap (λ l, snd <$> ln_stopped l) (d_lanes s.1)) →
    drained ms OS high r evs.

Section Whole.
Context {E : Type} {H : CdcHost E}.
#[local] Abbreviation W := (World E).

(** What the rows of a peek leave behind, if all are readable. *)
Fixpoint scan_of (ms : list Mapping) (rows : list Row) (sc : Scan) : option Scan :=
  match rows with
  | [] => Some sc
  | row :: rows => match read_row ms sc row with Ok (_, sc) => scan_of ms rows sc | Err _ => None end
  end.

Lemma scan_of_app ms rows rows' sc : scan_of ms (rows ++ rows') sc = sc' ← scan_of ms rows sc; scan_of ms rows' sc'.
Proof.
  revert sc. induction rows as [|row rows IH]; intros sc; cbn; [done |].
  by destruct (read_row ms sc row) as [[os sc']|e].
Qed.

Lemma offers_of_app ms rows rows' sc sc' : scan_of ms rows sc = Some sc' →
  offers_of ms (rows ++ rows') sc = offers_of ms rows sc ++ offers_of ms rows' sc'.
Proof.
  revert sc. induction rows as [|row rows IH]; intros sc; cbn; [by intros [= ->] |].
  destruct (read_row ms sc row) as [[os sc1]|e]; [| done]. intros Hs. by rewrite (IH sc1 Hs), app_assoc.
Qed.

Lemma read_rows_scanned ms rows sc (s : Drain * W) sc' s' : read_rows ms rows sc s = (Ok sc', s') → scan_of ms rows sc = Some sc'.
Proof.
  revert sc s. induction rows as [|row rows IH]; intros sc s; cbn; [by intros [= -> _] |].
  destruct (read_row ms sc row) as [[os sc1]|e]; [apply IH | done].
Qed.

Lemma read_peek_scanned ms rows peeks sc (s : Drain * W) sc' s' : read_peek ms rows peeks sc s = (Ok sc', s') →
  scan_of ms (rows_read rows peeks) sc = Some sc' ∧ ends_well rows peeks = true.
Proof.
  revert rows sc s. induction peeks as [|pk peeks IH]; intros rows sc s; cbn; case_bool_decide; try (by intros [= -> _]);
    destruct (read_rows ms rows sc s) as [[sc1|e] s1] eqn:Er; try done; apply read_rows_scanned in Er;
    rewrite scan_of_app, Er; cbn.
  - by intros [= -> _].
  - destruct pk as [rows'|e]; [apply IH | done].
Qed.

(** ** The drain *)

(** The last LSN of a peek read to its end. *)
Definition high_of (ms : list Mapping) (rows : list Row) (peeks : list (result bytes (list Row))) : option Z :=
  if ends_well rows peeks then sc ← scan_of ms (rows_read rows peeks) scan0; sc_high sc else None.

Lemma stream_ok ms first peeks mode (e : E) OS r s : OS = offers_of ms (rows_read first peeks) scan0 → in_commit_order OS →
  stream ms first peeks mode (mk_world e []) = (r, s) →
  unmoved (w_events s.2) ∧
  match r with
  | Ok high => settled ms OS s ∧ high_of ms first peeks = high
  | Err _ => history ms OS (w_events s.2) ∧ in_turn ms OS (w_events s.2)
  end.
Proof.
  intros HOS Hord. unfold stream.
  pose proof (new_drain_ok ms OS mode (chunk_bytes e) e) as Hnew. cbn [w_env].
  pose proof (read_peek_ok ms OS Hord first peeks scan0 _ [] ltac:(by rewrite HOS) Hnew) as (T1 & _ & _ & T4 & _).
  fold scan0. rewrite <- HOS in T1. cbn [app] in T1. specialize (T4 ltac:(intros t []%not_elem_of_nil)).
  destruct (read_peek ms first peeks scan0 _) as [[sc|er] [d w]] eqn:Ep; cbn [fst snd] in *.
  2:{ intros [= <- <-]. split; [done |]. split; [apply T1 | by apply (inv_in_turn ms OS (d, w))]. }
  intros [= <- <-]. apply read_peek_scanned in Ep as [Ep Ew]. split.
  - apply stop_streaming in T1.
    destruct (flush_each_ok ms OS Hord OS (indices (λ m, negb (is_summary m)) ms) _ ltac:(done) T1) as (I1 & I2 & _).
    destruct (flush_each_ok ms OS Hord OS (summary_lanes ms) _ ltac:(done) I1) as (_ & J2 & _).
    apply (cm_unmoved _ _ J2), (cm_unmoved _ _ I2), T4.
  - split; [by apply (last_flush ms OS Hord (d, w)) |]. unfold high_of. by rewrite Ew, Ep.
Qed.

(** Calls of the database, and nothing else. *)
Lemma release_quiet (w : W) : w_events (release_lock w).2 = w_events w.
Proof. unfold release_lock, bind, calls. cbn. destruct (lock_held (w_env w)); [| done]. cbn. by destruct (unlock _). Qed.

Lemma close_quiet mode (over : bool) (w : W) :
  w_events (step mode (calls close_cursor ;;; if over then release_lock else ret tt) w).2 = w_events w.
Proof.
  destruct (step_events mode (calls close_cursor ;;; if over then release_lock else ret tt) w) as [_ ->].
  unfold bind, calls at 1. destruct (close_cursor (w_env w)) as [[u|e] e1]; [| done].
  destruct over; [by rewrite release_quiet | done].
Qed.

Lemma open_quiet max_changes mode first (w : W) : w_events (open_drain max_changes mode first w).2 = w_events w.
Proof.
  unfold open_drain. destruct (step_events mode (let* got := calls (take_lock mode) in
     if negb got then ret None
     else
       let* there := calls (λ e, (Ok (slot_exists e), e)) in
       if negb there then release_lock ;;; ret None
       else
         let* ms := calls load_mappings in
         calls (open_cursor max_changes) ;;;
         let* rows := (λ w, (first, w)) in
         ret (Some (ms, rows))) w) as [_ ->].
  unfold bind, calls at 1. destruct (take_lock mode (w_env w)) as [[got|e] e1]; [| done]. destruct got; [| done]. cbn -[release_lock].
  destruct (slot_exists e1); cbn -[release_lock].
  - unfold calls. cbn. destruct (load_mappings e1) as [[ms|e2] e3]; [| done]. cbn.
    destruct (open_cursor max_changes e3) as [[u|e4] e5]; [| done]. by destruct first.
  - pose proof (release_quiet (mk_world e1 (w_events w))) as Hq. by destruct (release_lock _) as [[]].
Qed.

Lemma drain_locked_ok max_changes mode first peeks (e : E) r w : drain_locked max_changes mode first peeks (mk_world e []) = (r, w) →
  match (open_drain max_changes mode first (mk_world e [])).1 with
  | Ok (Some (ms, rows)) => ∀ OS, OS = offers_of ms (rows_read rows peeks) scan0 → in_commit_order OS →
      drained ms OS (high_of ms rows peeks) r (w_events w)
  | _ => w_events w = []
  end.
Proof.
  unfold drain_locked. pose proof (open_quiet max_changes mode first (mk_world e [])) as Hq. cbn in Hq.
  destruct (open_drain max_changes mode first (mk_world e [])) as [[[[ms rows]|]|er] [e1 evs1]]; cbn in *; subst evs1;
    [| by intros [= <- <-] | by intros [= <- <-]].
  intros Heq OS HOS Hord. destruct (stream ms rows peeks mode (mk_world e1 [])) as [sr [d w1]] eqn:Es.
  destruct (stream_ok ms rows peeks mode e1 OS sr (d, w1) HOS Hord Es) as [Hu Hs]. cbn [snd] in *.
  set (over := match sr with Ok (Some _) => false | _ => true end) in *. pose proof (close_quiet mode over w1) as Hc.
  destruct (step mode _ w1) as [closed w2]. cbn [snd] in Hc. destruct sr as [high|er]; cbn [fst snd] in *.
  2:{ injection Heq as <- <-. rewrite Hc. by apply drained_early; [apply Hs | apply Hs | |]. }
  destruct Hs as [Hset Hhigh]. pose proof Hset as [Hinv _]. pose proof (iv_history _ _ _ _ Hinv) as Hhist.
  apply (inv_in_turn ms OS (d, w1)) in Hinv.
  destruct closed as [u|er]; [| injection Heq as <- <-; rewrite Hc; by apply drained_early].
  destruct high as [h|]; [| injection Heq as <- <-; rewrite Hc; by apply drained_early].
  unfold bind in Heq. destruct (settle mode d h w2) as [r2 w3] eqn:Est.
  destruct (settle_events mode d h w2 r2 w3 Est) as (evs & Hev & Hpre & Hok). rewrite Hc in Hev.
  rewrite Hhigh. eapply (drained_settled ms OS (Some h) r (w_events w) (d, w1) h evs); try done.
  - destruct r2; by injection Heq as _ <-.
  - intros x ->. destruct r2 as [u2|]; [| done]. injection Heq as <- _. split; [by eapply Hok | done].
Qed.

Lemma drain_ok max_changes mode first peeks (e : E) r w : drain max_changes mode first peeks (mk_world e []) = (r, w) →
  match (open_drain max_changes mode first (mk_world e [])).1 with
  | Ok (Some (ms, rows)) => ∀ OS, OS = offers_of ms (rows_read rows peeks) scan0 → in_commit_order OS →
      drained ms OS (high_of ms rows peeks) r (w_events w)
  | _ => w_events w = []
  end.
Proof.
  unfold drain. destruct (drain_locked max_changes mode first peeks (mk_world e [])) as [r1 w1] eqn:Ed. intros Heq.
  assert (r = r1 ∧ w_events w = w_events w1) as [-> ->]; [| by apply drain_locked_ok].
  destruct (lock_held (w_env w1)); injection Heq as <- <-; [| done]. split; [done |].
  destruct (step_events mode release_lock w1) as [_ ->]. apply release_quiet.
Qed.

End Whole.
