(* ===== verification/CdcLoss.v ===== *)
(** * What the log of the database has for the lanes

    A peek gives the rows of whole transactions, in commit order: what they offer is
    [in_commit_order] (CdcInv.v).  The changes of a transaction, but for where they hold
    the slot, do not depend on the rows read before it, nor on how far the mappings got.

    Behind it: drains one after the other lose no change. *)

From stdpp Require Import gmap sorting strings.
From S2P Require Import Prelude Sasl Lsn Cdc CdcInv CdcDrain CdcPeek.

#[local] Open Scope Z_scope.

(** ** Transactions in the log *)

Section Wal.
Context {E : Type} {H : CdcHost E}.

(** A readable row: its LSN and what the plugin wrote. *)
Definition row_head (row : Row) : option (Z * Head) :=
  lsn ← parse_lsn row.1;
  match parse_head row.2 with Ok h => Some (lsn, h) | Err _ => None end.

Definition change_row (e : Z) (row : Row) : Prop :=
  ∃ l h, row_head row = Some (l, h) ∧ l ≤ e ∧ hd_op h ≠ lit "B" ∧ hd_op h ≠ lit "C".

(** The rows of a transaction that ends at [e]. *)
Inductive commit_rows (e : Z) : list Row → Prop :=
| commit_rows_intro b cs c l hb hc :
    row_head b = Some (l, hb) → l ≤ e → hd_op hb = lit "B" → hd_end hb = Some e →
    Forall (change_row e) cs → Z.of_nat (length cs) < SUMMARY_SEQ →
    row_head c = Some (e, hc) → hd_op hc = lit "C" → commit_rows e (b :: cs ++ [c]).

(** Transactions in commit order, all past [low]. *)
Fixpoint wal_ok (low : Z) (wal : list (Z * list Row)) : Prop :=
  match wal with
  | [] => True
  | (e, rows) :: wal => low < e ∧ commit_rows e rows ∧ wal_ok e wal
  end.

(** Where a log ends. *)
Definition wal_end (low : Z) (wal : list (Z * list Row)) : Z := match last wal with Some x => x.1 | None => low end.
Definition wal_rows (wal : list (Z * list Row)) : list Row := concat (snd <$> wal).

(** An offer of the transaction that ends at [e], behind place [lo] up to [hi]. *)
Definition offer_in (e : Z) (prev : option Z) (lo hi : Z) (o : Offer) : Prop :=
  (o_pos o).1 = e ∧ o_hold o = prev ∧ lo < (o_pos o).2 ≤ hi ∧ o_element o ≠ [].

Lemma offers_before e prev lo mid hi xs ys : Forall (offer_in e prev lo mid) xs → Forall (offer_in e prev mid hi) ys →
  ∀ x y, x ∈ xs → y ∈ ys → before x y.
Proof.
  rewrite !Forall_forall. intros Hx Hy x y Hxin Hyin. destruct (Hx x Hxin) as (A1 & A2 & A3 & _).
  destruct (Hy y Hyin) as (B1 & B2 & B3 & _). unfold before, pos_le, pos_lt. rewrite A1, A2, B1, B2.
  split_and!; [lia | apply hold_le_refl | lia | lia].
Qed.

(** The offers of one row: one per lane. *)
Lemma row_sorted (lanes : list nat) pos hold cols element : NoDup lanes →
  StronglySorted before ((λ i, (i, pos, hold, cols, element) : Offer) <$> lanes).
Proof.
  induction 1 as [|i lanes Hi _ IH]; [constructor |]. rewrite fmap_cons. constructor; [done |].
  apply Forall_fmap, Forall_forall. intros j Hj. cbn. unfold before, pos_le, o_pos, o_hold, o_lane. cbn.
  split_and!; [lia | apply hold_le_refl | lia | intros ->; done].
Qed.

Lemma indices_nodup f ms : NoDup (indices f ms).
Proof. unfold indices. apply NoDup_ListNoDup, List.NoDup_filter, NoDup_ListNoDup, NoDup_seq. Qed.

Lemma row_offers e prev n (lanes : list nat) pos cols element : pos = (e, n) → element ≠ [] →
  Forall (offer_in e prev (n - 1) n) ((λ i, (i, pos, prev, cols, element) : Offer) <$> lanes).
Proof.
  intros -> He. apply Forall_fmap, Forall_forall. intros i _. unfold offer_in, o_pos, o_hold, o_element. cbn.
  split_and!; [done | done | lia | lia | done].
Qed.

(** ** Reading a transaction *)

Lemma brace_ne (s : bytes) : lit "{" ++ s ≠ [].
Proof. done. Qed.

Definition at_most (e : Z) (h : option Z) : Prop := match h with Some x => x ≤ e | None => True end.

Lemma at_most_max e h l : at_most e h → l ≤ e → at_most e (opt_max h (Some l)).
Proof. destruct h; cbn; lia. Qed.

(** Transaction [t'] is [t] some rows later. *)
Definition later (t t' : Txn) (n : nat) : Prop :=
  tx_end t' = tx_end t ∧ tx_prev t' = tx_prev t ∧ tx_seq t ≤ tx_seq t' ≤ tx_seq t + Z.of_nat n.

Lemma read_change ms e high le t row : change_row e row → tx_end t = e → at_most e high →
  ∃ os high' t', read_row ms (mk_scan high le (Some t)) row = Ok (os, mk_scan high' le (Some t')) ∧ later t t' 1 ∧
    at_most e high' ∧ StronglySorted before os ∧ Forall (offer_in e (tx_prev t) (tx_seq t) (tx_seq t')) os.
Proof.
  intros (l & h & Hrow & Hle & HB & HC) He Hhigh. destruct row as [lsn_text data]. unfold row_head in Hrow. cbn [fst snd] in Hrow.
  unfold read_row. destruct (parse_lsn lsn_text) as [lsn|]; [| done]. cbn in Hrow.
  destruct (parse_head data) as [h'|]; [| done]. injection Hrow as -> ->. cbn [rbind sc_high sc_last_end sc_txn]; cbv zeta.
  unfold bytes_eqb. rewrite (bool_decide_eq_false_2 (hd_op h = lit "B")), (bool_decide_eq_false_2 (hd_op h = lit "C")) by done.
  pose proof (at_most_max e high l Hhigh Hle) as Hmax. destruct (_ || _).
  - eexists _, _, _. split; [done |]. unfold later. cbn [tx_end tx_prev tx_seq]. split_and!; [done | done | lia | lia | done | |].
    + apply row_sorted, indices_nodup.
    + replace (tx_seq t) with (tx_seq t + 1 - 1) at 1 by lia. apply row_offers; [by rewrite He | apply brace_ne].
  - eexists [], _, t. split; [done |]. unfold later. split_and!; [done | done | lia | lia | done | constructor | constructor].
Qed.

Lemma offer_in_wider e prev lo lo' hi hi' o : lo' ≤ lo → hi ≤ hi' → offer_in e prev lo hi o → offer_in e prev lo' hi' o.
Proof. unfold offer_in. intros ? ? (? & ? & ? & ?). split_and!; [done | done | lia | lia | done]. Qed.

Lemma read_changes ms e le cs high t : Forall (change_row e) cs → tx_end t = e → at_most e high →
  let sc := mk_scan high le (Some t) in
  ∃ high' t', scan_of ms cs sc = Some (mk_scan high' le (Some t')) ∧ later t t' (length cs) ∧ at_most e high' ∧
    StronglySorted before (offers_of ms cs sc) ∧ Forall (offer_in e (tx_prev t) (tx_seq t) (tx_seq t')) (offers_of ms cs sc).
Proof.
  revert high t. induction cs as [|row cs IH]; intros high t Hall He Hhigh; cbn.
  { exists high, t. unfold later. split_and!; try done; try lia; constructor. }
  apply Forall_cons in Hall as [Hrow Hall].
  destruct (read_change ms e high le t row Hrow He Hhigh) as (os & h1 & t1 & -> & (L1 & L2 & L3) & Hh1 & S1 & O1).
  destruct (IH h1 t1 Hall ltac:(congruence) Hh1) as (h2 & t2 & -> & (M1 & M2 & M3) & Hh2 & S2 & O2).
  rewrite L2 in O2. exists h2, t2. split; [done |]. split; [unfold later; split_and!; [congruence | congruence | lia | lia] |].
  split; [done |]. split.
  - apply StronglySorted_app. split_and!; [| done | done]. by eapply offers_before.
  - apply Forall_app. split; (eapply Forall_impl; [eassumption |]; intros o; apply offer_in_wider; lia).
Qed.

(** The offers of a transaction, behind whatever was read before it. *)
Lemma read_commit ms e prev high rows : commit_rows e rows → at_most e high → 
  let sc := mk_scan high prev None in
  scan_of ms rows sc = Some (mk_scan (Some e) (Some e) None) ∧ StronglySorted before (offers_of ms rows sc) ∧
  Forall (offer_in e prev 0 SUMMARY_SEQ) (offers_of ms rows sc).
Proof.
  intros Hrows Hhigh. destruct Hrows as [b cs c l hb hc Hb Hle HB Hend Hcs Hlen Hc HC]. cbv zeta.
  destruct b as [bt bd], c as [ct cd]. unfold row_head in Hb, Hc. cbn [fst snd] in *.
  destruct (parse_lsn bt) as [bl|] eqn:Eb; [| done]. destruct (parse_lsn ct) as [cl|] eqn:Ec; [| done]. cbn in Hb, Hc.
  destruct (parse_head bd) as [hb'|] eqn:Ehb; [| done]. destruct (parse_head cd) as [hc'|] eqn:Ehc; [| done].
  injection Hb as -> ->. injection Hc as -> ->.
  set (sc1 := mk_scan (opt_max high (Some l)) prev (Some (mk_txn e prev 0 (hd_xid hb) None None 0 []))).
  assert (read_row ms (mk_scan high prev None) (bt, bd) = Ok ([], sc1)) as Hrb.
  { unfold read_row. rewrite Eb, Ehb. unfold bytes_eqb. cbn [rbind]; cbv zeta. by rewrite HB, bool_decide_eq_true_2, Hend. }
  destruct (read_changes ms e prev cs (opt_max high (Some l)) (mk_txn e prev 0 (hd_xid hb) None None 0 []) Hcs eq_refl)
    as (h1 & t1 & Hs1 & (L1 & L2 & L3) & Hh1 & S1 & O1); [by apply at_most_max |]. fold sc1 in Hs1, S1, O1. cbn [tx_end tx_prev tx_seq] in L1, L2, L3, O1.
  assert (∃ os, read_row ms (mk_scan h1 prev (Some t1)) (ct, cd) = Ok (os, mk_scan (Some e) (Some e) None) ∧
    StronglySorted before os ∧ Forall (offer_in e prev (SUMMARY_SEQ - 1) SUMMARY_SEQ) os) as (os & Hrc & S2 & O2).
  { unfold read_row. rewrite Ec, Ehc. unfold bytes_eqb. cbn [rbind sc_high sc_txn sc_last_end]; cbv zeta.
    rewrite HC, (bool_decide_eq_false_2 (lit "C" = lit "B")), (bool_decide_eq_true_2 (lit "C" = lit "C")) by done.
    assert (opt_max h1 (Some e) = Some e) as -> by (destruct h1; cbn in *; [f_equal; lia | done]).
    eexists. split; [done |]. destruct (0 <? tx_events t1); [| split; constructor]. rewrite L1, L2. split.
    - apply row_sorted, indices_nodup.
    - apply row_offers; [done | apply brace_ne]. }
  cbn [scan_of offers_of]. rewrite Hrb. cbn [app]. rewrite scan_of_app, (offers_of_app ms cs _ sc1 _ Hs1), Hs1.
  cbn [mbind option_bind scan_of offers_of].
  rewrite Hrc, app_nil_r. split; [done |]. split.
  - apply StronglySorted_app. split_and!; [| done | done]. apply (offers_before e prev 0 (tx_seq t1) SUMMARY_SEQ); [done |].
    eapply Forall_impl; [exact O2 |]. intros o. apply offer_in_wider; lia.
  - apply Forall_app. unfold SUMMARY_SEQ in *.
    split; (eapply Forall_impl; [eassumption |]; intros o; apply offer_in_wider; lia).
Qed.

(** ** Reading a log *)

Lemma commit_bound e rows : commit_rows e rows → e < 2 ^ 64.
Proof.
  intros [b cs c l hb hc _ _ _ _ _ _ Hc _]. unfold row_head in Hc. destruct (parse_lsn c.1) as [n|] eqn:El; [| done].
  cbn in Hc. destruct (parse_head c.2); [| done]. injection Hc as -> _. apply parse_lsn_bound in El. lia.
Qed.

(** Where an offer of a log past [low] may hold the slot, [prev] the end before it. *)
Definition held_past (low : Z) (prev : option Z) (o : Offer) : Prop :=
  hold_le prev (o_hold o) ∧ (o_hold o = prev ∨ ∃ h, o_hold o = Some h ∧ low < h).
Definition bounded_by (low : Z) (prev : option Z) : Prop := ∀ x, prev = Some x → x ≤ low ∧ x < 2 ^ 64.

Lemma order_nil : in_commit_order [].
Proof. split; [constructor | intros ? []%not_elem_of_nil | intros ? ? []%not_elem_of_nil | intros ? ? ? []%not_elem_of_nil]. Qed.

Lemma order_app e prev low xs ys : bounded_by low prev → low < e → e < 2 ^ 64 →
  StronglySorted before xs → Forall (offer_in e prev 0 SUMMARY_SEQ) xs →
  in_commit_order ys → Forall (λ o, e < (o_pos o).1 ∧ held_past e (Some e) o) ys →
  in_commit_order (xs ++ ys).
Proof.
  intros Hp Hlow He Sx Ox [Sy Ey Hy Ky] Oy. rewrite Forall_forall in Ox, Oy.
  assert (∀ x y, x ∈ xs → y ∈ ys → before x y) as Hxy.
  { intros x y Hx Hy'. destruct (Ox x Hx) as (A1 & A2 & _). destruct (Oy y Hy') as (B1 & B2 & _).
    unfold before, pos_le, pos_lt. rewrite A1, A2. split_and!; [lia | | lia | lia].
    eapply hold_le_trans; [| done]. destruct prev as [x0|]; [| done]. destruct (Hp x0 eq_refl). exists e. split; [done | lia]. }
  split.
  - by apply StronglySorted_app.
  - intros o [Hx|Hy']%elem_of_app; [by apply (Ox o Hx) | by apply Ey].
  - intros o h [Hx|Hy']%elem_of_app Hh; [| by eapply Hy]. destruct (Ox o Hx) as (A1 & A2 & _). rewrite Hh in A2.
    destruct (Hp h); [done | lia].
  - intros o o' h [Hx|Hx]%elem_of_app [Hx'|Hx']%elem_of_app Hh Hlt.
    + destruct (Ox o Hx) as (_ & A2 & _), (Ox o' Hx') as (_ & B2 & _). rewrite B2, <- A2, Hh. apply hold_le_refl.
    + destruct (Hxy o o' Hx Hx') as (_ & Hle & _). by rewrite Hh in Hle.
    + destruct (Oy o Hx) as (_ & _ & Hor), (Ox o' Hx') as (B1 & _). exfalso. rewrite Hh in Hor.
      destruct Hor as [[= ->]|(h' & [= ->] & ?)]; lia.
    + exact (Ky o o' h Hx Hx' Hh Hlt).
Qed.

Lemma wal_end_cons low e rows wal : wal_end low ((e, rows) :: wal) = wal_end e wal.
Proof.
  unfold wal_end. destruct wal as [|x wal]; [done |]. change (last ((e, rows) :: x :: wal)) with (last (x :: wal)).
  destruct (last (x :: wal)) eqn:El; [done | by apply last_None in El].
Qed.

Lemma wal_end_le low wal : wal_ok low wal → low ≤ wal_end low wal.
Proof.
  revert low. induction wal as [|[e rows] wal IH]; intros low; [done |]. intros (Hlow & _ & Hw).
  rewrite wal_end_cons. specialize (IH e Hw). lia.
Qed.

Lemma read_wal ms wal low prev high : wal_ok low wal → bounded_by low prev → at_most low high →
  let sc := mk_scan high prev None in
  (∃ p, scan_of ms (wal_rows wal) sc = Some (mk_scan (if bool_decide (wal = []) then high else Some (wal_end low wal)) p None)) ∧
  in_commit_order (offers_of ms (wal_rows wal) sc) ∧
  Forall (λ o, low < (o_pos o).1 ≤ wal_end low wal ∧ held_past low prev o) (offers_of ms (wal_rows wal) sc).
Proof.
  revert low prev high. induction wal as [|[e rows] wal IH]; intros low prev high Hw Hp Hh; cbv zeta.
  { cbn. split; [by exists prev |]. split; [apply order_nil | constructor]. }
  destruct Hw as (Hlow & Hrows & Hw). pose proof (commit_bound e rows Hrows) as Hb.
  assert (at_most e high) as Hh' by (destruct high; cbn in *; [lia | done]).
  destruct (read_commit ms e prev high rows Hrows Hh') as (Hs & S1 & O1).
  destruct (IH e (Some e) (Some e) Hw) as ([p Hs2] & Ord & O2); [intros x [= <-]; split; [lia | done] | cbn; lia |].
  unfold wal_rows. rewrite fmap_cons. cbn [concat snd]. fold (wal_rows wal).
  rewrite scan_of_app, (offers_of_app ms rows _ _ _ Hs), Hs. cbn [mbind option_bind]. rewrite wal_end_cons. split_and!.
  - exists p. rewrite Hs2. rewrite (bool_decide_eq_false_2 ((e, rows) :: wal = [])) by done.
    case_bool_decide as Hn; [by subst wal | done].
  - eapply order_app; [exact Hp | exact Hlow | done | done | done | done |]. eapply Forall_impl; [exact O2 |]. cbn.
    intros o (? & ?). split; [lia | done].
  - pose proof (wal_end_le e wal Hw) as Hend. apply Forall_app. split.
    + eapply Forall_impl; [exact O1 |]. intros o (A1 & A2 & _). rewrite A1. split; [lia |]. unfold held_past.
      rewrite A2. split; [apply hold_le_refl | by left].
    + eapply Forall_impl; [exact O2 |]. cbn. intros o (A1 & A2 & A3). split; [lia |]. split.
      * eapply hold_le_trans; [| done]. destruct prev as [x|]; [| done]. destruct (Hp x eq_refl). exists e. split; [done | lia].
      * right. destruct A3 as [->|(h & -> & Hlt)]; [by exists e | exists h; split; [done | lia]].
Qed.

(** ** Changes, wherever a peek starts *)

(** A change for a lane, but for where it holds the slot. *)
Definition Change : Type := nat * Pos * bytes.
Definition change_of (o : Offer) : Change := (o_lane o, o_pos o, o_element o).
Definition c_lane (c : Change) : nat := c.1.1.
Definition c_pos (c : Change) : Pos := c.1.2.

Definition forget_prev (t : Txn) : Txn :=
  mk_txn (tx_end t) None (tx_seq t) (tx_xid t) (tx_ts t) (tx_lsn t) (tx_events t) (tx_tables t).
Definition scan_sim (sc sc' : Scan) : Prop := forget_prev <$> sc_txn sc = forget_prev <$> sc_txn sc'.

Lemma lanes_changes (lanes : list nat) pos h h' cols element :
  change_of <$> ((λ i, (i, pos, h, cols, element) : Offer) <$> lanes) =
  change_of <$> ((λ i, (i, pos, h', cols, element) : Offer) <$> lanes).
Proof. by rewrite <- !list_fmap_compose. Qed.

Lemma read_row_sim ms sc sc' row : scan_sim sc sc' →
  match read_row ms sc row, read_row ms sc' row with
  | Ok (os, s1), Ok (os', s1') => change_of <$> os = change_of <$> os' ∧ scan_sim s1 s1'
  | Err _, Err _ => True
  | _, _ => False
  end.
Proof.
  destruct row as [lsn_text data], sc as [h le t], sc' as [h' le' t']. unfold scan_sim, read_row. cbn [sc_txn sc_high sc_last_end].
  intros Hsim. destruct (parse_lsn lsn_text) as [lsn|]; [| done]. destruct (parse_head data) as [hd|e]; [| done].
  cbn [rbind]. cbv zeta. destruct (bytes_eqb (hd_op hd) (lit "B")); [by destruct (hd_end hd) |].
  destruct (bytes_eqb (hd_op hd) (lit "C")).
  { split; [| done]. destruct t as [t|], t' as [t'|]; try done. destruct t, t'. cbn in Hsim. simplify_eq. cbn [tx_events].
    destruct (0 <? _); [| done]. apply lanes_changes. }
  destruct (_ || _); [| by split]. destruct t as [t|], t' as [t'|]; try done. destruct t, t'. cbn in Hsim. simplify_eq.
  split; [apply lanes_changes | done].
Qed.

Lemma offers_sim ms rows sc sc' : scan_sim sc sc' → change_of <$> offers_of ms rows sc = change_of <$> offers_of ms rows sc'.
Proof.
  revert sc sc'. induction rows as [|row rows IH]; intros sc sc' Hs; cbn [offers_of]; [done |].
  pose proof (read_row_sim ms sc sc' row Hs) as Hr.
  destruct (read_row ms sc row) as [[os s1]|e], (read_row ms sc' row) as [[os' s1']|e']; try done.
  destruct Hr as [Ho Hs1]. by rewrite !fmap_app, Ho, (IH s1 s1').
Qed.

(** Which lanes a change goes to is a matter of the sources. *)
Lemma indices_source (f : bytes → bool) ms ms' : mp_source <$> ms = mp_source <$> ms' →
  indices (λ m, f (mp_source m)) ms = indices (λ m, f (mp_source m)) ms'.
Proof.
  intros Hs. unfold indices. assert (length ms = length ms') as -> by (by rewrite <- (length_fmap mp_source ms), Hs, length_fmap).
  apply List.filter_ext. intros i. pose proof (f_equal (.!! i) Hs) as Hi. cbn in Hi. rewrite !list_lookup_fmap in Hi.
  destruct (ms !! i), (ms' !! i); simplify_eq/=; congruence.
Qed.

Lemma read_row_source ms ms' sc row : mp_source <$> ms = mp_source <$> ms' → read_row ms sc row = read_row ms' sc row.
Proof.
  intros Hs. unfold read_row. destruct row as [lsn_text data].
  assert (summary_lanes ms = summary_lanes ms') as -> by (by apply (indices_source (λ s, bytes_eqb s TRANSACTION_SOURCE))).
  assert (∀ schema table, lanes_of schema table ms = lanes_of schema table ms') as Hl.
  { intros schema table. pose (f := λ s : bytes, negb (bytes_eqb s TRANSACTION_SOURCE) &&
      bool_decide (split_source s = (schema, table))). by apply (indices_source f). }
  destruct (parse_lsn lsn_text) as [lsn|]; [| done]. destruct (parse_head data) as [hd|e]; [| done].
  cbn [rbind]. cbv zeta. by rewrite Hl.
Qed.

Lemma offers_source ms ms' rows sc : mp_source <$> ms = mp_source <$> ms' → offers_of ms rows sc = offers_of ms' rows sc.
Proof.
  intros Hs. revert sc. induction rows as [|row rows IH]; intros sc; cbn [offers_of]; [done |].
  rewrite (read_row_source ms ms') by done. destruct (read_row ms' sc row) as [[os sc1]|e]; [by rewrite IH | done].
Qed.

Lemma indices_lt f ms i : i ∈ indices f ms → (i < length ms)%nat.
Proof. unfold indices. rewrite list_elem_of_In, filter_In, in_seq. lia. Qed.

Lemma lanes_lt (lanes : list nat) pos hold cols element n : (∀ i, i ∈ lanes → (i < n)%nat) →
  Forall (λ o, (o_lane o < n)%nat) ((λ i, (i, pos, hold, cols, element) : Offer) <$> lanes).
Proof. intros Hl. apply Forall_fmap, Forall_forall. exact Hl. Qed.

Lemma offers_lane ms rows sc : Forall (λ o, (o_lane o < length ms)%nat) (offers_of ms rows sc).
Proof.
  revert sc. induction rows as [|row rows IH]; intros sc; cbn [offers_of]; [constructor |].
  destruct (read_row ms sc row) as [[os sc1]|e] eqn:Er; [| constructor]. apply Forall_app. split; [| done].
  revert Er. unfold read_row. destruct row as [lsn_text data]. destruct (parse_lsn lsn_text) as [lsn|]; [| done].
  destruct (parse_head data) as [hd|e]; [| done]. cbn [rbind]. cbv zeta.
  destruct (bytes_eqb (hd_op hd) (lit "B")); [destruct (hd_end hd); [intros [= <- _]; constructor | done] |].
  destruct (bytes_eqb (hd_op hd) (lit "C")).
  { intros [= <- _]. destruct (sc_txn sc) as [t|]; [| constructor]. destruct (0 <? tx_events t); [| constructor].
    apply lanes_lt. intros i. apply indices_lt. }
  destruct (_ || _); [| intros [= <- _]; constructor]. destruct (sc_txn sc) as [t|]; [| done]. intros [= <- _].
  apply lanes_lt. intros i. apply indices_lt.
Qed.

(** The changes of a log. *)
Definition changes (ms : list Mapping) (wal : list (Z * list Row)) : list Change :=
  change_of <$> offers_of ms (wal_rows wal) scan0.

Lemma wal_rows_app w1 w2 : wal_rows (w1 ++ w2) = wal_rows w1 ++ wal_rows w2.
Proof. unfold wal_rows. by rewrite fmap_app, concat_app. Qed.

Lemma wal_ok_app low w1 w2 : wal_ok low (w1 ++ w2) ↔ wal_ok low w1 ∧ wal_ok (wal_end low w1) w2.
Proof.
  revert low. induction w1 as [|[e rows] w1 IH]; intros low; cbn [app wal_ok]; [cbn; tauto |].
  rewrite IH, wal_end_cons. tauto.
Qed.

Lemma changes_app ms low w1 w2 : wal_ok low (w1 ++ w2) → changes ms (w1 ++ w2) = changes ms w1 ++ changes ms w2.
Proof.
  intros [H1 H2]%wal_ok_app. unfold changes. rewrite wal_rows_app.
  destruct (read_wal ms w1 low None None H1) as ([p Hs] & _ & _); [by intros x [=] | done |].
  unfold scan0. rewrite (offers_of_app ms _ _ _ _ Hs), fmap_app. f_equal. by apply offers_sim.
Qed.

End Wal.

(** * Drains lose no change

    The database as drains leave it: where the slot is, how far each mapping got, and
    what took effect.  Drains follow one another, each cut short after any of its
    effects.  Whatever the slot moved past, or a recorded position covers, has been
    delivered and made durable. *)

(** ** What is durable *)

(** A mapping with the position recorded for it. *)
Definition at_position (m : Mapping) (p : option Pos) : Mapping :=
  mk_mapping (mp_name m) (mp_source m) (mp_topic m) (mp_value_expr m) (mp_key_expr m) (mp_filter_expr m) (mp_on_error m) p.

Section Durable.
Context {E : Type} {H : CdcHost E}.
Context (ms : list Mapping).

(** Run [c] of lane [i] was written as its mapping says, at the positions then recorded,
    and every partition it went to was synced since. *)
Definition durable_run (i : nat) (c : list Offer) (log : list Event) : Prop :=
  ∃ pre parts post positions, log = pre ++ Produced i (array c) parts :: post ∧
    accounted (zip_with at_position ms positions) pre i c parts ∧ ∀ p, p ∈ parts → ∃ ps, Synced ps ∈ post ∧ p ∈ ps.
(** ... and the change is one of its elements. *)
Definition durable (c : Change) (log : list Event) : Prop :=
  ∃ chunk, c ∈ change_of <$> chunk ∧ durable_run (c_lane c) chunk log.

Lemma durable_app c log more : durable c log → durable c (log ++ more).
Proof.
  intros (chunk & Hc & pre & parts & post & ps & -> & Ha & Hs). exists chunk. split; [done |]. exists pre, parts, (post ++ more), ps.
  split; [by rewrite <- app_assoc |]. split; [done |]. intros p Hp. destruct (Hs p Hp) as (q & ? & ?). exists q. split; [set_solver | done].
Qed.

Lemma durable_behind c log more : durable c log → durable c (more ++ log).
Proof.
  intros (chunk & Hc & pre & parts & post & ps & -> & (m & shape & cols & pre' & evs & Hm & Hsh & Hcols & -> & Hw) & Hs).
  exists chunk. split; [done |]. exists (more ++ pre' ++ evs), parts, post, ps. split; [by rewrite !app_assoc |]. split; [| done].
  exists m, shape, cols, (more ++ pre'), evs. by rewrite app_assoc.
Qed.

Lemma owed_synced i pre body parts post p : owed i (pre ++ Produced i body parts :: post) = ∅ → p ∈ parts →
  ∃ ps, Synced ps ∈ post ∧ p ∈ ps.
Proof.
  intros Ho Hp. assert (p ∉ owed i (pre ++ Produced i body parts :: post)) as Hn by (rewrite Ho; set_solver). clear Ho.
  induction post as [|ev post IH] using rev_ind.
  - exfalso. apply Hn. rewrite owed_snoc. cbn. rewrite bool_decide_eq_true_2 by done. set_solver.
  - rewrite app_comm_cons, app_assoc, owed_snoc in Hn.
    destruct (decide (p ∈ owed i (pre ++ Produced i body parts :: post))) as [Hin|Hin].
    + destruct ev as [| | | | | j b ps | ps | |]; cbn in Hn; try done; [case_bool_decide; set_solver |].
      exists ps. split; [apply elem_of_app; right; by apply list_elem_of_singleton |].
      destruct (decide (p ∈ ps)) as [|Hps]; [done |]. exfalso. apply Hn. by apply elem_of_difference.
    + destruct (IH Hin) as (ps & ? & ?). exists ps. split; [apply elem_of_app; by left | done].
Qed.

(** Delivered with nothing owed is durable. *)
Lemma delivered_durable positions OS i evs chunks o : in_commit_order OS →
  history (zip_with at_position ms positions) OS evs → owed i evs = ∅ → bodies i evs = array <$> chunks →
  concat chunks `prefix_of` due (zip_with at_position ms positions) i OS → o ∈ concat chunks → o_lane o = i →
  durable (change_of o) evs.
Proof.
  intros Hord Hh Ho Hb Hp Hin Hl. apply list_elem_of_In, in_concat in Hin as (c & Hch & Hin). apply list_elem_of_In in Hch, Hin.
  apply list_elem_of_split in Hch as (a & b & Hch). exists c. split; [by apply list_elem_of_fmap_2 |].
  destruct (history_accounted _ OS Hord i evs chunks a c b Hh Hb Hp Hch) as (pre & parts & post & He & _ & Ha).
  exists pre, parts, post, positions. unfold c_lane, change_of. cbn. rewrite Hl. split_and!; [done | done |].
  intros p. rewrite He in Ho. by eapply owed_synced.
Qed.

End Durable.

(** ** Drain after drain *)

Section Loss.
Context {E : Type} {H : CdcHost E}.
Context (ms : list Mapping) (low : Z) (wal : list (Z * list Row)) (Hwal : wal_ok low wal).

Record Sys : Type := mk_sys { sy_slot : Z; sy_positions : list (option Pos); sy_log : list Event }.

(** A recorded position is the mapping's; the slot never moves back. *)
Definition happened (s : Sys) (ev : Event) : Sys :=
  let s := mk_sys (sy_slot s) (sy_positions s) (sy_log s ++ [ev]) in
  match ev with
  | Saved l => mk_sys (sy_slot s) (foldl (λ ps x, <[x.1 := Some x.2]> ps) (sy_positions s) l) (sy_log s)
  | Advanced t => mk_sys (Z.max (sy_slot s) t) (sy_positions s) (sy_log s)
  | _ => s
  end.

(** The mappings as they are stored. *)
Definition stored (s : Sys) : list Mapping := zip_with at_position ms (sy_positions s).

(** A drain by the worker: it peeks whole transactions past the slot, and is cut after
    any of its effects. *)
Inductive drains (s : Sys) : Sys → Prop :=
| drains_cut e max_changes first peeks rows past peeked future evs :
    (open_drain max_changes Worker first (mk_world e [])).1 = Ok (Some (stored s, rows)) →
    wal = past ++ peeked ++ future →
    Forall (λ x, x.1 ≤ sy_slot s) past → Forall (λ x, sy_slot s < x.1) (peeked ++ future) →
    rows_read rows peeks `prefix_of` wal_rows peeked →
    (ends_well rows peeks = true → rows_read rows peeks = wal_rows peeked) →
    evs `prefix_of` w_events (drain max_changes Worker first peeks (mk_world e [])).2 →
    drains s (foldl happened s evs).

Definition sys0 : Sys := mk_sys low (replicate (length ms) None) [].

(** What need not be delivered again. *)
Definition covered (s : Sys) (c : Change) : Prop :=
  (c_pos c).1 ≤ sy_slot s ∨ ∃ p, sy_positions s !! c_lane c = Some (Some p) ∧ pos_le (c_pos c) p.
Definition safe (s : Sys) : Prop :=
  length (sy_positions s) = length ms ∧ ∀ c, c ∈ changes ms wal → covered s c → durable ms c (sy_log s).

(** ** One drain *)

Lemma stored_source s : length (sy_positions s) = length ms → mp_source <$> stored s = mp_source <$> ms.
Proof using Type.
  clear Hwal wal. unfold stored. destruct s as [slot ps log]. cbn. revert ps.
  induction ms as [|m ms' IH]; intros [|p ps] Hlen; try done. cbn. f_equal. apply IH. cbn in Hlen. lia.
Qed.

Lemma stored_start s i p : start (stored s) i = Some p → sy_positions s !! i = Some (Some p).
Proof using Type.
  clear Hwal wal. unfold start, stored. rewrite lookup_zip_with. destruct (ms !! i) as [m|]; [| done]. cbn.
  destruct (sy_positions s !! i) as [q|]; [| done]. cbn. by intros ->.
Qed.

Lemma order_prefix OS OS' : OS `prefix_of` OS' → in_commit_order OS' → in_commit_order OS.
Proof using Type.
  clear. intros [t ->] [S1 S2 S3 S4]. apply StronglySorted_app in S1 as (_ & S1 & _).
  split; [done | | |]; intros; [apply S2 | eapply S3 | eapply S4]; try done; set_solver.
Qed.

(** What a drain of the peeked transactions sees of the log. *)
Record sees (s : Sys) (OS : list Offer) (whole : bool) (past peeked future : list (Z * list Row)) : Prop := mk_sees {
  se_order : in_commit_order OS;
  se_changes : ∀ c, c ∈ changes ms wal → (c_pos c).1 ≤ sy_slot s ∨ c ∈ change_of <$> OS ∨
    ((∀ o, o ∈ OS → o_lane o = c_lane c → pos_lt (o_pos o) (c_pos c)) ∧ (whole = true → wal_end low peeked < (c_pos c).1));
  se_end : ∀ o, o ∈ OS → (o_pos o).1 ≤ wal_end low peeked;
  se_some : peeked = [] → OS = [] }.

Lemma past_end s past : Forall (λ x : Z * list Row, x.1 ≤ sy_slot s) past → past ≠ [] → wal_end low past ≤ sy_slot s.
Proof using Type.
  clear Hwal. rewrite Forall_forall. intros Hall Hne. unfold wal_end. destruct (last past) as [x|] eqn:El.
  - by apply Hall, last_Some_elem_of.
  - by apply last_None in El.
Qed.

Lemma wal_end_any low' w : w ≠ [] → wal_end low' w = wal_end low w.
Proof using Type. clear Hwal. intros Hne. unfold wal_end. destruct (last w) eqn:El; [done | by apply last_None in El]. Qed.

Lemma change_end low' w c : wal_ok low' w → c ∈ changes ms w → low' < (c_pos c).1 ≤ wal_end low' w.
Proof using Type.
  clear Hwal wal low. intros Hw Hc. destruct (read_wal ms w low' None None Hw) as (_ & _ & Hall); [by intros x [=] | done |].
  unfold changes in Hc. apply list_elem_of_fmap in Hc as (o & -> & Ho). unfold scan0 in Ho. rewrite Forall_forall in Hall.
  apply (Hall o Ho).
Qed.

Lemma changes_nil : changes ms [] = [].
Proof using Type. done. Qed.

Lemma sees_peek s rows peeks past peeked future : length (sy_positions s) = length ms →
  wal = past ++ peeked ++ future → Forall (λ x, x.1 ≤ sy_slot s) past →
  rows_read rows peeks `prefix_of` wal_rows peeked →
  (ends_well rows peeks = true → rows_read rows peeks = wal_rows peeked) →
  sees s (offers_of (stored s) (rows_read rows peeks) scan0) (ends_well rows peeks) past peeked future.
Proof using Hwal.
  intros Hlen Ew Hpast Hpre Hwhole. rewrite (offers_source (stored s) ms) by (by apply stored_source).
  pose proof Hwal as Hw. rewrite Ew in Hw. apply wal_ok_app in Hw as [Hw1 Hw2]. pose proof Hw2 as Hw2'. apply wal_ok_app in Hw2' as [Hw3 Hw4].
  destruct (read_wal ms peeked _ None None Hw3) as ([q Hsc] & Hord & Hall); [by intros x [=] | done |]. fold scan0 in Hsc, Hord, Hall.
  destruct Hpre as [more Hmore]. rewrite Hmore, scan_of_app in Hsc.
  destruct (scan_of ms (rows_read rows peeks) scan0) as [sc1|] eqn:Es1; [| done].
  pose proof (offers_of_app ms (rows_read rows peeks) more scan0 sc1 Es1) as Happ. rewrite <- Hmore in Happ.
  set (OS := offers_of ms (rows_read rows peeks) scan0) in *. set (rest := offers_of ms more sc1) in *.
  rewrite Happ in Hord, Hall.
  assert (∀ o, o ∈ OS → peeked ≠ []) as Hsome.
  { intros o Ho ->. unfold wal_rows in Hmore. cbn in Hmore. symmetry in Hmore. apply app_nil in Hmore as [Hr _].
    subst OS. rewrite Hr in Ho. by apply not_elem_of_nil in Ho. }
  split.
  - eapply order_prefix; [| exact Hord]. by eexists.
  - intros c. rewrite Ew, (changes_app ms low past) by (by rewrite <- Ew).
    rewrite (changes_app ms (wal_end low past) peeked) by done. rewrite !elem_of_app. intros [Hc|[Hc|Hc]].
    + left. destruct (decide (past = [])) as [->|Hne]; [rewrite changes_nil in Hc; by apply not_elem_of_nil in Hc |].
      pose proof (change_end low past c Hw1 Hc). pose proof (past_end s past Hpast Hne). lia.
    + right. unfold changes in Hc. rewrite Happ, fmap_app in Hc. apply elem_of_app in Hc as [Hc|Hc]; [by left | right].
      apply list_elem_of_fmap in Hc as (o' & -> & Ho'). split.
      * intros o Ho Hl. by destruct (sorted_split _ _ _ o o' (co_sorted _ Hord) eq_refl Ho Ho') as (_ & _ & _ & Hlt); apply Hlt.
      * intros Hend. exfalso. apply Hwhole in Hend. rewrite Hend in Hmore. symmetry in Hmore.
        assert (more = []) as Hm by (apply (app_inv_head (wal_rows peeked)); by rewrite app_nil_r).
        subst rest. rewrite Hm in Ho'. by apply not_elem_of_nil in Ho'.
    + right. right. pose proof (change_end _ future c Hw4 Hc) as Hf. split.
      * intros o Ho _. rewrite Forall_forall in Hall. destruct (Hall o) as [Hb _]; [set_solver |]. left.
        rewrite (wal_end_any (wal_end low past)) in Hb, Hf by (by eapply Hsome). lia.
      * intros _. destruct (decide (peeked = [])) as [->|Hne]; [| rewrite (wal_end_any (wal_end low past)) in Hf by done; lia].
        pose proof (wal_end_le low past Hw1). change (wal_end low []) with low.
        change (wal_end (wal_end low past) []) with (wal_end low past) in Hf. lia.
  - intros o Ho. rewrite Forall_forall in Hall. destruct (Hall o) as [Hb _]; [set_solver |].
    rewrite (wal_end_any (wal_end low past)) in Hb by (by eapply Hsome). lia.
  - intros Hp. destruct OS as [|o OS'] eqn:Eo; [done |]. exfalso. eapply (Hsome o); [set_solver | done].
Qed.

(** A drain records and moves only what it may. *)
Lemma drained_history ms' OS high r evs : in_commit_order OS → drained ms' OS high r evs →
  history ms' OS evs ∧ ∀ t, Advanced t ∈ evs → ∃ h, high = Some h ∧ (t = h ∨ ∃ o, o ∈ OS ∧ o_hold o = Some t).
Proof using Type.
  clear Hwal. intros Hord [Hh _ Hu _|d h more Hset Hu Hhigh -> [post Hpost] _].
  { split; [done |]. intros t Ht. by apply Hu in Ht. }
  pose proof (settle_all_ok ms' OS Hord d h Hset) as Hh. split.
  { eapply history_prefix; [| exact Hh]. exists post. by rewrite <- app_assoc, Hpost. }
  intros t [Ht|Ht]%elem_of_app; [by apply Hu in Ht |]. exists h. split; [done |].
  assert (Advanced t ∈ settle_all d.1 h) as Hin by (rewrite Hpost; set_solver). unfold settle_all in Hin.
  rewrite !elem_of_app in Hin. destruct Hin as [Hin|[Hin|Hin]]; [by apply sync_unmoved in Hin | |].
  { unfold save_events_of in Hin. case_bool_decide; [by apply not_elem_of_nil in Hin |]. by apply list_elem_of_singleton in Hin. }
  destruct (advance_target (Some h) (lane_holds d.1)) as [u|] eqn:Et; [| by apply not_elem_of_nil in Hin].
  apply list_elem_of_singleton in Hin as [= ->]. destruct (decide (lane_holds d.1 = [])) as [En|En].
  { rewrite En in Et. injection Et as ->. by left. }
  right. assert (∀ x, x ∈ lane_holds d.1 → held_by OS x) as Hheld.
  { intros x Hx. apply list_elem_of_omap in Hx as (l & Hl & Hx). apply list_elem_of_lookup in Hl as [k Hk].
    destruct (ln_stopped l) as [[h' w']|] eqn:Es; [| done]. injection Hx as <-. eapply (stopped_held ms' OS OS d); [apply Hset | done | done]. }
  pose proof (advance_target_spec (Some h) (lane_holds d.1) En) as Hs. rewrite Et in Hs.
  destruct Hs as [Hin _]; [intros x Hx; by eapply held_bound, Hheld |].
  destruct (Hheld _ Hin) as (o & Ho & [|Hho]); [done |]. by exists o.
Qed.

Lemma positions_saved (l : list (nat * Pos)) (ps : list (option Pos)) i p : foldl (λ ps x, <[x.1 := Some x.2]> ps) ps l !! i = Some (Some p) →
  ps !! i = Some (Some p) ∨ (i, p) ∈ l.
Proof using Type.
  clear. revert ps. induction l as [|[j q] l IH]; intros ps Hl; cbn in Hl; [by left |].
  destruct (IH _ Hl) as [Hi|Hi]; [| right; set_solver]. apply list_lookup_insert_Some in Hi as [(-> & [= ->] & _)|[_ Hi]]; [right; set_solver | by left].
Qed.

Lemma positions_length (l : list (nat * Pos)) (ps : list (option Pos)) : length (foldl (λ ps x, <[x.1 := Some x.2]> ps) ps l) = length ps.
Proof using Type. clear. revert ps. induction l as [|x l IH]; intros ps; cbn; [done |]. by rewrite IH, length_insert. Qed.

(** What an event newly covers. *)
Lemma covered_step s ev c : covered (happened s ev) c → covered s c ∨
  (∃ l p, ev = Saved l ∧ (c_lane c, p) ∈ l ∧ pos_le (c_pos c) p) ∨ (∃ t, ev = Advanced t ∧ (c_pos c).1 ≤ t).
Proof using Type.
  clear. destruct s as [slot ps log]. unfold covered. destruct ev as [| | | | | | |l|t]; cbn; try tauto.
  - intros [?|(p & Hp & Hle)]; [tauto |]. apply positions_saved in Hp as [?|?]; [left; right; by exists p |].
    right. left. by exists l, p.
  - intros [Hle|?]; [| tauto]. destruct (Z.max_spec slot t) as [[_ Hm]|[_ Hm]]; rewrite Hm in Hle; [| tauto].
    right. right. by exists t.
Qed.

Lemma happened_log s ev : sy_log (happened s ev) = sy_log s ++ [ev].
Proof using Type. clear. by destruct ev. Qed.
Lemma happened_length s ev : length (sy_positions (happened s ev)) = length (sy_positions s).
Proof using Type. clear. destruct ev; try done. cbn. by rewrite positions_length. Qed.

(** One drain from a safe state: what it covers it has delivered. *)
Section Step.
Context (s : Sys) (OS : list Offer) (whole : bool) (past peeked future : list (Z * list Row)) (high : option Z).
Context (Hsafe : safe s) (Hsees : sees s OS whole past peeked future).
Context (Hhigh : ∀ h, high = Some h → whole = true ∧ h ≤ wal_end low peeked).

Lemma stored_lane c : c ∈ changes ms wal → (c_lane c < length (stored s))%nat.
Proof using Hsafe.
  clear Hsees Hhigh Hwal. intros Hc. unfold stored. rewrite length_zip_with_l_eq by (by rewrite (proj1 Hsafe)).
  apply list_elem_of_fmap in Hc as (o & -> & Ho). pose proof (offers_lane ms (wal_rows wal) scan0) as Hall.
  rewrite Forall_forall in Hall. by apply Hall.
Qed.

(** A change on lane [i] that was delivered, or need not be. *)
Lemma covered_delivered evs c (P : Offer → Prop) : history (stored s) OS evs → c ∈ changes ms wal → c ∈ change_of <$> OS →
  delivered_to (stored s) OS evs (c_lane c) P → (∀ o, change_of o = c → P o) → durable ms c (sy_log s ++ evs).
Proof using Hsafe Hsees.
  clear Hhigh Hwal. intros Hh Hc Hin (Ho & chunks & Hb & Hpre & Hdel) HP. apply list_elem_of_fmap in Hin as (o & -> & Hin).
  destruct (already (stored s) (o_lane o) o) eqn:Ea.
  - apply durable_app. apply Hsafe; [done |]. right. unfold already in Ea.
    destruct (start (stored s) (o_lane o)) as [p|] eqn:Es; [| done]. exists p. split; [by apply stored_start |].
    by apply bool_decide_eq_true in Ea.
  - apply durable_behind. apply (delivered_durable ms (sy_positions s) OS (o_lane o) evs chunks o); try done; [apply Hsees |].
    apply Hdel; [by apply due_in | by apply HP].
Qed.

Lemma event_safe evs ev c : history (stored s) OS evs → ok_at (stored s) OS evs ev →
  (∀ t, ev = Advanced t → ∃ h, high = Some h ∧ (t = h ∨ ∃ o, o ∈ OS ∧ o_hold o = Some t)) →
  c ∈ changes ms wal →
  (∃ l p, ev = Saved l ∧ (c_lane c, p) ∈ l ∧ pos_le (c_pos c) p) ∨ (∃ t, ev = Advanced t ∧ (c_pos c).1 ≤ t) →
  durable ms c (sy_log s ++ evs) ∨ covered s c.
Proof using Hsafe Hsees Hhigh.
  clear Hwal. destruct Hsees as [Hord Hch Hend _]. intros Hh Hok Hadv Hc [(l & p & -> & Hin & Hle)|(t & -> & Hle)].
  - destruct (Hok _ _ Hin) as [Hdel Hp]. destruct Hp as [Hp|(o & Ho & Hl & <-)].
    { right. right. exists p. split; [by apply stored_start | done]. }
    destruct (Hch c Hc) as [?|[Hpk|[Hlt _]]]; [right; by left | left | ].
    + eapply covered_delivered; [done | done | done | done |]. intros o' <-. done.
    + specialize (Hlt o Ho Hl). exfalso. unfold pos_lt, pos_le in *. lia.
  - destruct (Hch c Hc) as [?|[Hpk|[_ Hlt]]]; [right; by left | left |].
    + assert (c_lane c < length (stored s))%nat as Hlane by (by apply stored_lane).
      eapply covered_delivered; [done | done | done | by apply Hok |]. intros o' <-. done.
    + destruct (Hadv t eq_refl) as (h & Hh' & Ht). destruct (Hhigh h Hh') as [Hw Hle']. specialize (Hlt Hw).
      destruct Ht as [->|(o & Ho & Hho)]; [lia |]. destruct (co_hold OS Hord o t Ho Hho) as [? _]. specialize (Hend o Ho). lia.
Qed.

(** Any number of its events. *)
Lemma events_safe evs : history (stored s) OS evs →
  (∀ t, Advanced t ∈ evs → ∃ h, high = Some h ∧ (t = h ∨ ∃ o, o ∈ OS ∧ o_hold o = Some t)) →
  safe (foldl happened s evs) ∧ sy_log (foldl happened s evs) = sy_log s ++ evs.
Proof using Hsafe Hsees Hhigh.
  clear Hwal. induction evs as [|ev evs IH] using rev_ind; intros Hh Hadv; [by rewrite app_nil_r |].
  assert (history (stored s) OS evs) as Hh'.
  { eapply history_prefix; [| exact Hh]. by eexists. }
  destruct IH as [[Hlen Hdur] Hlog]; [done | |].
  { intros t Ht. apply Hadv. set_solver. }
  rewrite foldl_app. cbn [foldl]. rewrite happened_log, Hlog, app_assoc. split; [| done]. split; [by rewrite happened_length |].
  intros c Hc Hcov. rewrite happened_log, Hlog.
  destruct (covered_step _ _ _ Hcov) as [Hold|Hnew]; [apply durable_app; rewrite <- Hlog; by apply Hdur |].
  destruct (event_safe evs ev c) as [Hd|Hd]; try done.
  - by apply (Hh evs ev []).
  - intros t ->. apply Hadv. set_solver.
  - by apply durable_app.
  - apply durable_app, durable_app. by apply Hsafe.
Qed.

End Step.

Lemma high_bound s rows peeks peeked h : length (sy_positions s) = length ms → (∃ low', wal_ok low' peeked) →
  (ends_well rows peeks = true → rows_read rows peeks = wal_rows peeked) →
  high_of (stored s) rows peeks = Some h → ends_well rows peeks = true ∧ h ≤ wal_end low peeked.
Proof using Type.
  clear Hwal. intros Hlen (low' & Hw) Hr. unfold high_of. destruct (ends_well rows peeks) eqn:Ee; [| done]. rewrite Hr by done. unfold scan0.
  destruct (read_wal (stored s) peeked low' None None Hw) as ([q ->] & _); [by intros x [=] | done |]. cbn.
  case_bool_decide as Hp; [done |]. intros [= <-]. split; [done |]. rewrite (wal_end_any low') by done. lia.
Qed.

Lemma drains_safe s s' : safe s → drains s s' → safe s'.
Proof using Hwal.
  intros Hs [e max_changes first peeks rows past peeked future evs Hopen Hw Hpast Hfut Hpre Hwhole Hcut].
  destruct (drain max_changes Worker first peeks (mk_world e [])) as [r w] eqn:Ed.
  pose proof (drain_ok max_changes Worker first peeks e r w Ed) as Hd. rewrite Hopen in Hd.
  pose proof (sees_peek s rows peeks past peeked future (proj1 Hs) Hw Hpast Hpre Hwhole) as Hsees.
  specialize (Hd _ eq_refl (se_order _ _ _ _ _ _ Hsees)). destruct (drained_history _ _ _ _ _ (se_order _ _ _ _ _ _ Hsees) Hd) as [Hh Hadv].
  pose proof Hcut as [t Ht]. cbn in Ht.
  eapply (events_safe s _ (ends_well rows peeks) past peeked future (high_of (stored s) rows peeks)); [done | exact Hsees | | |].
  - intros h. apply high_bound; [apply Hs | | done]. pose proof Hwal as Hw'. rewrite Hw in Hw'.
    apply wal_ok_app in Hw' as [_ [Hw' _]%wal_ok_app]. by eexists.
  - by eapply history_prefix.
  - intros t' Ht'. apply Hadv. rewrite Ht. set_solver.
Qed.

Lemma drains_all_safe s : rtc drains (sys0) s → safe s.
Proof using Hwal.
  intros Hr. assert (∀ s1 s2, rtc drains s1 s2 → safe s1 → safe s2) as Hall.
  { clear -Hwal. induction 1 as [|s1 s2 s3 Hstep _ IH]; [done |]. intros Hs. apply IH. by eapply drains_safe. }
  eapply Hall; [exact Hr |]. split; [cbn; by rewrite length_replicate |]. intros c Hc [Hle|(p & Hp & _)].
  - pose proof (change_end low wal c Hwal Hc). cbn in Hle. lia.
  - cbn in Hp. apply lookup_replicate in Hp as [[=] _].
Qed.

End Loss.

(** ** No change is lost *)

(** C5. However many drains the background worker ran over the database's log, each
    peeking whole transactions past the slot and cut short after any of its effects:
    every change the slot has moved past, and every change at or before the position
    recorded for its mapping, is an element of a run of that mapping that was written and
    whose partitions were all synced after it.  Written: the mapping's topic was resolved,
    the run rendered with its columns, and each rendered record appended in order to the
    partition of its key; or, where the mapping does not stall, the changes that could not
    be rendered (all of them, if there is no such topic) were dead-lettered one by one; or
    an append failed behind the run's first and all its changes were dead-lettered. *)
Theorem drains_lose_nothing {E} `{CdcHost E} ms low wal s c : wal_ok low wal → rtc (drains ms wal) (sys0 ms low) s →
  c ∈ changes ms wal → covered s c → durable ms c (sy_log s).
Proof. intros Hw Hr Hc Hcov. by apply (drains_all_safe ms low wal Hw s Hr). Qed.
