(* ===== verification/CdcTheorems.v ===== *)
(** * A small database to capture changes from

    An instance of [CdcHost] (Cdc.v) to evaluate drains on: the mappings as they are
    stored, rows whose text is the operation's letter and what it is about, a broker that
    takes every record, or every record but the second.

    Behind it: what change capture promises, with the small database as witness. *)

From stdpp Require Import gmap sorting strings.
From S2P Require Import Prelude Sasl Lsn Cdc CdcInv CdcDrain CdcPeek CdcLoss.

#[local] Open Scope Z_scope.

(** The stored mappings, the records taken, and whether the second one is refused. *)
Record Toy : Type := mk_toy { ty_mappings : list Mapping; ty_taken : Z; ty_refuses : bool }.

Definition toy_head (data : bytes) : result bytes Head :=
  match data with
  | [] => Err []
  | b :: rest => Ok (mk_head [b] (Some 7) None (parse_lsn rest) (Some (lit "public")) (Some rest) None)
  end.
Definition toy_append (e : Toy) : result bytes unit * Toy :=
  if ty_refuses e && (ty_taken e =? 1) then (Err (lit "lock timeout"), e)
  else (Ok tt, mk_toy (ty_mappings e) (ty_taken e + 1) (ty_refuses e)).
Definition toy_ok {A} (a : A) (e : Toy) : result bytes A * Toy := (Ok a, e).

#[export] Instance toy_database : CdcHost Toy := {
  parse_head := toy_head;
  parse_cols _ := Ok [];
  encoding_passthrough _ := true;
  run_render _ _ body e := (Ok [(None, Some body); (Some body, None)], e);
  set_lock_timeout := toy_ok tt;
  run_resolve_topic topic := toy_ok (mk_target topic 1 2);
  split_changes _ e := if ty_refuses e then (Err (lit "too deep"), e) else (Ok [], e);
  dead_letter _ _ _ e := e;
  append_record _ _ _ _ := toy_append;
  sync_partition _ := toy_ok tt;
  store_positions _ := toy_ok tt;
  slot_advance _ := toy_ok tt;
  take_lock _ := toy_ok true;
  lock_held _ := false;
  unlock := toy_ok tt;
  slot_exists _ := true;
  load_mappings e := (Ok (ty_mappings e), e);
  open_cursor _ := toy_ok tt;
  close_cursor := toy_ok tt;
  chunk_bytes _ := 40;
  roll_back _ _ after := after }.

Definition toy_mapping (name source : bytes) : Mapping :=
  mk_mapping name source (lit "topic") (lit "v") None None (lit "stall") None.
Definition toy_mappings : list Mapping :=
  [toy_mapping (lit "orders") (lit "orders"); toy_mapping (lit "txns") TRANSACTION_SOURCE].
Definition toy (refuses : bool) : Toy := mk_toy toy_mappings 0 refuses.

(** Two transactions, ending at 0/5 and 0/9. *)
Definition toy_wal : list (Z * list (bytes * bytes)) :=
  [(5, [(lit "0/1", lit "B0/5"); (lit "0/2", lit "Iorders"); (lit "0/3", lit "Uorders"); (lit "0/5", lit "C")]);
   (9, [(lit "0/6", lit "B0/9"); (lit "0/7", lit "Dorders"); (lit "0/9", lit "C")])].
Definition toy_rows : list (bytes * bytes) := concat (snd <$> toy_wal).
Definition toy_drain (refuses : bool) : result bytes Drained * World Toy :=
  drain 100 Worker (Ok toy_rows) [Ok []] (mk_world (toy refuses) []).

(** [Failed::Render] is not always "nothing was appended": the first record of this run
    stays in the log when the second is refused and the changes cannot be split for the
    dead letters. *)
Example render_failed_after_append :
  match produce 0 (toy_mapping (lit "orders") (lit "orders")) [] (lit "[1]") (5, 1)
          (new_drain Worker 40 toy_mappings, mk_world (toy true) []) with
  | (Err (RenderFailed _), (_, w)) => last (w_events w) = Some (Appends 1 0 None (Some (lit "[1]")))
  | _ => False
  end.
Proof. vm_compute. reflexivity. Qed.

(** ** The unit tests of the source, on the model *)

Example murmur2_known : murmur2 (lit "21") = -973932308 ∧ murmur2 (lit "foobar") = -790332482 ∧
  murmur2 (lit "a-little-bit-long-string") = -985981536.
Proof. vm_compute. done. Qed.

Example stopped_mapping_holds_slot : advance_target (Some 900) [] = Some 900 ∧
  advance_target (Some 900) [Some 400; Some 300] = Some 300 ∧ advance_target (Some 900) [Some 400; None] = None.
Proof. vm_compute. done. Qed.

Example run_splits :
  transactions (mk_run (lit "[]") (lit "[{a:1},{a:2},{a:3}") None (30, 1) [((10, 2), None, 12); ((30, 1), Some 10, 18)]) =
    [(None, (10, 2), lit "[{a:1},{a:2}]"); (Some 10, (30, 1), lit "[{a:3}]")].
Proof. vm_compute. reflexivity. Qed.

Example summary_run_cut :
  let ends := [((10, 0), None, 5); ((20, 0), Some 10, 9); ((30, 0), Some 20, 13)] in
  deliverable ends (Some 20) = Some ((20, 0), Some 10, 9) ∧ deliverable ends None = None ∧ deliverable ends (Some 5) = None.
Proof. vm_compute. done. Qed.

(** * What change capture promises

    Each change reaches its mappings' topics in commit order, summaries behind the
    changes they summarise; a drain that stalls nowhere delivers everything it peeked;
    no sequence of drains, however cut short, loses a change; and what a drain buffers
    is bounded. *)

(** ** Order *)

(** The changes due to a lane, in commit order. *)
Definition commit_sequence (os : list Offer) : Prop := StronglySorted (λ o o', pos_lt (o_pos o) (o_pos o')) os.

(** A lane was given runs of what is due to it, one behind the other and none skipped. *)
Definition given_in_turn (ms : list Mapping) (OS : list Offer) (evs : list Event) (i : nat) : Prop :=
  commit_sequence (due ms i OS) ∧
  ∃ chunks, bodies i evs = array <$> chunks ∧ concat chunks `prefix_of` due ms i OS.

Lemma due_commit_sequence ms OS i : in_commit_order OS → commit_sequence (due ms i OS).
Proof.
  intros Hord. pose proof (due_sorted ms OS Hord i) as Hs. unfold commit_sequence.
  assert (∀ o, o ∈ due ms i OS → o_lane o = i) as Hl by (intros o Ho; by apply due_in in Ho as (_ & ? & _)).
  induction Hs as [|x l _ IH Hx]; [constructor |]. constructor; [apply IH; set_solver |].
  rewrite Forall_forall in Hx |- *. intros y Hy. destruct (Hx y Hy) as (_ & _ & _ & Hlt). apply Hlt.
  rewrite (Hl x), (Hl y); set_solver.
Qed.

Lemma in_turn_prefix ms OS evs evs' : evs `prefix_of` evs' → in_turn ms OS evs' → in_turn ms OS evs.
Proof.
  intros [t ->] Ht i Hi. destruct (Ht i Hi) as (chunks & Hb & Hp). rewrite bodies_app in Hb. symmetry in Hb.
  apply fmap_app_inv in Hb as (c1 & c2 & H1 & H2 & ->). exists c1. split; [done |]. rewrite concat_app in Hp.
  etransitivity; [by eexists | done].
Qed.

Lemma settle_all_apart (d : Drain) h i : Forall (apart i) (settle_all d h).
Proof.
  unfold settle_all, save_events_of. rewrite !Forall_app. split_and!; [apply sync_apart | |].
  - case_bool_decide; by repeat constructor.
  - destruct (advance_target _ _); by repeat constructor.
Qed.

Lemma drained_in_turn {E} `{CdcHost E} ms OS high r evs : drained ms OS high r evs → in_turn ms OS evs.
Proof.
  intros [? ? _ _|s h more [Hinv _] _ _ -> [t Ht] _]; [done |]. apply inv_in_turn in Hinv. intros i Hi.
  destruct (Hinv i Hi) as (chunks & Hb & Hp). exists chunks. split; [| done]. rewrite bodies_apart; [done |].
  pose proof (settle_all_apart s.1 h i) as Ha. rewrite Ht in Ha. by apply Forall_app in Ha as [? _].
Qed.

Section Theorems.
Context {E : Type} {H : CdcHost E}.

(** The offers of rows of a log are in commit order. *)
Lemma rows_in_order ms low wal rows : wal_ok low wal → rows `prefix_of` wal_rows wal →
  in_commit_order (offers_of ms rows scan0).
Proof.
  intros Hw [more Hmore]. destruct (read_wal ms wal low None None Hw) as ([q Hsc] & Hord & _); [by intros x [=] | done |].
  fold scan0 in Hsc, Hord. rewrite Hmore, scan_of_app in Hsc.
  destruct (scan_of ms rows scan0) as [sc1|] eqn:Es1; [| done].
  rewrite Hmore, (offers_of_app ms rows more scan0 sc1 Es1) in Hord. eapply order_prefix; [| exact Hord]. by eexists.
Qed.


(** ** Completeness *)

Lemma settled_all ms OS (s : Drain * World E) h : settled ms OS s → omap (λ l, snd <$> ln_stopped l) (d_lanes s.1) = [] →
  settle_all s.1 h = sync_events (d_appended s.1) ++ save_events_of s.1 ++ [Advanced h] ∧
  ∀ i, (i < length ms)%nat → ∃ chunks, bodies i (w_events s.2) = array <$> chunks ∧ concat chunks = due ms i OS.
Proof.
  intros [[I1 I2 I3 _ _ _] Hruns] Hst.
  assert (∀ l, l ∈ d_lanes s.1 → ln_stopped l = None) as Hn.
  { intros l Hl. destruct (ln_stopped l) as [[hold why]|] eqn:Es; [| done]. exfalso.
    assert (why ∈ omap (λ l, snd <$> ln_stopped l) (d_lanes s.1)) as Hin by (apply list_elem_of_omap; exists l; by rewrite Es).
    rewrite Hst in Hin. by apply not_elem_of_nil in Hin. }
  split.
  - unfold settle_all. assert (lane_holds s.1 = []) as ->; [| done]. unfold lane_holds.
    clear -Hn. induction (d_lanes s.1) as [|l ls IH]; [done |]. cbn. rewrite (Hn l) by set_solver. apply IH. set_solver.
  - intros i Hi. rewrite <- I1 in Hi. apply lookup_lt_is_Some_2 in Hi as [l Hl].
    destruct (I3 i l Hl) as [got pend chunks H1 H2 H3 H4 H5 H6 H7|got rest extra chunks hold why H1].
    + exists chunks. split; [done |]. rewrite (Hruns i l Hl) in H5. cbn in H5. subst pend. by rewrite H4, H2, app_nil_r.
    + rewrite (Hn l) in H1; [done | by eapply list_elem_of_lookup_2].
Qed.

(** A lane was given everything due to it, every run of it written as its mapping says,
    durably. *)
Definition given_all (ms : list Mapping) (OS : list Offer) (evs : list Event) (i : nat) : Prop :=
  owed i evs = ∅ ∧ ∃ chunks, bodies i evs = array <$> chunks ∧ concat chunks = due ms i OS ∧
    ∀ a c b, chunks = a ++ c :: b → ∃ pre parts post,
      evs = pre ++ Produced i (array c) parts :: post ∧ bodies i pre = array <$> a ∧ accounted ms pre i c parts.

Lemma complete_owed ms OS (s : Drain * World E) h i : settled ms OS s →
  owed i (w_events s.2 ++ sync_events (d_appended s.1) ++ save_events_of s.1 ++ [Advanced h]) = ∅.
Proof.
  intros [[_ _ _ Iow _ _] _]. rewrite app_assoc.
  assert (owed i (w_events s.2 ++ sync_events (d_appended s.1)) ⊆ ∅) as Ho by (apply owed_sync; specialize (Iow i); set_solver).
  assert (Forall (apart i) (save_events_of s.1 ++ [Advanced h])) as Ha.
  { unfold save_events_of. case_bool_decide; by repeat constructor. }
  pose proof (owed_apart i (w_events s.2 ++ sync_events (d_appended s.1)) _ Ha). set_solver.
Qed.

(** C13. A drain that read whole transactions to the end of its peek, returned without an
    error and reported no stopped mapping has given every mapping all the changes due to
    it, in runs, each of them written before it counted as delivered: the topic resolved,
    the run rendered with its columns and the rendered records appended in order, or, as
    the mapping's policy and the failures have it, its changes dead-lettered one by one.
    It has left none of the partitions it appended to unsynced, and as the last thing it
    did moved the slot to the end of the last transaction. *)
Theorem drain_complete ms low wal max_changes mode first peeks e rows x :
  wal_ok low wal → wal ≠ [] → (open_drain max_changes mode first (mk_world e [])).1 = Ok (Some (ms, rows)) →
  rows_read rows peeks = wal_rows wal → ends_well rows peeks = true →
  (drain max_changes mode first peeks (mk_world e [])).1 = Ok x → dr_stalled x = [] →
  let evs := w_events (drain max_changes mode first peeks (mk_world e [])).2 in
  (∀ i, (i < length ms)%nat → given_all ms (offers_of ms (wal_rows wal) scan0) evs i) ∧
  last evs = Some (Advanced (wal_end low wal)).
Proof.
  intros Hw Hne Hopen Hrows Hend Hok Hst evs.
  pose proof (rows_in_order ms low wal (wal_rows wal) Hw ltac:(done)) as Hord. rewrite <- Hrows in Hord |- *.
  subst evs. destruct (drain max_changes mode first peeks (mk_world e [])) as [r w] eqn:Ed. cbn [fst snd] in *. subst r.
  pose proof (drain_ok max_changes mode first peeks e (Ok x) w Ed) as Hd. rewrite Hopen in Hd. specialize (Hd _ eq_refl Hord).
  destruct (drained_history _ _ _ _ _ Hord Hd) as [Hh _].
  assert (high_of ms rows peeks = Some (wal_end low wal)) as Hhigh.
  { unfold high_of. rewrite Hend, Hrows. destruct (read_wal ms wal low None None Hw) as ([q Hs] & _); [by intros y [=] | done |].
    unfold scan0. rewrite Hs. cbn. by rewrite bool_decide_eq_false_2. }
  rewrite Hhigh in Hd. destruct Hd as [_ _ _ Hn|s h more Hset _ [= ->] He _ Hmore]; [by specialize (Hn x eq_refl) |].
  destruct (Hmore x eq_refl) as [-> Hs']. rewrite Hst in Hs'. destruct (settled_all ms _ s h Hset (eq_sym Hs')) as [Hall Hdel].
  split.
  - intros i Hi. destruct (Hdel i Hi) as (chunks & Hb & Hc). split; [rewrite He, Hall; by eapply complete_owed |].
    assert (bodies i (w_events w) = array <$> chunks) as Hb' by (rewrite He, bodies_apart by apply settle_all_apart; done).
    exists chunks. split_and!; [done | done |]. intros a c b Hch.
    eapply (history_accounted ms _ Hord i _ chunks a c b); [done | done | by rewrite Hc | done].
  - rewrite He, Hall, !app_assoc. by rewrite last_snoc.
Qed.

(** ** Bounds *)

(** The bytes counted are those of the runs, and within the budget. *)
Definition within_budget (n : Z) (d : Drain) : Prop :=
  d_buffered d = run_bytes (d_lanes d) ∧ d_buffered d ≤ Z.max (d_chunk_bytes d) (n + 1).

(** C35. While a drain reads a peek, the bytes it counts as buffered are those of the runs
    of all mappings together, and never exceed its chunk size, or one change and its
    bracket if that is larger. *)
Theorem buffers_bounded ms low wal rows mode chunk (e : E) n : wal_ok low wal → rows `prefix_of` wal_rows wal → 0 ≤ n →
  Forall (λ o, len (o_element o) ≤ n) (offers_of ms rows scan0) →
  within_budget n (read_rows ms rows scan0 (new_drain mode chunk ms, mk_world e [])).2.1.
Proof.
  intros Hw Hrows Hn Hall. pose proof (rows_in_order ms low wal rows Hw Hrows) as Hord.
  destruct (read_rows_ok ms (offers_of ms rows scan0) Hord rows scan0 (new_drain mode chunk ms, mk_world e []) []) as (T1 & _ & T3 & _ & T5);
    [done | apply new_drain_ok |].
  split; [apply T1 |]. apply (T5 n Hall). cbn. lia.
Qed.

End Theorems.

(** ** On the small database *)

Lemma toy_commit b cs c e l hb hc : row_head b = Some (l, hb) → l ≤ e → hd_op hb = lit "B" → hd_end hb = Some e →
  forallb (λ row, match row_head row with
                  | Some (l, h) => (l <=? e) && negb (bytes_eqb (hd_op h) (lit "B")) && negb (bytes_eqb (hd_op h) (lit "C"))
                  | None => false
                  end) cs = true →
  Z.of_nat (length cs) < SUMMARY_SEQ → row_head c = Some (e, hc) → hd_op hc = lit "C" → commit_rows e (b :: cs ++ [c]).
Proof.
  intros H1 H2 H3 H4 H5 H6 H7 H8. apply (commit_rows_intro e b cs c l hb hc); try done.
  apply Forall_forall. intros row Hrow. rewrite forallb_forall in H5. apply list_elem_of_In, H5 in Hrow. unfold change_row.
  destruct (row_head row) as [[l' h']|]; [| done]. apply andb_true_iff in Hrow as [[Ha Hb]%andb_true_iff Hc].
  exists l', h'. unfold bytes_eqb in *. apply negb_true_iff, bool_decide_eq_false in Hb, Hc. split_and!; [done | lia | done | done].
Qed.

Lemma toy_wal_ok : wal_ok 0 toy_wal.
Proof.
  split; [lia |]. split; [| split; [lia |]; split; [| done]].
  - by eapply (toy_commit _ [(lit "0/2", lit "Iorders"); (lit "0/3", lit "Uorders")] _ 5 1); vm_compute.
  - by eapply (toy_commit _ [(lit "0/7", lit "Dorders")] _ 9 6); vm_compute.
Qed.

Lemma toy_read : rows_read toy_rows [Ok []] = wal_rows toy_wal.
Proof. vm_compute. reflexivity. Qed.

Lemma toy_opens : (open_drain 100 Worker (Ok toy_rows) (mk_world (toy false) [])).1 = Ok (Some (toy_mappings, toy_rows)).
Proof. vm_compute. reflexivity. Qed.


Lemma drain_complete_witness : last (w_events (toy_drain false).2) = Some (Advanced 9).
Proof.
  apply (drain_complete toy_mappings 0 toy_wal 100 Worker (Ok toy_rows) [Ok []] (toy false) toy_rows (mk_drained 10 [])).
  - exact toy_wal_ok.
  - discriminate.
  - exact toy_opens.
  - exact toy_read.
  - reflexivity.
  - vm_compute. reflexivity.
  - reflexivity.
Defined.

Lemma buffers_bounded_witness : within_budget 200
  (read_rows toy_mappings toy_rows scan0 (new_drain Worker 40 toy_mappings, mk_world (toy false) [])).2.1.
Proof.
  apply (buffers_bounded toy_mappings 0 toy_wal toy_rows Worker 40 (toy false) 200).
  - exact toy_wal_ok.
  - rewrite <- toy_read. vm_compute. by exists [].
  - lia.
  - apply Forall_forall. apply Forall_forall. apply (bool_decide_unpack _). vm_compute. exact I.
Defined.

(** The drain cut before it moved the slot: what it recorded need not be delivered again. *)
Definition toy_cut : list Event := removelast (w_events (toy_drain false).2).

Lemma drains_lose_nothing_witness : ∃ s c, rtc (drains toy_mappings toy_wal) (sys0 toy_mappings 0) s ∧
  sy_slot s = 0 ∧ c ∈ changes toy_mappings toy_wal ∧ durable toy_mappings c (sy_log s).
Proof.
  set (c := (0%nat, (9, 1), change_element (lit "0/7") (lit "Dorders")) : Change).
  assert (c ∈ changes toy_mappings toy_wal) as Hc by (apply (bool_decide_unpack _); vm_compute; exact I).
  assert (rtc (drains toy_mappings toy_wal) (sys0 toy_mappings 0) (foldl happened (sys0 toy_mappings 0) toy_cut)) as Hr.
  { apply rtc_once. apply (drains_cut toy_mappings toy_wal _ (toy false) 100 (Ok toy_rows) [Ok []] toy_rows [] toy_wal []).
    - vm_compute. reflexivity.
    - reflexivity.
    - constructor.
    - by repeat constructor.
    - rewrite toy_read. done.
    - intros _. exact toy_read.
    - exists [Advanced 9]. vm_compute. reflexivity. }
  exists (foldl happened (sys0 toy_mappings 0) toy_cut), c. split; [exact Hr |]. split; [vm_compute; reflexivity |]. split; [exact Hc |].
  apply (drains_lose_nothing toy_mappings 0 toy_wal _ c toy_wal_ok Hr Hc).
  right. exists (9, 1). split; [vm_compute; reflexivity |]. right. done.
Defined.
